(* ===== verification/_CoqProject ===== *)
-Q . S2P
Prelude.v
Float.v
Text.v
Gate.v
GateProofs.v
Throttle.v
Health.v
Concept.v
Links.v
Graph.v
Library.v
Search.v
HotMemory.v
JsonValue.v
Llm.v
Extract.v
ExtractProofs.v
Embeddings.v
Trace.v
Prompts.v
QueryCache.v
Clock.v
Books.v
Session.v
ApiKey.v
Crypto.v
FileRepo.v
Config.v
Lifecycle.v
Revisions.v
SearchIndex.v
Vectors.v
ConceptStore.v
ConceptStoreProofs.v
Skills.v
SkillsProofs.v
Boot.v
BootProofs.v
Fallback.v
Agent.v
AgentProofs.v
AgentTools.v
AgentDemo.v
VectorWorker.v
VectorWorkerProofs.v
Dream.v
DreamProofs.v
DreamDemo.v
DreamScheduler.v
DreamSchedulerProofs.v
DreamSchedulerDemo.v
Ingest.v
IngestProofs.v
IngestStore.v
IngestRuns.v
IngestDemo.v
Chat.v
ChatProofs.v
Users.v
Login.v
Middleware.v
MiddlewareProofs.v
Queue.v
Worker.v
McpTools.v
McpProofs.v
ChatRunner.v
ChatRunnerProofs.v
ChatApi.v
ChatApiProofs.v
