(* ===== verification/Prelude.v ===== *)
(** * Mycelium2: verified models of the server's core logic

    Mycelium2 is a self-hosted knowledge server: users keep encrypted
    bundles of markdown concepts, an LLM librarian answers queries over them
    and integrates written notes through a durable queue, and a web and an
    MCP front end share the accounts.  This development models the parts of
    its Rust crates that carry logic of their own, as executable functions
    translated from the source, and proves what makes each part correct.

    ** The parts and where they are modelled

    - The prelude: this file (results, machine integers, list searches,
      sorting), [Float] (IEEE 754 at 32 and 64 bits over the Standard
      Library's [SpecFloat]), [Text] (Rust's [str] and [char] operations,
      UTF-8), [JsonValue] (the values of serde_json), [Clock] (RFC 3339
      instants, UUIDs and hexadecimal as stored text, table lemmas), [Books]
      (books.rs and the bookshelves of lib.rs: shelves, books, ingest jobs,
      and who may see which books).
    - crates/mycelium-core: [Concept] (concept.rs, bundle.rs, shelf.rs,
      reserved.rs: the frontmatter grammar, validation, the bundle walk),
      [Links] (links.rs: code masking and the link scan), [Graph] (graph.rs,
      on [Links]), [Library] (library.rs: anchors and passages of books),
      [Search] (search.rs: tokens, BM25, rank fusion).
    - crates/mycelium-librarian: [Gate] and [GateProofs] (llm_gate.rs: the
      slots shared by all LLM runs), [Health] (llm_health.rs: the backend
      state machine), [HotMemory] (hot_memory.rs), [QueryCache]
      (query_cache.rs, on [HotMemory]), [Fallback] (fallback.rs: the
      deterministic writers used when the LLM is down, on [ConceptStore]),
      [Llm] (llm.rs: the client, its budget for the context, its limits on
      the gate, on [Gate] and [Health]), [Trace] (trace.rs), [Agent] (agent.rs:
      the tool-call loop, the tools and the cross-scope search, on
      [ConceptStore], [Graph], [Library], [Search], [HotMemory], [Vectors],
      [Llm] and [Trace]) with [Prompts] (its texts and tool specifications),
      [AgentProofs], [AgentTools] and the runs of [AgentDemo],
      [Embeddings] (embeddings.rs: the client, on [Health]), [VectorWorker]
      (vector_worker.rs: the tick that keeps the rows of [Vectors] in step,
      on [ConceptStore], [Config] and [Embeddings]) with
      [VectorWorkerProofs], [Dream] (dream.rs: the signals of a bundle and
      the pass that hands them to the agent, on [Agent], [Graph], [Vectors]
      and [Lifecycle]) with [DreamProofs] and the runs of [DreamDemo],
      [Extract] with [ExtractProofs] (extract.rs: the outline of a book and
      its catalog, on [Library] and [Llm]), [Ingest] with [IngestProofs],
      [IngestStore], [IngestRuns] and [IngestDemo] (ingest.rs, worker.rs and
      the upload and passage handlers of api.rs, on [Extract], [Books],
      [ConceptStore] and [FileRepo]),
      [Worker] (queue_worker.rs, on [Queue], [Health], [HotMemory] and
      [Crypto]).
    - crates/mycelium-store: [FileRepo] (file_repo.rs: sealed files under
      opaque names), [Lifecycle] (the lifecycle settings of revisions.rs and
      their clamps), [Revisions] (the rest of revisions.rs: the numbered
      chains of sealed snapshots), [SearchIndex] (search_index.rs: token
      rows under HMAC names, on [Search]), [Vectors] (vectors.rs: sealed
      embeddings and their process-wide cache), [ConceptStore]
      (concept_store.rs: puts, deletes and restores over those four) with
      [ConceptStoreProofs], [Skills] with [SkillsProofs] (skill_group.rs,
      skill_bundle.rs and the skill tools of the MCP server, on
      [ConceptStore]), [Chat] (chat.rs: sessions, transcripts, turns) with
      [ChatProofs], [Config] (config.rs: sealed settings), [Queue]
      (mutation_queue.rs and the queue types of models.rs).
    - crates/mycelium-web: [Middleware] with [MiddlewareProofs]
      (middleware.rs and the gates of server.rs: who a request is, what it
      may reach, the CSRF check with its parsers, on [Session], [ApiKey]
      and [Users]), [DreamScheduler] with [DreamSchedulerProofs] and
      [DreamSchedulerDemo] (dream_scheduler.rs: the wake, the rotation and
      the backfill, on [Dream], [Gate], [Health], [Config] and [Books]),
      [ChatRunner] with [ChatRunnerProofs]
      (chat_runner.rs: the detached run of a turn and its guard, on [Chat],
      [Gate], [Health] and [Llm]'s errors and events), [ChatApi] with
      [ChatApiProofs] (chat_api.rs and chat_resume.rs: endpoints, streams,
      the resume pass), [Boot] with [BootProofs] (lifecycle.rs and
      packaged_skills.rs: the sweeps and the seeding at boot, on
      [ConceptStore] and [SearchIndex]).
    - crates/mycelium-mcp: [McpTools] with [McpProofs] (auth.rs, the key
      cache of lib.rs, the mutating tools, status and receipts of tools.rs,
      seed.rs; on [Queue], [ConceptStore], [FileRepo], [ApiKey], [Users],
      [Graph] and [Fallback]).
    - crates/mycelium-crypto: [Crypto] (envelope.rs, aead.rs, keys.rs,
      seal.rs, file.rs, store_keys.rs, chat_keys.rs, service.rs).
    - crates/mycelium-auth: [Throttle] (throttle.rs), [Session] (session.rs,
      rbac.rs), [ApiKey] (api_key.rs), [Users] (users.rs, password.rs,
      totp.rs, on [Crypto] and [Session]), [Login] (login.rs, on all of
      them).

    Definitions keep the source's names; a method [T::m] is [m] or [T_m].
    A [HashMap] or a table with a key is a [gmap], a [Vec] a list, a [u64]
    a [Z] with its wrap-around written out, an instant or duration a number
    of nanoseconds.  Shared mutable state ([Mutex], SQLite tables, process
    globals) is an explicit argument and result, one critical section or SQL
    statement being one step; randomness and clock readings are arguments.
    [ConceptStore] runs in a state and error monad over its world (files,
    rows, index, vectors, revisions) and an environment that supplies
    nonces, clock readings and the faults of each access; [ChatRunner] in
    one where others act before each access and the task may die there;
    [Agent] in one whose environment is the model's endpoint, call by call,
    with what others did to the store while the model was thinking.

    ** Interfaces

    Code outside the repository is an interface with the laws the code
    relies on, instantiated for the witnesses: YAML ([Concept]), oneshot
    channels ([Gate]: any implementation of the class [Oneshot]), Unicode
    lower and upper case ([Search], [HotMemory]), the natural logarithm
    ([Search]), RFC 3339, UUID and hexadecimal text ([Clock]), hashing
    ([Session], [ApiKey], [QueryCache]), AES-GCM, HKDF, HMAC and Argon2
    ([Crypto], [Users]), JSON text ([JsonValue], [Trace]), the chat endpoint
    ([Llm]), the embeddings endpoint ([Embeddings]), JSON of the stored
    records ([Users], [Queue], [FileRepo], [SearchIndex], [Config],
    [ChatRunner], [McpTools]), TOTP ([Users]), MD5 ([Skills]), which
    characters are alphanumeric ([Extract]).  The strength of the
    cryptography (no collisions, a ciphertext opens only as it was sealed,
    no second password for a hash) is assumed by name ([strong],
    [strong_hash]) where a statement needs it, never in the interface laws.

    ** What the theorems show

    - The gate: in every reachable state of its step relation the counters
      equal the permits outstanding, no slot is idle while someone eligible
      waits, admissions respect both caps, every waiter has a seat and knows
      its position, and a waiter can always be admitted eventually; the
      rescanning dispatch loop equals one FIFO pass.
    - The queue and the drain: claims of one item exclude each other in
      every history of statements, a claim takes the oldest due item, only
      an enqueue between another's count and its insert overshoots the cap;
      a wake settles at most one item for the stated reasons, or reports
      the statement of the queue that was refused, and a drain pass
      terminates within the attempts left.
    - The concept store: in every history, faults included, a listed concept
      can be read, and what an overwrite or delete replaced is in the
      revision log before it goes; the effects of each operation, its
      guards, and delete followed by restore.  Below it, the file store and
      the encrypted index refine abstract maps, a revision in the retained
      range reads back what was recorded, a vector reads back bit for bit,
      and the vector cache serves no inactive concept however builds and
      writes interleave.  Above it, the fallback writers never overwrite and
      keep the text they extend.
    - The agent: whatever the model answers, a run asks it a bounded number
      of times and only sends conversations of the tool protocol, also after
      the budget pass; a query run changes nothing; every run is for the
      bundle a history of the concept store, so within the retention of
      revisions nothing is lost without an undo; what each write tool leaves
      behind; the tools offered are those dispatched; a search shows the
      best of one ranking over the scopes and never a book the caller may
      not see, whose text no reply depends on.
    - The vector worker: a batch of texts is answered exactly when the
      entries of the endpoint's answer are the indexed list of well-formed
      vectors within the bound on their dimensions, in any order; in
      any number of ticks the worker leaves every scope's files, rows and
      revisions alone; a drain accounts for each of its items however the
      requests end; a dead backend gets three requests in all.
    - Books: in a tidy text, the concepts of a catalog list its chapters
      and sections with links that read their texts, counted or by their
      anchors; the ingest
      worker, in every interleaving of uploads, sweeps, faults and restarts,
      claims and ingests a job at most once, keeps one upload per user where
      no sweep interferes, and an upload whose job is done can be read by
      those allowed.
    - Skills: the grouping is a partition of the listing, a bundle holds
      what the skill has and nothing outside it.
    - The MCP tools: an accepted mutation can be carried out from what it
      left, a refused one is never due, receipts show their owner's items
      only, a bearer key gives its owner's identity.
    - The boot: a sweep rewrites the concepts with the deprecated tag, the
      rest of them kept, and changes no other (the indexes apart),
      the backfill measures rows until none is left, the marker makes the
      seeding happen once per version.
    - Dreams: the duplicate and the staleness signal as declarative
      specifications; a dream asks the model exactly for its signals and
      nothing without one; within the retention of revisions, what it
      overwrites can be read back whatever the model answers.  The
      scheduler: each wake is a pass that is recorded or a skip that changes
      nothing, the rotation visits every scope once per round, no permit of
      the gate is lost, and the backfill's marker stands only when every
      scope had its pass.
    - Chats: the turn machine in every history (one open turn per session,
      one crash resume per turn, claims decide without conflicts), the
      transcript as what was said, the session cap; a run settles its turn
      unless the database refuses, a stream loses nothing of a run while it
      keeps up with the channel's 256 events, a resume pass strands no
      claim.
    - Accounts: what a login requires and changes on every branch, the life
      of an account under password changes (failed ones too), sessions, CSRF
      and roles, the API key table as an implementation of an abstract key
      store, the throttle over every history.
    - The web gates: a request that reaches a handler is public and safe, or
      on a path exempt from the CSRF check, or carries the token of a live
      session where its method is not safe, or an API key; a browser with a
      live session is let through; the form and multipart parsers read back
      what was encoded.
    - Encryption: exact conditions for content to decrypt, the master key's
      survival under credential changes, the service key under concurrent
      creation.
    - Concepts, links, graph, books and search: round trips, grammars,
      equivalence of the scanners and extractors with declarative
      specifications, the index as the index of the latest versions, ranked
      results.
    - Caches and health: what the hot set, the exact cache and the health
      state say after every history.

    ** Fuel and bounds

    Recursion is structural wherever the code's is over data.  Where fuel is
    used a theorem says it suffices: the gate's dispatch loop has one unit
    per waiter, [trim_start_matches] the length of the text, the cache's
    eviction the size of the map, the drain loop the attempts left of the
    waiting items (its refused statements end it early), the batches of the
    vector worker the texts to embed, [run_task] the twelve steps of one
    upload, the multipart parser the length of the body; the key file's
    fifty reads, the revision log's attempts, the vector cache's passes and
    the fallback's candidate names are the code's own bounds.

    ** What is not modelled

    Logging, the async runtime, and the interleaving of one operation's
    several critical sections except where stated (the gate's step relation,
    the queue's statements, the chat's statements, the vector cache, the
    readers of the key file).  Failures of the database and the file system
    are modelled in the store's components and as noted in the others.  The
    store's accesses of one ingest are one step of the worker's machine.
    WebAuthn, OIDC and TLS call protocol libraries; the other web handlers,
    the MCP dispatch and the command line are thin over the modelled parts
    ([memory_query] composes [QueryCache], [Agent] and [ConceptStore]);
    backups and migrations are file copies and SQL; rendering, styling and
    generated assets carry no logic of interest. *)
From Stdlib Require Export ZArith Lia SpecFloat Sorted.
From stdpp Require Export prelude gmap strings option list.

(** ** Machine integers

    A Rust [u32]/[u64]/[usize] is a [Z] in range; the arithmetic of the
    release profile wraps, [saturating_*] clamps. *)
Declare Scope rust_scope.
Delimit Scope rust_scope with rust.

Definition u32_max : Z := 4294967295.
Definition u64_max : Z := 18446744073709551615.

(** [usize] is 64 bits wide on the supported targets. *)
Definition usize_max : Z := u64_max.

Definition wrap32 (z : Z) : Z := z `mod` 4294967296.
Definition wrap64 (z : Z) : Z := z `mod` 18446744073709551616.

Definition u32_saturating_add (a b : Z) : Z := Z.min u32_max (a + b).
(** [saturating_sub] on any unsigned width. *)
Definition saturating_sub (a b : Z) : Z := Z.max 0 (a - b).
Definition clamp (n lo hi : Z) : Z := Z.max lo (Z.min n hi).

Notation "a '+32' b" := (wrap32 (a + b)) (at level 50) : rust_scope.
Notation "a '+64' b" := (wrap64 (a + b)) (at level 50) : rust_scope.

(** A [Uuid] is its 128-bit value. *)
Abbreviation Uuid := N (only parsing).

(** ** Results *)
Inductive result (A E : Type) : Type :=
| Ok (a : A)
| Err (e : E).
Arguments Ok {A E} a.
Arguments Err {A E} e.

Definition result_bind {A B E} (m : result A E) (k : A -> result B E) : result B E :=
  match m with Ok a => k a | Err e => Err e end.

Definition result_map_err {A E F} (f : E -> F) (m : result A E) : result A F :=
  match m with Ok a => Ok a | Err e => Err (f e) end.

(** [x.ok_or(e)] *)
Definition ok_or {A E} (e : E) (o : option A) : result A E :=
  match o with Some a => Ok a | None => Err e end.

Definition result_ok {A E} (m : result A E) : option A :=
  match m with Ok a => Some a | Err _ => None end.

Notation "'let?' x ':=' m 'in' k" := (result_bind m (fun x => k))
  (at level 10, x binder, m at level 200, k at level 200) : rust_scope.

Global Instance result_eq_dec `{EqDecision A, EqDecision E} : EqDecision (result A E).
Proof. solve_decision. Defined.

(** ** Automation *)
Create HintDb mycelium.

(** Case analysis on every [match]/[if] scrutinee in the goal. *)
Ltac split_matches := repeat (case_match; simplify_eq/=; try done).

(** The same on a hypothesis, keeping the equations. *)
Ltac split_matches_in H :=
  repeat (match type of H with
          | context [match ?x with _ => _ end] => destruct x eqn:?
          end; simplify_eq/=; try done).

(** Boolean comparisons to propositions, everywhere. *)
Ltac to_prop :=
  repeat match goal with
  | H : (_ && _)%bool = true |- _ => apply andb_prop in H; destruct H
  | H : (_ || _)%bool = false |- _ => apply orb_false_elim in H; destruct H
  | H : negb _ = true |- _ => apply negb_true_iff in H
  | H : negb _ = false |- _ => apply negb_false_iff in H
  | H : (_ <? _)%Z = true |- _ => apply Z.ltb_lt in H
  | H : (_ <? _)%Z = false |- _ => apply Z.ltb_ge in H
  | H : (_ <=? _)%Z = true |- _ => apply Z.leb_le in H
  | H : (_ <=? _)%Z = false |- _ => apply Z.leb_gt in H
  | H : (_ =? _)%Z = true |- _ => apply Z.eqb_eq in H
  | H : (_ =? _)%Z = false |- _ => apply Z.eqb_neq in H
  | H : (_ =? _)%N = true |- _ => apply N.eqb_eq in H
  | H : (_ =? _)%N = false |- _ => apply N.eqb_neq in H
  | H : bool_decide _ = true |- _ => apply bool_decide_eq_true in H
  | H : bool_decide _ = false |- _ => apply bool_decide_eq_false in H
  end.

(** ** Iterator operations of the standard library *)

(** [iter().position(f)] *)
Fixpoint position {A} (f : A -> bool) (l : list A) : option nat :=
  match l with
  | [] => None
  | x :: l' => if f x then Some 0%nat else S <$> position f l'
  end.

(** [Option::is_some] *)
Definition is_some {A} (o : option A) : bool := match o with Some _ => true | None => false end.

Fixpoint find_first {A} (f : A -> bool) (l : list A) : option A :=
  match l with
  | [] => None
  | x :: l' => if f x then Some x else find_first f l'
  end.

(** [retain] / [filter] with a boolean closure is the Standard Library's
    [List.filter]; [iter().any] and [iter().all] its [existsb]/[forallb]. *)
Abbreviation retain := List.filter (only parsing).

Lemma position_Some {A} (f : A -> bool) l i :
  position f l = Some i <->
  exists l1 x l2, l = l1 ++ x :: l2 /\ length l1 = i /\ f x = true /\
    Forall (fun y => f y = false) l1.
Proof.
  split.
  - revert i; induction l as [|y l IH]; intros i; simpl; [done|].
    destruct (f y) eqn:Hy; intros H; simplify_eq/=.
    + exists [], y, l. eauto.
    + destruct (position f l) as [j|] eqn:Hp; simplify_eq/=.
      destruct (IH j eq_refl) as (l1 & x & l2 & -> & <- & Hx & Hl1).
      exists (y :: l1), x, l2. eauto.
  - intros (l1 & x & l2 & -> & <- & Hx & Hl1).
    induction Hl1 as [|y l1 Hy Hl1 IH]; simpl; [by rewrite Hx|].
    by rewrite Hy, IH.
Qed.

Lemma position_None {A} (f : A -> bool) l :
  position f l = None <-> Forall (fun y => f y = false) l.
Proof.
  induction l as [|y l IH]; simpl; [done|].
  destruct (f y) eqn:Hy.
  - split; [done|]. intros H. inversion H; congruence.
  - rewrite fmap_None, IH. split; [by constructor|]. by inversion 1.
Qed.

Lemma retain_all {A} (f : A -> bool) l :
  Forall (fun x => f x = true) l -> retain f l = l.
Proof. induction 1 as [|x l Hx _ IH]; simpl; [done|]. by rewrite Hx, IH. Qed.

Lemma retain_retain {A} (f g : A -> bool) l : retain f (retain g l) = retain (fun x => g x && f x) l.
Proof.
  induction l as [|x l IH]; simpl; [done|]. destruct (g x); simpl; [|done]. by destruct (f x); rewrite IH.
Qed.

Lemma retain_ext {A} (f g : A -> bool) l : (forall x, x ∈ l -> f x = g x) -> retain f l = retain g l.
Proof.
  induction l as [|x l IH]; intros H; simpl; [done|]. rewrite (H x) by left.
  rewrite IH by (intros; apply H; by right). done.
Qed.
Lemma elem_of_retain {A} (f : A -> bool) l x : x ∈ retain f l <-> x ∈ l /\ f x = true.
Proof. rewrite !list_elem_of_In. apply List.filter_In. Qed.
Lemma retain_fmap {A B} (g : A -> B) (f : B -> bool) l : retain f (g <$> l) = g <$> retain (fun x => f (g x)) l.
Proof. induction l as [|x l IH]; [done|]. cbn. destruct (f (g x)); cbn; by rewrite <- IH. Qed.
Lemma retain_sub {A} (f : A -> bool) l : retain f l `sublist_of` l.
Proof. induction l as [|x l IH]; simpl; [done|]. case_match; by constructor. Qed.
Lemma retain_nil {A} (f : A -> bool) l : retain f l = [] <-> (forall x, x ∈ l -> f x = false).
Proof.
  split.
  - intros E x Hx. apply not_true_is_false. intros H. assert (x ∈ retain f l) as Hin by by apply elem_of_retain.
    rewrite E in Hin. by apply not_elem_of_nil in Hin.
  - intros H. destruct (retain f l) as [|x r] eqn:E; [done|].
    assert (x ∈ retain f l) as [Hx Hf]%elem_of_retain by (rewrite E; by left). by rewrite (H _ Hx) in Hf.
Qed.
Lemma existsb_true {A} (f : A -> bool) l : existsb f l = true <-> exists x, x ∈ l /\ f x = true.
Proof. rewrite List.existsb_exists. by setoid_rewrite list_elem_of_In. Qed.
Lemma existsb_false {A} (f : A -> bool) l : existsb f l = false <-> forall x, x ∈ l -> f x = false.
Proof.
  split.
  - intros E x Hx. apply not_true_is_false. intros H. enough (existsb f l = true) by congruence. apply existsb_true. eauto.
  - intros H. apply not_true_is_false. intros (x & Hx & E)%existsb_true. by rewrite (H _ Hx) in E.
Qed.
Lemma retain_length_le {A} (f g : A -> bool) l :
  (forall x, x ∈ l -> f x = true -> g x = true) -> (length (retain f l) <= length (retain g l))%nat.
Proof.
  induction l as [|x l IH]; intros H; simpl; [done|].
  assert (forall y, y ∈ l -> f y = true -> g y = true) as H' by (intros y Hy; apply H; by right). specialize (IH H').
  destruct (f x) eqn:E; simpl; [|case_match; simpl; lia]. rewrite (H x (list_elem_of_here _ _) E). simpl. lia.
Qed.

Lemma retain_perm {A} (f : A -> bool) l l' : l ≡ₚ l' -> retain f l ≡ₚ retain f l'.
Proof.
  induction 1 as [|x l l' _ IH|x y l|l1 l2 l3 _ IH1 _ IH2]; simpl; [done|..].
  - destruct (f x); by rewrite IH.
  - destruct (f x), (f y); done || constructor.
  - by rewrite IH1.
Qed.

Lemma elem_of_middle_ne {A} (l1 l2 : list A) x y :
  y ∈ l1 ++ x :: l2 -> y <> x -> y ∈ l1 ++ l2.
Proof.
  rewrite !elem_of_app, elem_of_cons. intros [H|[->|H]] Hne; [by left|done|by right].
Qed.

Lemma elem_of_middle_weaken {A} (l1 l2 : list A) x y :
  y ∈ l1 ++ l2 -> y ∈ l1 ++ x :: l2.
Proof. rewrite !elem_of_app, elem_of_cons. intros [H|H]; [by left|by right; right]. Qed.

Lemma delete_middle_nat {A} (l1 l2 : list A) x :
  delete (length l1) (l1 ++ x :: l2) = l1 ++ l2.
Proof. induction l1; f_equal/=; auto. Qed.

Lemma lookup_middle_nat {A} (l1 l2 : list A) x :
  (l1 ++ x :: l2) !! length l1 = Some x.
Proof. by rewrite list_lookup_middle. Qed.

Lemma wrap64_small z : (0 <= z < 18446744073709551616)%Z -> wrap64 z = z.
Proof. intros. unfold wrap64. by apply Z.mod_small. Qed.

Lemma wrap32_small z : (0 <= z < 4294967296)%Z -> wrap32 z = z.
Proof. intros. unfold wrap32. by apply Z.mod_small. Qed.

Lemma clamp_bounds n lo hi : (lo <= hi)%Z -> (lo <= clamp n lo hi <= hi)%Z.
Proof. unfold clamp. lia. Qed.

Lemma clamp_id n lo hi : (lo <= n <= hi)%Z -> clamp n lo hi = n.
Proof. unfold clamp. lia. Qed.

#[export] Hint Resolve clamp_bounds wrap64_small wrap32_small : mycelium.

(** ** Sorting

    [slice::sort_by]: a stable sort under a three-way comparison. *)
Section SortBy.
Context {A : Type} (cmp : A -> A -> comparison).

Fixpoint insert_by (x : A) (l : list A) : list A :=
  match l with
  | [] => [x]
  | y :: l' => match cmp x y with Gt => y :: insert_by x l' | _ => x :: l end
  end.

Fixpoint sort_by (l : list A) : list A :=
  match l with
  | [] => []
  | x :: l' => insert_by x (sort_by l')
  end.

Lemma insert_by_perm x l : insert_by x l ≡ₚ x :: l.
Proof.
  induction l as [|y l IH]; simpl; [done|]. destruct (cmp x y); try done.
  rewrite IH. apply Permutation_swap.
Qed.

Lemma sort_by_perm l : sort_by l ≡ₚ l.
Proof. induction l as [|x l IH]; simpl; [done|]. by rewrite insert_by_perm, IH. Qed.

(** [x] does not come after [y]. *)
Definition ordered (x y : A) : Prop := cmp x y <> Gt.

(** The comparison is a total preorder on the elements satisfying [P]
    (the domain on which the sort is specified). *)
Record TotalOn (P : A -> Prop) : Prop := {
  total_cmp x y : P x -> P y -> ordered x y \/ ordered y x;
  trans_cmp x y z : P x -> P y -> P z -> ordered x y -> ordered y z -> ordered x z }.

Lemma insert_by_sorted P x l :
  TotalOn P -> P x -> Forall P l -> StronglySorted ordered l ->
  StronglySorted ordered (insert_by x l).
Proof.
  intros HT Hx Hl Hs. induction Hs as [|y l Hs IH Hy]; simpl; [by repeat constructor|].
  apply Forall_cons in Hl as [Py Hl]. destruct (cmp x y) eqn:Hc.
  1,2: constructor; [by constructor|]; constructor; [by unfold ordered; rewrite Hc|];
    rewrite Forall_forall in Hy, Hl |- *; intros z Hz;
    apply (trans_cmp _ HT x y z); auto; unfold ordered; by rewrite Hc.
  constructor; [by apply IH|]. rewrite insert_by_perm. constructor; [|done].
  destruct (total_cmp _ HT x y Hx Py) as [H|H]; [|done]. unfold ordered in H. congruence.
Qed.

Lemma sort_by_sorted P l :
  TotalOn P -> Forall P l -> StronglySorted ordered (sort_by l).
Proof.
  intros HT Hl. induction Hl as [|x l Hx Hl IH]; simpl; [constructor|].
  eapply insert_by_sorted; [done..|by rewrite sort_by_perm|done].
Qed.

End SortBy.
Arguments ordered {A} cmp x y.
Arguments TotalOn {A} cmp P.

(** [a.then_with(|| b)] *)
Definition then_with (a b : comparison) : comparison :=
  match a with Eq => b | _ => a end.
