(* ===== verification/Float.v ===== *)
(** * IEEE 754 arithmetic at the widths the program uses

    [f32] scores (search ranking) and [f64] counters (queue waits) are
    computed with the Standard Library's executable specification of
    IEEE 754 with round-to-nearest-even; nothing is approximated by
    rationals. *)
From S2P Require Import Prelude.

Abbreviation f32 := spec_float (only parsing).
Abbreviation f64 := spec_float (only parsing).

Definition f32_add : f32 -> f32 -> f32 := SFadd 24 128.
Definition f32_sub : f32 -> f32 -> f32 := SFsub 24 128.
Definition f32_mul : f32 -> f32 -> f32 := SFmul 24 128.
Definition f32_div : f32 -> f32 -> f32 := SFdiv 24 128.
Definition f32_sqrt : f32 -> f32 := SFsqrt 24 128.
(** [z as f32] *)
Definition f32_of_Z (z : Z) : f32 := binary_normalize 24 128 z 0 false.

Definition f64_add : f64 -> f64 -> f64 := SFadd 53 1024.
Definition f64_div : f64 -> f64 -> f64 := SFdiv 53 1024.
(** [z as f64] *)
Definition f64_of_Z (z : Z) : f64 := binary_normalize 53 1024 z 0 false.

Definition f32_zero : f32 := S754_zero false.

(** [==] on floats: false on NaN, [0.0 == -0.0]. *)
Definition f32_eqb : f32 -> f32 -> bool := SFeqb.
(** [partial_cmp] *)
Definition partial_cmp : f32 -> f32 -> option comparison := SFcompare.

Definition is_nan (x : f32) : bool :=
  match x with S754_nan => true | _ => false end.

(** [Duration::as_secs_f64] on a duration in nanoseconds. *)
Definition as_secs_f64 (nanos : Z) : f64 :=
  f64_add (f64_of_Z (nanos `div` 1000000000))
          (f64_div (f64_of_Z (nanos `mod` 1000000000)) (f64_of_Z 1000000000)).

(** ** The order on non-NaN values *)

(** A key whose lexicographic order is the order of the floats. *)
Definition float_key (x : f32) : Z * Z * Z :=
  match x with
  | S754_infinity true => (-2, 0, 0)
  | S754_finite true m e => (-1, - e, Z.neg m)
  | S754_finite false m e => (1, e, Z.pos m)
  | S754_infinity false => (2, 0, 0)
  | _ => (0, 0, 0)
  end%Z.

Definition key_cmp (a b : Z * Z * Z) : comparison :=
  then_with (a.1.1 ?= b.1.1)%Z (then_with (a.1.2 ?= b.1.2)%Z (a.2 ?= b.2)%Z).

Lemma partial_cmp_key x y :
  is_nan x = false -> is_nan y = false ->
  partial_cmp x y = Some (key_cmp (float_key x) (float_key y)).
Proof.
  unfold key_cmp, partial_cmp, SFcompare, then_with.
  destruct x as [[]|[]| |[] m1 e1], y as [[]|[]| |[] m2 e2]; simpl; intros; try done.
  - f_equal. rewrite Z.compare_opp, (Z.compare_antisym e1 e2). by destruct (e1 ?= e2)%Z.
  - destruct (e1 ?= e2)%Z; done.
Qed.

Lemma key_cmp_opp a b : key_cmp b a = CompOpp (key_cmp a b).
Proof.
  unfold key_cmp, then_with.
  rewrite (Z.compare_antisym a.1.1 b.1.1), (Z.compare_antisym a.1.2 b.1.2), (Z.compare_antisym a.2 b.2).
  destruct (a.1.1 ?= b.1.1)%Z; simpl; try done. by destruct (a.1.2 ?= b.1.2)%Z.
Qed.

Lemma key_cmp_lex a b :
  match key_cmp a b with
  | Eq => a = b
  | Lt => a.1.1 < b.1.1 \/ a.1.1 = b.1.1 /\ (a.1.2 < b.1.2 \/ a.1.2 = b.1.2 /\ a.2 < b.2)
  | Gt => b.1.1 < a.1.1 \/ a.1.1 = b.1.1 /\ (b.1.2 < a.1.2 \/ a.1.2 = b.1.2 /\ b.2 < a.2)
  end%Z.
Proof.
  unfold key_cmp, then_with. destruct a as [[a1 a2] a3], b as [[b1 b2] b3]. simpl.
  destruct (Z.compare_spec a1 b1); [|lia..]. destruct (Z.compare_spec a2 b2); [|lia..].
  destruct (Z.compare_spec a3 b3); [by subst|lia..].
Qed.

Lemma key_cmp_eq a b : key_cmp a b = Eq -> a = b.
Proof. intros H. pose proof (key_cmp_lex a b) as H'. by rewrite H in H'. Qed.

Lemma key_cmp_lt_trans a b c : key_cmp a b = Lt -> key_cmp b c = Lt -> key_cmp a c = Lt.
Proof.
  intros H1 H2. pose proof (key_cmp_lex a b) as L1. pose proof (key_cmp_lex b c) as L2.
  pose proof (key_cmp_lex a c) as L3. rewrite H1 in L1. rewrite H2 in L2.
  destruct (key_cmp a c); [subst; lia|done|lia].
Qed.

(** Descending by score, ties ascending by key of another total order: the
    comparison of the result lists. *)
Section Ranking.
Context {A : Type} (score : A -> f32) (name_cmp : A -> A -> comparison).
Definition rank_cmp (a b : A) : comparison :=
  then_with (match partial_cmp (score b) (score a) with Some c => c | None => Eq end)
            (name_cmp a b).

Lemma rank_cmp_total (P : A -> Prop) :
  (forall x, P x -> is_nan (score x) = false) ->
  TotalOn name_cmp P ->
  TotalOn rank_cmp P.
Proof.
  intros Hnan [Ht Htr].
  assert (Hc : forall x y, P x -> P y ->
    rank_cmp x y = then_with (key_cmp (float_key (score y)) (float_key (score x))) (name_cmp x y)).
  { intros x y Hx Hy. unfold rank_cmp. by rewrite partial_cmp_key by auto. }
  split; unfold ordered in *.
  - intros x y Hx Hy. rewrite !Hc by done.
    rewrite (key_cmp_opp (float_key (score y)) (float_key (score x))).
    destruct (key_cmp (float_key (score y)) (float_key (score x))); simpl; [by apply Ht|by left|by right].
  - intros x y z Hx Hy Hz. rewrite !Hc by done. unfold then_with.
    destruct (key_cmp (float_key (score y)) (float_key (score x))) eqn:E1; [| |done].
    + apply key_cmp_eq in E1 as <-. destruct (key_cmp (float_key (score z)) (float_key (score y)));
        [by apply Htr|done..].
    + destruct (key_cmp (float_key (score z)) (float_key (score y))) eqn:E2; [| |done].
      * apply key_cmp_eq in E2 as ->. by rewrite E1.
      * by rewrite (key_cmp_lt_trans _ _ _ E2 E1).
Qed.
End Ranking.
