(* ===== verification/Text.v ===== *)
(** * Rust strings

    A [str] is the list of its [char]s (Unicode scalar values); [len()]
    and byte offsets count UTF-8 bytes.  The functions are those of the
    standard library's [str] and [char] that the modelled code calls. *)
From S2P Require Import Prelude.

Abbreviation char := N (only parsing).
Abbreviation str := (list N) (only parsing).

(** An ASCII literal. *)
Definition lit (s : string) : str := Ascii.N_of_ascii <$> String.list_ascii_of_string s.

#[global] Arguments lit _ : simpl never.

Definition nl : char := 10.
Definition space : char := 32.

(** ** Characters *)
Definition in_range (lo hi c : char) : bool := ((lo <=? c) && (c <=? hi))%N.
Definition is_ascii_digit (c : char) : bool := in_range 48 57 c.
Definition is_ascii_lowercase (c : char) : bool := in_range 97 122 c.
Definition is_ascii_uppercase (c : char) : bool := in_range 65 90 c.
Definition is_ascii_alphanumeric (c : char) : bool :=
  is_ascii_digit c || is_ascii_lowercase c || is_ascii_uppercase c.
Definition to_ascii_lowercase (c : char) : char :=
  if is_ascii_uppercase c then (c + 32)%N else c.

(** [char::is_whitespace]: the Unicode White_Space property. *)
Definition is_whitespace (c : char) : bool :=
  in_range 9 13 c || (c =? 32)%N || (c =? 133)%N || (c =? 160)%N || (c =? 5760)%N ||
  in_range 8192 8202 c || (c =? 8232)%N || (c =? 8233)%N || (c =? 8239)%N ||
  (c =? 8287)%N || (c =? 12288)%N.

(** [char::len_utf8] *)
Definition len_utf8 (c : char) : nat :=
  if (c <? 128)%N then 1 else if (c <? 2048)%N then 2 else if (c <? 65536)%N then 3 else 4.

(** [str::len] *)
Definition byte_len (s : str) : nat := sum_list_with len_utf8 s.

(** [&s[..n]] and [&s[n..]] at a char boundary. *)
Fixpoint slice_to (s : str) (n : nat) : str :=
  match n with
  | O => []
  | _ => match s with
         | [] => []
         | c :: s' => c :: slice_to s' (n - len_utf8 c)
         end
  end.
Fixpoint slice_from (s : str) (n : nat) : str :=
  match n with
  | O => s
  | _ => match s with
         | [] => []
         | c :: s' => slice_from s' (n - len_utf8 c)
         end
  end.
(** [&s[a..b]] *)
Definition slice (s : str) (a b : nat) : str := slice_to (slice_from s a) (b - a).

(** ** Comparison *)

(** [==] on strings *)
Fixpoint str_eqb (a b : str) : bool :=
  match a, b with
  | [], [] => true
  | x :: a, y :: b => (x =? y)%N && str_eqb a b
  | _, _ => false
  end.

(** [Ord for str]: byte-lexicographic, which on UTF-8 is lexicographic on
    the scalar values. *)
Fixpoint str_cmp (a b : str) : comparison :=
  match a, b with
  | [], [] => Eq
  | [], _ :: _ => Lt
  | _ :: _, [] => Gt
  | x :: a, y :: b => match (x ?= y)%N with Eq => str_cmp a b | c => c end
  end.

(** ** Prefixes, suffixes, searching *)
Fixpoint strip_prefix (p s : str) : option str :=
  match p, s with
  | [], _ => Some s
  | _ :: _, [] => None
  | x :: p, y :: s => if (x =? y)%N then strip_prefix p s else None
  end.

Definition starts_with (p s : str) : bool :=
  match strip_prefix p s with Some _ => true | None => false end.

Definition strip_suffix (p s : str) : option str :=
  reverse <$> strip_prefix (reverse p) (reverse s).

Definition ends_with (p s : str) : bool := starts_with (reverse p) (reverse s).

(** The text before and after the first occurrence of [p]
    ([split_once], [find]). *)
Fixpoint split_once (p s : str) : option (str * str) :=
  match strip_prefix p s with
  | Some rest => Some ([], rest)
  | None =>
      match s with
      | [] => None
      | c :: s' => match split_once p s' with
                   | Some (a, b) => Some (c :: a, b)
                   | None => None
                   end
      end
  end.

(** The last occurrence ([rsplit_once]). *)
Definition rsplit_once (p s : str) : option (str * str) :=
  match split_once (reverse p) (reverse s) with
  | Some (a, b) => Some (reverse b, reverse a)
  | None => None
  end.

Definition contains (p s : str) : bool :=
  match split_once p s with Some _ => true | None => false end.

(** [replace(p, r)] for a non-empty [p]: left to right, not overlapping;
    [skip] characters of the current occurrence remain to be passed. *)
Fixpoint replace_from (p r : str) (skip : nat) (s : str) : str :=
  match s with
  | [] => []
  | c :: s' =>
      match skip with
      | S k => replace_from p r k s'
      | O => if starts_with p s then r ++ replace_from p r (pred (length p)) s'
             else c :: replace_from p r 0 s'
      end
  end.
Definition replace (p r : str) : str -> str := replace_from p r 0.

(** ** Trimming *)
Fixpoint trim_start_if (f : char -> bool) (s : str) : str :=
  match s with
  | [] => []
  | c :: s' => if f c then trim_start_if f s' else s
  end.
Definition trim_end_if (f : char -> bool) (s : str) : str :=
  reverse (trim_start_if f (reverse s)).
Definition trim_start : str -> str := trim_start_if is_whitespace.
Definition trim_end : str -> str := trim_end_if is_whitespace.
Definition trim (s : str) : str := trim_end (trim_start s).
(** [trim_start_matches(p)]: every leading occurrence of a string. *)
Fixpoint trim_start_matches_fuel (fuel : nat) (p s : str) : str :=
  match fuel with
  | O => s
  | S fuel => match strip_prefix p s with
              | Some rest => trim_start_matches_fuel fuel p rest
              | None => s
              end
  end.
Definition trim_start_matches (p s : str) : str := trim_start_matches_fuel (length s) p s.
(** [trim_matches(c)] *)
Definition trim_matches (c : char) (s : str) : str :=
  trim_end_if (N.eqb c) (trim_start_if (N.eqb c) s).

(** ** Splitting *)
Fixpoint split_if (f : char -> bool) (s : str) : list str :=
  match s with
  | [] => [[]]
  | c :: s' =>
      if f c then [] :: split_if f s'
      else match split_if f s' with
           | l :: ls => (c :: l) :: ls
           | [] => [[c]]
           end
  end.
Definition split (c : char) : str -> list str := split_if (N.eqb c).

(** [splitn(n, c)]: at most [n] pieces, the last one unsplit. *)
Fixpoint splitn (n : nat) (c : char) (s : str) : list str :=
  match n with
  | O => []
  | S O => [s]
  | S n' => match split_once [c] s with
            | Some (a, b) => a :: splitn n' c b
            | None => [s]
            end
  end.

(** [split_inclusive('\n')]: every line with its terminator. *)
Fixpoint split_inclusive (s : str) : list str :=
  match s with
  | [] => []
  | c :: s' =>
      if (c =? nl)%N then [c] :: split_inclusive s'
      else match split_inclusive s' with
           | [] => [[c]]
           | l :: ls => (c :: l) :: ls
           end
  end.

(** [lines()]: lines without their [\n] or [\r\n]. *)
Definition strip_line (l : str) : str :=
  match strip_suffix [nl] l with
  | Some l' => match strip_suffix [13%N] l' with Some l'' => l'' | None => l' end
  | None => l
  end.
Definition lines (s : str) : list str := strip_line <$> split_inclusive s.

Definition split_whitespace (s : str) : list str :=
  retain (fun w => negb (bool_decide (w = []))) (split_if is_whitespace s).

(** [join] *)
Fixpoint join (sep : str) (ls : list str) : str :=
  match ls with
  | [] => []
  | [l] => l
  | l :: ls' => l ++ sep ++ join sep ls'
  end.

(** ** Numbers *)

(** The digits of [s], most significant first, onto [acc]; [None] on a
    non-digit or past [u32::MAX]. *)
Fixpoint parse_digits (s : str) (acc : Z) : option Z :=
  match s with
  | [] => Some acc
  | c :: s' =>
      if is_ascii_digit c then
        let acc' := (acc * 10 + Z.of_N (c - 48))%Z in
        if (acc' <=? u32_max)%Z then parse_digits s' acc' else None
      else None
  end.

(** [str::parse::<u32>]: an optional [+], then digits. *)
Definition parse_u32 (s : str) : option Z :=
  match s with
  | [] => None
  | c :: s' =>
      let digits := if (c =? 43)%N then s' else s in
      match digits with [] => None | _ => parse_digits digits 0 end
  end.

(** Decimal digits, least significant first. *)
Fixpoint digits_rev (fuel : nat) (n : N) : str :=
  match fuel with
  | O => []
  | S fuel => (48 + n mod 10)%N ::
      (if (n / 10 =? 0)%N then [] else digits_rev fuel (n / 10))
  end.
(** [format!("{n}")] *)
Definition show_N (n : N) : str := reverse (digits_rev (S (N.to_nat (N.log2 n))) n).

(** ** Facts *)
Lemma str_eqb_eq a b : str_eqb a b = true <-> a = b.
Proof.
  revert b. induction a as [|x a IH]; intros [|y b]; simpl; try done.
  rewrite andb_true_iff, N.eqb_eq, IH. naive_solver.
Qed.

Lemma str_cmp_eq a b : str_cmp a b = Eq <-> a = b.
Proof.
  revert b. induction a as [|x a IH]; intros [|y b]; simpl; try done.
  destruct (N.compare_spec x y) as [->|H|H]; [rewrite IH| |]; split; intros; simplify_eq; try done; lia.
Qed.

Lemma str_cmp_refl a : str_cmp a a = Eq.
Proof. by apply str_cmp_eq. Qed.

Lemma str_cmp_opp a b : str_cmp b a = CompOpp (str_cmp a b).
Proof.
  revert b. induction a as [|x a IH]; intros [|y b]; simpl; try done.
  rewrite (N.compare_antisym x y). destruct (N.compare_spec x y); simpl; [apply IH|done..].
Qed.

Lemma str_cmp_lt_trans a b c :
  str_cmp a b = Lt -> str_cmp b c = Lt -> str_cmp a c = Lt.
Proof.
  revert b c. induction a as [|x a IH]; intros [|y b] [|z c]; simpl; try done.
  destruct (N.compare_spec x y) as [->|Hxy|Hxy]; [|intros _|done].
  - destruct (N.compare_spec y z); [apply IH|done..].
  - destruct (N.compare_spec y z) as [->|Hyz|Hyz]; [intros _|intros _|done].
    + by rewrite (proj2 (N.compare_lt_iff x z)).
    + by rewrite (proj2 (N.compare_lt_iff x z)) by lia.
Qed.

(** [str_cmp] is a total order. *)
Lemma str_cmp_total P : TotalOn str_cmp P.
Proof.
  split; unfold ordered.
  - intros x y _ _. rewrite (str_cmp_opp x y). destruct (str_cmp x y); simpl; auto.
  - intros x y z _ _ _ Hxy Hyz.
    destruct (str_cmp x y) eqn:E1; [apply str_cmp_eq in E1 as ->; done| |done].
    destruct (str_cmp y z) eqn:E2; [apply str_cmp_eq in E2 as <-; congruence| |done].
    by rewrite (str_cmp_lt_trans _ _ _ E1 E2).
Qed.

Lemma strip_prefix_Some p s r : strip_prefix p s = Some r <-> s = p ++ r.
Proof.
  revert s. induction p as [|x p IH]; intros [|y s]; simpl; try naive_solver.
  destruct (N.eqb_spec x y) as [->|]; [rewrite IH|]; naive_solver.
Qed.

Lemma starts_with_spec p s : starts_with p s = true <-> exists r, s = p ++ r.
Proof.
  unfold starts_with. destruct (strip_prefix p s) as [r|] eqn:H.
  - apply strip_prefix_Some in H as ->. naive_solver.
  - split; [done|]. intros [r ->]. by rewrite (proj2 (strip_prefix_Some p _ r)) in H.
Qed.

Lemma ends_with_spec p s : ends_with p s = true <-> exists r, s = r ++ p.
Proof.
  unfold ends_with. rewrite starts_with_spec. split.
  - intros [r Hr]. exists (reverse r).
    by rewrite <- (reverse_involutive s), Hr, reverse_app, reverse_involutive.
  - intros [r ->]. exists (reverse r). by rewrite reverse_app.
Qed.

Lemma split_inclusive_concat s : concat (split_inclusive s) = s.
Proof.
  induction s as [|c s IH]; simpl; [done|]. destruct (c =? nl)%N; simpl; [by rewrite IH|].
  destruct (split_inclusive s) as [|l ls]; simpl in *; by subst.
Qed.

Lemma split_inclusive_nonempty s : Forall (fun l => l <> []) (split_inclusive s).
Proof.
  induction s as [|c s IH]; simpl; [done|]. destruct (c =? nl)%N; [by constructor|].
  destruct (split_inclusive s) as [|l ls]; [by repeat constructor|].
  apply Forall_cons in IH as [_ IH]. by constructor.
Qed.

Lemma byte_len_app a b : byte_len (a ++ b) = (byte_len a + byte_len b)%nat.
Proof. unfold byte_len. apply sum_list_with_app. Qed.

Lemma len_utf8_bounds c : (1 <= len_utf8 c <= 4)%nat.
Proof. unfold len_utf8. repeat case_match; lia. Qed.

Lemma byte_len_cons c s : byte_len (c :: s) = (len_utf8 c + byte_len s)%nat.
Proof. done. Qed.

Lemma slice_to_0 s : slice_to s 0 = [].
Proof. by destruct s. Qed.
Lemma slice_from_0 s : slice_from s 0 = s.
Proof. by destruct s. Qed.

Lemma slice_to_app a b : slice_to (a ++ b) (byte_len a) = a.
Proof.
  induction a as [|c a IH]; [apply slice_to_0|]. rewrite byte_len_cons.
  pose proof (len_utf8_bounds c). destruct (len_utf8 c + byte_len a)%nat as [|n] eqn:Hn; [lia|].
  simpl app. cbn [slice_to]. replace (S n - len_utf8 c)%nat with (byte_len a) by lia. by rewrite IH.
Qed.

Lemma slice_from_app a b : slice_from (a ++ b) (byte_len a) = b.
Proof.
  induction a as [|c a IH]; [apply slice_from_0|]. rewrite byte_len_cons.
  pose proof (len_utf8_bounds c). destruct (len_utf8 c + byte_len a)%nat as [|n] eqn:Hn; [lia|].
  simpl app. cbn [slice_from]. by replace (S n - len_utf8 c)%nat with (byte_len a) by lia.
Qed.

Lemma slice_app a b c : slice (a ++ b ++ c) (byte_len a) (byte_len a + byte_len b) = b.
Proof.
  unfold slice. rewrite slice_from_app. replace (byte_len a + byte_len b - byte_len a)%nat
    with (byte_len b) by lia. apply slice_to_app.
Qed.

(** A text that is empty or ends its last line. *)
Definition line_aligned (a : str) : Prop := a = [] \/ exists a', a = a' ++ [nl].

Lemma split_inclusive_app a b :
  line_aligned a -> split_inclusive (a ++ b) = split_inclusive a ++ split_inclusive b.
Proof.
  intros [->|[a' ->]]; [done|]. rewrite <- app_assoc. simpl.
  induction a' as [|c a' IH]; simpl; [done|]. rewrite IH. destruct (c =? nl)%N; [done|].
  destruct (split_inclusive (a' ++ [nl])) as [|l ls] eqn:H; [|done].
  apply (f_equal (@concat N)) in H. rewrite split_inclusive_concat in H. by destruct a'.
Qed.

(** A single line: its terminator, if any, is its last character. *)
Definition is_line (l : str) : Prop := l <> [] /\ exists l', not (nl ∈ l') /\ (l = l' \/ l = (l' ++ [nl])).

Lemma split_inclusive_line l b :
  is_line l -> (b = [] \/ line_aligned l) -> split_inclusive (l ++ b) = l :: split_inclusive b.
Proof.
  intros (Hne & l' & Hnl & Hl) Hb.
  assert (Hlast : split_inclusive l = [l]).
  { destruct Hl as [->| ->].
    - clear Hb. induction l' as [|c l' IH]; [done|]. simpl. apply not_elem_of_cons in Hnl as [Hc Hnl].
      destruct (N.eqb_spec c nl); [congruence|]. destruct l'; [done|]. by rewrite IH.
    - clear Hb Hne. induction l' as [|c l' IH]; [done|]. simpl. apply not_elem_of_cons in Hnl as [Hc Hnl].
      destruct (N.eqb_spec c nl); [congruence|]. by rewrite IH. }
  destruct Hb as [->|Ha]; [by rewrite app_nil_r, Hlast|].
  by rewrite split_inclusive_app, Hlast.
Qed.

Lemma split_inclusive_lines s ls l ls' :
  split_inclusive s = ls ++ l :: ls' ->
  is_line l /\ line_aligned (concat ls) /\ (ls' = [] \/ line_aligned l).
Proof.
  revert ls l. induction s as [|c s IH]; intros ls l H; simpl in H; [by destruct ls|].
  destruct (N.eqb_spec c nl) as [->|Hc].
  - destruct ls as [|l0 ls]; injection H as H0 H; subst.
    + split_and!; [|by left|right; right; by exists []].
      split; [done|]. exists []. split; [set_solver|by right].
    + destruct (IH _ _ H) as (? & [Ha|[a Ha]] & ?); split_and!; try done; right; simpl.
      * exists []. simpl. by rewrite Ha.
      * exists (nl :: a). simpl. by rewrite Ha.
  - destruct (split_inclusive s) as [|l0 ls0] eqn:Hs.
    + destruct ls as [|? [|]]; simplify_eq/=. split_and!; [|by left|by left].
      split; [done|]. exists [c]. split; [set_solver|by left].
    + destruct ls as [|l1 ls]; simplify_eq/=.
      * destruct (IH [] l0 eq_refl) as ((? & l' & Hl' & Heq) & _ & Hls'). split_and!; [|by left|].
        -- split; [done|]. exists (c :: l'). split; [set_solver|].
           destruct Heq as [->| ->]; [by left|by right].
        -- destruct Hls' as [?|[?|[a ->]]]; [by left|done|right; right; by exists (c :: a)].
      * destruct (IH (l0 :: ls) l eq_refl) as (? & Hal & ?). split_and!; try done.
        simpl in Hal. destruct Hal as [Hal|[a Ha]].
        -- apply app_eq_nil in Hal as [-> _]. pose proof (split_inclusive_nonempty s) as Hn.
           rewrite Hs in Hn. by inversion Hn.
        -- right. exists (c :: a). simpl. by rewrite <- Ha.
Qed.

Lemma app_concat_inj (a b c d : list str) :
  a ++ b = c ++ d -> concat a = concat c -> Forall (fun l => l <> []) (a ++ b) -> a = c.
Proof.
  revert c. induction a as [|x a IH]; intros [|y c] He Hc Hn; [done|..].
  - simpl in *. subst. apply Forall_cons in Hn as [Hn _]. symmetry in Hc.
    by apply app_eq_nil in Hc as [-> _].
  - simpl in *. apply Forall_cons in Hn as [Hn _]. by apply app_eq_nil in Hc as [-> _].
  - simpl in *. injection He as -> He. apply Forall_cons in Hn as [_ Hn].
    apply app_inv_head in Hc. f_equal. by apply IH.
Qed.

(** Cutting a text between two of its lines cuts its lines there. *)
Lemma split_inclusive_cut s ls l ls' :
  split_inclusive s = ls ++ l :: ls' -> split_inclusive (concat ls) = ls.
Proof.
  intros H. destruct (split_inclusive_lines _ _ _ _ H) as (_ & Ha & _).
  pose proof (split_inclusive_nonempty s) as Hn.
  assert (s = concat ls ++ concat (l :: ls')) as Hs
    by (by rewrite <- (split_inclusive_concat s), H, concat_app).
  rewrite Hs, split_inclusive_app in H, Hn by done.
  eapply app_concat_inj; [exact H|apply split_inclusive_concat|done].
Qed.

Lemma split_join c s : join [c] (split c s) = s.
Proof.
  unfold split. induction s as [|x s IH]; simpl; [done|].
  destruct (N.eqb_spec c x) as [->|].
  - destruct (split_if (N.eqb x) s) eqn:H; simpl in *; [|by rewrite IH].
    by destruct s; simpl in H; repeat case_match.
  - destruct (split_if (N.eqb c) s) as [|l [|l' ls]]; simpl in *; by subst.
Qed.

Lemma split_inj c s t : split c s = split c t -> s = t.
Proof. intros H. rewrite <- (split_join c s), <- (split_join c t). by rewrite H. Qed.

Lemma contains_spec p s : contains p s = true <-> exists a b, s = a ++ p ++ b.
Proof.
  unfold contains. split.
  - destruct (split_once p s) as [[a b]|] eqn:H; [|done]. intros _. exists a, b. revert a b H.
    induction s as [|c s IH]; simpl; intros a b.
    + destruct (strip_prefix p []) eqn:Hp; [|done]. intros. simplify_eq.
      by apply strip_prefix_Some in Hp.
    + destruct (strip_prefix p (c :: s)) eqn:Hp.
      * intros. simplify_eq. by apply strip_prefix_Some in Hp.
      * destruct (split_once p s) as [[a' b']|]; [|done]. intros. simplify_eq. simpl. f_equal. by apply IH.
  - intros (a & b & ->). enough (is_Some (split_once p (a ++ p ++ b))) as [[] Hs]; [by rewrite Hs|].
    induction a as [|c a IH]; simpl.
    + assert (strip_prefix p (p ++ b) = Some b) as Hpb by (by apply strip_prefix_Some).
      destruct (p ++ b) eqn:He; simpl; rewrite Hpb; by eexists.
    + destruct (strip_prefix p (c :: (a ++ p ++ b))); [by eexists|].
      by destruct IH as [[] IH]; rewrite IH.
Qed.

Lemma contains_char c s : contains [c] s = true <-> c ∈ s.
Proof.
  rewrite contains_spec. split.
  - intros (a & b & ->). set_solver.
  - intros H. apply list_elem_of_split in H as (a & b & ->). by exists a, b.
Qed.

(** A two-character pattern in a concatenation. *)
Lemma contains_pair_app x y a b :
  contains [x; y] (a ++ b) = true ->
  contains [x; y] a = true \/ contains [x; y] b = true \/
  (exists a' b', a = a' ++ [x] /\ b = y :: b').
Proof.
  rewrite !contains_spec. intros (u & v & H). revert u H.
  induction a as [|c a IH]; intros u H; [right; left; by exists u, v|].
  destruct u as [|d u]; simpl in H; injection H as -> H.
  - destruct a as [|e a]; simpl in H; [right; right; by exists [], v|].
    injection H as -> H. left. by exists [], a.
  - destruct (IH _ H) as [(u' & v' & ->)|[Hb|(a' & b' & -> & ->)]].
    + left. by exists (d :: u'), v'.
    + by right; left.
    + right; right. by exists (d :: a'), b'.
Qed.

(** Text without an occurrence is left alone by [replace]. *)
Lemma replace_none p r s : contains p s = false -> replace p r s = s.
Proof.
  unfold replace. intros H.
  assert (Hn : ~ exists a b, s = a ++ p ++ b) by (rewrite <- contains_spec; by rewrite H).
  clear H. induction s as [|c s IH]; [done|].
  assert (starts_with p (c :: s) = false) as Hs.
  { destruct (starts_with p (c :: s)) eqn:E; [|done]. apply starts_with_spec in E as [b E].
    destruct Hn. by exists [], b. }
  cbn [replace_from]. rewrite Hs, IH; [done|]. intros (a & b & ->). apply Hn. by exists (c :: a), b.
Qed.

Lemma trim_start_if_spec f s :
  exists a, s = a ++ trim_start_if f s /\ Forall (fun c => f c = true) a /\
    match trim_start_if f s with c :: _ => f c = false | [] => True end.
Proof.
  induction s as [|c s (a & Hs & Ha & Hh)]; simpl; [by exists []|].
  destruct (f c) eqn:Hc; [|exists []; by rewrite Hc].
  exists (c :: a). simpl. rewrite <- Hs. auto.
Qed.

Lemma trim_end_if_spec f s :
  exists a, s = trim_end_if f s ++ a /\ Forall (fun c => f c = true) a /\
    (trim_end_if f s = [] \/ exists s' c, trim_end_if f s = s' ++ [c] /\ f c = false).
Proof.
  unfold trim_end_if. destruct (trim_start_if_spec f (reverse s)) as (a & Hs & Ha & Hh).
  exists (reverse a). split_and!.
  - by rewrite <- reverse_app, <- Hs, reverse_involutive.
  - by apply Forall_reverse.
  - destruct (trim_start_if f (reverse s)) as [|c t]; [by left|right].
    exists (reverse t), c. by rewrite reverse_cons.
Qed.

(** ** Numbers round-trip *)
Lemma digit_char n : is_ascii_digit (48 + n mod 10) = true.
Proof.
  unfold is_ascii_digit, in_range. pose proof (N.mod_lt n 10 ltac:(done)).
  revert H. generalize (n mod 10)%N. intros d H. rewrite andb_true_iff, !N.leb_le. lia.
Qed.

Lemma digits_rev_parse fuel n rest :
  (n < 2 ^ N.of_nat fuel)%N -> (Z.of_N n <= u32_max)%Z ->
  fuel <> O ->
  parse_digits (reverse (digits_rev fuel n) ++ rest) 0 = parse_digits rest (Z.of_N n).
Proof.
  revert n rest. induction fuel as [|fuel IH]; intros n rest Hn Hmax Hf; [done|].
  cbn [digits_rev]. rewrite reverse_cons, <- app_assoc. simpl ([_] ++ rest).
  assert (Hd : parse_digits ((48 + n mod 10)%N :: rest) (Z.of_N (n / 10)) = parse_digits rest (Z.of_N n)).
  { cbn [parse_digits]. rewrite digit_char.
    replace (Z.of_N (n / 10) * 10 + Z.of_N (48 + n mod 10 - 48))%Z with (Z.of_N n).
    2:{ pose proof (N.div_mod' n 10) as H. revert H. generalize (n / 10)%N (n mod 10)%N. intros. lia. }
    by rewrite (proj2 (Z.leb_le _ _) Hmax). }
  destruct (N.eqb_spec (n / 10) 0) as [Hz|Hz].
  - rewrite Hz in Hd. exact Hd.
  - rewrite IH; [done| | |].
    + rewrite Nat2N.inj_succ, N.pow_succ_r' in Hn. apply N.Div0.div_lt_upper_bound. lia.
    + pose proof (N.Div0.div_le_mono n n 10). pose proof (N.div_le_upper_bound n 10 n ltac:(done) ltac:(lia)). lia.
    + intros ->. change (2 ^ N.of_nat 1)%N with 2%N in Hn.
      apply Hz. apply N.div_small. lia.
Qed.

(** The number that digits, least significant first, denote *)
Fixpoint digits_value (s : str) : N :=
  match s with [] => 0 | c :: s => ((c - 48) + 10 * digits_value s)%N end.

Lemma digits_rev_value fuel n : (n < 2 ^ N.of_nat fuel)%N -> digits_value (digits_rev fuel n) = n.
Proof.
  revert n. induction fuel as [|fuel IH]; intros n Hn.
  - change (2 ^ N.of_nat 0)%N with 1%N in Hn. simpl. lia.
  - cbn [digits_rev digits_value]. pose proof (N.div_mod' n 10) as Hd.
    assert (digits_value (if (n / 10 =? 0)%N then [] else digits_rev fuel (n / 10)) = n / 10)%N as ->; [|revert Hd; generalize (n / 10)%N (n mod 10)%N; clear; intros q r Hd; lia].
    destruct (N.eqb_spec (n / 10) 0) as [->|]; [done|]. apply IH.
    rewrite Nat2N.inj_succ, N.pow_succ_r' in Hn. apply N.Div0.div_lt_upper_bound. lia.
Qed.

Lemma show_N_inj a b : show_N a = show_N b -> a = b.
Proof.
  assert (H : forall n, (n < 2 ^ N.of_nat (S (N.to_nat (N.log2 n))))%N).
  { intros n. rewrite Nat2N.inj_succ, N2Nat.id. destruct (decide (n = 0%N)) as [->|]; [done|].
    apply N.log2_spec. lia. }
  intros E. unfold show_N in E. apply (f_equal reverse), (f_equal digits_value) in E.
  by rewrite !reverse_involutive, !digits_rev_value in E.
Qed.

Lemma digits_rev_digits fuel n : Forall (fun c => is_ascii_digit c = true) (digits_rev fuel n).
Proof.
  revert n. induction fuel as [|fuel IH]; intros n; cbn [digits_rev]; [constructor|].
  constructor; [apply digit_char|]. by case_match.
Qed.

Lemma show_N_digits n : show_N n <> [] /\ Forall (fun c => is_ascii_digit c = true) (show_N n).
Proof.
  unfold show_N. split.
  - intros H. apply (f_equal length) in H. rewrite length_reverse in H. done.
  - apply Forall_reverse, digits_rev_digits.
Qed.

Lemma parse_show n : (Z.of_N n <= u32_max)%Z -> parse_u32 (show_N n) = Some (Z.of_N n).
Proof.
  intros Hn. destruct (show_N_digits n) as [Hne Hd].
  assert (parse_digits (show_N n) 0 = Some (Z.of_N n)) as Hp.
  { rewrite <- (app_nil_r (show_N n)). unfold show_N. rewrite digits_rev_parse; [done| |done|done].
    rewrite Nat2N.inj_succ, N2Nat.id. destruct (decide (n = 0%N)) as [->|]; [done|].
    apply N.log2_spec. lia. }
  unfold parse_u32. destruct (show_N n) as [|c s] eqn:Hs; [done|].
  apply Forall_cons in Hd as [Hc _]. destruct (N.eqb_spec c 43) as [->|]; [done|]. exact Hp.
Qed.

Lemma split_once_char c a b :
  c ∉ a -> split_once [c] (a ++ c :: b) = Some (a, b).
Proof.
  induction a as [|x a IH]; intros H; simpl; [by rewrite N.eqb_refl|].
  apply not_elem_of_cons in H as [Hne H]. destruct (N.eqb_spec c x); [congruence|].
  by rewrite IH.
Qed.

Lemma split_once_char_Some c s a b :
  split_once [c] s = Some (a, b) <-> s = a ++ c :: b /\ c ∉ a.
Proof.
  split; [|intros [-> H]; by apply split_once_char].
  revert a. induction s as [|x s IH]; intros a; simpl; [done|].
  destruct (N.eqb_spec c x) as [->|Hne].
  - intros [= <- <-]. split; [done|]. apply not_elem_of_nil.
  - destruct (split_once [c] s) as [[a' b']|]; [|done]. intros [= <- <-].
    destruct (IH a' eq_refl) as [-> Hn]. split; [done|]. by apply not_elem_of_cons.
Qed.

Lemma show_N_no_char c n : is_ascii_digit c = false -> c ∉ show_N n.
Proof.
  intros Hc Hin. destruct (show_N_digits n) as [_ Hd]. rewrite Forall_forall in Hd.
  specialize (Hd c Hin). congruence.
Qed.

(** ** UTF-8 *)
Definition utf8_char (c : char) : list N :=
  if (c <? 128)%N then [c]
  else if (c <? 2048)%N then [192 + c / 64; 128 + c mod 64]%N
  else if (c <? 65536)%N then [224 + c / 4096; 128 + c / 64 mod 64; 128 + c mod 64]%N
  else [240 + c / 262144; 128 + c / 4096 mod 64; 128 + c / 64 mod 64; 128 + c mod 64]%N.
(** [as_bytes] *)
Definition as_bytes (s : str) : list N := concat (utf8_char <$> s).

Lemma utf8_char_inj c d s t : utf8_char c ++ s = utf8_char d ++ t -> c = d /\ s = t.
Proof.
  assert (H3 : forall c, (c / 64 / 64 = c / 4096)%N) by (intros; by rewrite N.Div0.div_div).
  assert (H4 : forall c, (c / 4096 / 64 = c / 262144)%N) by (intros; by rewrite N.Div0.div_div).
  assert (Hb : forall c k n, (c < k * n)%N -> (k <> 0)%N -> (c / k < n)%N)
    by (intros; by apply N.Div0.div_lt_upper_bound).
  unfold utf8_char.
  pose proof (N.div_mod' c 64) as C1. pose proof (N.div_mod' d 64) as D1.
  pose proof (N.div_mod' (c / 64) 64) as C2. pose proof (N.div_mod' (d / 64) 64) as D2.
  pose proof (N.div_mod' (c / 4096) 64) as C3. pose proof (N.div_mod' (d / 4096) 64) as D3.
  rewrite H3 in C2, D2. rewrite H4 in C3, D3.
  pose proof (Hb c 64 32)%N as B1. pose proof (Hb d 64 32)%N as B1'.
  pose proof (Hb c 4096 16)%N as B2. pose proof (Hb d 4096 16)%N as B2'.
  revert C1 D1 C2 D2 C3 D3 B1 B1' B2 B2'.
  generalize (c / 64)%N (d / 64)%N (c / 4096)%N (d / 4096)%N (c / 262144)%N (d / 262144)%N.
  intros c1 d1 c2 d2 c3 d3.
  generalize (c mod 64)%N (d mod 64)%N (c1 mod 64)%N (d1 mod 64)%N (c2 mod 64)%N (d2 mod 64)%N.
  intros rc rd rc1 rd1 rc2 rd2 C1 D1 C2 D2 C3 D3 B1 B1' B2 B2'.
  destruct (N.ltb_spec c 128), (N.ltb_spec d 128); try destruct (N.ltb_spec c 2048);
    try destruct (N.ltb_spec d 2048); try destruct (N.ltb_spec c 65536);
    try destruct (N.ltb_spec d 65536); simpl; intros E; injection E; intros;
    first [split; [lia|done] | exfalso; lia].
Qed.

Lemma as_bytes_inj s t : as_bytes s = as_bytes t -> s = t.
Proof.
  unfold as_bytes. revert t. induction s as [|c s IH]; intros [|d t] E; simpl in E; [done|..].
  - unfold utf8_char in E. by repeat case_match.
  - unfold utf8_char in E. by repeat case_match.
  - apply utf8_char_inj in E as [-> E]. f_equal. by apply IH.
Qed.

#[export] Hint Resolve str_cmp_total str_cmp_refl : mycelium.
