(* ===== verification/Gate.v ===== *)
(** * The LLM admission gate

    [crates/mycelium-librarian/src/llm_gate.rs]: the FIFO queue, the slot
    counters and the RAII hand-over between a queued [enter] future and
    the permit it becomes.  The gate's critical sections are functions on
    the locked state ([Inner] and the one-shot channels); the concurrent
    program is the step relation [step] on [World]. *)
From S2P Require Import Prelude Float.
Open Scope Z_scope.

Definition DEFAULT_PER_USER_ACTIVE : Z := 2.
Definition DEFAULT_CHAT_QUEUE_DEPTH : Z := 64.
Definition CAPACITY_MIN : Z := 1.
Definition CAPACITY_MAX : Z := 1024.
Definition PER_USER_MIN : Z := 1.
Definition PER_USER_MAX : Z := 16.
Definition QUEUE_DEPTH_MIN : Z := 1.
Definition QUEUE_DEPTH_MAX : Z := 1024.

Inductive GateError := Timeout | Closed.

(** What a waiter learns from the gate. *)
Inductive Outcome := OAdmitted | OClosed.

(** ** tokio's one-shot channel, as the gate relies on it *)

(** What [try_recv] (or awaiting the receiver) finds. *)
Inductive RxState := RxEmpty | RxValue (o : Outcome) | RxClosed.

Class Oneshot (Ch : Type) := {
  os_channel : Ch;
  os_is_closed : Ch -> bool;
  os_send : Outcome -> Ch -> Ch * bool;
  os_try_recv : Ch -> RxState;
  os_drop_rx : Ch -> Ch;
  os_drop_tx : Ch -> Ch }.

(** The documented behaviour: a fresh channel is open and empty; sending
    on an open channel succeeds and is then received; sending on a
    channel whose receiver is gone fails. *)
Class OneshotLaws (Ch : Type) `{!Oneshot Ch} : Prop := {
  os_channel_open : os_is_closed os_channel = false;
  os_channel_empty : os_try_recv os_channel = RxEmpty;
  os_send_open o c : os_is_closed c = false ->
    (os_send o c).2 = true /\ os_try_recv (os_send o c).1 = RxValue o;
  os_send_closed o c : os_is_closed c = true -> (os_send o c).2 = false;
  os_drop_rx_closed c : os_is_closed (os_drop_rx c) = true }.

(** ** State *)

(** A waiter; [w_tx] is the address of its channel.  The [on_position]
    closure is the id it was registered under: its calls are the
    [(id, position)] pairs of the notification log. *)
Record Waiter := mkWaiter {
  w_id : Z;
  w_user : option Uuid;
  w_enqueued_at : Z;
  w_last_position : option nat;
  w_tx : N }.

Record Inner := mkInner {
  capacity : Z;
  per_user_active : Z;
  chat_queue_depth : Z;
  active : Z;
  per_user : gmap Uuid Z;
  queue : list Waiter;
  next_id : Z;
  admissions_total : Z;
  timeouts_total : Z;
  wait_seconds_total : f64;
  wait_count : Z }.

Record GateStats := mkGateStats {
  st_active : Z;
  st_queued : Z;
  st_capacity : Z;
  st_admissions_total : Z;
  st_timeouts_total : Z;
  st_wait_seconds_total : f64;
  st_wait_count : Z }.

Definition set_queue (q : list Waiter) (i : Inner) : Inner :=
  mkInner (capacity i) (per_user_active i) (chat_queue_depth i) (active i) (per_user i)
    q (next_id i) (admissions_total i) (timeouts_total i) (wait_seconds_total i) (wait_count i).
Definition set_limits (cap pua depth : Z) (i : Inner) : Inner :=
  mkInner cap pua depth (active i) (per_user i)
    (queue i) (next_id i) (admissions_total i) (timeouts_total i) (wait_seconds_total i) (wait_count i).
Definition set_slots (a : Z) (pu : gmap Uuid Z) (adm : Z) (i : Inner) : Inner :=
  mkInner (capacity i) (per_user_active i) (chat_queue_depth i) a pu
    (queue i) (next_id i) adm (timeouts_total i) (wait_seconds_total i) (wait_count i).
Definition set_next_id (n : Z) (i : Inner) : Inner :=
  mkInner (capacity i) (per_user_active i) (chat_queue_depth i) (active i) (per_user i)
    (queue i) n (admissions_total i) (timeouts_total i) (wait_seconds_total i) (wait_count i).
Definition add_timeouts (n : Z) (i : Inner) : Inner :=
  mkInner (capacity i) (per_user_active i) (chat_queue_depth i) (active i) (per_user i)
    (queue i) (next_id i) (admissions_total i) (timeouts_total i +64 n)%rust
    (wait_seconds_total i) (wait_count i).
Definition set_wait (s : f64) (n : Z) (i : Inner) : Inner :=
  mkInner (capacity i) (per_user_active i) (chat_queue_depth i) (active i) (per_user i)
    (queue i) (next_id i) (admissions_total i) (timeouts_total i) s n.

(** ** [impl Inner] *)

(** [self.per_user.get(&u).copied().unwrap_or(0)] *)
Definition user_count (i : Inner) (u : Uuid) : Z := default 0 (per_user i !! u).

Definition at_user_cap (i : Inner) (user : option Uuid) : bool :=
  match user with
  | Some u => per_user_active i <=? user_count i u
  | None => false
  end.

Definition take_slot (user : option Uuid) (i : Inner) : Inner :=
  set_slots (active i +64 1)%rust
    (match user with
     | Some u => <[u := (user_count i u +64 1)%rust]> (per_user i)
     | None => per_user i
     end)
    (admissions_total i +64 1)%rust i.

Definition free_slot (user : option Uuid) (i : Inner) : Inner :=
  set_slots (saturating_sub (active i) 1)
    (match user with
     | Some u =>
         match per_user i !! u with
         | Some n =>
             let n' := saturating_sub n 1 in
             if n' =? 0 then delete u (per_user i) else <[u := n']> (per_user i)
         | None => per_user i
         end
     | None => per_user i
     end)
    (admissions_total i) i.

(** [waited] is a duration in nanoseconds. *)
Definition record_wait (waited : Z) (i : Inner) : Inner :=
  set_wait (f64_add (wait_seconds_total i) (as_secs_f64 waited)) (wait_count i +64 1)%rust i.

(** One pass of [notify_positions] from position [pos] on: the updated
    waiters and the callbacks made, in order. *)
Fixpoint notify_from (pos : nat) (q : list Waiter) : list Waiter * list (Z * nat) :=
  match q with
  | [] => ([], [])
  | w :: q' =>
      let '(q'', evs) := notify_from (S pos) q' in
      if bool_decide (w_last_position w = Some pos) then (w :: q'', evs)
      else (mkWaiter (w_id w) (w_user w) (w_enqueued_at w) (Some pos) (w_tx w) :: q'',
            (w_id w, pos) :: evs)
  end.

Definition notify_positions (i : Inner) : Inner * list (Z * nat) :=
  let '(q, evs) := notify_from 0 (queue i) in (set_queue q i, evs).

Definition stats (i : Inner) : GateStats :=
  mkGateStats (active i) (Z.of_nat (length (queue i))) (capacity i) (admissions_total i)
    (timeouts_total i) (wait_seconds_total i) (wait_count i).

(** [LlmGate::new] *)
Definition LlmGate_new (cap : Z) : Inner :=
  mkInner (clamp cap CAPACITY_MIN CAPACITY_MAX) DEFAULT_PER_USER_ACTIVE
    DEFAULT_CHAT_QUEUE_DEPTH 0 ∅ [] 0 0 0 (S754_zero false) 0.

Section Gate.
Context {Ch : Type} `{!Oneshot Ch}.

(** The channel a handle points at; a handle in use is always allocated. *)
Definition chan (cs : gmap N Ch) (l : N) : Ch := default os_channel (cs !! l).

(** The locked state, the channels, and the position callbacks so far. *)
Record Gate := mkGate {
  inner : Inner;
  chans : gmap N Ch;
  log : list (Z * nat) }.

(** The admission of [waiter], already taken out of the queue: the slot
    is taken, the wait recorded, and the slot given back if the waiting
    future is gone. *)
Definition admit_waiter (now : Z) (w : Waiter) (i : Inner) (cs : gmap N Ch) : Inner * gmap N Ch :=
  let i := take_slot (w_user w) i in
  let i := record_wait (saturating_sub now (w_enqueued_at w)) i in
  let '(c, sent) := os_send OAdmitted (chan cs (w_tx w)) in
  (if sent : bool then i else free_slot (w_user w) i, <[w_tx w := c]> cs).

(** The [while] loop of [dispatch]; one unit of fuel per waiter. *)
Fixpoint dispatch_loop (fuel : nat) (now : Z) (i : Inner) (cs : gmap N Ch) : Inner * gmap N Ch :=
  match fuel with
  | O => (i, cs)
  | S fuel =>
      if active i <? capacity i then
        match position (fun w => negb (at_user_cap i (w_user w))) (queue i) with
        | None => (i, cs)
        | Some idx =>
            match queue i !! idx with
            | None => (i, cs)
            | Some w =>
                let '(i', cs') := admit_waiter now w (set_queue (delete idx (queue i)) i) cs in
                dispatch_loop fuel now i' cs'
            end
        end
      else (i, cs)
  end.

Definition dispatch (now : Z) (g : Gate) : Gate :=
  let i := inner g in
  let i := set_queue (retain (fun w => negb (os_is_closed (chan (chans g) (w_tx w)))) (queue i)) i in
  let '(i, cs) := dispatch_loop (length (queue i)) now i (chans g) in
  let '(i, evs) := notify_positions i in
  mkGate i cs (log g ++ evs).

Definition set_capacity (n now : Z) (g : Gate) : Gate :=
  let i := inner g in
  dispatch now (mkGate (set_limits (clamp n CAPACITY_MIN CAPACITY_MAX) (per_user_active i)
                          (chat_queue_depth i) i) (chans g) (log g)).

Definition set_per_user_active (n now : Z) (g : Gate) : Gate :=
  let i := inner g in
  dispatch now (mkGate (set_limits (capacity i) (clamp n PER_USER_MIN PER_USER_MAX)
                          (chat_queue_depth i) i) (chans g) (log g)).

Definition set_chat_queue_depth (n : Z) (g : Gate) : Gate :=
  let i := inner g in
  mkGate (set_limits (capacity i) (per_user_active i)
            (clamp n QUEUE_DEPTH_MIN QUEUE_DEPTH_MAX) i) (chans g) (log g).

(** [try_enter]: [Some] is the state after a permit was granted. *)
Definition try_enter (g : Gate) : option Gate :=
  let i := inner g in
  if bool_decide (queue i = []) && (active i <? capacity i)
  then Some (mkGate (take_slot None i) (chans g) (log g))
  else None.

(** A waiter's seat, owned by its [enter] future ([QueuedWaiter]); the
    [armed] flag is implicit: a seat that still exists is armed. *)
Record QueuedWaiter := mkSeat {
  q_id : Z;
  q_user : option Uuid;
  q_rx : N }.

#[global] Instance QueuedWaiter_eq_dec : EqDecision QueuedWaiter.
Proof. solve_decision. Defined.

(** [enter] up to the await: a permit at once ([None]), or a seat.  [l]
    is the address of the new channel. *)
Definition enter (user : option Uuid) (now : Z) (l : N) (g : Gate) : Gate * option QueuedWaiter :=
  let i := inner g in
  if bool_decide (queue i = []) && (active i <? capacity i) && negb (at_user_cap i user)
  then (mkGate (record_wait 0 (take_slot user i)) (chans g) (log g), None)
  else
    let cs := <[l := os_channel]> (chans g) in
    let id := next_id i in
    let i := set_next_id (id +64 1)%rust i in
    let i := set_queue (queue i ++ [mkWaiter id user now None l]) i in
    (dispatch now (mkGate i cs (log g)), Some (mkSeat id user l)).

Definition drop_rx (q : QueuedWaiter) (g : Gate) : Gate :=
  mkGate (inner g) (<[q_rx q := os_drop_rx (chan (chans g) (q_rx q))]> (chans g)) (log g).

(** The await resolves before the bound: [None] while nothing was sent. *)
Definition enter_received (q : QueuedWaiter) (g : Gate) : option (Gate * result unit GateError) :=
  match os_try_recv (chan (chans g) (q_rx q)) with
  | RxEmpty => None
  | RxValue OAdmitted => Some (drop_rx q g, Ok tt)
  | RxValue OClosed | RxClosed => Some (drop_rx q g, Err Closed)
  end.

(** Take the waiter with id [id] out of the queue, if it is there; its
    sender is dropped. *)
Definition remove_waiter (id : Z) (g : Gate) : option Gate :=
  let i := inner g in
  match position (fun w => w_id w =? id) (queue i) with
  | None => None
  | Some pos =>
      let cs := match queue i !! pos with
                | Some w => <[w_tx w := os_drop_tx (chan (chans g) (w_tx w))]> (chans g)
                | None => chans g
                end in
      Some (mkGate (add_timeouts 1 (set_queue (delete pos (queue i)) i)) cs (log g))
  end.

(** The bound elapsed first. *)
Definition enter_timeout (q : QueuedWaiter) (g : Gate) : Gate * result unit GateError :=
  match remove_waiter (q_id q) g with
  | Some g' =>
      let '(i, evs) := notify_positions (inner g') in
      (drop_rx q (mkGate i (chans g') (log g' ++ evs)), Err Timeout)
  | None =>
      match os_try_recv (chan (chans g) (q_rx q)) with
      | RxValue OAdmitted => (drop_rx q g, Ok tt)
      | _ => (drop_rx q g, Err Closed)
      end
  end.

(** The sends of [close], in queue order. *)
Fixpoint close_send (ws : list Waiter) (cs : gmap N Ch) : gmap N Ch :=
  match ws with
  | [] => cs
  | w :: ws => close_send ws (<[w_tx w := (os_send OClosed (chan cs (w_tx w))).1]> cs)
  end.

Definition close (g : Gate) : Gate :=
  let i := inner g in
  mkGate (add_timeouts (Z.of_nat (length (queue i))) (set_queue [] i))
    (close_send (queue i) (chans g)) (log g).

Definition release (user : option Uuid) (now : Z) (g : Gate) : Gate :=
  dispatch now (mkGate (free_slot user (inner g)) (chans g) (log g)).

(** [Drop for QueuedWaiter], armed: the [enter] future was dropped. *)
Definition drop_queued (q : QueuedWaiter) (now : Z) (g : Gate) : Gate :=
  match remove_waiter (q_id q) g with
  | Some g' => drop_rx q (dispatch now g')
  | None =>
      match os_try_recv (chan (chans g) (q_rx q)) with
      | RxValue OAdmitted => drop_rx q (release (q_user q) now g)
      | _ => drop_rx q g
      end
  end.

(** ** The program: tasks around the gate

    A task is an [enter] future holding its seat, or a run holding a
    permit.  Each step is one critical section (one lock acquisition);
    [now] is the clock it reads. *)
Inductive Task :=
| Seated (q : QueuedWaiter)
| Permit (user : option Uuid).

Record World := mkWorld {
  gate : Gate;
  tasks : list Task;
  next_loc : N }.

Definition World_new (cap : Z) : World := mkWorld (mkGate (LlmGate_new cap) ∅ []) [] 0%N.

(** [Drop for GatePermit]: the latch makes the release happen once, which
    is the permit leaving [tasks]. *)
Inductive step : World -> World -> Prop :=
| step_enter_fast user now g ts l g' :
    enter user now l g = (g', None) ->
    step (mkWorld g ts l) (mkWorld g' (ts ++ [Permit user]) l)
| step_enter_queue user now g ts l g' q :
    (** fewer than [2^64 - 1] waiters ever queued: ids are not reused *)
    next_id (inner g) < u64_max ->
    enter user now l g = (g', Some q) ->
    step (mkWorld g ts l) (mkWorld g' (ts ++ [Seated q]) (N.succ l))
| step_try_enter g ts l g' :
    try_enter g = Some g' ->
    step (mkWorld g ts l) (mkWorld g' (ts ++ [Permit None]) l)
| step_received g ts1 q ts2 l g' r :
    enter_received q g = Some (g', r) ->
    step (mkWorld g (ts1 ++ Seated q :: ts2) l)
         (mkWorld g' (ts1 ++ match r with Ok _ => Permit (q_user q) :: ts2 | Err _ => ts2 end) l)
| step_timeout g ts1 q ts2 l g' r :
    enter_timeout q g = (g', r) ->
    step (mkWorld g (ts1 ++ Seated q :: ts2) l)
         (mkWorld g' (ts1 ++ match r with Ok _ => Permit (q_user q) :: ts2 | Err _ => ts2 end) l)
| step_cancel now g ts1 q ts2 l :
    step (mkWorld g (ts1 ++ Seated q :: ts2) l) (mkWorld (drop_queued q now g) (ts1 ++ ts2) l)
| step_release user now g ts1 ts2 l :
    step (mkWorld g (ts1 ++ Permit user :: ts2) l) (mkWorld (release user now g) (ts1 ++ ts2) l)
| step_close g ts l : step (mkWorld g ts l) (mkWorld (close g) ts l)
| step_set_capacity n now g ts l :
    step (mkWorld g ts l) (mkWorld (set_capacity n now g) ts l)
| step_set_per_user n now g ts l :
    step (mkWorld g ts l) (mkWorld (set_per_user_active n now g) ts l)
| step_set_depth n g ts l :
    step (mkWorld g ts l) (mkWorld (set_chat_queue_depth n g) ts l).

Definition reachable (cap : Z) (w : World) : Prop := rtc step (World_new cap) w.

End Gate.
Arguments Gate : clear implicits.
Arguments World : clear implicits.
