(* ===== verification/GateProofs.v ===== *)
(** * Properties of the admission gate

    Slot accounting, work conservation, FIFO order and positions of the
    gate of [Gate.v], for every interleaving of its critical sections. *)
From S2P Require Import Prelude Float Gate.
Open Scope Z_scope.

(** ** Slot accounting against an explicit list of holders *)

Definition count_user (u : Uuid) (hs : list (option Uuid)) : Z :=
  Z.of_nat (length (base.filter (fun x => x = Some u) hs)).

(** The counters describe exactly the slots in [hs]. *)
Record Slots (i : Inner) (hs : list (option Uuid)) : Prop := {
  slots_active : active i = Z.of_nat (length hs);
  slots_user u : user_count i u = count_user u hs;
  slots_nonzero u n : per_user i !! u = Some n -> 0 < n }.

Lemma count_user_cons u x hs :
  count_user u (x :: hs) = (if decide (x = Some u) then 1 else 0) + count_user u hs.
Proof. unfold count_user. rewrite filter_cons. case_decide; simpl; lia. Qed.

Lemma count_user_le u hs : 0 <= count_user u hs <= Z.of_nat (length hs).
Proof.
  unfold count_user. split; [lia|].
  apply inj_le, length_filter.
Qed.

Lemma Slots_perm i hs hs' : hs ≡ₚ hs' -> Slots i hs -> Slots i hs'.
Proof.
  intros Hp [Ha Hu Hn]. split; [by rewrite <- Hp| |done].
  intros u. rewrite Hu. unfold count_user. by rewrite Hp.
Qed.

(** The counters only: everything else of the state is irrelevant. *)
Lemma Slots_ext i i' hs :
  active i' = active i -> per_user i' = per_user i -> Slots i hs -> Slots i' hs.
Proof.
  intros Ha Hp [H1 H2 H3]. split; [congruence| |].
  - intros u. unfold user_count. rewrite Hp. apply H2.
  - intros u n. rewrite Hp. apply H3.
Qed.

Lemma Slots_take i hs user :
  Z.of_nat (length hs) < u64_max -> Slots i hs -> Slots (take_slot user i) (user :: hs).
Proof.
  unfold u64_max. intros Hlt [Ha Hu Hn]. split.
  - simpl. rewrite wrap64_small; [|rewrite Ha]; lia.
  - intros v. pose proof (count_user_le v hs) as Hv. rewrite count_user_cons.
    destruct user as [u|]; [|rewrite decide_False by done; apply Hu].
    unfold user_count; simpl per_user. destruct (decide (u = v)) as [->|Hne].
    + rewrite lookup_insert_eq, decide_True by done. simpl.
      rewrite Hu, wrap64_small; lia.
    + rewrite lookup_insert_ne, decide_False by congruence. apply Hu.
  - intros v n. destruct user as [u|]; simpl; [|apply Hn].
    destruct (decide (u = v)) as [->|Hne].
    + rewrite lookup_insert_eq. intros [= <-].
      pose proof (count_user_le v hs). rewrite Hu, wrap64_small; lia.
    + rewrite lookup_insert_ne by done. apply Hn.
Qed.

Lemma Slots_free i hs user : Slots i (user :: hs) -> Slots (free_slot user i) hs.
Proof.
  intros [Ha Hu Hn]. simpl in Ha. split.
  - simpl. rewrite Ha. unfold saturating_sub. lia.
  - intros v. specialize (Hu v). rewrite count_user_cons in Hu.
    pose proof (count_user_le v hs) as Hv.
    destruct user as [u|]; [|rewrite decide_False in Hu by done; exact Hu].
    unfold user_count in *. simpl.
    destruct (decide (Some u = Some v)) as [[= ->]|Hne].
    + destruct (per_user i !! v) as [n|] eqn:Hl; simpl in Hu; [|lia].
      unfold saturating_sub. destruct (Z.eqb_spec (Z.max 0 (n - 1)) 0).
      * rewrite lookup_delete_eq. simpl. lia.
      * rewrite lookup_insert_eq. simpl. lia.
    + assert (u <> v) by congruence. destruct (per_user i !! u) as [n|]; [|exact Hu].
      case_match; rewrite ?lookup_delete_ne, ?lookup_insert_ne by done; exact Hu.
  - intros v n. destruct user as [u|]; simpl; [|apply Hn].
    destruct (per_user i !! u) as [m|] eqn:Hl; [|apply Hn].
    unfold saturating_sub. destruct (Z.eqb_spec (Z.max 0 (m - 1)) 0).
    + intros [_ H]%lookup_delete_Some. by apply Hn in H.
    + destruct (decide (u = v)) as [->|].
      * rewrite lookup_insert_eq. intros [= <-]. lia.
      * rewrite lookup_insert_ne by done. apply Hn.
Qed.

Section Proofs.
Context {Ch : Type} `{!Oneshot Ch, !OneshotLaws Ch}.

(** ** Seats and holders *)

Definition seats (ts : list Task) : list QueuedWaiter :=
  omap (fun t => match t with Seated q => Some q | Permit _ => None end) ts.

(** The slot a task accounts for: a permit's, or the one a dispatch has
    already taken for a future that has not been polled yet. *)
Definition task_slot (cs : gmap N Ch) (t : Task) : option (option Uuid) :=
  match t with
  | Permit u => Some u
  | Seated q =>
      match os_try_recv (chan cs (q_rx q)) with
      | RxValue OAdmitted => Some (q_user q)
      | _ => None
      end
  end.

Definition holders (cs : gmap N Ch) (ts : list Task) : list (option Uuid) :=
  omap (task_slot cs) ts.

Definition seat_of (w : Waiter) : QueuedWaiter := mkSeat (w_id w) (w_user w) (w_tx w).

Definition fresh_chan (c : Ch) : Prop :=
  os_is_closed c = false /\ os_try_recv c = RxEmpty.

Definition received (cs : gmap N Ch) (q : QueuedWaiter) : Prop :=
  exists o, os_try_recv (chan cs (q_rx q)) = RxValue o.

(** Every seat is either in the queue, with an open empty channel, or
    has left it with an outcome waiting to be received. *)
Record Seating (i : Inner) (cs : gmap N Ch) (ts : list Task) (l : N) : Prop := {
  sg_split : exists others,
    seats ts ≡ₚ (seat_of <$> queue i) ++ others /\ Forall (received cs) others;
  sg_fresh : Forall (fun w => fresh_chan (chan cs (w_tx w))) (queue i);
  sg_ids : NoDup (q_id <$> seats ts);
  sg_rxs : NoDup (q_rx <$> seats ts);
  sg_id_bound : Forall (fun q => 0 <= q_id q < next_id i) (seats ts);
  sg_rx_bound : Forall (fun q => (q_rx q < l)%N) (seats ts) }.

Lemma seats_app ts1 ts2 : seats (ts1 ++ ts2) = seats ts1 ++ seats ts2.
Proof. apply omap_app. Qed.

Lemma holders_app cs ts1 ts2 : holders cs (ts1 ++ ts2) = holders cs ts1 ++ holders cs ts2.
Proof. apply omap_app. Qed.

Lemma holders_cons cs t ts :
  holders cs (t :: ts) =
  match task_slot cs t with Some x => x :: holders cs ts | None => holders cs ts end.
Proof. done. Qed.

Lemma elem_of_seats q ts : q ∈ seats ts <-> Seated q ∈ ts.
Proof.
  unfold seats. rewrite list_elem_of_omap. split.
  - intros ([q'|u] & ? & ?); simplify_eq/=; done.
  - intros ?. by exists (Seated q).
Qed.

Lemma chan_insert_eq cs l c : chan (<[l := c]> cs) l = c.
Proof. unfold chan. by rewrite lookup_insert_eq. Qed.

Lemma chan_insert_ne cs l l' c : l <> l' -> chan (<[l := c]> cs) l' = chan cs l'.
Proof. intros. unfold chan. by rewrite lookup_insert_ne. Qed.

(** Writing a channel no remaining seat reads changes no slot. *)
Lemma holders_frame cs l c ts :
  Forall (fun q => q_rx q <> l) (seats ts) ->
  holders (<[l := c]> cs) ts = holders cs ts.
Proof.
  induction ts as [|[q|u] ts IH]; intros H; [done| |]; rewrite !holders_cons; simpl.
  - inversion H; subst. rewrite chan_insert_ne by done. by rewrite IH.
  - by rewrite IH.
Qed.

Lemma received_frame cs l c qs :
  Forall (fun q => q_rx q <> l) qs ->
  Forall (received cs) qs -> Forall (received (<[l := c]> cs)) qs.
Proof.
  intros Hne Hr. apply Forall_forall. intros q Hq.
  rewrite Forall_forall in Hne, Hr. destruct (Hr q Hq) as [o Ho].
  exists o. by rewrite chan_insert_ne by (apply not_eq_sym; auto).
Qed.

Lemma fresh_frame cs l c ws :
  Forall (fun w => w_tx w <> l) ws ->
  Forall (fun w => fresh_chan (chan cs (w_tx w))) ws ->
  Forall (fun w => fresh_chan (chan (<[l := c]> cs) (w_tx w))) ws.
Proof.
  intros Hne Hr. rewrite Forall_forall in *. intros w Hw.
  rewrite chan_insert_ne by (apply not_eq_sym; auto). auto.
Qed.

(** Splitting the task list at a seat: no other seat reads its channel. *)
Lemma seat_split ts q :
  NoDup (q_rx <$> seats ts) -> q ∈ seats ts ->
  exists ts1 ts2, ts = ts1 ++ Seated q :: ts2 /\
    Forall (fun q' => q_rx q' <> q_rx q) (seats ts1 ++ seats ts2).
Proof.
  intros Hnd Hq. apply elem_of_seats, list_elem_of_split in Hq as (ts1 & ts2 & ->).
  exists ts1, ts2. split; [done|]. apply Forall_forall. intros q' Hq' Heq.
  rewrite seats_app in Hnd. simpl in Hnd.
  rewrite <- Permutation_middle in Hnd. simpl in Hnd.
  apply NoDup_cons in Hnd as [Hni _]. apply Hni.
  rewrite <- Heq. by apply list_elem_of_fmap_2.
Qed.

(** A dispatch hands exactly one new slot over, to the seat it sends to. *)
Lemma holders_admit cs ts q c :
  NoDup (q_rx <$> seats ts) -> q ∈ seats ts ->
  os_try_recv (chan cs (q_rx q)) = RxEmpty ->
  os_try_recv c = RxValue OAdmitted ->
  holders (<[q_rx q := c]> cs) ts ≡ₚ q_user q :: holders cs ts.
Proof.
  intros Hnd Hq He Hc.
  destruct (seat_split ts q Hnd Hq) as (ts1 & ts2 & -> & Hne).
  apply Forall_app in Hne as [Hne1 Hne2].
  rewrite !holders_app, !holders_cons. simpl. rewrite chan_insert_eq, Hc, He.
  rewrite !holders_frame by done. by rewrite Permutation_middle.
Qed.

(** ** The invariant *)
Record Good (i : Inner) (cs : gmap N Ch) (ts : list Task) (l : N) : Prop := {
  gd_seating : Seating i cs ts l;
  gd_slots : Slots i (holders cs ts);
  gd_capacity : CAPACITY_MIN <= capacity i <= CAPACITY_MAX;
  gd_per_user : PER_USER_MIN <= per_user_active i <= PER_USER_MAX;
  gd_active : active i <= CAPACITY_MAX;
  gd_next_id : 0 <= next_id i <= u64_max }.

Lemma Good_perm_fields i i' cs ts l :
  queue i' = queue i -> next_id i' = next_id i -> active i' = active i ->
  per_user i' = per_user i -> capacity i' = capacity i ->
  per_user_active i' = per_user_active i -> Good i cs ts l -> Good i' cs ts l.
Proof.
  intros Hq Hn Ha Hp Hc Hu [[Hsp Hf H1 H2 Hb Hr] Hs Hcap Hpua Hact Hid].
  split; rewrite ?Hc, ?Hu, ?Ha, ?Hn; try done; [split; rewrite ?Hq, ?Hn; done|].
  eauto using Slots_ext.
Qed.

Lemma queue_seats i cs ts l w :
  Seating i cs ts l -> w ∈ queue i -> seat_of w ∈ seats ts.
Proof.
  intros [(os & Hp & _) _ _ _ _ _] Hw. rewrite Hp, elem_of_app. left.
  by apply list_elem_of_fmap_2.
Qed.

(** No two seats share a channel, so the rest of the seats do not read the
    channel of [s]. *)
Lemma split_rx_ne (ss rest : list QueuedWaiter) s :
  ss ≡ₚ s :: rest -> NoDup (q_rx <$> ss) -> Forall (fun q => q_rx q <> q_rx s) rest.
Proof.
  intros Hp Hnd. rewrite Hp in Hnd. simpl in Hnd.
  apply NoDup_cons in Hnd as [Hni _]. apply Forall_forall. intros q Hq Heq.
  apply Hni. rewrite <- Heq. by apply list_elem_of_fmap_2.
Qed.

Lemma fmap_seat_ne (ws : list Waiter) (l : N) :
  Forall (fun q => q_rx q <> l) (seat_of <$> ws) <-> Forall (fun w => w_tx w <> l) ws.
Proof. by rewrite Forall_fmap. Qed.

(** One admission of [dispatch] keeps the invariant, and takes one slot. *)
Lemma admit_good now i cs ts l q1 w q2 i' cs' :
  Good i cs ts l -> active i < capacity i -> queue i = q1 ++ w :: q2 ->
  admit_waiter now w (set_queue (q1 ++ q2) i) cs = (i', cs') ->
  Good i' cs' ts l /\ queue i' = q1 ++ q2 /\ active i' = active i + 1 /\
  capacity i' = capacity i /\ per_user_active i' = per_user_active i /\
  per_user i' = per_user (take_slot (w_user w) i).
Proof.
  intros HG Hlt Hq Hadm. pose proof HG as [HS Hsl Hcap Hpua Hact Hid].
  pose proof HS as [(os & Hp & Hos) Hfr H1 H2 Hb Hr].
  rewrite Hq in Hp, Hfr. rewrite fmap_app, fmap_cons in Hp.
  assert (Hp' : seats ts ≡ₚ seat_of w :: (seat_of <$> (q1 ++ q2)) ++ os).
  { rewrite Hp, fmap_app. rewrite <- !app_assoc. simpl. apply Permutation_sym, Permutation_middle. }
  pose proof (split_rx_ne _ _ _ Hp' H2) as Hne. simpl in Hne.
  apply Forall_app in Hne as [Hne1 Hne2]. rewrite fmap_seat_ne in Hne1.
  assert (Hfw : fresh_chan (chan cs (w_tx w))).
  { rewrite Forall_forall in Hfr. apply Hfr. apply elem_of_app. right. by left. }
  destruct Hfw as [Hopen Hempty].
  unfold admit_waiter in Hadm.
  destruct (os_send OAdmitted (chan cs (w_tx w))) as [c sent] eqn:Hsend.
  destruct (os_send_open OAdmitted _ Hopen) as [Hok Hrecv]. rewrite Hsend in Hok, Hrecv.
  simpl in Hok, Hrecv. subst sent. injection Hadm as <- <-.
  assert (Hlen : Z.of_nat (length (holders cs ts)) < u64_max).
  { destruct Hsl as [Ha _ _]. unfold u64_max, CAPACITY_MAX in *. lia. }
  split; [|split_and!; try done].
  2:{ simpl. apply wrap64_small. destruct Hsl as [Ha _ _]. unfold u64_max in *. lia. }
  split; simpl; try done.
  - split; simpl; try done.
    + exists (seat_of w :: os). split.
      * rewrite Hp'. by rewrite <- Permutation_middle.
      * constructor; [exists OAdmitted; simpl; by rewrite chan_insert_eq|].
        by apply received_frame.
    + apply fresh_frame; [done|].
      rewrite Forall_app, Forall_cons in Hfr. rewrite Forall_app. tauto.
  - eapply Slots_perm.
    + symmetry. apply (holders_admit cs ts (seat_of w)); try done.
      apply (queue_seats i cs ts l w HS). rewrite Hq. apply elem_of_app. right. by left.
    + simpl. eapply Slots_ext; [..|apply (Slots_take i (holders cs ts) (w_user w)); done];
        done.
  - destruct Hsl as [Ha _ _]. rewrite wrap64_small; unfold u64_max, CAPACITY_MAX in *; lia.
Qed.

(** ** Dispatch *)

(** No slot is left idle while a waiter below its user's cap is queued. *)
Definition WorkConserving (i : Inner) : Prop :=
  capacity i <= active i \/ Forall (fun w => at_user_cap i (w_user w) = true) (queue i).

(** An operation never pushes a user, or the total, over the limits. *)
Definition WithinLimits (i i' : Inner) : Prop :=
  (active i' <= active i \/ active i' <= capacity i') /\
  (forall u, user_count i' u <= user_count i u \/ user_count i' u <= per_user_active i').

Lemma position_split {A} (f : A -> bool) q idx w :
  position f q = Some idx -> q !! idx = Some w ->
  exists q1 q2, q = q1 ++ w :: q2 /\ delete idx q = q1 ++ q2 /\ f w = true /\
    Forall (fun y => f y = false) q1.
Proof.
  intros (q1 & x & q2 & -> & <- & Hx & Hq1)%position_Some Hl.
  rewrite list_lookup_middle in Hl by done. simplify_eq.
  exists q1, q2. by rewrite delete_middle_nat.
Qed.

Lemma position_lookup {A} (f : A -> bool) q idx :
  position f q = Some idx -> exists w, q !! idx = Some w.
Proof.
  intros (q1 & x & q2 & -> & <- & Hx & Hq1)%position_Some.
  exists x. by rewrite list_lookup_middle.
Qed.

Lemma user_count_take user i v :
  0 <= user_count i v < u64_max ->
  user_count (take_slot user i) v =
    (if decide (user = Some v) then 1 else 0) + user_count i v.
Proof.
  unfold u64_max. intros Hb. unfold user_count at 1 2. destruct user as [u|]; simpl; [|done].
  destruct (decide (u = v)) as [->|Hne].
  - rewrite lookup_insert_eq, decide_True by done. simpl. fold (user_count i v). rewrite wrap64_small; lia.
  - by rewrite lookup_insert_ne, decide_False by congruence.
Qed.

Lemma Good_user_count i cs ts l u :
  Good i cs ts l -> 0 <= user_count i u <= CAPACITY_MAX.
Proof.
  intros [_ [Ha Hu _] _ _ Hact _]. rewrite Hu.
  pose proof (count_user_le u (holders cs ts)). lia.
Qed.

Lemma dispatch_loop_good fuel now i cs ts l i' cs' :
  Good i cs ts l -> dispatch_loop fuel now i cs = (i', cs') ->
  Good i' cs' ts l /\ WithinLimits i i' /\ capacity i' = capacity i /\
  per_user_active i' = per_user_active i /\
  ((length (queue i) <= fuel)%nat -> WorkConserving i').
Proof.
  revert i cs. induction fuel as [|fuel IH]; intros i cs HG Hd; simpl in Hd.
  { injection Hd as <- <-. split_and!; try done; [split; intros; left; done|].
    intros Hz. right. by destruct (queue i); [|simpl in Hz; lia]. }
  destruct (Z.ltb_spec (active i) (capacity i)) as [Hlt|Hge].
  2:{ injection Hd as <- <-. split_and!; try done; [split; intros; left; done|].
      by left. }
  destruct (position _ (queue i)) as [idx|] eqn:Hpos.
  2:{ injection Hd as <- <-. split_and!; try done; [split; intros; left; done|].
      intros _. right. apply position_None in Hpos. eapply Forall_impl; [done|].
      intros w ?%negb_false_iff. done. }
  destruct (position_lookup _ _ _ Hpos) as [w Hw]. rewrite Hw in Hd.
  destruct (position_split _ _ _ _ Hpos Hw) as (q1 & q2 & Hq & Hdel & Hcap & _).
  rewrite Hdel in Hd. apply negb_true_iff in Hcap.
  destruct (admit_waiter _ _ _ _) as [i1 cs1] eqn:Hadm.
  destruct (admit_good _ _ _ _ _ _ _ _ _ _ HG Hlt Hq Hadm) as (HG1 & Hq1 & Ha1 & Hc1 & Hp1 & Hu1).
  destruct (IH _ _ HG1 Hd) as (HG' & [HWa HWu] & Hc' & Hp' & HWC).
  split_and!; [done| |congruence|congruence|].
  - split; [rewrite Hc'; lia|]. intros u.
    pose proof (Good_user_count _ _ _ _ u HG) as Hb.
    assert (Hu : user_count i1 u = user_count (take_slot (w_user w) i) u).
    { unfold user_count. by rewrite Hu1. }
    rewrite user_count_take in Hu by (unfold CAPACITY_MAX, u64_max in *; lia).
    specialize (HWu u). rewrite Hp', Hp1 in *.
    destruct (decide (w_user w = Some u)) as [He|]; [|lia].
    rewrite He in Hcap. simpl in Hcap. to_prop. lia.
  - intros Hlen. apply HWC. rewrite Hq1. rewrite Hq in Hlen.
    rewrite length_app in *. simpl in Hlen. lia.
Qed.

(** ** Positions *)
Lemma notify_from_spec pos q q' evs :
  notify_from pos q = (q', evs) ->
  seat_of <$> q' = seat_of <$> q /\
  (forall k w, q' !! k = Some w -> w_last_position w = Some (pos + k)%nat) /\
  evs = omap (fun '(k, w) => if decide (w_last_position w = Some k) then None else Some (w_id w, k))
          (zip (seq pos (length q)) q).
Proof.
  revert pos q' evs. induction q as [|w q IH]; intros pos q' evs; simpl; [by intros; simplify_eq|].
  destruct (notify_from (S pos) q) as [q1 evs1] eqn:Hn.
  destruct (IH _ _ _ Hn) as (Hs & Hk & He). case_bool_decide as Hb; intros; simplify_eq/=.
  - split_and!; [by rewrite Hs| |by rewrite decide_True].
    intros [|k] w' Hl; simplify_eq/=; [by rewrite Nat.add_0_r|].
    rewrite (Hk _ _ Hl). f_equal. lia.
  - split_and!; [by rewrite Hs| |by rewrite decide_False].
    intros [|k] w' Hl; simplify_eq/=; [by rewrite Nat.add_0_r|].
    rewrite (Hk _ _ Hl). f_equal. lia.
Qed.

(** Every queued waiter has been told where it stands. *)
Definition PositionsKnown (i : Inner) : Prop :=
  forall k w, queue i !! k = Some w -> w_last_position w = Some k.

Lemma seat_eq_Forall (P : QueuedWaiter -> Prop) q q' :
  seat_of <$> q' = seat_of <$> q ->
  Forall (fun w => P (seat_of w)) q -> Forall (fun w => P (seat_of w)) q'.
Proof.
  intros He HF. assert (Forall P (seat_of <$> q')) as H by (rewrite He; by apply Forall_fmap).
  revert H. rewrite Forall_fmap. done.
Qed.

Lemma notify_good i cs ts l i' evs :
  notify_positions i = (i', evs) -> Good i cs ts l ->
  Good i' cs ts l /\ PositionsKnown i' /\ WithinLimits i i' /\
  (WorkConserving i -> WorkConserving i').
Proof.
  unfold notify_positions. destruct (notify_from 0 (queue i)) as [q evs'] eqn:Hn.
  intros [= <- <-] [[(os & Hp & Hos) Hf H1 H2 Hb Hr] Hs Hcap Hpua Hact Hid].
  destruct (notify_from_spec _ _ _ _ Hn) as (Hseat & Hpos & _).
  split_and!.
  - split; try done; [|by eapply Slots_ext; [..|done]].
    split; simpl; try done.
    + exists os. by rewrite Hseat.
    + eapply (seat_eq_Forall (fun s => fresh_chan (chan cs (q_rx s)))); done.
  - intros k w Hl. apply (Hpos k w Hl).
  - split; [by left|]. intros u. by left.
  - intros [Hge|Hall]; [by left|right]. simpl.
    eapply (seat_eq_Forall (fun s => at_user_cap i (q_user s) = true)); done.
Qed.

Lemma WithinLimits_trans i1 i2 i3 :
  WithinLimits i1 i2 -> WithinLimits i2 i3 ->
  capacity i3 = capacity i2 -> per_user_active i3 = per_user_active i2 -> WithinLimits i1 i3.
Proof.
  intros [Ha Hu] [Ha' Hu'] Hc Hp. split; [lia|].
  intros u. specialize (Hu u). specialize (Hu' u). lia.
Qed.

(** What every critical section that ends in [dispatch] establishes. *)
Record Settled (i : Inner) : Prop := {
  st_work : WorkConserving i;
  st_positions : PositionsKnown i }.

Lemma dispatch_good now g ts l :
  Good (inner g) (chans g) ts l ->
  let g' := dispatch now g in
  Good (inner g') (chans g') ts l /\ Settled (inner g') /\
  WithinLimits (inner g) (inner g') /\
  capacity (inner g') = capacity (inner g) /\
  per_user_active (inner g') = per_user_active (inner g).
Proof.
  intros HG. unfold dispatch. rewrite retain_all.
  2:{ eapply Forall_impl; [apply HG|]. intros w [Ho _]. simpl in Ho. by rewrite Ho. }
  replace (set_queue (queue (inner g)) (inner g)) with (inner g) by by destruct (inner g).
  destruct (dispatch_loop _ _ _ _) as [i cs] eqn:Hd.
  destruct (dispatch_loop_good _ _ _ _ _ _ _ _ HG Hd) as (HG1 & HW & Hc & Hp & HWC).
  destruct (notify_positions i) as [i' evs] eqn:Hn.
  destruct (notify_good _ _ _ _ _ _ Hn HG1) as (HG2 & HPK & HW2 & HWC2). simpl.
  assert (capacity i' = capacity i /\ per_user_active i' = per_user_active i) as [Hc2 Hp2].
  { unfold notify_positions in Hn. destruct (notify_from _ _). by simplify_eq. }
  split_and!; [done|split; [apply HWC2, HWC; done|done]| |congruence|congruence].
  by eapply WithinLimits_trans.
Qed.

(** ** The operations *)

Lemma seats_middle ts1 q ts2 : seats (ts1 ++ Seated q :: ts2) ≡ₚ q :: seats (ts1 ++ ts2).
Proof. rewrite !seats_app. simpl. symmetry. apply Permutation_middle. Qed.

(** A seat that is not queued leaves the tasks. *)
Lemma seating_remove i cs ts1 q ts2 l :
  Seating i cs (ts1 ++ Seated q :: ts2) l -> q ∉ seat_of <$> queue i ->
  Seating i cs (ts1 ++ ts2) l.
Proof.
  intros [(os & Hp & Hos) Hf H1 H2 Hb Hr] Hni. rewrite seats_middle in Hp, H1, H2, Hb, Hr.
  assert (Hq : q ∈ os).
  { assert (q ∈ q :: seats (ts1 ++ ts2)) as Hin by by left.
    rewrite Hp in Hin. apply elem_of_app in Hin as [?|?]; done. }
  apply list_elem_of_split in Hq as (os1 & os2 & ->).
  simpl in H1, H2. apply NoDup_cons in H1 as [_ H1], H2 as [_ H2].
  apply Forall_cons in Hb as [_ Hb], Hr as [_ Hr]. split; try done.
  exists (os1 ++ os2). split.
  - apply (Permutation_cons_inv (a := q)). rewrite Hp, !app_assoc.
    symmetry. apply Permutation_middle.
  - rewrite Forall_app, Forall_cons in Hos. rewrite Forall_app. tauto.
Qed.

(** Writing a channel that no seat reads. *)
Lemma Good_frame i cs ts l x c :
  Forall (fun q => q_rx q <> x) (seats ts) -> Good i cs ts l -> Good i (<[x := c]> cs) ts l.
Proof.
  intros Hne [[(os & Hp & Hos) Hf H1 H2 Hb Hr] Hs Hcap Hpua Hact Hid].
  split; try done; [|by rewrite holders_frame].
  pose proof Hne as Hne'. rewrite Hp in Hne'. apply Forall_app in Hne' as [Hq Ho].
  split; try done; [exists os; split; [done|by apply received_frame]|].
  apply fresh_frame; [by apply fmap_seat_ne|done].
Qed.

Lemma rest_rx_ne i cs ts1 q ts2 l :
  Good i cs (ts1 ++ Seated q :: ts2) l ->
  Forall (fun q' => q_rx q' <> q_rx q) (seats (ts1 ++ ts2)).
Proof.
  intros HG. eapply split_rx_ne; [apply seats_middle|apply HG].
Qed.

Lemma holders_middle cs ts1 t ts2 :
  holders cs (ts1 ++ t :: ts2) ≡ₚ
  match task_slot cs t with Some x => [x] | None => [] end ++ holders cs (ts1 ++ ts2).
Proof.
  rewrite !holders_app, holders_cons. destruct (task_slot cs t); simpl; [|done].
  symmetry. apply Permutation_middle.
Qed.

(** A seat whose outcome arrived is not queued any more. *)
Lemma seat_left_queue i cs ts l q o :
  Seating i cs ts l -> os_try_recv (chan cs (q_rx q)) = RxValue o ->
  q ∉ seat_of <$> queue i.
Proof.
  intros [_ Hf _ _ _ _] Ho (w & -> & Hw)%list_elem_of_fmap.
  rewrite Forall_forall in Hf. destruct (Hf w Hw) as [_ He]. simpl in Ho. congruence.
Qed.

(** Conversely a seat outside the queue has received its outcome, so the
    await never sees a dropped sender. *)
Lemma seat_received i cs ts l q :
  Seating i cs ts l -> Seated q ∈ ts -> q ∉ seat_of <$> queue i -> received cs q.
Proof.
  intros [(os & Hp & Hos) _ _ _ _ _] Hin%elem_of_seats Hni.
  rewrite Hp in Hin. apply elem_of_app in Hin as [?|Hin]; [done|].
  rewrite Forall_forall in Hos. auto.
Qed.

(** *** Leaving with an outcome *)
Lemma Good_received g ts1 q ts2 l g' r :
  Good (inner g) (chans g) (ts1 ++ Seated q :: ts2) l ->
  enter_received q g = Some (g', r) ->
  inner g' = inner g /\
  Good (inner g') (chans g')
    (ts1 ++ match r with Ok _ => Permit (q_user q) :: ts2 | Err _ => ts2 end) l.
Proof.
  intros HG. unfold enter_received. destruct (os_try_recv _) as [|o|] eqn:Hr; [done| |].
  2:{ (* the sender of a live seat is never dropped silently *)
      exfalso. destruct (decide (q ∈ seat_of <$> queue (inner g))) as [Hin|Hni].
      - apply list_elem_of_fmap in Hin as (w & -> & Hw).
        pose proof (sg_fresh _ _ _ _ (gd_seating _ _ _ _ HG)) as Hf.
        rewrite Forall_forall in Hf. destruct (Hf w Hw) as [_ He]. simpl in Hr. congruence.
      - destruct (seat_received _ _ _ _ q (gd_seating _ _ _ _ HG)) as [o Ho];
          [apply elem_of_app; right; by left|done|congruence]. }
  pose proof (seat_left_queue _ _ _ _ _ _ (gd_seating _ _ _ _ HG) Hr) as Hni.
  pose proof (rest_rx_ne _ _ _ _ _ _ HG) as Hne.
  pose proof (seating_remove _ _ _ _ _ _ (gd_seating _ _ _ _ HG) Hni) as HS.
  pose proof (gd_slots _ _ _ _ HG) as Hsl.
  assert (Hh : Slots (inner g) (match o with OAdmitted => [q_user q] | _ => [] end
                  ++ holders (chans g) (ts1 ++ ts2))).
  { eapply Slots_perm; [|exact Hsl]. rewrite holders_middle. simpl. rewrite Hr. by destruct o. }
  destruct HG as [_ _ Hcap Hpua Hact Hid].
  destruct o; intros [= <- <-]; (split; [done|]); apply Good_frame; try done.
  - rewrite seats_app in *. done.
  - split; try done; [|eapply Slots_perm; [|exact Hh]; by rewrite holders_middle].
    destruct HS as [HS1 HS2 HS3 HS4 HS5 HS6]. rewrite seats_app in *.
    split; rewrite ?seats_app; done.
Qed.

Lemma remove_waiter_none id g :
  remove_waiter id g = None -> forall q, q_id q = id -> q ∉ seat_of <$> queue (inner g).
Proof.
  unfold remove_waiter. destruct (position _ _) eqn:Hp; [done|]. intros _ q <-.
  apply position_None in Hp. intros (w & -> & Hw)%list_elem_of_fmap.
  rewrite Forall_forall in Hp. specialize (Hp w Hw). simpl in Hp. to_prop. done.
Qed.

Lemma remove_waiter_some g ts1 q ts2 l g' :
  Good (inner g) (chans g) (ts1 ++ Seated q :: ts2) l ->
  remove_waiter (q_id q) g = Some g' ->
  Good (inner g') (chans g') (ts1 ++ ts2) l /\
  (WorkConserving (inner g) -> WorkConserving (inner g')) /\
  WithinLimits (inner g) (inner g') /\
  capacity (inner g') = capacity (inner g) /\
  per_user_active (inner g') = per_user_active (inner g).
Proof.
  intros HG. unfold remove_waiter. destruct (position _ _) as [pos|] eqn:Hp; [|done].
  destruct (position_lookup _ _ _ Hp) as [w Hw]. rewrite Hw. intros [= <-].
  destruct (position_split _ _ _ _ Hp Hw) as (q1 & q2 & Hq & Hdel & Hid & _).
  simpl. rewrite Hdel. apply Z.eqb_eq in Hid.
  pose proof HG as [HS Hsl Hcap Hpua Hact Hnid].
  pose proof HS as [(os & Hperm & Hos) Hf H1 H2 Hb Hr].
  assert (Hwq : seat_of w = q).
  { assert (seat_of w ∈ seats (ts1 ++ Seated q :: ts2)) as Hin.
    { eapply queue_seats; [done|]. rewrite Hq. apply elem_of_app. right. by left. }
    rewrite seats_middle in H1. simpl in H1. apply NoDup_cons in H1 as [Hni _].
    rewrite seats_middle in Hin. apply elem_of_cons in Hin as [|Hin]; [done|].
    exfalso. apply Hni. rewrite <- Hid. by apply (list_elem_of_fmap_2 q_id _ (seat_of w)). }
  rewrite Hq, fmap_app, fmap_cons, Hwq in Hperm.
  assert (Hrest : seats (ts1 ++ ts2) ≡ₚ (seat_of <$> q1 ++ q2) ++ os).
  { apply (Permutation_cons_inv (a := q)). rewrite <- seats_middle, Hperm, fmap_app, <- !app_assoc.
    symmetry. apply Permutation_middle. }
  pose proof (rest_rx_ne _ _ _ _ _ _ HG) as Hne.
  rewrite Hq, Forall_app, Forall_cons in Hf. destruct Hf as (Hf1 & Hfw & Hf2).
  assert (q_rx q = w_tx w) as Hrx by (by rewrite <- Hwq). rewrite <- Hrx.
  assert (Hslq : task_slot (chans g) (Seated q) = None).
  { simpl. rewrite Hrx. destruct Hfw as [_ He]. simpl in He. by rewrite He. }
  split_and!; try done.
  - apply Good_frame; [done|]. split; simpl; try done.
    + rewrite seats_middle in H1, H2, Hb, Hr. simpl in H1, H2.
      apply NoDup_cons in H1 as [_ H1], H2 as [_ H2].
      apply Forall_cons in Hb as [_ Hb], Hr as [_ Hr].
      split; simpl; try done; [by exists os|by apply Forall_app].
    + eapply Slots_ext; [..|eapply Slots_perm; [|exact Hsl]]; [done|done|].
      by rewrite holders_middle, Hslq.
  - intros [Hge|Hall]; [by left|right]. simpl. rewrite Hq in Hall.
    apply Forall_app in Hall as [Ha Hc]. apply Forall_cons in Hc as [_ Hc].
    by apply Forall_app.
  - split; [by left|]. intros u. by left.
Qed.

(** A seat that already received its outcome, leaving without reading it. *)
Lemma Good_forget i cs ts1 q ts2 l :
  Good i cs (ts1 ++ Seated q :: ts2) l -> q ∉ seat_of <$> queue i ->
  Good (match os_try_recv (chan cs (q_rx q)) with
        | RxValue OAdmitted => free_slot (q_user q) i
        | _ => i
        end) cs (ts1 ++ ts2) l.
Proof.
  intros HG Hni. pose proof (seating_remove _ _ _ _ _ _ (gd_seating _ _ _ _ HG) Hni) as HS.
  pose proof HG as [_ Hsl Hcap Hpua Hact Hid].
  apply (Slots_perm _ _ _ (holders_middle _ _ _ _)) in Hsl. simpl in Hsl.
  destruct (os_try_recv _) as [|[]|]; try (split; done).
  split; simpl; try done.
  - destruct HS as [HS1 HS2 HS3 HS4 HS5 HS6]. by split.
  - by apply Slots_free.
  - unfold saturating_sub. unfold CAPACITY_MAX in *. lia.
Qed.

Lemma enter_timeout_good g ts1 q ts2 l g' r :
  Good (inner g) (chans g) (ts1 ++ Seated q :: ts2) l -> Settled (inner g) ->
  enter_timeout q g = (g', r) ->
  Good (inner g') (chans g')
    (ts1 ++ match r with Ok _ => Permit (q_user q) :: ts2 | Err _ => ts2 end) l /\
  Settled (inner g') /\ WithinLimits (inner g) (inner g').
Proof.
  intros HG [HW HPK]. unfold enter_timeout.
  pose proof (rest_rx_ne _ _ _ _ _ _ HG) as Hne.
  destruct (remove_waiter _ _) as [g1|] eqn:Hrm.
  - destruct (remove_waiter_some _ _ _ _ _ _ HG Hrm) as (HG1 & HWC & HL & Hc & Hp).
    destruct (notify_positions (inner g1)) as [i evs] eqn:Hn.
    destruct (notify_good _ _ _ _ _ _ Hn HG1) as (HG2 & HPK2 & HL2 & HWC2).
    intros [= <- <-]. simpl. split_and!; [by apply Good_frame|split; auto|].
    assert (capacity i = capacity (inner g1) /\ per_user_active i = per_user_active (inner g1))
      as [Hc2 Hp2].
    { unfold notify_positions in Hn. destruct (notify_from _ _). by simplify_eq. }
    by eapply WithinLimits_trans.
  - intros Hr. pose proof (remove_waiter_none _ _ Hrm q eq_refl) as Hni.
    destruct (seat_received _ _ _ _ q (gd_seating _ _ _ _ HG)) as [o Ho];
      [apply elem_of_app; right; by left|done|].
    assert (Hrcv : enter_received q g = Some (g', r)).
    { unfold enter_received. rewrite Ho in *. destruct o; by simplify_eq. }
    destruct (Good_received _ _ _ _ _ _ _ HG Hrcv) as [Hi HG']. rewrite Hi in *.
    split_and!; [done|by split|split; intros; by left].
Qed.

(** *** Cancellation and release *)
Lemma free_slot_limits i hs user :
  Slots i (user :: hs) -> WithinLimits i (free_slot user i).
Proof.
  intros Hs. pose proof (Slots_free _ _ _ Hs) as Hs'. split.
  - left. destruct Hs as [Ha _ _], Hs' as [Ha' _ _]. rewrite Ha, Ha'. simpl length. lia.
  - intros u. left. rewrite (slots_user _ _ Hs), (slots_user _ _ Hs'), count_user_cons.
    case_decide; lia.
Qed.

Lemma dispatch_after i now g ts l :
  WithinLimits i (inner g) -> Good (inner g) (chans g) ts l ->
  Good (inner (dispatch now g)) (chans (dispatch now g)) ts l /\
  Settled (inner (dispatch now g)) /\ WithinLimits i (inner (dispatch now g)).
Proof.
  intros HW HG. destruct (dispatch_good now g ts l HG) as (HG' & HS & HW' & Hc & Hp).
  split_and!; [done..|]. by eapply WithinLimits_trans.
Qed.

Lemma release_good user now g ts1 ts2 l :
  Good (inner g) (chans g) (ts1 ++ Permit user :: ts2) l ->
  let g' := release user now g in
  Good (inner g') (chans g') (ts1 ++ ts2) l /\ Settled (inner g') /\
  WithinLimits (inner g) (inner g').
Proof.
  intros HG. pose proof HG as [HS Hsl Hcap Hpua Hact Hid].
  apply (Slots_perm _ _ _ (holders_middle _ _ _ _)) in Hsl. simpl in Hsl.
  apply dispatch_after; simpl; [by eapply free_slot_limits|].
  split; simpl; try done.
  - assert (Hse : seats (ts1 ++ Permit user :: ts2) = seats (ts1 ++ ts2)) by by rewrite !seats_app.
    destruct HS as [HS1 HS2 HS3 HS4 HS5 HS6]. rewrite Hse in *. by split.
  - by apply Slots_free.
  - unfold saturating_sub, CAPACITY_MAX in *. lia.
Qed.

Lemma drop_queued_good now g ts1 q ts2 l :
  Good (inner g) (chans g) (ts1 ++ Seated q :: ts2) l -> Settled (inner g) ->
  let g' := drop_queued q now g in
  Good (inner g') (chans g') (ts1 ++ ts2) l /\ Settled (inner g') /\
  WithinLimits (inner g) (inner g').
Proof.
  intros HG HSet. unfold drop_queued. pose proof (rest_rx_ne _ _ _ _ _ _ HG) as Hne.
  destruct (remove_waiter _ _) as [g1|] eqn:Hrm.
  - destruct (remove_waiter_some _ _ _ _ _ _ HG Hrm) as (HG1 & _ & HL & _).
    destruct (dispatch_after _ now _ _ _ HL HG1) as (HG2 & HS2 & HL2).
    split_and!; [by apply Good_frame|done..].
  - pose proof (remove_waiter_none _ _ Hrm q eq_refl) as Hni.
    pose proof (Good_forget _ _ _ _ _ _ HG Hni) as HG1.
    destruct (os_try_recv _) as [|[]|] eqn:Hr; simpl;
      try (split_and!; [by apply Good_frame|done|split; intros; by left]).
    destruct (dispatch_after (inner g) now (mkGate (free_slot (q_user q) (inner g)) (chans g) (log g))
                (ts1 ++ ts2) l) as (HG2 & HS2 & HL2); simpl.
    + pose proof (gd_slots _ _ _ _ HG) as Hsl.
      apply (Slots_perm _ _ _ (holders_middle _ _ _ _)) in Hsl. simpl in Hsl. rewrite Hr in Hsl.
      by eapply free_slot_limits.
    + done.
    + split_and!; [by apply Good_frame|done..].
Qed.

(** *** Closing *)
Lemma close_send_spec ws cs :
  NoDup (w_tx <$> ws) -> Forall (fun w => fresh_chan (chan cs (w_tx w))) ws ->
  (forall w, w ∈ ws -> os_try_recv (chan (close_send ws cs) (w_tx w)) = RxValue OClosed) /\
  (forall x, x ∉ w_tx <$> ws -> chan (close_send ws cs) x = chan cs x).
Proof.
  revert cs. induction ws as [|w ws IH]; intros cs Hnd Hf; simpl; [split; [by inversion 1|done]|].
  simpl in Hnd. apply NoDup_cons in Hnd as [Hni Hnd]. apply Forall_cons in Hf as [[Ho He] Hf].
  destruct (IH (<[w_tx w := (os_send OClosed (chan cs (w_tx w))).1]> cs) Hnd) as [IH1 IH2].
  { apply fresh_frame; [|done]. apply Forall_forall. intros w' Hw' Heq.
    apply Hni. rewrite <- Heq. by apply list_elem_of_fmap_2. }
  split.
  - intros w' [->|Hw']%elem_of_cons; [|by apply IH1].
    rewrite IH2 by done. rewrite chan_insert_eq. by apply os_send_open.
  - intros x Hx. apply not_elem_of_cons in Hx as [Hx1 Hx2].
    rewrite IH2 by done. by apply chan_insert_ne.
Qed.

Lemma holders_ext cs cs' ts :
  (forall q, q ∈ seats ts -> task_slot cs' (Seated q) = task_slot cs (Seated q)) ->
  holders cs' ts = holders cs ts.
Proof.
  induction ts as [|[q|u] ts IH]; intros H; [done| |]; rewrite !holders_cons.
  - rewrite (H q) by by left. rewrite IH; [done|]. intros q' Hq'. apply H. by right.
  - simpl. by rewrite IH.
Qed.

Lemma close_good g ts l :
  Good (inner g) (chans g) ts l ->
  let g' := close g in
  Good (inner g') (chans g') ts l /\ Settled (inner g') /\ WithinLimits (inner g) (inner g').
Proof.
  intros [[(os & Hp & Hos) Hf H1 H2 Hb Hr] Hsl Hcap Hpua Hact Hid]. simpl.
  assert (Hnd : NoDup (w_tx <$> queue (inner g))).
  { rewrite Hp, fmap_app in H2. apply NoDup_app in H2 as [H2 _].
    by rewrite <- list_fmap_compose in H2. }
  destruct (close_send_spec _ _ Hnd Hf) as [Hc1 Hc2].
  set (cs' := close_send (queue (inner g)) (chans g)) in *.
  assert (Hother : forall q, q ∈ os -> chan cs' (q_rx q) = chan (chans g) (q_rx q)).
  { intros q Hq. apply Hc2. intros Hin. rewrite Hp, fmap_app in H2.
    apply NoDup_app in H2 as (_ & H2 & _). apply (H2 (q_rx q)).
    - by rewrite <- list_fmap_compose.
    - by apply list_elem_of_fmap_2. }
  rewrite Forall_forall in Hf. rewrite Forall_forall in Hos. split_and!.
  - split; simpl; try done.
    + split; simpl; try done.
      exists (seats ts). split; [done|]. apply Forall_forall. intros q Hq.
      rewrite Hp, elem_of_app in Hq. destruct Hq as [(w & -> & Hw)%list_elem_of_fmap|Hq].
      * exists OClosed. by apply (Hc1 w).
      * unfold received. rewrite Hother by done. by apply Hos.
    + eapply Slots_ext; [..|eapply Slots_perm; [|exact Hsl]]; try done.
      rewrite (holders_ext (chans g) cs'); [done|]. intros q Hq. simpl.
      rewrite Hp, elem_of_app in Hq. destruct Hq as [(w & -> & Hw)%list_elem_of_fmap|Hq].
      * simpl. rewrite (Hc1 w Hw). destruct (Hf w Hw) as [_ He]. simpl in He. by rewrite He.
      * by rewrite Hother.
  - split; [right; constructor|]. intros k w Hl. done.
  - split; [by left|]. intros u. by left.
Qed.

(** *** Entering *)
Lemma Settled_empty i : queue i = [] -> Settled i.
Proof. intros Hq. split; [right; rewrite Hq; constructor|]. intros k w. by rewrite Hq. Qed.

(** A slot taken directly for a new permit, with nobody queued. *)
Lemma grant_good i cs ts l user :
  Good i cs ts l -> queue i = [] -> active i < capacity i -> at_user_cap i user = false ->
  Good (take_slot user i) cs (ts ++ [Permit user]) l /\ WithinLimits i (take_slot user i).
Proof.
  intros HG Hq Hlt Hcap. pose proof HG as [HS Hsl Hc Hpua Hact Hid].
  assert (Hlen : Z.of_nat (length (holders cs ts)) < u64_max).
  { destruct Hsl as [Ha _ _]. unfold u64_max, CAPACITY_MAX in *. lia. }
  assert (Hinc : (active i +64 1)%rust = active i + 1).
  { apply wrap64_small. destruct Hsl as [Ha _ _]. unfold u64_max, CAPACITY_MAX in *. lia. }
  split.
  - split; simpl; try done; [..|rewrite Hinc; lia].
    + destruct HS as [HS1 HS2 HS3 HS4 HS5 HS6].
      split; rewrite ?seats_app, ?app_nil_r; done.
    + eapply Slots_perm; [|by apply Slots_take]. rewrite holders_app. simpl.
      apply Permutation_cons_append.
  - split; simpl; [rewrite Hinc; lia|]. intros u.
    pose proof (Good_user_count _ _ _ _ u HG) as Hb.
    rewrite user_count_take by (unfold CAPACITY_MAX, u64_max in *; lia).
    case_decide as He; [|lia]. subst user. simpl in Hcap. to_prop. lia.
Qed.

Lemma try_enter_good g ts l g' :
  Good (inner g) (chans g) ts l -> try_enter g = Some g' ->
  Good (inner g') (chans g') (ts ++ [Permit None]) l /\ Settled (inner g') /\
  WithinLimits (inner g) (inner g').
Proof.
  intros HG. unfold try_enter. destruct (_ && _)%bool eqn:Hb; [|done]. intros [= <-]. to_prop.
  destruct (grant_good _ _ _ _ None HG) as [HG1 HL1]; [done..|].
  split_and!; [done|by apply Settled_empty|done].
Qed.

(** The new waiter and its seat, before dispatch. *)
Lemma enqueue_good i cs ts l user now :
  Good i cs ts l -> next_id i < u64_max ->
  let id := next_id i in
  Good (set_queue (queue i ++ [mkWaiter id user now None l]) (set_next_id (id +64 1)%rust i))
    (<[l := os_channel]> cs) (ts ++ [Seated (mkSeat id user l)]) (N.succ l).
Proof.
  intros [[(os & Hp & Hos) Hf H1 H2 Hb Hr] Hsl Hcap Hpua Hact Hid] Hlt id.
  assert (Hinc : (id +64 1)%rust = id + 1).
  { apply wrap64_small. unfold u64_max, id in *. lia. }
  assert (Hnl : Forall (fun q => q_rx q <> l) (seats ts)).
  { eapply Forall_impl; [exact Hr|]. intros q Hq. simpl in Hq. lia. }
  pose proof Hnl as Hnl'. rewrite Hp in Hnl'. apply Forall_app in Hnl' as [Hnq Hno].
  assert (Hsnoc : seats (ts ++ [Seated (mkSeat id user l)]) ≡ₚ mkSeat id user l :: seats ts).
  { rewrite seats_app. symmetry. apply Permutation_cons_append. }
  split; simpl; try done; [| |rewrite Hinc; unfold id in *; lia].
  - split; simpl.
    + exists os. split; [|by apply received_frame].
      rewrite Hsnoc, Hp, fmap_app, <- app_assoc. simpl. apply Permutation_middle.
    + apply Forall_app. split; [by apply fresh_frame; [apply fmap_seat_ne|]|].
      repeat constructor; simpl; rewrite chan_insert_eq; apply OneshotLaws0.
    + rewrite Hsnoc. simpl. apply NoDup_cons. split; [|done].
      intros (q & Hq & Hin)%list_elem_of_fmap. rewrite Forall_forall in Hb.
      specialize (Hb q Hin). simpl in Hb. unfold id in *. lia.
    + rewrite Hsnoc. simpl. apply NoDup_cons. split; [|done].
      intros (q & Hq & Hin)%list_elem_of_fmap. rewrite Forall_forall in Hr.
      specialize (Hr q Hin). simpl in Hr. lia.
    + rewrite Hsnoc, Hinc. constructor; [simpl; unfold id; lia|].
      eapply Forall_impl; [exact Hb|]. intros q Hq. simpl in Hq. unfold id. lia.
    + rewrite Hsnoc. constructor; [simpl; lia|].
      eapply Forall_impl; [exact Hr|]. intros q Hq. simpl in Hq. lia.
  - eapply Slots_ext; [..|eapply Slots_perm; [|exact Hsl]]; try done.
    rewrite holders_app, holders_cons. simpl. rewrite chan_insert_eq, os_channel_empty.
    rewrite holders_frame by done. simpl. by rewrite app_nil_r.
Qed.

Lemma enter_fast_good user now g ts l g' :
  Good (inner g) (chans g) ts l -> enter user now l g = (g', None) ->
  Good (inner g') (chans g') (ts ++ [Permit user]) l /\ Settled (inner g') /\
  WithinLimits (inner g) (inner g').
Proof.
  intros HG. unfold enter. destruct (_ && _)%bool eqn:Hb; [|done]. intros [= <-]. to_prop.
  destruct (grant_good _ _ _ _ user HG) as [HG1 HL1]; [done..|]. simpl.
  split_and!; [|by apply Settled_empty|done].
  by eapply Good_perm_fields; [..|exact HG1].
Qed.

Lemma enter_queue_good user now g ts l g' q :
  Good (inner g) (chans g) ts l -> next_id (inner g) < u64_max ->
  enter user now l g = (g', Some q) ->
  Good (inner g') (chans g') (ts ++ [Seated q]) (N.succ l) /\ Settled (inner g') /\
  WithinLimits (inner g) (inner g').
Proof.
  intros HG Hlt. unfold enter. destruct (_ && _)%bool; [done|]. intros [= <- <-].
  apply dispatch_after; [split; intros; by left|]. simpl. by apply enqueue_good.
Qed.

(** ** Every step keeps the invariant *)
Definition Inv (w : World Ch) : Prop :=
  Good (inner (gate w)) (chans (gate w)) (tasks w) (next_loc w) /\ Settled (inner (gate w)).

Lemma set_limits_good n now cap pua g ts l :
  Good (inner g) (chans g) ts l ->
  CAPACITY_MIN <= cap <= CAPACITY_MAX -> PER_USER_MIN <= pua <= PER_USER_MAX ->
  let g' := dispatch now (mkGate (set_limits cap pua n (inner g)) (chans g) (log g)) in
  Good (inner g') (chans g') ts l /\ Settled (inner g') /\ WithinLimits (inner g) (inner g').
Proof.
  intros [[HS1 HS2 HS3 HS4 HS5 HS6] Hsl Hcap Hpua Hact Hid] Hc Hp.
  apply dispatch_after; [split; intros; by left|]. simpl.
  split; simpl; try done. by eapply Slots_ext; [..|exact Hsl].
Qed.

Lemma step_good (w w' : World Ch) :
  Inv w -> step w w' -> Inv w' /\ WithinLimits (inner (gate w)) (inner (gate w')).
Proof.
  intros [HG HS] Hstep. unfold Inv.
  destruct Hstep; simpl in *.
  - destruct (enter_fast_good _ _ _ _ _ _ HG H) as (? & ? & ?). done.
  - destruct (enter_queue_good _ _ _ _ _ _ _ HG H H0) as (? & ? & ?). done.
  - destruct (try_enter_good _ _ _ _ HG H) as (? & ? & ?). done.
  - destruct (Good_received _ _ _ _ _ _ _ HG H) as [Hi ?]. rewrite Hi in *.
    split; [done|]. split; intros; by left.
  - destruct (enter_timeout_good _ _ _ _ _ _ _ HG HS H) as (? & ? & ?). done.
  - destruct (drop_queued_good now _ _ _ _ _ HG HS) as (? & ? & ?). done.
  - destruct (release_good _ now _ _ _ _ HG) as (? & ? & ?). done.
  - destruct (close_good _ _ _ HG) as (? & ? & ?). done.
  - destruct (set_limits_good (chat_queue_depth (inner g)) now
      (clamp n CAPACITY_MIN CAPACITY_MAX) (per_user_active (inner g)) _ _ _ HG)
      as (? & ? & ?); [by apply clamp_bounds|apply HG|done].
  - destruct (set_limits_good (chat_queue_depth (inner g)) now (capacity (inner g))
      (clamp n PER_USER_MIN PER_USER_MAX) _ _ _ HG)
      as (? & ? & ?); [apply HG|by apply clamp_bounds|done].
  - split; [split|split; intros; by left]; [by eapply Good_perm_fields; [..|exact HG]|].
    destruct HS as [HW HPK]. by split.
Qed.

Lemma World_new_good cap : Inv (World_new cap).
Proof.
  split; simpl; [|by apply Settled_empty].
  constructor; simpl; [ | |by apply clamp_bounds|done..].
  - constructor; simpl; try done; try constructor. by exists [].
  - constructor; simpl; [done|intros u; unfold user_count; simpl; by rewrite lookup_empty|].
    intros u n. by rewrite lookup_empty.
Qed.

Lemma rtc_good (w w' : World Ch) : rtc step w w' -> Inv w -> Inv w'.
Proof.
  induction 1 as [|x y z Hxy _ IH]; [done|]. intros HI. apply IH. by eapply step_good.
Qed.

Lemma reachable_good cap w : reachable cap w -> Inv w.
Proof. intros H. eapply rtc_good; [exact H|apply World_new_good]. Qed.

(** ** What a dispatch does to each waiter *)
Lemma admit_waiter_sent now w i cs i' cs' :
  os_is_closed (chan cs (w_tx w)) = false -> admit_waiter now w i cs = (i', cs') ->
  queue i' = queue i /\ os_try_recv (chan cs' (w_tx w)) = RxValue OAdmitted /\
  (forall x, x <> w_tx w -> chan cs' x = chan cs x).
Proof.
  intros Ho Ha. unfold admit_waiter in Ha. destruct (os_send_open OAdmitted _ Ho) as [Hs Hr].
  destruct (os_send _ _) as [c sent]. simpl in Hs, Hr. subst sent. injection Ha as <- <-.
  split_and!; [done|by rewrite chan_insert_eq|].
  intros x Hx. by rewrite chan_insert_ne.
Qed.

Lemma Good_queue_tx i cs ts l : Good i cs ts l -> NoDup (w_tx <$> queue i).
Proof.
  intros [[(os & Hp & _) _ _ H2 _ _] _ _ _ _ _]. rewrite Hp, fmap_app in H2.
  apply NoDup_app in H2 as [H2 _]. by rewrite <- list_fmap_compose in H2.
Qed.

Record Fate (i : Inner) (cs : gmap N Ch) (i' : Inner) (cs' : gmap N Ch) : Prop := {
  fate_frame x : x ∉ w_tx <$> queue i -> chan cs' x = chan cs x;
  fate_waiter w : w ∈ queue i ->
    w ∈ queue i' \/ os_try_recv (chan cs' (w_tx w)) = RxValue OAdmitted;
  fate_order : queue i' `sublist_of` queue i;
  fate_count : active i' + Z.of_nat (length (queue i')) = active i + Z.of_nat (length (queue i)) }.

Lemma Fate_refl i cs : Fate i cs i cs.
Proof. split; auto. Qed.

Lemma dispatch_loop_fate fuel now i cs ts l i' cs' :
  Good i cs ts l -> dispatch_loop fuel now i cs = (i', cs') -> Fate i cs i' cs'.
Proof.
  revert i cs. induction fuel as [|fuel IH]; intros i cs HG Hd; simpl in Hd.
  { injection Hd as <- <-. apply Fate_refl. }
  destruct (Z.ltb_spec (active i) (capacity i)) as [Hlt|Hge].
  2:{ injection Hd as <- <-. apply Fate_refl. }
  destruct (position _ (queue i)) as [idx|] eqn:Hpos.
  2:{ injection Hd as <- <-. apply Fate_refl. }
  destruct (position_lookup _ _ _ Hpos) as [w Hw]. rewrite Hw in Hd.
  destruct (position_split _ _ _ _ Hpos Hw) as (q1 & q2 & Hq & Hdel & _ & _).
  rewrite Hdel in Hd. destruct (admit_waiter _ _ _ _) as [i1 cs1] eqn:Hadm.
  destruct (admit_good _ _ _ _ _ _ _ _ _ _ HG Hlt Hq Hadm) as (HG1 & Hq1 & Ha1 & _).
  pose proof (sg_fresh _ _ _ _ (gd_seating _ _ _ _ HG)) as Hf.
  rewrite Hq, Forall_app, Forall_cons in Hf. destruct Hf as (_ & [Ho _] & _).
  destruct (admit_waiter_sent _ _ _ _ _ _ Ho Hadm) as (_ & Hrecv & Hfr).
  destruct (IH _ _ HG1 Hd) as [F1 F2 F3 F4]. rewrite Hq1 in *.
  pose proof (Good_queue_tx _ _ _ _ HG) as Hnd. rewrite Hq, fmap_app, fmap_cons in Hnd.
  rewrite <- Permutation_middle, <- fmap_app in Hnd. apply NoDup_cons in Hnd as [Hni _].
  split; rewrite Hq.
  - intros x Hx. rewrite fmap_app, fmap_cons, elem_of_app, elem_of_cons in Hx.
    rewrite F1, Hfr; [done|tauto|]. rewrite fmap_app, elem_of_app. tauto.
  - intros w'. rewrite elem_of_app, elem_of_cons. intros Hw'.
    destruct Hw' as [Hin|[->|Hin]]; [|right; by rewrite F1|];
      apply F2, elem_of_app; tauto.
  - etrans; [exact F3|]. apply sublist_app; [done|]. by apply sublist_cons.
  - rewrite F4, Ha1, !length_app. simpl. lia.
Qed.

(** ** FIFO: the rescanning loop is a single pass over the queue *)

(** The reference: walk the queue once from the head, admitting every
    waiter below its user's cap until the slots run out; the others are
    kept in order. *)
Fixpoint pass (now : Z) (i : Inner) (cs : gmap N Ch) (kept ws : list Waiter)
    : Inner * gmap N Ch :=
  match ws with
  | [] => (set_queue kept i, cs)
  | w :: ws' =>
      if active i <? capacity i then
        if at_user_cap i (w_user w) then pass now i cs (kept ++ [w]) ws'
        else
          let '(i', cs') := admit_waiter now w (set_queue (kept ++ ws') i) cs in
          pass now i' cs' kept ws'
      else (set_queue (kept ++ ws) i, cs)
  end.

Lemma position_skip {A} (f : A -> bool) l1 l2 :
  Forall (fun x => f x = false) l1 ->
  position f (l1 ++ l2) = (fun n => (length l1 + n)%nat) <$> position f l2.
Proof.
  induction 1 as [|x l1 Hx _ IH]; simpl; [by destruct (position f l2)|].
  rewrite Hx, IH. by destruct (position f l2).
Qed.

Lemma set_queue_id i q : queue i = q -> set_queue q i = i.
Proof. intros <-. by destruct i. Qed.

Lemma dispatch_loop_pass fuel now i cs ts l kept ws :
  Good i cs ts l -> queue i = kept ++ ws -> (length ws <= fuel)%nat ->
  Forall (fun w => at_user_cap i (w_user w) = true) kept ->
  dispatch_loop fuel now i cs = pass now i cs kept ws.
Proof.
  revert fuel i cs kept. induction ws as [|w ws IH]; intros fuel i cs kept HG Hq Hfuel Hcap.
  { rewrite app_nil_r in Hq. simpl. rewrite (set_queue_id _ _ Hq).
    destruct fuel as [|fuel]; [done|]. simpl. destruct (_ <? _); [|done].
    replace (position _ _) with (@None nat); [done|]. symmetry. rewrite Hq.
    apply position_None. eapply Forall_impl; [exact Hcap|]. intros w Hw. simpl in Hw. by rewrite Hw. }
  destruct fuel as [|fuel]; [simpl in Hfuel; lia|].
  simpl in Hfuel |- *. destruct (Z.ltb_spec (active i) (capacity i)) as [Hlt|Hge];
    [|by rewrite (set_queue_id _ _ Hq)].
  destruct (at_user_cap i (w_user w)) eqn:Hw.
  - rewrite <- (IH (S fuel)); [|done|by rewrite <- app_assoc|lia|by apply Forall_app; repeat constructor].
    simpl. apply Z.ltb_lt in Hlt. by rewrite Hlt.
  - rewrite Hq, position_skip.
    2:{ eapply Forall_impl; [exact Hcap|]. intros w' Hw'. simpl in Hw'. by rewrite Hw'. }
    simpl. rewrite Hw. simpl. rewrite Nat.add_0_r, list_lookup_middle, delete_middle_nat by done.
    destruct (admit_waiter _ _ _ _) as [i1 cs1] eqn:Hadm.
    destruct (admit_good _ _ _ _ _ _ _ _ _ _ HG Hlt Hq Hadm) as (HG1 & Hq1 & _ & Hc1 & Hp1 & Hu1).
    apply IH; [done..|lia|]. eapply Forall_impl; [exact Hcap|].
    intros w' Hw'. simpl in Hw'. destruct (w_user w') as [u|] eqn:Hu; [|done]. simpl in *.
    pose proof (Good_user_count _ _ _ _ u HG) as Hb.
    assert (Hcount : user_count i1 u = user_count (take_slot (w_user w) i) u)
      by (unfold user_count; by rewrite Hu1).
    rewrite user_count_take in Hcount by (unfold CAPACITY_MAX, u64_max in *; lia).
    to_prop. apply Z.leb_le. case_decide; lia.
Qed.

(** ** Progress *)
Definition queued (g : Gate Ch) (q : QueuedWaiter) : Prop := q ∈ seat_of <$> queue (inner g).
Definition admitted (g : Gate Ch) (q : QueuedWaiter) : Prop :=
  os_try_recv (chan (chans g) (q_rx q)) = RxValue OAdmitted.

(** Slots in use plus waiters: what a release makes smaller. *)
Definition load (g : Gate Ch) : nat :=
  Z.to_nat (active (inner g)) + length (queue (inner g)).

Lemma dispatch_fate now g ts l q :
  Good (inner g) (chans g) ts l -> queued g q ->
  (queued (dispatch now g) q \/ admitted (dispatch now g) q) /\
  active (inner (dispatch now g)) + Z.of_nat (length (queue (inner (dispatch now g)))) =
  active (inner g) + Z.of_nat (length (queue (inner g))).
Proof.
  intros HG (w & -> & Hw)%list_elem_of_fmap. unfold dispatch. rewrite retain_all.
  2:{ eapply Forall_impl; [apply HG|]. intros x [Ho _]. simpl in Ho. by rewrite Ho. }
  replace (set_queue (queue (inner g)) (inner g)) with (inner g) by by destruct (inner g).
  destruct (dispatch_loop _ _ _ _) as [i cs] eqn:Hd.
  destruct (dispatch_loop_fate _ _ _ _ _ _ _ _ HG Hd) as [_ F2 _ F4].
  unfold notify_positions. destruct (notify_from 0 (queue i)) as [q' evs] eqn:Hn.
  destruct (notify_from_spec _ _ _ _ Hn) as (Hseat & _ & _).
  unfold queued, admitted; simpl. split.
  - destruct (F2 w Hw) as [Hin|Had]; [left|by right].
    rewrite Hseat. by apply list_elem_of_fmap_2.
  - rewrite <- F4. f_equal. f_equal.
    by rewrite <- (length_fmap seat_of q'), Hseat, length_fmap.
Qed.

Lemma release_progress (w : World Ch) user q :
  Inv w -> Permit user ∈ tasks w -> Seated q ∈ tasks w -> queued (gate w) q ->
  exists w', step w w' /\ Seated q ∈ tasks w' /\ (load (gate w') < load (gate w))%nat /\
    (queued (gate w') q \/ admitted (gate w') q).
Proof.
  destruct w as [g ts l]. simpl. intros [HG HS] (ts1 & ts2 & ->)%list_elem_of_split Hq Hqd.
  exists (mkWorld (release user 0 g) (ts1 ++ ts2) l). simpl.
  simpl in HG, HS. pose proof HG as [HSe Hsl Hcap Hpua Hact Hid].
  apply (Slots_perm _ _ _ (holders_middle _ _ _ _)) in Hsl. simpl in Hsl.
  assert (Hse : seats (ts1 ++ Permit user :: ts2) = seats (ts1 ++ ts2)) by by rewrite !seats_app.
  assert (HG0 : Good (free_slot user (inner g)) (chans g) (ts1 ++ ts2) l).
  { split; simpl; try done; [|by apply Slots_free|unfold saturating_sub, CAPACITY_MAX in *; lia].
    destruct HSe as [HS1 HS2 HS3 HS4 HS5 HS6]. rewrite Hse in *. by split. }
  destruct (dispatch_fate 0 (mkGate (free_slot user (inner g)) (chans g) (log g)) _ _ q HG0 Hqd)
    as [Hfate Hcount].
  split_and!; [by apply step_release| | |exact Hfate].
  - by eapply elem_of_middle_ne.
  - unfold load, release. simpl in Hcount. pose proof (slots_active _ _ Hsl) as Ha.
    destruct (dispatch_good 0 (mkGate (free_slot user (inner g)) (chans g) (log g)) _ _ HG0)
      as (HGd & _).
    pose proof (slots_active _ _ (gd_slots _ _ _ _ HGd)) as Ha'. simpl in Ha'.
    simpl in Ha. unfold saturating_sub in Hcount. lia.
Qed.

(** As long as somebody is queued, somebody holds a slot. *)
Lemma queued_holder (w : World Ch) q :
  Inv w -> queued (gate w) q -> exists t x, t ∈ tasks w /\ task_slot (chans (gate w)) t = Some x.
Proof.
  intros [HG [HW _]] (v & -> & Hv)%list_elem_of_fmap.
  assert (Hne : holders (chans (gate w)) (tasks w) <> []).
  { intros Hnil. destruct HG as [_ [Ha Hu _] Hcap Hpua _ _]. rewrite Hnil in *.
    unfold CAPACITY_MIN, PER_USER_MIN in *. simpl in Ha.
    destruct HW as [HW|HW]; [lia|]. rewrite Forall_forall in HW. specialize (HW v Hv).
    simpl in HW. destruct (w_user v) as [u|]; [|done]. simpl in HW. to_prop.
    rewrite Hu in HW. unfold count_user in HW. simpl in HW. lia. }
  destruct (holders (chans (gate w)) (tasks w)) as [|x hs] eqn:Hh; [done|].
  assert (x ∈ holders (chans (gate w)) (tasks w)) as Hx by (rewrite Hh; by left).
  apply list_elem_of_omap in Hx as (t & Ht & Hs). by exists t, x.
Qed.

Lemma queued_admitted (w : World Ch) n q :
  (load (gate w) < n)%nat -> Inv w -> Seated q ∈ tasks w -> queued (gate w) q ->
  exists w', rtc step w w' /\ Seated q ∈ tasks w' /\ admitted (gate w') q.
Proof.
  revert w. induction n as [|n IH]; intros w Hn HI Hq Hqd; [lia|].
  assert (Hcont : forall w0 user, rtc step w w0 -> load (gate w0) = load (gate w) -> Inv w0 ->
    Permit user ∈ tasks w0 -> Seated q ∈ tasks w0 -> queued (gate w0) q ->
    exists w', rtc step w w' /\ Seated q ∈ tasks w' /\ admitted (gate w') q).
  { intros w0 user Hr Hl HI0 Hu Hq0 Hqd0.
    destruct (release_progress w0 user q HI0 Hu Hq0 Hqd0) as (w1 & Hs & Hq1 & Hl1 & [Hqd1|Had]).
    - destruct (IH w1) as (w' & Hr' & H'); [lia|by eapply step_good|done..|].
      exists w'. split; [|done]. etrans; [exact Hr|]. by eapply rtc_l.
    - exists w1. split; [|done]. by eapply rtc_r. }
  destruct (queued_holder w q HI Hqd) as (t & x & Ht & Hx). destruct t as [q'|u].
  2:{ by apply (Hcont w u). }
  simpl in Hx. destruct (os_try_recv _) as [|[]|] eqn:Hrecv; simplify_eq.
  destruct w as [g ts l]. simpl in *. apply list_elem_of_split in Ht as (ts1 & ts2 & ->).
  assert (Hne : q <> q').
  { intros ->. by apply (seat_left_queue _ _ _ _ _ _ (gd_seating _ _ _ _ (proj1 HI)) Hrecv). }
  assert (Hstep : step (mkWorld g (ts1 ++ Seated q' :: ts2) l)
                    (mkWorld (drop_rx q' g) (ts1 ++ Permit (q_user q') :: ts2) l)).
  { eapply (step_received g ts1 q' ts2 l (drop_rx q' g) (Ok tt)).
    unfold enter_received. by rewrite Hrecv. }
  eapply (Hcont _ (q_user q')); [by apply rtc_once|done|by eapply step_good| | |done]; simpl.
  - apply elem_of_app. right. by left.
  - apply elem_of_middle_weaken. eapply elem_of_middle_ne; [exact Hq|]. congruence.
Qed.

(** ** Properties *)

(** C1. Slot accounting under every interleaving of enters, timeouts,
    cancellations, releases, closes and resizes: the number of active
    runs is exactly the number of live permits plus the admissions whose
    future has not been polled yet, per user as well as in total; the
    counters never exceed the capacity ceiling, so none of the machine
    additions wraps, and no user keeps a zero entry.  No slot is leaked
    and none is returned twice. *)
Theorem gate_slot_accounting cap (w : World Ch) :
  reachable cap w ->
  let i := inner (gate w) in
  let hs := holders (chans (gate w)) (tasks w) in
  active i = Z.of_nat (length hs) /\ 0 <= active i <= CAPACITY_MAX /\
  (forall u, user_count i u = count_user u hs) /\
  (forall u n, per_user i !! u = Some n -> 0 < n <= active i).
Proof.
  intros [[_ [Ha Hu Hn] _ _ Hact _] _]%reachable_good. simpl.
  split; [done|]. split; [lia|]. split; [done|].
  intros u n Hl. split; [by eapply Hn|]. specialize (Hu u). unfold user_count in Hu.
  rewrite Hl in Hu. simpl in Hu.
  pose proof (count_user_le u (holders (chans (gate w)) (tasks w))). lia.
Qed.

(** Work conservation: in every reachable state either all slots are
    in use or every queued waiter is held back by its own user's cap; in
    particular an idle gate has an empty queue, so the try class is never
    starved by a stale waiter. *)
Theorem gate_work_conserving cap (w : World Ch) :
  reachable cap w ->
  let i := inner (gate w) in
  (capacity i <= active i \/ Forall (fun v => at_user_cap i (w_user v) = true) (queue i)) /\
  (active i = 0 -> queue i = []).
Proof.
  intros HI%reachable_good. pose proof HI as [HG [HW _]]. simpl. split; [exact HW|].
  intros H0. destruct (queue (inner (gate w))) as [|v q] eqn:Hq; [done|].
  destruct (queued_holder w (seat_of v) HI) as (t & x & Ht & Hx).
  { unfold queued. rewrite Hq. by left. }
  pose proof (slots_active _ _ (gd_slots _ _ _ _ HG)) as Ha. rewrite H0 in Ha.
  assert (x ∈ holders (chans (gate w)) (tasks w)) as Hin by (apply list_elem_of_omap; eauto).
  destruct (holders _ _); [by apply elem_of_nil in Hin|done].
Qed.

(** Admission limits: no step of the program ever pushes the number
    of active runs above the capacity, or a user's above the per-user
    cap, in force after it; they only stay above after a shrink. *)
Theorem gate_admission_limits cap (w w' : World Ch) :
  reachable cap w -> step w w' ->
  let i := inner (gate w) in let i' := inner (gate w') in
  (active i' <= active i \/ active i' <= capacity i') /\
  (forall u, user_count i' u <= user_count i u \/ user_count i' u <= per_user_active i').
Proof. intros HI%reachable_good Hs. by destruct (step_good w w' HI Hs) as [_ HW]. Qed.

(** FIFO: the rescanning dispatch loop of the code computes the same
    state as one pass over the queue from its head, which admits every
    waiter that is not held back by its user's cap until the slots run
    out and keeps the others in their order. *)
Theorem gate_dispatch_fifo cap (w : World Ch) now n :
  reachable cap w -> CAPACITY_MIN <= n <= CAPACITY_MAX ->
  let g := gate w in
  let i := set_limits n (per_user_active (inner g)) (chat_queue_depth (inner g)) (inner g) in
  dispatch_loop (length (queue i)) now i (chans g) = pass now i (chans g) [] (queue i).
Proof.
  intros [HG _]%reachable_good Hn. simpl.
  apply (dispatch_loop_pass _ _ _ _ (tasks w) (next_loc w)); try done.
  destruct HG as [[HS1 HS2 HS3 HS4 HS5 HS6] Hsl Hcap Hpua Hact Hid].
  split; simpl; try done. by eapply Slots_ext; [..|exact Hsl].
Qed.

(** Positions: in every reachable state each queued waiter has last
    been told exactly the queue position it stands at. *)
Theorem gate_positions_reported cap (w : World Ch) k v :
  reachable cap w -> queue (inner (gate w)) !! k = Some v -> w_last_position v = Some k.
Proof. intros [_ [_ HP]]%reachable_good Hl. by apply HP. Qed.

(** Every seat is accounted for: a waiting future is either queued
    under its own id, or the outcome it will receive has already been
    sent; awaiting it never finds a silently dropped sender. *)
Theorem gate_seat_accounted cap (w : World Ch) q :
  reachable cap w -> Seated q ∈ tasks w ->
  let i := inner (gate w) in let c := chan (chans (gate w)) (q_rx q) in
  (exists k v, queue i !! k = Some v /\ seat_of v = q /\
     os_try_recv c = RxEmpty /\
     forall k' v', queue i !! k' = Some v' -> w_id v' = q_id q -> k' = k) \/
  ((forall v, v ∈ queue i -> w_id v <> q_id q) /\ exists o, os_try_recv c = RxValue o).
Proof.
  intros [HG _]%reachable_good Hq. simpl. pose proof (gd_seating _ _ _ _ HG) as HS.
  pose proof HS as [(os & Hp & Hos) Hf H1 _ _ _].
  rewrite Hp, fmap_app in H1. apply NoDup_app in H1 as (H1 & Hdisj & _).
  pose proof Hq as Hin. apply elem_of_seats in Hin. rewrite Hp in Hin.
  apply elem_of_app in Hin as [Hin|Hin].
  - left. apply list_elem_of_fmap in Hin as (v & -> & Hv).
    apply list_elem_of_lookup in Hv as [k Hk]. exists k, v. split_and!; [done|done| |].
    + rewrite Forall_forall in Hf. apply list_elem_of_lookup_2 in Hk. by apply Hf.
    + intros k' v' Hk' Hid. apply (NoDup_lookup _ k' k (w_id v) H1).
      * rewrite !list_lookup_fmap, Hk'. simpl in *. by rewrite Hid.
      * by rewrite !list_lookup_fmap, Hk.
  - right. split.
    + intros v Hv Hid. apply (Hdisj (q_id q)).
      * rewrite <- Hid, <- list_fmap_compose. by apply (list_elem_of_fmap_2 (q_id ∘ seat_of)).
      * by apply list_elem_of_fmap_2.
    + rewrite Forall_forall in Hos. by apply Hos.
Qed.

(** No starvation: from every reachable state a queued waiter can be
    admitted by letting the runs in progress finish: some sequence of
    steps delivers [OAdmitted] to it while its future still waits. *)
Theorem gate_no_starvation cap (w : World Ch) q :
  reachable cap w -> Seated q ∈ tasks w -> queued (gate w) q ->
  exists w', rtc step w w' /\ Seated q ∈ tasks w' /\
    os_try_recv (chan (chans (gate w')) (q_rx q)) = RxValue OAdmitted.
Proof.
  intros HI%reachable_good Hq Hqd. by apply (queued_admitted w (S (load (gate w)))); [lia|..].
Qed.

End Proofs.

(** ** A concrete channel, and an evaluated run *)
Record Chan := mkChan { c_value : option Outcome; c_rx : bool; c_tx : bool }.

#[global] Instance Chan_oneshot : Oneshot Chan := {
  os_channel := mkChan None true true;
  os_is_closed c := negb (c_rx c);
  os_send o c := if c_rx c then (mkChan (Some o) true false, true) else (c, false);
  os_try_recv c := match c_value c with
                   | Some o => RxValue o
                   | None => if c_tx c then RxEmpty else RxClosed
                   end;
  os_drop_rx c := mkChan (c_value c) false (c_tx c);
  os_drop_tx c := mkChan (c_value c) (c_rx c) false }.

#[global] Instance Chan_laws : OneshotLaws Chan.
Proof.
  split; [done|done|..]; [intros o [v [] t]|intros o [v [] t]|intros [v r t]]; done.
Qed.

(** Capacity 1: user 1 runs, user 2 waits. *)
Definition demo_gate1 : Gate Chan := (enter (Some 1%N) 0 0 (gate (World_new 1))).1.
Definition demo_gate2 : Gate Chan := (enter (Some 2%N) 5 0 demo_gate1).1.
Definition demo_seat : QueuedWaiter := mkSeat 0 (Some 2%N) 0.
Definition demo_world : World Chan :=
  mkWorld demo_gate2 [Permit (Some 1%N); Seated demo_seat] 1.

Lemma demo_reachable : reachable 1 demo_world.
Proof.
  eapply rtc_l; [apply (step_enter_fast (Some 1%N) 0 _ [] 0 demo_gate1); vm_compute; reflexivity|].
  apply rtc_once.
  apply (step_enter_queue (Some 2%N) 5 demo_gate1 [Permit (Some 1%N)] 0 demo_gate2 demo_seat);
    vm_compute; reflexivity.
Qed.

Lemma demo_queued : queued (gate demo_world) demo_seat.
Proof. vm_compute. by left. Qed.

Lemma gate_slot_accounting_witness :
  reachable 1 demo_world /\ active (inner (gate demo_world)) = 1.
Proof.
  split; [apply demo_reachable|].
  exact (proj1 (gate_slot_accounting 1 demo_world demo_reachable)).
Defined.

Lemma gate_work_conserving_witness :
  capacity (inner (gate demo_world)) <= active (inner (gate demo_world)) \/
  Forall (fun v => at_user_cap (inner (gate demo_world)) (w_user v) = true)
    (queue (inner (gate demo_world))).
Proof. exact (proj1 (gate_work_conserving 1 demo_world demo_reachable)). Defined.

Lemma gate_admission_limits_witness :
  active (inner (close (gate demo_world))) <= active (inner (gate demo_world)) \/
  active (inner (close (gate demo_world))) <= capacity (inner (close (gate demo_world))).
Proof.
  exact (proj1 (gate_admission_limits 1 demo_world
    (mkWorld (close demo_gate2) [Permit (Some 1%N); Seated demo_seat] 1)
    demo_reachable (step_close _ _ _))).
Defined.

Lemma gate_dispatch_fifo_witness :
  dispatch_loop 1 7 (set_limits 2 2 64 (inner demo_gate2)) (chans demo_gate2) =
  pass 7 (set_limits 2 2 64 (inner demo_gate2)) (chans demo_gate2) [] (queue (inner demo_gate2)).
Proof.
  refine (gate_dispatch_fifo 1 demo_world 7 2 demo_reachable _).
  unfold CAPACITY_MIN, CAPACITY_MAX. lia.
Defined.

Lemma gate_positions_reported_witness :
  exists v, queue (inner (gate demo_world)) !! 0%nat = Some v /\ w_last_position v = Some 0%nat.
Proof.
  exists (mkWaiter 0 (Some 2%N) 5 (Some 0%nat) 0). split; [vm_compute; reflexivity|].
  apply (gate_positions_reported 1 demo_world 0 _ demo_reachable). vm_compute. reflexivity.
Defined.

Lemma gate_seat_accounted_witness :
  Seated demo_seat ∈ tasks demo_world /\
  os_try_recv (chan (chans (gate demo_world)) 0) = RxEmpty.
Proof.
  assert (Hin : Seated demo_seat ∈ tasks demo_world) by (right; left).
  split; [exact Hin|].
  destruct (gate_seat_accounted 1 demo_world demo_seat demo_reachable Hin)
    as [(k & v & _ & _ & He & _)|(Hno & _)]; [exact He|].
  destruct (Hno (mkWaiter 0 (Some 2%N) 5 (Some 0%nat) 0)); [left|reflexivity].
Defined.

Lemma gate_no_starvation_witness :
  exists w', rtc step demo_world w' /\ Seated demo_seat ∈ tasks w' /\
    os_try_recv (chan (chans (gate w')) 0) = RxValue OAdmitted.
Proof.
  apply (gate_no_starvation 1 demo_world demo_seat demo_reachable);
    [right; left|apply demo_queued].
Defined.
