(* ===== verification/Throttle.v ===== *)
(** * Login throttling

    [crates/mycelium-auth/src/throttle.rs]: per-key failure counts with an
    exponential, capped backoff.  Times and durations are in nanoseconds;
    the clock is an argument. *)
From S2P Require Import Prelude Text.
Open Scope Z_scope.

Inductive ThrottleDecision := Allow | Deny (retry_after : Z).

Record AuthThrottle := mkThrottle {
  failures : gmap str Z;
  last_failure : gmap str Z;
  max_failures : Z;
  cap : Z }.

Definition from_secs (s : Z) : Z := s * 1000000000.

Definition DEFAULT_MAX_FAILURES : Z := 3.
Definition DEFAULT_CAP : Z := from_secs 30.

Definition delay_for (failures max_failures cap : Z) : Z :=
  let exp := Z.min (saturating_sub failures max_failures) 5 in
  let secs := Z.shiftl 1 exp in
  Z.min (from_secs secs) cap.

Definition AuthThrottle_new : AuthThrottle :=
  mkThrottle ∅ ∅ DEFAULT_MAX_FAILURES DEFAULT_CAP.

Definition with_limits (t : AuthThrottle) (max_f cap : Z) : AuthThrottle :=
  mkThrottle (failures t) (last_failure t) (Z.max max_f 1) cap.

Definition set_limits (t : AuthThrottle) (max_f cap : Z) : AuthThrottle :=
  mkThrottle (failures t) (last_failure t) (Z.max max_f 1) cap.

Definition check (t : AuthThrottle) (key : str) (now : Z) : ThrottleDecision :=
  match failures t !! key with
  | None => Allow
  | Some n =>
      if n <? max_failures t then Allow
      else match last_failure t !! key with
           | None => Allow
           | Some last =>
               let delay := delay_for n (max_failures t) (cap t) in
               let elapsed := saturating_sub now last in
               if delay <=? elapsed then Allow else Deny (delay - elapsed)
           end
  end.

Definition record_failure (t : AuthThrottle) (key : str) (now : Z)
    : AuthThrottle * ThrottleDecision :=
  let n := (default 0 (failures t !! key) +32 1)%rust in
  let t' := mkThrottle (<[key := n]> (failures t)) (<[key := now]> (last_failure t))
              (max_failures t) (cap t) in
  (t', if n <? max_failures t then Allow else Deny (delay_for n (max_failures t) (cap t))).

Definition record_success (t : AuthThrottle) (key : str) : AuthThrottle :=
  mkThrottle (delete key (failures t)) (delete key (last_failure t)) (max_failures t) (cap t).

(** ** Histories *)
Inductive Op :=
| OpFailure (key : str) (now : Z)
| OpSuccess (key : str)
| OpLimits (max_f cap : Z).

Definition apply_op (t : AuthThrottle) (o : Op) : AuthThrottle :=
  match o with
  | OpFailure k now => (record_failure t k now).1
  | OpSuccess k => record_success t k
  | OpLimits m c => set_limits t m c
  end.

Definition run (ops : list Op) : AuthThrottle := fold_left apply_op ops AuthThrottle_new.

(** What a history means for a key: the failures since its last success
    and the time of the latest one.  The most recent operation is first. *)
Fixpoint streak (key : str) (recent_first : list Op) : Z * option Z :=
  match recent_first with
  | [] => (0, None)
  | OpFailure k now :: ops =>
      if decide (k = key) then ((streak key ops).1 + 1, Some now) else streak key ops
  | OpSuccess k :: ops => if decide (k = key) then (0, None) else streak key ops
  | OpLimits _ _ :: ops => streak key ops
  end.

(** The limits in force. *)
Fixpoint limits (recent_first : list Op) : Z * Z :=
  match recent_first with
  | [] => (DEFAULT_MAX_FAILURES, DEFAULT_CAP)
  | OpLimits m c :: _ => (Z.max m 1, c)
  | _ :: ops => limits ops
  end.

(** ** The counters are the streak *)
Lemma streak_bound key ops : 0 <= (streak key ops).1 <= Z.of_nat (length ops).
Proof.
  induction ops as [|[k now|k|m c] ops IH]; simpl; [lia|..]; try case_decide; simpl; lia.
Qed.

Lemma streak_last key ops : (streak key ops).2 = None <-> (streak key ops).1 = 0.
Proof.
  induction ops as [|[k now|k|m c] ops IH]; simpl; [done|..|done]; case_decide; simpl; try done.
  pose proof (streak_bound key ops). split; [done|lia].
Qed.

Lemma run_snoc ops o : run (ops ++ [o]) = apply_op (run ops) o.
Proof. unfold run. by rewrite fold_left_app. Qed.

Lemma run_streak key ops :
  Z.of_nat (length ops) <= u32_max ->
  let s := streak key (reverse ops) in
  failures (run ops) !! key = (if s.1 =? 0 then None else Some s.1) /\
  last_failure (run ops) !! key = s.2 /\
  (max_failures (run ops), cap (run ops)) = limits (reverse ops).
Proof.
  induction ops as [|o ops IH] using rev_ind; intros Hlen; [by split_and!|].
  rewrite length_app in Hlen. simpl in Hlen. destruct IH as (Hf & Hl & Hlim); [lia|].
  rewrite run_snoc, reverse_snoc. pose proof (streak_bound key (reverse ops)) as Hb.
  rewrite length_reverse in Hb. unfold u32_max in Hlen.
  destruct o as [k now|k|m c]; simpl; [..|done]; case_decide as Hk; subst; split_and!;
    rewrite ?lookup_insert_eq, ?lookup_insert_ne, ?lookup_delete_eq, ?lookup_delete_ne by done;
    simpl; try done.
  rewrite Hf. replace (default 0 _) with (streak key (reverse ops)).1.
  2:{ destruct (Z.eqb_spec (streak key (reverse ops)).1 0); simpl; lia. }
  rewrite wrap32_small by lia. by destruct (Z.eqb_spec ((streak key (reverse ops)).1 + 1) 0); [lia|].
Qed.

(** The throttle's contract, for every history of failures, successes
    and reconfigurations of any keys: an attempt is denied exactly when
    the key has reached the configured number of consecutive failures
    since its last success and the backoff delay of that count has not
    elapsed since the latest one; the remaining wait is what is reported.
    Other keys never matter. *)
Theorem throttle_decision ops key now :
  Z.of_nat (length ops) <= u32_max ->
  let '(n, last) := streak key (reverse ops) in
  let '(max_f, c) := limits (reverse ops) in
  check (run ops) key now =
    match last with
    | None => Allow
    | Some t =>
        if (n <? max_f) || (delay_for n max_f c <=? Z.max 0 (now - t)) then Allow
        else Deny (delay_for n max_f c - Z.max 0 (now - t))
    end.
Proof.
  intros Hlen. destruct (run_streak key ops Hlen) as (Hf & Hl & Hlim).
  pose proof (streak_last key (reverse ops)) as Hz.
  destruct (streak key (reverse ops)) as [n last], (limits (reverse ops)) as [max_f c].
  simpl in *. injection Hlim as <- <-. unfold check. rewrite Hf, Hl.
  destruct (Z.eqb_spec n 0) as [->|Hn]; [by rewrite (proj2 Hz)|].
  destruct last as [t|]; [|destruct (_ <? _); done].
  by destruct (n <? max_failures (run ops)).
Qed.

Lemma throttle_decision_witness :
  check (run [OpFailure (lit "alice") 0; OpFailure (lit "bob") 1; OpFailure (lit "alice") 2;
              OpFailure (lit "alice") 10]) (lit "alice") 500000010 = Deny 500000000.
Proof.
  pose proof (throttle_decision [OpFailure (lit "alice") 0; OpFailure (lit "bob") 1;
    OpFailure (lit "alice") 2; OpFailure (lit "alice") 10] (lit "alice") 500000010) as H.
  vm_compute in H. apply H. discriminate.
Defined.

(** The backoff: with a threshold [m] of at least one and a cap of at
    least a second, the [k]-th failure past the threshold waits [2^k]
    seconds for [k <= 5] and never longer than 32 seconds or the cap; the
    delay never decreases with further failures, and is never zero. *)
Theorem throttle_backoff m c k :
  1 <= m -> from_secs 1 <= c -> 0 <= k ->
  delay_for (m + k) m c = Z.min (from_secs (2 ^ Z.min k 5)) c /\
  delay_for (m + k) m c <= delay_for (m + (k + 1)) m c /\
  from_secs 1 <= delay_for (m + k) m c <= Z.min (from_secs 32) c.
Proof.
  intros Hm Hc Hk. unfold delay_for.
  assert (Hs : forall j, 0 <= j -> saturating_sub (m + j) m = j) by (unfold saturating_sub; lia).
  rewrite !Hs by lia. rewrite !Z.shiftl_1_l. unfold from_secs in *.
  assert (H1 : 2 ^ 0 <= 2 ^ Z.min k 5) by (apply Z.pow_le_mono_r; lia).
  assert (H2 : 2 ^ Z.min k 5 <= 2 ^ Z.min (k + 1) 5) by (apply Z.pow_le_mono_r; lia).
  assert (H3 : 2 ^ Z.min k 5 <= 2 ^ 5) by (apply Z.pow_le_mono_r; lia).
  change (2 ^ 0) with 1 in H1. change (2 ^ 5) with 32 in H3. split; [done|]. lia.
Qed.

Lemma throttle_backoff_witness : delay_for (3 + 5) 3 (from_secs 60) = from_secs 32.
Proof.
  refine (eq_trans (proj1 (throttle_backoff 3 (from_secs 60) 5 _ _ _)) eq_refl);
    unfold from_secs; lia.
Defined.
