(* ===== verification/Health.v ===== *)
(** * The backend-health registry

    [crates/mycelium-librarian/src/llm_health.rs]: the state machine that
    decides whether the LLM (or embeddings) backend is reachable, and the
    byte-bounded error detail shared by the background workers.  Clocks
    are unix seconds, passed explicitly (the [_at] seams). *)
From S2P Require Import Prelude Float Text Gate.
Open Scope Z_scope.

Definition MODEL_SUCCESS_STALE_SECS : Z := 600.
Definition RED_FAILURE_THRESHOLD : Z := 3.

Inductive BackendState := Disabled | Green | Yellow | Red.

#[global] Instance BackendState_eq_dec : EqDecision BackendState.
Proof. solve_decision. Defined.

Definition BackendState_as_str (s : BackendState) : str :=
  match s with
  | Disabled => lit "disabled"
  | Green => lit "green"
  | Yellow => lit "yellow"
  | Red => lit "red"
  end.

Record HealthInner := mkHealth {
  configured : bool;
  consecutive_failures : Z;
  down_since : option Z;
  last_observation : option Z;
  checked_at : option Z }.

Record HealthSnapshot := mkSnapshot {
  hs_state : BackendState;
  hs_down_since : option Z;
  hs_last_observation : option Z;
  hs_consecutive_failures : Z;
  hs_checked_at : option Z }.

(** [Inner::default()]; also [LlmHealth::new]. *)
Definition HealthInner_default : HealthInner := mkHealth true 0 None None None.

Definition base_state (i : HealthInner) : BackendState :=
  if negb (configured i) then Disabled
  else if consecutive_failures i =? 0 then Green
  else if consecutive_failures i <? RED_FAILURE_THRESHOLD then Yellow
  else Red.

Definition effective_state (i : HealthInner) (now : Z) (last_model_success : option Z)
    (busy : bool) : BackendState :=
  let base := base_state i in
  if bool_decide (base = Green) && busy &&
     match last_model_success with
     | None => true
     | Some ts => MODEL_SUCCESS_STALE_SECS <? saturating_sub now ts
     end
  then Yellow else base.

Definition state_at (i : HealthInner) (now : Z) (last_model_success : option Z)
    (busy : bool) : BackendState :=
  effective_state i now last_model_success busy.

Definition snapshot_at (i : HealthInner) (now : Z) (last_model_success : option Z)
    (busy : bool) : HealthSnapshot :=
  mkSnapshot (effective_state i now last_model_success busy) (down_since i)
    (last_observation i) (consecutive_failures i) (checked_at i).

(** The process-global success clocks: [0] is "never". *)
Definition last_success (atomic : Z) : option Z :=
  if atomic =? 0 then None else Some atomic.

(** [LlmHealth::state]: the inputs come from [LLM_LAST_SUCCESS] and the
    gate's counters. *)
Definition health_state (i : HealthInner) (now llm_last_success : Z) (gate : GateStats)
    : BackendState :=
  state_at i now (last_success llm_last_success) (0 <? st_active gate + st_queued gate).

Definition health_snapshot (i : HealthInner) (now llm_last_success : Z) (gate : GateStats)
    : HealthSnapshot :=
  snapshot_at i now (last_success llm_last_success) (0 <? st_active gate + st_queued gate).

Definition embedding_state (i : HealthInner) (now emb_last_success : Z) : BackendState :=
  state_at i now (last_success emb_last_success) false.

Definition embedding_snapshot (i : HealthInner) (now emb_last_success : Z) : HealthSnapshot :=
  snapshot_at i now (last_success emb_last_success) false.

Definition note_ok_at (i : HealthInner) (now : Z) : HealthInner :=
  if negb (configured i) then i
  else mkHealth true 0 None (Some now) (Some now).

Definition note_failure_at (i : HealthInner) (now : Z) : HealthInner :=
  if negb (configured i) then i
  else mkHealth true (u32_saturating_add (consecutive_failures i) 1)
         (if consecutive_failures i =? 0 then Some now else down_since i)
         (last_observation i) (Some now).

Definition set_disabled (i : HealthInner) : HealthInner :=
  mkHealth false (consecutive_failures i) (down_since i) (last_observation i) (checked_at i).

Definition note_configured (i : HealthInner) : HealthInner :=
  if configured i then i else HealthInner_default.

(** ** The probe's verdict *)

(** [probe_once]: [send] performs the request ([None]: transport error or
    timeout) and [client_ok] says whether the HTTP client could be built. *)
Definition probe_once (url : str) (api_key : option str) (client_ok : bool)
    (send : str -> option str -> option Z) : bool :=
  let target := trim_end_if (N.eqb 47) url ++ lit "/models" in
  if negb client_ok then false
  else match send target api_key with
       | Some status => negb ((500 <=? status) || (status =? 401) || (status =? 403))
       | None => false
       end.

(** ** Bounded error details *)
Definition DETAIL_CAP : nat := 512.

(** [str::is_char_boundary] *)
Fixpoint is_char_boundary (s : str) (n : nat) : bool :=
  match n with
  | O => true
  | _ => match s with
         | [] => false
         | c :: s' => if (len_utf8 c <=? n)%nat then is_char_boundary s' (n - len_utf8 c) else false
         end
  end.

(** [while end > 0 && !s.is_char_boundary(end) { end -= 1 }] *)
Fixpoint floor_boundary (s : str) (e : nat) : nat :=
  match e with
  | O => O
  | S e' => if is_char_boundary s e then e else floor_boundary s e'
  end.

(** "… [truncated]" *)
Definition truncation_marker : str := 8230%N :: lit " [truncated]".

Definition short_detail (s : str) : str :=
  if (byte_len s <=? DETAIL_CAP)%nat then s
  else slice_to s (floor_boundary s DETAIL_CAP) ++ truncation_marker.

(** ** Histories *)
Inductive Note := NoteOk (now : Z) | NoteFailure (now : Z) | NoteDisabled | NoteConfigured.

Definition apply_note (i : HealthInner) (n : Note) : HealthInner :=
  match n with
  | NoteOk t => note_ok_at i t
  | NoteFailure t => note_failure_at i t
  | NoteDisabled => set_disabled i
  | NoteConfigured => note_configured i
  end.

Definition run_notes (ns : list Note) : HealthInner := fold_left apply_note ns HealthInner_default.

(** The specification: whether a config row is in force, and the
    observations that count, latest first ([(ok, time)]): those made while
    configured, since the last lifting of Disabled. *)
Definition observe (s : bool * list (bool * Z)) (n : Note) : bool * list (bool * Z) :=
  match n, s with
  | NoteOk t, (true, obs) => (true, (true, t) :: obs)
  | NoteFailure t, (true, obs) => (true, (false, t) :: obs)
  | NoteOk _, _ | NoteFailure _, _ => s
  | NoteDisabled, (_, obs) => (false, obs)
  | NoteConfigured, (true, obs) => (true, obs)
  | NoteConfigured, (false, _) => (true, [])
  end.
Definition observations (ns : list Note) : bool * list (bool * Z) :=
  fold_left observe ns (true, []).

(** The failures since the last success, latest first. *)
Fixpoint outage (obs : list (bool * Z)) : list Z :=
  match obs with
  | (false, t) :: obs => t :: outage obs
  | _ => []
  end.

Definition last_ok (obs : list (bool * Z)) : option Z :=
  snd <$> find_first fst obs.

Definition tracks (i : HealthInner) (s : bool * list (bool * Z)) : Prop :=
  configured i = s.1 /\
  consecutive_failures i = Z.min u32_max (Z.of_nat (length (outage s.2))) /\
  down_since i = last (outage s.2) /\
  last_observation i = last_ok s.2 /\
  checked_at i = snd <$> head s.2.

Lemma tracks_step i s n : tracks i s -> tracks (apply_note i n) (observe s n).
Proof.
  destruct s as [conf obs]. intros (Hc & Hf & Hd & Hl & Hk). simpl in *.
  destruct n as [t|t| |]; unfold tracks; simpl;
    unfold note_ok_at, note_failure_at, note_configured; rewrite ?Hc; destruct conf; simpl;
    split_and!; try done; unfold u32_saturating_add, u32_max in *; try lia.
  rewrite Hf, Hd. destruct (outage obs) as [|t0 l] eqn:Ho; [done|].
  destruct (Z.eqb_spec (Z.min 4294967295 (Z.of_nat (length (t0 :: l)))) 0) as [H|H];
    [simpl in H; lia|]. done.
Qed.

Lemma tracks_run ns : tracks (run_notes ns) (observations ns).
Proof.
  induction ns as [|n ns IH] using rev_ind; [done|].
  unfold run_notes, observations in *. rewrite !fold_left_app. by apply tracks_step.
Qed.

(** The registry reports what the observations say, for every history
    of notes: Disabled while no config row is in force (observations made
    meanwhile are ignored, and lifting the pin starts afresh); otherwise
    the base state is Green, Yellow or Red by the number of failures since
    the last success (none, one or two, three or more), [down_since] is
    the first of those failures, and the clocks are those of the last
    success and of the last observation. *)
Theorem health_history ns :
  let i := run_notes ns in let '(conf, obs) := observations ns in
  base_state i =
    (if conf then match outage obs with
                  | [] => Green
                  | [_] | [_; _] => Yellow
                  | _ => Red
                  end
     else Disabled) /\
  down_since i = last (outage obs) /\
  last_observation i = last_ok obs /\
  checked_at i = snd <$> head obs.
Proof.
  pose proof (tracks_run ns) as (Hc & Hf & Hd & Hl & Hk).
  destruct (observations ns) as [conf obs]. simpl in *. split_and!; try done.
  unfold base_state. rewrite Hc, Hf. destruct conf; [|done]. simpl negb. cbv iota.
  unfold RED_FAILURE_THRESHOLD, u32_max.
  destruct (outage obs) as [|t1 [|t2 [|t3 l]]]; [done..|].
  destruct (Z.eqb_spec (Z.min 4294967295 (Z.of_nat (length (t1 :: t2 :: t3 :: l)))) 0) as [H|H];
    [simpl in H; lia|].
  destruct (Z.ltb_spec (Z.min 4294967295 (Z.of_nat (length (t1 :: t2 :: t3 :: l)))) 3) as [H'|H'];
    [simpl in H'; lia|done].
Qed.

(** What Green claims: the chat machine reports Green exactly when it
    is configured, the last observation did not fail, and, if runs hold or
    await gate slots, a model call succeeded within the staleness bound;
    the staleness rule only ever turns Green into Yellow.  The embeddings
    machine is never held back by it. *)
Theorem health_green i now lls gate :
  (health_state i now lls gate = Green <->
     configured i = true /\ consecutive_failures i = 0 /\
     (0 < st_active gate + st_queued gate ->
        lls <> 0 /\ Z.max 0 (now - lls) <= MODEL_SUCCESS_STALE_SECS)) /\
  (health_state i now lls gate <> base_state i ->
     base_state i = Green /\ health_state i now lls gate = Yellow) /\
  (forall els, embedding_state i now els = base_state i).
Proof.
  unfold health_state, embedding_state, state_at, effective_state. split_and!.
  - assert (Hb : base_state i = Green <-> configured i = true /\ consecutive_failures i = 0).
    { unfold base_state. destruct (configured i); simpl; [|naive_solver].
      destruct (Z.eqb_spec (consecutive_failures i) 0); [naive_solver|].
      destruct (_ <? _); naive_solver. }
    case_bool_decide as Hg; simpl; [|split; [done|]; intros (H1 & H2 & _); destruct Hg; by apply Hb].
    apply Hb in Hg as Hg'. unfold last_success, saturating_sub.
    destruct (Z.ltb_spec 0 (st_active gate + st_queued gate)) as [Hbusy|Hbusy]; simpl.
    + destruct (Z.eqb_spec lls 0) as [->|Hl]; simpl; [naive_solver|].
      destruct (Z.ltb_spec MODEL_SUCCESS_STALE_SECS (Z.max 0 (now - lls))) as [Hs|Hs].
      * split; [done|]. intros (_ & _ & H). destruct (H Hbusy). lia.
      * rewrite Hg. naive_solver.
    + rewrite Hg. split; [|done]. intros _. split_and!; naive_solver lia.
  - case_bool_decide; simpl; [|done]. destruct (_ && _)%bool; done.
  - intros els. by rewrite andb_false_r.
Qed.

(** ** Bounded details *)
Lemma floor_boundary_spec s e :
  (floor_boundary s e <= e)%nat /\ is_char_boundary s (floor_boundary s e) = true /\
  forall e', (floor_boundary s e < e' <= e)%nat -> is_char_boundary s e' = false.
Proof.
  induction e as [|e (IH1 & IH2 & IH3)]; [destruct s; (split_and!; [done..|simpl; lia])|].
  unfold floor_boundary; fold floor_boundary.
  destruct (is_char_boundary s (S e)) eqn:Hb; [split_and!; [done..|lia]|].
  split_and!; [lia|done|]. intros e' He'. destruct (decide (e' = S e)) as [->|]; [done|].
  apply IH3. lia.
Qed.

Lemma slice_to_spec s n :
  is_char_boundary s n = true -> exists rest, s = slice_to s n ++ rest /\ byte_len (slice_to s n) = n.
Proof.
  revert n. induction s as [|c s IH]; intros n Hb; destruct (decide (n = 0%nat)) as [->|Hn];
    try (by eexists); [by destruct n|].
  assert (Hs : is_char_boundary (c :: s) n =
            (if (len_utf8 c <=? n)%nat then is_char_boundary s (n - len_utf8 c) else false) /\
          slice_to (c :: s) n = c :: slice_to s (n - len_utf8 c)) by (by destruct n).
  destruct Hs as [Hs1 Hs2]. rewrite Hs1 in Hb. rewrite Hs2.
  destruct (Nat.leb_spec (len_utf8 c) n) as [Hle|]; [|done].
  destruct (IH _ Hb) as (rest & He & Hlen). exists rest. split.
  - simpl. by rewrite <- He.
  - unfold byte_len in *. simpl. lia.
Qed.

(** Boundaries are at most four bytes apart: the truncation loses at most
    three bytes. *)
Lemma boundary_near s e :
  (e <= byte_len s)%nat -> exists b, (b <= e < b + 4)%nat /\ is_char_boundary s b = true.
Proof.
  revert e. induction s as [|c s IH]; intros e He.
  - exists 0%nat. simpl in *. split; [lia|done].
  - destruct (decide (e < 4)%nat); [exists 0%nat; split; [lia|done]|].
    change (byte_len (c :: s)) with (len_utf8 c + byte_len s)%nat in He.
    pose proof (len_utf8_bounds c).
    destruct (IH (e - len_utf8 c)%nat) as (b & Hb & Hbd); [lia|].
    exists (len_utf8 c + b)%nat. split; [lia|].
    destruct (len_utf8 c + b)%nat as [|m] eqn:Hn; [lia|]. simpl. rewrite <- Hn.
    destruct (Nat.leb_spec (len_utf8 c) (len_utf8 c + b)); [|lia].
    by replace (len_utf8 c + b - len_utf8 c)%nat with b by lia.
Qed.

Lemma boundary_prefix a b : is_char_boundary (a ++ b) (byte_len a) = true.
Proof.
  induction a as [|c a IH]; [by destruct b|].
  change (byte_len (c :: a)) with (len_utf8 c + byte_len a)%nat.
  pose proof (len_utf8_bounds c).
  destruct (len_utf8 c + byte_len a)%nat as [|n] eqn:Hn; [lia|]. simpl. rewrite <- Hn.
  destruct (Nat.leb_spec (len_utf8 c) (len_utf8 c + byte_len a)); [|lia].
  by replace (len_utf8 c + byte_len a - len_utf8 c)%nat with (byte_len a) by lia.
Qed.

Lemma floor_boundary_near s e :
  (e <= byte_len s)%nat -> (e < floor_boundary s e + 4)%nat.
Proof.
  intros He. destruct (boundary_near s e He) as (b & Hb & Hbd).
  destruct (floor_boundary_spec s e) as (_ & _ & Hmax).
  destruct (decide (b <= floor_boundary s e)%nat); [lia|].
  rewrite Hmax in Hbd; [done|lia].
Qed.

(** The longest prefix of whole characters within a cap, which is at most
    three bytes short of it *)
Lemma floor_cut s cap : (cap <= byte_len s)%nat -> exists rest,
  s = slice_to s (floor_boundary s cap) ++ rest /\
  (cap - 3 <= byte_len (slice_to s (floor_boundary s cap)) <= cap)%nat /\
  forall kept' rest', s = kept' ++ rest' -> (byte_len kept' <= cap)%nat ->
    (byte_len kept' <= byte_len (slice_to s (floor_boundary s cap)))%nat.
Proof.
  intros H. destruct (floor_boundary_spec s cap) as (Hle & Hb & Hmax).
  destruct (slice_to_spec _ _ Hb) as (rest & Hs & Hlen). pose proof (floor_boundary_near s cap H).
  exists rest. rewrite Hlen. split_and!; [done..|lia|lia|].
  intros kept' rest' -> Hk'. destruct (decide (byte_len kept' <= floor_boundary (kept' ++ rest') cap)%nat); [done|].
  exfalso. specialize (Hmax (byte_len kept') ltac:(lia)). by rewrite boundary_prefix in Hmax.
Qed.

(** Error details are bounded and never torn: a detail of at most 512
    bytes is kept whole; a longer one becomes a prefix of itself (never
    cutting a character) followed by the truncation marker, and that prefix
    has between 509 and 512 bytes, the longest a character boundary allows. *)
Theorem short_detail_bounds s :
  let cap := DETAIL_CAP in
  ((byte_len s <= cap)%nat /\ short_detail s = s) \/
  ((cap < byte_len s)%nat /\
   exists kept rest, s = kept ++ rest /\ short_detail s = kept ++ truncation_marker /\
     (cap - 3 <= byte_len kept <= cap)%nat /\
     forall kept' rest', s = kept' ++ rest' -> (byte_len kept' <= cap)%nat ->
       (byte_len kept' <= byte_len kept)%nat).
Proof.
  unfold short_detail. destruct (Nat.leb_spec (byte_len s) DETAIL_CAP) as [H|H]; [by left|right].
  split; [done|]. destruct (floor_cut s DETAIL_CAP ltac:(lia)) as (rest & Hs & Hb & Hmax).
  by exists (slice_to s (floor_boundary s DETAIL_CAP)), rest.
Qed.
