(* ===== verification/Concept.v ===== *)
(** * Concepts

    [crates/mycelium-core/src/concept.rs], [bundle.rs], [shelf.rs],
    [reserved.rs]: markdown files with YAML frontmatter, the validation of
    their skill manifest and lifecycle fields, and the bundle walker.  The
    YAML codec, the RFC 3339 parser and the directory listing are
    parameters. *)
From S2P Require Import Prelude Text.

(** ** Reserved names *)
Definition INDEX_MD : str := lit "index.md".
Definition LOG_MD : str := lit "log.md".
Definition INFO_MD : str := lit "info.md".

Definition is_reserved_filename (file_name : str) : bool :=
  str_eqb file_name INDEX_MD || str_eqb file_name LOG_MD || str_eqb file_name INFO_MD.

(** ** Skill manifests *)
Inductive SkillRole := Script | Reference | Example_.

(** [Deserialize for SkillRole]: unknown strings are references. *)
Definition SkillRole_deserialize (s : str) : SkillRole :=
  if str_eqb s (lit "script") then Script
  else if str_eqb s (lit "example") then Example_
  else Reference.

(** The serde renames of the derived [Serialize]. *)
Definition SkillRole_serialize (r : SkillRole) : str :=
  match r with
  | Script => lit "script"
  | Reference => lit "reference"
  | Example_ => lit "example"
  end.

Record SkillFile := mkSkillFile { sf_path : str; sf_role : SkillRole; sf_md5 : option str }.
Record SkillManifest := mkManifest { sm_version : Z; sm_files : list SkillFile }.

(** ** Lifecycle *)
Inductive LifecycleStatus := LActive | LSuperseded | LRetired.

Definition LifecycleStatus_parse (s : str) : option LifecycleStatus :=
  if str_eqb s (lit "active") then Some LActive
  else if str_eqb s (lit "superseded") then Some LSuperseded
  else if str_eqb s (lit "retired") then Some LRetired
  else None.

(** ** Frontmatter and concepts *)
Record Frontmatter := mkFrontmatter {
  concept_type : str;
  fm_title : option str;
  fm_description : option str;
  fm_resource : option str;
  fm_tags : list str;
  fm_timestamp : option str;
  fm_book : option str;
  fm_chapter_index : option Z;
  fm_skill : option SkillManifest;
  fm_status : option str;
  fm_superseded_by : option str;
  fm_valid_to : option str;
  fm_source : option str;
  fm_confirmed_at : option str }.

(** [Frontmatter::default()] *)
Definition Frontmatter_default : Frontmatter :=
  mkFrontmatter [] None None None [] None None None None None None None None None.

Record Concept := mkConcept {
  frontmatter : Frontmatter;
  body : str;
  source_path : str }.

Inductive ConceptError (YamlError : Type) :=
| MissingFrontmatter
| MissingTypeField
| Yaml (e : YamlError)
| InvalidSkillPath (path : str)
| InvalidLifecycleStatus (value : str)
| InvalidSupersededBy (value : str)
| InvalidValidTo (value : str).
Arguments MissingFrontmatter {YamlError}.
Arguments MissingTypeField {YamlError}.
Arguments Yaml {YamlError} e.
Arguments InvalidSkillPath {YamlError} path.
Arguments InvalidLifecycleStatus {YamlError} value.
Arguments InvalidSupersededBy {YamlError} value.
Arguments InvalidValidTo {YamlError} value.

Definition slash : char := 47.

(** The closure of [SkillManifest::validated]. *)
Definition skill_path_ok (p : str) : bool :=
  negb (bool_decide (p = [])) && negb (starts_with [slash] p) &&
  negb (contains [92%N] p) && negb (contains [0%N] p) &&
  forallb (fun seg => negb (str_eqb seg (lit "..")) && negb (str_eqb seg (lit ".")) &&
                      negb (bool_decide (seg = []))) (split slash p).

Section Validation.
Context {YamlError : Type} (rfc3339_ok : str -> bool).

Fixpoint validated_files (fs : list SkillFile) : result unit (ConceptError YamlError) :=
  match fs with
  | [] => Ok tt
  | f :: fs => if skill_path_ok (sf_path f) then validated_files fs
               else Err (InvalidSkillPath (sf_path f))
  end.

(** [SkillManifest::validated] *)
Definition SkillManifest_validated (m : SkillManifest) : result unit (ConceptError YamlError) :=
  validated_files (sm_files m).

(** [Frontmatter::validated] *)
Definition Frontmatter_validated (f : Frontmatter) : result unit (ConceptError YamlError) :=
  (let? _ := match fm_status f with
             | Some v => match LifecycleStatus_parse v with
                         | None => Err (InvalidLifecycleStatus v)
                         | Some _ => Ok tt
                         end
             | None => Ok tt
             end in
   let? _ := match fm_superseded_by f with
             | Some v => if negb (starts_with [slash] v && ends_with (lit ".md") v)
                         then Err (InvalidSupersededBy v) else Ok tt
             | None => Ok tt
             end in
   match fm_valid_to f with
   | Some v => if negb (rfc3339_ok v) then Err (InvalidValidTo v) else Ok tt
   | None => Ok tt
   end)%rust.
End Validation.

(** ** Parsing and printing *)
Definition crlf : str := [13%N; 10%N].
Definition bom : char := 65279.
Definition fence : str := lit "---".

(** The normalization at the head of [split_frontmatter]. *)
Definition normalized (contents : str) : str :=
  let n := if contains crlf contents then replace crlf [nl] contents else contents in
  match strip_prefix [bom] n with Some r => r | None => n end.

(** The loop over the lines: those before and after the first closing
    delimiter (the code keeps their byte offsets). *)
Fixpoint closing_delimiter (ls : list str) : option (list str * list str) :=
  match ls with
  | [] => None
  | line :: ls =>
      if str_eqb (trim_end line) fence then Some ([], ls)
      else match closing_delimiter ls with
           | Some (before, after) => Some (line :: before, after)
           | None => None
           end
  end.

Definition split_frontmatter {YamlError} (contents : str)
    : result (str * str) (ConceptError YamlError) :=
  (let? rest := ok_or MissingFrontmatter (strip_prefix (fence ++ [nl]) (normalized contents)) in
   let? parts := ok_or MissingFrontmatter (closing_delimiter (split_inclusive rest)) in
   Ok (concat parts.1, concat parts.2))%rust.

(** The YAML library, as the code uses it. *)
Class YamlCodec (YamlError : Type) := {
  from_str : str -> result Frontmatter YamlError;
  to_string : Frontmatter -> result str YamlError }.

Section Codec.
Context {YamlError : Type} `{!YamlCodec YamlError}.

(** [Concept::parse] *)
Definition Concept_parse (path contents : str) : result Concept (ConceptError YamlError) :=
  (let? parts := split_frontmatter contents in
   let? fm := result_map_err Yaml (from_str parts.1) in
   if bool_decide (trim (concept_type fm) = []) then Err MissingTypeField
   else Ok (mkConcept fm parts.2 path))%rust.

(** [Concept::to_markdown] *)
Definition to_markdown (c : Concept) : result str (ConceptError YamlError) :=
  (let? yaml := result_map_err Yaml (to_string (frontmatter c)) in
   let yaml := trim_start_matches (fence ++ [nl]) yaml in
   Ok (fence ++ [nl] ++ trim_end yaml ++ [nl] ++ fence ++ [nl] ++ body c))%rust.
End Codec.

(** ** Shelves *)
Record ShelfInfo := mkShelfInfo {
  si_name : option str; si_topic : option str;
  si_description : option str; si_kind : option str }.

Definition ShelfInfo_is_book_shelf (s : ShelfInfo) : bool :=
  match si_kind s with Some k => str_eqb k (lit "book") | None => false end.

Inductive ShelfKind := KGlobal | KTopic | KUser | KBook.
Record Shelf := mkShelf { shelf_name : str; shelf_kind : ShelfKind; is_global_read : bool }.
Definition Shelf_new (name : str) (kind : ShelfKind) : Shelf :=
  mkShelf name kind (match kind with KGlobal => true | _ => false end).
Definition Shelf_is_book_shelf (s : Shelf) : bool :=
  match shelf_kind s with KBook => true | _ => false end.

(** ** The bundle walker *)

(** An OS string: its UTF-8 form if it has one, and its lossy rendering. *)
Record OsStr := mkOs { to_str : option str; to_string_lossy : str }.
Inductive Component := Normal (seg : OsStr) | OtherComponent (seg : OsStr).
Definition as_os_str (c : Component) : OsStr :=
  match c with Normal s | OtherComponent s => s end.

(** The loop body of [canonical_path]. *)
Definition push_component (out : str) (c : Component) : str :=
  match c with
  | Normal seg => (if bool_decide (out = []) then out else out ++ [slash]) ++ to_string_lossy seg
  | OtherComponent _ => out
  end.
Definition canonical_path (rel : list Component) : str :=
  slash :: fold_left push_component rel [].

Definition is_kebab_case (file_name : str) : bool :=
  let stem := match strip_suffix (lit ".md") file_name with Some s => s | None => file_name end in
  forallb (fun c => is_ascii_lowercase c || is_ascii_digit c || (c =? 45)%N || (c =? 46)%N) stem.

Definition hidden (o : OsStr) : bool :=
  match to_str o with Some s => starts_with [46%N] s | None => false end.

(** A directory entry, its path relative to the root, and what reading the
    file returns. *)
Record DirEntry {IoError : Type} := mkEntry {
  e_depth : nat; e_file_name : OsStr; e_is_file : bool;
  e_rel : list Component; e_read : result str IoError }.
Arguments DirEntry : clear implicits.
Arguments mkEntry {IoError}.

Record Bundle := mkBundle {
  concepts : list Concept;
  shelf_info : option ShelfInfo;
  reserved_files_seen : list str;
  naming_warnings : list str }.
Definition Bundle_default : Bundle := mkBundle [] None [] [].

Section Walker.
Context {YamlError WalkError IoError : Type} `{!YamlCodec YamlError}.
Context (shelf_from_str : str -> result ShelfInfo YamlError) (non_utf8 : IoError).

Inductive BundleError :=
| Walk (e : WalkError)
| Io (e : IoError)
| BConcept (path : str) (source : ConceptError YamlError)
| BShelfInfo (e : YamlError).

(** The loop body of [walk_bundle]. *)
Definition visit (b : Bundle) (entry : result (DirEntry IoError) WalkError)
    : result Bundle BundleError :=
  (let? entry := result_map_err Walk entry in
   if negb (e_is_file entry) then Ok b
   else
   let? file_name := ok_or (Io non_utf8) (to_str (e_file_name entry)) in
   if existsb (fun c => hidden (as_os_str c)) (e_rel entry) then Ok b
   else if str_eqb file_name INFO_MD then
     let? contents := result_map_err Io (e_read entry) in
     let? info := result_map_err BShelfInfo (shelf_from_str contents) in
     Ok (mkBundle (concepts b) (Some info) (reserved_files_seen b ++ [file_name])
           (naming_warnings b))
   else if is_reserved_filename file_name then
     Ok (mkBundle (concepts b) (shelf_info b) (reserved_files_seen b ++ [file_name])
           (naming_warnings b))
   else if negb (ends_with (lit ".md") file_name) then Ok b
   else
   let canonical := canonical_path (e_rel entry) in
   let warnings := if is_kebab_case file_name then naming_warnings b
                   else naming_warnings b ++ [canonical ++ lit ": not kebab-case"] in
   let? contents := result_map_err Io (e_read entry) in
   let? concept := result_map_err (BConcept canonical) (Concept_parse canonical contents) in
   Ok (mkBundle (concepts b ++ [concept]) (shelf_info b) (reserved_files_seen b) warnings))%rust.

Fixpoint visit_all (b : Bundle) (entries : list (result (DirEntry IoError) WalkError))
    : result Bundle BundleError :=
  match entries with
  | [] => Ok b
  | e :: es => (let? b := visit b e in visit_all b es)%rust
  end.

(** The [filter_entry] closure. *)
Definition descend (e : DirEntry IoError) : bool :=
  (e_depth e =? 0)%nat || negb (hidden (e_file_name e)).

(** [walkdir filter] is the sorted walk that does not enter what the
    filter refuses. *)
Definition walk_bundle
    (walkdir : (DirEntry IoError -> bool) -> list (result (DirEntry IoError) WalkError))
    : result Bundle BundleError :=
  visit_all Bundle_default (walkdir descend).
End Walker.
Arguments BundleError : clear implicits.

(** ** Splitting the frontmatter *)
Lemma closing_delimiter_Some ls before after :
  closing_delimiter ls = Some (before, after) <->
  exists d, ls = before ++ d :: after /\ trim_end d = fence /\
    Forall (fun l => trim_end l <> fence) before.
Proof.
  split.
  - revert before. induction ls as [|l ls IH]; intros before; simpl; [done|].
    destruct (str_eqb (trim_end l) fence) eqn:Hl.
    + intros ?. simplify_eq. exists l. by apply str_eqb_eq in Hl.
    + destruct (closing_delimiter ls) as [[b a]|]; [|done]. intros ?. simplify_eq.
      destruct (IH b eq_refl) as (d & -> & Hd & Hb). exists d. split_and!; [done..|].
      constructor; [|done]. intros He. by rewrite (proj2 (str_eqb_eq _ _) He) in Hl.
  - intros (d & -> & Hd & Hb). induction Hb as [|l before Hl Hb IH]; simpl.
    + by rewrite (proj2 (str_eqb_eq _ _) Hd).
    + rewrite IH. destruct (str_eqb (trim_end l) fence) eqn:E; [|done]. by apply str_eqb_eq in E.
Qed.

Lemma closing_delimiter_None ls :
  closing_delimiter ls = None <-> Forall (fun l => trim_end l <> fence) ls.
Proof.
  induction ls as [|l ls IH]; simpl; [done|].
  destruct (str_eqb (trim_end l) fence) eqn:Hl.
  - split; [done|]. intros H. inversion H as [|?? Hn]. by apply str_eqb_eq in Hl.
  - assert (trim_end l <> fence) by (intros He; by rewrite (proj2 (str_eqb_eq _ _) He) in Hl).
    rewrite Forall_cons. destruct (closing_delimiter ls) as [[]|]; naive_solver.
Qed.

Lemma trim_end_nonempty l : trim_end l = fence -> l <> [].
Proof. by intros H ->. Qed.

(** Splitting is exactly the documented grammar on the normalized text
    (line endings unified, byte-order mark dropped): it succeeds with
    [(yaml, body)] if and only if the text is the opening fence line, then
    complete lines [yaml] none of which is a fence, then a fence line (up
    to trailing white space), then [body]; it fails, with the missing-block
    error, if and only if the opening line or every closing line is
    missing. *)
Theorem split_frontmatter_grammar {YE} contents :
  match split_frontmatter (YamlError := YE) contents with
  | Ok (yaml, rest) =>
      exists close,
        normalized contents = fence ++ [nl] ++ yaml ++ close ++ rest /\
        is_line close /\ trim_end close = fence /\ line_aligned yaml /\
        (rest = [] \/ line_aligned close) /\
        Forall (fun l => trim_end l <> fence) (split_inclusive yaml)
  | Err e =>
      e = MissingFrontmatter /\
      ~ exists yaml close rest,
        normalized contents = fence ++ [nl] ++ yaml ++ close ++ rest /\
        is_line close /\ trim_end close = fence /\ line_aligned yaml /\
        (rest = [] \/ line_aligned close)
  end.
Proof.
  unfold split_frontmatter. destruct (strip_prefix _ _) as [text|] eqn:Hp; simpl.
  - apply strip_prefix_Some in Hp. rewrite Hp. clear Hp.
    destruct (closing_delimiter (split_inclusive text)) as [[ls ls']|] eqn:Hc; simpl.
    + apply closing_delimiter_Some in Hc as (d & Hs & Hd & Hls). exists d.
      destruct (split_inclusive_lines _ _ _ _ Hs) as (Hl & Ha & Hd').
      assert (text = concat ls ++ d ++ concat ls') as ->.
      { by rewrite <- (split_inclusive_concat text), Hs, concat_app. }
      split_and!; try done; [by destruct Hd' as [->|]; [left|right]|].
      by rewrite (split_inclusive_cut _ _ _ _ Hs).
    + apply closing_delimiter_None in Hc. split; [done|].
      intros (yaml & close & rest & Heq & Hl & Hd & Ha & Hr). simpl in Heq.
      injection Heq as ->. rewrite split_inclusive_app, split_inclusive_line in Hc by naive_solver.
      apply Forall_app in Hc as [_ Hc]. by inversion Hc.
  - split; [done|]. intros (yaml & close & rest & Heq & _).
    change (normalized contents = (fence ++ [nl]) ++ yaml ++ close ++ rest) in Heq.
    by rewrite (proj2 (strip_prefix_Some _ _ _) Heq) in Hp.
Qed.

(** ** Round trip *)
Lemma normalized_id s :
  contains crlf s = false -> starts_with [bom] s = false -> normalized s = s.
Proof.
  unfold normalized, starts_with. intros ->. by destruct (strip_prefix [bom] s).
Qed.

Lemma trim_end_no_cr s a : trim_end s <> a ++ [13%N].
Proof.
  destruct (trim_end_if_spec is_whitespace s) as (_ & _ & _ & [H|(s' & c & H & Hc)]);
    unfold trim_end; rewrite H; [by destruct a|].
  intros E. apply app_inj_tail in E as [_ ->]. done.
Qed.

Lemma markdown_no_crlf y b :
  contains crlf (trim_end y) = false -> contains crlf b = false ->
  contains crlf (fence ++ [nl] ++ trim_end y ++ [nl] ++ fence ++ [nl] ++ b) = false.
Proof.
  intros Hy Hb. apply not_true_is_false. intros H.
  change (contains [13%N; 10%N] ((fence ++ [nl]) ++ trim_end y ++ (([nl] ++ fence) ++ [nl]) ++ b) = true) in H.
  apply contains_pair_app in H as [H|[H|(a & v & H & _)]]; [done| |by apply app_inj_tail in H as [_ H]].
  apply contains_pair_app in H as [H|[H|(a & v & H & _)]];
    [unfold crlf in *; congruence| |by apply trim_end_no_cr in H].
  apply contains_pair_app in H as [H|[H|(a & v & H & _)]];
    [done|unfold crlf in *; congruence|by apply app_inj_tail in H as [_ H]].
Qed.

(** C40. A concept survives being written and read back: if the YAML
    library reads back the (trimmed) frontmatter it printed, no line of
    which is a fence, and neither it nor the body has a CRLF, then
    [to_markdown] succeeds and [Concept::parse] returns the very concept. *)
Theorem concept_roundtrip {YE} `{!YamlCodec YE} (c : Concept) y :
  let yaml := trim_end (trim_start_matches (fence ++ [nl]) y) in
  to_string (frontmatter c) = Ok y ->
  from_str (yaml ++ [nl]) = Ok (frontmatter c) ->
  Forall (fun l => trim_end l <> fence) (split_inclusive (yaml ++ [nl])) ->
  contains crlf yaml = false -> contains crlf (body c) = false ->
  trim (concept_type (frontmatter c)) <> [] ->
  exists md, to_markdown c = Ok md /\ Concept_parse (source_path c) md = Ok c.
Proof.
  intros yaml Hy Hf Hfence Hcy Hcb Ht. unfold to_markdown. rewrite Hy. cbn [result_bind result_map_err].
  eexists. split; [done|]. fold yaml. unfold Concept_parse, split_frontmatter.
  rewrite normalized_id; [|by apply markdown_no_crlf|done].
  assert (strip_prefix (fence ++ [nl]) (fence ++ [nl] ++ yaml ++ [nl] ++ fence ++ [nl] ++ body c)
          = Some (yaml ++ [nl] ++ (fence ++ [nl]) ++ body c)) as -> by (by apply strip_prefix_Some).
  cbv beta iota delta [result_bind ok_or].
  rewrite (app_assoc yaml), split_inclusive_app by (right; by exists yaml).
  rewrite (split_inclusive_line (fence ++ [nl])); cycle 1.
  { split; [done|]. exists fence. split; [|by right]. unfold fence, lit. simpl. set_solver. }
  { right. right. by exists fence. }
  rewrite (proj2 (closing_delimiter_Some _ (split_inclusive (yaml ++ [nl])) (split_inclusive (body c))));
    [|by exists (fence ++ [nl])].
  simpl. rewrite !split_inclusive_concat, Hf. simpl. rewrite bool_decide_false by done.
  by destruct c.
Qed.

(** A codec for the witness: only the type is kept. *)
Definition type_only : YamlCodec unit := {|
  from_str s := match strip_prefix (lit "type: ") s with
                | Some t => Ok (mkFrontmatter (trim t) None None None [] None None None None
                                  None None None None None)
                | None => Err tt
                end;
  to_string f := Ok (fence ++ [nl] ++ lit "type: " ++ concept_type f ++ [nl]) |}.

Lemma concept_roundtrip_witness :
  let c := mkConcept (mkFrontmatter (lit "Note") None None None [] None None None None
                       None None None None None) (lit "--- body") (lit "/a.md") in
  exists md, @to_markdown _ type_only c = Ok md /\ @Concept_parse _ type_only (lit "/a.md") md = Ok c.
Proof.
  intros c. eapply (@concept_roundtrip _ type_only c); [done|done| |done..].
  by repeat constructor; vm_compute.
Defined.

(** ** Manifest paths *)

(** Resolving the segments of a relative path from a directory: empty and
    [.] segments stay, [..] goes up ([None] above the root). *)
Fixpoint resolve (dir : list str) (segs : list str) : option (list str) :=
  match segs with
  | [] => Some dir
  | seg :: segs =>
      if bool_decide (seg = []) || str_eqb seg (lit ".") then resolve dir segs
      else if str_eqb seg (lit "..") then
        match rev dir with [] => None | _ :: d => resolve (rev d) segs end
      else resolve (dir ++ [seg]) segs
  end.

Definition seg_ok (seg : str) : bool :=
  negb (str_eqb seg (lit "..")) && negb (str_eqb seg (lit ".")) && negb (bool_decide (seg = [])).

Lemma seg_ok_spec seg :
  seg_ok seg = true ->
  str_eqb seg (lit "..") = false /\ str_eqb seg (lit ".") = false /\ seg <> [].
Proof. unfold seg_ok. intros. to_prop. done. Qed.

Lemma resolve_clean dir segs :
  forallb seg_ok segs = true -> resolve dir segs = Some (dir ++ segs).
Proof.
  revert dir. induction segs as [|seg segs IH]; intros dir; simpl; [by rewrite app_nil_r|].
  intros [(Hdd & Hd & He)%seg_ok_spec Hs]%andb_prop.
  rewrite bool_decide_false by done. simpl. rewrite Hd, Hdd. by rewrite IH, <- app_assoc.
Qed.

Lemma validated_files_spec {YE} fs :
  match validated_files (YamlError := YE) fs with
  | Ok _ => Forall (fun f => skill_path_ok (sf_path f) = true) fs
  | Err e => exists fs1 f fs2, fs = fs1 ++ f :: fs2 /\ e = InvalidSkillPath (sf_path f) /\
      Forall (fun f => skill_path_ok (sf_path f) = true) fs1 /\ skill_path_ok (sf_path f) = false
  end.
Proof.
  induction fs as [|f fs IH]; simpl; [done|].
  destruct (skill_path_ok (sf_path f)) eqn:Hf; [|by exists [], f, fs].
  destruct (validated_files fs) as [?|e]; [by constructor|].
  destruct IH as (fs1 & g & fs2 & -> & -> & H1 & H2). exists (f :: fs1), g, fs2. auto.
Qed.

Lemma skill_path_ok_spec p :
  skill_path_ok p = true <->
  p <> [] /\ starts_with [slash] p = false /\ 92%N ∉ p /\ 0%N ∉ p /\
  forallb seg_ok (split slash p) = true.
Proof.
  unfold skill_path_ok. rewrite !andb_true_iff, !negb_true_iff, bool_decide_eq_false.
  rewrite <- !contains_char, !not_true_iff_false. unfold seg_ok. tauto.
Qed.

(** Accepted skill manifests are confined: every path is relative, free
    of back slashes and NULs, and resolving it from any directory yields
    exactly that directory followed by the path's own segments, so it
    never leaves the directory and different accepted paths never name the
    same file.  A manifest is refused at the first path for which one of
    the checks fails, and with that path. *)
Theorem skill_manifest_confined {YE} m :
  match SkillManifest_validated (YamlError := YE) m with
  | Ok _ => forall f g, f ∈ sm_files m -> g ∈ sm_files m -> forall dir,
      starts_with [slash] (sf_path f) = false /\ 92%N ∉ sf_path f /\ 0%N ∉ sf_path f /\
      resolve dir (split slash (sf_path f)) = Some (dir ++ split slash (sf_path f)) /\
      (resolve dir (split slash (sf_path f)) = resolve dir (split slash (sf_path g)) ->
       sf_path f = sf_path g)
  | Err e => exists before f after,
      sm_files m = before ++ f :: after /\ e = InvalidSkillPath (sf_path f) /\
      (sf_path f = [] \/ starts_with [slash] (sf_path f) = true \/
       92%N ∈ sf_path f \/ 0%N ∈ sf_path f \/
       exists seg, seg ∈ split slash (sf_path f) /\
         (seg = [] \/ seg = lit "." \/ seg = lit "..")) /\
      forall g, g ∈ before -> forall dir,
        resolve dir (split slash (sf_path g)) = Some (dir ++ split slash (sf_path g))
  end.
Proof.
  unfold SkillManifest_validated. pose proof (validated_files_spec (YE := YE) (sm_files m)) as H.
  destruct (validated_files _) as [?|e].
  - rewrite Forall_forall in H. intros f g Hf Hg dir.
    pose proof (proj1 (skill_path_ok_spec _) (H f Hf)) as (_ & Hs & Hb & H0 & Hseg).
    pose proof (proj1 (skill_path_ok_spec _) (H g Hg)) as (_ & _ & _ & _ & Hseg').
    rewrite !resolve_clean by done. split_and!; try done.
    intros [= Heq%app_inv_head]. by apply split_inj in Heq.
  - destruct H as (fs1 & f & fs2 & Hm & -> & H1 & H2). exists fs1, f, fs2. split_and!; [done..| |].
    + destruct (decide (sf_path f = [])); [tauto|].
      destruct (starts_with [slash] (sf_path f)) eqn:Hs; [tauto|].
      destruct (decide (92%N ∈ sf_path f)); [tauto|]. destruct (decide (0%N ∈ sf_path f)); [tauto|].
      do 4 right. destruct (forallb seg_ok (split slash (sf_path f))) eqn:Hseg.
      * assert (skill_path_ok (sf_path f) = true) by by apply skill_path_ok_spec. congruence.
      * clear -Hseg. induction (split slash (sf_path f)) as [|seg l IH]; [done|]. simpl in Hseg.
        destruct (seg_ok seg) eqn:E; [destruct (IH Hseg) as (x & ? & ?); exists x; set_solver|].
        exists seg. split; [set_solver|]. unfold seg_ok in E. 
        destruct (str_eqb seg (lit "..")) eqn:E1; [apply str_eqb_eq in E1; tauto|].
        destruct (str_eqb seg (lit ".")) eqn:E2; [apply str_eqb_eq in E2; tauto|].
        simpl in E. apply negb_false_iff, bool_decide_eq_true in E. tauto.
    + rewrite Forall_forall in H1. intros g Hg dir.
      apply resolve_clean. by apply skill_path_ok_spec, H1.
Qed.

(** ** Lifecycle fields *)

(** A frontmatter passes write-time validation exactly when each
    lifecycle field that is present is well formed; otherwise the error
    names the value of the first offending field, in the order status,
    superseded_by, valid_to. *)
Theorem lifecycle_validated {YE} rfc3339_ok f :
  let status_ok v := v = lit "active" \/ v = lit "superseded" \/ v = lit "retired" in
  let target_ok v := exists m, v = [slash] ++ m /\ exists m', v = m' ++ lit ".md" in
  let check o (P : str -> Prop) := forall v, o = Some v -> P v in
  match Frontmatter_validated (YamlError := YE) rfc3339_ok f with
  | Ok _ => check (fm_status f) status_ok /\ check (fm_superseded_by f) target_ok /\
            check (fm_valid_to f) (fun v => rfc3339_ok v = true)
  | Err (InvalidLifecycleStatus v) => fm_status f = Some v /\ ~ status_ok v
  | Err (InvalidSupersededBy v) =>
      check (fm_status f) status_ok /\ fm_superseded_by f = Some v /\ ~ target_ok v
  | Err (InvalidValidTo v) =>
      check (fm_status f) status_ok /\ check (fm_superseded_by f) target_ok /\
      fm_valid_to f = Some v /\ rfc3339_ok v = false
  | Err _ => False
  end.
Proof.
  intros status_ok target_ok check.
  assert (Hs : forall v, LifecycleStatus_parse v = None <-> ~ status_ok v).
  { intros v. unfold LifecycleStatus_parse, status_ok. rewrite <- !str_eqb_eq.
    repeat case_match; naive_solver. }
  assert (Ht : forall v, starts_with [slash] v && ends_with (lit ".md") v = true <-> target_ok v).
  { intros v. unfold target_ok. rewrite andb_true_iff, starts_with_spec, ends_with_spec. naive_solver. }
  assert (Hsok : forall v l, LifecycleStatus_parse v = Some l -> status_ok v).
  { intros v l Hv. destruct (decide (LifecycleStatus_parse v = None)) as [|Hn]; [congruence|].
    unfold LifecycleStatus_parse, status_ok in *. rewrite <- !str_eqb_eq. repeat case_match; naive_solver. }
  unfold Frontmatter_validated, check.
  destruct (fm_status f) as [v|]; [destruct (LifecycleStatus_parse v) eqn:Hv; simpl|simpl];
    [|by rewrite <- Hs|].
  all: destruct (fm_superseded_by f) as [w|]; simpl; [destruct (starts_with _ _ && _) eqn:Hw; simpl|];
    [|split_and!; [naive_solver..|by rewrite <- Ht, Hw]|].
  all: destruct (fm_valid_to f) as [u|]; simpl; [destruct (rfc3339_ok u) eqn:Hu; simpl|].
  all: try (apply Ht in Hw); naive_solver.
Qed.

(** ** The walk *)
Section WalkProofs.
Context {YE WE IE : Type} `{!YamlCodec YE}.
Context (shelf_from_str : str -> result ShelfInfo YE) (non_utf8 : IE).
Abbreviation visit_one := (@visit YE WE IE _ shelf_from_str non_utf8).
Abbreviation visit_list := (@visit_all YE WE IE _ shelf_from_str non_utf8).

(** The entries that are concepts: visible regular files named [*.md] and
    not reserved. *)
Definition is_concept (e : DirEntry IE) : bool :=
  e_is_file e && negb (existsb (fun c => hidden (as_os_str c)) (e_rel e)) &&
  match to_str (e_file_name e) with
  | Some n => ends_with (lit ".md") n && negb (is_reserved_filename n)
  | None => false
  end.

(** What an entry contributes. *)
Definition parses_to (c : Concept) (e : DirEntry IE) : Prop :=
  exists contents, e_read e = Ok contents /\
    Concept_parse (canonical_path (e_rel e)) contents = Ok c.

Lemma visit_concepts b e b' :
  visit_one b e = Ok b' ->
  exists entry, e = Ok entry /\
    if is_concept entry
    then exists c, concepts b' = concepts b ++ [c] /\ parses_to c entry
    else concepts b' = concepts b.
Proof.
  unfold visit, is_concept, parses_to. destruct e as [entry|]; simpl; [|done].
  intros H. exists entry. split; [done|].
  destruct (e_is_file entry); simpl in *; [|by simplify_eq].
  destruct (to_str (e_file_name entry)) as [n|]; simpl in *; [|done].
  destruct (existsb _ _); simpl in *; [by simplify_eq|].
  unfold is_reserved_filename in *.
  destruct (str_eqb n INFO_MD) eqn:Hi; simpl in *.
  { destruct (e_read entry); simpl in *; [|done].
    destruct (shelf_from_str _); simpl in *; [|done]. simplify_eq/=.
    by rewrite orb_true_r, andb_false_r. }
  destruct (str_eqb n INDEX_MD || str_eqb n LOG_MD) eqn:Hr; simpl in *.
  { rewrite andb_false_r. by simplify_eq. }
  destruct (ends_with (lit ".md") n); simpl in *; [|by simplify_eq].
  destruct (e_read entry) as [contents|]; simpl in *; [|done].
  destruct (Concept_parse _ contents) as [c|] eqn:Hc; simpl in *; simplify_eq/=.
  exists c. split; [done|]. by exists contents.
Qed.

Lemma visit_all_concepts b es b' :
  visit_list b es = Ok b' ->
  exists entries new, es = Ok <$> entries /\ concepts b' = concepts b ++ new /\
    Forall2 parses_to new (retain is_concept entries).
Proof.
  revert b. induction es as [|e es IH]; intros b; simpl.
  - intros. simplify_eq. exists [], []. by rewrite app_nil_r.
  - destruct (visit_one b e) as [b1|] eqn:Hv; simpl; [|done]. intros H.
    destruct (IH _ H) as (entries & new & -> & Hc & Hf).
    apply visit_concepts in Hv as (entry & -> & Hv). exists (entry :: entries). simpl.
    destruct (is_concept entry).
    + destruct Hv as (c & Hc1 & Hp). exists (c :: new). rewrite Hc, Hc1, <- app_assoc. auto.
    + exists new. by rewrite Hc, Hv.
Qed.
End WalkProofs.

(** The named segments of a relative path. *)
Definition segments (rel : list Component) : list str :=
  omap (fun c => match c with Normal s => Some (to_string_lossy s) | _ => None end) rel.

Lemma push_components rel out :
  out <> [] \/ rel = [] ->
  Forall (fun s => s <> []) (segments rel) ->
  fold_left push_component rel out = out ++ concat ((fun s => slash :: s) <$> segments rel).
Proof.
  revert out. induction rel as [|[seg|seg] rel IH]; intros out Ho Hs; simpl.
  - by rewrite app_nil_r.
  - destruct Ho as [Ho|]; [|done]. rewrite bool_decide_false by done.
    simpl in Hs. apply Forall_cons in Hs as [_ Hs]. rewrite IH; [|left; by destruct out|done].
    by rewrite <- !app_assoc.
  - destruct Ho as [Ho|]; [|done]. apply IH; [by left|done].
Qed.

Lemma canonical_path_segments rel :
  Forall (fun s => s <> []) (segments rel) -> segments rel <> [] ->
  canonical_path rel = concat ((fun s => slash :: s) <$> segments rel).
Proof.
  unfold canonical_path. induction rel as [|[seg|seg] rel IH]; intros Hs Hn; simpl in *; [done| |by apply IH].
  apply Forall_cons in Hs as [Hseg Hs]. rewrite push_components; [done|by left|done].
Qed.

(** A successful walk yields exactly the concepts of the tree, in walk
    order: one per visible, unreserved [.md] file, each the parse of that
    file's contents at its canonical path, which is the sequence of the
    file's path segments, a slash before each. *)
Theorem walk_bundle_concepts {YE WE IE} `{!YamlCodec YE} shelf_from_str non_utf8 walkdir b :
  @walk_bundle YE WE IE _ shelf_from_str non_utf8 walkdir = Ok b ->
  exists entries, walkdir descend = Ok <$> entries /\
    Forall2 parses_to (concepts b) (retain is_concept entries) /\
    Forall2 (fun c e => source_path c = canonical_path (e_rel e) /\
      (Forall (fun s => s <> []) (segments (e_rel e)) -> segments (e_rel e) <> [] ->
       source_path c = concat ((fun s => slash :: s) <$> segments (e_rel e))))
      (concepts b) (retain is_concept entries).
Proof.
  intros H. apply visit_all_concepts in H as (entries & new & Hw & -> & Hf).
  exists entries. split_and!; [done..|]. simpl. eapply Forall2_impl; [exact Hf|].
  intros c e (contents & _ & Hp). enough (source_path c = canonical_path (e_rel e)) as ->.
  { split; [done|]. apply canonical_path_segments. }
  unfold Concept_parse in Hp. destruct (split_frontmatter contents) as [parts|]; simpl in Hp; [|done].
  destruct (from_str _); simpl in Hp; [|done]. case_bool_decide; by simplify_eq.
Qed.

Lemma walk_bundle_concepts_witness :
  let os s := mkOs (Some (lit s)) (lit s) in
  let doc := fence ++ [nl] ++ lit "type: A" ++ [nl] ++ fence ++ [nl] ++ lit "x" in
  let e s c := Ok (mkEntry (IoError := unit) 1 (os s) true [Normal (os s)] (Ok c)) in
  let tree : list (result (DirEntry unit) unit) :=
    [e "a.md"%string doc; e "index.md"%string (lit "z")] in
  exists b entries,
    @walk_bundle unit unit unit type_only (fun _ => Err tt) tt (fun _ => tree) = Ok b /\
    source_path <$> concepts b = [lit "/a.md"] /\ tree = Ok <$> entries /\
    Forall2 (@parses_to unit unit type_only) (concepts b) (retain is_concept entries).
Proof.
  intros os doc e tree. eexists.
  destruct (@walk_bundle_concepts unit unit unit type_only (fun _ => Err tt) tt (fun _ => tree) _ eq_refl)
    as (entries & He & Hf & _).
  exists entries. split; [reflexivity|]. split; [by vm_compute|]. split; [exact He|exact Hf].
Defined.
