(* ===== verification/Links.v ===== *)
(** * Link scanning

    [crates/mycelium-core/src/links.rs]: masking of code spans and fenced
    blocks, and the extraction of absolute [.md] links.  The link pattern
    is a value of a small syntax of regular expressions with the
    leftmost-first greedy matching documented for the [regex] crate. *)
From S2P Require Import Prelude Text.

Definition tick : char := 96.
Definition spaces (n : nat) : str := repeat space n.

(** ** Masking *)

(** The length of the run of back ticks at the head. *)
Fixpoint run_length (s : str) : nat :=
  match s with
  | c :: s' => if (c =? tick)%N then S (run_length s') else 0
  | [] => 0
  end.

(** The search for a closing run of exactly [n] ticks: the characters of
    [s] consumed up to the end of that run.  [skip] characters belong to a
    run already looked at. *)
Fixpoint closing_run (n skip j : nat) (s : str) : option nat :=
  match s with
  | [] => None
  | c :: s' =>
      match skip with
      | S k => closing_run n k (S j) s'
      | O => if (c =? tick)%N then
               let r := S (run_length s') in
               if (r =? n)%nat then Some (j + r)%nat
               else closing_run n (pred r) (S j) s'
             else closing_run n 0 (S j) s'
      end
  end.

(** The loop of [mask_inline_code]; [skip] more characters are masked. *)
Fixpoint mask_from (skip : nat) (s : str) : str :=
  match s with
  | [] => []
  | c :: s' =>
      match skip with
      | S k => space :: mask_from k s'
      | O => if (c =? tick)%N then
               let run_len := run_length s in
               match closing_run run_len 0 0 (drop run_len s) with
               | Some e => space :: mask_from (pred (run_len + e)) s'
               | None => space :: mask_from (length s') s'
               end
             else c :: mask_from 0 s'
      end
  end.
Definition mask_inline_code (line : str) : str := mask_from 0 line.

(** The loop of [mask_code] over the lines. *)
Fixpoint mask_lines (in_fence : bool) (ls : list str) : str :=
  match ls with
  | [] => []
  | line :: ls =>
      if starts_with [tick; tick; tick] (trim_start line)
      then spaces (byte_len line) ++ mask_lines (negb in_fence) ls
      else if in_fence then spaces (byte_len line) ++ mask_lines in_fence ls
      else mask_inline_code line ++ mask_lines in_fence ls
  end.
Definition mask_code (text : str) : str := mask_lines false (split_inclusive text).

(** ** The link pattern *)
Inductive Atom :=
| Char (c : char)                 (* a literal *)
| Star (f : char -> bool)         (* [class]*, greedy *)
| OptChar (c : char)              (* c?, greedy *)
| OpenGroup | CloseGroup.

(** Backtracking matching at the head of [s]: the text of the group and
    the rest.  [grp] says whether the group is open. *)
Fixpoint match_atoms (re : list Atom) : bool -> str -> option (str * str) :=
  match re with
  | [] => fun _ s => Some ([], s)
  | a :: re =>
      let k := match_atoms re in
      fun grp s =>
      let push c (r : option (str * str)) :=
        match r with
        | Some (cap, rest) => Some (if grp : bool then c :: cap else cap, rest)
        | None => None
        end in
      match a with
      | Char c => match s with
                  | d :: s' => if (c =? d)%N then push d (k grp s') else None
                  | [] => None
                  end
      | Star f =>
          (fix star (s : str) : option (str * str) :=
             match s with
             | d :: s' =>
                 if f d then match push d (star s') with Some r => Some r | None => k grp s end
                 else k grp s
             | [] => k grp s
             end) s
      | OptChar c => match s with
                     | d :: s' =>
                         if (c =? d)%N
                         then match push d (k grp s') with Some r => Some r | None => k grp s end
                         else k grp s
                     | [] => k grp s
                     end
      | OpenGroup => k true s
      | CloseGroup => k false s
      end
  end.

(** [\[[^\]]*\]\((/[^\s()]*/?)\)] *)
Definition not_close (c : char) : bool := negb (c =? 93)%N.
Definition target_char (c : char) : bool :=
  negb (is_whitespace c) && negb (c =? 40)%N && negb (c =? 41)%N.
Definition LINK_RE : list Atom :=
  [Char 91; Star not_close; Char 93; Char 40; OpenGroup; Char 47; Star target_char;
   OptChar 47; CloseGroup; Char 41].

(** [captures_iter]: the group of each leftmost non-overlapping match;
    [fuel] bounds the number of positions tried. *)
Fixpoint captures_fuel (fuel : nat) (s : str) : list str :=
  match fuel with
  | O => []
  | S fuel =>
      match s with
      | [] => []
      | _ :: s' => match match_atoms LINK_RE false s with
                   | Some (cap, rest) => cap :: captures_fuel fuel rest
                   | None => captures_fuel fuel s'
                   end
      end
  end.
Definition captures (s : str) : list str := captures_fuel (length s) s.

Definition scan_links (text : str) : list str :=
  retain (fun target => starts_with [47%N] target && ends_with (lit ".md") target)
    (captures (mask_code text)).

(** ** Inline code: the CommonMark rule *)
Definition ticks (n : nat) : str := repeat tick n.

(** [s = a ++ ticks n ++ b] where the ticks are a maximal run ([a] follows
    a character that is not a tick). *)
Definition run_at (n : nat) (s a b : str) : Prop :=
  s = a ++ ticks n ++ b /\ last a <> Some tick /\ head b <> Some tick.

(** [Masks line out]: a run of [n] ticks opens a span closed by the first
    later run of exactly [n] ticks, and the whole span is blanked; an
    unclosed run blanks the rest; other characters stay. *)
Inductive Masks : str -> str -> Prop :=
| Masks_nil : Masks [] []
| Masks_char c s m : c <> tick -> Masks s m -> Masks (c :: s) (c :: m)
| Masks_span n s a b m :
    (0 < n)%nat -> head s <> Some tick -> run_at n s a b ->
    (forall a' b', run_at n s a' b' -> (length a <= length a')%nat) ->
    Masks b m -> Masks (ticks n ++ s) (spaces (n + length a + n) ++ m)
| Masks_open n s :
    (0 < n)%nat -> head s <> Some tick -> (forall a b, ~ run_at n s a b) ->
    Masks (ticks n ++ s) (spaces (n + length s)).

Lemma run_length_spec s :
  s = ticks (run_length s) ++ drop (run_length s) s /\ head (drop (run_length s) s) <> Some tick.
Proof.
  induction s as [|c s [IH1 IH2]]; [done|]. simpl.
  destruct (N.eqb_spec c tick) as [->|]; simpl; [|naive_solver]. split; [by f_equal|done].
Qed.

Lemma run_length_ticks n s : head s <> Some tick -> run_length (ticks n ++ s) = n.
Proof.
  intros Hs. induction n as [|n IH]; [|change (S (run_length (ticks n ++ s)) = S n); by rewrite IH].
  destruct s as [|c s]; [done|]. simpl in *. destruct (N.eqb_spec c tick); [by subst|done].
Qed.

Lemma ticks_length n : length (ticks n) = n.
Proof. apply repeat_length. Qed.

Lemma last_ticks n : (0 < n)%nat -> last (ticks n) = Some tick.
Proof. intros. destruct n; [lia|]. change (ticks (S n)) with (tick :: repeat tick n). by rewrite repeat_cons, last_snoc. Qed.

Lemma last_app_ne {A} (x y : list A) : y <> [] -> last (x ++ y) = last y.
Proof. intros. destruct y as [|? y] using rev_ind; [done|]. by rewrite app_assoc, !last_snoc. Qed.

Lemma last_all_ticks l : (forall x, x ∈ l -> x = tick) -> l <> [] -> last l = Some tick.
Proof.
  intros Hl Hne. destruct l as [|x l _] using rev_ind; [done|].
  rewrite last_snoc. f_equal. apply Hl. set_solver.
Qed.

(** A run of another length at the head is passed over. *)
Lemma run_at_skip n r s a b :
  (0 < n)%nat -> (0 < r)%nat -> r <> n -> head s <> Some tick ->
  run_at n (ticks r ++ s) a b <-> exists a2, a = ticks r ++ a2 /\ run_at n s a2 b.
Proof.
  intros Hn Hr Hne Hs. split.
  - intros (Heq & Ha & Hb). symmetry in Heq. apply app_eq_app in Heq as (l & [[-> He]|[He1 He2]]).
    + destruct l as [|x l].
      { rewrite app_nil_r in Ha. by rewrite last_ticks in Ha. }
      exists (x :: l). split; [done|]. split; [done|]. split; [|done]. by rewrite last_app_ne in Ha.
    + exfalso. destruct (decide (a = [])) as [->|Hne'].
      * simpl in *. subst l.
        assert (run_length (ticks n ++ b) = n) by by apply run_length_ticks.
        rewrite He2 in H. rewrite run_length_ticks in H by done. done.
      * destruct Ha. rewrite <- (last_ticks r), He1 by done.
        assert (Hall : forall x, x ∈ a ++ l -> x = tick).
        { intros x. rewrite <- He1. unfold ticks. intros Hx%list_elem_of_In%repeat_spec. done. }
        rewrite !last_all_ticks; [done|set_solver|by destruct a|set_solver|done].
  - intros (a2 & -> & -> & Ha & Hb). split; [by rewrite <- app_assoc|]. split; [|done].
    destruct (decide (a2 = [])) as [->|]; [|by rewrite last_app_ne].
    exfalso. destruct n; [lia|]. simpl in Hs. done.
Qed.

Lemma run_at_cons n c s a b :
  (0 < n)%nat -> c <> tick -> run_at n (c :: s) a b <-> exists a2, a = c :: a2 /\ run_at n s a2 b.
Proof.
  intros Hn Hc. split.
  - intros (Heq & Ha & Hb). destruct a as [|x a]; simpl in Heq.
    + destruct n; [lia|]. simpl in Heq. by injection Heq.
    + injection Heq as <- ->. exists a. split; [done|]. split; [done|]. split; [|done].
      destruct a; [done|]. done.
  - intros (a2 & -> & -> & Ha & Hb). split; [done|]. split; [|done].
    destruct a2; simpl; [congruence|done].
Qed.

Lemma closing_run_skip n k j s : closing_run n k j (ticks k ++ s) = closing_run n 0 (j + k) s.
Proof.
  revert j. induction k as [|k IH]; intros j; simpl; [by rewrite Nat.add_0_r|].
  rewrite IH. f_equal. lia.
Qed.

Lemma closing_run_spec n j s :
  (0 < n)%nat ->
  match closing_run n 0 j s with
  | Some e => exists a b, e = (j + length a + n)%nat /\ run_at n s a b /\
      forall a' b', run_at n s a' b' -> (length a <= length a')%nat
  | None => forall a b, ~ run_at n s a b
  end.
Proof.
  intros Hn. remember (length s) as len eqn:Hlen. revert j s Hlen.
  induction len as [len IH] using lt_wf_ind. intros j s ->.
  destruct s as [|c s].
  { intros a b (H & _). destruct a, n; simpl in H; try done; lia. }
  destruct (decide (c = tick)) as [->|Hc].
  - destruct (run_length_spec (tick :: s)) as [Hs Hh].
    set (r := run_length (tick :: s)) in *. assert (Hr : r = S (run_length s)) by done.
    set (s2 := drop r (tick :: s)) in *.
    assert (Hcr : closing_run n 0 j (tick :: s) =
      if (r =? n)%nat then Some (j + r)%nat else closing_run n 0 (j + r) s2).
    { cbn [closing_run]; rewrite N.eqb_refl. rewrite <- Hr. destruct (r =? n)%nat; [done|].
      assert (s = ticks (pred r) ++ s2) as Hs'.
      { rewrite Hr in Hs |- *. simpl in Hs. by injection Hs. }
      rewrite Hs' at 1. rewrite closing_run_skip. f_equal. lia. }
    rewrite Hcr. destruct (Nat.eqb_spec r n) as [Hrn|Hrn].
    + exists [], s2. rewrite <- Hrn. split_and!; [simpl; lia|split_and!; done|simpl; lia].
    + specialize (IH (length s2) ltac:(subst s2; rewrite length_drop; simpl; lia) (j + r)%nat s2 eq_refl).
      rewrite Hs. destruct (closing_run n 0 (j + r) s2) as [e|].
      * destruct IH as (a & b & -> & Hrun & Hmin). exists (ticks r ++ a), b.
        rewrite length_app, ticks_length. split_and!; [lia| |].
        -- apply run_at_skip; [lia..|done|]. by exists a.
        -- intros a' b' H. apply run_at_skip in H as (a2 & -> & H); [|lia..|done].
           rewrite length_app, ticks_length. specialize (Hmin _ _ H). lia.
      * intros a b H. apply run_at_skip in H as (a2 & -> & H); [|lia..|done]. by eapply IH.
  - simpl closing_run. destruct (N.eqb_spec c tick); [done|].
    specialize (IH (length s) ltac:(simpl; lia) (S j) s eq_refl).
    destruct (closing_run n 0 (S j) s) as [e|].
    + destruct IH as (a & b & -> & Hrun & Hmin). exists (c :: a), b. simpl.
      split_and!; [lia|apply run_at_cons; eauto|].
      intros a' b' H. apply run_at_cons in H as (a2 & -> & H); [|done..].
      specialize (Hmin _ _ H). simpl. lia.
    + intros a b H. apply run_at_cons in H as (a2 & -> & H); [|done..]. by eapply IH.
Qed.

Lemma mask_from_skip k s :
  mask_from k s = spaces (Nat.min k (length s)) ++ mask_from 0 (drop k s).
Proof. revert s. induction k as [|k IH]; intros [|c s]; try done. simpl. by rewrite IH. Qed.

(** The three cases of the loop body. *)
Lemma mask_run n s :
  (0 < n)%nat -> head s <> Some tick ->
  mask_from 0 (ticks n ++ s) =
    match closing_run n 0 0 s with
    | Some e => spaces (Nat.min (n + e) (n + length s)) ++ mask_from 0 (drop e s)
    | None => spaces (n + length s)
    end.
Proof.
  intros Hn Hs. destruct n as [|n]; [lia|].
  change (ticks (S n) ++ s) with (tick :: (ticks n ++ s)).
  cbn [mask_from]. rewrite N.eqb_refl.
  change (tick :: (ticks n ++ s)) with (ticks (S n) ++ s).
  rewrite run_length_ticks by done.
  rewrite drop_app_length' by (by rewrite ticks_length).
  destruct (closing_run (S n) 0 0 s) as [e|].
  - rewrite mask_from_skip, length_app, ticks_length. simpl pred.
    rewrite drop_app_ge by (rewrite ticks_length; lia). rewrite ticks_length.
    replace (n + e - n)%nat with e by lia. done.
  - rewrite mask_from_skip, length_app, ticks_length, drop_ge by (rewrite length_app, ticks_length; lia).
    rewrite Nat.min_id. simpl. by rewrite app_nil_r.
Qed.

(** Inline code is masked by the CommonMark rule, and by nothing else:
    [mask_inline_code] is the function the [Masks] relation defines. *)
Theorem mask_inline_code_commonmark line out :
  Masks line out <-> mask_inline_code line = out.
Proof.
  unfold mask_inline_code. split.
  - induction 1 as [|c s m Hc _ IH|n s a b m Hn Hs Hrun Hmin _ IH|n s Hn Hs Hno]; [done|..].
    + simpl. destruct (N.eqb_spec c tick); [done|]. by rewrite IH.
    + rewrite mask_run by done. pose proof (closing_run_spec n 0 s Hn) as H.
      destruct (closing_run n 0 0 s) as [e|]; [|by destruct (H a b)].
      destruct H as (a1 & b1 & -> & Hrun1 & Hmin1).
      pose proof (Hmin _ _ Hrun1). pose proof (Hmin1 _ _ Hrun).
      destruct Hrun as (-> & _ & _). destruct Hrun1 as (Heq & _ & _).
      apply app_inj_1 in Heq as [<- Heq]; [|lia]. simpl.
      rewrite !length_app, ticks_length, Nat.min_l by lia.
      rewrite app_assoc, drop_app_length' by (rewrite length_app, ticks_length; lia).
      rewrite IH. do 2 f_equal. lia.
    + rewrite mask_run by done. pose proof (closing_run_spec n 0 s Hn) as H.
      destruct (closing_run n 0 0 s) as [e|]; [|done].
      destruct H as (a & b & _ & Hrun & _). by destruct (Hno a b).
  - intros <-. remember (length line) as len eqn:Hlen. revert line Hlen.
    induction len as [len IH] using lt_wf_ind. intros line ->.
    destruct line as [|c s]; [constructor|].
    destruct (decide (c = tick)) as [->|Hc].
    + destruct (run_length_spec (tick :: s)) as [Hs Hh].
      assert (Hn : (0 < run_length (tick :: s))%nat) by (simpl; lia).
      set (n := run_length (tick :: s)) in *. set (s2 := drop n (tick :: s)) in *.
      rewrite Hs, mask_run by done. pose proof (closing_run_spec n 0 s2 Hn) as H.
      destruct (closing_run n 0 0 s2) as [e|]; [|by constructor].
      destruct H as (a & b & -> & Hrun & Hmin).
      pose proof Hrun as (Hs2 & _ & _).
      assert (drop (0 + length a + n) s2 = b) as ->.
      { rewrite Hs2, app_assoc, drop_app_length' by (rewrite length_app, ticks_length; lia). done. }
      rewrite Nat.min_l by (rewrite Hs2, !length_app, ticks_length; lia).
      replace (n + (0 + length a + n))%nat with (n + length a + n)%nat by lia.
      econstructor; try done. apply (IH (length b)); [|done].
      rewrite Hs, Hs2, !length_app, !ticks_length. lia.
    + simpl. destruct (N.eqb_spec c tick); [done|]. constructor; [done|].
      apply (IH (length s)); [simpl; lia|done].
Qed.

(** ** The link pattern *)

(** A link: [\[text\](target)], its target absolute. *)
Definition link (text target : str) : str :=
  [91%N] ++ text ++ [93%N; 40%N] ++ target ++ [41%N].
Definition is_text (text : str) : Prop := Forall (fun c => not_close c = true) text.
Definition is_target (target : str) : Prop :=
  head target = Some 47%N /\ Forall (fun c => target_char c = true) target.

Section Matching.
Context (f : char -> bool) (re : list Atom) (grp : bool).

Lemma star_sound s cap rest :
  match_atoms (Star f :: re) grp s = Some (cap, rest) ->
  exists a b cap', s = a ++ b /\ Forall (fun c => f c = true) a /\
    match_atoms re grp b = Some (cap', rest) /\ cap = if grp then a ++ cap' else cap'.
Proof.
  revert cap. induction s as [|d s IH]; intros cap H.
  - exists [], [], cap. simpl in H. split_and!; [done..|]. by destruct grp.
  - assert (Hk : forall r, match_atoms re grp (d :: s) = Some r -> r = (cap, rest) ->
      exists a b cap', d :: s = a ++ b /\ Forall (fun c => f c = true) a /\
      match_atoms re grp b = Some (cap', rest) /\ cap = if grp then a ++ cap' else cap').
    { intros r Hr ->. exists [], (d :: s), cap. split_and!; [done..|]. by destruct grp. }
    simpl in H. destruct (f d) eqn:Hd; [|by eapply Hk].
    change (match match match_atoms (Star f :: re) grp s with
                  | Some (c, r) => Some (if grp then d :: c else c, r) | None => None end with
            | Some r => Some r | None => match_atoms re grp (d :: s) end = Some (cap, rest)) in H.
    destruct (match_atoms (Star f :: re) grp s) as [[cap1 rest1]|]; [|by eapply Hk].
    simplify_eq. destruct (IH _ eq_refl) as (a & b & cap' & -> & Ha & Hb & ->).
    exists (d :: a), b, cap'. split_and!; [done|by constructor|done|]. by destruct grp.
Qed.

Lemma star_complete a b :
  Forall (fun c => f c = true) a -> is_Some (match_atoms re grp b) ->
  is_Some (match_atoms (Star f :: re) grp (a ++ b)).
Proof.
  intros Ha Hb. induction Ha as [|d a Hd Ha IH].
  - destruct b as [|d b]; [done|]. simpl. destruct (f d); [|done].
    case_match; [by eexists|done].
  - simpl. rewrite Hd. change (is_Some (match match match_atoms (Star f :: re) grp (a ++ b) with
                  | Some (c, r) => Some (if grp then d :: c else c, r) | None => None end with
            | Some r => Some r | None => match_atoms re grp (d :: a ++ b) end)).
    destruct IH as [[cap rest] ->]. by eexists.
Qed.
End Matching.

Lemma char_match c re grp s cap rest :
  match_atoms (Char c :: re) grp s = Some (cap, rest) <->
  exists s' cap', s = c :: s' /\ match_atoms re grp s' = Some (cap', rest) /\
    cap = if grp then c :: cap' else cap'.
Proof.
  simpl. destruct s as [|d s]; [naive_solver|]. destruct (N.eqb_spec c d) as [->|]; [|naive_solver].
  destruct (match_atoms re grp s) as [[cap1 rest1]|] eqn:E; split.
  - intros [= <- <-]. by exists s, cap1.
  - intros (s' & cap' & [= <-] & H & ->). by rewrite E in H; simplify_eq.
  - done.
  - intros (s' & cap' & [= <-] & H & ->). by rewrite E in H.
Qed.

(** The first occurrence of a character cuts a text in one way. *)
Lemma first_cut (P : char -> Prop) (x y : str) c u v :
  x ++ c :: u = y ++ c :: v -> Forall P x -> Forall P y -> ~ P c -> x = y /\ u = v.
Proof.
  revert y. induction x as [|a x IH]; intros [|b y] E Hx Hy Hd; simpl in E.
  - by injection E.
  - injection E as <- _. by apply Forall_cons in Hy as [? _].
  - injection E as -> _. by apply Forall_cons in Hx as [? _].
  - injection E as -> E. apply Forall_cons in Hx as [_ Hx]. apply Forall_cons in Hy as [_ Hy].
    by destruct (IH _ E Hx Hy Hd) as [-> ->].
Qed.

(** The pattern matches a link at the head, and captures its target. *)
Lemma match_link_sound s cap rest :
  match_atoms LINK_RE false s = Some (cap, rest) ->
  exists text, s = link text cap ++ rest /\ is_text text /\ is_target cap.
Proof.
  intros H. apply char_match in H as (s1 & c1 & -> & H & ->).
  apply star_sound in H as (text & s2 & c2 & -> & Ht & H & ->).
  apply char_match in H as (s3 & c3 & -> & H & ->).
  apply char_match in H as (s4 & c4 & -> & H & ->).
  cbn [match_atoms] in H.
  change (match_atoms [Char 47; Star target_char; OptChar 47; CloseGroup; Char 41] true s4
          = Some (c4, rest)) in H.
  apply char_match in H as (s5 & c5 & -> & H & ->).
  apply star_sound in H as (t & s6 & c6 & -> & Htgt & H & ->).
  assert (exists o, s6 = o ++ 41%N :: rest /\ c6 = o /\ (o = [] \/ o = [47%N])) as (o & -> & -> & Ho).
  { destruct s6 as [|d s6]; [done|]. simpl in H. destruct d as [|p]; [done|].
    repeat (destruct p as [p|p|]; simpl in H; try done).
    - destruct s6 as [|e s6]; [done|]. simpl in H. destruct e as [|p]; [done|].
      repeat (destruct p as [p|p|]; simpl in H; try done). simplify_eq/=.
      exists [47%N]. auto.
    - simplify_eq/=. exists []. auto. }
  exists text. split_and!.
  - unfold link. simpl. rewrite <- !app_assoc. simpl. by rewrite <- !app_assoc.
  - done.
  - split; [done|]. constructor; [done|]. apply Forall_app. split; [done|].
    destruct Ho as [->| ->]; by repeat constructor.
Qed.

Lemma match_link_complete text target rest :
  is_text text -> is_target target ->
  match_atoms LINK_RE false (link text target ++ rest) = Some (target, rest).
Proof.
  intros Ht [Hh Htgt]. destruct target as [|c t]; [done|]. injection Hh as ->.
  apply Forall_cons in Htgt as [_ Htgt].
  assert (is_Some (match_atoms LINK_RE false (link text (47%N :: t) ++ rest))) as [[cap r] H].
  { unfold link. rewrite <- !app_assoc. simpl app. unfold LINK_RE.
    assert (Hc : forall c re grp s, is_Some (match_atoms re grp s) ->
      is_Some (match_atoms (Char c :: re) grp (c :: s))).
    { intros c re grp s [[] Hs]. simpl. rewrite N.eqb_refl, Hs. by eexists. }
    apply Hc. apply star_complete; [done|]. apply Hc, Hc.
    change (is_Some (match_atoms [Char 47; Star target_char; OptChar 47; CloseGroup; Char 41] true
      (47%N :: t ++ 41%N :: rest))).
    apply Hc. apply star_complete; [done|]. simpl. by eexists. }
  rewrite H. apply match_link_sound in H as (text' & Heq & Ht' & [Hh' Htgt']).
  unfold link in Heq. rewrite <- !app_assoc in Heq. simpl in Heq. injection Heq as Heq.
  eapply first_cut in Heq as [-> Heq]; [|exact Ht|exact Ht'|done]. injection Heq as Heq.
  change ((47%N :: t) ++ 41%N :: rest = cap ++ 41%N :: r) in Heq.
  eapply first_cut in Heq as [<- <-]; [done| |exact Htgt'|done]. by constructor.
Qed.

(** ** Scanning *)
Lemma captures_sound fuel s t :
  t ∈ captures_fuel fuel s ->
  exists before text after, s = before ++ link text t ++ after /\ is_text text /\ is_target t.
Proof.
  revert s. induction fuel as [|fuel IH]; intros s; cbn [captures_fuel]; [by intros ?%not_elem_of_nil|].
  destruct s as [|c s]; [by intros ?%not_elem_of_nil|].
  destruct (match_atoms LINK_RE false (c :: s)) as [[cap rest]|] eqn:Hm.
  - apply match_link_sound in Hm as (text & Hs & Ht & Hc). rewrite Hs. intros [->|Hin]%elem_of_cons.
    + by exists [], text, rest.
    + destruct (IH _ Hin) as (b & text' & a & -> & H). exists (link text cap ++ b), text', a.
      by rewrite <- app_assoc.
  - intros Hin. destruct (IH _ Hin) as (b & text' & a & -> & H). by exists (c :: b), text', a.
Qed.

Definition no_paren (c : char) : Prop := c <> 40%N /\ c <> 41%N.

Lemma target_no_paren t : is_target t -> Forall no_paren t.
Proof.
  intros [_ H]. eapply Forall_impl; [exact H|]. intros c Hc.
  unfold target_char in Hc. to_prop. split; intros ->; done.
Qed.

Lemma overlapping_same pre text target k text0 cap :
  is_text text0 -> Forall no_paren target -> Forall no_paren cap ->
  text0 ++ [93%N; 40%N] ++ cap ++ [41%N] = pre ++ link text target ++ k -> cap = target.
Proof.
  intros Ht0 Hn Hn0 H.
  replace (pre ++ link text target ++ k)
    with ((pre ++ [91%N] ++ text) ++ 93%N :: (40%N :: (target ++ 41%N :: k))) in H
    by (unfold link; simpl; rewrite <- !app_assoc; simpl; by rewrite <- !app_assoc).
  simpl in H.
  assert (Hend : cap ++ [41%N] = target ++ 41%N :: k -> cap = target).
  { intros E. by apply (first_cut no_paren) in E as [-> _]; [..|intros []]. }
  apply app_eq_app in H as (l & [[-> H]|[_ H]]).
  - destruct l as [|x l]; [by injection H as H; apply Hend|]. injection H as <- _.
    apply Forall_app in Ht0 as [_ Ht0]. by apply Forall_cons in Ht0 as [? _].
  - destruct l as [|x l]; [by injection H as H; apply Hend|]. injection H as <- H.
    destruct l as [|x l]; [done|]. injection H as <- H.
    assert (40%N ∈ cap ++ [41%N]) as Hin by (rewrite H; set_solver).
    rewrite Forall_forall in Hn0. apply elem_of_app in Hin as [Hin|Hin]; [by destruct (Hn0 _ Hin)|set_solver].
Qed.

(** A match that starts before a link and reaches into it captures that
    link's target. *)
Lemma overlapping_match pre text target post text0 cap rest :
  is_text text -> is_target target -> 41%N ∉ text -> is_text text0 -> is_target cap ->
  pre ++ link text target ++ post = text0 ++ [93%N; 40%N] ++ cap ++ [41%N] ++ rest ->
  cap = target \/ exists pre', pre = text0 ++ [93%N; 40%N] ++ cap ++ [41%N] ++ pre' /\
                       rest = pre' ++ link text target ++ post.
Proof.
  intros Ht Htg H41 Ht0 Hcap Heq.
  pose proof (target_no_paren _ Htg) as Hn. pose proof (target_no_paren _ Hcap) as Hn0.
  replace (text0 ++ [93%N; 40%N] ++ cap ++ [41%N] ++ rest)
    with ((text0 ++ [93%N; 40%N] ++ cap ++ [41%N]) ++ rest) in Heq
    by (simpl; by rewrite <- !app_assoc; simpl; rewrite <- app_assoc).
  apply app_eq_app in Heq as (l & [[-> ->]|[HM HL]]).
  { right. exists l. split; [|done]. simpl. rewrite <- !app_assoc. simpl. by rewrite <- app_assoc. }
  destruct (decide (l = [])) as [->|Hl].
  { right. exists []. rewrite app_nil_r in HM. by split. }
  left. apply app_eq_app in HL as (k & [[HL ->]|[-> ->]]).
  - destruct k as [|x k _] using rev_ind.
    { rewrite app_nil_r in HL. subst l. apply (overlapping_same pre text target [] text0); [done..|]. by rewrite app_nil_r. }
    exfalso. unfold link in HL.
    assert ((([91%N] ++ text ++ [93%N; 40%N] ++ target) ++ [41%N]) = (l ++ k) ++ [x]) as HL'.
    { rewrite <- (app_assoc l), <- HL. by rewrite <- !app_assoc. }
    apply app_inj_tail in HL' as [HL' _].
    assert (41%N ∈ l) as Hin.
    { destruct l as [|y l _] using rev_ind; [done|]. rewrite !app_assoc in HM.
      apply app_inj_tail in HM as [_ <-]. set_solver. }
    assert (41%N ∈ [91%N] ++ text ++ [93%N; 40%N] ++ target) as Hin' by (rewrite HL'; set_solver).
    rewrite Forall_forall in Hn. rewrite !elem_of_app in Hin'.
    destruct Hin' as [?|[?|[?|Hin']]]; [set_solver|done|set_solver|by destruct (Hn _ Hin')].
  - by apply (overlapping_same pre text target k text0).
Qed.

Lemma captures_complete fuel pre text target post :
  is_text text -> is_target target -> 41%N ∉ text ->
  (length (pre ++ link text target ++ post) <= fuel)%nat ->
  target ∈ captures_fuel fuel (pre ++ link text target ++ post).
Proof.
  intros Ht Htg H41. revert pre. induction fuel as [|fuel IH]; intros pre Hlen.
  { exfalso. rewrite length_app in Hlen. simpl in Hlen. lia. }
  destruct pre as [|c pre].
  - change ([] ++ link text target ++ post) with (link text target ++ post).
    change (link text target ++ post) with (91%N :: ((text ++ [93%N; 40%N] ++ target ++ [41%N]) ++ post)).
    cbn [captures_fuel].
    change (91%N :: ((text ++ [93%N; 40%N] ++ target ++ [41%N]) ++ post)) with (link text target ++ post).
    rewrite match_link_complete by done. left.
  - change ((c :: pre) ++ link text target ++ post) with (c :: (pre ++ link text target ++ post)).
    assert (Hlen' : (length (pre ++ link text target ++ post) <= fuel)%nat)
      by (rewrite length_app in Hlen |- *; cbn [length] in Hlen; lia).
    clear Hlen. cbn [captures_fuel].
    destruct (match_atoms LINK_RE false (c :: (pre ++ link text target ++ post))) as [[cap rest]|] eqn:Hm;
      [|by apply IH].
    apply match_link_sound in Hm as (text0 & Hs & Ht0 & Hcap).
    assert (Hs' : pre ++ link text target ++ post = text0 ++ [93%N; 40%N] ++ cap ++ [41%N] ++ rest).
    { apply (f_equal tail) in Hs. cbn [tail] in Hs. rewrite Hs. unfold link. by rewrite <- !app_assoc. }
    clear Hs. rename Hs' into Hs.
    apply (overlapping_match pre text target post text0 cap rest) in Hs as [->|(pre' & -> & ->)];
      [left|right; apply IH|done..].
    revert Hlen'. generalize (link text target ++ post). intros L. rewrite !length_app. lia.
Qed.

(** ** Prose *)

(** The lines outside fenced blocks: a line whose first non-blank text is
    three ticks opens or closes a block. *)
Definition is_fence_line (line : str) : bool :=
  starts_with [tick; tick; tick] (trim_start line).
Fixpoint prose (in_fence : bool) (ls : list str) : list str :=
  match ls with
  | [] => []
  | l :: ls => if is_fence_line l then prose (negb in_fence) ls
               else if in_fence then prose in_fence ls
               else l :: prose in_fence ls
  end.
Definition prose_lines (text : str) : list str := prose false (split_inclusive text).

(** [m] is [s] with some characters blanked. *)
Definition blanked (m s : str) : Prop := Forall2 (fun x y => x = y \/ x = space) m s.

Lemma spaces_blanked s : blanked (spaces (length s)) s.
Proof. induction s as [|c s IH]; [constructor|]. constructor; [by right|done]. Qed.

Lemma mask_from_blanked k s : blanked (mask_from k s) s.
Proof.
  revert k. induction s as [|c s IH]; intros [|k]; cbn [mask_from]; [constructor..| |].
  - destruct (c =? tick)%N; [|constructor; [by left|apply IH]].
    destruct (closing_run _ _ _ _); constructor; try (by right); apply IH.
  - constructor; [by right|apply IH].
Qed.

Definition no_ws (t : str) : Prop := Forall (fun c => is_whitespace c = false) t.
Definition ends_ws (x : str) : Prop := x = [] \/ exists x' c, x = x' ++ [c] /\ is_whitespace c = true.
Definition infix (t s : str) : Prop := exists a b, s = a ++ t ++ b.

(** A text without white space inside a concatenation whose first part
    ends in white space lies in one of the parts. *)
Lemma infix_app t x y :
  t <> [] -> no_ws t -> ends_ws x -> infix t (x ++ y) -> infix t x \/ infix t y.
Proof.
  intros Hne Ht Hx (a & b & H). unfold infix.
  apply app_eq_app in H as (l & [[-> H]|[-> ->]]); [|right; by exists l, b].
  apply app_eq_app in H as (k & [[-> H]|[-> ->]]); [|left; by exists a, k].
  destruct l as [|c l _] using rev_ind; [right; exists [], b; simpl in *; by rewrite H|].
  exfalso. destruct Hx as [Hx|(x' & d & Hx & Hd)]; [by destruct a, l|].
  rewrite app_assoc in Hx. apply app_inj_tail in Hx as [_ ->].
  unfold no_ws in Ht. rewrite !Forall_app in Ht. destruct Ht as [[_ Ht] _].
  apply Forall_cons in Ht as [Ht _]. congruence.
Qed.

Lemma spaces_no_infix t n : t <> [] -> no_ws t -> ~ infix t (spaces n).
Proof.
  intros Hne Ht (a & b & H). destruct t as [|c t]; [done|]. apply Forall_cons in Ht as [Hc _].
  assert (c ∈ spaces n) as Hin by (rewrite H; set_solver).
  unfold spaces in Hin. apply list_elem_of_In, repeat_spec in Hin as ->. done.
Qed.

Lemma spaces_ends_ws n : ends_ws (spaces n).
Proof.
  destruct n as [|n]; [by left|]. right. exists (spaces n), space. split; [|done].
  unfold spaces. simpl. apply repeat_cons.
Qed.

Lemma blanked_ends_ws m l : blanked m l -> line_aligned l -> ends_ws m.
Proof.
  intros H [->|[l' ->]]; [inversion H; by left|].
  apply Forall2_app_inv_r in H as (m1 & m2 & _ & H & ->). inversion H as [|x ? ? ? Hx H']; subst.
  inversion H'; subst. right. exists m1, x. split; [done|]. by destruct Hx as [->| ->].
Qed.

Lemma mask_lines_infix t in_fence ls :
  t <> [] -> no_ws t ->
  (forall ls1 l ls2, ls = ls1 ++ l :: ls2 -> ls2 <> [] -> line_aligned l) ->
  infix t (mask_lines in_fence ls) ->
  exists l, l ∈ prose in_fence ls /\ infix t (mask_inline_code l).
Proof.
  intros Hne Ht. revert in_fence. induction ls as [|l ls IH]; intros in_fence Hal Hin; simpl in *.
  - by apply (spaces_no_infix t 0) in Hin.
  - assert (IH' : forall f, infix t (mask_lines f ls) ->
      exists l, l ∈ prose f ls /\ infix t (mask_inline_code l)).
    { intros f. apply IH. intros ls1 l' ls2 -> Hn. by apply (Hal (l :: ls1) l' ls2). }
    unfold is_fence_line in *. destruct (starts_with _ _).
    { apply infix_app in Hin as [Hin|Hin]; [by apply spaces_no_infix in Hin|by apply IH'|done..|].
      apply spaces_ends_ws. }
    destruct in_fence.
    { apply infix_app in Hin as [Hin|Hin]; [by apply spaces_no_infix in Hin|by apply IH'|done..|].
      apply spaces_ends_ws. }
    destruct (decide (ls = [])) as [->|Hls].
    { simpl in Hin. rewrite app_nil_r in Hin. exists l. split; [left|done]. }
    apply infix_app in Hin as [Hin|Hin]; [| |done..|].
    + exists l. split; [left|done].
    + destruct (IH' _ Hin) as (l' & ? & ?). exists l'. split; [by right|done].
    + eapply blanked_ends_ws; [apply mask_from_blanked|]. by apply (Hal [] l ls).
Qed.

Lemma target_no_ws t : is_target t -> t <> [] /\ no_ws t.
Proof.
  intros [Hh H]. split; [by intros ->|]. eapply Forall_impl; [exact H|].
  intros c Hc. unfold target_char in Hc. by to_prop.
Qed.

(** Every scanned target is an absolute [.md] path without white space
    or parentheses, written as such in the body, on a line outside fenced
    blocks and at a place of that line that inline-code masking leaves
    untouched: nothing inside code is ever a link. *)
Theorem scan_links_outside_code text t :
  t ∈ scan_links text ->
  (exists p, t = [47%N] ++ p) /\ (exists p, t = p ++ lit ".md") /\
  Forall (fun c => target_char c = true) t /\
  exists line before after masked_before masked_after,
    line ∈ prose_lines text /\ line = before ++ t ++ after /\
    mask_inline_code line = masked_before ++ t ++ masked_after /\
    length masked_before = length before.
Proof.
  unfold scan_links. intros Hin. apply list_elem_of_In, filter_In in Hin as [Hin Ht].
  apply andb_prop in Ht as [H1%starts_with_spec H2%ends_with_spec].
  apply list_elem_of_In, captures_sound in Hin as (b & txt & a & Hm & _ & Htgt).
  destruct (target_no_ws _ Htgt) as [Hne Hws].
  split_and!; [done|done|apply Htgt|].
  assert (infix t (mask_code text)) as Hin.
  { exists (b ++ [91%N] ++ txt ++ [93%N; 40%N]), ([41%N] ++ a). rewrite Hm.
    unfold link. by rewrite <- !app_assoc. }
  apply mask_lines_infix in Hin as (line & Hl & m1 & m2 & Hmask); [|done..|].
  - pose proof (mask_from_blanked 0 line) as Hb. unfold mask_inline_code in *. rewrite Hmask in Hb.
    apply Forall2_app_inv_l in Hb as (b1 & b2 & Hb1 & Hb & Hline).
    apply Forall2_app_inv_l in Hb as (t' & b3 & Hbt & _ & ->).
    assert (t' = t) as ->.
    { clear -Hbt Hws. induction Hbt as [|x y t t' Hxy _ IH]; [done|].
      apply Forall_cons in Hws as [Hx Hws]. rewrite IH by done.
      destruct Hxy as [->| ->]; [done|discriminate Hx]. }
    exists line, b1, b3, m1, m2. split_and!; [done..|]. by apply Forall2_length in Hb1.
  - intros ls1 l ls2 Hs Hn. by destruct (split_inclusive_lines _ _ _ _ Hs) as (_ & _ & [|?]).
Qed.

Lemma scan_links_outside_code_witness :
  let text := lit "see [a](/x.md), `[b](/y.md)`" in
  lit "/x.md" ∈ scan_links text /\ (exists p, lit "/x.md" = p ++ lit ".md").
Proof.
  intros text. assert (H : lit "/x.md" ∈ scan_links text) by (vm_compute; left).
  split; [exact H|]. exact (proj1 (proj2 (scan_links_outside_code text _ H))).
Defined.

(** Conversely no prose link is missed: in a body without back ticks,
    wherever [\[text\](/target.md)] occurs, whatever surrounds it, its
    target is scanned (the text having no [\]] or [)], the target no white
    space or parentheses). *)
Theorem scan_links_complete pre text target post :
  tick ∉ pre ++ link text target ++ post ->
  93%N ∉ text -> 41%N ∉ text -> is_target target -> ends_with (lit ".md") target = true ->
  target ∈ scan_links (pre ++ link text target ++ post).
Proof.
  intros Ht H93 H41 Htgt Hmd.
  assert (Hmask : forall s, tick ∉ s -> mask_code s = s).
  { intros s Hs. unfold mask_code. 
    assert (Hl : Forall (fun l => tick ∉ l) (split_inclusive s)).
    { apply Forall_forall. intros l Hl Hin. apply Hs. rewrite <- (split_inclusive_concat s).
      apply list_elem_of_In, in_concat. exists l. by rewrite <- !list_elem_of_In. }
    rewrite <- (split_inclusive_concat s) at 2. induction Hl as [|l ls Hl _ IH]; [done|]. simpl.
    destruct (starts_with _ (trim_start l)) eqn:Hst.
    { apply starts_with_spec in Hst as [r Hr].
      destruct (trim_start_if_spec is_whitespace l) as (a & Hla & _).
      unfold trim_start in Hr. rewrite Hr in Hla. rewrite Hla in Hl. set_solver. }
    rewrite IH. f_equal. unfold mask_inline_code. clear -Hl.
    induction l as [|c l IH]; [done|]. apply not_elem_of_cons in Hl as [Hc Hl]. simpl.
    destruct (N.eqb_spec c tick); [congruence|]. by rewrite IH. }
  unfold scan_links. rewrite Hmask by done. apply list_elem_of_In, filter_In. split.
  - apply list_elem_of_In. apply captures_complete; [|done..].
    apply Forall_forall. intros c Hc. unfold not_close. destruct (N.eqb_spec c 93); [by subst|done].
  - rewrite Hmd, andb_true_r. destruct Htgt as [Hh _]. destruct target; [done|]. by injection Hh as ->.
Qed.

Lemma scan_links_complete_witness :
  lit "/b.md" ∈ scan_links (lit "[x](/a " ++ link (lit "t") (lit "/b.md") ++ lit ")").
Proof.
  apply scan_links_complete; [| | | |done]; try (apply (bool_decide_unpack _); vm_compute; exact I).
Defined.
