(* ===== verification/Graph.v ===== *)
(** * The link graph

    [crates/mycelium-core/src/graph.rs]: nodes, edges, broken links and
    orphans of a bundle.  [HashMap] and [HashSet] are finite maps and
    sets; their iteration order is erased by the final sorts. *)
From S2P Require Import Prelude Text Concept Links.

Record Node := mkNode { node_id : str; node_title : str; node_type : str }.

(** [Edge] and [BrokenLink] are [(from, to)] pairs with the derived
    lexicographic order. *)
Definition Edge : Type := str * str.
Definition BrokenLink : Type := str * str.
Definition edge_cmp (a b : Edge) : comparison :=
  then_with (str_cmp a.1 b.1) (str_cmp a.2 b.2).

Record GraphHealth := mkGraphHealth {
  concept_count : nat; edge_count : nat; broken_link_count : nat; orphan_count : nat }.

Record Graph := mkGraph {
  nodes : gmap str Node;
  edges : list Edge;
  broken_links : list BrokenLink;
  orphans : list str }.

Definition Graph_health (g : Graph) : GraphHealth :=
  mkGraphHealth (size (nodes g)) (length (edges g)) (length (broken_links g)) (length (orphans g)).

Definition node_of (c : Concept) : Node :=
  mkNode (source_path c)
    (match fm_title (frontmatter c) with Some t => t | None => source_path c end)
    (concept_type (frontmatter c)).

(** The first loop. *)
Definition insert_nodes (cs : list Concept) : gmap str Node :=
  fold_left (fun m c => <[source_path c := node_of c]> m) cs ∅.

Record LinkSets := mkSets {
  ls_edges : gset Edge; ls_broken : gset BrokenLink; ls_linked : gset str }.

(** The body of the inner loop. *)
Definition add_link (known : gset str) (from : str) (s : LinkSets) (target : str) : LinkSets :=
  let '(mkSets e b l) := s in
  let '(e, b) := if decide (target ∈ known) then ({[(from, target)]} ∪ e, b)
                 else (e, {[(from, target)]} ∪ b) in
  mkSets e b ({[target]} ∪ ({[from]} ∪ l)).

Definition add_links (known : gset str) (s : LinkSets) (c : Concept) : LinkSets :=
  fold_left (add_link known (source_path c)) (scan_links (body c)) s.

Definition build_graph (bundle : Bundle) : Graph :=
  let ns := insert_nodes (concepts bundle) in
  let known : gset str := list_to_set (source_path <$> concepts bundle) in
  let sets := fold_left (add_links known) (concepts bundle) (mkSets ∅ ∅ ∅) in
  mkGraph ns
    (sort_by edge_cmp (elements (ls_edges sets)))
    (sort_by edge_cmp (elements (ls_broken sets)))
    (sort_by str_cmp
       (retain (fun id => negb (bool_decide (id ∈ ls_linked sets))) (map_to_list ns).*1)).

Definition build_graph_from_concepts (cs : list Concept) : Graph :=
  build_graph (mkBundle cs None [] []).

(** ** The order on edges *)
Lemma edge_cmp_eq a b : edge_cmp a b = Eq <-> a = b.
Proof.
  unfold edge_cmp, then_with. destruct a as [a1 a2], b as [b1 b2]; simpl.
  destruct (str_cmp a1 b1) eqn:E.
  - apply str_cmp_eq in E as ->. rewrite str_cmp_eq. naive_solver.
  - split; [done|]. intros [= -> ->]. by rewrite str_cmp_refl in E.
  - split; [done|]. intros [= -> ->]. by rewrite str_cmp_refl in E.
Qed.

Lemma edge_cmp_opp a b : edge_cmp b a = CompOpp (edge_cmp a b).
Proof.
  unfold edge_cmp, then_with. rewrite (str_cmp_opp a.1 b.1), (str_cmp_opp a.2 b.2).
  by destruct (str_cmp a.1 b.1).
Qed.

Lemma edge_cmp_lt_trans a b c : edge_cmp a b = Lt -> edge_cmp b c = Lt -> edge_cmp a c = Lt.
Proof.
  unfold edge_cmp, then_with. destruct (str_cmp a.1 b.1) eqn:E1; [|intros _|done].
  - apply str_cmp_eq in E1 as ->. destruct (str_cmp b.1 c.1); [|done..]. apply str_cmp_lt_trans.
  - destruct (str_cmp b.1 c.1) eqn:E2; [|intros _|done].
    + apply str_cmp_eq in E2 as <-. by rewrite E1.
    + by rewrite (str_cmp_lt_trans _ _ _ E1 E2).
Qed.

(** ** The loops *)

(** [c] contains a scanned link to [target]. *)
Definition links_to (c : Concept) (target : str) : Prop := target ∈ scan_links (body c).

Lemma add_link_spec known from s t :
  let s' := add_link known from s t in
  (forall e, e ∈ ls_edges s' <-> e ∈ ls_edges s \/ (t ∈ known /\ e = (from, t))) /\
  (forall e, e ∈ ls_broken s' <-> e ∈ ls_broken s \/ (t ∉ known /\ e = (from, t))) /\
  (forall x, x ∈ ls_linked s' <-> x ∈ ls_linked s \/ x = from \/ x = t).
Proof.
  destruct s as [e b l]. simpl. destruct (decide (t ∈ known)); simpl; split_and!; intros x;
    rewrite ?elem_of_union, ?elem_of_singleton; tauto.
Qed.

Lemma add_link_list known from ts s :
  let s' := fold_left (add_link known from) ts s in
  (forall f t, (f, t) ∈ ls_edges s' <-> (f, t) ∈ ls_edges s \/ (t ∈ known /\ f = from /\ t ∈ ts)) /\
  (forall f t, (f, t) ∈ ls_broken s' <-> (f, t) ∈ ls_broken s \/ (t ∉ known /\ f = from /\ t ∈ ts)) /\
  (forall x, x ∈ ls_linked s' <-> x ∈ ls_linked s \/ exists t, t ∈ ts /\ (x = from \/ x = t)).
Proof.
  revert s. induction ts as [|t ts IH]; intros s; simpl.
  - split_and!; intros; rewrite ?elem_of_nil; [tauto..|]. split; [by left|].
    intros [?|(t & H & _)]; [done|]. by apply elem_of_nil in H.
  - destruct (IH (add_link known from s t)) as (He & Hb & Hl).
    destruct (add_link_spec known from s t) as (He' & Hb' & Hl').
    split_and!.
    + intros f u. rewrite He, He', elem_of_cons. split.
      * intros [[?|[? [= -> ->]]]|(? & -> & ?)]; auto 6.
      * intros [?|(? & -> & [->|?])]; auto 6.
    + intros f u. rewrite Hb, Hb', elem_of_cons. split.
      * intros [[?|[? [= -> ->]]]|(? & -> & ?)]; auto 6.
      * intros [?|(? & -> & [->|?])]; auto 6.
    + intros x. rewrite Hl, Hl'. split.
      * intros [[?|Hx]|(u & Hu & Hx)]; [by left|right; exists t|right; exists u];
          rewrite elem_of_cons; auto.
      * intros [?|(u & [->|Hu]%elem_of_cons & Hx)]; [by left; left|by left; right|].
        right. by exists u.
Qed.

Lemma add_links_spec known cs s :
  let s' := fold_left (add_links known) cs s in
  (forall f t, (f, t) ∈ ls_edges s' <-> (f, t) ∈ ls_edges s \/
     (t ∈ known /\ exists c, c ∈ cs /\ source_path c = f /\ links_to c t)) /\
  (forall f t, (f, t) ∈ ls_broken s' <-> (f, t) ∈ ls_broken s \/
     (t ∉ known /\ exists c, c ∈ cs /\ source_path c = f /\ links_to c t)) /\
  (forall x, x ∈ ls_linked s' <-> x ∈ ls_linked s \/
     exists c t, c ∈ cs /\ links_to c t /\ (x = source_path c \/ x = t)).
Proof.
  revert s. induction cs as [|c cs IH]; intros s; simpl.
  - split_and!; intros; (split; [by left|]).
    1, 2: intros [?|(_ & c & H & _)]; [done|by apply elem_of_nil in H].
    intros [?|(c & t & H & _)]; [done|by apply elem_of_nil in H].
  - destruct (IH (add_links known s c)) as (He & Hb & Hl).
    destruct (add_link_list known (source_path c) (scan_links (body c)) s) as (He' & Hb' & Hl').
    unfold add_links in He at 2, Hb at 2, Hl at 2. unfold links_to in *. split_and!.
    + intros f t. rewrite He, He'. split.
      * intros [[?|(? & -> & ?)]|(? & d & ? & ? & ?)]; [by left|right..]; (split; [done|]);
          [exists c|exists d]; rewrite elem_of_cons; auto.
      * intros [?|(? & d & [->|?]%elem_of_cons & <- & ?)]; [by left; left|by left; right|].
        right. split; [done|]. by exists d.
    + intros f t. rewrite Hb, Hb'. split.
      * intros [[?|(? & -> & ?)]|(? & d & ? & ? & ?)]; [by left|right..]; (split; [done|]);
          [exists c|exists d]; rewrite elem_of_cons; auto.
      * intros [?|(? & d & [->|?]%elem_of_cons & <- & ?)]; [by left; left|by left; right|].
        right. split; [done|]. by exists d.
    + intros x. rewrite Hl, Hl'. split.
      * intros [[?|(t & ? & Hx)]|(d & t & ? & ? & Hx)]; [by left|right..];
          [exists c, t|exists d, t]; rewrite elem_of_cons; auto.
      * intros [?|(d & t & [->|?]%elem_of_cons & ? & Hx)]; [by left; left|left; right; by exists t|].
        right. by exists d, t.
Qed.

Lemma insert_nodes_spec cs p :
  insert_nodes cs !! p = node_of <$> find_first (fun c => str_eqb (source_path c) p) (rev cs).
Proof.
  unfold insert_nodes. induction cs as [|c cs IH] using rev_ind; [done|].
  rewrite fold_left_app, rev_app_distr. simpl.
  destruct (str_eqb (source_path c) p) eqn:E.
  - apply str_eqb_eq in E as <-. by rewrite lookup_insert_eq.
  - rewrite lookup_insert_ne; [done|]. intros <-. by rewrite (proj2 (str_eqb_eq _ _) eq_refl) in E.
Qed.

Lemma insert_nodes_dom cs p : is_Some (insert_nodes cs !! p) <-> p ∈ source_path <$> cs.
Proof.
  rewrite insert_nodes_spec, fmap_is_Some, list_elem_of_fmap. split.
  - intros [c Hc]. exists c. revert Hc.
    enough (forall l, find_first (fun c => str_eqb (source_path c) p) l = Some c ->
      p = source_path c /\ c ∈ l) as H.
    { intros [? Hin]%H. split; [done|]. apply list_elem_of_In. apply in_rev. by apply list_elem_of_In. }
    induction l as [|d l IH]; simpl; [done|]. destruct (str_eqb (source_path d) p) eqn:E.
    + intros [= ->]. apply str_eqb_eq in E. split; [done|left].
    + intros [? ?]%IH. split; [done|by right].
  - intros (c & -> & Hin). apply list_elem_of_In, in_rev, list_elem_of_In in Hin.
    induction (rev cs) as [|d l IH]; simpl; [by apply not_elem_of_nil in Hin|].
    destruct (str_eqb (source_path d) (source_path c)) eqn:E; [by eexists|].
    apply elem_of_cons in Hin as [->|Hin]; [|by apply IH].
    by rewrite (proj2 (str_eqb_eq _ _) eq_refl) in E.
Qed.

Lemma elem_sorted_elements (X : gset Edge) e : e ∈ sort_by edge_cmp (elements X) <-> e ∈ X.
Proof. by rewrite sort_by_perm, elem_of_elements. Qed.

(** Strictly increasing: sorted and without duplicates. *)
Definition increasing {A} (cmp : A -> A -> comparison) : list A -> Prop :=
  StronglySorted (fun x y => cmp x y = Lt).

Lemma sort_by_increasing {A} (cmp : A -> A -> comparison) l :
  (forall x y, cmp x y = Eq <-> x = y) -> TotalOn cmp (fun _ => True) -> NoDup l ->
  increasing cmp (sort_by cmp l).
Proof.
  intros Heq HT Hnd. rewrite <- (sort_by_perm cmp l) in Hnd.
  assert (Hs : StronglySorted (ordered cmp) (sort_by cmp l))
    by (eapply sort_by_sorted; [exact HT|by apply Forall_true]).
  induction Hs as [|x l' _ IH Hx]; [constructor|].
  apply NoDup_cons in Hnd as [Hnin Hnd]. constructor; [by apply IH|].
  rewrite Forall_forall in Hx |- *. intros y Hy. specialize (Hx y Hy). unfold ordered in Hx.
  destruct (cmp x y) eqn:E; [|done..]. apply Heq in E as ->. done.
Qed.

Lemma edge_cmp_total P : TotalOn edge_cmp P.
Proof.
  split; unfold ordered.
  - intros x y _ _. rewrite (edge_cmp_opp x y). destruct (edge_cmp x y); simpl; auto.
  - intros x y z _ _ _ Hxy Hyz.
    destruct (edge_cmp x y) eqn:E1; [apply edge_cmp_eq in E1 as ->; done| |done].
    destruct (edge_cmp y z) eqn:E2; [apply edge_cmp_eq in E2 as <-; congruence| |done].
    by rewrite (edge_cmp_lt_trans _ _ _ E1 E2).
Qed.

Lemma increasing_ext {A} (cmp : A -> A -> comparison) l1 l2 :
  (forall x y, cmp x y = Eq <-> x = y) ->
  (forall x y z, cmp x y = Lt -> cmp y z = Lt -> cmp x z = Lt) ->
  increasing cmp l1 -> increasing cmp l2 -> (forall x, x ∈ l1 <-> x ∈ l2) -> l1 = l2.
Proof.
  intros Heq Htr H1. revert l2. induction H1 as [|x l1 H1 IH Hx]; intros l2 H2 Hin.
  - destruct l2 as [|y l2]; [done|]. exfalso. by apply (not_elem_of_nil y), Hin; left.
  - destruct H2 as [|y l2 H2 Hy]; [exfalso; by apply (not_elem_of_nil x), Hin; left|].
    rewrite Forall_forall in Hx, Hy.
    assert (Hirr : forall z, cmp z z <> Lt) by (intros z; by rewrite (proj2 (Heq z z) eq_refl)).
    assert (x = y) as ->.
    { destruct (proj1 (elem_of_cons _ _ _) (proj1 (Hin x) ltac:(left))) as [?|Hxy]; [done|].
      destruct (proj1 (elem_of_cons _ _ _) (proj2 (Hin y) ltac:(left))) as [?|Hyx]; [done|].
      destruct (Hirr x). eapply Htr; [by apply Hx|by apply Hy]. }
    f_equal. apply IH; [done|]. intros z. split; intros Hz.
    + destruct (proj1 (elem_of_cons _ _ _) (proj1 (Hin z) ltac:(by right))) as [->|?]; [|done].
      by destruct (Hirr y); apply Hx.
    + destruct (proj1 (elem_of_cons _ _ _) (proj2 (Hin z) ltac:(by right))) as [->|?]; [|done].
      by destruct (Hirr y); apply Hy.
Qed.

Lemma find_first_unique cs p c :
  NoDup (source_path <$> cs) -> c ∈ cs -> source_path c = p ->
  find_first (fun c => str_eqb (source_path c) p) cs = Some c.
Proof.
  intros Hnd Hin <-. induction cs as [|d cs IH]; [by apply not_elem_of_nil in Hin|].
  rewrite fmap_cons in Hnd. apply NoDup_cons in Hnd as [Hn Hnd]. simpl.
  apply elem_of_cons in Hin as [<-|Hin]; [by rewrite (proj2 (str_eqb_eq _ _) eq_refl)|].
  destruct (str_eqb (source_path d) (source_path c)) eqn:E; [|by apply IH].
  apply str_eqb_eq in E. destruct Hn. rewrite E. by apply list_elem_of_fmap_2.
Qed.

Lemma rev_perm {A} (l : list A) : rev l ≡ₚ l.
Proof. symmetry. apply Permutation_rev. Qed.

Lemma insert_nodes_perm cs1 cs2 :
  cs1 ≡ₚ cs2 -> NoDup (source_path <$> cs1) -> insert_nodes cs1 = insert_nodes cs2.
Proof.
  intros Hp Hnd. apply map_eq. intros p.
  destruct (decide (p ∈ source_path <$> cs1)) as [Hin|Hin].
  - apply list_elem_of_fmap in Hin as (c & -> & Hin). rewrite !insert_nodes_spec.
    rewrite !(find_first_unique _ _ c); [done|..]; rewrite ?rev_perm, <- ?Hp; done.
  - assert (H1 : insert_nodes cs1 !! p = None).
    { apply eq_None_not_Some. by rewrite insert_nodes_dom. }
    rewrite H1. symmetry. apply eq_None_not_Some. by rewrite insert_nodes_dom, <- Hp.
Qed.

(** What the graph of a bundle is: edges and broken links are exactly
    the scanned links whose target is, respectively is not, a concept of
    the bundle, each listed once in increasing order; there is one node per
    path (the last concept of that path gives its title and type); the
    orphans are, in increasing order, the nodes that no scanned link leaves
    or reaches, so a concept with only a broken link is not one; the health
    record counts these. *)
Theorem build_graph_spec b :
  let g := build_graph b in
  let cs := concepts b in
  let scanned f t := exists c, c ∈ cs /\ source_path c = f /\ links_to c t in
  let is_node p := p ∈ source_path <$> cs in
  (forall f t, (f, t) ∈ edges g <-> scanned f t /\ is_node t) /\
  (forall f t, (f, t) ∈ broken_links g <-> scanned f t /\ ~ is_node t) /\
  increasing edge_cmp (edges g) /\ increasing edge_cmp (broken_links g) /\
  (forall p, nodes g !! p = node_of <$> find_first (fun c => str_eqb (source_path c) p) (rev cs)) /\
  increasing str_cmp (orphans g) /\
  (forall p, p ∈ orphans g <->
     is_node p /\ (forall f t, (f, t) ∈ edges g \/ (f, t) ∈ broken_links g -> p <> f /\ p <> t)) /\
  Graph_health g = mkGraphHealth (size (nodes g)) (length (edges g)) (length (broken_links g))
                     (length (orphans g)).
Proof.
  intros g cs scanned is_node.
  set (known := list_to_set (source_path <$> cs) : gset str).
  destruct (add_links_spec known cs (mkSets ∅ ∅ ∅)) as (He & Hb & Hl).
  assert (Hk : forall t, t ∈ known <-> is_node t) by (intros t; apply elem_of_list_to_set).
  assert (Hedge : forall f t, (f, t) ∈ edges g <-> scanned f t /\ is_node t).
  { intros f t. unfold g, build_graph; simpl. rewrite elem_sorted_elements.
    fold cs. fold known. rewrite He, Hk. simpl. rewrite elem_of_empty. unfold scanned. tauto. }
  assert (Hbrk : forall f t, (f, t) ∈ broken_links g <-> scanned f t /\ ~ is_node t).
  { intros f t. unfold g, build_graph; simpl. rewrite elem_sorted_elements.
    fold cs. fold known. rewrite Hb, Hk. simpl. rewrite elem_of_empty. unfold scanned. tauto. }
  split_and!; try done.
  - apply sort_by_increasing; [apply edge_cmp_eq|apply edge_cmp_total|apply NoDup_elements].
  - apply sort_by_increasing; [apply edge_cmp_eq|apply edge_cmp_total|apply NoDup_elements].
  - apply insert_nodes_spec.
  - apply sort_by_increasing; [apply str_cmp_eq|apply str_cmp_total|].
    apply NoDup_ListNoDup, List.NoDup_filter, NoDup_ListNoDup, NoDup_fst_map_to_list.
  - intros p. unfold g, build_graph; simpl. rewrite sort_by_perm.
    rewrite list_elem_of_In, filter_In, <- list_elem_of_In, negb_true_iff, bool_decide_eq_false.
    fold cs. fold known. rewrite Hl.
    assert (p ∈ (map_to_list (insert_nodes cs)).*1 <-> is_node p) as ->.
    { unfold is_node. rewrite <- insert_nodes_dom, list_elem_of_fmap. split.
      - intros ([q n] & -> & Hin%elem_of_map_to_list). by eexists.
      - intros [n Hn]. exists (p, n). split; [done|]. by apply elem_of_map_to_list. }
    split; intros [Hp Hn]; (split; [done|]).
    + intros f t Hft. assert (scanned f t) as (c & Hc & <- & Hlk).
      { destruct Hft as [Hft|Hft]; [by apply Hedge in Hft as []|by apply Hbrk in Hft as []]. }
      split; intros ->; apply Hn; right; exists c, t; auto.
    + intros [H|(c & t & Hc & Hlk & Hp')]; [simpl in H; by apply elem_of_empty in H|].
      destruct (Hn (source_path c) t) as [H1 H2]; [|by destruct Hp'].
      destruct (decide (is_node t)); [left; apply Hedge|right; apply Hbrk]; (split; [|done]); by exists c.
Qed.

(** The graph does not depend on the order in which the bundle lists
    its concepts (their paths being distinct). *)
Theorem build_graph_deterministic cs1 cs2 :
  cs1 ≡ₚ cs2 -> NoDup (source_path <$> cs1) ->
  build_graph_from_concepts cs1 = build_graph_from_concepts cs2.
Proof.
  intros Hp Hnd.
  pose proof (build_graph_spec (mkBundle cs1 None [] [])) as (He1 & Hb1 & Hs1 & Hs1' & _ & Ho1 & Hm1 & _).
  pose proof (build_graph_spec (mkBundle cs2 None [] [])) as (He2 & Hb2 & Hs2 & Hs2' & _ & Ho2 & Hm2 & _).
  unfold build_graph_from_concepts.
  set (g1 := build_graph (mkBundle cs1 None [] [])) in *.
  set (g2 := build_graph (mkBundle cs2 None [] [])) in *.
  change (concepts (mkBundle cs1 None [] [])) with cs1 in *.
  change (concepts (mkBundle cs2 None [] [])) with cs2 in *.
  assert (Hperm : forall c, c ∈ cs1 <-> c ∈ cs2) by (intros c; by rewrite Hp).
  assert (Hpath : forall p, p ∈ source_path <$> cs1 <-> p ∈ source_path <$> cs2)
    by (intros p; by rewrite Hp).
  assert (E1 : edges g1 = edges g2).
  { apply (increasing_ext edge_cmp _ _ edge_cmp_eq edge_cmp_lt_trans); [done..|].
    intros [f t]. rewrite He1, He2, Hpath. by setoid_rewrite Hperm. }
  assert (E2 : broken_links g1 = broken_links g2).
  { apply (increasing_ext edge_cmp _ _ edge_cmp_eq edge_cmp_lt_trans); [done..|].
    intros [f t]. rewrite Hb1, Hb2, Hpath. by setoid_rewrite Hperm. }
  assert (E3 : orphans g1 = orphans g2).
  { apply (increasing_ext str_cmp _ _ str_cmp_eq str_cmp_lt_trans); [done..|].
    intros p. by rewrite Hm1, Hm2, E1, E2, Hpath. }
  assert (E4 : nodes g1 = nodes g2) by by apply insert_nodes_perm.
  destruct g1, g2; simpl in *. by subst.
Qed.

Lemma build_graph_deterministic_witness :
  let c p t := mkConcept Frontmatter_default (lit "[x](" ++ lit t ++ lit ")") (lit p) in
  let a := c "/a.md"%string "/b.md"%string in let b := c "/b.md"%string "/z.md"%string in
  build_graph_from_concepts [a; b] = build_graph_from_concepts [b; a] /\
  edges (build_graph_from_concepts [a; b]) = [(lit "/a.md", lit "/b.md")].
Proof.
  intros c a b. split; [|by vm_compute].
  apply build_graph_deterministic; [constructor|]. apply (bool_decide_unpack _). by vm_compute.
Defined.
