(* ===== verification/Library.v ===== *)
(** * The book library

    [crates/mycelium-core/src/library.rs]: [book://] references, anchors,
    and the extraction of passages by anchor.  Offsets are byte offsets,
    as in the code; counters are [u32]. *)
From S2P Require Import Prelude Text.
Open Scope Z_scope.

Definition READ_PASSAGE_MAX_CHARS : nat := 128 * 1024.

(** ** References *)
Record BookRef := mkBookRef { br_slug : str; br_anchor : str }.

Definition parse_book_ref (resource : str) : option BookRef :=
  rest ← strip_prefix (lit "book://") resource;
  '(slug, anchor) ← split_once (lit "#") rest;
  if bool_decide (slug = []) || bool_decide (anchor = []) then None
  else Some (mkBookRef slug anchor).

(** ** Anchors *)
Inductive Anchor :=
| Chapter (index : Z) (slug : str)
| Section_ (chapter section : Z) (slug : str)
| Other (anchor : str).

Definition dash : char := 45.

(** [Anchor::parse] *)
Definition Anchor_parse (anchor : str) : Anchor :=
  let chapter :=
    match strip_prefix (lit "ch-") anchor with
    | Some rest =>
        match splitn 2 dash rest with
        | num :: parts =>
            match parse_u32 num with
            | Some index =>
                Some (if index =? 0 then Other anchor
                      else Chapter index (match parts with s :: _ => s | [] => [] end))
            | None => None
            end
        | [] => None
        end
    | None => None
    end in
  match chapter with
  | Some a => a
  | None =>
      match strip_prefix (lit "sec-") anchor with
      | Some rest =>
          match splitn 3 dash rest with
          | c :: s :: parts =>
              match parse_u32 c, parse_u32 s with
              | Some chapter, Some section =>
                  if (chapter =? 0) || (section =? 0) then Other anchor
                  else Section_ chapter section (match parts with x :: _ => x | [] => [] end)
              | _, _ => Other anchor
              end
          | _ => Other anchor
          end
      | None => Other anchor
      end
  end.

(** ** Headings *)
Record Passage := mkPassage { p_slug : str; p_anchor : str; p_text : str }.
Inductive PassageError := AnchorNotFound (anchor : str) | EmptyBook.

Record BookHeading := mkHeading { level : nat; offset : nat; anchor_id : option str }.

Definition hash : char := 35.

Definition parse_heading_line (line : str) : option (nat * option str) :=
  let trimmed := trim_end line in
  let hashes := (byte_len trimmed - byte_len (trim_start_if (N.eqb hash) trimmed))%nat in
  if (hashes =? 0)%nat || (6 <? hashes)%nat then None
  else
    let rest := slice_from trimmed hashes in
    if negb (starts_with [space] rest) then None
    else
      let title := trim_start rest in
      let id := t ← strip_suffix (lit "}") title;
                '(_, id) ← rsplit_once (lit "{#") t;
                Some (match strip_suffix (lit "}") id with Some i => i | None => id end) in
      Some (hashes, id).

(** A line that opens or closes a fenced block. *)
Definition fence_line (trimmed : str) : bool :=
  starts_with (lit "```") trimmed || starts_with (lit "~~~") trimmed.

(** The loop of [collect_headings]. *)
Fixpoint collect_from (in_fence : bool) (off : nat) (ls : list str) : list BookHeading :=
  match ls with
  | [] => []
  | line :: ls =>
      let trimmed := trim_start line in
      if fence_line trimmed then collect_from (negb in_fence) (off + byte_len line) ls
      else if negb in_fence && starts_with [hash] trimmed then
        match parse_heading_line trimmed with
        | Some (lvl, id) =>
            mkHeading lvl off id :: collect_from in_fence (off + byte_len line) ls
        | None => collect_from in_fence (off + byte_len line) ls
        end
      else collect_from in_fence (off + byte_len line) ls
  end.
Definition collect_headings (text : str) : list BookHeading :=
  collect_from false 0 (split_inclusive text).

Definition all_digits (s : str) : bool := negb (bool_decide (s = [])) && forallb is_ascii_digit s.

Definition chapter_number_of (id : str) : option Z :=
  match split dash id with
  | _ :: n :: _ => if all_digits n then parse_u32 n else None
  | _ => None
  end.

Definition section_numbers_of (id : str) : option (Z * Z) :=
  rest ← strip_prefix (lit "sec-") id;
  match splitn 3 dash rest with
  | c :: s :: _ =>
      if negb (all_digits c) || negb (all_digits s) then None
      else c ← parse_u32 c; s ← parse_u32 s; Some (c, s)
  | _ => None
  end.

(** ** Extraction *)
Definition has_id (h : BookHeading) : bool := bool_decide (is_Some (anchor_id h)).

(** The slice from heading [pos] to the first later heading satisfying
    [stop]. *)
Definition heading_slice (text : str) (hs : list BookHeading) (pos : nat)
    (stop : BookHeading -> bool) : str :=
  let start := match hs !! pos with Some h => offset h | None => 0%nat end in
  let e := match find_first stop (drop (S pos) hs) with
           | Some h => offset h
           | None => byte_len text
           end in
  slice text start e.

Definition is_section (chapter section : Z) (h : BookHeading) : bool :=
  match anchor_id h with
  | Some id => bool_decide (section_numbers_of id = Some (chapter, section))
  | None => false
  end.

Definition anchored_section (text : str) (chapter section : Z) : option str :=
  let headings := collect_headings text in
  if forallb (fun h => negb (has_id h)) headings then None
  else
    start ← position (is_section chapter section) headings;
    let lvl := match headings !! start with Some h => level h | None => 0%nat end in
    Some (heading_slice text headings start (fun h => (level h <=? lvl)%nat)).

Definition starts_chapter (h : BookHeading) : bool :=
  match anchor_id h with Some id => starts_with (lit "ch-") id | None => false end.
Definition is_chapter (index : Z) (h : BookHeading) : bool :=
  match anchor_id h with
  | Some id => starts_with (lit "ch-") id && bool_decide (chapter_number_of id = Some index)
  | None => false
  end.

Definition show_u32 (z : Z) : str := show_N (Z.to_N z).
Definition chapter_missing (index : Z) : PassageError :=
  AnchorNotFound (lit "ch-" ++ show_u32 index).
Definition section_missing (chapter section : Z) : PassageError :=
  AnchorNotFound (lit "sec-" ++ show_u32 chapter ++ lit "-" ++ show_u32 section).

(** The loop of [count_based_chapter]. *)
Fixpoint count_chapter (text : str) (index : Z) (seen : Z) (start : option nat) (off : nat)
    (in_fence : bool) (ls : list str) : result str PassageError :=
  match ls with
  | [] => ok_or (chapter_missing index) (slice_from text <$> start)
  | line :: ls =>
      let trimmed := trim_start line in
      let next := (off + byte_len line)%nat in
      if fence_line trimmed then count_chapter text index seen start next (negb in_fence) ls
      else if negb in_fence && starts_with (lit "# ") trimmed then
        let seen := wrap32 (seen + 1) in
        if seen =? index then count_chapter text index seen (Some off) next in_fence ls
        else if index <? seen then
          ok_or (chapter_missing index) ((fun s => slice text s off) <$> start)
        else count_chapter text index seen start next in_fence ls
      else count_chapter text index seen start next in_fence ls
  end.
Definition count_based_chapter (text : str) (index : Z) : result str PassageError :=
  count_chapter text index 0 None 0 false (split_inclusive text).

Definition extract_chapter (text : str) (index : Z) : result str PassageError :=
  let headings := collect_headings text in
  if existsb has_id headings then
    match position (is_chapter index) headings with
    | Some pos => Ok (heading_slice text headings pos starts_chapter)
    | None => Err (chapter_missing index)
    end
  else count_based_chapter text index.

(** The first loop of [count_based_section]: where the chapter starts. *)
Fixpoint chapter_start (chapter : Z) (seen : Z) (off : nat) (in_fence : bool) (ls : list str)
    : option nat :=
  match ls with
  | [] => None
  | line :: ls =>
      let trimmed := trim_start line in
      let next := (off + byte_len line)%nat in
      if fence_line trimmed then chapter_start chapter seen next (negb in_fence) ls
      else if negb in_fence && starts_with (lit "# ") trimmed then
        let seen := wrap32 (seen + 1) in
        if seen =? chapter then Some off else chapter_start chapter seen next in_fence ls
      else chapter_start chapter seen next in_fence ls
  end.

(** Its second loop, over the chapter's text. *)
Fixpoint count_section (text : str) (chapter section : Z) (seen : Z) (start : option nat)
    (off : nat) (in_fence : bool) (ls : list str) : result str PassageError :=
  match ls with
  | [] => ok_or (section_missing chapter section) (slice_from text <$> start)
  | line :: ls =>
      let trimmed := trim_start line in
      let next := (off + byte_len line)%nat in
      if fence_line trimmed then
        count_section text chapter section seen start next (negb in_fence) ls
      else if negb in_fence && (0 <? off)%nat && starts_with (lit "# ") trimmed then
        ok_or (section_missing chapter section) ((fun s => slice text s off) <$> start)
      else if negb in_fence && starts_with (lit "## ") trimmed then
        let seen := wrap32 (seen + 1) in
        if seen =? section then count_section text chapter section seen (Some off) next in_fence ls
        else if section <? seen then
          ok_or (section_missing chapter section) ((fun s => slice text s off) <$> start)
        else count_section text chapter section seen start next in_fence ls
      else count_section text chapter section seen start next in_fence ls
  end.

Definition count_based_section (text : str) (chapter section : Z) : result str PassageError :=
  (let? ch_start := ok_or (chapter_missing chapter)
       (chapter_start chapter 0 0 false (split_inclusive text)) in
   let chapter_text := slice_from text ch_start in
   count_section chapter_text chapter section 0 None 0 false (split_inclusive chapter_text))%rust.

Definition extract_section (text : str) (chapter section : Z) : result str PassageError :=
  match anchored_section text chapter section with
  | Some passage => Ok passage
  | None => count_based_section text chapter section
  end.

Definition extract_passage_capped (slug anchor full_text : str) (max_chars : nat)
    : result Passage PassageError :=
  if bool_decide (trim full_text = []) then Err EmptyBook
  else
  (let? text := match Anchor_parse anchor with
                | Chapter index _ => extract_chapter full_text index
                | Section_ chapter section _ => extract_section full_text chapter section
                | Other a => if bool_decide (a = []) then Ok full_text else Err (AnchorNotFound a)
                end in
   Ok (mkPassage slug anchor (take max_chars text)))%rust.

Definition extract_passage (slug anchor full_text : str) : result Passage PassageError :=
  extract_passage_capped slug anchor full_text READ_PASSAGE_MAX_CHARS.

(** ** Lines, headings and blocks: the specification *)

(** Each line with whether it is live: outside fenced blocks and not a
    fence. *)
Fixpoint live (in_fence : bool) (ls : list str) : list (bool * str) :=
  match ls with
  | [] => []
  | l :: ls => if fence_line (trim_start l) then (false, l) :: live (negb in_fence) ls
               else (negb in_fence, l) :: live in_fence ls
  end.
Definition text_of (als : list (bool * str)) : str := concat als.*2.

Definition is_h1 (x : bool * str) : bool := x.1 && starts_with (lit "# ") (trim_start x.2).
Definition is_h2 (x : bool * str) : bool := x.1 && starts_with (lit "## ") (trim_start x.2).

(** The lines before the first heading, and the blocks the headings open. *)
Fixpoint blocks {A} (p : A -> bool) (l : list A) : list A * list (list A) :=
  match l with
  | [] => ([], [])
  | x :: l => let '(pre, bs) := blocks p l in
              if p x then ([], (x :: pre) :: bs) else (x :: pre, bs)
  end.

Definition chapters (text : str) : list (list (bool * str)) :=
  (blocks is_h1 (live false (split_inclusive text))).2.
(** The sections of a chapter: the chapter's heading line opens none. *)
Definition sections (chapter : list (bool * str)) : list (list (bool * str)) :=
  (blocks is_h2 (tail chapter)).2.

(** Blocks lose nothing. *)
Lemma blocks_concat {A} (p : A -> bool) l : (blocks p l).1 ++ concat (blocks p l).2 = l.
Proof.
  induction l as [|x l IH]; [done|]. simpl. destruct (blocks p l) as [pre bs]. simpl in IH.
  rewrite <- IH. by destruct (p x).
Qed.

Lemma live_lines f ls : (live f ls).*2 = ls.
Proof. revert f. induction ls as [|l ls IH]; intros f; [done|]. simpl. case_match; simpl; by rewrite IH. Qed.

Lemma h1_not_h2 x : is_h1 x = true -> is_h2 x = false.
Proof.
  unfold is_h1, is_h2. destruct x as [[] l]; [|done]. simpl. intros [r Hr]%starts_with_spec.
  rewrite Hr. by vm_compute.
Qed.

Definition found (e : PassageError) (o : option str) : result str PassageError := ok_or e o.

(** ** Counting headings *)
Lemma count_chapter_collect text index start cur f off ls seen :
  start ++ cur ++ concat ls = text -> off = byte_len (start ++ cur) ->
  seen = index -> 1 <= index -> seen + Z.of_nat (length ls) < 4294967296 ->
  count_chapter text index seen (Some (byte_len start)) off f ls =
    Ok (cur ++ text_of (blocks is_h1 (live f ls)).1).
Proof.
  revert cur f off. induction ls as [|l ls IH]; intros cur f off Ht -> -> H1 Hb.
  - simpl in *. rewrite app_nil_r in Ht. subst text. rewrite app_nil_r. by rewrite slice_from_app.
  - cbn [length] in Hb. cbn [count_chapter live].
    assert (Hnext : (byte_len (start ++ cur) + byte_len l)%nat = byte_len (start ++ (cur ++ l)))
      by (rewrite !byte_len_app; lia).
    assert (Ht' : start ++ (cur ++ l) ++ concat ls = text) by (rewrite <- Ht, <- app_assoc; done).
    rewrite Hnext.
    assert (Hrec : forall f', count_chapter text index index (Some (byte_len start))
        (byte_len (start ++ cur ++ l)) f' ls =
        Ok (cur ++ l ++ text_of (blocks is_h1 (live f' ls)).1)).
    { intros f'. rewrite (IH (cur ++ l)); [by rewrite <- app_assoc|done..|lia]. }
    destruct (fence_line (trim_start l)).
    { rewrite Hrec. simpl. by destruct (blocks is_h1 (live (negb f) ls)). }
    simpl blocks. change (is_h1 (negb f, l)) with (negb f && starts_with (lit "# ") (trim_start l)).
    destruct (negb f && starts_with (lit "# ") (trim_start l)) eqn:Hh.
    + rewrite wrap32_small by lia. destruct (Z.eqb_spec (index + 1) index); [lia|].
      destruct (Z.ltb_spec index (index + 1)); [|lia]. simpl.
      destruct (blocks is_h1 (live f ls)). simpl. rewrite app_nil_r, byte_len_app.
      f_equal. rewrite <- Ht. apply slice_app.
    + rewrite Hrec. by destruct (blocks is_h1 (live f ls)).
Qed.

Lemma count_chapter_seek text index pre f off ls seen :
  pre ++ concat ls = text -> off = byte_len pre ->
  0 <= seen < index -> index < 4294967296 -> seen + Z.of_nat (length ls) < 4294967296 ->
  count_chapter text index seen None off f ls =
    ok_or (chapter_missing index)
      (text_of <$> (blocks is_h1 (live f ls)).2 !! Z.to_nat (index - seen - 1)).
Proof.
  revert pre f off seen. induction ls as [|l ls IH]; intros pre f off seen Ht -> Hs Hi Hb; [done|].
  cbn [length] in Hb. cbn [count_chapter live].
  assert (Hnext : (byte_len pre + byte_len l)%nat = byte_len (pre ++ l)) by by rewrite byte_len_app.
  assert (Ht' : (pre ++ l) ++ concat ls = text) by (rewrite <- Ht, <- app_assoc; done).
  rewrite Hnext. destruct (fence_line (trim_start l)).
  { rewrite (IH (pre ++ l)); [|done|done|lia..]. simpl. by destruct (blocks is_h1 (live (negb f) ls)). }
  simpl blocks. change (is_h1 (negb f, l)) with (negb f && starts_with (lit "# ") (trim_start l)).
  destruct (negb f && starts_with (lit "# ") (trim_start l)) eqn:Hh.
  - rewrite wrap32_small by lia. destruct (Z.eqb_spec (seen + 1) index) as [<-|Hne].
    + rewrite (count_chapter_collect text (seen + 1) pre l); [|done|done|done|lia..].
      destruct (blocks is_h1 (live f ls)). simpl.
      replace (Z.to_nat (seen + 1 - seen - 1)) with 0%nat by lia. done.
    + destruct (Z.ltb_spec index (seen + 1)); [lia|].
      rewrite (IH (pre ++ l)); [|done|done|lia..].
      destruct (blocks is_h1 (live f ls)) as [p bs]. simpl.
      replace (Z.to_nat (index - seen - 1)) with (S (Z.to_nat (index - (seen + 1) - 1))) by lia. done.
  - rewrite (IH (pre ++ l)); [|done|done|lia..]. by destruct (blocks is_h1 (live f ls)).
Qed.

Lemma chapter_start_spec index pre f off ls seen :
  off = byte_len pre ->
  0 <= seen < index -> index < 4294967296 -> seen + Z.of_nat (length ls) < 4294967296 ->
  match chapter_start index seen off f ls with
  | Some o => exists ls1 l ls2, ls = ls1 ++ l :: ls2 /\ o = byte_len (pre ++ concat ls1) /\
      fence_line (trim_start l) = false /\ is_h1 (true, l) = true /\
      (blocks is_h1 (live f ls)).2 !! Z.to_nat (index - seen - 1) =
        Some ((true, l) :: (blocks is_h1 (live false ls2)).1)
  | None => (blocks is_h1 (live f ls)).2 !! Z.to_nat (index - seen - 1) = None
  end.
Proof.
  revert pre f off seen. induction ls as [|l ls IH]; intros pre f off seen -> Hs Hi Hb; [done|].
  cbn [length] in Hb. cbn [chapter_start live].
  assert (Hnext : (byte_len pre + byte_len l)%nat = byte_len (pre ++ l)) by by rewrite byte_len_app.
  rewrite Hnext.
  assert (Hshift : forall o f' k k',
    (exists ls1 l0 ls2, ls = ls1 ++ l0 :: ls2 /\ o = byte_len ((pre ++ l) ++ concat ls1) /\
      fence_line (trim_start l0) = false /\ is_h1 (true, l0) = true /\
      (blocks is_h1 (live f' ls)).2 !! k = Some ((true, l0) :: (blocks is_h1 (live false ls2)).1)) ->
    (forall x, (blocks is_h1 (live f' ls)).2 !! k = Some x -> k' = Some x) ->
    exists ls1 l0 ls2, l :: ls = ls1 ++ l0 :: ls2 /\ o = byte_len (pre ++ concat ls1) /\
      fence_line (trim_start l0) = false /\ is_h1 (true, l0) = true /\
      k' = Some ((true, l0) :: (blocks is_h1 (live false ls2)).1)).
  { intros o f' k k' (ls1 & l0 & ls2 & -> & -> & Hf & Hh & Hk) Hk'.
    exists (l :: ls1), l0, ls2. split_and!; [done| |done|done|by apply Hk'].
    simpl. by rewrite app_assoc. }
  destruct (fence_line (trim_start l)) eqn:Hfl.
  { specialize (IH (pre ++ l) (negb f) _ seen eq_refl Hs Hi ltac:(lia)).
    destruct (chapter_start _ _ _ _ _); simpl.
    - eapply Hshift; [exact IH|]. intros x Hx. by destruct (blocks is_h1 (live (negb f) ls)).
    - by destruct (blocks is_h1 (live (negb f) ls)). }
  simpl blocks. change (is_h1 (negb f, l)) with (negb f && starts_with (lit "# ") (trim_start l)).
  destruct (negb f && starts_with (lit "# ") (trim_start l)) eqn:Hh.
  - rewrite wrap32_small by lia. destruct (Z.eqb_spec (seen + 1) index) as [<-|Hne].
    + exists [], l, ls. apply andb_prop in Hh as [Hf Hh]. destruct f; [done|].
      destruct (blocks is_h1 (live false ls)). simpl.
      replace (Z.to_nat (seen + 1 - seen - 1)) with 0%nat by lia. rewrite app_nil_r. by split_and!.
    + specialize (IH (pre ++ l) f _ (seen + 1) eq_refl ltac:(lia) Hi ltac:(lia)).
      assert (Hk : Z.to_nat (index - seen - 1) = S (Z.to_nat (index - (seen + 1) - 1))) by lia.
      destruct (chapter_start _ _ _ _ _); simpl.
      * eapply Hshift; [exact IH|]. intros x Hx.
        destruct (blocks is_h1 (live f ls)). by rewrite Hk.
      * destruct (blocks is_h1 (live f ls)). by rewrite Hk.
  - specialize (IH (pre ++ l) f _ seen eq_refl Hs Hi ltac:(lia)).
    destruct (chapter_start _ _ _ _ _); simpl.
    + eapply Hshift; [exact IH|]. intros x Hx. by destruct (blocks is_h1 (live f ls)).
    + by destruct (blocks is_h1 (live f ls)).
Qed.

Lemma count_section_collect text chapter section start cur f off ls seen :
  start ++ cur ++ concat ls = text -> off = byte_len (start ++ cur) -> (0 < off)%nat ->
  seen = section -> 1 <= section -> seen + Z.of_nat (length ls) < 4294967296 ->
  count_section text chapter section seen (Some (byte_len start)) off f ls =
    Ok (cur ++ text_of (blocks is_h2 (blocks is_h1 (live f ls)).1).1).
Proof.
  revert cur f off. induction ls as [|l ls IH]; intros cur f off Ht -> H0 -> H1 Hb.
  - simpl in *. rewrite app_nil_r in Ht. subst text. rewrite app_nil_r. by rewrite slice_from_app.
  - cbn [length] in Hb. cbn [count_section live].
    assert (Hnext : (byte_len (start ++ cur) + byte_len l)%nat = byte_len (start ++ (cur ++ l)))
      by (rewrite !byte_len_app; lia).
    assert (Ht' : start ++ (cur ++ l) ++ concat ls = text) by (rewrite <- Ht, <- app_assoc; done).
    rewrite Hnext.
    assert (Hrec : forall f', count_section text chapter section section (Some (byte_len start))
        (byte_len (start ++ cur ++ l)) f' ls =
        Ok (cur ++ l ++ text_of (blocks is_h2 (blocks is_h1 (live f' ls)).1).1)).
    { intros f'. rewrite (IH (cur ++ l)); [by rewrite <- app_assoc|done|done| |done..|lia].
      rewrite app_assoc, byte_len_app. lia. }
    destruct (fence_line (trim_start l)).
    { rewrite Hrec. simpl. destruct (blocks is_h1 (live (negb f) ls)) as [p bs]. simpl.
      by destruct (blocks is_h2 p). }
    simpl blocks. change (is_h1 (negb f, l)) with (negb f && starts_with (lit "# ") (trim_start l)).
    destruct (Nat.ltb_spec 0 (byte_len (start ++ cur))); [|lia]. rewrite andb_true_r.
    destruct (negb f && starts_with (lit "# ") (trim_start l)) eqn:Hh.
    + destruct (blocks is_h1 (live f ls)). simpl. rewrite app_nil_r, byte_len_app.
      f_equal. rewrite <- Ht. apply slice_app.
    + destruct (blocks is_h1 (live f ls)) as [p bs] eqn:Hbl. simpl in *. change (is_h2 (negb f, l)) with (negb f && starts_with (lit "## ") (trim_start l)).
      destruct (negb f && starts_with (lit "## ") (trim_start l)) eqn:Hh2.
      * rewrite wrap32_small by lia. destruct (Z.eqb_spec (section + 1) section); [lia|].
        destruct (Z.ltb_spec section (section + 1)); [|lia]. simpl.
        destruct (blocks is_h2 p). simpl. rewrite app_nil_r, byte_len_app.
        f_equal. rewrite <- Ht. apply slice_app.
      * rewrite Hrec, Hbl. simpl. by destruct (blocks is_h2 p).
Qed.

Lemma count_section_seek text chapter section pre f off ls seen :
  pre ++ concat ls = text -> off = byte_len pre -> (0 < off)%nat ->
  0 <= seen < section -> section < 4294967296 -> seen + Z.of_nat (length ls) < 4294967296 ->
  count_section text chapter section seen None off f ls =
    ok_or (section_missing chapter section)
      (text_of <$> (blocks is_h2 (blocks is_h1 (live f ls)).1).2 !! Z.to_nat (section - seen - 1)).
Proof.
  revert pre f off seen. induction ls as [|l ls IH]; intros pre f off seen Ht -> H0 Hs Hi Hb; [done|].
  cbn [length] in Hb. cbn [count_section live].
  assert (Hnext : (byte_len pre + byte_len l)%nat = byte_len (pre ++ l)) by by rewrite byte_len_app.
  assert (H0' : (0 < byte_len (pre ++ l))%nat) by (rewrite byte_len_app; lia).
  assert (Ht' : (pre ++ l) ++ concat ls = text) by (rewrite <- Ht, <- app_assoc; done).
  rewrite Hnext. destruct (fence_line (trim_start l)).
  { rewrite (IH (pre ++ l)); [|done..|lia]. simpl.
    destruct (blocks is_h1 (live (negb f) ls)) as [p bs]. simpl. by destruct (blocks is_h2 p). }
  simpl blocks. change (is_h1 (negb f, l)) with (negb f && starts_with (lit "# ") (trim_start l)).
  destruct (Nat.ltb_spec 0 (byte_len pre)); [|lia]. rewrite andb_true_r.
  destruct (negb f && starts_with (lit "# ") (trim_start l)) eqn:Hh.
  - by destruct (blocks is_h1 (live f ls)).
  - destruct (blocks is_h1 (live f ls)) as [p bs] eqn:Hbl. simpl in *. change (is_h2 (negb f, l)) with (negb f && starts_with (lit "## ") (trim_start l)).
    destruct (negb f && starts_with (lit "## ") (trim_start l)) eqn:Hh2.
    + rewrite wrap32_small by lia. destruct (Z.eqb_spec (seen + 1) section) as [<-|Hne].
      * rewrite (count_section_collect text chapter (seen + 1) pre l); [|done|done|done|done|lia..].
        rewrite Hbl. simpl. destruct (blocks is_h2 p). simpl.
        replace (Z.to_nat (seen + 1 - seen - 1)) with 0%nat by lia. done.
      * destruct (Z.ltb_spec section (seen + 1)); [lia|].
        rewrite (IH (pre ++ l)); [|done|done|done|lia..]. rewrite Hbl. simpl.
        destruct (blocks is_h2 p) as [p2 bs2]. simpl.
        replace (Z.to_nat (section - seen - 1)) with (S (Z.to_nat (section - (seen + 1) - 1))) by lia. done.
    + rewrite (IH (pre ++ l)); [|done|done|done|lia..]. rewrite Hbl. simpl. by destruct (blocks is_h2 p).
Qed.

(** Books without embedded anchors are cut by counting headings, and
    by nothing else: with [chapters] and [sections] the blocks that the
    live [# ] and [## ] lines open (lines in fenced code never count; the
    blocks and the front matter before them partition the text), chapter
    [n] is the text of the n-th chapter, and section [m] of chapter [n] the
    text of its m-th section; the error names the chapter or the section
    that does not exist.  (The text has fewer than 2^32 lines, so the
    counters do not wrap.) *)
Theorem count_based_blocks text n m :
  1 <= n < 4294967296 -> 1 <= m < 4294967296 ->
  Z.of_nat (length (split_inclusive text)) < 4294967296 ->
  count_based_chapter text n =
    ok_or (chapter_missing n) (text_of <$> chapters text !! Z.to_nat (n - 1)) /\
  count_based_section text n m =
    match chapters text !! Z.to_nat (n - 1) with
    | None => Err (chapter_missing n)
    | Some ch => ok_or (section_missing n m) (text_of <$> sections ch !! Z.to_nat (m - 1))
    end /\
  text = text_of (blocks is_h1 (live false (split_inclusive text))).1 ++
         concat (text_of <$> chapters text).
Proof.
  intros Hn Hm Hlen. split_and!.
  - unfold count_based_chapter. rewrite (count_chapter_seek text n []); [|apply split_inclusive_concat|done|lia..].
    by replace (n - 0 - 1) with (n - 1) by lia.
  - unfold count_based_section, chapters.
    pose proof (chapter_start_spec n [] false 0 (split_inclusive text) 0 eq_refl ltac:(lia) ltac:(lia)
      ltac:(lia)) as H.
    replace (n - 0 - 1) with (n - 1) in H by lia.
    destruct (chapter_start n 0 0 false (split_inclusive text)) as [o|]; [|by rewrite H].
    destruct H as (ls1 & l & ls2 & Hs & -> & Hf & Hh & ->). simpl.
    destruct (split_inclusive_lines _ _ _ _ Hs) as ([Hne _] & Hal & _).
    assert (Htext : text = concat ls1 ++ concat (l :: ls2))
      by (by rewrite <- (split_inclusive_concat text), Hs, concat_app).
    assert (Hfrom : slice_from text (byte_len (concat ls1)) = concat (l :: ls2))
      by (rewrite Htext; apply slice_from_app).
    assert (Hsl : split_inclusive (concat (l :: ls2)) = l :: ls2).
    { rewrite Htext, split_inclusive_app in Hs by done.
      pose proof (split_inclusive_cut text ls1 l ls2) as Hc. rewrite Htext, split_inclusive_app in Hc by done.
      rewrite (Hc Hs) in Hs. by apply app_inv_head in Hs. }
    simpl app. rewrite Hfrom, Hsl. cbn [count_section]. rewrite Hf. simpl.
    pose proof (h1_not_h2 _ Hh) as Hh2. unfold is_h2 in Hh2. simpl in Hh2. rewrite Hh2.
    rewrite (count_section_seek _ n m l); [|done|done| |lia..|].
    + unfold sections. simpl. by replace (m - 0 - 1) with (m - 1) by lia.
    + destruct l as [|c l]; [done|]. rewrite byte_len_cons. pose proof (len_utf8_bounds c). lia.
    + rewrite Hs, length_app in Hlen. simpl in Hlen. lia.
  - unfold chapters, text_of. rewrite <- (split_inclusive_concat text) at 1.
    rewrite <- (live_lines false (split_inclusive text)) at 1.
    rewrite <- (blocks_concat is_h1 (live false (split_inclusive text))) at 1.
    rewrite fmap_app, concat_app. f_equal. generalize (blocks is_h1 (live false (split_inclusive text))).2.
    intros bs. induction bs as [|b bs IH]; [done|]. simpl. by rewrite fmap_app, concat_app, IH.
Qed.

Lemma count_based_blocks_witness :
  let text := lit "x" ++ [nl] ++ lit "# A" ++ [nl] ++ lit "## s" ++ [nl] ++ lit "# B" in
  count_based_chapter text 1 = Ok (lit "# A" ++ [nl] ++ lit "## s" ++ [nl]) /\
  count_based_section text 1 1 = Ok (lit "## s" ++ [nl]).
Proof.
  intros text. destruct (count_based_blocks text 1 1) as (H1 & H2 & _); [lia|lia|by vm_compute|].
  rewrite H1, H2. by vm_compute.
Defined.

(** ** Anchored books *)

(** The heading a live line is, if any. *)
Definition heading_of (x : bool * str) : option (nat * option str) :=
  if x.1 && starts_with [hash] (trim_start x.2) then parse_heading_line (trim_start x.2) else None.

(** The line is a heading satisfying [P] (whatever its offset). *)
Definition sat (P : BookHeading -> bool) (x : bool * str) : bool :=
  match heading_of x with Some (lvl, id) => P (mkHeading lvl 0 id) | None => false end.
Definition offset_blind (P : BookHeading -> bool) : Prop :=
  forall lvl o id, P (mkHeading lvl o id) = P (mkHeading lvl 0 id).

Fixpoint heads (off : nat) (als : list (bool * str)) : list BookHeading :=
  match als with
  | [] => []
  | x :: als =>
      let next := (off + byte_len x.2)%nat in
      match heading_of x with
      | Some (lvl, id) => mkHeading lvl off id :: heads next als
      | None => heads next als
      end
  end.

Lemma collect_heads f off ls : collect_from f off ls = heads off (live f ls).
Proof.
  revert f off. induction ls as [|l ls IH]; intros f off; [done|]. simpl.
  destruct (fence_line (trim_start l)); simpl.
  - unfold heading_of. simpl. apply IH.
  - unfold heading_of. simpl. destruct (negb f && starts_with [hash] (trim_start l)); [|apply IH].
    destruct (parse_heading_line (trim_start l)) as [[lvl id]|]; [|apply IH]. by rewrite IH.
Qed.

Lemma text_of_cons x als : text_of (x :: als) = x.2 ++ text_of als.
Proof. done. Qed.
Lemma text_of_app a b : text_of (a ++ b) = text_of a ++ text_of b.
Proof. unfold text_of. by rewrite fmap_app, concat_app. Qed.

Lemma position_heads P off als :
  offset_blind P ->
  match position P (heads off als) with
  | Some pos => exists pre x rest lvl id, als = pre ++ x :: rest /\ heading_of x = Some (lvl, id) /\
      heads off als !! pos = Some (mkHeading lvl (off + byte_len (text_of pre)) id) /\
      drop (S pos) (heads off als) = heads (off + byte_len (text_of (pre ++ [x]))) rest /\
      sat P x = true /\ Forall (fun y => sat P y = false) pre
  | None => Forall (fun y => sat P y = false) als
  end.
Proof.
  intros HP. revert off. induction als as [|x als IH]; intros off; [constructor|]. simpl.
  assert (Hskip : forall k, (sat P x = false) ->
    (forall i, heads off (x :: als) !! (k + i)%nat = heads (off + byte_len x.2) als !! i) ->
    (forall i, drop (S (k + i)) (heads off (x :: als)) = drop (S i) (heads (off + byte_len x.2) als)) ->
    match position P (heads (off + byte_len x.2) als) with
    | Some i => exists pre y rest lvl id, x :: als = pre ++ y :: rest /\ heading_of y = Some (lvl, id) /\
      heads off (x :: als) !! (k + i)%nat = Some (mkHeading lvl (off + byte_len (text_of pre)) id) /\
      drop (S (k + i)) (heads off (x :: als)) = heads (off + byte_len (text_of (pre ++ [y]))) rest /\
      sat P y = true /\ Forall (fun y => sat P y = false) pre
    | None => Forall (fun y => sat P y = false) (x :: als)
    end).
  { intros k Hx Hl Hd. specialize (IH (off + byte_len x.2)%nat).
    destruct (position P (heads (off + byte_len x.2) als)) as [i|]; [|by constructor].
    destruct IH as (pre & y & rest & lvl & id & -> & Hy & Hlk & Hdr & Hs & Hpre).
    exists (x :: pre), y, rest, lvl, id. rewrite Hl, Hd, Hlk, Hdr.
    split_and!; [done|done| | |done|by constructor].
    - rewrite text_of_cons, byte_len_app. do 2 f_equal. lia.
    - change ((x :: pre) ++ [y]) with (x :: (pre ++ [y])).
      rewrite text_of_cons, byte_len_app. f_equal. lia. }
  simpl in Hskip. destruct (heading_of x) as [[lvl id]|] eqn:Hx; simpl.
  - rewrite HP. destruct (P (mkHeading lvl 0 id)) eqn:HPx.
    + exists [], x, als, lvl, id. unfold sat. rewrite Hx. split_and!; try done.
      * simpl. by rewrite Nat.add_0_r.
      * rewrite drop_0. change (text_of ([] ++ [x])) with (x.2 ++ []). by rewrite app_nil_r.
    + specialize (Hskip 1%nat). simpl in Hskip.
      assert (sat P x = false) as Hs by (unfold sat; by rewrite Hx).
      specialize (Hskip Hs (fun _ => eq_refl) (fun _ => eq_refl)).
      destruct (position P (heads (off + byte_len x.2) als)); simpl; exact Hskip.
  - specialize (Hskip 0%nat). simpl in Hskip.
    assert (sat P x = false) as Hs by (unfold sat; by rewrite Hx).
    exact (Hskip Hs (fun _ => eq_refl) (fun _ => eq_refl)).
Qed.

Lemma find_heads P off als :
  offset_blind P ->
  match find_first P (heads off als) with
  | Some h => exists body x rest, als = body ++ x :: rest /\
      offset h = (off + byte_len (text_of body))%nat /\ sat P x = true /\
      Forall (fun y => sat P y = false) body
  | None => Forall (fun y => sat P y = false) als
  end.
Proof.
  intros HP. pose proof (position_heads P off als HP) as H.
  assert (Hpf : forall l, find_first P l = match position P l with Some i => l !! i | None => None end).
  { induction l as [|a l IHl]; [done|]. simpl. destruct (P a); [done|]. rewrite IHl.
    by destruct (position P l). }
  rewrite Hpf. destruct (position P (heads off als)) as [pos|]; [|done].
  destruct H as (pre & x & rest & lvl & id & -> & Hx & -> & _ & Hs & Hpre).
  by exists pre, x, rest.
Qed.

(** The passage that [start] opens and [stop] ends. *)
Definition passage_of (start stop : BookHeading -> bool) (text p : str) : Prop :=
  exists pre h body post,
    live false (split_inclusive text) = pre ++ h :: body ++ post /\ p = text_of (h :: body) /\
    sat start h = true /\ Forall (fun y => sat start y = false) pre /\
    Forall (fun y => sat stop y = false) body /\
    match post with [] => True | x :: _ => sat stop x = true end.

Lemma heading_slice_spec start stop text pos lvl o id :
  offset_blind start -> offset_blind stop ->
  position start (collect_headings text) = Some pos ->
  collect_headings text !! pos = Some (mkHeading lvl o id) ->
  passage_of start stop text (heading_slice text (collect_headings text) pos stop) /\
  exists h, h ∈ live false (split_inclusive text) /\ heading_of h = Some (lvl, id) /\
    sat start h = true.
Proof.
  intros Hstart Hstop Hpos Hlk. unfold heading_slice. rewrite Hlk.
  unfold collect_headings in *. rewrite collect_heads in *.
  set (als := live false (split_inclusive text)) in *.
  assert (Htext : text = text_of als).
  { unfold text_of, als. by rewrite live_lines, split_inclusive_concat. }
  pose proof (position_heads start 0 als Hstart) as H. rewrite Hpos in H.
  destruct H as (pre & x & rest & lvl' & id' & Hals & Hx & Hlk' & Hdr & Hs & Hpre).
  rewrite Hlk in Hlk'. injection Hlk' as -> -> ->. rewrite Hdr.
  pose proof (find_heads stop (0 + byte_len (text_of (pre ++ [x]))) rest Hstop) as Hf.
  split; [|exists x; split_and!; [rewrite Hals; set_solver|done..]].
  destruct (find_first stop _) as [h|].
  - destruct Hf as (body & y & rest' & -> & -> & Hy & Hbody). exists pre, x, body, (y :: rest').
    split_and!; try done. simpl offset. rewrite Htext, Hals.
    replace (0 + byte_len (text_of (pre ++ [x])) + byte_len (text_of body))%nat
      with (byte_len (text_of pre) + byte_len (text_of (x :: body)))%nat.
    2:{ rewrite text_of_app, !text_of_cons, !byte_len_app. change (byte_len (text_of [])) with 0%nat. lia. }
    replace (text_of (pre ++ x :: body ++ y :: rest'))
      with (text_of pre ++ text_of (x :: body) ++ text_of (y :: rest')).
    2:{ by rewrite <- !text_of_app. }
    apply slice_app.
  - exists pre, x, rest, []. split_and!; try done; [by rewrite app_nil_r|].
    simpl offset. rewrite Htext, Hals.
    replace (byte_len (text_of (pre ++ x :: rest)))
      with (byte_len (text_of pre) + byte_len (text_of (x :: rest)))%nat
      by (by rewrite text_of_app, byte_len_app).
    replace (text_of (pre ++ x :: rest)) with (text_of pre ++ text_of (x :: rest) ++ [])
      by (by rewrite app_nil_r, <- text_of_app).
    apply slice_app.
Qed.

(** The text has embedded anchors. *)
Definition anchored (text : str) : Prop :=
  exists x, x ∈ live false (split_inclusive text) /\ sat has_id x = true.

Lemma anchored_spec text : existsb has_id (collect_headings text) = true <-> anchored text.
Proof.
  unfold collect_headings, anchored. rewrite collect_heads.
  pose proof (position_heads has_id 0 (live false (split_inclusive text)) ltac:(done)) as H.
  destruct (position has_id _) as [pos|] eqn:Hp.
  - apply position_Some in Hp as (l1 & x & l2 & -> & _ & Hx & _).
    destruct H as (pre & y & rest & _ & _ & -> & _ & _ & _ & Hs & _). split; intros _.
    + exists y. split; [set_solver|done].
    + apply existsb_exists. exists x. split; [|done]. apply list_elem_of_In. set_solver.
  - apply position_None in Hp. split.
    + intros (x & Hin & Hx)%existsb_exists. rewrite Forall_forall in Hp.
      apply list_elem_of_In in Hin. by rewrite (Hp x Hin) in Hx.
    + intros (x & Hin & Hx). rewrite Forall_forall in H. by rewrite (H x Hin) in Hx.
Qed.

(** Books with embedded [{#id}] anchors are cut by them.  Chapter [n]
    is the text from the first heading whose ID is a [ch-] ID encoding [n]
    up to the next heading with any [ch-] ID, and is an error, never
    another chapter, if there is none.  A section is the text from the
    first heading whose ID encodes its two numbers up to the next heading
    of the same or a higher level; if there is none, the count-based answer
    is given instead. *)
Theorem anchored_passages text n c s :
  anchored text ->
  match extract_chapter text n with
  | Ok p => passage_of (is_chapter n) starts_chapter text p
  | Err e => e = chapter_missing n /\
      Forall (fun y => sat (is_chapter n) y = false) (live false (split_inclusive text))
  end /\
  ((exists p lvl id h, extract_section text c s = Ok p /\
      h ∈ live false (split_inclusive text) /\ heading_of h = Some (lvl, id) /\
      sat (is_section c s) h = true /\
      passage_of (is_section c s) (fun h => (level h <=? lvl)%nat) text p) \/
   (Forall (fun y => sat (is_section c s) y = false) (live false (split_inclusive text)) /\
    extract_section text c s = count_based_section text c s)).
Proof.
  intros Ha. apply anchored_spec in Ha. split.
  - unfold extract_chapter. rewrite Ha.
    destruct (position (is_chapter n) (collect_headings text)) as [pos|] eqn:Hp.
    + pose proof Hp as Hp'. apply position_Some in Hp' as (l1 & [lvl o id] & l2 & Hc & Hl & _).
      assert (collect_headings text !! pos = Some (mkHeading lvl o id)) as Hlk
        by (rewrite Hc, <- Hl; apply lookup_middle_nat).
      by eapply heading_slice_spec in Hlk as [? _].
    + split; [done|]. pose proof (position_heads (is_chapter n) 0 (live false (split_inclusive text))
        ltac:(done)) as H. unfold collect_headings in Hp. rewrite collect_heads in Hp. by rewrite Hp in H.
  - unfold extract_section, anchored_section.
    replace (forallb (fun h => negb (has_id h)) (collect_headings text)) with false.
    2:{ symmetry. rewrite <- not_true_iff_false, forallb_forall. intros Hall.
        apply existsb_exists in Ha as (x & Hin & Hx). specialize (Hall x Hin). by rewrite Hx in Hall. }
    destruct (position (is_section c s) (collect_headings text)) as [pos|] eqn:Hp; simpl.
    + left. pose proof Hp as Hp'. apply position_Some in Hp' as (l1 & [lvl o id] & l2 & Hc & Hl & _).
      assert (collect_headings text !! pos = Some (mkHeading lvl o id)) as Hlk
        by (rewrite Hc, <- Hl; apply lookup_middle_nat).
      rewrite Hlk. simpl.
      apply (heading_slice_spec (is_section c s) (fun h => (level h <=? lvl)%nat)) in Hlk as [H (h & Hin & Hh & Hsat)];
        [|done..]. eauto 10.
    + right. split; [|done]. pose proof (position_heads (is_section c s) 0
        (live false (split_inclusive text)) ltac:(done)) as H.
      unfold collect_headings in Hp. rewrite collect_heads in Hp. by rewrite Hp in H.
Qed.

Lemma anchored_passages_witness :
  let text := lit "# A {#ch-2-a}" ++ [nl] ++ lit "# B" ++ [nl] ++ lit "# C {#ch-3-c}" in
  extract_chapter text 1 = Err (AnchorNotFound (lit "ch-1")) /\
  extract_chapter text 2 = Ok (lit "# A {#ch-2-a}" ++ [nl] ++ lit "# B" ++ [nl]) /\
  Forall (fun y => sat (is_chapter 1) y = false) (live false (split_inclusive text)).
Proof.
  intros text. destruct (anchored_passages text 1 1 1) as [H _].
  - apply anchored_spec. by vm_compute.
  - replace (extract_chapter text 1) with (Err (A := str) (AnchorNotFound (lit "ch-1"))) in H
      by (by vm_compute).
    split; [by vm_compute|]. split; [by vm_compute|]. exact (proj2 H).
Defined.

(** ** References and anchors *)

Lemma splitn_2 a b : dash ∉ a -> splitn 2 dash (a ++ lit "-" ++ b) = [a; b].
Proof. intros H. cbn [splitn]. change (lit "-" ++ b) with (dash :: b). by rewrite split_once_char. Qed.

Lemma splitn_3 a b c :
  dash ∉ a -> dash ∉ b -> splitn 3 dash (a ++ lit "-" ++ b ++ lit "-" ++ c) = [a; b; c].
Proof.
  intros Ha Hb. cbn [splitn].
  change (lit "-" ++ b ++ lit "-" ++ c) with (dash :: (b ++ dash :: c)).
  rewrite (split_once_char dash a (b ++ dash :: c)) by done. cbn [splitn]. by rewrite split_once_char.
Qed.

(** Reading references: [parse_book_ref] accepts exactly
    [book://slug#anchor] with a non-empty slug without [#] and a non-empty
    anchor, and returns these; and the anchors the catalog writes read
    back as themselves: [ch-n-slug] and [sec-n-m-slug] (1-based [u32]
    indices, any slug) denote that chapter and that section, while a zero
    index denotes nothing. *)
Theorem book_references r slug anchor n m s :
  1 <= n <= u32_max -> 1 <= m <= u32_max ->
  (parse_book_ref r = Some (mkBookRef slug anchor) <->
     r = lit "book://" ++ slug ++ lit "#" ++ anchor /\ slug <> [] /\ 35%N ∉ slug /\ anchor <> []) /\
  Anchor_parse (lit "ch-" ++ show_u32 n ++ lit "-" ++ s) = Chapter n s /\
  Anchor_parse (lit "sec-" ++ show_u32 n ++ lit "-" ++ show_u32 m ++ lit "-" ++ s) = Section_ n m s /\
  (let zero := lit "ch-0-" ++ s in Anchor_parse zero = Other zero).
Proof.
  intros Hn Hm. split_and!.
  - unfold parse_book_ref. split.
    + destruct (strip_prefix (lit "book://") r) as [rest|] eqn:Hp; [|done]. simpl.
      apply strip_prefix_Some in Hp as ->.
      destruct (split_once (lit "#") rest) as [[a b]|] eqn:Ho; [|done]. simpl.
      apply split_once_char_Some in Ho as [-> Ho].
      do 2 case_bool_decide; try done. intros [= -> ->]. done.
    + intros (-> & H1 & H2 & H3).
      rewrite (proj2 (strip_prefix_Some _ _ _) eq_refl). simpl.
      change (lit "#") with [35%N]. simpl app. rewrite split_once_char by done. simpl.
      by rewrite !bool_decide_false by done.
  - unfold Anchor_parse. rewrite (proj2 (strip_prefix_Some _ _ _) eq_refl).
    rewrite splitn_2 by by apply show_N_no_char.
    unfold show_u32. rewrite parse_show by (rewrite Z2N.id; lia). rewrite Z2N.id by lia.
    by destruct (Z.eqb_spec n 0); [lia|].
  - unfold Anchor_parse.
    replace (strip_prefix (lit "ch-") (lit "sec-" ++ show_u32 n ++ lit "-" ++ show_u32 m ++ lit "-" ++ s))
      with (@None str) by done.
    rewrite (proj2 (strip_prefix_Some _ _ _) eq_refl).
    rewrite splitn_3 by by apply show_N_no_char.
    unfold show_u32. rewrite !parse_show by (rewrite Z2N.id; lia). rewrite !Z2N.id by lia.
    destruct (Z.eqb_spec n 0); [lia|]. by destruct (Z.eqb_spec m 0); [lia|].
  - intros zero. unfold zero, Anchor_parse.
    replace (strip_prefix (lit "ch-") (lit "ch-0-" ++ s)) with (Some (lit "0" ++ lit "-" ++ s)) by done.
    rewrite splitn_2; [done|]. intros H. by apply list_elem_of_singleton in H.
Qed.

Lemma book_references_witness :
  parse_book_ref (lit "book://rust#ch-1-intro") = Some (mkBookRef (lit "rust") (lit "ch-1-intro")) /\
  Anchor_parse (lit "ch-" ++ show_u32 12 ++ lit "-" ++ lit "intro") = Chapter 12 (lit "intro").
Proof.
  destruct (book_references (lit "book://rust#ch-1-intro") (lit "rust") (lit "ch-1-intro") 12 3
    (lit "intro")) as (_ & H & _); [by unfold u32_max|by unfold u32_max|].
  split; [by vm_compute|exact H].
Defined.
