(* ===== verification/Search.v ===== *)
(** * Search

    [crates/mycelium-core/src/search.rs]: tokenization, the indexed text,
    cosine similarity, reciprocal rank fusion, BM25, and the in-memory
    reference index.  Scores are IEEE single-precision floats; the natural
    logarithm and Unicode lower-casing of the standard library are
    parameters. *)
From S2P Require Import Prelude Float Text Concept.

(** ** Queries and results *)
Inductive StatusFilter := ActiveOnly | All.
#[global] Instance StatusFilter_eq_dec : EqDecision StatusFilter.
Proof. solve_decision. Defined.

Definition NON_ACTIVE_STATUSES : list str := [lit "superseded"; lit "retired"].
Definition is_active_status (status : option str) : bool :=
  match status with
  | None => true
  | Some s => negb (existsb (str_eqb s) NON_ACTIVE_STATUSES)
  end.

Inductive SearchMode := Auto | Lexical | VectorOnly.
Record SearchQuery := mkQuery {
  terms : list str; include_global : bool; status_filter : StatusFilter; mode : SearchMode }.
Definition SearchQuery_new (ts : list str) : SearchQuery := mkQuery ts false ActiveOnly Auto.

Record SearchResult := mkResult {
  concept_path : str; r_title : str; snippet : str; score : f32 }.

(** [str::to_lowercase]: Unicode, but on what matters to the tokenizer it
    leaves no ASCII upper-case letter and maps ASCII texts letter by
    letter. *)
Class Lowercase := {
  to_lowercase : str -> str;
  lowercase_no_upper s : Forall (fun c => is_ascii_uppercase c = false) (to_lowercase s);
  lowercase_ascii s : Forall (fun c => (c < 128)%N) s -> to_lowercase s = to_ascii_lowercase <$> s }.

(** [f32::ln] *)
Class NaturalLog := { ln : f32 -> f32 }.

(** ** Text *)
Definition tokenize `{Lowercase} (text : str) : list str :=
  retain (fun t => (2 <=? byte_len t)%nat)
    (split_if (fun c => negb (is_ascii_alphanumeric c)) (to_lowercase text)).

Fixpoint take_while {A} (f : A -> bool) (l : list A) : list A :=
  match l with
  | [] => []
  | x :: l => if f x then x :: take_while f l else []
  end.

Definition title_or_path (c : Concept) : str :=
  match fm_title (frontmatter c) with Some t => t | None => source_path c end.

Definition searchable_text (c : Concept) : str :=
  let text := title_or_path c in
  let text := match fm_description (frontmatter c) with
              | Some d => text ++ [space] ++ d
              | None => text
              end in
  let text := fold_left (fun text tag => text ++ [space] ++ tag) (fm_tags (frontmatter c)) text in
  let text := text ++ [space] in
  let body_len := sum_list_with byte_len
    (take_while (fun line => negb (str_eqb (trim_end line) (lit "# History")))
       (split_inclusive (body c))) in
  text ++ slice_to (body c) body_len.

(** ** Vectors *)
Definition cosine_step (acc : f32 * f32 * f32) (p : f32 * f32) : f32 * f32 * f32 :=
  let '(dot, norm_a, norm_b) := acc in
  let '(x, y) := p in
  (f32_add dot (f32_mul x y), f32_add norm_a (f32_mul x x), f32_add norm_b (f32_mul y y)).

Definition cosine (a b : list f32) : f32 :=
  if negb (length a =? length b)%nat || bool_decide (a = []) then f32_zero
  else
    let '(dot, norm_a, norm_b) := fold_left cosine_step (zip a b) (f32_zero, f32_zero, f32_zero) in
    let denom := f32_mul (f32_sqrt norm_a) (f32_sqrt norm_b) in
    if f32_eqb denom f32_zero || is_nan denom then f32_zero else f32_div dot denom.

(** ** Reciprocal rank fusion *)
Record RrfParams := mkRrf { rrf_k : f32; w_lex : f32; w_vec : f32 }.
Definition f32_one : f32 := f32_of_Z 1.
Definition RrfParams_default : RrfParams := mkRrf (f32_of_Z 60) f32_one f32_one.

(** [BTreeMap<String, f32>]: the bindings by increasing key;
    [*entry(path).or_insert(0.0) += x]. *)
Fixpoint entry_add (path : str) (x : f32) (m : list (str * f32)) : list (str * f32) :=
  match m with
  | [] => [(path, f32_add f32_zero x)]
  | (p, s) :: m' =>
      match str_cmp path p with
      | Lt => (path, f32_add f32_zero x) :: m
      | Eq => (p, f32_add s x) :: m'
      | Gt => (p, s) :: entry_add path x m'
      end
  end.

(** The term of rank [rank] (from 0). *)
Definition rrf_term (w k : f32) (rank : nat) : f32 :=
  f32_div w (f32_add (f32_add k (f32_of_Z (Z.of_nat rank))) f32_one).

Fixpoint fuse_pool (w k : f32) (rank : nat) (pool : list (str * f32)) (m : list (str * f32))
    : list (str * f32) :=
  match pool with
  | [] => m
  | (path, _) :: pool => fuse_pool w k (S rank) pool (entry_add path (rrf_term w k rank) m)
  end.

Definition fused_cmp : str * f32 -> str * f32 -> comparison :=
  rank_cmp snd (fun a b => str_cmp a.1 b.1).

Definition rrf_fuse (lex_pool vec_pool : list (str * f32)) (params : RrfParams)
    : list (str * f32) :=
  let m := fuse_pool (w_lex params) (rrf_k params) 0 lex_pool [] in
  let m := fuse_pool (w_vec params) (rrf_k params) 0 vec_pool m in
  sort_by fused_cmp m.

(** ** BM25 *)
Record Params := mkParams { bm_k1 : f32; bm_b : f32 }.
Definition Params_default : Params :=
  mkParams (f32_div (f32_of_Z 12) (f32_of_Z 10)) (f32_div (f32_of_Z 3) (f32_of_Z 4)).
Definition f32_half : f32 := f32_div f32_one (f32_of_Z 2).

Definition bm25_score `{NaturalLog} (params : Params) (n_docs df : Z) (tf doc_len : Z) (avgdl : f32)
    : f32 :=
  if (df =? 0)%Z then f32_zero
  else
    let n_docs := f32_of_Z n_docs in
    let df := f32_of_Z df in
    let idf := ln (f32_add (f32_div (f32_add (f32_sub n_docs df) f32_half)
                                    (f32_add df f32_half)) f32_one) in
    let length_ratio := if f32_eqb avgdl f32_zero then f32_one
                        else f32_div (f32_of_Z doc_len) avgdl in
    let tf := f32_of_Z tf in
    let tf_term :=
      f32_div (f32_mul tf (f32_add (bm_k1 params) f32_one))
        (f32_add tf (f32_mul (bm_k1 params)
           (f32_add (f32_sub f32_one (bm_b params)) (f32_mul (bm_b params) length_ratio)))) in
    f32_mul idf tf_term.

(** ** The in-memory index *)
Record DocMeta := mkDoc {
  d_title : str; d_body : str; d_status : option str; d_length : Z }.
Record InMemoryIndex := mkIndex {
  postings : gmap str (gmap str Z);
  docs : gmap str DocMeta }.
Definition InMemoryIndex_new : InMemoryIndex := mkIndex ∅ ∅.

(** [*entry(token).or_default().entry(path).or_insert(0) += 1] *)
Definition bump (path : str) (m : gmap str (gmap str Z)) (token : str) : gmap str (gmap str Z) :=
  let posting := m !!! token in
  <[token := <[path := wrap32 (default 0%Z (posting !! path) + 1)]> posting]> m.

Definition add `{Lowercase} (idx : InMemoryIndex) (c : Concept) : InMemoryIndex :=
  let tokens := tokenize (searchable_text c) in
  let postings := delete (source_path c) <$> postings idx in
  let postings := filter (fun kv => kv.2 <> ∅) postings in
  let postings := fold_left (bump (source_path c)) tokens postings in
  mkIndex postings
    (<[source_path c := mkDoc (title_or_path c) (body c) (fm_status (frontmatter c))
                          (wrap32 (Z.of_nat (length tokens)))]> (docs idx)).

Section Searching.
Context {LC : Lowercase} {NL : NaturalLog}.

(** The corpus statistics. *)
Definition avgdl (idx : InMemoryIndex) : f32 :=
  let n_docs := Z.of_nat (size (docs idx)) in
  if (n_docs =? 0)%Z then f32_zero
  else f32_div (f32_of_Z (wrap64 (map_fold (fun _ d acc => (acc + d_length d)%Z) 0%Z (docs idx))))
         (f32_of_Z n_docs).

(** The body of the loop over a posting list; [None] is the panic of
    indexing [docs] with an unknown path. *)
Definition score_doc (idx : InMemoryIndex) (q : SearchQuery) (df : Z) (scores : gmap str f32)
    (p : str * Z) : option (gmap str f32) :=
  let '(path, tf) := p in
  doc ← docs idx !! path;
  if bool_decide (status_filter q = ActiveOnly) && negb (is_active_status (d_status doc))
  then Some scores
  else
    let s := default f32_zero (scores !! path) in
    Some (<[path := f32_add s (bm25_score Params_default (Z.of_nat (size (docs idx))) df tf
                                 (d_length doc) (avgdl idx))]> scores).

Fixpoint score_docs (idx : InMemoryIndex) (q : SearchQuery) (df : Z) (ps : list (str * Z))
    (scores : gmap str f32) : option (gmap str f32) :=
  match ps with
  | [] => Some scores
  | p :: ps => scores ← score_doc idx q df scores p; score_docs idx q df ps scores
  end.

(** The loop over the query's terms. *)
Fixpoint score_terms (idx : InMemoryIndex) (q : SearchQuery) (ts : list str) (seen : gset str)
    (scores : gmap str f32) : option (gmap str f32) :=
  match ts with
  | [] => Some scores
  | term :: ts =>
      let token := to_lowercase term in
      if decide (token ∈ seen) then score_terms idx q ts seen scores
      else
        let seen := {[token]} ∪ seen in
        match postings idx !! token with
        | Some posting =>
            scores ← score_docs idx q (Z.of_nat (size posting)) (map_to_list posting) scores;
            score_terms idx q ts seen scores
        | None => score_terms idx q ts seen scores
        end
  end.

Definition make_result (idx : InMemoryIndex) (p : str * f32) : option SearchResult :=
  doc ← docs idx !! p.1;
  Some (mkResult p.1 (d_title doc) (trim (take 200 (d_body doc))) p.2).

Definition result_cmp : SearchResult -> SearchResult -> comparison :=
  rank_cmp score (fun a b => str_cmp (concept_path a) (concept_path b)).

Definition search (idx : InMemoryIndex) (q : SearchQuery) : option (list SearchResult) :=
  scores ← score_terms idx q (terms q) ∅ ∅;
  results ← mapM (make_result idx) (map_to_list scores);
  Some (sort_by result_cmp results).
End Searching.

(** ** The indexed text *)
Definition history_line (line : str) : Prop := trim_end line = lit "# History".

Section Splitting.
Context (f : char -> bool).
Notation piece := (Forall (fun x => f x = false)).
Notation sep_head v := (match head v with Some x => f x = true | None => True end).

Lemma split_if_sound s :
  exists l ls, split_if f s = l :: ls /\
    (exists v, s = l ++ v /\ piece l /\ sep_head v) /\
    (forall t, t ∈ ls -> piece t /\ exists u x v, s = u ++ x :: t ++ v /\ f x = true /\ sep_head v).
Proof.
  induction s as [|c s (l & ls & IH & (v & -> & Hl & Hv) & Hls)].
  - exists [], []. split_and!; [done| |by intros t ?%elem_of_nil]. by exists [].
  - simpl. rewrite IH. destruct (f c) eqn:Hc.
    + exists [], (l :: ls). split_and!; [done|exists (c :: l ++ v); split_and!; [done|constructor|exact Hc]|].
      intros t [->|Hin]%elem_of_cons.
      * split; [done|]. by exists [], c, v.
      * destruct (Hls t Hin) as (? & u & x & v' & -> & ? & ?). split; [done|].
        by exists (c :: u), x, v'.
    + exists (c :: l), ls. split_and!; [done|exists v; split_and!; [done|by constructor|done]|].
      intros t Hin. destruct (Hls t Hin) as (? & u & x & v' & -> & ? & ?). split; [done|].
      by exists (c :: u), x, v'.
Qed.

Lemma split_if_head t v : piece t -> sep_head v -> exists ls, split_if f (t ++ v) = t :: ls.
Proof.
  intros Ht Hv. induction Ht as [|c t Hc Ht [ls IH]]; simpl.
  - destruct v as [|x v]; simpl in *; [by eexists|]. rewrite Hv. by eexists.
  - rewrite Hc, IH. by eexists.
Qed.

Lemma split_if_tail u x t v :
  f x = true -> piece t -> sep_head v -> t ∈ tail (split_if f (u ++ x :: t ++ v)).
Proof.
  intros Hx Ht Hv. induction u as [|c u IH]; simpl.
  - rewrite Hx. destruct (split_if_head t v Ht Hv) as [ls ->]. left.
  - destruct (split_if f (u ++ x :: t ++ v)) as [|l ls]; [by apply elem_of_nil in IH|].
    destruct (f c); [by right|done].
Qed.

Lemma split_if_spec s t :
  t ∈ split_if f s <->
  piece t /\ exists u v, s = u ++ t ++ v /\
    match last u with Some x => f x = true | None => True end /\ sep_head v.
Proof.
  split.
  - destruct (split_if_sound s) as (l & ls & -> & (v & Hs & Hl & Hv) & Hls).
    intros [->|Hin]%elem_of_cons; [split; [done|]; by exists [], v|].
    destruct (Hls t Hin) as (Ht & u & x & v' & -> & Hx & Hv'). split; [done|].
    exists (u ++ [x]), v'. rewrite last_snoc, <- app_assoc. done.
  - intros (Ht & u & v & -> & Hu & Hv). destruct u as [|x u _] using rev_ind.
    + simpl. destruct (split_if_head t v Ht Hv) as [ls ->]. left.
    + rewrite last_snoc in Hu. rewrite <- app_assoc. simpl.
      pose proof (split_if_tail u x t v Hu Ht Hv) as Hin.
      destruct (split_if f (u ++ x :: t ++ v)); [by apply elem_of_nil in Hin|by right].
Qed.
End Splitting.

Lemma alnum_bytes t : Forall (fun x => is_ascii_alphanumeric x = true) t -> byte_len t = length t.
Proof.
  induction 1 as [|x t Hx _ IH]; [done|]. rewrite byte_len_cons, IH. simpl. f_equal.
  unfold is_ascii_alphanumeric, is_ascii_digit, is_ascii_lowercase, is_ascii_uppercase, in_range in Hx.
  unfold len_utf8. destruct (N.ltb_spec x 128); [done|].
  rewrite !orb_true_iff, !andb_true_iff, !N.leb_le in Hx. lia.
Qed.

Lemma tokens_spec `{Lowercase} text t :
  t ∈ tokenize text <->
  (2 <= length t)%nat /\ Forall (fun x => is_ascii_digit x || is_ascii_lowercase x = true) t /\
  exists u v, to_lowercase text = u ++ t ++ v /\
    match last u with Some x => is_ascii_alphanumeric x = false | None => True end /\
    match head v with Some x => is_ascii_alphanumeric x = false | None => True end.
Proof.
  unfold tokenize. rewrite list_elem_of_In, filter_In, <- list_elem_of_In, split_if_spec.
  assert (Hneg : forall o : option char,
    match o with Some x => negb (is_ascii_alphanumeric x) = true | None => True end <->
    match o with Some x => is_ascii_alphanumeric x = false | None => True end).
  { intros [x|]; [|done]. by rewrite negb_true_iff. }
  assert (Hal : Forall (fun x => negb (is_ascii_alphanumeric x) = false) t <->
                Forall (fun x => is_ascii_alphanumeric x = true) t).
  { apply Forall_iff. intros x. by rewrite negb_false_iff. }
  rewrite Hal. split.
  - intros [(Ht & u & v & Hs & Hu & Hv) Hlen%Nat.leb_le]. rewrite alnum_bytes in Hlen by done.
    split; [done|]. split.
    + pose proof (lowercase_no_upper text) as Hup. rewrite Hs, !Forall_app in Hup.
      destruct Hup as (_ & Hup & _). rewrite Forall_forall in Ht, Hup |- *. intros x Hx.
      specialize (Ht x Hx). specialize (Hup x Hx). unfold is_ascii_alphanumeric in Ht.
      by rewrite Hup, orb_false_r in Ht.
    + exists u, v. by rewrite <- !Hneg.
  - intros (Hlen & Ht & u & v & Hs & Hu & Hv).
    assert (Ht' : Forall (fun x => is_ascii_alphanumeric x = true) t).
    { eapply Forall_impl; [exact Ht|]. intros x Hx. unfold is_ascii_alphanumeric.
      by rewrite Hx. }
    split; [|rewrite alnum_bytes by done; by apply Nat.leb_le].
    split; [done|]. exists u, v. by rewrite !Hneg.
Qed.

(** What is indexed: nothing from the first [# History] line of the
    body on (two concepts that differ only there are indexed alike, on the
    text before it); and the tokens are exactly the maximal runs of at
    least two ASCII letters and digits of the lower-cased text, so they
    never hold an upper-case letter. *)
Theorem indexed_text `{Lowercase} fm path visible h hidden text t :
  let c b := mkConcept fm b path in
  line_aligned visible -> Forall (fun l => ~ history_line l) (split_inclusive visible) ->
  is_line h -> history_line h -> (hidden = [] \/ line_aligned h) ->
  searchable_text (c (visible ++ h ++ hidden)) = searchable_text (c visible) /\
  searchable_text (c visible) = searchable_text (c []) ++ visible /\
  (t ∈ tokenize text <->
     (2 <= length t)%nat /\ Forall (fun x => is_ascii_digit x || is_ascii_lowercase x = true) t /\
     exists u v, to_lowercase text = u ++ t ++ v /\
       match last u with Some x => is_ascii_alphanumeric x = false | None => True end /\
       match head v with Some x => is_ascii_alphanumeric x = false | None => True end).
Proof.
  intros c Hal Hvis Hh Hhist Hhid.
  set (keep := fun line => negb (str_eqb (trim_end line) (lit "# History"))).
  assert (Htw : forall ls rest, Forall (fun l => ~ history_line l) ls ->
     (rest = [] \/ exists h' rest', rest = h' :: rest' /\ history_line h') ->
     take_while keep (ls ++ rest) = ls).
  { intros ls rest Hls Hrest. induction Hls as [|l ls Hl _ IH]; simpl.
    - destruct Hrest as [->|(h' & rest' & -> & Hh')]; [done|]. simpl. unfold keep.
      by rewrite (proj2 (str_eqb_eq _ _) Hh').
    - unfold keep at 1. destruct (str_eqb (trim_end l) (lit "# History")) eqn:E.
      + by apply str_eqb_eq in E.
      + simpl. by rewrite IH. }
  assert (Hvl : sum_list_with byte_len (split_inclusive visible) = byte_len visible).
  { rewrite <- (split_inclusive_concat visible) at 2. generalize (split_inclusive visible).
    intros ls. induction ls as [|l ls IH]; [done|]. simpl. by rewrite byte_len_app, IH. }
  assert (Hself : take_while keep (split_inclusive visible) = split_inclusive visible).
  { rewrite <- (app_nil_r (split_inclusive visible)) at 1. apply Htw; [done|by left]. }
  assert (Hfull : slice_to visible (byte_len visible) = visible)
    by (rewrite <- (app_nil_r visible) at 1; apply slice_to_app).
  split_and!.
  - unfold searchable_text, c. simpl. f_equal. fold keep.
    rewrite split_inclusive_app, split_inclusive_line by done.
    rewrite Htw; [|done|right; by eexists _, _].
    rewrite Hself, Hvl. by rewrite slice_to_app, Hfull.
  - unfold searchable_text, c. simpl. rewrite app_nil_r. f_equal. fold keep.
    by rewrite Hself, Hvl, Hfull.
  - apply tokens_spec.
Qed.

(** Lower-casing ASCII, for the witnesses. *)
Lemma ascii_no_upper (s : str) :
  Forall (fun c => is_ascii_uppercase c = false) (to_ascii_lowercase <$> s).
Proof.
  apply Forall_forall. intros c (x & -> & _)%list_elem_of_fmap. unfold to_ascii_lowercase.
  destruct (is_ascii_uppercase x) eqn:E; [|done].
  unfold is_ascii_uppercase, in_range in *. to_prop.
  rewrite andb_false_iff, !N.leb_gt. rewrite N.leb_le in *. lia.
Qed.

#[global] Instance ascii_lowercase : Lowercase := {|
  to_lowercase s := to_ascii_lowercase <$> s;
  lowercase_no_upper := ascii_no_upper;
  lowercase_ascii s _ := eq_refl |}.

Lemma indexed_text_witness :
  let c b := mkConcept Frontmatter_default b (lit "/a.md") in
  searchable_text (c (lit "now" ++ [nl] ++ (lit "# History " ++ [nl]) ++ lit "old")) =
    searchable_text (c (lit "now" ++ [nl])) /\
  (lit "fix" ∈ tokenize (lit "A Fix!") <-> lit "fix" ∈ [lit "fix"]).
Proof.
  intros c. 
  destruct (indexed_text Frontmatter_default (lit "/a.md") (lit "now" ++ [nl])
    (lit "# History " ++ [nl]) (lit "old") (lit "A Fix!") (lit "fix")) as (H & _ & Ht).
  - right. by exists (lit "now").
  - by repeat constructor; vm_compute.
  - split; [done|]. exists (lit "# History "). split; [|by right]. apply (bool_decide_unpack _). by vm_compute.
  - by vm_compute.
  - right. right. by exists (lit "# History ").
  - split; [exact H|]. split; intros _; [left|].
    apply (proj2 Ht). vm_compute.
    split; [repeat constructor|]. split; [repeat constructor|].
    exists [97%N; 32%N], [33%N]. done.
Defined.

(** ** The index refines its last writes *)

(** The term frequency the postings record. *)
Definition tf_of (m : gmap str (gmap str Z)) (token path : str) : option Z :=
  posting ← m !! token; posting !! path.

Fixpoint occurrences (t : str) (l : list str) : nat :=
  match l with
  | [] => 0
  | x :: l => if str_eqb t x then S (occurrences t l) else occurrences t l
  end.

Lemma tf_of_bump path m t t' p :
  tf_of (bump path m t) t' p =
    if decide (t = t' /\ path = p) then Some (wrap32 (default 0%Z (tf_of m t path) + 1))
    else tf_of m t' p.
Proof.
  unfold tf_of, bump. rewrite lookup_total_alt.
  destruct (decide (t = t')) as [<-|Ht].
  - rewrite lookup_insert_eq. simpl. destruct (decide (path = p)) as [<-|Hp].
    + rewrite lookup_insert_eq. rewrite decide_True by done.
      destruct (m !! t); simpl; [done|]. by rewrite lookup_empty.
    + rewrite lookup_insert_ne by done. rewrite decide_False by naive_solver.
      destruct (m !! t); simpl; [done|]. by rewrite lookup_empty.
  - rewrite lookup_insert_ne by done. by rewrite decide_False by naive_solver.
Qed.

Lemma str_eqb_decide a b : str_eqb a b = bool_decide (a = b).
Proof. case_bool_decide as H; [by apply str_eqb_eq|]. apply not_true_iff_false. by rewrite str_eqb_eq. Qed.

Lemma tf_of_bumps path toks m t p n :
  tf_of m t path = (if decide (n = 0%nat) then None else Some (Z.of_nat n)) ->
  (Z.of_nat (n + length toks) < 4294967296)%Z ->
  tf_of (fold_left (bump path) toks m) t p =
    if decide (path = p) then
      let k := (n + occurrences t toks)%nat in
      if decide (k = 0%nat) then None else Some (Z.of_nat k)
    else tf_of m t p.
Proof.
  revert m n. induction toks as [|x toks IH]; intros m n Hn Hlen; simpl.
  - rewrite Nat.add_0_r. by destruct (decide (path = p)) as [<-|].
  - cbn [length] in Hlen. rewrite str_eqb_decide.
    destruct (decide (t = x)) as [<-|Hx].
    + rewrite (IH _ (S n)); [| |lia].
      * rewrite bool_decide_true by done. rewrite tf_of_bump.
        destruct (decide (path = p)); [|by rewrite decide_False by naive_solver].
        by replace (S n + occurrences t toks)%nat with (n + S (occurrences t toks))%nat by lia.
      * rewrite tf_of_bump, decide_True by done. rewrite Hn.
        rewrite (decide_False (P := S n = 0%nat)) by lia. f_equal.
        destruct (decide (n = 0%nat)) as [->|]; simpl; [done|]. rewrite wrap32_small; lia.
    + rewrite (IH _ n); [| |lia].
      * rewrite bool_decide_false by done. rewrite tf_of_bump.
        destruct (decide (path = p)); [done|]. by rewrite decide_False by naive_solver.
      * rewrite tf_of_bump, decide_False by naive_solver. done.
Qed.

Definition no_empty_posting (m : gmap str (gmap str Z)) : Prop :=
  forall t posting, m !! t = Some posting -> posting <> ∅.

Lemma bumps_no_empty path toks m : no_empty_posting m -> no_empty_posting (fold_left (bump path) toks m).
Proof.
  revert m. induction toks as [|x toks IH]; intros m Hm; [done|]. simpl. apply IH.
  intros t posting. unfold bump. destruct (decide (x = t)) as [<-|Hne].
  - rewrite lookup_insert_eq. intros [= <-]. apply insert_non_empty.
  - rewrite lookup_insert_ne by done. apply Hm.
Qed.

Lemma strip_path m path t p :
  tf_of (filter (fun kv : str * gmap str Z => kv.2 <> ∅) (delete path <$> m)) t p =
    if decide (path = p) then None else tf_of m t p.
Proof.
  unfold tf_of.
  assert (Hdel : (posting ← (delete path <$> m) !! t; posting !! p) =
    if decide (path = p) then None else (posting ← m !! t; posting !! p)).
  { rewrite lookup_fmap. destruct (m !! t) as [posting|]; simpl; [|by destruct (decide _)].
    destruct (decide (path = p)) as [<-|]; [by rewrite lookup_delete_eq|by rewrite lookup_delete_ne]. }
  rewrite <- Hdel. rewrite map_lookup_filter.
  destruct ((delete path <$> m) !! t) as [posting|] eqn:Hp; simpl; [|done].
  destruct (decide (posting <> ∅)) as [Hne|He].
  - rewrite option_guard_True by done. done.
  - rewrite option_guard_False by done. simpl. assert (posting = ∅) as ->.
    { destruct (decide (posting = ∅)); [done|by destruct He]. }
    by rewrite lookup_empty.
Qed.

(** The concept of path [p] added last. *)
Definition latest (cs : list Concept) (p : str) : option Concept :=
  find_first (fun c => str_eqb (source_path c) p) (rev cs).

Definition tokens_of `{Lowercase} (c : Concept) : list str := tokenize (searchable_text c).

Definition add_all `{Lowercase} (cs : list Concept) : InMemoryIndex :=
  fold_left add cs InMemoryIndex_new.

Lemma add_all_index `{Lowercase} cs :
  Forall (fun c => (Z.of_nat (length (tokens_of c)) < 4294967296)%Z) cs ->
  let idx := add_all cs in
  (forall token path, tf_of (postings idx) token path =
     c ← latest cs path;
     let n := occurrences token (tokens_of c) in
     if decide (n = 0%nat) then None else Some (Z.of_nat n)) /\
  no_empty_posting (postings idx) /\
  (forall path, docs idx !! path =
     (fun c => mkDoc (title_or_path c) (body c) (fm_status (frontmatter c))
                 (Z.of_nat (length (tokens_of c)))) <$> latest cs path).
Proof.
  intros Hcs. unfold add_all. induction cs as [|c cs IH] using rev_ind.
  { simpl. split_and!; [done|by intros t p ?|done]. }
  apply Forall_app in Hcs as [Hcs Hc]. apply Forall_cons in Hc as [Hc _].
  destruct (IH Hcs) as (IHp & IHe & IHd). rewrite fold_left_app. simpl.
  set (idx := fold_left add cs InMemoryIndex_new) in *. simpl in *.
  assert (Hlatest : forall p, latest (cs ++ [c]) p =
    if decide (source_path c = p) then Some c else latest cs p).
  { intros p. unfold latest. rewrite rev_app_distr. simpl. rewrite str_eqb_decide.
    by do 2 case_match; case_bool_decide. }
  split_and!.
  - intros token path. rewrite Hlatest. unfold add. simpl. fold (tokens_of c).
    rewrite (tf_of_bumps _ _ _ _ _ 0); [| |done].
    + destruct (decide (source_path c = path)); [done|]. rewrite strip_path.
      by rewrite decide_False by done.
    + by rewrite strip_path, decide_True.
  - apply bumps_no_empty. intros t posting Hp.
    apply map_lookup_filter_Some in Hp as [_ Hp]. exact Hp.
  - intros path. rewrite Hlatest. destruct (decide (source_path c = path)) as [<-|Hne].
    + rewrite lookup_insert_eq. simpl. fold (tokens_of c). do 2 f_equal. apply wrap32_small. lia.
    + rewrite lookup_insert_ne by done. apply IHd.
Qed.

(** Re-adding replaces: after any sequence of additions the index is
    the index of the last version of each path.  A term's posting for a
    path holds exactly the number of occurrences of the term in the tokens
    of the path's latest version, and is absent if there is none; no
    posting list is empty; and the document's metadata are those of the
    latest version.  (No text has 2^32 tokens.) *)
Theorem index_latest_version `{Lowercase} cs :
  Forall (fun c => (Z.of_nat (length (tokens_of c)) < 4294967296)%Z) cs ->
  let idx := add_all cs in
  (forall token path, tf_of (postings idx) token path =
     c ← latest cs path;
     let n := occurrences token (tokens_of c) in
     if decide (n = 0%nat) then None else Some (Z.of_nat n)) /\
  no_empty_posting (postings idx) /\
  (forall path, docs idx !! path =
     (fun c => mkDoc (title_or_path c) (body c) (fm_status (frontmatter c))
                 (Z.of_nat (length (tokens_of c)))) <$> latest cs path).
Proof. apply add_all_index. Qed.

Lemma index_latest_version_witness :
  let c b := mkConcept Frontmatter_default (lit b) (lit "/a") in
  let idx := add_all [c "old word old"%string; c "new word"%string] in
  tf_of (postings idx) (lit "old") (lit "/a") = None /\
  tf_of (postings idx) (lit "word") (lit "/a") = Some 1%Z.
Proof.
  intros c idx.
  destruct (index_latest_version [c "old word old"%string; c "new word"%string]) as (H & _ & _).
  - by repeat constructor; vm_compute.
  - split; [etrans; [exact (H (lit "old") (lit "/a"))|]|etrans; [exact (H (lit "word") (lit "/a"))|]];
      by vm_compute.
Defined.

(** ** Results *)
Section Results.
Context {LC : Lowercase} {NL : NaturalLog}.

(** The query's terms as the loop sees them: lower-cased, each once, in
    order of first appearance. *)
Fixpoint distinct_tokens (seen : gset str) (ts : list str) : list str :=
  match ts with
  | [] => []
  | t :: ts => let token := to_lowercase t in
               if decide (token ∈ seen) then distinct_tokens seen ts
               else token :: distinct_tokens ({[token]} ∪ seen) ts
  end.

(** Document frequency. *)
Definition df_of (idx : InMemoryIndex) (token : str) : Z :=
  match postings idx !! token with Some posting => Z.of_nat (size posting) | None => 0 end.

Definition visible (q : SearchQuery) (doc : DocMeta) : bool :=
  negb (bool_decide (status_filter q = ActiveOnly) && negb (is_active_status (d_status doc))).

(** The score of one document: the BM25 terms of the query's distinct
    tokens that occur in it, added in order to 0.0. *)
Definition add_term (idx : InMemoryIndex) (path : str) (doc : DocMeta) (acc : option f32)
    (token : str) : option f32 :=
  match tf_of (postings idx) token path with
  | Some tf => Some (f32_add (default f32_zero acc)
      (bm25_score Params_default (Z.of_nat (size (docs idx))) (df_of idx token) tf
         (d_length doc) (avgdl idx)))
  | None => acc
  end.
Definition score_of (idx : InMemoryIndex) (q : SearchQuery) (path : str) (doc : DocMeta)
    (tokens : list str) (acc : option f32) : option f32 :=
  if visible q doc then fold_left (add_term idx path doc) tokens acc else acc.

(** Every posting is of an indexed document. *)
Definition consistent (idx : InMemoryIndex) : Prop :=
  forall token path tf, tf_of (postings idx) token path = Some tf -> is_Some (docs idx !! path).

Lemma score_docs_spec idx q df ps scores :
  NoDup ps.*1 -> (forall p tf, (p, tf) ∈ ps -> is_Some (docs idx !! p)) ->
  exists scores', score_docs idx q df ps scores = Some scores' /\
    forall p, scores' !! p =
      match (list_to_map ps : gmap str Z) !! p, docs idx !! p with
      | Some tf, Some doc =>
          if visible q doc then
            Some (f32_add (default f32_zero (scores !! p))
              (bm25_score Params_default (Z.of_nat (size (docs idx))) df tf (d_length doc) (avgdl idx)))
          else scores !! p
      | _, _ => scores !! p
      end.
Proof.
  revert scores. induction ps as [|[p tf] ps IH]; intros scores Hnd Hdocs.
  - exists scores. split; [done|]. intros p. by rewrite list_to_map_nil, lookup_empty.
  - rewrite fmap_cons in Hnd. apply NoDup_cons in Hnd as [Hnin Hnd]. simpl in Hnin.
    destruct (Hdocs p tf ltac:(left)) as [doc Hdoc].
    assert (Hdocs' : forall p tf, (p, tf) ∈ ps -> is_Some (docs idx !! p))
      by (intros p' tf' Hin; apply (Hdocs p' tf'); by right).
    assert (Hnone : (list_to_map ps : gmap str Z) !! p = None) by by apply not_elem_of_list_to_map_1.
    cbn [score_docs]. unfold score_doc. rewrite Hdoc. simpl.
    unfold visible in *. destruct (bool_decide _ && negb (is_active_status (d_status doc))) eqn:Hv; simpl.
    + destruct (IH scores Hnd Hdocs') as (s' & Hs' & Hlk). exists s'. split; [done|]. intros p'.
      rewrite Hlk. destruct (decide (p = p')) as [<-|Hne].
      * rewrite lookup_insert_eq, Hdoc, Hnone. by rewrite Hv.
      * by rewrite lookup_insert_ne.
    + destruct (IH (<[p:=f32_add (default f32_zero (scores !! p))
          (bm25_score Params_default (Z.of_nat (size (docs idx))) df tf (d_length doc) (avgdl idx))]> scores)
          Hnd Hdocs') as (s' & Hs' & Hlk). exists s'. split; [done|]. intros p'.
      rewrite Hlk. destruct (decide (p = p')) as [<-|Hne].
      * rewrite !lookup_insert_eq, Hdoc, Hnone. by rewrite Hv.
      * by rewrite !lookup_insert_ne.
Qed.

Lemma score_terms_spec idx q ts seen scores :
  consistent idx ->
  exists scores', score_terms idx q ts seen scores = Some scores' /\
    forall p, scores' !! p =
      match docs idx !! p with
      | Some doc => score_of idx q p doc (distinct_tokens seen ts) (scores !! p)
      | None => scores !! p
      end.
Proof.
  intros Hc. revert seen scores. induction ts as [|t ts IH]; intros seen scores.
  - exists scores. split; [done|]. intros p. simpl. unfold score_of. simpl.
    destruct (docs idx !! p) as [doc|]; [by destruct (visible q doc)|done].
  - cbn [score_terms distinct_tokens]. destruct (decide (to_lowercase t ∈ seen)); [apply IH|].
    destruct (postings idx !! to_lowercase t) as [posting|] eqn:Hp.
    + assert (Htf : forall p, tf_of (postings idx) (to_lowercase t) p = posting !! p)
        by (intros p; unfold tf_of; by rewrite Hp).
      destruct (score_docs_spec idx q (Z.of_nat (size posting)) (map_to_list posting) scores)
        as (s1 & Hs1 & Hlk1).
      { apply NoDup_fst_map_to_list. }
      { intros p tf Hin%elem_of_map_to_list. eapply (Hc (to_lowercase t)). by rewrite Htf. }
      rewrite Hs1. simpl. destruct (IH ({[to_lowercase t]} ∪ seen) s1) as (s2 & Hs2 & Hlk2).
      exists s2. split; [done|]. intros p. rewrite Hlk2, Hlk1, list_to_map_to_list.
      destruct (docs idx !! p) as [doc|]; [|by destruct (posting !! p)].
      unfold score_of. destruct (visible q doc) eqn:Hv; [|by destruct (posting !! p)].
      cbn [fold_left]. unfold add_term at 3. rewrite Htf. unfold df_of. rewrite Hp.
      by destruct (posting !! p).
    + destruct (IH ({[to_lowercase t]} ∪ seen) scores) as (s2 & Hs2 & Hlk2).
      exists s2. split; [done|]. intros p. rewrite Hlk2.
      destruct (docs idx !! p) as [doc|]; [|done]. unfold score_of.
      destruct (visible q doc) eqn:Hv; [|done].
      cbn [fold_left]. unfold add_term at 3. unfold tf_of. by rewrite Hp.
Qed.

Lemma make_results idx (l : list (str * f32)) :
  (forall p s, (p, s) ∈ l -> is_Some (docs idx !! p)) ->
  exists rs, mapM (make_result idx) l = Some rs /\
    Forall2 (fun x r => concept_path r = x.1 /\ score r = x.2 /\
      exists doc, docs idx !! x.1 = Some doc /\ r_title r = d_title doc /\
        snippet r = trim (take 200 (d_body doc))) l rs.
Proof.
  induction l as [|[p s] l IH]; intros Hl; [by exists []|].
  destruct (Hl p s ltac:(left)) as [doc Hdoc].
  destruct IH as (rs & Hrs & Hf); [intros p' s' Hin; apply (Hl p' s'); by right|].
  eexists (_ :: rs). split.
  - simpl. rewrite Hrs. unfold make_result. simpl. rewrite Hdoc. simpl. reflexivity.
  - constructor; [|done]. simpl. split_and!; [done..|]. by exists doc.
Qed.

Lemma add_all_consistent cs :
  Forall (fun c => (Z.of_nat (length (tokens_of c)) < 4294967296)%Z) cs -> consistent (add_all cs).
Proof.
  intros Hcs token path tf.
  destruct (add_all_index cs Hcs) as (Hp & _ & Hd).
  rewrite Hp, Hd. destruct (latest cs path); [by eexists|done].
Qed.

Lemma distinct_tokens_elem seen ts token :
  token ∈ distinct_tokens seen ts <-> token ∈ to_lowercase <$> ts /\ token ∉ seen.
Proof.
  revert seen. induction ts as [|t ts IH]; intros seen.
  - simpl. split; [by intros ?%elem_of_nil|]. by intros [?%elem_of_nil _].
  - rewrite fmap_cons. cbn [distinct_tokens]. destruct (decide (to_lowercase t ∈ seen)) as [Hin|Hin].
    + rewrite IH, elem_of_cons. split; [naive_solver|]. intros [[->|?] ?]; naive_solver.
    + rewrite elem_of_cons, IH, elem_of_cons, elem_of_union, elem_of_singleton. split.
      * intros [->|[? ?]]; naive_solver.
      * intros [[->|?] ?]; [by left|]. destruct (decide (token = to_lowercase t)); naive_solver.
Qed.

Lemma add_terms_acc idx p doc tokens s :
  exists s', fold_left (add_term idx p doc) tokens (Some s) = Some s'.
Proof.
  revert s. induction tokens as [|t tokens IH]; intros s; [by exists s|]. simpl.
  unfold add_term at 2. destruct (tf_of (postings idx) t p); apply IH.
Qed.

Lemma add_terms_Some idx p doc tokens :
  (exists s, fold_left (add_term idx p doc) tokens None = Some s) <->
  exists token tf, token ∈ tokens /\ tf_of (postings idx) token p = Some tf.
Proof.
  induction tokens as [|t tokens IH]; simpl.
  - split; [by intros [? ?]|]. by intros (? & ? & ?%elem_of_nil & _).
  - unfold add_term at 2. destruct (tf_of (postings idx) t p) as [tf|] eqn:Ht.
    + split; [|intros _; apply add_terms_acc]. intros _. exists t, tf. split; [left|done].
    + rewrite IH. split.
      * intros (token & tf & ? & ?). exists token, tf. split; [by right|done].
      * intros (token & tf & [->|?]%elem_of_cons & ?); [congruence|]. by exists token, tf.
Qed.

Lemma search_spec idx q :
  consistent idx ->
  exists rs, search idx q = Some rs /\
    NoDup (concept_path <$> rs) /\
    (forall p, p ∈ concept_path <$> rs <-> exists doc token tf,
       docs idx !! p = Some doc /\ visible q doc = true /\
       token ∈ to_lowercase <$> terms q /\ tf_of (postings idx) token p = Some tf) /\
    Forall (fun r => exists doc, docs idx !! concept_path r = Some doc /\
      Some (score r) = score_of idx q (concept_path r) doc (distinct_tokens ∅ (terms q)) None /\
      r_title r = d_title doc /\ snippet r = trim (take 200 (d_body doc))) rs /\
    (Forall (fun r => is_nan (score r) = false) rs -> StronglySorted (ordered result_cmp) rs).
Proof.
  intros Hc. destruct (score_terms_spec idx q (terms q) ∅ ∅ Hc) as (scores & Hs & Hlk).
  assert (Hlk' : forall p s, scores !! p = Some s <-> exists doc, docs idx !! p = Some doc /\
    score_of idx q p doc (distinct_tokens ∅ (terms q)) None = Some s).
  { intros p s. rewrite Hlk. destruct (docs idx !! p) as [doc|]; rewrite lookup_empty.
    - split; [by exists doc|]. by intros (? & [= <-] & ?).
    - split; [done|]. by intros (? & ? & _). }
  destruct (make_results idx (map_to_list scores)) as (rs0 & Hrs0 & Hf).
  { intros p s Hin%elem_of_map_to_list. apply Hlk' in Hin as (doc & -> & _). by eexists. }
  assert (Hpaths : concept_path <$> rs0 = (map_to_list scores).*1).
  { clear -Hf. induction Hf as [|x r l rs Hx _ IH]; [done|].
    destruct Hx as (Hp & _). by rewrite !fmap_cons, IH, Hp. }
  exists (sort_by result_cmp rs0). split_and!.
  - unfold search. rewrite Hs. simpl. by rewrite Hrs0.
  - rewrite sort_by_perm, Hpaths. apply NoDup_fst_map_to_list.
  - intros p. rewrite sort_by_perm, Hpaths.
    assert (p ∈ (map_to_list scores).*1 <-> exists s, scores !! p = Some s) as ->.
    { rewrite list_elem_of_fmap. split.
      - intros ([p' s] & -> & Hin%elem_of_map_to_list). by exists s.
      - intros [s Hin%elem_of_map_to_list]. by exists (p, s). }
    assert (Hex : forall doc, (exists s, score_of idx q p doc (distinct_tokens ∅ (terms q)) None = Some s)
      <-> visible q doc = true /\ exists token tf, token ∈ to_lowercase <$> terms q /\
            tf_of (postings idx) token p = Some tf).
    { intros doc. unfold score_of. destruct (visible q doc); [|by split; [intros [? ?]|intros [? _]]].
      rewrite add_terms_Some. setoid_rewrite distinct_tokens_elem. split.
      - intros (token & tf & [? _] & ?). split; [done|]. by exists token, tf.
      - intros (_ & token & tf & ? & ?). exists token, tf. by split_and!; [|apply not_elem_of_empty|]. }
    setoid_rewrite Hlk'. split.
    + intros (s & doc & Hdoc & Hsc). destruct (proj1 (Hex doc) ltac:(by exists s)) as (? & token & tf & ? & ?).
      by exists doc, token, tf.
    + intros (doc & token & tf & Hdoc & Hv & Hin & Htf).
      destruct (proj2 (Hex doc)) as [s Hsc]; [split; [done|by exists token, tf]|]. by exists s, doc.
  - rewrite sort_by_perm. rewrite Forall_forall. intros r Hr.
    apply list_elem_of_lookup in Hr as [i Hi].
    destruct (Forall2_lookup_r _ _ _ _ _ Hf Hi) as ([p s] & Hx & Hp & Hsc & doc & Hdoc & Ht & Hsn).
    simpl in *. rewrite Hp, Hsc. exists doc. split_and!; [done| |done|done].
    apply list_elem_of_lookup_2, elem_of_map_to_list in Hx. apply Hlk' in Hx as (doc' & Hdoc' & Hs').
    rewrite Hdoc in Hdoc'. by injection Hdoc' as <-.
  - intros Hnan. rewrite sort_by_perm in Hnan.
    apply (sort_by_sorted _ (fun r => is_nan (score r) = false)); [|done].
    apply rank_cmp_total; [done|]. split; unfold ordered.
    + intros x y _ _. apply (total_cmp _ _ (str_cmp_total (fun _ => True))); done.
    + intros x y z _ _ _. apply (trans_cmp _ _ (str_cmp_total (fun _ => True))); done.
Qed.
(** What a search over a consistent index (any index built by
    additions is) returns: it never fails; a document is listed, once, if
    and only if it is visible under the query's lifecycle filter and at
    least one of the query's terms, lower-cased, occurs in it; its score is
    the sum of the BM25 terms of the distinct lower-cased tokens, so that
    repeating a term changes nothing, and its title and snippet are the
    document's; and, no score being NaN, the results are ranked by
    decreasing score, ties by increasing path. *)
Theorem search_results idx q :
  consistent idx ->
  exists rs, search idx q = Some rs /\
    NoDup (concept_path <$> rs) /\
    (forall p, p ∈ concept_path <$> rs <-> exists doc token tf,
       docs idx !! p = Some doc /\ visible q doc = true /\
       token ∈ to_lowercase <$> terms q /\ tf_of (postings idx) token p = Some tf) /\
    Forall (fun r => exists doc, docs idx !! concept_path r = Some doc /\
      Some (score r) = score_of idx q (concept_path r) doc (distinct_tokens ∅ (terms q)) None /\
      r_title r = d_title doc /\ snippet r = trim (take 200 (d_body doc))) rs /\
    (Forall (fun r => is_nan (score r) = false) rs -> StronglySorted (ordered result_cmp) rs).
Proof. apply search_spec. Qed.
End Results.

(** A small index for the witness. *)
Definition sample_concept (p b : string) : Concept :=
  mkConcept Frontmatter_default (lit b) (lit p).
Definition sample_log : NaturalLog := {| ln := fun x => x |}.
Definition sample_index : InMemoryIndex :=
  add_all [sample_concept "/a" "apple"; sample_concept "/b" "apple apple"].
Definition sample_query : SearchQuery := SearchQuery_new [lit "Apple"; lit "apple"].

Lemma search_results_witness :
  exists rs, @search _ sample_log sample_index sample_query = Some rs /\
    concept_path <$> rs = [lit "/b"; lit "/a"] /\ NoDup (concept_path <$> rs).
Proof.
  destruct (@search_results _ sample_log sample_index sample_query) as (rs & Hs & Hnd & _).
  - apply add_all_consistent. by repeat constructor; vm_compute.
  - exists rs. split; [exact Hs|]. split; [|exact Hnd].
    assert (E : option_map (fmap (M := list) concept_path) (@search _ sample_log sample_index sample_query)
                = Some [lit "/b"; lit "/a"]) by (vm_compute; reflexivity).
    rewrite Hs in E. by injection E.
Defined.

(** ** Fusion *)

(** Strictly increasing keys: the invariant of a [BTreeMap]. *)
Definition keys_increasing (m : list (str * f32)) : Prop :=
  StronglySorted (fun a b => str_cmp a.1 b.1 = Lt) m.

Fixpoint alookup (p : str) (m : list (str * f32)) : option f32 :=
  match m with
  | [] => None
  | (q, s) :: m => if str_eqb p q then Some s else alookup p m
  end.

Lemma alookup_absent p m : Forall (fun a => str_cmp p a.1 = Lt) m -> alookup p m = None.
Proof.
  induction 1 as [|[q s] m Hq _ IH]; [done|]. simpl in *.
  rewrite str_eqb_decide, bool_decide_false; [done|]. intros ->. by rewrite str_cmp_refl in Hq.
Qed.

Lemma entry_add_spec path x m :
  keys_increasing m ->
  keys_increasing (entry_add path x m) /\
  (forall p, alookup p (entry_add path x m) =
     if decide (p = path) then Some (f32_add (default f32_zero (alookup path m)) x)
     else alookup p m) /\
  (forall a, str_cmp a path = Lt -> Forall (fun b => str_cmp a b.1 = Lt) m ->
     Forall (fun b => str_cmp a b.1 = Lt) (entry_add path x m)).
Proof.
  intros Hm. induction Hm as [|[q s] m Hm (IHs & IHl & IHf) Hq].
  - simpl. split_and!; [by repeat constructor| |by repeat constructor].
    intros p. rewrite str_eqb_decide.
    destruct (decide (p = path)); [by rewrite bool_decide_true|by rewrite bool_decide_false].
  - simpl. destruct (str_cmp path q) eqn:E; simpl in *.
    + apply str_cmp_eq in E as ->. split_and!.
      * by constructor.
      * intros p. rewrite !str_eqb_decide. rewrite (bool_decide_true (q = q)) by done.
        destruct (decide (p = q)); [by rewrite bool_decide_true|by rewrite bool_decide_false].
      * intros a Ha Hall. apply Forall_cons in Hall as [? ?]. by constructor.
    + assert (Hall : Forall (fun b => str_cmp path b.1 = Lt) ((q, s) :: m)).
      { constructor; [done|]. eapply Forall_impl; [exact Hq|]. intros [r ?]. simpl.
        by apply str_cmp_lt_trans. }
      split_and!.
      * constructor; [by constructor|done].
      * intros p. rewrite !str_eqb_decide.
        destruct (decide (p = path)) as [->|]; [|by rewrite (bool_decide_false (p = path))].
        rewrite bool_decide_true by done. 
        rewrite bool_decide_false by (intros ->; by rewrite str_cmp_refl in E).
        apply Forall_cons in Hall as [_ Hall]. by rewrite (alookup_absent _ _ Hall).
      * intros a Ha Hall'. by constructor.
    + split_and!.
      * constructor; [done|]. apply IHf; [|done]. simpl. rewrite (str_cmp_opp path q), E. done.
      * intros p. rewrite !str_eqb_decide, IHl.
        destruct (decide (p = path)) as [->|].
        -- rewrite !bool_decide_false by (intros ->; by rewrite str_cmp_refl in E). done.
        -- done.
      * intros a Ha Hall. apply Forall_cons in Hall as [? ?]. constructor; [done|]. by apply IHf.
Qed.

(** The 0-based rank of a path in a pool. *)
Definition rank_in (p : str) (pool : list (str * f32)) : option nat :=
  position (fun x => str_eqb p x.1) pool.

Definition add_rank (w k : f32) (r : nat) (acc : option f32) (o : option nat) : option f32 :=
  match o with
  | Some i => Some (f32_add (default f32_zero acc) (rrf_term w k (r + i)))
  | None => acc
  end.

Lemma fuse_pool_spec w k r pool m :
  NoDup pool.*1 -> keys_increasing m ->
  keys_increasing (fuse_pool w k r pool m) /\
  forall p, alookup p (fuse_pool w k r pool m) = add_rank w k r (alookup p m) (rank_in p pool).
Proof.
  revert r m. induction pool as [|[q s] pool IH]; intros r m Hnd Hm; [done|].
  rewrite fmap_cons in Hnd. apply NoDup_cons in Hnd as [Hnin Hnd]. simpl in Hnin.
  destruct (entry_add_spec q (rrf_term w k r) m Hm) as (Hs & Hl & _). simpl.
  destruct (IH (S r) _ Hnd Hs) as [IHs IHl]. split; [done|]. intros p. rewrite IHl, Hl.
  unfold rank_in. simpl. rewrite str_eqb_decide. destruct (decide (p = q)) as [->|Hne].
  - rewrite bool_decide_true by done. simpl. rewrite Nat.add_0_r.
    assert (position (fun x => str_eqb q x.1) pool = None) as ->; [|done].
    apply position_None, Forall_forall. intros x Hx. rewrite str_eqb_decide, bool_decide_false; [done|].
    intros ->. apply Hnin. by apply list_elem_of_fmap_2.
  - rewrite bool_decide_false by done. unfold add_rank.
    destruct (position _ pool) as [i|]; simpl; [|done]. by rewrite Nat.add_succ_r.
Qed.

Lemma keys_increasing_NoDup m : keys_increasing m -> NoDup m.*1.
Proof.
  induction 1 as [|[q s] m _ IH Hq]; [constructor|]. rewrite fmap_cons. constructor; [|done].
  intros ([p t] & Hp & Hin)%list_elem_of_fmap. rewrite Forall_forall in Hq.
  specialize (Hq _ Hin). simpl in *. subst. by rewrite str_cmp_refl in Hq.
Qed.

Lemma alookup_elem p s m : NoDup m.*1 -> (p, s) ∈ m <-> alookup p m = Some s.
Proof.
  induction m as [|[q t] m IH]; intros Hnd.
  - split; [by intros ?%elem_of_nil|done].
  - rewrite fmap_cons in Hnd. apply NoDup_cons in Hnd as [Hn Hnd]. simpl in Hn.
    rewrite elem_of_cons. simpl. rewrite str_eqb_decide. case_bool_decide as Hpq.
    + subst q. split.
      * intros [[= ->]|Hin]; [done|]. destruct Hn. by apply (list_elem_of_fmap_2 fst _ (p, s)).
      * intros [= ->]. by left.
    + rewrite IH by done. split; [intros [[= -> ->]|?]; done|by right].
Qed.

(** Reciprocal rank fusion of two pools of distinct paths: the result
    lists exactly the paths of either pool, each once; a path's score is
    0.0 plus [w_lex / (k + rank)] if it is in the lexical pool plus
    [w_vec / (k + rank)] if it is in the vector pool (rank counted from 1;
    the pools' own scores play no part); and, no score being NaN, the
    result is ranked by decreasing score, ties by increasing path. *)
Theorem rrf_fuse_spec lex vec params :
  NoDup lex.*1 -> NoDup vec.*1 ->
  let out := rrf_fuse lex vec params in
  NoDup out.*1 /\
  (forall p, p ∈ out.*1 <-> p ∈ lex.*1 \/ p ∈ vec.*1) /\
  (forall p s, (p, s) ∈ out <->
     add_rank (w_vec params) (rrf_k params) 0
       (add_rank (w_lex params) (rrf_k params) 0 None (rank_in p lex)) (rank_in p vec) = Some s) /\
  (Forall (fun x => is_nan x.2 = false) out -> StronglySorted (ordered fused_cmp) out).
Proof.
  intros Hlex Hvec out.
  destruct (fuse_pool_spec (w_lex params) (rrf_k params) 0 lex [] Hlex ltac:(constructor)) as [Hs1 Hl1].
  destruct (fuse_pool_spec (w_vec params) (rrf_k params) 0 vec _ Hvec Hs1) as [Hs2 Hl2].
  set (m := fuse_pool _ _ 0 vec _) in *.
  assert (Hout : out ≡ₚ m) by apply sort_by_perm.
  pose proof (keys_increasing_NoDup _ Hs2) as Hnd.
  assert (Hel : forall p s, (p, s) ∈ out <->
     add_rank (w_vec params) (rrf_k params) 0
       (add_rank (w_lex params) (rrf_k params) 0 None (rank_in p lex)) (rank_in p vec) = Some s).
  { intros p s. rewrite Hout, alookup_elem by done. by rewrite Hl2, Hl1. }
  split_and!; [by rewrite Hout| |done|].
  - intros p. 
    assert (Hr : forall pool : list (str * f32), p ∈ pool.*1 <-> is_Some (rank_in p pool)).
    { intros pool. unfold rank_in. destruct (position _ pool) as [i|] eqn:Hp.
      - split; [by eexists|intros _]. apply position_Some in Hp as (l1 & x & l2 & -> & _ & Hx & _).
        rewrite str_eqb_decide in Hx. apply bool_decide_eq_true in Hx as ->.
        apply list_elem_of_fmap_2. set_solver.
      - split; [|by intros [? ?]]. intros (x & -> & Hin)%list_elem_of_fmap.
        apply position_None in Hp. rewrite Forall_forall in Hp. specialize (Hp _ Hin). simpl in Hp.
        rewrite str_eqb_decide, bool_decide_true in Hp; done. }
    rewrite (Hr lex), (Hr vec). split.
    + intros ([p' s] & -> & Hin)%list_elem_of_fmap. apply Hel in Hin. simpl in *.
      destruct (rank_in p' lex); [left; by eexists|]. destruct (rank_in p' vec); [right; by eexists|done].
    + intros Hp. 
      destruct (add_rank (w_vec params) (rrf_k params) 0
        (add_rank (w_lex params) (rrf_k params) 0 None (rank_in p lex)) (rank_in p vec)) as [s|] eqn:E.
      * apply list_elem_of_fmap. exists (p, s). split; [done|]. by apply Hel.
      * exfalso. destruct (rank_in p vec); [done|]. destruct (rank_in p lex); [done|].
        by destruct Hp as [[? ?]|[? ?]].
  - intros Hnan. rewrite Hout in Hnan. apply (sort_by_sorted _ (fun x => is_nan x.2 = false)); [|done].
    apply rank_cmp_total; [done|]. split; unfold ordered.
    + intros x y _ _. apply (total_cmp _ _ (str_cmp_total (fun _ => True))); done.
    + intros x y z _ _ _. apply (trans_cmp _ _ (str_cmp_total (fun _ => True))); done.
Qed.

Lemma rrf_fuse_spec_witness :
  let lex := [(lit "/a", f32_one); (lit "/b", f32_zero)] in
  let vec := [(lit "/b", f32_one)] in
  (rrf_fuse lex vec RrfParams_default).*1 = [lit "/b"; lit "/a"] /\
  StronglySorted (ordered fused_cmp) (rrf_fuse lex vec RrfParams_default).
Proof.
  intros lex vec.
  destruct (rrf_fuse_spec lex vec RrfParams_default) as (_ & _ & _ & H);
    [apply (bool_decide_unpack _); by vm_compute..|].
  split; [by vm_compute|]. apply H. apply (bool_decide_unpack _). by vm_compute.
Defined.
