(* ===== verification/HotMemory.v ===== *)
(** * Hot memory

    [crates/mycelium-librarian/src/hot_memory.rs]: the process-global
    working set of recently written concepts and recent answers, per
    scope.  [HOT] is an explicit store that every operation takes and
    returns; instants are nanoseconds.  The concept store, the language
    model and Unicode upper-casing are parameters. *)
From S2P Require Import Prelude Text Concept.
Open Scope Z_scope.

Definition MAX_CONCEPTS : nat := 10.
Definition MAX_QAS : nat := 10.
Definition TTL : Z := 3600 * 1000000000.
Definition MAX_EXCERPT_CHARS : nat := 1500.

Record HotQa := mkHotQa { question : str; answer : str; qa_at : Z }.
Record HotScopeState := mkHotScope { hot_concepts : list (str * Z); qas : list HotQa }.
(** [HotScopeState::default()] *)
Definition HotScopeState_default : HotScopeState := mkHotScope [] [].

(** [HOT: Mutex<Option<HashMap<..>>>] *)
Abbreviation Hot := (option (gmap str HotScopeState)) (only parsing).

(** [state_for] takes the scope's state out of the map. *)
Definition state_for (hot : Hot) (scope_id : str) : HotScopeState * Hot :=
  let map := default ∅ hot in
  (default HotScopeState_default (map !! scope_id), Some (delete scope_id map)).

Definition put_state (hot : Hot) (scope_id : str) (state : HotScopeState) : Hot :=
  Some (<[scope_id := state]> (default ∅ hot)).

(** [while v.len() > max { v.remove(0) }] *)
Fixpoint evict {A} (max : nat) (v : list A) : list A :=
  match v with
  | [] => []
  | _ :: v' => if (max <? length v)%nat then evict max v' else v
  end.

Definition other_path (path : str) (x : str * Z) : bool := negb (str_eqb x.1 path).

Definition record_hot_write (hot : Hot) (scope_id path : str) (now : Z) : Hot :=
  let '(state, hot) := state_for hot scope_id in
  let concepts := retain (other_path path) (hot_concepts state) in
  let concepts := concepts ++ [(path, now)] in
  put_state hot scope_id (mkHotScope (evict MAX_CONCEPTS concepts) []).

Definition record_hot_delete (hot : Hot) (scope_id path : str) : Hot :=
  let '(state, hot) := state_for hot scope_id in
  put_state hot scope_id (mkHotScope (retain (other_path path) (hot_concepts state)) []).

Definition record_hot_query (hot : Hot) (scope_id q a : str) (now : Z) : Hot :=
  let '(state, hot) := state_for hot scope_id in
  put_state hot scope_id
    (mkHotScope (hot_concepts state) (evict MAX_QAS (qas state ++ [mkHotQa q a now]))).

Definition clear_hot_memory (hot : Hot) (scope_id : option str) : Hot :=
  match scope_id with
  | Some id => delete id <$> hot
  | None => None
  end.

(** ** The lookup *)

(** [str::to_uppercase], which maps ASCII texts letter by letter. *)
Definition to_ascii_uppercase (c : char) : char :=
  if is_ascii_lowercase c then (c - 32)%N else c.
Class Uppercase := {
  to_uppercase : str -> str;
  uppercase_ascii s : Forall (fun c => (c < 128)%N) s -> to_uppercase s = to_ascii_uppercase <$> s }.

Definition em_dash : str := [space; 8212%N; space].

(** The section of one concept. *)
Definition concept_section (c : Concept) : str :=
  let title := match fm_title (frontmatter c) with Some t => t | None => [] end in
  let desc := match fm_description (frontmatter c) with Some d => d | None => [] end in
  let header :=
    if bool_decide (title = []) then lit "CONCEPT " ++ source_path c
    else if bool_decide (desc = []) then lit "CONCEPT " ++ source_path c ++ em_dash ++ title
    else lit "CONCEPT " ++ source_path c ++ em_dash ++ title ++ lit " (" ++ desc ++ lit ")" in
  header ++ [nl] ++ take MAX_EXCERPT_CHARS (body c).

Definition expired (now at_ : Z) : bool := TTL <? saturating_sub now at_.

(** The loop over the concepts: the sections, and [HOT] after dropping
    what could not be read. *)
Fixpoint concept_sections (get : str -> option Concept) (now : Z) (scope_id : str) (hot : Hot)
    (l : list (str * Z)) : list str * Hot :=
  match l with
  | [] => ([], hot)
  | (path, touched) :: l =>
      if expired now touched then concept_sections get now scope_id hot l
      else match get path with
           | Some c =>
               let '(sections, hot) := concept_sections get now scope_id hot l in
               (concept_section c :: sections, hot)
           | None =>
               let '(s, hot) := state_for hot scope_id in
               let s := mkHotScope (retain (other_path path) (hot_concepts s)) (qas s) in
               concept_sections get now scope_id (put_state hot scope_id s) l
           end
  end.

Definition qa_section (qa : HotQa) : str :=
  lit "PREVIOUS Q&A" ++ [nl] ++ lit "Q: " ++ question qa ++ [nl] ++ lit "A: " ++ answer qa.

Definition system_prompt : str :=
  lit "You answer questions using ONLY the recent-memory excerpts provided. These are the most recently touched pieces of a larger knowledge base. If they fully and confidently answer the question, answer concisely (and cite concept paths when you used them). If they do NOT contain enough to answer confidently, reply with exactly: UNKNOWN".

Definition section_separator : str := [nl; nl] ++ lit "---" ++ [nl; nl].

(** [chat system prompt] is [None] on an error of the model. *)
Definition hot_lookup `{Uppercase} (chat : str -> str -> option str) (get : str -> option Concept)
    (now : Z) (hot : Hot) (scope_id q : str) : option str * Hot :=
  let '(state, hot) := state_for hot scope_id in
  let '(sections, hot) := concept_sections get now scope_id hot (hot_concepts state) in
  let sections := sections ++
    (qa_section <$> retain (fun qa => negb (expired now (qa_at qa))) (qas state)) in
  if bool_decide (sections = []) then (None, hot)
  else
    let prompt := lit "RECENT MEMORY:" ++ [nl; nl] ++ join section_separator sections ++
                  [nl; nl] ++ lit "QUESTION: " ++ q in
    match chat system_prompt prompt with
    | None => (None, hot)
    | Some text =>
        let text := trim text in
        if bool_decide (text = []) || starts_with (lit "UNKNOWN") (to_uppercase text)
        then (None, hot) else (Some text, hot)
    end.

(** ** Histories *)
Inductive HotOp :=
| HWrite (scope path : str) (now : Z)
| HDelete (scope path : str)
| HQuery (scope q a : str) (now : Z)
| HLookup (scope q : str) (now : Z) (get : str -> option Concept) (chat : str -> str -> option str)
| HClear (scope : option str).

Definition hot_step `{Uppercase} (hot : Hot) (o : HotOp) : Hot :=
  match o with
  | HWrite s p t => record_hot_write hot s p t
  | HDelete s p => record_hot_delete hot s p
  | HQuery s q a t => record_hot_query hot s q a t
  | HLookup s q t get chat => (hot_lookup chat get t hot s q).2
  | HClear o => clear_hot_memory hot o
  end.

Definition scope_state (hot : Hot) (s : str) : HotScopeState :=
  default HotScopeState_default (default ∅ hot !! s).

(** ** What the operations do to one scope *)
Lemma scope_state_put hot s s' st :
  scope_state (put_state hot s st) s' = if decide (s = s') then st else scope_state hot s'.
Proof.
  unfold scope_state, put_state. simpl. destruct (decide (s = s')) as [<-|].
  - by rewrite lookup_insert_eq.
  - by rewrite lookup_insert_ne.
Qed.

Lemma scope_state_taken hot s s' :
  scope_state (state_for hot s).2 s' =
    if decide (s = s') then HotScopeState_default else scope_state hot s'.
Proof.
  unfold scope_state, state_for. simpl. destruct (decide (s = s')) as [<-|].
  - by rewrite lookup_delete_eq.
  - by rewrite lookup_delete_ne.
Qed.

Lemma concept_sections_state get now s hot l s' :
  scope_state hot s = HotScopeState_default ->
  scope_state (concept_sections get now s hot l).2 s' =
    if decide (s = s') then HotScopeState_default else scope_state hot s'.
Proof.
  revert hot. induction l as [|[p t] l IH]; intros hot Hs; simpl.
  - by destruct (decide (s = s')) as [<-|].
  - destruct (expired now t); [by apply IH|]. destruct (get p) as [c|].
    + specialize (IH hot Hs). by destruct (concept_sections get now s hot l).
    + assert (Hst : default HotScopeState_default (default ∅ hot !! s) = HotScopeState_default) by done.
      rewrite Hst. simpl. rewrite IH.
      * destruct (decide (s = s')) as [|Hne]; [done|]. rewrite scope_state_put, decide_False by done.
        unfold scope_state. simpl. by rewrite lookup_delete_ne.
      * by rewrite scope_state_put, decide_True.
Qed.

Lemma hot_lookup_state `{Uppercase} chat get now hot s q s' :
  scope_state (hot_lookup chat get now hot s q).2 s' =
    if decide (s = s') then HotScopeState_default else scope_state hot s'.
Proof.
  unfold hot_lookup. pose proof (scope_state_taken hot s) as Ht.
  destruct (state_for hot s) as [st hot'] eqn:E. simpl in Ht.
  pose proof (concept_sections_state get now s hot' (hot_concepts st) s') as Hc.
  destruct (concept_sections get now s hot' (hot_concepts st)) as [secs hot2]. simpl in Hc.
  assert (Hres : scope_state hot2 s' =
    if decide (s = s') then HotScopeState_default else scope_state hot s').
  { rewrite Hc; [|by rewrite Ht, decide_True]. destruct (decide (s = s')); [done|].
    by rewrite Ht, decide_False. }
  repeat case_match; simpl; done.
Qed.

(** What one operation does to the state of scope [s]. *)
Lemma hot_step_state `{Uppercase} hot o s :
  let st := scope_state hot s in
  scope_state (hot_step hot o) s =
    match o with
    | HWrite s' p t => if decide (s' = s)
        then mkHotScope (evict MAX_CONCEPTS (retain (other_path p) (hot_concepts st) ++ [(p, t)])) []
        else st
    | HDelete s' p => if decide (s' = s)
        then mkHotScope (retain (other_path p) (hot_concepts st)) [] else st
    | HQuery s' q a t => if decide (s' = s)
        then mkHotScope (hot_concepts st) (evict MAX_QAS (qas st ++ [mkHotQa q a t])) else st
    | HLookup s' _ _ _ _ => if decide (s' = s) then HotScopeState_default else st
    | HClear (Some s') => if decide (s' = s) then HotScopeState_default else st
    | HClear None => HotScopeState_default
    end.
Proof.
  destruct o as [s' p t|s' p|s' q a t|s' q t get chat|[s'|]]; simpl.
  - unfold record_hot_write. simpl. rewrite scope_state_put. destruct (decide (s' = s)) as [<-|]; [done|].
    unfold scope_state. simpl. by rewrite lookup_delete_ne.
  - unfold record_hot_delete. simpl. rewrite scope_state_put. destruct (decide (s' = s)) as [<-|]; [done|].
    unfold scope_state. simpl. by rewrite lookup_delete_ne.
  - unfold record_hot_query. simpl. rewrite scope_state_put. destruct (decide (s' = s)) as [<-|]; [done|].
    unfold scope_state. simpl. by rewrite lookup_delete_ne.
  - apply hot_lookup_state.
  - unfold scope_state. destruct hot as [m|]; simpl.
    + destruct (decide (s' = s)) as [<-|]; [by rewrite lookup_delete_eq|by rewrite lookup_delete_ne].
    + rewrite lookup_empty. by destruct (decide (s' = s)).
  - done.
Qed.

(** ** The working set, from the history

    [h] lists the operations latest first. *)
Fixpoint last_write (s p : str) (h : list HotOp) : option Z :=
  match h with
  | [] => None
  | HWrite s' p' t :: h => if decide (s' = s /\ p' = p) then Some t else last_write s p h
  | HDelete s' p' :: h => if decide (s' = s /\ p' = p) then None else last_write s p h
  | HQuery _ _ _ _ :: h => last_write s p h
  | HLookup s' _ _ _ _ :: h => if decide (s' = s) then None else last_write s p h
  | HClear (Some s') :: h => if decide (s' = s) then None else last_write s p h
  | HClear None :: h => None
  end.

(** The other paths of the scope written since the last write of [p]. *)
Fixpoint written_since (s p : str) (h : list HotOp) : gset str :=
  match h with
  | [] => ∅
  | HWrite s' p' _ :: h =>
      if decide (s' = s) then if decide (p' = p) then ∅ else {[p']} ∪ written_since s p h
      else written_since s p h
  | HDelete _ _ :: h | HQuery _ _ _ _ :: h => written_since s p h
  | HLookup s' _ _ _ _ :: h => if decide (s' = s) then ∅ else written_since s p h
  | HClear (Some s') :: h => if decide (s' = s) then ∅ else written_since s p h
  | HClear None :: h => ∅
  end.

(** The answers recorded since the last write or delete, latest first. *)
Fixpoint answers_since (s : str) (h : list HotOp) : list HotQa :=
  match h with
  | [] => []
  | HWrite s' _ _ :: h | HDelete s' _ :: h =>
      if decide (s' = s) then [] else answers_since s h
  | HQuery s' q a t :: h =>
      if decide (s' = s) then mkHotQa q a t :: answers_since s h else answers_since s h
  | HLookup s' _ _ _ _ :: h => if decide (s' = s) then [] else answers_since s h
  | HClear (Some s') :: h => if decide (s' = s) then [] else answers_since s h
  | HClear None :: h => []
  end.

Lemma evict_drop {A} max (v : list A) : evict max v = drop (length v - max) v.
Proof.
  induction v as [|x v IH]; [by rewrite drop_nil|]. cbn [evict].
  destruct (Nat.ltb_spec max (length (x :: v))) as [H|H]; cbn [length] in H.
  - rewrite IH. replace (length (x :: v) - max)%nat with (S (length v - max)) by (simpl; lia). done.
  - replace (length (x :: v) - max)%nat with 0%nat by (simpl; lia). done.
Qed.

Definition working_set (l : list (str * Z)) (s : str) (h : list HotOp) : Prop :=
  NoDup l.*1 /\ (length l <= MAX_CONCEPTS)%nat /\
  (forall l1 p t l2, l = l1 ++ (p, t) :: l2 ->
     last_write s p h = Some t /\ list_to_set l2.*1 ⊆ written_since s p h) /\
  (forall p t, last_write s p h = Some t -> (size (written_since s p h) < MAX_CONCEPTS)%nat ->
     (p, t) ∈ l).

Lemma retain_other p (l : list (str * Z)) :
  NoDup l.*1 ->
  NoDup (retain (other_path p) l).*1 /\ p ∉ (retain (other_path p) l).*1 /\
  (forall x, x ∈ retain (other_path p) l <-> x ∈ l /\ x.1 <> p).
Proof.
  intros Hnd.
  assert (Hel : forall x, x ∈ retain (other_path p) l <-> x ∈ l /\ x.1 <> p).
  { intros x. rewrite list_elem_of_In, filter_In, <- list_elem_of_In. unfold other_path.
    rewrite negb_true_iff. split; intros [H1 H2]; (split; [done|]).
    - intros He. by rewrite (proj2 (str_eqb_eq _ _) He) in H2.
    - destruct (str_eqb x.1 p) eqn:E; [by apply str_eqb_eq in E|done]. }
  split_and!; [| |done].
  - induction l as [|x l IH]; [constructor|]. rewrite fmap_cons in Hnd.
    apply NoDup_cons in Hnd as [Hn Hnd]. simpl. unfold other_path at 1.
    assert (Hsub : forall y, y ∈ (retain (other_path p) l).*1 -> y ∈ l.*1).
    { intros y (z & -> & Hz)%list_elem_of_fmap. apply list_elem_of_In, filter_In in Hz as [Hz _].
      apply list_elem_of_fmap_2. by apply list_elem_of_In. }
    assert (Hrec : NoDup (retain (other_path p) l).*1).
    { apply IH; [done|]. intros y. rewrite list_elem_of_In, filter_In, <- list_elem_of_In.
      unfold other_path. rewrite negb_true_iff. split; intros [H1 H2]; (split; [done|]).
      - intros He. by rewrite (proj2 (str_eqb_eq _ _) He) in H2.
      - destruct (str_eqb y.1 p) eqn:E; [by apply str_eqb_eq in E|done]. }
    destruct (negb (str_eqb x.1 p)); [|done]. rewrite fmap_cons. constructor; [|done].
    intros Hin. by apply Hn, Hsub.
  - intros (x & Hp & Hx)%list_elem_of_fmap. apply Hel in Hx as [_ Hx]. by destruct Hx.
Qed.

(** Sub-lists of a split. *)
Lemma retain_split f (l l1 : list (str * Z)) x l2 :
  retain f l = l1 ++ x :: l2 ->
  exists k1 k2, l = k1 ++ x :: k2 /\ l2 = retain f k2.
Proof.
  revert l1. induction l as [|y l IH]; intros l1; simpl; [by destruct l1|].
  destruct (f y) eqn:Hy.
  - destruct l1 as [|z l1]; simpl; intros [= -> H].
    + by exists [], l.
    + destruct (IH _ H) as (k1 & k2 & -> & ->). by exists (z :: k1), k2.
  - intros H. destruct (IH _ H) as (k1 & k2 & -> & ->). by exists (y :: k1), k2.
Qed.

Lemma working_set_delete l s p h :
  working_set l s h -> working_set (retain (other_path p) l) s (HDelete s p :: h).
Proof.
  intros (Hnd & Hlen & Hsound & Hcomp). destruct (retain_other p l Hnd) as (Hnd' & Hnin & Hel).
  split_and!; [done| | |].
  - etrans; [|exact Hlen]. apply List.filter_length_le.
  - intros l1 q t l2 Hl. destruct (retain_split _ _ _ _ _ Hl) as (k1 & k2 & Hk & ->).
    destruct (Hsound _ _ _ _ Hk) as [Hw Hs]. cbn [last_write written_since].
    assert (q <> p).
    { intros ->. apply Hnin. rewrite Hl, fmap_app, fmap_cons. set_solver. }
    rewrite decide_False by naive_solver. split; [done|]. etrans; [|exact Hs].
    intros x. rewrite !elem_of_list_to_set, !list_elem_of_fmap.
    intros (y & -> & Hy). exists y. split; [done|].
    apply list_elem_of_In, filter_In in Hy as [Hy _]. by apply list_elem_of_In.
  - intros q t. cbn [last_write written_since]. destruct (decide (s = s /\ p = q)) as [|Hn]; [done|].
    intros Hw Hsz. apply Hel. split; [by apply Hcomp|]. simpl. naive_solver.
Qed.

Lemma working_set_append l s p t h :
  working_set l s (HDelete s p :: h) -> p ∉ l.*1 ->
  working_set (evict MAX_CONCEPTS (l ++ [(p, t)])) s (HWrite s p t :: h).
Proof.
  intros (Hnd & Hlen & Hsound & Hcomp) Hp. rewrite evict_drop, length_app. simpl length.
  set (n := (length l + 1 - MAX_CONCEPTS)%nat).
  assert (Hdrop : drop n (l ++ [(p, t)]) = drop n l ++ [(p, t)]).
  { apply drop_app_le. unfold n, MAX_CONCEPTS. lia. }
  rewrite Hdrop.
  assert (Hnd' : NoDup (l ++ [(p, t)]).*1).
  { rewrite fmap_app. apply NoDup_app. split_and!; [done| |by apply NoDup_singleton].
    intros x Hx ->%list_elem_of_singleton. done. }
  split_and!.
  - rewrite <- Hdrop. rewrite <- (take_drop n (l ++ [(p, t)])), fmap_app in Hnd'.
    by apply NoDup_app in Hnd' as (_ & _ & ?).
  - rewrite length_app, length_drop. simpl. unfold n, MAX_CONCEPTS in *. lia.
  - intros l1 q u l2 Heq. cbn [last_write written_since].
    rewrite (decide_True (P := s = s)) by done.
    destruct l2 as [|z l2 _] using rev_ind.
    + apply app_inj_tail in Heq as [_ [= <- <-]]. rewrite !decide_True by done. split; [done|]. set_solver.
    + change (l1 ++ (q, u) :: l2 ++ [z]) with (l1 ++ ((q, u) :: l2) ++ [z]) in Heq.
      rewrite app_assoc in Heq. apply app_inj_tail in Heq as [Heq <-].
      assert (Hsplit : l = (take n l ++ l1) ++ (q, u) :: l2).
      { rewrite <- (take_drop n l) at 1. by rewrite Heq, <- app_assoc. }
      assert (Hqp : p <> q).
      { intros ->. apply Hp. rewrite Hsplit, fmap_app, fmap_cons. set_solver. }
      destruct (Hsound _ _ _ _ Hsplit) as [Hw Hs]. cbn [last_write written_since] in Hw, Hs.
      rewrite decide_False in Hw by naive_solver. rewrite !decide_False by naive_solver.
      split; [done|]. rewrite fmap_app, list_to_set_app. set_solver.
  - intros q u. cbn [last_write written_since]. rewrite (decide_True (P := s = s)) by done.
    destruct (decide (p = q)) as [->|Hne].
    + rewrite decide_True by done. intros [= ->] _. set_solver.
    + rewrite decide_False by naive_solver. intros Hw Hsz.
      assert (Hsub : (size (written_since s q h) < MAX_CONCEPTS)%nat).
      { eapply Nat.le_lt_trans; [|exact Hsz]. apply subseteq_size. set_solver. }
      assert (Hin : (q, u) ∈ l).
      { apply Hcomp; cbn [last_write written_since]; [by rewrite decide_False by naive_solver|done]. }
      apply elem_of_app. left. apply list_elem_of_split in Hin as (l1 & l2 & Hl).
      assert (Hle : (n <= length l1)%nat).
      { destruct (decide (n <= length l1)%nat) as [|Hgt]; [done|]. exfalso.
        destruct (Hsound _ _ _ _ Hl) as [_ Hs]. cbn [written_since] in Hs.
        assert (Hsz2 : (length (l2 ++ [(p, t)]) <= size ({[p]} ∪ written_since s q h))%nat).
        { rewrite <- (length_fmap fst (l2 ++ _)).
          rewrite Hl in Hnd'. rewrite <- app_assoc in Hnd'. simpl in Hnd'.
          rewrite fmap_app, fmap_cons in Hnd'. apply NoDup_app in Hnd' as (_ & _ & Hnd').
          apply NoDup_cons in Hnd' as [_ Hnd'].
          rewrite <- (size_list_to_set (C := gset str)) by done.
          apply subseteq_size. rewrite fmap_app, list_to_set_app. set_solver. }
        assert (Hll : length l = (length l1 + S (length l2))%nat)
          by (by rewrite Hl, length_app).
        assert (Hn : n = (length l + 1 - MAX_CONCEPTS)%nat) by done.
        rewrite length_app in Hsz2. simpl length in *. unfold MAX_CONCEPTS in *. lia. }
      rewrite Hl, drop_app_le by done. set_solver.
Qed.

(** After any history, a scope's hot concepts are its last writes: at
    most ten, no path twice; every entry is the latest write of its path
    (not deleted, not cleared since) at its time; and a path stays until it
    is deleted or ten other paths have been written since.  Its hot answers
    are the latest ten recorded since its last write or delete, oldest
    first.  Other scopes never matter.  A lookup resets both. *)
Theorem hot_working_set `{Uppercase} ops s :
  let st := scope_state (fold_left hot_step ops None) s in
  let h := rev ops in
  working_set (hot_concepts st) s h /\ qas st = rev (take MAX_QAS (answers_since s h)).
Proof.
  simpl. induction ops as [|o ops IH] using rev_ind.
  { cbn [fold_left]. assert (scope_state None s = HotScopeState_default) as ->
      by (unfold scope_state; simpl; by rewrite lookup_empty).
    split; [|done]. split_and!; [constructor|unfold MAX_CONCEPTS; simpl; lia| |done].
    by intros []. }
  rewrite fold_left_app, rev_app_distr. simpl. rewrite hot_step_state.
  set (st := scope_state (fold_left hot_step ops None) s) in *. destruct IH as [Hws Hq].
  assert (Hempty : forall h', (forall p, last_write s p h' = None) -> working_set [] s h').
  { intros h' Hn. split_and!; [constructor|unfold MAX_CONCEPTS; simpl; lia|by intros []|].
    intros p t Hl. by rewrite Hn in Hl. }
  assert (Hsame : forall h', (forall p, last_write s p h' = last_write s p (rev ops)) ->
    (forall p, written_since s p h' = written_since s p (rev ops)) ->
    working_set (hot_concepts st) s h').
  { intros h' H1 H2. destruct Hws as (? & ? & H3 & H4). split_and!; [done..| |].
    - intros l1 p t l2 Hl. rewrite H1, H2. by eapply H3.
    - intros p t. rewrite H1, H2. apply H4. }
  destruct o as [s' p t|s' p|s' q a t|s' q t get chat|[s'|]]; simpl.
  - destruct (decide (s' = s)) as [->|Hne]; simpl.
    + split; [|done]. apply working_set_append; [by apply working_set_delete|].
      by destruct (retain_other p (hot_concepts st)) as (_ & ? & _); [apply Hws|].
    + split; [|done]. apply Hsame; intros; cbn [last_write written_since];
        by rewrite decide_False by naive_solver.
  - destruct (decide (s' = s)) as [->|Hne]; simpl.
    + split; [|done]. by apply working_set_delete.
    + split; [|done]. apply Hsame; intros; cbn [last_write written_since];
        by rewrite ?decide_False by naive_solver.
  - destruct (decide (s' = s)) as [->|Hne]; simpl; (split; [by apply Hsame|]); [|done].
    rewrite evict_drop, Hq. set (l := answers_since s (rev ops)).
    change (rev (take MAX_QAS l) ++ [mkHotQa q a t]) with (rev (mkHotQa q a t :: take MAX_QAS l)).
    rewrite List.skipn_rev, length_rev.
    unfold MAX_QAS. set (x := mkHotQa q a t).
    change (rev (take 9 l) ++ [x]) with (rev (take 10 (x :: l))). f_equal.
    assert (Hx : take 10 (x :: l) = take 10 (x :: take 10 l)) by (simpl; by rewrite take_take).
    rewrite Hx.
    set (v := x :: take 10 l). 
    destruct (decide (length v <= 10)%nat) as [Hle|Hgt].
    + rewrite !take_ge; [done|lia|]. lia.
    + f_equal. lia.
  - destruct (decide (s' = s)) as [->|Hne]; simpl; (split; [|done]).
    + apply Hempty. intros. cbn [last_write]. by rewrite decide_True.
    + apply Hsame; intros; cbn [last_write written_since]; by rewrite decide_False.
  - destruct (decide (s' = s)) as [->|Hne]; simpl; (split; [|done]).
    + apply Hempty. intros. cbn [last_write]. by rewrite decide_True.
    + apply Hsame; intros; cbn [last_write written_since]; by rewrite decide_False.
  - split; [|done]. by apply Hempty.
Qed.

(** A lookup answers only what the model said, trimmed, when that is
    neither empty nor begins with UNKNOWN; with nothing live in the hot set
    it answers nothing, whatever the model would say.  And it forgets: the
    scope's hot set is empty afterwards, whatever the outcome, so the next
    lookup of the scope, without a write or a query between, finds nothing;
    other scopes are untouched. *)
Theorem hot_lookup_forgets `{Uppercase} chat get now hot s q :
  let '(res, hot') := hot_lookup chat get now hot s q in
  (forall a, res = Some a -> exists prompt text, chat system_prompt prompt = Some text /\
     a = trim text /\ a <> [] /\ starts_with (lit "UNKNOWN") (to_uppercase a) = false) /\
  (Forall (fun x => expired now x.2 = true \/ get x.1 = None) (hot_concepts (scope_state hot s)) ->
   Forall (fun x => expired now (qa_at x) = true) (qas (scope_state hot s)) -> res = None) /\
  scope_state hot' s = HotScopeState_default /\
  (forall s', s' <> s -> scope_state hot' s' = scope_state hot s') /\
  (forall chat' get' now' q', (hot_lookup chat' get' now' hot' s q').1 = None).
Proof.
  assert (Hempty : forall chat get now hot q,
    Forall (fun x => expired now x.2 = true \/ get x.1 = None) (hot_concepts (scope_state hot s)) ->
    Forall (fun x => expired now (qa_at x) = true) (qas (scope_state hot s)) ->
    (hot_lookup chat get now hot s q).1 = None).
  { clear. intros chat get now hot q Hc Hqa. unfold hot_lookup.
    assert (Hst : (state_for hot s).1 = scope_state hot s) by done.
    destruct (state_for hot s) as [st hot1]. simpl in Hst. subst st.
    assert (Hnil : forall hot1, (concept_sections get now s hot1 (hot_concepts (scope_state hot s))).1 = []).
    { induction Hc as [|[p t] l Hx _ IH]; intros hot2; simpl; [done|]. simpl in Hx.
      destruct (expired now t); [apply IH|]. destruct Hx as [|Hx]; [done|]. rewrite Hx. apply IH. }
    specialize (Hnil hot1). destruct (concept_sections _ _ _ hot1 _) as [secs hot2]. simpl in Hnil. subst.
    assert (retain (fun qa => negb (expired now (qa_at qa))) (qas (scope_state hot s)) = []) as ->.
    { clear -Hqa. induction Hqa as [|x l Hx _ IH]; [done|]. simpl. by rewrite Hx. }
    done. }
  pose proof (hot_lookup_state chat get now hot s q) as Hstate.
  destruct (hot_lookup chat get now hot s q) as [res hot'] eqn:E. simpl in Hstate. split_and!.
  - intros a ->. unfold hot_lookup in E. destruct (state_for hot s) as [st hot1].
    destruct (concept_sections _ _ _ _ _) as [secs hot2].
    case_bool_decide; [done|]. destruct (chat system_prompt _) as [text|] eqn:Hchat; [|done].
    destruct (bool_decide (trim text = []) || _) eqn:Hb; [done|].
    injection E as <- _. apply orb_false_elim in Hb as [Hb1 Hb2].
    eexists _, text. split; [exact Hchat|]. split_and!; [done|by apply bool_decide_eq_false in Hb1|done].
  - intros Hc Hqa. specialize (Hempty chat get now hot q Hc Hqa). by rewrite E in Hempty.
  - by rewrite Hstate, decide_True.
  - intros s' Hne. by rewrite Hstate, decide_False.
  - intros chat' get' now' q'. apply Hempty; rewrite Hstate, decide_True by done; constructor.
Qed.
