(* ===== verification/JsonValue.v ===== *)
(** * JSON values

    The [Value] of [serde_json] as the agent's tools read and build it: an
    object is an association list in key order (the crate's ordered map), a
    number is one of its three kinds.  The text of a value, and what a text
    parses to, are the class [JsonText]. *)
From S2P Require Import Prelude Float Text.

Inductive Number := NPosInt (z : Z) | NNegInt (z : Z) | NFloat (x : f64).
Inductive Value :=
  | JNull | JBool (b : bool) | JNumber (n : Number) | JString (s : str) | JArray (l : list Value) | JObject (m : list (str * Value)).

(** [to_string] and [from_str], the latter with the text of its error *)
Class JsonText := { show_json : Value -> str; parse_json : str -> result Value str }.

Definition as_str (v : Value) : option str := match v with JString s => Some s | _ => None end.
Definition as_bool (v : Value) : option bool := match v with JBool b => Some b | _ => None end.
Definition as_array (v : Value) : option (list Value) := match v with JArray l => Some l | _ => None end.
Definition as_object (v : Value) : option (list (str * Value)) := match v with JObject m => Some m | _ => None end.

(** [Map::get] and [Map::insert] *)
Fixpoint member (key : str) (m : list (str * Value)) : option Value :=
  match m with
  | [] => None
  | (k, v) :: m => if str_eqb key k then Some v else member key m
  end.
Fixpoint member_insert (key : str) (v : Value) (m : list (str * Value)) : list (str * Value) :=
  match m with
  | [] => [(key, v)]
  | (k, w) :: m' =>
      match str_cmp key k with
      | Lt => (key, v) :: m
      | Eq => (k, v) :: m'
      | Gt => (k, w) :: member_insert key v m'
      end
  end.
(** [json!({..})] *)
Definition object (l : list (string * Value)) : Value :=
  JObject (fold_left (fun m kv => member_insert (lit kv.1) kv.2 m) l []).

(** [get(key).and_then(as_str)], and with [unwrap_or_default] *)
Definition member_str (key : string) (m : list (str * Value)) : option str := v ← member (lit key) m; as_str v.
Definition arg_str (key : string) (m : list (str * Value)) : str := default [] (member_str key m).
(** [filter_map(as_str)] on an array *)
Definition strings (l : list Value) : list str := omap as_str l.

(** [to_value] of an optional string and of an [f32]: widened, [null] when
    it is not finite *)
Definition option_value (o : option str) : Value := match o with Some s => JString s | None => JNull end.
Definition f64_of_f32 (x : f32) : f64 :=
  match x with S754_finite s m e => binary_normalize 53 1024 (cond_Zopp s (Z.pos m)) e s | _ => x end.
Definition f32_value (x : f32) : Value :=
  match x with S754_zero _ | S754_finite _ _ _ => JNumber (NFloat (f64_of_f32 x)) | _ => JNull end.

(** ** Induction on values, through the members of arrays and objects *)
Section Induction.
Context (P : Value -> Prop) (Hnull : P JNull) (Hbool : forall b, P (JBool b)) (Hnum : forall n, P (JNumber n))
  (Hstr : forall s, P (JString s)) (Harr : forall l, Forall P l -> P (JArray l))
  (Hobj : forall m, Forall (fun kv => P kv.2) m -> P (JObject m)).
Fixpoint Value_members_ind (v : Value) : P v :=
  match v with
  | JNull => Hnull
  | JBool b => Hbool b
  | JNumber n => Hnum n
  | JString s => Hstr s
  | JArray l => Harr l ((fix go l : Forall P l :=
      match l with [] => Forall_nil_2 _ | v :: l => Forall_cons_2 _ _ _ (Value_members_ind v) (go l) end) l)
  | JObject m => Hobj m ((fix go m : Forall (fun kv => P kv.2) m :=
      match m with [] => Forall_nil_2 _ | kv :: m => Forall_cons_2 _ _ _ (Value_members_ind kv.2) (go m) end) m)
  end.
End Induction.

(** ** Members of a map *)
Lemma member_insert_same key v m : member key (member_insert key v m) = Some v.
Proof.
  induction m as [|[k w] m IH]; simpl; [by rewrite (proj2 (str_eqb_eq _ _) eq_refl)|].
  destruct (str_cmp key k) eqn:E; simpl.
  - apply str_cmp_eq in E as ->. by rewrite (proj2 (str_eqb_eq _ _) eq_refl).
  - by rewrite (proj2 (str_eqb_eq _ _) eq_refl).
  - destruct (str_eqb key k) eqn:Ek; [|done]. apply str_eqb_eq in Ek as ->. by rewrite str_cmp_refl in E.
Qed.

Lemma member_insert_other key key' v m : key' <> key -> member key' (member_insert key v m) = member key' m.
Proof.
  intros Hne. assert (str_eqb key' key = false) as Hf by (apply not_true_is_false; by intros ->%str_eqb_eq).
  induction m as [|[k w] m IH]; simpl; [by rewrite Hf|]. destruct (str_cmp key k) eqn:E; simpl.
  - apply str_cmp_eq in E as ->. by rewrite Hf.
  - by rewrite Hf.
  - by rewrite IH.
Qed.
