(* ===== verification/Llm.v ===== *)
(** * The LLM client

    [crates/mycelium-librarian/src/llm.rs]: the stored configuration and
    what it does to the gate, the errors and their classes, the turns of an
    agent conversation with the budget pass over them, and the client's
    requests.  What the endpoint answers to a request is a parameter; JSON
    bodies are kept as the records they encode. *)
From S2P Require Import Prelude Float Text Gate GateProofs Health Search JsonValue.
Open Scope Z_scope.

(** ** The stored configuration *)
Record LlmConfig := mkLlmConfig {
  lc_url : str; lc_model : str; lc_api_key : option str;
  lc_max_parallel : Z; lc_per_user_active : Z; lc_query_wait_secs : Z; lc_chat_wait_secs : Z; lc_chat_queue_depth : Z }.
Definition LlmConfig_default : LlmConfig :=
  mkLlmConfig (lit "http://localhost:11434/v1") (lit "default") None 2 2 30 600 64.
Definition LlmConfig_clamp (c : LlmConfig) : LlmConfig :=
  mkLlmConfig (lc_url c) (lc_model c) (lc_api_key c)
    (clamp (lc_max_parallel c) 1 64) (clamp (lc_per_user_active c) 1 16) (clamp (lc_query_wait_secs c) 1 600)
    (clamp (lc_chat_wait_secs c) 1 7200) (clamp (lc_chat_queue_depth c) 1 1024).
Definition apply_to_gate `{!Oneshot Ch} (c : LlmConfig) (now : Z) (g : Gate Ch) : Gate Ch :=
  let cfg := LlmConfig_clamp c in
  let g := set_per_user_active (lc_per_user_active cfg) now g in
  let g := set_chat_queue_depth (lc_chat_queue_depth cfg) g in
  set_capacity (lc_max_parallel cfg) now g.

(** ** Errors *)
Inductive LlmError := LRequest (message : str) | LEmptyResponse | LStatus (status : Z) (body : str).
(** [Display]; the messages of foreign errors are given. *)
Definition LlmError_display (e : LlmError) : str :=
  match e with
  | LRequest m => lit "LLM request failed: " ++ m
  | LEmptyResponse => lit "LLM response missing content"
  | LStatus s b => lit "LLM endpoint returned status " ++ show_N (Z.to_N s) ++ lit ": " ++ b
  end.
Definition is_backend_down (e : LlmError) : bool :=
  match e with
  | LRequest _ => true
  | LStatus status _ => (500 <=? status) || (status =? 401) || (status =? 403)
  | LEmptyResponse => false
  end.

(** The errors and events of an agent run ([agent.rs]); the text of a store
    error is given. *)
Inductive AgentError :=
  | AStore (message : str) | ALlm (e : LlmError) | AStepCapExceeded | ABadToolArgs (name reason : str).
Definition AgentError_display (e : AgentError) : str :=
  match e with
  | AStore m => lit "store error: " ++ m
  | ALlm e => lit "LLM error: " ++ LlmError_display e
  | AStepCapExceeded => lit "agent step cap exceeded"
  | ABadToolArgs n r => lit "tool " ++ n ++ lit " returned invalid arguments: " ++ r
  end.
Definition AgentError_is_backend_down (e : AgentError) : bool := match e with ALlm e => is_backend_down e | _ => false end.
Inductive AgentEvent := EvTool (name detail : str) | EvDone (reply : str) | EvFailed (message : str).

(** ** Conversations *)
Record FunctionCall := mkFunctionCall { fc_name : str; fc_arguments : str }.
Record ToolCall := mkToolCall { tc_id : str; tc_kind : str; tc_function : FunctionCall }.
Inductive ConversationTurn :=
  | CtUser (message : str) | CtAssistant (reply : str) | CtToolCalls (calls : list ToolCall) | CtToolResult (call_id result : str).
Inductive StepOutput := SoToolCalls (calls : list ToolCall) | SoText (text : str).

Record FunctionSpec := mkFunctionSpec { fs_name : str; fs_description : str; fs_parameters : Value }.
Record ToolSpec := mkToolSpec { ts_kind : str; ts_function : FunctionSpec }.
Definition tool_spec (name description : str) (parameters : Value) : ToolSpec :=
  mkToolSpec (lit "function") (mkFunctionSpec name description parameters).

(** ** The context budget *)
Definition MAX_TOOL_RESULT_CHARS : nat := 24000.
Definition CONTEXT_TOKENS_BUDGET : Z := 96000.
Definition TOOL_RESULT_TRUNCATION_MARKER : str := [nl; nl] ++ lit "[tool output truncated at 24000 chars]".

Definition bound_tool_result (text : str) : str :=
  if (byte_len text <=? MAX_TOOL_RESULT_CHARS)%nat then text
  else slice_to text (floor_boundary text MAX_TOOL_RESULT_CHARS) ++ TOOL_RESULT_TRUNCATION_MARKER.

Definition sum_bytes {A} (f : A -> Z) (l : list A) : Z := fold_right (fun x n => f x + n) 0 l.
Definition text_bytes (s : str) : Z := Z.of_nat (byte_len s).
Definition turn_bytes (t : ConversationTurn) : Z :=
  match t with
  | CtUser text | CtAssistant text => text_bytes text
  | CtToolCalls calls =>
      sum_bytes (fun c => text_bytes (tc_id c) + text_bytes (fc_name (tc_function c)) + text_bytes (fc_arguments (tc_function c))) calls
  | CtToolResult call_id result => text_bytes call_id + text_bytes result
  end.
Definition est_tokens (text_bytes : Z) : Z := text_bytes / 4.

Definition is_user (t : ConversationTurn) : bool := match t with CtUser _ => true | _ => false end.
Definition is_result (t : ConversationTurn) : bool := match t with CtToolResult _ _ => true | _ => false end.

Definition unit_end (turns : list ConversationTurn) (start : nat) : nat :=
  match turns !! start with
  | Some (CtUser _) => match turns !! (start + 1)%nat with Some (CtAssistant _) => start + 2 | _ => start + 1 end
  | Some (CtToolCalls _) => start + 1 + length (take_while is_result (drop (start + 1) turns))
  | _ => start + 1
  end%nat.

(** [while start < turns.len()], with the turns as fuel *)
Fixpoint units_from (fuel : nat) (turns : list ConversationTurn) (start : nat) : list (nat * nat) :=
  match fuel with
  | O => []
  | S fuel => if (start <? length turns)%nat then (start, unit_end turns start) :: units_from fuel turns (unit_end turns start) else []
  end.
(** [&turns[s..e]] *)
Definition slice_of (turns : list ConversationTurn) (u : nat * nat) : list ConversationTurn := take (u.2 - u.1) (drop u.1 turns).
(** [iter().rposition(f)] *)
Fixpoint rposition {A} (f : A -> bool) (l : list A) : option nat :=
  match l with
  | [] => None
  | x :: l => match rposition f l with Some i => Some (S i) | None => if f x then Some 0%nat else None end
  end.
Fixpoint drop_units (droppable : nat) (bytes : list Z) (remaining : Z) : nat :=
  match droppable, bytes with
  | S droppable, b :: bytes =>
      if CONTEXT_TOKENS_BUDGET <? est_tokens remaining then S (drop_units droppable bytes (remaining - b)) else O
  | _, _ => O
  end.

Definition trim_conversation (turns : list ConversationTurn) : list ConversationTurn :=
  let units := units_from (length turns) turns 0 in
  let unit_bytes := (fun u => sum_bytes turn_bytes (slice_of turns u)) <$> units in
  let last_user_unit := rposition (fun u => existsb is_user (slice_of turns u)) units in
  let droppable_max := Nat.min (default (length units) last_user_unit) (length units - 1) in
  match units !! drop_units droppable_max unit_bytes (sum_bytes id unit_bytes) with
  | Some (start, _) => drop start turns
  | None => []
  end.

(** ** Requests *)
Record ChatMessage := mkChatMessage {
  m_role : str; m_content : option str; m_tool_calls : option (list ToolCall); m_tool_call_id : option str }.
Record ChatRequest := mkChatRequest { cr_model_name : str; cr_messages : list ChatMessage; cr_temperature : f32; cr_tools : option (list ToolSpec) }.
Record ResponseMessage := mkResponseMessage { rm_content : option str; rm_tool_calls : option (list ToolCall) }.
(** An answer: its status, its text where it can be read, and the messages
    of the choices its JSON has, or the text of the error *)
Record HttpResponse := mkHttpResponse { hr_status : Z; hr_text : option str; hr_choices : result (list ResponseMessage) str }.
(** The endpoint: url, bearer token and body to an answer, or the text of a
    transport error *)
Abbreviation Endpoint := (str -> option str -> ChatRequest -> result HttpResponse str) (only parsing).

Record LlmClient := mkLlmClient { cl_base_url : str; cl_model : str; cl_api_key : option str }.
Definition LlmClient_new (c : LlmConfig) : LlmClient :=
  mkLlmClient (trim_end_if (N.eqb 47) (lc_url c)) (lc_model c) (lc_api_key c).

(** [LLM_HEALTH] and [LLM_LAST_SUCCESS] *)
Record LlmStatics := mkLlmStatics { ls_health : HealthInner; ls_last_success : Z }.
(** The clocks read when an answer arrives *)
Record Arrival := mkArrival { ar_instant : Z; ar_unix : Z }.
Definition record_llm_success (at_ : Arrival) (s : LlmStatics) : LlmStatics :=
  mkLlmStatics (note_ok_at (ls_health s) (ar_instant at_)) (Z.max 0 (ar_unix at_)).
Definition record_outcome {A} (at_ : Arrival) (r : result A LlmError) (s : LlmStatics) : LlmStatics :=
  match r with
  | Err e => if is_backend_down e then mkLlmStatics (note_failure_at (ls_health s) (ar_instant at_)) (ls_last_success s) else s
  | Ok _ => s
  end.

Definition is_success (status : Z) : bool := (200 <=? status) && (status <=? 299).
(** The answer's choices, or the error *)
Definition choices_of (answer : result HttpResponse str) : result (list ResponseMessage) LlmError :=
  match answer with
  | Err m => Err (LRequest m)
  | Ok r => if is_success (hr_status r) then result_map_err LRequest (hr_choices r)
            else Err (LStatus (hr_status r) (take 500 (default [] (hr_text r))))
  end.

Definition system_message (text : str) : ChatMessage := mkChatMessage (lit "system") (Some text) None None.
Definition user_message (text : str) : ChatMessage := mkChatMessage (lit "user") (Some text) None None.
Definition turn_message (t : ConversationTurn) : ChatMessage :=
  match t with
  | CtUser text => user_message text
  | CtAssistant text => mkChatMessage (lit "assistant") (Some text) None None
  | CtToolCalls calls => mkChatMessage (lit "assistant") None (Some calls) None
  | CtToolResult call_id result => mkChatMessage (lit "tool") (Some result) None (Some call_id)
  end.
Definition bound_turn (t : ConversationTurn) : ConversationTurn :=
  match t with CtToolResult call_id result => CtToolResult call_id (bound_tool_result result) | t => t end.

Section Client.
Context (client : LlmClient) (endpoint : Endpoint) (at_ : Arrival).
Definition post_chat (body : ChatRequest) : result HttpResponse str :=
  endpoint (cl_base_url client ++ lit "/chat/completions") (cl_api_key client) body.

Definition chat_request (system : str) (conversation : list ConversationTurn) (tools : list ToolSpec) (temperature : f32) : ChatRequest :=
  mkChatRequest (cl_model client) (system_message system :: (turn_message <$> (bound_turn <$> trim_conversation conversation)))
    temperature (Some tools).
Definition chat_with_tools_impl (system : str) (conversation : list ConversationTurn) (tools : list ToolSpec) (temperature : f32)
    (s : LlmStatics) : result StepOutput LlmError * LlmStatics :=
  match choices_of (post_chat (chat_request system conversation tools temperature)) with
  | Err e => (Err e, s)
  | Ok [] => (Err LEmptyResponse, s)
  | Ok (choice :: _) =>
      (Ok match default [] (rm_tool_calls choice) with
          | [] => SoText (default [] (rm_content choice))
          | calls => SoToolCalls calls
          end, record_llm_success at_ s)
  end.
Definition chat_with_tools (system : str) (conversation : list ConversationTurn) (tools : list ToolSpec) (temperature : f32)
    (s : LlmStatics) : result StepOutput LlmError * LlmStatics :=
  let '(r, s) := chat_with_tools_impl system conversation tools temperature s in (r, record_outcome at_ r s).

Definition chat_system_impl (system : option str) (prompt : str) (temperature : f32) (s : LlmStatics) : result str LlmError * LlmStatics :=
  let messages := match system with Some sys => [system_message sys] | None => [] end ++ [user_message prompt] in
  match choices_of (post_chat (mkChatRequest (cl_model client) messages temperature None)) with
  | Err e => (Err e, s)
  | Ok choices =>
      match (c ← head choices; rm_content c) with
      | Some content => (Ok content, record_llm_success at_ s)
      | None => (Err LEmptyResponse, s)
      end
  end.
Definition chat_system (system : option str) (prompt : str) (temperature : f32) (s : LlmStatics) : result str LlmError * LlmStatics :=
  let '(r, s) := chat_system_impl system prompt temperature s in (r, record_outcome at_ r s).
Definition f32_fifth : f32 := f32_div (f32_of_Z 1) (f32_of_Z 5).
Definition chat (prompt : str) (s : LlmStatics) : result str LlmError * LlmStatics :=
  let '(r, s) := chat_system_impl None prompt f32_fifth s in (r, record_outcome at_ r s).
End Client.

(** The fence around a model's answer *)
Definition strip_code_fence (text : str) : str :=
  let trimmed := trim text in
  match strip_prefix (lit "```") trimmed with
  | None => trimmed
  | Some rest =>
      let rest := match split_once [nl] rest with Some (_, r) => r | None => rest end in
      match strip_suffix (lit "```") rest with
      | None => trim rest
      | Some stripped => trim stripped
      end
  end.

(** ** Units

    The reference decomposition: the list of the units' turns. *)
Definition unit_len (turns : list ConversationTurn) : nat := unit_end turns 0.
Fixpoint units_of (fuel : nat) (turns : list ConversationTurn) : list (list ConversationTurn) :=
  match fuel, turns with
  | S fuel, _ :: _ => take (unit_len turns) turns :: units_of fuel (drop (unit_len turns) turns)
  | _, _ => []
  end.
Definition conversation_units (turns : list ConversationTurn) : list (list ConversationTurn) := units_of (length turns) turns.

Lemma unit_end_drop turns start : unit_end turns start = (start + unit_len (drop start turns))%nat.
Proof.
  unfold unit_len, unit_end. rewrite !lookup_drop, Nat.add_0_r, drop_drop, Nat.add_0_l.
  destruct (turns !! start) as [[]|]; try (destruct (turns !! (start + 1)%nat) as [[]|]); try lia.
Qed.
Lemma unit_len_pos turns : (1 <= unit_len turns)%nat.
Proof. unfold unit_len, unit_end. repeat case_match; lia. Qed.

Lemma units_from_slices fuel turns start : (start <= length turns)%nat ->
  slice_of turns <$> units_from fuel turns start = units_of fuel (drop start turns).
Proof.
  revert start. induction fuel as [|fuel IH]; intros start Hs; simpl; [done|].
  destruct (Nat.ltb_spec start (length turns)) as [H|H].
  - destruct (drop start turns) as [|t l] eqn:E; [apply (f_equal length) in E; rewrite length_drop in E; simpl in E; lia|].
    rewrite <- E, fmap_cons. unfold slice_of at 1. simpl. rewrite unit_end_drop, Nat.add_sub_swap, Nat.sub_diag by lia.
    f_equal. simpl. destruct (decide (start + unit_len (drop start turns) <= length turns)%nat) as [Hle|Hgt].
    + rewrite IH by lia. by rewrite drop_drop.
    + rewrite drop_drop, (drop_ge turns (_ + _)) by lia. destruct fuel; simpl; [done|].
      by rewrite (proj2 (Nat.ltb_ge _ _)) by lia.
  - by rewrite drop_ge.
Qed.

Lemma units_from_starts fuel turns start i s e : units_from fuel turns start !! i = Some (s, e) -> (start <= length turns)%nat ->
  drop s turns = drop (length (concat (take i (units_of fuel (drop start turns))))) (drop start turns).
Proof.
  revert start i. induction fuel as [|fuel IH]; intros start i; simpl; [done|].
  destruct (Nat.ltb_spec start (length turns)) as [H|H]; [|done].
  destruct (drop start turns) as [|t l] eqn:E; [apply (f_equal length) in E; rewrite length_drop in E; simpl in E; lia|].
  rewrite <- E. destruct i as [|i]; simpl; [by intros [= <- <-]|]. rewrite unit_end_drop. intros Hi _.
  destruct (decide (start + unit_len (drop start turns) <= length turns)%nat) as [Hle|Hgt].
  - rewrite (IH _ _ Hi) by lia. rewrite !drop_drop, length_app, length_take, length_drop. f_equal. lia.
  - exfalso. destruct fuel; simpl in Hi; [done|]. by rewrite (proj2 (Nat.ltb_ge _ _)) in Hi by lia.
Qed.

Lemma concat_units fuel turns : (length turns <= fuel)%nat -> concat (units_of fuel turns) = turns.
Proof.
  revert turns. induction fuel as [|fuel IH]; intros [|t l] H; simpl; try done; [simpl in H; lia|].
  rewrite IH; [apply take_drop|]. rewrite length_drop. pose proof (unit_len_pos (t :: l)). simpl in *. lia.
Qed.

Lemma rposition_spec {A} (f : A -> bool) l : match rposition f l with
  | Some i => exists x, l !! i = Some x /\ f x = true /\ forall j y, l !! j = Some y -> f y = true -> (j <= i)%nat
  | None => forall x, x ∈ l -> f x = false
  end.
Proof.
  induction l as [|x l IH]; simpl; [by intros x ?%not_elem_of_nil|].
  destruct (rposition f l) as [i|].
  - destruct IH as (y & Hy & Hf & Hmax). exists y. split_and!; [done|done|].
    intros [|j] z Hj Hz; [lia|]. simpl in Hj. specialize (Hmax _ _ Hj Hz). lia.
  - destruct (f x) eqn:E.
    + exists x. split_and!; [done|done|]. intros [|j] z Hj Hz; [lia|]. simpl in Hj.
      apply list_elem_of_lookup_2 in Hj. by rewrite (IH _ Hj) in Hz.
    + intros z [->|Hz]%elem_of_cons; [done|by apply IH].
Qed.

Lemma rposition_fmap {A B} (g : A -> B) (f : B -> bool) l : rposition f (g <$> l) = rposition (fun x => f (g x)) l.
Proof. induction l as [|x l IH]; [done|]. cbn. by rewrite IH. Qed.

Lemma sum_bytes_app {A} (f : A -> Z) l1 l2 : sum_bytes f (l1 ++ l2) = sum_bytes f l1 + sum_bytes f l2.
Proof. induction l1 as [|x l1 IH]; simpl; [done|]. rewrite IH. lia. Qed.
Lemma sum_bytes_concat us : sum_bytes id (sum_bytes turn_bytes <$> us) = sum_bytes turn_bytes (concat us).
Proof. induction us as [|u us IH]; [done|]. simpl concat. by rewrite sum_bytes_app, <- IH. Qed.

(** The estimate of a conversation is over the budget. *)
Definition over_budget (turns : list ConversationTurn) : Prop := CONTEXT_TOKENS_BUDGET < est_tokens (sum_bytes turn_bytes turns).

Lemma drop_units_spec m us : let k := drop_units m (sum_bytes turn_bytes <$> us) (sum_bytes turn_bytes (concat us)) in
  (k <= m)%nat /\ (k <= length us)%nat /\ (forall j, (j < k)%nat -> over_budget (concat (drop j us))) /\
  (over_budget (concat (drop k us)) -> k = m \/ k = length us).
Proof.
  revert us. induction m as [|m IH]; intros us; simpl.
  { split_and!; [lia|lia|intros; lia|by left]. }
  destruct us as [|u us]; [cbn; split_and!; [lia|lia|intros; lia|by right]|]. rewrite fmap_cons.
  change (drop_units (S m) (sum_bytes turn_bytes u :: (sum_bytes turn_bytes <$> us)) (sum_bytes turn_bytes (concat (u :: us)))) with
    (if CONTEXT_TOKENS_BUDGET <? est_tokens (sum_bytes turn_bytes (concat (u :: us)))
     then S (drop_units m (sum_bytes turn_bytes <$> us) (sum_bytes turn_bytes (concat (u :: us)) - sum_bytes turn_bytes u)) else 0%nat).
  destruct (Z.ltb_spec CONTEXT_TOKENS_BUDGET (est_tokens (sum_bytes turn_bytes (concat (u :: us))))) as [H|H].
  - replace (sum_bytes turn_bytes (concat (u :: us)) - sum_bytes turn_bytes u) with (sum_bytes turn_bytes (concat us))
      by (simpl; rewrite sum_bytes_app; lia).
    destruct (IH us) as (Hm & Hl & Hj & Hs). split_and!; [lia|simpl; lia| |].
    + intros [|j] Hlt; [exact H|]. apply Hj. lia.
    + simpl. intros Ho. destruct (Hs Ho); [left|right]; lia.
  - split_and!; [lia|lia|intros; lia|]. intros Ho. unfold over_budget in Ho. rewrite drop_0 in Ho. lia.
Qed.

(** ** The tool protocol

    A tool result answers a call of the [AssistantToolCalls] turn it
    follows, and that turn has one result per call, in order. *)
Inductive protocol : list ConversationTurn -> Prop :=
  | pr_nil : protocol []
  | pr_user m l : protocol l -> protocol (CtUser m :: l)
  | pr_assistant m l : protocol l -> protocol (CtAssistant m :: l)
  | pr_calls calls results l : results.*1 = tc_id <$> calls -> protocol l ->
      protocol (CtToolCalls calls :: ((fun r => CtToolResult r.1 r.2) <$> results) ++ l).

Lemma protocol_app l l' : protocol l -> protocol l' -> protocol (l ++ l').
Proof.
  intros H H'. induction H as [|m l _ IH|m l _ IH|calls results l Hr _ IH]; simpl; [done|by constructor..|].
  rewrite <- app_assoc. by constructor.
Qed.

Lemma protocol_head_not_result l : protocol l -> take_while is_result l = [].
Proof. by destruct 1. Qed.

Lemma results_block (rs : list (str * str)) l : take_while is_result l = [] ->
  take_while is_result (((fun r => CtToolResult r.1 r.2) <$> rs) ++ l) = (fun r => CtToolResult r.1 r.2) <$> rs.
Proof. intros H. induction rs as [|r rs IH]; [done|]. cbn. by rewrite IH. Qed.

Lemma protocol_drop_unit l : protocol l -> protocol (drop (unit_len l) l).
Proof.
  destruct 1 as [|m l H|m l H|calls results l Hr H]; [constructor| |done|].
  - unfold unit_len, unit_end. simpl. destruct l as [|t l]; simpl; [done|].
    destruct t; simpl; try done. rewrite drop_0. by inversion H.
  - unfold unit_len, unit_end. simpl. rewrite drop_0, results_block by by apply protocol_head_not_result.
    by rewrite drop_app_length.
Qed.

Lemma protocol_drop_units fuel k l : protocol l -> (length l <= fuel)%nat -> protocol (concat (drop k (units_of fuel l))).
Proof.
  revert k l. induction fuel as [|fuel IH]; intros k l Hp Hl; [simpl; rewrite drop_nil; constructor|].
  destruct k as [|k]; [rewrite drop_0, concat_units by done; done|].
  destruct l as [|t l]; [simpl; constructor|]. cbn [units_of drop]. apply IH; [by apply protocol_drop_unit|].
  rewrite length_drop. pose proof (unit_len_pos (t :: l)). simpl in *. lia.
Qed.

(** ** The trim *)
Lemma units_bound fuel l : (length l <= fuel)%nat -> l <> [] -> units_of fuel l <> [].
Proof. by destruct fuel, l; simpl; try lia. Qed.

(** The number of units the trim drops *)
Definition dropped (turns : list ConversationTurn) : nat :=
  let us := conversation_units turns in
  drop_units (Nat.min (default (length us) (rposition (existsb is_user) us)) (length us - 1))
    (sum_bytes turn_bytes <$> us) (sum_bytes turn_bytes turns).

Lemma trim_units turns : trim_conversation turns = concat (drop (dropped turns) (conversation_units turns)).
Proof.
  unfold trim_conversation, dropped, conversation_units.
  pose proof (units_from_slices (length turns) turns 0 ltac:(lia)) as Hs. rewrite drop_0 in Hs.
  set (us := units_of (length turns) turns) in *. set (ix := units_from (length turns) turns 0) in *.
  assert (Hlen : length ix = length us) by by rewrite <- Hs, length_fmap.
  assert (Hb : ((fun u => sum_bytes turn_bytes (slice_of turns u)) <$> ix) = sum_bytes turn_bytes <$> us).
  { rewrite <- Hs, <- list_fmap_compose. done. }
  assert (Hr : rposition (fun u => existsb is_user (slice_of turns u)) ix = rposition (existsb is_user) us).
  { by rewrite <- Hs, rposition_fmap. }
  assert (Hc : concat us = turns) by by apply concat_units.
  rewrite Hb, Hr, Hlen, sum_bytes_concat, Hc.
  set (k := drop_units _ _ _). destruct (ix !! k) as [[s e]|] eqn:E.
  - pose proof (units_from_starts _ _ _ _ _ _ E ltac:(lia)) as Hd. rewrite drop_0 in Hd. fold us in Hd. rewrite Hd.
    assert (Hsplit : turns = concat (take k us) ++ concat (drop k us)) by by rewrite <- concat_app, take_drop.
    rewrite Hsplit at 1. by rewrite drop_app_length.
  - apply lookup_ge_None in E. by rewrite drop_ge by lia.
Qed.

(** The budget pass over a conversation.  The turns that are sent are those
    of the newest units: whole units only are dropped, oldest first, each
    while the rest was still over the budget, never the newest unit and
    never the one with the last message of the user; it ends over the
    budget only when what is left is one of these two.  In particular, as
    far as a run's conversation obeys the tool protocol, so does what is
    sent, and of a run's own turns, those after its last user message,
    nothing is ever dropped. *)
Theorem trim_conversation_spec turns : let us := conversation_units turns in
  concat us = turns /\
  exists k, trim_conversation turns = concat (drop k us) /\ (turns <> [] -> (k < length us)%nat) /\
    (forall j, (j < k)%nat -> over_budget (concat (drop j us))) /\
    (forall i u, us !! i = Some u -> existsb is_user u = true -> (k <= i)%nat \/
       exists i' u', (i < i')%nat /\ us !! i' = Some u' /\ existsb is_user u' = true) /\
    (over_budget (trim_conversation turns) -> S k = length us \/
       exists u, us !! k = Some u /\ existsb is_user u = true) /\
    (protocol turns -> protocol (trim_conversation turns)).
Proof.
  intros us. assert (Hc : concat us = turns) by by apply concat_units. split; [done|]. exists (dropped turns).
  assert (Hne : turns <> [] -> us <> []) by by apply units_bound. rewrite trim_units.
  unfold dropped. fold us. set (m := Nat.min _ _).
  pose proof (drop_units_spec m us) as Hspec. rewrite Hc in Hspec. destruct Hspec as (Hm & Hl & Hover & Hstop).
  set (k := drop_units m _ _) in *. pose proof (rposition_spec (existsb is_user) us) as Hp.
  split_and!; [done| |done| | |].
  - intros Ht. specialize (Hne Ht). destruct us; [done|]. simpl in *. lia.
  - intros i u Hi Hu. destruct (rposition (existsb is_user) us) as [last|] eqn:E.
    + destruct Hp as (x & Hx & Hfx & Hmax). specialize (Hmax _ _ Hi Hu). simpl in m.
      destruct (decide (k <= i)%nat) as [|Hgt]; [by left|right]. exists last, x. split; [lia|done].
    + apply list_elem_of_lookup_2 in Hi. by rewrite (Hp _ Hi) in Hu.
  - intros Ho. destruct (Hstop Ho) as [Hk|Hk].
    + destruct (rposition (existsb is_user) us) as [last|] eqn:E; simpl in m.
      * destruct Hp as (x & Hx & Hfx & _). destruct (decide (last <= length us - 1)%nat) as [Hle|Hgt].
        -- right. exists x. split; [|done]. replace k with last by lia. done.
        -- apply lookup_lt_Some in Hx. lia.
      * destruct (decide (length us = 0%nat)) as [H0|H0]; [|left; unfold m in Hk; lia].
        rewrite drop_ge in Ho by lia. vm_compute in Ho. discriminate.
    + rewrite Hk, drop_ge in Ho by lia. vm_compute in Ho. discriminate.
  - intros Hpr. by apply protocol_drop_units.
Qed.

(** ** Tool results *)

(** A tool result of at most 24,000 bytes is sent whole; of a longer one the
    longest prefix of whole characters that fits, with the marker. *)
Theorem bound_tool_result_spec text :
  ((byte_len text <= MAX_TOOL_RESULT_CHARS)%nat /\ bound_tool_result text = text) \/
  ((MAX_TOOL_RESULT_CHARS < byte_len text)%nat /\
   exists kept rest, text = kept ++ rest /\ bound_tool_result text = kept ++ TOOL_RESULT_TRUNCATION_MARKER /\
     (MAX_TOOL_RESULT_CHARS - 3 <= byte_len kept <= MAX_TOOL_RESULT_CHARS)%nat /\
     forall kept' rest', text = kept' ++ rest' -> (byte_len kept' <= MAX_TOOL_RESULT_CHARS)%nat -> (byte_len kept' <= byte_len kept)%nat).
Proof.
  unfold bound_tool_result. generalize MAX_TOOL_RESULT_CHARS as cap. intros cap.
  destruct (Nat.leb_spec (byte_len text) cap) as [H|H]; [by left|right].
  split; [done|]. destruct (floor_cut text cap ltac:(lia)) as (rest & Hs & Hb & Hmax).
  by exists (slice_to text (floor_boundary text cap)), rest.
Qed.

(** Every message of a request is the system text, or a turn of the
    conversation with its result cut. *)
Lemma wire_messages client system conversation tools temperature m :
  m ∈ cr_messages (chat_request client system conversation tools temperature) ->
  m = system_message system \/ exists t, t ∈ conversation /\ m = turn_message (bound_turn t).
Proof.
  intros [->|H]%elem_of_cons; [by left|right]. rewrite <- list_fmap_compose in H. apply list_elem_of_fmap in H as (t & -> & Ht).
  exists t. split; [|done]. destruct (trim_conversation_spec conversation) as (Hc & k & Hk & _). rewrite Hk in Ht.
  rewrite <- Hc, <- (take_drop k (conversation_units conversation)), concat_app. apply elem_of_app. by right.
Qed.

Lemma protocol_bound l : protocol l -> protocol (bound_turn <$> l).
Proof.
  induction 1 as [|m l _ IH|m l _ IH|calls results l Hr _ IH]; cbn [fmap list_fmap bound_turn]; [constructor|by constructor..|].
  rewrite fmap_app, <- list_fmap_compose.
  change (protocol (CtToolCalls calls :: (((fun r => CtToolResult r.1 r.2) ∘ (fun r : str * str => (r.1, bound_tool_result r.2))) <$> results) ++ (bound_turn <$> l))).
  rewrite (list_fmap_compose (fun r : str * str => (r.1, bound_tool_result r.2))).
  constructor; [|done]. rewrite <- Hr, <- list_fmap_compose. done.
Qed.

(** The budget pass does nothing on the conversation of a query or mutation
    run, whose only user turn is its first: whatever its tool results add
    up to, they are all sent. *)
Lemma trim_run_whole prompt l : existsb is_user l = false ->
  trim_conversation (CtUser prompt :: l) = CtUser prompt :: l.
Proof.
  intros Hl. set (turns := CtUser prompt :: l). destruct (trim_conversation_spec turns) as (Hc & k & Hk & _ & _ & Huser & _).
  assert (exists u us, conversation_units turns = u :: us /\ existsb is_user u = true) as (u & us & Hus & Hu).
  { unfold conversation_units. simpl. eexists _, _. split; [done|]. pose proof (unit_len_pos turns).
    fold turns. destruct (unit_len turns) as [|n]; [lia|]. done. }
  rewrite Hus in Hc. rewrite Hk, Hus. destruct (Huser 0%nat u) as [H0|(i & u' & Hi & Hu' & Hf)]; [by rewrite Hus|done| |].
  - assert (k = 0%nat) as -> by lia. exact Hc.
  - exfalso. rewrite Hus in Hu'. destruct i as [|i]; [lia|]. simpl in Hu'. apply list_elem_of_lookup_2 in Hu'.
    apply existsb_true in Hf as (t & Ht & Hf). apply existsb_false with (x := t) in Hl; [congruence|].
    assert (t ∈ concat us) as Hin by (apply list_elem_of_In, List.in_concat; exists u'; by rewrite <- !list_elem_of_In).
    assert (Hhd : concat us = drop (length u) turns) by by rewrite <- Hc; simpl; rewrite drop_app_length.
    rewrite Hhd in Hin. destruct u as [|t0 u]; [done|]. unfold turns in Hin. simpl in Hin.
    apply (list_elem_of_lookup_1 (drop (length u) l)) in Hin as [j Hj]. rewrite lookup_drop in Hj. by eapply list_elem_of_lookup_2.
Qed.

(** ** Examples *)
Module LlmDemo.
(** Two slots, one per user: the user's second run waits.  A configuration
    that lowers the slots to one and raises the user's bound to two admits
    it all the same: the first setter already dispatches, under the old
    number of slots. *)
Definition busy : Gate Chan :=
  (enter (Some 1%N) 0 1 (enter (Some 1%N) 0 0 (set_per_user_active 1 0 (gate (World_new 2)))).1).1.
Definition narrowed : LlmConfig := mkLlmConfig [] [] None 1 2 30 600 64.
Example apply_to_gate_stale_capacity : active (inner busy) = 1 /\
  (active (inner (apply_to_gate narrowed 0 busy)) = 2 /\ capacity (inner (apply_to_gate narrowed 0 busy)) = 1) /\
  active (inner (set_per_user_active 2 0 (set_capacity 1 0 busy))) = 1.
Proof. vm_compute. done. Qed.

Definition call (id name arguments : string) : ToolCall := mkToolCall (lit id) (lit "function") (mkFunctionCall (lit name) (lit arguments)).
Example trim_units_example :
  conversation_units [CtUser (lit "a"); CtAssistant (lit "b"); CtUser (lit "c");
                      CtToolCalls [call "1" "read_concept" "{}"]; CtToolResult (lit "1") (lit "r")] =
  [[CtUser (lit "a"); CtAssistant (lit "b")]; [CtUser (lit "c")];
   [CtToolCalls [call "1" "read_concept" "{}"]; CtToolResult (lit "1") (lit "r")]].
Proof. vm_compute. done. Qed.

Example strip_fences : strip_code_fence (lit " ```json" ++ [nl] ++ lit "{}" ++ [nl] ++ lit "``` ") = lit "{}" /\
  strip_code_fence (lit "```{}```") = lit "{}" /\ strip_code_fence (lit "{} ") = lit "{}".
Proof. vm_compute. done. Qed.
End LlmDemo.
