(* ===== verification/Extract.v ===== *)
(** * Outlines and catalogs of books

    [crates/mycelium-librarian/src/extract.rs]: the outline of a book's
    text, its catalog, and the concepts of the catalog, whose [book://]
    links [Library] resolves. *)
From S2P Require Import Prelude Float Text Gate Health Concept Library Search JsonValue Llm.
Open Scope Z_scope.

(** [char::is_alphanumeric] *)
Class Alphanumeric := {
  is_alphanumeric : char -> bool;
  alphanumeric_ascii c : (c < 128)%N -> is_alphanumeric c = is_ascii_alphanumeric c }.

Record SectionOutline := mkSection { so_index : Z; so_title : str; so_anchor_id : option str }.
Record ChapterOutline := mkChapter {
  co_index : Z; co_title : str; co_slug : str; co_sections : list SectionOutline; co_anchor_id : option str }.

(** ** Anchors *)
Definition heading_anchor_id (trimmed : str) : option str :=
  let title := trim_start (trim_start_if (N.eqb hash) trimmed) in
  t ← strip_suffix (lit "}") title;
  '(_, id) ← rsplit_once (lit "{#") t;
  let id := match strip_suffix (lit "}") id with Some i => i | None => id end in
  if bool_decide (id = []) then None else Some id.
Definition is_chapter_id (id : str) : bool :=
  match split dash id with
  | a :: n :: _ :: _ => str_eqb a (lit "ch") && all_digits n
  | _ => false
  end.
Definition is_section_id (id : str) : bool :=
  match split dash id with
  | a :: c :: s :: _ :: _ => str_eqb a (lit "sec") && all_digits c && all_digits s
  | _ => false
  end.

(** ** Headings *)
(** A heading line: its anchor, its title, its level *)
Abbreviation Heading := (option str * str * nat)%type (only parsing).
Definition heading_level (trimmed : str) : option nat :=
  let hashes := (byte_len trimmed - byte_len (trim_start_if (N.eqb hash) trimmed))%nat in
  if (hashes =? 0)%nat || (6 <? hashes)%nat || negb (starts_with [space] (slice_from trimmed hashes)) then None else Some hashes.
Definition heading_title (trimmed : str) (hashes : nat) : str :=
  let full_title := trim (trim_start (slice_from trimmed hashes)) in
  match (id ← heading_anchor_id trimmed; t ← strip_suffix (lit "{#" ++ id ++ lit "}") full_title; Some (trim_end t)) with
  | Some t => t
  | None => full_title
  end.
Definition line_heading (trimmed : str) : option Heading :=
  hashes ← heading_level trimmed; Some (heading_anchor_id trimmed, heading_title trimmed hashes, hashes).
(** The loop over the lines: what is outside the fences *)
Fixpoint fenced_headings {A} (f : nat -> str -> option A) (in_fence : bool) (i : nat) (ls : list str) : list A :=
  match ls with
  | [] => []
  | line :: ls =>
      let trimmed := trim_start line in
      if fence_line trimmed then fenced_headings f (negb in_fence) (S i) ls
      else if in_fence then fenced_headings f in_fence (S i) ls
      else match f i trimmed with
           | Some h => h :: fenced_headings f in_fence (S i) ls
           | None => fenced_headings f in_fence (S i) ls
           end
  end.

Section Extract.
Context {LC : Lowercase} {AN : Alphanumeric} {JT : JsonText}.

Fixpoint slug_chars (s : str) (out : str) (prev_dash : bool) : str :=
  match s with
  | [] => out
  | c :: s =>
      if is_alphanumeric c then slug_chars s (out ++ to_lowercase [c]) false
      else if negb prev_dash && negb (bool_decide (out = [])) then slug_chars s (out ++ [dash]) true
      else slug_chars s out prev_dash
  end.
Definition slugify (text : str) : str := trim_end_if (N.eqb dash) (slug_chars text [] false).

(** ** The outline *)
Definition anchored_chapter (h : Heading) : option ChapterOutline :=
  let '(id, title, _) := h in
  id ← id;
  if is_chapter_id id then
    n ← (p ← split dash id !! 1%nat; parse_u32 p);
    if 0 <? n then Some (mkChapter n title (slugify title) [] (Some id)) else None
  else None.
Definition anchored_section_of (h : Heading) : option (Z * SectionOutline) :=
  let '(id, title, _) := h in
  id ← id;
  if is_chapter_id id then None
  else if is_section_id id then
    '(c, m) ← section_numbers_of id;
    if 0 <? c then Some (c, mkSection m title (Some id)) else None
  else None.
(** The map of the sections by chapter, emptied chapter by chapter *)
Definition by_chapter (l : list (Z * SectionOutline)) : gmap Z (list SectionOutline) :=
  fold_left (fun m e => <[e.1 := default [] (m !! e.1) ++ [e.2]]> m) l ∅.
Fixpoint assign_sections (chapters : list ChapterOutline) (m : gmap Z (list SectionOutline)) : list ChapterOutline :=
  match chapters with
  | [] => []
  | ch :: chapters =>
      match m !! co_index ch with
      | Some secs => mkChapter (co_index ch) (co_title ch) (co_slug ch) (sort_by (fun a b => so_index a ?= so_index b) secs) (co_anchor_id ch)
                     :: assign_sections chapters (delete (co_index ch) m)
      | None => ch :: assign_sections chapters m
      end
  end.
Definition add_section (title : str) (chapters : list ChapterOutline) : list ChapterOutline :=
  match reverse chapters with
  | [] => chapters
  | ch :: rest =>
      reverse rest ++ [mkChapter (co_index ch) (co_title ch) (co_slug ch)
        (co_sections ch ++ [mkSection (wrap32 (wrap32 (Z.of_nat (length (co_sections ch))) + 1)) title None]) (co_anchor_id ch)]
  end.
Fixpoint count_outline (hs : list Heading) (chapters : list ChapterOutline) : list ChapterOutline :=
  match hs with
  | [] => chapters
  | (_, title, level) :: hs =>
      count_outline hs
        match level with
        | 1%nat => chapters ++ [mkChapter (wrap32 (wrap32 (Z.of_nat (length chapters)) + 1)) title (slugify title) [] None]
        | 2%nat => add_section title chapters
        | _ => chapters
        end
  end.
Definition outline_headings (text : str) : list Heading := fenced_headings (fun _ => line_heading) false 0 (lines text).
Definition parse_outline (text : str) : list ChapterOutline :=
  let fenced := outline_headings text in
  if existsb (fun h : Heading => is_some h.1.1) fenced then
    sort_by (fun a b => co_index a ?= co_index b) (assign_sections (omap anchored_chapter fenced) (by_chapter (omap anchored_section_of fenced)))
  else count_outline fenced [].

(** ** The concepts of the catalog *)
Record BookCatalog := mkCatalog { bc_slug : str; bc_title : str; bc_description : str; bc_chapter_summaries : list str }.

Definition chapter_anchor_id (ch : ChapterOutline) : str :=
  match co_anchor_id ch with
  | Some id => id
  | None => lit "ch-" ++ show_u32 (co_index ch) ++ lit "-" ++ co_slug ch
  end.
Definition section_anchor_id (ch : ChapterOutline) (s : SectionOutline) : str :=
  match so_anchor_id s with
  | Some id => id
  | None => lit "sec-" ++ show_u32 (co_index ch) ++ lit "-" ++ show_u32 (so_index s) ++ lit "-" ++ slugify (so_title s)
  end.
Definition book_uri (slug anchor : str) : str := lit "book://" ++ slug ++ lit "#" ++ anchor.
Definition frontmatter_of (type title description resource : str) (book : option str) (index : option Z) : Frontmatter :=
  mkFrontmatter type (Some title) (Some description) (Some resource) [] None book index None None None None None None.

Definition hub_path (slug : str) : str := lit "/" ++ slug ++ lit "/book.md".
Definition chapter_path (catalog : BookCatalog) (ch : ChapterOutline) : str := lit "/" ++ bc_slug catalog ++ lit "/" ++ chapter_anchor_id ch ++ lit ".md".
Definition build_hub_concept (catalog : BookCatalog) (outline : list ChapterOutline) : Concept :=
  let about := if bool_decide (bc_description catalog = [])
               then lit "Catalog for **" ++ bc_title catalog ++ lit "**. Full text lives in the shared library stacks." ++ [nl]
               else bc_description catalog ++ [nl] in
  let chapter ch := lit "- [" ++ co_title ch ++ lit "](" ++ chapter_path catalog ch ++ lit ")" ++ [nl] in
  mkConcept (frontmatter_of (lit "Book") (bc_title catalog) (lit "Book catalog: " ++ bc_title catalog) (lit "book://" ++ bc_slug catalog) None None)
    (lit "# About" ++ [nl; nl] ++ about ++ [nl] ++ lit "# Chapters" ++ [nl; nl] ++ concat (chapter <$> outline) ++
     [nl] ++ lit "# Related Concepts" ++ [nl; nl] ++ lit "Chapters link back to this hub." ++ [nl])
    (hub_path (bc_slug catalog)).
Definition section_link (catalog : BookCatalog) (ch : ChapterOutline) (s : SectionOutline) : str :=
  lit "- [" ++ so_title s ++ lit "](" ++ book_uri (bc_slug catalog) (section_anchor_id ch s) ++ lit ")" ++ [nl].
Definition build_chapter_concept (catalog : BookCatalog) (ch : ChapterOutline) : Concept :=
  let summary := default [] (bc_chapter_summaries catalog !! (Z.to_nat (co_index ch) - 1)%nat) in
  let chapter_uri := book_uri (bc_slug catalog) (chapter_anchor_id ch) in
  mkConcept
    (frontmatter_of (lit "Chapter") (co_title ch) (lit "Chapter " ++ show_u32 (co_index ch) ++ lit " of " ++ bc_title catalog) chapter_uri
       (Some (hub_path (bc_slug catalog))) (Some (co_index ch)))
    (lit "# " ++ co_title ch ++ [nl; nl] ++
     (if bool_decide (summary = []) then [] else lit "# Summary" ++ [nl; nl] ++ summary ++ [nl; nl]) ++
     (match co_sections ch with
      | [] => []
      | secs => lit "# Sections" ++ [nl; nl] ++ concat (section_link catalog ch <$> secs) ++ [nl]
      end) ++
     lit "# Full passage" ++ [nl; nl] ++ lit "Read the full chapter via `" ++ chapter_uri ++ lit "`." ++ [nl])
    (chapter_path catalog ch).

(** ** The catalog *)
(** The headings with their line numbers and levels *)
Definition numbered_heading (i : nat) (trimmed : str) : option (nat * nat * option str) :=
  if starts_with [hash] trimmed then hashes ← heading_level trimmed; Some (i, hashes, heading_anchor_id trimmed) else None.
Fixpoint first_words (words : list str) (out : str) : str :=
  match words with
  | [] => out
  | word :: words =>
      if (200 <? byte_len out + byte_len word + 1)%nat then out
      else first_words words ((if bool_decide (out = []) then [] else out ++ [space]) ++ word)
  end.
Definition body_words (ls : list str) : list str :=
  split_whitespace (join [space] (retain (fun l => negb (bool_decide (l = [])) && negb (starts_with [hash] l)) (trim <$> ls))).
Definition chapter_description (text : str) (headings : list (nat * nat * option str)) (ch : ChapterOutline) : str :=
  let found :=
    match co_anchor_id ch with
    | Some id => position (fun h => bool_decide (h.2 = Some id)) headings
    | None => retain (fun x : nat * (nat * nat * option str) => (x.2.1.2 =? 1)%nat) (imap pair headings) !! (Z.to_nat (co_index ch) - 1)%nat ≫= fun x => Some x.1
    end in
  match (pos ← found; h ← headings !! pos; Some (pos, h.1.1)) with
  | None => []
  | Some (pos, line) =>
      let next :=
        match co_anchor_id ch with
        | Some _ => find_first (fun h => match h.2 with Some x => starts_with (lit "ch-") x | None => false end) (drop (pos + 1) headings)
        | None => find_first (fun h => (h.1.2 =? 1)%nat) (drop (pos + 1) headings)
        end in
      let e := match next with Some h => h.1.1 | None => length (lines text) end in
      first_words (body_words (take (e - (line + 1)) (drop (line + 1) (lines text)))) []
  end.
Definition chapter_descriptions (outline : list ChapterOutline) (text : str) : list str :=
  chapter_description text (fenced_headings numbered_heading false 0 (lines text)) <$> outline.

Definition heuristic_catalog (slug title_hint : str) (outline : list ChapterOutline) : BookCatalog :=
  mkCatalog slug title_hint
    (match outline with [] => [] | _ => lit "Chapters: " ++ join (lit ", ") (co_title <$> outline) end)
    ((fun _ => []) <$> outline).

Definition quote : str := [34%N].
Definition catalog_prompt (slug title_hint : str) (outline : list ChapterOutline) : str :=
  let chapter_list := join [nl] ((fun c => show_u32 (co_index c) ++ lit ". " ++ co_title c) <$> outline) in
  lit "You are a librarian cataloging a book for a knowledge base." ++ [nl] ++
  lit "Book slug: " ++ slug ++ [nl] ++
  lit "Title hint: " ++ title_hint ++ [nl] ++
  lit "Chapter outline:" ++ [nl] ++ chapter_list ++ [nl; nl] ++
  lit "Produce a JSON object with exactly these fields:" ++ [nl] ++
  lit "- " ++ quote ++ lit "title" ++ quote ++ lit ": the book's title" ++ [nl] ++
  lit "- " ++ quote ++ lit "description" ++ quote ++ lit ": 2-3 sentences describing the book" ++ [nl; nl] ++
  lit "Respond with ONLY the JSON object, no markdown fences, no commentary.".

(** [LlmCatalog] from a value: title and description.  A derived reader
    also takes the fields in their order from an array. *)
Definition fields_named (key : str) (m : list (str * Value)) : list Value := (retain (fun kv => str_eqb kv.1 key) m).*2.
Definition LlmCatalog_of (v : Value) : option (str * str) :=
  match v with
  | JObject m =>
      match fields_named (lit "title") m, fields_named (lit "description") m with
      | [JString t], [] => Some (t, [])
      | [JString t], [JString d] => Some (t, d)
      | _, _ => None
      end
  | JArray [JString t] => Some (t, [])
  | JArray [JString t; JString d] => Some (t, d)
  | _ => None
  end.
(** [raw]: what [client.chat] answers *)
Definition llm_catalog (raw : result str LlmError) : result (str * str) LlmError :=
  match raw with
  | Err e => Err e
  | Ok raw =>
      match parse_json (strip_code_fence raw) with
      | Ok v => ok_or LEmptyResponse (LlmCatalog_of v)
      | Err _ => Err LEmptyResponse
      end
  end.
(** [chat]: the client's call, if there is a client *)
Definition build_catalog (chat : option (str -> result str LlmError)) (slug title_hint : str) (outline : list ChapterOutline) (text : str) : BookCatalog :=
  let h := heuristic_catalog slug title_hint outline in
  let catalog := mkCatalog (bc_slug h) (bc_title h) (bc_description h) (chapter_descriptions outline text) in
  match chat with
  | None => catalog
  | Some chat =>
      match llm_catalog (chat (catalog_prompt slug title_hint outline)) with
      | Ok (title, description) =>
          mkCatalog (bc_slug catalog)
            (if bool_decide (trim title = []) then bc_title catalog else trim title)
            (if bool_decide (trim description = []) then bc_description catalog else trim description)
            (bc_chapter_summaries catalog)
      | Err _ => catalog
      end
  end.
End Extract.
