(* ===== verification/ExtractProofs.v ===== *)
(** * Properties of outlines and catalogs

    The outline of a book is that of its live headings, and the links of
    its catalog resolve. *)
From S2P Require Import Prelude Float Text Gate Health Concept Library Search JsonValue Llm Extract.
Open Scope Z_scope.

(** ** Lines without their ends *)
Definition eol (c : char) : Prop := c = 10%N \/ c = 13%N.
Lemma strip_suffix_Some p s r : strip_suffix p s = Some r <-> s = r ++ p.
Proof.
  unfold strip_suffix. split.
  - destruct (strip_prefix _ _) as [x|] eqn:E; [|done]. intros [= <-]. apply strip_prefix_Some in E. apply (f_equal reverse) in E.
    by rewrite reverse_involutive, reverse_app, reverse_involutive in E.
  - intros ->. rewrite reverse_app, (proj2 (strip_prefix_Some _ _ _) eq_refl). cbn. by rewrite reverse_involutive.
Qed.
Lemma strip_line_spec l : exists w, l = strip_line l ++ w /\ Forall eol w.
Proof.
  unfold strip_line. destruct (strip_suffix [nl] l) as [l'|] eqn:E; [apply strip_suffix_Some in E|exists []; by rewrite app_nil_r].
  destruct (strip_suffix [13%N] l') as [l''|] eqn:E'; [apply strip_suffix_Some in E'|].
  - exists [13%N; nl]. rewrite E, E', <- app_assoc. split; [done|]. apply Forall_cons; split; [by right|]. apply Forall_cons; split; [by left|apply Forall_nil_2].
  - exists [nl]. split; [done|]. apply Forall_cons; split; [by left|apply Forall_nil_2].
Qed.
Lemma trim_start_app s w : trim_start_if is_whitespace (s ++ w) =
  match trim_start s with [] => trim_start w | t => t ++ w end.
Proof.
  unfold trim_start. induction s as [|c s IH]; [done|]. cbn. destruct (is_whitespace c); [exact IH|done].
Qed.
Lemma eol_whitespace w : Forall eol w -> trim_start w = [].
Proof. induction 1 as [|c w [->| ->] _ IH]; [done|..]; by cbn. Qed.
Lemma trim_start_strip l : exists w, trim_start l = trim_start (strip_line l) ++ w /\ Forall eol w.
Proof.
  destruct (strip_line_spec l) as (w & Hl & Hw). assert (trim_start l = trim_start (strip_line l ++ w)) as -> by (f_equal; exact Hl).
  unfold trim_start at 1. rewrite trim_start_app.
  destruct (trim_start (strip_line l)) as [|c t]; [|by exists w]. exists []. by rewrite eol_whitespace.
Qed.
Lemma starts_with_eol p a w : Forall eol w -> Forall (fun c => ~ eol c) p -> starts_with p (a ++ w) = starts_with p a.
Proof.
  intros Hw Hp. unfold starts_with. revert a. induction Hp as [|c p Hc Hp IH]; intros [|x a]; cbn; try done.
  - destruct Hw as [|y w Hy Hw]; [done|]. cbn. destruct (N.eqb_spec c y) as [->|]; done.
  - destruct (N.eqb_spec c x); [apply IH|done].
Qed.
Ltac no_eol := unfold eol; repeat constructor; intros [? | ?]; done.
Lemma fence_strip l : fence_line (trim_start l) = fence_line (trim_start (strip_line l)).
Proof.
  destruct (trim_start_strip l) as (w & -> & Hw). unfold fence_line. f_equal; apply starts_with_eol; try done; no_eol.
Qed.

(** ** Levels *)
Lemma level_spec t lvl : heading_level t = Some lvl <-> (0 < lvl <= 6)%nat /\ exists r, t = replicate lvl hash ++ space :: r.
Proof.
  unfold heading_level. destruct (trim_start_if_spec (N.eqb hash) t) as (a & Ht & Ha & Hhd). set (r := trim_start_if _ t) in *.
  assert (Hrep : a = replicate (length a) hash).
  { clear -Ha. induction Ha as [|c a Hc _ IH]; [done|]. apply N.eqb_eq in Hc as <-. cbn. by rewrite <- IH. }
  assert (Hlen : byte_len t = (length a + byte_len r)%nat).
  { rewrite Ht, byte_len_app. f_equal. rewrite Hrep at 1. clear. induction (length a) as [|n IH]; [done|]. cbn [replicate].
    rewrite byte_len_cons. rewrite IH. by vm_compute. }
  rewrite Hlen. replace (length a + byte_len r - byte_len r)%nat with (length a) by lia.
  assert (Hfrom : slice_from t (length a) = r).
  { rewrite Ht. replace (length a) with (byte_len a); [apply slice_from_app|]. rewrite Ht, byte_len_app in Hlen. lia. }
  rewrite Hfrom. clearbody r. clear Hlen Hfrom. split.
  - destruct (Nat.eqb_spec (length a) 0); [done|]. destruct (Nat.ltb_spec 6 (length a)); [done|]. cbn.
    destruct (starts_with [space] r) eqn:Es; [|done]. intros [= <-]. split; [lia|]. apply starts_with_spec in Es as [r' ->]. exists r'. by rewrite Ht, Hrep at 1.
  - intros [Hl [r' Hr]]. rewrite Ht, Hrep in Hr. assert (length a = lvl /\ r = space :: r') as [Hal Hrr].
    { revert Hr Hhd. generalize (length a). clear. revert lvl. intros m n. revert m. induction n as [|n IH]; intros [|m]; cbn; [done|..].
      - intros -> H. done.
      - intros [= ?].
      - intros [= Hr] Hhd. destruct (IH m Hr Hhd) as [-> ->]. done. }
    rewrite Hal, Hrr. destruct (Nat.eqb_spec lvl 0); [lia|]. destruct (Nat.ltb_spec 6 lvl); [lia|]. done.
Qed.
Lemma level_strip l : heading_level (trim_start (strip_line l)) = heading_level (trim_start l).
Proof.
  destruct (trim_start_strip l) as (w & -> & Hw). set (t := trim_start (strip_line l)). clearbody t.
  apply option_eq. intros lvl. rewrite !level_spec. apply and_iff_compat_l. split; intros [r Hr].
  - exists (r ++ w). by rewrite Hr, <- app_assoc.
  - assert (Hs : starts_with (replicate lvl hash ++ [space]) t = true).
    { rewrite <- (starts_with_eol _ _ w) by (done || (apply Forall_app; split; [apply Forall_replicate|]; no_eol)).
      apply starts_with_spec. exists r. by rewrite Hr, <- app_assoc. }
    apply starts_with_spec in Hs as [r' ->]. exists r'. by rewrite <- app_assoc.
Qed.
Lemma level_one t : (heading_level t = Some 1%nat) <-> starts_with (lit "# ") t = true.
Proof. rewrite level_spec, starts_with_spec. split; [intros [_ [r ->]]; by exists r|intros [r ->]; split; [lia|by exists r]]. Qed.
Lemma level_two t : (heading_level t = Some 2%nat) <-> starts_with (lit "## ") t = true.
Proof. rewrite level_spec, starts_with_spec. split; [intros [_ [r ->]]; by exists r|intros [r ->]; split; [lia|by exists r]]. Qed.

(** ** Blocks *)
Section Blocks.
Context {A B : Type} (p : A -> bool) (q : B -> bool) (f : A -> option B).
Lemma blocks_snoc l x : blocks p (l ++ [x]) =
  let '(pre, bs) := blocks p l in
  if p x then (pre, bs ++ [[x]])
  else match reverse bs with [] => (pre ++ [x], []) | b :: rest => (pre, reverse rest ++ [b ++ [x]]) end.
Proof.
  induction l as [|y l IH]; cbn; [by destruct (p x)|]. rewrite IH. destruct (blocks p l) as [pre bs]. destruct (p x).
  - by destruct (p y).
  - destruct bs as [|b bs _] using rev_ind; [by destruct (p y)|]. rewrite reverse_snoc. simpl. rewrite reverse_involutive.
    destruct (p y).
    { rewrite (app_comm_cons bs [b]), reverse_snoc. simpl. by rewrite reverse_involutive. }
    by rewrite ?reverse_snoc, ?reverse_involutive.
Qed.
Lemma blocks_omap (l : list A) : (forall x, x ∈ l -> p x = true -> exists y, f x = Some y /\ q y = true) ->
  (forall x y, x ∈ l -> f x = Some y -> p x = false -> q y = false) ->
  blocks q (omap f l : list B) = (omap f (blocks p l).1 : list B, (omap f : list A -> list B) <$> (blocks p l).2).
Proof.
  induction l as [|x l IH]; intros H1 H2; [done|]. cbn. specialize (IH ltac:(set_solver) ltac:(set_solver)).
  destruct (blocks p l) as [pre bs] eqn:E. cbn in IH. destruct (p x) eqn:Hp.
  - destruct (H1 x ltac:(left) Hp) as (y & Hy & Hq). rewrite Hy. cbn. rewrite IH, Hq. cbn. by rewrite Hy.
  - destruct (f x) as [y|] eqn:Hy; cbn.
    + rewrite IH, (H2 x y ltac:(left) Hy Hp). cbn. by rewrite Hy.
    + by rewrite IH, Hy.
Qed.
Lemma blocks_heads (l : list A) b : b ∈ (blocks p l).2 -> exists x rest, b = x :: rest /\ p x = true /\ x ∈ l /\ (forall y, y ∈ rest -> y ∈ l /\ p y = false).
Proof.
  assert (Hpre : forall (l : list A) y, y ∈ (blocks p l).1 -> y ∈ l /\ p y = false).
  { clear. intros l. induction l as [|x l IH]; cbn; [by intros y ?%not_elem_of_nil|]. intros y. destruct (blocks p l) as [pre bs]. cbn in IH.
    destruct (p x) eqn:Hp; cbn; [by intros ?%not_elem_of_nil|]. intros [->|Hy]%elem_of_cons; [split; [left|done]|]. destruct (IH y Hy). split; [by right|done]. }
  induction l as [|x l IH]; cbn; [by intros ?%not_elem_of_nil|]. specialize (Hpre l). destruct (blocks p l) as [pre bs]. cbn in IH, Hpre.
  destruct (p x) eqn:Hp; cbn.
  - intros [->|Hb]%elem_of_cons.
    + exists x, pre. split_and!; [done|done|left|]. intros y Hy. destruct (Hpre y Hy). split; [by right|done].
    + destruct (IH Hb) as (z & rest & -> & ? & ? & Hr). exists z, rest. split_and!; [done|done|by right|]. intros y Hy. destruct (Hr y Hy). split; [by right|done].
  - intros Hb. destruct (IH Hb) as (z & rest & -> & ? & ? & Hr). exists z, rest. split_and!; [done|done|by right|]. intros y Hy. destruct (Hr y Hy). split; [by right|done].
Qed.
Lemma blocks_count l : length (blocks p l).2 = length (retain p l).
Proof. induction l as [|x l IH]; [done|]. cbn. destruct (blocks p l), (p x); cbn in *; lia. Qed.
End Blocks.

Section Outline.
Context {LC : Lowercase} {AN : Alphanumeric}.

(** ** The headings of the live lines *)
Definition live_heading (x : bool * str) : option Heading := if x.1 then line_heading (trim_start (strip_line x.2)) else None.
Lemma fenced_live {A} (f : nat -> str -> option A) (g : str -> option A) b i ls : (forall i t, f i t = g t) ->
  fenced_headings f b i (strip_line <$> ls) = omap (fun x : bool * str => if x.1 then g (trim_start (strip_line x.2)) else None) (live b ls).
Proof.
  intros Hf. revert b i. induction ls as [|l ls IH]; intros b i; [done|]. cbn. rewrite <- fence_strip.
  destruct (fence_line (trim_start l)); cbn; [apply IH|]. destruct b; cbn; [apply IH|]. rewrite Hf.
  destruct (g _); cbn; by rewrite IH.
Qed.
Lemma outline_live text : outline_headings text = omap live_heading (live false (split_inclusive text)).
Proof. unfold outline_headings, lines. by rewrite (fenced_live _ line_heading). Qed.

Definition is_level (n : nat) (h : Heading) : bool := (h.2 =? n)%nat.
Lemma live_level x h : live_heading x = Some h -> x.1 = true /\ heading_level (trim_start x.2) = Some h.2.
Proof.
  unfold live_heading, line_heading. destruct x.1; [|done]. rewrite level_strip. destruct (heading_level _); [|done]. cbn. by intros [= <-].
Qed.
Lemma live_h1 x : is_h1 x = true -> exists h, live_heading x = Some h /\ is_level 1 h = true.
Proof.
  unfold is_h1, live_heading, line_heading. intros [-> H%level_one]%andb_true_iff. rewrite level_strip, H. cbn. by eexists.
Qed.
Lemma live_not_h1 x h : live_heading x = Some h -> is_h1 x = false -> is_level 1 h = false.
Proof.
  intros [Hx Hl]%live_level Hh. apply not_true_is_false. intros H%Nat.eqb_eq. rewrite H in Hl. apply level_one in Hl.
  unfold is_h1 in Hh. by rewrite Hx, Hl in Hh.
Qed.
Lemma live_h2 x : is_h2 x = true <-> exists h, live_heading x = Some h /\ is_level 2 h = true.
Proof.
  split.
  - unfold is_h2, live_heading, line_heading. intros [-> H%level_two]%andb_true_iff. rewrite level_strip, H. cbn. by eexists.
  - intros (h & [Hx Hl]%live_level & H%Nat.eqb_eq). rewrite H in Hl. apply level_two in Hl. unfold is_h2. by rewrite Hx, Hl.
Qed.
(** The chapters' headings are the headings of the chapters. *)
Lemma outline_blocks text : (blocks (is_level 1) (outline_headings text)).2 = (omap live_heading : list (bool * str) -> list Heading) <$> chapters text.
Proof.
  rewrite outline_live. rewrite (blocks_omap is_h1 (is_level 1) live_heading); [done|intros x _; apply live_h1|intros x y _; apply live_not_h1].
Qed.

(** ** The outline of a plain book *)
Definition plain_section (j : nat) (h : Heading) : SectionOutline := mkSection (Z.of_nat j + 1) h.1.2 None.
Definition plain_chapter (i : nat) (block : list Heading) : ChapterOutline :=
  let title := match block with h :: _ => h.1.2 | [] => [] end in
  mkChapter (Z.of_nat i + 1) title (slugify title) (imap plain_section (retain (is_level 2) (tail block))) None.

Lemma count_outline_snoc hs h acc : count_outline (hs ++ [h]) acc = count_outline [h] (count_outline hs acc).
Proof. revert acc. induction hs as [|[[id title] lvl] hs IH]; intros acc; [done|]. cbn [app count_outline]. apply IH. Qed.
Lemma count_outline_blocks hs : Z.of_nat (length hs) < 4294967296 -> count_outline hs [] = imap plain_chapter (blocks (is_level 1) hs).2.
Proof.
  induction hs as [|h hs IH] using rev_ind; [done|]. rewrite length_app. cbn. intros Hlen.
  rewrite count_outline_snoc, blocks_snoc, IH by lia. pose proof (blocks_count (is_level 1) hs) as Hcount.
  assert (Hall : forall b, b ∈ (blocks (is_level 1) hs).2 -> b <> []) by (intros b (x & rest & -> & _)%blocks_heads; done).
  assert (Hsub : forall b, b ∈ (blocks (is_level 1) hs).2 -> (length b <= length hs)%nat).
  { intros b Hb. pose proof (f_equal length (blocks_concat (is_level 1) hs)) as Hlen'. rewrite length_app in Hlen'.
    apply list_elem_of_split in Hb as (l1 & l2 & Hb). rewrite Hb, concat_app, length_app in Hlen'. cbn in Hlen'. rewrite length_app in Hlen'. lia. }
  assert (Hretain : (length (retain (is_level 1) hs) <= length hs)%nat) by apply List.filter_length_le.
  destruct (blocks (is_level 1) hs) as [pre bs]. cbn in Hcount, Hall, Hsub. destruct h as [[id title] lvl]. unfold is_level at 1. cbn [snd].
  destruct (Nat.eqb_spec lvl 1) as [->|H1].
  { cbn. rewrite imap_app, length_imap. f_equal. cbn. unfold plain_chapter. cbn. rewrite Nat.add_0_r.
    rewrite (wrap32_small (Z.of_nat _)) by (unfold u32_max; lia). rewrite wrap32_small by (unfold u32_max; lia). done. }
  destruct (decide (lvl = 2%nat)) as [->|H2].
  - cbn [count_outline]. change (is_level 1 (id, title, 2%nat)) with false. cbv iota. unfold add_section.
    destruct bs as [|b bs _] using rev_ind; [done|]. rewrite imap_app. cbn [imap]. rewrite !reverse_snoc, !reverse_involutive. cbn [snd]. rewrite imap_app. cbn [imap]. f_equal. f_equal. unfold plain_chapter. cbn.
    specialize (Hall b ltac:(set_solver)). specialize (Hsub b ltac:(set_solver)). destruct b as [|h0 rest]; [done|]. cbn in *.
    f_equal. rewrite List.filter_app, imap_app. f_equal. cbn. unfold plain_section. cbn. f_equal. rewrite length_imap, Nat.add_0_r.
    pose proof (List.filter_length_le (is_level 2) rest) as Hle. rewrite (wrap32_small (Z.of_nat _)) by (unfold u32_max; lia).
    by rewrite wrap32_small by (unfold u32_max; lia).
  - assert (count_outline [(id, title, lvl)] (imap plain_chapter bs) = imap plain_chapter bs) as -> by (destruct lvl as [|[|[|lvl]]]; done).
    destruct bs as [|b bs _] using rev_ind; [done|]. rewrite reverse_snoc, reverse_involutive. cbn [snd]. rewrite !imap_app. f_equal. cbn. f_equal.
    unfold plain_chapter. specialize (Hall b ltac:(set_solver)). destruct b as [|h0 rest]; [done|]. cbn. f_equal.
    rewrite List.filter_app. cbn [List.filter]. change (is_level 2 (id, title, lvl)) with (lvl =? 2)%nat. destruct (Nat.eqb_spec lvl 2); [done|].
    by rewrite app_nil_r.
Qed.

(** ** The two parsers of headings *)

(** The line is tidy: if it is a heading, nothing but its end follows it,
    and its anchor is not the empty one. *)
Definition tidy (x : bool * str) : Prop :=
  forall h, live_heading x = Some h ->
    trim_end (trim_start (strip_line x.2)) = trim_start (strip_line x.2) /\ forall lvl, heading_of x <> Some (lvl, Some []).

Lemma trim_end_ws t w : Forall eol w -> trim_end (t ++ w) = trim_end t.
Proof.
  intros Hw. unfold trim_end, trim_end_if. f_equal. rewrite reverse_app, trim_start_app.
  assert (trim_start (reverse w) = []) as ->; [|done].
  apply eol_whitespace. rewrite Forall_forall in *. intros c Hc. apply Hw. by apply elem_of_reverse.
Qed.
Lemma core_heading t lvl id : parse_heading_line t = Some (lvl, id) -> heading_level t = Some lvl.
Proof.
  intros H. destruct (trim_end_if_spec is_whitespace t) as (a & Ht & _). fold (trim_end t) in Ht.
  assert (Hl : heading_level (trim_end t) = Some lvl).
  { revert H. unfold parse_heading_line, heading_level. destruct (_ || _); [done|]. cbn. destruct (starts_with _ _); [|done]. cbn. by intros [= <- _]. }
  apply level_spec in Hl as [? [r Hr]]. apply level_spec. split; [done|]. exists (r ++ a). rewrite Ht at 1. by rewrite Hr, <- app_assoc.
Qed.
Lemma slice_hashes t : slice_from t (byte_len t - byte_len (trim_start_if (N.eqb hash) t)) = trim_start_if (N.eqb hash) t.
Proof.
  destruct (trim_start_if_spec (N.eqb hash) t) as (a & Ht & _). pose proof (f_equal byte_len Ht) as Hl. rewrite byte_len_app in Hl.
  rewrite Ht at 1. replace (byte_len t - _)%nat with (byte_len a) by lia. apply slice_from_app.
Qed.
Lemma parse_heading_tidy t : trim_end t = t -> (forall lvl, parse_heading_line t <> Some (lvl, Some [])) ->
  parse_heading_line t = (lvl ← heading_level t; Some (lvl, heading_anchor_id t)).
Proof.
  unfold parse_heading_line. intros ->. rewrite slice_hashes. unfold heading_level. rewrite slice_hashes. destruct (_ || _); [done|]. cbn.
  destruct (starts_with [space] _); [|done]. cbn. unfold heading_anchor_id. destruct (strip_suffix _ _) as [t'|]; [|done]. cbn.
  destruct (rsplit_once _ _) as [[a id]|]; [|done]. cbn. intros Hne. case_bool_decide as Hid; [|done]. rewrite Hid in Hne. by destruct (Hne (byte_len t - byte_len (trim_start_if (N.eqb hash) t))%nat).
Qed.
Lemma anchor_strip l : trim_end (trim_start (strip_line l)) = trim_start (strip_line l) ->
  parse_heading_line (trim_start l) = parse_heading_line (trim_start (strip_line l)).
Proof.
  intros Hend. destruct (trim_start_strip l) as (w & -> & Heol). unfold parse_heading_line. by rewrite trim_end_ws, Hend by done.
Qed.
Lemma tidy_heading x : tidy x -> heading_of x = (h ← live_heading x; Some (h.2, h.1.1)).
Proof.
  intros Ht. destruct (live_heading x) as [h|] eqn:Hl.
  - destruct (Ht h Hl) as [Hend Hne]. revert Hne. unfold heading_of. pose proof (live_level x h Hl) as [Hx Hlvl]. rewrite Hx. cbn.
    pose proof Hlvl as [? [r Hr]]%level_spec. replace (starts_with [hash] (trim_start x.2)) with true.
    2:{ symmetry. apply starts_with_spec. destruct h.2 as [|n]; [lia|]. rewrite Hr. by eexists. }
    rewrite (anchor_strip _ Hend). intros Hne. rewrite (parse_heading_tidy _ Hend Hne).
    revert Hl. unfold live_heading, line_heading. rewrite Hx. rewrite level_strip, Hlvl. cbn. intros [= Hh]. by rewrite <- Hh.
  - unfold heading_of. destruct (x.1 && _) eqn:Hb; [|done]. apply andb_true_iff in Hb as [Hx _].
    destruct (parse_heading_line _) as [[lvl id]|] eqn:Hp; [|done]. apply core_heading in Hp. revert Hl. unfold live_heading, line_heading.
    by rewrite Hx, level_strip, Hp.
Qed.

Definition tidy_text (text : str) : Prop :=
  Forall tidy (live false (split_inclusive text)) /\ Z.of_nat (length (split_inclusive text)) < 4294967296.

Lemma outline_anchored text : tidy_text text -> existsb (fun h : Heading => is_some h.1.1) (outline_headings text) = true <-> anchored text.
Proof.
  intros [Ht _]. rewrite existsb_exists, outline_live. unfold anchored. rewrite Forall_forall in Ht. split.
  - intros (h & Hin & Hs). apply list_elem_of_In, list_elem_of_omap in Hin as (x & Hin & Hx). exists x. split; [done|].
    unfold sat. rewrite (tidy_heading x (Ht x Hin)), Hx. cbn. unfold has_id. cbn. apply bool_decide_eq_true. by destruct h.1.1.
  - intros (x & Hin & Hs). revert Hs. unfold sat. rewrite (tidy_heading x (Ht x Hin)). destruct (live_heading x) as [h|] eqn:Hx; [|done]. cbn.
    intros Hs%bool_decide_eq_true. exists h. split; [apply list_elem_of_In, list_elem_of_omap; by exists x|]. cbn in Hs. by destruct h.1.1, Hs.
Qed.
Lemma trim_not_empty (s : str) c : c ∈ s -> is_whitespace c = false -> trim s <> [].
Proof.
  intros Hc Hw H. unfold trim, trim_end, trim_start in H.
  destruct (trim_start_if_spec is_whitespace s) as (a & Hs & Ha & _). set (t := trim_start_if is_whitespace s) in *.
  destruct (trim_end_if_spec is_whitespace t) as (b & Ht & Hb & _). rewrite H in Ht. rewrite Hs, Ht in Hc.
  rewrite !elem_of_app in Hc. rewrite !Forall_forall in *. destruct Hc as [Hc|[Hc|Hc]]; [apply Ha in Hc; congruence|by apply not_elem_of_nil in Hc|apply Hb in Hc; congruence].
Qed.
Lemma heading_not_empty text x h : x ∈ live false (split_inclusive text) -> live_heading x = Some h -> trim text <> [].
Proof.
  intros Hin Hl. destruct (live_level x h Hl) as [_ [? [r Hr]]%level_spec].
  apply (trim_not_empty _ hash); [|by vm_compute]. rewrite <- (split_inclusive_concat text), <- (live_lines false (split_inclusive text)).
  apply list_elem_of_In, in_concat. exists x.2. split; [apply list_elem_of_In, list_elem_of_fmap; by exists x|apply list_elem_of_In].
  destruct (trim_start_if_spec is_whitespace x.2) as (a & -> & _). fold (trim_start x.2). rewrite Hr. destruct h.2 as [|n]; [lia|]. cbn. set_solver.
Qed.
(** What a reading of a link is, when the text is not empty *)
Lemma extract_chapter_link text slug anchor n s : Anchor_parse anchor = Chapter n s -> trim text <> [] ->
  extract_passage slug anchor text = (let? p := extract_chapter text n in Ok (mkPassage slug anchor (take READ_PASSAGE_MAX_CHARS p)))%rust.
Proof. intros Ha Ht. unfold extract_passage, extract_passage_capped. by rewrite bool_decide_false, Ha by done. Qed.
Lemma extract_section_link text slug anchor n m s : Anchor_parse anchor = Section_ n m s -> trim text <> [] ->
  extract_passage slug anchor text = (let? p := extract_section text n m in Ok (mkPassage slug anchor (take READ_PASSAGE_MAX_CHARS p)))%rust.
Proof. intros Ha Ht. unfold extract_passage, extract_passage_capped. by rewrite bool_decide_false, Ha by done. Qed.

(** ** The links of a plain book *)
(** The link [uri] reads a text of the book that [P] describes, up to the cap. *)
Definition resolves (text uri : str) (P : str -> Prop) : Prop :=
  exists slug anchor p, parse_book_ref uri = Some (mkBookRef slug anchor) /\ P p /\
    extract_passage slug anchor text = Ok (mkPassage slug anchor (take READ_PASSAGE_MAX_CHARS p)).
Definition fit_slug (slug : str) : Prop := slug <> [] /\ hash ∉ slug.
Definition chapter_uri (catalog : BookCatalog) (ch : ChapterOutline) : str := default [] (fm_resource (frontmatter (build_chapter_concept catalog ch))).

Lemma parse_book_uri slug anchor : fit_slug slug -> anchor <> [] -> parse_book_ref (book_uri slug anchor) = Some (mkBookRef slug anchor).
Proof.
  intros [H1 H2] H3. destruct (book_references (book_uri slug anchor) slug anchor 1 1 [] ltac:(done) ltac:(done)) as [H _].
  by apply H.
Qed.
Lemma chapter_resolves text slug anchor n s p (P : str -> Prop) : fit_slug slug -> trim text <> [] ->
  Anchor_parse anchor = Chapter n s -> extract_chapter text n = Ok p -> P p -> resolves text (book_uri slug anchor) P.
Proof.
  intros Hs Ht Ha He HP. exists slug, anchor, p. split; [apply parse_book_uri; [done|by intros ->]|]. split; [done|].
  by rewrite (extract_chapter_link _ _ _ _ _ Ha Ht), He.
Qed.
Lemma section_resolves text slug anchor n m s p (P : str -> Prop) : fit_slug slug -> trim text <> [] ->
  Anchor_parse anchor = Section_ n m s -> extract_section text n m = Ok p -> P p -> resolves text (book_uri slug anchor) P.
Proof.
  intros Hs Ht Ha He HP. exists slug, anchor, p. split; [apply parse_book_uri; [done|by intros ->]|]. split; [done|].
  by rewrite (extract_section_link _ _ _ _ _ _ Ha Ht), He.
Qed.

Lemma no_anchor_forall {A} (p : A -> bool) l : existsb p l = false -> forallb (fun x => negb (p x)) l = true.
Proof. induction l as [|x l IH]; [done|]. cbn. by intros [-> ?%IH]%orb_false_iff. Qed.
Lemma sections_live blk : (blocks (is_level 2) (omap live_heading (tail blk))).2 = (omap live_heading : list (bool * str) -> list Heading) <$> sections blk.
Proof.
  unfold sections. rewrite (blocks_omap is_h2 (is_level 2) live_heading); [done|intros x _; apply live_h2|].
  intros x y _ Hy Hn. apply not_true_is_false. intros Hl. assert (is_h2 x = true) by (apply live_h2; by exists y). congruence.
Qed.
Lemma chapter_in text i blk : chapters text !! i = Some blk -> exists x rest, blk = x :: rest /\ is_h1 x = true /\ x ∈ live false (split_inclusive text).
Proof. intros Hi%list_elem_of_lookup_2. apply blocks_heads in Hi as (x & rest & -> & ? & ? & _). by exists x, rest. Qed.
Lemma not_anchored_no_id text : ~ anchored text -> existsb has_id (collect_headings text) = false.
Proof. intros Hna. apply not_true_is_false. by rewrite anchored_spec. Qed.
Lemma omap_short {A B} (f : A -> option B) (l : list A) : (length (omap f l : list B) <= length l)%nat.
Proof. induction l as [|x l IH]; [done|]. cbn. destruct (f x); cbn; lia. Qed.
Lemma parse_plain text : tidy_text text -> ~ anchored text ->
  parse_outline text = imap plain_chapter ((omap live_heading : list (bool * str) -> list Heading) <$> chapters text).
Proof.
  intros Ht Hna. unfold parse_outline. replace (existsb _ _) with false.
  - rewrite count_outline_blocks, outline_blocks; [done|]. destruct Ht as [_ Hlen]. rewrite outline_live.
    pose proof (f_equal length (live_lines false (split_inclusive text))) as Hl. rewrite length_fmap in Hl. rewrite <- Hl in Hlen.
    pose proof (omap_short live_heading (live false (split_inclusive text))). lia.
  - symmetry. apply not_true_is_false. by rewrite outline_anchored.
Qed.

Lemma plain_bounds text i : tidy_text text -> (i < length (chapters text))%nat -> 1 <= Z.of_nat i + 1 <= u32_max.
Proof.
  intros [_ Hlen] Hi. unfold chapters in Hi. rewrite blocks_count in Hi. pose proof (List.filter_length_le is_h1 (live false (split_inclusive text))).
  pose proof (f_equal length (live_lines false (split_inclusive text))) as Hl. rewrite length_fmap in Hl. unfold u32_max. lia.
Qed.
Lemma section_bounds text i blk j : tidy_text text -> chapters text !! i = Some blk -> (j < length (sections blk))%nat -> 1 <= Z.of_nat j + 1 <= u32_max.
Proof.
  intros [_ Hlen] Hi Hj. unfold sections in Hj. rewrite blocks_count in Hj. pose proof (List.filter_length_le is_h2 (tail blk)).
  pose proof (f_equal length (live_lines false (split_inclusive text))) as Hl. rewrite length_fmap in Hl.
  pose proof (f_equal length (blocks_concat is_h1 (live false (split_inclusive text)))) as Hc. rewrite length_app in Hc.
  apply list_elem_of_lookup_2, list_elem_of_split in Hi as (l1 & l2 & Hi). unfold chapters in Hi. rewrite Hi, concat_app, length_app in Hc. cbn in Hc.
  rewrite length_app in Hc. assert (length (tail blk) <= length blk)%nat by (destruct blk; cbn; lia). unfold u32_max. lia.
Qed.

(** The title of a chapter or section: that of the heading that opens it *)
Definition title_of (blk : list (bool * str)) : str := match omap live_heading blk : list Heading with h :: _ => h.1.2 | [] => [] end.

Lemma retain_heads {A} (p : A -> bool) (l : list A) : retain p l = omap head (blocks p l).2.
Proof. induction l as [|x l IH]; [done|]. cbn. destruct (blocks p l) as [pre bs]. cbn in IH. rewrite IH. by destruct (p x). Qed.

Lemma heads_imap {A B C} (f : A -> option B) (g : nat -> B -> C) (d : B) (ss : list (list A)) :
  (forall s, s ∈ ss -> omap f s <> []) ->
  imap g (omap head ((omap f : list A -> list B) <$> ss)) = imap (fun j s => g j (default d (head (omap f s)))) ss.
Proof.
  revert g. induction ss as [|s ss IH]; intros g Hne; [done|]. cbn. specialize (Hne s ltac:(left)) as Hs.
  destruct (omap f s) as [|b bs] eqn:E; [done|]. cbn. f_equal. apply IH. intros s' Hs'. apply Hne. by right.
Qed.
Lemma section_opens blk sec : sec ∈ sections blk -> (omap live_heading sec : list Heading) <> [].
Proof. intros (x & rest & -> & (h & Hx & _)%live_h2 & _)%blocks_heads. cbn. by rewrite Hx. Qed.
Definition no_heading : Heading := (None, [], 0%nat).
Lemma section_title blk sec j : sec ∈ sections blk ->
  so_title (plain_section j (default no_heading (head (omap live_heading sec : list Heading)))) = title_of sec.
Proof. intros Hs%section_opens. unfold title_of. by destruct (omap live_heading sec). Qed.

(** The chapter of the outline that a chapter of the book becomes *)
Lemma plain_chapter_links text slug i blk : tidy_text text -> ~ anchored text -> fit_slug slug -> chapters text !! i = Some blk ->
  let ch := plain_chapter i (omap live_heading blk) in
  co_title ch = title_of blk /\ (exists s, Anchor_parse (chapter_anchor_id ch) = Chapter (Z.of_nat i + 1) s) /\
  resolves text (book_uri slug (chapter_anchor_id ch)) (fun p => p = text_of blk) /\
  Forall2 (fun sec s => so_title s = title_of sec /\ resolves text (book_uri slug (section_anchor_id ch s)) (fun p => p = text_of sec))
    (sections blk) (co_sections ch).
Proof.
  intros Ht Hna Hslug Hblk ch. destruct (chapter_in text i blk Hblk) as (x & rest & Hb & Hh1 & Hin).
  destruct (live_h1 x Hh1) as (h & Hx & _). pose proof (heading_not_empty text x h Hin Hx) as Hne.
  pose proof (plain_bounds text i Ht (lookup_lt_Some _ _ _ Hblk)) as Hi.
  pose proof (not_anchored_no_id text Hna) as Hno. pose proof (sections_live blk) as Hsec.
  assert (Htail : tail (omap live_heading blk : list Heading) = omap live_heading (tail blk)) by (rewrite Hb; cbn; by rewrite Hx).
  destruct (book_references [] [] [] _ 1 (co_slug ch) Hi ltac:(done)) as (_ & Ha & _).
  split_and!; [done|by exists (co_slug ch)| |].
  - apply (chapter_resolves _ _ _ _ _ (text_of blk) _ Hslug Hne Ha); [|done]. unfold extract_chapter. rewrite Hno.
    destruct (count_based_blocks text (Z.of_nat i + 1) 1 ltac:(unfold u32_max in *; lia) ltac:(lia) (proj2 Ht)) as [-> _].
    replace (Z.to_nat (Z.of_nat i + 1 - 1)) with i by lia. by rewrite Hblk.
  - assert (Hsecs : co_sections ch = imap (fun j sec => plain_section j (default no_heading (head (omap live_heading sec : list Heading)))) (sections blk)).
    { unfold ch. cbn. rewrite Htail, retain_heads, Hsec. apply heads_imap. intros sec Hs. by apply section_opens in Hs. }
    rewrite Hsecs. apply Forall2_same_length_lookup. split; [by rewrite length_imap|]. intros j sec s Hsj Hs.
    rewrite list_lookup_imap, Hsj in Hs. injection Hs as <-. split; [by eapply section_title, list_elem_of_lookup_2|].
    pose proof (section_bounds text i blk j Ht Hblk (lookup_lt_Some _ _ _ Hsj)) as Hjb.
    destruct (book_references [] [] [] _ _ (slugify (so_title (plain_section j (default no_heading (head (omap live_heading sec : list Heading)))))) Hi Hjb) as (_ & _ & Hsa & _).
    apply (section_resolves _ _ _ _ _ _ (text_of sec) _ Hslug Hne Hsa); [|done]. unfold extract_section, anchored_section.
    rewrite (no_anchor_forall _ _ Hno).
    destruct (count_based_blocks text (Z.of_nat i + 1) (Z.of_nat j + 1) ltac:(unfold u32_max in *; lia) ltac:(unfold u32_max in *; lia) (proj2 Ht)) as (_ & -> & _).
    replace (Z.to_nat (Z.of_nat i + 1 - 1)) with i by lia. rewrite Hblk. replace (Z.to_nat (Z.of_nat j + 1 - 1)) with j by lia. by rewrite Hsj.
Qed.

(** *** The concepts of the catalog, written out *)
Definition link_line (title target : str) : str := lit "- [" ++ title ++ lit "](" ++ target ++ lit ")" ++ [nl].
Definition hub_text (catalog : BookCatalog) (links : list (str * str)) : str :=
  lit "# About" ++ [nl; nl] ++
  (if bool_decide (bc_description catalog = [])
   then lit "Catalog for **" ++ bc_title catalog ++ lit "**. Full text lives in the shared library stacks."
   else bc_description catalog) ++ [nl; nl] ++ lit "# Chapters" ++ [nl; nl] ++
  concat ((fun l => link_line l.1 l.2) <$> links) ++ [nl] ++
  lit "# Related Concepts" ++ [nl; nl] ++ lit "Chapters link back to this hub." ++ [nl].
Definition chapter_text (title summary : str) (links : list (str * str)) (uri : str) : str :=
  lit "# " ++ title ++ [nl; nl] ++
  (if bool_decide (summary = []) then [] else lit "# Summary" ++ [nl; nl] ++ summary ++ [nl; nl]) ++
  (if bool_decide (links = []) then [] else lit "# Sections" ++ [nl; nl] ++ concat ((fun l => link_line l.1 l.2) <$> links) ++ [nl]) ++
  lit "# Full passage" ++ [nl; nl] ++ lit "Read the full chapter via `" ++ uri ++ lit "`." ++ [nl].
(** [c] is the concept of the chapter [blk], the one numbered [i + 1]: its
    resource reads the chapter, and its body lists the chapter's sections,
    each with its title and a link that reads the section. *)
Definition catalogued (text : str) (catalog : BookCatalog) (hub : Concept) (i : nat) (blk : list (bool * str)) (c : Concept) : Prop :=
  exists uri uris,
    fm_title (frontmatter c) = Some (title_of blk) /\ fm_chapter_index (frontmatter c) = Some (Z.of_nat i + 1) /\
    fm_book (frontmatter c) = Some (source_path hub) /\ fm_resource (frontmatter c) = Some uri /\
    resolves text uri (fun p => p = text_of blk) /\
    Forall2 (fun sec u => resolves text u (fun p => p = text_of sec)) (sections blk) uris /\
    body c = chapter_text (title_of blk) (default [] (bc_chapter_summaries catalog !! i)) (zip (title_of <$> sections blk) uris) uri.

Lemma section_links catalog ch text blk :
  Forall2 (fun sec s => so_title s = title_of sec /\ resolves text (book_uri (bc_slug catalog) (section_anchor_id ch s)) (fun p => p = text_of sec))
    blk (co_sections ch) ->
  let uris := (fun s => book_uri (bc_slug catalog) (section_anchor_id ch s)) <$> co_sections ch in
  Forall2 (fun sec u => resolves text u (fun p => p = text_of sec)) blk uris /\
  section_link catalog ch <$> co_sections ch = (fun l => link_line l.1 l.2) <$> zip (title_of <$> blk) uris.
Proof.
  intros H. cbn. induction H as [|sec s blk ss [Ht Hr] _ [IH1 IH2]]; [done|]. cbn. split; [by apply Forall2_cons|].
  by rewrite IH2, <- Ht.
Qed.
Lemma chapter_catalogued text catalog outline i blk : tidy_text text -> ~ anchored text -> fit_slug (bc_slug catalog) -> chapters text !! i = Some blk ->
  catalogued text catalog (build_hub_concept catalog outline) i blk (build_chapter_concept catalog (plain_chapter i (omap live_heading blk))).
Proof.
  intros Ht Hna Hslug Hblk. destruct (plain_chapter_links text _ i blk Ht Hna Hslug Hblk) as (Htitle & _ & Hr & Hs).
  apply section_links in Hs as [Hs Hlinks]. set (ch := plain_chapter i (omap live_heading blk)) in *.
  eexists _, _. do 4 (split; [done|]). split; [exact Hr|]. split; [exact Hs|].
  change (Some (co_title ch)) with (Some (title_of blk)).
  unfold build_chapter_concept, chapter_text. cbn [body]. rewrite Htitle.
  replace (Z.to_nat (co_index ch) - 1)%nat with i by (cbn; lia). do 3 f_equal.
  destruct (co_sections ch) as [|s ss] eqn:E.
  - apply Forall2_nil_inv_r in Hs. by rewrite Hs.
  - rewrite <- Hlinks. apply Forall2_cons_inv_r in Hs as (sec & secs & _ & _ & ->). done.
Qed.
Lemma chapter_path_inj catalog ch s : chapter_path catalog ch = lit "/" ++ bc_slug catalog ++ lit "/" ++ s ++ lit ".md" -> chapter_anchor_id ch = s.
Proof. unfold chapter_path. intros H%app_inv_head%app_inv_head%app_inv_head%app_inv_tail. exact H. Qed.
Lemma chapter_paths_distinct text catalog outline : tidy_text text -> ~ anchored text -> fit_slug (bc_slug catalog) ->
  NoDup (source_path <$> build_hub_concept catalog outline :: (build_chapter_concept catalog <$> parse_outline text)).
Proof.
  intros Ht Hna Hslug. rewrite parse_plain by done. set (chs := imap plain_chapter _).
  assert (Hp : forall k ch, chs !! k = Some ch -> exists s, Anchor_parse (chapter_anchor_id ch) = Chapter (Z.of_nat k + 1) s).
  { intros k ch. unfold chs. rewrite list_lookup_imap, list_lookup_fmap. destruct (chapters text !! k) as [blk|] eqn:E; [|done].
    intros [= <-]. by apply (plain_chapter_links text (bc_slug catalog)). }
  clearbody chs. rewrite fmap_cons, <- list_fmap_compose. apply NoDup_cons. split.
  - intros (ch & H & [k Hk]%list_elem_of_lookup)%list_elem_of_fmap. symmetry in H. apply (chapter_path_inj catalog ch (lit "book")) in H.
    destruct (Hp k ch Hk) as [s Hs]. by rewrite H in Hs.
  - apply NoDup_alt. intros i j x. rewrite !list_lookup_fmap. intros (a & Ha & ->)%fmap_Some (b & Hb & H)%fmap_Some.
    apply (chapter_path_inj catalog a (chapter_anchor_id b)) in H. destruct (Hp i a Ha) as [s Hs], (Hp j b Hb) as [s' Hs'].
    rewrite H, Hs' in Hs. injection Hs. lia.
Qed.
Lemma hub_links text catalog : tidy_text text -> ~ anchored text -> fit_slug (bc_slug catalog) ->
  body (build_hub_concept catalog (parse_outline text)) =
  hub_text catalog (zip (title_of <$> chapters text) (source_path <$> (build_chapter_concept catalog <$> parse_outline text))).
Proof.
  intros Ht Hna Hslug. unfold build_hub_concept, hub_text. cbn [body]. rewrite parse_plain by done.
  assert (Htitles : title_of <$> chapters text = co_title <$> imap plain_chapter ((omap live_heading : list (bool * str) -> list Heading) <$> chapters text)).
  { apply list_eq. intros k. rewrite !list_lookup_fmap, list_lookup_imap, list_lookup_fmap. by destruct (chapters text !! k). }
  rewrite Htitles. set (chs := imap plain_chapter _). rewrite <- list_fmap_compose, zip_with_fmap_l, zip_with_fmap_r, zip_with_diag.
  rewrite <- list_fmap_compose. repeat case_bool_decide; rewrite <- ?app_assoc; done.
Qed.

(** C34. The links of the catalog of a plain book (one with no anchors in its
    headings) read what they say.  There is one concept for each chapter of
    the text, in their order, and all have their own paths; the hub lists
    them, each with the title of the chapter and a link to the path of its
    concept.  The resource of a chapter's concept reads the text of that
    chapter, and its body lists the chapter's sections in their order, each
    with its title and a link that reads the text of that section.  A link
    reads a text up to the reader's 131072 characters.  (The text is tidy:
    no heading has trailing spaces or an empty anchor, and its lines are
    fewer than 2^32; the slug is not empty and has no #.) *)
Theorem plain_links_resolve text catalog : tidy_text text -> ~ anchored text -> fit_slug (bc_slug catalog) ->
  let outline := parse_outline text in
  let hub := build_hub_concept catalog outline in
  let concepts := build_chapter_concept catalog <$> outline in
  NoDup (source_path <$> hub :: concepts) /\
  body hub = hub_text catalog (zip (title_of <$> chapters text) (source_path <$> concepts)) /\
  length concepts = length (chapters text) /\
  forall i c, concepts !! i = Some c -> exists blk, chapters text !! i = Some blk /\ catalogued text catalog hub i blk c.
Proof.
  intros Ht Hna Hslug outline hub concepts. split; [by apply chapter_paths_distinct|]. split; [by apply hub_links|].
  unfold concepts, outline. rewrite parse_plain by done. split; [by rewrite !length_fmap, length_imap, length_fmap|].
  intros i c. rewrite list_lookup_fmap, list_lookup_imap, list_lookup_fmap. destruct (chapters text !! i) as [blk|] eqn:E; [|done].
  cbn. intros [= <-]. exists blk. split; [done|]. by apply chapter_catalogued.
Qed.

(** ** The links of a book with anchors *)
Lemma digits_no_dash s : all_digits s = true -> dash ∉ s.
Proof. unfold all_digits. intros [_ H]%andb_true_iff Hin. rewrite forallb_forall in H. apply list_elem_of_In in Hin. by specialize (H _ Hin). Qed.
Lemma chapter_id_parse id n : is_chapter_id id = true -> (p ← split dash id !! 1%nat; parse_u32 p) = Some n -> 0 < n ->
  (exists s, Anchor_parse id = Chapter n s) /\ starts_with (lit "ch-") id = true /\ chapter_number_of id = Some n.
Proof.
  unfold is_chapter_id, chapter_number_of. pose proof (split_join dash id) as Hj. destruct (split dash id) as [|a [|d [|b rest]]]; try done.
  intros [Ha Hd]%andb_true_iff. apply str_eqb_eq in Ha as ->. cbn [lookup list_lookup mbind option_bind]. intros Hp Hn. rewrite Hd.
  split; [|split; [|done]].
  - assert (exists r, id = lit "ch-" ++ d ++ lit "-" ++ r) as [r ->].
    { exists (join [dash] (b :: rest)). rewrite <- Hj. done. }
    exists r. unfold Anchor_parse. rewrite (proj2 (strip_prefix_Some _ _ _) eq_refl), splitn_2 by by apply digits_no_dash.
    rewrite Hp. by destruct (Z.eqb_spec n 0); [lia|].
  - apply starts_with_spec. exists (join [dash] (d :: b :: rest)). rewrite <- Hj. done.
Qed.
Lemma section_id_parse id c m : section_numbers_of id = Some (c, m) -> 0 < c -> 0 < m -> exists s, Anchor_parse id = Section_ c m s.
Proof.
  unfold section_numbers_of. destruct (strip_prefix (lit "sec-") id) as [rest|] eqn:Hp; [|done]. cbn [mbind option_bind].
  destruct (splitn 3 dash rest) as [|a [|b tl]] eqn:Hs; try done. destruct (_ || _); [done|].
  destruct (parse_u32 a) as [c'|] eqn:Ha; [|done]. destruct (parse_u32 b) as [m'|] eqn:Hb; [|done]. cbn. intros [= -> ->] Hc Hm.
  unfold Anchor_parse. pose proof Hp as ->%strip_prefix_Some. replace (strip_prefix (lit "ch-") _) with (@None str) by done.
  rewrite Hp, Hs, Ha, Hb. destruct (Z.eqb_spec c 0); [lia|]. destruct (Z.eqb_spec m 0); [lia|]. by eexists.
Qed.
Lemma by_chapter_elem l c secs s : by_chapter l !! c = Some secs -> s ∈ secs -> (c, s) ∈ l.
Proof.
  unfold by_chapter. revert secs. induction l as [|[c' s'] l IH] using rev_ind; intros secs; [cbn; by rewrite lookup_empty|].
  rewrite fold_left_app. cbn. set (m := fold_left _ l ∅) in *. destruct (decide (c' = c)) as [->|Hne].
  - rewrite lookup_insert. destruct (decide (c = c)); [|done]. intros [= <-]. rewrite !elem_of_app. intros [Hs|Hs].
    + left. destruct (m !! c) as [old|] eqn:Hm; [by apply (IH old)|by apply not_elem_of_nil in Hs].
    + right. apply list_elem_of_singleton in Hs as ->. by left.
  - rewrite lookup_insert_ne by done. intros Hm Hs. apply elem_of_app. left. by apply (IH secs).
Qed.
Lemma assign_elem chs m ch : ch ∈ assign_sections chs m ->
  exists ch0, ch0 ∈ chs /\ co_index ch = co_index ch0 /\ co_anchor_id ch = co_anchor_id ch0 /\
    forall s, s ∈ co_sections ch -> s ∈ co_sections ch0 \/ exists secs, m !! co_index ch = Some secs /\ s ∈ secs.
Proof.
  revert m. induction chs as [|c chs IH]; intros m; cbn; [by intros ?%not_elem_of_nil|].
  destruct (m !! co_index c) as [secs|] eqn:Hm; intros [->|Hin]%elem_of_cons.
  - exists c. split; [left|]. do 2 (split; [done|]). cbn. intros s Hs. right. exists secs. split; [done|]. by rewrite sort_by_perm in Hs.
  - apply IH in Hin as (c0 & ? & ? & ? & Hs). exists c0. split; [by right|]. do 2 (split; [done|]). intros s Hin. destruct (Hs s Hin) as [|(secs' & Hl & ?)]; [by left|].
    right. apply lookup_delete_Some in Hl as [_ Hl]. by exists secs'.
  - exists c. split; [left|]. do 2 (split; [done|]). by left.
  - apply IH in Hin as (c0 & ? & ? & ? & Hs). exists c0. split; [by right|]. do 2 (split; [done|]). exact Hs.
Qed.
Lemma outline_elem text h : tidy_text text -> h ∈ outline_headings text ->
  exists x, x ∈ live false (split_inclusive text) /\ live_heading x = Some h /\ heading_of x = Some (h.2, h.1.1).
Proof.
  intros [Ht _]. rewrite outline_live, list_elem_of_omap. intros (x & Hin & Hx). exists x. split; [done|]. split; [done|].
  rewrite Forall_forall in Ht. by rewrite (tidy_heading x (Ht x Hin)), Hx.
Qed.
Lemma anchored_outline text ch : tidy_text text -> anchored text -> ch ∈ parse_outline text ->
  (exists id lvl x, x ∈ live false (split_inclusive text) /\ heading_of x = Some (lvl, Some id) /\ is_Some (live_heading x) /\
     co_anchor_id ch = Some id /\ is_chapter_id id = true /\ (p ← split dash id !! 1%nat; parse_u32 p) = Some (co_index ch) /\ 0 < co_index ch) /\
  forall s, s ∈ co_sections ch ->
   exists id lvl x, x ∈ live false (split_inclusive text) /\ heading_of x = Some (lvl, Some id) /\
     so_anchor_id s = Some id /\ section_numbers_of id = Some (co_index ch, so_index s).
Proof.
  intros Ht Ha. unfold parse_outline. apply (outline_anchored text Ht) in Ha. rewrite Ha. rewrite sort_by_perm.
  intros (ch0 & Hin & Hi & Han & Hsec)%assign_elem. apply list_elem_of_omap in Hin as ([[id title] lvl] & Hin & Hc).
  destruct (outline_elem text _ Ht Hin) as (x & Hx & Hl & Hh). unfold anchored_chapter in Hc. destruct id as [id|]; [|done]. cbn in Hc.
  destruct (is_chapter_id id) eqn:Hid; [|done]. destruct (p ← split dash id !! 1%nat; parse_u32 p) as [n|] eqn:Hn; [|done]. cbn in Hc.
  destruct (Z.ltb_spec 0 n); [|done]. injection Hc as <-. cbn in Hi, Han, Hsec. rewrite Hi. split.
  - exists id, lvl, x. by split_and!.
  - intros s Hs. destruct (Hsec s Hs) as [Hs'|(secs & Hm & Hs')]; [by apply not_elem_of_nil in Hs'|]. rewrite Hi in Hm.
    apply (by_chapter_elem _ _ _ _ Hm) in Hs'. apply list_elem_of_omap in Hs' as ([[sid stitle] slvl] & Hin' & Hs').
    destruct (outline_elem text _ Ht Hin') as (y & Hy & _ & Hhy). unfold anchored_section_of in Hs'. destruct sid as [sid|]; [|done]. cbn in Hs'.
    destruct (is_chapter_id sid); [done|]. destruct (is_section_id sid); [|done].
    destruct (section_numbers_of sid) as [[c m]|] eqn:Hnum; [|done]. cbn in Hs'. destruct (0 <? c); [|done]. injection Hs' as -> <-.
    exists sid, slvl, y. by split_and!.
Qed.

(** The links of the catalog of a book with anchors resolve: the resource
    of the concept of each chapter of the outline reads the text from the
    first heading with the anchor of a chapter of its number to the next
    heading with the anchor of a chapter, and the link of each of its
    sections whose number is not 0 the text from the first heading with
    the section's numbers to the next heading of its level or above.  (The
    text is tidy.) *)
Theorem anchored_links_resolve text catalog ch : tidy_text text -> anchored text -> fit_slug (bc_slug catalog) -> ch ∈ parse_outline text ->
  resolves text (chapter_uri catalog ch) (passage_of (is_chapter (co_index ch)) starts_chapter text) /\
  forall s, s ∈ co_sections ch -> 0 < so_index s ->
    exists lvl, resolves text (book_uri (bc_slug catalog) (section_anchor_id ch s))
      (passage_of (is_section (co_index ch) (so_index s)) (fun h => (level h <=? lvl)%nat) text).
Proof.
  intros Ht Ha Hslug Hch. destruct (anchored_outline text ch Ht Ha Hch) as [(id & lvl & x & Hx & Hh & [h Hl] & Han & Hid & Hn & Hpos) Hsec].
  pose proof (heading_not_empty text x h Hx Hl) as Hne. destruct (chapter_id_parse id _ Hid Hn Hpos) as ([s Hp] & Hst & Hnum). split.
  - unfold chapter_uri. cbn. unfold chapter_anchor_id. rewrite Han.
    destruct (anchored_passages text (co_index ch) 1 1 Ha) as [H _]. destruct (extract_chapter text (co_index ch)) as [p|e] eqn:He.
    + by apply (chapter_resolves _ _ _ _ _ p _ Hslug Hne Hp).
    + destruct H as [_ H]. rewrite Forall_forall in H. specialize (H x Hx). unfold sat, is_chapter in H. rewrite Hh in H. cbn in H.
      rewrite Hst, Hnum in H. by rewrite bool_decide_true in H.
  - intros sec Hin Hm. destruct (Hsec sec Hin) as (sid & slvl & y & Hy & Hhy & Hsan & Hsn).
    destruct (section_id_parse sid _ _ Hsn Hpos Hm) as [s' Hsp]. unfold section_anchor_id. rewrite Hsan.
    destruct (anchored_passages text 1 (co_index ch) (so_index sec) Ha) as [_ [(p & lvl' & id' & h' & Hok & _ & _ & _ & Hpass)|[H _]]].
    + exists lvl'. by apply (section_resolves _ _ _ _ _ _ p _ Hslug Hne Hsp).
    + rewrite Forall_forall in H. specialize (H y Hy). unfold sat, is_section in H. rewrite Hhy in H. cbn in H. rewrite Hsn in H. by rewrite bool_decide_true in H.
Qed.
End Outline.

(** ** The catalog *)
Section Catalog.
Context {LC : Lowercase} {AN : Alphanumeric} {JT : JsonText}.
Lemma first_words_bound words out : (byte_len out <= 200)%nat -> (byte_len (first_words words out) <= 200)%nat.
Proof.
  revert out. induction words as [|w words IH]; intros out Hout; [done|]. cbn [first_words].
  destruct (Nat.ltb_spec 200 (byte_len out + byte_len w + 1)) as [|Hle]; [exact Hout|].
  apply IH. rewrite byte_len_app. case_bool_decide; [cbn; lia|]. rewrite byte_len_app. change (byte_len [space]) with 1%nat. lia.
Qed.
Lemma chapter_description_bound text hs ch : (byte_len (chapter_description text hs ch) <= 200)%nat.
Proof. unfold chapter_description. destruct (_ ≫= _) as [[pos line]|]; [apply first_words_bound|]; cbn; lia. Qed.

(** The model only ever contributes the title and the description of a
    catalog, and cannot empty them: whatever it answers, the slug and the
    summaries of the chapters are those of the text (one for each chapter,
    of at most 200 bytes); with no model, a failed call, or an answer that
    is not a catalog, the catalog is the one of the outline alone; else
    each of the two fields is the trimmed answer, if that is not empty. *)
Theorem catalog_fallback chat slug hint outline text :
  let plain := build_catalog None slug hint outline text in
  let c := build_catalog (Some chat) slug hint outline text in
  bc_slug c = slug /\ bc_chapter_summaries c = bc_chapter_summaries plain /\
  length (bc_chapter_summaries c) = length outline /\ Forall (fun d => (byte_len d <= 200)%nat) (bc_chapter_summaries c) /\
  bc_title plain = hint /\
  match llm_catalog (chat (catalog_prompt slug hint outline)) with
  | Err _ => c = plain
  | Ok (t, d) => (bc_title c = trim t /\ trim t <> [] \/ bc_title c = hint /\ trim t = []) /\
                 (bc_description c = trim d /\ trim d <> [] \/ bc_description c = bc_description plain /\ trim d = [])
  end.
Proof.
  assert (length (chapter_descriptions outline text) = length outline /\ Forall (fun d => (byte_len d <= 200)%nat) (chapter_descriptions outline text)) as [Hl Hf].
  { unfold chapter_descriptions. split; [by rewrite length_fmap|]. apply Forall_fmap, Forall_forall. intros ch _. apply chapter_description_bound. }
  unfold build_catalog. destruct (llm_catalog _) as [[t d]|e]; cbn; [|by split_and!]. split_and!; try done.
  - case_bool_decide; [by right|by left].
  - case_bool_decide; [by right|by left].
Qed.
End Catalog.

(** ** Witnesses *)
#[local] Instance ascii_letters : Alphanumeric := {| is_alphanumeric := is_ascii_alphanumeric; alphanumeric_ascii _ _ := eq_refl |}.
Definition plain_book : str := lit "x" ++ [nl] ++ lit "# A b" ++ [nl] ++ lit "## s" ++ [nl] ++ lit "t" ++ [nl] ++ lit "# B" ++ [nl].
Definition anchored_book : str :=
  lit "# A {#ch-2-a}" ++ [nl] ++ lit "one" ++ [nl] ++ lit "## S {#sec-2-1-s}" ++ [nl] ++ lit "two" ++ [nl] ++ lit "# B {#ch-3-b}" ++ [nl] ++ lit "three" ++ [nl].
Definition demo_catalog (text : str) : BookCatalog := mkCatalog (lit "d") (lit "D") [] (chapter_descriptions (parse_outline text) text).
Definition tidyb (x : bool * str) : bool :=
  match live_heading x with
  | None => true
  | Some _ => bool_decide (trim_end (trim_start (strip_line x.2)) = trim_start (strip_line x.2)) &&
              match heading_of x with Some (_, Some []) => false | _ => true end
  end.
Lemma tidyb_spec text : forallb tidyb (live false (split_inclusive text)) = true -> Z.of_nat (length (split_inclusive text)) < 4294967296 -> tidy_text text.
Proof.
  intros H Hl. split; [|done]. apply Forall_forall. intros x Hx. rewrite forallb_forall in H. apply list_elem_of_In, H in Hx. revert Hx.
  unfold tidyb, tidy. intros Hx h Hh. rewrite Hh in Hx. apply andb_true_iff in Hx as [He Hx]. apply bool_decide_eq_true in He. split; [done|].
  intros lvl Hlvl. by rewrite Hlvl in Hx.
Qed.
Lemma demo_slug : fit_slug (lit "d").
Proof. split; [done|]. intros H. by apply list_elem_of_singleton in H. Qed.

Lemma plain_links_resolve_witness :
  let c := demo_catalog plain_book in
  let hub := build_hub_concept c (parse_outline plain_book) in
  exists ch blk, (build_chapter_concept c <$> parse_outline plain_book) !! 0%nat = Some ch /\
    chapters plain_book !! 0%nat = Some blk /\ title_of blk = lit "A b" /\ catalogued plain_book c hub 0 blk ch.
Proof.
  intros c hub. destruct (plain_links_resolve plain_book c) as (_ & _ & _ & H).
  - apply tidyb_spec; by vm_compute.
  - rewrite <- anchored_spec. by vm_compute.
  - exact demo_slug.
  - eexists. destruct (H 0%nat _ ltac:(by vm_compute)) as (blk & Hb & Hc). exists blk. split; [by vm_compute|]. split; [exact Hb|].
    split; [|exact Hc]. revert Hb. vm_compute. by intros [= <-].
Defined.
Lemma anchored_links_resolve_witness : exists ch, parse_outline anchored_book !! 0%nat = Some ch /\
  resolves anchored_book (chapter_uri (demo_catalog anchored_book) ch) (passage_of (is_chapter (co_index ch)) starts_chapter anchored_book).
Proof.
  eexists. split; [by vm_compute|].
  apply (anchored_links_resolve anchored_book (demo_catalog anchored_book)).
  - apply tidyb_spec; by vm_compute.
  - apply anchored_spec. by vm_compute.
  - exact demo_slug.
  - apply list_elem_of_lookup. exists 0%nat. by vm_compute.
Defined.

(** ** Findings *)
(** The summaries are looked up by the number of the chapter, not by its
    position: in a book whose anchors number its chapters 2 and 3, the
    concept of chapter 2 has the summary of chapter 3 and that of chapter
    3 none. *)
Lemma summaries_by_number :
  let c := demo_catalog anchored_book in
  bc_chapter_summaries c = [lit "one two"; lit "three"] /\
  (fun ch => contains (lit "three") (body (build_chapter_concept c ch))) <$> parse_outline anchored_book = [true; false] /\
  (fun ch => contains (lit "one two") (body (build_chapter_concept c ch))) <$> parse_outline anchored_book = [false; false].
Proof. by vm_compute. Qed.
(** A trailing space after an anchor hides it from the outline, which then
    counts, and not from the reader of the book: the link does not
    resolve.  The section number 0 is linked, and read as no section. *)
Lemma links_broken :
  let spaced := lit "# A {#ch-2-a} " ++ [nl] ++ lit "one" in
  co_anchor_id <$> parse_outline spaced = [None] /\
  (fun ch => extract_passage (lit "d") (chapter_anchor_id ch) spaced) <$> parse_outline spaced = [Err (chapter_missing 1)] /\
  let zero := lit "# A {#ch-2-a}" ++ [nl] ++ lit "## S {#sec-2-0-s}" ++ [nl] in
  (fun ch => (fun s => extract_passage (lit "d") (section_anchor_id ch s) zero) <$> co_sections ch) <$> parse_outline zero =
    [[Err (AnchorNotFound (lit "sec-2-0-s"))]].
Proof. by vm_compute. Qed.
