(* ===== verification/Embeddings.v ===== *)
(** * The embeddings client

    [crates/mycelium-librarian/src/embeddings.rs]: the stored configuration,
    the batch request with its passive health hooks, the slotting of the
    answer by index, and the active probe.  What the endpoint answers is a
    parameter; JSON bodies are kept as the records they encode. *)
From S2P Require Import Prelude Float Text Health Search Llm.
Open Scope Z_scope.

(** ** The stored configuration *)
Record EmbeddingsConfig := mkEmbeddingsConfig {
  emc_base_url : str; emc_model : str; emc_api_key : option str; emc_timeout_secs : Z; emc_batch : Z }.
Definition TIMEOUT_SECS_RANGE : Z * Z := (5, 300).
Definition BATCH_RANGE : Z * Z := (8, 128).
Definition EMBED_INPUT_MAX_CHARS : nat := Z.to_nat 24000.
Definition MAX_EMBEDDING_DIMS : nat := Z.to_nat 4096.
Definition EmbeddingsConfig_default : EmbeddingsConfig :=
  mkEmbeddingsConfig (lit "http://localhost:11434") (lit "default") None 30 32.
Definition EmbeddingsConfig_clamp (c : EmbeddingsConfig) : EmbeddingsConfig :=
  mkEmbeddingsConfig (emc_base_url c) (emc_model c) (emc_api_key c)
    (clamp (emc_timeout_secs c) TIMEOUT_SECS_RANGE.1 TIMEOUT_SECS_RANGE.2) (clamp (emc_batch c) BATCH_RANGE.1 BATCH_RANGE.2).

(** ** Errors *)
Inductive EmbeddingError := MRequest (message : str) | MStatus (status : Z) (body : str) | MMalformed (reason : str).
Definition EmbeddingError_display (e : EmbeddingError) : str :=
  match e with
  | MRequest m => lit "embedding request failed: " ++ m
  | MStatus status body => lit "embeddings endpoint returned status " ++ show_N (Z.to_N status) ++ lit ": " ++ body
  | MMalformed reason => lit "embedding response malformed: " ++ reason
  end.
Definition EmbeddingError_is_backend_down (e : EmbeddingError) : bool :=
  match e with
  | MRequest _ => true
  | MStatus status _ => (500 <=? status) || (status =? 401) || (status =? 403)
  | MMalformed _ => false
  end.

(** ** The passive hooks

    [EMBEDDING_HEALTH], [EMB_LAST_SUCCESS] and [EMBEDDING_DIMS] *)
Record EmbStatics := mkEmbStatics { es_health : HealthInner; es_last_success : Z; es_dims : Z }.
Definition set_emb_health (h : HealthInner) (s : EmbStatics) : EmbStatics := mkEmbStatics h (es_last_success s) (es_dims s).
Definition record_emb_success (at_ : Arrival) (vectors : list (list f32)) (s : EmbStatics) : EmbStatics :=
  mkEmbStatics (note_ok_at (es_health s) (ar_instant at_)) (Z.max 0 (ar_unix at_))
    (match head vectors with
     | Some v => if Z.of_nat (length v) <=? u32_max then Z.of_nat (length v) else es_dims s
     | None => es_dims s
     end).
Definition record_emb_outcome {A} (at_ : Arrival) (r : result A EmbeddingError) (s : EmbStatics) : EmbStatics :=
  match r with
  | Err e => if EmbeddingError_is_backend_down e then set_emb_health (note_failure_at (es_health s) (ar_instant at_)) s else s
  | Ok _ => s
  end.
Definition emb_state (s : EmbStatics) (now : Z) : BackendState := embedding_state (es_health s) now (es_last_success s).

(** ** Requests and answers *)
Record EmbedRequest := mkEmbedRequest { er_model : str; er_input : list str }.
Record EmbedData := mkEmbedData { ed_index : N; ed_embedding : list f32 }.
(** The body: whether it arrives, and what its JSON says *)
Record EmbedHttp := mkEmbedHttp { eh_status : Z; eh_text : option str; eh_data : result (result (list EmbedData) str) str }.

Definition is_finite (x : f32) : bool := match x with S754_zero _ | S754_finite _ _ _ => true | _ => false end.

(** One entry into its slot *)
Definition slot_entry (expected : nat) (slots : list (option (list f32))) (entry : EmbedData)
    : result (list (option (list f32))) EmbeddingError :=
  let idx := ed_index entry in
  if (N.of_nat expected <=? idx)%N then
    Err (MMalformed (lit "embedding index " ++ show_N idx ++ lit " is out of range for " ++ show_N (N.of_nat expected) ++ lit " input(s)"))
  else match slots !! N.to_nat idx with
       | Some (Some _) => Err (MMalformed (lit "duplicate embedding index " ++ show_N idx ++ lit " in the response"))
       | _ => Ok (<[N.to_nat idx := Some (ed_embedding entry)]> slots)
       end.
Fixpoint fill_slots (expected : nat) (slots : list (option (list f32))) (data : list EmbedData)
    : result (list (option (list f32))) EmbeddingError :=
  match data with
  | [] => Ok slots
  | entry :: data => (let? slots := slot_entry expected slots entry in fill_slots expected slots data)%rust
  end.
(** A slot's vector; [collect] stops at the first error. *)
Definition slot_vector (i : nat) (slot : option (list f32)) : result (list f32) EmbeddingError :=
  match slot with
  | None => Err (MMalformed (lit "the embeddings response is missing index " ++ show_N (N.of_nat i) ++ lit " (incomplete batch)"))
  | Some [] => Err (MMalformed (lit "the embeddings response carries an empty vector at index " ++ show_N (N.of_nat i)))
  | Some v =>
      if existsb (fun x => negb (is_finite x)) v
      then Err (MMalformed (lit "the embeddings response carries a non-finite value at index " ++ show_N (N.of_nat i)))
      else Ok v
  end.
Fixpoint collect_slots (i : nat) (slots : list (option (list f32))) : result (list (list f32)) EmbeddingError :=
  match slots with
  | [] => Ok []
  | slot :: slots => (let? v := slot_vector i slot in let? vs := collect_slots (S i) slots in Ok (v :: vs))%rust
  end.
Definition ordered_vectors (data : list EmbedData) (expected : nat) : result (list (list f32)) EmbeddingError :=
  (let? slots := fill_slots expected (replicate expected None) data in collect_slots 0 slots)%rust.

(** ** The client *)
Record EmbeddingsClient := mkEmbeddingsClient { ebc_base_url : str; ebc_model : str; ebc_api_key : option str }.
Definition EmbeddingsClient_new (c : EmbeddingsConfig) : EmbeddingsClient :=
  mkEmbeddingsClient (trim_end_if (N.eqb 47) (emc_base_url c)) (emc_model c) (emc_api_key c).
(** The endpoint: url, bearer token and body to an answer, or the text of a
    transport error *)
Abbreviation EmbedEndpoint := (str -> option str -> EmbedRequest -> result EmbedHttp str) (only parsing).

(** From an answer to the vectors of a batch *)
Definition vectors_of_answer (answer : result EmbedHttp str) (expected : nat) : result (list (list f32)) EmbeddingError :=
  match answer with
  | Err m => Err (MRequest m)
  | Ok r =>
      if negb (is_success (eh_status r)) then Err (MStatus (eh_status r) (take 500 (default [] (eh_text r))))
      else
        match eh_data r with
        | Err m => Err (MRequest m)
        | Ok (Err e) => Err (MMalformed (lit "invalid embeddings JSON body: " ++ e))
        | Ok (Ok data) => ordered_vectors data expected
        end
  end.

Fixpoint find_index_from {A} (f : A -> bool) (i : nat) (l : list A) : option (nat * A) :=
  match l with
  | [] => None
  | x :: l => if f x then Some (i, x) else find_index_from f (S i) l
  end.
Definition dims_error (dims : nat) : str :=
  lit "model dims " ++ show_N (N.of_nat dims) ++ lit " exceeds the 4096 cap " ++ [8212%N] ++ lit " config-level problem".

Section Client.
Context (c : EmbeddingsClient) (endpoint : EmbedEndpoint) (at_ : Arrival).
Definition embed_batch_impl (texts : list str) (s : EmbStatics) : result (list (list f32)) EmbeddingError * EmbStatics :=
  match texts with
  | [] => (Ok [], s)
  | _ =>
      let input := take EMBED_INPUT_MAX_CHARS <$> texts in
      match vectors_of_answer (endpoint (ebc_base_url c ++ lit "/v1/embeddings") (ebc_api_key c) (mkEmbedRequest (ebc_model c) input)) (length texts) with
      | Err e => (Err e, s)
      | Ok vectors =>
          match find_index_from (fun v => MAX_EMBEDDING_DIMS <? length v)%nat 0 vectors with
          | Some (i, v) => (Err (MMalformed (dims_error (length v) ++ lit " (vector at index " ++ show_N (N.of_nat i) ++ lit ")")), s)
          | None => (Ok vectors, record_emb_success at_ vectors s)
          end
      end
  end.
Definition embed_batch (texts : list str) (s : EmbStatics) : result (list (list f32)) EmbeddingError * EmbStatics :=
  let '(r, s) := embed_batch_impl texts s in (r, record_emb_outcome at_ r s).
End Client.

(** [built]: the HTTP client could be built, or the text of the error. *)
Definition probe_once (c : EmbeddingsConfig) (built : result unit str) (endpoint : EmbedEndpoint) : result nat EmbeddingError :=
  match built with
  | Err m => Err (MRequest m)
  | Ok _ =>
    let url := trim_end_if (N.eqb 47) (emc_base_url c) ++ lit "/v1/embeddings" in
    match vectors_of_answer (endpoint url (emc_api_key c) (mkEmbedRequest (emc_model c) [lit "probe"])) 1 with
    | Err e => Err e
    | Ok vectors =>
        let dims := match vectors with v :: _ => length v | [] => 0%nat end in
        if (MAX_EMBEDDING_DIMS <? dims)%nat then Err (MMalformed (dims_error dims)) else Ok dims
    end
  end.

(** ** The slots *)
Lemma slot_entry_ok n slots e slots' : slot_entry n slots e = Ok slots' -> length slots = n ->
  slots !! N.to_nat (ed_index e) = Some None /\ slots' = <[N.to_nat (ed_index e) := Some (ed_embedding e)]> slots.
Proof.
  unfold slot_entry. intros H Hlen. destruct (N.leb_spec (N.of_nat n) (ed_index e)) as [|Hlt]; [done|].
  assert (is_Some (slots !! N.to_nat (ed_index e))) as [[v|] Hs] by (apply lookup_lt_is_Some; lia); rewrite Hs in H; [done|].
  by injection H as <-.
Qed.
Lemma slot_entry_free n slots e : length slots = n -> slots !! N.to_nat (ed_index e) = Some None ->
  slot_entry n slots e = Ok (<[N.to_nat (ed_index e) := Some (ed_embedding e)]> slots).
Proof.
  intros Hlen Hs. unfold slot_entry. apply lookup_lt_Some in Hs as Hlt.
  rewrite (proj2 (N.leb_gt _ _)) by lia. by rewrite Hs.
Qed.

Definition at_index (i : nat) (v : list f32) : EmbedData := mkEmbedData (N.of_nat i) v.

(** What the slots hold afterwards is what they held and the data. *)
Lemma fill_slots_ok n data slots slots' : fill_slots n slots data = Ok slots' -> length slots = n ->
  length slots' = n /\ NoDup (ed_index <$> data) /\ (forall e, e ∈ data -> slots !! N.to_nat (ed_index e) = Some None) /\
  forall i v, slots' !! i = Some (Some v) <-> slots !! i = Some (Some v) \/ at_index i v ∈ data.
Proof.
  revert slots. induction data as [|e data IH]; intros slots; simpl.
  { intros [= <-] Hlen. split_and!; [done|constructor|by intros e ?%not_elem_of_nil|].
    intros i v. split; [by left|]. intros [?|H%not_elem_of_nil]; done. }
  destruct (slot_entry n slots e) as [slots1|] eqn:E; [|done]. simpl. intros Hfill Hlen.
  destruct (slot_entry_ok _ _ _ _ E Hlen) as [Hfree ->].
  destruct (IH _ Hfill) as (Hlen' & Hnd & Hdata & Hiff); [by rewrite length_insert|].
  assert (Hne : forall e', e' ∈ data -> ed_index e' <> ed_index e).
  { intros e' He' Heq. specialize (Hdata _ He'). rewrite Heq, list_lookup_insert_eq in Hdata; [done|]. by apply lookup_lt_Some in Hfree. }
  split_and!; [done| | |].
  - constructor; [|done]. intros (e' & Heq & He')%list_elem_of_fmap. by eapply Hne.
  - intros e' [->|He']%elem_of_cons; [done|]. specialize (Hdata _ He'). rewrite list_lookup_insert_ne in Hdata; [done|].
    intros Heq. apply (Hne _ He'). lia.
  - intros i v. rewrite Hiff, elem_of_cons. destruct (decide (i = N.to_nat (ed_index e))) as [->|Hi].
    + rewrite list_lookup_insert_eq by (by apply lookup_lt_Some in Hfree). rewrite Hfree. unfold at_index. rewrite N2Nat.id.
      split.
      * intros [[= <-]|?]; right; [left; by destruct e|by right].
      * intros [?|[Heq|?]]; [done| |by right]. left. by rewrite <- Heq.
    + rewrite list_lookup_insert_ne by done. split; [intros [?|?]; [by left|right; by right]|].
      intros [?|[Heq|?]]; [by left| |by right]. exfalso. apply Hi. rewrite <- Heq. simpl. lia.
Qed.

Lemma fill_slots_free n data slots : length slots = n -> NoDup (ed_index <$> data) ->
  (forall e, e ∈ data -> slots !! N.to_nat (ed_index e) = Some None) -> exists slots', fill_slots n slots data = Ok slots'.
Proof.
  revert slots. induction data as [|e data IH]; intros slots Hlen Hnd Hfree; [by exists slots|].
  rewrite fmap_cons in Hnd. apply NoDup_cons in Hnd as [Hn Hnd]. simpl.
  rewrite slot_entry_free by (try done; apply Hfree; left). simpl. apply IH; [by rewrite length_insert|done|].
  intros e' He'. rewrite list_lookup_insert_ne; [apply Hfree; by right|].
  intros Heq. apply Hn. apply list_elem_of_fmap. exists e'. split; [lia|done].
Qed.

Definition well_formed (v : list f32) : Prop := v <> [] /\ Forall (fun x => is_finite x = true) v.
Lemma slot_vector_ok i slot v : slot_vector i slot = Ok v <-> slot = Some v /\ well_formed v.
Proof.
  assert (Hex : forall l, existsb (fun x => negb (is_finite x)) l = false <-> Forall (fun x => is_finite x = true) l).
  { intros l. rewrite existsb_false, Forall_forall. by setoid_rewrite negb_false_iff. }
  unfold slot_vector, well_formed. destruct slot as [[|x l]|].
  - split; [done|]. intros [[= <-] [? _]]. done.
  - destruct (existsb _ (x :: l)) eqn:E.
    + split; [done|]. intros [[= <-] [_ Hf]]. apply Hex in Hf. by rewrite Hf in E.
    + apply Hex in E. split; [by intros [= <-]|]. by intros [[= <-] _].
  - split; [done|]. by intros [? _].
Qed.
Lemma collect_slots_ok i slots vs : collect_slots i slots = Ok vs <-> slots = Some <$> vs /\ Forall well_formed vs.
Proof.
  revert i vs. induction slots as [|slot slots IH]; intros i vs; simpl.
  - split; [intros [= <-]; by split; [|constructor]|]. intros [H _]. by destruct vs.
  - destruct (slot_vector i slot) as [v|e] eqn:E; simpl.
    + apply slot_vector_ok in E as [-> Hv]. destruct (collect_slots (S i) slots) as [vs'|e] eqn:E'; simpl.
      * apply IH in E' as [-> Hvs]. split; [intros [= <-]; by split; [|constructor]|].
        intros [H Hf]. destruct vs as [|v' vs]; [done|]. rewrite fmap_cons in H. injection H as -> H. apply (inj _) in H. by subst.
      * split; [done|]. intros [H Hf]. destruct vs as [|v' vs]; [done|]. rewrite fmap_cons in H. injection H as -> H.
        assert (Err e = @Ok _ EmbeddingError vs) as Hc; [|done]. rewrite <- E'. apply IH. by apply Forall_cons in Hf as [_ ?].
    + split; [done|]. intros [H Hf]. destruct vs as [|v' vs]; [done|]. rewrite fmap_cons in H. injection H as -> H.
      apply Forall_cons in Hf as [Hv _]. assert (slot_vector i (Some v') = Ok v') as Hc by by apply slot_vector_ok. by rewrite Hc in E.
Qed.

Lemma elem_of_indexed (vs : list (list f32)) e :
  e ∈ imap at_index vs <-> exists v, vs !! N.to_nat (ed_index e) = Some v /\ e = at_index (N.to_nat (ed_index e)) v.
Proof.
  rewrite elem_of_lookup_imap. split.
  - intros (i & v & -> & Hv). exists v. simpl. rewrite Nat2N.id. done.
  - intros (v & Hv & Heq). by exists (N.to_nat (ed_index e)), v.
Qed.
Lemma indexed_nodup (vs : list (list f32)) : NoDup (ed_index <$> imap at_index vs).
Proof.
  rewrite fmap_imap. apply NoDup_alt. intros i j x Hi Hj.
  apply list_lookup_imap_Some in Hi as (v & _ & ->). apply list_lookup_imap_Some in Hj as (v' & _ & Heq). simpl in Heq. lia.
Qed.

Lemma ordered_vectors_ok data n vs : ordered_vectors data n = Ok vs <-> length vs = n /\ Forall well_formed vs /\ data ≡ₚ imap at_index vs.
Proof.
  assert (Hnone : forall (i : nat) (v : list f32), replicate n None !! i <> Some (Some v)).
  { intros i v H. by apply lookup_replicate in H as [? _]. }
  unfold ordered_vectors. split.
  - destruct (fill_slots n (replicate n None) data) as [slots|] eqn:E; [|done]. simpl. rewrite collect_slots_ok. intros [-> Hvs].
    destruct (fill_slots_ok _ _ _ _ E) as (Hlen & Hnd & Hdata & Hiff); [by rewrite length_replicate|]. rewrite length_fmap in Hlen.
    split_and!; [done|done|]. apply NoDup_Permutation; [by eapply NoDup_fmap_1|by eapply NoDup_fmap_1, indexed_nodup|].
    intros [i v]. rewrite elem_of_indexed. simpl. split.
    + intros Hin. exists v. unfold at_index. rewrite N2Nat.id. split; [|done]. specialize (Hiff (N.to_nat i) v).
      rewrite list_lookup_fmap in Hiff. unfold at_index in Hiff. rewrite N2Nat.id in Hiff. assert (Hs := proj2 Hiff (or_intror Hin)).
      destruct (vs !! N.to_nat i); simpl in Hs; [by injection Hs as ->|done].
    + intros (v' & Hv & Heq). injection Heq as Hi ->. specialize (Hiff (N.to_nat i) v').
      rewrite list_lookup_fmap, Hv in Hiff. destruct (proj1 Hiff eq_refl) as [H|H]; [by apply Hnone in H|]. unfold at_index in H. by rewrite N2Nat.id in H.
  - intros (Hlen & Hvs & Hperm).
    assert (Hin : forall e, e ∈ data <-> e ∈ imap at_index vs) by (intros e; by rewrite Hperm).
    destruct (fill_slots_free n data (replicate n None)) as [slots E].
    + by rewrite length_replicate.
    + rewrite Hperm. apply indexed_nodup.
    + intros e (v & Hv & _)%Hin%elem_of_indexed. apply lookup_replicate. split; [done|]. apply lookup_lt_Some in Hv. lia.
    + rewrite E. simpl. apply collect_slots_ok. split; [|done].
      destruct (fill_slots_ok _ _ _ _ E) as (Hlen' & _ & _ & Hiff); [by rewrite length_replicate|].
      apply list_eq. intros i. rewrite list_lookup_fmap. destruct (vs !! i) as [v|] eqn:Hv; simpl.
      * apply Hiff. right. apply Hin, elem_of_indexed. exists v. simpl. by rewrite Nat2N.id.
      * apply lookup_ge_None. apply lookup_ge_None in Hv. lia.
Qed.

(** Whatever else the entries are, they are malformed. *)
Lemma ordered_vectors_malformed data n e : ordered_vectors data n = Err e -> exists reason, e = MMalformed reason.
Proof.
  unfold ordered_vectors. destruct (fill_slots n (replicate n None) data) as [slots|e'] eqn:E; simpl.
  - clear E. generalize 0%nat. induction slots as [|slot slots IH]; intros i; simpl; [done|].
    assert (Hs : forall e', slot_vector i slot = Err e' -> exists reason, e' = MMalformed reason).
    { unfold slot_vector. intros e'. destruct slot as [[|x v]|]; [| |]; intros H; [injection H as <-; by eexists| |injection H as <-; by eexists].
      destruct (existsb _ _); [injection H as <-; by eexists|done]. }
    destruct (slot_vector i slot); simpl; [|intros [= ->]; by apply Hs].
    specialize (IH (S i)). destruct (collect_slots (S i) slots); simpl; [done|]. intros [= ->]. by apply IH.
  - intros [= ->]. revert E. generalize (replicate n (@None (list f32))). induction data as [|x data IH]; intros slots; simpl; [done|].
    destruct (slot_entry n slots x) as [slots'|e'] eqn:Ex; simpl; [apply IH|]. intros [= ->]. unfold slot_entry in Ex.
    destruct (N.of_nat n <=? ed_index x)%N; [injection Ex as <-; by eexists|]. destruct (slots !! _) as [[]|]; try done. injection Ex as <-. by eexists.
Qed.

(** ** What one request tells the registry *)
Lemma find_index_from_None {A} (f : A -> bool) i l : find_index_from f i l = None <-> existsb f l = false.
Proof.
  revert i. induction l as [|x l IH]; intros i; simpl; [done|]. destruct (f x); [done|]. apply IH.
Qed.

(** A batch that is accepted has one vector per text, each well formed and
    within the bound on its length; it makes the machine green (unless it
    is disabled) and stamps the success and the dimensions.  A failure that
    says the backend is down counts once against it; any other failure, and
    an empty batch, tell the registry nothing. *)
Theorem embed_batch_spec c endpoint at_ texts s r s' : embed_batch c endpoint at_ texts s = (r, s') ->
  match r with
  | Ok vs => length vs = length texts /\ Forall well_formed vs /\ Forall (fun v => (length v <= MAX_EMBEDDING_DIMS)%nat) vs /\
      match texts with
      | [] => s' = s
      | _ => es_health s' = note_ok_at (es_health s) (ar_instant at_) /\ es_last_success s' = Z.max 0 (ar_unix at_) /\
             es_dims s' = match head vs with Some v => Z.of_nat (length v) | None => 0 end /\
             (configured (es_health s) = true -> base_state (es_health s') = Green)
      end
  | Err e => texts <> [] /\
      s' = if EmbeddingError_is_backend_down e then set_emb_health (note_failure_at (es_health s) (ar_instant at_)) s else s
  end.
Proof.
  unfold embed_batch, embed_batch_impl. destruct texts as [|t texts]; [intros [= <- <-]; by split_and!|].
  destruct (vectors_of_answer _ _) as [vs|e] eqn:E; [|by intros [= <- <-]].
  destruct (find_index_from _ 0 vs) as [[i v]|] eqn:Ef; [by intros [= <- <-]|]. intros [= <- <-]. simpl.
  apply find_index_from_None in Ef. rewrite existsb_false in Ef. 
  unfold vectors_of_answer in E. destruct (endpoint _ _ _) as [h|]; [|done]. destruct (negb (is_success _)); [done|].
  destruct (eh_data h) as [[data|]|]; [|done..]. apply ordered_vectors_ok in E as (Hlen & Hvs & _).
  assert (Hd : Forall (fun v => (length v <= MAX_EMBEDDING_DIMS)%nat) vs).
  { apply Forall_forall. intros v Hv. specialize (Ef _ Hv). by apply Nat.ltb_ge in Ef. }
  split_and!; [done|done|done|done|done| |].
  - destruct vs as [|v vs]; [done|]. simpl. apply Forall_cons in Hd as [Hd _]. rewrite (proj2 (Z.leb_le _ _)); [done|].
    unfold MAX_EMBEDDING_DIMS in Hd. unfold u32_max. lia.
  - intros Hc. unfold note_ok_at. rewrite Hc. done.
Qed.

(** C38. A batch of texts is answered with the vectors [vs] exactly when the
    endpoint, asked with the texts cut to the cap on their length,
    answers with a success and entries that are, in whatever order, one for
    each position with its vector of [vs], and [vs] has one vector for each
    text, each not empty, of finite numbers and no longer than the bound on
    the dimensions: no entry is shifted, repeated, missing or left over.  Any
    other list of entries is malformed, and then the state of the backend is
    as it was; a batch of no texts asks nothing. *)
Theorem embed_batch_accepts c endpoint at_ texts s :
  let answer := endpoint (ebc_base_url c ++ lit "/v1/embeddings") (ebc_api_key c) (mkEmbedRequest (ebc_model c) (take EMBED_INPUT_MAX_CHARS <$> texts)) in
  let '(r, s') := embed_batch c endpoint at_ texts s in
  match texts with
  | [] => r = Ok [] /\ s' = s
  | _ =>
      (forall vs, r = Ok vs <-> exists h data, answer = Ok h /\ is_success (eh_status h) = true /\ eh_data h = Ok (Ok data) /\
         length vs = length texts /\ Forall well_formed vs /\ Forall (fun v => (length v <= MAX_EMBEDDING_DIMS)%nat) vs /\ data ≡ₚ imap at_index vs) /\
      (forall h data e, answer = Ok h -> is_success (eh_status h) = true -> eh_data h = Ok (Ok data) -> r = Err e ->
         (exists reason, e = MMalformed reason) /\ s' = s)
  end.
Proof.
  intros answer. destruct (embed_batch c endpoint at_ texts s) as [r s'] eqn:E. pose proof (embed_batch_spec _ _ _ _ _ _ _ E) as Hspec.
  revert E. unfold embed_batch, embed_batch_impl. destruct texts as [|t texts]; [by intros [= <- <-]|]. fold answer. intros E. split.
  - intros vs. split.
    + intros ->. destruct Hspec as (Hlen & Hvs & Hd & _). revert E. destruct (vectors_of_answer answer _) as [vs'|] eqn:Ev; [|done].
      destruct (find_index_from _ 0 vs') as [[i v]|]; [done|]. intros [= -> _]. unfold vectors_of_answer in Ev.
      destruct answer as [h|]; [|done]. destruct (is_success (eh_status h)) eqn:Hs; [|done]. cbn in Ev.
      destruct (eh_data h) as [[data|]|] eqn:Hdata; [|done..]. apply ordered_vectors_ok in Ev as (_ & _ & Hp). by exists h, data.
    + intros (h & data & Ha & Hs & Hdata & Hlen & Hvs & Hd & Hp). revert E. rewrite Ha. unfold vectors_of_answer. rewrite Hs, Hdata. cbn [negb].
      rewrite (proj2 (ordered_vectors_ok data _ vs)) by done. rewrite (proj2 (find_index_from_None _ 0 vs)); [by intros [= <- _]|].
      apply existsb_false. rewrite Forall_forall in Hd. intros v Hv. apply Nat.ltb_ge, Hd, Hv.
  - intros h data e Ha Hs Hdata ->. destruct Hspec as [_ Hst].
    assert (exists reason, e = MMalformed reason) as [reason ->]; [|by split; [eexists|]].
    revert E. rewrite Ha. unfold vectors_of_answer. rewrite Hs, Hdata. cbn [negb].
    destruct (ordered_vectors data _) as [vs|e'] eqn:Ev; [|intros [= <- _]; by apply ordered_vectors_malformed in Ev].
    destruct (find_index_from _ 0 vs) as [[i v]|]; [|done]. intros [= <- _]. by eexists.
Qed.

(** The probe answers with the length of the model's vectors, which is
    positive and within the bound, or with an error; being a function of
    the answer alone it feeds nothing. *)
Lemma probe_once_dims c built endpoint dims : probe_once c built endpoint = Ok dims -> (0 < dims <= MAX_EMBEDDING_DIMS)%nat.
Proof.
  unfold probe_once. destruct built; [|done]. destruct (vectors_of_answer _ 1) as [vs|] eqn:E; [|done].
  unfold vectors_of_answer in E. destruct (endpoint _ _ _) as [h|]; [|done]. destruct (negb (is_success _)); [done|].
  destruct (eh_data h) as [[data|]|]; [|done..]. apply ordered_vectors_ok in E as (Hlen & Hvs & _).
  destruct vs as [|v [|]]; try done. apply Forall_cons in Hvs as [[Hne _] _].
  destruct (Nat.ltb_spec MAX_EMBEDDING_DIMS (length v)); [done|]. intros [= <-]. destruct v; [done|]. simpl in *. lia.
Qed.

Lemma EmbeddingsConfig_clamp_idem c : EmbeddingsConfig_clamp (EmbeddingsConfig_clamp c) = EmbeddingsConfig_clamp c.
Proof. unfold EmbeddingsConfig_clamp, clamp, TIMEOUT_SECS_RANGE, BATCH_RANGE. simpl. f_equal; lia. Qed.

(** ** Witnesses *)
Lemma embed_batch_accepts_witness :
  let one : list f32 := [S754_finite false 1 0] in
  let two : list f32 := [S754_finite false 1 1] in
  let endpoint : EmbedEndpoint := fun _ _ _ => Ok (mkEmbedHttp 200 None (Ok (Ok [at_index 1 two; at_index 0 one]))) in
  (embed_batch (mkEmbeddingsClient (lit "http://e") (lit "m") None) endpoint (mkArrival 1 1) [lit "a"; lit "b"] (mkEmbStatics HealthInner_default 0 0)).1 = Ok [one; two].
Proof.
  intros one two endpoint.
  pose proof (embed_batch_accepts (mkEmbeddingsClient (lit "http://e") (lit "m") None) endpoint (mkArrival 1 1) [lit "a"; lit "b"] (mkEmbStatics HealthInner_default 0 0)) as H.
  cbv zeta in H. destruct (embed_batch _ _ _ _ _) as [r s']. apply (proj1 H [one; two]).
  exists (mkEmbedHttp 200 None (Ok (Ok [at_index 1 two; at_index 0 one]))), [at_index 1 two; at_index 0 one].
  split; [done|]. split; [done|]. split; [done|]. split; [done|]. split; [repeat constructor; done|]. split; [repeat constructor; cbn; unfold MAX_EMBEDDING_DIMS; lia|].
  apply Permutation_swap.
Defined.
