(* ===== verification/Trace.v ===== *)
(** * Agent run traces

    [crates/mycelium-librarian/src/trace.rs]: the recorder of a run's tool
    steps, the finished record with its one-line notation, and the table
    [agent_traces], which keeps the newest fifty records of a scope.  The
    clocks, the process counter and the JSON text of a record are
    parameters. *)
From stdpp Require Import sorting.
From S2P Require Import Prelude Text.
Open Scope Z_scope.

Record TraceStep := mkTraceStep { st_seq : Z; st_tool : str; st_summary : str; st_paths : list str; st_write : bool }.
Inductive TraceOutcome := TSuccess | TPartial | TFailed.
#[global] Instance TraceOutcome_eq_dec : EqDecision TraceOutcome.
Proof. solve_decision. Defined.
Inductive TraceKind := TQuery | TMutation | TChat.
Record AgentTrace := mkAgentTrace {
  at_id : str; at_kind : TraceKind; at_input : str; at_started_at : str; at_duration_ms : Z; at_steps : list TraceStep;
  at_answer : str; at_notation : str; at_outcome : TraceOutcome }.

(** ** Recording *)
Definition ellipsis : char := 8230.
Definition truncate (s : str) (n : nat) : str :=
  if (n <? length s)%nat then take (n - 1) s ++ [ellipsis] else s.

Definition record (tool summary : str) (paths : list str) (write : bool) (steps : list TraceStep) : list TraceStep :=
  steps ++ [mkTraceStep (wrap32 (wrap32 (Z.of_nat (length steps)) + 1)) tool (truncate summary 300) paths write].

(** [p.rsplit('/').next()] *)
Definition short_path (p : str) : str := default [] (last (split 47 p)).
Definition arrow : str := [32; 8594; 32]%N.
Definition step_text (s : TraceStep) : str :=
  let named (name : string) := str_eqb (st_tool s) (lit name) in
  let first := head (st_paths s) in
  if named "search_knowledge"%string then
    lit "search " ++ [34%N] ++ truncate (st_summary s) 30 ++ [34%N] ++ lit " (" ++ show_N (N.of_nat (length (st_paths s))) ++ lit ")"
  else if named "read_concept"%string then lit "read " ++ short_path (default (st_summary s) first)
  else if named "read_passage"%string then lit "passage " ++ truncate (st_summary s) 40
  else if named "list_directory"%string then lit "browse layout"
  else if named "lint_knowledge"%string then lit "lint graph"
  else if named "write_concept"%string then lit "write " ++ short_path (default [] first)
  else if named "patch_concept"%string then lit "patch " ++ short_path (default [] first)
  else if named "delete_concept"%string then lit "delete " ++ short_path (default [] first)
  else st_tool s.
Definition marker (o : TraceOutcome) : str :=
  match o with TSuccess => [10003%N] | TPartial => 9888%N :: lit " partial" | TFailed => [10007%N] end.
Definition build_notation (steps : list TraceStep) (outcome : TraceOutcome) : str :=
  join arrow ((step_text <$> steps) ++ [marker outcome]).

(** [{:04x}] *)
Definition hex_digit (n : Z) : char := Z.to_N (if n <? 10 then 48 + n else 87 + n).
Fixpoint hex_rev (fuel : nat) (n : Z) : str :=
  match fuel with
  | O => []
  | S fuel => if n =? 0 then [] else hex_digit (n mod 16) :: hex_rev fuel (n / 16)
  end.
Definition hex4 (n : Z) : str := let s := reverse (hex_rev 8 n) in replicate (4 - length s) 48%N ++ s.

(** What [finalize] reads: the run's duration, the wall clock in
    milliseconds, the counter and the time *)
Record Finish := mkFinish { fi_elapsed_ms : Z; fi_millis : Z; fi_counter : Z; fi_now : str }.
Definition finalize_trace (f : Finish) (kind : TraceKind) (input answer : str) (outcome : TraceOutcome) (steps : list TraceStep) : AgentTrace :=
  mkAgentTrace (show_N (Z.to_N (wrap32 (fi_millis f))) ++ lit "-" ++ hex4 (fi_counter f)) kind (truncate input 300) (fi_now f)
    (fi_elapsed_ms f) steps (truncate answer 500) (build_notation steps outcome) outcome.

(** ** The table *)
Class TraceJson := {
  trace_json : AgentTrace -> str;
  trace_parse : str -> option AgentTrace;
  trace_roundtrip t : trace_parse (trace_json t) = Some t }.

Record TraceRow := mkTraceRow {
  tr_id : str; tr_scope : str; tr_kind : str; tr_input : str; tr_answer : str; tr_notation : str; tr_outcome : str;
  tr_duration_ms : Z; tr_created_at : str; tr_body : str }.

Definition kind_text (k : TraceKind) : str :=
  match k with TQuery => lit "query" | TMutation => lit "mutation" | TChat => lit "chat" end.
Definition outcome_text (o : TraceOutcome) : str :=
  match o with TSuccess => lit "success" | TPartial => lit "partial" | TFailed => lit "failed" end.
(** [as i64] *)
Definition as_i64 (z : Z) : Z := let w := wrap64 z in if w <? 9223372036854775808 then w else w - 18446744073709551616.

Definition in_trace_scope (scope : str) (r : TraceRow) : bool := str_eqb (tr_scope r) scope.
(** [ORDER BY created_at DESC, id DESC] *)
Definition newest_first (a b : TraceRow) : comparison :=
  then_with (str_cmp (tr_created_at b) (tr_created_at a)) (str_cmp (tr_id b) (tr_id a)).
Definition ranked (scope : str) (db : list TraceRow) : list TraceRow := sort_by newest_first (retain (in_trace_scope scope) db).
Definition KEEP_TRACES : nat := 50.
Definition prune (scope : str) (db : list TraceRow) : list TraceRow :=
  let kept := tr_id <$> take KEEP_TRACES (ranked scope db) in
  retain (fun r => negb (in_trace_scope scope r && negb (existsb (str_eqb (tr_id r)) kept))) db.

Section Table.
Context {TJ : TraceJson}.
Definition trace_row (scope : str) (t : AgentTrace) : TraceRow :=
  mkTraceRow (at_id t) scope (kind_text (at_kind t)) (at_input t) (at_answer t) (at_notation t) (outcome_text (at_outcome t))
    (as_i64 (at_duration_ms t)) (at_started_at t) (trace_json t).
(** The INSERT is refused by a fault or by a row with the id; a refused
    DELETE is ignored. *)
Definition save_trace (scope : str) (t : AgentTrace) (insert_fails prune_fails : bool) (db : list TraceRow) : list TraceRow :=
  if insert_fails || existsb (fun r => str_eqb (tr_id r) (at_id t)) db then db
  else
    let db := db ++ [trace_row scope t] in
    if prune_fails then db else prune scope db.
Definition list_traces (scope : str) (limit : nat) (fails : bool) (db : list TraceRow) : list AgentTrace :=
  if fails then [] else omap (fun r => trace_parse (tr_body r)) (take limit (ranked scope db)).
End Table.

(** ** The order *)
Lemma then_with_opp a b : then_with (CompOpp a) (CompOpp b) = CompOpp (then_with a b).
Proof. by destruct a. Qed.
Lemma newest_first_opp a b : newest_first b a = CompOpp (newest_first a b).
Proof. unfold newest_first. rewrite (str_cmp_opp (tr_created_at b)), (str_cmp_opp (tr_id b)). apply then_with_opp. Qed.
Lemma newest_first_total P : TotalOn newest_first P.
Proof.
  split; unfold ordered.
  - intros x y _ _. rewrite (newest_first_opp x y). destruct (newest_first x y); simpl; auto.
  - intros x y z _ _ _. unfold newest_first.
    destruct (str_cmp (tr_created_at y) (tr_created_at x)) eqn:E1; [apply str_cmp_eq in E1 as ->| |done].
    + destruct (str_cmp (tr_created_at z) (tr_created_at x)) eqn:E2; simpl; [|done..].
      destruct (str_cmp (tr_id y) (tr_id x)) eqn:E3; [apply str_cmp_eq in E3 as ->; done| |done]. intros _ H.
      destruct (str_cmp (tr_id z) (tr_id y)) eqn:E4; [apply str_cmp_eq in E4 as ->; congruence| |done].
      by rewrite (str_cmp_lt_trans _ _ _ E4 E3).
    + intros _. destruct (str_cmp (tr_created_at z) (tr_created_at y)) eqn:E2; [apply str_cmp_eq in E2 as ->; by rewrite E1| |done].
      by rewrite (str_cmp_lt_trans _ _ _ E2 E1).
Qed.

Lemma ranked_perm scope db : ranked scope db ≡ₚ retain (in_trace_scope scope) db.
Proof. apply sort_by_perm. Qed.
Lemma ranked_sorted scope db : StronglySorted (ordered newest_first) (ranked scope db).
Proof. apply (sort_by_sorted _ (fun _ => True)); [apply newest_first_total|by apply Forall_true]. Qed.

(** ** The table after a save *)
Definition ids_unique (db : list TraceRow) : Prop := NoDup (tr_id <$> db).

Lemma ids_unique_eq db r r' : ids_unique db -> r ∈ db -> r' ∈ db -> tr_id r = tr_id r' -> r = r'.
Proof.
  unfold ids_unique. induction db as [|x db IH]; intros Hu Hr Hr' Hid; [by apply not_elem_of_nil in Hr|].
  rewrite fmap_cons, NoDup_cons in Hu. destruct Hu as [Hx Hu].
  apply elem_of_cons in Hr as [->|Hr], Hr' as [->|Hr']; [done| | |by apply IH].
  - destruct Hx. rewrite Hid. by apply list_elem_of_fmap_2.
  - destruct Hx. rewrite <- Hid. by apply list_elem_of_fmap_2.
Qed.

Lemma ids_unique_retain f db : ids_unique db -> ids_unique (retain f db).
Proof. intros H. eapply sublist_NoDup; [exact H|]. apply fmap_sublist, retain_sub. Qed.

Lemma NoDup_of_ids db : ids_unique db -> NoDup db.
Proof. apply NoDup_fmap_1. Qed.

(** What is kept of the scope is the head of its ranking. *)
Lemma prune_spec scope db r : ids_unique db ->
  r ∈ prune scope db <-> r ∈ db /\ (tr_scope r = scope -> r ∈ take KEEP_TRACES (ranked scope db)).
Proof.
  intros Hu. unfold prune. rewrite elem_of_retain. split; intros [Hr H]; split; try done.
  - intros Hs. unfold in_trace_scope in H. rewrite (proj2 (str_eqb_eq _ _) Hs) in H. simpl in H.
    rewrite negb_involutive in H. apply existsb_true in H as (i & Hi & Heq%str_eqb_eq).
    apply list_elem_of_fmap in Hi as (r' & -> & Hr'). assert (r = r') as ->; [|done].
    apply (ids_unique_eq db); [done|done| |done].
    apply (elem_of_retain (in_trace_scope scope)). rewrite <- ranked_perm. by eapply elem_of_take in Hr' as (? & ?%list_elem_of_lookup_2 & ?).
  - destruct (in_trace_scope scope r) eqn:E; [|done]. apply str_eqb_eq in E. simpl. rewrite negb_involutive.
    apply existsb_true. exists (tr_id r). split; [|by apply str_eqb_eq]. by apply list_elem_of_fmap_2, H.
Qed.

Lemma ranked_prune scope db : ids_unique db -> ranked scope (prune scope db) ≡ₚ take KEEP_TRACES (ranked scope db).
Proof.
  intros Hu. rewrite ranked_perm. apply NoDup_Permutation.
  - apply NoDup_of_ids, ids_unique_retain, ids_unique_retain, Hu.
  - eapply sublist_NoDup; [|apply sublist_take]. rewrite ranked_perm. by apply NoDup_of_ids, ids_unique_retain.
  - intros r. rewrite elem_of_retain, prune_spec by done. unfold in_trace_scope. rewrite str_eqb_eq. split.
    + intros [[_ H] Hs]. by apply H.
    + intros H. assert (Hin : r ∈ ranked scope db) by (apply elem_of_take in H as (? & ?%list_elem_of_lookup_2 & ?); done).
      rewrite ranked_perm, elem_of_retain in Hin. destruct Hin as [Hin Hs%str_eqb_eq]. by split.
Qed.

(** The newest row of a scope heads its ranking. *)
Lemma ranked_head scope db x : x ∈ retain (in_trace_scope scope) db ->
  (forall r, r ∈ retain (in_trace_scope scope) db -> r = x \/ newest_first x r = Lt) -> head (ranked scope db) = Some x.
Proof.
  intros Hx Hfirst. pose proof (ranked_sorted scope db) as Hs. pose proof (ranked_perm scope db) as Hp.
  destruct (ranked scope db) as [|y l]; [rewrite <- Hp in Hx; by apply not_elem_of_nil in Hx|]. simpl. f_equal.
  destruct (Hfirst y) as [|Hlt]; [rewrite <- Hp; by left|done|]. rewrite <- Hp in Hx.
  apply elem_of_cons in Hx as [|Hx]; [done|]. apply StronglySorted_inv in Hs as [_ Hall].
  rewrite Forall_forall in Hall. specialize (Hall _ Hx). unfold ordered in Hall. by rewrite newest_first_opp, Hlt in Hall.
Qed.

Section Saved.
Context {TJ : TraceJson}.

(** Telemetry is bounded and keeps the newest.  Saving a trace leaves the
    rows of other scopes as they are; of its own scope, when both
    statements succeed, the (at most fifty) newest of the old rows and the
    new one, in the sense that no row that went is newer than one that
    stayed; nothing goes while there are at most fifty.  A trace that is
    newer than the scope's others is the first that is listed, as it was
    recorded. *)
Theorem trace_retention scope t db : ids_unique db -> at_id t ∉ (tr_id <$> db) ->
  let db' := save_trace scope t false false db in
  let mine := retain (in_trace_scope scope) db ++ [trace_row scope t] in
  ids_unique db' /\
  (forall s, s <> scope -> retain (in_trace_scope s) db' = retain (in_trace_scope s) db) /\
  (length (retain (in_trace_scope scope) db') = Nat.min 50 (length mine)) /\
  (forall r, r ∈ retain (in_trace_scope scope) db' -> r ∈ mine) /\
  (forall r k, r ∈ mine -> r ∉ retain (in_trace_scope scope) db' -> k ∈ retain (in_trace_scope scope) db' -> newest_first k r <> Gt) /\
  ((forall r, r ∈ db -> tr_scope r = scope -> newest_first (trace_row scope t) r = Lt) ->
   forall limit, (0 < limit)%nat -> head (list_traces scope limit false db') = Some t).
Proof.
  intros Hu Hid. unfold save_trace. simpl.
  assert (existsb (fun r => str_eqb (tr_id r) (at_id t)) db = false) as ->.
  { apply existsb_false. intros r Hr. apply not_true_is_false. intros E%str_eqb_eq. apply Hid. rewrite <- E. by apply list_elem_of_fmap_2. }
  set (db1 := db ++ [trace_row scope t]). assert (Hu1 : ids_unique db1).
  { unfold ids_unique, db1. rewrite fmap_app. apply NoDup_app. split_and!; [done| |apply NoDup_singleton].
    intros x Hx ->%list_elem_of_singleton. done. }
  assert (Hmine : retain (in_trace_scope scope) db1 = retain (in_trace_scope scope) db ++ [trace_row scope t]).
  { unfold db1. rewrite List.filter_app. simpl. unfold in_trace_scope at 2. simpl. by rewrite (proj2 (str_eqb_eq _ _) eq_refl). }
  pose proof (ranked_prune scope db1 Hu1) as Hperm. pose proof (ranked_sorted scope db1) as Hsort.
  pose proof (ranked_perm scope (prune scope db1)) as Hp'. rewrite Hperm in Hp'.
  pose proof (ranked_perm scope db1) as Hp1. rewrite Hmine in Hp1.
  split_and!.
  - by apply ids_unique_retain.
  - intros s Hs. unfold prune. rewrite retain_retain. unfold db1. rewrite List.filter_app. simpl.
    unfold in_trace_scope at 4 5. simpl. assert (str_eqb scope s = false) as -> by (apply not_true_is_false; by intros ->%str_eqb_eq).
    rewrite andb_false_r, app_nil_r. apply retain_ext. intros r Hr.
    destruct (in_trace_scope s r) eqn:E; [|by rewrite andb_false_r]. rewrite andb_true_r. apply str_eqb_eq in E.
    assert (in_trace_scope scope r = false) as ->; [|rewrite andb_false_l; symmetry; by apply str_eqb_eq]. unfold in_trace_scope. apply not_true_is_false. intros ?%str_eqb_eq. congruence.
  - rewrite <- Hp', length_take, Hp1. done.
  - intros r. rewrite <- Hp', <- Hp1. intros (? & ?%list_elem_of_lookup_2 & ?)%elem_of_take. done.
  - intros r k. rewrite <- Hp', <- Hp1. intros Hr Hn Hk.
    rewrite <- (take_drop KEEP_TRACES (ranked scope db1)) in Hr, Hsort. apply elem_of_app in Hr as [?|Hr]; [done|].
    by apply (StronglySorted_app_1_elem_of (ordered newest_first) _ _ k r Hsort).
  - intros Hnew limit Hlim. destruct limit as [|limit]; [lia|]. unfold list_traces.
    assert (Hfirst : forall r, r ∈ retain (in_trace_scope scope) db1 -> r = trace_row scope t \/ newest_first (trace_row scope t) r = Lt).
    { intros r. rewrite Hmine. intros [[Hr Hs%str_eqb_eq]%elem_of_retain| ->%list_elem_of_singleton]%elem_of_app; auto. }
    assert (Hh : head (ranked scope (prune scope db1)) = Some (trace_row scope t)).
    { apply ranked_head.
      - rewrite <- Hp'. assert (Hh : head (ranked scope db1) = Some (trace_row scope t)).
        { apply ranked_head; [|done]. rewrite Hmine. apply elem_of_app. right. by left. }
        destruct (ranked scope db1) as [|x l]; [done|]. injection Hh as ->. simpl. by left.
      - intros r. rewrite <- Hp'. intros (? & ?%list_elem_of_lookup_2 & ?)%elem_of_take. apply Hfirst. by rewrite <- ranked_perm. }
    destruct (ranked scope (prune scope db1)) as [|y l]; [done|]. injection Hh as ->. simpl. by rewrite trace_roundtrip.
Qed.
End Saved.

(** The steps of a recorder are numbered from one (as far as 32 bits go). *)
Lemma record_numbered l : Z.of_nat (length l) < u32_max ->
  st_seq <$> fold_left (fun steps c => record c.1.1 c.1.2 c.2.1 c.2.2 steps) l [] = (fun i => Z.of_nat (S i)) <$> seq 0 (length l).
Proof.
  induction l as [|c l IH] using rev_ind; intros Hl; [done|]. rewrite length_app in *. simpl in Hl.
  set (build := fold_left (fun steps c => record c.1.1 c.1.2 c.2.1 c.2.2 steps)) in *.
  assert (Hlen : length (build l []) = length l) by (rewrite <- (length_fmap st_seq), IH by lia; by rewrite length_fmap, length_seq).
  replace (build (l ++ [c]) []) with (record c.1.1 c.1.2 c.2.1 c.2.2 (build l [])) by (unfold build; by rewrite fold_left_app).
  simpl. rewrite seq_app, fmap_app, <- IH by lia. unfold record. rewrite fmap_app, Hlen. f_equal. simpl. f_equal.
  unfold wrap32, u32_max in *. rewrite !Z.mod_small by (rewrite ?Z.mod_small by lia; lia). lia.
Qed.

(** ** Witnesses *)
Module TraceDemo.
(** A text that stands for a record: its code in one character *)
#[local] Instance TraceStep_eq_dec : EqDecision TraceStep.
Proof. solve_decision. Defined.
#[local] Instance TraceKind_eq_dec : EqDecision TraceKind.
Proof. solve_decision. Defined.
#[local] Instance AgentTrace_eq_dec : EqDecision AgentTrace.
Proof. solve_decision. Defined.
#[local] Instance TraceStep_countable : Countable TraceStep.
Proof.
  refine (inj_countable' (fun s => (st_seq s, st_tool s, st_summary s, st_paths s, st_write s))
    (fun '(a, b, c, d, e) => mkTraceStep a b c d e) _).
  by intros [].
Defined.
#[local] Instance TraceKind_countable : Countable TraceKind.
Proof.
  refine (inj_countable' (fun k => match k with TQuery => 0 | TMutation => 1 | TChat => 2 end%N)
    (fun n => match n with 0 => TQuery | 1 => TMutation | _ => TChat end%N) _).
  by intros [].
Defined.
#[local] Instance TraceOutcome_countable : Countable TraceOutcome.
Proof.
  refine (inj_countable' (fun k => match k with TSuccess => 0 | TPartial => 1 | TFailed => 2 end%N)
    (fun n => match n with 0 => TSuccess | 1 => TPartial | _ => TFailed end%N) _).
  by intros [].
Defined.
#[local] Instance AgentTrace_countable : Countable AgentTrace.
Proof.
  refine (inj_countable' (fun t => (at_id t, at_kind t, at_input t, at_started_at t, at_duration_ms t, at_steps t, at_answer t, at_notation t, at_outcome t))
    (fun '(a, b, c, d, e, f, g, h, i) => mkAgentTrace a b c d e f g h i) _).
  by intros [].
Defined.
Definition decode_trace (s : str) : option AgentTrace := match head s with Some (N.pos p) => decode p | _ => None end.
Lemma decode_trace_encode t : decode_trace [N.pos (encode t)] = Some t.
Proof. apply decode_encode. Qed.
#[export] Instance coded_traces : TraceJson := {|
  trace_json t := [N.pos (encode t)]; trace_parse := decode_trace; trace_roundtrip := decode_trace_encode |}.

Definition step_of (name summary : string) (paths : list string) : TraceStep := mkTraceStep 1 (lit name) (lit summary) (lit <$> paths) false.
(** The example of the documentation *)
Example notation_example :
  build_notation [step_of "search_knowledge" "rate limit" ["/a.md"; "/b.md"]%string; step_of "read_concept" "/apis/billing-api.md" []] TSuccess =
  lit "search " ++ [34%N] ++ lit "rate limit" ++ [34%N] ++ lit " (2)" ++ arrow ++ lit "read billing-api.md" ++ arrow ++ [10003%N].
Proof. vm_compute. done. Qed.
Example trace_id_example : at_id (finalize_trace (mkFinish 3 4294967297 255 (lit "t")) TQuery [] [] TSuccess []) = lit "1-00ff".
Proof. vm_compute. done. Qed.

Definition demo_trace (now : string) (millis : Z) : AgentTrace :=
  finalize_trace (mkFinish 3 millis 1 (lit now)) TQuery (lit "q") (lit "a") TSuccess [].
Definition demo_rows : list TraceRow := save_trace (lit "user:1") (demo_trace "t1" 7) false false [].
Lemma trace_retention_witness :
  head (list_traces (lit "user:1") 5 false (save_trace (lit "user:1") (demo_trace "t2" 8) false false demo_rows)) = Some (demo_trace "t2" 8).
Proof.
  assert (Hu : ids_unique demo_rows) by (apply NoDup_singleton).
  assert (Hid : at_id (demo_trace "t2" 8) ∉ (tr_id <$> demo_rows)).
  { intros H%list_elem_of_singleton. revert H. vm_compute. done. }
  refine (proj2 (proj2 (proj2 (proj2 (proj2 (trace_retention (lit "user:1") (demo_trace "t2" 8) demo_rows Hu Hid))))) _ 5%nat _); [|lia].
  intros r ->%list_elem_of_singleton _. reflexivity.
Defined.
End TraceDemo.
