(* ===== verification/Prompts.v ===== *)
(** * The agent's texts

    [crates/mycelium-librarian/src/agent.rs]: the operating rules, the task
    sections, the system prompt and the tool specifications a model is
    given, character by character. *)
From S2P Require Import Prelude Float Text JsonValue Llm.

Inductive AgentMode := MQuery | MMutate | MChat.

Definition OPERATING_RULES : str :=
  lit "1. SEARCH FIRST. Before adding anything, search for existing concepts the new knowledge relates to.
2. ENRICH OVER CREATE. A fact that is an attribute of an existing concept gets patched INTO that concept " ++ [8212%N] ++ lit " not filed as its own concept.
3. LINK BOTH WAYS. A new concept must be wired into the graph: link it to related concepts AND patch those to reference it back.
4. REUSE TYPES. Prefer a type already in use. Types currently in the bundle: {types_list}.
5. PLACE DELIBERATELY. Choose directories by subject area; reuse existing directories; short kebab-case filenames.
6. WRITE FOR THE NEXT READER. One-line descriptions; concise, factual, self-contained bodies.
7. PREFER PATCH OVER REWRITE. Use patch_concept for small changes.
8. DEPRECATE, DON'T DELETE. When knowledge is outdated: patch the OLD concept " ++ [8212%N] ++ lit " status: superseded + superseded_by: <new-concept-path> " ++ [8212%N] ++ lit " or status: retired. Never leave a live concept contradicting a new one. Use delete_concept only for wrong/harmful content or on explicit request.
9. CITE WHEN ANSWERING. Ground every claim in concepts you actually read; list their paths. If the knowledge base doesn't contain the answer, say so plainly " ++ [8212%N] ++ lit " never invent knowledge.".

Definition query_section : str :=
  lit "## Your task mode: QUERY (read-only)

Answer the user's question from the knowledge base. Search, read the relevant concepts, then answer. End your answer with a " ++ [34%N] ++ lit "Sources:" ++ [34%N] ++ lit " line listing the bundle paths you used.

RETRIEVAL PROTOCOL " ++ [8212%N] ++ lit " search is keyword-based, not semantic, so one empty search proves nothing:
1. Search with the question's key terms.
2. On a miss, retry once or twice with synonyms, broader terms, or related entities.
3. Still nothing? Check the bundle layout (above, or via list_directory) and read_concept EVERY concept whose type, name, or description could plausibly relate. Search hits carry lifecycle fields (status, superseded_by, confirmed_at). A hit with status: superseded is an old version " ++ [8212%N] ++ lit " follow its superseded_by to the current concept instead of enriching it; a retired hit is withdrawn knowledge " ++ [8212%N] ++ lit " never restate it as current without checking a live source.
4. Only after steps 1-3 may you answer that the knowledge base has no coverage; then suggest what concept could be added.".

Definition mutate_section : str :=
  lit "## Your task mode: MUTATE

The input is knowledge to persist or a change to apply " ++ [8212%N] ++ lit " NOT a message to reply to. Do not respond conversationally. You MUST act with the write tools.

WRITE PROTOCOL:
1. Search for concepts the knowledge relates to or belongs to; read the strongest candidates.
2. CHECK FOR CONTRADICTION. If the new knowledge conflicts with an existing concept, update it " ++ [8212%N] ++ lit " never leave two contradictory claims standing. When replacing a concept entirely, set its status to superseded and its superseded_by to the new concept's path (rule 8). Search hits carry lifecycle fields (status, superseded_by, confirmed_at). A hit with status: superseded is an old version " ++ [8212%N] ++ lit " follow its superseded_by to the current concept instead of enriching it; a retired hit is withdrawn knowledge " ++ [8212%N] ++ lit " never restate it as current without checking a live source.
3. ENRICH OVER CREATE: a fact that belongs to an existing concept gets patched into it; only a distinct entity gets its own concept.
4. LINK BOTH WAYS: new concepts must be wired into the graph " ++ [8212%N] ++ lit " link related concepts and patch them to reference back.
5. Finish with a one-sentence summary of what changed and the paths touched.".

Definition chat_section : str :=
  lit "## Your task mode: CHAT

You are conversing with the user about their knowledge base. Answer questions (search and read first, cite paths), and when the user asks to record or change knowledge, use the write tools following the MUTATE protocol. Be concise.".

Definition mode_section (mode : AgentMode) : str :=
  match mode with MQuery => query_section | MMutate => mutate_section | MChat => chat_section end.
(** [replacen(slot, types_list, 1)] *)
Definition operating_rules (types_list : str) : str :=
  match split_once (lit "{types_list}") OPERATING_RULES with
  | Some (a, b) => a ++ types_list ++ b
  | None => OPERATING_RULES
  end.

Definition no_types_text : str :=
  lit "(none yet " ++ [8212%N] ++ lit " you set the precedent; choose short, reusable names)".

(** The system prompt around the rules, the layout and the task section *)
Definition prompt_head : str :=
  lit "You are the Knowledge Keeper " ++ [8212%N] ++ lit " an agent that manages a knowledge base conforming to the Open Knowledge Format (OKF).

## The OKF format

- The knowledge base is a directory tree of markdown files; every concept is one .md file with YAML frontmatter.
- The only REQUIRED frontmatter field is `type` (free-form, e.g. " ++ [34%N] ++ lit "Decision" ++ [34%N] ++ lit ", " ++ [34%N] ++ lit "How-To" ++ [34%N] ++ lit ", " ++ [34%N] ++ lit "Playbook" ++ [34%N] ++ lit "). Recommended: `title`, `description` (one line), `resource`, `tags` (list).
- `index.md` and `log.md` are RESERVED " ++ [8212%N] ++ lit " never create concepts with those names.
- Cross-link related concepts with bundle-relative markdown links: `[Customers table](/tables/customers.md)`. Link liberally; broken links are tolerated.
- **Book library (card catalog)**: some shelves catalog books. A `Book` or `Chapter` concept has a small summary body and a `resource: book://<slug>#<anchor>` field " ++ [8212%N] ++ lit " the FULL text lives in the library stacks, NOT in the concept body. To read a chapter's full text, call the `read_passage` tool with that `resource`. Never assume a chapter concept's body is the whole chapter.

## Operating rules

".

Definition prompt_layout : str :=
  lit "

## Current bundle layout

".

Definition prompt_tail : str :=
  lit "

".

Definition search_notice : str :=
  lit "No keyword matches " ++ [8212%N] ++ lit " but this search is literal, not semantic. The knowledge may exist under different wording. Retry with synonyms or broader terms, review the layout below, and read_concept ANY concept whose type, name, or description could plausibly relate.".

Definition search_knowledge_spec : ToolSpec :=
  tool_spec (lit "search_knowledge")
    (lit "Search the knowledge base by keywords. Returns ranked hits with paths and snippets. NOTE: matching is keyword-based, not semantic " ++ [8212%N] ++ lit " a miss does NOT mean the knowledge is absent.")
    (object [("type"%string, JString (lit "object"));
      ("properties"%string, object [("query"%string, object [("type"%string, JString (lit "string")); ("description"%string, JString (lit "Keywords to search for"))]);
        ("include_inactive"%string, object [("type"%string, JString (lit "boolean")); ("description"%string, JString (lit "Include retired/superseded concepts (history queries). Default false."))])]);
      ("required"%string, JArray [JString (lit "query")])]).

Definition read_passage_spec : ToolSpec :=
  tool_spec (lit "read_passage")
    (lit "Read a full passage from a book in the library stacks. A catalog `Book`/`Chapter` concept has a small summary body and a `resource` field like `book://<slug>#<anchor>` " ++ [8212%N] ++ lit " call this with that resource to fetch the full chapter/section text on demand. Do NOT assume a chapter concept's body is the whole chapter; it is only a summary " ++ [8212%N] ++ lit " use read_passage for the full text.")
    (object [("type"%string, JString (lit "object"));
      ("properties"%string, object [("resource"%string, object [("type"%string, JString (lit "string")); ("description"%string, JString (lit "A book://<slug>#<anchor> URI, taken from a concept's `resource` field"))])]);
      ("required"%string, JArray [JString (lit "resource")])]).

Definition read_concept_spec : ToolSpec :=
  tool_spec (lit "read_concept")
    (lit "Read one concept document in full: frontmatter and markdown body.")
    (object [("type"%string, JString (lit "object"));
      ("properties"%string, object [("path"%string, object [("type"%string, JString (lit "string")); ("description"%string, JString (lit "Bundle-relative path starting with /, ending in .md"))])]);
      ("required"%string, JArray [JString (lit "path")])]).

Definition list_directory_spec : ToolSpec :=
  tool_spec (lit "list_directory")
    (lit "List the bundle's concepts with types and titles. Use to understand structure and decide where new concepts belong.")
    (object [("type"%string, JString (lit "object"));
      ("properties"%string, object [])]).

Definition lint_knowledge_spec : ToolSpec :=
  tool_spec (lit "lint_knowledge")
    (lit "Graph health check: orphaned concepts (nothing links to them) and broken links.")
    (object [("type"%string, JString (lit "object"));
      ("properties"%string, object [])]).

Definition write_concept_spec : ToolSpec :=
  tool_spec (lit "write_concept")
    (lit "Create a new concept or fully overwrite an existing one. Frontmatter must include a non-empty 'type'.")
    (object [("type"%string, JString (lit "object"));
      ("properties"%string, object [("path"%string, object [("type"%string, JString (lit "string")); ("description"%string, JString (lit "Bundle-relative path starting with /, ending in .md"))]);
        ("frontmatter"%string, object [("type"%string, JString (lit "object"));
          ("properties"%string, object [("type"%string, object [("type"%string, JString (lit "string")); ("description"%string, JString (lit "Concept kind, e.g. 'Decision'. Required."))]);
            ("title"%string, object [("type"%string, JString (lit "string"))]);
            ("description"%string, object [("type"%string, JString (lit "string"))]);
            ("tags"%string, object [("type"%string, JString (lit "array"));
              ("items"%string, object [("type"%string, JString (lit "string"))])])]);
          ("required"%string, JArray [JString (lit "type")])]);
        ("body"%string, object [("type"%string, JString (lit "string")); ("description"%string, JString (lit "Markdown body (no frontmatter block)"))])]);
      ("required"%string, JArray [JString (lit "path"); JString (lit "frontmatter"); JString (lit "body")])]).

Definition patch_concept_spec : ToolSpec :=
  tool_spec (lit "patch_concept")
    (lit "Targeted update of an existing concept: merge frontmatter keys (null deletes a key) and/or replace one top-level '# Section' body section, or replace the whole body. Prefer this over write_concept for small edits.")
    (object [("type"%string, JString (lit "object"));
      ("properties"%string, object [("path"%string, object [("type"%string, JString (lit "string")); ("description"%string, JString (lit "Bundle-relative path starting with /, ending in .md"))]);
        ("frontmatter"%string, object [("type"%string, JString (lit "object")); ("description"%string, JString (lit "Frontmatter keys to merge; set a key to null to remove it"))]);
        ("replace_section"%string, object [("type"%string, JString (lit "object"));
          ("properties"%string, object [("heading"%string, object [("type"%string, JString (lit "string")); ("description"%string, JString (lit "Top-level heading name, e.g. 'Schema'"))]);
            ("content"%string, object [("type"%string, JString (lit "string")); ("description"%string, JString (lit "New content for that section"))])])]);
        ("replace_body"%string, object [("type"%string, JString (lit "string")); ("description"%string, JString (lit "Replace the entire markdown body (frontmatter untouched)"))]);
        ("body"%string, object [("type"%string, JString (lit "string")); ("description"%string, JString (lit "Whole-body replace verbatim (frontmatter untouched); an empty string changes nothing. Outranks replace_section/replace_body when several are sent."))])]);
      ("required"%string, JArray [JString (lit "path")])]).

Definition delete_concept_spec : ToolSpec :=
  tool_spec (lit "delete_concept")
    (lit "Permanently delete a concept. Prefer lifecycle retirement instead: patch the concept with status: retired (or status: superseded + superseded_by pointing at the replacement). Use delete_concept only when content is wrong/harmful or deletion was explicitly requested.")
    (object [("type"%string, JString (lit "object"));
      ("properties"%string, object [("path"%string, object [("type"%string, JString (lit "string")); ("description"%string, JString (lit "Bundle-relative path starting with /, ending in .md"))])]);
      ("required"%string, JArray [JString (lit "path")])]).

Definition read_tool_specs : list ToolSpec := [search_knowledge_spec; read_passage_spec; read_concept_spec; list_directory_spec; lint_knowledge_spec].

Definition all_tool_specs : list ToolSpec := read_tool_specs ++ [write_concept_spec; patch_concept_spec; delete_concept_spec].
