(* ===== verification/QueryCache.v ===== *)
(** * The query cost layers

    [crates/mycelium-librarian/src/query_cache.rs]: the exact cache, hot
    memory and the deep agent, in this order.  [CACHE] and [HOT] are
    explicit stores; instants are nanoseconds; SHA-256, Unicode
    lower-casing, the agent run and the iteration order of the cache's
    [HashMap] are parameters. *)
From S2P Require Import Prelude Text Concept Search HotMemory.
Open Scope Z_scope.

Definition MAX_ENTRIES : nat := 200.
Definition DEFAULT_TTL_MS : Z := 24 * 3600000.
(** In nanoseconds. *)
Definition CACHE_TTL : Z := DEFAULT_TTL_MS * 1000000.

Inductive QuerySource := Cache | Hot_ | Deep.
Record CachedQueryResult := mkCached { c_answer : str; c_steps : Z; c_source : QuerySource }.
Record CacheEntry := mkEntry { expires_at : Z; e_answer : str }.
Abbreviation CacheMap := (gmap str CacheEntry) (only parsing).

(** SHA-256 of the updates, in hexadecimal. *)
Class Digest := { hex_digest : str -> str }.

(** [map.keys().next()]: some key, [None] only for the empty map. *)
Class KeyOrder := {
  first_key : gmap str CacheEntry -> option str;
  first_key_spec m : match first_key m with
                     | Some k => is_Some (m !! k)
                     | None => m = ∅
                     end }.

(** A row of the concept registry. *)
Record RegistryEntry := mkRegistryEntry { re_path : str; re_updated_at : str }.

Section Layers.
Context {LC : Lowercase} {UC : Uppercase} {DG : Digest} {KO : KeyOrder}.

(** [entries] is [None] when listing the registry fails. *)
Definition bundle_fingerprint (scope_id : str) (entries : option (list RegistryEntry)) : option str :=
  es ← entries;
  Some (hex_digest (fold_left (fun h e => h ++ re_path e ++ re_updated_at e) es scope_id)).

Definition normalize (q : str) : str :=
  (fun c => if (c =? nl)%N || (c =? 9)%N then space else c) <$> to_lowercase (trim q).

Definition cache_key (fingerprint q : str) : str :=
  hex_digest (fingerprint ++ [nl] ++ normalize q).

Definition lookup_exact (cache : option CacheMap) (key : str) (now : Z)
    : option CachedQueryResult * option CacheMap :=
  let map := default ∅ cache in
  match map !! key with
  | Some entry =>
      if now <? expires_at entry then (Some (mkCached (e_answer entry) 0 Cache), Some map)
      else (None, Some (delete key map))
  | None => (None, Some map)
  end.

Definition cached_answer (cache : option CacheMap) (scope_id : str)
    (entries : option (list RegistryEntry)) (q : str) (now : Z)
    : option CachedQueryResult * option CacheMap :=
  match bundle_fingerprint scope_id entries with
  | Some f => lookup_exact cache (cache_key f q) now
  | None => (None, cache)
  end.

(** [while map.len() > MAX_ENTRIES]; each round removes one entry. *)
Fixpoint evict_entries (fuel : nat) (map : CacheMap) : CacheMap :=
  match fuel with
  | O => map
  | S fuel =>
      if (MAX_ENTRIES <? size map)%nat then
        match first_key map with
        | Some k => evict_entries fuel (delete k map)
        | None => map
        end
      else map
  end.

(** One call: the scope, its registry, the question, the clock, and what
    the model and the agent would answer. *)
Record Request := mkRequest {
  rq_scope : str;
  rq_entries : option (list RegistryEntry);
  rq_question : str;
  rq_now : Z;
  rq_chat : str -> str -> option str;
  rq_get : str -> option Concept;
  rq_agent : option (str * Z) }.

Definition insert_entry (cache : option CacheMap) (key answer : str) (now : Z) : CacheMap :=
  <[key := mkEntry (now + CACHE_TTL) answer]> (default ∅ cache).

Definition run_query_cached (cache : option CacheMap) (hot : Hot) (r : Request)
    : option CachedQueryResult * option CacheMap * Hot :=
  let deep := (fun a => mkCached a.1 a.2 Deep) <$> rq_agent r in
  match bundle_fingerprint (rq_scope r) (rq_entries r) with
  | None => (deep, cache, hot)
  | Some fingerprint =>
      let key := cache_key fingerprint (rq_question r) in
      let '(hit, cache) := lookup_exact cache key (rq_now r) in
      match hit with
      | Some hit => (Some hit, cache, hot)
      | None =>
          let '(hot_answer, hot) :=
            hot_lookup (rq_chat r) (rq_get r) (rq_now r) hot (rq_scope r) (rq_question r) in
          match hot_answer with
          | Some a => (Some (mkCached a 0 Hot_), Some (insert_entry cache key a (rq_now r)), hot)
          | None =>
              match rq_agent r with
              | None => (None, cache, hot)
              | Some (a, steps) =>
                  let hot := record_hot_query hot (rq_scope r) (rq_question r) a (rq_now r) in
                  let map := insert_entry cache key a (rq_now r) in
                  (Some (mkCached a steps Deep), Some (evict_entries (size map) map), hot)
              end
          end
      end
  end.

Definition clear_query_cache : option CacheMap := None.

(** A sequence of calls, their results in order. *)
Fixpoint run_all (cache : option CacheMap) (hot : Hot) (rs : list Request)
    : list (option CachedQueryResult) * (option CacheMap * Hot) :=
  match rs with
  | [] => ([], (cache, hot))
  | r :: rs =>
      let '(res, cache, hot) := run_query_cached cache hot r in
      let '(ress, st) := run_all cache hot rs in (res :: ress, st)
  end.

(** ** Proofs *)
Definition fingerprint_of (r : Request) : option str := bundle_fingerprint (rq_scope r) (rq_entries r).
Definition key_of (r : Request) : option str :=
  (fun f => cache_key f (rq_question r)) <$> fingerprint_of r.

(** Where an entry may come from: an answered call of the past. *)
Definition origin (past : list (Request * option CachedQueryResult)) (k : str) (e : CacheEntry) : Prop :=
  exists r res, (r, Some res) ∈ past /\ key_of r = Some k /\ c_answer res = e_answer e /\
    c_source res <> Cache /\ expires_at e = rq_now r + CACHE_TTL.
Definition sound (past : list (Request * option CachedQueryResult)) (cache : option CacheMap) : Prop :=
  forall k e, default ∅ cache !! k = Some e -> origin past k e.

Lemma evict_subset fuel map : evict_entries fuel map ⊆ map.
Proof.
  revert map. induction fuel as [|fuel IH]; intros map; simpl; [done|].
  destruct (_ <? _)%nat; [|done]. destruct (first_key map) as [k|]; [|done].
  etrans; [apply IH|apply delete_subseteq].
Qed.

Lemma evict_size fuel map : (size map <= MAX_ENTRIES + fuel)%nat ->
  (size (evict_entries fuel map) <= MAX_ENTRIES)%nat.
Proof.
  revert map. induction fuel as [|fuel IH]; intros map Hm; simpl; [lia|].
  destruct (Nat.ltb_spec MAX_ENTRIES (size map)) as [Hlt|]; [|done].
  pose proof (first_key_spec map) as Hk. destruct (first_key map) as [k|].
  - apply IH. rewrite map_size_delete. destruct Hk as [e He]. rewrite He. unfold MAX_ENTRIES in *. lia.
  - subst map. rewrite map_size_empty in Hlt. unfold MAX_ENTRIES in *. lia.
Qed.

Lemma origin_snoc past x k e : origin past k e -> origin (past ++ [x]) k e.
Proof. intros (r & res & Hin & H). exists r, res. split; [set_solver|done]. Qed.

Lemma run_sound past cache hot r :
  sound past cache ->
  let '(res, cache', _) := run_query_cached cache hot r in
  sound (past ++ [(r, res)]) cache' /\
  match res with
  | Some c => c_source c = Cache -> exists k e, key_of r = Some k /\ default ∅ cache !! k = Some e /\
      e_answer e = c_answer c /\ rq_now r < expires_at e
  | None => True
  end.
Proof.
  intros Hs. unfold run_query_cached.
  assert (Hkeep : forall x, sound (past ++ [x]) cache) by (intros x k e H; by apply origin_snoc, Hs).
  destruct (bundle_fingerprint (rq_scope r) (rq_entries r)) as [f|] eqn:Hf.
  2:{ simpl. split; [apply Hkeep|]. by destruct (rq_agent r). }
  assert (Hkey : key_of r = Some (cache_key f (rq_question r)))
    by (unfold key_of, fingerprint_of; by rewrite Hf).
  set (key := cache_key f (rq_question r)) in *.
  assert (Hl : forall hit cache1, lookup_exact cache key (rq_now r) = (hit, cache1) ->
    (forall x, sound (past ++ [x]) cache1) /\
    match hit with
    | Some c => exists e, default ∅ cache !! key = Some e /\ c = mkCached (e_answer e) 0 Cache /\
        rq_now r < expires_at e
    | None => True end).
  { intros hit cache1. unfold lookup_exact. destruct (default ∅ cache !! key) as [e|] eqn:He.
    - destruct (Z.ltb_spec (rq_now r) (expires_at e)); intros [= <- <-].
      + split; [exact Hkeep|]. by exists e.
      + split; [|done]. intros x k e' Hlk. simpl in Hlk. apply lookup_delete_Some in Hlk as [_ Hlk].
        by apply origin_snoc, Hs.
    - intros [= <- <-]. by split. }
  destruct (lookup_exact cache key (rq_now r)) as [hit cache1] eqn:E.
  destruct (Hl _ _ eq_refl) as [Hs1 Hhit]. destruct hit as [c|].
  { split; [apply Hs1|]. destruct Hhit as (e & He & -> & Hlt). intros _. by exists key, e. }
  assert (Hins : forall a src steps, src <> Cache ->
    sound (past ++ [(r, Some (mkCached a steps src))]) (Some (insert_entry cache1 key a (rq_now r)))).
  { intros a src steps Hsrc k e Hlk. simpl in Hlk. unfold insert_entry in Hlk.
    destruct (decide (key = k)) as [<-|Hne].
    - rewrite lookup_insert_eq in Hlk. injection Hlk as <-.
      exists r, (mkCached a steps src). split_and!; try done. set_solver.
    - rewrite lookup_insert_ne in Hlk by done. by apply Hs1. }
  destruct (hot_lookup _ _ _ _ _ _) as [[a|] hot1].
  { split; [by apply Hins|done]. }
  destruct (rq_agent r) as [[a steps]|]; [|split; [apply Hs1|done]].
  split; [|done]. intros k e Hlk. simpl in Hlk.
  eapply lookup_weaken in Hlk; [|apply evict_subset].
  by apply (Hins a Deep steps).
Qed.

Lemma run_all_sound past cache hot rs :
  sound past cache ->
  let '(ress, _) := run_all cache hot rs in
  length ress = length rs /\
  forall i r c, rs !! i = Some r -> ress !! i = Some (Some c) -> c_source c = Cache ->
    exists k e, key_of r = Some k /\ origin (past ++ zip (take i rs) (take i ress)) k e /\
      e_answer e = c_answer c /\ rq_now r < expires_at e.
Proof.
  revert past cache hot. induction rs as [|r rs IH]; intros past cache hot Hs; simpl; [done|].
  pose proof (run_sound past cache hot r Hs) as Hr.
  destruct (run_query_cached cache hot r) as [[res cache'] hot'].
  destruct Hr as [Hs' Hres]. specialize (IH _ cache' hot' Hs').
  destruct (run_all cache' hot' rs) as [ress st]. destruct IH as [Hlen IH].
  split; [simpl; by rewrite Hlen|]. intros [|i] r' c; simpl.
  - intros [= <-] [= ->] Hc. destruct (Hres Hc) as (k & e & Hk & He & Ha & Hlt).
    exists k, e. rewrite app_nil_r. split_and!; try done. by apply Hs.
  - intros Hi Hi' Hc. destruct (IH i r' c Hi Hi' Hc) as (k & e & Hk & Ho & ? & ?).
    exists k, e. by rewrite <- app_assoc in Ho.
Qed.

Lemma first_line (a b u v : str) :
  a ++ [nl] ++ u = b ++ [nl] ++ v -> nl ∉ a -> nl ∉ b -> a = b /\ u = v.
Proof.
  intros H Ha Hb. pose proof (split_once_char nl a u Ha) as H1.
  pose proof (split_once_char nl b v Hb) as H2. simpl in H. rewrite H, H2 in H1. by injection H1.
Qed.

(** The exact cache never lies: with a collision-free digest in
    hexadecimal, whenever a call in a sequence is answered from the cache,
    an earlier call of the sequence asked the same (normalized) question
    of the same bundle fingerprint, computed that very answer with hot
    memory or the agent, and did so less than 24 hours before. *)
Theorem query_cache_sound rs :
  Inj (=) (=) hex_digest -> (forall s, nl ∉ hex_digest s) ->
  let '(ress, _) := run_all None None rs in
  forall i r c, rs !! i = Some r -> ress !! i = Some (Some c) -> c_source c = Cache ->
  exists j r' c', (j < i)%nat /\ rs !! j = Some r' /\ ress !! j = Some (Some c') /\
    c_source c' <> Cache /\ c_answer c' = c_answer c /\
    fingerprint_of r' = fingerprint_of r /\ is_Some (fingerprint_of r) /\
    normalize (rq_question r') = normalize (rq_question r) /\
    rq_now r < rq_now r' + CACHE_TTL.
Proof.
  intros Hinj Hnl.
  pose proof (run_all_sound [] None None rs ltac:(by intros k e H; simpl in H; rewrite lookup_empty in H)) as H.
  destruct (run_all None None rs) as [ress st]. destruct H as [Hlen H].
  intros i r c Hi Hi' Hc. destruct (H i r c Hi Hi' Hc) as (k & e & Hk & Ho & Ha & Hlt).
  destruct Ho as (r' & c' & Hin & Hk' & Ha' & Hsrc & Hexp). simpl in Hin.
  apply list_elem_of_lookup in Hin as [j Hj].
  rewrite lookup_zip_with in Hj.
  destruct (take i rs !! j) as [x|] eqn:E1; simpl in Hj; [|done].
  destruct (take i ress !! j) as [y|] eqn:E2; simpl in Hj; [|done]. injection Hj as -> ->.
  apply lookup_take_Some in E1 as [E1 Hji]. apply lookup_take_Some in E2 as [E2 _].
  exists j, r', c'. unfold key_of in Hk, Hk'.
  destruct (fingerprint_of r) as [f|] eqn:F; [|done]. destruct (fingerprint_of r') as [f'|] eqn:F'; [|done].
  simpl in Hk, Hk'. injection Hk as <-. injection Hk' as Hk'.
  unfold cache_key in Hk'. apply Hinj in Hk'.
  assert (Hf : forall r f, fingerprint_of r = Some f -> nl ∉ f).
  { intros r0 f0. unfold fingerprint_of, bundle_fingerprint. destruct (rq_entries r0); simpl; [|done].
    intros [= <-]. apply Hnl. }
  apply (first_line f' f) in Hk' as [-> Hn]; [|by eapply Hf..].
  split_and!; try done; [congruence|lia].
Qed.

(** The size of the cache: whatever happened before, a deep answer
    leaves at most 200 entries; a hot answer, however, adds its entry
    without evicting, so the cache can grow past 200 entries by one per hot
    answer; hits, misses and failures never add one. *)
Theorem query_cache_size cache hot r :
  let '(res, cache', _) := run_query_cached cache hot r in
  let n c := size (default ∅ c : CacheMap) in
  match res with
  | Some c =>
      match c_source c with
      | Deep => (n cache' <= MAX_ENTRIES)%nat \/ fingerprint_of r = None /\ cache' = cache
      | Hot_ => exists k, key_of r = Some k /\ is_Some (default ∅ cache' !! k) /\
                (default ∅ cache !! k = None -> n cache' = S (n cache))
      | Cache => n cache' = n cache
      end
  | None => (n cache' <= n cache)%nat
  end.
Proof.
  unfold run_query_cached, key_of, fingerprint_of.
  destruct (bundle_fingerprint (rq_scope r) (rq_entries r)) as [f|] eqn:Hf; simpl.
  2:{ destruct (rq_agent r); simpl; [by right|done]. }
  set (key := cache_key f (rq_question r)).
  assert (Hl : forall hit cache1, lookup_exact cache key (rq_now r) = (hit, cache1) ->
    (size (default ∅ cache1 : CacheMap) <= size (default ∅ cache : CacheMap))%nat /\
    (default ∅ cache !! key = None -> default ∅ cache1 = (default ∅ cache : CacheMap)) /\
    match hit with Some c => c_source c = Cache /\ default ∅ cache1 = (default ∅ cache : CacheMap)
    | None => True end).
  { intros hit cache1. unfold lookup_exact. destruct (default ∅ cache !! key) as [e|] eqn:He.
    - destruct (_ <? _); intros [= <- <-]; simpl; [done|].
      split_and!; [|done|done]. rewrite map_size_delete, He. lia.
    - by intros [= <- <-]. }
  destruct (lookup_exact cache key (rq_now r)) as [hit cache1] eqn:E.
  destruct (Hl _ _ eq_refl) as (Hsz & Hmiss & Hhit). destruct hit as [c|].
  { destruct Hhit as [-> Heq]. by rewrite Heq. }
  destruct (hot_lookup _ _ _ _ _ _) as [[a|] hot1]; simpl.
  { exists key. split_and!; [done| |].
    - unfold insert_entry. rewrite lookup_insert_eq. by eexists.
    - intros Hn. unfold insert_entry. rewrite Hmiss by done. by rewrite map_size_insert_None. }
  destruct (rq_agent r) as [[a steps]|]; simpl; [|done].
  left. apply evict_size. lia.
Qed.
End Layers.

(** An injective digest of hexadecimal digits, and the order of a map's
    list, for the witnesses. *)
Definition plain_digest : Digest :=
  {| hex_digest s := (fun c => c + 48)%N <$> s |}.

Lemma head_key (m : gmap str CacheEntry) :
  match fst <$> head (map_to_list m) with Some k => is_Some (m !! k) | None => m = ∅ end.
Proof.
  destruct (map_to_list m) as [|[k e] l] eqn:H; simpl.
  - by apply map_to_list_empty_iff.
  - exists e. apply elem_of_map_to_list. rewrite H. left.
Qed.
Definition list_order : KeyOrder :=
  {| first_key m := fst <$> head (map_to_list m); first_key_spec := head_key |}.
Definition ascii_uppercase : Uppercase :=
  {| to_uppercase s := to_ascii_uppercase <$> s; uppercase_ascii s _ := eq_refl |}.

Definition sample_request (q : string) (t : Z) (a : option (str * Z)) : Request :=
  mkRequest (lit "user:1") (Some []) (lit q) t (fun _ _ => None) (fun _ => None) a.
Definition sample_requests : list Request :=
  [sample_request "Why?" 0 (Some (lit "because", 3)); sample_request " why? " 5 None].

Lemma query_cache_sound_witness :
  let run := @run_all _ ascii_uppercase plain_digest list_order None None sample_requests in
  run.1 !! 1%nat = Some (Some (mkCached (lit "because") 0 Cache)) /\
  exists j r' c', (j < 1)%nat /\ sample_requests !! j = Some r' /\ run.1 !! j = Some (Some c') /\
    c_source c' <> Cache /\ c_answer c' = lit "because".
Proof.
  intros run. assert (H1 : run.1 !! 1%nat = Some (Some (mkCached (lit "because") 0 Cache)))
    by (vm_compute; reflexivity).
  split; [exact H1|].
  pose proof (@query_cache_sound _ ascii_uppercase plain_digest list_order sample_requests) as H.
  assert (Hinj : Inj (=) (=) (@hex_digest plain_digest)).
  { intros x y Hxy. unfold hex_digest, plain_digest in Hxy.
    apply (list_fmap_eq_inj (fun c : N => (c + 48)%N)) in Hxy; [done|]. intros u v. lia. }
  assert (Hnl : forall s, nl ∉ @hex_digest plain_digest s).
  { intros s Hin. unfold hex_digest, plain_digest in Hin.
    apply list_elem_of_fmap in Hin as (c & Hc & _). unfold nl in Hc. lia. }
  specialize (H Hinj Hnl). unfold run in *. destruct (run_all None None sample_requests) as [ress st].
  destruct (H 1%nat _ _ eq_refl H1 eq_refl) as (j & r' & c' & ? & ? & ? & ? & ? & _).
  exists j, r', c'. split_and!; assumption.
Defined.
