(* ===== verification/Clock.v ===== *)
(** * Timestamps, identifiers and bytes as text

    The database stores instants as RFC 3339 strings ([chrono]) and UUIDs
    as hyphenated strings ([uuid]); some statements compare the strings;
    bytes are stored in hexadecimal ([hex]).  These are the interfaces of
    the three libraries, with what the code relies on.  Instants are nanoseconds since the epoch. *)
From S2P Require Import Prelude Text.
Open Scope Z_scope.

(** The instants that [chrono] prints with a four-digit year and no sign,
    from the epoch on. *)
Definition max_instant : Z := 253402300800 * 1000000000.
Definition printable (t : Z) : Prop := 0 <= t < max_instant.

(** [to_rfc3339] and [DateTime::parse_from_rfc3339]: printing is read back,
    and on the printable instants the order of the strings is the order of
    the instants. *)
Class Rfc3339 := {
  to_rfc3339 : Z -> str;
  parse_from_rfc3339 : str -> option Z;
  rfc3339_roundtrip t : printable t -> parse_from_rfc3339 (to_rfc3339 t) = Some t;
  rfc3339_order t u : printable t -> printable u ->
    str_cmp (to_rfc3339 t) (to_rfc3339 u) = (t ?= u) }.

(** [Uuid::to_string] and [Uuid::parse_str]. *)
Class UuidText := {
  uuid_to_string : Uuid -> str;
  uuid_parse_str : str -> option Uuid;
  uuid_roundtrip u : uuid_parse_str (uuid_to_string u) = Some u }.

Lemma uuid_to_string_inj `{UuidText} u v : uuid_to_string u = uuid_to_string v -> u = v.
Proof. intros E. apply (f_equal uuid_parse_str) in E. rewrite !uuid_roundtrip in E. by injection E. Qed.

Lemma rfc3339_inj `{Rfc3339} t u : printable t -> printable u ->
  to_rfc3339 t = to_rfc3339 u -> t = u.
Proof.
  intros Ht Hu E. apply (f_equal parse_from_rfc3339) in E.
  rewrite !rfc3339_roundtrip in E by done. by injection E.
Qed.

(** Bytes: the elements stand for [u8]s. *)
Abbreviation bytes := (list N) (only parsing).

(** [hex::encode] and [hex::decode]. *)
Class Hex := {
  hex_encode : bytes -> str;
  hex_decode : str -> option bytes;
  hex_roundtrip b : hex_decode (hex_encode b) = Some b;
  hex_decode_length s b : hex_decode s = Some b -> length s = (2 * length b)%nat;
  hex_no_whitespace b : Forall (fun c => is_whitespace c = false) (hex_encode b);
  hex_no_punctuation b : 46%N ∉ hex_encode b /\ 58%N ∉ hex_encode b }.

(** [to_le_bytes] and [from_le_bytes] at [n] bytes *)
Fixpoint le_bytes (n : nat) (x : N) : bytes :=
  match n with O => [] | S n => (x mod 256)%N :: le_bytes n (x / 256) end.
Fixpoint of_le_bytes (b : bytes) : N :=
  match b with [] => 0 | x :: b => (x + 256 * of_le_bytes b)%N end.

Lemma le_bytes_length n x : length (le_bytes n x) = n.
Proof. revert x. induction n as [|n IH]; intros x; [done|]. simpl. by rewrite IH. Qed.

Lemma of_le_bytes_spec n x : (x < 256 ^ N.of_nat n)%N -> of_le_bytes (le_bytes n x) = x.
Proof.
  revert x. induction n as [|n IH]; intros x Hx.
  - change (256 ^ N.of_nat 0)%N with 1%N in Hx. simpl. lia.
  - simpl le_bytes. simpl of_le_bytes. rewrite IH.
    + rewrite N.add_comm. symmetry. rewrite (N.div_mod' x 256) at 1. done.
    + apply N.Div0.div_lt_upper_bound. rewrite Nat2N.inj_succ, N.pow_succ_r in Hx by lia. done.
Qed.

Lemma hex_encode_length `{Hex} b : length (hex_encode b) = (2 * length b)%nat.
Proof. apply hex_decode_length, hex_roundtrip. Qed.

Lemma hex_encode_inj `{Hex} a b : hex_encode a = hex_encode b -> a = b.
Proof. intros E. apply (f_equal hex_decode) in E. rewrite !hex_roundtrip in E. by injection E. Qed.

(** ** Bytes as text

    [String::from_utf8]: a strict decoder; overlong forms, surrogates and
    values past U+10FFFF are refused because re-encoding gives other bytes
    or the value is no scalar. *)
Definition is_scalar (c : char) : bool := (c <? 1114112)%N && negb (in_range 55296 57343 c).
Definition char_of (c : N) (b : bytes) (r : option str) : option str :=
  if is_scalar c && str_eqb (utf8_char c) b then cons c <$> r else None.

Fixpoint from_utf8 (b : bytes) : option str :=
  match b with
  | [] => Some []
  | b0 :: r0 =>
      if (b0 <? 128)%N then cons b0 <$> from_utf8 r0
      else match r0 with
      | [] => None
      | b1 :: r1 =>
          if (b0 <? 224)%N then
            char_of ((b0 - 192) * 64 + (b1 - 128))%N [b0; b1] (from_utf8 r1)
          else match r1 with
          | [] => None
          | b2 :: r2 =>
              if (b0 <? 240)%N then
                char_of ((b0 - 224) * 4096 + (b1 - 128) * 64 + (b2 - 128))%N [b0; b1; b2] (from_utf8 r2)
              else match r2 with
              | [] => None
              | b3 :: r3 =>
                  char_of ((b0 - 240) * 262144 + (b1 - 128) * 4096 + (b2 - 128) * 64 + (b3 - 128))%N
                    [b0; b1; b2; b3] (from_utf8 r3)
              end
          end
      end
  end.

Lemma char_of_self c r : is_scalar c = true -> char_of c (utf8_char c) r = cons c <$> r.
Proof. intros Hc. unfold char_of. by rewrite Hc, (proj2 (str_eqb_eq _ _) eq_refl). Qed.

Lemma from_utf8_cons c b : is_scalar c = true ->
  from_utf8 (utf8_char c ++ b) = cons c <$> from_utf8 b.
Proof.
  intros Hc. rewrite <- (char_of_self c (from_utf8 b) Hc).
  assert (Hlt : (c < 1114112)%N) by (unfold is_scalar in Hc; apply andb_true_iff in Hc as [Hc _]; by apply N.ltb_lt).
  assert (H3 : (c / 64 / 64 = c / 4096)%N) by by rewrite N.Div0.div_div.
  assert (H4 : (c / 4096 / 64 = c / 262144)%N) by by rewrite N.Div0.div_div.
  pose proof (N.div_mod' c 64) as C1. pose proof (N.div_mod' (c / 64) 64) as C2.
  pose proof (N.div_mod' (c / 4096) 64) as C3. rewrite H3 in C2. rewrite H4 in C3.
  pose proof (N.mod_lt c 64 ltac:(done)) as M1. pose proof (N.mod_lt (c / 64) 64 ltac:(done)) as M2.
  pose proof (N.mod_lt (c / 4096) 64 ltac:(done)) as M3.
  unfold utf8_char at 1 2. destruct (N.ltb_spec c 128) as [H|H].
  { cbn -[N.ltb]. rewrite (proj2 (N.ltb_lt _ _)) by done. unfold char_of. rewrite Hc. unfold utf8_char.
    rewrite (proj2 (N.ltb_lt _ _)) by done. cbn -[N.eqb]. by rewrite N.eqb_refl. }
  clear H3 H4. revert C1 C2 C3 M1 M2 M3.
  generalize (c / 64)%N (c / 4096)%N (c / 262144)%N. intros q1 q2 q3.
  generalize (c mod 64)%N (q1 mod 64)%N (q2 mod 64)%N. intros r1 r2 r3 C1 C2 C3 M1 M2 M3.
  destruct (N.ltb_spec c 2048); [|destruct (N.ltb_spec c 65536)]; cbn -[N.add N.sub N.mul N.ltb char_of];
    repeat match goal with
    | |- context [(?x <? ?y)%N] =>
        first [rewrite (proj2 (N.ltb_ge x y)) by lia | rewrite (proj2 (N.ltb_lt x y)) by lia]
    end; f_equal; lia.
Qed.

Lemma from_utf8_as_bytes s : Forall (fun c => is_scalar c = true) s -> from_utf8 (as_bytes s) = Some s.
Proof.
  induction 1 as [|c s Hc _ IH]; [done|]. unfold as_bytes in *. cbn [fmap list_fmap concat].
  by rewrite from_utf8_cons, IH.
Qed.

(** The comparisons the SQL statements make. *)
Definition text_lt (a b : str) : bool := match str_cmp a b with Lt => true | _ => false end.
Definition text_le (a b : str) : bool := match str_cmp a b with Gt => false | _ => true end.

Lemma text_lt_rfc3339 `{Rfc3339} t u : printable t -> printable u ->
  text_lt (to_rfc3339 t) (to_rfc3339 u) = (t <? u).
Proof.
  intros. unfold text_lt. rewrite rfc3339_order by done. by unfold Z.ltb.
Qed.

Lemma text_le_rfc3339 `{Rfc3339} t u : printable t -> printable u ->
  text_le (to_rfc3339 t) (to_rfc3339 u) = (t <=? u).
Proof.
  intros. unfold text_le. rewrite rfc3339_order by done. by unfold Z.leb.
Qed.

(** ** Tables

    Lemmas on finding and altering rows. *)
Lemma find_first_Some {A} (f : A -> bool) l x :
  find_first f l = Some x -> x ∈ l /\ f x = true.
Proof.
  induction l as [|y l IH]; simpl; [done|]. destruct (f y) eqn:Hy.
  - intros [= ->]. split; [left|done].
  - intros [? ?]%IH. split; [by right|done].
Qed.

Lemma find_first_None {A} (f : A -> bool) l x : find_first f l = None -> x ∈ l -> f x = false.
Proof.
  induction l as [|y l IH]; simpl; [by intros _ ?%elem_of_nil|]. destruct (f y) eqn:Hy; [done|].
  intros H [->|Hin]%elem_of_cons; [done|by apply IH].
Qed.

Lemma alter_insert_map {K A} `{Countable K} (f : A -> A) (i : K) (m : gmap K A) :
  alter f i m = match m !! i with Some x => <[i := f x]> m | None => m end.
Proof.
  apply map_eq. intros j. destruct (decide (i = j)) as [->|Hne].
  - rewrite lookup_alter_eq. destruct (m !! j) as [x|] eqn:E; by rewrite ?lookup_insert_eq, ?E.
  - rewrite lookup_alter_ne by done. destruct (m !! i); by rewrite ?lookup_insert_ne.
Qed.

(** ** Witnesses

    One character per instant, and one per identifier. *)
Lemma char_clock_order t u : printable t -> printable u ->
  str_cmp [Z.to_N t] [Z.to_N u] = (t ?= u).
Proof.
  intros [Ht _] [Hu _]. simpl. rewrite <- Z2N.inj_compare by done.
  by destruct (Z.to_N t ?= Z.to_N u)%N.
Qed.

Definition char_clock : Rfc3339.
Proof.
  refine {| to_rfc3339 t := [Z.to_N t];
            parse_from_rfc3339 s := match s with [c] => Some (Z.of_N c) | _ => None end;
            rfc3339_order := char_clock_order |}.
  intros t [Ht _]. by rewrite Z2N.id.
Defined.

Definition char_uuid : UuidText :=
  {| uuid_to_string u := [u];
     uuid_parse_str s := match s with [c] => Some c | _ => None end;
     uuid_roundtrip u := eq_refl |}.

(** Two characters per byte. *)
Fixpoint wide_encode (b : bytes) : str :=
  match b with [] => [] | c :: b => (20000 + c)%N :: 20000%N :: wide_encode b end.
Fixpoint wide_decode (s : str) : option bytes :=
  match s with
  | [] => Some []
  | c :: d :: s =>
      if ((20000 <=? c) && (d =? 20000))%N then r ← wide_decode s; Some ((c - 20000)%N :: r) else None
  | [_] => None
  end.

Lemma wide_roundtrip b : wide_decode (wide_encode b) = Some b.
Proof.
  induction b as [|c b IH]; [done|]. cbn [wide_encode wide_decode]. rewrite IH.
  rewrite (proj2 (N.leb_le _ _)) by lia. cbn -[N.sub N.add]. do 2 f_equal. lia.
Qed.

Lemma wide_decode_length s b : wide_decode s = Some b -> length s = (2 * length b)%nat.
Proof.
  revert s. induction b as [|x b IH]; intros [|c [|d s]]; simpl; try done.
  - destruct (_ && _); [|done]. by destruct (wide_decode s).
  - destruct (_ && _); [|done]. destruct (wide_decode s) as [r|] eqn:E; [|done]. simpl.
    intros [= <- <-]. apply IH in E. lia.
Qed.

Lemma wide_no_whitespace b : Forall (fun c => is_whitespace c = false) (wide_encode b).
Proof.
  induction b as [|c b IH]; [constructor|]. cbn [wide_encode]. constructor; [|constructor; [done|done]].
  unfold is_whitespace, in_range.
  repeat match goal with
  | |- _ || _ = false => apply orb_false_iff; split
  | |- _ && _ = false => apply andb_false_iff; right; apply N.leb_gt
  | |- _ = false => apply N.eqb_neq
  end; lia.
Qed.

Lemma wide_large b c : c ∈ wide_encode b -> (20000 <= c)%N.
Proof.
  induction b as [|x b IH]; cbn [wide_encode]; [by intros ?%elem_of_nil|].
  rewrite !elem_of_cons. intros [->|[->|?]]; [lia|done|auto].
Qed.

Lemma wide_no_punctuation b : 46%N ∉ wide_encode b /\ 58%N ∉ wide_encode b.
Proof. split; by intros ?%wide_large. Qed.

Definition wide_hex : Hex :=
  {| hex_roundtrip := wide_roundtrip; hex_decode_length := wide_decode_length;
     hex_no_whitespace := wide_no_whitespace; hex_no_punctuation := wide_no_punctuation |}.
