(* ===== verification/Books.v ===== *)
(** * Bookshelves, books and ingest jobs

    [crates/mycelium-store/src/books.rs], the bookshelf methods of [lib.rs]
    and [IngestStatus] of [models.rs].  A table is the list of its rows in
    the order of their insertion, which is the order of a SELECT without
    ORDER BY; an id column holds what [to_string] writes, so it is the
    [Uuid].  The schema's UNIQUE and REFERENCES clauses (foreign keys are
    enforced) are part of the statements that meet them; [users] are the
    rows of the users table, id and name.  Every SQL statement is one step,
    which the database may refuse ([fails]). *)
From S2P Require Import Prelude Text Clock.
Open Scope Z_scope.

Inductive IngestStatus := JPending | JRunning | JDone | JFailed.
#[export] Instance IngestStatus_eq_dec : EqDecision IngestStatus.
Proof. solve_decision. Defined.
Definition IngestStatus_as_str (s : IngestStatus) : str :=
  match s with JPending => lit "pending" | JRunning => lit "running" | JDone => lit "done" | JFailed => lit "failed" end.
Definition IngestStatus_parse (s : str) : option IngestStatus :=
  if str_eqb s (lit "pending") then Some JPending
  else if str_eqb s (lit "running") then Some JRunning
  else if str_eqb s (lit "done") then Some JDone
  else if str_eqb s (lit "failed") then Some JFailed else None.

Record BookshelfRow := mkShelf { bs_name : str; bs_global_read : bool; bs_created_at : str }.
Record BookRow := mkBook { bk_shelf : Uuid; bk_slug : str; bk_title : str; bk_stack_path : str; bk_created_at : str }.
Record JobRow := mkJob {
  jb_shelf : Uuid; jb_book : Uuid; jb_user : Uuid; jb_status : IngestStatus; jb_detail : str; jb_created_at : str; jb_updated_at : str }.
Record BooksDb := mkBooksDb { db_shelves : list (Uuid * BookshelfRow); db_books : list (Uuid * BookRow); db_jobs : list (Uuid * JobRow) }.
Definition with_books (l : list (Uuid * BookRow)) (d : BooksDb) : BooksDb := mkBooksDb (db_shelves d) l (db_jobs d).
Definition with_jobs (l : list (Uuid * JobRow)) (d : BooksDb) : BooksDb := mkBooksDb (db_shelves d) (db_books d) l.

Inductive BooksError := BDb | BDuplicateSlug (slug : str) | BNotFound (slug : str).
Definition BooksError_display (db_text : str) (e : BooksError) : str :=
  match e with
  | BDb => lit "database error: " ++ db_text
  | BDuplicateSlug slug => lit "duplicate book slug: " ++ slug
  | BNotFound slug => lit "book not found: " ++ slug
  end.

Definition row_of {A} (l : list (Uuid * A)) (id : Uuid) : option A := snd <$> find_first (fun r => bool_decide (r.1 = id)) l.
Definition find_row {A} (f : A -> bool) (l : list (Uuid * A)) : option (Uuid * A) := find_first (fun r => f r.2) l.

(** ** Bookshelves *)
Definition create_bookshelf (id : Uuid) (now name : str) (is_global_read : bool) (d : BooksDb) (fails : bool) : result Uuid BooksError * BooksDb :=
  if fails || is_some (row_of (db_shelves d) id) || is_some (find_row (fun r => str_eqb (bs_name r) name) (db_shelves d)) then (Err BDb, d)
  else (Ok id, mkBooksDb (db_shelves d ++ [(id, mkShelf name is_global_read now)]) (db_books d) (db_jobs d)).
Definition by_name (d : BooksDb) : list (Uuid * BookshelfRow) := sort_by (fun a b => str_cmp (bs_name a.2) (bs_name b.2)) (db_shelves d).
Definition list_bookshelves (d : BooksDb) (fails : bool) : result (list (str * bool)) BooksError :=
  if fails then Err BDb else Ok ((fun r => (bs_name r.2, bs_global_read r.2)) <$> by_name d).
Definition list_bookshelves_detailed (d : BooksDb) (fails : bool) : result (list (Uuid * str * bool)) BooksError :=
  if fails then Err BDb else Ok ((fun r => (r.1, bs_name r.2, bs_global_read r.2)) <$> by_name d).
Definition bookshelf_is_global_read (id : Uuid) (d : BooksDb) (fails : bool) : option bool :=
  if fails then None else bs_global_read <$> row_of (db_shelves d) id.
Definition bookshelf_id_by_name (name : str) (d : BooksDb) (fails : bool) : result (option Uuid) BooksError :=
  if fails then Err BDb else Ok (fst <$> find_row (fun r => str_eqb (bs_name r) name) (db_shelves d)).
Definition bookshelf_name (id : Uuid) (d : BooksDb) (fails : bool) : option str :=
  if fails then None else bs_name <$> row_of (db_shelves d) id.
Definition book_slug (id : Uuid) (d : BooksDb) (fails : bool) : option str :=
  if fails then None else bk_slug <$> row_of (db_books d) id.

(** ** Books *)
Definition has_slug (slug : str) (b : BookRow) : bool := str_eqb (bk_slug b) slug.
(** Deleting a book deletes its jobs. *)
Definition delete_book_row (slug : str) (d : BooksDb) (fails : bool) : result unit BooksError * BooksDb :=
  if fails then (Err BDb, d)
  else match find_row (has_slug slug) (db_books d) with
       | None => (Err (BNotFound slug), d)
       | Some (id, _) =>
           (Ok tt, mkBooksDb (db_shelves d) (retain (fun r => negb (has_slug slug r.2)) (db_books d))
                     (retain (fun r => negb (bool_decide (jb_book r.2 = id))) (db_jobs d)))
       end.
Definition create_book (id : Uuid) (now : str) (shelf : Uuid) (slug title stack_path : str) (d : BooksDb) (fails : bool)
    : result Uuid BooksError * BooksDb :=
  if fails then (Err BDb, d)
  else if is_some (row_of (db_books d) id) || is_some (find_row (has_slug slug) (db_books d)) then (Err (BDuplicateSlug slug), d)
  else if is_some (row_of (db_shelves d) shelf) then (Ok id, with_books (db_books d ++ [(id, mkBook shelf slug title stack_path now)]) d)
  else (Err BDb, d).
Definition book_by_slug (slug : str) (d : BooksDb) (fails : bool) : result (option (Uuid * BookRow)) BooksError :=
  if fails then Err BDb else Ok (find_row (has_slug slug) (db_books d)).
Definition books_on_shelf (shelf : Uuid) (d : BooksDb) (fails : bool) : result (list (str * str)) BooksError :=
  if fails then Err BDb
  else Ok ((fun r => (bk_slug r.2, bk_title r.2)) <$>
           sort_by (fun a b => str_cmp (bk_slug a.2) (bk_slug b.2)) (retain (fun r => bool_decide (bk_shelf r.2 = shelf)) (db_books d))).

(** ** Ingest jobs *)
Definition create_ingest_job (users : list (Uuid * str)) (id : Uuid) (now : str) (shelf book user : Uuid) (d : BooksDb) (fails : bool)
    : result Uuid BooksError * BooksDb :=
  if fails || is_some (row_of (db_jobs d) id) || negb (is_some (row_of (db_shelves d) shelf)) || negb (is_some (row_of (db_books d) book)) ||
     negb (is_some (row_of users user)) then (Err BDb, d)
  else (Ok id, with_jobs (db_jobs d ++ [(id, mkJob shelf book user JPending [] now now)]) d).
Definition set_job (status : IngestStatus) (detail now : str) (j : JobRow) : JobRow :=
  mkJob (jb_shelf j) (jb_book j) (jb_user j) status detail (jb_created_at j) now.
Definition on_job (id : Uuid) (f : JobRow -> JobRow) (l : list (Uuid * JobRow)) : list (Uuid * JobRow) :=
  (fun r => if bool_decide (r.1 = id) then (r.1, f r.2) else r) <$> l.
Definition update_ingest_job (id : Uuid) (status : IngestStatus) (detail now : str) (d : BooksDb) (fails : bool) : result unit BooksError * BooksDb :=
  if fails then (Err BDb, d) else (Ok tt, with_jobs (on_job id (set_job status detail now) (db_jobs d)) d).
Definition is_pending (j : JobRow) : bool := bool_decide (jb_status j = JPending).
Definition claim_ingest_job (id : Uuid) (now : str) (d : BooksDb) (fails : bool) : result bool BooksError * BooksDb :=
  if fails then (Err BDb, d)
  else match row_of (db_jobs d) id with
       | Some j => if is_pending j then (Ok true, with_jobs (on_job id (set_job JRunning [] now) (db_jobs d)) d) else (Ok false, d)
       | None => (Ok false, d)
       end.
(** The [updated_at] of the value read is the time of the reading. *)
Definition ingest_job (id : Uuid) (d : BooksDb) (fails : bool) : result (option JobRow) BooksError :=
  if fails then Err BDb else Ok (row_of (db_jobs d) id).
Definition list_ingest_jobs (limit : Z) (d : BooksDb) (fails : bool) : result (list (Uuid * JobRow)) BooksError :=
  if fails then Err BDb
  else Ok (take (Z.to_nat limit) (sort_by (fun a b => str_cmp (jb_created_at b.2) (jb_created_at a.2)) (db_jobs d))).
Definition jobs_in (status : IngestStatus) (d : BooksDb) (fails : bool) : result (list Uuid) BooksError :=
  if fails then Err BDb else Ok ((retain (fun r : Uuid * JobRow => bool_decide (jb_status r.2 = status)) (db_jobs d)).*1).
(** [fails k]: the [k]th update is refused. *)
Fixpoint fail_each (ids : list Uuid) (now : str) (d : BooksDb) (fails : nat -> bool) : BooksDb :=
  match ids with
  | [] => d
  | id :: ids => fail_each ids now (update_ingest_job id JFailed (lit "interrupted by restart") now d (fails O)).2 (fun k => fails (S k))
  end.
Definition fail_stale_running_jobs (now : str) (d : BooksDb) (fails : nat -> bool) : result (list Uuid) BooksError * BooksDb :=
  match jobs_in JRunning d (fails O) with
  | Err e => (Err e, d)
  | Ok ids => (Ok ids, fail_each ids now d (fun k => fails (S k)))
  end.
Definition pending_ingest_jobs (d : BooksDb) (fails : bool) : result (list Uuid) BooksError := jobs_in JPending d fails.
Record PendingJobRow := mkPendingJob { pj_id : Uuid; pj_slug : str; pj_username : str; pj_created_at : str }.
Definition pending_ingest_job_rows (users : list (Uuid * str)) (d : BooksDb) (fails : bool) : result (list PendingJobRow) BooksError :=
  if fails then Err BDb
  else Ok (sort_by (fun a b => str_cmp (pj_created_at a) (pj_created_at b))
             (omap (fun r => let j : JobRow := r.2 in
                             if is_pending j
                             then b ← row_of (db_books d) (jb_book j); u ← row_of users (jb_user j);
                                  Some (mkPendingJob r.1 (bk_slug b) u (jb_created_at j))
                             else None) (db_jobs d))).

(** ** What a caller may see *)
Fixpoint slugs_of (shelves : list (Uuid * str * bool)) (d : BooksDb) (fails : nat -> bool) : list str :=
  match shelves with
  | [] => []
  | (id, _, global_read) :: shelves =>
      if global_read then (default [] (result_ok (books_on_shelf id d (fails O)))).*1 ++ slugs_of shelves d (fun k => fails (S k))
      else slugs_of shelves d fails
  end.
(** [api.rs]: all books for an admin, otherwise those of global shelves *)
Definition visible_library_slugs (admin : bool) (d : BooksDb) (fails : nat -> bool) : option (list str) :=
  if admin then None
  else Some (slugs_of (default [] (result_ok (list_bookshelves_detailed d (fails O)))) d (fun k => fails (S k))).

(** ** Tables in order *)
Record tables_ok (users : list (Uuid * str)) (d : BooksDb) : Prop := {
  to_shelves : NoDup (db_shelves d).*1; to_names : NoDup (bs_name <$> (db_shelves d).*2);
  to_books : NoDup (db_books d).*1; to_slugs : NoDup (bk_slug <$> (db_books d).*2);
  to_jobs : NoDup (db_jobs d).*1;
  to_shelf_of : forall r, r ∈ db_books d -> bk_shelf r.2 ∈ (db_shelves d).*1;
  to_job_of : forall r, r ∈ db_jobs d -> jb_shelf r.2 ∈ (db_shelves d).*1 /\ jb_book r.2 ∈ (db_books d).*1 /\ jb_user r.2 ∈ users.*1 }.

Lemma row_of_Some {A} (l : list (Uuid * A)) id x : NoDup l.*1 -> row_of l id = Some x <-> (id, x) ∈ l.
Proof.
  intros Hnd. unfold row_of. split.
  - destruct (find_first _ l) as [[i y]|] eqn:E; [|done]. intros [= ->].
    apply find_first_Some in E as [Hin Hi%bool_decide_eq_true]. cbn in Hi. by subst i.
  - induction l as [|[i y] l IH]; [by intros ?%not_elem_of_nil|]. rewrite fmap_cons in Hnd. apply NoDup_cons in Hnd as [Hn Hnd].
    cbn. destruct (bool_decide_reflect (i = id)) as [->|Hne].
    + intros [[= ->]|Hin]%elem_of_cons; [done|]. exfalso. apply Hn, list_elem_of_fmap. by exists (id, x).
    + intros [[= -> ->]|Hin]%elem_of_cons; [done|]. by apply IH.
Qed.
Lemma row_of_None {A} (l : list (Uuid * A)) id : is_some (row_of l id) = false <-> id ∉ l.*1.
Proof.
  unfold row_of. split.
  - destruct (find_first _ l) as [r|] eqn:E; [done|]. intros _ ([i x] & -> & Hin)%list_elem_of_fmap.
    by eapply find_first_None in E as ?%bool_decide_eq_false; [|exact Hin].
  - intros Hn. destruct (find_first _ l) as [r|] eqn:E; [|done]. apply find_first_Some in E as [Hin Hi%bool_decide_eq_true].
    exfalso. apply Hn, list_elem_of_fmap. by exists r.
Qed.
Lemma row_of_is_some {A} (l : list (Uuid * A)) id : is_some (row_of l id) = true <-> id ∈ l.*1.
Proof. rewrite <- not_false_iff_true, row_of_None. split; [intros H|]; [|tauto]. by destruct (decide (id ∈ l.*1)). Qed.
Lemma find_row_None {A} (f : A -> bool) l : is_some (find_row f l) = false <-> forall r, r ∈ l -> f r.2 = false.
Proof.
  unfold find_row. split.
  - destruct (find_first _ l) eqn:E; [done|]. intros _ r Hin. by eapply (find_first_None _ _ r) in E.
  - intros H. destruct (find_first _ l) as [r|] eqn:E; [|done]. apply find_first_Some in E as [Hin Hf]. by rewrite H in Hf.
Qed.
Lemma on_job_ids id f l : (on_job id f l).*1 = l.*1.
Proof. unfold on_job. rewrite <- list_fmap_compose. apply list_fmap_ext. intros i [k j] _. cbn. by destruct (bool_decide _). Qed.
Lemma on_job_elem id f l r : r ∈ on_job id f l <-> exists r', r' ∈ l /\ r = if bool_decide (r'.1 = id) then (r'.1, f r'.2) else r'.
Proof. unfold on_job. rewrite list_elem_of_fmap. naive_solver. Qed.
Lemma snoc_nodup {A B} (f : A -> B) l x : NoDup (f <$> l) -> f x ∉ f <$> l -> NoDup (f <$> l ++ [x]).
Proof. intros. rewrite fmap_app. apply NoDup_app. split_and!; [done|set_solver|apply NoDup_singleton]. Qed.

Section Kept.
Context (users : list (Uuid * str)).
#[local] Abbreviation ok := (tables_ok users).
(** Statements that change the tables *)
Inductive BooksOp :=
  | OpShelf (id : Uuid) (now name : str) (global : bool) | OpDeleteBook (slug : str)
  | OpBook (id : Uuid) (now : str) (shelf : Uuid) (slug title path : str) | OpJob (id : Uuid) (now : str) (shelf book user : Uuid)
  | OpUpdateJob (id : Uuid) (status : IngestStatus) (detail now : str) | OpClaimJob (id : Uuid) (now : str).
Definition books_op (o : BooksOp) (fails : bool) (d : BooksDb) : BooksDb :=
  match o with
  | OpShelf id now name g => (create_bookshelf id now name g d fails).2
  | OpDeleteBook slug => (delete_book_row slug d fails).2
  | OpBook id now shelf slug title path => (create_book id now shelf slug title path d fails).2
  | OpJob id now shelf book user => (create_ingest_job users id now shelf book user d fails).2
  | OpUpdateJob id status detail now => (update_ingest_job id status detail now d fails).2
  | OpClaimJob id now => (claim_ingest_job id now d fails).2
  end.

Lemma retain_fmap_nodup {A B} (f : A -> B) g l : NoDup (f <$> l) -> NoDup (f <$> retain g l).
Proof.
  induction l as [|x l IH]; [done|]. rewrite fmap_cons. intros [Hn Hnd]%NoDup_cons. cbn. destruct (g x); [|by apply IH].
  rewrite fmap_cons. apply NoDup_cons. split; [|by apply IH]. intros (y & Hy & [Hin _]%elem_of_retain)%list_elem_of_fmap.
  apply Hn, list_elem_of_fmap. by exists y.
Qed.
Lemma jobs_kept id f d : (forall j, jb_shelf (f j) = jb_shelf j /\ jb_book (f j) = jb_book j /\ jb_user (f j) = jb_user j) ->
  ok d -> ok (with_jobs (on_job id f (db_jobs d)) d).
Proof.
  intros Hf []. constructor; cbn; rewrite ?on_job_ids; try done. intros r (r' & Hr & ->)%on_job_elem.
  destruct (bool_decide _); cbn; [|by apply to_job_of0]. destruct (Hf r'.2) as (-> & -> & ->). by apply to_job_of0.
Qed.
Lemma tables_step o fails d : ok d -> ok (books_op o fails d).
Proof.
  intros Hok. pose proof Hok as []. destruct o as [id now name g|slug|id now shelf slug title path|id now shelf book user|id status detail now|id now]; cbn [books_op].
  - unfold create_bookshelf. destruct (fails || _ || _) eqn:E; [done|]. apply orb_false_iff in E as [[_ Hid%row_of_None]%orb_false_iff Hn]. pose proof (proj1 (find_row_None _ _) Hn) as Hn2. clear Hn. rename Hn2 into Hn.
    constructor; cbn; try done.
    + by apply snoc_nodup.
    + rewrite <- list_fmap_compose. apply snoc_nodup; [by rewrite list_fmap_compose|]. intros (r & Hr & Hin)%list_elem_of_fmap.
      specialize (Hn r Hin). cbn in Hr, Hn. rewrite <- Hr, (proj2 (str_eqb_eq _ _) eq_refl) in Hn. done.
    + intros r Hr. rewrite fmap_app. apply elem_of_app. left. by apply to_shelf_of0.
    + intros r Hr. rewrite fmap_app, elem_of_app. destruct (to_job_of0 r Hr) as (? & ? & ?). auto.
  - unfold delete_book_row. destruct fails; [done|]. destruct (find_row (has_slug slug) (db_books d)) as [[id b]|] eqn:E; [|done].
    apply find_first_Some in E as [Hin Hs]. cbn in Hs. constructor; cbn; try done; try by apply retain_fmap_nodup.
    + rewrite <- list_fmap_compose in *. by apply retain_fmap_nodup.
    + intros r [Hr _]%elem_of_retain. by apply to_shelf_of0.
    + intros r [Hr Hb%negb_true_iff%bool_decide_eq_false]%elem_of_retain. destruct (to_job_of0 r Hr) as (? & Hbook & ?). split_and!; [done| |done].
      apply list_elem_of_fmap in Hbook as ([k b'] & Hk & Hb'). apply list_elem_of_fmap. exists (k, b'). split; [done|].
      apply elem_of_retain. split; [done|]. apply negb_true_iff. cbn in *. apply not_true_is_false. intros Hs'. apply Hb. rewrite Hk.
      unfold has_slug in *. apply str_eqb_eq in Hs, Hs'. apply list_elem_of_lookup in Hin as [i Hi], Hb' as [i' Hi'].
      assert (i = i') as ->; [|congruence]. eapply (NoDup_lookup _ _ _ slug to_slugs0); rewrite !list_lookup_fmap; [by rewrite Hi, <- Hs|by rewrite Hi', <- Hs'].
  - unfold create_book. destruct fails; [done|]. destruct (_ || _) eqn:E; [done|]. apply orb_false_iff in E as [Hid%row_of_None Hs]. pose proof (proj1 (find_row_None _ _) Hs) as Hs2. clear Hs. rename Hs2 into Hs.
    destruct (is_some (row_of (db_shelves d) shelf)) eqn:Esh; [|done]. apply row_of_is_some in Esh. constructor; cbn; try done.
    + by apply snoc_nodup.
    + rewrite <- list_fmap_compose. apply snoc_nodup; [by rewrite list_fmap_compose|]. intros (r & Hr & Hin)%list_elem_of_fmap.
      specialize (Hs r Hin). cbn in Hr, Hs. unfold has_slug in Hs. rewrite <- Hr, (proj2 (str_eqb_eq _ _) eq_refl) in Hs. done.
    + intros r [Hr| ->%list_elem_of_singleton]%elem_of_app; [by apply to_shelf_of0|done].
    + intros r Hr. rewrite fmap_app, elem_of_app. destruct (to_job_of0 r Hr) as (? & ? & ?). auto.
  - unfold create_ingest_job. destruct (fails || _ || _ || _ || _) eqn:E; [done|].
    apply orb_false_iff in E as [[[[_ Hid%row_of_None]%orb_false_iff Hsh%negb_false_iff%row_of_is_some]%orb_false_iff
      Hb%negb_false_iff%row_of_is_some]%orb_false_iff Hu%negb_false_iff%row_of_is_some].
    constructor; cbn; try done; [by apply snoc_nodup|]. intros r [Hr| ->%list_elem_of_singleton]%elem_of_app; [by apply to_job_of0|done].
  - unfold update_ingest_job. destruct fails; [done|]. by apply jobs_kept.
  - unfold claim_ingest_job. destruct fails; [done|]. destruct (row_of (db_jobs d) id) as [j|]; [|done]. destruct (is_pending j); [|done]. by apply jobs_kept.
Qed.
End Kept.

Lemma tables_empty users : tables_ok users (mkBooksDb [] [] []).
Proof. constructor; cbn; [by apply NoDup_nil..| |]; by intros r ?%not_elem_of_nil. Qed.

(** In every history of statements from empty tables, whatever the database
    refuses: ids, shelf names and slugs stay unique, a book's shelf exists,
    and so do a job's shelf, book and user. *)
Theorem tables_kept users ops d : d = fold_left (fun d (o : BooksOp * bool) => books_op users o.1 o.2 d) ops (mkBooksDb [] [] []) -> tables_ok users d.
Proof.
  intros ->. assert (H0 : tables_ok users (mkBooksDb [] [] [])) by by apply tables_empty.
  revert H0. generalize (mkBooksDb [] [] []). induction ops as [|o ops IH]; intros d Hd; [done|]. cbn. by apply IH, tables_step.
Qed.

Lemma slugs_of_elem shelves d fails slug : slug ∈ slugs_of shelves d fails ->
  exists shelf b, (shelf.1.1, true) = (bk_shelf b.2, shelf.2) /\ shelf ∈ shelves /\ b ∈ db_books d /\ bk_slug b.2 = slug.
Proof.
  revert fails. induction shelves as [|[[id name] g] shelves IH]; intros fails; cbn; [by intros ?%not_elem_of_nil|].
  destruct g; [rewrite elem_of_app; intros [Hs|Hs]|intros Hs].
  - unfold books_on_shelf in Hs. destruct (fails O); cbn in Hs; [by apply not_elem_of_nil in Hs|].
    apply list_elem_of_fmap in Hs as ([s t] & -> & (b & [= -> ->] & Hb)%list_elem_of_fmap).
    rewrite sort_by_perm in Hb. apply elem_of_retain in Hb as [Hb Hsh%bool_decide_eq_true].
    exists (id, name, true), b. cbn. rewrite Hsh. split_and!; [done|left|done|done].
  - apply IH in Hs as (sh & b & ? & ? & ?). exists sh, b. split_and!; [done|by right|naive_solver..].
  - apply IH in Hs as (sh & b & ? & ? & ?). exists sh, b. split_and!; [done|by right|naive_solver..].
Qed.
Lemma slugs_of_complete shelves d slug shelf b : shelf ∈ shelves -> (shelf.1.1, true) = (bk_shelf b.2, shelf.2) -> b ∈ db_books d -> bk_slug b.2 = slug ->
  slug ∈ slugs_of shelves d (fun _ => false).
Proof.
  intros Hin Hsh Hb Hs. revert Hin. induction shelves as [|[[id name] g] shelves IH]; [by intros ?%not_elem_of_nil|].
  intros [Heq|Hin]%elem_of_cons; cbn.
  - rewrite Heq in Hsh. cbn in Hsh. injection Hsh as -> <-. apply elem_of_app. left. cbn.
    apply list_elem_of_fmap. exists (bk_slug b.2, bk_title b.2). split; [done|]. apply list_elem_of_fmap. exists b. split; [done|].
    rewrite sort_by_perm. apply elem_of_retain. split; [done|]. by apply bool_decide_eq_true.
  - destruct g; [apply elem_of_app; right|]; by apply IH.
Qed.

(** Who sees which books: an admin all, anybody else only books on a
    global shelf, also when the database refuses some of the statements;
    when it answers all of them, every book on a global shelf. *)
Theorem visible_library_slugs_spec users d fails : tables_ok users d ->
  visible_library_slugs true d fails = None /\
  exists slugs, visible_library_slugs false d fails = Some slugs /\
    (forall slug, slug ∈ slugs -> exists id b shelf, (id, b) ∈ db_books d /\ bk_slug b = slug /\
       row_of (db_shelves d) (bk_shelf b) = Some shelf /\ bs_global_read shelf = true) /\
    ((forall k, fails k = false) -> forall id b shelf, (id, b) ∈ db_books d -> row_of (db_shelves d) (bk_shelf b) = Some shelf ->
       bs_global_read shelf = true -> bk_slug b ∈ slugs).
Proof.
  intros []. split; [done|]. unfold visible_library_slugs. eexists. split; [done|]. split.
  - intros slug Hs. apply slugs_of_elem in Hs as (sh & [id b] & Hsh & Hin & Hb & Hslug). cbn in *. exists id, b.
    unfold list_bookshelves_detailed in Hin. destruct (fails O); cbn in Hin; [by apply not_elem_of_nil in Hin|].
    apply list_elem_of_fmap in Hin as ([i row] & -> & Hrow). unfold by_name in Hrow. rewrite sort_by_perm in Hrow. cbn in *.
    injection Hsh as -> Hg. exists row. split_and!; [done|done|by apply row_of_Some|done].
  - intros Hf id b shelf Hb Hrow%row_of_Some Hg; [|done].
    assert (slugs_of (default [] (result_ok (list_bookshelves_detailed d (fails O)))) d (fun k => fails (S k)) =
            slugs_of (default [] (result_ok (list_bookshelves_detailed d (fails O)))) d (fun _ => false)) as ->.
    { generalize (default [] (result_ok (list_bookshelves_detailed d (fails O)))). intros l.
      assert (Hf' : forall k, (fun k => fails (S k)) k = false) by (intros; apply Hf). revert Hf'. generalize (fun k => fails (S k)).
      induction l as [|[[i n] g] l IH]; intros f Hf'; [done|]. cbn. rewrite Hf', (IH f Hf'), (IH (fun k => f (S k))) by (intros; apply Hf'). done. }
    rewrite Hf. eapply (slugs_of_complete _ _ _ (bk_shelf b, bs_name shelf, true) (id, b)); try done.
    unfold list_bookshelves_detailed. cbn. apply list_elem_of_fmap. exists (bk_shelf b, shelf). split; [cbn; by rewrite Hg|].
    unfold by_name. by rewrite sort_by_perm.
Qed.

(** ** Witnesses *)
Definition demo_ops : list (BooksOp * bool) :=
  [(OpShelf 1%N (lit "t0") (lit "Open") true, false); (OpShelf 2%N (lit "t1") (lit "Closed") false, false); (OpShelf 3%N (lit "t1") (lit "Open") false, false);
   (OpBook 7%N (lit "t2") 1%N (lit "pumps") (lit "Pumps") (lit "/library/pumps.md"), false);
   (OpBook 8%N (lit "t2") 2%N (lit "secrets") (lit "Secrets") (lit "/library/secrets.md"), false);
   (OpJob 9%N (lit "t3") 1%N 7%N 5%N, false); (OpJob 10%N (lit "t3") 1%N 7%N 6%N, false)].
Definition demo_books : BooksDb := fold_left (fun d (o : BooksOp * bool) => books_op [(5%N, lit "ann")] o.1 o.2 d) demo_ops (mkBooksDb [] [] []).
Lemma tables_kept_witness : length (db_shelves demo_books) = 2%nat /\ length (db_jobs demo_books) = 1%nat /\ tables_ok [(5%N, lit "ann")] demo_books.
Proof. split; [reflexivity|]. split; [reflexivity|]. apply (tables_kept _ demo_ops). reflexivity. Defined.
Lemma demo_books_ok : tables_ok [(5%N, lit "ann")] demo_books.
Proof.
  assert (H0 : tables_ok [(5%N, lit "ann")] (mkBooksDb [] [] [])) by by apply tables_empty.
  unfold demo_books, demo_ops. cbn [fold_left fst snd]. repeat apply tables_step. exact H0.
Qed.
Lemma visible_library_slugs_spec_witness : exists slugs, visible_library_slugs false demo_books (fun _ => false) = Some slugs /\ slugs = [lit "pumps"] /\
  visible_library_slugs true demo_books (fun _ => false) = None.
Proof.
  destruct (visible_library_slugs_spec [(5%N, lit "ann")] demo_books (fun _ => false) demo_books_ok) as [H (slugs & Hs & _)].
  exists slugs. split; [exact Hs|]. split; [|exact H]. vm_compute in Hs. injection Hs as <-. reflexivity.
Defined.
