(* ===== verification/Session.v ===== *)
(** * Web sessions and roles

    [crates/mycelium-auth/src/session.rs] and [rbac.rs]: server-side
    sessions in the [sessions] table, keyed by the hash of the cookie
    value, with CSRF tokens; roles and the request extractors.  The table
    is an explicit map that every operation takes and returns; I/O failures
    of the database are not modelled. *)
From S2P Require Import Prelude Text Clock.
Open Scope Z_scope.

(** ** Roles *)
Inductive Role := Admin | User.
#[global] Instance Role_eq_dec : EqDecision Role.
Proof. solve_decision. Defined.

Definition Role_as_str (r : Role) : str :=
  match r with Admin => lit "admin" | User => lit "user" end.
Definition Role_parse (s : str) : option Role :=
  if str_eqb s (lit "admin") then Some Admin
  else if str_eqb s (lit "user") then Some User
  else None.

Record SessionUser := mkSessionUser { su_user_id : Uuid; su_username : str; su_role : Role }.

(** The extractors, on the request's extension: the status code of the
    rejection. *)
Definition extract_session_user (ext : option SessionUser) : result SessionUser Z := ok_or 401 ext.
Definition extract_require_admin (ext : option SessionUser) : result unit Z :=
  (let? user := ok_or 401 ext in
   if negb (bool_decide (su_role user = Admin)) then Err 403 else Ok tt)%rust.

(** ** Sessions *)
Inductive SessionError := SDb | SNotFound.

Record SessionRecord := mkSession {
  s_id : Uuid; s_user_id : Uuid; s_csrf_token : str; s_expires_at : Z }.

(** A row of the [sessions] table, under its [id]. *)
Record SessionRow := mkSessionRow {
  row_user_id : str; row_csrf_token : str; row_created_at : str; row_expires_at : str }.
Abbreviation Sessions := (gmap str SessionRow) (only parsing).

(** [Duration::hours(12)] *)
Definition SessionManager_ttl : Z := 12 * 3600 * 1000000000.

(** [constant_time_eq] *)
Fixpoint xor_diff (a b : list N) (diff : N) : N :=
  match a, b with
  | x :: a, y :: b => xor_diff a b (N.lor diff (N.lxor x y))
  | _, _ => diff
  end.
Definition constant_time_eq (a b : list N) : bool :=
  if negb (length a =? length b)%nat then false else (xor_diff a b 0 =? 0)%N.

(** SHA-256 of the id's bytes, in hexadecimal. *)
Class SessionHash := { hash_session_id : Uuid -> str }.

Section Sessions.
Context {RF : Rfc3339} {UT : UuidText} {SH : SessionHash}.

(** [create_with_ttl]: [id] and [csrf_id] are the fresh UUIDs; [known] says
    whether the user exists (the foreign key). *)
Definition create_with_ttl (db : Sessions) (known : bool) (id csrf_id user_id : Uuid) (now ttl : Z)
    : result SessionRecord SessionError * Sessions :=
  let csrf := lit "myc2-csrf-" ++ uuid_to_string csrf_id in
  let expires := now + ttl in
  if known && bool_decide (db !! hash_session_id id = None) then
    (Ok (mkSession id user_id csrf expires),
     <[hash_session_id id := mkSessionRow (uuid_to_string user_id) csrf (to_rfc3339 now)
                               (to_rfc3339 expires)]> db)
  else (Err SDb, db).

Definition create (db : Sessions) (known : bool) (id csrf_id user_id : Uuid) (now : Z) :=
  create_with_ttl db known id csrf_id user_id now SessionManager_ttl.

Definition get (db : Sessions) (session_id : Uuid) (now : Z)
    : result SessionRecord SessionError * Sessions :=
  match db !! hash_session_id session_id with
  | None => (Err SNotFound, db)
  | Some row =>
      match parse_from_rfc3339 (row_expires_at row) with
      | None => (Err SNotFound, db)
      | Some expires =>
          if expires <? now then (Err SNotFound, delete (hash_session_id session_id) db)
          else match uuid_parse_str (row_user_id row) with
               | Some user => (Ok (mkSession session_id user (row_csrf_token row) expires), db)
               | None => (Err SNotFound, db)
               end
      end
  end.

(** [delete] *)
Definition delete_session (db : Sessions) (session_id : Uuid) : Sessions :=
  delete (hash_session_id session_id) db.

Definition delete_all_for_user (db : Sessions) (user_id : Uuid) : Sessions :=
  filter (fun kv => row_user_id kv.2 <> uuid_to_string user_id) db.

Definition purge_expired (db : Sessions) (now : Z) : nat * Sessions :=
  let kept := filter (fun kv : str * SessionRow =>
                text_lt (row_expires_at kv.2) (to_rfc3339 now) = false) db in
  ((size db - size kept)%nat, kept).

Definition verify_csrf (db : Sessions) (session_id : Uuid) (now : Z) (presented_token : str)
    : result bool SessionError * Sessions :=
  let '(session, db) := get db session_id now in
  ((let? session := session in
    Ok (constant_time_eq (as_bytes presented_token) (as_bytes (s_csrf_token session))))%rust, db).

(** ** Histories *)
Inductive SessionOp :=
| SCreate (known : bool) (id csrf_id user_id : Uuid) (now ttl : Z)
| SGet (id : Uuid) (now : Z)
| SVerifyCsrf (id : Uuid) (now : Z) (token : str)
| SDelete (id : Uuid)
| SDeleteAll (user_id : Uuid)
| SPurge (now : Z).

Definition session_step (db : Sessions) (o : SessionOp) : Sessions :=
  match o with
  | SCreate known id c u now ttl => (create_with_ttl db known id c u now ttl).2
  | SGet id now => (get db id now).2
  | SVerifyCsrf id now t => (verify_csrf db id now t).2
  | SDelete id => delete_session db id
  | SDeleteAll u => delete_all_for_user db u
  | SPurge now => (purge_expired db now).2
  end.

(** The live session of an id, from the history. *)
Definition session_after (id : Uuid) (cur : option SessionRecord) (o : SessionOp)
    : option SessionRecord :=
  match o, cur with
  | SCreate true id' c u now ttl, None =>
      if decide (id' = id) then Some (mkSession id u (lit "myc2-csrf-" ++ uuid_to_string c) (now + ttl))
      else None
  | SGet id' now, Some s | SVerifyCsrf id' now _, Some s =>
      if decide (id' = id) then if s_expires_at s <? now then None else cur else cur
  | SDelete id', Some _ => if decide (id' = id) then None else cur
  | SDeleteAll u, Some s => if decide (s_user_id s = u) then None else cur
  | SPurge now, Some s => if s_expires_at s <? now then None else cur
  | _, _ => cur
  end.
Definition live_session (id : Uuid) (ops : list SessionOp) : option SessionRecord :=
  fold_left (session_after id) ops None.

(** The instants of an operation can be printed. *)
Definition printable_op (o : SessionOp) : Prop :=
  match o with
  | SCreate _ _ _ _ now ttl => printable now /\ printable (now + ttl)
  | SGet _ now | SVerifyCsrf _ now _ | SPurge now => printable now
  | _ => True
  end.

Definition row_of (s : SessionRecord) (created : str) : SessionRow :=
  mkSessionRow (uuid_to_string (s_user_id s)) (s_csrf_token s) created (to_rfc3339 (s_expires_at s)).

Definition represents (row : option SessionRow) (id : Uuid) (s : option SessionRecord) : Prop :=
  match s with
  | Some s => s_id s = id /\ printable (s_expires_at s) /\ exists c, row = Some (row_of s c)
  | None => row = None
  end.

Lemma get_step db id now s :
  printable now -> represents (db !! hash_session_id id) id s ->
  get db id now =
    match s with
    | Some s => if s_expires_at s <? now then (Err SNotFound, delete (hash_session_id id) db)
                else (Ok s, db)
    | None => (Err SNotFound, db)
    end.
Proof.
  intros Hn Hr. unfold get. destruct s as [s|]; simpl in Hr; [|by rewrite Hr].
  destruct Hr as (Hid & Hp & c & ->). simpl. rewrite rfc3339_roundtrip by done.
  destruct (_ <? _); [done|]. rewrite uuid_roundtrip. destruct s; simpl in *. by subst.
Qed.

Lemma verify_csrf_db db id now t : (verify_csrf db id now t).2 = (get db id now).2.
Proof. unfold verify_csrf. by destruct (get db id now). Qed.

Lemma session_step_represents db o id s :
  Inj (=) (=) hash_session_id -> printable_op o ->
  (forall id, represents (db !! hash_session_id id) id (s id)) ->
  represents (session_step db o !! hash_session_id id) id (session_after id (s id) o).
Proof.
  intros Hinj Hp Hr. pose proof (Hr id) as Hid.
  assert (Hget : forall id' now, printable now ->
    represents ((get db id' now).2 !! hash_session_id id) id (session_after id (s id) (SGet id' now))).
  { intros id' now Hn. rewrite (get_step _ _ _ (s id') Hn (Hr id')).
    destruct (decide (id' = id)) as [->|Hne].
    - destruct (s id) as [r|]; simpl; [|done]. rewrite decide_True by done.
      destruct (s_expires_at r <? now); simpl; [by rewrite lookup_delete_eq|done].
    - assert (Hk : (match s id' with
        | Some s0 => if s_expires_at s0 <? now then (Err SNotFound, delete (hash_session_id id') db)
                     else (Ok s0, db)
        | None => (Err SNotFound, db) end).2 !! hash_session_id id = db !! hash_session_id id).
      { destruct (s id') as [r|]; simpl; [|done]. destruct (_ <? _); simpl; [|done].
        rewrite lookup_delete_ne; [done|]. by intros E%Hinj. }
      rewrite Hk. simpl. destruct (s id); simpl in *; [by rewrite decide_False|done]. }
  destruct o as [known id' c u now ttl|id' now|id' now t|id'|u|now]; cbn [session_step].
  - unfold create_with_ttl. destruct known; simpl; [|by destruct (s id)].
    destruct Hp as [Hp1 Hp2]. case_bool_decide as Hfree; simpl.
    + destruct (decide (id' = id)) as [->|Hne].
      * rewrite lookup_insert_eq. destruct (s id) as [r|]; simpl in Hid.
        { destruct Hid as (_ & _ & c' & Hx). congruence. }
        split_and!; [done|done|]. by eexists.
      * rewrite lookup_insert_ne by (by intros E%Hinj). by destruct (s id).
    + destruct (decide (id' = id)) as [->|Hne]; [|by destruct (s id)].
      destruct (s id) as [r|]; [done|]. simpl in Hid. done.
  - by apply Hget.
  - rewrite verify_csrf_db. by apply Hget.
  - unfold delete_session. destruct (decide (id' = id)) as [->|Hne].
    + rewrite lookup_delete_eq. destruct (s id); simpl; [by rewrite decide_True|done].
    + rewrite lookup_delete_ne by (by intros E%Hinj).
      destruct (s id); simpl in *; [by rewrite decide_False|done].
  - unfold delete_all_for_user. rewrite map_lookup_filter. destruct (s id) as [r|]; simpl in *.
    + destruct Hid as (Hi & Hpr & c & ->). simpl. destruct (decide (s_user_id r = u)) as [<-|Hne].
      * rewrite option_guard_False; [done|]. by intros [].
      * rewrite option_guard_True; [|by intros E%uuid_to_string_inj].
        split_and!; [done..|]. by exists c.
    + by rewrite Hid.
  - unfold purge_expired. simpl. rewrite map_lookup_filter. simpl in Hp.
    destruct (s id) as [r|]; simpl in *; [|by rewrite Hid].
    destruct Hid as (Hi & Hpr & c & ->). simpl. rewrite text_lt_rfc3339 by done.
    destruct (s_expires_at r <? now).
    + by rewrite option_guard_False.
    + rewrite option_guard_True by done. split_and!; [done..|]. by exists c.
Qed.

Lemma sessions_represent ops id :
  Inj (=) (=) hash_session_id -> Forall printable_op ops ->
  represents (fold_left session_step ops ∅ !! hash_session_id id) id (live_session id ops).
Proof.
  intros Hinj Hops. revert id. induction ops as [|o ops IH] using rev_ind; intros id.
  - simpl. by rewrite lookup_empty.
  - apply Forall_app in Hops as [Hops Ho]. apply Forall_cons in Ho as [Ho _].
    unfold live_session. rewrite !fold_left_app. simpl.
    apply (session_step_represents _ _ _ (fun id => live_session id ops)); [done..|].
    intros id'. by apply IH.
Qed.

Lemma constant_time_eq_spec a b : constant_time_eq a b = true <-> a = b.
Proof.
  unfold constant_time_eq.
  assert (H : forall a b d, length a = length b -> (xor_diff a b d =? 0)%N = true <-> d = 0%N /\ a = b).
  { clear. induction a as [|x a IH]; intros [|y b] d Hl; simplify_eq/=.
    - rewrite N.eqb_eq. naive_solver.
    - rewrite IH by done. rewrite N.lor_eq_0_iff, N.lxor_eq_0_iff. naive_solver. }
  destruct (Nat.eqb_spec (length a) (length b)) as [Hl|Hl]; simpl.
  - rewrite H by done. naive_solver.
  - split; [done|]. by intros ->.
Qed.

(** Sessions live exactly as long as they should.  After any history
    of operations (with collision-free hashing of the ids, and instants
    that chrono prints in four-digit years), looking an id up yields the
    session created under it, with its user, CSRF token and expiry, if and
    only if the session was created, the lookup is not after its expiry,
    and it was not since deleted, logged out with its user, purged, or
    found expired; otherwise it yields NotFound, and an expired row is
    deleted by the lookup. *)
Theorem session_lifetime ops id now :
  Inj (=) (=) hash_session_id -> Forall printable_op ops -> printable now ->
  let db := fold_left session_step ops ∅ in
  get db id now =
    match live_session id ops with
    | Some s => if s_expires_at s <? now then (Err SNotFound, delete (hash_session_id id) db)
                else (Ok s, db)
    | None => (Err SNotFound, db)
    end.
Proof. intros Hinj Hops Hn. apply get_step; [done|]. by apply sessions_represent. Qed.

(** The CSRF check passes for exactly the token of the live session:
    after any history, the verdict for a live, unexpired session is whether
    the presented token equals the session's, byte for byte; without such a
    session it is an error, never a pass.  Admin routes let through exactly
    the admins (401 without a user, 403 for others). *)
Theorem csrf_and_roles ops id now token ext :
  Inj (=) (=) hash_session_id -> Forall printable_op ops -> printable now ->
  let db := fold_left session_step ops ∅ in
  (verify_csrf db id now token).1 =
    match live_session id ops with
    | Some s => if s_expires_at s <? now then Err SNotFound
                else Ok (bool_decide (token = s_csrf_token s))
    | None => Err SNotFound
    end /\
  extract_require_admin ext =
    match ext with
    | None => Err 401
    | Some u => if decide (su_role u = Admin) then Ok tt else Err 403
    end /\
  (forall s, Role_parse s = None <-> s <> Role_as_str Admin /\ s <> Role_as_str User) /\
  (forall r, Role_parse (Role_as_str r) = Some r).
Proof.
  intros Hinj Hops Hn db. split_and!.
  - unfold verify_csrf, db.
    rewrite (get_step _ _ _ (live_session id ops) Hn (sessions_represent ops id Hinj Hops)).
    destruct (live_session id ops) as [s|]; [|done]. destruct (_ <? _); simpl; [done|].
    f_equal. case_bool_decide as Ht.
    + subst. by apply constant_time_eq_spec.
    + apply not_true_iff_false. rewrite constant_time_eq_spec. by intros E%as_bytes_inj.
  - unfold extract_require_admin. destruct ext as [u|]; simpl; [|done].
    destruct (decide (su_role u = Admin)); [by rewrite bool_decide_true|by rewrite bool_decide_false].
  - intros s. unfold Role_parse, Role_as_str. rewrite <- !str_eqb_eq.
    destruct (str_eqb s (lit "admin")); [naive_solver|]. destruct (str_eqb s (lit "user")); naive_solver.
  - by intros [].
Qed.
End Sessions.

(** Hashing for the witnesses. *)
Definition plain_session_hash : SessionHash := {| hash_session_id u := [u] |}.
Lemma plain_session_hash_inj : Inj (=) (=) (@hash_session_id plain_session_hash).
Proof. intros u v E. by injection E. Qed.

Definition sample_session_ops : list SessionOp :=
  [SCreate true 7 8 1 100 50; SCreate true 9 10 2 100 50; SDeleteAll 2; SGet 7 120].

Lemma sample_session_printable : Forall printable_op sample_session_ops.
Proof. repeat constructor; simpl; unfold max_instant; lia. Qed.

Lemma session_lifetime_witness :
  let db := fold_left (@session_step char_clock char_uuid plain_session_hash) sample_session_ops ∅ in
  (@get char_clock char_uuid plain_session_hash db 7 150).1 =
    Ok (mkSession 7 1 (lit "myc2-csrf-" ++ [8%N]) 150) /\
  (@get char_clock char_uuid plain_session_hash db 9 120).1 = Err SNotFound.
Proof.
  intros db.
  pose proof (@session_lifetime char_clock char_uuid plain_session_hash sample_session_ops 7 150
    plain_session_hash_inj sample_session_printable ltac:(unfold printable, max_instant; lia)) as H1.
  pose proof (@session_lifetime char_clock char_uuid plain_session_hash sample_session_ops 9 120
    plain_session_hash_inj sample_session_printable ltac:(unfold printable, max_instant; lia)) as H2.
  split; [etrans; [exact (f_equal fst H1)|]|etrans; [exact (f_equal fst H2)|]]; by vm_compute.
Defined.

Lemma csrf_and_roles_witness :
  let db := fold_left (@session_step char_clock char_uuid plain_session_hash) sample_session_ops ∅ in
  (@verify_csrf char_clock char_uuid plain_session_hash db 7 120 (lit "guess")).1 = Ok false.
Proof.
  intros db.
  destruct (@csrf_and_roles char_clock char_uuid plain_session_hash sample_session_ops 7 120 (lit "guess") None
    plain_session_hash_inj sample_session_printable ltac:(unfold printable, max_instant; lia)) as (H & _).
  etrans; [exact H|]. by vm_compute.
Defined.
