(* ===== verification/ApiKey.v ===== *)
(** * API keys

    [crates/mycelium-auth/src/api_key.rs]: opaque bearer tokens, hashed at
    rest.  The [api_keys] table is an explicit map from the textual id to
    the row; SHA-256, hexadecimal encoding and randomness are parameters;
    I/O failures of the database are not modelled. *)
From S2P Require Import Prelude Text Clock.
Open Scope Z_scope.

Inductive ApiKeyError := KDb | KNotFound.

Record ApiKeyRecord := mkKey {
  k_id : Uuid; k_user_id : Uuid; k_label : str; k_created_at : Z;
  k_last_used_at : option Z; k_revoked_at : option Z }.

Record MintedKey := mkMinted { m_record : ApiKeyRecord; m_token : str }.

Record ApiKeyRow := mkKeyRow {
  kr_user_id : str; kr_key_hash : str; kr_label : str; kr_created_at : str;
  kr_last_used_at : option str; kr_revoked_at : option str }.
Abbreviation ApiKeys := (gmap str ApiKeyRow) (only parsing).

(** The hexadecimal SHA-256 of a token. *)
Class TokenHash := { hash_token : str -> str }.

Section Keys.
Context {RF : Rfc3339} {UT : UuidText} {HX : Hex} {TH : TokenHash}.

(** [mint]: [raw] are the 16 random bytes, [id] the fresh UUID, [known]
    whether the user exists (the foreign key). *)
Definition mint (db : ApiKeys) (known : bool) (raw : bytes) (id user_id : Uuid) (label : str) (now : Z)
    : result MintedKey ApiKeyError * ApiKeys :=
  let token := lit "myc2-" ++ hex_encode raw in
  let hash := hash_token token in
  let id_s := uuid_to_string id in
  if known && bool_decide (db !! id_s = None) &&
     forallb (fun kv => negb (str_eqb (kr_key_hash kv.2) hash)) (map_to_list db)
  then
    (Ok (mkMinted (mkKey id user_id label now None None) token),
     <[id_s := mkKeyRow (uuid_to_string user_id) hash label (to_rfc3339 now) None None]> db)
  else (Err KDb, db).

(** [parse_from_rfc3339(..).ok()] on an optional column. *)
Definition parse_opt (o : option str) : option Z := s ← o; parse_from_rfc3339 s.

Definition verify (db : ApiKeys) (token : str) (now : Z) : result ApiKeyRecord ApiKeyError * ApiKeys :=
  let hash := hash_token token in
  match find_first (fun kv => str_eqb (kr_key_hash kv.2) hash) (map_to_list db) with
  | None => (Err KNotFound, db)
  | Some (id_s, row) =>
      match kr_revoked_at row with
      | Some _ => (Err KNotFound, db)
      | None =>
          let db := alter (fun r => mkKeyRow (kr_user_id r) (kr_key_hash r) (kr_label r)
                      (kr_created_at r) (Some (to_rfc3339 now)) (kr_revoked_at r)) id_s db in
          ((let? id := ok_or KNotFound (uuid_parse_str id_s) in
            let? user := ok_or KNotFound (uuid_parse_str (kr_user_id row)) in
            let? created := ok_or KNotFound (parse_from_rfc3339 (kr_created_at row)) in
            Ok (mkKey id user (kr_label row) created (parse_opt (kr_last_used_at row)) None))%rust, db)
      end
  end.

Definition revoke (db : ApiKeys) (key_id : Uuid) (now : Z) : ApiKeys :=
  alter (fun r => mkKeyRow (kr_user_id r) (kr_key_hash r) (kr_label r) (kr_created_at r)
                    (kr_last_used_at r)
                    (match kr_revoked_at r with Some t => Some t | None => Some (to_rfc3339 now) end))
    (uuid_to_string key_id) db.

Definition record_of (kv : str * ApiKeyRow) : result ApiKeyRecord ApiKeyError :=
  let '(id_s, row) := kv in
  (let? id := ok_or KNotFound (uuid_parse_str id_s) in
   let? user := ok_or KNotFound (uuid_parse_str (kr_user_id row)) in
   let? created := ok_or KNotFound (parse_from_rfc3339 (kr_created_at row)) in
   Ok (mkKey id user (kr_label row) created (parse_opt (kr_last_used_at row))
         (parse_opt (kr_revoked_at row))))%rust.

(** [collect::<Result<Vec<_>, _>>()] *)
Fixpoint collect {A E} (l : list (result A E)) : result (list A) E :=
  match l with
  | [] => Ok []
  | x :: l => (let? a := x in let? r := collect l in Ok (a :: r))%rust
  end.

Definition list_for_user (db : ApiKeys) (user_id : Uuid) : result (list ApiKeyRecord) ApiKeyError :=
  let rows := retain (fun kv => str_eqb (kr_user_id kv.2) (uuid_to_string user_id)) (map_to_list db) in
  let rows := sort_by (fun a b => str_cmp (kr_created_at a.2) (kr_created_at b.2)) rows in
  collect (record_of <$> rows).

(** ** The abstract store: records by id, with the token in clear *)
Abbreviation Spec := (gmap Uuid (str * ApiKeyRecord)) (only parsing).

Definition token_free (sp : Spec) (token : str) : Prop := forall id k, sp !! id = Some k -> k.1 <> token.

Definition row_of_key (k : str * ApiKeyRecord) : ApiKeyRow :=
  mkKeyRow (uuid_to_string (k_user_id k.2)) (hash_token k.1) (k_label k.2)
    (to_rfc3339 (k_created_at k.2)) (to_rfc3339 <$> k_last_used_at k.2)
    (to_rfc3339 <$> k_revoked_at k.2).

(** The table holds the abstract store, hashed and printed. *)
Record refines (db : ApiKeys) (sp : Spec) : Prop := {
  ref_rows id : db !! uuid_to_string id = row_of_key <$> sp !! id;
  ref_ids s row : db !! s = Some row -> exists id, s = uuid_to_string id;
  ref_id id k : sp !! id = Some k -> k_id k.2 = id;
  ref_tokens id1 id2 k1 k2 : sp !! id1 = Some k1 -> sp !! id2 = Some k2 -> k1.1 = k2.1 -> id1 = id2;
  ref_times id k : sp !! id = Some k -> printable (k_created_at k.2) /\
    (forall t, k_last_used_at k.2 = Some t -> printable t) /\
    (forall t, k_revoked_at k.2 = Some t -> printable t) }.

Lemma refines_empty : refines ∅ ∅.
Proof. by split; intros *; rewrite ?lookup_empty. Qed.

(** Finding a token's row by its hash finds the key of that token. *)
Lemma find_token db sp token :
  Inj (=) (=) hash_token -> refines db sp ->
  match find_first (fun kv => str_eqb (kr_key_hash kv.2) (hash_token token)) (map_to_list db) with
  | Some (id_s, row) => exists id k, id_s = uuid_to_string id /\ sp !! id = Some (token, k) /\
      row = row_of_key (token, k)
  | None => token_free sp token
  end.
Proof.
  intros Hinj HR. destruct (find_first _ _) as [[id_s row]|] eqn:Hf.
  - apply find_first_Some in Hf as [Hin Hh]. apply elem_of_map_to_list in Hin.
    apply str_eqb_eq in Hh. destruct (ref_ids _ _ HR _ _ Hin) as [id ->].
    rewrite (ref_rows _ _ HR) in Hin. destruct (sp !! id) as [[tok k]|] eqn:Hk; [|done].
    simpl in Hin. injection Hin as <-. simpl in Hh. apply Hinj in Hh as ->. by exists id, k.
  - intros id [tok k] Hk. simpl. intros ->.
    assert (Hin : (uuid_to_string id, row_of_key (token, k)) ∈ map_to_list db).
    { apply elem_of_map_to_list. by rewrite (ref_rows _ _ HR), Hk. }
    pose proof (find_first_None _ _ _ Hf Hin) as Hn. simpl in Hn.
    by rewrite (proj2 (str_eqb_eq _ _) eq_refl) in Hn.
Qed.

(** The abstract operations. *)
Definition spec_mint (sp : Spec) (known : bool) (token : str) (id user_id : Uuid) (label : str) (now : Z)
    : result MintedKey ApiKeyError * Spec :=
  if known && bool_decide (sp !! id = None) &&
     forallb (fun kv => negb (str_eqb kv.2.1 token)) (map_to_list sp)
  then let k := mkKey id user_id label now None None in
       (Ok (mkMinted k token), <[id := (token, k)]> sp)
  else (Err KDb, sp).

Definition spec_verify (sp : Spec) (token : str) (now : Z) : result ApiKeyRecord ApiKeyError * Spec :=
  match find_first (fun kv => str_eqb kv.2.1 token) (map_to_list sp) with
  | Some (id, (_, k)) =>
      match k_revoked_at k with
      | Some _ => (Err KNotFound, sp)
      | None => (Ok k, <[id := (token, mkKey id (k_user_id k) (k_label k) (k_created_at k) (Some now)
                                  None)]> sp)
      end
  | None => (Err KNotFound, sp)
  end.

Definition spec_revoke (sp : Spec) (id : Uuid) (now : Z) : Spec :=
  alter (fun k => (k.1, mkKey (k_id k.2) (k_user_id k.2) (k_label k.2) (k_created_at k.2)
                          (k_last_used_at k.2)
                          (match k_revoked_at k.2 with Some t => Some t | None => Some now end))) id sp.

(** Replacing one key by another of the same token keeps the relation. *)
Lemma refines_insert db sp id k :
  refines db sp -> k_id k.2 = id ->
  (forall id' k', sp !! id' = Some k' -> k'.1 = k.1 -> id' = id) ->
  printable (k_created_at k.2) ->
  (forall t, k_last_used_at k.2 = Some t -> printable t) ->
  (forall t, k_revoked_at k.2 = Some t -> printable t) ->
  refines (<[uuid_to_string id := row_of_key k]> db) (<[id := k]> sp).
Proof.
  intros HR Hid Htok Hc Hl Hr. split.
  - intros id'. destruct (decide (id = id')) as [<-|Hne]; [by rewrite !lookup_insert_eq|].
    rewrite !lookup_insert_ne; [apply (ref_rows _ _ HR)|done|by intros E%uuid_to_string_inj].
  - intros s row. destruct (decide (uuid_to_string id = s)) as [<-|Hne]; [by exists id|].
    rewrite lookup_insert_ne by done. apply (ref_ids _ _ HR).
  - intros id' k'. destruct (decide (id = id')) as [<-|Hne].
    + rewrite lookup_insert_eq. by intros [= <-].
    + rewrite lookup_insert_ne by done. apply (ref_id _ _ HR).
  - intros id1 id2 k1 k2. destruct (decide (id = id1)) as [<-|H1], (decide (id = id2)) as [<-|H2];
      rewrite ?lookup_insert_eq, ?lookup_insert_ne by done; try done.
    + intros [= <-] H E. symmetry. by eapply Htok.
    + intros H [= <-] E. by eapply Htok.
    + apply (ref_tokens _ _ HR).
  - intros id' k'. destruct (decide (id = id')) as [<-|Hne].
    + rewrite lookup_insert_eq. by intros [= <-].
    + rewrite lookup_insert_ne by done. apply (ref_times _ _ HR).
Qed.

Lemma spec_find db sp token :
  refines db sp ->
  match find_first (fun kv => str_eqb kv.2.1 token) (map_to_list sp) with
  | Some (id, (tok, k)) => sp !! id = Some (token, k) /\ tok = token
  | None => token_free sp token
  end.
Proof.
  intros HR. destruct (find_first _ _) as [[id [tok k]]|] eqn:Hf.
  - apply find_first_Some in Hf as [Hin Ht]. apply elem_of_map_to_list in Hin. simpl in Ht.
    by apply str_eqb_eq in Ht as ->.
  - intros id k Hk E. apply elem_of_map_to_list in Hk. pose proof (find_first_None _ _ _ Hf Hk) as Hn.
    simpl in Hn. by rewrite (proj2 (str_eqb_eq _ _) E) in Hn.
Qed.

Lemma forallb_negb {A} (f : A -> bool) l :
  forallb (fun x => negb (f x)) l = match find_first f l with Some _ => false | None => true end.
Proof. induction l as [|x l IH]; [done|]. simpl. by destruct (f x). Qed.

Lemma free_cond db sp token :
  Inj (=) (=) hash_token -> refines db sp ->
  forallb (fun kv => negb (str_eqb (kr_key_hash kv.2) (hash_token token))) (map_to_list db) =
  forallb (fun kv => negb (str_eqb kv.2.1 token)) (map_to_list sp).
Proof.
  intros Hinj HR.
  rewrite (forallb_negb (fun kv : str * ApiKeyRow => str_eqb (kr_key_hash kv.2) (hash_token token))).
  rewrite (forallb_negb (fun kv : Uuid * (str * ApiKeyRecord) => str_eqb kv.2.1 token)).
  pose proof (find_token db sp token Hinj HR) as H1. pose proof (spec_find db sp token HR) as H2.
  destruct (find_first _ (map_to_list db)) as [[id_s row]|], (find_first _ (map_to_list sp)) as [[id [tok k]]|];
    try done.
  - destruct H1 as (id & k & _ & Hk & _). by destruct (H2 id (token, k)).
  - destruct H2 as [Hk _]. by destruct (H1 id (token, k)).
Qed.

Lemma mint_refines db sp known raw id user label now :
  Inj (=) (=) hash_token -> printable now -> refines db sp ->
  let token := lit "myc2-" ++ hex_encode raw in
  (mint db known raw id user label now).1 = (spec_mint sp known token id user label now).1 /\
  refines (mint db known raw id user label now).2 (spec_mint sp known token id user label now).2.
Proof.
  intros Hinj Hn HR token. unfold mint, spec_mint. fold token.
  rewrite (free_cond db sp token Hinj HR).
  assert (Hb : bool_decide (db !! uuid_to_string id = None) = bool_decide (sp !! id = None)).
  { apply bool_decide_ext. by rewrite (ref_rows _ _ HR), fmap_None. }
  rewrite Hb. destruct (known && bool_decide (sp !! id = None)); simpl; [|done].
  rewrite (forallb_negb (fun kv : Uuid * (str * ApiKeyRecord) => str_eqb kv.2.1 token)).
  pose proof (spec_find db sp token HR) as H2.
  destruct (find_first _ (map_to_list sp)) as [[i [tok k]]|]; simpl; [done|]. split; [done|].
  apply (refines_insert db sp id (token, mkKey id user label now None None)); try done.
  intros id' k' Hk' Ht. by destruct (H2 id' k' Hk').
Qed.

Lemma parse_times k :
  (forall t, k_last_used_at k = Some t -> printable t) ->
  parse_opt (to_rfc3339 <$> k_last_used_at k) = k_last_used_at k.
Proof.
  unfold parse_opt. destruct (k_last_used_at k) as [t|]; [|done]. simpl. intros H.
  by rewrite rfc3339_roundtrip by by apply H.
Qed.

Lemma verify_refines db sp token now :
  Inj (=) (=) hash_token -> printable now -> refines db sp ->
  (verify db token now).1 = (spec_verify sp token now).1 /\
  refines (verify db token now).2 (spec_verify sp token now).2.
Proof.
  intros Hinj Hn HR. unfold verify, spec_verify.
  pose proof (find_token db sp token Hinj HR) as H1. pose proof (spec_find db sp token HR) as H2.
  destruct (find_first _ (map_to_list db)) as [[id_s row]|], (find_first _ (map_to_list sp)) as [[id [tok k]]|].
  - destruct H1 as (id1 & k1 & -> & Hk1 & ->), H2 as [Hk ->].
    assert (id1 = id) as -> by by eapply (ref_tokens _ _ HR). rewrite Hk in Hk1. injection Hk1 as <-.
    destruct (ref_times _ _ HR _ _ Hk) as (Hc & Hl & Hr). pose proof (ref_id _ _ HR _ _ Hk) as Hid.
    simpl in Hc, Hl, Hr, Hid. simpl kr_revoked_at.
    destruct (k_revoked_at k) as [t|] eqn:Hrev; simpl; [done|]. split.
    + rewrite uuid_roundtrip, uuid_roundtrip, rfc3339_roundtrip by done. simpl.
      rewrite parse_times by done. by destruct k; simpl in *; subst.
    + set (k' := (token, mkKey id (k_user_id k) (k_label k) (k_created_at k) (Some now) None)).
      assert (Halt : forall f, f (row_of_key (token, k)) = row_of_key k' ->
        alter f (uuid_to_string id) db = <[uuid_to_string id := row_of_key k']> db).
      { intros f Hf. rewrite alter_insert_map. rewrite (ref_rows _ _ HR), Hk. simpl. by rewrite Hf. }
      rewrite Halt.
      2:{ unfold row_of_key, k'. simpl. by rewrite Hrev. }
      apply refines_insert; try done.
      * intros id' k2 Hk2 Ht. by eapply (ref_tokens _ _ HR).
      * intros t. simpl. by intros [= <-].
  - destruct H1 as (id1 & k1 & _ & Hk1 & _). by destruct (H2 id1 (token, k1)).
  - destruct H2 as [Hk _]. by destruct (H1 id (token, k)).
  - done.
Qed.

Lemma revoke_refines db sp id now :
  printable now -> refines db sp -> refines (revoke db id now) (spec_revoke sp id now).
Proof.
  intros Hn HR. unfold revoke, spec_revoke. destruct (sp !! id) as [[tok k]|] eqn:Hk.
  - destruct (ref_times _ _ HR _ _ Hk) as (Hc & Hl & Hr). pose proof (ref_id _ _ HR _ _ Hk) as Hid.
    simpl in *. rewrite !alter_insert_map, (ref_rows _ _ HR), Hk. simpl.
    set (k' := (tok, mkKey (k_id k) (k_user_id k) (k_label k) (k_created_at k) (k_last_used_at k)
      (match k_revoked_at k with Some t => Some t | None => Some now end))).
    replace (mkKeyRow _ _ _ _ _ _) with (row_of_key k')
      by (unfold row_of_key, k'; simpl; by destruct (k_revoked_at k)).
    apply refines_insert; try done.
    + intros id' k2 Hk2 Ht. by eapply (ref_tokens _ _ HR).
    + simpl. intros t. destruct (k_revoked_at k); [by apply Hr|by intros [= <-]].
  - rewrite !alter_insert_map, (ref_rows _ _ HR), Hk. done.
Qed.

Lemma record_of_spec db sp id k tok :
  refines db sp -> sp !! id = Some (tok, k) ->
  record_of (uuid_to_string id, row_of_key (tok, k)) = Ok k.
Proof.
  intros HR Hk. destruct (ref_times _ _ HR _ _ Hk) as (Hc & Hl & Hr).
  pose proof (ref_id _ _ HR _ _ Hk) as Hid. simpl in *. unfold record_of. simpl.
  rewrite !uuid_roundtrip, rfc3339_roundtrip by done. simpl. rewrite parse_times by done.
  assert (parse_opt (to_rfc3339 <$> k_revoked_at k) = k_revoked_at k) as ->.
  { unfold parse_opt. destruct (k_revoked_at k) as [t|]; [|done]. simpl.
    by rewrite rfc3339_roundtrip by by apply Hr. }
  destruct k; simpl in *. by subst.
Qed.

Lemma collect_Ok {A E} (l : list (result A E)) (xs : list A) : collect l = Ok xs <-> l = Ok <$> xs.
Proof.
  revert xs. induction l as [|[a|e] l IH]; intros xs; simpl.
  - destruct xs; split; by intros [=].
  - destruct (collect l) as [r|e]; simpl.
    + split; [intros [= <-]; simpl; f_equal; by apply IH|].
      destruct xs as [|x xs]; [done|]. simpl. intros [= -> Hl]. f_equal. f_equal.
      apply IH in Hl. by injection Hl.
    + split; [done|]. destruct xs as [|x xs]; [done|]. simpl. intros [= -> Hl]. by apply IH in Hl.
  - split; [done|]. by destruct xs.
Qed.

(** The rows of a user's keys, and the records they hold. *)
Definition holds_key (sp : Spec) (user : Uuid) (x : str * ApiKeyRow) (k : ApiKeyRecord) : Prop :=
  exists tok, sp !! k_id k = Some (tok, k) /\ x = (uuid_to_string (k_id k), row_of_key (tok, k)) /\ k_user_id k = user.

Lemma user_row db sp user s row :
  refines db sp -> db !! s = Some row -> kr_user_id row = uuid_to_string user ->
  exists k, holds_key sp user (s, row) k.
Proof.
  intros HR Hin Hu. destruct (ref_ids _ _ HR _ _ Hin) as [id ->].
  rewrite (ref_rows _ _ HR) in Hin. destruct (sp !! id) as [[tok k]|] eqn:Hk; [|done].
  simpl in Hin. injection Hin as <-. pose proof (ref_id _ _ HR _ _ Hk) as Hid. simpl in Hid. subst id.
  exists k, tok. split_and!; [done|done|]. by apply uuid_to_string_inj.
Qed.

Lemma collect_rows db sp user rows :
  refines db sp -> Forall (fun x => exists k, holds_key sp user x k) rows ->
  exists ks, collect (record_of <$> rows) = Ok ks /\ Forall2 (holds_key sp user) rows ks.
Proof.
  intros HR. induction 1 as [|x l (k & tok & Hk & -> & Hu) _ (ks & IH1 & IH2)]; [by exists []|].
  exists (k :: ks). split; [|constructor; [by exists tok|done]].
  apply collect_Ok. apply collect_Ok in IH1. rewrite !fmap_cons, IH1. f_equal. by eapply record_of_spec.
Qed.

Definition row_order (a b : str * ApiKeyRow) : comparison := str_cmp (kr_created_at a.2) (kr_created_at b.2).

(** The order of the rows' texts is the order of the creation times. *)
Lemma rows_sorted db sp user rows ks :
  refines db sp -> Forall2 (holds_key sp user) rows ks -> StronglySorted (ordered row_order) rows ->
  StronglySorted (fun a b => k_created_at a <= k_created_at b) ks.
Proof.
  intros HR Hf Hs. revert ks Hf. induction Hs as [|x l _ IH Hx]; intros ks Hf.
  - inversion Hf. constructor.
  - inversion Hf as [|? k ? ks' (tok & Hk & -> & _) Hf']; subst. constructor; [by apply IH|].
    rewrite Forall_forall. intros k2 Hin. apply list_elem_of_lookup in Hin as [i Hi].
    destruct (Forall2_lookup_r _ _ _ _ _ Hf' Hi) as (y & Hy & tok2 & Hk2 & -> & _).
    rewrite Forall_forall in Hx. specialize (Hx _ (list_elem_of_lookup_2 _ _ _ Hy)).
    unfold ordered, row_order in Hx. simpl in Hx.
    destruct (ref_times _ _ HR _ _ Hk) as (Hc & _), (ref_times _ _ HR _ _ Hk2) as (Hc2 & _).
    rewrite rfc3339_order in Hx by done. by apply Z.compare_le_iff in Hx.
Qed.

(** Listing never fails, and lists exactly the user's keys, in the order of
    their creation. *)
Lemma list_refines db sp user :
  refines db sp ->
  exists ks, list_for_user db user = Ok ks /\
    (forall k, k ∈ ks <-> k_user_id k = user /\ exists tok, sp !! k_id k = Some (tok, k)) /\
    StronglySorted (fun a b => k_created_at a <= k_created_at b) ks.
Proof.
  intros HR. unfold list_for_user. fold row_order.
  set (rows := sort_by row_order (retain _ (map_to_list db))).
  assert (Hmem : forall x, x ∈ rows <-> db !! x.1 = Some x.2 /\ kr_user_id x.2 = uuid_to_string user).
  { intros [s row]. unfold rows. rewrite sort_by_perm, list_elem_of_In, filter_In, <- list_elem_of_In, elem_of_map_to_list.
    by rewrite str_eqb_eq. }
  assert (Hsorted : StronglySorted (ordered row_order) rows).
  { apply (sort_by_sorted _ (fun _ => True)); [|by apply Forall_true].
    split; unfold ordered, row_order; intros.
    - by apply (total_cmp _ _ (str_cmp_total (fun _ => True))).
    - by eapply (trans_cmp _ _ (str_cmp_total (fun _ => True))). }
  destruct (collect_rows db sp user rows HR) as (ks & Hc & Hf).
  { apply Forall_forall. intros [s row] [Hin Hu]%Hmem. by eapply user_row. }
  exists ks. split_and!; [done| |by eapply rows_sorted]. intros k. split.
  - intros Hin. apply list_elem_of_lookup in Hin as [i Hi].
    destruct (Forall2_lookup_r _ _ _ _ _ Hf Hi) as (x & _ & tok & Hk & _ & Hu). split; [done|]. by exists tok.
  - intros (Hu & tok & Hk).
    assert (Hin : (uuid_to_string (k_id k), row_of_key (tok, k)) ∈ rows).
    { apply Hmem. simpl. rewrite (ref_rows _ _ HR), Hk. by rewrite <- Hu. }
    apply list_elem_of_lookup in Hin as [i Hi].
    destruct (Forall2_lookup_l _ _ _ _ _ Hf Hi) as (k' & Hi' & tok' & Hk' & [= Hid _] & _).
    apply uuid_to_string_inj in Hid. rewrite <- Hid, Hk in Hk'. injection Hk' as _ <-.
    by eapply list_elem_of_lookup_2.
Qed.

(** The key table implements the abstract key store, whose records
    are kept by id with the token in clear: starting from related states
    every operation gives the same answer and related states.  So a token
    is accepted if and only if it was minted and not revoked, as the user
    and label it was minted for; a verification records the time of use and
    nothing else; revoking is idempotent and final; listing never fails and
    gives exactly the user's keys by creation time; and the table itself
    holds no token, only hashes.  (Token hashing is collision-free, instants
    printable.) *)
Theorem api_keys_refine db sp known raw id user label now token :
  Inj (=) (=) hash_token -> printable now -> refines db sp ->
  let minted := lit "myc2-" ++ hex_encode raw in
  ((mint db known raw id user label now).1 = (spec_mint sp known minted id user label now).1 /\
   refines (mint db known raw id user label now).2 (spec_mint sp known minted id user label now).2) /\
  ((verify db token now).1 = (spec_verify sp token now).1 /\
   refines (verify db token now).2 (spec_verify sp token now).2) /\
  refines (revoke db id now) (spec_revoke sp id now) /\
  exists ks, list_for_user db user = Ok ks /\
    (forall k, k ∈ ks <-> k_user_id k = user /\ exists tok, sp !! k_id k = Some (tok, k)) /\
    StronglySorted (fun a b => k_created_at a <= k_created_at b) ks.
Proof.
  intros Hinj Hn HR minted. split_and!.
  - by apply mint_refines.
  - by apply mint_refines.
  - by apply verify_refines.
  - by apply verify_refines.
  - by apply revoke_refines.
  - by apply list_refines.
Qed.
End Keys.

Definition plain_token_hash : TokenHash := {| hash_token s := s |}.

Lemma api_keys_refine_witness :
  let M := @mint char_clock char_uuid wide_hex plain_token_hash ∅ true [1; 2]%N 5 6 (lit "ci") 10 in
  let token := lit "myc2-" ++ wide_encode [1; 2]%N in
  @refines char_clock char_uuid plain_token_hash M.2 (spec_mint ∅ true token 5 6 (lit "ci") 10).2 /\
  (@verify char_clock char_uuid plain_token_hash M.2 token 20).1 = Ok (mkKey 5 6 (lit "ci") 10 None None) /\
  (@verify char_clock char_uuid plain_token_hash
     (@revoke char_clock char_uuid M.2 5 15) token 20).1 = Err KNotFound.
Proof.
  intros M token.
  assert (Hinj : Inj (=) (=) (@hash_token plain_token_hash)) by (by intros x y E).
  destruct (@api_keys_refine char_clock char_uuid wide_hex plain_token_hash ∅ ∅ true [1; 2]%N 5%N 6%N (lit "ci") 10
    token Hinj ltac:(unfold printable, max_instant; lia) refines_empty) as ((_ & H) & _).
  split; [exact H|]. split; vm_compute; reflexivity.
Defined.
