(* ===== verification/Crypto.v ===== *)
(** * Keys, seals and envelopes

    [crates/mycelium-crypto]: the envelope format (envelope.rs, aead.rs),
    key derivation (keys.rs, store_keys.rs, chat_keys.rs), the sealed master
    key (seal.rs), file encryption (file.rs) and the service key
    (service.rs).  The primitives (AES-256-GCM, HKDF, HMAC, Argon2id,
    hexadecimal) and randomness are parameters; error messages taken from
    libraries are dropped. *)
From S2P Require Import Prelude Text Clock.
Open Scope Z_scope.

(** ** The primitives *)

(** AES-256-GCM as [ring] offers it: sealing can fail (on oversized input),
    what was sealed opens, and the tag has sixteen bytes. *)
Class Aead := {
  gcm_seal (key nonce aad plain : bytes) : option bytes;
  gcm_open (key nonce aad cipher : bytes) : option bytes;
  gcm_roundtrip k n a p c : gcm_seal k n a p = Some c -> gcm_open k n a c = Some p;
  gcm_length k n a p c : gcm_seal k n a p = Some c -> length c = (length p + 16)%nat }.

(** HKDF-SHA256 expanded to 32 bytes, HMAC-SHA256, and Argon2id with a
    32-byte output. *)
Class Kdf := {
  hkdf_expand (key info : bytes) : bytes;
  hmac_sha256 (key message : bytes) : bytes;
  argon2id (password salt : bytes) : option bytes;
  hkdf_length k i : length (hkdf_expand k i) = 32%nat;
  argon2id_length p s k : argon2id p s = Some k -> length k = 32%nat }.

(** The idealised strength of the primitives, which the security statements
    assume: a ciphertext opens only under the key and associated data it was
    sealed with, and derived keys do not collide. *)
Record strong `{Aead, Kdf} : Prop := {
  gcm_authentic k n a p c k' n' a' p' :
    gcm_seal k n a p = Some c -> gcm_open k' n' a' c = Some p' -> k' = k /\ a' = a /\ p' = p;
  hkdf_inj k i k' i' : hkdf_expand k i = hkdf_expand k' i' -> k = k' /\ i = i';
  argon2id_inj p s p' s' k : argon2id p s = Some k -> argon2id p' s' = Some k -> p = p' }.

(** ** Errors *)
Inductive KeyError := Argon2Failed | InvalidLength (expected got : nat) | InvalidRecoveryKey | InvalidPath (path : str).
Inductive SealError := UnsealFailed | UnsupportedSeal (version : Z) | BadHex.
Inductive EnvelopeError := TooShort (len : nat) | BadMagic | UnsupportedVersion (version : N).
Inductive CryptoError :=
  | CKey (e : KeyError) | CSeal (e : SealError) | CEnvelope (e : EnvelopeError) | CEncrypt | CDecrypt.

(** ** Envelopes *)
Definition ENVELOPE_MAGIC : bytes := lit "MYC2".
Definition ENVELOPE_VERSION : N := 1.
Definition NONCE_LEN : nat := 12.
Definition TAG_LEN : nat := 16.
Definition HEADER_LEN : nat := length ENVELOPE_MAGIC + 1 + NONCE_LEN.
Definition EMPTY_ENVELOPE_LEN : nat := HEADER_LEN + TAG_LEN.

Record Envelope := mkEnvelope { e_version : N; e_nonce : bytes; e_ciphertext : bytes }.

Definition to_bytes (e : Envelope) : bytes :=
  ENVELOPE_MAGIC ++ [e_version e] ++ e_nonce e ++ e_ciphertext e.

Definition from_bytes (b : bytes) : result Envelope CryptoError :=
  if (length b <? HEADER_LEN + TAG_LEN)%nat then Err (CEnvelope (TooShort (length b)))
  else if negb (str_eqb (take (length ENVELOPE_MAGIC) b) ENVELOPE_MAGIC) then Err (CEnvelope BadMagic)
  else
    let version := nth (length ENVELOPE_MAGIC) b 0%N in
    if negb (version =? ENVELOPE_VERSION)%N then Err (CEnvelope (UnsupportedVersion version))
    else Ok (mkEnvelope version (take NONCE_LEN (drop (length ENVELOPE_MAGIC + 1) b)) (drop HEADER_LEN b)).

(** ** Keys: one type per role *)
Record Kek := mkKek { kek : bytes }.
Record MasterKey := mkMaster { master : bytes }.
Record Dek := mkDek { dek : bytes }.
Record RecoveryKey := mkRecovery { recovery : bytes }.
Record ServiceKey := mkService { service : bytes }.

#[export] Instance MasterKey_eq_dec : EqDecision MasterKey.
Proof. solve_decision. Defined.
#[export] Instance ServiceKey_eq_dec : EqDecision ServiceKey.
Proof. solve_decision. Defined.

Definition SALT_LEN : nat := 16.
Definition RECOVERY_KEY_LEN : nat := 32.

(** [from_bytes] of every key type *)
Definition key_from_bytes {K} (mk : bytes -> K) (b : bytes) : result K KeyError :=
  if (length b =? 32)%nat then Ok (mk b) else Err (InvalidLength 32 (length b)).

Section Crypto.
Context {AE : Aead} {KD : Kdf} {HX : Hex}.

(** [aead_seal] with the nonce it drew *)
Definition aead_seal (nonce plaintext aad : bytes) (key : Dek) : result bytes CryptoError :=
  (let? c := ok_or CEncrypt (gcm_seal (dek key) nonce aad plaintext) in
   Ok (to_bytes (mkEnvelope ENVELOPE_VERSION nonce c)))%rust.

Definition aead_open (envelope_bytes aad : bytes) (key : Dek) : result bytes CryptoError :=
  (let? e := from_bytes envelope_bytes in
   ok_or CDecrypt (gcm_open (dek key) (e_nonce e) aad (e_ciphertext e)))%rust.

Definition derive_kek (password : str) (salt : bytes) : result Kek KeyError :=
  if negb (length salt =? SALT_LEN)%nat then Err (InvalidLength SALT_LEN (length salt))
  else ok_or Argon2Failed (mkKek <$> argon2id (as_bytes password) salt).

Definition DEK_INFO : bytes := lit "mycelium2/dek/v1".

Definition derive_dek (master_key : MasterKey) (path : str) : result Dek KeyError :=
  if bool_decide (path = []) || negb (starts_with (lit "/") path) then Err (InvalidPath path)
  else Ok (mkDek (hkdf_expand (master master_key) (DEK_INFO ++ as_bytes path))).

Definition service_seal_dek (service_key : ServiceKey) : Dek :=
  mkDek (hkdf_expand (service service_key) (lit "mycelium2/service-seal-dek/v1")).

(** [generate_recovery_key] from its random bytes *)
Definition generate_recovery_key (raw : bytes) : str := lit "myc2-recovery-" ++ hex_encode raw.

Definition parse_recovery_key (key : str) : result RecoveryKey KeyError :=
  (let? hex_part := ok_or InvalidRecoveryKey (strip_prefix (lit "myc2-recovery-") key) in
   let? b := ok_or InvalidRecoveryKey (hex_decode hex_part) in
   if negb (length b =? RECOVERY_KEY_LEN)%nat then Err InvalidRecoveryKey else Ok (mkRecovery b))%rust.

(** ** Store, index and chat keys *)
Definition FILENAME_INFO : bytes := lit "mycelium2/filename/v1".
Definition META_DEK_INFO : bytes := lit "mycelium2/meta-dek/v1".
Definition INDEX_TOKEN_INFO : bytes := lit "mycelium2/index-token/v1".
Definition INDEX_DEK_INFO : bytes := lit "mycelium2/index-dek/v1".
Definition CHAT_DEK_INFO : bytes := lit "mycelium2/chat-dek/v1".

Definition derive_hmac_key (m : MasterKey) (info : bytes) : bytes := hkdf_expand (master m) info.
Definition derive_hmac_key_service (s : ServiceKey) (info : bytes) : bytes := hkdf_expand (service s) info.
Definition derive_dek_from (m : MasterKey) (info : bytes) : Dek := mkDek (hkdf_expand (master m) info).
Definition derive_service_dek (s : ServiceKey) (info : bytes) : Dek := mkDek (hkdf_expand (service s) info).

Record FileKeys := mkFileKeys { filename_key : bytes; meta_dek : Dek }.
Definition FileKeys_from_master_key (m : MasterKey) : FileKeys :=
  mkFileKeys (derive_hmac_key m FILENAME_INFO) (derive_dek_from m META_DEK_INFO).
Definition FileKeys_from_service_key (s : ServiceKey) : FileKeys :=
  mkFileKeys (derive_hmac_key_service s FILENAME_INFO) (derive_service_dek s META_DEK_INFO).
Definition stored_name (k : FileKeys) (canonical_path : str) : str :=
  hex_encode (hmac_sha256 (filename_key k) (as_bytes canonical_path)).

Record IndexKeys := mkIndexKeys { token_key : bytes; index_dek : Dek }.
Definition IndexKeys_from_master_key (m : MasterKey) : IndexKeys :=
  mkIndexKeys (derive_hmac_key m INDEX_TOKEN_INFO) (derive_dek_from m INDEX_DEK_INFO).
Definition IndexKeys_from_service_key (s : ServiceKey) : IndexKeys :=
  mkIndexKeys (derive_hmac_key_service s INDEX_TOKEN_INFO) (derive_service_dek s INDEX_DEK_INFO).
Definition index_token (k : IndexKeys) (term : str) : str := hex_encode (hmac_sha256 (token_key k) (as_bytes term)).

Definition ChatKeys_from_master_key (m : MasterKey) : Dek := derive_dek_from m CHAT_DEK_INFO.
Definition seal_chat (nonce plain : bytes) (aad : str) (key : Dek) : result bytes CryptoError :=
  aead_seal nonce plain (as_bytes aad) key.
Definition open_chat (sealed : bytes) (aad : str) (key : Dek) : result bytes CryptoError :=
  aead_open sealed (as_bytes aad) key.

(** ** Files *)
Definition encrypt_file (nonce plaintext : bytes) (path : str) (m : MasterKey) : result bytes CryptoError :=
  (let? key := result_map_err CKey (derive_dek m path) in
   aead_seal nonce plaintext (as_bytes path) key)%rust.

Definition decrypt_file (ciphertext : bytes) (path : str) (m : MasterKey) : result bytes CryptoError :=
  (let? key := result_map_err CKey (derive_dek m path) in
   aead_open ciphertext (as_bytes path) key)%rust.

(** ** The sealed master key *)
Definition SEALED_VERSION : Z := 1.
Definition PASSWORD_SEAL_AAD : bytes := lit "mycelium2/seal/password/v1".
Definition RECOVERY_SEAL_AAD : bytes := lit "mycelium2/seal/recovery/v1".

Record SealedMasterKey := mkSealed {
  sealed_version : Z; salt_hex : str; password_sealed_hex : str; recovery_sealed_hex : str }.

Definition wrap_as_dek (key : bytes) : Dek := mkDek key.

Definition seal_master_key (m : MasterKey) (password recovery_key : str) (salt nonce1 nonce2 : bytes)
    : result SealedMasterKey CryptoError :=
  (let? r := result_map_err CKey (parse_recovery_key recovery_key) in
   let? k := result_map_err CKey (derive_kek password salt) in
   let? password_sealed := aead_seal nonce1 (master m) PASSWORD_SEAL_AAD (wrap_as_dek (kek k)) in
   let? recovery_sealed := aead_seal nonce2 (master m) RECOVERY_SEAL_AAD (wrap_as_dek (recovery r)) in
   Ok (mkSealed SEALED_VERSION (hex_encode salt) (hex_encode password_sealed)
         (hex_encode recovery_sealed)))%rust.

Definition check_version (sealed : SealedMasterKey) : result unit CryptoError :=
  if negb (sealed_version sealed =? SEALED_VERSION) then Err (CSeal (UnsupportedSeal (sealed_version sealed))) else Ok tt.

Definition unseal_with_password (sealed : SealedMasterKey) (password : str) : result MasterKey CryptoError :=
  (let? _ := check_version sealed in
   let? salt := ok_or (CSeal BadHex) (hex_decode (salt_hex sealed)) in
   if negb (length salt =? SALT_LEN)%nat then Err (CSeal UnsealFailed) else
   let? k := result_map_err CKey (derive_kek password salt) in
   let? sealed_bytes := ok_or (CSeal BadHex) (hex_decode (password_sealed_hex sealed)) in
   let? m := aead_open sealed_bytes PASSWORD_SEAL_AAD (wrap_as_dek (kek k)) in
   result_map_err CKey (key_from_bytes mkMaster m))%rust.

Definition unseal_with_recovery (sealed : SealedMasterKey) (recovery_key : str) : result MasterKey CryptoError :=
  (let? _ := check_version sealed in
   let? r := result_map_err CKey (parse_recovery_key recovery_key) in
   let? sealed_bytes := ok_or (CSeal BadHex) (hex_decode (recovery_sealed_hex sealed)) in
   let? m := aead_open sealed_bytes RECOVERY_SEAL_AAD (wrap_as_dek (recovery r)) in
   result_map_err CKey (key_from_bytes mkMaster m))%rust.

Definition reseal_password (sealed : SealedMasterKey) (old_password new_password : str) (salt nonce : bytes)
    : result SealedMasterKey CryptoError :=
  (let? m := unseal_with_password sealed old_password in
   let? k := result_map_err CKey (derive_kek new_password salt) in
   let? password_sealed := aead_seal nonce (master m) PASSWORD_SEAL_AAD (wrap_as_dek (kek k)) in
   Ok (mkSealed SEALED_VERSION (hex_encode salt) (hex_encode password_sealed)
         (recovery_sealed_hex sealed)))%rust.

Definition rotate_recovery_key (sealed : SealedMasterKey) (password new_recovery_key : str) (nonce : bytes)
    : result SealedMasterKey CryptoError :=
  (let? r := result_map_err CKey (parse_recovery_key new_recovery_key) in
   let? m := unseal_with_password sealed password in
   let? recovery_sealed := aead_seal nonce (master m) RECOVERY_SEAL_AAD (wrap_as_dek (recovery r)) in
   Ok (mkSealed SEALED_VERSION (salt_hex sealed) (password_sealed_hex sealed)
         (hex_encode recovery_sealed)))%rust.

(** A sequence of account operations on one record: a failing one leaves it
    as it was. *)
Inductive SealOp :=
  | ChangePassword (old_password new_password : str) (salt nonce : bytes)
  | RotateRecovery (password new_recovery_key : str) (nonce : bytes).

Definition seal_op (sealed : SealedMasterKey) (o : SealOp) : result SealedMasterKey CryptoError :=
  match o with
  | ChangePassword old new salt nonce => reseal_password sealed old new salt nonce
  | RotateRecovery pw rk nonce => rotate_recovery_key sealed pw rk nonce
  end.
Definition seal_step (sealed : SealedMasterKey) (o : SealOp) : SealedMasterKey :=
  match seal_op sealed o with Ok s => s | Err _ => sealed end.

(** ** The service key *)
Inductive ServiceKeyError := Io | Malformed (path : str) | BadEnv | Absent (path : str).

Definition SERVICE_KEY_FILE : str := lit "config/service.key".

Definition parse_key_hex (hex_str : str) : option ServiceKey :=
  b ← hex_decode hex_str; result_ok (key_from_bytes mkService b).

(** What a process observes of the key file: whether it exists, the outcome
    of creating it, the result of its [i]-th read, and its mode.  Other
    processes may be writing. *)
Inductive CreateOutcome := Created | AlreadyExists | CreateFailed.
Record KeyFile := mkKeyFile {
  f_exists : bool; f_create_dir : bool; f_create : CreateOutcome; f_write : bool;
  f_read : nat -> option str; f_mode : option Z }.

Definition check_permissions (path : str) (f : KeyFile) : result unit ServiceKeyError :=
  (let? mode := ok_or Io (f_mode f) in
   if negb (Z.land mode 63 =? 0) then Err (Malformed path) else Ok tt)%rust.

(** The retry loop, [attempts] reads from the [i]-th on. *)
Fixpoint load_existing (attempts i : nat) (path : str) (f : KeyFile) : result ServiceKey ServiceKeyError :=
  match attempts with
  | O => Err (Malformed path)
  | S n =>
      match contents ← f_read f i; parse_key_hex (trim contents) with
      | Some key => (let? _ := check_permissions path f in Ok key)%rust
      | None => load_existing n (S i) path f
      end
  end.
Definition load_existing_key_with_retry : str -> KeyFile -> result ServiceKey ServiceKeyError :=
  load_existing 50 0.

(** [Path::join] of a relative file name *)
Definition join_path (dir file : str) : str :=
  if bool_decide (dir = []) || ends_with (lit "/") dir then dir ++ file else dir ++ lit "/" ++ file.

(** The second component is what was written to a newly created file, with
    its mode. *)
Definition load_or_create_service_key_with (data_dir : str) (env_hex : option str) (f : KeyFile)
    (fresh : MasterKey) : result ServiceKey ServiceKeyError * option (str * Z) :=
  match env_hex with
  | Some hex_str => (ok_or BadEnv (parse_key_hex hex_str), None)
  | None =>
      let path := join_path data_dir SERVICE_KEY_FILE in
      if f_exists f then (load_existing_key_with_retry path f, None)
      else if negb (f_create_dir f) then (Err Io, None)
      else match f_create f with
           | Created =>
               let contents := hex_encode (master fresh) ++ [nl] in
               if f_write f then (Ok (mkService (master fresh)), Some (contents, 384))
               else (Err Io, Some (contents, 384))
           | AlreadyExists => (load_existing_key_with_retry path f, None)
           | CreateFailed => (Err Io, None)
           end
  end.

Definition load_service_key_with (data_dir : str) (env_hex : option str) (f : KeyFile)
    : result ServiceKey ServiceKeyError :=
  match env_hex with
  | Some hex_str => ok_or BadEnv (parse_key_hex hex_str)
  | None =>
      let path := join_path data_dir SERVICE_KEY_FILE in
      if negb (f_exists f) then Err (Absent path) else load_existing_key_with_retry path f
  end.

(** ** Envelopes are parsed back, and nothing else parses *)
Definition well_formed (e : Envelope) : Prop :=
  e_version e = ENVELOPE_VERSION /\ length (e_nonce e) = NONCE_LEN /\ (TAG_LEN <= length (e_ciphertext e))%nat.

Lemma to_bytes_length e : length (e_nonce e) = NONCE_LEN ->
  length (to_bytes e) = (HEADER_LEN + length (e_ciphertext e))%nat.
Proof. intros H. unfold to_bytes. rewrite !length_app, H. done. Qed.

Lemma from_to_bytes e : well_formed e -> from_bytes (to_bytes e) = Ok e.
Proof.
  intros (Hv & Hn & Hc). unfold from_bytes. rewrite to_bytes_length by done.
  rewrite (proj2 (Nat.ltb_ge _ _)) by lia. unfold to_bytes. rewrite take_app_length.
  rewrite (proj2 (str_eqb_eq _ _) eq_refl), Hv. simpl negb. cbn [app ENVELOPE_MAGIC lit].
  change (nth (length ENVELOPE_MAGIC) _ _) with ENVELOPE_VERSION. simpl negb. cbv iota. f_equal.
  destruct e as [v n c]. simpl in *. subst v. f_equal.
  - change (drop (length ENVELOPE_MAGIC + 1) _) with (n ++ c). rewrite <- Hn. apply take_app_length.
  - change (drop NONCE_LEN (n ++ c) = c). rewrite <- Hn. apply drop_app_length.
Qed.

Lemma from_bytes_Ok b e : from_bytes b = Ok e -> well_formed e /\ b = to_bytes e.
Proof.
  unfold from_bytes. case_match eqn:Hlen; [done|]. apply Nat.ltb_ge in Hlen.
  case_match eqn:Hmagic; [done|]. case_match eqn:Hver; [done|]. intros [= <-].
  apply negb_false_iff, str_eqb_eq in Hmagic. apply negb_false_iff, N.eqb_eq in Hver.
  do 17 (destruct b as [|? b]; [simpl in Hlen; unfold TAG_LEN in Hlen; lia|]).
  vm_compute in Hmagic. injection Hmagic as -> -> -> ->. cbn in Hver. subst.
  unfold HEADER_LEN, NONCE_LEN, TAG_LEN in Hlen. simpl in Hlen.
  split; [split_and!; [exact Hver|done|change (16 <= length b)%nat; lia]|done].
Qed.

(** ** What a seal opens under *)
Definition sealed_as (b : bytes) (aad plain : bytes) (key : Dek) : Prop :=
  exists nonce c, length nonce = NONCE_LEN /\ gcm_seal (dek key) nonce aad plain = Some c /\
    b = to_bytes (mkEnvelope ENVELOPE_VERSION nonce c).

Lemma aead_seal_Ok nonce p aad key b :
  length nonce = NONCE_LEN -> aead_seal nonce p aad key = Ok b -> sealed_as b aad p key.
Proof.
  intros Hn. unfold aead_seal. destruct (gcm_seal _ _ _ _) as [c|] eqn:E; simpl; [|done].
  intros [= <-]. by exists nonce, c.
Qed.

Lemma sealed_envelope b aad p key : sealed_as b aad p key ->
  exists e, well_formed e /\ b = to_bytes e /\ from_bytes b = Ok e /\
    gcm_seal (dek key) (e_nonce e) aad p = Some (e_ciphertext e).
Proof.
  intros (n & c & Hn & Hc & ->). exists (mkEnvelope ENVELOPE_VERSION n c).
  assert (well_formed (mkEnvelope ENVELOPE_VERSION n c)).
  { split_and!; [done|done|]. simpl. apply gcm_length in Hc. unfold TAG_LEN. lia. }
  split_and!; [done|done|by apply from_to_bytes|done].
Qed.

Lemma sealed_length b aad p key : sealed_as b aad p key -> length b = (EMPTY_ENVELOPE_LEN + length p)%nat.
Proof.
  intros (n & c & Hn & Hc & ->). rewrite to_bytes_length by done. simpl.
  apply gcm_length in Hc. rewrite Hc. unfold EMPTY_ENVELOPE_LEN, TAG_LEN. lia.
Qed.

Lemma aead_open_sealed b aad p key aad' key' p' :
  strong -> sealed_as b aad p key ->
  aead_open b aad' key' = Ok p' <-> aad' = aad /\ dek key' = dek key /\ p' = p.
Proof.
  intros HS H. destruct (sealed_envelope _ _ _ _ H) as (e & _ & _ & He & Hg).
  unfold aead_open. rewrite He. simpl. split.
  - destruct (gcm_open _ _ _ _) as [q|] eqn:E; simpl; [|done]. intros [= <-].
    by destruct (gcm_authentic HS _ _ _ _ _ _ _ _ _ Hg E) as (-> & -> & ->).
  - intros (-> & -> & ->). by rewrite (gcm_roundtrip _ _ _ _ _ Hg).
Qed.

(** ** Files and chats *)
Lemma encrypt_file_Ok nonce p path m ct :
  length nonce = NONCE_LEN -> encrypt_file nonce p path m = Ok ct ->
  exists key, derive_dek m path = Ok key /\ sealed_as ct (as_bytes path) p key.
Proof.
  intros Hn. unfold encrypt_file. destruct (derive_dek m path) as [key|]; simpl; [|done].
  intros H%aead_seal_Ok; [by exists key|done].
Qed.

Lemma derive_dek_spec m path key : derive_dek m path = Ok key <->
  (exists r, path = lit "/" ++ r) /\ key = mkDek (hkdf_expand (master m) (DEK_INFO ++ as_bytes path)).
Proof.
  unfold derive_dek. case_bool_decide as H0; cbn [orb].
  { split; [done|]. intros [[r ->] _]. done. }
  destruct (starts_with (lit "/") path) eqn:E; cbn [negb].
  - apply starts_with_spec in E. split; [intros [= <-]; done|by intros [_ ->]].
  - split; [done|]. intros [Hr _]. apply starts_with_spec in Hr. congruence.
Qed.

(** The chat key is no file key. *)
Lemma chat_file_apart m m' path :
  strong -> hkdf_expand (master m) CHAT_DEK_INFO <> hkdf_expand (master m') (DEK_INFO ++ as_bytes path).
Proof. intros HS E. by destruct (hkdf_inj HS _ _ _ _ E). Qed.

(** C17. Encrypted content opens exactly as what it was sealed as.  A file
    is encrypted only at a canonical path, grows by the fixed overhead of an
    envelope, and decrypts under a master key at a path exactly when both
    are the ones of its encryption, to the plaintext; a chat message opens
    exactly under its user's key and its row's binding context, to what was
    sealed; neither kind opens as the other, whatever the keys.  And bytes
    parse as an envelope exactly when they are the image of a well-formed
    one, so nothing shorter than the overhead, with another magic or another
    version, is ever decrypted. *)
Theorem sealed_content nonce plain path aad m ct :
  strong -> length nonce = NONCE_LEN ->
  (encrypt_file nonce plain path m = Ok ct ->
     (exists r, path = lit "/" ++ r) /\ length ct = (EMPTY_ENVELOPE_LEN + length plain)%nat /\
     (forall path' m' plain', decrypt_file ct path' m' = Ok plain' <->
        path' = path /\ m' = m /\ plain' = plain) /\
     (forall aad' m' plain', open_chat ct aad' (ChatKeys_from_master_key m') <> Ok plain')) /\
  (seal_chat nonce plain aad (ChatKeys_from_master_key m) = Ok ct ->
     length ct = (EMPTY_ENVELOPE_LEN + length plain)%nat /\
     (forall aad' m' plain', open_chat ct aad' (ChatKeys_from_master_key m') = Ok plain' <->
        aad' = aad /\ m' = m /\ plain' = plain) /\
     (forall path' m' plain', decrypt_file ct path' m' <> Ok plain')) /\
  (forall b e, from_bytes b = Ok e <-> well_formed e /\ b = to_bytes e).
Proof.
  intros HS Hn. split_and!.
  - intros H. destruct (encrypt_file_Ok _ _ _ _ _ Hn H) as (key & Hk & Hs).
    apply derive_dek_spec in Hk as [Hp ->]. split_and!; [done|by eapply sealed_length| |].
    + intros path' m' plain'. unfold decrypt_file. split.
      * destruct (derive_dek m' path') as [key'|] eqn:Hk'; simpl; [|done].
        apply derive_dek_spec in Hk' as [_ ->]. rewrite (aead_open_sealed _ _ _ _ _ _ _ HS Hs).
        intros (Ha & Hd & ->). apply as_bytes_inj in Ha as ->. apply (hkdf_inj HS) in Hd as [Hm _].
        destruct m, m'. simpl in Hm. by subst.
      * intros (-> & -> & ->). rewrite (proj2 (derive_dek_spec m path _) (conj Hp eq_refl)). simpl.
        by apply (aead_open_sealed _ _ _ _ _ _ _ HS Hs).
    + intros aad' m' plain' E. apply (aead_open_sealed _ _ _ _ _ _ _ HS Hs) in E as (_ & E & _).
      by apply chat_file_apart in E.
  - intros H. apply aead_seal_Ok in H as Hs; [|done]. split_and!; [by eapply sealed_length| |].
    + intros aad' m' plain'. unfold open_chat. rewrite (aead_open_sealed _ _ _ _ _ _ _ HS Hs). split.
      * intros (Ha & Hd & ->). apply as_bytes_inj in Ha as ->. apply (hkdf_inj HS) in Hd as [Hm _].
        destruct m, m'. simpl in Hm. by subst.
      * by intros (-> & -> & ->).
    + intros path' m' plain'. unfold decrypt_file. destruct (derive_dek m' path') as [key'|] eqn:Hk'; simpl; [|done].
      apply derive_dek_spec in Hk' as [_ ->]. intros E.
      apply (aead_open_sealed _ _ _ _ _ _ _ HS Hs) in E as (_ & E & _). simpl in E. symmetry in E.
      by apply chat_file_apart in E.
  - intros b e. split; [apply from_bytes_Ok|]. intros [He ->]. by apply from_to_bytes.
Qed.

(** ** The life of a sealed master key *)
Definition nonce_ok (o : SealOp) : Prop :=
  match o with
  | ChangePassword _ _ _ nonce | RotateRecovery _ _ nonce => length nonce = NONCE_LEN
  end.

(** The password and the recovery key in force after some operations,
    looking only at which of them succeeded. *)
Definition creds_after (c : str * str) (sealed : SealedMasterKey) (o : SealOp) : str * str :=
  match seal_op sealed o, o with
  | Ok _, ChangePassword _ new _ _ => (new, c.2)
  | Ok _, RotateRecovery _ rk _ => (c.1, rk)
  | Err _, _ => c
  end.
Fixpoint creds (c : str * str) (sealed : SealedMasterKey) (ops : list SealOp) : str * str :=
  match ops with
  | [] => c
  | o :: ops => creds (creds_after c sealed o) (seal_step sealed o) ops
  end.

Definition holds (s : SealedMasterKey) (m : MasterKey) (c : str * str) : Prop :=
  exists salt k r b1 b2,
    length salt = SALT_LEN /\ argon2id (as_bytes c.1) salt = Some k /\
    parse_recovery_key c.2 = Ok (mkRecovery r) /\
    sealed_as b1 PASSWORD_SEAL_AAD (master m) (mkDek k) /\ sealed_as b2 RECOVERY_SEAL_AAD (master m) (mkDek r) /\
    s = mkSealed SEALED_VERSION (hex_encode salt) (hex_encode b1) (hex_encode b2).

Lemma derive_kek_Ok pw salt k : derive_kek pw salt = Ok k ->
  length salt = SALT_LEN /\ argon2id (as_bytes pw) salt = Some (kek k).
Proof.
  unfold derive_kek. destruct (Nat.eqb_spec (length salt) SALT_LEN); simpl; [|done].
  destruct (argon2id _ _); simpl; [|done]. by intros [= <-].
Qed.

Lemma unseal_password_spec s m c pw m' : strong -> length (master m) = 32%nat -> holds s m c ->
  unseal_with_password s pw = Ok m' <-> pw = c.1 /\ m' = m.
Proof.
  intros HS Hm (salt & k & r & b1 & b2 & Hsalt & Hk & _ & Hs & _ & ->).
  unfold unseal_with_password, check_version. simpl. rewrite !hex_roundtrip. simpl.
  rewrite Hsalt. simpl. unfold derive_kek. rewrite Hsalt. simpl. split.
  - destruct (argon2id (as_bytes pw) salt) as [k'|] eqn:Hk'; simpl; [|done].
    destruct (aead_open _ _ _) as [p|] eqn:E; simpl; [|done].
    apply (aead_open_sealed _ _ _ _ _ _ _ HS Hs) in E as (_ & E & ->). simpl in E. subst k'.
    pose proof (as_bytes_inj _ _ (argon2id_inj HS _ _ _ _ _ Hk' Hk)) as ->.
    unfold key_from_bytes. rewrite Hm. simpl. intros [= <-]. by destruct m.
  - intros [-> ->]. rewrite Hk. simpl.
    assert (aead_open b1 PASSWORD_SEAL_AAD (wrap_as_dek k) = Ok (master m)) as ->
      by by apply (aead_open_sealed _ _ _ _ _ _ _ HS Hs).
    simpl. unfold key_from_bytes. rewrite Hm. by destruct m.
Qed.

Lemma unseal_recovery_spec s m c rk m' : strong -> length (master m) = 32%nat -> holds s m c ->
  unseal_with_recovery s rk = Ok m' <-> parse_recovery_key rk = parse_recovery_key c.2 /\ m' = m.
Proof.
  intros HS Hm (salt & k & r & b1 & b2 & _ & _ & Hr & _ & Hs & ->).
  unfold unseal_with_recovery, check_version. simpl. rewrite !hex_roundtrip, Hr. simpl. split.
  - destruct (parse_recovery_key rk) as [[r']|] eqn:Hr'; simpl; [|done].
    destruct (aead_open _ _ _) as [p|] eqn:E; simpl; [|done].
    apply (aead_open_sealed _ _ _ _ _ _ _ HS Hs) in E as (_ & E & ->). simpl in E. subst r'.
    unfold key_from_bytes. rewrite Hm. simpl. intros [= <-]. by destruct m.
  - intros [-> ->]. simpl.
    assert (aead_open b2 RECOVERY_SEAL_AAD (wrap_as_dek r) = Ok (master m)) as ->
      by by apply (aead_open_sealed _ _ _ _ _ _ _ HS Hs).
    simpl. unfold key_from_bytes. rewrite Hm. by destruct m.
Qed.

Lemma seal_holds m pw rk salt n1 n2 s :
  length n1 = NONCE_LEN -> length n2 = NONCE_LEN ->
  seal_master_key m pw rk salt n1 n2 = Ok s -> holds s m (pw, rk).
Proof.
  intros H1 H2. unfold seal_master_key. destruct (parse_recovery_key rk) as [[r]|] eqn:Hr; simpl; [|done].
  destruct (derive_kek pw salt) as [k|] eqn:Hk; simpl; [|done].
  destruct (aead_seal n1 _ _ _) as [b1|] eqn:E1; simpl; [|done].
  destruct (aead_seal n2 _ _ _) as [b2|] eqn:E2; simpl; [|done]. intros [= <-].
  apply aead_seal_Ok in E1, E2; try done. apply derive_kek_Ok in Hk as [Hs Hk].
  by exists salt, (kek k), r, b1, b2.
Qed.

(** An operation succeeds only for the holder of the password, and the
    record then holds the same master key under the new credentials. *)
Lemma seal_op_holds s m c o s' : strong -> length (master m) = 32%nat -> nonce_ok o -> holds s m c ->
  seal_op s o = Ok s' ->
  match o with ChangePassword pw _ _ _ | RotateRecovery pw _ _ => pw = c.1 end /\
  holds s' m (creds_after c s o).
Proof.
  intros HS Hm Hn Hh. unfold creds_after. destruct o as [old new salt n|pw rk n]; simpl in *.
  - intros Hop. rewrite Hop. revert Hop. unfold reseal_password.
    destruct (unseal_with_password s old) as [m0|] eqn:E; simpl; [|done].
    apply (unseal_password_spec _ _ _ _ _ HS Hm Hh) in E as [-> ->].
    destruct (derive_kek new salt) as [k|] eqn:Hk; simpl; [|done].
    destruct (aead_seal _ _ _ _) as [b|] eqn:Hb; simpl; [|done]. intros [= <-]. split; [done|].
    destruct Hh as (salt0 & k0 & r & b1 & b2 & _ & _ & Hr & _ & Hs2 & ->).
    apply aead_seal_Ok in Hb; [|done]. apply derive_kek_Ok in Hk as [Hs Hk].
    by exists salt, (kek k), r, b, b2.
  - intros Hop. rewrite Hop. revert Hop. unfold rotate_recovery_key.
    destruct (parse_recovery_key rk) as [[r]|] eqn:Hr; simpl; [|done].
    destruct (unseal_with_password s pw) as [m0|] eqn:E; simpl; [|done].
    apply (unseal_password_spec _ _ _ _ _ HS Hm Hh) in E as [-> ->].
    destruct (aead_seal _ _ _ _) as [b|] eqn:Hb; simpl; [|done]. intros [= <-]. split; [done|].
    destruct Hh as (salt0 & k0 & r0 & b1 & b2 & Hs0 & Hk0 & _ & Hs1 & _ & ->).
    apply aead_seal_Ok in Hb; [|done]. by exists salt0, k0, r, b1, b.
Qed.

Lemma seal_history s m c ops : strong -> length (master m) = 32%nat -> Forall nonce_ok ops -> holds s m c ->
  holds (fold_left seal_step ops s) m (creds c s ops).
Proof.
  intros HS Hm Hn. revert s c. induction Hn as [|o ops Ho _ IH]; intros s c Hh; [done|]. simpl.
  apply IH. unfold seal_step. destruct (seal_op s o) as [s'|] eqn:E.
  - by destruct (seal_op_holds _ _ _ _ _ HS Hm Ho Hh E).
  - unfold creds_after. by rewrite E.
Qed.

(** C15. A user keeps the master key.  Sealed at creation under a password
    and a recovery key, it survives every sequence of password changes and
    recovery-key rotations, failing ones included: the record still unseals
    under exactly the password in force and under exactly the recovery key
    in force, to the same master key and no other, so all files stay
    readable while old credentials are dead; and each operation that
    succeeded was given the password then in force. *)
Theorem master_key_survives m pw rk salt n1 n2 s ops :
  strong -> length (master m) = 32%nat -> length n1 = NONCE_LEN -> length n2 = NONCE_LEN ->
  Forall nonce_ok ops -> seal_master_key m pw rk salt n1 n2 = Ok s ->
  let sealed := fold_left seal_step ops s in
  let c := creds (pw, rk) s ops in
  (forall pw' m', unseal_with_password sealed pw' = Ok m' <-> pw' = c.1 /\ m' = m) /\
  (forall rk' m', unseal_with_recovery sealed rk' = Ok m' <->
     parse_recovery_key rk' = parse_recovery_key c.2 /\ m' = m) /\
  forall o sealed', nonce_ok o -> seal_op sealed o = Ok sealed' ->
    match o with ChangePassword pw' _ _ _ | RotateRecovery pw' _ _ => pw' = c.1 end.
Proof.
  intros HS Hm H1 H2 Hn Hs sealed c.
  pose proof (seal_history _ _ _ _ HS Hm Hn (seal_holds _ _ _ _ _ _ _ H1 H2 Hs)) as Hh. split_and!.
  - intros pw' m'. by apply unseal_password_spec.
  - intros rk' m'. by apply unseal_recovery_spec.
  - intros o s' Ho E. by destruct (seal_op_holds _ _ _ _ _ HS Hm Ho Hh E).
Qed.

(** ** The service key file *)
Lemma trim_start_plain f s : Forall (fun c => f c = false) s -> trim_start_if f s = s.
Proof. by destruct 1 as [|c s Hc]; simpl; rewrite ?Hc. Qed.

Lemma trim_end_plain f s t : Forall (fun c => f c = false) s -> Forall (fun c => f c = true) t ->
  trim_end_if f (s ++ t) = s.
Proof.
  intros Hs Ht. unfold trim_end_if. rewrite reverse_app.
  assert (Hdrop : forall u, Forall (fun c => f c = true) u -> trim_start_if f (u ++ reverse s) = reverse s).
  { induction 1 as [|c u Hc _ IH]; simpl; [|by rewrite Hc].
    apply trim_start_plain. by rewrite reverse_Permutation. }
  rewrite Hdrop by by rewrite reverse_Permutation. apply reverse_involutive.
Qed.

Definition key_contents (b : bytes) : str := hex_encode b ++ [nl].

Lemma trim_contents b p : p `prefix_of` key_contents b ->
  trim p `prefix_of` hex_encode b /\ (p = key_contents b -> trim p = hex_encode b).
Proof.
  intros Hp. pose proof (hex_no_whitespace b) as Hw.
  assert (Hh : forall q, q `prefix_of` hex_encode b -> trim (q ++ []) = q /\ trim (q ++ [nl]) = q).
  { intros q [r Hr]. rewrite Hr in Hw. apply Forall_app in Hw as [Hq _].
    assert (forall t, Forall (fun c => is_whitespace c = true) t -> trim (q ++ t) = q) as H; [|split; by apply H; repeat constructor].
    intros t Ht. unfold trim, trim_start. destruct q as [|c q].
    - simpl. assert (trim_start_if is_whitespace t = []) as -> by (induction Ht as [|d t Hd _ IH]; simpl; [done|by rewrite Hd]). done.
    - inversion Hq as [|? ? Hc Hq']; subst. simpl. rewrite Hc. by apply (trim_end_plain is_whitespace (c :: q) t). }
  destruct Hp as [r Hr]. unfold key_contents in *. destruct r as [|x r _] using rev_ind.
  - rewrite app_nil_r in Hr. subst p. destruct (Hh (hex_encode b) ltac:(done)) as [_ ->]. by split.
  - rewrite app_assoc in Hr. apply app_inj_tail in Hr as [Hr _].
    destruct (Hh p ltac:(by exists r)) as [Ht _]. rewrite app_nil_r in Ht. rewrite Ht. split; [by exists r|].
    intros E. exfalso. apply (f_equal length) in Hr. subst p. rewrite !length_app in Hr. simpl in Hr. lia.
Qed.

(** A prefix of the file is never taken for another key. *)
Lemma parse_partial b p key : length b = 32%nat -> p `prefix_of` key_contents b ->
  parse_key_hex (trim p) = Some key -> key = mkService b.
Proof.
  intros Hb Hp. destruct (trim_contents _ _ Hp) as [Ht _]. unfold parse_key_hex.
  destruct (hex_decode (trim p)) as [d|] eqn:Hd; simpl; [|done]. unfold key_from_bytes.
  destruct (Nat.eqb_spec (length d) 32) as [Hl|]; simpl; [|done]. intros [= <-]. f_equal.
  pose proof (hex_decode_length _ _ Hd) as Hlen. destruct Ht as [r Hr].
  assert (r = []) as ->.
  { apply (f_equal length) in Hr. rewrite hex_encode_length, length_app in Hr.
    apply length_zero_iff_nil. lia. }
  rewrite app_nil_r in Hr. rewrite <- Hr, hex_roundtrip in Hd. by injection Hd.
Qed.

Lemma parse_complete b : length b = 32%nat -> parse_key_hex (trim (key_contents b)) = Some (mkService b).
Proof.
  intros Hb. destruct (trim_contents b (key_contents b) ltac:(done)) as [_ ->]; [|done].
  unfold parse_key_hex. rewrite hex_roundtrip. simpl. unfold key_from_bytes. by rewrite Hb.
Qed.

Lemma load_existing_spec n i path f b : length b = 32%nat ->
  (forall j s, f_read f j = Some s -> s `prefix_of` key_contents b) ->
  (exists j, (i <= j < i + n)%nat /\ f_read f j = Some (key_contents b)) ->
  load_existing n i path f = (let? _ := check_permissions path f in Ok (mkService b))%rust.
Proof.
  intros Hb Hpre. revert i. induction n as [|n IH]; intros i (j & Hj & Hf); [lia|]. simpl.
  destruct (f_read f i) as [s|] eqn:Hi; simpl.
  - destruct (parse_key_hex (trim s)) as [key|] eqn:Hk.
    + by rewrite (parse_partial _ _ _ Hb (Hpre _ _ Hi) Hk).
    + apply IH. exists j. split; [|done]. assert (i <> j); [|lia]. intros ->. rewrite Hi in Hf. injection Hf as ->.
      by rewrite parse_complete in Hk.
  - apply IH. exists j. split; [|done]. assert (i <> j); [|lia]. intros ->. by rewrite Hi in Hf.
Qed.

Lemma load_existing_sound n i path f b key : length b = 32%nat ->
  (forall j s, f_read f j = Some s -> s `prefix_of` key_contents b) ->
  load_existing n i path f = Ok key ->
  key = mkService b /\ exists mode, f_mode f = Some mode /\ Z.land mode 63 = 0.
Proof.
  intros Hb Hpre. revert i. induction n as [|n IH]; intros i; [done|]. simpl.
  destruct (contents ← f_read f i; parse_key_hex (trim contents)) as [k|] eqn:Hk; [|apply IH].
  destruct (f_read f i) as [s|] eqn:Hi; simpl in Hk; [|done].
  apply (parse_partial _ _ _ Hb (Hpre _ _ Hi)) in Hk as ->. unfold check_permissions.
  destruct (f_mode f) as [mode|]; simpl; [|done]. destruct (Z.eqb_spec (Z.land mode 63) 0); simpl; [|done].
  intros [= <-]. split; [done|]. by exists mode.
Qed.

(** The service key is created once and then stays.  The process that
    creates the file returns its key and leaves the key on disk, private;
    every other process that looks at that file, while it is being written
    (it sees prefixes of it, or reads fail) or later, by either entry point,
    returns that same key or an error, never another key and never from a
    file that others may access; and it does return the key if the file is
    private and one of its fifty reads sees the complete contents.  The
    environment variable takes precedence and touches no file, and the
    load-only entry point reports an absent file as such. *)
Theorem service_key_stable dir f fresh w env key contents :
  length (master fresh) = 32%nat ->
  load_or_create_service_key_with dir None f fresh = (Ok key, Some contents) ->
  (forall i s, f_read w i = Some s -> s `prefix_of` contents.1) ->
  contents.2 = 384 /\ key = mkService (master fresh) /\
  (forall fresh' key', f_exists w = true \/ f_create w = AlreadyExists ->
     (load_or_create_service_key_with dir None w fresh').1 = Ok key' -> key' = key) /\
  (forall key', load_service_key_with dir None w = Ok key' ->
     key' = key /\ f_exists w = true /\ exists mode, f_mode w = Some mode /\ Z.land mode 63 = 0) /\
  ((exists i, (i < 50)%nat /\ f_read w i = Some contents.1) -> f_exists w = true -> f_mode w = Some contents.2 ->
     forall fresh', load_service_key_with dir None w = Ok key /\
       load_or_create_service_key_with dir None w fresh' = (Ok key, None)) /\
  (f_exists w = false -> load_service_key_with dir None w = Err (Absent (join_path dir SERVICE_KEY_FILE))) /\
  (forall fresh', load_or_create_service_key_with dir (Some env) w fresh' =
     (ok_or BadEnv (parse_key_hex env), None) /\
     load_service_key_with dir (Some env) w = ok_or BadEnv (parse_key_hex env)).
Proof.
  intros Hm. unfold load_or_create_service_key_with at 1.
  destruct (f_exists f); [done|]. destruct (f_create_dir f); [|done]. simpl.
  destruct (f_create f); [|done|done]. destruct (f_write f); [|done]. intros [= <- <-] Hpre. simpl in Hpre.
  fold (key_contents (master fresh)) in *. simpl.
  assert (Hsound : forall path key', load_existing_key_with_retry path w = Ok key' ->
    key' = mkService (master fresh) /\ exists mode, f_mode w = Some mode /\ Z.land mode 63 = 0)
    by (intros path key'; by apply load_existing_sound).
  split_and!; [done|done| | | | |done].
  - intros fresh' key' Hex. unfold load_or_create_service_key_with. destruct (f_exists w).
    + by intros [-> _]%Hsound.
    + destruct Hex as [|Hex]; [done|]. rewrite Hex. destruct (f_create_dir w); simpl; [|done].
      by intros [-> _]%Hsound.
  - intros key'. unfold load_service_key_with. destruct (f_exists w); simpl; [|done].
    intros [-> H]%Hsound. by split_and!.
  - intros (i & Hi & Hr) Hex Hmode fresh'. unfold load_service_key_with, load_or_create_service_key_with.
    rewrite Hex. simpl. unfold load_existing_key_with_retry.
    rewrite (load_existing_spec _ _ _ _ _ Hm Hpre) by (exists i; split; [lia|done]).
    unfold check_permissions. by rewrite Hmode.
  - intros Hex. unfold load_service_key_with. by rewrite Hex.
Qed.
End Crypto.

(** ** Witnesses

    Primitives that are strong because they write their key into the
    output. *)
Definition code {A} `{Countable A} (x : A) : N := Npos (encode x).
Lemma code_inj {A} `{Countable A} (x y : A) : code x = code y -> x = y.
Proof. intros [= E]. by apply (inj encode). Qed.

Definition demo_tag (k n a : bytes) : bytes := [code k; code n; code a] ++ replicate 13 0%N.
Definition demo_open (k n a c : bytes) : option bytes :=
  let l := (length c - 16)%nat in
  if str_eqb (drop l c) (demo_tag k n a) then Some (take l c) else None.

Lemma demo_cut k n a (p : bytes) :
  drop (length (p ++ demo_tag k n a) - 16) (p ++ demo_tag k n a) = demo_tag k n a /\
  take (length (p ++ demo_tag k n a) - 16) (p ++ demo_tag k n a) = p.
Proof.
  assert ((length (p ++ demo_tag k n a) - 16)%nat = length p) as ->.
  { rewrite length_app. change (length (demo_tag k n a)) with 16%nat. lia. }
  split; [apply drop_app_length|apply take_app_length].
Qed.

Lemma demo_roundtrip k n a p c : Some (p ++ demo_tag k n a) = Some c -> demo_open k n a c = Some p.
Proof.
  intros [= <-]. unfold demo_open. destruct (demo_cut k n a p) as [-> ->].
  by rewrite (proj2 (str_eqb_eq _ _) eq_refl).
Qed.

Lemma demo_gcm_length k n a p c :
  Some (p ++ demo_tag k n a) = Some c -> length c = (length p + 16)%nat.
Proof. intros [= <-]. by rewrite length_app. Qed.

Definition demo_aead : Aead :=
  {| gcm_seal k n a p := Some (p ++ demo_tag k n a); gcm_open := demo_open;
     gcm_roundtrip := demo_roundtrip; gcm_length := demo_gcm_length |}.

Definition demo_kdf : Kdf.
Proof.
  refine {| hkdf_expand k i := [code k; code i] ++ replicate 30 0%N;
            hmac_sha256 k m := [code k; code m] ++ replicate 30 0%N;
            argon2id p s := Some ([code p; code s] ++ replicate 30 0%N);
            hkdf_length k i := eq_refl |}.
  by intros p s k [= <-].
Defined.

Lemma demo_strong : @strong demo_aead demo_kdf.
Proof.
  split.
  - intros k n a p c k' n' a' p' [= <-]. simpl. unfold demo_open.
    destruct (demo_cut k n a p) as [-> ->]. destruct (str_eqb _ _) eqn:E; [|done].
    apply str_eqb_eq in E. injection E as Ek En Ea. apply (inj encode) in Ek as ->, Ea as ->.
    by intros [= ->].
  - intros k i k' i' E. injection E as Ek Ei. by apply (inj encode) in Ek as ->, Ei as ->.
  - intros p s p' s' k E1 E2. simpl in *. rewrite <- E2 in E1. injection E1 as E _.
    by apply (inj encode) in E.
Qed.

Definition demo_master (x : N) : MasterKey := mkMaster (x :: replicate 31 0%N).
Definition demo_nonce : bytes := replicate 12 0%N.
Definition demo_salt : bytes := replicate 16 0%N.
Definition demo_recovery (x : N) : str := @generate_recovery_key wide_hex (x :: replicate 31 0%N).
Definition of_ok {A E} (d : A) (r : result A E) : A := match r with Ok x => x | Err _ => d end.
Definition demo_seal (x : N) (pw : str) (rk : N) : SealedMasterKey :=
  of_ok (mkSealed 0 [] [] [])
    (@seal_master_key demo_aead demo_kdf wide_hex (demo_master x) pw (demo_recovery rk) demo_salt demo_nonce demo_nonce).

Lemma sealed_content_witness :
  let ct := of_ok [] (@encrypt_file demo_aead demo_kdf demo_nonce (lit "text") (lit "/a.md") (demo_master 1)) in
  @decrypt_file demo_aead demo_kdf ct (lit "/a.md") (demo_master 1) = Ok (lit "text") /\
  @decrypt_file demo_aead demo_kdf ct (lit "/b.md") (demo_master 1) <> Ok (lit "text") /\
  @decrypt_file demo_aead demo_kdf ct (lit "/a.md") (demo_master 2) <> Ok (lit "text").
Proof.
  intros ct.
  destruct (@sealed_content demo_aead demo_kdf demo_nonce (lit "text") (lit "/a.md") [] (demo_master 1) ct
    demo_strong eq_refl) as (H & _). destruct H as (_ & _ & H & _); [by vm_compute|].
  split_and!; [by apply H|intros [E _]%H; discriminate E|intros (_ & E & _)%H; discriminate E].
Defined.

Lemma master_key_survives_witness :
  let ops := [ChangePassword (lit "wrong") (lit "x") demo_salt demo_nonce;
              ChangePassword (lit "old") (lit "new") demo_salt demo_nonce;
              RotateRecovery (lit "new") (demo_recovery 9) demo_nonce] in
  let sealed := fold_left (@seal_step demo_aead demo_kdf wide_hex) ops (demo_seal 1 (lit "old") 8) in
  @unseal_with_password demo_aead demo_kdf wide_hex sealed (lit "new") = Ok (demo_master 1) /\
  @unseal_with_password demo_aead demo_kdf wide_hex sealed (lit "old") <> Ok (demo_master 1) /\
  @unseal_with_recovery demo_aead wide_hex sealed (demo_recovery 9) = Ok (demo_master 1) /\
  @unseal_with_recovery demo_aead wide_hex sealed (demo_recovery 8) <> Ok (demo_master 1).
Proof.
  intros ops sealed.
  destruct (@master_key_survives demo_aead demo_kdf wide_hex (demo_master 1) (lit "old") (demo_recovery 8)
    demo_salt demo_nonce demo_nonce (demo_seal 1 (lit "old") 8) ops
    demo_strong eq_refl eq_refl eq_refl ltac:(repeat constructor) ltac:(by vm_compute)) as (H1 & H2 & _).
  split_and!.
  - apply H1. split; [by vm_compute|done].
  - intros [E _]%H1. by vm_compute in E.
  - apply H2. split; [by vm_compute|done].
  - intros [E _]%H2. by vm_compute in E.
Defined.

Lemma service_key_stable_witness :
  let mine := mkKeyFile false true Created true (fun _ => None) None in
  let c := @key_contents wide_hex (master (demo_master 3)) in
  let other := mkKeyFile true true AlreadyExists true
    (fun i => if (i <? 2)%nat then Some (take i c) else Some c) (Some 384) in
  @load_or_create_service_key_with wide_hex (lit "/data") None mine (demo_master 3) =
    (Ok (mkService (master (demo_master 3))), Some (c, 384)) /\
  @load_service_key_with wide_hex (lit "/data") None other = Ok (mkService (master (demo_master 3))).
Proof.
  intros mine c other. split; [done|].
  destruct (@service_key_stable wide_hex (lit "/data") mine (demo_master 3) other []
    (mkService (master (demo_master 3))) (c, 384) eq_refl eq_refl) as (_ & _ & _ & _ & H & _).
  - intros i s. simpl. destruct (i <? 2)%nat; intros [= <-]; [by exists (drop i c); rewrite take_drop|done].
  - apply H; [exists 2%nat; split; [lia|done]|done|done|exact (demo_master 0)].
Defined.
