(* ===== verification/FileRepo.v ===== *)
(** * The encrypted file repository

    [crates/mycelium-store/src/file_repo.rs]: files under HMAC names in one
    directory, each an outer envelope around an inner envelope (which holds
    the canonical path) and the content.  The directory is a map from file
    names to bytes; a call may meet an error of the file system at any of
    its steps, which is an argument; nonces and the random part of the
    temporary names are arguments too.  Directory creation and [fsync] have
    no effect on the map. *)
From S2P Require Import Prelude Text Clock Crypto.
Open Scope Z_scope.

(** ** Errors and inputs *)
Inductive IoKind := NotFound | OtherKind.
Inductive FileRepoError :=
  | FIo (kind : IoKind) | FCrypto (e : CryptoError) | PathMismatch (name : str)
  | Corrupt (name reason : str) | FInvalidPath (path : str).

#[export] Instance IoKind_eq_dec : EqDecision IoKind.
Proof. solve_decision. Defined.

Inductive Scope := ScopeUser (m : MasterKey) | ScopeService (s : ServiceKey).

(** [serde_json] on [PathMeta]; writing fails on no string. *)
Class MetaJson := {
  meta_to_vec : str -> bytes;
  meta_from_slice : bytes -> result str str;
  meta_roundtrip p : meta_from_slice (meta_to_vec p) = Ok p }.

Abbreviation Dir := (gmap str bytes) (only parsing).

(** The step of a write that the file system refuses; a refused write of
    the temporary file may leave a partial one. *)
Inductive WriteFault :=
  | MkdirFails (k : IoKind) | TmpFails (k : IoKind) (written : option nat)
  | OpenFails (k : IoKind) | SyncFails (k : IoKind) | RenameFails (k : IoKind).

Section FileRepo.
Context {AE : Aead} {KD : Kdf} {HX : Hex} {MJ : MetaJson}.

Definition file_keys (scope : Scope) : FileKeys :=
  match scope with
  | ScopeUser m => FileKeys_from_master_key m
  | ScopeService s => FileKeys_from_service_key s
  end.

Definition validate (canonical_path : str) : result unit FileRepoError :=
  if bool_decide (canonical_path = []) || negb (starts_with (lit "/") canonical_path)
  then Err (FInvalidPath canonical_path) else Ok tt.

Definition dek_for_name (keys : FileKeys) (name : str) : Dek :=
  mkDek (hkdf_expand (dek (meta_dek keys)) (lit "mycelium2/file-dek/v1" ++ as_bytes name)).

(** The bytes [write] stores. *)
Definition outer_bytes (keys : FileKeys) (canonical_path : str) (plaintext n1 n2 : bytes)
    : result bytes CryptoError :=
  (let name := stored_name keys canonical_path in
   let? inner := aead_seal n1 (meta_to_vec canonical_path) (as_bytes name) (meta_dek keys) in
   aead_seal n2 (le_bytes 8 (N.of_nat (length inner)) ++ inner ++ plaintext) (as_bytes name)
     (dek_for_name keys name))%rust.

Definition tmp_name (name uuid : str) : str := name ++ lit ".tmp-" ++ uuid.

Definition write (dir : Dir) (canonical_path : str) (plaintext : bytes) (scope : Scope)
    (n1 n2 : bytes) (uuid : str) (fault : option WriteFault) : result unit FileRepoError * Dir :=
  match validate canonical_path with
  | Err e => (Err e, dir)
  | Ok _ =>
      match fault with
      | Some (MkdirFails k) => (Err (FIo k), dir)
      | _ =>
          let keys := file_keys scope in
          let name := stored_name keys canonical_path in
          match outer_bytes keys canonical_path plaintext n1 n2 with
          | Err e => (Err (FCrypto e), dir)
          | Ok outer =>
              let tmp := tmp_name name uuid in
              match fault with
              | Some (TmpFails k None) => (Err (FIo k), dir)
              | Some (TmpFails k (Some written)) => (Err (FIo k), <[tmp := take written outer]> dir)
              | Some (OpenFails k) | Some (SyncFails k) | Some (RenameFails k) =>
                  (Err (FIo k), <[tmp := outer]> dir)
              | _ => (Ok tt, <[name := outer]> (delete tmp (<[tmp := outer]> dir)))
              end
          end
      end
  end.

(** [fails]: the file system refuses, other than because the file is
    absent. *)
Definition read (dir : Dir) (canonical_path : str) (scope : Scope) (fails : bool)
    : result bytes FileRepoError :=
  (let? _ := validate canonical_path in
   let keys := file_keys scope in
   let name := stored_name keys canonical_path in
   let? outer := if fails then Err (FIo OtherKind) else ok_or (FIo NotFound) (dir !! name) in
   let? outer_plaintext := result_map_err FCrypto (aead_open outer (as_bytes name) (dek_for_name keys name)) in
   if (length outer_plaintext <? 8)%nat then Err (Corrupt name (lit "missing inner-length prefix")) else
   let inner_len := Z.of_N (of_le_bytes (take 8 outer_plaintext)) in
   if (usize_max <? inner_len + 8) then Err (Corrupt name (lit "inner length overflow")) else
   let content_start := Z.to_nat (inner_len + 8) in
   if (length outer_plaintext <? content_start)%nat
   then Err (Corrupt name (lit "truncated inner envelope")) else
   let inner := drop 8 (take content_start outer_plaintext) in
   let content := drop content_start outer_plaintext in
   let? meta_json := result_map_err FCrypto (aead_open inner (as_bytes name) (meta_dek keys)) in
   let? path := result_map_err (Corrupt name) (meta_from_slice meta_json) in
   if negb (str_eqb path canonical_path) then Err (PathMismatch name) else Ok content)%rust.

Definition remove (dir : Dir) (canonical_path : str) (scope : Scope) (fails : bool)
    : result unit FileRepoError * Dir :=
  match validate canonical_path with
  | Err e => (Err e, dir)
  | Ok _ =>
      let name := stored_name (file_keys scope) canonical_path in
      if fails then (Err (FIo OtherKind), dir) else (Ok tt, delete name dir)
  end.

Definition list_names (dir : Dir) : list str :=
  sort_by str_cmp
    (retain (fun n => negb (starts_with (lit ".") n || contains (lit ".tmp-") n)) (map_to_list dir).*1).

(** ** Names and seals *)
Lemma tmp_name_apart name uuid keys p : tmp_name name uuid <> stored_name keys p.
Proof.
  intros E. destruct (hex_no_punctuation (hmac_sha256 (filename_key keys) (as_bytes p))) as [H _].
  apply H. unfold stored_name in E. rewrite <- E. unfold tmp_name.
  apply elem_of_app. right. left.
Qed.

(** The JSON of a path fits the address space with its envelope. *)
Definition meta_fits (p : str) : Prop := Z.of_nat (length (meta_to_vec p)) + 64 <= usize_max.

Lemma outer_bytes_sealed keys p plain n1 n2 outer :
  length n1 = NONCE_LEN -> length n2 = NONCE_LEN ->
  outer_bytes keys p plain n1 n2 = Ok outer ->
  exists inner, sealed_as inner (as_bytes (stored_name keys p)) (meta_to_vec p) (meta_dek keys) /\
    sealed_as outer (as_bytes (stored_name keys p))
      (le_bytes 8 (N.of_nat (length inner)) ++ inner ++ plain) (dek_for_name keys (stored_name keys p)).
Proof.
  intros H1 H2. unfold outer_bytes. destruct (aead_seal n1 _ _ _) as [inner|] eqn:E1; cbn [result_bind]; [|done].
  intros E2. exists inner. split; [by apply (aead_seal_Ok n1)|by apply (aead_seal_Ok n2)].
Qed.

Lemma aead_open_self b aad p key : sealed_as b aad p key -> aead_open b aad key = Ok p.
Proof.
  intros H. destruct (sealed_envelope _ _ _ _ H) as (e & _ & _ & He & Hg).
  unfold aead_open. rewrite He. simpl. by rewrite (gcm_roundtrip _ _ _ _ _ Hg).
Qed.

(** The content of a well-formed outer plaintext *)
Lemma outer_cut (inner plain : bytes) : Z.of_nat (length inner) + 8 <= usize_max ->
  let b := le_bytes 8 (N.of_nat (length inner)) ++ inner ++ plain in
  (length b <? 8)%nat = false /\ Z.of_N (of_le_bytes (take 8 b)) = Z.of_nat (length inner) /\
  (length b <? Z.to_nat (Z.of_nat (length inner) + 8))%nat = false /\
  drop 8 (take (Z.to_nat (Z.of_nat (length inner) + 8)) b) = inner /\
  drop (Z.to_nat (Z.of_nat (length inner) + 8)) b = plain.
Proof.
  intros Hb b. assert (Hle : length (le_bytes 8 (N.of_nat (length inner))) = 8%nat) by apply le_bytes_length.
  assert (Hn : Z.to_nat (Z.of_nat (length inner) + 8) = (8 + length inner)%nat) by lia.
  rewrite Hn. unfold b. rewrite !length_app, Hle. split_and!.
  - apply Nat.ltb_ge. lia.
  - rewrite <- Hle at 1. rewrite take_app_length, of_le_bytes_spec; [lia|].
    unfold usize_max, u64_max in Hb. change (256 ^ N.of_nat 8)%N with 18446744073709551616%N. lia.
  - apply Nat.ltb_ge. lia.
  - rewrite <- Hle at 2. rewrite take_app_add, <- Hle at 1. rewrite drop_app_length. apply take_app_length.
  - rewrite <- Hle at 1. rewrite drop_app_add. apply drop_app_length.
Qed.

Lemma validate_Ok p : validate p = Ok tt <-> starts_with (lit "/") p = true.
Proof.
  unfold validate. destruct (starts_with (lit "/") p) eqn:E; simpl.
  - rewrite bool_decide_false; [done|]. intros ->. discriminate E.
  - by rewrite orb_true_r.
Qed.

Lemma read_outer dir p scope outer inner plain : starts_with (lit "/") p = true -> meta_fits p ->
  dir !! stored_name (file_keys scope) p = Some outer ->
  sealed_as inner (as_bytes (stored_name (file_keys scope) p)) (meta_to_vec p) (meta_dek (file_keys scope)) ->
  sealed_as outer (as_bytes (stored_name (file_keys scope) p))
    (le_bytes 8 (N.of_nat (length inner)) ++ inner ++ plain)
    (dek_for_name (file_keys scope) (stored_name (file_keys scope) p)) ->
  read dir p scope false = Ok plain.
Proof.
  intros Hp Hfit Hdir Hin Hout. pose proof (sealed_length _ _ _ _ Hin) as Hlen.
  unfold meta_fits, usize_max, u64_max in Hfit.
  assert (Hb : Z.of_nat (length inner) + 8 <= usize_max).
  { rewrite Hlen. change EMPTY_ENVELOPE_LEN with 33%nat. unfold usize_max, u64_max. lia. }
  destruct (outer_cut inner plain Hb) as (C1 & C2 & C3 & C4 & C5).
  unfold read. rewrite (proj2 (validate_Ok p) Hp). cbn [result_bind]. rewrite Hdir. cbn [ok_or result_bind].
  rewrite (aead_open_self _ _ _ _ Hout). cbn [result_bind result_map_err]. rewrite C1, C2.
  rewrite (proj2 (Z.ltb_ge _ _)) by done. rewrite C3, C4, C5, (aead_open_self _ _ _ _ Hin).
  cbn [result_bind result_map_err]. rewrite meta_roundtrip. cbn [result_bind result_map_err].
  by rewrite (proj2 (str_eqb_eq _ _) eq_refl).
Qed.

(** What [write] does, in one statement: it fails and leaves every stored
    file as it was, or succeeds and replaces exactly its own file. *)
Definition stored (dir : Dir) (scope : Scope) (p : str) : option bytes :=
  dir !! stored_name (file_keys scope) p.

Lemma write_cases dir p plain scope n1 n2 uuid fault r dir' :
  write dir p plain scope n1 n2 uuid fault = (r, dir') ->
  (exists e, r = Err e /\ forall scope' q, stored dir' scope' q = stored dir scope' q) \/
  (exists outer, r = Ok tt /\ fault = None /\ starts_with (lit "/") p = true /\
     outer_bytes (file_keys scope) p plain n1 n2 = Ok outer /\
     forall scope' q, stored dir' scope' q =
       if decide (stored_name (file_keys scope') q = stored_name (file_keys scope) p)
       then Some outer else stored dir scope' q).
Proof.
  unfold write, stored. destruct (validate p) as [[]|e] eqn:Hv; cycle 1.
  { intros [= <- <-]. left. by exists e. }
  apply validate_Ok in Hv. destruct (outer_bytes _ _ _ _ _) as [outer|e] eqn:Ho; cycle 1.
  { destruct fault as [[]|]; intros [= <- <-]; left; eexists; split; done. }
  destruct fault as [[k|k [w|]|k|k|k]|]; intros [= <- <-];
    try (left; eexists; split; [done|]; intros scope' q; try done;
         by rewrite lookup_insert_ne by apply tmp_name_apart).
  right. exists outer. split_and!; [done..|]. intros scope' q. case_decide as E.
  - rewrite E. by rewrite lookup_insert_eq.
  - rewrite lookup_insert_ne by done. rewrite lookup_delete_ne by apply tmp_name_apart.
    by rewrite lookup_insert_ne by apply tmp_name_apart.
Qed.

(** Idealised HMAC: no collisions under one key. *)
Definition no_collisions : Prop := forall k a b, hmac_sha256 k a = hmac_sha256 k b -> a = b.

Lemma stored_name_inj keys p q : no_collisions -> stored_name keys p = stored_name keys q -> p = q.
Proof. intros Hn E. apply hex_encode_inj, Hn in E. by apply as_bytes_inj. Qed.

(** ** The repository of one scope is a map from paths to contents *)
Inductive FileOp :=
  | OpWrite (p : str) (plain n1 n2 : bytes) (uuid : str) (fault : option WriteFault)
  | OpRemove (p : str) (fails : bool).

Definition file_op (scope : Scope) (dir : Dir) (o : FileOp) : result unit FileRepoError * Dir :=
  match o with
  | OpWrite p plain n1 n2 uuid fault => write dir p plain scope n1 n2 uuid fault
  | OpRemove p fails => remove dir p scope fails
  end.

Definition file_op_ok (o : FileOp) : Prop :=
  match o with
  | OpWrite p _ n1 n2 _ _ => meta_fits p /\ length n1 = NONCE_LEN /\ length n2 = NONCE_LEN
  | OpRemove _ _ => True
  end.

(** An operation that reports success takes effect; one that fails has
    none. *)
Definition spec_op (spec : gmap str bytes) (o : FileOp) (r : result unit FileRepoError) : gmap str bytes :=
  match r, o with
  | Err _, _ => spec
  | Ok _, OpWrite p plain _ _ _ _ => <[p := plain]> spec
  | Ok _, OpRemove p _ => delete p spec
  end.

Fixpoint run_files (scope : Scope) (dir : Dir) (spec : gmap str bytes) (ops : list FileOp)
    : Dir * gmap str bytes :=
  match ops with
  | [] => (dir, spec)
  | o :: ops =>
      let '(r, dir') := file_op scope dir o in run_files scope dir' (spec_op spec o r) ops
  end.

Definition represents (scope : Scope) (dir : Dir) (spec : gmap str bytes) : Prop :=
  forall p, starts_with (lit "/") p = true ->
    match spec !! p with
    | Some content => exists outer inner, stored dir scope p = Some outer /\ meta_fits p /\
        sealed_as inner (as_bytes (stored_name (file_keys scope) p)) (meta_to_vec p) (meta_dek (file_keys scope)) /\
        sealed_as outer (as_bytes (stored_name (file_keys scope) p))
          (le_bytes 8 (N.of_nat (length inner)) ++ inner ++ content)
          (dek_for_name (file_keys scope) (stored_name (file_keys scope) p))
    | None => stored dir scope p = None
    end.

Lemma represents_read scope dir spec p : represents scope dir spec -> starts_with (lit "/") p = true ->
  read dir p scope false = ok_or (FIo NotFound) (spec !! p).
Proof.
  intros HR Hp. specialize (HR p Hp). destruct (spec !! p) as [content|].
  - destruct HR as (outer & inner & Hd & Hf & Hi & Ho). by eapply read_outer.
  - unfold read. rewrite (proj2 (validate_Ok p) Hp). cbn [result_bind]. unfold stored in HR. by rewrite HR.
Qed.

Lemma represents_step scope dir spec o r dir' : no_collisions -> file_op_ok o ->
  represents scope dir spec -> file_op scope dir o = (r, dir') ->
  represents scope dir' (spec_op spec o r).
Proof.
  intros Hn Hok HR Hop. destruct o as [p plain n1 n2 uuid fault|p fails]; simpl in *.
  - destruct Hok as (Hf & H1 & H2).
    destruct (write_cases _ _ _ _ _ _ _ _ _ _ Hop) as [(e & -> & Hs)|(outer & -> & _ & Hp & Ho & Hs)].
    + intros q Hq. specialize (HR q Hq). by rewrite Hs.
    + destruct (outer_bytes_sealed _ _ _ _ _ _ H1 H2 Ho) as (inner & Hi & Hout).
      intros q Hq. simpl. rewrite Hs. destruct (decide (p = q)) as [<-|Hne].
      * rewrite lookup_insert_eq, decide_True by done. by exists outer, inner.
      * rewrite lookup_insert_ne by done. rewrite decide_False; [by apply HR|].
        intros E. apply Hne. symmetry. by eapply stored_name_inj.
  - unfold remove in Hop. destruct (validate p) as [[]|e]; [|by injection Hop as <- <-].
    destruct fails; injection Hop as <- <-; [done|]. intros q Hq. specialize (HR q Hq). simpl. unfold stored in *.
    destruct (decide (p = q)) as [<-|Hne]; [by rewrite lookup_delete_eq, lookup_delete_eq|].
    rewrite (lookup_delete_ne spec) by done. rewrite lookup_delete_ne; [done|].
    intros E. apply Hne. by eapply stored_name_inj.
Qed.

Lemma represents_empty scope : represents scope ∅ ∅.
Proof. intros q _. rewrite lookup_empty. apply lookup_empty. Qed.

Lemma represents_run scope ops d0 s0 dir spec : no_collisions -> Forall file_op_ok ops ->
  represents scope d0 s0 -> run_files scope d0 s0 ops = (dir, spec) -> represents scope dir spec.
Proof.
  intros Hn Hops. revert d0 s0. induction Hops as [|o ops Ho _ IH]; intros d0 s0 H0; cbn [run_files].
  { by intros [= <- <-]. }
  destruct (file_op scope d0 o) as [r d1] eqn:Hop. apply IH. by eapply represents_step.
Qed.

(** C25. The repository of a scope refines a map from paths to contents.
    After any sequence of writes and removals, whatever error the file
    system reports at whatever step (the directory, the temporary file,
    possibly half written, its reopening, the sync, the rename, the
    removal), every path reads as the content of its last successful write,
    unless a successful removal came after it, and then as not found: an
    operation that fails has no effect and one that succeeds has all of it.
    Assumed of HMAC: no collisions; the JSON of a path fits the address
    space. *)
Theorem file_repo_refines scope ops dir spec p : no_collisions -> Forall file_op_ok ops ->
  run_files scope ∅ ∅ ops = (dir, spec) -> starts_with (lit "/") p = true ->
  read dir p scope false = ok_or (FIo NotFound) (spec !! p).
Proof.
  intros Hn Hops Hrun Hp. eapply represents_read; [|done].
  by eapply represents_run; [| |apply represents_empty|].
Qed.

(** A stored file is bound to its path, its name and its keys: take the
    bytes a successful write of a path stored and place them, in any
    directory, where a path of any scope is looked up.  Under the idealised
    strength of the primitives reading succeeds exactly for the path that
    was written, under the same key, and gives the content that was
    written; in all other cases it is an error, never another content. *)
Theorem stored_file_bound dir p plain scope n1 n2 uuid dir' outer d q scope' c :
  strong -> meta_fits p -> length n1 = NONCE_LEN -> length n2 = NONCE_LEN ->
  write dir p plain scope n1 n2 uuid None = (Ok tt, dir') -> stored dir' scope p = Some outer ->
  stored d scope' q = Some outer ->
  read d q scope' false = Ok c <->
  q = p /\ c = plain /\ file_keys scope' = file_keys scope.
Proof.
  intros HS Hf H1 H2 Hw Hd Hq.
  destruct (write_cases _ _ _ _ _ _ _ _ _ _ Hw) as [(e & [=] & _)|(o & _ & _ & Hp & Ho & Hs)].
  rewrite Hs, decide_True in Hd by done. injection Hd as ->.
  destruct (outer_bytes_sealed _ _ _ _ _ _ H1 H2 Ho) as (inner & Hi & Hout). split.
  - intros Hr. unfold read in Hr. destruct (validate q); [|done]. cbn [result_bind] in Hr.
    unfold stored in Hq. rewrite Hq in Hr. cbn [ok_or result_bind] in Hr.
    destruct (aead_open outer _ _) as [b|] eqn:Eo; [|done]. cbn [result_bind result_map_err] in Hr.
    apply (aead_open_sealed _ _ _ _ _ _ _ HS Hout) in Eo as (Hname & Hkey & ->).
    apply as_bytes_inj in Hname. unfold dek_for_name in Hkey. simpl in Hkey.
    apply (hkdf_inj HS) in Hkey as [Hkey _].
    pose proof (sealed_length _ _ _ _ Hi) as Hlen. unfold meta_fits, usize_max, u64_max in Hf.
    assert (Hb : Z.of_nat (length inner) + 8 <= usize_max).
    { rewrite Hlen. change EMPTY_ENVELOPE_LEN with 33%nat. unfold usize_max, u64_max. lia. }
    destruct (outer_cut inner plain Hb) as (C1 & C2 & C3 & C4 & C5). rewrite C1, C2 in Hr.
    rewrite (proj2 (Z.ltb_ge _ _)) in Hr by done. rewrite C3, C4, C5 in Hr.
    destruct (aead_open inner _ _) as [b|] eqn:Ei; [|done]. cbn [result_bind result_map_err] in Hr.
    apply (aead_open_sealed _ _ _ _ _ _ _ HS Hi) in Ei as (_ & _ & ->).
    rewrite meta_roundtrip in Hr. cbn [result_bind result_map_err] in Hr.
    destruct (str_eqb p q) eqn:Epq; [|done]. apply str_eqb_eq in Epq as ->. injection Hr as <-.
    split_and!; [done..|]. unfold file_keys in *.
    destruct scope, scope'; simpl in *; apply (hkdf_inj HS) in Hkey as [Hk _];
      unfold FileKeys_from_master_key, FileKeys_from_service_key, derive_hmac_key,
        derive_hmac_key_service, derive_dek_from, derive_service_dek; by rewrite Hk.
  - intros (-> & -> & Hk). eapply read_outer; unfold stored in *; rewrite ?Hk; [done|done| |done|done].
    rewrite <- Hk. exact Hq.
Qed.
End FileRepo.

(** ** Witnesses *)
Definition plain_meta : MetaJson :=
  {| meta_to_vec p := p; meta_from_slice b := Ok b; meta_roundtrip p := eq_refl |}.

Lemma is_some_default {A} (d : A) o : is_some o = true -> o = Some (default d o).
Proof. by destruct o. Qed.
Lemma fst_eq {A B} (p : A * B) a : p.1 = a -> p = (a, p.2).
Proof. by destruct p; intros <-. Qed.

Lemma demo_no_collisions : @no_collisions demo_kdf.
Proof. intros k a b E. injection E as E. by apply (inj encode) in E. Qed.

Lemma file_repo_refines_witness :
  let wr p c fault := OpWrite (lit p) (lit c) demo_nonce demo_nonce (lit "u") fault in
  let ops := [wr "/a.md"%string "one"%string None; wr "/b.md"%string "two"%string None;
              wr "/a.md"%string "three"%string (Some (RenameFails OtherKind)); OpRemove (lit "/b.md") false] in
  let run := @run_files demo_aead demo_kdf wide_hex plain_meta (ScopeUser (demo_master 1)) ∅ ∅ ops in
  @read demo_aead demo_kdf wide_hex plain_meta run.1 (lit "/a.md") (ScopeUser (demo_master 1)) false = Ok (lit "one") /\
  @read demo_aead demo_kdf wide_hex plain_meta run.1 (lit "/b.md") (ScopeUser (demo_master 1)) false = Err (FIo NotFound).
Proof.
  intros wr ops run.
  assert (Hops : Forall (@file_op_ok plain_meta) ops) by by repeat constructor; vm_compute.
  pose proof (fun p => @file_repo_refines demo_aead demo_kdf wide_hex plain_meta
    (ScopeUser (demo_master 1)) ops run.1 run.2 p demo_no_collisions Hops (surjective_pairing run)) as H.
  split; (rewrite H; [by vm_compute|done]).
Defined.

Lemma stored_file_bound_witness :
  let scope := ScopeUser (demo_master 1) in
  let w := @write demo_aead demo_kdf wide_hex plain_meta ∅ (lit "/a.md") (lit "text") scope demo_nonce demo_nonce
             (lit "u") None in
  let outer := default [] (@stored demo_kdf wide_hex w.2 scope (lit "/a.md")) in
  let swapped := <[@stored_name demo_kdf wide_hex (@file_keys demo_kdf scope) (lit "/b.md") := outer]> ∅ in
  @read demo_aead demo_kdf wide_hex plain_meta w.2 (lit "/a.md") scope false = Ok (lit "text") /\
  @read demo_aead demo_kdf wide_hex plain_meta swapped (lit "/b.md") scope false <> Ok (lit "text").
Proof.
  intros scope w outer swapped.
  assert (Hr : w.1 = Ok tt) by (vm_compute; reflexivity).
  assert (Hs : is_some (@stored demo_kdf wide_hex w.2 scope (lit "/a.md")) = true) by (vm_compute; reflexivity).
  assert (Hf : @meta_fits plain_meta (lit "/a.md")) by by vm_compute.
  assert (Hw : w = (Ok tt, w.2)) by exact (fst_eq _ _ Hr).
  assert (Ho : @stored demo_kdf wide_hex w.2 scope (lit "/a.md") = Some outer) by exact (is_some_default _ _ Hs).
  pose proof (fun d q => @stored_file_bound demo_aead demo_kdf wide_hex plain_meta ∅ (lit "/a.md") (lit "text")
    scope demo_nonce demo_nonce (lit "u") w.2 outer d q scope (lit "text") demo_strong
    Hf eq_refl eq_refl Hw Ho) as H.
  clear Hr Hs. unfold swapped. clear swapped. clearbody outer. clearbody w.
  split.
  - by apply (H _ _ Ho).
  - intros E. apply H in E as (E & _); [discriminate E|]. unfold stored. apply lookup_insert_eq.
Defined.
