(* ===== verification/Config.v ===== *)
(** * Runtime configuration

    [crates/mycelium-store/src/config.rs]: the config table, a map from keys
    to JSON text, and the sealed values in it.  [serde_json] on the value
    types is an interface; the [updated_at] column, which nothing reads, is
    left out. *)
From S2P Require Import Prelude Text Clock Crypto.
Open Scope Z_scope.

Inductive ConfigError := GDb | GCorrupt (key : str).

(** [serde_json] at one type.  What [to_string] prints parses back. *)
Class Json (A : Type) := {
  json_to_string : A -> str;
  json_from_str : str -> option A;
  json_roundtrip a : json_from_str (json_to_string a) = Some a }.

Abbreviation ConfigTable := (gmap str str) (only parsing).

Section Config.
Context {AE : Aead} {KD : Kdf} {HX : Hex}.
Context {JS : Json str}.

Definition config_dek (service_key : ServiceKey) : Dek :=
  mkDek (hkdf_expand (service service_key) (lit "mycelium2/config-dek/v1")).

Definition config_aad (key : str) : bytes :=
  as_bytes (lit "mycelium2/config-" ++ key ++ lit "/v1").

(** The result of a panicking call is [None]. *)
Definition seal_config {A} `{Json A} (service_key : ServiceKey) (key : str) (value : A) (nonce : bytes)
    : option str :=
  hex_encode <$> result_ok (aead_seal nonce (as_bytes (json_to_string value)) (config_aad key) (config_dek service_key)).

(** [fails]: the database refuses the statement. *)
Definition set_value {A} `{Json A} (t : ConfigTable) (key : str) (value : A) (fails : bool)
    : result unit ConfigError * ConfigTable :=
  if fails then (Err GDb, t) else (Ok tt, <[key := json_to_string value]> t).

Definition get_value {A} `{Json A} (t : ConfigTable) (key : str) (fails : bool)
    : result (option A) ConfigError :=
  if fails then Err GDb
  else match t !! key with
       | None => Ok None
       | Some json => match json_from_str json with
                      | Some v => Ok (Some v)
                      | None => Err (GCorrupt key)
                      end
       end.

Definition delete_value (t : ConfigTable) (key : str) (fails : bool) : result unit ConfigError * ConfigTable :=
  if fails then (Err GDb, t) else (Ok tt, delete key t).

Definition config_keys (t : ConfigTable) : list str := sort_by str_cmp (map_to_list t).*1.

Definition raw_get (t : ConfigTable) (key : str) (fails : bool) : result (option str) ConfigError :=
  if fails then Err GDb else Ok (t !! key).

(** [serde_json::from_slice]: the bytes must be UTF-8. *)
Definition json_from_slice {A} `{Json A} (b : bytes) : option A := s ← from_utf8 b; json_from_str s.

Definition get_sealed {A} `{Json A} (t : ConfigTable) (service_key : ServiceKey) (key : str) (fails : bool)
    : option A :=
  o ← result_ok (raw_get t key fails);
  raw ← o;
  match (hex_envelope ← json_from_str (A := str) raw; hex_decode hex_envelope) with
  | Some sealed =>
      plain ← result_ok (aead_open sealed (config_aad key) (config_dek service_key));
      json_from_slice plain
  | None => json_from_str raw
  end.

(** A sealed value as the web layer stores it *)
Definition set_sealed {A} `{Json A} (t : ConfigTable) (service_key : ServiceKey) (key : str) (value : A)
    (nonce : bytes) (fails : bool) : option (result unit ConfigError * ConfigTable) :=
  text ← seal_config service_key key value nonce; Some (set_value t key text fails).

Lemma config_aad_inj a b : config_aad a = config_aad b -> a = b.
Proof.
  intros E%as_bytes_inj%(app_inv_head (lit "mycelium2/config-")). by apply app_inv_tail in E.
Qed.

(** A sealed configuration value reads back exactly under the service
    key and the configuration key it was saved with.  Under the idealised
    strength of the primitives a row copied to another configuration key,
    or read with another service key, gives nothing: it is not taken for a
    value of that key, and a row that decrypts badly never falls through to
    the plaintext format.  Other keys of the table are untouched. *)
Theorem sealed_config_bound {A} `{Json A} t service_key key value nonce t' row :
  strong -> length nonce = NONCE_LEN ->
  Forall (fun c => is_scalar c = true) (json_to_string value) ->
  set_sealed t service_key key value nonce false = Some (Ok tt, t') -> t' !! key = Some row ->
  get_sealed t' service_key key false = Some value /\
  (forall key', key' <> key -> t' !! key' = t !! key') /\
  (forall t2 service_key' key' v, t2 !! key' = Some row ->
     get_sealed t2 service_key' key' false = Some v ->
     service_key' = service_key /\ key' = key /\ v = value).
Proof.
  intros HS Hn Hv. unfold set_sealed, seal_config.
  destruct (aead_seal nonce _ _ _) as [b|] eqn:Es; simpl; [|done]. unfold set_value.
  intros [= <-]. rewrite lookup_insert_eq. intros [= <-].
  apply aead_seal_Ok in Es; [|done].
  assert (Hread : forall t2 sk k v, t2 !! k = Some (json_to_string (hex_encode b)) ->
    get_sealed t2 sk k false = Some v <-> sk = service_key /\ k = key /\ v = value).
  { intros t2 sk k v Hrow. unfold get_sealed. simpl. rewrite Hrow. simpl. rewrite json_roundtrip. simpl.
    rewrite hex_roundtrip. simpl. split.
    - destruct (aead_open b _ _) as [p|] eqn:E; simpl; [|done].
      apply (aead_open_sealed _ _ _ _ _ _ _ HS Es) in E as (Ha & Hk & ->).
      apply config_aad_inj in Ha as ->. simpl in Hk. apply (hkdf_inj HS) in Hk as [Hk _].
      unfold json_from_slice. rewrite from_utf8_as_bytes by done. simpl. rewrite json_roundtrip.
      intros [= <-]. by destruct sk, service_key; simpl in Hk; subst.
    - intros (-> & -> & ->).
      rewrite (proj2 (aead_open_sealed _ _ _ _ _ _ _ HS Es)) by done. simpl.
      unfold json_from_slice. rewrite from_utf8_as_bytes by done. simpl. apply json_roundtrip. }
  split_and!.
  - apply Hread; [apply lookup_insert_eq|done].
  - intros key' Hne. by rewrite lookup_insert_ne.
  - intros t2 sk k v Hrow. by apply Hread.
Qed.
End Config.

(** ** Witness *)
Definition text_json : Json (list N) :=
  {| json_to_string s := s; json_from_str s := Some s; json_roundtrip s := eq_refl |}.

Lemma sealed_config_bound_witness :
  let saved := @set_sealed demo_aead demo_kdf wide_hex text_json _ text_json ∅ (mkService [7%N]) (lit "llm")
                 (lit "secret") demo_nonce false in
  exists t' row, saved = Some (Ok tt, t') /\ t' !! lit "llm" = Some row /\
    @get_sealed demo_aead demo_kdf wide_hex text_json _ text_json t' (mkService [7%N]) (lit "llm") false = Some (lit "secret") /\
    @get_sealed demo_aead demo_kdf wide_hex text_json _ text_json (<[lit "oidc" := row]> t') (mkService [7%N]) (lit "oidc") false
      <> Some (lit "secret").
Proof.
  intros saved. unfold saved, set_sealed, set_value.
  destruct (seal_config _ _ _ _) as [row|] eqn:E; [|by vm_compute in E]. cbn [mbind option_bind].
  eexists _, row. split; [done|]. rewrite lookup_insert_eq. split; [done|].
  destruct (@sealed_config_bound demo_aead demo_kdf wide_hex text_json _ text_json ∅ (mkService [7%N]) (lit "llm")
    (lit "secret") demo_nonce (<[lit "llm" := row]> ∅) row demo_strong eq_refl) as (H1 & _ & H3).
  - by repeat constructor.
  - unfold set_sealed. by rewrite E.
  - by rewrite lookup_insert_eq.
  - split; [exact H1|]. intros E'. apply H3 in E' as (_ & E' & _); [discriminate E'|apply lookup_insert_eq].
Defined.
