(* ===== verification/Lifecycle.v ===== *)
(** * Lifecycle settings

    The settings half of [crates/mycelium-store/src/revisions.rs]: the
    process-global tunables (atomics, here the fields of one record), their
    clamping setters and getters, and the sealed [lifecycle] row that drives
    them.  Atomics of float settings hold the bits of the value, here the
    value. *)
From S2P Require Import Prelude Float Text Clock Crypto Config Search.
Open Scope Z_scope.

(** ** Defaults and ranges *)
Definition DEFAULT_REVISION_RETENTION : Z := 200.
Definition REVISION_RETENTION_RANGE : Z * Z := (25, 2000).
Definition DEFAULT_QUERY_TOP_K : Z := 8.
Definition QUERY_TOP_K_RANGE : Z * Z := (1, 64).
Definition DEFAULT_RRF_K : Z := 60.
Definition RRF_K_RANGE : Z * Z := (1, 1024).
Definition DEFAULT_RRF_WEIGHT : f32 := f32_one.
Definition RRF_WEIGHT_RANGE : f32 * f32 := (f32_zero, f32_of_Z 10).
Definition DEFAULT_DEDUP_COSINE : f32 := f32_div (f32_of_Z 92) (f32_of_Z 100).
Definition DEDUP_COSINE_RANGE : f32 * f32 := (f32_half, f32_one).
Definition DEFAULT_STALE_DAYS : Z := 90.
Definition STALE_DAYS_RANGE : Z * Z := (7, 3650).
Definition DEFAULT_RECENT_WINDOW : Z := 14.
Definition RECENT_WINDOW_RANGE : Z * Z := (1, 365).
Definition DEFAULT_CONSOLIDATION_PATCHES : Z := 8.
Definition CONSOLIDATION_PATCHES_RANGE : Z * Z := (2, 100).
Definition DEFAULT_DREAM_INTERVAL_S : Z := 86400.
Definition DREAM_INTERVAL_S_RANGE : Z * Z := (3600, 2592000).
Definition LIFECYCLE_CONFIG_KEY : str := lit "lifecycle".

(** [Ord::clamp] and [f32::clamp] *)
Definition clamp_in (v : Z) (r : Z * Z) : Z := clamp v r.1 r.2.
Definition f32_lt (a b : f32) : bool := match partial_cmp a b with Some Lt => true | _ => false end.
Definition f32_clamp (v : f32) (r : f32 * f32) : f32 :=
  let v := if f32_lt v r.1 then r.1 else v in if f32_lt r.2 v then r.2 else v.

Definition clamp_retention (v : Z) : Z := clamp_in v REVISION_RETENTION_RANGE.
Definition clamp_query_top_k (v : Z) : Z := clamp_in v QUERY_TOP_K_RANGE.
Definition clamp_rrf_k (v : Z) : Z := clamp_in v RRF_K_RANGE.
Definition clamp_fusion_weight (w : f32) : f32 :=
  if is_nan w then DEFAULT_RRF_WEIGHT else f32_clamp w RRF_WEIGHT_RANGE.
Definition clamp_dedup_cosine (t : f32) : f32 :=
  if is_nan t then DEFAULT_DEDUP_COSINE else f32_clamp t DEDUP_COSINE_RANGE.
Definition clamp_stale_days (v : Z) : Z := clamp_in v STALE_DAYS_RANGE.
Definition clamp_recent_window (v : Z) : Z := clamp_in v RECENT_WINDOW_RANGE.
Definition clamp_consolidation_patches (v : Z) : Z := clamp_in v CONSOLIDATION_PATCHES_RANGE.
Definition clamp_dream_interval_s (v : Z) : Z := clamp_in v DREAM_INTERVAL_S_RANGE.

(** ** The process globals *)
Record Statics := mkStatics {
  REVISION_RETENTION : Z; QUERY_TOP_K : Z; RRF_K : Z; RRF_WEIGHT_LEX : f32; RRF_WEIGHT_VEC : f32;
  DEDUP_COSINE : f32; STALE_DAYS : Z; RECENT_WINDOW : Z; CONSOLIDATION_PATCHES : Z }.
Definition statics_init : Statics :=
  mkStatics DEFAULT_REVISION_RETENTION DEFAULT_QUERY_TOP_K DEFAULT_RRF_K DEFAULT_RRF_WEIGHT DEFAULT_RRF_WEIGHT
    DEFAULT_DEDUP_COSINE DEFAULT_STALE_DAYS DEFAULT_RECENT_WINDOW DEFAULT_CONSOLIDATION_PATCHES.

Definition set_revision_retention (v : Z) (s : Statics) : Statics :=
  mkStatics (clamp_retention v) (QUERY_TOP_K s) (RRF_K s) (RRF_WEIGHT_LEX s) (RRF_WEIGHT_VEC s)
    (DEDUP_COSINE s) (STALE_DAYS s) (RECENT_WINDOW s) (CONSOLIDATION_PATCHES s).
Definition set_query_top_k (v : Z) (s : Statics) : Statics :=
  mkStatics (REVISION_RETENTION s) (clamp_query_top_k v) (RRF_K s) (RRF_WEIGHT_LEX s) (RRF_WEIGHT_VEC s)
    (DEDUP_COSINE s) (STALE_DAYS s) (RECENT_WINDOW s) (CONSOLIDATION_PATCHES s).
Definition set_rrf_k (v : Z) (s : Statics) : Statics :=
  mkStatics (REVISION_RETENTION s) (QUERY_TOP_K s) (clamp_rrf_k v) (RRF_WEIGHT_LEX s) (RRF_WEIGHT_VEC s)
    (DEDUP_COSINE s) (STALE_DAYS s) (RECENT_WINDOW s) (CONSOLIDATION_PATCHES s).
Definition set_rrf_weight_lex (w : f32) (s : Statics) : Statics :=
  mkStatics (REVISION_RETENTION s) (QUERY_TOP_K s) (RRF_K s) (clamp_fusion_weight w) (RRF_WEIGHT_VEC s)
    (DEDUP_COSINE s) (STALE_DAYS s) (RECENT_WINDOW s) (CONSOLIDATION_PATCHES s).
Definition set_rrf_weight_vec (w : f32) (s : Statics) : Statics :=
  mkStatics (REVISION_RETENTION s) (QUERY_TOP_K s) (RRF_K s) (RRF_WEIGHT_LEX s) (clamp_fusion_weight w)
    (DEDUP_COSINE s) (STALE_DAYS s) (RECENT_WINDOW s) (CONSOLIDATION_PATCHES s).
Definition set_dedup_cosine (t : f32) (s : Statics) : Statics :=
  mkStatics (REVISION_RETENTION s) (QUERY_TOP_K s) (RRF_K s) (RRF_WEIGHT_LEX s) (RRF_WEIGHT_VEC s)
    (clamp_dedup_cosine t) (STALE_DAYS s) (RECENT_WINDOW s) (CONSOLIDATION_PATCHES s).
Definition set_stale_days (v : Z) (s : Statics) : Statics :=
  mkStatics (REVISION_RETENTION s) (QUERY_TOP_K s) (RRF_K s) (RRF_WEIGHT_LEX s) (RRF_WEIGHT_VEC s)
    (DEDUP_COSINE s) (clamp_stale_days v) (RECENT_WINDOW s) (CONSOLIDATION_PATCHES s).
Definition set_recent_window (v : Z) (s : Statics) : Statics :=
  mkStatics (REVISION_RETENTION s) (QUERY_TOP_K s) (RRF_K s) (RRF_WEIGHT_LEX s) (RRF_WEIGHT_VEC s)
    (DEDUP_COSINE s) (STALE_DAYS s) (clamp_recent_window v) (CONSOLIDATION_PATCHES s).
Definition set_consolidation_patches (v : Z) (s : Statics) : Statics :=
  mkStatics (REVISION_RETENTION s) (QUERY_TOP_K s) (RRF_K s) (RRF_WEIGHT_LEX s) (RRF_WEIGHT_VEC s)
    (DEDUP_COSINE s) (STALE_DAYS s) (RECENT_WINDOW s) (clamp_consolidation_patches v).

Definition revision_retention (s : Statics) : Z := clamp_retention (REVISION_RETENTION s).
Definition query_top_k (s : Statics) : Z := clamp_query_top_k (QUERY_TOP_K s).
Definition rrf_params (s : Statics) : RrfParams :=
  mkRrf (f32_of_Z (clamp_rrf_k (RRF_K s))) (clamp_fusion_weight (RRF_WEIGHT_LEX s))
    (clamp_fusion_weight (RRF_WEIGHT_VEC s)).
Definition dedup_cosine (s : Statics) : f32 := clamp_dedup_cosine (DEDUP_COSINE s).
Definition stale_days (s : Statics) : Z := clamp_stale_days (STALE_DAYS s).
Definition recent_window (s : Statics) : Z := clamp_recent_window (RECENT_WINDOW s).
Definition consolidation_patches (s : Statics) : Z := clamp_consolidation_patches (CONSOLIDATION_PATCHES s).

(** ** The sealed row *)
Record LifecycleConfig := mkLifecycle {
  lc_retention : Z; lc_top_k : Z; lc_rrf_k : Z; lc_w_lex : f32; lc_w_vec : f32; lc_dedup : f32;
  lc_stale : Z; lc_recent : Z; lc_patches : Z; lc_dream_interval : Z; lc_dream_enabled : bool }.
Definition LifecycleConfig_default : LifecycleConfig :=
  mkLifecycle DEFAULT_REVISION_RETENTION DEFAULT_QUERY_TOP_K DEFAULT_RRF_K DEFAULT_RRF_WEIGHT DEFAULT_RRF_WEIGHT
    DEFAULT_DEDUP_COSINE DEFAULT_STALE_DAYS DEFAULT_RECENT_WINDOW DEFAULT_CONSOLIDATION_PATCHES
    DEFAULT_DREAM_INTERVAL_S true.

Definition LifecycleConfig_clamp (c : LifecycleConfig) : LifecycleConfig :=
  mkLifecycle (clamp_retention (lc_retention c)) (clamp_query_top_k (lc_top_k c)) (clamp_rrf_k (lc_rrf_k c))
    (clamp_fusion_weight (lc_w_lex c)) (clamp_fusion_weight (lc_w_vec c)) (clamp_dedup_cosine (lc_dedup c))
    (clamp_stale_days (lc_stale c)) (clamp_recent_window (lc_recent c)) (clamp_consolidation_patches (lc_patches c))
    (clamp_dream_interval_s (lc_dream_interval c)) (lc_dream_enabled c).

(** The setters of [sync_lifecycle_from_store], in its order *)
Definition apply_lifecycle (cfg : LifecycleConfig) (s : Statics) : Statics :=
  let s := set_revision_retention (lc_retention cfg) s in
  let s := set_query_top_k (lc_top_k cfg) s in
  let s := set_rrf_k (lc_rrf_k cfg) s in
  let s := set_rrf_weight_lex (lc_w_lex cfg) s in
  let s := set_rrf_weight_vec (lc_w_vec cfg) s in
  let s := set_dedup_cosine (lc_dedup cfg) s in
  let s := set_stale_days (lc_stale cfg) s in
  let s := set_recent_window (lc_recent cfg) s in
  set_consolidation_patches (lc_patches cfg) s.

Definition sync_lifecycle_from_store `{Aead, Kdf, Hex, Json str, Json LifecycleConfig}
    (t : ConfigTable) (service_key : ServiceKey) (fails : bool) (s : Statics) : Statics :=
  apply_lifecycle (default LifecycleConfig_default (get_sealed t service_key LIFECYCLE_CONFIG_KEY fails)) s.

(** ** Clamping *)
Definition f32_le (a b : f32) : Prop := f32_lt b a = false.
Definition within (r : f32 * f32) (v : f32) : Prop := is_nan v = false /\ f32_le r.1 v /\ f32_le v r.2.

Lemma f32_lt_irrefl v : f32_lt v v = false.
Proof.
  unfold f32_lt. destruct (is_nan v) eqn:Hn.
  - by destruct v.
  - rewrite partial_cmp_key by done. unfold key_cmp, then_with. by rewrite !Z.compare_refl.
Qed.

Lemma f32_lt_asym a b : f32_lt a b = true -> f32_lt b a = false.
Proof.
  unfold f32_lt. destruct (is_nan a) eqn:Ha; [by destruct a|].
  destruct (is_nan b) eqn:Hb; [by destruct a as [| | |[]], b|].
  rewrite !partial_cmp_key by done. rewrite (key_cmp_opp (float_key a) (float_key b)).
  by destruct (key_cmp _ _).
Qed.

Lemma f32_clamp_within r v : is_nan v = false -> is_nan r.1 = false -> is_nan r.2 = false ->
  f32_le r.1 r.2 -> within r (f32_clamp v r).
Proof.
  intros Hv H1 H2 Hr. unfold f32_clamp, within, f32_le in *.
  destruct (f32_lt v r.1) eqn:E1.
  - rewrite Hr. split_and!; [done|apply f32_lt_irrefl|done].
  - destruct (f32_lt r.2 v) eqn:E2; [|done]. split_and!; [done|done|apply f32_lt_irrefl].
Qed.

Lemma f32_clamp_id r v : within r v -> f32_clamp v r = v.
Proof. unfold within, f32_le, f32_clamp. intros (_ & -> & H). by rewrite H. Qed.

Lemma weight_within w : within RRF_WEIGHT_RANGE (clamp_fusion_weight w).
Proof.
  unfold clamp_fusion_weight. destruct (is_nan w) eqn:E; [by vm_compute|]. by apply f32_clamp_within.
Qed.
Lemma dedup_within t : within DEDUP_COSINE_RANGE (clamp_dedup_cosine t).
Proof.
  unfold clamp_dedup_cosine. destruct (is_nan t) eqn:E; [by vm_compute|]. by apply f32_clamp_within.
Qed.

Lemma weight_idem w : clamp_fusion_weight (clamp_fusion_weight w) = clamp_fusion_weight w.
Proof.
  pose proof (weight_within w) as H. unfold clamp_fusion_weight at 1. destruct H as (Hn & H).
  rewrite Hn. by apply f32_clamp_id.
Qed.
Lemma dedup_idem t : clamp_dedup_cosine (clamp_dedup_cosine t) = clamp_dedup_cosine t.
Proof.
  pose proof (dedup_within t) as H. unfold clamp_dedup_cosine at 1. destruct H as (Hn & H).
  rewrite Hn. by apply f32_clamp_id.
Qed.

Lemma clamp_in_idem v r : r.1 <= r.2 -> clamp_in (clamp_in v r) r = clamp_in v r.
Proof. intros Hr. unfold clamp_in. apply clamp_id. by apply clamp_bounds. Qed.

Ltac clamp_idem :=
  unfold clamp_retention, clamp_query_top_k, clamp_rrf_k, clamp_stale_days, clamp_recent_window,
    clamp_consolidation_patches, clamp_dream_interval_s;
  rewrite ?weight_idem, ?dedup_idem, ?clamp_in_idem by done.

Lemma apply_lifecycle_fields c s : apply_lifecycle c s =
  mkStatics (clamp_retention (lc_retention c)) (clamp_query_top_k (lc_top_k c)) (clamp_rrf_k (lc_rrf_k c))
    (clamp_fusion_weight (lc_w_lex c)) (clamp_fusion_weight (lc_w_vec c)) (clamp_dedup_cosine (lc_dedup c))
    (clamp_stale_days (lc_stale c)) (clamp_recent_window (lc_recent c)) (clamp_consolidation_patches (lc_patches c)).
Proof. reflexivity. Qed.

(** No setting is ever read outside its documented range: whatever the
    process globals hold (also a value that came in by another path, also a
    NaN), every getter answers within the range, the float settings are no
    NaN; after a sync the getters are the clamped fields of the row, or of
    the defaults if the row is missing or unreadable; and clamping on save
    changes nothing that a later sync sees, and is idempotent. *)
Theorem lifecycle_in_range `{Aead, Kdf, Hex, Json str, Json LifecycleConfig} t key fails s cfg :
  get_sealed t key LIFECYCLE_CONFIG_KEY fails = cfg ->
  let s' := sync_lifecycle_from_store t key fails s in
  let c := LifecycleConfig_clamp (default LifecycleConfig_default cfg) in
  (25 <= revision_retention s <= 2000 /\ 1 <= query_top_k s <= 64 /\ 7 <= stale_days s <= 3650 /\
   1 <= recent_window s <= 365 /\ 2 <= consolidation_patches s <= 100 /\
   within RRF_WEIGHT_RANGE (w_lex (rrf_params s)) /\ within RRF_WEIGHT_RANGE (w_vec (rrf_params s)) /\
   within DEDUP_COSINE_RANGE (dedup_cosine s)) /\
  (revision_retention s' = lc_retention c /\ query_top_k s' = lc_top_k c /\
   rrf_params s' = mkRrf (f32_of_Z (lc_rrf_k c)) (lc_w_lex c) (lc_w_vec c) /\
   dedup_cosine s' = lc_dedup c /\ stale_days s' = lc_stale c /\ recent_window s' = lc_recent c /\
   consolidation_patches s' = lc_patches c) /\
  apply_lifecycle c s = s' /\ LifecycleConfig_clamp c = c.
Proof.
  intros <-. split_and!;
    try (apply weight_within); try (apply dedup_within);
    try (by apply (clamp_bounds _ 25 2000)); try (by apply (clamp_bounds _ 1 64));
    try (by apply (clamp_bounds _ 7 3650)); try (by apply (clamp_bounds _ 1 365));
    try (by apply (clamp_bounds _ 2 100)).
  all: unfold sync_lifecycle_from_store; rewrite ?apply_lifecycle_fields;
    unfold LifecycleConfig_clamp, revision_retention, query_top_k,
    rrf_params, dedup_cosine, stale_days, recent_window, consolidation_patches;
    cbn -[clamp_fusion_weight clamp_dedup_cosine clamp_in f32_of_Z get_sealed]; by clamp_idem.
Qed.

(** ** Witness

    A text form of the row: every field as numbers. *)
Definition float_code (x : f32) : Z * Z * Z :=
  match x with
  | S754_zero b => (0, if b then 1 else 0, 0)
  | S754_infinity b => (1, if b then 1 else 0, 0)
  | S754_nan => (2, 0, 0)
  | S754_finite b m e => (if b then 3 else 4, Z.pos m, e)
  end.
Definition float_of_code (c : Z * Z * Z) : f32 :=
  let '(k, a, e) := c in
  if k =? 0 then S754_zero (a =? 1)
  else if k =? 1 then S754_infinity (a =? 1)
  else if k =? 2 then S754_nan
  else S754_finite (k =? 3) (Z.to_pos a) e.
Lemma float_of_code_spec x : float_of_code (float_code x) = x.
Proof. by destruct x as [[]|[]| |[] m e]. Qed.

Definition config_text (c : LifecycleConfig) : list N :=
  [Npos (encode (lc_retention c, lc_top_k c, lc_rrf_k c, float_code (lc_w_lex c), float_code (lc_w_vec c),
     float_code (lc_dedup c), lc_stale c, lc_recent c, lc_patches c, lc_dream_interval c, lc_dream_enabled c))].
Definition config_of_text (s : list N) : option LifecycleConfig :=
  match s with
  | [Npos p] =>
      '(r, k, rk, wl, wv, d, st, re, pa, di, en) ←
        (decode p : option (Z * Z * Z * (Z * Z * Z) * (Z * Z * Z) * (Z * Z * Z) * Z * Z * Z * Z * bool));
      Some (mkLifecycle r k rk (float_of_code wl) (float_of_code wv) (float_of_code d) st re pa di en)
  | _ => None
  end.
Lemma config_text_roundtrip c : config_of_text (config_text c) = Some c.
Proof. unfold config_of_text, config_text. rewrite decode_encode. simpl. rewrite !float_of_code_spec. by destruct c. Qed.
Definition lifecycle_json : Json LifecycleConfig :=
  {| json_to_string := config_text; json_from_str := config_of_text; json_roundtrip := config_text_roundtrip |}.

Definition wild_row : LifecycleConfig := mkLifecycle 5 0 9999 S754_nan (f32_of_Z (-3)) S754_nan 0 0 0 0 true.
Definition wild_statics : Statics := mkStatics 5 0 9999 S754_nan (f32_of_Z (-3)) S754_nan 0 0 0.
(** No string parses as a string: the row is the plain document. *)
Definition no_strings : Json (list N).
Proof.
  refine {| json_to_string s := 34%N :: s; json_from_str s := match s with 34%N :: s => Some s | _ => None end |}.
  done.
Defined.

Lemma lifecycle_in_range_witness :
  let table := <[LIFECYCLE_CONFIG_KEY := config_text wild_row]> ∅ in
  let s' := @sync_lifecycle_from_store demo_aead demo_kdf wide_hex no_strings lifecycle_json table (mkService []) false
              wild_statics in
  revision_retention s' = 25 /\ w_lex (rrf_params s') = f32_one /\ w_vec (rrf_params s') = f32_zero /\ 1 <= query_top_k wild_statics <= 64.
Proof.
  intros table s'.
  destruct (@lifecycle_in_range demo_aead demo_kdf wide_hex no_strings lifecycle_json table (mkService []) false
    wild_statics (Some wild_row)) as ((_ & Hk & _) & (Hr & _ & Hp & _) & _).
  - by vm_compute.
  - fold s' in Hr, Hp. rewrite Hr, Hp. split_and!; [by vm_compute..|lia|apply Hk].
Defined.
