(* ===== verification/Revisions.v ===== *)
(** * The revision log

    The log half of [crates/mycelium-store/src/revisions.rs]: numbered,
    sealed snapshots of concepts, per scope and path token, with a retention
    bound.  The table is the list of its rows in insertion order.  A record
    or prune is one transaction: it may be refused by the database, and then
    changes nothing; within it no other writer runs, because it begins with
    the write lock.  Revision numbers are far from the width of [i64]. *)
From S2P Require Import Prelude Float Text Clock Crypto Config Search Lifecycle FileRepo.
Open Scope Z_scope.

Inductive RevisionsError :=
  | RDb | RUnique | RCrypto (e : CryptoError) | RNotFound (path : str) (n : Z)
  | RInvalidOp (op : str) | RCorrupted (detail : str).

Definition REVISION_OPS : list str :=
  [lit "create"; lit "update"; lit "delete"; lit "restore"; lit "merge"; lit "consolidate"; lit "migration"].

Definition op_summary (op : str) (n : option Z) : result str RevisionsError :=
  if str_eqb op (lit "create") then Ok (lit "concept created")
  else if str_eqb op (lit "update") then Ok (lit "concept updated")
  else if str_eqb op (lit "delete") then Ok (lit "concept deleted")
  else if str_eqb op (lit "restore") then
    match n with
    | Some k => Ok (lit "restored to revision " ++ show_N (Z.to_N k))
    | None => Err (RInvalidOp (lit "restore requires the target revision number"))
    end
  else if str_eqb op (lit "merge") then Ok (lit "dream merge")
  else if str_eqb op (lit "consolidate") then Ok (lit "consolidated body history")
  else if str_eqb op (lit "migration") then Ok (lit "deprecated tag migrated to status: retired")
  else Err (RInvalidOp op).

(** A row of [concept_revisions] *)
Record Revision := mkRevision {
  v_scope : str; v_token : str; v_path : str; v_no : Z; v_op : str; v_source : str; v_summary : str;
  v_payload : bytes; v_created_at : str }.
Abbreviation Revisions := (list Revision) (only parsing).

Record RevisionEntry := mkRevisionEntry {
  re_no : Z; re_op : str; re_source : str; re_summary : str; re_created_at : str; payload_empty : bool }.
Record RevisionPathEntry := mkRevisionPathEntry {
  rp_path : str; rp_live : bool; rp_latest_no : Z; rp_last_op : str; rp_last_op_at : str }.

Record RevisionStore := mkRevisionStore { rs_scope_id : str; rs_keys : IndexKeys }.

(** What one transaction meets: the clock, the nonce, whether it commits. *)
Record Attempt := mkAttempt { at_now : str; at_nonce : bytes; at_commits : bool }.

Definition i64_of_u64 (n : Z) : Z := if n <? 9223372036854775808 then n else n - 18446744073709551616.

Section Revisions.
Context {AE : Aead} {KD : Kdf} {HX : Hex} {UT : UuidText}.

Definition RevisionStore_for_user (user_id : Uuid) (m : MasterKey) : RevisionStore :=
  mkRevisionStore (lit "user:" ++ uuid_to_string user_id) (IndexKeys_from_master_key m).
Definition RevisionStore_for_service (s : ServiceKey) (namespace : str) : RevisionStore :=
  mkRevisionStore (lit "global:" ++ namespace) (IndexKeys_from_service_key s).

Definition path_token_of (st : RevisionStore) (path : str) : str := index_token (rs_keys st) path.

Definition rev_aad (st : RevisionStore) (path_token : str) (revision_no : Z) : str :=
  lit "rev:" ++ rs_scope_id st ++ lit ":" ++ path_token ++ lit ":" ++ show_N (Z.to_N revision_no).

Definition retention_cutoff (max retention : Z) : Z := max - retention.

(** WHERE scope_id = ? AND path_token = ? *)
Definition in_chain (scope token : str) (r : Revision) : bool :=
  str_eqb (v_scope r) scope && str_eqb (v_token r) token.
Definition chain (scope token : str) (rows : Revisions) : Revisions := retain (in_chain scope token) rows.

(** COALESCE(MAX(revision_no), 0) *)
Definition max_no (rows : Revisions) : Z :=
  match rows with [] => 0 | r :: rows => fold_left (fun a r => Z.max a (v_no r)) rows (v_no r) end.

(** DELETE ... AND revision_no <= cutoff, when the cutoff is positive *)
Definition delete_below (scope token : str) (cutoff : Z) (rows : Revisions) : Revisions :=
  if 0 <? cutoff then retain (fun r => negb (in_chain scope token r && (v_no r <=? cutoff))) rows else rows.

Definition record_once (st : RevisionStore) (rows : Revisions) (path op source summary : str) (payload : bytes)
    (retention : Z) (a : Attempt) : result Z RevisionsError * Revisions :=
  if negb (at_commits a) then (Err RDb, rows)
  else
    let token := path_token_of st path in
    let max := max_no (chain (rs_scope_id st) token rows) in
    let no := max + 1 in
    match aead_seal (at_nonce a) payload (as_bytes (rev_aad st token no)) (index_dek (rs_keys st)) with
    | Err e => (Err (RCrypto e), rows)
    | Ok sealed =>
        if existsb (fun r => in_chain (rs_scope_id st) token r && (v_no r =? no)) rows then (Err RUnique, rows)
        else
          let rows := rows ++ [mkRevision (rs_scope_id st) token path no op source summary sealed (at_now a)] in
          (Ok no, delete_below (rs_scope_id st) token (retention_cutoff (max + 1) retention) rows)
    end.

(** The loop of [record_internal]; [attempts i] is what its [i]-th try
    meets. *)
Definition UNIQUE_RETRIES : nat := 3.
Fixpoint record_loop (retries : nat) (i : nat) (st : RevisionStore) (rows : Revisions)
    (path op source summary : str) (payload : bytes) (retention : Z) (attempts : nat -> Attempt)
    : result Z RevisionsError * Revisions :=
  match record_once st rows path op source summary payload retention (attempts i), retries with
  | (Err RUnique, rows), S retries =>
      record_loop retries (S i) st rows path op source summary payload retention attempts
  | r, _ => r
  end.
Definition record_as (st : RevisionStore) (rows : Revisions) (path op source summary : str) (payload : bytes)
    (retention : Z) (attempts : nat -> Attempt) : result Z RevisionsError * Revisions :=
  if negb (existsb (str_eqb op) REVISION_OPS) then (Err (RInvalidOp op), rows)
  else record_loop UNIQUE_RETRIES 0 st rows path op source summary payload retention attempts.
Definition record_rev (st : RevisionStore) (rows : Revisions) (path op summary : str) (payload : bytes)
    (retention : Z) (attempts : nat -> Attempt) : result Z RevisionsError * Revisions :=
  record_as st rows path op [] summary payload retention attempts.

(** ORDER BY revision_no DESC *)
Definition newest_first (a b : Revision) : comparison := v_no b ?= v_no a.

Definition entry_of (r : Revision) : result RevisionEntry RevisionsError :=
  if v_no r <? 0 then Err (RCorrupted (lit "negative revision_no"))
  else Ok (mkRevisionEntry (v_no r) (v_op r) (v_source r) (v_summary r) (v_created_at r)
             (length (v_payload r) <=? EMPTY_ENVELOPE_LEN)%nat).
Fixpoint collect {A B} (f : A -> result B RevisionsError) (l : list A) : result (list B) RevisionsError :=
  match l with
  | [] => Ok []
  | x :: l => (let? y := f x in let? ys := collect f l in Ok (y :: ys))%rust
  end.
Definition list_revisions (st : RevisionStore) (rows : Revisions) (path : str) (fails : bool)
    : result (list RevisionEntry) RevisionsError :=
  if fails then Err RDb
  else collect entry_of (sort_by newest_first (chain (rs_scope_id st) (path_token_of st path) rows)).

Definition get_revision (st : RevisionStore) (rows : Revisions) (path : str) (revision_no : Z) (fails : bool)
    : result bytes RevisionsError :=
  if fails then Err RDb
  else
    let token := path_token_of st path in
    (let? r := ok_or (RNotFound path revision_no)
       (find_first (fun r => in_chain (rs_scope_id st) token r && (v_no r =? i64_of_u64 revision_no)) rows) in
     result_map_err RCrypto (aead_open (v_payload r) (as_bytes (rev_aad st token revision_no)) (index_dek (rs_keys st))))%rust.

(** [list_paths]; [live] is the EXISTS over the registry.  The groups are
    the distinct (path, token) pairs. *)
Definition path_entry (live : str -> bool) (path : str) (latest_no : Z) (r : Revision)
    : result RevisionPathEntry RevisionsError :=
  if latest_no <? 0 then Err (RCorrupted (lit "negative revision_no"))
  else Ok (mkRevisionPathEntry path (live path) latest_no (v_op r) (v_created_at r)).
Definition list_paths (st : RevisionStore) (rows : Revisions) (live : str -> bool) (fails : bool)
    : result (list RevisionPathEntry) RevisionsError :=
  if fails then Err RDb
  else
    let rows := retain (fun r => str_eqb (v_scope r) (rs_scope_id st)) rows in
    let groups := remove_dups ((fun r => (v_path r, v_token r)) <$> rows) in
    let joined := g ← groups;
      let latest := max_no (retain (fun r => str_eqb (v_path r) g.1 && str_eqb (v_token r) g.2) rows) in
      (fun r => (g.1, latest, r)) <$> retain (fun r => str_eqb (v_token r) g.2 && (v_no r =? latest)) rows in
    collect (fun x => path_entry live x.1.1 x.1.2 x.2)
      (sort_by (fun a b : str * Z * Revision => str_cmp a.1.1 b.1.1) joined).

Definition prune (scope token : str) (rows : Revisions) (retention : Z) (commits : bool)
    : result Z RevisionsError * Revisions :=
  if negb commits then (Err RDb, rows)
  else
    let rows' := delete_below scope token (retention_cutoff (max_no (chain scope token rows)) retention) rows in
    (Ok (Z.of_nat (length rows - length rows')), rows').

(** [consecutive_update_count]: [patches] is the process global. *)
Fixpoint leading_updates (ops : list str) : Z :=
  match ops with
  | [] => 0
  | op :: ops => if negb (str_eqb op (lit "update")) then 0 else 1 + leading_updates ops
  end.
Definition consecutive_update_count (scope token : str) (rows : Revisions) (patches : Z) (fails : bool)
    : result Z RevisionsError :=
  if fails then Err RDb
  else Ok (leading_updates (v_op <$> take (Z.to_nat (patches + 1)) (sort_by newest_first (chain scope token rows)))).

(** ** Chains *)
Definition same_chain (scope token scope' token' : str) : bool := str_eqb scope scope' && str_eqb token token'.

Lemma in_chain_spec s t r : in_chain s t r = true <-> v_scope r = s /\ v_token r = t.
Proof. unfold in_chain. rewrite andb_true_iff, !str_eqb_eq. done. Qed.

Lemma chain_app s t l1 l2 : chain s t (l1 ++ l2) = chain s t l1 ++ chain s t l2.
Proof. apply List.filter_app. Qed.

Lemma chain_chain s t rows : chain s t (chain s t rows) = chain s t rows.
Proof. unfold chain. rewrite retain_retain. apply retain_ext. intros x _. by destruct (in_chain s t x). Qed.

(** Deleting below a cutoff in one chain *)
Lemma chain_delete_below s t c s' t' rows : chain s t (delete_below s' t' c rows) =
  if decide (s = s' /\ t = t') then delete_below s t c (chain s t rows) else chain s t rows.
Proof.
  unfold delete_below. destruct (0 <? c); [|by destruct (decide _)]. unfold chain. rewrite !retain_retain.
  destruct (decide _) as [[-> ->]|Hne].
  - apply retain_ext. intros x _. destruct (in_chain s' t' x); cbn [andb negb]; by rewrite ?andb_true_r, ?andb_false_r.
  - apply retain_ext. intros x _. destruct (in_chain s t x) eqn:E; [|by rewrite andb_false_r].
    rewrite andb_true_r. destruct (in_chain s' t' x) eqn:E'; [|done].
    apply in_chain_spec in E, E'. exfalso. apply Hne. destruct E, E'. by subst.
Qed.

(** The numbers of a chain are consecutive. *)
Definition numbered (lo : Z) (l : Revisions) : Prop := v_no <$> l = seqZ (lo + 1) (Z.of_nat (length l)).

Lemma numbered_cons lo r l : numbered lo (r :: l) <-> v_no r = lo + 1 /\ numbered (lo + 1) l.
Proof.
  unfold numbered. rewrite fmap_cons. cbn [length]. rewrite Nat2Z.inj_succ, seqZ_cons by lia.
  replace (Z.pred (Z.succ (Z.of_nat (length l)))) with (Z.of_nat (length l)) by lia.
  replace (Z.succ (lo + 1)) with (lo + 1 + 1) by lia. split; [by intros [= -> ?]|by intros [-> ->]].
Qed.

Lemma numbered_app lo l1 l2 : numbered lo (l1 ++ l2) <->
  numbered lo l1 /\ numbered (lo + Z.of_nat (length l1)) l2.
Proof.
  revert lo. induction l1 as [|r l1 IH]; intros lo.
  { cbn [app length]. rewrite Z.add_0_r. split; [by split|by intros [_ ?]]. }
  cbn [app length]. rewrite !numbered_cons, IH, Nat2Z.inj_succ.
  replace (lo + 1 + Z.of_nat (length l1)) with (lo + Z.succ (Z.of_nat (length l1))) by lia. tauto.
Qed.

Lemma numbered_lookup lo l i r : numbered lo l -> l !! i = Some r -> v_no r = lo + 1 + Z.of_nat i.
Proof.
  revert lo i. induction l as [|x l IH]; intros lo [|i]; [done..| |]; rewrite numbered_cons; intros [Hx Hl].
  - intros [= <-]. rewrite Hx. lia.
  - intros H. rewrite (IH (lo + 1) i Hl H). lia.
Qed.

Lemma max_no_numbered lo l : numbered lo l -> l <> [] -> max_no l = lo + Z.of_nat (length l).
Proof.
  destruct l as [|r l]; [done|]. rewrite numbered_cons. intros [Hr Hl] _. unfold max_no.
  assert (H : forall a, a <= lo + 1 -> lo + 1 = a \/ l <> [] ->
    fold_left (fun a r => Z.max a (v_no r)) l a = lo + Z.of_nat (length (r :: l))).
  { cbn [length]. clear Hr. revert lo Hl. induction l as [|x l IH]; intros lo Hl a Ha Hor; simpl.
    - destruct Hor as [<-|]; [lia|done].
    - apply numbered_cons in Hl as [Hx Hl]. rewrite (IH (lo + 1)); [lia|done|lia|]. left. lia. }
  apply H; [lia|]. left. lia.
Qed.

(** Retention: what a cutoff keeps of a chain *)
Lemma delete_below_numbered s t lo l c : 0 <= lo -> numbered lo l ->
  Forall (fun r => in_chain s t r = true) l ->
  delete_below s t c l = drop (Z.to_nat (c - lo)) l.
Proof.
  intros Hlo Hn Hc. unfold delete_below. destruct (Z.ltb_spec 0 c); cycle 1.
  { replace (Z.to_nat (c - lo)) with 0%nat by lia. done. }
  clear H. revert lo Hlo Hn. induction Hc as [|r l Hr _ IH]; intros lo Hlo Hn; [by rewrite drop_nil|].
  apply numbered_cons in Hn as [Hno Hn]. cbn [List.filter]. rewrite Hr. cbn [andb].
  destruct (Z.leb_spec (v_no r) c); cbn [negb].
  - replace (Z.to_nat (c - lo)) with (S (Z.to_nat (c - (lo + 1)))) by lia. cbn [drop]. apply IH; [lia|done].
  - replace (Z.to_nat (c - lo)) with 0%nat by lia. rewrite (IH (lo + 1)) by (done || lia).
    by replace (Z.to_nat (c - (lo + 1))) with 0%nat by lia.
Qed.

Lemma chain_member s t rows : Forall (fun r => in_chain s t r = true) (chain s t rows).
Proof. rewrite Forall_forall. intros r Hr. apply list_elem_of_In, List.filter_In in Hr. tauto. Qed.

(** The table's invariant: in every chain the numbers are consecutive. *)
Definition well_numbered (rows : Revisions) : Prop :=
  forall s t, exists lo, 0 <= lo /\ numbered lo (chain s t rows).

Lemma well_numbered_max s t rows : well_numbered rows ->
  exists lo, 0 <= lo /\ numbered lo (chain s t rows) /\ max_no (chain s t rows) = lo + Z.of_nat (length (chain s t rows)).
Proof.
  intros Hw. destruct (Hw s t) as (lo & Hlo & Hn). destruct (decide (chain s t rows = [])) as [E|E].
  - exists 0. rewrite E. done.
  - exists lo. split_and!; [done|done|]. by apply max_no_numbered.
Qed.

Lemma numbered_drop lo l n : numbered lo l -> exists lo', lo <= lo' /\ numbered lo' (drop n l).
Proof.
  intros Hn. rewrite <- (take_drop n l) in Hn. apply numbered_app in Hn as [_ Hn].
  eexists. split; [|done]. lia.
Qed.

Definition mine (st : RevisionStore) (path : str) (rows : Revisions) : Revisions :=
  chain (rs_scope_id st) (path_token_of st path) rows.

(** The effect of a committed record: the row joins its chain, whose newest
    [retention] rows stay; all other chains are as before. *)
Definition recorded (st : RevisionStore) (path : str) (retention : Z) (row : Revision) (rows rows' : Revisions) : Prop :=
  forall s t, chain s t rows' =
    if decide (s = rs_scope_id st /\ t = path_token_of st path)
    then drop (Z.to_nat (Z.of_nat (length (mine st path rows)) + 1 - retention)) (mine st path rows ++ [row])
    else chain s t rows.

Definition row_of (st : RevisionStore) (path op source summary : str) (payload : bytes) (now : str) (no : Z)
    (row : Revision) : Prop :=
  exists sealed, row = mkRevision (rs_scope_id st) (path_token_of st path) path no op source summary sealed now /\
    sealed_as sealed (as_bytes (rev_aad st (path_token_of st path) no)) payload (index_dek (rs_keys st)).

Lemma record_once_cases st rows path op source summary payload retention a r rows' :
  well_numbered rows -> length (at_nonce a) = NONCE_LEN ->
  record_once st rows path op source summary payload retention a = (r, rows') ->
  (exists e, r = Err e /\ e <> RUnique /\ rows' = rows) \/
  (exists row, r = Ok (max_no (mine st path rows) + 1) /\ at_commits a = true /\
     row_of st path op source summary payload (at_now a) (max_no (mine st path rows) + 1) row /\
     recorded st path retention row rows rows').
Proof.
  intros Hw Hna. unfold record_once, mine. set (s0 := rs_scope_id st). set (t0 := path_token_of st path).
  destruct (at_commits a) eqn:Hc; simpl; cycle 1.
  { intros [= <- <-]. left. by exists RDb. }
  destruct (aead_seal _ _ _ _) as [sealed|e] eqn:Es; cycle 1.
  { intros [= <- <-]. left. by eexists. }
  destruct (well_numbered_max s0 t0 rows Hw) as (lo & Hlo & Hn & Hmax).
  assert (Hfresh : existsb (fun r => in_chain s0 t0 r && (v_no r =? max_no (chain s0 t0 rows) + 1)) rows = false).
  { apply not_true_iff_false. intros (x & Hx & Hp)%existsb_exists. apply andb_true_iff in Hp as [Hin Hno].
    apply Z.eqb_eq in Hno. assert (x ∈ chain s0 t0 rows) as Hx'
      by (apply list_elem_of_In, List.filter_In; done).
    apply list_elem_of_lookup in Hx' as [i Hi]. pose proof (numbered_lookup _ _ _ _ Hn Hi).
    apply lookup_lt_Some in Hi. lia. }
  rewrite Hfresh. intros [= <- <-]. right.
  exists (mkRevision s0 t0 path (max_no (chain s0 t0 rows) + 1) op source summary sealed (at_now a)).
  split_and!; [done|done| |].
  { exists sealed. split; [done|]. by eapply aead_seal_Ok. }
  intros s t. rewrite chain_delete_below. fold s0 t0.
  assert (Happ : chain s0 t0 (rows ++ [mkRevision s0 t0 path (max_no (chain s0 t0 rows) + 1) op source summary sealed (at_now a)]) =
    chain s0 t0 rows ++ [mkRevision s0 t0 path (max_no (chain s0 t0 rows) + 1) op source summary sealed (at_now a)]).
  { rewrite chain_app. f_equal. unfold chain. simpl.
    by rewrite (proj2 (in_chain_spec _ _ _)). }
  destruct (decide _) as [[-> ->]|Hne].
  - rewrite Happ. rewrite (delete_below_numbered s0 t0 lo); [|done| |].
    + f_equal. unfold retention_cutoff. unfold mine. fold s0 t0. lia.
    + apply numbered_app. split; [done|]. apply numbered_cons. split; [|done]. simpl. lia.
    + apply Forall_app. split; [apply chain_member|]. repeat constructor. by apply in_chain_spec.
  - rewrite chain_app. unfold chain at 2. simpl. destruct (in_chain s t _) eqn:E; [|by rewrite app_nil_r].
    apply in_chain_spec in E as [<- <-]. simpl in Hne. by destruct Hne.
Qed.

Lemma recorded_well_numbered st path retention row rows rows' op source summary payload now :
  well_numbered rows -> row_of st path op source summary payload now (max_no (mine st path rows) + 1) row ->
  recorded st path retention row rows rows' -> well_numbered rows'.
Proof.
  intros Hw (sealed & -> & _) Hrec s t. rewrite Hrec. destruct (decide _) as [[-> ->]|_]; [|apply Hw].
  destruct (well_numbered_max (rs_scope_id st) (path_token_of st path) rows Hw) as (lo & Hlo & Hn & Hmax).
  fold (mine st path rows) in *.
  destruct (numbered_drop lo (mine st path rows ++ [mkRevision (rs_scope_id st) (path_token_of st path) path
    (max_no (mine st path rows) + 1) op source summary sealed now])
    (Z.to_nat (Z.of_nat (length (mine st path rows)) + 1 - retention))) as (lo' & ? & ?).
  - apply numbered_app. split; [done|]. apply numbered_cons. simpl. split; [lia|done].
  - exists lo'. split; [lia|done].
Qed.

(** The unique-violation retry never happens, so a record is one try. *)
Lemma record_as_cases st rows path op source summary payload retention attempts r rows' :
  well_numbered rows -> length (at_nonce (attempts 0%nat)) = NONCE_LEN ->
  record_as st rows path op source summary payload retention attempts = (r, rows') ->
  (exists e, r = Err e /\ rows' = rows) \/
  (exists row, r = Ok (max_no (mine st path rows) + 1) /\ existsb (str_eqb op) REVISION_OPS = true /\
     row_of st path op source summary payload (at_now (attempts 0%nat)) (max_no (mine st path rows) + 1) row /\
     recorded st path retention row rows rows').
Proof.
  intros Hw Hn. unfold record_as. destruct (existsb _ _) eqn:Hop; simpl negb; cbv iota; cycle 1.
  { intros [= <- <-]. left. by eexists. }
  unfold UNIQUE_RETRIES. cbn [record_loop].
  destruct (record_once _ _ _ _ _ _ _ _ _) as [r0 rows0] eqn:E.
  destruct (record_once_cases _ _ _ _ _ _ _ _ _ _ _ Hw Hn E) as [(e & -> & Hne & ->)|(row & -> & _ & H1 & H2)].
  - destruct e; try done; intros [= <- <-]; left; by eexists.
  - intros [= <- <-]. right. by exists row.
Qed.

(** ** Histories *)
Inductive RevOp :=
  | OpRecord (st : RevisionStore) (path op source summary : str) (payload : bytes) (retention : Z) (attempts : nat -> Attempt)
  | OpPrune (scope token : str) (retention : Z) (commits : bool).

Definition rev_op (rows : Revisions) (o : RevOp) : Revisions :=
  match o with
  | OpRecord st path op source summary payload retention attempts =>
      (record_as st rows path op source summary payload retention attempts).2
  | OpPrune scope token retention commits => (prune scope token rows retention commits).2
  end.

Definition op_retention (o : RevOp) : Z :=
  match o with OpRecord _ _ _ _ _ _ r _ => r | OpPrune _ _ r _ => r end.
Definition rev_op_ok (o : RevOp) : Prop :=
  match o with OpRecord _ _ _ _ _ _ _ attempts => length (at_nonce (attempts 0%nat)) = NONCE_LEN | OpPrune _ _ _ _ => True end.
Definition records_to (scope token : str) (o : RevOp) : bool :=
  match o with
  | OpRecord st path _ _ _ _ _ _ => str_eqb (rs_scope_id st) scope && str_eqb (path_token_of st path) token
  | OpPrune _ _ _ _ => false
  end.

Lemma prune_chain rows scope token retention commits s t : well_numbered rows ->
  chain s t (prune scope token rows retention commits).2 =
    if decide (commits = true /\ s = scope /\ t = token)
    then drop (Z.to_nat (Z.of_nat (length (chain s t rows)) - retention)) (chain s t rows) else chain s t rows.
Proof.
  intros Hw. unfold prune. destruct commits; cbn [negb snd]; [|by rewrite decide_False by naive_solver].
  rewrite chain_delete_below. destruct (decide (s = scope /\ t = token)) as [[-> ->]|Hne].
  - rewrite decide_True by done. destruct (well_numbered_max scope token rows Hw) as (lo & Hlo & Hn & Hmax).
    rewrite (delete_below_numbered scope token lo); [|done|done|apply chain_member].
    f_equal. unfold retention_cutoff. lia.
  - rewrite decide_False by naive_solver. done.
Qed.

Lemma rev_op_well_numbered rows o : rev_op_ok o -> well_numbered rows -> well_numbered (rev_op rows o).
Proof.
  intros Hok Hw. destruct o as [st path op source summary payload retention attempts|scope token retention commits]; simpl in *.
  - destruct (record_as _ _ _ _ _ _ _ _ _) as [r rows'] eqn:E.
    destruct (record_as_cases _ _ _ _ _ _ _ _ _ _ _ Hw Hok E) as [(e & _ & ->)|(row & _ & _ & H1 & H2)]; [done|].
    by eapply recorded_well_numbered.
  - intros s t. rewrite prune_chain by done. destruct (decide _); [|apply Hw].
    destruct (Hw s t) as (lo & Hlo & Hn). destruct (numbered_drop lo _ (Z.to_nat (Z.of_nat (length (chain s t rows)) - retention)) Hn)
      as (lo' & ? & ?). exists lo'. split; [lia|done].
Qed.

(** A row with at most [k] newer ones in its chain *)
Definition present (s t : str) (row : Revision) (k : Z) (rows : Revisions) : Prop :=
  exists pre post, chain s t rows = pre ++ row :: post /\ Z.of_nat (length post) <= k.

Lemma drop_keeps {A} n (pre post : list A) x : (n <= length pre)%nat ->
  drop n (pre ++ x :: post) = drop n pre ++ x :: post.
Proof. intros H. by rewrite drop_app_le. Qed.

Lemma present_record st path ret row new rows rows' s t k : recorded st path ret new rows rows' ->
  present s t row k rows -> k + 1 < ret ->
  present s t row (if decide (s = rs_scope_id st /\ t = path_token_of st path) then k + 1 else k) rows'.
Proof.
  intros Hrec (pre & post & Hc & Hk) Hret. unfold present. rewrite Hrec.
  destruct (decide _) as [[-> ->]|_]; [|by exists pre, post].
  fold (mine st path rows) in Hc. rewrite Hc. rewrite <- app_assoc. simpl.
  rewrite drop_keeps by (rewrite length_app; simpl; lia).
  eexists _, (post ++ [new]). split; [done|]. rewrite length_app. simpl. lia.
Qed.

Lemma present_prune rows scope token ret commits s t row k : well_numbered rows ->
  present s t row k rows -> k < ret -> present s t row k (prune scope token rows ret commits).2.
Proof.
  intros Hw (pre & post & Hc & Hk) Hret. unfold present. rewrite prune_chain by done.
  destruct (decide _) as [[-> [-> ->]]|_]; [|by exists pre, post]. rewrite Hc.
  rewrite drop_keeps by (rewrite length_app; simpl; lia). by eexists _, post.
Qed.

Lemma present_ops r ops rows s t row k : well_numbered rows ->
  Forall (fun o => rev_op_ok o /\ r <= op_retention o) ops ->
  present s t row k rows -> 0 <= k -> k + Z.of_nat (length (retain (records_to s t) ops)) < r ->
  well_numbered (fold_left rev_op ops rows) /\ exists k', present s t row k' (fold_left rev_op ops rows).
Proof.
  revert rows k. induction ops as [|o ops IH]; intros rows k Hw Hops Hp H0 Hk; simpl; [by split; [|exists k]|].
  apply Forall_cons in Hops as [[Hok Hret] Hops]. pose proof (rev_op_well_numbered rows o Hok Hw) as Hw'.
  destruct o as [st path op source summary payload ret attempts|scope token ret commits]; simpl in *.
  - destruct (record_as _ _ _ _ _ _ _ _ _) as [res rows'] eqn:E. simpl in *.
    destruct (record_as_cases _ _ _ _ _ _ _ _ _ _ _ Hw Hok E) as [(e & _ & ->)|(new & _ & _ & _ & H2)].
    { apply (IH rows k); [done..|]. destruct (_ && _); simpl in Hk; lia. }
    destruct (str_eqb (rs_scope_id st) s && str_eqb (path_token_of st path) t) eqn:Es; simpl in Hk.
    + apply andb_true_iff in Es as [<-%str_eqb_eq <-%str_eqb_eq].
      apply (IH rows' (k + 1)); [done|done| |lia|lia].
      pose proof (present_record _ _ _ _ _ _ _ _ _ _ H2 Hp ltac:(lia)) as Hp'. by rewrite decide_True in Hp' by done.
    + apply (IH rows' k); [done|done| |lia|lia].
      destruct Hp as (pre & post & Hc & Hl). exists pre, post. split; [|done]. rewrite H2.
      rewrite decide_False; [done|]. intros [-> ->]. by rewrite !(proj2 (str_eqb_eq _ _) eq_refl) in Es.
  - apply (IH _ k); [done|done| |lia|lia]. apply present_prune; [done|done|lia].
Qed.

(** Reading a present row *)
Lemma find_chain s t n rows : find_first (fun r => in_chain s t r && (v_no r =? n)) rows =
  find_first (fun r => v_no r =? n) (chain s t rows).
Proof.
  induction rows as [|r rows IH]; simpl; [done|]. destruct (in_chain s t r); simpl; [|done].
  by destruct (v_no r =? n).
Qed.

Lemma find_numbered lo l r : numbered lo l -> r ∈ l -> find_first (fun x => v_no x =? v_no r) l = Some r.
Proof.
  intros Hn (i & Hi)%list_elem_of_lookup. pose proof (numbered_lookup _ _ _ _ Hn Hi) as Hno.
  destruct (find_first _ l) as [x|] eqn:E.
  - apply find_first_Some in E as [(j & Hj)%list_elem_of_lookup Hx]. apply Z.eqb_eq in Hx.
    pose proof (numbered_lookup _ _ _ _ Hn Hj). assert (i = j) as <- by lia. congruence.
  - apply (find_first_None _ _ r) in E; [|by apply list_elem_of_lookup_2 in Hi]. simpl in E; by rewrite Z.eqb_refl in E.
Qed.

Lemma get_present st rows path op source summary payload now n row k : well_numbered rows ->
  row_of st path op source summary payload now n row -> 0 <= n < 9223372036854775808 ->
  present (rs_scope_id st) (path_token_of st path) row k rows ->
  get_revision st rows path n false = Ok payload.
Proof.
  intros Hw (sealed & -> & Hs) Hn (pre & post & Hc & _). unfold get_revision, i64_of_u64.
  rewrite (proj2 (Z.ltb_lt _ _)) by lia. rewrite find_chain.
  destruct (Hw (rs_scope_id st) (path_token_of st path)) as (lo & _ & Hnum).
  pose proof (find_numbered _ _ (mkRevision (rs_scope_id st) (path_token_of st path) path n op source summary sealed now) Hnum) as Hf.
  simpl in Hf. rewrite Hf by (rewrite Hc; apply elem_of_app; right; left). simpl.
  by rewrite (aead_open_self _ _ _ _ Hs).
Qed.

Lemma recorded_present st path ret row rows rows' : 1 <= ret -> recorded st path ret row rows rows' ->
  present (rs_scope_id st) (path_token_of st path) row 0 rows'.
Proof.
  intros Hr Hrec. unfold present. rewrite Hrec, decide_True by done.
  rewrite drop_app_le by lia. by eexists _, [].
Qed.

Lemma max_no_nonneg st path rows : well_numbered rows -> 0 <= max_no (mine st path rows).
Proof. intros Hw. destruct (well_numbered_max (rs_scope_id st) (path_token_of st path) rows Hw) as (lo & ? & _ & E).
  unfold mine. lia. Qed.

(** The undo log keeps what it promises.  Once a record of a snapshot
    has reported its number, reading that number gives back exactly the
    snapshot, for as long as fewer than [r] further records are made of the
    same path, where [r] is any lower bound of the retention settings in
    force from then on (25 for the program's clamped setting): whatever
    records are made of other paths or scopes, whatever prunes run, whatever
    transactions fail, and however the retention setting changes meanwhile.
    The number is one more than the largest of the path's chain, and the
    numbers of a chain are always consecutive. *)
Theorem snapshot_durable st rows path op source summary payload ret attempts n rows1 r ops :
  well_numbered rows -> length (at_nonce (attempts 0%nat)) = NONCE_LEN ->
  record_as st rows path op source summary payload ret attempts = (Ok n, rows1) ->
  n < 9223372036854775808 -> r <= ret ->
  Forall (fun o => rev_op_ok o /\ r <= op_retention o) ops ->
  Z.of_nat (length (retain (records_to (rs_scope_id st) (path_token_of st path)) ops)) < r ->
  n = max_no (mine st path rows) + 1 /\
  well_numbered (fold_left rev_op ops rows1) /\
  get_revision st (fold_left rev_op ops rows1) path n false = Ok payload.
Proof.
  intros Hw Hn Hrec Hlt Hret Hops Hcount.
  destruct (record_as_cases _ _ _ _ _ _ _ _ _ _ _ Hw Hn Hrec) as [(e & [=] & _)|(row & [= ->] & _ & Hrow & Hr)].
  pose proof (recorded_well_numbered _ _ _ _ _ _ _ _ _ _ _ Hw Hrow Hr) as Hw1.
  destruct (present_ops r ops rows1 (rs_scope_id st) (path_token_of st path) row 0 Hw1 Hops) as (Hw2 & k & Hp); [|lia|lia|].
  { apply (recorded_present st path ret row rows); [lia|done]. }
  split_and!; [done|done|]. eapply get_present; [done|done| |done].
  pose proof (max_no_nonneg st path rows Hw). lia.
Qed.

(** ** Binding *)
Lemma last_separator (c : char) a b a' b' : c ∉ b -> c ∉ b' -> a ++ c :: b = a' ++ c :: b' -> a = a' /\ b = b'.
Proof.
  revert a'. induction a as [|x a IH]; intros [|y a'] Hb Hb'; simpl; intros [=]; simplify_eq; [done| | |].
  - exfalso. apply Hb. apply elem_of_app. right. left.
  - exfalso. apply Hb'. apply elem_of_app. right. left.
  - by destruct (IH a' Hb Hb') as [-> ->].
Qed.

Lemma token_no_colon st path : 58%N ∉ path_token_of st path.
Proof. apply hex_no_punctuation. Qed.

Lemma rev_aad_inj st path n st' path' n' : 0 <= n -> 0 <= n' ->
  as_bytes (rev_aad st (path_token_of st path) n) = as_bytes (rev_aad st' (path_token_of st' path') n') ->
  rs_scope_id st = rs_scope_id st' /\ path_token_of st path = path_token_of st' path' /\ n = n'.
Proof.
  intros Hn Hn' E%as_bytes_inj%(app_inv_head (lit "rev:")).
  assert (Hsplit : forall a t d, a ++ lit ":" ++ t ++ lit ":" ++ d = (a ++ 58%N :: t) ++ 58%N :: d).
  { intros a t d. by rewrite <- app_assoc. }
  rewrite !Hsplit in E. apply last_separator in E as [E Ed]; [|by apply show_N_no_char..].
  apply last_separator in E as [Es Et]; [|apply token_no_colon..].
  split_and!; [done|done|]. apply show_N_inj in Ed. lia.
Qed.

(** A snapshot is bound to its place in the log: take the sealed bytes
    of a recorded revision and put them into every row of any table.  Under
    the idealised strength of the primitives a read that succeeds there, by
    whatever store, was for the same scope, the same path token and the same
    number (and the same path, under the same keys), and gives the snapshot
    that was recorded: no other concept, no other revision. *)
Theorem revision_bound st rows path op source summary payload ret attempts n rows1 v st' rows2 path' n' b :
  strong -> no_collisions -> well_numbered rows -> length (at_nonce (attempts 0%nat)) = NONCE_LEN -> 1 <= ret ->
  record_as st rows path op source summary payload ret attempts = (Ok n, rows1) ->
  v ∈ mine st path rows1 -> v_no v = n ->
  Forall (fun w => v_payload w = v_payload v) rows2 -> 0 <= n' ->
  get_revision st' rows2 path' n' false = Ok b ->
  rs_scope_id st' = rs_scope_id st /\ path_token_of st' path' = path_token_of st path /\ n' = n /\ b = payload /\
  (rs_keys st' = rs_keys st -> path' = path).
Proof.
  intros HS Hnc Hw Hn Hret Hrec Hv Hno Hall Hn' Hget.
  destruct (record_as_cases _ _ _ _ _ _ _ _ _ _ _ Hw Hn Hrec) as [(e & [=] & _)|(row & [= ->] & _ & Hrow & Hr)].
  pose proof (recorded_well_numbered _ _ _ _ _ _ _ _ _ _ _ Hw Hrow Hr) as Hw1.
  pose proof (max_no_nonneg st path rows Hw) as Hpos.
  destruct (recorded_present st path ret row rows rows1 Hret Hr) as (pre & post & Hc & _).
  destruct Hrow as (sealed & -> & Hs). fold (mine st path rows1) in Hc.
  destruct (Hw1 (rs_scope_id st) (path_token_of st path)) as (lo & _ & Hnum). fold (mine st path rows1) in Hnum.
  pose proof (find_numbered _ _ _ Hnum Hv) as Hf. rewrite Hno in Hf.
  assert (Hin : mkRevision (rs_scope_id st) (path_token_of st path) path (max_no (mine st path rows) + 1) op source
    summary sealed (at_now (attempts 0%nat)) ∈ mine st path rows1) by (rewrite Hc; apply elem_of_app; right; left).
  pose proof (find_numbered _ _ _ Hnum Hin) as Hf2. simpl in Hf2. rewrite Hf in Hf2. injection Hf2 as ->.
  unfold get_revision in Hget. destruct (find_first _ rows2) as [w|] eqn:Ew; simpl in Hget; [|done].
  apply find_first_Some in Ew as [Hwin _]. rewrite Forall_forall in Hall. rewrite (Hall w Hwin) in Hget. simpl in Hget.
  destruct (aead_open sealed _ _) as [p|] eqn:Eo; simpl in Hget; [|done]. injection Hget as ->.
  apply (aead_open_sealed _ _ _ _ _ _ _ HS Hs) in Eo as (Ea & _ & ->).
  apply rev_aad_inj in Ea as (Es & Et & En); [|done|lia].
  split_and!; [done|done|done|done|]. intros Hk. unfold path_token_of, index_token in Et. rewrite Hk in Et.
  apply hex_encode_inj, Hnc in Et. by apply as_bytes_inj.
Qed.

(** ** The consolidation signal *)
Lemma insert_newest x l : Forall (fun y => v_no x < v_no y) l -> insert_by newest_first x l = l ++ [x].
Proof.
  induction 1 as [|y l Hy _ IH]; [done|]. simpl. unfold newest_first at 1.
  by rewrite (proj2 (Z.compare_gt_iff _ _)) by lia; rewrite IH.
Qed.

Lemma sort_newest lo l : numbered lo l -> sort_by newest_first l = reverse l.
Proof.
  revert lo. induction l as [|x l IH]; intros lo; [done|]. rewrite numbered_cons. intros [Hx Hl].
  simpl. rewrite (IH _ Hl), reverse_cons, insert_newest; [done|].
  apply Forall_reverse, Forall_lookup. intros i y Hy. rewrite (numbered_lookup _ _ _ _ Hl Hy). lia.
Qed.

Lemma leading_updates_bounds ops : 0 <= leading_updates ops <= Z.of_nat (length ops).
Proof. induction ops as [|op ops IH]; simpl; [lia|]. destruct (negb _); lia. Qed.

Lemma leading_updates_all ops : leading_updates ops = Z.of_nat (length ops) <->
  Forall (fun op => op = lit "update") ops.
Proof.
  induction ops as [|op ops IH]; simpl; [done|]. pose proof (leading_updates_bounds ops).
  rewrite Forall_cons, <- IH. destruct (str_eqb op (lit "update")) eqn:E; simpl.
  - apply str_eqb_eq in E. split; [intros; split; [done|lia]|intros [_ ->]; lia].
  - split; [lia|]. intros [-> _]. discriminate E.
Qed.

(** The consolidation signal: the count of a chain strictly exceeds the
    threshold exactly when the chain's newest [patches + 1] rows exist and
    are all updates.  So any other operation, consolidation among them,
    resets it, and it never fires on a chain shorter than the threshold:
    with a retention of at most [patches] rows (the settings' ranges overlap
    between 25 and 100) it never fires at all. *)
Theorem consolidation_signal s t rows patches : well_numbered rows -> 0 <= patches ->
  exists c, consecutive_update_count s t rows patches false = Ok c /\ 0 <= c <= patches + 1 /\
    (patches < c <-> exists newest older, reverse (chain s t rows) = newest ++ older /\
       Z.of_nat (length newest) = patches + 1 /\ Forall (fun r => v_op r = lit "update") newest) /\
    (Z.of_nat (length (chain s t rows)) <= patches -> c <= patches).
Proof.
  intros Hw Hp. destruct (Hw s t) as (lo & _ & Hn). unfold consecutive_update_count.
  rewrite (sort_newest lo) by done. set (l := reverse (chain s t rows)). set (k := Z.to_nat (patches + 1)).
  eexists. split; [done|]. pose proof (leading_updates_bounds (v_op <$> take k l)) as Hb.
  rewrite length_fmap, length_take in Hb. split_and!; [lia|lia| |].
  - split.
    + intros Hlt. exists (take k l), (drop k l). split; [by rewrite take_drop|].
      assert (Hlen : (k <= length l)%nat) by lia. rewrite length_take, Nat.min_l by done. split; [lia|].
      assert (Forall (fun op => op = lit "update") (v_op <$> take k l)) as Hall.
      { apply leading_updates_all. rewrite length_fmap, length_take, Nat.min_l by done. lia. }
      apply Forall_fmap in Hall. exact Hall.
    + intros (newest & older & Hl & Hk & Hall). rewrite Hl, take_app_length' by lia.
      assert (Forall (fun op => op = lit "update") (v_op <$> newest)) as Hops by (apply Forall_fmap; exact Hall).
      apply leading_updates_all in Hops. rewrite Hops, length_fmap. lia.
  - intros Hlen. unfold l in *. rewrite length_reverse in Hb. lia.
Qed.
End Revisions.

(** ** Witnesses *)
Definition demo_attempt (i : nat) : Attempt := mkAttempt (lit "now") demo_nonce true.
Definition demo_log : RevisionStore :=
  @RevisionStore_for_user demo_kdf char_uuid 5%N (demo_master 1).
Definition demo_record (op : string) (payload : string) (rows : list Revision) : result Z RevisionsError * list Revision :=
  @record_as demo_aead demo_kdf wide_hex demo_log rows (lit "/a.md") (lit op) [] [] (lit payload) 25 demo_attempt.

Lemma empty_well_numbered : well_numbered [].
Proof. intros s t. exists 0. done. Qed.

Lemma snapshot_durable_witness :
  let first := demo_record "create" "one" [] in
  let later := [OpRecord demo_log (lit "/a.md") (lit "update") [] [] (lit "one") 25 demo_attempt;
                OpPrune (rs_scope_id demo_log) (lit "t") 30 true;
                OpRecord demo_log (lit "/a.md") (lit "update") [] [] (lit "two") 30 demo_attempt] in
  first.1 = Ok 1 /\
  @get_revision demo_aead demo_kdf wide_hex demo_log (fold_left (@rev_op demo_aead demo_kdf wide_hex) later first.2)
    (lit "/a.md") 1 false = Ok (lit "one").
Proof.
  intros first later.
  assert (H1 : first.1 = Ok 1) by (vm_compute; reflexivity). split; [exact H1|].
  refine (proj2 (proj2 (@snapshot_durable demo_aead demo_kdf wide_hex demo_log [] (lit "/a.md") (lit "create") [] []
    (lit "one") 25 demo_attempt 1 first.2 25 later empty_well_numbered eq_refl (fst_eq _ _ H1) eq_refl _ _ _))).
  - lia.
  - repeat constructor; simpl; lia.
  - by vm_compute.
Defined.

Definition forged (v : Revision) : list Revision :=
  [mkRevision (v_scope v) (v_token v) (v_path v) 1 (v_op v) [] [] (v_payload v) [];
   mkRevision (v_scope v) (v_token v) (v_path v) 2 (v_op v) [] [] (v_payload v) []].

Lemma revision_bound_witness :
  let first := demo_record "create" "one" [] in
  exists v, v ∈ first.2 /\
    forall n' b, 0 <= n' ->
      @get_revision demo_aead demo_kdf wide_hex demo_log (forged v) (lit "/a.md") n' false = Ok b ->
      n' = 1 /\ b = lit "one".
Proof.
  intros first. assert (H1 : first.1 = Ok 1) by (vm_compute; reflexivity).
  assert (Hrec : @record_as demo_aead demo_kdf wide_hex demo_log [] (lit "/a.md") (lit "create") [] [] (lit "one") 25
    demo_attempt = (Ok 1, first.2)) by exact (fst_eq _ _ H1).
  clearbody first. clear H1.
  destruct (@record_as_cases demo_aead demo_kdf wide_hex demo_log [] (lit "/a.md") (lit "create") [] []
    (lit "one") 25 demo_attempt _ _ empty_well_numbered eq_refl Hrec) as [(e & [=] & _)|(v & _ & _ & Hrow & Hr)].
  assert (Hm : @mine demo_kdf wide_hex demo_log (lit "/a.md") first.2 = [v]).
  { unfold mine. rewrite Hr. by rewrite decide_True. }
  exists v. split.
  { assert (v ∈ @mine demo_kdf wide_hex demo_log (lit "/a.md") first.2) as Hv by (rewrite Hm; left).
    unfold mine, chain in Hv. apply list_elem_of_In, List.filter_In in Hv as [Hv _]. by apply list_elem_of_In. }
  intros n' b Hn' Hget.
  assert (Hv : v ∈ @mine demo_kdf wide_hex demo_log (lit "/a.md") first.2) by (rewrite Hm; left).
  assert (Hno : v_no v = 1) by (destruct Hrow as (sealed & -> & _); reflexivity).
  destruct (@revision_bound demo_aead demo_kdf wide_hex demo_log [] (lit "/a.md") (lit "create") [] [] (lit "one")
    25 demo_attempt 1 first.2 v demo_log (forged v) (lit "/a.md") n' b demo_strong demo_no_collisions empty_well_numbered
    eq_refl ltac:(lia) Hrec Hv Hno ltac:(repeat constructor) Hn' Hget) as (_ & _ & En & Eb & _).
  by split.
Defined.

Lemma consolidation_signal_witness :
  let rows := (demo_record "update" "b" (demo_record "update" "a" (demo_record "create" "x" []).2).2).2 in
  consecutive_update_count (rs_scope_id demo_log) (@path_token_of demo_kdf wide_hex demo_log (lit "/a.md")) rows 2 false = Ok 2.
Proof.
  intros rows.
  assert (Hw : well_numbered rows).
  { unfold rows. pose proof (fun rows op payload => @rev_op_well_numbered demo_aead demo_kdf wide_hex rows
      (OpRecord demo_log (lit "/a.md") (lit op) [] [] (lit payload) 25 demo_attempt) eq_refl) as H.
    apply (H _ "update"%string "b"%string), (H _ "update"%string "a"%string), (H _ "create"%string "x"%string).
    apply empty_well_numbered. }
  destruct (@consolidation_signal (rs_scope_id demo_log) (@path_token_of demo_kdf wide_hex demo_log (lit "/a.md")) rows 2 Hw ltac:(lia))
    as (c & Hc & _). rewrite Hc. f_equal.
  assert (Ok c = @Ok Z RevisionsError 2) as [= ->] by (rewrite <- Hc; vm_compute; reflexivity). done.
Defined.
