(* ===== verification/SearchIndex.v ===== *)
(** * The encrypted search index

    [crates/mycelium-store/src/search_index.rs]: postings under HMAC tokens
    and sealed document payloads, in two tables shared by all scopes.  The
    tables are maps from their primary keys; a writing operation is one
    transaction; the statements of a search run one after the other, and
    the [k]-th of them sees the tables [view k].  The order in which a
    statement returns its rows is that of [map_to_list]; nothing below
    depends on it. *)
From stdpp Require Import sorting.
From S2P Require Import Prelude Float Text Clock Crypto FileRepo Concept Search.
Open Scope Z_scope.

Inductive IndexError := XDb | XCrypto (e : CryptoError) | XCorrupt (path : str).

(** Rows of [search_docs] *)
Record SearchDoc := mkSearchDoc { sd_payload : bytes; sd_length : option Z; sd_status : option str }.
Record SearchTables := mkSearchTables {
  search_tokens : gmap (str * str * str) Z;     (* scope, token, concept_path *)
  search_docs : gmap (str * str) SearchDoc }.   (* scope, concept_path *)

Record EncryptedIndex := mkEncryptedIndex { ix_scope : str; ix_keys : IndexKeys }.

(** [serde_json] on [DocPayload] (title and snippet) *)
Class DocJson := {
  doc_to_vec : str -> str -> bytes;
  doc_from_slice : bytes -> option (str * str);
  doc_roundtrip t s : doc_from_slice (doc_to_vec t s) = Some (t, s) }.

(** [Vec::dedup] and [slice::chunks] *)
Fixpoint dedup (l : list str) : list str :=
  match l with
  | [] => []
  | x :: l => match dedup l with
              | [] => [x]
              | y :: r => if str_eqb x y then y :: r else x :: y :: r
              end
  end.
Fixpoint chunks_fuel {A} (fuel n : nat) (l : list A) : list (list A) :=
  match fuel, l with
  | O, _ | _, [] => []
  | S fuel, _ => take n l :: chunks_fuel fuel n (drop n l)
  end.
Definition chunks {A} (n : nat) (l : list A) : list (list A) := chunks_fuel (length l) n l.

Section Index.
Context {AE : Aead} {KD : Kdf} {HX : Hex} {UT : UuidText} {LC : Lowercase} {NL : NaturalLog} {DJ : DocJson}.

Definition EncryptedIndex_for_user (user_id : str) (m : MasterKey) : EncryptedIndex :=
  mkEncryptedIndex (lit "user:" ++ user_id) (IndexKeys_from_master_key m).
Definition EncryptedIndex_for_service (s : ServiceKey) (namespace : str) : EncryptedIndex :=
  mkEncryptedIndex (lit "global:" ++ namespace) (IndexKeys_from_service_key s).

(** The two DELETE statements for a path *)
Definition delete_rows (t : SearchTables) (scope path : str) : SearchTables :=
  mkSearchTables (filter (fun kv => ~ (kv.1.1.1 = scope /\ kv.1.2 = path)) (search_tokens t))
    (delete (scope, path) (search_docs t)).

Definition index_remove (ix : EncryptedIndex) (t : SearchTables) (concept_path : str) (commits : bool)
    : result unit IndexError * SearchTables :=
  if negb commits then (Err XDb, t) else (Ok tt, delete_rows t (ix_scope ix) concept_path).

(** [*token_counts.entry(token).or_insert(0) += 1] *)
Definition count_token (m : gmap str Z) (token : str) : gmap str Z :=
  <[token := wrap32 (default 0 (m !! token) + 1)]> m.

(** The INSERTs of the postings; [None] on a primary-key violation. *)
Fixpoint insert_tokens (ix : EncryptedIndex) (path : str) (counts : list (str * Z))
    (rows : gmap (str * str * str) Z) : option (gmap (str * str * str) Z) :=
  match counts with
  | [] => Some rows
  | (term, tf) :: counts =>
      let key := (ix_scope ix, index_token (ix_keys ix) term, path) in
      match rows !! key with
      | Some _ => None
      | None => insert_tokens ix path counts (<[key := tf]> rows)
      end
  end.

Definition index_add (ix : EncryptedIndex) (t : SearchTables) (c : Concept) (nonce : bytes) (commits : bool)
    : result unit IndexError * SearchTables :=
  let title := title_or_path c in
  let snippet := trim (take 200 (body c)) in
  match aead_seal nonce (doc_to_vec title snippet) (as_bytes (source_path c)) (index_dek (ix_keys ix)) with
  | Err e => (Err (XCrypto e), t)
  | Ok sealed =>
      let tokens := tokenize (searchable_text c) in
      let counts := fold_left count_token tokens ∅ in
      if negb commits then (Err XDb, t)
      else
        let t' := delete_rows t (ix_scope ix) (source_path c) in
        match insert_tokens ix (source_path c) (map_to_list counts) (search_tokens t') with
        | None => (Err XDb, t)
        | Some rows =>
            (Ok tt, mkSearchTables rows
              (<[(ix_scope ix, source_path c) :=
                  mkSearchDoc sealed (Some (Z.of_nat (length tokens))) (fm_status (frontmatter c))]> (search_docs t')))
        end
  end.

(** ** Searching *)
Definition scope_docs (scope : str) (t : SearchTables) : list (str * SearchDoc) :=
  omap (fun kv => if str_eqb kv.1.1 scope then Some (kv.1.2, kv.2) else None) (map_to_list (search_docs t)).

(** COUNT( * ) and COALESCE(SUM(length), 0) *)
Definition corpus_stats (scope : str) (t : SearchTables) : Z * Z :=
  (Z.of_nat (length (scope_docs scope t)),
   foldr Z.add 0 ((fun d => default 0 (sd_length d.2)) <$> scope_docs scope t)).

Definition stats_avgdl (n_docs sum_len : Z) : f32 :=
  if 0 <? n_docs then f32_div (f32_of_Z sum_len) (f32_of_Z n_docs) else f32_zero.

(** SELECT token, concept_path, tf ... token IN (chunk) *)
Definition token_rows (scope : str) (chunk : list str) (t : SearchTables) : list (str * str * Z) :=
  omap (fun kv => if str_eqb kv.1.1.1 scope && existsb (str_eqb kv.1.1.2) chunk
                  then Some (kv.1.1.2, kv.1.2, kv.2) else None) (map_to_list (search_tokens t)).

Definition bump_df (df : gmap str Z) (row : str * str * Z) : gmap str Z :=
  <[row.1.1 := default 0 (df !! row.1.1) + 1]> df.
Definition add_tf (tfs : gmap str (gmap str Z)) (row : str * str * Z) : gmap str (gmap str Z) :=
  let m := tfs !!! row.1.2 in
  <[row.1.2 := <[row.1.1 := wrap32 (default 0 (m !! row.1.1) + wrap32 row.2)]> m]> tfs.

(** SELECT concept_path, payload, COALESCE(length, 0) ... IN (chunk), with
    the lifecycle predicate under [ActiveOnly] *)
Definition doc_rows (scope : str) (active_only : bool) (chunk : list str) (t : SearchTables) : list (str * bytes * Z) :=
  omap (fun d => if existsb (str_eqb d.1) chunk &&
                    (negb active_only || is_active_status (sd_status d.2))
                 then Some (d.1, sd_payload d.2, default 0 (sd_length d.2)) else None) (scope_docs scope t).

Definition score_row (n_docs : Z) (mean : f32) (df : gmap str Z) (tfs : gmap str (gmap str Z)) (tokens : list str)
    (path : str) (doc_len : Z) : f32 :=
  fold_left (fun score token =>
    let term_df := default 0 (df !! token) in
    if term_df =? 0 then score
    else
      let tf := default 0 (m ← tfs !! path; m !! token) in
      if tf =? 0 then score
      else f32_add score (bm25_score Params_default (Z.max n_docs term_df) term_df tf (wrap32 doc_len) mean))
    tokens f32_zero.

(** The body of the loop over a batch of documents; a row that does not
    open or parse is skipped. *)
Definition result_of (ix : EncryptedIndex) (n_docs : Z) (mean : f32) (df : gmap str Z) (tfs : gmap str (gmap str Z))
    (tokens : list str) (row : str * bytes * Z) : option SearchResult :=
  let '(path, payload, doc_len) := row in
  plain ← result_ok (aead_open payload (as_bytes path) (index_dek (ix_keys ix)));
  '(title, snip) ← doc_from_slice plain;
  Some (mkResult path title snip (score_row n_docs mean df tfs tokens path doc_len)).

Definition query_tokens (ix : EncryptedIndex) (q : SearchQuery) : list str :=
  index_token (ix_keys ix) <$> dedup (sort_by str_cmp (to_lowercase <$> terms q)).

Definition index_search (ix : EncryptedIndex) (view : nat -> SearchTables) (q : SearchQuery) (fails : bool)
    : result (list SearchResult) IndexError :=
  match terms q with
  | [] => Ok []
  | _ =>
      if fails then Err XDb
      else
        let tokens := query_tokens ix q in
        let active_only := bool_decide (status_filter q = ActiveOnly) in
        let '(n_docs, sum_len) := corpus_stats (ix_scope ix) (view 0%nat) in
        let mean := stats_avgdl n_docs sum_len in
        let token_chunks := chunks 16 tokens in
        let rows := concat (imap (fun k chunk => token_rows (ix_scope ix) chunk (view (S k))) token_chunks) in
        let df := fold_left bump_df rows ∅ in
        let tfs := fold_left add_tf rows ∅ in
        let scored_paths := sort_by str_cmp (map_to_list tfs).*1 in
        let docs := concat (imap (fun k chunk =>
          doc_rows (ix_scope ix) active_only chunk (view (S (length token_chunks) + k)%nat)) (chunks 64 scored_paths)) in
        Ok (sort_by result_cmp (omap (result_of ix n_docs mean df tfs tokens) docs))
  end.

(** ** The tables hold an in-memory index *)
Record indexes (ix : EncryptedIndex) (t : SearchTables) (idx : InMemoryIndex) : Prop := {
  ix_tf term path : search_tokens t !! (ix_scope ix, index_token (ix_keys ix) term, path) = tf_of (postings idx) term path;
  ix_token token path tf : search_tokens t !! (ix_scope ix, token, path) = Some tf ->
    exists term, token = index_token (ix_keys ix) term;
  ix_doc path :
    match docs idx !! path, search_docs t !! (ix_scope ix, path) with
    | None, None => True
    | Some d, Some row =>
        sealed_as (sd_payload row) (as_bytes path) (doc_to_vec (d_title d) (trim (take 200 (d_body d)))) (index_dek (ix_keys ix)) /\
        sd_length row = Some (d_length d) /\ sd_status row = d_status d
    | _, _ => False
    end }.

Lemma index_token_inj keys a b : no_collisions -> index_token keys a = index_token keys b -> a = b.
Proof. intros Hn E. apply hex_encode_inj, Hn in E. by apply as_bytes_inj. Qed.

Lemma delete_rows_token t scope path s tok p : search_tokens (delete_rows t scope path) !! (s, tok, p) =
  if decide (s = scope /\ p = path) then None else search_tokens t !! (s, tok, p).
Proof.
  unfold delete_rows. cbn [search_tokens]. rewrite map_lookup_filter. simpl.
  destruct (search_tokens t !! (s, tok, p)) as [x|]; simpl; [|by destruct (decide _)].
  destruct (decide (s = scope /\ p = path)); [by rewrite option_guard_False by tauto|by rewrite option_guard_True].
Qed.

Lemma count_tokens_spec toks m t n :
  m !! t = (if decide (n = 0%nat) then None else Some (Z.of_nat n)) ->
  Z.of_nat (n + length toks) < 4294967296 ->
  fold_left count_token toks m !! t =
    let k := (n + occurrences t toks)%nat in if decide (k = 0%nat) then None else Some (Z.of_nat k).
Proof.
  revert m n. induction toks as [|x toks IH]; intros m n Hn Hlen; simpl; [by rewrite Nat.add_0_r|].
  cbn [length] in Hlen. rewrite str_eqb_decide. unfold count_token at 2.
  destruct (decide (t = x)) as [<-|Hx].
  - rewrite bool_decide_true by done. rewrite (IH _ (S n)); [| |lia].
    + by replace (S n + occurrences t toks)%nat with (n + S (occurrences t toks))%nat by lia.
    + rewrite lookup_insert_eq, Hn. rewrite (decide_False (P := S n = 0%nat)) by lia. f_equal.
      destruct (decide (n = 0%nat)) as [->|]; simpl; [done|]. rewrite wrap32_small; lia.
  - rewrite bool_decide_false by done. rewrite (IH _ n); [done| |lia]. by rewrite lookup_insert_ne.
Qed.

Lemma insert_tokens_spec ix path counts rows : no_collisions -> NoDup counts.*1 ->
  (forall term, term ∈ counts.*1 -> rows !! (ix_scope ix, index_token (ix_keys ix) term, path) = None) ->
  exists rows', insert_tokens ix path counts rows = Some rows' /\
    (forall term p, rows' !! (ix_scope ix, index_token (ix_keys ix) term, p) =
       match (if decide (p = path) then (list_to_map counts : gmap str Z) !! term else None) with
       | Some tf => Some tf
       | None => rows !! (ix_scope ix, index_token (ix_keys ix) term, p)
       end) /\
    (forall s tok p, rows' !! (s, tok, p) <> rows !! (s, tok, p) ->
       s = ix_scope ix /\ p = path /\ exists term, tok = index_token (ix_keys ix) term).
Proof.
  intros Hnc. revert rows. induction counts as [|[term tf] counts IH]; intros rows Hnd Hfree.
  { exists rows. split_and!; [done| |by intros s tok p []].
    intros term p. rewrite list_to_map_nil, lookup_empty. by destruct (decide _). }
  rewrite fmap_cons in Hnd. apply NoDup_cons in Hnd as [Hnin Hnd]. simpl in Hnin.
  cbn [insert_tokens]. rewrite (Hfree term) by (rewrite fmap_cons; left).
  destruct (IH (<[(ix_scope ix, index_token (ix_keys ix) term, path) := tf]> rows) Hnd) as (rows' & Hr & Hl & Ho).
  { intros term' Hin. rewrite lookup_insert_ne; [apply Hfree; rewrite fmap_cons; by right|].
    intros [= E]. apply index_token_inj in E; [|done]. by subst. }
  exists rows'. split_and!; [done| |].
  - intros term' p. rewrite Hl. rewrite list_to_map_cons. destruct (decide (p = path)) as [->|Hp].
    + destruct (decide (term = term')) as [<-|Hne].
      * rewrite (not_elem_of_list_to_map_1 counts) by done. by rewrite !lookup_insert_eq.
      * rewrite (lookup_insert_ne (list_to_map counts)) by done.
        destruct ((list_to_map counts : gmap str Z) !! term'); [done|].
        rewrite lookup_insert_ne; [done|]. intros [= E]. by apply index_token_inj in E.
    + rewrite lookup_insert_ne; [done|]. intros [=]. by subst.
  - intros s tok p Hne. destruct (decide ((s, tok, p) = (ix_scope ix, index_token (ix_keys ix) term, path))) as [[= -> -> ->]|Hk].
    + split_and!; [done|done|by exists term].
    + apply Ho. by rewrite lookup_insert_ne by congruence.
Qed.

Lemma tf_of_add idx c term p : Z.of_nat (length (tokens_of c)) < 4294967296 ->
  tf_of (postings (add idx c)) term p =
    if decide (p = source_path c) then
      let n := occurrences term (tokens_of c) in if decide (n = 0%nat) then None else Some (Z.of_nat n)
    else tf_of (postings idx) term p.
Proof.
  intros Hlen. unfold add. cbn [postings]. fold (tokens_of c). rewrite (tf_of_bumps _ _ _ _ _ 0); [| |done].
  - rewrite strip_path. by destruct (decide (source_path c = p)), (decide (p = source_path c)).
  - by rewrite strip_path, decide_True.
Qed.

(** Adding to the tables is adding to the index; only the rows of the path
    in the index's own scope change. *)
Lemma index_add_spec ix t idx c nonce r t' : no_collisions -> indexes ix t idx ->
  Z.of_nat (length (tokens_of c)) < 4294967296 -> length nonce = NONCE_LEN ->
  index_add ix t c nonce true = (r, t') ->
  (r = Ok tt /\ indexes ix t' (add idx c) /\
   (forall s tok p, (s <> ix_scope ix \/ p <> source_path c) -> search_tokens t' !! (s, tok, p) = search_tokens t !! (s, tok, p)) /\
   (forall s p, (s <> ix_scope ix \/ p <> source_path c) -> search_docs t' !! (s, p) = search_docs t !! (s, p))) \/
  ((exists e, r = Err (XCrypto e)) /\ t' = t).
Proof.
  intros Hnc HI Hlen Hn. unfold index_add. destruct (aead_seal _ _ _ _) as [sealed|e] eqn:Es; cycle 1.
  { intros [= <- <-]. right. split; [by eexists|done]. }
  cbn [negb]. cbv iota zeta. fold (tokens_of c). set (counts := fold_left count_token (tokens_of c) ∅).
  set (t1 := delete_rows t (ix_scope ix) (source_path c)).
  assert (Hcounts : forall term, counts !! term =
    let n := occurrences term (tokens_of c) in if decide (n = 0%nat) then None else Some (Z.of_nat n)).
  { intros term. unfold counts. by rewrite (count_tokens_spec _ _ _ 0). }
  destruct (insert_tokens_spec ix (source_path c) (map_to_list counts) (search_tokens t1) Hnc) as (rows & Hr & Hl & Ho).
  { apply NoDup_fst_map_to_list. }
  { intros term _. unfold t1. by rewrite delete_rows_token, decide_True. }
  rewrite Hr. intros [= <- <-]. left. split; [done|].
  assert (Hother : forall s tok p, (s <> ix_scope ix \/ p <> source_path c) -> rows !! (s, tok, p) = search_tokens t !! (s, tok, p)).
  { intros s tok p Hsp. destruct (decide (rows !! (s, tok, p) = search_tokens t1 !! (s, tok, p))) as [E|E].
    - rewrite E. unfold t1. rewrite delete_rows_token. by rewrite decide_False by tauto.
    - apply Ho in E as (-> & -> & _). tauto. }
  split_and!; cbn [search_tokens search_docs]; [split; cbn [search_tokens search_docs]| |].
  - intros term p. rewrite tf_of_add by done. destruct (decide (p = source_path c)) as [->|Hp].
    + rewrite Hl, decide_True, list_to_map_to_list, Hcounts by done. cbv zeta.
      destruct (decide (occurrences term (tokens_of c) = 0%nat)); [|done].
      unfold t1. by rewrite delete_rows_token, decide_True.
    + rewrite Hother by tauto. apply (ix_tf _ _ _ HI).
  - intros tok p tf. destruct (decide (p = source_path c)) as [->|Hp].
    + intros Hrow. destruct (Ho (ix_scope ix) tok (source_path c)) as (_ & _ & ?); [|done].
      rewrite Hrow. unfold t1. by rewrite delete_rows_token, decide_True.
    + rewrite Hother by tauto. apply (ix_token _ _ _ HI).
  - intros p. unfold add. cbn [docs]. destruct (decide (p = source_path c)) as [->|Hp].
    + rewrite !lookup_insert_eq. cbn. split_and!; [|by rewrite wrap32_small by (fold (tokens_of c); lia)|done].
      by eapply aead_seal_Ok.
    + rewrite lookup_insert_ne by done. rewrite lookup_insert_ne by (intros [=]; by subst).
      unfold t1, delete_rows. cbn [search_docs]. rewrite lookup_delete_ne by (intros [=]; by subst).
      apply (ix_doc _ _ _ HI).
  - exact Hother.
  - intros s p Hsp. rewrite lookup_insert_ne by (intros [=]; subst; tauto).
    unfold t1, delete_rows. cbn [search_docs]. by rewrite lookup_delete_ne by (intros [=]; subst; tauto).
Qed.

(** ** Lists of rows *)
Lemma chunks_concat {A} n (l : list A) : (0 < n)%nat -> concat (chunks n l) = l.
Proof.
  intros Hn. unfold chunks. assert (H : forall fuel (l : list A), (length l <= fuel)%nat -> concat (chunks_fuel fuel n l) = l).
  { induction fuel as [|fuel IH]; intros [|x l'] Hl; simpl; try done; [simpl in Hl; lia|].
    change (take n (x :: l') ++ concat (chunks_fuel fuel n (drop n (x :: l'))) = x :: l').
    rewrite IH; [apply take_drop|]. rewrite length_drop. simpl in *. lia. }
  by apply H.
Qed.

Lemma omap_split {A B} (f g h : A -> option B) l :
  (forall x, (g x = None /\ f x = h x) \/ (h x = None /\ f x = g x)) ->
  omap f l ≡ₚ omap g l ++ omap h l.
Proof.
  intros H. induction l as [|x l IH]; simpl; [done|].
  destruct (H x) as [[Hg ->]|[Hh ->]].
  - rewrite Hg. destruct (h x); rewrite IH; [apply Permutation_middle|done].
  - rewrite Hh. destruct (g x); by rewrite IH.
Qed.

Lemma existsb_elem x l : existsb (str_eqb x) l = true <-> x ∈ l.
Proof.
  rewrite existsb_exists. split.
  - intros (y & Hy & <-%str_eqb_eq). by apply list_elem_of_In.
  - intros H. exists x. split; [by apply list_elem_of_In|by apply str_eqb_eq].
Qed.

(** Rows selected batch by batch are the rows selected at once. *)
Lemma batches {B} {X} (key : X -> str) (sel : X -> option B) (l : list X) (chs : list (list str)) :
  NoDup (concat chs) ->
  concat ((fun ch => omap (fun x => if existsb (str_eqb (key x)) ch then sel x else None) l) <$> chs) ≡ₚ
  omap (fun x => if existsb (str_eqb (key x)) (concat chs) then sel x else None) l.
Proof.
  induction chs as [|ch chs IH]; intros Hnd; simpl.
  - induction l as [|x l IHl]; simpl; [done|]. done.
  - simpl in Hnd. apply NoDup_app in Hnd as (_ & Hdis & Hnd). rewrite IH by done. symmetry.
    apply omap_split. intros x. destruct (existsb (str_eqb (key x)) ch) eqn:E.
    + right. apply existsb_elem in E as Hin. pose proof (Hdis _ Hin) as Hout.
      assert (existsb (str_eqb (key x)) (concat chs) = false) as ->
        by (apply not_true_iff_false; by rewrite existsb_elem).
      assert (existsb (str_eqb (key x)) (ch ++ concat chs) = true) as ->
        by (apply existsb_elem, elem_of_app; by left). done.
    + left. split; [done|]. by rewrite existsb_app, E.
Qed.

Lemma NoDup_omap_key {A B K L} (f : A -> option B) (k : A -> K) (k' : B -> L) l :
  (forall x x' y y', f x = Some y -> f x' = Some y' -> k' y = k' y' -> k x = k x') ->
  NoDup (k <$> l) -> NoDup (k' <$> omap f l).
Proof.
  intros Hinj. induction l as [|x l IH]; simpl; [constructor|]. intros [Hnin Hnd]%NoDup_cons.
  destruct (f x) as [y|] eqn:E; simpl; [|by apply IH]. apply NoDup_cons. split; [|by apply IH].
  intros (y' & Hk & (x' & Hx' & Hf)%list_elem_of_omap)%list_elem_of_fmap. apply Hnin, list_elem_of_fmap.
  exists x'. split; [|done]. by eapply Hinj.
Qed.

(** ** What the statements of a search compute *)
Lemma bump_df_spec rows df token n :
  df !! token = (if decide (n = 0%nat) then None else Some (Z.of_nat n)) ->
  fold_left bump_df rows df !! token =
    let k := (n + length (retain (fun r => str_eqb r.1.1 token) rows))%nat in
    if decide (k = 0%nat) then None else Some (Z.of_nat k).
Proof.
  revert df n. induction rows as [|[[tok p] tf] rows IH]; intros df n Hn; simpl; [by rewrite Nat.add_0_r|].
  unfold bump_df at 2. simpl. rewrite str_eqb_decide. destruct (decide (tok = token)) as [->|Hne].
  - rewrite bool_decide_true by done. rewrite (IH _ (S n)); simpl.
    + by rewrite Nat.add_succ_r.
    + rewrite lookup_insert_eq, Hn. f_equal. destruct (decide (n = 0%nat)) as [->|]; simpl; [done|]. lia.
  - rewrite bool_decide_false by done. rewrite (IH _ n); [done|]. by rewrite lookup_insert_ne.
Qed.

Definition tf_in (tfs : gmap str (gmap str Z)) (path token : str) : option Z := m ← tfs !! path; m !! token.

Lemma add_tf_lookup tfs row path token : tf_in (add_tf tfs row) path token =
  if decide (path = row.1.2 /\ token = row.1.1)
  then Some (wrap32 (default 0 (tf_in tfs path token) + wrap32 row.2)) else tf_in tfs path token.
Proof.
  destruct row as [[tok p] tf]. unfold tf_in, add_tf. simpl. rewrite lookup_total_alt.
  destruct (decide (path = p)) as [->|Hp].
  - rewrite lookup_insert_eq. simpl. destruct (decide (token = tok)) as [->|Ht].
    + rewrite lookup_insert_eq, decide_True by done. destruct (tfs !! p); simpl; [done|]. by rewrite lookup_empty.
    + rewrite lookup_insert_ne by done. rewrite decide_False by tauto.
      destruct (tfs !! p); simpl; [done|]. by rewrite lookup_empty.
  - rewrite lookup_insert_ne by done. by rewrite decide_False by tauto.
Qed.

Lemma add_tf_spec rows tfs path token :
  NoDup rows.*1 -> Forall (fun r => 0 <= r.2 < 4294967296) rows ->
  (forall r, r ∈ rows -> tf_in tfs r.1.2 r.1.1 = None) ->
  tf_in (fold_left add_tf rows tfs) path token =
    match (list_to_map rows : gmap (str * str) Z) !! (token, path) with
    | Some tf => Some tf
    | None => tf_in tfs path token
    end.
Proof.
  revert tfs. induction rows as [|[[tok p] tf] rows IH]; intros tfs Hnd Hb Hfresh; [done|].
  rewrite fmap_cons in Hnd. apply NoDup_cons in Hnd as [Hnin Hnd]. apply Forall_cons in Hb as [Hb0 Hb]. simpl in Hb0.
  cbn [fold_left]. rewrite IH; [|done|done|]; cycle 1.
  { intros [[t' p'] tf'] Hin. rewrite add_tf_lookup. simpl. rewrite decide_False.
    - apply (Hfresh _ ltac:(by right)).
    - intros [-> ->]. apply Hnin, list_elem_of_fmap. by exists (tok, p, tf'). }
  rewrite list_to_map_cons, add_tf_lookup. simpl. destruct (decide ((tok, p) = (token, path))) as [[= -> ->]|Hne].
  - rewrite lookup_insert_eq, (not_elem_of_list_to_map_1 rows) by done. rewrite decide_True by done.
    pose proof (Hfresh (token, path, tf) ltac:(left)) as E. simpl in E. rewrite E. simpl. f_equal.
    rewrite (wrap32_small tf), wrap32_small; lia.
  - rewrite lookup_insert_ne by done. rewrite decide_False; [done|]. intros [-> ->]. done.
Qed.

Lemma add_tf_keys rows tfs path : is_Some (fold_left add_tf rows tfs !! path) <->
  is_Some (tfs !! path) \/ exists r, r ∈ rows /\ r.1.2 = path.
Proof.
  revert tfs. induction rows as [|r rows IH]; intros tfs; simpl.
  - split; [by left|]. intros [?|(r & ?%elem_of_nil & _)]; done.
  - rewrite IH. unfold add_tf. destruct (decide (r.1.2 = path)) as [<-|Hne].
    + rewrite lookup_insert_eq. split; [|by left]. intros _. right. exists r. split; [left|done].
    + rewrite lookup_insert_ne by done. split.
      * intros [?|(r' & ? & ?)]; [by left|right; exists r'; split; [by right|done]].
      * intros [?|(r' & [->|?]%elem_of_cons & ?)]; [by left|done|right; by exists r'].
Qed.

(** ** The distinct terms of a query, in order *)
Definition sorted_terms (q : SearchQuery) : list str := dedup (sort_by str_cmp (to_lowercase <$> terms q)).

Lemma dedup_elem x l : x ∈ dedup l <-> x ∈ l.
Proof.
  induction l as [|y l IH]; [done|]. cbn [dedup]. destruct (dedup l) as [|z r] eqn:E.
  - set_solver.
  - destruct (str_eqb y z) eqn:Ey; [apply str_eqb_eq in Ey as ->|]; set_solver.
Qed.

Lemma dedup_increasing l : StronglySorted (ordered str_cmp) l -> StronglySorted (fun a b => str_cmp a b = Lt) (dedup l).
Proof.
  induction 1 as [|x l Hs IH Hx]; [constructor|]. cbn [dedup]. destruct (dedup l) as [|y r] eqn:E; [by repeat constructor|].
  destruct (str_eqb x y) eqn:Ey; [done|].
  assert (Hxy : str_cmp x y = Lt).
  { assert (y ∈ l) as Hy by (apply dedup_elem; rewrite E; left). rewrite Forall_forall in Hx. specialize (Hx y Hy).
    unfold ordered in Hx. destruct (str_cmp x y) eqn:Ec; [|done|done]. apply str_cmp_eq in Ec as ->.
    by rewrite (proj2 (str_eqb_eq _ _) eq_refl) in Ey. }
  constructor; [done|]. constructor; [done|]. inversion IH as [|? ? _ Hr]; subst.
  eapply Forall_impl; [exact Hr|]. intros z Hz. by eapply str_cmp_lt_trans.
Qed.

Lemma increasing_NoDup l : StronglySorted (fun a b => str_cmp a b = Lt) l -> NoDup l.
Proof.
  induction 1 as [|x l _ IH Hx]; constructor; [|done]. intros Hin. rewrite Forall_forall in Hx.
  specialize (Hx x Hin). by rewrite str_cmp_refl in Hx.
Qed.

Lemma sorted_terms_NoDup q : NoDup (sorted_terms q).
Proof.
  apply increasing_NoDup, dedup_increasing, (sort_by_sorted _ (fun _ => True)); [apply str_cmp_total|].
  by apply Forall_true.
Qed.

Lemma sorted_terms_elem q x : x ∈ sorted_terms q <-> x ∈ to_lowercase <$> terms q.
Proof. unfold sorted_terms. by rewrite dedup_elem, sort_by_perm. Qed.

(** What additions and removals keep of an index *)
Record idx_ok (idx : InMemoryIndex) : Prop := {
  ok_consistent : consistent idx;
  ok_tf token path tf : tf_of (postings idx) token path = Some tf -> 1 <= tf < 4294967296;
  ok_length path d : docs idx !! path = Some d -> 0 <= d_length d < 4294967296 }.

Definition total_length (idx : InMemoryIndex) : Z := map_fold (fun _ d acc => acc + d_length d) 0 (docs idx).

Section Refine.
Context (ix : EncryptedIndex) (t : SearchTables) (idx : InMemoryIndex).
Hypothesis Hnc : no_collisions.
Hypothesis HI : indexes ix t idx.
Hypothesis Hok : idx_ok idx.
Hypothesis Hsum : total_length idx < 18446744073709551616.
Abbreviation tok term := (index_token (ix_keys ix) term).

Lemma scope_docs_elem p row : (p, row) ∈ scope_docs (ix_scope ix) t <-> search_docs t !! (ix_scope ix, p) = Some row.
Proof.
  unfold scope_docs. rewrite list_elem_of_omap. split.
  - intros ([[s p'] row'] & Hin%elem_of_map_to_list & Hf). simpl in Hf.
    destruct (str_eqb s (ix_scope ix)) eqn:E; [|done]. apply str_eqb_eq in E as ->. by injection Hf as -> ->.
  - intros H. exists ((ix_scope ix, p), row). split; [by apply elem_of_map_to_list|]. simpl.
    by rewrite (proj2 (str_eqb_eq _ _) eq_refl).
Qed.

Lemma scope_docs_NoDup : NoDup (scope_docs (ix_scope ix) t).*1.
Proof.
  eapply (NoDup_omap_key _ fst); [|apply NoDup_fst_map_to_list].
  intros [[s p] r] [[s' p'] r'] y y'. simpl.
  destruct (str_eqb s _) eqn:E; [|done]. destruct (str_eqb s' _) eqn:E'; [|done].
  apply str_eqb_eq in E as ->, E' as ->. intros [= <-] [= <-]. simpl. by intros ->.
Qed.

Lemma doc_related p : 
  (exists row, (p, row) ∈ scope_docs (ix_scope ix) t) <-> is_Some (docs idx !! p).
Proof.
  setoid_rewrite scope_docs_elem. pose proof (ix_doc _ _ _ HI p) as H.
  destruct (docs idx !! p), (search_docs t !! (ix_scope ix, p)); split; try done; intros [? ?]; by eauto.
Qed.

Lemma scope_lengths :
  (fun d : str * SearchDoc => (d.1, default 0 (sd_length d.2))) <$> scope_docs (ix_scope ix) t ≡ₚ
  (fun kv => (kv.1, d_length kv.2)) <$> map_to_list (docs idx).
Proof.
  apply NoDup_Permutation.
  - eapply (NoDup_fmap_1 fst). rewrite <- list_fmap_compose. apply scope_docs_NoDup.
  - eapply (NoDup_fmap_1 fst). rewrite <- list_fmap_compose. apply NoDup_fst_map_to_list.
  - intros [p n]. rewrite !list_elem_of_fmap. pose proof (ix_doc _ _ _ HI p) as H. split.
    + intros ([p' row] & [= -> ->] & Hin%scope_docs_elem). rewrite Hin in H.
      destruct (docs idx !! p') as [d|] eqn:E; [|done]. destruct H as (_ & Hl & _). exists (p', d).
      rewrite Hl. split; [done|by apply elem_of_map_to_list].
    + intros ([p' d] & [= -> ->] & Hin%elem_of_map_to_list). rewrite Hin in H.
      destruct (search_docs t !! (ix_scope ix, p')) as [row|] eqn:E; [|done]. destruct H as (_ & Hl & _).
      exists (p', row). split; [simpl; by rewrite Hl|by apply scope_docs_elem].
Qed.

Lemma foldr_add_perm l l' : l ≡ₚ l' -> foldr Z.add 0 l = foldr Z.add 0 l'.
Proof. induction 1; simpl; lia. Qed.

Lemma sum_lengths (l : list (str * DocMeta)) :
  foldr (uncurry (fun (_ : str) d acc => acc + d_length d)) 0 l = foldr Z.add 0 ((fun kv => d_length kv.2) <$> l).
Proof. induction l as [|[p d] l IH]; [done|]. simpl. rewrite Z.add_comm. f_equal. exact IH. Qed.

Lemma stats_spec : corpus_stats (ix_scope ix) t = (Z.of_nat (size (docs idx)), total_length idx).
Proof.
  unfold corpus_stats. pose proof scope_lengths as H. f_equal.
  - f_equal. apply Permutation_length in H. rewrite !length_fmap in H. rewrite H. apply length_map_to_list.
  - assert (H2 : snd <$> ((fun d : str * SearchDoc => (d.1, default 0 (sd_length d.2))) <$> scope_docs (ix_scope ix) t) ≡ₚ
      snd <$> ((fun kv => (kv.1, d_length kv.2)) <$> map_to_list (docs idx))) by by rewrite H.
    rewrite <- !list_fmap_compose in H2. apply foldr_add_perm in H2.
    etrans; [exact H2|]. unfold total_length. rewrite map_fold_foldr. symmetry. apply sum_lengths.
Qed.

Lemma total_length_nonneg : 0 <= total_length idx.
Proof.
  unfold total_length. rewrite map_fold_foldr.
  assert (H : Forall (fun kv => 0 <= d_length kv.2) (map_to_list (docs idx))).
  { apply Forall_forall. intros [p d] Hin%elem_of_map_to_list. apply (ok_length _ Hok) in Hin. simpl. lia. }
  induction H as [|[p d] l Hd _ IH]; simpl in *; lia.
Qed.

Lemma mean_spec : stats_avgdl (Z.of_nat (size (docs idx))) (total_length idx) = avgdl idx.
Proof.
  unfold stats_avgdl, avgdl. destruct (Z.ltb_spec 0 (Z.of_nat (size (docs idx)))) as [H|H].
  - rewrite (proj2 (Z.eqb_neq _ _)) by lia. fold (total_length idx). pose proof total_length_nonneg.
    by rewrite wrap64_small by lia.
  - by rewrite (proj2 (Z.eqb_eq _ _)) by lia.
Qed.

(** The token pass *)
Context (q : SearchQuery).
Abbreviation sts := (sorted_terms q).

Definition all_rows : list (str * str * Z) :=
  concat (imap (fun k chunk => token_rows (ix_scope ix) chunk t) (chunks 16 (query_tokens ix q))).

Lemma query_tokens_NoDup : NoDup (query_tokens ix q).
Proof.
  apply NoDup_fmap_2_strong; [|apply sorted_terms_NoDup]. intros x y _ _ E. by eapply index_token_inj.
Qed.

Lemma all_rows_perm : all_rows ≡ₚ token_rows (ix_scope ix) (query_tokens ix q) t.
Proof.
  unfold all_rows. rewrite (imap_const (fun chunk => token_rows (ix_scope ix) chunk t)).
  set (sel := fun kv : str * str * str * Z => if str_eqb kv.1.1.1 (ix_scope ix) then Some (kv.1.1.2, kv.1.2, kv.2) else None).
  assert (Hsel : forall chunk, token_rows (ix_scope ix) chunk t =
    omap (fun kv => if existsb (str_eqb kv.1.1.2) chunk then sel kv else None) (map_to_list (search_tokens t))).
  { intros chunk. unfold token_rows, sel. apply list_omap_ext, Forall_Forall2_diag, Forall_forall. intros kv _.
    by destruct (str_eqb _ _), (existsb _ _). }
  rewrite (list_fmap_ext _ _ _ (fun _ chunk _ => Hsel chunk)). rewrite Hsel.
  pose proof (batches (fun kv : str * str * str * Z => kv.1.1.2) sel (map_to_list (search_tokens t))
    (chunks 16 (query_tokens ix q))) as H. rewrite chunks_concat in H by lia. apply H, query_tokens_NoDup.
Qed.

Lemma all_rows_elem token p tf : (token, p, tf) ∈ all_rows <->
  exists term, term ∈ sts /\ token = tok term /\ tf_of (postings idx) term p = Some tf.
Proof.
  rewrite all_rows_perm. unfold token_rows. rewrite list_elem_of_omap. split.
  - intros ([[[s tk] p'] tf'] & Hin%elem_of_map_to_list & Hf). simpl in Hf.
    destruct (str_eqb s (ix_scope ix)) eqn:Es; [|done]. apply str_eqb_eq in Es as ->. simpl in Hf.
    destruct (existsb (str_eqb tk) _) eqn:Ee; [|done]. injection Hf as -> -> ->.
    apply existsb_elem, list_elem_of_fmap in Ee as (term & -> & Hterm).
    exists term. split_and!; [done|done|]. by rewrite <- (ix_tf _ _ _ HI).
  - intros (term & Hterm & -> & Htf). exists (ix_scope ix, tok term, p, tf).
    split; [apply elem_of_map_to_list; by rewrite (ix_tf _ _ _ HI)|]. simpl.
    rewrite (proj2 (str_eqb_eq _ _) eq_refl). simpl.
    by rewrite (proj2 (existsb_elem _ _)) by (apply list_elem_of_fmap; by exists term).
Qed.

Lemma all_rows_NoDup : NoDup all_rows.*1.
Proof.
  rewrite all_rows_perm. eapply (NoDup_omap_key _ fst); [|apply NoDup_fst_map_to_list].
  intros [[[s tk] p] r] [[[s' tk'] p'] r'] y y'. simpl.
  destruct (str_eqb s _) eqn:E; [|done]. destruct (str_eqb s' _) eqn:E'; [|done].
  apply str_eqb_eq in E as ->, E' as ->. simpl. destruct (existsb _ _); [|done]. destruct (existsb _ _); [|done].
  intros [= <-] [= <-]. simpl. by intros [= -> ->].
Qed.

(** Document frequencies are posting-list sizes. *)
Lemma df_spec term : term ∈ sts -> default 0 (fold_left bump_df all_rows ∅ !! tok term) = df_of idx term.
Proof.
  intros Hterm. rewrite (bump_df_spec _ _ _ 0) by done. cbv zeta. rewrite Nat.add_0_l.
  set (rows := retain (fun r => str_eqb r.1.1 (tok term)) all_rows).
  assert (Hnd : NoDup (snd ∘ fst <$> rows)).
  { unfold rows. pose proof all_rows_NoDup as Hnd. induction all_rows as [|[[tk p] tf] l IH]; simpl; [constructor|].
    rewrite fmap_cons in Hnd. apply NoDup_cons in Hnd as [Hnin Hnd]. simpl in Hnin.
    destruct (str_eqb tk (tok term)) eqn:E; [|by apply IH]. apply str_eqb_eq in E as ->. simpl.
    apply NoDup_cons. split; [|by apply IH].
    intros ([[tk' p'] tf'] & Hp & Hin)%list_elem_of_fmap. simpl in Hp. subst p'.
    apply list_elem_of_In, List.filter_In in Hin as [Hin Heq]. simpl in Heq. apply str_eqb_eq in Heq as ->.
    apply Hnin, list_elem_of_fmap. exists (tok term, p, tf'). split; [done|by apply list_elem_of_In]. }
  assert (Hmem : forall p, p ∈ snd ∘ fst <$> rows <-> is_Some (tf_of (postings idx) term p)).
  { intros p. rewrite list_elem_of_fmap. split.
    - intros ([[tk p'] tf] & -> & Hin). apply list_elem_of_In, List.filter_In in Hin as [Hin Heq].
      apply list_elem_of_In, all_rows_elem in Hin as (term' & _ & -> & Htf). simpl in *.
      apply str_eqb_eq, index_token_inj in Heq as ->; [by eexists|done].
    - intros [tf Htf]. exists (tok term, p, tf). split; [done|]. apply list_elem_of_In, List.filter_In.
      split; [|by apply str_eqb_eq]. apply list_elem_of_In, all_rows_elem. by exists term. }
  assert (Hlen : Z.of_nat (length rows) = df_of idx term).
  { unfold df_of, tf_of in *. rewrite <- (length_fmap (snd ∘ fst)). destruct (postings idx !! term) as [posting|]; simpl in *.
    - f_equal. rewrite <- length_map_to_list, <- (length_fmap fst). apply Permutation_length, NoDup_Permutation; [done|apply NoDup_fst_map_to_list|].
      intros p. rewrite Hmem. split.
      + intros [tf Htf]. apply list_elem_of_fmap. exists (p, tf). split; [done|by apply elem_of_map_to_list].
      + intros ([p' tf] & -> & Hin%elem_of_map_to_list)%list_elem_of_fmap. by eexists.
    - destruct (snd ∘ fst <$> rows) as [|p l] eqn:E; [done|]. exfalso.
      destruct (proj1 (Hmem p) ltac:(left)) as [? [=]]. }
  rewrite <- Hlen. destruct (decide (length rows = 0%nat)) as [->|]; done.
Qed.

Lemma tfs_spec term p : term ∈ sts -> tf_in (fold_left add_tf all_rows ∅) p (tok term) = tf_of (postings idx) term p.
Proof.
  intros Hterm. rewrite add_tf_spec; [|apply all_rows_NoDup| |].
  - assert (H0 : tf_in ∅ p (tok term) = None) by (unfold tf_in; by rewrite lookup_empty). rewrite H0.
    destruct (tf_of (postings idx) term p) as [tf|] eqn:E.
    + rewrite (proj1 (elem_of_list_to_map all_rows (tok term, p) tf all_rows_NoDup)); [done|].
      apply all_rows_elem. by exists term.
    + destruct (list_to_map all_rows !! (tok term, p)) as [tf|] eqn:El; [|done].
      apply elem_of_list_to_map_2, all_rows_elem in El as (term' & _ & Ht & Htf).
      apply index_token_inj in Ht as <-; [congruence|done].
  - apply Forall_forall. intros [[tk p'] tf] (term' & _ & _ & Htf)%all_rows_elem. simpl.
    apply (ok_tf _ Hok) in Htf. lia.
  - intros r _. unfold tf_in. by rewrite lookup_empty.
Qed.

Lemma scored_spec p : p ∈ sort_by str_cmp (map_to_list (fold_left add_tf all_rows ∅)).*1 <->
  exists term tf, term ∈ sts /\ tf_of (postings idx) term p = Some tf.
Proof.
  rewrite sort_by_perm. trans (is_Some (fold_left add_tf all_rows ∅ !! p)).
  - rewrite list_elem_of_fmap. split.
    + intros ([p' m] & -> & Hin%elem_of_map_to_list). by eexists.
    + intros [m Hm]. exists (p, m). split; [done|by apply elem_of_map_to_list].
  - rewrite add_tf_keys, lookup_empty. split.
    + intros [[? [=]]|([[tk p'] tf] & Hin & <-)]. apply all_rows_elem in Hin as (term & ? & _ & ?). by exists term, tf.
    + intros (term & tf & ? & ?). right. exists (tok term, p, tf). split; [|done]. apply all_rows_elem. by exists term.
Qed.

(** Scores *)
Lemma df_le_docs term : df_of idx term <= Z.of_nat (size (docs idx)).
Proof.
  unfold df_of. destruct (postings idx !! term) as [posting|] eqn:E; [|lia].
  rewrite <- (size_dom posting), <- (size_dom (docs idx)). apply inj_le, subseteq_size.
  intros p [tf Hp]%elem_of_dom. apply elem_of_dom, (ok_consistent _ Hok term p tf). unfold tf_of. by rewrite E.
Qed.

Lemma score_row_spec p d : docs idx !! p = Some d -> forall l acc, (forall x, x ∈ l -> x ∈ sts) ->
  fold_left (fun score token =>
    let term_df := default 0 (fold_left bump_df all_rows ∅ !! token) in
    if term_df =? 0 then score
    else
      let tf := default 0 (tf_in (fold_left add_tf all_rows ∅) p token) in
      if tf =? 0 then score
      else f32_add score (bm25_score Params_default (Z.max (Z.of_nat (size (docs idx))) term_df) term_df tf
                            (wrap32 (d_length d)) (avgdl idx)))
    ((fun term => tok term) <$> l) (default f32_zero acc) =
  default f32_zero (fold_left (add_term idx p d) l acc).
Proof.
  intros Hd l. induction l as [|term l IH]; intros acc Hl; [done|].
  rewrite fmap_cons. cbn [fold_left]. rewrite <- IH by (intros; apply Hl; by right). f_equal. cbv zeta.
  rewrite df_spec, tfs_spec by (apply Hl; left). unfold add_term.
  destruct (tf_of (postings idx) term p) as [tf|] eqn:Htf.
  - pose proof (ok_tf _ Hok _ _ _ Htf) as Hb.
    assert (Hdf : 0 < df_of idx term).
    { unfold df_of. unfold tf_of in Htf. destruct (postings idx !! term) as [posting|]; [|done]. simpl in Htf.
      assert (size posting <> 0%nat); [|lia]. intros E%map_size_empty_inv. subst. by rewrite lookup_empty in Htf. }
    rewrite (proj2 (Z.eqb_neq (df_of idx term) 0)) by lia. change (default 0 (Some tf)) with tf.
    rewrite (proj2 (Z.eqb_neq tf 0)) by lia. pose proof (df_le_docs term). rewrite Z.max_l by done.
    pose proof (ok_length _ Hok _ _ Hd). by rewrite (wrap32_small (d_length d)) by lia.
  - change (default 0 (@None Z)) with 0. by destruct (df_of idx term =? 0).
Qed.

Lemma score_row_sum p d : docs idx !! p = Some d ->
  score_row (Z.of_nat (size (docs idx))) (avgdl idx) (fold_left bump_df all_rows ∅) (fold_left add_tf all_rows ∅)
    (query_tokens ix q) p (d_length d) = default f32_zero (fold_left (add_term idx p d) sts None).
Proof. intros Hd. apply (score_row_spec p d Hd sts None). by intros. Qed.

(** The document pass *)
Definition all_docs : list (str * bytes * Z) :=
  concat (imap (fun k chunk => doc_rows (ix_scope ix) (bool_decide (status_filter q = ActiveOnly)) chunk t)
    (chunks 64 (sort_by str_cmp (map_to_list (fold_left add_tf all_rows ∅)).*1))).

Lemma all_docs_perm : all_docs ≡ₚ doc_rows (ix_scope ix) (bool_decide (status_filter q = ActiveOnly))
  (sort_by str_cmp (map_to_list (fold_left add_tf all_rows ∅)).*1) t.
Proof.
  unfold all_docs. set (active := bool_decide _). set (paths := sort_by _ _).
  rewrite (imap_const (fun chunk => doc_rows (ix_scope ix) active chunk t)).
  set (sel := fun d : str * SearchDoc => if negb active || is_active_status (sd_status d.2)
                                         then Some (d.1, sd_payload d.2, default 0 (sd_length d.2)) else None).
  assert (Hsel : forall chunk, doc_rows (ix_scope ix) active chunk t =
    omap (fun d => if existsb (str_eqb d.1) chunk then sel d else None) (scope_docs (ix_scope ix) t)).
  { intros chunk. unfold doc_rows, sel. apply list_omap_ext, Forall_Forall2_diag, Forall_forall. intros d _.
    by destruct (existsb _ _). }
  rewrite (list_fmap_ext _ _ _ (fun _ chunk _ => Hsel chunk)). rewrite Hsel.
  pose proof (batches (fun d : str * SearchDoc => d.1) sel (scope_docs (ix_scope ix) t) (chunks 64 paths)) as H.
  rewrite chunks_concat in H by lia. apply H. unfold paths. rewrite sort_by_perm. apply NoDup_fst_map_to_list.
Qed.

Lemma all_docs_NoDup : NoDup all_docs.*1.*1.
Proof.
  rewrite all_docs_perm. rewrite <- list_fmap_compose. eapply (NoDup_omap_key _ fst); [|apply scope_docs_NoDup].
  intros d d' y y'. destruct (_ && _); [|done]. destruct (_ && _); [|done]. by intros [= <-] [= <-].
Qed.

Lemma all_docs_elem p payload n : (p, payload, n) ∈ all_docs <->
  exists d row, docs idx !! p = Some d /\ search_docs t !! (ix_scope ix, p) = Some row /\ visible q d = true /\
    (exists term tf, term ∈ sts /\ tf_of (postings idx) term p = Some tf) /\
    payload = sd_payload row /\ n = d_length d.
Proof.
  rewrite all_docs_perm. unfold doc_rows. rewrite list_elem_of_omap. pose proof (ix_doc _ _ _ HI p) as Hd. split.
  - intros ([p' row] & Hin%scope_docs_elem & Hf). simpl in Hf.
    destruct (existsb (str_eqb p') _) eqn:Ee; [|done]. destruct (negb _ || _) eqn:Ev; [|done]. injection Hf as -> <- <-.
    rewrite Hin in Hd. destruct (docs idx !! p) as [d|]; [|done]. destruct Hd as (_ & Hl & Hs).
    exists d, row. apply existsb_elem, scored_spec in Ee. rewrite Hl. split_and!; try done.
    unfold visible. rewrite Hs in Ev. destruct (bool_decide _); simpl in *; by rewrite ?Ev.
  - intros (d & row & Hdoc & Hrow & Hv & Hterm & -> & ->). exists (p, row). split; [by apply scope_docs_elem|].
    rewrite Hdoc, Hrow in Hd. destruct Hd as (_ & Hl & Hs). simpl.
    rewrite (proj2 (existsb_elem _ _)) by (by apply scored_spec). simpl. rewrite Hs, Hl.
    unfold visible in Hv. apply negb_true_iff in Hv. destruct (bool_decide _); simpl in *; [|done].
    apply negb_false_iff in Hv. by rewrite Hv.
Qed.

Lemma index_search_unfold : terms q <> [] ->
  index_search ix (fun _ => t) q false =
  Ok (sort_by result_cmp (omap (result_of ix (Z.of_nat (size (docs idx))) (avgdl idx) (fold_left bump_df all_rows ∅)
    (fold_left add_tf all_rows ∅) (query_tokens ix q)) all_docs)).
Proof. intros Hne. unfold index_search. destruct (terms q); [done|]. rewrite stats_spec, mean_spec. done. Qed.

Lemma result_of_doc p payload n : (p, payload, n) ∈ all_docs ->
  exists d s, docs idx !! p = Some d /\ visible q d = true /\ fold_left (add_term idx p d) sts None = Some s /\
    result_of ix (Z.of_nat (size (docs idx))) (avgdl idx) (fold_left bump_df all_rows ∅)
      (fold_left add_tf all_rows ∅) (query_tokens ix q) (p, payload, n) =
    Some (mkResult p (d_title d) (trim (take 200 (d_body d))) s).
Proof.
  intros (d & row & Hd & Hrow & Hv & Hterm & -> & ->)%all_docs_elem.
  pose proof (ix_doc _ _ _ HI p) as Hdoc. rewrite Hd, Hrow in Hdoc. destruct Hdoc as (Hs & _).
  destruct Hterm as (term & tf & Hin & Htf).
  destruct (proj2 (add_terms_Some idx p d sts)) as [s Hscore]; [by exists term, tf|].
  exists d, s. split_and!; [done..|]. unfold result_of. rewrite (aead_open_self _ _ _ _ Hs). simpl.
  rewrite doc_roundtrip. simpl. by rewrite score_row_sum, Hscore.
Qed.

(** The results of a search *)
Definition is_hit (r : SearchResult) : Prop :=
  exists d, docs idx !! concept_path r = Some d /\ visible q d = true /\
    Some (score r) = fold_left (add_term idx (concept_path r) d) sts None /\
    r_title r = d_title d /\ snippet r = trim (take 200 (d_body d)).

Lemma index_search_hits : exists rs, index_search ix (fun _ => t) q false = Ok rs /\
  NoDup (concept_path <$> rs) /\ (forall r, r ∈ rs <-> is_hit r) /\
  (Forall (fun r => is_nan (score r) = false) rs -> StronglySorted (ordered result_cmp) rs).
Proof.
  destruct (decide (terms q = [])) as [E|Hne].
  { unfold index_search. rewrite E. exists []. split_and!; [done|constructor| |by constructor].
    intros r. split; [by intros ?%elem_of_nil|]. intros (d & _ & _ & Hs & _). exfalso.
    assert (sts = []) as E' by (unfold sorted_terms; by rewrite E). rewrite E' in Hs. done. }
  rewrite index_search_unfold by done. set (f := result_of _ _ _ _ _ _). eexists. split; [done|].
  assert (Hin : forall r, r ∈ omap f all_docs <-> is_hit r).
  { intros r. rewrite list_elem_of_omap. split.
    - intros ([[p payload] n] & Hin & Hf). destruct (result_of_doc p payload n Hin) as (d & s & Hd & Hv & Hs & Hr).
      unfold f in Hf. rewrite Hr in Hf. injection Hf as <-. by exists d.
    - intros (d & Hd & Hv & Hs & Ht & Hsn). pose proof (ix_doc _ _ _ HI (concept_path r)) as Hdoc. rewrite Hd in Hdoc.
      destruct (search_docs t !! (ix_scope ix, concept_path r)) as [row|] eqn:Hrow; [|done].
      assert (Hdocs : (concept_path r, sd_payload row, d_length d) ∈ all_docs).
      { apply all_docs_elem. exists d, row. split_and!; [done..| |done|done].
        destruct (proj1 (add_terms_Some idx (concept_path r) d sts)) as (term & tf & ? & ?); [by eexists|].
        by exists term, tf. }
      exists (concept_path r, sd_payload row, d_length d). split; [done|].
      destruct (result_of_doc _ _ _ Hdocs) as (d' & s & Hd' & _ & Hs' & Hr). rewrite Hd in Hd'. injection Hd' as <-.
      unfold f. rewrite Hr, <- Ht, <- Hsn. rewrite Hs' in Hs. injection Hs as <-. by destruct r. }
  split_and!.
  - rewrite sort_by_perm. eapply (NoDup_omap_key _ (fun x => x.1.1)).
    + intros [[p pl] n] [[p' pl'] n'] r r'. simpl. unfold f, result_of.
      intros (? & _ & ([? ?] & _ & [= <-])%bind_Some)%bind_Some (? & _ & ([? ?] & _ & [= <-])%bind_Some)%bind_Some. done.
    + pose proof all_docs_NoDup as Hnd. rewrite <- list_fmap_compose in Hnd. exact Hnd.
  - intros r. rewrite sort_by_perm. apply Hin.
  - intros Hnan. rewrite sort_by_perm in Hnan.
    apply (sort_by_sorted _ (fun r => is_nan (score r) = false)); [|done].
    apply rank_cmp_total; [done|]. split; unfold ordered.
    + intros x y _ _. apply (total_cmp _ _ (str_cmp_total (fun _ => True))); done.
    + intros x y z _ _ _. apply (trans_cmp _ _ (str_cmp_total (fun _ => True))); done.
Qed.
End Refine.

(** ** Histories of the tables *)
Inductive IndexOp := IAdd (c : Concept) (nonce : bytes) | IRemove (path : str).

Definition index_op (t : SearchTables) (x : EncryptedIndex * IndexOp * bool) : result unit IndexError * SearchTables :=
  match x with
  | (ix, IAdd c nonce, commits) => index_add ix t c nonce commits
  | (ix, IRemove path, commits) => index_remove ix t path commits
  end.

(** What a removal does to the in-memory index *)
Definition forget (idx : InMemoryIndex) (path : str) : InMemoryIndex :=
  mkIndex (filter (fun kv => kv.2 <> ∅) (delete path <$> postings idx)) (delete path (docs idx)).

Definition spec_index_op (scope : str) (idx : InMemoryIndex) (x : EncryptedIndex * IndexOp * bool)
    (r : result unit IndexError) : InMemoryIndex :=
  if str_eqb (ix_scope x.1.1) scope then
    match r, x.1.2 with
    | Ok _, IAdd c _ => add idx c
    | Ok _, IRemove path => forget idx path
    | Err _, _ => idx
    end
  else idx.

Fixpoint run_index (scope : str) (t : SearchTables) (idx : InMemoryIndex) (ops : list (EncryptedIndex * IndexOp * bool))
    : SearchTables * InMemoryIndex :=
  match ops with
  | [] => (t, idx)
  | x :: ops => let '(r, t') := index_op t x in run_index scope t' (spec_index_op scope idx x r) ops
  end.

(** Operations of the scope use the scope's index. *)
Definition index_op_ok (ix : EncryptedIndex) (x : EncryptedIndex * IndexOp * bool) : Prop :=
  (ix_scope x.1.1 = ix_scope ix -> x.1.1 = ix) /\
  match x.1.2 with
  | IAdd c nonce => Z.of_nat (length (tokens_of c)) < 4294967296 /\ length nonce = NONCE_LEN
  | IRemove _ => True
  end.

Lemma idx_ok_add idx c : idx_ok idx -> Z.of_nat (length (tokens_of c)) < 4294967296 -> idx_ok (add idx c).
Proof.
  intros [Hc Ht Hl] Hlen.
  assert (Hocc : forall t l, (occurrences t l <= length l)%nat).
  { intros t l. induction l as [|x l IH]; simpl; [done|]. destruct (str_eqb t x); lia. }
  split.
  - intros term p tf. rewrite tf_of_add by done. unfold add. cbn [docs]. destruct (decide (p = source_path c)) as [->|Hne].
    + intros _. rewrite lookup_insert_eq. by eexists.
    + rewrite lookup_insert_ne by done. apply Hc.
  - intros term p tf. rewrite tf_of_add by done. destruct (decide (p = source_path c)); [|apply Ht].
    cbv zeta. destruct (decide _); [done|]. intros [= <-]. specialize (Hocc term (tokens_of c)). lia.
  - intros p d. unfold add. cbn [docs]. destruct (decide (p = source_path c)) as [->|Hne].
    + rewrite lookup_insert_eq. intros [= <-]. cbn [d_length]. rewrite wrap32_small by (fold (tokens_of c); lia).
      fold (tokens_of c). lia.
    + rewrite lookup_insert_ne by done. apply Hl.
Qed.

Lemma idx_ok_forget idx path : idx_ok idx -> idx_ok (forget idx path).
Proof.
  intros [Hc Ht Hl]. split; unfold forget.
  - intros term p tf. cbn [postings docs]. rewrite strip_path. destruct (decide (path = p)); [done|]. rewrite lookup_delete_ne by done. apply Hc.
  - intros term p tf. cbn [postings docs]. rewrite strip_path. destruct (decide (path = p)); [done|apply Ht].
  - intros p d. cbn [postings docs]. intros (_ & H)%lookup_delete_Some. by apply (Hl p).
Qed.

Lemma indexes_forget ix t idx path : indexes ix t idx -> indexes ix (delete_rows t (ix_scope ix) path) (forget idx path).
Proof.
  intros [Hf Ht Hd]. split.
  - intros term p. rewrite delete_rows_token. unfold forget. cbn [postings]. rewrite strip_path, Hf.
    destruct (decide (path = p)) as [->|Hne]; [by rewrite decide_True|].
    by rewrite decide_False by (intros [_ ?]; congruence).
  - intros token p tf. rewrite delete_rows_token. destruct (decide _); [done|]. apply Ht.
  - intros p. unfold forget, delete_rows. cbn [docs search_docs]. destruct (decide (path = p)) as [<-|Hne].
    + by rewrite !lookup_delete_eq.
    + rewrite lookup_delete_ne by done. rewrite lookup_delete_ne by congruence. apply Hd.
Qed.

(** Other scopes' operations do not touch the scope's rows. *)
Definition same_scope_rows (scope : str) (t t' : SearchTables) : Prop :=
  (forall tok p, search_tokens t' !! (scope, tok, p) = search_tokens t !! (scope, tok, p)) /\
  (forall p, search_docs t' !! (scope, p) = search_docs t !! (scope, p)).

Lemma indexes_same ix t t' idx : same_scope_rows (ix_scope ix) t t' -> indexes ix t idx -> indexes ix t' idx.
Proof.
  intros [H1 H2] [Hf Ht Hd]. split.
  - intros. by rewrite H1.
  - intros token p tf. rewrite H1. apply Ht.
  - intros p. rewrite H2. apply Hd.
Qed.

Lemma insert_tokens_scope ix path counts rows rows' s tok p : s <> ix_scope ix ->
  insert_tokens ix path counts rows = Some rows' -> rows' !! (s, tok, p) = rows !! (s, tok, p).
Proof.
  intros Hs. revert rows. induction counts as [|[term tf] counts IH]; intros rows; cbn [insert_tokens]; [by intros [= ->]|].
  destruct (rows !! (ix_scope ix, _, path)); [done|]. intros H%IH. rewrite H. apply lookup_insert_ne. congruence.
Qed.

Lemma index_op_other scope t x : ix_scope x.1.1 <> scope -> same_scope_rows scope t (index_op t x).2.
Proof.
  destruct x as [[ix [c nonce|path]] commits]; simpl; intros Hs.
  - unfold index_add. destruct (aead_seal _ _ _ _) as [sealed|e]; [|done]. destruct commits; [|done]. cbn [negb].
    cbv iota. destruct (insert_tokens _ _ _ _) as [rows|] eqn:E; [|done]. cbn [snd]. split.
    + intros tok p. cbn [search_tokens]. rewrite (insert_tokens_scope _ _ _ _ _ scope tok p (not_eq_sym Hs) E).
      rewrite delete_rows_token, decide_False; [done|]. intros [? _]. congruence.
    + intros p. cbn [search_docs]. rewrite lookup_insert_ne by congruence. cbn. by rewrite lookup_delete_ne by congruence.
  - unfold index_remove. destruct commits; [|done]. split; intros; cbn [negb snd].
    + rewrite delete_rows_token, decide_False; [done|]. intros [? _]. congruence.
    + cbn. by rewrite lookup_delete_ne by congruence.
Qed.

Lemma run_index_indexes ix ops t idx t' idx' : no_collisions -> Forall (index_op_ok ix) ops ->
  indexes ix t idx -> idx_ok idx -> run_index (ix_scope ix) t idx ops = (t', idx') -> indexes ix t' idx' /\ idx_ok idx'.
Proof.
  intros Hnc Hops. revert t idx. induction Hops as [|x ops [Hx Hop] _ IH]; intros t idx HI Hok; cbn [run_index].
  { by intros [= <- <-]. }
  destruct (index_op t x) as [r t1] eqn:E. apply IH; unfold spec_index_op.
  all: destruct (str_eqb (ix_scope x.1.1) (ix_scope ix)) eqn:Es; [apply str_eqb_eq, Hx in Es|].
  2:{ apply (indexes_same ix t); [|done]. replace t1 with (index_op t x).2 by by rewrite E.
      apply index_op_other. intros Eq. by rewrite (proj2 (str_eqb_eq _ _) Eq) in Es. }
  3:done.
  all: destruct x as [[ix' [c nonce|path]] commits]; simpl in *; subst ix'.
  - destruct Hop as [Hlen Hn]. destruct commits.
    + destruct (index_add_spec _ _ _ _ _ _ _ Hnc HI Hlen Hn E) as [(-> & H & _)|((e & ->) & ->)]; done.
    + unfold index_add in E. destruct (aead_seal _ _ _ _); injection E as <- <-; done.
  - unfold index_remove in E. destruct commits; injection E as <- <-; [|done]. by apply indexes_forget.
  - destruct Hop as [Hlen _]. destruct r; [by apply idx_ok_add|done].
  - destruct r; [by apply idx_ok_forget|done].
Qed.

(** ** Agreement with the in-memory search *)
Definition shown (r : SearchResult) : str * str * str := (concept_path r, r_title r, snippet r).

Lemma memory_hit idx q rs r : idx_ok idx -> search idx q = Some rs -> r ∈ rs ->
  exists d s, docs idx !! concept_path r = Some d /\ visible q d = true /\ score r = s /\
    fold_left (add_term idx (concept_path r) d) (distinct_tokens ∅ (terms q)) None = Some s /\
    r_title r = d_title d /\ snippet r = trim (take 200 (d_body d)).
Proof.
  intros Hok Hs Hr. destruct (search_spec idx q (ok_consistent _ Hok)) as (rs' & Hs' & _ & _ & Hall & _).
  rewrite Hs in Hs'. injection Hs' as <-. rewrite Forall_forall in Hall.
  destruct (Hall r Hr) as (d & Hd & Hsc & Ht & Hsn). unfold score_of in Hsc.
  destruct (visible q d) eqn:Hv; [|done]. by exists d, (score r).
Qed.

Lemma result_cmp_antisym x y : is_nan (score x) = false -> is_nan (score y) = false ->
  ordered result_cmp x y -> ordered result_cmp y x -> concept_path x = concept_path y.
Proof.
  intros Hx Hy. unfold ordered, result_cmp, rank_cmp. rewrite !partial_cmp_key by done.
  rewrite (key_cmp_opp (float_key (score y)) (float_key (score x))), (str_cmp_opp (concept_path x) (concept_path y)).
  destruct (key_cmp _ _); simpl; try done. destruct (str_cmp (concept_path x) (concept_path y)) eqn:E; try done.
  by apply str_cmp_eq in E.
Qed.

Lemma hits_same_paths ix t idx q p : no_collisions -> indexes ix t idx -> idx_ok idx ->
  forall rs rs' : list SearchResult, search idx q = Some rs' -> (forall r, r ∈ rs <-> is_hit idx q r) ->
  p ∈ concept_path <$> rs <-> p ∈ concept_path <$> rs'.
Proof.
  intros Hnc HI Hok rs rs' Hs Hhits.
  destruct (search_spec idx q (ok_consistent _ Hok)) as (rs2 & Hs2 & _ & Hpaths & _ & _).
  rewrite Hs in Hs2. injection Hs2 as <-. rewrite Hpaths, list_elem_of_fmap. split.
  - intros (r & -> & (d & Hd & Hv & Hsc & _)%Hhits).
    destruct (proj1 (add_terms_Some idx (concept_path r) d (sorted_terms q))) as (term & tf & Hin & Htf); [by eexists|].
    apply sorted_terms_elem in Hin. by exists d, term, tf.
  - intros (d & term & tf & Hd & Hv & Hin & Htf). apply sorted_terms_elem in Hin.
    destruct (proj2 (add_terms_Some idx p d (sorted_terms q))) as [s Hsc]; [by exists term, tf|].
    exists (mkResult p (d_title d) (trim (take 200 (d_body d))) s). split; [done|]. apply Hhits. by exists d.
Qed.

(** C26. The encrypted index refines the in-memory index.  Start from empty
    tables and let any number of additions and removals run, of any scopes,
    any of them refused by the database or failing to seal; the in-memory
    index gets exactly those of one scope that reported success.  Then a
    search of the scope through HMAC tokens and sealed payloads succeeds and
    finds what the in-memory search finds: the same paths with the same
    titles and snippets, each once.  Scores are the in-memory BM25 terms
    added in increasing order of the query's terms, so when the distinct
    lower-cased terms first appear in increasing order the two result lists
    agree also in the scores, and, no score being NaN, are equal. *)
Theorem encrypted_index_refines ix ops t idx q : no_collisions -> Forall (index_op_ok ix) ops ->
  run_index (ix_scope ix) (mkSearchTables ∅ ∅) InMemoryIndex_new ops = (t, idx) ->
  total_length idx < 18446744073709551616 ->
  exists rs rs', index_search ix (fun _ => t) q false = Ok rs /\ search idx q = Some rs' /\
    NoDup (concept_path <$> rs) /\ shown <$> rs ≡ₚ shown <$> rs' /\
    (forall r, r ∈ rs -> exists d, docs idx !! concept_path r = Some d /\
       Some (score r) = fold_left (add_term idx (concept_path r) d) (sorted_terms q) None) /\
    (distinct_tokens ∅ (terms q) = sorted_terms q ->
       rs ≡ₚ rs' /\ (Forall (fun r => is_nan (score r) = false) rs -> rs = rs')).
Proof.
  intros Hnc Hops Hrun Hsum.
  destruct (run_index_indexes ix ops (mkSearchTables ∅ ∅) InMemoryIndex_new t idx Hnc Hops) as [HI Hok]; [| |done|].
  { by split. }
  { by split. }
  destruct (index_search_hits ix t idx Hnc HI Hok Hsum q) as (rs & Hrs & Hnd & Hhits & Hsorted).
  destruct (search_spec idx q (ok_consistent _ Hok)) as (rs' & Hrs' & Hnd' & _ & _ & Hsorted').
  assert (Hsame : forall r r', r ∈ rs -> r' ∈ rs' -> concept_path r = concept_path r' -> shown r = shown r' /\
    (distinct_tokens ∅ (terms q) = sorted_terms q -> r = r')).
  { intros r r' (d & Hd & _ & Hsc & Ht & Hsn)%Hhits Hr' Hp.
    destruct (memory_hit _ _ _ _ Hok Hrs' Hr') as (d' & s & Hd' & _ & <- & Hs' & Ht' & Hsn').
    rewrite Hp, Hd' in Hd. injection Hd as <-. split.
    - unfold shown. by rewrite Hp, Ht, Hsn, Ht', Hsn'.
    - intros E. rewrite E in Hs'. rewrite Hp, Hs' in Hsc. injection Hsc as Hsc. destruct r, r'. simpl in *. congruence. }
  assert (Hpaths : forall p, p ∈ concept_path <$> rs <-> p ∈ concept_path <$> rs') by (intros p; by eapply hits_same_paths).
  assert (Hleft : forall r, r ∈ rs -> exists r', r' ∈ rs' /\ concept_path r = concept_path r').
  { intros r Hr. destruct (proj1 (list_elem_of_fmap _ _ _) (proj1 (Hpaths (concept_path r)) ltac:(by apply list_elem_of_fmap; exists r)))
      as (r' & ? & ?). by exists r'. }
  assert (Hright : forall r', r' ∈ rs' -> exists r, r ∈ rs /\ concept_path r = concept_path r').
  { intros r' Hr. destruct (proj1 (list_elem_of_fmap _ _ _) (proj2 (Hpaths (concept_path r')) ltac:(by apply list_elem_of_fmap; exists r')))
      as (r & ? & ?). by exists r. }
  assert (Hkey : forall l : list SearchResult, NoDup (concept_path <$> l) -> NoDup (shown <$> l)).
  { intros l Hl. apply (NoDup_fmap_1 (fun x : str * str * str => x.1.1)). by rewrite <- list_fmap_compose. }
  assert (Hperm : distinct_tokens ∅ (terms q) = sorted_terms q -> rs ≡ₚ rs').
  { intros E. apply NoDup_Permutation; [by eapply NoDup_fmap_1|by eapply NoDup_fmap_1|]. intros r. split.
    - intros Hr. destruct (Hleft r Hr) as (r' & Hr' & Hp). by destruct (proj2 (Hsame r r' Hr Hr' Hp) E).
    - intros Hr'. destruct (Hright r Hr') as (r' & Hr & Hp). by destruct (proj2 (Hsame r' r Hr Hr' Hp) E). }
  exists rs, rs'. split_and!; [done|done|done| | |].
  - apply NoDup_Permutation; [by apply Hkey|by apply Hkey|]. intros x. rewrite !list_elem_of_fmap. split.
    + intros (r & -> & Hr). destruct (Hleft r Hr) as (r' & Hr' & Hp). exists r'. split; [by apply Hsame|done].
    + intros (r' & -> & Hr'). destruct (Hright r' Hr') as (r & Hr & Hp). exists r. split; [symmetry; by apply Hsame|done].
  - intros r (d & Hd & _ & Hsc & _)%Hhits. by exists d.
  - intros E. split; [by apply Hperm|]. intros Hnan.
    apply (StronglySorted_unique_strong (ordered result_cmp)); [|by apply Hsorted| |by apply Hperm].
    + intros x y Hx Hy Hxy Hyx. rewrite (Hperm E) in Hx. rewrite <- (Hperm E) in Hy. rewrite Forall_forall in Hnan.
      pose proof (Hnan y Hy). rewrite <- (Hperm E) in Hx. pose proof (Hnan x Hx).
      rewrite (Hperm E) in Hy. apply (Hsame x y Hx Hy); [|done]. by apply result_cmp_antisym.
    + apply Hsorted'. by rewrite <- (Hperm E).
Qed.
End Index.

(** ** Witness *)
Definition pair_json : DocJson.
Proof.
  refine {| doc_to_vec t s := [Npos (encode (t, s))];
            doc_from_slice b := match b with [Npos p] => decode p | _ => None end |}.
  intros t s. apply decode_encode.
Defined.

Definition demo_index : EncryptedIndex := @EncryptedIndex_for_user demo_kdf (lit "ada") (demo_master 1).
Definition demo_other : EncryptedIndex := @EncryptedIndex_for_user demo_kdf (lit "bob") (demo_master 2).
Definition demo_history : list (EncryptedIndex * IndexOp * bool) :=
  [(demo_index, IAdd (sample_concept "/a" "apple") demo_nonce, true);
   (demo_other, IAdd (sample_concept "/x" "apple") demo_nonce, true);
   (demo_index, IAdd (sample_concept "/b" "apple apple") demo_nonce, true);
   (demo_index, IAdd (sample_concept "/c" "apple") demo_nonce, false);
   (demo_index, IRemove (lit "/a"), true)].

Lemma demo_history_ok : Forall (@index_op_ok _ demo_index) demo_history.
Proof.
  assert (demo_other <> demo_index) by (intros [= E]; discriminate E).
  repeat constructor; try (by vm_compute); simpl; try done; intros E; discriminate E.
Qed.

Lemma encrypted_index_refines_witness :
  let run := @run_index demo_aead demo_kdf wide_hex _ pair_json (ix_scope demo_index) (mkSearchTables ∅ ∅)
               InMemoryIndex_new demo_history in
  exists rs, @index_search demo_aead demo_kdf wide_hex _ sample_log pair_json demo_index (fun _ => run.1) sample_query false = Ok rs /\
    concept_path <$> rs = [lit "/b"].
Proof.
  intros run.
  assert (Hidx : option_map (fmap (M := list) concept_path) (@search _ sample_log run.2 sample_query) = Some [lit "/b"])
    by (vm_compute; reflexivity).
  assert (Hlen : total_length run.2 < 18446744073709551616) by by vm_compute.
  destruct (@encrypted_index_refines demo_aead demo_kdf wide_hex _ sample_log pair_json demo_index demo_history
    run.1 run.2 sample_query demo_no_collisions demo_history_ok (surjective_pairing run) Hlen)
    as (rs & rs' & Hrs & Hrs' & _ & Hshown & _).
  exists rs. split; [exact Hrs|]. rewrite Hrs' in Hidx. injection Hidx as Hidx.
  assert (Hp : concept_path <$> rs ≡ₚ concept_path <$> rs').
  { assert (E : (fun x : list N * list N * list N => x.1.1) <$> (shown <$> rs) ≡ₚ (fun x => x.1.1) <$> (shown <$> rs')) by by rewrite Hshown.
    rewrite <- !list_fmap_compose in E. exact E. }
  rewrite (Hidx : concept_path <$> rs' = _) in Hp. symmetry in Hp. by apply Permutation_length_1_inv in Hp.
Defined.
