(* ===== verification/Vectors.v ===== *)
(** * The vector store

    [crates/mycelium-store/src/vectors.rs]: sealed embedding rows, the
    decoded per-scope cache with its invalidation epoch, the cosine ranking
    and the queue of the write hooks.  The table is a map from its primary
    key.  Floats are stored by their bits, with one NaN; log lines and the
    build time of a snapshot are left out. *)
From S2P Require Import Prelude Float Text Clock Crypto FileRepo Concept Search SearchIndex.
Open Scope Z_scope.

Definition VECTOR_QUEUE_CAPACITY : nat := 512.
Definition CACHE_BUILD_PASSES : nat := 3.

(** ** Floats as bytes *)
Definition f32_to_bits (x : f32) : N :=
  match x with
  | S754_zero s => if s then 2147483648 else 0
  | S754_infinity s => (if s then 2147483648 else 0) + 2139095040
  | S754_nan => 2143289344
  | S754_finite s m e =>
      (if s then 2147483648 else 0) +
      (if Npos m <? 8388608 then Npos m else Z.to_N (e + 150) * 8388608 + (Npos m - 8388608))
  end%N.
Definition f32_of_bits (b : N) : f32 :=
  let s := (2147483648 <=? b)%N in
  let r := (if s then b - 2147483648 else b)%N in
  let ex := (r / 8388608)%N in
  let mant := (r mod 8388608)%N in
  if (ex =? 0)%N then match mant with N0 => S754_zero s | Npos m => S754_finite s m (-149) end
  else if (ex =? 255)%N then match mant with N0 => S754_infinity s | Npos _ => S754_nan end
  else match (8388608 + mant)%N with Npos m => S754_finite s m (Z.of_N ex - 150) | N0 => S754_nan end.

Definition vec_bytes (v : list f32) : bytes := f ← v; le_bytes 4 (f32_to_bits f).
Fixpoint bytes_to_vec (b : bytes) : list f32 :=
  match b with
  | b0 :: b1 :: b2 :: b3 :: b => f32_of_bits (of_le_bytes [b0; b1; b2; b3]) :: bytes_to_vec b
  | _ => []
  end.

(** The private cosine of this file: no guard for zero norms. *)
Definition vec_cosine (a b : list f32) : f32 :=
  let '(dot, na, nb) := fold_left cosine_step (zip a b) (f32_zero, f32_zero, f32_zero) in
  f32_div dot (f32_mul (f32_sqrt na) (f32_sqrt nb)).

(** ** Rows *)
Inductive Integrity := NotU32 (dims : Z) | NotMultiple (len : nat) | WrongCount (floats : nat) (dims : Z).
Inductive VectorError := VDb | VCrypto (e : CryptoError) | VDimMismatch | VDataIntegrity (detail : Integrity).

Record VecRow := mkVecRow { vr_model : str; vr_dims : Z; vr_stale : bool; vr_vec : bytes; vr_updated_at : str }.
Abbreviation VecTable := (gmap (str * str) VecRow) (only parsing).   (* scope_id, path_token *)

Record VectorRow := mkVectorRow {
  vo_path_token : str; vo_model : str; vo_dims : Z; vo_stale : bool; vo_vec : list f32; vo_updated_at : str }.
Record CacheRow := mkCacheRow { cr_path_token : str; cr_model : str; cr_dims : Z; cr_vec : list f32 }.
Record ScopeVectors := mkScopeVectors { sv_model : str; sv_rows : list CacheRow }.
Record VectorStore := mkVectorStore { vs_scope_id : str; vs_keys : IndexKeys }.

(** [dims as i32], stored as an integer *)
Definition i32_of_u32 (n : Z) : Z := if n <? 2147483648 then n else n - 4294967296.

Section Vectors.
Context {AE : Aead} {KD : Kdf} {HX : Hex} {UT : UuidText}.

Definition VectorStore_for_user (user_id : Uuid) (m : MasterKey) : VectorStore :=
  mkVectorStore (lit "user:" ++ uuid_to_string user_id) (IndexKeys_from_master_key m).
Definition VectorStore_for_service (s : ServiceKey) (namespace : str) : VectorStore :=
  mkVectorStore (lit "global:" ++ namespace) (IndexKeys_from_service_key s).

Definition vec_token (st : VectorStore) (path : str) : str := index_token (vs_keys st) path.
Definition vec_aad (st : VectorStore) (token : str) : str := lit "vec:" ++ vs_scope_id st ++ lit ":" ++ token.

(** [upsert]; the result says whether the row was created. *)
Definition upsert (st : VectorStore) (t : VecTable) (path model : str) (dims : Z) (v : list f32)
    (nonce : bytes) (now : str) (fails : bool) : result bool VectorError * VecTable :=
  if negb (dims =? Z.of_nat (length v)) then (Err VDimMismatch, t)
  else
    let token := vec_token st path in
    match aead_seal nonce (vec_bytes v) (as_bytes (vec_aad st token)) (index_dek (vs_keys st)) with
    | Err e => (Err (VCrypto e), t)
    | Ok sealed =>
        if fails then (Err VDb, t)
        else
          let existed := bool_decide (is_Some (t !! (vs_scope_id st, token))) in
          (Ok (negb existed), <[(vs_scope_id st, token) := mkVecRow model (i32_of_u32 dims) false sealed now]> t)
    end.

Definition remove_row_by_token (st : VectorStore) (t : VecTable) (token : str) (fails : bool)
    : result unit VectorError * VecTable :=
  if fails then (Err VDb, t) else (Ok tt, delete (vs_scope_id st, token) t).
Definition remove_row (st : VectorStore) (t : VecTable) (path : str) (fails : bool)
    : result unit VectorError * VecTable :=
  remove_row_by_token st t (vec_token st path) fails.

Definition set_stale (r : VecRow) : VecRow := mkVecRow (vr_model r) (vr_dims r) true (vr_vec r) (vr_updated_at r).
Definition mark_scope_stale (st : VectorStore) (t : VecTable) (fails : bool) : result unit VectorError * VecTable :=
  if fails then (Err VDb, t)
  else (Ok tt, map_imap (fun k r => Some (if str_eqb k.1 (vs_scope_id st) then set_stale r else r)) t).
Definition mark_corpus_stale (t : VecTable) (model : str) (learned_dims : Z) (fails : bool)
    : result unit VectorError * VecTable :=
  if fails then (Err VDb, t)
  else (Ok tt, (fun r => if negb (str_eqb (vr_model r) model) || negb (vr_dims r =? learned_dims)
                         then set_stale r else r) <$> t).

(** SELECT ... WHERE scope_id = ? ORDER BY path_token *)
Definition fetch_rows (st : VectorStore) (t : VecTable) : list (str * VecRow) :=
  sort_by (fun a b : str * VecRow => str_cmp a.1 b.1)
    (omap (fun kv : str * str * VecRow => if str_eqb kv.1.1 (vs_scope_id st) then Some (kv.1.2, kv.2) else None) (map_to_list t)).

Definition decode_row (st : VectorStore) (x : str * VecRow) : result VectorRow VectorError :=
  let '(token, row) := x in
  (let? plain := result_map_err VCrypto (aead_open (vr_vec row) (as_bytes (vec_aad st token)) (index_dek (vs_keys st))) in
   if negb ((0 <=? vr_dims row) && (vr_dims row <=? u32_max)) then Err (VDataIntegrity (NotU32 (vr_dims row)))
   else if negb (length plain mod 4 =? 0)%nat then Err (VDataIntegrity (NotMultiple (length plain)))
   else
     let v := bytes_to_vec plain in
     if negb (Z.of_nat (length v) =? vr_dims row) then Err (VDataIntegrity (WrongCount (length v) (vr_dims row)))
     else Ok (mkVectorRow token (vr_model row) (vr_dims row) (vr_stale row) v (vr_updated_at row)))%rust.

Fixpoint decode_all (st : VectorStore) (l : list (str * VecRow)) : result (list VectorRow) VectorError :=
  match l with
  | [] => Ok []
  | x :: l => (let? r := decode_row st x in let? rs := decode_all st l in Ok (r :: rs))%rust
  end.
Definition load_rows (st : VectorStore) (t : VecTable) (fails : bool) : result (list VectorRow) VectorError :=
  if fails then Err VDb else decode_all st (fetch_rows st t).

(** [backlog_paths]: the indexed paths without a fresh row *)
Definition needs_work (model : str) (learned_dims : Z) (row : option VecRow) : bool :=
  match row with
  | None => true
  | Some r =>
      let dims := if (0 <=? vr_dims r) && (vr_dims r <=? u32_max) then vr_dims r else 0 in
      vr_stale r || negb (str_eqb (vr_model r) model) || (negb (learned_dims =? 0) && negb (dims =? learned_dims))
  end.
Definition backlog_paths (st : VectorStore) (docs : SearchTables) (t : VecTable) (model : str) (learned_dims : Z)
    (fails : bool) : result (list str) VectorError :=
  if fails then Err VDb
  else Ok (retain (fun path => needs_work model learned_dims (t !! (vs_scope_id st, vec_token st path)))
             (sort_by str_cmp (scope_docs (vs_scope_id st) docs).*1)).

(** [fetch_kept]: the SELECT of the active tokens sees [docs], the one of
    the rows sees [t]. *)
Definition active_tokens (st : VectorStore) (docs : SearchTables) : list str :=
  (fun d => vec_token st d.1) <$> retain (fun d => is_active_status (sd_status d.2)) (scope_docs (vs_scope_id st) docs).
Definition keep_row (st : VectorStore) (actives : list str) (x : str * VecRow) : option CacheRow :=
  if vr_stale x.2 then None
  else if negb (existsb (str_eqb x.1) actives) then None
  else match decode_row st x with
       | Ok r => Some (mkCacheRow (vo_path_token r) (vo_model r) (vo_dims r) (vo_vec r))
       | Err _ => None
       end.
Definition fetch_kept (st : VectorStore) (actives : list str) (t : VecTable) : list CacheRow :=
  omap (keep_row st actives) (fetch_rows st t).

Definition snapshot_of (rows : list CacheRow) : ScopeVectors :=
  mkScopeVectors (match rows with [] => [] | r :: _ => cr_model r end) rows.

(** ** The shared cache

    The database, the epoch and the cache are shared with other threads. *)
Record Shared := mkShared {
  sh_docs : SearchTables; sh_vecs : VecTable; sh_epoch : Z; sh_cache : gmap str ScopeVectors }.

(** The steps of a build: the first look under the lock, the epoch, the two
    SELECTs, and the re-check with the install under the lock. *)
Definition probe (st : VectorStore) (s : Shared) : option ScopeVectors := sh_cache s !! vs_scope_id st.
Definition try_install (st : VectorStore) (e : Z) (snap : ScopeVectors) (s : Shared) : bool * Shared :=
  if sh_epoch s =? e
  then (true, mkShared (sh_docs s) (sh_vecs s) (sh_epoch s) (<[vs_scope_id st := snap]> (sh_cache s)))
  else (false, s).

(** The two steps of [invalidate_scope] *)
Definition bump_epoch (s : Shared) : Shared := mkShared (sh_docs s) (sh_vecs s) (wrap64 (sh_epoch s + 1)) (sh_cache s).
Definition drop_scope (scope : str) (s : Shared) : Shared :=
  mkShared (sh_docs s) (sh_vecs s) (sh_epoch s) (delete scope (sh_cache s)).
Definition invalidate_scope (scope : str) (s : Shared) : Shared := drop_scope scope (bump_epoch s).

(** [cache_scope]: [others k] is what other threads do before the builder's
    [k]-th access to the shared state; [reads k] says whether the database
    answers then. *)
Fixpoint build_passes (passes : nat) (st : VectorStore) (others : nat -> Shared -> Shared) (reads : nat -> bool)
    (k : nat) (s : Shared) : result ScopeVectors VectorError * Shared :=
  let s := others k s in
  let e := sh_epoch s in
  let s := others (S k) s in
  let actives := active_tokens st (sh_docs s) in
  let s := others (S (S k)) s in
  if negb (reads k) then (Err VDb, s)
  else
    let snap := snapshot_of (fetch_kept st actives (sh_vecs s)) in
    let s := others (S (S (S k))) s in
    let '(installed, s) := try_install st e snap s in
    if installed then (Ok snap, s)
    else match passes with
         | O | S O => (Ok snap, s)
         | S passes => build_passes passes st others reads (k + 4) s
         end.
Definition cache_scope (st : VectorStore) (others : nat -> Shared -> Shared) (reads : nat -> bool) (s : Shared)
    : result ScopeVectors VectorError * Shared :=
  let s := others 0%nat s in
  match probe st s with
  | Some hit => (Ok hit, s)
  | None => build_passes CACHE_BUILD_PASSES st others reads 1 s
  end.

(** ** Ranking *)
Definition f32_gt0 (x : f32) : bool := match partial_cmp x f32_zero with Some Gt => true | _ => false end.
Definition scored_rows (model : str) (qvec : list f32) (rows : list CacheRow) : list (str * f32) :=
  retain (fun x => f32_gt0 x.2)
    ((fun r => (cr_path_token r, vec_cosine (cr_vec r) qvec)) <$>
       retain (fun r => str_eqb (cr_model r) model && (cr_dims r =? Z.of_nat (length qvec))) rows).
Definition hits_of (st : VectorStore) (paths : list str) (scored : list (str * f32)) : list (str * f32) :=
  let by_token := fold_left (fun m path => <[vec_token st path := path]> m) paths (∅ : gmap str str) in
  omap (fun x => path ← by_token !! x.1; Some (path, x.2)) scored.

(** [top_cosine] from the snapshot [cache_scope] gave and the registry's
    paths *)
Definition top_cosine (st : VectorStore) (snapshot : result ScopeVectors VectorError) (paths : list str)
    (qvec : list f32) (model : str) (top : nat) (fails : bool) : result (list (str * f32)) VectorError :=
  match top with
  | O => Ok []
  | _ =>
      (let? snap := snapshot in
       let scored := sort_by fused_cmp (scored_rows model qvec (sv_rows snap)) in
       match scored with
       | [] => Ok []
       | _ => if fails then Err VDb else Ok (take top (hits_of st paths scored))
       end)%rust
  end.

(** ** The write-hook queue *)
Definition enqueue_write (queue : list (str * str)) (scope_id token : str) : list (str * str) :=
  if existsb (fun e => str_eqb e.1 scope_id && str_eqb e.2 token) queue || (VECTOR_QUEUE_CAPACITY <=? length queue)%nat
  then queue else queue ++ [(scope_id, token)].
Definition drain_queue (queue : list (str * str)) (max : nat) : list (str * str) * list (str * str) :=
  let n := Nat.min max (length queue) in (take n queue, drop n queue).
Definition vector_queue_depth (queue : list (str * str)) : nat := length queue.

(** ** Floats survive storage *)
Definition valid_f32 (x : f32) : Prop :=
  match x with
  | S754_finite _ m e => (Z.pos m < 8388608 /\ e = -149) \/ (8388608 <= Z.pos m < 16777216 /\ -149 <= e <= 104)
  | _ => True
  end.

Lemma bits_split (s : bool) (r : N) : (r < 2147483648)%N ->
  let b := ((if s then 2147483648 else 0) + r)%N in
  (2147483648 <=? b)%N = s /\ (if s then b - 2147483648 else b)%N = r.
Proof.
  intros Hr b. unfold b. destruct s; split; try lia; [apply N.leb_le; lia|apply N.leb_gt; lia].
Qed.

Lemma f32_bits_roundtrip x : valid_f32 x -> f32_of_bits (f32_to_bits x) = x /\ (f32_to_bits x < 4294967296)%N.
Proof.
  destruct x as [[]|[]| |s m e]; try done. intros Hv. unfold f32_to_bits.
  set (r := (if (N.pos m <? 8388608)%N then N.pos m else Z.to_N (e + 150) * 8388608 + (N.pos m - 8388608))%N).
  assert (Hr : exists ex mant, r = (ex * 8388608 + mant)%N /\ (mant < 8388608)%N /\ (ex < 255)%N /\
    ((ex = 0%N /\ mant = N.pos m /\ e = -149) \/ (0 < ex)%N /\ (8388608 + mant)%N = N.pos m /\ Z.of_N ex - 150 = e)).
  { unfold r. destruct (N.ltb_spec (N.pos m) 8388608) as [H|H].
    - exists 0%N, (N.pos m). destruct Hv as [[_ ->]|[? _]]; [|lia]. split_and!; [lia|lia|lia|by left].
    - exists (Z.to_N (e + 150)), (N.pos m - 8388608)%N. destruct Hv as [[? _]|[? ?]]; [lia|].
      split_and!; [done|lia|lia|]. right. lia. }
  destruct Hr as (ex & mant & Hr & Hm & He & Hcase).
  assert (Hlt : (r < 2147483648)%N) by (rewrite Hr; nia).
  destruct (bits_split s r Hlt) as [Hs Hb]. split; [|destruct s; lia].
  unfold f32_of_bits. rewrite Hs, Hb, Hr.
  rewrite N.div_add_l, (N.div_small mant), N.add_0_r by lia.
  rewrite (N.add_comm _ mant), N.Div0.mod_add, (N.mod_small mant) by lia.
  destruct Hcase as [(-> & -> & ->)|(Hpos & Hmant & Hexp)]; [done|].
  rewrite (proj2 (N.eqb_neq ex 0)) by lia. rewrite (proj2 (N.eqb_neq ex 255)) by lia. by rewrite Hmant, Hexp.
Qed.

Lemma vec_bytes_cons x v : vec_bytes (x :: v) = le_bytes 4 (f32_to_bits x) ++ vec_bytes v.
Proof. done. Qed.

Lemma bytes_to_vec_app4 c rest : length c = 4%nat -> bytes_to_vec (c ++ rest) = f32_of_bits (of_le_bytes c) :: bytes_to_vec rest.
Proof. by destruct c as [|? [|? [|? [|? [|]]]]]. Qed.

Lemma vec_bytes_roundtrip v : Forall valid_f32 v -> bytes_to_vec (vec_bytes v) = v /\ length (vec_bytes v) = (4 * length v)%nat.
Proof.
  induction 1 as [|x v Hx _ [IH1 IH2]]; [done|]. destruct (f32_bits_roundtrip x Hx) as [Hr Hlt].
  rewrite vec_bytes_cons. split.
  - rewrite bytes_to_vec_app4 by apply le_bytes_length. rewrite of_le_bytes_spec by done. by rewrite Hr, IH1.
  - rewrite length_app, le_bytes_length, IH2. simpl. lia.
Qed.

(** ** What an upsert stores is what the strict load gives *)
Lemma fetch_rows_elem (st : VectorStore) (t : VecTable) token row : (token, row) ∈ fetch_rows st t <-> t !! (vs_scope_id st, token) = Some row.
Proof.
  unfold fetch_rows. rewrite sort_by_perm, list_elem_of_omap. split.
  - intros ([[s tk] r] & Hin%elem_of_map_to_list & Hf). simpl in Hf.
    destruct (str_eqb s _) eqn:E; [|done]. apply str_eqb_eq in E as ->. by injection Hf as -> ->.
  - intros H. exists (vs_scope_id st, token, row). split; [by apply elem_of_map_to_list|]. simpl.
    by rewrite (proj2 (str_eqb_eq _ _) eq_refl).
Qed.

(** The rows of the scope whose sealed vectors are intact *)
Definition intact (st : VectorStore) (token : str) (row : VecRow) (v : list f32) : Prop :=
  sealed_as (vr_vec row) (as_bytes (vec_aad st token)) (vec_bytes v) (index_dek (vs_keys st)) /\
  Forall valid_f32 v /\ vr_dims row = Z.of_nat (length v) /\ Z.of_nat (length v) < 2147483648.

Lemma decode_intact st token row v : intact st token row v ->
  decode_row st (token, row) = Ok (mkVectorRow token (vr_model row) (vr_dims row) (vr_stale row) v (vr_updated_at row)).
Proof.
  intros (Hs & Hv & Hd & Hlt). destruct (vec_bytes_roundtrip v Hv) as [Hr Hlen].
  unfold decode_row. rewrite (aead_open_self _ _ _ _ Hs). cbn [result_map_err result_bind].
  rewrite Hd. rewrite (proj2 (Z.leb_le 0 _)) by lia. rewrite (proj2 (Z.leb_le _ u32_max)) by (unfold u32_max; lia).
  cbn [andb negb]. rewrite Hlen.
  assert ((4 * length v) mod 4 = 0)%nat as ->.
  { rewrite Nat.mul_comm. apply Nat.Div0.mod_mul. }
  cbn [Nat.eqb negb]. rewrite Hr. by rewrite Z.eqb_refl.
Qed.

(** Vectors cannot be taken for another path's, another scope's or another
    kind of payload: the associated data of a row is its own. *)
Lemma vec_aad_inj st path st' path' :
  as_bytes (vec_aad st (vec_token st path)) = as_bytes (vec_aad st' (vec_token st' path')) ->
  vs_scope_id st = vs_scope_id st' /\ vec_token st path = vec_token st' path'.
Proof.
  intros E%as_bytes_inj%(app_inv_head (lit "vec:")).
  assert (H : forall a b a' b' : str, 58%N ∉ b -> 58%N ∉ b' -> a ++ lit ":" ++ b = a' ++ lit ":" ++ b' -> a = a' /\ b = b').
  { intros a b a' b' Hb Hb'. revert a'. induction a as [|x a IH]; intros [|y a']; simpl; intros [=]; simplify_eq; [done| | |].
    - exfalso. apply Hb. apply elem_of_app. right. left.
    - exfalso. apply Hb'. apply elem_of_app. right. left.
    - by destruct (IH a') as [-> ->]. }
  apply H in E; [done|apply hex_no_punctuation|apply hex_no_punctuation].
Qed.

Lemma decode_token st x r : decode_row st x = Ok r -> vo_path_token r = x.1.
Proof.
  destruct x as [token row]. unfold decode_row. destruct (aead_open _ _ _) as [plain|]; [|done]. cbn.
  repeat destruct (negb _); try done. by intros [= <-].
Qed.

Lemma decode_all_elem st l rs r : decode_all st l = Ok rs -> r ∈ rs <-> exists x, x ∈ l /\ decode_row st x = Ok r.
Proof.
  revert rs. induction l as [|x l IH]; intros rs; simpl.
  - intros [= <-]. split; [by intros ?%elem_of_nil|by intros (? & ?%elem_of_nil & _)].
  - destruct (decode_row st x) as [y|] eqn:Ey; [|done]. simpl. destruct (decode_all st l) as [ys|]; [|done].
    simpl. intros [= <-]. rewrite elem_of_cons, (IH ys) by done. split.
    + intros [->|(z & Hz & Hr)]; [exists x; split; [left|done]|exists z; split; [by right|done]].
    + intros (z & [->|Hz]%elem_of_cons & Hr); [left; congruence|right; by exists z].
Qed.

Lemma decode_all_total st l : (forall x, x ∈ l -> exists r, decode_row st x = Ok r) -> exists rs, decode_all st l = Ok rs.
Proof.
  induction l as [|x l IH]; intros H; [by exists []|]. simpl.
  destruct (H x) as [r ->]; [left|]. destruct IH as [rs ->]; [intros y Hy; apply H; by right|].
  by exists (r :: rs).
Qed.

Lemma decode_all_inv st l rs x : decode_all st l = Ok rs -> x ∈ l -> exists r, decode_row st x = Ok r.
Proof.
  revert rs. induction l as [|y l IH]; intros rs; simpl; [by intros _ ?%elem_of_nil|].
  destruct (decode_row st y) as [r|] eqn:E; [|done]. simpl. destruct (decode_all st l) as [rs'|]; [|done].
  intros _ [->|Hx]%elem_of_cons; [by exists r|by apply (IH rs')].
Qed.

(** A vector that is upserted comes back bit for bit from the strict
    load under its path token, fresh and with its model, next to exactly the
    other rows the load gave before; an upsert with the wrong dimension
    changes nothing; and under an authentic cipher the sealed row cannot be
    read under another path's token, nor under another scope. *)
Theorem vector_roundtrip (st : VectorStore) (t : VecTable) (path model : str) (v : list f32) (nonce : bytes) (now : str)
    (rs : list VectorRow) :
  length nonce = NONCE_LEN -> Forall valid_f32 v -> Z.of_nat (length v) < 2147483648 ->
  load_rows st t false = Ok rs ->
  let token := vec_token st path in
  let stored := mkVectorRow token model (Z.of_nat (length v)) false v now in
  (forall dims, dims <> Z.of_nat (length v) -> upsert st t path model dims v nonce now false = (Err VDimMismatch, t)) /\
  match upsert st t path model (Z.of_nat (length v)) v nonce now false with
  | (Err e, t') => e = VCrypto CEncrypt /\ t' = t
  | (Ok created, t') =>
      (created = true <-> t !! (vs_scope_id st, token) = None) /\
      (exists rs', load_rows st t' false = Ok rs' /\
         forall r, r ∈ rs' <-> r = stored \/ (r ∈ rs /\ vo_path_token r <> token)) /\
      (forall s tok, (s <> vs_scope_id st \/ tok <> token) -> t' !! (s, tok) = t !! (s, tok)) /\
      (strong -> forall row st' path', t' !! (vs_scope_id st, token) = Some row -> vs_keys st' = vs_keys st ->
         (vs_scope_id st', vec_token st' path') <> (vs_scope_id st, token) ->
         exists e, decode_row st' (vec_token st' path', row) = Err e)
  end.
Proof.
  intros Hn Hv Hlen Hload token stored. split.
  { intros dims Hd. unfold upsert. by rewrite (proj2 (Z.eqb_neq _ _) Hd). }
  unfold upsert. rewrite Z.eqb_refl. cbn [negb]. fold token.
  destruct (aead_seal nonce _ _ _) as [sealed|e] eqn:Es; cycle 1.
  { unfold aead_seal in Es. destruct (gcm_seal _ _ _ _); simpl in Es; [done|]. by injection Es as <-. }
  assert (Hi32 : i32_of_u32 (Z.of_nat (length v)) = Z.of_nat (length v)).
  { unfold i32_of_u32. by rewrite (proj2 (Z.ltb_lt _ _)). }
  set (row := mkVecRow model (i32_of_u32 (Z.of_nat (length v))) false sealed now).
  assert (Hs : sealed_as sealed (as_bytes (vec_aad st token)) (vec_bytes v) (index_dek (vs_keys st))) by by eapply aead_seal_Ok.
  assert (Hdec : decode_row st (token, row) = Ok stored).
  { erewrite (decode_intact _ _ _ v) by (split_and!; [exact Hs|done|exact Hi32|done]). unfold row, stored. cbn. by rewrite Hi32. }
  assert (Hother : forall tok x, tok <> token ->
    (tok, x) ∈ fetch_rows st (<[(vs_scope_id st, token) := row]> t) <-> (tok, x) ∈ fetch_rows st t).
  { intros tok x Htok. rewrite !fetch_rows_elem. rewrite lookup_insert_ne; [done|]. intros [=]; by subst. }
  assert (Hown : forall x, (token, x) ∈ fetch_rows st (<[(vs_scope_id st, token) := row]> t) <-> x = row).
  { intros x. rewrite fetch_rows_elem, lookup_insert_eq. split; [by intros [=]|by intros ->]. }
  unfold load_rows in *. split_and!.
  - rewrite negb_true_iff, bool_decide_eq_false. by rewrite eq_None_not_Some.
  - destruct (decode_all_total st (fetch_rows st (<[(vs_scope_id st, token) := row]> t))) as [rs' Hrs'].
    { intros [tok x] Hx. destruct (decide (tok = token)) as [->|Htok].
      - apply Hown in Hx as ->. by exists stored.
      - apply Hother in Hx; [|done]. by eapply decode_all_inv. }
    exists rs'. split; [done|]. intros r. rewrite (decode_all_elem _ _ _ _ Hrs'), (decode_all_elem _ _ _ _ Hload). split.
    + intros ([tok x] & Hx & Hr). destruct (decide (tok = token)) as [->|Htok].
      * apply Hown in Hx as ->. left. congruence.
      * right. pose proof (decode_token _ _ _ Hr) as ->. split; [|done]. exists (tok, x). split; [by apply Hother|done].
    + intros [->|[([tok x] & Hx & Hr) Hne]].
      * exists (token, row). split; [by apply Hown|done].
      * pose proof (decode_token _ _ _ Hr) as Et. simpl in Et. exists (tok, x). split; [|done]. apply Hother; [congruence|done].
  - intros s tok Hst. rewrite lookup_insert_ne; [done|]. intros [=]; subst. tauto.
  - intros HS x st' path' [= <-]%(eq_trans (eq_sym (lookup_insert_eq _ _ _))) Hk Hne. unfold decode_row. rewrite Hk.
    cbn [vr_vec row]. destruct (aead_open sealed _ _) as [q|] eqn:Eo; [exfalso|by eexists].
    apply (aead_open_sealed _ _ _ _ _ _ _ HS Hs) in Eo as (Eaad & _ & _). apply vec_aad_inj in Eaad as [E1 E2].
    apply Hne. by rewrite E1, E2.
Qed.

(** ** Builders and writers running together

    A scope has one keyring.  A builder of a scope is between two of its
    accesses to the shared state; a writer has changed the search rows of
    its scope and still has to run the two steps of [invalidate_scope]. *)
Section Interleaving.
Context (keyring : str -> IndexKeys).

Definition store_of (scope : str) : VectorStore := mkVectorStore scope (keyring scope).

Inductive Pc := PLoaded (e : Z) | PActives (e : Z) (actives : list str) | PFetched (e : Z) (snap : ScopeVectors).
Inductive Writer := Wrote | Bumped.
Record Sys := mkSys { y_shared : Shared; y_builders : gmap nat (str * Pc); y_writers : gmap nat (str * Writer) }.

Inductive sys_step : Sys -> Sys -> Prop :=
  | step_start tid scope s bs ws :
      bs !! tid = None -> probe (store_of scope) s = None ->
      sys_step (mkSys s bs ws) (mkSys s (<[tid := (scope, PLoaded (sh_epoch s))]> bs) ws)
  | step_actives tid scope e s bs ws :
      bs !! tid = Some (scope, PLoaded e) ->
      sys_step (mkSys s bs ws) (mkSys s (<[tid := (scope, PActives e (active_tokens (store_of scope) (sh_docs s)))]> bs) ws)
  | step_fetch tid scope e actives s bs ws :
      bs !! tid = Some (scope, PActives e actives) ->
      sys_step (mkSys s bs ws)
        (mkSys s (<[tid := (scope, PFetched e (snapshot_of (fetch_kept (store_of scope) actives (sh_vecs s))))]> bs) ws)
  | step_install tid scope e snap s s' bs ws :
      bs !! tid = Some (scope, PFetched e snap) -> try_install (store_of scope) e snap s = (true, s') ->
      sys_step (mkSys s bs ws) (mkSys s' (delete tid bs) ws)
  | step_retry tid scope e snap s bs ws :
      bs !! tid = Some (scope, PFetched e snap) -> try_install (store_of scope) e snap s = (false, s) ->
      sys_step (mkSys s bs ws) (mkSys s (<[tid := (scope, PLoaded (sh_epoch s))]> bs) ws)
  | step_give_up tid b s bs ws :
      bs !! tid = Some b -> sys_step (mkSys s bs ws) (mkSys s (delete tid bs) ws)
  | step_vectors vecs s bs ws :
      sys_step (mkSys s bs ws) (mkSys (mkShared (sh_docs s) vecs (sh_epoch s) (sh_cache s)) bs ws)
  | step_write w scope docs vecs s bs ws :
      ws !! w = None -> (forall other, other <> scope -> scope_docs other docs = scope_docs other (sh_docs s)) ->
      sys_step (mkSys s bs ws) (mkSys (mkShared docs vecs (sh_epoch s) (sh_cache s)) bs (<[w := (scope, Wrote)]> ws))
  | step_bump w scope s bs ws :
      ws !! w = Some (scope, Wrote) -> sh_epoch s + 1 < 18446744073709551616 ->
      sys_step (mkSys s bs ws) (mkSys (bump_epoch s) bs (<[w := (scope, Bumped)]> ws))
  | step_drop w scope s bs ws :
      ws !! w = Some (scope, Bumped) -> sys_step (mkSys s bs ws) (mkSys (drop_scope scope s) bs (delete w ws)).

Definition writing (y : Sys) (scope : str) (W : Writer -> Prop) : Prop :=
  exists w k, y_writers y !! w = Some (scope, k) /\ W k.

(** What a builder has read so far, or its epoch is already passed *)
Definition builder_ok (y : Sys) (scope : str) (pc : Pc) : Prop :=
  let current := active_tokens (store_of scope) (sh_docs (y_shared y)) in
  let known (e : Z) (P : Prop) := e <= sh_epoch (y_shared y) /\ (e < sh_epoch (y_shared y) \/ P \/ writing y scope (eq Wrote)) in
  match pc with
  | PLoaded e => e <= sh_epoch (y_shared y)
  | PActives e actives => known e (actives = current)
  | PFetched e snap => known e (forall r, r ∈ sv_rows snap -> cr_path_token r ∈ current)
  end.

Record sys_ok (y : Sys) : Prop := {
  so_epoch : 0 <= sh_epoch (y_shared y);
  so_builders tid scope pc : y_builders y !! tid = Some (scope, pc) -> builder_ok y scope pc;
  so_cache scope snap r : sh_cache (y_shared y) !! scope = Some snap -> r ∈ sv_rows snap ->
    cr_path_token r ∈ active_tokens (store_of scope) (sh_docs (y_shared y)) \/ writing y scope (fun _ => True) }.

Lemma kept_active (st : VectorStore) (actives : list str) (t : VecTable) (r : CacheRow) : r ∈ fetch_kept st actives t -> cr_path_token r ∈ actives.
Proof.
  unfold fetch_kept. rewrite list_elem_of_omap. intros (x & _ & Hk). unfold keep_row in Hk.
  destruct (vr_stale x.2); [done|]. destruct (existsb _ _) eqn:E; [|done]. simpl in Hk.
  apply existsb_elem in E. destruct (decode_row st x) as [y|] eqn:Ey; [|done]. injection Hk as <-.
  simpl. by rewrite (decode_token _ _ _ Ey).
Qed.

(** A step that leaves search rows, epoch and writers alone keeps what a
    builder knows. *)
Lemma builder_ok_same y y' scope pc :
  sh_docs (y_shared y') = sh_docs (y_shared y) -> sh_epoch (y_shared y') = sh_epoch (y_shared y) ->
  y_writers y' = y_writers y -> builder_ok y scope pc -> builder_ok y' scope pc.
Proof. intros Hd He Hw. unfold builder_ok, writing. by rewrite Hd, He, Hw. Qed.

Lemma active_tokens_same scope docs docs' : scope_docs scope docs = scope_docs scope docs' ->
  active_tokens (store_of scope) docs = active_tokens (store_of scope) docs'.
Proof. intros E. unfold active_tokens. simpl. by rewrite E. Qed.

(** Changing the set of builders in a way that keeps the shared state *)
Lemma sys_ok_builders s bs bs' ws : sys_ok (mkSys s bs ws) ->
  (forall tid scope pc, bs' !! tid = Some (scope, pc) ->
     bs !! tid = Some (scope, pc) \/ builder_ok (mkSys s bs ws) scope pc) ->
  sys_ok (mkSys s bs' ws).
Proof.
  intros [He Hb Hc] H. split; [done| |exact Hc]. intros tid scope pc Hl. simpl in Hl.
  apply (builder_ok_same (mkSys s bs ws)); [done..|]. destruct (H _ _ _ Hl) as [Hold|Hnew]; [|done]. by eapply Hb.
Qed.

Lemma sys_ok_set s bs ws tid scope pc : sys_ok (mkSys s bs ws) -> builder_ok (mkSys s bs ws) scope pc ->
  sys_ok (mkSys s (<[tid := (scope, pc)]> bs) ws).
Proof.
  intros Hok Hpc. apply (sys_ok_builders _ _ _ _ Hok). intros tid' scope' pc'.
  rewrite lookup_insert_Some. intros [[-> [= <- <-]]|[_ ?]]; [by right|by left].
Qed.

Lemma sys_ok_unset s bs ws tid : sys_ok (mkSys s bs ws) -> sys_ok (mkSys s (delete tid bs) ws).
Proof.
  intros Hok. apply (sys_ok_builders _ _ _ _ Hok). intros tid' scope' pc'. rewrite lookup_delete_Some. intros [_ ?]. by left.
Qed.

Lemma install_ok tid scope e snap s s' bs ws : sys_ok (mkSys s bs ws) -> bs !! tid = Some (scope, PFetched e snap) ->
  try_install (store_of scope) e snap s = (true, s') -> sys_ok (mkSys s' bs ws).
Proof.
  intros [He Hb Hc] Ht. unfold try_install. destruct (sh_epoch s =? e) eqn:E; [|done]. apply Z.eqb_eq in E.
  intros [= <-]. split; [done| |].
  - intros tid' scope' pc' Hl. apply (builder_ok_same (mkSys s bs ws)); [done..|]. by eapply Hb.
  - intros scope' snap' r. simpl. rewrite lookup_insert_Some. intros [[<- <-]|[_ Hl]] Hr.
    + destruct (Hb _ _ _ Ht) as [_ [?|[H|(w & k & Hw & _)]]]; simpl in *; [lia|left; by apply H|].
      right. by exists w, k.
    + by eapply Hc.
Qed.

Lemma write_ok w scope docs vecs s bs ws : sys_ok (mkSys s bs ws) -> ws !! w = None ->
  (forall other, other <> scope -> scope_docs other docs = scope_docs other (sh_docs s)) ->
  sys_ok (mkSys (mkShared docs vecs (sh_epoch s) (sh_cache s)) bs (<[w := (scope, Wrote)]> ws)).
Proof.
  intros [He Hb Hc] Hw Hd. set (y' := mkSys _ _ _).
  assert (Hkeep : forall other (W : Writer -> Prop), writing (mkSys s bs ws) other W -> writing y' other W).
  { intros other W (w' & k & Hw' & HW). exists w', k. split; [|done]. simpl in *. rewrite lookup_insert_ne; [done|congruence]. }
  assert (Hmine : forall W : Writer -> Prop, W Wrote -> writing y' scope W).
  { intros W HW. exists w, Wrote. split; [apply lookup_insert_eq|done]. }
  split; [done| |].
  - intros tid scope' pc Hl. specialize (Hb _ _ _ Hl). unfold builder_ok in *. simpl in *.
    destruct (decide (scope' = scope)) as [->|Hne].
    + destruct pc; [done|..]; (split; [apply Hb|right; right; by apply Hmine]).
    + rewrite (active_tokens_same scope' docs (sh_docs s)) by by apply Hd.
      destruct pc; [done|..]; destruct Hb as [? [?|[?|?]]]; eauto 10.
  - intros scope' snap r Hl Hr. simpl in Hl. destruct (decide (scope' = scope)) as [->|Hne]; [right; by apply Hmine|].
    simpl. rewrite (active_tokens_same scope' docs (sh_docs s)) by by apply Hd.
    destruct (Hc _ _ _ Hl Hr); eauto.
Qed.

Lemma bump_ok w scope s bs ws : sys_ok (mkSys s bs ws) -> ws !! w = Some (scope, Wrote) ->
  sh_epoch s + 1 < 18446744073709551616 -> sys_ok (mkSys (bump_epoch s) bs (<[w := (scope, Bumped)]> ws)).
Proof.
  intros [He Hb Hc] Hw Hlt. simpl in He.
  assert (Hep : wrap64 (sh_epoch s + 1) = sh_epoch s + 1) by (apply wrap64_small; lia).
  split; simpl; [rewrite Hep; lia| |].
  - intros tid scope' pc Hl. specialize (Hb _ _ _ Hl). unfold builder_ok in *. simpl in *. rewrite Hep.
    destruct pc; [lia|..]; (split; [|left]; destruct Hb as [? _]; lia).
  - intros scope' snap r Hl Hr. destruct (Hc _ _ _ Hl Hr) as [?|(w' & k & Hw' & _)]; [by left|right].
    simpl in Hw'. destruct (decide (w' = w)) as [->|Hne].
    + assert (scope' = scope) as -> by congruence. exists w, Bumped. split; [apply lookup_insert_eq|done].
    + exists w', k. simpl. by rewrite lookup_insert_ne.
Qed.

Lemma drop_ok w scope s bs ws : sys_ok (mkSys s bs ws) -> ws !! w = Some (scope, Bumped) ->
  sys_ok (mkSys (drop_scope scope s) bs (delete w ws)).
Proof.
  intros [He Hb Hc] Hw. set (y' := mkSys _ _ _).
  assert (Hkeep : forall other W, other <> scope \/ ~ W Bumped -> writing (mkSys s bs ws) other W -> writing y' other W).
  { intros other W Ho (w' & k & Hw' & HW). exists w', k. split; [|done]. simpl in *.
    rewrite lookup_delete_ne; [done|]. intros ->. assert ((scope, Bumped) = (other, k)) as [= -> <-] by congruence. tauto. }
  split; [done| |].
  - intros tid scope' pc Hl. specialize (Hb _ _ _ Hl). unfold builder_ok in *. simpl in *.
    assert (HW : writing (mkSys s bs ws) scope' (eq Wrote) -> writing y' scope' (eq Wrote)) by (apply Hkeep; by right).
    destruct pc; [done|..]; destruct Hb as [? [?|[?|?]]]; eauto 10.
  - intros scope' snap r. simpl. rewrite lookup_delete_Some. intros [Hne Hl] Hr.
    destruct (Hc _ _ _ Hl Hr) as [?|HW]; [by left|right]. apply Hkeep; [by left|done].
Qed.

Lemma sys_step_ok y y' : sys_step y y' -> sys_ok y -> sys_ok y'.
Proof.
  destruct 1 as [tid scope s bs ws Hf Hp|tid scope e s bs ws Ht|tid scope e actives s bs ws Ht|tid scope e snap s s' bs ws Ht Hi
    |tid scope e snap s bs ws Ht Hi|tid b s bs ws Ht|vecs s bs ws|w scope docs vecs s bs ws Hw Hd|w scope s bs ws Hw He
    |w scope s bs ws Hw]; intros Hok.
  - apply sys_ok_set; [done|]. simpl. lia.
  - apply sys_ok_set; [done|]. pose proof (so_builders _ Hok _ _ _ Ht) as Hb. simpl in *. split; [done|by right; left].
  - apply sys_ok_set; [done|]. pose proof (so_builders _ Hok _ _ _ Ht) as [Hle Hb]. simpl in *. split; [done|].
    destruct Hb as [Hb|[->|Hb]]; [by left| |by right; right]. right. left. intros r. apply kept_active.
  - apply sys_ok_unset. by eapply install_ok.
  - apply sys_ok_set; [done|]. simpl. lia.
  - by apply sys_ok_unset.
  - destruct Hok as [He Hb Hc]. split; [done| |exact Hc]. intros tid scope pc Hl.
    apply (builder_ok_same (mkSys s bs ws)); [done..|]. by eapply Hb.
  - by apply write_ok.
  - by eapply bump_ok.
  - by apply drop_ok.
Qed.

(** However cache builds and writes interleave, from an empty cache, a
    snapshot that is in the cache while no write of its scope is still to
    invalidate it holds only vectors of concepts that are active in the
    search rows now: a superseded, retired or deleted concept is not served
    once its write has finished. *)
Theorem cache_serves_active docs vecs y scope snap :
  rtc sys_step (mkSys (mkShared docs vecs 0 ∅) ∅ ∅) y ->
  sh_cache (y_shared y) !! scope = Some snap -> (forall w k, y_writers y !! w <> Some (scope, k)) ->
  forall r, r ∈ sv_rows snap -> cr_path_token r ∈ active_tokens (store_of scope) (sh_docs (y_shared y)).
Proof.
  intros Hrun Hl Hw r Hr. assert (Hok : sys_ok y).
  { eapply (rtc_ind_l (fun y0 => sys_ok y0 -> sys_ok y) y); [done| |exact Hrun|].
    - intros a b Hab _ IH Ha. by eapply IH, sys_step_ok.
    - split; simpl; [lia|intros tid s0 pc; by rewrite lookup_empty|intros s0 sn r0; by rewrite lookup_empty]. }
  destruct (so_cache _ Hok _ _ _ Hl Hr) as [?|(w & k & H & _)]; [done|]. by destruct (Hw w k).
Qed.
(** A build that races a write: it has already read the active tokens, its
    install is refused, and the second pass installs. *)
Lemma race_run scope docs docs' vecs :
  (forall other, other <> scope -> scope_docs other docs' = scope_docs other docs) ->
  exists y, rtc sys_step (mkSys (mkShared docs vecs 0 ∅) ∅ ∅) y /\ y_writers y = ∅ /\ sh_docs (y_shared y) = docs' /\
    sh_cache (y_shared y) !! scope =
      Some (snapshot_of (fetch_kept (store_of scope) (active_tokens (store_of scope) docs') vecs)).
Proof.
  intros Hd. eexists. split.
  { eapply rtc_l; [apply (step_start 0 scope); [done|apply lookup_empty]|].
    eapply rtc_l; [eapply (step_actives 0 scope 0), lookup_insert_eq|].
    eapply rtc_l; [eapply (step_write 7 scope docs' vecs); [apply lookup_empty|exact Hd]|].
    eapply rtc_l; [eapply (step_fetch 0 scope 0), lookup_insert_eq|].
    eapply rtc_l; [eapply (step_bump 7 scope); [apply lookup_insert_eq|done]|].
    eapply rtc_l; [eapply (step_retry 0 scope 0); [apply lookup_insert_eq|done]|].
    eapply rtc_l; [eapply (step_actives 0 scope 1), lookup_insert_eq|].
    eapply rtc_l; [eapply (step_drop 7 scope), lookup_insert_eq|].
    eapply rtc_l; [eapply (step_fetch 0 scope 1), lookup_insert_eq|].
    eapply rtc_l; [eapply (step_install 0 scope 1); [apply lookup_insert_eq|done]|].
    apply rtc_refl. }
  cbn [y_writers y_shared sh_docs sh_cache]. split_and!; [|done|apply lookup_insert_eq].
  rewrite insert_insert_eq. by apply delete_insert_id.
Qed.
End Interleaving.

(** Left alone, a build reads each table once, serves the fresh, readable
    rows of active concepts and installs them; asked again it serves the
    same snapshot. *)
Theorem cache_scope_quiet (st : VectorStore) (s : Shared) :
  sh_cache s !! vs_scope_id st = None ->
  let snap := snapshot_of (fetch_kept st (active_tokens st (sh_docs s)) (sh_vecs s)) in
  let s' := mkShared (sh_docs s) (sh_vecs s) (sh_epoch s) (<[vs_scope_id st := snap]> (sh_cache s)) in
  cache_scope st (fun _ s => s) (fun _ => true) s = (Ok snap, s') /\
  forall others reads, others 0%nat s' = s' -> cache_scope st others reads s' = (Ok snap, s').
Proof.
  intros Hc snap s'. split.
  - unfold cache_scope, probe. rewrite Hc. cbn. unfold try_install. by rewrite Z.eqb_refl.
  - intros others reads Ho. unfold cache_scope, probe. rewrite Ho. unfold s'. cbn [sh_cache]. by rewrite lookup_insert_eq.
Qed.

Lemma result_bind_Ok {A B E} (r : result A E) (f : A -> result B E) b :
  result_bind r f = Ok b -> exists a, r = Ok a /\ f a = Ok b.
Proof. destruct r as [a|]; [by exists a|done]. Qed.

Lemma by_token_lookup (st : VectorStore) (paths : list str) token path :
  fold_left (fun m p => <[vec_token st p := p]> m) paths (∅ : gmap str str) !! token = Some path ->
  path ∈ paths /\ vec_token st path = token.
Proof.
  assert (Hg : forall l (m : gmap str str), fold_left (fun m p => <[vec_token st p := p]> m) l m !! token = Some path ->
    m !! token = Some path \/ (path ∈ l /\ vec_token st path = token)).
  { clear. induction l as [|p l IH]; intros m Hl; [by left|]. simpl in Hl.
    destruct (IH _ Hl) as [Hm|[? ?]]; [|right; split; [by right|done]].
    apply lookup_insert_Some in Hm as [[<- <-]|[_ ?]]; [right; split; [by left|done]|by left]. }
  intros Hl. apply Hg in Hl as [Hl|?]; [by rewrite lookup_empty in Hl|done].
Qed.

(** A hit is a row of the snapshot whose model and dimension match the
    query, with a positive cosine, under the path its token stands for. *)
Theorem top_cosine_hits st snapshot paths qvec model top hits path c :
  top_cosine st snapshot paths qvec model top false = Ok hits -> (path, c) ∈ hits ->
  (length hits <= top)%nat /\ exists snap r, snapshot = Ok snap /\ r ∈ sv_rows snap /\ path ∈ paths /\
    cr_path_token r = vec_token st path /\ cr_model r = model /\ cr_dims r = Z.of_nat (length qvec) /\
    c = vec_cosine (cr_vec r) qvec /\ f32_gt0 c = true.
Proof.
  unfold top_cosine. destruct top as [|top]; [by intros [= <-] ?%elem_of_nil|].
  intros (snap & -> & Hh)%result_bind_Ok Hin.
  assert (Hhits : hits = take (S top) (hits_of st paths (sort_by fused_cmp (scored_rows model qvec (sv_rows snap))))).
  { destruct (sort_by fused_cmp (scored_rows model qvec (sv_rows snap))) as [|x l]; [|congruence].
    injection Hh as <-. by apply elem_of_nil in Hin. }
  split; [rewrite Hhits, length_take; lia|]. rewrite Hhits in Hin.
  assert (Hin' : (path, c) ∈ hits_of st paths (sort_by fused_cmp (scored_rows model qvec (sv_rows snap)))).
  { rewrite <- (take_drop (S top) (hits_of _ _ _)). apply elem_of_app. by left. }
  unfold hits_of in Hin'. apply list_elem_of_omap in Hin' as ([token score] & Hs & Hm). rewrite sort_by_perm in Hs.
  simpl in Hm. destruct (_ !! token) as [path'|] eqn:Hp; [|done]. injection Hm as <- <-.
  apply by_token_lookup in Hp as [Hpath Htok]. unfold scored_rows in Hs.
  apply list_elem_of_In, List.filter_In in Hs as [Hs Hpos]. apply list_elem_of_In in Hs.
  apply list_elem_of_fmap in Hs as (r & [= -> ->] & Hr).
  apply list_elem_of_In, List.filter_In in Hr as [Hr [Hmodel Hdims]%andb_true_iff]. apply list_elem_of_In in Hr.
  exists snap, r. split_and!; [done|done|done|by symmetry|by apply str_eqb_eq|by apply Z.eqb_eq|done|done].
Qed.

(** The hook queue holds each entry once, at most [VECTOR_QUEUE_CAPACITY] of
    them, and hands them out in the order of arrival. *)
Definition queue_ok (queue : list (str * str)) : Prop := NoDup queue /\ (length queue <= VECTOR_QUEUE_CAPACITY)%nat.

Theorem write_queue_fifo queue scope token max : queue_ok queue ->
  queue_ok (enqueue_write queue scope token) /\
  ((length queue < VECTOR_QUEUE_CAPACITY)%nat -> (scope, token) ∈ enqueue_write queue scope token) /\
  queue_ok (drain_queue queue max).2 /\ (drain_queue queue max).1 ++ (drain_queue queue max).2 = queue /\
  length (drain_queue queue max).1 = Nat.min max (length queue).
Proof.
  intros [Hnd Hlen]. unfold enqueue_write, drain_queue. cbn [fst snd].
  assert (Hin : existsb (fun e : str * str => str_eqb e.1 scope && str_eqb e.2 token) queue = true <-> (scope, token) ∈ queue).
  { rewrite existsb_exists. split.
    - intros ([a b] & Hq & [E1%str_eqb_eq E2%str_eqb_eq]%andb_true_iff). simpl in E1, E2. subst. by apply list_elem_of_In.
    - intros Hq%list_elem_of_In. exists (scope, token). split; [done|]. cbn [fst snd].
      by rewrite !(proj2 (str_eqb_eq _ _) eq_refl). }
  destruct (existsb _ queue) eqn:E.
  - cbn [orb]. split_and!; [split; [done|lia]|intros _; by apply Hin| |apply take_drop|rewrite length_take; lia].
    split; [eapply sublist_NoDup, sublist_drop; done|rewrite length_drop; lia].
  - assert (Hnin : (scope, token) ∉ queue) by (intros H; apply Hin in H; done). cbn [orb].
    destruct (Nat.leb_spec VECTOR_QUEUE_CAPACITY (length queue)) as [Hge|Hlt].
    + split_and!; [split; [done|lia]|lia| |apply take_drop|rewrite length_take; lia].
      split; [eapply sublist_NoDup, sublist_drop; done|rewrite length_drop; lia].
    + split_and!.
      * split; [|rewrite length_app; simpl; lia]. apply NoDup_app. split_and!; [done| |apply NoDup_singleton].
        intros x Hx ->%list_elem_of_singleton. done.
      * intros _. apply elem_of_app. right. by apply list_elem_of_singleton.
      * split; [eapply sublist_NoDup, sublist_drop; done|rewrite length_drop; lia].
      * apply take_drop.
      * rewrite length_take. lia.
Qed.

End Vectors.

(** ** Witnesses *)
Definition demo_store : VectorStore := @VectorStore_for_user demo_kdf char_uuid 5%N (demo_master 1).
Definition demo_vec : list f32 := [S754_finite false 8388608 (-23); S754_finite true 3 (-149); S754_zero false].

Lemma vector_roundtrip_witness :
  let out := @upsert demo_aead demo_kdf wide_hex demo_store ∅ (lit "/a.md") (lit "m") 3 demo_vec demo_nonce (lit "now") false in
  out.1 = Ok true /\
  exists rs, @load_rows demo_aead demo_store out.2 false = Ok rs /\
    mkVectorRow (@vec_token demo_kdf wide_hex demo_store (lit "/a.md")) (lit "m") 3 false demo_vec (lit "now") ∈ rs.
Proof.
  intros out. assert (H1 : out.1 = Ok true) by (vm_compute; reflexivity). split; [exact H1|].
  destruct (@vector_roundtrip demo_aead demo_kdf wide_hex demo_store ∅ (lit "/a.md") (lit "m") demo_vec demo_nonce
    (lit "now") [] eq_refl ltac:(repeat constructor; simpl; lia) ltac:(simpl; lia) eq_refl) as [_ H].
  change (Z.of_nat (length demo_vec)) with 3 in H. fold out in H. clearbody out. destruct out as [[created|e] t']; [|done].
  destruct H as (_ & (rs & Hrs & Hin) & _). exists rs. split; [exact Hrs|]. apply Hin. by left.
Defined.

Definition demo_keyring (scope : str) : IndexKeys := vs_keys demo_store.
Definition demo_docs (b_status : string) : SearchTables :=
  mkSearchTables ∅ {[ (vs_scope_id demo_store, lit "/a.md") := mkSearchDoc [] None None;
                      (vs_scope_id demo_store, lit "/b.md") := mkSearchDoc [] None (Some (lit b_status)) ]}.
Definition demo_rows : VecTable :=
  let up t p := (@upsert demo_aead demo_kdf wide_hex demo_store t (lit p) (lit "m") 3 demo_vec demo_nonce (lit "now") false).2 in
  up (up ∅ "/a.md"%string) "/b.md"%string.

Lemma foreign_docs scope other b : other <> scope -> scope = vs_scope_id demo_store -> scope_docs other (demo_docs b) = [].
Proof.
  intros Hne ->. apply elem_of_nil_inv. intros [p d]. rewrite (scope_docs_elem (mkEncryptedIndex other (vs_keys demo_store))).
  unfold demo_docs. cbn [search_docs]. rewrite lookup_insert_ne by (intros [=]; by subst). by rewrite lookup_singleton_ne by (intros [=]; by subst).
Qed.

Lemma demo_race : exists y snap,
  rtc (@sys_step demo_aead demo_kdf wide_hex demo_keyring) (mkSys (mkShared (demo_docs "active") demo_rows 0 ∅) ∅ ∅) y /\
  sh_cache (y_shared y) !! vs_scope_id demo_store = Some snap /\ y_writers y = ∅ /\
  length (sv_rows snap) = 1%nat /\ @active_tokens demo_kdf wide_hex (store_of demo_keyring (vs_scope_id demo_store))
    (sh_docs (y_shared y)) = [@vec_token demo_kdf wide_hex demo_store (lit "/a.md")].
Proof.
  destruct (@race_run demo_aead demo_kdf wide_hex demo_keyring (vs_scope_id demo_store) (demo_docs "active")
    (demo_docs "retired") demo_rows) as (y & Hrun & Hw & Hdocs & Hc).
  { intros other Hne. by rewrite !(foreign_docs _ _ _ Hne eq_refl). }
  eexists y, _. split; [exact Hrun|]. split; [exact Hc|]. split; [exact Hw|]. rewrite Hdocs. clear.
  split; vm_compute; reflexivity.
Qed.

Lemma cache_serves_active_witness : exists y snap r,
  sh_cache (y_shared y) !! vs_scope_id demo_store = Some snap /\ r ∈ sv_rows snap /\
  cr_path_token r = @vec_token demo_kdf wide_hex demo_store (lit "/a.md").
Proof.
  destruct demo_race as (y & snap & Hrun & Hc & Hw & Hlen & Hact).
  destruct (sv_rows snap) as [|r l] eqn:Er; [discriminate Hlen|].
  assert (Hr : r ∈ sv_rows snap) by (rewrite Er; left). exists y, snap, r. split_and!; [done|by rewrite Er; left|].
  pose proof (@cache_serves_active demo_aead demo_kdf wide_hex demo_keyring (demo_docs "active") demo_rows y
    (vs_scope_id demo_store) snap Hrun Hc (fun w k => ltac:(rewrite Hw; by rewrite lookup_empty)) r Hr) as H.
  rewrite Hact in H. by apply list_elem_of_singleton in H.
Defined.
