(* ===== verification/ConceptStore.v ===== *)
(** * The concept store

    [crates/mycelium-store/src/concept_store.rs]: the facade that keeps
    the encrypted files, the registry [scope_files], the search index, the
    revision log, the vector rows and the write-hook queue of one scope
    together.

    An operation is a program of a state and error monad over the world:
    the scope's directory and the tables and process globals it shares.
    Every access to the database or the file system takes a tick, and the
    environment says what the access of a tick meets: its clock, nonces and
    temporary name, and whether it is refused.  An error ends the operation
    with the world as it then is, which is also what a crash between two
    accesses leaves behind. *)
From S2P Require Import Prelude Float Text Clock Crypto FileRepo Concept Search Lifecycle Revisions SearchIndex Vectors.
Open Scope Z_scope.

(** ** The environment and the world *)
Record Env := mkEnv {
  en_now : nat -> str; en_nonce : nat -> nat -> bytes; en_uuid : nat -> str;
  en_fails : nat -> bool; en_write : nat -> option WriteFault;
  en_attempt : nat -> nat -> Attempt; en_retention : nat -> Z }.

(** A row of [scope_files] *)
Record FileRow := mkFileRow { fr_title : str; fr_concept_type : str; fr_updated_at : str }.

Record World := mkWorld {
  w_tick : nat; w_dir : gmap str bytes; w_files : gmap (str * str) FileRow;
  w_revs : list Revision; w_shared : Shared; w_queue : list (str * str) }.

Definition with_tick (n : nat) (w : World) : World :=
  mkWorld n (w_dir w) (w_files w) (w_revs w) (w_shared w) (w_queue w).
Definition with_dir (d : gmap str bytes) (w : World) : World :=
  mkWorld (w_tick w) d (w_files w) (w_revs w) (w_shared w) (w_queue w).
Definition with_files (f : gmap (str * str) FileRow) (w : World) : World :=
  mkWorld (w_tick w) (w_dir w) f (w_revs w) (w_shared w) (w_queue w).
Definition with_revs (l : list Revision) (w : World) : World :=
  mkWorld (w_tick w) (w_dir w) (w_files w) l (w_shared w) (w_queue w).
Definition with_shared (s : Shared) (w : World) : World :=
  mkWorld (w_tick w) (w_dir w) (w_files w) (w_revs w) s (w_queue w).
Definition with_queue (q : list (str * str)) (w : World) : World :=
  mkWorld (w_tick w) (w_dir w) (w_files w) (w_revs w) (w_shared w) q.

Definition set_docs (docs : SearchTables) (s : Shared) : Shared := mkShared docs (sh_vecs s) (sh_epoch s) (sh_cache s).
Definition set_vecs (v : gmap (str * str) VecRow) (s : Shared) : Shared := mkShared (sh_docs s) v (sh_epoch s) (sh_cache s).

(** ** Errors, entries, scopes *)
Inductive ConceptStoreError (YE : Type) :=
| CRepo (e : FileRepoError) | CIndex (e : IndexError) | CDb | CParse (e : ConceptError YE)
| CRevisions (e : RevisionsError) | CVector (e : VectorError)
| CNotFound (path : str) | CReserved (path : str) | CQueuePath (path : str).
Arguments CRepo {YE} e.
Arguments CIndex {YE} e.
Arguments CDb {YE}.
Arguments CParse {YE} e.
Arguments CRevisions {YE} e.
Arguments CVector {YE} e.
Arguments CNotFound {YE} path.
Arguments CReserved {YE} path.
Arguments CQueuePath {YE} path.

Record ConceptEntry := mkConceptEntry { ce_path : str; ce_title : str; ce_concept_type : str; ce_updated_at : str }.

Inductive ConceptScope := CsUser (user_id : Uuid) (master_key : MasterKey) | CsService (service_key : ServiceKey) (namespace : str).
Record ConceptStore := mkConceptStore { cs_scope : ConceptScope; cs_provenance : option str; cs_revision_op : option str }.

(** ** The monad *)
Section Monad.
Context {E : Type}.

Definition M (A : Type) : Type := Env -> World -> result A E * World.
#[global] Instance M_ret : MRet M := fun A a _ w => (Ok a, w).
#[global] Instance M_bind : MBind M := fun A B f m env w =>
  match m env w with
  | (Ok a, w) => f a env w
  | (Err e, w) => (Err e, w)
  end.
Definition fail {A} (e : E) : M A := fun _ w => (Err e, w).
Definition of_result {A} (r : result A E) : M A := fun _ w => (r, w).

(** An access: [f] sees the environment at the tick. *)
Definition access {A} (f : Env -> nat -> World -> result A E * World) : M A :=
  fun env w => let k := w_tick w in f env k (with_tick (S k) w).
(** Process globals: no tick, no error *)
Definition update (f : World -> World) : M unit := fun _ w => (Ok tt, f w).

Fixpoint for_each {A} (f : A -> M unit) (l : list A) : M unit :=
  match l with
  | [] => mret tt
  | x :: l => f x ≫= fun _ => for_each f l
  end.
End Monad.
Arguments M : clear implicits.

Definition QUEUE_PREFIX : str := lit "/mutation-queue/".

(** [path.rsplit('/').next()] *)
Definition path_basename (p : str) : str := default [] (last (split slash p)).

Definition reserved_basename (b : str) : bool :=
  str_eqb b (lit "index.md") || str_eqb b (lit "log.md") || str_eqb b (lit "info.md").

(** ** index.md *)
Definition dir_of (p : str) : str := match rsplit_once (lit "/") p with Some (d, _) => d | None => [] end.

(** A [BTreeMap] from strings to lists, as an association list in key
    order: [entry(key).or_default().extend(items)] *)
Fixpoint group_extend {A} (key : str) (items : list A) (m : list (str * list A)) : list (str * list A) :=
  match m with
  | [] => [(key, items)]
  | (k, l) :: m' =>
      match str_cmp key k with
      | Lt => (key, items) :: m
      | Eq => (k, l ++ items) :: m'
      | Gt => (k, l) :: group_extend key items m'
      end
  end.

Definition index_dirs (entries : list ConceptEntry) : list (str * list ConceptEntry) :=
  group_extend [] [] (fold_left (fun m e => group_extend (dir_of (ce_path e)) [e] m) entries []).

Definition index_name (dir : str) : str :=
  match dir with [] => lit "Knowledge Base" | _ => path_basename dir end.
Definition dir_prefix (dir : str) : str := match dir with [] => lit "/" | _ => dir ++ lit "/" end.

Definition subdirs_of (dir : str) (dirs : list (str * list ConceptEntry)) : list (str * list ConceptEntry) :=
  let prefix := dir_prefix dir in
  fold_left (fun m d =>
    match strip_prefix prefix d.1 with
    | Some rest =>
        if negb (str_eqb d.1 dir) && negb (bool_decide (rest = []))
        then group_extend (prefix ++ default rest (head (split slash rest))) d.2 m else m
    | None => m
    end) dirs [].

Definition type_list (ents : list ConceptEntry) : str :=
  let types := dedup (sort_by str_cmp (retain (fun t => negb (bool_decide (t = []))) (ce_concept_type <$> ents))) in
  match types with [] => [] | _ => lit " (" ++ join (lit ", ") types ++ lit ")" end.

Definition em_dash : str := [32; 8212; 32]%N.
Definition entry_line (e : ConceptEntry) : str :=
  lit "* [" ++ ce_title e ++ lit "](" ++ path_basename (ce_path e) ++ lit ") [" ++ ce_concept_type e ++ lit "]".
Definition subdir_line (s : str * list ConceptEntry) : str :=
  lit "* [" ++ s.1 ++ lit "](" ++ s.1 ++ lit "/)" ++ em_dash ++ show_N (N.of_nat (length s.2)) ++ lit " concept(s)" ++ type_list s.2.

Definition index_content (dirs : list (str * list ConceptEntry)) (d : str * list ConceptEntry) : str :=
  let subdirs := subdirs_of d.1 dirs in
  join [nl] ([lit "# " ++ index_name d.1 ++ [nl]] ++ (entry_line <$> d.2) ++
    match subdirs with
    | [] => []
    | _ => ([nl] ++ lit "## Subdirectories" ++ [nl]) :: (subdir_line <$> subdirs)
    end) ++ [nl].

(** [like_escape] and SQLite's LIKE with ESCAPE on its result: the pattern
    is literal up to the final wildcard, but compares ASCII letters without
    regard to case. *)
Definition like_escape (prefix : str) : str :=
  (c ← prefix; if (c =? 37) || (c =? 95) || (c =? 92) then [92; c] else [c])%N ++ [37%N].
Fixpoint like_match (fuel : nat) (pattern s : str) : bool :=
  match fuel with
  | O => false
  | S fuel =>
      match pattern, s with
      | [], [] => true
      | [], _ :: _ => false
      | 37%N :: pattern', _ =>
          like_match fuel pattern' s || match s with [] => false | _ :: s' => like_match fuel pattern s' end
      | 92%N :: c :: pattern', x :: s' => (to_ascii_lowercase c =? to_ascii_lowercase x)%N && like_match fuel pattern' s'
      | 95%N :: pattern', _ :: s' => like_match fuel pattern' s'
      | c :: pattern', x :: s' => (to_ascii_lowercase c =? to_ascii_lowercase x)%N && like_match fuel pattern' s'
      | _ :: _, [] => false
      end
  end.
Definition like (pattern s : str) : bool := like_match (S (length pattern + length s)) pattern s.

Section Store.
Context {AE : Aead} {KD : Kdf} {HX : Hex} {UT : UuidText} {MJ : MetaJson} {LC : Lowercase} {NL : NaturalLog} {DJ : DocJson}.
Context {YE : Type} `{!YamlCodec YE} (rfc3339_ok : str -> bool).

#[local] Abbreviation Err' := (ConceptStoreError YE).
#[local] Abbreviation Prog A := (M (ConceptStoreError YE) A).

Definition scope_id (s : ConceptScope) : str :=
  match s with
  | CsUser user_id _ => lit "user:" ++ uuid_to_string user_id
  | CsService _ namespace => lit "global:" ++ namespace
  end.
Definition repo_scope (s : ConceptScope) : Scope :=
  match s with CsUser _ k => ScopeUser k | CsService k _ => ScopeService k end.
Definition index_of (s : ConceptScope) : EncryptedIndex :=
  match s with
  | CsUser user_id k => EncryptedIndex_for_user (uuid_to_string user_id) k
  | CsService k namespace => EncryptedIndex_for_service k namespace
  end.
Definition revisions_of (s : ConceptScope) : RevisionStore :=
  match s with CsUser user_id k => RevisionStore_for_user user_id k | CsService k namespace => RevisionStore_for_service k namespace end.
Definition vectors_of (s : ConceptScope) : VectorStore :=
  match s with CsUser user_id k => VectorStore_for_user user_id k | CsService k namespace => VectorStore_for_service k namespace end.

Definition ConceptStore_for_user (user_id : Uuid) (k : MasterKey) : ConceptStore := mkConceptStore (CsUser user_id k) None None.
Definition ConceptStore_for_service (k : ServiceKey) (namespace : str) : ConceptStore := mkConceptStore (CsService k namespace) None None.
Definition with_provenance (source : str) (cs : ConceptStore) : ConceptStore :=
  mkConceptStore (cs_scope cs) (Some source) (cs_revision_op cs).
Definition with_revision_op (op : str) (cs : ConceptStore) : ConceptStore :=
  mkConceptStore (cs_scope cs) (cs_provenance cs) (Some op).

(** ** The accesses *)
Section Ops.
Context (cs : ConceptStore).
#[local] Abbreviation sid := (scope_id (cs_scope cs)).
#[local] Abbreviation files := (repo_scope (cs_scope cs)).

Definition repo_read (path : str) : M Err' (result bytes FileRepoError) :=
  access (fun env k w => (Ok (read (w_dir w) path files (en_fails env k)), w)).
Definition repo_write (path : str) (plain : bytes) : M Err' unit :=
  access (fun env k w =>
    let '(r, d) := write (w_dir w) path plain files (en_nonce env k 0%nat) (en_nonce env k 1%nat) (en_uuid env k) (en_write env k) in
    (result_map_err CRepo r, with_dir d w)).
Definition repo_delete (path : str) : M Err' unit :=
  access (fun env k w => let '(r, d) := remove (w_dir w) path files (en_fails env k) in (result_map_err CRepo r, with_dir d w)).
Definition record_revision (path op source summary : str) (payload : bytes) : M Err' unit :=
  access (fun env k w =>
    let '(r, l) := record_as (revisions_of (cs_scope cs)) (w_revs w) path op source summary payload (en_retention env k) (en_attempt env k) in
    (match r with Ok _ => Ok tt | Err e => Err (CRevisions e) end, with_revs l w)).
Definition get_snapshot (path : str) (n : Z) : M Err' bytes :=
  access (fun env k w => (result_map_err CRevisions (get_revision (revisions_of (cs_scope cs)) (w_revs w) path n (en_fails env k)), w)).
Definition registered (path : str) : M Err' bool :=
  access (fun env k w => (if en_fails env k then Err CDb else Ok (bool_decide (is_Some (w_files w !! (sid, path)))), w)).
Definition register (path title concept_type now : str) : M Err' unit :=
  access (fun env k w => if en_fails env k then (Err CDb, w)
                         else (Ok tt, with_files (<[(sid, path) := mkFileRow title concept_type now]> (w_files w)) w)).
Definition unregister (path : str) : M Err' unit :=
  access (fun env k w => if en_fails env k then (Err CDb, w) else (Ok tt, with_files (delete (sid, path) (w_files w)) w)).
Definition index_concept (c : Concept) : M Err' unit :=
  access (fun env k w =>
    let '(r, docs) := index_add (index_of (cs_scope cs)) (sh_docs (w_shared w)) c (en_nonce env k 0%nat) (negb (en_fails env k)) in
    (result_map_err CIndex r, with_shared (set_docs docs (w_shared w)) w)).
Definition unindex (path : str) : M Err' unit :=
  access (fun env k w =>
    let '(r, docs) := index_remove (index_of (cs_scope cs)) (sh_docs (w_shared w)) path (negb (en_fails env k)) in
    (result_map_err CIndex r, with_shared (set_docs docs (w_shared w)) w)).
Definition remove_vector (path : str) : M Err' unit :=
  access (fun env k w =>
    let '(r, v) := Vectors.remove_row (vectors_of (cs_scope cs)) (sh_vecs (w_shared w)) path (en_fails env k) in
    (result_map_err CVector r, with_shared (set_vecs v (w_shared w)) w)).
Definition enqueue_embed (path : str) : M Err' unit :=
  update (fun w => with_queue (enqueue_write (w_queue w) sid (vec_token (vectors_of (cs_scope cs)) path)) w).
Definition invalidate : M Err' unit := update (fun w => with_shared (invalidate_scope sid (w_shared w)) w).

(** ** Listing *)
Definition scope_rows (w : World) : list ConceptEntry :=
  sort_by (fun a b => str_cmp (ce_path a) (ce_path b))
    (omap (fun kv : str * str * FileRow => if str_eqb kv.1.1 sid
       then Some (mkConceptEntry kv.1.2 (fr_title kv.2) (fr_concept_type kv.2) (fr_updated_at kv.2)) else None)
       (map_to_list (w_files w))).
Definition list_concepts : M Err' (list ConceptEntry) :=
  access (fun env k w => (if en_fails env k then Err CDb else Ok (scope_rows w), w)).
Definition list_prefix (prefix : str) : M Err' (list ConceptEntry) :=
  access (fun env k w => (if en_fails env k then Err CDb
                          else Ok (retain (fun e => like (like_escape prefix) (ce_path e)) (scope_rows w)), w)).

Definition regen_index_md : M Err' unit :=
  entries ← list_concepts;
  let dirs := index_dirs entries in
  for_each (fun d => repo_write (d.1 ++ lit "/index.md") (as_bytes (index_content dirs d))) dirs.

(** ** Writing *)
Definition set_confirmed_at (v : option str) (f : Frontmatter) : Frontmatter :=
  mkFrontmatter (concept_type f) (fm_title f) (fm_description f) (fm_resource f) (fm_tags f) (fm_timestamp f) (fm_book f)
    (fm_chapter_index f) (fm_skill f) (fm_status f) (fm_superseded_by f) (fm_valid_to f) (fm_source f) v.
Definition set_source (v : option str) (f : Frontmatter) : Frontmatter :=
  mkFrontmatter (concept_type f) (fm_title f) (fm_description f) (fm_resource f) (fm_tags f) (fm_timestamp f) (fm_book f)
    (fm_chapter_index f) (fm_skill f) (fm_status f) (fm_superseded_by f) (fm_valid_to f) v (fm_confirmed_at f).

(** The label, if there is one and it is not empty *)
Definition label : option str := match cs_provenance cs with Some (c :: s) => Some (c :: s) | _ => None end.

Definition stamp_frontmatter (now : str) (f : Frontmatter) : Frontmatter :=
  let f := set_confirmed_at (Some now) f in
  match label with Some src => set_source (Some src) f | None => f end.
Definition stamp (now : str) (c : Concept) : Concept := mkConcept (stamp_frontmatter now (frontmatter c)) (body c) (source_path c).

Definition stamp_one (c : Concept) : M Err' Concept :=
  access (fun env k w =>
    (if reserved_basename (path_basename (source_path c)) then Err (CReserved (source_path c))
     else let c := stamp (en_now env k) c in
          result_bind (result_map_err CParse (Frontmatter_validated rfc3339_ok (frontmatter c))) (fun _ => Ok c), w)).
Fixpoint stamp_all (l : list Concept) : M Err' (list Concept) :=
  match l with
  | [] => mret []
  | c :: l => c ← stamp_one c; l ← stamp_all l; mret (c :: l)
  end.

(** The pre-mutation bytes, or what a missing file stands for *)
Definition pre_state (path : str) (op : str) (absent : str * bytes) : M Err' (str * bytes) :=
  r ← repo_read path;
  match r with
  | Ok pre => mret (op, pre)
  | Err (FIo NotFound) => mret absent
  | Err e => fail (CRepo e)
  end.
Definition revision_op_and_payload (op_override : option str) (path : str) (markdown : bytes) : M Err' (str * bytes) :=
  match op_override with
  | Some tag =>
      if str_eqb tag (lit "create") then mret (tag, markdown)
      else pre_state path tag (tag, if str_eqb tag (lit "restore") then [] else markdown)
  | None =>
      existed ← registered path;
      if negb existed then mret (lit "create", markdown)
      else pre_state path (lit "update") (lit "create", markdown)
  end.

Definition rev_source (c : Concept) : str :=
  match cs_provenance cs with
  | Some [] => []
  | Some src => src
  | None => default [] (fm_source (frontmatter c))
  end.

Definition put_one (op_override summary_override : option str) (c : Concept) : M Err' unit :=
  markdown ← of_result (result_map_err CParse (to_markdown c));
  _ ← (if starts_with QUEUE_PREFIX (source_path c) then mret tt
       else
         '(op, payload) ← revision_op_and_payload op_override (source_path c) (as_bytes markdown);
         summary ← match summary_override with
                   | Some s => mret s
                   | None => of_result (result_map_err CRevisions (op_summary op None))
                   end;
         record_revision (source_path c) op (rev_source c) summary payload);
  _ ← repo_write (source_path c) (as_bytes markdown);
  now ← access (fun env k w => (Ok (en_now env k), w));
  _ ← register (source_path c) (title_or_path c) (concept_type (frontmatter c)) now;
  _ ← index_concept c;
  enqueue_embed (source_path c).

Definition put_batch_with_revision (concepts : list Concept) (op_override summary_override : option str) : M Err' unit :=
  match concepts with
  | [] => mret tt
  | _ =>
      stamped ← stamp_all concepts;
      _ ← for_each (put_one op_override summary_override) stamped;
      _ ← regen_index_md;
      invalidate
  end.
Definition put_batch_internal (concepts : list Concept) : M Err' unit :=
  put_batch_with_revision concepts (cs_revision_op cs) None.
Definition put_batch (concepts : list Concept) : M Err' unit :=
  match find_first (fun c => starts_with QUEUE_PREFIX (source_path c)) concepts with
  | Some c => fail (CQueuePath (source_path c))
  | None => put_batch_internal concepts
  end.
Definition put (c : Concept) : M Err' unit :=
  if starts_with QUEUE_PREFIX (source_path c) then fail (CQueuePath (source_path c)) else put_batch [c].

Definition restore (path : str) (revision_no : Z) : M Err' unit :=
  if starts_with QUEUE_PREFIX path then fail (CQueuePath path)
  else
    snapshot ← get_snapshot path revision_no;
    markdown ← of_result (ok_or (CRevisions (RCorrupted
                 (lit "revision " ++ show_N (Z.to_N revision_no) ++ lit " of " ++ path ++ lit " is not UTF-8 markdown"))) (from_utf8 snapshot));
    concept ← of_result (result_map_err CParse (Concept_parse path markdown));
    summary ← of_result (result_map_err CRevisions (op_summary (lit "restore") (Some revision_no)));
    put_batch_with_revision [concept] (Some (lit "restore")) (Some summary).

(** ** Reading *)
Definition get (path : str) : M Err' Concept :=
  r ← repo_read path;
  match r with
  | Err (FIo NotFound) => fail (CNotFound path)
  | Err e => fail (CRepo e)
  | Ok b =>
      markdown ← of_result (ok_or (CNotFound path) (from_utf8 b));
      of_result (result_map_err CParse (Concept_parse path markdown))
  end.

Definition reindex (path : str) : M Err' unit :=
  if starts_with QUEUE_PREFIX path then fail (CQueuePath path)
  else concept ← get path; index_concept concept.

(** ** Deleting *)
Definition delete_internal (path : str) : M Err' unit :=
  r ← repo_read path;
  match r with
  | Err (FIo NotFound) => fail (CNotFound path)
  | Err e => fail (CRepo e)
  | Ok pre =>
      _ ← (if starts_with QUEUE_PREFIX path then mret tt
           else
             summary ← of_result (result_map_err CRevisions (op_summary (lit "delete") None));
             record_revision path (lit "delete") (default [] label) summary pre);
      _ ← unregister path;
      _ ← unindex path;
      _ ← repo_delete path;
      _ ← regen_index_md;
      _ ← remove_vector path;
      invalidate
  end.
Definition delete_concept (path : str) : M Err' unit :=
  if starts_with QUEUE_PREFIX path then fail (CQueuePath path) else delete_internal path.

Definition sweep_index_row (path : str) : M Err' unit := unindex path.

(** [view] is what the search's statements see of the tables. *)
Definition search_scope (view : nat -> SearchTables) (q : SearchQuery) : M Err' (list SearchResult) :=
  access (fun env k w => (result_map_err CIndex (index_search (index_of (cs_scope cs)) view q (en_fails env k)), w)).
End Ops.
End Store.
