(* ===== verification/ConceptStoreProofs.v ===== *)
(** * Properties of the concept store

    The operations of [ConceptStore.v] against an abstract specification:
    whatever the environment refuses, an operation is a sequence of a few
    kinds of steps on the listing, the file contents and the revision log.
    What the listing and the undo log promise follows from the steps. *)
From S2P Require Import Prelude Float Text Clock Crypto FileRepo Concept Search Lifecycle Revisions SearchIndex Vectors ConceptStore.
Open Scope Z_scope.

Lemma bind_Ok {E A B} (m : M E A) (f : A -> M E B) env w b w' : (m ≫= f) env w = (Ok b, w') ->
  exists a w1, m env w = (Ok a, w1) /\ f a env w1 = (Ok b, w').
Proof. unfold mbind, M_bind. destruct (m env w) as [[a|e] w1]; [|done]. intros H. by exists a, w1. Qed.
Lemma ret_Ok {E A} (a b : A) env w w' : (mret a : M E A) env w = (Ok b, w') -> a = b /\ w' = w.
Proof. by intros [= <- <-]. Qed.
Lemma of_result_Ok {E A} (r : result A E) env w b w' : of_result r env w = (Ok b, w') -> r = Ok b /\ w' = w.
Proof. by intros [= -> <-]. Qed.
Lemma map_err_Ok {A E F} (f : E -> F) (r : result A E) a : result_map_err f r = Ok a -> r = Ok a.
Proof. destruct r; [by intros [= ->]|done]. Qed.
Lemma bind_run {E A B} (m : M E A) (f : A -> M E B) env w :
  (m ≫= f) env w = match m env w with (Ok a, w1) => f a env w1 | (Err e, w1) => (Err e, w1) end.
Proof. done. Qed.

(** ** Paths *)
Lemma split_if_nonempty f s : split_if f s <> [].
Proof. induction s as [|c s IH]; simpl; [done|]. destruct (f c); [done|]. by destruct (split_if f s). Qed.

Lemma last_split_app c a b : last (split c (a ++ c :: b)) = last (split c b).
Proof.
  unfold split. induction a as [|x a IH]; simpl.
  - rewrite N.eqb_refl. pose proof (split_if_nonempty (N.eqb c) b). by destruct (split_if (N.eqb c) b).
  - pose proof (split_if_nonempty (N.eqb c) (a ++ c :: b)) as Hne.
    destruct (c =? x)%N; destruct (split_if (N.eqb c) (a ++ c :: b)) as [|l [|l' ls]] eqn:E; try done; simpl in *.
    exfalso. revert E. clear. revert l. induction a as [|y a IHa]; intros l; simpl.
    + rewrite N.eqb_refl. pose proof (split_if_nonempty (N.eqb c) b). by destruct (split_if (N.eqb c) b).
    + destruct (c =? y)%N.
      * pose proof (split_if_nonempty (N.eqb c) (a ++ c :: b)). by destruct (split_if (N.eqb c) (a ++ c :: b)).
      * destruct (split_if (N.eqb c) (a ++ c :: b)) as [|l1 [|l2 ls]] eqn:E; try done.
        by pose proof (split_if_nonempty (N.eqb c) (a ++ c :: b)). by destruct (IHa l1).
Qed.

Lemma index_path_reserved d : reserved_basename (path_basename (d ++ lit "/index.md")) = true.
Proof. unfold path_basename. change (lit "/index.md") with (slash :: lit "index.md"). by rewrite last_split_app. Qed.

(** ** The keys of a grouping *)
Lemma group_extend_keys {A} key (items : list A) m : forall d, d ∈ (group_extend key items m).*1 -> d = key \/ d ∈ m.*1.
Proof.
  induction m as [|[k l] m IH]; intros d; simpl.
  - intros ->%list_elem_of_singleton. by left.
  - destruct (str_cmp key k); simpl; rewrite !elem_of_cons; naive_solver.
Qed.

Lemma index_dirs_keys entries d : d ∈ (index_dirs entries).*1 -> d = [] \/ exists e, e ∈ entries /\ d = dir_of (ce_path e).
Proof.
  intros [->|Hd]%group_extend_keys; [by left|]. right. revert Hd.
  assert (H : forall l (m : list (str * list ConceptEntry)),
    d ∈ (fold_left (fun m e => group_extend (dir_of (ce_path e)) [e] m) l m).*1 ->
    d ∈ m.*1 \/ exists e, e ∈ l /\ d = dir_of (ce_path e)).
  { induction l as [|e l IH]; intros m Hm; simpl in Hm; [by left|].
    destruct (IH _ Hm) as [[->|?]%group_extend_keys|(e' & ? & ?)]; [right; exists e; split; [left|done]|by left|].
    right. exists e'. split; [by right|done]. }
  intros [Hd|?]%H; [by apply elem_of_nil in Hd|done].
Qed.

(** ** Prefix listings *)
Lemma like_wildcard fuel s : (length s < fuel)%nat -> like_match (S fuel) [37%N] s = true.
Proof.
  revert fuel. induction s as [|x s IH]; intros [|fuel] Hf; simpl in Hf; [lia|done|lia|].
  change (like_match (S fuel) [] (x :: s) || like_match (S fuel) [37%N] s = true).
  rewrite IH by lia. apply orb_true_r.
Qed.

Lemma like_literal fuel p s : (length p + length s < fuel)%nat ->
  like_match (S fuel) (like_escape p) s = true <->
  exists a b, s = a ++ b /\ to_ascii_lowercase <$> a = to_ascii_lowercase <$> p.
Proof.
  revert fuel s. induction p as [|c p IH]; intros fuel s Hf.
  - split; [intros _; by exists [], s|]. intros _. apply like_wildcard. simpl in Hf. lia.
  - destruct fuel as [|fuel]; [simpl in Hf; lia|].
    assert (Hstep : like_match (S (S fuel)) (like_escape (c :: p)) s =
      match s with [] => false | x :: s' => (to_ascii_lowercase c =? to_ascii_lowercase x)%N && like_match (S fuel) (like_escape p) s' end).
    { unfold like_escape. cbn [mbind list_bind]. destruct ((c =? 37) || (c =? 95) || (c =? 92))%N eqn:E.
      - by destruct s.
      - apply orb_false_iff in E as [[E1%N.eqb_neq E2%N.eqb_neq]%orb_false_iff E3%N.eqb_neq].
        cbn [app like_match]. destruct s as [|x s'].
        + repeat (case_match; try done); by subst.
        + repeat (case_match; try done); by subst. }
    rewrite Hstep. destruct s as [|x s].
    + split; [done|]. intros (a & b & Hab & Ha). symmetry in Hab. apply app_nil in Hab as [-> ->]. done.
    + rewrite andb_true_iff, N.eqb_eq, IH by (simpl in Hf; lia). split.
      * intros [Hc (a & b & -> & Ha)]. exists (x :: a), b. split; [done|]. by rewrite !fmap_cons, Ha, Hc.
      * intros ([|y a] & b & Hab & Ha); simpl in *; [done|]. injection Hab as -> ->. injection Ha as Hc Ha.
        split; [done|]. by exists a, b.
Qed.

Lemma like_escape_length p : (length p < length (like_escape p))%nat.
Proof.
  unfold like_escape. rewrite length_app. simpl. assert (H : (length p <= length (c ← p; if (c =? 37) || (c =? 95) || (c =? 92) then [92; c] else [c])%N)%nat).
  { induction p as [|c p IH]; cbn [mbind list_bind] in *; [done|]. rewrite length_app. destruct (_ || _); simpl in *; lia. }
  lia.
Qed.

Lemma like_prefix p s : like (like_escape p) s = true <-> exists a b, s = a ++ b /\ to_ascii_lowercase <$> a = to_ascii_lowercase <$> p.
Proof. apply like_literal. pose proof (like_escape_length p). lia. Qed.

Section Store.
Context {AE : Aead} {KD : Kdf} {HX : Hex} {UT : UuidText} {MJ : MetaJson} {LC : Lowercase} {NL : NaturalLog} {DJ : DocJson}.
Context {YE : Type} `{!YamlCodec YE} (rfc3339_ok : str -> bool).
Context (Hnc : no_collisions).

(** ** The abstract state of a scope *)
Section Scope.
Context (sc : ConceptScope).
#[local] Abbreviation sid := (scope_id sc).
#[local] Abbreviation files := (repo_scope sc).
#[local] Abbreviation log := (revisions_of sc).

Definition dir_ok (w : World) : Prop := exists spec, represents files (w_dir w) spec.
Definition content (w : World) (p : str) : option bytes := result_ok (read (w_dir w) p files false).
Definition row (w : World) (p : str) : option FileRow := w_files w !! (sid, p).

(** The name of an index file of a listed concept's directory fits too. *)
Definition path_fits (p : str) : Prop := meta_fits p /\ meta_fits (dir_of p ++ lit "/index.md").
Definition path_ok (p : str) : Prop := reserved_basename (path_basename p) = false /\ path_fits p.

(** The markdown of a concept of that path that passed the write guard *)
Definition stored_concept (p : str) (b : bytes) : Prop :=
  exists c md, source_path c = p /\ to_markdown c = Ok md /\ b = as_bytes md /\
    Frontmatter_validated (YamlError := YE) rfc3339_ok (frontmatter c) = Ok tt.

Record Inv (w : World) : Prop := {
  inv_dir : dir_ok w;
  inv_listed p r : row w p = Some r -> path_ok p /\ exists b, content w p = Some b /\ stored_concept p b;
  inv_revs : well_numbered (w_revs w) }.

(** The newest revisions of [p], up to [k] younger ones, hold the bytes. *)
Definition saved (p : str) (b : bytes) (k : Z) (w : World) : Prop :=
  exists op src sum now no r, row_of log p op src sum b now no r /\ 0 <= no /\
    present (rs_scope_id log) (path_token_of log p) r k (w_revs w).

Definition queue_path (p : str) : bool := starts_with QUEUE_PREFIX p.

(** What may be lost without a snapshot: nothing that is listed, the
    queue's own notes apart. *)
Definition overwritable (w : World) (p : str) : Prop :=
  queue_path p = true \/ row w p = None \/ exists b, content w p = Some b /\ saved p b 0 w.

Definition same_files (w w' : World) : Prop := forall p, content w' p = content w p.
Definition same_rows (w w' : World) : Prop := forall p, row w' p = row w p.
Definition set_file (p : str) (b : option bytes) (w w' : World) : Prop :=
  forall q, content w' q = if decide (q = p) then b else content w q.
Definition set_row (p : str) (r : option FileRow) (w w' : World) : Prop :=
  forall q, row w' q = if decide (q = p) then r else row w q.

(** The steps; the number is how many revisions are recorded, [low] a lower
    bound of the retention settings, [careful] says that no write carries
    the explicit tag [create]. *)
Inductive act (low : Z) (careful : bool) : Z -> World -> World -> Prop :=
  | a_quiet w w' : dir_ok w' -> same_files w w' -> same_rows w w' -> w_revs w' = w_revs w -> act low careful 0 w w'
  | a_write p b w w' : dir_ok w' -> set_file p (Some b) w w' -> same_rows w w' -> w_revs w' = w_revs w ->
      (careful = true -> overwritable w p) -> (row w p = None \/ stored_concept p b) -> act low careful 0 w w'
  | a_remove p w w' : dir_ok w' -> set_file p None w w' -> same_rows w w' -> w_revs w' = w_revs w ->
      row w p = None -> act low careful 0 w w'
  | a_register p r b w w' : dir_ok w' -> same_files w w' -> set_row p (Some r) w w' -> w_revs w' = w_revs w ->
      path_ok p -> content w p = Some b -> stored_concept p b -> act low careful 0 w w'
  | a_unregister p w w' : dir_ok w' -> same_files w w' -> set_row p None w w' -> w_revs w' = w_revs w ->
      (careful = true -> overwritable w p) -> act low careful 0 w w'
  | a_record p op src sum b now r ret w w' : dir_ok w' -> same_files w w' -> same_rows w w' ->
      row_of log p op src sum b now (max_no (mine log p (w_revs w)) + 1) r ->
      recorded log p ret r (w_revs w) (w_revs w') -> low <= ret -> act low careful 1 w w'.

Inductive acts (low : Z) (careful : bool) : Z -> World -> World -> Prop :=
  | acts_nil w : acts low careful 0 w w
  | acts_cons k n w w1 w2 : act low careful k w w1 -> acts low careful n w1 w2 -> acts low careful (k + n) w w2.

Lemma acts_trans low careful k n w w1 w2 :
  acts low careful k w w1 -> acts low careful n w1 w2 -> acts low careful (k + n) w w2.
Proof.
  induction 1 as [|k m w w1 w3 Ha _ IH]; intros H2; [done|]. rewrite <- Z.add_assoc. by eapply acts_cons, IH.
Qed.

Lemma acts_one low careful k w w' : act low careful k w w' -> acts low careful k w w'.
Proof. intros H. rewrite <- (Z.add_0_r k). eapply acts_cons; [exact H|apply acts_nil]. Qed.

(** ** What the steps keep *)
Lemma act_inv low careful k w w' : act low careful k w w' -> Inv w -> Inv w'.
Proof.
  destruct 1 as [w w' Hd Hf Hr Hv|p b w w' Hd Hf Hr Hv _ Hst|p w w' Hd Hf Hr Hv Hun|p r b w w' Hd Hf Hr Hv Hp Hc Hst
    |p w w' Hd Hf Hr Hv _|p op src sum b now r ret w w' Hd Hf Hr Hrow Hrec Hret];
    intros [_ HL HR]; (split; [done| |first [by rewrite Hv|by eapply recorded_well_numbered]]); intros q rq; rewrite Hr.
  - intros Hq. rewrite Hf. by eapply HL.
  - intros Hq. destruct (HL _ _ Hq) as (Hok & b' & Hb' & Hs'). split; [done|]. rewrite Hf.
    destruct (decide (q = p)) as [->|]; [|by exists b']. exists b. split; [done|]. destruct Hst; [congruence|done].
  - intros Hq. rewrite Hf. rewrite decide_False by congruence. by eapply HL.
  - rewrite Hf. destruct (decide (q = p)) as [->|]; [intros _; split; [done|by exists b]|by apply HL].
  - rewrite Hf. destruct (decide (q = p)) as [->|]; [done|by apply HL].
  - intros Hq. rewrite Hf. by eapply HL.
Qed.

Lemma acts_inv low careful k w w' : acts low careful k w w' -> Inv w -> Inv w'.
Proof. induction 1 as [|k n w w1 w2 Ha _ IH]; [done|]. intros H. by eapply IH, act_inv. Qed.

(** A snapshot stays while fewer than the retention bound are added. *)
Lemma saved_mono p b k k' w : k <= k' -> saved p b k w -> saved p b k' w.
Proof.
  intros Hk (op & src & sum & now & no & r & Hr & Hno & pre & post & Hc & Hl).
  exists op, src, sum, now, no, r. split_and!; [done|done|]. exists pre, post. split; [done|lia].
Qed.

Lemma saved_same p b k w w' : w_revs w' = w_revs w -> saved p b k w -> saved p b k w'.
Proof. intros E. unfold saved. by rewrite E. Qed.

Lemma saved_record p b k op src sum b' now r q ret w w' :
  row_of log q op src sum b' now (max_no (mine log q (w_revs w)) + 1) r ->
  recorded log q ret r (w_revs w) (w_revs w') -> k + 1 < ret -> saved p b k w -> saved p b (k + 1) w'.
Proof.
  intros Hr Hrec Hlt (op' & src' & sum' & now' & no & rp & Hrp & Hno & Hpr).
  exists op', src', sum', now', no, rp. split_and!; [done|done|].
  pose proof (present_record _ _ _ _ _ _ _ _ _ _ Hrec Hpr Hlt) as H.
  destruct (decide _); [done|]. destruct H as (pre & post & Hc & Hl). exists pre, post. split; [done|lia].
Qed.

Definition Undo (p : str) (b : bytes) (k : Z) (w : World) : Prop :=
  (row w p <> None /\ content w p = Some b) \/ saved p b k w.

Lemma act_undo low n w w' p b k : act low true n w w' -> queue_path p = false -> 0 <= k -> k + n < low ->
  Undo p b k w -> Undo p b (k + n) w'.
Proof.
  destruct 1 as [w w' Hd Hf Hr Hv|q b' w w' Hd Hf Hr Hv Ho _|q w w' Hd Hf Hr Hv Hun|q r b' w w' Hd Hf Hr Hv Hp Hc Hst
    |q w w' Hd Hf Hr Hv Ho|q op src sum b' now r ret w w' Hd Hf Hr Hrow Hrec Hret]; intros Hq Hk Hlow; rewrite ?Z.add_0_r;
    intros [[Hreg Hcont]|Hs]; try (by right; eapply saved_same); unfold Undo.
  - left. by rewrite Hr, Hf.
  - rewrite Hr, Hf. destruct (decide (p = q)) as [<-|]; [|by left].
    destruct (Ho eq_refl) as [?|[?|(c & Hc & Hs)]]; [congruence|done|].
    right. assert (c = b) as -> by congruence. by eapply saved_same, saved_mono.
  - rewrite Hr, Hf. rewrite decide_False by congruence. by left.
  - rewrite Hr, Hf. destruct (decide (p = q)); [|by left]. by left.
  - rewrite Hr, Hf. destruct (decide (p = q)) as [<-|]; [|by left].
    destruct (Ho eq_refl) as [?|[?|(c & Hc & Hs)]]; [congruence|done|].
    right. assert (c = b) as -> by congruence. by eapply saved_same, saved_mono.
  - left. by rewrite Hr, Hf.
  - right. eapply saved_record; [done|done|lia|done].
Qed.

Lemma acts_nonneg low careful n w w' : acts low careful n w w' -> 0 <= n.
Proof. induction 1 as [|k n w w1 w2 Ha _ IH]; [done|]. destruct Ha; lia. Qed.

Lemma acts_undo low n w w' p b k : acts low true n w w' -> queue_path p = false -> 0 <= k -> k + n < low ->
  Undo p b k w -> Undo p b (k + n) w'.
Proof.
  intros H Hq. revert k. induction H as [w|k' n w w1 w2 Ha Has IH]; intros k Hk Hlow; [by rewrite Z.add_0_r|].
  pose proof (acts_nonneg _ _ _ _ _ Has). assert (0 <= k') by (destruct Ha; lia). intros HU. rewrite Z.add_assoc.
  apply IH; [lia|lia|]. eapply act_undo; [done|done|done|lia|done].
Qed.

(** A snapshot in the log is what reading its number gives. *)
Lemma saved_readable p b k w : well_numbered (w_revs w) -> Forall (fun v => v_no v < 9223372036854775808) (w_revs w) ->
  saved p b k w -> exists n, get_revision log (w_revs w) p n false = Ok b.
Proof.
  intros Hw Hb (op & src & sum & now & no & r & Hr & Hno & Hp). exists no.
  eapply get_present; [done|done| |done]. split; [done|].
  destruct Hp as (pre & post & Hc & _). rewrite Forall_forall in Hb.
  assert (Hin : r ∈ w_revs w).
  { assert (r ∈ chain (rs_scope_id log) (path_token_of log p) (w_revs w)) as H by (rewrite Hc; apply elem_of_app; right; left).
    apply list_elem_of_In, List.filter_In in H as [H _]. by apply list_elem_of_In. }
  destruct Hr as (sealed & -> & _). exact (Hb _ Hin).
Qed.

(** ** Directories *)
Lemma represents_content w p spec : represents files (w_dir w) spec -> starts_with (lit "/") p = true -> content w p = spec !! p.
Proof. intros HR Hp. unfold content. rewrite (represents_read _ _ _ _ HR Hp). by destruct (spec !! p). Qed.

Lemma content_invalid w p : starts_with (lit "/") p = false -> content w p = None.
Proof.
  intros Hp. unfold content, read. destruct (validate p) as [[]|e] eqn:E; [|done].
  apply validate_Ok in E. congruence.
Qed.

(** A file operation that fails leaves the contents; one that succeeds sets
    its own. *)
Lemma file_op_content (o : FileOp) (p : str) (w w' : World) r : file_op_ok o -> dir_ok w ->
  file_op files (w_dir w) o = (r, w_dir w') ->
  dir_ok w' /\
  match r, o with
  | Err _, _ => same_files w w'
  | Ok _, OpWrite p plain _ _ _ _ => set_file p (Some plain) w w'
  | Ok _, OpRemove p _ => set_file p None w w'
  end.
Proof.
  intros Hok [spec HR] Hop. pose proof (represents_step _ _ _ _ _ _ Hnc Hok HR Hop) as HR'.
  split; [by eexists|].
  assert (H : forall q, content w' q = if starts_with (lit "/") q then spec_op spec o r !! q else None).
  { intros q. destruct (starts_with (lit "/") q) eqn:E; [by apply represents_content|by apply content_invalid]. }
  assert (H0 : forall q, content w q = if starts_with (lit "/") q then spec !! q else None).
  { intros q. destruct (starts_with (lit "/") q) eqn:E; [by apply represents_content|by apply content_invalid]. }
  destruct r as [[]|e]; [|intros q; by rewrite H, H0].
  destruct o as [q plain n1 n2 uuid fault|q fails]; simpl in Hop, H; intros q'; rewrite H, H0; case_decide as Hq; subst.
  - destruct (write_cases _ _ _ _ _ _ _ _ _ _ Hop) as [(e & [=] & _)|(outer & _ & _ & Hp & _)].
    rewrite Hp. apply lookup_insert_eq.
  - by rewrite lookup_insert_ne by done.
  - by rewrite lookup_delete_eq; destruct (starts_with _ _).
  - by rewrite lookup_delete_ne by done.
Qed.

(** ** Programs *)
Context (cs : ConceptStore) (low : Z) (careful : bool).
Context (Hsc : cs_scope cs = sc) (Hlow : 1 <= low).
Context (Hroot : meta_fits (lit "/index.md")).

Record env_ok (env : Env) : Prop := {
  eo_nonce k i : length (en_nonce env k i) = NONCE_LEN;
  eo_attempt k i : length (at_nonce (en_attempt env k i)) = NONCE_LEN;
  eo_retention k : low <= en_retention env k }.

(** Run from a good state with [P], the program makes steps, records at
    most [n] revisions and, when it succeeds, gives [Q]. *)
Definition does {A} (P : World -> Prop) (n : Z) (m : M (ConceptStoreError YE) A) (Q : A -> World -> Prop) : Prop :=
  forall env w r w', env_ok env -> Inv w -> P w -> m env w = (r, w') ->
    exists k, k <= n /\ acts low careful k w w' /\ match r with Ok a => Q a w' | Err _ => True end.

Lemma does_bind {A B} P n1 n2 (m : M _ A) (f : A -> M _ B) Q Q' :
  does P n1 m Q -> (forall a, does (fun w => Q a w) n2 (f a) Q') -> 0 <= n2 -> does P (n1 + n2) (m ≫= f) Q'.
Proof.
  intros Hm Hf Hn env w r w' He HI HP Hrun. unfold mbind, M_bind in Hrun.
  destruct (m env w) as [[a|e] w1] eqn:Em; destruct (Hm _ _ _ _ He HI HP Em) as (k & Hk & Ha & HQ).
  - destruct (Hf a _ _ _ _ He (acts_inv _ _ _ _ _ Ha HI) HQ Hrun) as (k' & Hk' & Ha' & HQ').
    exists (k + k'). split_and!; [lia|by eapply acts_trans|done].
  - injection Hrun as <- <-. exists k. split_and!; [lia|done|done].
Qed.

Lemma does_weaken {A} (P P' : World -> Prop) n n' (m : M _ A) (Q Q' : A -> World -> Prop) :
  does P n m Q -> (forall w, Inv w -> P' w -> P w) -> n <= n' -> (forall a w, Inv w -> Q a w -> Q' a w) -> does P' n' m Q'.
Proof.
  intros Hm HP Hn HQ env w r w' He HI HP' Hrun. destruct (Hm _ _ _ _ He HI (HP _ HI HP') Hrun) as (k & Hk & Ha & Hr).
  exists k. split_and!; [lia|done|]. destruct r; [|done]. apply HQ; [by eapply acts_inv|done].
Qed.

Lemma does_ret {A} (P : World -> Prop) (a : A) (Q : A -> World -> Prop) : (forall w, Inv w -> P w -> Q a w) -> does P 0 (mret a) Q.
Proof. intros H env w r w' He HI HP [= <- <-]. exists 0. split_and!; [done|apply acts_nil|by apply H]. Qed.

Lemma does_fail {A} (P : World -> Prop) n e (Q : A -> World -> Prop) : 0 <= n -> does P n (fail e) Q.
Proof. intros Hn env w r w' He HI HP [= <- <-]. exists 0. split_and!; [done|apply acts_nil|done]. Qed.

Lemma does_result {A} (P : World -> Prop) (x : result A _) : does P 0 (of_result x) (fun a w => P w /\ x = Ok a).
Proof. intros env w r w' He HI HP [= <- <-]. exists 0. split_and!; [done|apply acts_nil|by destruct x]. Qed.

Lemma does_result_map {A E} (P : World -> Prop) (g : E -> ConceptStoreError YE) (x : result A E) :
  does P 0 (of_result (result_map_err g x)) (fun a w => P w /\ x = Ok a).
Proof. intros env w r w' He HI HP [= <- <-]. exists 0. split_and!; [done|apply acts_nil|by destruct x]. Qed.

Lemma does_pure {A} (P : World -> Prop) (X : Prop) n (m : M _ A) (Q : A -> World -> Prop) :
  (X -> does P n m Q) -> does (fun w => P w /\ X) n m Q.
Proof. intros H env w r w' He HI [HP X0]. by apply H. Qed.

(** An access that leaves files, listing and log alone *)
Definition core_eq (w w' : World) : Prop := w_dir w' = w_dir w /\ w_files w' = w_files w /\ w_revs w' = w_revs w.
Definition stable (P : World -> Prop) : Prop := forall w w', core_eq w w' -> P w -> P w'.

Lemma core_quiet w w' : core_eq w w' -> Inv w -> act low careful 0 w w'.
Proof.
  intros (Hd & Hf & Hv) [Hdir _ _]. apply a_quiet; [|intros p|intros p|done].
  - unfold dir_ok. by rewrite Hd.
  - unfold content. by rewrite Hd.
  - unfold row. by rewrite Hf.
Qed.

Lemma does_quiet {A} (P : World -> Prop) (m : M _ A) (Q : A -> World -> Prop) :
  (forall env w r w', m env w = (r, w') -> core_eq w w' /\ (stable P -> P w -> Inv w -> match r with Ok a => Q a w' | Err _ => True end)) ->
  stable P -> does P 0 m Q.
Proof.
  intros Hm Hs env w r w' He HI HP Hrun. destruct (Hm _ _ _ _ Hrun) as [Hc HQ].
  exists 0. split_and!; [done|by apply acts_one, core_quiet|by apply HQ].
Qed.

Lemma does_for_each {A} (P : World -> Prop) n (f : A -> M _ unit) (l : list A) : 0 <= n ->
  (forall x, x ∈ l -> does P n (f x) (fun _ => P)) -> does P (n * Z.of_nat (length l)) (for_each f l) (fun _ => P).
Proof.
  intros Hn. induction l as [|x l IH]; intros H; simpl.
  - apply (does_weaken P P 0 _ _ (fun _ => P) (fun _ => P)); [by apply does_ret|done|lia|done].
  - apply (does_weaken P P (n + n * Z.of_nat (length l)) _ _ (fun _ => P) (fun _ => P)); [|done|lia|done].
    apply (does_bind P n _ _ _ (fun _ => P)); [apply H; left| |lia].
    intros _. apply IH. intros y Hy. apply H. by right.
Qed.

(** ** The accesses *)
Lemma does_read P p : stable P -> does P 0 (repo_read cs p) (fun r w => P w /\ forall b, r = Ok b -> content w p = Some b).
Proof.
  intros Hs. apply does_quiet; [|done]. intros env w r w' [= <- <-]. split; [by repeat split|].
  intros _ HP HI. split; [by apply (Hs w)|]. intros b Hr. simpl in Hr. unfold content. cbn [w_dir with_tick]. rewrite <- Hsc.
  destruct (en_fails env (w_tick w)); [|by rewrite Hr]. unfold read in Hr. by destruct (validate p).
Qed.

Lemma does_read_absent P p : stable P ->
  does P 0 (repo_read cs p) (fun r w => P w /\ (forall b, r = Ok b -> content w p = Some b) /\ (r = Err (FIo NotFound) -> row w p = None)).
Proof.
  intros Hs env w r w' He HI HP Hrun. destruct (does_read P p Hs env w r w' He HI HP Hrun) as (k & Hk & Ha & Hq).
  exists k. split_and!; [done|done|]. injection Hrun as <- <-. destruct Hq as [HP' Hb]. split_and!; [done|done|].
  intros Hnf. destruct (row w p) as [rr|] eqn:Er; [exfalso|exact Er].
  destruct (inv_listed _ HI _ _ Er) as (_ & b & Hc & _). unfold content in Hc. rewrite <- Hsc in Hc.
  destruct (en_fails env (w_tick w)); [|by rewrite Hnf in Hc].
  unfold read in Hnf. destruct (validate p) as [[]|e] eqn:Ev; [done|]. unfold validate in Ev.
  destruct (_ || _); [injection Ev as <-; done|done].
Qed.

Lemma does_registered P p : stable P -> does P 0 (registered cs p) (fun b w => P w /\ (b = false -> row w p = None)).
Proof.
  intros Hs. apply does_quiet; [|done]. intros env w r w' [= <- <-]. split; [by repeat split|].
  intros _ HP HI. destruct (en_fails env (w_tick w)); [done|]. split; [by apply (Hs w)|].
  intros H%bool_decide_eq_false. rewrite Hsc in H. unfold row. cbn [w_files with_tick].
  destruct (w_files w !! _); [|done]. exfalso. by apply H.
Qed.

Lemma does_list P : stable P ->
  does P 0 (list_concepts cs) (fun l w => P w /\ forall e, e ∈ l -> is_Some (row w (ce_path e))).
Proof.
  intros Hs. apply does_quiet; [|done]. intros env w r w' [= <- <-]. split; [by repeat split|].
  intros _ HP HI. destruct (en_fails env (w_tick w)); [done|]. split; [by apply (Hs w)|].
  intros e He. unfold scope_rows in He. rewrite sort_by_perm in He. apply list_elem_of_omap in He as ([[s q] fr] & Hin & Hf).
  simpl in Hf. rewrite Hsc in Hf. destruct (str_eqb s sid) eqn:E; [|done]. apply str_eqb_eq in E as ->. injection Hf as <-.
  apply elem_of_map_to_list in Hin. exists fr. exact Hin.
Qed.

Lemma does_clock P : stable P -> does P 0 (access (fun env k w => (Ok (en_now env k), w)) : M _ str) (fun _ w => P w).
Proof. intros Hs. apply does_quiet; [|done]. intros env w r w' [= <- <-]. split; [by repeat split|]. intros _ HP _. by apply (Hs w). Qed.

Lemma does_index P c : stable P -> does P 0 (index_concept cs c) (fun _ w => P w).
Proof.
  intros Hs. apply does_quiet; [|done]. intros env w r w'. unfold index_concept, access. destruct (index_add _ _ _ _ _) as [x docs].
  intros [= <- <-]. split; [by repeat split|]. intros _ HP _. destruct x; [|done]. by apply (Hs w).
Qed.

Lemma does_unindex P p : stable P -> does P 0 (unindex cs p) (fun _ w => P w).
Proof.
  intros Hs. apply does_quiet; [|done]. intros env w r w'. unfold unindex, access. destruct (index_remove _ _ _ _) as [x docs].
  intros [= <- <-]. split; [by repeat split|]. intros _ HP _. destruct x; [|done]. by apply (Hs w).
Qed.

Lemma does_remove_vector P p : stable P -> does P 0 (remove_vector cs p) (fun _ w => P w).
Proof.
  intros Hs. apply does_quiet; [|done]. intros env w r w'. unfold remove_vector, access. destruct (Vectors.remove_row _ _ _ _) as [x v].
  intros [= <- <-]. split; [by repeat split|]. intros _ HP _. destruct x; [|done]. by apply (Hs w).
Qed.

Lemma does_enqueue P p : stable P -> does P 0 (enqueue_embed cs p) (fun _ w => P w).
Proof. intros Hs. apply does_quiet; [|done]. intros env w r w' [= <- <-]. split; [by repeat split|]. intros _ HP _. by apply (Hs w). Qed.

Lemma does_invalidate P : stable P -> does P 0 (invalidate cs) (fun _ w => P w).
Proof. intros Hs. apply does_quiet; [|done]. intros env w r w' [= <- <-]. split; [by repeat split|]. intros _ HP _. by apply (Hs w). Qed.

Lemma does_snapshot P p n : stable P ->
  does P 0 (get_snapshot cs p n) (fun b w => P w /\ get_revision log (w_revs w) p n false = Ok b).
Proof.
  intros Hs. apply does_quiet; [|done]. intros env w r w' [= <- <-]. split; [by repeat split|].
  intros _ HP _. cbn [w_revs with_tick]. rewrite Hsc. destruct (en_fails env (w_tick w)).
  - destruct (result_map_err _ _) as [b|] eqn:E; [|done]. unfold get_revision in E. done.
  - destruct (get_revision _ _ _ _ _); simpl; [|done]. split; [by apply (Hs w)|done].
Qed.

(** The post-conditions of the accesses that change the state relate it to
    the state before. *)
Lemma does_write (P : World -> Prop) p b : meta_fits p ->
  (forall w, Inv w -> P w -> (careful = true -> overwritable w p) /\ (row w p = None \/ stored_concept p b)) ->
  does P 0 (repo_write cs p b)
    (fun _ w' => exists w, P w /\ set_file p (Some b) w w' /\ same_rows w w' /\ w_revs w' = w_revs w).
Proof.
  intros Hfit HP env w r w' He HI Hw. unfold repo_write, access.
  destruct (write _ _ _ _ _ _ _ _) as [x d] eqn:E. intros [= <- <-]. rewrite Hsc in E.
  destruct (HP w HI Hw) as [Hov Hst]. set (w' := with_dir d (with_tick (S (w_tick w)) w)).
  destruct (file_op_content (OpWrite p b (en_nonce env (w_tick w) 0%nat) (en_nonce env (w_tick w) 1%nat)
    (en_uuid env (w_tick w)) (en_write env (w_tick w))) p w w' x) as [Hd Hc].
  { split_and!; [done|apply (eo_nonce _ He)..]. }
  { apply HI. }
  { exact E. }
  exists 0. split; [done|]. destruct x as [[]|e]; simpl.
  - split; [|by exists w]. apply acts_one. by eapply a_write.
  - split; [|done]. by apply acts_one, a_quiet.
Qed.

Lemma does_delete_file (P : World -> Prop) p : (forall w, Inv w -> P w -> row w p = None) ->
  does P 0 (repo_delete cs p)
    (fun _ w' => exists w, P w /\ set_file p None w w' /\ same_rows w w' /\ w_revs w' = w_revs w).
Proof.
  intros HP env w r w' He HI Hw. unfold repo_delete, access.
  destruct (remove _ _ _ _) as [x d] eqn:E. intros [= <- <-]. rewrite Hsc in E.
  pose proof (HP w HI Hw) as Hun. set (w' := with_dir d (with_tick (S (w_tick w)) w)).
  destruct (file_op_content (OpRemove p (en_fails env (w_tick w))) p w w' x) as [Hd Hc]; [done|apply HI|exact E|].
  exists 0. split; [done|]. destruct x as [[]|e]; simpl.
  - split; [apply acts_one; by eapply a_remove|]. by exists w.
  - split; [|done]. by apply acts_one, a_quiet.
Qed.

Lemma does_record (P : World -> Prop) p op src sum b :
  (forall w, Inv w -> P w -> careful = true -> row w p = None \/ content w p = Some b) ->
  does P 1 (record_revision cs p op src sum b)
    (fun _ w' => exists w, P w /\ same_files w w' /\ same_rows w w' /\ saved p b 0 w' /\ (careful = true -> overwritable w' p)).
Proof.
  intros HP env w r w' He HI Hw. unfold record_revision, access.
  destruct (record_as _ _ _ _ _ _ _ _ _) as [x l] eqn:E. intros [= <- <-]. rewrite Hsc in E.
  destruct (record_as_cases _ _ _ _ _ _ _ _ _ _ _ (inv_revs _ HI) (eo_attempt _ He (w_tick w) 0%nat) E)
    as [(e & -> & ->)|(rr & -> & _ & Hrow & Hrec)].
  { exists 0. split_and!; [lia| |done]. apply acts_one, core_quiet; [by repeat split|done]. }
  exists 1. split; [lia|]. split.
  - apply acts_one. eapply (a_record low careful p _ _ _ _ _ _ (en_retention env (w_tick w))); try done; [apply HI|].
    apply (eo_retention _ He).
  - set (w' := with_revs l (with_tick (S (w_tick w)) w)). assert (Hs : saved p b 0 w').
    { exists op, src, sum, (at_now (en_attempt env (w_tick w) 0%nat)), (max_no (mine log p (w_revs w)) + 1), rr.
      split_and!; [done|pose proof (max_no_nonneg log p (w_revs w) (inv_revs _ HI)); lia|].
      eapply (recorded_present _ _ (en_retention env (w_tick w))); [|exact Hrec].
      pose proof (eo_retention _ He (w_tick w)). lia. }
    exists w. split_and!; [done|done|done|done|]. intros Hcareful. right.
    destruct (HP w HI Hw Hcareful) as [?|Hc]; [by left|right]. by exists b.
Qed.

Lemma does_register (P : World -> Prop) p title ty now : path_ok p ->
  (forall w, Inv w -> P w -> exists b, content w p = Some b /\ stored_concept p b) ->
  does P 0 (register cs p title ty now)
    (fun _ w' => exists w, P w /\ same_files w w' /\ set_row p (Some (mkFileRow title ty now)) w w' /\ w_revs w' = w_revs w).
Proof.
  intros Hp HP env w r w' He HI Hw. unfold register, access. destruct (HP w HI Hw) as (b & Hc & Hst).
  destruct (en_fails env (w_tick w)); intros [= <- <-]; exists 0; (split; [done|]).
  { split; [|done]. by apply acts_one, core_quiet; [by repeat split|]. }
  set (w' := with_files _ _). assert (Hset : set_row p (Some (mkFileRow title ty now)) w w').
  { intros q. unfold row, w'. cbn [w_files with_files with_tick]. rewrite Hsc. case_decide as E.
    - subst. apply lookup_insert_eq.
    - rewrite lookup_insert_ne; [done|]. intros [=]. by subst. }
  split; [|by exists w]. apply acts_one. eapply (a_register low careful p _ b); try done. apply HI.
Qed.

Lemma does_unregister (P : World -> Prop) p : (forall w, Inv w -> P w -> careful = true -> overwritable w p) ->
  does P 0 (unregister cs p)
    (fun _ w' => exists w, P w /\ same_files w w' /\ set_row p None w w' /\ w_revs w' = w_revs w).
Proof.
  intros HP env w r w' He HI Hw. unfold unregister, access. pose proof (HP w HI Hw) as Ho.
  destruct (en_fails env (w_tick w)); intros [= <- <-]; exists 0; (split; [done|]).
  { split; [|done]. by apply acts_one, core_quiet; [by repeat split|]. }
  set (w' := with_files _ _). assert (Hset : set_row p None w w').
  { intros q. unfold row, w'. cbn [w_files with_files with_tick]. rewrite Hsc. case_decide as E.
    - subst. apply lookup_delete_eq.
    - rewrite lookup_delete_ne; [done|]. intros [=]. by subst. }
  split; [|by exists w]. apply acts_one. eapply (a_unregister low careful p); try done. apply HI.
Qed.

(** ** The programs *)
Ltac stability := intros ? ? (Ed & Ef & Ev); unfold overwritable, saved, content, row; rewrite ?Ed, ?Ef, ?Ev; done.

Lemma stable_pure (X : Prop) : stable (fun _ => X).
Proof. by intros ? ? _. Qed.
Lemma stable_content p b : stable (fun w => content w p = Some b).
Proof. stability. Qed.
Lemma stable_overwritable p : stable (fun w => careful = true -> overwritable w p).
Proof. stability. Qed.
Lemma stable_row p r : stable (fun w => row w p = r).
Proof. stability. Qed.
#[local] Hint Resolve stable_pure stable_content stable_overwritable stable_row : core.

Lemma reserved_unlisted w p : Inv w -> reserved_basename (path_basename p) = true -> row w p = None.
Proof.
  intros HI Hp. destruct (row w p) as [r|] eqn:E; [|done]. destruct (inv_listed _ HI _ _ E) as [[Hp' _] _]. congruence.
Qed.

(** What only the index files, or only a path and the index files, change *)
Definition index_only (w w' : World) : Prop :=
  forall q, reserved_basename (path_basename q) = false -> content w' q = content w q /\ row w' q = row w q.
Definition only_at (p : str) (w w' : World) : Prop :=
  forall q, q <> p -> reserved_basename (path_basename q) = false -> content w' q = content w q /\ row w' q = row w q.

Lemma only_at_trans p w1 w2 w3 : only_at p w1 w2 -> only_at p w2 w3 -> only_at p w1 w3.
Proof. intros H1 H2 q Hq Hr. destruct (H1 q Hq Hr), (H2 q Hq Hr). split; congruence. Qed.
Lemma only_at_same p w w' : same_files w w' -> same_rows w w' -> only_at p w w'.
Proof. intros H1 H2 q _ _. by split. Qed.
Lemma only_at_file p b w w' : set_file p b w w' -> same_rows w w' -> only_at p w w'.
Proof. intros H1 H2 q Hq _. rewrite H1, decide_False by done. by split. Qed.
Lemma only_at_row p r w w' : same_files w w' -> set_row p r w w' -> only_at p w w'.
Proof. intros H1 H2 q Hq _. rewrite H2, decide_False by done. by split. Qed.
Lemma stable_only_at p w0 : stable (only_at p w0).
Proof. unfold only_at. stability. Qed.
#[local] Hint Resolve stable_only_at : core.

(** Regenerating the index files keeps what does not depend on them. *)
Lemma does_regen (F : World -> Prop) : stable F ->
  (forall w w', index_only w w' -> w_revs w' = w_revs w -> F w -> F w') -> does F 0 (regen_index_md cs) (fun _ => F).
Proof.
  intros HsF HF. apply (does_bind _ 0 0 _ _ (fun l w => F w /\ forall e, e ∈ l -> path_fits (ce_path e))); [| |done].
  - eapply does_weaken; [by apply (does_list F)|done|done|].
    intros l w HI [? Hl]. split; [done|]. intros e [r Hr]%Hl. by destruct (inv_listed _ HI _ _ Hr) as [[_ ?] _].
  - intros entries. apply does_pure. intros Hfit. set (dirs := index_dirs entries).
    apply (does_weaken F F (0 * Z.of_nat (length dirs)) 0 _ (fun _ => F) (fun _ => F)); [|done|lia|done].
    apply (does_for_each F); [done|]. intros d Hd.
    assert (Hd1 : d.1 ∈ dirs.*1) by by apply list_elem_of_fmap_2.
    eapply does_weaken; [apply does_write with (P := F)|done|done|].
    + apply index_dirs_keys in Hd1 as [->|(e & Hin & ->)]; [done|]. by apply Hfit.
    + intros w HI _. pose proof (reserved_unlisted w _ HI (index_path_reserved d.1)) as Hun.
      split; [intros _; right; by left|by left].
    + intros _ w' _ (w & HFw & Hset & Hrows & Hrevs). eapply HF; [|exact Hrevs|exact HFw].
      intros q Hq. rewrite Hset, Hrows, decide_False; [done|]. intros ->. by rewrite index_path_reserved in Hq.
Qed.

(** A concept that passed the guards *)
Definition guarded (c : Concept) : Prop :=
  path_ok (source_path c) /\ Frontmatter_validated (YamlError := YE) rfc3339_ok (frontmatter c) = Ok tt.

(** The payload of a revision is what the file holds, if the path is
    listed. *)
Definition payload_ok (p : str) (x : str * bytes) (w : World) : Prop :=
  careful = true -> row w p = None \/ content w p = Some x.2.
Lemma stable_payload p x : stable (payload_ok p x).
Proof. unfold payload_ok. stability. Qed.
#[local] Hint Resolve stable_payload : core.

Lemma does_pre_state F p op absent : stable F -> does F 0 (pre_state cs p op absent) (fun x w => F w /\ payload_ok p x w).
Proof.
  intros HF. apply (does_bind _ 0 0 _ _ (fun r w => F w /\ (forall b, r = Ok b -> content w p = Some b) /\ (r = Err (FIo NotFound) -> row w p = None)));
    [by apply does_read_absent| |done].
  intros [pre|[[]| | | |]]; try (by apply does_fail); apply does_ret.
  - intros w _ (? & H & _). split; [done|]. intros _. right. by apply H.
  - intros w _ (? & _ & H). split; [done|]. intros _. left. by apply H.
Qed.

Lemma does_op_payload F tag p md : stable F -> (careful = true -> tag <> Some (lit "create")) ->
  does F 0 (revision_op_and_payload cs tag p md) (fun x w => F w /\ payload_ok p x w).
Proof.
  intros HF Ht. unfold revision_op_and_payload. destruct tag as [tag|].
  - destruct (str_eqb tag (lit "create")) eqn:E; [|by apply does_pre_state].
    apply does_ret. intros w _ ?. split; [done|]. intros Hc. exfalso. apply str_eqb_eq in E as ->. by apply (Ht Hc).
  - apply (does_bind _ 0 0 _ _ (fun b w => F w /\ (b = false -> row w p = None))); [by apply does_registered| |done].
    intros []; simpl; [|apply does_ret; intros w _ [? H]; split; [done|intros _; left; by apply H]].
    eapply does_weaken; [by apply (does_pre_state F)|by intros ? _ [? _]|done|done].
Qed.

(** The file holds the concept and the listing shows it. *)
Definition holds (c : Concept) (w : World) : Prop := exists md r, to_markdown c = Ok md /\
  content w (source_path c) = Some (as_bytes md) /\ row w (source_path c) = Some r /\
  fr_title r = title_or_path c /\ fr_concept_type r = concept_type (frontmatter c).
Lemma stable_holds c : stable (holds c).
Proof. unfold holds. stability. Qed.
#[local] Hint Resolve stable_holds : core.

Definition local_to (p : str) (F : World -> Prop) : Prop := forall w w', only_at p w w' -> F w -> F w'.
Lemma local_stable p F : local_to p F -> stable F.
Proof. intros H w w' Hc. apply H. intros q _ _. destruct Hc as (Hd & Hf & _). unfold content, row. by rewrite Hd, Hf. Qed.

Lemma stable_and (P P' : World -> Prop) : stable P -> stable P' -> stable (fun w => P w /\ P' w).
Proof. intros H H' w w' Hc [? ?]. split; [by eapply H|by eapply H']. Qed.
#[local] Hint Resolve stable_and local_stable : core.

Lemma does_put_one tag sum c F : (careful = true -> tag <> Some (lit "create")) -> guarded c ->
  local_to (source_path c) F ->
  does F 1 (put_one cs tag sum c) (fun _ w => F w /\ holds c w).
Proof.
  intros Ht [Hp Hv] HF. pose proof (local_stable _ _ HF) as HsF. set (p := source_path c) in *. unfold put_one. fold p.
  apply (does_bind _ 0 1 _ _ (fun md w => F w /\ to_markdown c = Ok md)); [apply does_result_map| |done].
  intros md. apply does_pure. intros Hmd.
  assert (Hst : stored_concept p (as_bytes md)) by by exists c, md.
  apply (does_bind _ 1 0 _ _ (fun _ w => F w /\ (careful = true -> overwritable w p))); [| |done].
  { destruct (starts_with QUEUE_PREFIX p) eqn:Eq.
    - apply (does_weaken F _ 0 _ _ (fun _ w => F w /\ (careful = true -> overwritable w p)) _); [|done|lia|done].
      apply does_ret. intros w _ ?. split; [done|]. intros _. by left.
    - apply (does_bind _ 0 1 _ _ (fun x w => F w /\ payload_ok p x w)); [by apply does_op_payload| |done]. intros [op payload].
      apply (does_bind _ 0 1 _ _ (fun _ w => F w /\ payload_ok p (op, payload) w)); [| |done].
      + destruct sum; [by apply does_ret|].
        eapply does_weaken; [apply does_result_map|intros w _ H; exact H|done|]. by intros ? ? _ [? _].
      + intros summary. eapply does_weaken; [apply does_record with (P := fun w => F w /\ payload_ok p (op, payload) w)|done|done|].
        * intros w _ [_ H]. exact H.
        * intros _ w' _ (w & [HFw _] & Hfl & Hrw & _ & Ho). split; [|done]. eapply HF; [|exact HFw]. by apply only_at_same. }
  intros _. apply (does_bind _ 0 0 _ _ (fun _ w => F w /\ content w p = Some (as_bytes md))); [| |done].
  { eapply does_weaken; [apply does_write with (P := fun w => F w /\ (careful = true -> overwritable w p))|done|done|].
    - apply Hp.
    - intros w _ [_ H]. split; [exact H|by right].
    - intros _ w' _ (w & [HFw _] & Hset & Hrw & _). split; [|by rewrite Hset, decide_True].
      eapply HF; [|exact HFw]. by eapply only_at_file. }
  intros _. apply (does_bind _ 0 0 _ _ (fun _ w => F w /\ content w p = Some (as_bytes md))); [by apply does_clock; auto| |done].
  intros now. apply (does_bind _ 0 0 _ _ (fun _ w => F w /\ holds c w)); [| |done].
  { eapply does_weaken; [apply does_register with (P := fun w => F w /\ content w p = Some (as_bytes md))|done|done|].
    - done.
    - intros w _ [_ H]. by exists (as_bytes md).
    - intros _ w' _ (w & [HFw Hc] & Hfl & Hrw & _). split; [eapply HF; [|exact HFw]; by eapply only_at_row|].
      eexists md, _. fold p. rewrite Hfl, Hrw, decide_True by done. by split_and!. }
  intros _. apply (does_bind _ 0 0 _ _ (fun _ w => F w /\ holds c w)); [by apply does_index; auto| |done].
  intros _. by apply does_enqueue; auto.
Qed.

(** The guards: what is put is a stamped copy of what was given. *)
Definition stamped_from (c c' : Concept) : Prop := exists now, c' = stamp cs now c /\ guarded c'.

Lemma does_stamp F c : stable F -> path_fits (source_path c) ->
  does F 0 (stamp_one rfc3339_ok cs c) (fun c' w => F w /\ stamped_from c c').
Proof.
  intros HsF Hf. apply does_quiet; [|done]. intros env w r w' [= <- <-]. split; [by repeat split|]. intros _ HF _.
  destruct (reserved_basename _) eqn:E; [done|]. destruct (Frontmatter_validated _ _) as [[]|] eqn:Ev; [|done].
  split; [by apply (HsF w)|]. eexists. split; [done|]. split; [by split|done].
Qed.

Lemma does_stamp_all F l : stable F -> Forall (fun c => path_fits (source_path c)) l ->
  does F 0 (stamp_all rfc3339_ok cs l) (fun l' w => F w /\ Forall2 stamped_from l l').
Proof.
  intros HF. induction 1 as [|c l Hc _ IH]; simpl; [apply does_ret; by split|].
  apply (does_bind _ 0 0 _ _ (fun c' w => F w /\ stamped_from c c')); [by apply does_stamp| |done].
  intros c'. apply does_pure. intros Hst.
  apply (does_bind _ 0 0 _ _ (fun l' w => F w /\ Forall2 stamped_from l l')); [done| |done].
  intros l'. apply does_ret. intros w _ [? ?]. split; [done|by constructor].
Qed.

(** A batch keeps what depends on none of its paths nor the index files. *)
Lemma does_put_batch F l tag sum : (careful = true -> tag <> Some (lit "create")) ->
  Forall (fun c => path_fits (source_path c) /\ local_to (source_path c) F) l -> stable F ->
  (forall w w', index_only w w' -> F w -> F w') ->
  does F (Z.of_nat (length l)) (put_batch_with_revision rfc3339_ok cs l tag sum) (fun _ => F).
Proof.
  intros Ht Hl HsF HF. unfold put_batch_with_revision. destruct l as [|c0 l0] eqn:El; [by apply does_ret|]. rewrite <- El in *.
  assert (Hgo : does F (0 + (Z.of_nat (length l) + (0 + 0)))
    (stamped ← stamp_all rfc3339_ok cs l; for_each (put_one cs tag sum) stamped ≫= fun _ => regen_index_md cs ≫= fun _ => invalidate cs)
    (fun _ => F)); cycle 1.
  { by rewrite !Z.add_0_r, Z.add_0_l in Hgo. }
  apply (does_bind _ 0 _ _ _ (fun l' w => F w /\ Forall2 stamped_from l l')); [| |lia].
  { apply does_stamp_all; [done|]. eapply Forall_impl; [exact Hl|]. by intros c [? _]. }
  intros stamped. apply does_pure. intros Hst.
  apply (does_bind _ _ (0 + 0) _ _ (fun _ => F)); [| |lia].
  { rewrite (Forall2_length _ _ _ Hst). replace (Z.of_nat (length stamped)) with (1 * Z.of_nat (length stamped)) by lia.
    apply does_for_each; [lia|]. intros c' (i & Hi)%list_elem_of_lookup.
    destruct (Forall2_lookup_r _ _ _ _ _ Hst Hi) as (c & Hci & (now & -> & Hg)).
    rewrite Forall_forall in Hl. destruct (Hl c) as [_ Hloc]; [by apply list_elem_of_lookup_2 in Hci|].
    eapply does_weaken; [by apply (does_put_one tag sum (stamp cs now c) F)|done|done|by intros ? ? _ [? _]]. }
  intros _. apply (does_bind _ 0 0 _ _ (fun _ => F)); [apply does_regen; [done|]| |done].
  { intros w w' Hi _. by apply HF. }
  intros _. by apply does_invalidate.
Qed.

Lemma only_at_index p w0 w w' : index_only w w' -> only_at p w0 w -> only_at p w0 w'.
Proof. intros Hi H q Hq Hr. destruct (H q Hq Hr), (Hi q Hr). split; congruence. Qed.

Lemma holds_index c w w' : reserved_basename (path_basename (source_path c)) = false -> index_only w w' -> holds c w -> holds c w'.
Proof. intros Hp Hi (md & r & ? & Hc & Hr & ?). destruct (Hi _ Hp) as [E1 E2]. exists md, r. by rewrite E1, E2. Qed.

(** One concept, when it succeeds *)
Lemma does_put_single c tag sum w0 : (careful = true -> tag <> Some (lit "create")) -> path_fits (source_path c) ->
  does (only_at (source_path c) w0) 1 (put_batch_with_revision rfc3339_ok cs [c] tag sum)
    (fun _ w => only_at (source_path c) w0 w /\ exists c', stamped_from c c' /\ holds c' w).
Proof.
  intros Ht Hf. set (p := source_path c). unfold put_batch_with_revision.
  apply (does_bind _ 0 1 _ _ (fun l' w => only_at p w0 w /\ Forall2 stamped_from [c] l')); [| |done].
  { apply does_stamp_all; [auto|by repeat constructor; apply Hf]. }
  intros stamped. apply does_pure. intros Hst. apply Forall2_cons_inv_l in Hst as (c' & l' & Hc' & Hn & ->).
  apply Forall2_nil_inv_l in Hn as ->. pose proof Hc' as (now & -> & Hg). set (c' := stamp cs now c).
  assert (Hres : reserved_basename (path_basename (source_path c')) = false) by apply Hg.
  apply (does_bind _ 1 0 _ _ (fun _ w => only_at p w0 w /\ holds c' w)); [| |done].
  { apply (does_bind _ 1 0 _ _ (fun _ w => only_at p w0 w /\ holds c' w)); [|intros _; by apply does_ret|done].
    apply does_put_one; [done|done|]. intros w w' Ho H. by eapply only_at_trans. }
  intros _. apply (does_bind _ 0 0 _ _ (fun _ w => only_at p w0 w /\ holds c' w)); [| |done].
  { apply does_regen; [auto|]. intros w w' Hi _ [H1 H2]. split; [by eapply only_at_index|by eapply holds_index]. }
  intros _. eapply does_weaken; [apply (does_invalidate (fun w => only_at p w0 w /\ holds c' w)); auto|done|done|].
  intros _ w _ [H1 H2]. split; [done|]. by exists c'.
Qed.

Lemma does_get F p : stable F -> does F 0 (get cs p) (fun _ => F).
Proof.
  intros HF. apply (does_bind _ 0 0 _ _ (fun _ => F)); [| |done].
  { eapply does_weaken; [by apply (does_read F)|done|done|by intros ? ? _ [? _]]. }
  intros [b|[[]| | | |]]; try (by apply does_fail).
  apply (does_bind _ 0 0 _ _ (fun _ => F)); [| |done].
  { eapply does_weaken; [apply (does_result F)|done|done|by intros ? ? _ [? _]]. }
  intros md. eapply does_weaken; [apply (does_result F)|done|done|by intros ? ? _ [? _]].
Qed.

Lemma parse_path p md c : Concept_parse p md = Ok c -> source_path c = p.
Proof.
  unfold Concept_parse. destruct (split_frontmatter md); [|done]. simpl.
  destruct (result_map_err _ _); [|done]. simpl. destruct (bool_decide _); [done|]. by intros [= <-].
Qed.

Lemma does_restore p n w0 : path_fits p ->
  does (fun w => only_at p w0 w /\ w_revs w = w_revs w0) 1 (restore rfc3339_ok cs p n)
  (fun _ w => only_at p w0 w /\ exists b md c c', get_revision log (w_revs w0) p n false = Ok b /\
     from_utf8 b = Some md /\ Concept_parse p md = Ok c /\ stamped_from c c' /\ holds c' w).
Proof.
  intros Hp. unfold restore. destruct (starts_with QUEUE_PREFIX p); [by apply does_fail|].
  apply (does_bind _ 0 1 _ _ (fun b w => only_at p w0 w /\ get_revision log (w_revs w0) p n false = Ok b)); [| |done].
  { eapply does_weaken; [apply (does_snapshot (fun w => only_at p w0 w /\ w_revs w = w_revs w0))|done|done|].
    - apply stable_and; [auto|]. intros w w' (_ & _ & Hv) Hv0. congruence.
    - intros b w _ [[? <-] ?]. done. }
  intros snapshot. apply does_pure. intros Hsnap.
  apply (does_bind _ 0 1 _ _ (fun md w => only_at p w0 w /\ from_utf8 snapshot = Some md)); [| |done].
  { eapply does_weaken; [apply does_result|intros w _ H; exact H|done|]. intros md w _ [? H]. split; [done|].
    by destruct (from_utf8 snapshot); [injection H as ->|]. }
  intros md. apply does_pure. intros Hmd.
  apply (does_bind _ 0 1 _ _ (fun c w => only_at p w0 w /\ Concept_parse p md = Ok c)); [apply does_result_map| |done].
  intros c. apply does_pure. intros Hc. pose proof (parse_path _ _ _ Hc) as Hpath.
  apply (does_bind _ 0 1 _ _ (fun _ => only_at p w0)); [| |done].
  { eapply does_weaken; [apply (does_result (only_at p w0))|done|done|by intros ? ? _ [? _]]. }
  intros summary. subst p. eapply does_weaken; [by apply (does_put_single c)|done|done|].
  intros _ w _ (H & c' & Hst & Hh). split; [done|]. by exists snapshot, md, c, c'.
Qed.

Lemma saved_stable p b k : stable (saved p b k).
Proof. unfold saved. stability. Qed.
#[local] Hint Resolve saved_stable : core.

(** The part of a deletion after the snapshot *)
Definition gone (p : str) (w : World) : Prop :=
  reserved_basename (path_basename p) = false -> content w p = None /\ row w p = None.
Lemma stable_gone p : stable (gone p).
Proof. unfold gone. stability. Qed.
#[local] Hint Resolve stable_gone : core.

Definition kept (p : str) (b : bytes) (w : World) : Prop := queue_path p = false -> saved p b 0 w.
Lemma stable_kept p b : stable (kept p b).
Proof. unfold kept. stability. Qed.
#[local] Hint Resolve stable_kept : core.

Lemma does_delete_tail p b w0 :
  does (fun w => (only_at p w0 w /\ kept p b w) /\ (careful = true -> overwritable w p)) 0
    (unregister cs p ≫= fun _ => unindex cs p ≫= fun _ => repo_delete cs p ≫= fun _ =>
     regen_index_md cs ≫= fun _ => remove_vector cs p ≫= fun _ => invalidate cs)
    (fun _ w => (only_at p w0 w /\ kept p b w) /\ gone p w).
Proof.
  set (J := fun w => only_at p w0 w /\ kept p b w). assert (HJ : stable J) by (apply stable_and; auto).
  assert (HJmove : forall w w', only_at p w w' -> w_revs w' = w_revs w -> J w -> J w').
  { intros w w' Ho Hv [? Hk]. split; [by eapply only_at_trans|]. intros Hq. by eapply saved_same, Hk. }
  set (K := fun w => J w /\ gone p w). assert (HK : stable K) by (apply stable_and; auto).
  apply (does_bind _ 0 0 _ _ (fun _ w => J w /\ row w p = None)); [| |done].
  { eapply does_weaken; [apply does_unregister with (P := fun w => J w /\ (careful = true -> overwritable w p))|done|done|].
    - by intros w _ [_ ?].
    - intros _ w' _ (w & [Hj _] & Hfl & Hrw & Hv). split; [|by rewrite Hrw, decide_True].
      eapply HJmove; [by eapply only_at_row|done|done]. }
  intros _. apply (does_bind _ 0 0 _ _ (fun _ w => J w /\ row w p = None)); [by apply does_unindex; auto| |done].
  intros _. apply (does_bind _ 0 0 _ _ (fun _ => K)); [| |done].
  { eapply does_weaken; [apply does_delete_file with (P := fun w => J w /\ row w p = None)|done|done|].
    - by intros w _ [_ ?].
    - intros _ w' _ (w & [Hj Hr] & Hset & Hrw & Hv). split; [eapply HJmove; [by eapply only_at_file|done|done]|].
      intros _. by rewrite Hset, decide_True, Hrw. }
  intros _. apply (does_bind _ 0 0 _ _ (fun _ => K)); [| |done].
  { apply does_regen; [done|]. intros w w' Hi Hv [Hj Hg]. split.
    - eapply HJmove; [intros q _; apply Hi|done|done].
    - intros Hp. destruct (Hi p Hp) as [-> ->]. by apply Hg. }
  intros _. apply (does_bind _ 0 0 _ _ (fun _ => K)); [by apply does_remove_vector| |done].
  intros _. by apply does_invalidate.
Qed.

Lemma does_delete p w0 : does (fun w => only_at p w0 w /\ w_dir w = w_dir w0) 1 (delete_internal cs p)
  (fun _ w => exists b, content w0 p = Some b /\ (only_at p w0 w /\ kept p b w) /\ gone p w).
Proof.
  apply (does_bind _ 0 1 _ _ (fun r w => only_at p w0 w /\ forall b, r = Ok b -> content w p = Some b /\ content w0 p = Some b)); [| |done].
  { eapply does_weaken; [apply (does_read (fun w => only_at p w0 w /\ w_dir w = w_dir w0))|done|done|].
    - apply stable_and; [auto|]. intros w w' (Hd & _) Hd0. by rewrite Hd.
    - intros r w _ [[? Hd] Hr]. split; [done|]. intros b Hb. split; [by apply Hr|]. unfold content in *. rewrite <- Hd. by apply Hr. }
  intros [pre|[[]| | | |]]; try by apply does_fail.
  eapply (does_weaken (fun w => (only_at p w0 w /\ content w p = Some pre) /\ content w0 p = Some pre) _ 1 1);
    [|by intros w _ [? Hr]; destruct (Hr pre eq_refl)|done|by intros ? ? _ H1; exact H1].
  apply does_pure. intros H0.
  apply (does_weaken (fun w => only_at p w0 w /\ content w p = Some pre) _ 1 1 _
    (fun _ w => (only_at p w0 w /\ kept p pre w) /\ gone p w)); [|done|done|by intros _ w _ ?; exists pre].
  apply (does_bind _ 1 0 _ _ (fun _ w => (only_at p w0 w /\ kept p pre w) /\ (careful = true -> overwritable w p)));
    [|intros _; by apply does_delete_tail|done].
  destruct (starts_with QUEUE_PREFIX p) eqn:Eq.
  - eapply (does_weaken _ _ 0); [apply does_ret|intros ? _ H1; exact H1|lia|intros ? ? _ H1; exact H1].
    intros w _ [Ho _]. split; [split; [done|]|intros _; by left]. intros Hq. unfold queue_path in Hq. congruence.
  - apply (does_bind _ 0 1 _ _ (fun _ w => only_at p w0 w /\ content w p = Some pre)); [| |done].
    { eapply does_weaken; [apply does_result_map|intros w _ H1; exact H1|done|by intros ? ? _ [? _]]. }
    intros summary. eapply does_weaken; [apply does_record with (P := fun w => only_at p w0 w /\ content w p = Some pre)|done|done|].
    + intros w _ [_ ?] _. by right.
    + intros _ w' _ (w & [Ho _] & Hfl & Hrw & Hs & Hov). split; [|done]. split; [|by intros _].
      eapply only_at_trans; [exact Ho|by apply only_at_same].
Qed.

Lemma does_reindex p : does (fun _ => True) 0 (reindex cs p) (fun _ _ => True).
Proof.
  unfold reindex. destruct (starts_with QUEUE_PREFIX p); [by apply does_fail|].
  apply (does_bind _ 0 0 _ _ (fun _ _ => True)); [by apply (does_get (fun _ => True))| |done].
  intros c. by apply (does_index (fun _ => True)).
Qed.

(** ** Operations *)
Inductive CsOp :=
  | OPut (c : Concept) | OPutBatch (l : list Concept) | OPutInternal (l : list Concept) | ORestore (p : str) (n : Z)
  | OReindex (p : str) | ODelete (p : str) | ODeleteInternal (p : str) | OSweep (p : str).

Definition run_op (o : CsOp) : M (ConceptStoreError YE) unit :=
  match o with
  | OPut c => put rfc3339_ok cs c
  | OPutBatch l => put_batch rfc3339_ok cs l
  | OPutInternal l => put_batch_internal rfc3339_ok cs l
  | ORestore p n => restore rfc3339_ok cs p n
  | OReindex p => reindex cs p
  | ODelete p => delete_concept cs p
  | ODeleteInternal p => delete_internal cs p
  | OSweep p => sweep_index_row cs p
  end.

(** How many revisions an operation can record *)
Definition op_size (o : CsOp) : Z :=
  match o with
  | OPutBatch l | OPutInternal l => Z.of_nat (length l)
  | OReindex _ | OSweep _ => 0
  | _ => 1
  end.
Definition op_fits (o : CsOp) : Prop :=
  match o with
  | OPut c => path_fits (source_path c)
  | OPutBatch l | OPutInternal l => Forall (fun c => path_fits (source_path c)) l
  | ORestore p _ => path_fits p
  | _ => True
  end.

Lemma does_internal l : (careful = true -> cs_revision_op cs <> Some (lit "create")) ->
  Forall (fun c => path_fits (source_path c)) l ->
  does (fun _ => True) (Z.of_nat (length l)) (put_batch_internal rfc3339_ok cs l) (fun _ _ => True).
Proof. intros Ht Hl. apply (does_put_batch (fun _ => True)); [done| |done|done]. eapply Forall_impl; [exact Hl|]. by split. Qed.

Lemma does_op o : (careful = true -> cs_revision_op cs <> Some (lit "create")) -> op_fits o ->
  does (fun _ => True) (op_size o) (run_op o) (fun _ _ => True).
Proof.
  intros Ht Hf. assert (Hbatch : forall l, Forall (fun c => path_fits (source_path c)) l ->
    does (fun _ => True) (Z.of_nat (length l)) (put_batch rfc3339_ok cs l) (fun _ _ => True)).
  { intros l Hl. unfold put_batch. destruct (find_first _ _); [apply does_fail; lia|by apply does_internal]. }
  assert (Hdel : forall p, does (fun _ => True) 1 (delete_internal cs p) (fun _ _ => True)).
  { intros p env w r w' He HI _ Hrun. destruct (does_delete p w env w r w' He HI) with (2 := Hrun) as (k & Hk & Ha & _).
    { split; [|done]. by intros q _ _. }
    exists k. split_and!; [done|done|by destruct r]. }
  destruct o as [c|l|l|p n|p|p|p|p]; simpl in *.
  - unfold put. destruct (starts_with _ _); [by apply does_fail|]. apply (Hbatch [c]). by constructor.
  - by apply Hbatch.
  - by apply does_internal.
  - intros env w r w' He HI _ Hrun. destruct (does_restore p n w Hf env w r w' He HI) with (2 := Hrun) as (k & Hk & Ha & _).
    { split; [|done]. by intros q _ _. }
    exists k. split_and!; [done|done|by destruct r].
  - apply does_reindex.
  - unfold delete_concept. destruct (starts_with _ _); [by apply does_fail|apply Hdel].
  - apply Hdel.
  - by apply (does_unindex (fun _ => True)).
Qed.
End Scope.

(** ** Histories

    Operations of any handles of the scope, each in its own environment,
    and what happens to the shared tables in between: anything that leaves
    this scope's files, listing and revisions as they are. *)
Inductive history (sc : ConceptScope) (low : Z) (careful : bool) : Z -> World -> World -> Prop :=
  | h_nil w : history sc low careful 0 w w
  | h_op cs env o r n w w1 w2 : cs_scope cs = sc -> env_ok low env -> op_fits o ->
      (careful = true -> cs_revision_op cs <> Some (lit "create")) ->
      run_op cs o env w = (r, w1) -> history sc low careful n w1 w2 -> history sc low careful (op_size o + n) w w2
  | h_other n w w1 w2 : w_dir w1 = w_dir w -> (forall p, row sc w1 p = row sc w p) -> well_numbered (w_revs w1) ->
      (forall t, chain (rs_scope_id (revisions_of sc)) t (w_revs w1) = chain (rs_scope_id (revisions_of sc)) t (w_revs w)) ->
      history sc low careful n w1 w2 -> history sc low careful n w w2.

Lemma other_inv sc w w1 : w_dir w1 = w_dir w -> (forall p, row sc w1 p = row sc w p) -> well_numbered (w_revs w1) ->
  Inv sc w -> Inv sc w1.
Proof.
  intros Hd Hr Hv [HD HL _]. split; [unfold dir_ok; by rewrite Hd| |done]. intros p r. rewrite Hr. unfold content. rewrite Hd. apply HL.
Qed.

Lemma history_inv sc low careful n w w' : 1 <= low -> meta_fits (lit "/index.md") ->
  history sc low careful n w w' -> Inv sc w -> Inv sc w' /\ 0 <= n.
Proof.
  intros Hlow Hroot. induction 1 as [w|cs env o r n w w1 w2 Hsc He Hf Ht Hrun _ IH|n w w1 w2 Hd Hr Hv Hc _ IH]; intros HI; [done| |].
  - destruct (does_op sc cs low careful Hsc Hlow Hroot o Ht Hf env w r w1 He HI I Hrun) as (k & Hk & Ha & _).
    destruct IH as [HI2 Hn]; [by eapply acts_inv|]. split; [done|]. pose proof (acts_nonneg _ _ _ _ _ _ Ha). lia.
  - apply IH. by eapply other_inv.
Qed.

Lemma history_undo sc low n w w' p b k : 1 <= low -> meta_fits (lit "/index.md") ->
  history sc low true n w w' -> Inv sc w -> queue_path p = false -> 0 <= k -> k + n < low ->
  Undo sc p b k w -> exists k', Undo sc p b k' w'.
Proof.
  intros Hlow Hroot H. revert k.
  induction H as [w|cs env o r n w w1 w2 Hsc He Hf Ht Hrun Hh IH|n w w1 w2 Hd Hr Hv Hc Hh IH]; intros k HI Hq Hk Hkn HU; [by exists k| |].
  - destruct (does_op sc cs low true Hsc Hlow Hroot o Ht Hf env w r w1 He HI I Hrun) as (k' & Hk' & Ha & _).
    pose proof (acts_nonneg _ _ _ _ _ _ Ha). pose proof (acts_inv _ _ _ _ _ _ Ha HI) as HI1.
    destruct (history_inv _ _ _ _ _ _ Hlow Hroot Hh HI1) as [_ Hn].
    apply (IH (k + k')); [done|done|lia|lia|]. eapply acts_undo; [done|done|done|lia|done].
  - apply (IH k); [by eapply other_inv|done|done|done|].
    destruct HU as [[Hrow Hcont]|(op & src & sum & now & no & rr & Hrr & Hno & pre & post & Hch & Hl)].
    + left. rewrite Hr. split; [done|]. unfold content in *. by rewrite Hd.
    + right. exists op, src, sum, now, no, rr. split_and!; [done|done|]. exists pre, post. by rewrite Hc.
Qed.

Definition fresh (w : World) : Prop := w_dir w = ∅ /\ w_files w = ∅ /\ w_revs w = [].
Lemma fresh_inv sc w : fresh w -> Inv sc w.
Proof.
  intros (Hd & Hf & Hv). split.
  - exists ∅. rewrite Hd. apply represents_empty.
  - intros p r. unfold row. by rewrite Hf, lookup_empty.
  - rewrite Hv. intros s t. by exists 0.
Qed.

Lemma content_read sc w p b : content sc w p = Some b <-> read (w_dir w) p (repo_scope sc) false = Ok b.
Proof. unfold content. destruct (read _ _ _ _); simpl; split; by intros [= ->]. Qed.

Lemma content_not_found sc w p : dir_ok sc w -> starts_with (lit "/") p = true -> content sc w p = None ->
  read (w_dir w) p (repo_scope sc) false = Err (FIo NotFound).
Proof.
  intros [spec HR] Hp Hc. rewrite (represents_content _ _ _ _ HR Hp) in Hc. by rewrite (represents_read _ _ _ _ HR Hp), Hc.
Qed.

Lemma content_slash sc w p b : content sc w p = Some b -> starts_with (lit "/") p = true.
Proof. intros H. destruct (starts_with (lit "/") p) eqn:E; [done|]. by rewrite content_invalid in H. Qed.

Lemma scope_rows_elem cs w e : e ∈ scope_rows cs w <->
  row (cs_scope cs) w (ce_path e) = Some (mkFileRow (ce_title e) (ce_concept_type e) (ce_updated_at e)).
Proof.
  unfold scope_rows, row. rewrite sort_by_perm, list_elem_of_omap. split.
  - intros ([[s q] fr] & Hin%elem_of_map_to_list & Hf). simpl in Hf. destruct (str_eqb s _) eqn:E; [|done].
    apply str_eqb_eq in E as ->. injection Hf as <-. simpl. by destruct fr.
  - intros H. exists ((scope_id (cs_scope cs), ce_path e), mkFileRow (ce_title e) (ce_concept_type e) (ce_updated_at e)).
    split; [by apply elem_of_map_to_list|]. simpl. rewrite (proj2 (str_eqb_eq _ _) eq_refl). by destruct e.
Qed.

Lemma get_content cs env w p md : content (cs_scope cs) w p = Some (as_bytes md) -> en_fails env (w_tick w) = false ->
  Forall (fun c => is_scalar c = true) md ->
  (get cs p env w).1 = result_map_err CParse (Concept_parse (YamlError := YE) p md).
Proof.
  intros Hc%content_read Hf Hs. unfold get, repo_read, access, mbind, M_bind. cbn [w_dir with_tick]. rewrite Hf, Hc.
  by rewrite from_utf8_as_bytes.
Qed.

(** C5. The listing never dangles.  After any history of puts, batches,
    restores, deletions, reindexings and sweeps, through any handles of the
    scope, with any access refused and so any operation abandoned at any
    point, every entry that a listing shows is a concept: its file opens and
    is the markdown of a concept of that path whose lifecycle fields passed
    the write guard, never a reserved name; [get] parses exactly that
    markdown.  And the listing shows every row of the registry. *)
Theorem listing_sound sc n w w' cs env entries w2 : meta_fits (lit "/index.md") -> fresh w ->
  history sc 1 false n w w' -> cs_scope cs = sc -> list_concepts (YE := YE) cs env w' = (Ok entries, w2) ->
  (forall e, e ∈ entries -> exists c md, source_path c = ce_path e /\ to_markdown c = Ok md /\
     Frontmatter_validated (YamlError := YE) rfc3339_ok (frontmatter c) = Ok tt /\
     reserved_basename (path_basename (ce_path e)) = false /\
     read (w_dir w') (ce_path e) (repo_scope sc) false = Ok (as_bytes md) /\
     (Forall (fun c => is_scalar c = true) md -> forall env', en_fails env' (w_tick w') = false ->
        (get cs (ce_path e) env' w').1 = result_map_err CParse (Concept_parse (YamlError := YE) (ce_path e) md))) /\
  (forall p, is_Some (w_files w' !! (scope_id sc, p)) <-> p ∈ ce_path <$> entries).
Proof.
  intros Hroot Hfresh Hh Hsc Hlist. destruct (history_inv sc 1 false n w w' ltac:(lia) Hroot Hh) as [HI _]; [by apply fresh_inv|].
  assert (entries = scope_rows cs w') as ->.
  { unfold list_concepts, access in Hlist. destruct (en_fails _ _); [done|]. by injection Hlist as <-. }
  split.
  - intros e He%scope_rows_elem. rewrite Hsc in He. destruct (inv_listed _ _ HI _ _ He) as ([Hr _] & b & Hc & c & md & Hp & Hmd & -> & Hv).
    exists c, md. split_and!; [done|done|done|done|by apply content_read|].
    intros Hs env' Hf. apply get_content; [|done|done]. by rewrite Hsc.
  - intros p. rewrite list_elem_of_fmap. split.
    + intros [r Hr]. exists (mkConceptEntry p (fr_title r) (fr_concept_type r) (fr_updated_at r)). split; [done|].
      apply scope_rows_elem. rewrite Hsc. unfold row. simpl. by destruct r.
    + intros (e & -> & He%scope_rows_elem). rewrite Hsc in He. by eexists.
Qed.

(** A prefix listing shows exactly the rows of the scope whose path
    starts with the prefix up to the case of ASCII letters, whatever
    wildcards the prefix contains: SQLite's LIKE ignores that case, so the
    listing of one prefix can show paths of another. *)
Theorem list_prefix_ignores_case cs prefix env w entries w' :
  list_prefix (YE := YE) cs prefix env w = (Ok entries, w') ->
  forall p, p ∈ ce_path <$> entries <->
    is_Some (w_files w !! (scope_id (cs_scope cs), p)) /\
    exists a b, p = a ++ b /\ to_ascii_lowercase <$> a = to_ascii_lowercase <$> prefix.
Proof.
  unfold list_prefix, access. destruct (en_fails _ _); [done|]. intros [= <- _] p. rewrite list_elem_of_fmap. split.
  - intros (e & -> & He). apply list_elem_of_In, List.filter_In in He as [He Hl]. apply list_elem_of_In, scope_rows_elem in He.
    split; [by eexists|]. by apply like_prefix.
  - intros [[r Hr] Hp]. exists (mkConceptEntry p (fr_title r) (fr_concept_type r) (fr_updated_at r)). split; [done|].
    apply list_elem_of_In, List.filter_In. split.
    + apply list_elem_of_In, scope_rows_elem. unfold row. simpl. by destruct r.
    + by apply like_prefix.
Qed.

Lemma history_saved sc n low w w' p b : meta_fits (lit "/index.md") -> 1 <= low -> Inv sc w ->
  is_Some (w_files w !! (scope_id sc, p)) ->
  read (w_dir w) p (repo_scope sc) false = Ok b -> starts_with QUEUE_PREFIX p = false ->
  history sc low true n w w' -> n < low ->
  Forall (fun v => v_no v < 9223372036854775808) (w_revs w') ->
  read (w_dir w') p (repo_scope sc) false = Ok b \/
  exists no, get_revision (revisions_of sc) (w_revs w') p no false = Ok b.
Proof.
  intros Hroot Hlow HI [r Hr] Hb Hq Hh Hn Hfit.
  destruct (history_inv sc low true n w w' Hlow Hroot Hh HI) as [HI' _].
  destruct (history_undo sc low n w w' p b 0 Hlow Hroot Hh HI Hq) as [k [[_ Hc]|Hs]]; [lia|lia| | |].
  - left. split; [unfold row; by rewrite Hr|by apply content_read].
  - left. by apply content_read.
  - right. eapply saved_readable; [apply HI'|done|exact Hs].
Qed.

(** C4. Nothing listed is lost without a snapshot.  Take a listed concept of
    a reachable world (outside the queue's own directory) and let any
    history follow, with any access refused and any operation abandoned
    anywhere, that can record fewer revisions than the retention keeps: the
    file still holds the same bytes, or a revision of the log reads as
    them.  Assumed: no handle of that history carries the explicit revision
    tag [create] (which snapshots the new markdown, not the old), and
    revision numbers fit their column. *)
Theorem write_ahead_undo sc n0 n low w0 w w' p b : meta_fits (lit "/index.md") -> 1 <= low -> fresh w0 ->
  history sc 1 false n0 w0 w -> is_Some (w_files w !! (scope_id sc, p)) ->
  read (w_dir w) p (repo_scope sc) false = Ok b -> starts_with QUEUE_PREFIX p = false ->
  history sc low true n w w' -> n < low ->
  Forall (fun v => v_no v < 9223372036854775808) (w_revs w') ->
  read (w_dir w') p (repo_scope sc) false = Ok b \/
  exists no, get_revision (revisions_of sc) (w_revs w') p no false = Ok b.
Proof.
  intros Hroot Hlow Hfresh Hh0 Hr Hb Hq Hh Hn Hfit.
  destruct (history_inv sc 1 false n0 w0 w ltac:(lia) Hroot Hh0) as [HI _]; [by apply fresh_inv|].
  by apply (history_saved sc n low w).
Qed.

(** [c'] was put: its file and row are there. *)
Definition is_stored (sc : ConceptScope) (c : Concept) (w : World) : Prop := exists md r,
  to_markdown (YamlError := YE) c = Ok md /\ read (w_dir w) (source_path c) (repo_scope sc) false = Ok (as_bytes md) /\
  w_files w !! (scope_id sc, source_path c) = Some r /\
  fr_title r = title_or_path c /\ fr_concept_type r = concept_type (frontmatter c).
Definition others_same (sc : ConceptScope) (p : str) (w w' : World) : Prop :=
  forall q, q <> p -> reserved_basename (path_basename q) = false ->
    (forall b, read (w_dir w') q (repo_scope sc) false = Ok b <-> read (w_dir w) q (repo_scope sc) false = Ok b) /\
    w_files w' !! (scope_id sc, q) = w_files w !! (scope_id sc, q).

Lemma holds_stored sc c w : holds sc c w -> is_stored sc c w.
Proof. intros (md & r & ? & ?%content_read & ? & ?). by exists md, r. Qed.
Lemma only_others sc p w w' : only_at sc p w w' -> others_same sc p w w'.
Proof.
  intros H q Hq Hr. destruct (H q Hq Hr) as [Hc Hrow]. split; [|exact Hrow]. intros b. by rewrite <- !content_read, Hc.
Qed.

Lemma put_single cs c env w w' : put (YE := YE) rfc3339_ok cs c env w = (Ok tt, w') ->
  starts_with QUEUE_PREFIX (source_path c) = false /\
  put_batch_with_revision rfc3339_ok cs [c] (cs_revision_op cs) None env w = (Ok tt, w').
Proof.
  unfold put. destruct (starts_with QUEUE_PREFIX (source_path c)) eqn:Eq; [done|].
  unfold put_batch. simpl. by rewrite Eq.
Qed.

Lemma put_done cs low env c w w' : meta_fits (lit "/index.md") -> 1 <= low -> env_ok low env -> Inv (cs_scope cs) w ->
  path_fits (source_path c) -> put rfc3339_ok cs c env w = (Ok tt, w') ->
  Inv (cs_scope cs) w' /\ starts_with QUEUE_PREFIX (source_path c) = false /\
  (exists now, is_stored (cs_scope cs) (stamp cs now c) w' /\ reserved_basename (path_basename (source_path c)) = false /\
     Frontmatter_validated (YamlError := YE) rfc3339_ok (stamp_frontmatter cs now (frontmatter c)) = Ok tt) /\
  others_same (cs_scope cs) (source_path c) w w'.
Proof.
  intros Hroot Hlow He HI Hf [Hq Hrun]%put_single.
  destruct (does_put_single (cs_scope cs) cs low false eq_refl Hlow Hroot c (cs_revision_op cs) None w ltac:(done) Hf env w (Ok tt) w' He HI)
    with (2 := Hrun) as (k & Hk & Ha & Ho & c' & (now & -> & [Hres _] & Hv) & Hh); [by intros q _ _|].
  split_and!; [by eapply acts_inv|done| |by apply only_others].
  exists now. split_and!; [by apply holds_stored|exact Hres|exact Hv].
Qed.

(** What a put that succeeds has done: its own file holds the markdown
    of the concept as stamped (confirmed now, and labelled with the store's
    provenance if it has a label), the registry lists it with its title and
    type, every other concept's file and row are as before, and if the path
    was listed with other bytes before, a revision of the log reads as
    them.  The path was not the queue's nor reserved, and the lifecycle
    fields are valid. *)
Theorem put_effects cs low env c w w' : meta_fits (lit "/index.md") -> 1 <= low -> env_ok low env -> Inv (cs_scope cs) w ->
  path_fits (source_path c) -> put rfc3339_ok cs c env w = (Ok tt, w') ->
  let p := source_path c in
  Inv (cs_scope cs) w' /\ starts_with QUEUE_PREFIX p = false /\
  (exists now, is_stored (cs_scope cs) (stamp cs now c) w' /\ reserved_basename (path_basename p) = false /\
     Frontmatter_validated (YamlError := YE) rfc3339_ok (stamp_frontmatter cs now (frontmatter c)) = Ok tt) /\
  others_same (cs_scope cs) p w w' /\
  (cs_revision_op cs <> Some (lit "create") -> 1 < low -> is_Some (w_files w !! (scope_id (cs_scope cs), p)) ->
   Forall (fun v => v_no v < 9223372036854775808) (w_revs w') ->
   forall b, read (w_dir w) p (repo_scope (cs_scope cs)) false = Ok b ->
     read (w_dir w') p (repo_scope (cs_scope cs)) false = Ok b \/
     exists no, get_revision (revisions_of (cs_scope cs)) (w_revs w') p no false = Ok b).
Proof.
  intros Hroot Hlow He HI Hf Hput p.
  destruct (put_done cs low env c w w' Hroot Hlow He HI Hf Hput) as (HI' & Hq & Hst & Ho).
  destruct (put_single cs c env w w' Hput) as [_ Hrun].
  split_and!; [exact HI'|exact Hq|exact Hst|exact Ho|].
  intros Htag Hlow2 [r Hr] Hfit b Hb.
  destruct (does_put_single (cs_scope cs) cs low true eq_refl Hlow Hroot c (cs_revision_op cs) None w (fun _ => Htag) Hf env w (Ok tt) w' He HI)
    with (2 := Hrun) as (k' & Hk' & Ha' & _); [by intros q _ _|].
  pose proof (acts_nonneg _ _ _ _ _ _ Ha').
  destruct (acts_undo _ _ _ _ _ p b 0 Ha' Hq) as [[_ Hc]|Hs]; [lia|lia| | |].
  - left. split; [unfold row; by rewrite Hr|by apply content_read].
  - left. by apply content_read.
  - right. eapply saved_readable; [apply HI'|done|exact Hs].
Qed.

Lemma delete_done cs low env w w1 p : meta_fits (lit "/index.md") -> 1 <= low -> env_ok low env -> Inv (cs_scope cs) w ->
  delete_concept (YE := YE) cs p env w = (Ok tt, w1) ->
  starts_with QUEUE_PREFIX p = false /\ Inv (cs_scope cs) w1 /\
  exists b, read (w_dir w) p (repo_scope (cs_scope cs)) false = Ok b /\ others_same (cs_scope cs) p w w1 /\ kept (cs_scope cs) p b w1 /\
    (reserved_basename (path_basename p) = false ->
     read (w_dir w1) p (repo_scope (cs_scope cs)) false = Err (FIo NotFound) /\ w_files w1 !! (scope_id (cs_scope cs), p) = None).
Proof.
  intros Hroot Hlow He HI Hdel. unfold delete_concept in Hdel. destruct (starts_with QUEUE_PREFIX p) eqn:Eq; [done|].
  destruct (does_delete (cs_scope cs) cs low true eq_refl Hlow Hroot p w env w (Ok tt) w1 He HI) with (2 := Hdel)
    as (k & Hk & Ha & b & Hb & [Ho Hkept] & Hg); [by split|].
  pose proof (acts_inv _ _ _ _ _ _ Ha HI) as HI1. split; [done|]. split; [done|]. exists b.
  split_and!; [by apply content_read|by apply only_others|exact Hkept|]. intros Hres. destruct (Hg Hres) as [Hc Hrow].
  split; [|exact Hrow]. apply content_not_found; [apply HI1|by eapply content_slash|done].
Qed.

(** A deletion can be undone.  When it succeeds, the concept is no
    longer listed and reads as not found, every other concept is as before,
    and the log has a revision with exactly the bytes the file had; when
    that revision is restored, with success, the path is listed again and
    its file is the markdown of the concept those bytes parse to, stamped
    anew. *)
Theorem delete_restore cs low env w w1 p : meta_fits (lit "/index.md") -> 1 <= low -> env_ok low env ->
  Inv (cs_scope cs) w -> is_Some (w_files w !! (scope_id (cs_scope cs), p)) ->
  delete_concept (YE := YE) cs p env w = (Ok tt, w1) -> Forall (fun v => v_no v < 9223372036854775808) (w_revs w1) ->
  exists b, read (w_dir w) p (repo_scope (cs_scope cs)) false = Ok b /\
    read (w_dir w1) p (repo_scope (cs_scope cs)) false = Err (FIo NotFound) /\
    w_files w1 !! (scope_id (cs_scope cs), p) = None /\ others_same (cs_scope cs) p w w1 /\
    (exists no, get_revision (revisions_of (cs_scope cs)) (w_revs w1) p no false = Ok b) /\
    forall no cs2 env2 w2, get_revision (revisions_of (cs_scope cs)) (w_revs w1) p no false = Ok b ->
      cs_scope cs2 = cs_scope cs -> env_ok low env2 ->
      restore rfc3339_ok cs2 p no env2 w1 = (Ok tt, w2) ->
      exists md c now, from_utf8 b = Some md /\ Concept_parse (YamlError := YE) p md = Ok c /\
        is_stored (cs_scope cs) (stamp cs2 now c) w2 /\ others_same (cs_scope cs) p w1 w2.
Proof.
  intros Hroot Hlow He HI [r Hr] Hdel Hfit. destruct (inv_listed _ _ HI _ _ Hr) as ([Hres Hpf] & _).
  destruct (delete_done cs low env w w1 p Hroot Hlow He HI Hdel) as (Eq & HI1 & b & Hb & Ho & Hkept & Hg). destruct (Hg Hres) as [Hnf Hrow].
  exists b. split_and!; [exact Hb|exact Hnf|exact Hrow|exact Ho|by apply (saved_readable _ p b 0); [apply HI1|done|apply Hkept]|].
  intros no cs2 env2 w2 Hno Hsc He2 Hrest.
  destruct (does_restore (cs_scope cs) cs2 low false Hsc Hlow Hroot p no w1 Hpf env2 w1 (Ok tt) w2 He2 HI1) with (2 := Hrest)
    as (k2 & _ & _ & Ho2 & b2 & md & c & c' & Hb2 & Hmd & Hparse & (now & -> & _) & Hh); [by split|].
  rewrite Hno in Hb2. injection Hb2 as <-. exists md, c, now.
  split_and!; [done|done|by apply holds_stored|by apply only_others].
Qed.

(** ** Reading

    A read leaves everything but the tick and the shared caches. *)
#[local] Abbreviation Err' := (ConceptStoreError YE).
Definition store_same (s s' : World) : Prop := core_eq s s' /\ w_queue s' = w_queue s.
#[export] Instance store_same_preorder : PreOrder store_same.
Proof.
  split; [by intros s|]. intros s1 s2 s3 [(? & ? & ?) ?] [(? & ? & ?) ?]. split; [split_and!|]; congruence.
Qed.
Definition reads {A} (m : M Err' A) : Prop := forall env s r s', m env s = (r, s') -> store_same s s'.
Lemma reads_ret {A} (a : A) : reads (mret a).
Proof. by intros env s r s' [= <- <-]. Qed.
Lemma reads_fail {A} e : reads (fail e : M Err' A).
Proof. by intros env s r s' [= <- <-]. Qed.
Lemma reads_result {A} (x : result A Err') : reads (of_result x).
Proof. by intros env s r s' [= <- <-]. Qed.
Lemma reads_bind {A B} (m : M Err' A) (f : A -> M Err' B) : reads m -> (forall a, reads (f a)) -> reads (m ≫= f).
Proof.
  intros Hm Hf env s r s' Hrun. unfold mbind, M_bind in Hrun. destruct (m env s) as [[a|e] s1] eqn:E.
  - etrans; [by eapply Hm|by eapply Hf].
  - injection Hrun as <- <-. by eapply Hm.
Qed.
Lemma reads_access {A} (f : Env -> nat -> World -> result A Err' * World) :
  (forall env k s, store_same s (f env k s).2) -> reads (access f).
Proof.
  intros Hf env s r s' Hrun. unfold access in Hrun. etrans; [|by rewrite <- (f_equal snd Hrun : _ = s')]. simpl.
  etrans; [|apply Hf]. done.
Qed.

Lemma reads_get cs p : reads (get cs p).
Proof.
  apply reads_bind; [by apply reads_access|]. intros [b|[[]| | | |]]; try apply reads_fail.
  apply reads_bind; [apply reads_result|]. intros md. apply reads_result.
Qed.
Lemma reads_list cs : reads (list_concepts cs).
Proof. by apply reads_access. Qed.

(** What reading a concept gives *)
Definition concept_at (cs : ConceptStore) (d : gmap str bytes) (p : str) : result Concept Err' :=
  match read d p (repo_scope (cs_scope cs)) false with
  | Err (FIo NotFound) => Err (CNotFound p)
  | Err e => Err (CRepo e)
  | Ok b => match from_utf8 b with None => Err (CNotFound p) | Some md => result_map_err CParse (Concept_parse p md) end
  end.
Lemma get_faultless cs p e s : (forall k, en_fails e k = false) ->
  get (YE := YE) cs p e s = (concept_at cs (w_dir s) p, with_tick (S (w_tick s)) s).
Proof.
  intros Hf. unfold get, repo_read, access, mbind, M_bind, concept_at. rewrite Hf. cbn [w_dir with_tick].
  destruct (read _ _ _ _) as [b|[[]| | | |]]; try reflexivity. by destruct (from_utf8 b).
Qed.

Lemma read_Ok d p sc fails b : read d p sc fails = Ok b -> read d p sc false = Ok b /\ starts_with (lit "/") p = true.
Proof.
  unfold read. destruct (validate p) as [[]|e] eqn:Ev; [|done]. apply validate_Ok in Ev. by destruct fails.
Qed.
Lemma get_Ok cs p env w c w' : get (YE := YE) cs p env w = (Ok c, w') ->
  store_same w w' /\ concept_at cs (w_dir w) p = Ok c /\ starts_with (lit "/") p = true.
Proof.
  intros H. split; [by eapply (reads_get cs p)|]. unfold get in H. apply bind_Ok in H as (r & w1 & Hr & H).
  unfold repo_read, access in Hr. injection Hr as <- <-. unfold concept_at. cbn [w_dir with_tick] in *.
  destruct (read (w_dir w) p _ (en_fails env (w_tick w))) as [b|[[]| | | |]] eqn:E; try done.
  apply read_Ok in E as [-> Hp]. split; [|done]. apply bind_Ok in H as (md & w2 & Hmd & H).
  apply of_result_Ok in Hmd as [Hmd _]. apply of_result_Ok in H as [H _]. destruct (from_utf8 b) as [t|]; [|done].
  by injection Hmd as ->.
Qed.

(** ** The guards run before any effect *)
Definition refused (c : Concept) : Prop := reserved_basename (path_basename (source_path c)) = true \/
  Frontmatter_validated (YamlError := YE) rfc3339_ok (frontmatter c) <> Ok tt.

Lemma validated_stamp cs now f :
  Frontmatter_validated (YamlError := YE) rfc3339_ok (stamp_frontmatter cs now f) = Frontmatter_validated rfc3339_ok f.
Proof. unfold stamp_frontmatter. by destruct (label cs). Qed.

Lemma stamp_all_refused cs l env w : Exists refused l ->
  exists e n, stamp_all (YE := YE) rfc3339_ok cs l env w = (Err e, with_tick n w) /\ ((exists p, e = CReserved p) \/ exists x, e = CParse x).
Proof.
  revert w. induction l as [|c l IH]; intros w; [by intros ?%Exists_nil|]. intros H. simpl.
  unfold mbind, M_bind at 1, stamp_one, access.
  destruct (reserved_basename _) eqn:Er.
  { eexists _, _. split; [done|]. left. by eexists. }
  simpl. rewrite validated_stamp. destruct (Frontmatter_validated rfc3339_ok (frontmatter c)) as [[]|x] eqn:Ev; simpl; cycle 1.
  { eexists _, _. split; [done|]. right. by eexists. }
  apply Exists_cons in H as [[H|H]|H]; [congruence|done|].
  destruct (IH (with_tick (S (w_tick w)) w) H) as (e & n & E & He). unfold M_bind. rewrite E. by exists e, n.
Qed.

(** The guards of a batch run before any effect: if some concept of it
    lies in the queue's directory, or (also through the queue's own entry)
    has a reserved file name or an invalid lifecycle field, the batch fails
    with the matching error and files, registry, revisions, index, vectors,
    queue and caches are exactly as before, whatever the other concepts and
    whatever the environment. *)
Theorem put_guards cs l env w :
  (Exists (fun c => starts_with QUEUE_PREFIX (source_path c) = true) l ->
     exists c, c ∈ l /\ put_batch (YE := YE) rfc3339_ok cs l env w = (Err (CQueuePath (source_path c)), w)) /\
  (Exists refused l -> exists e n, put_batch_internal (YE := YE) rfc3339_ok cs l env w = (Err e, with_tick n w) /\
     ((exists p, e = CReserved p) \/ exists x, e = CParse x)) /\
  (forall p n, starts_with QUEUE_PREFIX p = true ->
     restore (YE := YE) rfc3339_ok cs p n env w = (Err (CQueuePath p), w) /\
     delete_concept (YE := YE) cs p env w = (Err (CQueuePath p), w) /\ reindex (YE := YE) cs p env w = (Err (CQueuePath p), w)).
Proof.
  split_and!.
  - intros H. unfold put_batch. destruct (find_first _ l) as [c|] eqn:E.
    + apply find_first_Some in E as [Hc _]. by exists c.
    + apply Exists_exists in H as (c & Hc & Hq). apply (find_first_None _ _ c) in E; [congruence|done].
  - intros H. unfold put_batch_internal, put_batch_with_revision. destruct l as [|c l]; [by apply Exists_nil in H|].
    destruct (stamp_all_refused cs _ env w H) as (e & n & E & He). unfold mbind, M_bind at 1. rewrite E. by exists e, n.
  - intros p n Hq. unfold restore, delete_concept, reindex. by rewrite Hq.
Qed.
End Store.

(** ** Witnesses *)
Module Demo.
#[local] Existing Instances demo_aead demo_kdf wide_hex char_uuid plain_meta ascii_lowercase sample_log pair_json type_only.

Definition any_date (s : str) : bool := true.
Definition env_with (write : nat -> option WriteFault) : Env :=
  mkEnv (fun _ => lit "now") (fun _ _ => demo_nonce) (fun _ => lit "u") (fun _ => false) write (fun _ => demo_attempt) (fun _ => 25).
Definition calm : Env := env_with (fun _ => None).
(** The rename of every write fails. *)
Definition stuck : Env := env_with (fun _ => Some (RenameFails OtherKind)).
Definition empty_world : World := mkWorld 0 ∅ ∅ [] (mkShared (mkSearchTables ∅ ∅) ∅ 0 ∅) [].
Definition store : ConceptStore := ConceptStore_for_user 5%N (demo_master 1).
Definition note (path text : string) : Concept :=
  mkConcept (mkFrontmatter (lit "Note") None None None [] None None None None None None None None None) (lit text) (lit path).

Definition run (env : Env) (o : CsOp) (w : World) : result unit (ConceptStoreError unit) * World := run_op any_date store o env w.
Definition w1 : World := (run calm (OPut (note "/d/a.md" "one")) empty_world).2.
Definition w2 : World := (run stuck (OPut (note "/b.md" "two")) w1).2.
Definition w3 : World := (run stuck (OPut (note "/d/a.md" "three")) w2).2.
Definition w4 : World := (run calm (OPut (note "/d/a.md" "four")) w3).2.

Lemma env_with_ok write : env_ok 25 (env_with write).
Proof. by split. Qed.
Lemma env_with_ok1 write : env_ok 1 (env_with write).
Proof. by split. Qed.
Lemma note_fits (path : string) : (length (lit path) <? 1000)%nat = true -> path_fits (lit path).
Proof.
  intros H%Nat.ltb_lt. unfold path_fits, meta_fits, meta_to_vec, plain_meta. rewrite length_app.
  assert (length (dir_of (lit path)) <= length (lit path))%nat.
  { unfold dir_of, rsplit_once. change (reverse (lit "/")) with [47%N].
    destruct (split_once [47%N] (reverse (lit path))) as [[a b]|] eqn:E; [|simpl; lia].
    apply split_once_char_Some in E as [E _]. assert (length (reverse (lit path)) = length (a ++ 47%N :: b)) as El by by rewrite E.
    rewrite length_reverse, length_app in El. rewrite length_reverse. simpl in El. lia. }
  change (length (lit "/index.md")) with 9%nat. unfold usize_max, u64_max. lia.
Qed.

Lemma root_fits : meta_fits (lit "/index.md").
Proof. by vm_compute. Qed.
Lemma empty_fresh : fresh empty_world.
Proof. done. Qed.

(** One operation of the demo store *)
Lemma step low careful env o w n w' : env_ok low env -> op_fits o -> history any_date (cs_scope store) low careful n (run env o w).2 w' ->
  history any_date (cs_scope store) low careful (op_size o + n) w w'.
Proof.
  intros He Hf Hh. by eapply (h_op any_date (cs_scope store) low careful store env o); [| | | |apply surjective_pairing|].
Qed.

Lemma history3 low careful : (forall write, env_ok low (env_with write)) ->
  history any_date (cs_scope store) low careful 3 empty_world w3.
Proof.
  intros He. apply (step low careful calm (OPut (note "/d/a.md" "one")) empty_world 2); [apply He|by apply note_fits|].
  apply (step low careful stuck (OPut (note "/b.md" "two")) w1 1); [apply He|by apply note_fits|].
  apply (step low careful stuck (OPut (note "/d/a.md" "three")) w2 0); [apply He|by apply note_fits|].
  unfold w3. apply h_nil.
Qed.

Lemma listing_sound_witness : exists entries w, list_concepts store calm w3 = (@Ok _ (ConceptStoreError unit) entries, w) /\
  ce_path <$> entries = [lit "/d/a.md"] /\
  forall e, e ∈ entries -> exists md, read (w_dir w3) (ce_path e) (repo_scope (cs_scope store)) false = Ok (as_bytes md).
Proof.
  set (out := list_concepts (YE := unit) store calm w3).
  assert (Hp : (fmap (M := list) ce_path <$> result_ok out.1) = Some [lit "/d/a.md"]) by (vm_compute; reflexivity).
  destruct (out.1) as [entries|] eqn:E; [|discriminate Hp]. injection Hp as Hp.
  assert (Hdef : list_concepts store calm w3 = out) by reflexivity. pose proof (fst_eq _ _ E) as Hout. clearbody out. clear E.
  exists entries, out.2. split; [exact Hout|]. split; [exact Hp|].
  destruct (listing_sound any_date demo_no_collisions (cs_scope store) 3 empty_world w3 store calm entries out.2
    root_fits empty_fresh (history3 1 false env_with_ok1) eq_refl (eq_trans Hdef Hout)) as [H _].
  intros e He. destruct (H e He) as (c & md & _ & _ & _ & _ & Hr & _). by exists md.
Defined.

Definition file (w : World) (p : string) : bytes := of_ok [] (read (w_dir w) (lit p) (repo_scope (cs_scope store)) false).
Lemma file_read w p : is_some (result_ok (read (w_dir w) (lit p) (repo_scope (cs_scope store)) false)) = true ->
  read (w_dir w) (lit p) (repo_scope (cs_scope store)) false = Ok (file w p).
Proof. unfold file. by destruct (read _ _ _ _). Qed.
Definition listed (w : World) (p : string) : bool := is_some (w_files w !! (scope_id (cs_scope store), lit p)).
Lemma listed_some w p : listed w p = true -> is_Some (w_files w !! (scope_id (cs_scope store), lit p)).
Proof. unfold listed. by destruct (w_files w !! _). Qed.
Definition numbers_fit (w : World) : bool := forallb (fun v => v_no v <? 9223372036854775808) (w_revs w).
Lemma numbers_fit_spec w : numbers_fit w = true -> Forall (fun v => v_no v < 9223372036854775808) (w_revs w).
Proof. unfold numbers_fit. rewrite forallb_forall, Forall_forall. intros H v Hv%list_elem_of_In. by apply Z.ltb_lt, H. Qed.

Lemma history_tail : history any_date (cs_scope store) 25 true 3 w1 w4.
Proof.
  apply (step 25 true stuck (OPut (note "/b.md" "two")) w1 2); [apply env_with_ok|by apply note_fits|].
  apply (step 25 true stuck (OPut (note "/d/a.md" "three")) w2 1); [apply env_with_ok|by apply note_fits|].
  apply (step 25 true calm (OPut (note "/d/a.md" "four")) w3 0); [apply env_with_ok|by apply note_fits|].
  unfold w4. apply h_nil.
Qed.
Lemma history_head : history any_date (cs_scope store) 1 false 1 empty_world w1.
Proof. apply (step 1 false calm (OPut (note "/d/a.md" "one")) empty_world 0); [apply env_with_ok1|by apply note_fits|unfold w1; apply h_nil]. Qed.

Lemma write_ahead_undo_witness : exists no,
  get_revision (revisions_of (cs_scope store)) (w_revs w4) (lit "/d/a.md") no false = Ok (file w1 "/d/a.md").
Proof.
  assert (H1 : listed w1 "/d/a.md" = true) by (vm_compute; reflexivity).
  assert (H2 : is_some (result_ok (read (w_dir w1) (lit "/d/a.md") (repo_scope (cs_scope store)) false)) = true) by (vm_compute; reflexivity).
  assert (H3 : numbers_fit w4 = true) by (vm_compute; reflexivity).
  assert (H4 : str_eqb (file w4 "/d/a.md") (file w1 "/d/a.md") = false) by (vm_compute; reflexivity).
  destruct (write_ahead_undo any_date demo_no_collisions (cs_scope store) 1 3 25 empty_world w1 w4 (lit "/d/a.md")
    (file w1 "/d/a.md") root_fits ltac:(lia) empty_fresh history_head (listed_some _ _ H1) (file_read _ _ H2) eq_refl
    history_tail ltac:(lia) (numbers_fit_spec _ H3)) as [H|H]; [exfalso|exact H].
  assert (E : file w4 "/d/a.md" = file w1 "/d/a.md") by (unfold file at 1; rewrite H; reflexivity).
  apply str_eqb_eq in E. rewrite E in H4. discriminate H4.
Defined.

Lemma inv_w1 : Inv any_date (cs_scope store) w1.
Proof. eapply history_inv; [apply demo_no_collisions|..|exact history_head|by apply fresh_inv, empty_fresh]; [lia|apply root_fits]. Qed.

Lemma put_effects_witness : exists now, is_stored (cs_scope store) (stamp store now (note "/b.md" "two")) (run calm (OPut (note "/b.md" "two")) w1).2.
Proof.
  assert (H : (run calm (OPut (note "/b.md" "two")) w1).1 = Ok tt) by (vm_compute; reflexivity).
  destruct (put_effects any_date demo_no_collisions store 25 calm (note "/b.md" "two") w1 _ root_fits ltac:(lia) (env_with_ok _)
    inv_w1 (note_fits "/b.md" eq_refl) (fst_eq _ _ H)) as (_ & _ & (now & Hs & _) & _). by exists now.
Defined.

Definition deleted : World := (run calm (ODelete (lit "/d/a.md")) w1).2.
Definition restored : result unit (ConceptStoreError unit) * World := run calm (ORestore (lit "/d/a.md") 2) deleted.
Lemma delete_restore_witness : restored.1 = Ok tt /\
  exists c now, is_stored (cs_scope store) (stamp store now c) restored.2.
Proof.
  assert (H1 : listed w1 "/d/a.md" = true) by (vm_compute; reflexivity).
  assert (H2 : (run calm (ODelete (lit "/d/a.md")) w1).1 = Ok tt) by (vm_compute; reflexivity).
  assert (H3 : numbers_fit deleted = true) by (vm_compute; reflexivity).
  assert (H4 : restored.1 = Ok tt) by (vm_compute; reflexivity).
  assert (H5 : get_revision (revisions_of (cs_scope store)) (w_revs deleted) (lit "/d/a.md") 2 false = Ok (file w1 "/d/a.md"))
    by (vm_compute; reflexivity).
  destruct (delete_restore any_date demo_no_collisions store 25 calm w1 deleted (lit "/d/a.md") root_fits ltac:(lia) (env_with_ok _)
    inv_w1 (listed_some _ _ H1) (fst_eq _ _ H2) (numbers_fit_spec _ H3)) as (b & Hb & _ & _ & _ & _ & Hrest).
  assert (file w1 "/d/a.md" = b) as Hf by (unfold file; rewrite Hb; reflexivity). rewrite Hf in H5. clear H1 H2 H3 Hb Hf.
  destruct (Hrest 2 store calm restored.2 H5 eq_refl (env_with_ok _) (fst_eq _ _ H4)) as (md & c & now & _ & _ & Hs & _).
  split; [exact H4|]. by exists c, now.
Defined.

Lemma list_prefix_ignores_case_witness : exists entries,
  (list_prefix (YE := unit) store (lit "/D/") calm w1).1 = Ok entries /\ lit "/d/a.md" ∈ ce_path <$> entries.
Proof.
  assert (Hp : is_some (result_ok (list_prefix (YE := unit) store (lit "/D/") calm w1).1) = true) by (vm_compute; reflexivity).
  assert (H1 : listed w1 "/d/a.md" = true) by (vm_compute; reflexivity).
  destruct (list_prefix store (lit "/D/") calm w1) as [[entries|e] w] eqn:E; [|discriminate Hp].
  exists entries. split; [reflexivity|]. apply (list_prefix_ignores_case _ _ _ _ _ _ E (lit "/d/a.md")).
  split; [exact (listed_some _ _ H1)|]. exists (lit "/d/"), (lit "a.md"). by split.
Defined.

Lemma put_guards_witness : exists e n,
  put_batch_internal any_date store [note "/ok.md" "fine"; note "/d/index.md" "not"] calm w1 = (Err e, with_tick n w1).
Proof.
  destruct (put_guards (YE := unit) any_date store [note "/ok.md" "fine"; note "/d/index.md" "not"] calm w1) as (_ & H & _).
  destruct H as (e & n & H & _); [|by exists e, n]. apply Exists_cons_tl, Exists_cons_hd. left. reflexivity.
Defined.

(** A put that retires a concept and fails while it writes the root index:
    the search rows are changed, and the decoded vectors of the scope stay
    in the cache, since [invalidate_scope] comes after. *)
Definition at_tick (k : nat) : Env := env_with (fun n => if Nat.eqb n k then Some (RenameFails OtherKind) else None).
Definition retire : Concept :=
  mkConcept (mkFrontmatter (lit "Note") None None None [] None None None None (Some (lit "retired")) None None None None) (lit "one") (lit "/a.md").
Definition cached : ScopeVectors := mkScopeVectors [] [].
Example failed_regen_keeps_cache :
  let w0 := (run calm (OPut (note "/a.md" "one")) empty_world).2 in
  let w := with_shared (mkShared (sh_docs (w_shared w0)) ∅ 1 {[scope_id (cs_scope store) := cached]}) w0 in
  let out := run (at_tick (w_tick w + 9)) (OPut retire) w in
  is_some (result_ok out.1) = false /\
  (sd_status <$> search_docs (sh_docs (w_shared out.2)) !! (scope_id (cs_scope store), lit "/a.md")) = Some (Some (lit "retired")) /\
  sh_cache (w_shared out.2) !! scope_id (cs_scope store) = Some cached /\ sh_epoch (w_shared out.2) = 1.
Proof. vm_compute. repeat split. Qed.

(** A deletion that stops between the registry and the index: the index
    still has the row, and the file is still there. *)
Definition down_at (k : nat) : Env :=
  mkEnv (fun _ => lit "now") (fun _ _ => demo_nonce) (fun _ => lit "u") (fun n => Nat.eqb n k) (fun _ => None) (fun _ => demo_attempt) (fun _ => 25).
Example interrupted_delete_leaves_index_row :
  let out := run (down_at (w_tick w1 + 3)) (ODelete (lit "/d/a.md")) w1 in
  out.1 = Err (CIndex XDb) /\ listed out.2 "/d/a.md" = false /\
  is_some (search_docs (sh_docs (w_shared out.2)) !! (scope_id (cs_scope store), lit "/d/a.md")) = true /\
  file out.2 "/d/a.md" = file w1 "/d/a.md".
Proof. vm_compute. repeat split. Qed.
End Demo.
