(* ===== verification/Skills.v ===== *)
(** * Skills

    [crates/mycelium-store/src/skill_group.rs] (which concepts of a listing
    form a skill), [skill_bundle.rs] (the files of an installable skill) and
    the two skill tools of [crates/mycelium-mcp/src/tools.rs]. *)
From S2P Require Import Prelude Text Crypto FileRepo Clock Concept SearchIndex Vectors ConceptStore.
Open Scope Z_scope.

(** ** Grouping *)
Definition SYSTEM_BASENAMES : list str := [lit "index.md"; lit "log.md"; lit "info.md"].
Record SkillGroup := mkGroup { gr_slug : str; gr_hub : ConceptEntry; gr_members : list ConceptEntry }.
Record SkillListings := mkListings { grouped : list SkillGroup; flat : list ConceptEntry }.

(** [BTreeMap::entry(key).or_default()], changed by [f]: the map is the
    association list in key order. *)
Fixpoint entry_or_default {V} (key : str) (d : V) (f : V -> V) (m : list (str * V)) : list (str * V) :=
  match m with
  | [] => [(key, f d)]
  | (k, v) :: m' =>
      match str_cmp key k with
      | Lt => (key, f d) :: m
      | Eq => (k, f v) :: m'
      | Gt => (k, v) :: entry_or_default key d f m'
      end
  end.

(** A directory: its hub, if one was seen, and the other entries *)
Definition Slot : Type := option ConceptEntry * list ConceptEntry.
Definition slot_add (rest : str) (e : ConceptEntry) (s : Slot) : Slot :=
  if str_eqb rest (lit "skill.md") then (Some e, s.2) else (s.1, s.2 ++ [e]).

Definition is_system (e : ConceptEntry) : bool := existsb (str_eqb (path_basename (ce_path e))) SYSTEM_BASENAMES.
(** The top-level directory of a path and the rest *)
Definition in_dir (path : str) : option (str * str) :=
  split_once (lit "/") (default path (strip_prefix (lit "/") path)).
Definition by_path (a b : ConceptEntry) : comparison := str_cmp (ce_path a) (ce_path b).

Definition group_step (st : list ConceptEntry * list (str * Slot)) (e : ConceptEntry) : list ConceptEntry * list (str * Slot) :=
  if is_system e then st else
  match in_dir (ce_path e) with
  | Some (slug, rest) => (st.1, entry_or_default slug (None, []) (slot_add rest e) st.2)
  | None => (st.1 ++ [e], st.2)
  end.
Definition collect_step (acc : list SkillGroup * list ConceptEntry) (d : str * Slot) : list SkillGroup * list ConceptEntry :=
  match d.2.1 with
  | Some hub => (acc.1 ++ [mkGroup d.1 hub (sort_by by_path d.2.2)], acc.2)
  | None => (acc.1, acc.2 ++ d.2.2)
  end.
Definition group_skills (entries : list ConceptEntry) : SkillListings :=
  let st := fold_left group_step entries ([], []) in
  let out := fold_left collect_step st.2 ([], st.1) in
  mkListings out.1 (sort_by by_path out.2).

(** ** Bundles *)
(** The MD5 of the md-5 crate *)
Class Md5 := { md5 : bytes -> bytes }.

Inductive SkillBundleError (YE : Type) :=
| NotBundle (slug : str) | Traversal (e : ConceptError YE) | ChecksumMismatch (path : str)
| BStore (e : ConceptStoreError YE) | BIo (e : FileRepoError).
Arguments NotBundle {YE} slug.
Arguments Traversal {YE} e.
Arguments ChecksumMismatch {YE} path.
Arguments BStore {YE} e.
Arguments BIo {YE} e.
Record SkillBundleFile := mkBundleFile { rel_path : str; bf_bytes : bytes }.

(** The first of each name, after those already [seen] *)
Fixpoint first_of_each (seen : list str) (l : list (str * bytes)) : list SkillBundleFile :=
  match l with
  | [] => []
  | (rel, b) :: l =>
      if bool_decide (rel ∈ seen) then first_of_each seen l
      else mkBundleFile rel b :: first_of_each (rel :: seen) l
  end.
Definition by_rel (a b : str * bytes) : comparison := str_cmp a.1 b.1.

Section Skills.
Context {AE : Aead} {KD : Kdf} {HX : Hex} {UT : UuidText} {MJ : MetaJson} {M5 : Md5}.
Context {YE : Type} `{!YamlCodec YE}.
#[local] Abbreviation Be := (SkillBundleError YE).
#[local] Abbreviation Cse := (ConceptStoreError YE).

Definition md5_hex (b : bytes) : str := hex_encode (md5 b).
Definition ensure_safe_rel (rel : str) : result unit Be :=
  result_map_err Traversal (SkillManifest_validated (mkManifest 0 [mkSkillFile rel Reference None])).

Definition stored_as {A} (f : Cse -> Be) (m : M Cse A) : M Be A :=
  fun env w => let '(r, w) := m env w in (result_map_err f r, w).
Definition hub_error (slug : str) (e : Cse) : Be := match e with CNotFound _ => NotBundle slug | e => BStore e end.
Definition markdown_of (c : Concept) : M Be str := of_result (result_map_err Traversal (to_markdown c)).

(** [payload_repo.read]: every caller passes the repository of the store's
    own directory. *)
Definition payload_read (scope : Scope) (path : str) : M Be bytes :=
  access (fun env k w => (result_map_err BIo (read (w_dir w) path scope (en_fails env k)), w)).

Definition member_rel (slug : str) (m : ConceptEntry) : str :=
  default (ce_path m) (strip_prefix (lit "/" ++ slug ++ lit "/") (ce_path m)).
Fixpoint companions_of (cs : ConceptStore) (slug : str) (members : list ConceptEntry) : M Be (list (str * bytes)) :=
  match members with
  | [] => mret []
  | m :: members =>
      _ ← of_result (ensure_safe_rel (member_rel slug m));
      c ← stored_as BStore (get cs (ce_path m));
      md ← markdown_of c;
      rest ← companions_of cs slug members;
      mret ((member_rel slug m, as_bytes md) :: rest)
  end.
Fixpoint scripts_of (scope : Scope) (slug : str) (fs : list SkillFile) : M Be (list (str * bytes)) :=
  match fs with
  | [] => mret []
  | f :: fs =>
      if ends_with (lit ".md") (sf_path f) then scripts_of scope slug fs
      else
        _ ← of_result (ensure_safe_rel (sf_path f));
        b ← payload_read scope (lit "/" ++ slug ++ lit "/" ++ sf_path f);
        if match sf_md5 f with Some expected => negb (str_eqb expected (md5_hex b)) | None => false end
        then fail (ChecksumMismatch (sf_path f))
        else rest ← scripts_of scope slug fs; mret ((sf_path f, b) :: rest)
  end.

Definition bundle_skill_files (cs : ConceptStore) (payload_scope : Scope) (slug : str) : M Be (list SkillBundleFile) :=
  hub ← stored_as (hub_error slug) (get cs (lit "/" ++ slug ++ lit "/skill.md"));
  let manifest := fm_skill (frontmatter hub) in
  _ ← match manifest with
      | Some man => of_result (result_map_err Traversal (SkillManifest_validated man))
      | None => mret tt
      end;
  entries ← stored_as BStore (list_concepts cs);
  companions ← match find_first (fun g => str_eqb (gr_slug g) slug) (grouped (group_skills entries)) with
               | Some g => companions_of cs slug (gr_members g)
               | None => mret []
               end;
  scripts ← match manifest with
            | Some man => scripts_of payload_scope slug (sm_files man)
            | None => mret []
            end;
  md ← markdown_of hub;
  mret (mkBundleFile (lit "SKILL.md") (as_bytes md) ::
        first_of_each [lit "SKILL.md"] (sort_by by_rel companions ++ sort_by by_rel scripts)).

(** ** The skill tools *)

(** [slugify] *)
Definition slug_step (st : str * bool) (c : char) : str * bool :=
  if is_ascii_alphanumeric c then (st.1 ++ [to_ascii_lowercase c], false)
  else if negb st.2 then (st.1 ++ [45%N], true) else st.
Definition slugify (s : str) : str := trim_matches 45%N (fold_left slug_step (take 64 s) ([], true)).1.

Definition skill_candidates (name : str) : list str :=
  if ends_with (lit ".md") name then [lit "/" ++ trim_start_matches (lit "/") name]
  else let slug := slugify name in [lit "/" ++ slug ++ lit "/skill.md"; lit "/" ++ slug ++ lit ".md"].

(** The candidates of one store, in order; the stores of the caller and of
    the shelf are directories of their own, so each has its world. *)
Fixpoint first_skill (cs : ConceptStore) (paths : list str) : M Cse (option Concept) :=
  match paths with
  | [] => mret None
  | p :: paths =>
      fun env w =>
        match get cs p env w with
        | (Ok c, w) => if str_eqb (concept_type (frontmatter c)) (lit "Skill") then (Ok (Some c), w) else first_skill cs paths env w
        | (Err (CNotFound _), w) => first_skill cs paths env w
        | (Err e, w) => (Err e, w)
        end
  end.
Definition skill_get (user global : ConceptStore) (env : Env) (wu wg : World) (name : str) : result (option Concept) Cse :=
  match (first_skill user (skill_candidates name) env wu).1 with
  | Ok None => (first_skill global (skill_candidates name) env wg).1
  | r => r
  end.

Definition is_skill (e : ConceptEntry) : bool := str_eqb (ce_concept_type e) (lit "Skill").
Definition catalog_of (entries : list ConceptEntry) : list ConceptEntry :=
  let l := group_skills entries in
  retain is_skill (gr_hub <$> grouped l) ++ retain is_skill (flat l).

(** [Vec::dedup_by] on the paths *)
Fixpoint dedup_from (prev : ConceptEntry) (l : list ConceptEntry) : list ConceptEntry :=
  match l with
  | [] => []
  | e :: l => if str_eqb (ce_path e) (ce_path prev) then dedup_from prev l else e :: dedup_from e l
  end.
Definition dedup_paths (l : list ConceptEntry) : list ConceptEntry :=
  match l with [] => [] | e :: l => e :: dedup_from e l end.

Definition merge_catalogs (mine theirs : list ConceptEntry) : list ConceptEntry :=
  dedup_paths (sort_by by_path (catalog_of mine ++ catalog_of theirs)).
Definition skill_list (user global : ConceptStore) (env : Env) (wu wg : World) : result (list ConceptEntry) Cse :=
  (let? mine := (list_concepts user env wu).1 in
   let? theirs := (list_concepts global env wg).1 in
   Ok (merge_catalogs mine theirs))%rust.
End Skills.
