(* ===== verification/SkillsProofs.v ===== *)
(** * Skills: the grouping and the bundles

    What [group_skills] makes of a listing, and what a bundle holds. *)
From S2P Require Import Prelude Text Crypto FileRepo Clock Concept Search Lifecycle Revisions SearchIndex Vectors ConceptStore ConceptStoreProofs Skills.
Open Scope Z_scope.

(** ** Lists *)
Lemma concat_perm_retain {A K} (p : K -> A -> bool) ks (es : list A) : NoDup ks ->
  (forall x j k, p j x = true -> p k x = true -> j = k) ->
  concat ((fun k => retain (p k) es) <$> ks) ≡ₚ retain (fun x => existsb (fun k => p k x) ks) es.
Proof.
  intros Hks Hd. induction Hks as [|k ks Hk Hks IH]; simpl; [by rewrite (proj2 (retain_nil _ es))|]. rewrite IH.
  assert (Hne : forall x, p k x = true -> existsb (fun k => p k x) ks = false).
  { intros x Hx. apply existsb_false. intros j Hj. destruct (p j x) eqn:E; [|done]. by rewrite (Hd _ _ _ Hx E) in Hk. }
  clear IH. induction es as [|x es IH]; [done|]. simpl. destruct (p k x) eqn:E; simpl.
  - rewrite (Hne x E). simpl. by constructor.
  - destruct (existsb _ ks); simpl; [|done]. by rewrite <- Permutation_middle; constructor.
Qed.

Lemma retain_or {A} (f g : A -> bool) l : (forall x, f x = true -> g x = false) ->
  retain f l ++ retain g l ≡ₚ retain (fun x => f x || g x) l.
Proof.
  intros H. induction l as [|x l IH]; [done|]. simpl. destruct (f x) eqn:E; simpl.
  - rewrite (H x E). by constructor.
  - destruct (g x); simpl; [|done]. by rewrite <- Permutation_middle; constructor.
Qed.

Lemma last_retain_In {A} (f : A -> bool) l x : last (retain f l) = Some x -> x ∈ l /\ f x = true.
Proof. intros H. apply last_Some_elem_of in H. by apply elem_of_retain. Qed.

Lemma retain_single {A} (f : A -> bool) l x : NoDup l -> last (retain f l) = Some x ->
  (forall y, y ∈ l -> f y = true -> y = x) -> retain f l = [x].
Proof.
  intros Hl Hx Hu. assert (NoDup (retain f l)) as Hn by by apply (sublist_NoDup _ l); [|apply retain_sub].
  destruct (retain f l) as [|a r] eqn:E; [done|].
  assert (Ha : forall y, y ∈ a :: r -> y = x) by (intros y Hy; rewrite <- E in Hy; apply elem_of_retain in Hy as [??]; by apply Hu).
  rewrite (Ha a) by left. destruct r as [|b r]; [done|]. apply NoDup_cons in Hn as [Hn _].
  destruct Hn. rewrite (Ha a) by left. rewrite <- (Ha b) at 1 by (right; left). left.
Qed.

Lemma forallb_true {A} (f : A -> bool) l : forallb f l = true -> Forall (fun x => f x = true) l.
Proof. rewrite List.forallb_forall, Forall_forall. intros H x Hx. by apply H, list_elem_of_In. Qed.
Lemma Forall2_left {A B} (P : A -> B -> Prop) l k x : Forall2 P l k -> x ∈ l -> exists y, y ∈ k /\ P x y.
Proof.
  induction 1 as [|a b l k Hab _ IH]; [by intros ?%elem_of_nil|]. intros [->|Hx]%elem_of_cons; [exists b; split; [left|done]|].
  destruct (IH Hx) as (y & ? & ?). exists y. split; [by right|done].
Qed.
Lemma Forall2_right {A B} (P : A -> B -> Prop) l k y : Forall2 P l k -> y ∈ k -> exists x, x ∈ l /\ P x y.
Proof. intros H Hy. apply Forall2_flip in H. by apply (Forall2_left _ _ _ _ H). Qed.

(** ** Ordered association lists *)
Section Assoc.
Context {V : Type}.
Definition keys_increase (m : list (str * V)) : Prop := StronglySorted (fun a b => str_cmp a b = Lt) m.*1.

Lemma entry_keys key (d : V) f m k : k ∈ (entry_or_default key d f m).*1 <-> k = key \/ k ∈ m.*1.
Proof.
  induction m as [|[j v] m IH]; simpl; [set_solver|]. destruct (str_cmp key j) eqn:E; simpl.
  - apply str_cmp_eq in E as ->. set_solver.
  - set_solver.
  - rewrite !elem_of_cons, IH. set_solver.
Qed.

Lemma entry_increase key (d : V) f m : keys_increase m -> keys_increase (entry_or_default key d f m).
Proof.
  unfold keys_increase. induction m as [|[j v] m IH]; simpl; intros Hm; [by repeat constructor|].
  inversion Hm as [|? ? Hs Hj]; subst. destruct (str_cmp key j) eqn:E; simpl.
  - by constructor.
  - constructor; [done|]. constructor; [done|]. eapply Forall_impl; [exact Hj|]. intros x Hx. by eapply str_cmp_lt_trans.
  - constructor; [by apply IH|]. apply Forall_forall. intros x Hx. apply entry_keys in Hx as [->|Hx].
    + by rewrite str_cmp_opp, E.
    + rewrite Forall_forall in Hj. by apply Hj.
Qed.

Lemma increase_head (j : str) (v : V) m k w : keys_increase ((j, v) :: m) -> (k, w) ∈ m -> k <> j.
Proof.
  intros Hm Hin ->. inversion Hm as [|? ? _ Hj]; subst. rewrite Forall_forall in Hj.
  assert (j ∈ m.*1) as H by (apply list_elem_of_fmap; by exists (j, w)). apply Hj in H. by rewrite str_cmp_refl in H.
Qed.

(** The slot of a key, or the default *)
Definition slot_of (d : V) (k : str) (m : list (str * V)) : V :=
  match find_first (fun kv => str_eqb kv.1 k) m with Some kv => kv.2 | None => d end.

Lemma entry_slot key (d : V) f m k : keys_increase m ->
  slot_of d k (entry_or_default key d f m) = if decide (k = key) then f (slot_of d key m) else slot_of d k m.
Proof.
  unfold slot_of. induction m as [|[j v] m IH]; intros Hm; simpl.
  - destruct (str_eqb key k) eqn:E; [apply str_eqb_eq in E as ->; by rewrite decide_True|].
    rewrite decide_False; [done|]. intros ->. by rewrite (proj2 (str_eqb_eq _ _) eq_refl) in E.
  - destruct (str_cmp key j) eqn:E; cbn [find_first fst snd].
    + apply str_cmp_eq in E as ->. rewrite (proj2 (str_eqb_eq j j) eq_refl).
      destruct (str_eqb j k) eqn:Ek; [apply str_eqb_eq in Ek as ->; by rewrite decide_True|].
      rewrite decide_False; [done|]. intros ->. by rewrite (proj2 (str_eqb_eq _ _) eq_refl) in Ek.
    + assert (str_eqb j key = false) as ->.
      { destruct (str_eqb j key) eqn:Ej; [|done]. apply str_eqb_eq in Ej as ->. by rewrite str_cmp_refl in E. }
      assert (find_first (fun kv => str_eqb kv.1 key) m = None) as ->.
      { destruct (find_first _ m) as [[q w]|] eqn:Ef; [|done]. exfalso. inversion Hm as [|? ? _ Hj]; subst. rewrite Forall_forall in Hj.
        assert (q ∈ m.*1 /\ str_eqb q key = true) as [Hq Hqk].
        { clear -Ef. induction m as [|[a b] m IH]; [done|]. simpl in Ef. destruct (str_eqb a key) eqn:Ea.
          - injection Ef as <- <-. split; [left|done].
          - destruct (IH Ef). split; [by right|done]. }
        apply str_eqb_eq in Hqk as ->. pose proof (str_cmp_lt_trans _ _ _ E (Hj _ Hq)) as H. by rewrite str_cmp_refl in H. }
      destruct (str_eqb key k) eqn:Ek; [apply str_eqb_eq in Ek as ->; by rewrite decide_True|].
      rewrite decide_False; [done|]. intros ->. by rewrite (proj2 (str_eqb_eq _ _) eq_refl) in Ek.
    + assert (str_eqb j key = false) as Hjk.
      { destruct (str_eqb j key) eqn:Ej; [|done]. apply str_eqb_eq in Ej as ->. by rewrite str_cmp_refl in E. }
      rewrite Hjk. destruct (str_eqb j k) eqn:Ek.
      * apply str_eqb_eq in Ek as ->. rewrite decide_False; [done|]. intros ->. by rewrite (proj2 (str_eqb_eq _ _) eq_refl) in Hjk.
      * apply IH. by inversion Hm.
Qed.

Lemma increase_elem (d : V) m k v : keys_increase m -> (k, v) ∈ m <-> k ∈ m.*1 /\ v = slot_of d k m.
Proof.
  unfold slot_of. induction m as [|[j w] m IH]; intros Hm; simpl; [set_solver|].
  assert (keys_increase m) as Hm' by by inversion Hm. destruct (str_eqb j k) eqn:E.
  - apply str_eqb_eq in E as ->. simpl. split.
    + intros [[= ->]|H]%elem_of_cons; [split; [left|done]|]. by destruct (increase_head _ _ _ _ _ Hm H).
    + intros [_ ->]. left.
  - rewrite !elem_of_cons, (IH Hm'). assert (k <> j) by (intros ->; by rewrite (proj2 (str_eqb_eq _ _) eq_refl) in E).
    split; [intros [[= -> _]|[? ?]]; [done|by split; [right|]]|intros [[->|?] ?]; [done|by right]].
Qed.
End Assoc.

(** ** What the grouping computes *)

(** Files of the system are nowhere; the others are the hub of a directory,
    a member of one, or at the root. *)
Definition is_hub (slug : str) (e : ConceptEntry) : bool :=
  negb (is_system e) && bool_decide (in_dir (ce_path e) = Some (slug, lit "skill.md")).
Definition is_member (slug : str) (e : ConceptEntry) : bool :=
  negb (is_system e) &&
  match in_dir (ce_path e) with Some (d, rest) => str_eqb d slug && negb (str_eqb rest (lit "skill.md")) | None => false end.
Definition is_root (e : ConceptEntry) : bool := negb (is_system e) && bool_decide (in_dir (ce_path e) = None).
(** At the root, or in a directory without a hub *)
Definition is_flat (entries : list ConceptEntry) (e : ConceptEntry) : bool :=
  is_root e ||
  match in_dir (ce_path e) with
  | Some (slug, _) => is_member slug e && negb (existsb (is_hub slug) entries)
  | None => false
  end.

Lemma is_hub_spec slug e : is_hub slug e = true <-> is_system e = false /\ in_dir (ce_path e) = Some (slug, lit "skill.md").
Proof. unfold is_hub. by rewrite andb_true_iff, negb_true_iff, bool_decide_eq_true. Qed.
Lemma is_member_spec slug e : is_member slug e = true <->
  is_system e = false /\ exists rest, in_dir (ce_path e) = Some (slug, rest) /\ rest <> lit "skill.md".
Proof.
  unfold is_member. rewrite andb_true_iff, negb_true_iff. destruct (in_dir (ce_path e)) as [[d rest]|]; [|naive_solver].
  rewrite andb_true_iff, negb_true_iff, str_eqb_eq. split.
  - intros (Hs & -> & Hr). split; [done|]. exists rest. split; [done|]. intros ->. by rewrite (proj2 (str_eqb_eq _ _) eq_refl) in Hr.
  - intros (Hs & r & [= -> ->] & Hr). split_and!; [done|done|]. by apply not_true_iff_false; rewrite str_eqb_eq.
Qed.
Lemma is_root_spec e : is_root e = true <-> is_system e = false /\ in_dir (ce_path e) = None.
Proof. unfold is_root. by rewrite andb_true_iff, negb_true_iff, bool_decide_eq_true. Qed.

Lemma retain_snoc {A} (f : A -> bool) l x : retain f (l ++ [x]) = retain f l ++ if f x then [x] else [].
Proof. rewrite List.filter_app. by simpl; destruct (f x). Qed.

Definition dirs_spec (es : list ConceptEntry) (m : list (str * Slot)) : Prop :=
  keys_increase m /\
  (forall k, slot_of (None, []) k m = (last (retain (is_hub k) es), retain (is_member k) es)) /\
  (forall k, k ∈ m.*1 <-> exists e, e ∈ es /\ (is_hub k e = true \/ is_member k e = true)).

Lemma group_run es : let st := fold_left group_step es ([], []) in st.1 = retain is_root es /\ dirs_spec es st.2.
Proof.
  induction es as [|e es [IHf (IHi & IHs & IHk)]] using rev_ind.
  { split; [done|]. split_and!; [constructor|done|]. intros k. simpl. split; [by intros ?%elem_of_nil|by intros (? & ?%elem_of_nil & _)]. }
  rewrite fold_left_app. cbn [fold_left]. set (st := fold_left group_step es ([], [])) in *. unfold group_step.
  assert (Hkey : forall k, (exists x, x ∈ es ++ [e] /\ (is_hub k x = true \/ is_member k x = true)) <->
    k ∈ st.2.*1 \/ is_hub k e = true \/ is_member k e = true).
  { intros k. rewrite IHk. setoid_rewrite elem_of_app. setoid_rewrite list_elem_of_singleton. naive_solver. }
  destruct (is_system e) eqn:Hs.
  - assert (is_root e = false /\ forall k, is_hub k e = false /\ is_member k e = false) as [Hr Hkm]
      by (unfold is_root, is_hub, is_member; by rewrite Hs).
    unfold dirs_spec. rewrite retain_snoc, Hr, app_nil_r. split; [done|]. split_and!; [done| |].
    + intros k. rewrite !retain_snoc. destruct (Hkm k) as [-> ->]. by rewrite !app_nil_r.
    + intros k. rewrite Hkey. destruct (Hkm k) as [-> ->]. naive_solver.
  - destruct (in_dir (ce_path e)) as [[slug rest]|] eqn:Hd; cbn [fst snd].
    + assert (is_root e = false) as Hr by (unfold is_root; by rewrite Hd, Hs).
      assert (Hhub : forall k, is_hub k e = bool_decide (k = slug) && str_eqb rest (lit "skill.md")).
      { intros k. unfold is_hub. rewrite Hd, Hs. simpl. apply Bool.eq_iff_eq_true.
        rewrite andb_true_iff, !bool_decide_eq_true, str_eqb_eq. naive_solver. }
      assert (Hmem : forall k, is_member k e = bool_decide (k = slug) && negb (str_eqb rest (lit "skill.md"))).
      { intros k. unfold is_member. rewrite Hd, Hs. simpl. f_equal. apply Bool.eq_iff_eq_true.
        rewrite bool_decide_eq_true, str_eqb_eq. naive_solver. }
      unfold dirs_spec. rewrite retain_snoc, Hr, app_nil_r. split; [done|]. split_and!; [by apply entry_increase| |].
      * intros k. rewrite entry_slot by done. rewrite !retain_snoc, Hhub, Hmem. case_decide as Hk; subst.
        -- rewrite bool_decide_true by done. rewrite IHs. unfold slot_add. cbn [fst snd andb].
           destruct (str_eqb rest _); cbn [negb]; rewrite ?app_nil_r; [by rewrite last_snoc|done].
        -- rewrite bool_decide_false by done. cbn [andb]. by rewrite !app_nil_r.
      * intros k. rewrite Hkey, entry_keys, Hhub, Hmem. case_bool_decide as Hk; simpl; [|naive_solver].
        subst. destruct (str_eqb rest _); naive_solver.
    + assert (is_root e = true) as Hr by (unfold is_root; by rewrite Hd, Hs).
      assert (forall k, is_hub k e = false /\ is_member k e = false) as Hkm
        by (intros k; unfold is_hub, is_member; by rewrite Hd, Hs).
      unfold dirs_spec. rewrite retain_snoc, Hr, IHf. split; [done|]. split_and!; [done| |].
      * intros k. rewrite !retain_snoc. destruct (Hkm k) as [-> ->]. by rewrite !app_nil_r.
      * intros k. rewrite Hkey. destruct (Hkm k) as [-> ->]. naive_solver.
Qed.

Definition group_of (d : str * Slot) : option SkillGroup :=
  (fun hub => mkGroup d.1 hub (sort_by by_path d.2.2)) <$> d.2.1.
Definition hubless (d : str * Slot) : list ConceptEntry := match d.2.1 with Some _ => [] | None => d.2.2 end.
Lemma collect_run dirs : forall g f, fold_left collect_step dirs (g, f) = (g ++ omap group_of dirs, f ++ concat (hubless <$> dirs)).
Proof.
  induction dirs as [|[k [[hub|] ms]] dirs IH]; intros g f; simpl; [by rewrite !app_nil_r|..];
    unfold collect_step at 2; cbn [fst snd]; rewrite IH; simpl; by rewrite <- app_assoc.
Qed.

Lemma by_path_total P : TotalOn by_path P.
Proof.
  split; unfold ordered, by_path; intros.
  - by apply (total_cmp _ _ (str_cmp_total (fun _ => True))).
  - by eapply (trans_cmp _ _ (str_cmp_total (fun _ => True))).
Qed.
Lemma by_path_sorted l : StronglySorted (ordered by_path) (sort_by by_path l).
Proof. apply (sort_by_sorted _ (fun _ => True)); [apply by_path_total|by apply Forall_true]. Qed.

Lemma omap_keys_increase (m : list (str * Slot)) : keys_increase m ->
  StronglySorted (fun a b => str_cmp a b = Lt) (gr_slug <$> omap group_of m).
Proof.
  unfold keys_increase. induction m as [|[k s] m IH]; simpl; intros Hm; [constructor|]. inversion Hm as [|? ? Hs Hk]; subst.
  destruct s as [[hub|] ms]; simpl; [|by apply IH]. constructor; [by apply IH|]. apply Forall_forall. intros x Hx.
  apply list_elem_of_fmap in Hx as (g & -> & Hg). apply list_elem_of_omap in Hg as ([k' s'] & Hin & Hg).
  rewrite Forall_forall in Hk. unfold group_of in Hg. simpl in Hg. destruct s' as [[hub'|] ms']; simpl in Hg; [|done].
  injection Hg as <-. simpl. apply Hk. apply list_elem_of_fmap. by exists (k', (Some hub', ms')).
Qed.

Lemma grouped_elem entries g : g ∈ grouped (group_skills entries) <->
  exists k hub, last (retain (is_hub k) entries) = Some hub /\ g = mkGroup k hub (sort_by by_path (retain (is_member k) entries)).
Proof.
  destruct (group_run entries) as [_ (Hi & Hs & Hk)]. unfold group_skills. cbn [grouped]. rewrite collect_run. cbn [fst app].
  rewrite list_elem_of_omap. setoid_rewrite (increase_elem (None, []) _ _ _ Hi) || idtac. split.
  - intros ([k s] & Hin & Hg). apply (increase_elem (None, []) _ _ _ Hi) in Hin as [_ ->]. rewrite Hs in Hg.
    unfold group_of in Hg. cbn [fst snd] in Hg. destruct (last (retain (is_hub k) entries)) as [hub|] eqn:E; [|done].
    injection Hg as <-. by exists k, hub.
  - intros (k & hub & Hhub & ->). exists (k, (Some hub, retain (is_member k) entries)). split; [|done].
    apply (increase_elem (None, []) _ _ _ Hi). rewrite Hs, Hhub. split; [|done]. apply Hk. apply last_retain_In in Hhub as [? ?].
    exists hub. by split; [|left].
Qed.

Lemma slots_perm entries (m : list (str * Slot)) :
  Forall (fun d => default [] ((fun h => [h]) <$> d.2.1) ++ d.2.2 ≡ₚ
    retain (fun e => is_hub d.1 e || is_member d.1 e) entries) m ->
  concat ((fun g => gr_hub g :: gr_members g) <$> omap group_of m) ++ concat (hubless <$> m) ≡ₚ
  concat ((fun k => retain (fun e => is_hub k e || is_member k e) entries) <$> m.*1).
Proof.
  induction 1 as [|[k [[hub|] ms]] m Hd _ IH]; simpl in *; [done|..].
  - rewrite sort_by_perm, <- Hd. simpl. constructor. rewrite <- app_assoc. by f_equiv.
  - rewrite Permutation_app_swap_app, IH. by f_equiv.
Qed.

(** ** The paths *)
Lemma in_dir_slash p slug rest : starts_with (lit "/") p = true ->
  in_dir p = Some (slug, rest) <-> p = lit "/" ++ slug ++ lit "/" ++ rest /\ slash ∉ slug.
Proof.
  intros [t ->]%starts_with_spec. unfold in_dir. rewrite (proj2 (strip_prefix_Some _ _ t) eq_refl). cbn [default].
  change (lit "/") with [slash]. rewrite split_once_char_Some. simpl. split; [by intros [-> ?]|intros [[= ->] ?]; done].
Qed.

Lemma hub_not_system e slug : ce_path e = lit "/" ++ slug ++ lit "/skill.md" -> is_system e = false.
Proof.
  intros He. unfold is_system, path_basename. rewrite He. change (lit "/skill.md") with (slash :: lit "skill.md").
  rewrite app_assoc, last_split_app. by vm_compute.
Qed.

Lemma unlisted_key entries k : (exists e, e ∈ entries /\ is_hub k e = true) <->
  exists hub, last (retain (is_hub k) entries) = Some hub.
Proof.
  split.
  - intros (e & He & Hk). destruct (last (retain (is_hub k) entries)) as [hub|] eqn:E; [by exists hub|].
    apply last_None in E. by rewrite (proj1 (retain_nil _ _) E e He) in Hk.
  - intros [hub [? ?]%last_retain_In]. by exists hub.
Qed.

Lemma in_slot_spec k e : is_hub k e || is_member k e = true <-> is_system e = false /\ exists rest, in_dir (ce_path e) = Some (k, rest).
Proof.
  rewrite orb_true_iff, is_hub_spec, is_member_spec. split; [naive_solver|]. intros (Hs & rest & Hd).
  destruct (decide (rest = lit "skill.md")) as [->|Hr]; [by left|right]. split; [done|by exists rest].
Qed.

Lemma increase_NoDup {V} (m : list (str * V)) : keys_increase m -> NoDup m.*1.
Proof.
  unfold keys_increase. induction 1 as [|k l _ IH Hk]; constructor; [|done]. intros Hin. rewrite Forall_forall in Hk.
  apply Hk in Hin. by rewrite str_cmp_refl in Hin.
Qed.

Section Listing.
Context (entries : list ConceptEntry).
Context (Hnodup : NoDup (ce_path <$> entries)).
Context (Hslash : Forall (fun e => starts_with (lit "/") (ce_path e) = true) entries).

Lemma Hall e : e ∈ entries -> starts_with (lit "/") (ce_path e) = true.
Proof. rewrite Forall_forall in Hslash. apply Hslash. Qed.

Lemma hub_unique k e e' : e ∈ entries -> e' ∈ entries -> is_hub k e = true -> is_hub k e' = true -> e = e'.
Proof.
  rewrite Forall_forall in Hslash. intros He He' [_ H]%is_hub_spec [_ H']%is_hub_spec.
  apply in_dir_slash in H as [H _]; [|by apply Hslash]. apply in_dir_slash in H' as [H' _]; [|by apply Hslash].
  apply list_elem_of_lookup in He as [i Hi]. apply list_elem_of_lookup in He' as [j Hj].
  assert (i = j) as ->; [|congruence]. apply (NoDup_lookup _ _ _ (ce_path e) Hnodup); rewrite list_lookup_fmap.
  - by rewrite Hi.
  - rewrite Hj. simpl. congruence.
Qed.

Lemma slot_retained k : default [] ((fun h => [h]) <$> last (retain (is_hub k) entries)) ++ retain (is_member k) entries ≡ₚ
  retain (fun e => is_hub k e || is_member k e) entries.
Proof.
  rewrite <- (retain_or (is_hub k) (is_member k)).
  - destruct (last (retain (is_hub k) entries)) as [h|] eqn:E; simpl.
    + rewrite (retain_single _ _ _ (NoDup_fmap_1 _ _ Hnodup) E); [done|]. intros y Hy Hk. apply last_retain_In in E as [? ?].
      by apply (hub_unique k).
    + by apply last_None in E as ->.
  - intros e [_ He]%is_hub_spec. destruct (is_member k e) eqn:E; [|done]. apply is_member_spec in E as (_ & r & Hr & Hne). congruence.
Qed.

Lemma grouped_partition :
  retain (fun e => negb (is_system e)) entries ≡ₚ
    concat ((fun g => gr_hub g :: gr_members g) <$> grouped (group_skills entries)) ++ flat (group_skills entries).
Proof.
  destruct (group_run entries) as [Hf (Hi & Hs & Hk)]. unfold group_skills. cbn [grouped flat]. rewrite collect_run. cbn [fst snd app].
  rewrite sort_by_perm, Permutation_app_swap_app, (slots_perm entries), Hf.
  - rewrite (concat_perm_retain (fun k e => is_hub k e || is_member k e)).
    + rewrite retain_or.
      * apply reflexive_eq, retain_ext. intros e He. apply Bool.eq_iff_eq_true.
        rewrite orb_true_iff, is_root_spec, existsb_true, negb_true_iff. split.
        -- intros Hsys. destruct (in_dir (ce_path e)) as [[k rest]|] eqn:Hd; [right|by left].
           assert (is_hub k e || is_member k e = true) as Hm by (apply in_slot_spec; split; [done|by exists rest]).
           exists k. split; [|done]. apply Hk. exists e. split; [done|by apply orb_true_iff].
        -- intros [[? _]|(k & _ & [? _]%in_slot_spec)]; done.
      * intros e [_ He]%is_root_spec. apply existsb_false. intros k _. apply not_true_iff_false.
        intros [_ [r Hr]]%in_slot_spec. congruence.
    + by apply increase_NoDup.
    + intros e j k [_ [r Hj]]%in_slot_spec [_ [r' Hj']]%in_slot_spec. congruence.
  - apply Forall_forall. intros [k s] Hin. apply (increase_elem (None, []) _ _ _ Hi) in Hin as [_ ->]. rewrite Hs. apply slot_retained.
Qed.

(** The skills of a listing are a partition of it.  Every entry but the
    system files is in it exactly once: as the hub of a group, as a member,
    or flat.  The groups are those of the top-level directories with a
    [skill.md], one each, in the order of their slugs; a group's members
    are the other entries under its directory at any depth; members and
    flat entries are in the order of their paths. *)
Theorem skills_partition :
  let out := group_skills entries in
  retain (fun e => negb (is_system e)) entries ≡ₚ concat ((fun g => gr_hub g :: gr_members g) <$> grouped out) ++ flat out /\
  StronglySorted (fun a b => str_cmp a b = Lt) (gr_slug <$> grouped out) /\ StronglySorted (ordered by_path) (flat out) /\
  (forall slug, slug ∈ gr_slug <$> grouped out <-> slash ∉ slug /\ lit "/" ++ slug ++ lit "/skill.md" ∈ ce_path <$> entries) /\
  (forall g, g ∈ grouped out ->
     ce_path (gr_hub g) = lit "/" ++ gr_slug g ++ lit "/skill.md" /\ StronglySorted (ordered by_path) (gr_members g) /\
     forall e, e ∈ gr_members g <-> e ∈ entries /\ is_system e = false /\
       exists rest, rest <> lit "skill.md" /\ ce_path e = lit "/" ++ gr_slug g ++ lit "/" ++ rest).
Proof.
  intros out. split_and!.
  - apply grouped_partition.
  - unfold out, group_skills. cbn [grouped]. rewrite collect_run. cbn [fst app]. by apply omap_keys_increase, group_run.
  - apply by_path_sorted.
  - intros slug. rewrite !list_elem_of_fmap. split.
    + intros (g & -> & (k & hub & Hh & ->)%grouped_elem). apply last_retain_In in Hh as [Hh [_ Hd]%is_hub_spec].
      apply in_dir_slash in Hd as [Hd Hs]; [|by apply Hall]. split; [done|]. by exists hub.
    + intros (Hs & e & Hp & He). destruct (proj1 (unlisted_key entries slug)) as [hub Hh].
      * exists e. split; [done|]. apply is_hub_spec. split; [by apply (hub_not_system _ slug)|]. apply in_dir_slash; [by apply Hall|]. by split; [rewrite <- Hp|].
      * eexists. split; [|apply grouped_elem; by exists slug, hub]. done.
  - intros g (k & hub & Hh & ->)%grouped_elem. cbn [gr_hub gr_slug gr_members]. apply last_retain_In in Hh as [Hh [_ Hd]%is_hub_spec].
    apply in_dir_slash in Hd as [Hd Hs]; [|by apply Hall]. split_and!; [done|apply by_path_sorted|]. intros e.
    rewrite sort_by_perm, elem_of_retain, is_member_spec. split.
    + intros (He & Hsys & rest & Hin & Hr). apply in_dir_slash in Hin as [Hin _]; [|by apply Hall]. split_and!; [done|done|by exists rest].
    + intros (He & Hsys & rest & Hr & Hin). split_and!; [done|done|]. exists rest. split; [|done]. apply in_dir_slash; [by apply Hall|done].
Qed.
End Listing.

(** ** Bundles *)
Lemma first_of_each_spec l : forall seen,
  NoDup (rel_path <$> first_of_each seen l) /\
  (forall rel, rel ∈ rel_path <$> first_of_each seen l <-> rel ∉ seen /\ rel ∈ l.*1) /\
  (forall f, f ∈ first_of_each seen l -> (rel_path f, bf_bytes f) ∈ l).
Proof.
  induction l as [|[r b] l IH]; intros seen; cbn [first_of_each].
  { split_and!; [constructor| |by intros f ?%elem_of_nil]. intros rel. simpl. rewrite elem_of_nil. naive_solver. }
  case_bool_decide as Hr.
  - destruct (IH seen) as (H1 & H2 & H3). split_and!; [done| |intros f Hf; right; by apply H3].
    intros rel. rewrite H2. cbn. rewrite elem_of_cons. split; [naive_solver|]. intros [Hn [->|?]]; done.
  - destruct (IH (r :: seen)) as (H1 & H2 & H3). split_and!.
    + cbn. constructor; [|done]. rewrite H2. intros [Hn _]. apply Hn. left.
    + intros rel. cbn. rewrite !elem_of_cons, H2, elem_of_cons. destruct (decide (rel = r)) as [->|Hne]; [|naive_solver]. naive_solver.
    + intros f [->|Hf]%elem_of_cons; [left|right; by apply H3].
Qed.

Section Bundle.
Context {AE : Aead} {KD : Kdf} {HX : Hex} {UT : UuidText} {MJ : MetaJson} {M5 : Md5}.
Context {YE : Type} `{!YamlCodec YE}.
#[local] Abbreviation Be := (SkillBundleError YE).
#[local] Abbreviation concept_at := (concept_at (YE := YE)).

Lemma stored_as_Ok {A} f (m : M (ConceptStoreError YE) A) env w a w' : stored_as f m env w = (Ok a, w') -> m env w = (Ok a, w').
Proof. unfold stored_as. destruct (m env w) as [[b|e] w1]; [|done]. by intros [= <- <-]. Qed.

(** A path of the skill *)
Definition skill_file (slug rel : str) : str := lit "/" ++ slug ++ lit "/" ++ rel.
(** A companion: the markdown of the concept at that place of the skill *)
Definition companion_at (cs : ConceptStore) (d : gmap str bytes) (slug rel : str) (b : bytes) : Prop :=
  exists c md, concept_at cs d (skill_file slug rel) = Ok c /\ to_markdown c = Ok md /\ b = as_bytes md.
(** A script: the bytes of the payload of a file that the manifest declares *)
Definition script_at (scope : Scope) (d : gmap str bytes) (slug : str) (f : SkillFile) (b : bytes) : Prop :=
  read d (skill_file slug (sf_path f)) scope false = Ok b /\ forall h, sf_md5 f = Some h -> h = md5_hex b.

Lemma safe_rel rel : ensure_safe_rel (YE := YE) rel = Ok tt -> skill_path_ok rel = true.
Proof.
  unfold ensure_safe_rel, SkillManifest_validated. simpl. by destruct (skill_path_ok rel).
Qed.

Lemma companions_Ok cs slug members env : forall w l w',
  Forall (fun m => exists rest, in_dir (ce_path m) = Some (slug, rest)) members ->
  companions_of cs slug members env w = (Ok l, w') -> store_same w w' /\
  Forall2 (fun m rb => ce_path m = skill_file slug rb.1 /\ skill_path_ok rb.1 = true /\
    companion_at cs (w_dir w) slug rb.1 rb.2) members l.
Proof.
  induction members as [|m members IH]; intros w l w' Hall H; cbn [companions_of] in H.
  { apply ret_Ok in H as [<- ->]. split; [done|constructor]. }
  apply Forall_cons in Hall as [[rest Hm] Hall].
  apply bind_Ok in H as ([] & w1 & [Hsafe ->]%of_result_Ok & H). apply bind_Ok in H as (c & w1 & Hc%stored_as_Ok & H).
  apply get_Ok in Hc as (Hs1 & Hc & Hslash). apply in_dir_slash in Hm as [Hm _]; [|done].
  assert (member_rel slug m = rest) as Hrel.
  { unfold member_rel. rewrite (proj2 (strip_prefix_Some _ _ rest)); [done|]. by rewrite Hm, <- !app_assoc. }
  rewrite Hrel in *. unfold markdown_of in H. apply bind_Ok in H as (md & w2 & [Hmd ->]%of_result_Ok & H). apply map_err_Ok in Hmd.
  apply bind_Ok in H as (r & w2 & Hr & H). apply ret_Ok in H as [<- ->].
  destruct (IH _ _ _ Hall Hr) as [Hs2 HF]. split; [by etrans|]. constructor.
  - split_and!; [done|by apply safe_rel|]. exists c, md. cbn. unfold skill_file. by rewrite <- Hm.
  - destruct Hs1 as [(Hd & _) _]. by rewrite Hd in HF.
Qed.

Lemma scripts_Ok scope slug fs env : forall w l w', scripts_of (YE := YE) scope slug fs env w = (Ok l, w') -> store_same w w' /\
  Forall2 (fun f rb => rb.1 = sf_path f /\ skill_path_ok rb.1 = true /\ script_at scope (w_dir w) slug f rb.2)
    (retain (fun f => negb (ends_with (lit ".md") (sf_path f))) fs) l.
Proof.
  induction fs as [|f fs IH]; intros w l w' H; cbn [scripts_of] in H.
  { apply ret_Ok in H as [<- ->]. split; [done|constructor]. }
  cbn [List.filter]. destruct (ends_with _ _); cbn [negb]; [by apply IH|].
  apply bind_Ok in H as ([] & w1 & [Hsafe ->]%of_result_Ok & H). apply bind_Ok in H as (b & w1 & Hb & H).
  unfold payload_read, access in Hb. injection Hb as Hb <-. apply map_err_Ok, read_Ok in Hb as [Hb _].
  destruct (match sf_md5 f with Some _ => _ | None => false end) eqn:Hmd; [done|].
  apply bind_Ok in H as (r & w2 & Hr & H). apply ret_Ok in H as [<- ->]. destruct (IH _ _ _ Hr) as [Hs HF]. split; [by etrans|].
  constructor; [|done]. cbn [fst snd]. split_and!; [done|by apply safe_rel|]. split; [exact Hb|]. intros h Hh. rewrite Hh in Hmd.
  by apply negb_false_iff, str_eqb_eq in Hmd.
Qed.

Lemma list_Ok cs env w es w' : list_concepts (YE := YE) cs env w = (Ok es, w') -> es = scope_rows cs w /\ w' = with_tick (S (w_tick w)) w.
Proof. unfold list_concepts, access. destruct (en_fails _ _); [done|]. by intros [= <- <-]. Qed.

Lemma members_in_dir entries slug hub ms : mkGroup slug hub ms ∈ grouped (group_skills entries) ->
  Forall (fun m => exists rest, in_dir (ce_path m) = Some (slug, rest)) ms.
Proof.
  intros (k & h & _ & [= -> -> ->])%grouped_elem. apply Forall_forall. intros e. rewrite sort_by_perm, elem_of_retain.
  intros [_ (_ & rest & Hd & _)%is_member_spec]. by exists rest.
Qed.
Lemma find_group slug gs g : find_first (fun g => str_eqb (gr_slug g) slug) gs = Some g -> g ∈ gs /\ gr_slug g = slug.
Proof.
  induction gs as [|x gs IH]; cbn; [done|]. destruct (str_eqb (gr_slug x) slug) eqn:E.
  - intros [= ->]. split; [left|by apply str_eqb_eq].
  - intros H. destruct (IH H). split; [by right|done].
Qed.

Lemma find_group_Some slug gs g : g ∈ gs -> gr_slug g = slug -> exists g', find_first (fun g => str_eqb (gr_slug g) slug) gs = Some g'.
Proof.
  intros Hg Hs. induction gs as [|x gs IH]; [by apply elem_of_nil in Hg|]. cbn. destruct (str_eqb (gr_slug x) slug) eqn:E; [by exists x|].
  apply IH. apply elem_of_cons in Hg as [->|Hg]; [|done]. by rewrite Hs, (proj2 (str_eqb_eq _ _) eq_refl) in E.
Qed.
Lemma group_unique entries g g' : g ∈ grouped (group_skills entries) -> g' ∈ grouped (group_skills entries) -> gr_slug g = gr_slug g' -> g = g'.
Proof. intros (k & h & Hh & ->)%grouped_elem (k' & h' & Hh' & ->)%grouped_elem. cbn. intros <-. congruence. Qed.

(** The companions and the scripts that a bundle is put together from *)
Definition companions_spec (cs : ConceptStore) (w : World) (slug : str) (l : list (str * bytes)) : Prop :=
  (forall rb, rb ∈ l -> skill_path_ok rb.1 = true /\ companion_at cs (w_dir w) slug rb.1 rb.2) /\
  (forall rel, rel ∈ l.*1 <-> exists g e, g ∈ grouped (group_skills (scope_rows cs w)) /\ gr_slug g = slug /\
     e ∈ gr_members g /\ ce_path e = skill_file slug rel).
Definition scripts_spec (scope : Scope) (w : World) (slug : str) (hub : Concept) (l : list (str * bytes)) : Prop :=
  (forall rb, rb ∈ l -> skill_path_ok rb.1 = true /\ exists man f, fm_skill (frontmatter hub) = Some man /\ f ∈ sm_files man /\
     sf_path f = rb.1 /\ script_at scope (w_dir w) slug f rb.2) /\
  (forall rel, rel ∈ l.*1 <-> exists man f, fm_skill (frontmatter hub) = Some man /\ f ∈ sm_files man /\
     ends_with (lit ".md") (sf_path f) = false /\ sf_path f = rel).

Lemma skill_file_inj slug a b : skill_file slug a = skill_file slug b -> a = b.
Proof. unfold skill_file. rewrite !app_assoc. apply app_inv_head. Qed.

Lemma companions_found cs slug env w l w' :
  (match find_first (fun g => str_eqb (gr_slug g) slug) (grouped (group_skills (scope_rows cs w))) with
   | Some g => companions_of cs slug (gr_members g)
   | None => mret []
   end) env w = (Ok l, w') -> store_same w w' /\ companions_spec cs w slug l.
Proof.
  destruct (find_first _ _) as [g|] eqn:Ef; intros H.
  - apply find_group in Ef as [Hg Hs]. apply companions_Ok in H as [Hss HF].
    + split; [done|]. split.
      * intros rb Hrb. destruct (Forall2_right _ _ _ _ HF Hrb) as (m & _ & _ & Hok & Hc). done.
      * intros rel. rewrite list_elem_of_fmap. split.
        -- intros (rb & -> & Hrb). destruct (Forall2_right _ _ _ _ HF Hrb) as (m & Hm & Hp & _). by exists g, m.
        -- intros (g' & e & Hg' & Hs' & He & Hp). rewrite (group_unique _ g' g Hg' Hg) in He by congruence.
           destruct (Forall2_left _ _ _ _ HF He) as (rb & Hrb & Hp' & _). exists rb. split; [|done].
           apply (skill_file_inj slug). congruence.
    + destruct g as [s h ms]. cbn in Hs. subst s. by apply (members_in_dir _ _ _ _ Hg).
  - apply ret_Ok in H as [<- ->]. split; [done|]. split; [by intros rb ?%elem_of_nil|]. intros rel. split; [by intros ?%elem_of_nil|].
    intros (g & e & Hg & Hs & _). destruct (find_group_Some _ _ _ Hg Hs) as [g' Hg']. congruence.
Qed.

Lemma scripts_found scope slug hub env w l w' :
  (match fm_skill (frontmatter hub) with Some man => scripts_of (YE := YE) scope slug (sm_files man) | None => mret [] end) env w = (Ok l, w') ->
  store_same w w' /\ scripts_spec scope w slug hub l.
Proof.
  unfold scripts_spec. destruct (fm_skill (frontmatter hub)) as [man|]; intros H.
  - apply scripts_Ok in H as [Hss HF]. split; [done|]. split.
    + intros rb Hrb. destruct (Forall2_right _ _ _ _ HF Hrb) as (f & [Hf _]%elem_of_retain & Hp & Hok & Hs). split; [done|].
      by exists man, f.
    + intros rel. rewrite list_elem_of_fmap. split.
      * intros (rb & -> & Hrb). destruct (Forall2_right _ _ _ _ HF Hrb) as (f & [Hf Hmd]%elem_of_retain & Hp & _).
        exists man, f. by apply negb_true_iff in Hmd.
      * intros (man' & f & [= <-] & Hf & Hmd & <-).
        destruct (Forall2_left _ _ _ f HF) as (rb & Hrb & Hp & _); [apply elem_of_retain; by rewrite Hmd|]. by exists rb.
  - apply ret_Ok in H as [<- ->]. split; [done|]. split; [by intros rb ?%elem_of_nil|]. intros rel. split; [by intros ?%elem_of_nil|].
    by intros (man & f & [=] & _).
Qed.

(** C33. What a bundle holds.  A bundle that is assembled starts with the hub as
    [SKILL.md]; every other file is a companion of the skill's group, as the
    store has it, or a payload that the hub's manifest declares, with the
    declared digest where there is one; no relative name leaves the bundle's
    directory and none is there twice; every companion and every declared
    payload is there under its name; and nothing of the store changed. *)
Theorem bundle_holds cs scope slug env w files w' : bundle_skill_files cs scope slug env w = (Ok files, w') ->
  exists hub md rest,
    concept_at cs (w_dir w) (skill_file slug (lit "skill.md")) = Ok hub /\ to_markdown hub = Ok md /\
    files = mkBundleFile (lit "SKILL.md") (as_bytes md) :: rest /\ NoDup (rel_path <$> files) /\
    (forall f, f ∈ rest -> skill_path_ok (rel_path f) = true /\
       (companion_at cs (w_dir w) slug (rel_path f) (bf_bytes f) \/
        exists man sf, fm_skill (frontmatter hub) = Some man /\ sf ∈ sm_files man /\ sf_path sf = rel_path f /\
          script_at scope (w_dir w) slug sf (bf_bytes f))) /\
    (forall rel, rel ∈ rel_path <$> files <-> rel = lit "SKILL.md" \/
       (exists g e, g ∈ grouped (group_skills (scope_rows cs w)) /\ gr_slug g = slug /\ e ∈ gr_members g /\ ce_path e = skill_file slug rel) \/
       (exists man sf, fm_skill (frontmatter hub) = Some man /\ sf ∈ sm_files man /\ ends_with (lit ".md") (sf_path sf) = false /\ sf_path sf = rel)) /\
    store_same w w'.
Proof.
  intros H. unfold bundle_skill_files in H. apply bind_Ok in H as (hub & w1 & (Hs1 & Hhub & _)%stored_as_Ok%get_Ok & H).
  apply bind_Ok in H as ([] & w1' & Hman & H). assert (w1' = w1) as ->.
  { destruct (fm_skill (frontmatter hub)); [by apply of_result_Ok in Hman as [_ ->]|by apply ret_Ok in Hman as [_ ->]]. }
  apply bind_Ok in H as (es & w2 & [-> ->]%stored_as_Ok%list_Ok & H).
  apply bind_Ok in H as (comps & w3 & Hc & H). apply bind_Ok in H as (scripts & w4 & Hsc & H).
  unfold markdown_of in H. apply bind_Ok in H as (md & w5 & [Hmd ->]%of_result_Ok & H). apply map_err_Ok in Hmd. apply ret_Ok in H as [<- ->].
  assert (Hsame : forall w2, store_same w w2 -> w_dir w2 = w_dir w /\ scope_rows cs w2 = scope_rows cs w)
    by (intros w2 [(-> & Hf & _) _]; split; [done|]; unfold scope_rows; by rewrite Hf).
  assert (Hs2 : store_same w (with_tick (S (w_tick w1)) w1)) by (etrans; [exact Hs1|done]).
  rewrite (proj2 (Hsame _ Hs1)) in Hc. rewrite <- (proj2 (Hsame _ Hs2)) in Hc. apply companions_found in Hc as [Hs3 [Hc1 Hc2]].
  destruct (Hsame _ Hs2) as [Hd2 Hr2]. rewrite Hd2 in Hc1. rewrite Hr2 in Hc2.
  assert (store_same w w3) as Hs3' by by etrans. apply scripts_found in Hsc as [Hs4 [Hp1 Hp2]]. rewrite (proj1 (Hsame _ Hs3')) in Hp1.
  set (l := sort_by by_rel comps ++ sort_by by_rel scripts). assert (Hl : forall rb, rb ∈ l <-> rb ∈ comps \/ rb ∈ scripts)
    by (intros rb; unfold l; by rewrite elem_of_app, !sort_by_perm).
  assert (Hl1 : forall rel, rel ∈ l.*1 <-> rel ∈ comps.*1 \/ rel ∈ scripts.*1)
    by (intros rel; unfold l; by rewrite fmap_app, elem_of_app, !sort_by_perm).
  destruct (first_of_each_spec l [lit "SKILL.md"]) as (Hn & Hr & Hf). exists hub, md, (first_of_each [lit "SKILL.md"] l). split_and!.
  - exact Hhub.
  - done.
  - done.
  - cbn [fmap list_fmap rel_path]. constructor; [|done]. rewrite Hr. intros [Hx _]. apply Hx. left.
  - intros f Hfin. apply Hf, Hl in Hfin as [Hin|Hin]; [destruct (Hc1 _ Hin) as [? ?]|destruct (Hp1 _ Hin) as [? ?]]; split; [done|by left|done|by right].
  - intros rel. cbn [fmap list_fmap rel_path]. rewrite elem_of_cons, Hr, Hl1, Hc2, Hp2, list_elem_of_singleton.
    destruct (decide (rel = lit "SKILL.md")); tauto.
  - by etrans.
Qed.
End Bundle.

(** ** The list of skills *)
Definition at_path (p : str) (e : ConceptEntry) : bool := str_eqb (ce_path e) p.

Lemma insert_by_first p x l : find_first (at_path p) (insert_by by_path x l) = find_first (at_path p) (x :: l).
Proof.
  induction l as [|y l IH]; [done|]. cbn [insert_by]. destruct (by_path x y) eqn:E; [done..|]. cbn [find_first] in *. rewrite IH.
  destruct (at_path p y) eqn:Ey, (at_path p x) eqn:Ex; try done. unfold at_path in *. apply str_eqb_eq in Ey, Ex.
  unfold by_path in E. by rewrite Ex, Ey, str_cmp_refl in E.
Qed.
(** The sort is stable. *)
Lemma sort_by_first p l : find_first (at_path p) (sort_by by_path l) = find_first (at_path p) l.
Proof. induction l as [|x l IH]; [done|]. cbn [sort_by]. rewrite insert_by_first. cbn [find_first]. by rewrite IH. Qed.

Definition path_lt (a b : str) : Prop := str_cmp a b = Lt.
Lemma dedup_from_spec e l : StronglySorted (ordered by_path) (e :: l) ->
  StronglySorted path_lt (ce_path <$> e :: dedup_from e l) /\
  (forall p, find_first (at_path p) (e :: dedup_from e l) = find_first (at_path p) (e :: l)).
Proof.
  revert e. induction l as [|x l IH]; intros e Hs; [by split; [repeat constructor|]|]. inversion Hs as [|? ? Hs' He]; subst.
  cbn [dedup_from]. destruct (str_eqb (ce_path x) (ce_path e)) eqn:Ex.
  - apply str_eqb_eq in Ex. inversion Hs' as [|? ? Hl _]; subst. apply Forall_cons in He as [_ He].
    destruct (IH e) as [H1 H2]; [by constructor|]. split; [done|]. intros p. rewrite H2. cbn [find_first]. unfold at_path at 1 3 4. rewrite Ex.
    by destruct (str_eqb (ce_path e) p).
  - destruct (IH x Hs') as [H1 H2]. split.
    + cbn [fmap list_fmap]. constructor; [done|]. apply Forall_forall. intros q Hq.
      assert (path_lt (ce_path e) (ce_path x)) as Hlt.
      { apply Forall_cons in He as [He _]. unfold ordered, by_path in He. unfold path_lt. destruct (str_cmp (ce_path e) (ce_path x)) eqn:E; [|done..].
        apply str_cmp_eq in E. by rewrite E, (proj2 (str_eqb_eq _ _) eq_refl) in Ex. }
      cbn [fmap list_fmap] in H1. inversion H1 as [|? ? _ Hx]; subst. apply elem_of_cons in Hq as [->|Hq]; [done|].
      rewrite Forall_forall in Hx. eapply str_cmp_lt_trans; [exact Hlt|by apply Hx].
    + intros p. specialize (H2 p). cbn [find_first] in *. by rewrite H2.
Qed.
Lemma dedup_paths_spec l : StronglySorted (ordered by_path) l ->
  StronglySorted path_lt (ce_path <$> dedup_paths l) /\ (forall p, find_first (at_path p) (dedup_paths l) = find_first (at_path p) l).
Proof. destruct l as [|e l]; [by split; [constructor|]|apply dedup_from_spec]. Qed.

Lemma find_path_Some p l e : find_first (at_path p) l = Some e -> e ∈ l /\ ce_path e = p.
Proof.
  induction l as [|x l IH]; [done|]. cbn. destruct (at_path p x) eqn:E; [intros [= ->]; split; [left|by apply str_eqb_eq]|].
  intros H. destruct (IH H). split; [by right|done].
Qed.
Lemma find_path_is_Some p l : is_Some (find_first (at_path p) l) <-> p ∈ ce_path <$> l.
Proof.
  rewrite list_elem_of_fmap. split; [intros [e [? ?]%find_path_Some]; by exists e|]. intros (e & -> & He).
  induction l as [|x l IH]; [by apply elem_of_nil in He|]. cbn. destruct (at_path (ce_path e) x) eqn:E; [done|].
  apply elem_of_cons in He as [->|He]; [|by apply IH]. by rewrite (proj2 (str_eqb_eq _ _) eq_refl : at_path _ x = _) in E.
Qed.
Lemma find_first_app {A} (f : A -> bool) l k : find_first f (l ++ k) = match find_first f l with Some x => Some x | None => find_first f k end.
Proof. induction l as [|x l IH]; [done|]. cbn. by destruct (f x). Qed.
Lemma sorted_find l e : StronglySorted path_lt (ce_path <$> l) -> e ∈ l -> find_first (at_path (ce_path e)) l = Some e.
Proof.
  induction l as [|x l IH]; [by intros _ ?%elem_of_nil|]. cbn [fmap list_fmap]. inversion_clear 1 as [|? ? Hs Hx].
  intros [->|He]%elem_of_cons; cbn; unfold at_path; [by rewrite (proj2 (str_eqb_eq _ _) eq_refl)|].
  rewrite Forall_forall in Hx. destruct (str_eqb (ce_path x) (ce_path e)) eqn:E; [|by apply IH].
  apply str_eqb_eq in E. specialize (Hx (ce_path e) ltac:(apply list_elem_of_fmap; by exists e)). unfold path_lt in Hx.
  by rewrite E, str_cmp_refl in Hx.
Qed.

Lemma catalog_elem entries e : e ∈ catalog_of entries <->
  is_skill e = true /\ ((exists g, g ∈ grouped (group_skills entries) /\ gr_hub g = e) \/ e ∈ flat (group_skills entries)).
Proof.
  unfold catalog_of. rewrite elem_of_app, !elem_of_retain, list_elem_of_fmap. naive_solver.
Qed.

(** The list of skills is the catalog of the caller's bundle and that of
    the shelf without what the caller's shadows, once each, in path order. *)
Theorem skill_list_shadows mine theirs :
  let out := merge_catalogs mine theirs in
  StronglySorted path_lt (ce_path <$> out) /\
  (forall p, p ∈ ce_path <$> out <-> p ∈ ce_path <$> catalog_of mine \/ p ∈ ce_path <$> catalog_of theirs) /\
  (forall e, e ∈ out -> e ∈ catalog_of mine \/ e ∈ catalog_of theirs /\ ce_path e ∉ ce_path <$> catalog_of mine).
Proof.
  intros out. unfold out, merge_catalogs. set (l := catalog_of mine ++ catalog_of theirs).
  destruct (dedup_paths_spec (sort_by by_path l) (by_path_sorted l)) as [H1 H2].
  assert (Hf : forall p, find_first (at_path p) (dedup_paths (sort_by by_path l)) = find_first (at_path p) l)
    by (intros p; by rewrite H2, sort_by_first).
  split_and!; [done| |].
  - intros p. rewrite <- !find_path_is_Some, Hf. unfold l. rewrite find_first_app.
    destruct (find_first (at_path p) (catalog_of mine)) eqn:E; [split; [by left|done]|].
    split; [by right|intros [[? ?]|?]; done].
  - intros e He. pose proof (sorted_find _ _ H1 He) as H. rewrite Hf in H. unfold l in H. rewrite find_first_app in H.
    destruct (find_first (at_path (ce_path e)) (catalog_of mine)) as [e'|] eqn:E.
    + left. injection H as ->. by apply find_path_Some in E as [? _].
    + right. apply find_path_Some in H as [? _]. split; [done|]. rewrite <- find_path_is_Some, E. by intros [? ?].
Qed.

(** ** Witnesses *)
Module SkillsDemo.
#[local] Existing Instances demo_aead demo_kdf wide_hex char_uuid plain_meta ascii_lowercase sample_log pair_json.

#[local] Instance short_md5 : Md5 := {| md5 := take 2 |}.
Definition script : bytes := as_bytes (lit "echo hi").
Definition manifest (digest : bytes) : SkillManifest :=
  mkManifest 1 [mkSkillFile (lit "notes.md") Reference None; mkSkillFile (lit "run.sh") Script (Some (hex_encode (md5 digest)))].
(** The hub of every skill carries that manifest. *)
Definition skill_yaml (digest : bytes) : YamlCodec unit := {|
  from_str s := match strip_prefix (lit "type: ") s with
                | Some t => let t := trim t in
                    Ok (mkFrontmatter t None None None [] None None None
                          (if str_eqb t (lit "Skill") then Some (manifest digest) else None) None None None None None)
                | None => Err tt
                end;
  to_string f := Ok (fence ++ [nl] ++ lit "type: " ++ concept_type f ++ [nl]) |}.

Definition concept (ty path text : string) : Concept :=
  mkConcept (mkFrontmatter (lit ty) None None None [] None None None None None None None None None) (lit text) (lit path).
Definition put_in (c : Concept) (w : World) : World := (Demo.run Demo.calm (OPut c) w).2.
Definition before : World :=
  put_in (concept "Note" "/free.md" "flat") (put_in (concept "Note" "/s/sub/more.md" "three")
    (put_in (concept "Skill" "/s/sub/skill.md" "two") (put_in (concept "Note" "/s/notes.md" "one") (put_in (concept "Skill" "/s/skill.md" "hub") Demo.empty_world)))).
Definition shelf : World :=
  with_dir (write (w_dir before) (lit "/s/run.sh") script (repo_scope (cs_scope Demo.store)) demo_nonce demo_nonce (lit "u") None).2 before.
Definition bundle (digest : bytes) (slug : string) : result (list SkillBundleFile) (SkillBundleError unit) :=
  (bundle_skill_files (YamlCodec0 := skill_yaml digest) Demo.store (repo_scope (cs_scope Demo.store)) (lit slug) Demo.calm shelf).1.

Example bundle_files : option_map (List.map rel_path) (result_ok (bundle script "s")) =
  Some (List.map lit ["SKILL.md"; "notes.md"; "sub/more.md"; "sub/skill.md"; "run.sh"]%string).
Proof. vm_compute. reflexivity. Qed.
Example bundle_checks_digest : bundle (as_bytes (lit "other")) "s" = Err (ChecksumMismatch (lit "run.sh")).
Proof. vm_compute. reflexivity. Qed.
Example bundle_needs_hub : bundle script "free" = Err (NotBundle (lit "free")).
Proof. vm_compute. reflexivity. Qed.

(** A nested [skill.md] is a member and no hub, but its directory can be
    bundled: without its companions. *)
Example nested_bundle_incomplete :
  option_map (List.map rel_path) (result_ok
    (bundle_skill_files (YamlCodec0 := type_only) Demo.store (repo_scope (cs_scope Demo.store)) (lit "s/sub") Demo.calm shelf).1) =
  Some [lit "SKILL.md"] /\ lit "/s/sub/more.md" ∈ ce_path <$> scope_rows Demo.store shelf.
Proof. split; [vm_compute; reflexivity|]. vm_compute. repeat constructor. Qed.

(** A listed skill that no slug finds: the directory's own name is looked
    up in lower case with dashes. *)
#[local] Existing Instance type_only.
Definition shouting : World := put_in (concept "Skill" "/Rust_Async/skill.md" "hub") Demo.empty_world.
Definition got (name : string) : option str :=
  match skill_get (YE := unit) Demo.store Demo.store Demo.calm shouting shouting (lit name) with Ok (Some c) => Some (source_path c) | _ => None end.
Example slug_of_listed_skill_unresolved :
  option_map (List.map ce_path) (result_ok (skill_list (YE := unit) Demo.store Demo.store Demo.calm shouting shouting)) = Some [lit "/Rust_Async/skill.md"] /\
  List.map gr_slug (grouped (group_skills (scope_rows Demo.store shouting))) = [lit "Rust_Async"] /\
  got "Rust_Async" = None /\ got "rust_async" = None /\ got "/Rust_Async/skill.md" = Some (lit "/Rust_Async/skill.md").
Proof. split_and!; vm_compute; reflexivity. Qed.

#[local] Abbreviation run_bundle :=
  (bundle_skill_files (YamlCodec0 := skill_yaml script) Demo.store (repo_scope (cs_scope Demo.store)) (lit "s") Demo.calm shelf).
Lemma bundle_holds_witness : exists files w', run_bundle = (Ok files, w') /\ NoDup (rel_path <$> files) /\ store_same shelf w'.
Proof.
  assert (Hp : is_some (result_ok run_bundle.1) = true) by (vm_compute; reflexivity).
  destruct run_bundle as [[files|e] w'] eqn:E; [|discriminate Hp]. exists files, w'. split; [reflexivity|].
  destruct (bundle_holds (YamlCodec0 := skill_yaml script) Demo.store (repo_scope (cs_scope Demo.store)) (lit "s") Demo.calm shelf files w' E) as (hub & md & rest & _ & _ & _ & Hn & _ & _ & Hs).
  split; [exact Hn|exact Hs].
Defined.

Definition listing : list ConceptEntry := scope_rows Demo.store before.
Lemma skills_partition_witness :
  retain (fun e => negb (is_system e)) listing ≡ₚ
    concat ((fun g => gr_hub g :: gr_members g) <$> grouped (group_skills listing)) ++ flat (group_skills listing).
Proof.
  assert (Hn : bool_decide (NoDup (ce_path <$> listing)) = true) by (vm_compute; reflexivity).
  assert (Hs : forallb (fun e => starts_with (lit "/") (ce_path e)) listing = true) by (vm_compute; reflexivity).
  destruct (skills_partition listing (proj1 (bool_decide_eq_true _) Hn)) as (Hp & _); [|exact Hp].
  exact (forallb_true _ _ Hs).
Defined.
End SkillsDemo.
