(* ===== verification/Boot.v ===== *)
(** * What runs at boot

    [crates/mycelium-web/src/lifecycle.rs], the two sweeps over every scope
    (the migration of [deprecated] tags and the backfill of index lengths),
    and the seeding of [packaged_skills.rs].  The packaged texts themselves
    are arguments.

    A scope is its handle and its directory; the tables are shared. *)
From S2P Require Import Prelude Text Clock Crypto FileRepo Concept Search Lifecycle Revisions SearchIndex Vectors ConceptStore.
Open Scope Z_scope.

(** ** Deprecated tags *)
Section Tags.
Context {LC : Lowercase}.
Definition is_deprecated_tag (tag : str) : bool := str_eqb (to_lowercase (trim tag)) (lit "deprecated").

Definition set_migrated (now : str) (f : Frontmatter) : Frontmatter :=
  mkFrontmatter (concept_type f) (fm_title f) (fm_description f) (fm_resource f)
    (retain (fun t => negb (is_deprecated_tag t)) (fm_tags f)) (fm_timestamp f) (fm_book f) (fm_chapter_index f) (fm_skill f)
    (Some (lit "retired")) (fm_superseded_by f) (fm_valid_to f) (Some (lit "migration")) (Some now).
Definition rewrite_if_deprecated (now : str) (c : Concept) : option Concept :=
  if negb (existsb is_deprecated_tag (fm_tags (frontmatter c))) then None
  else Some (mkConcept (set_migrated now (frontmatter c)) (body c) (source_path c)).
End Tags.

(** ** Scopes *)
Inductive LifecycleError := UserEnumeration.
Record Shelves := mkShelves { sv_world : World; sv_dirs : gmap str (gmap str bytes) }.

Section Boot.
Context {AE : Aead} {KD : Kdf} {HX : Hex} {UT : UuidText} {MJ : MetaJson} {LC : Lowercase} {NL : NaturalLog} {DJ : DocJson}.
Context {YE : Type} `{!YamlCodec YE} (rfc3339_ok : str -> bool) (service_key : ServiceKey).
#[local] Abbreviation Cse := (ConceptStoreError YE).
#[local] Abbreviation sid cs := (scope_id (cs_scope cs)).

(** [sweep_targets]: [users] are the ids in their order, [None] when they
    cannot be read, [master_key_for] what recovering a key gives. *)
Definition user_target (master_key_for : Uuid -> option MasterKey) (id : str) : option ConceptStore :=
  user_id ← uuid_parse_str id; master ← master_key_for user_id; Some (ConceptStore_for_user user_id master).
Definition sweep_targets (users : option (list str)) (master_key_for : Uuid -> option MasterKey) : result (list ConceptStore) LifecycleError :=
  match users with
  | None => Err UserEnumeration
  | Some ids => Ok ([ConceptStore_for_service service_key (lit "skills"); ConceptStore_for_service service_key (lit "library")] ++
                    omap (user_target master_key_for) ids)
  end.

(** One scope's pass, in its directory *)
Definition in_scope (cs : ConceptStore) (pass : Env -> World -> Z * World) (env : Env) (st : Z * Shelves) : Z * Shelves :=
  let w := with_dir (default ∅ (sv_dirs st.2 !! sid cs)) (sv_world st.2) in
  let '(n, w) := pass env w in
  (st.1 + n, mkShelves w (<[sid cs := w_dir w]> (sv_dirs st.2))).

Fixpoint sum_passes {A} (pass : A -> Env -> World -> Z * World) (l : list A) (env : Env) (w : World) : Z * World :=
  match l with
  | [] => (0, w)
  | x :: l =>
      let '(n, w) := pass x env w in
      let '(m, w) := sum_passes pass l env w in
      (n + m, w)
  end.

(** ** The migration *)
Definition sweep_entry (cs : ConceptStore) (entry : ConceptEntry) (env : Env) (w : World) : Z * World :=
  if starts_with QUEUE_PREFIX (ce_path entry) then (0, w) else
  match get (YE := YE) cs (ce_path entry) env w with
  | (Err _, w) => (0, w)
  | (Ok c, w) =>
      match rewrite_if_deprecated (en_now env (w_tick w)) c with
      | None => (0, w)
      | Some rewritten => match put rfc3339_ok cs rewritten env w with (Ok _, w) => (1, w) | (Err _, w) => (0, w) end
      end
  end.
Definition sweep_scope (cs : ConceptStore) (env : Env) (w : World) : Z * World :=
  match list_concepts (YE := YE) cs env w with
  | (Err _, w) => (0, w)
  | (Ok entries, w) => sum_passes (sweep_entry cs) entries env w
  end.
Definition migrating (cs : ConceptStore) : ConceptStore := with_revision_op (lit "migration") (with_provenance (lit "migration") cs).
Definition migrate_deprecated_tags (users : option (list str)) (master_key_for : Uuid -> option MasterKey) (env : Env) (st : Shelves)
    : result Z LifecycleError * Shelves :=
  match sweep_targets users master_key_for with
  | Err e => (Err e, st)
  | Ok targets =>
      let st := fold_left (fun st cs => if str_eqb (sid cs) (lit "global:library") then st else in_scope cs (sweep_scope (migrating cs)) env st)
                  targets (0, st) in
      (Ok st.1, st.2)
  end.

(** ** The backfill *)
(** The paths that the query leaves out with [NOT LIKE] *)
Definition excluded (path : str) : bool := like (lit "/mutation-queue/%") path.
Definition backfill_candidates (cs : ConceptStore) (t : SearchTables) : list str :=
  sort_by str_cmp (omap (fun d : str * SearchDoc =>
    match sd_length d.2 with None => if excluded d.1 then None else Some d.1 | Some _ => None end) (scope_docs (sid cs) t)).
Definition backfill_row (cs : ConceptStore) (path : str) (env : Env) (w : World) : Z * World :=
  match reindex (YE := YE) cs path env w with (Ok _, w) => (1, w) | (Err _, w) => (0, w) end.
Definition backfill_scope (cs : ConceptStore) (env : Env) (w : World) : Z * World :=
  let k := w_tick w in
  let w := with_tick (S k) w in
  if en_fails env k then (0, w)
  else sum_passes (backfill_row cs) (backfill_candidates cs (sh_docs (w_shared w))) env w.
Definition backfill_index_lengths (users : option (list str)) (master_key_for : Uuid -> option MasterKey) (env : Env) (st : Shelves)
    : result Z LifecycleError * Shelves :=
  match sweep_targets users master_key_for with
  | Err e => (Err e, st)
  | Ok targets => let st := fold_left (fun st cs => in_scope cs (backfill_scope cs) env st) targets (0, st) in (Ok st.1, st.2)
  end.

(** ** Packaged skills *)
Inductive SeedError := SdConcept (e : ConceptError YE) | SdStore (e : Cse) | SdRepo (e : FileRepoError) | SdMarker.
Definition SKILLS_SEED_VERSION : str := lit "3".
Definition LEGACY_FLAT_PATHS : list str := lit <$> [
    "/pdf-to-markdown.md"; "/pdf-to-markdown-conventions.md";
    "/pdf-to-markdown-scripts.md"; "/pdf-to-markdown-script-convert.md";
    "/pdf-to-markdown-script-postprocess.md"; "/pdf-to-markdown-script-docling-page-span.md";
    "/pdf-to-markdown-script-html-cleanup.md"; "/pdf-to-markdown-script-inspect-pdf.md";
    "/pdf-to-markdown-script-setup-venv.md"; "/pdf-to-markdown-script-requirements.md";
    "/pdf-to-markdown-docling-options.md"; "/pdf-to-markdown-license.md"]%string.

Fixpoint parse_packaged (l : list (str * str)) : result (list Concept) (ConceptError YE) :=
  match l with
  | [] => Ok []
  | (p, md) :: l => (let? c := Concept_parse (lit "/" ++ p) md in let? cs := parse_packaged l in Ok (c :: cs))%rust
  end.
Fixpoint check_manifests (l : list Concept) : result unit (ConceptError YE) :=
  match l with
  | [] => Ok tt
  | c :: l =>
      (let? _ := match fm_skill (frontmatter c) with Some m => SkillManifest_validated m | None => Ok tt end in check_manifests l)%rust
  end.
Fixpoint delete_legacy (cs : ConceptStore) (paths : list str) : M Cse unit :=
  match paths with
  | [] => mret tt
  | p :: paths => fun env w =>
      match delete_concept cs p env w with
      | (Ok _, w) | (Err (CNotFound _), w) => delete_legacy cs paths env w
      | (Err e, w) => (Err e, w)
      end
  end.
(** What a refresh does to the shelf *)
Definition install (concepts : list Concept) (payloads : list (str * bytes)) : M Cse unit :=
  let cs := with_provenance (lit "seed") (ConceptStore_for_service service_key (lit "skills")) in
  _ ← delete_legacy cs LEGACY_FLAT_PATHS; _ ← put_batch rfc3339_ok cs concepts;
  for_each (fun p => repo_write cs (lit "/" ++ p.1) p.2) payloads.
(** [fails] says whether writing the marker fails. *)
Definition seed_packaged_skills (packaged : list (str * str)) (payloads : list (str * bytes))
    (fails : bool) (env : Env) (marker : option str) (w : World) : result unit SeedError * option str * World :=
  if str_eqb (trim (default [] marker)) SKILLS_SEED_VERSION then (Ok tt, marker, w) else
  match (let? l := parse_packaged packaged in let? _ := check_manifests l in Ok l)%rust with
  | Err e => (Err (SdConcept e), marker, w)
  | Ok concepts =>
      let '(r, w) := install concepts payloads env w in
      match r with
      | Err e => (Err (SdStore e), marker, w)
      | Ok _ => if fails then (Err SdMarker, marker, w) else (Ok tt, Some SKILLS_SEED_VERSION, w)
      end
  end.
End Boot.
