(* ===== verification/BootProofs.v ===== *)
(** * The boot sweeps: what they change *)
From S2P Require Import Prelude Text Clock Crypto FileRepo Concept Search Lifecycle Revisions SearchIndex Vectors ConceptStore ConceptStoreProofs Boot.
Open Scope Z_scope.

Section Proofs.
Context {AE : Aead} {KD : Kdf} {HX : Hex} {UT : UuidText} {MJ : MetaJson} {LC : Lowercase} {NL : NaturalLog} {DJ : DocJson}.
Context {YE : Type} `{!YamlCodec YE} (rfc3339_ok : str -> bool) (service_key : ServiceKey).
#[local] Abbreviation sid cs := (scope_id (cs_scope cs)).
#[local] Abbreviation put := (put (YE := YE) rfc3339_ok).
#[local] Abbreviation concept_at := (concept_at (YE := YE)).

(** ** The rewrite *)
Definition tagged (c : Concept) : bool := existsb is_deprecated_tag (fm_tags (frontmatter c)).

(** The concept, retired by the migration: its old self but for the tag, the
    status, the source and the time of confirmation *)
Definition retired (now : str) (c : Concept) : Concept :=
  let f := frontmatter c in
  mkConcept
    {| concept_type := concept_type f; fm_title := fm_title f; fm_description := fm_description f; fm_resource := fm_resource f;
       fm_tags := retain (fun t => negb (is_deprecated_tag t)) (fm_tags f); fm_timestamp := fm_timestamp f; fm_book := fm_book f;
       fm_chapter_index := fm_chapter_index f; fm_skill := fm_skill f; fm_status := Some (lit "retired");
       fm_superseded_by := fm_superseded_by f; fm_valid_to := fm_valid_to f; fm_source := Some (lit "migration");
       fm_confirmed_at := Some now |} (body c) (source_path c).
Lemma rewritten_retired now c c' : rewrite_if_deprecated now c = Some c' -> tagged c = true /\ c' = retired now c /\ tagged c' = false.
Proof.
  unfold rewrite_if_deprecated. fold (tagged c). destruct (tagged c); [|done]. intros [= <-]. split_and!; try done.
  unfold tagged. cbn. apply existsb_false. intros t [_ Ht]%elem_of_retain. by apply negb_true_iff in Ht.
Qed.
Lemma rewritten_valid now c c' : rewrite_if_deprecated now c = Some c' ->
  Frontmatter_validated (YamlError := YE) rfc3339_ok (frontmatter c) = Ok tt ->
  Frontmatter_validated (YamlError := YE) rfc3339_ok (frontmatter c') = Ok tt.
Proof.
  unfold rewrite_if_deprecated. destruct (existsb _ _); [|done]. intros [= <-]. unfold Frontmatter_validated, set_migrated. cbn.
  destruct (fm_status (frontmatter c)) as [v|]; [|done]. by destruct (LifecycleStatus_parse v).
Qed.

(** ** The migration *)

(** C31. A migrated concept is its old self, retired.  Where the sweep counts an
    entry, the file was a concept with the tag; now it holds the rewrite as
    the store stamps it: the same type, title, description, resource, time,
    book, chapter, skill, supersession and end of validity, the same other
    tags in their order, the same body and path, with the status retired
    and the migration as its source.  Without the tag it is no candidate
    again.  Nothing else of the scope changed, but for the files of reserved
    names (the indexes of directories), and the old bytes are in the
    revision log. *)
Theorem migration_effect (Hnc : no_collisions) cs low env entry w w' : meta_fits (lit "/index.md") -> 1 < low -> env_ok low env ->
  Inv (YE := YE) rfc3339_ok (cs_scope cs) w -> path_fits (ce_path entry) -> is_Some (w_files w !! (sid cs, ce_path entry)) ->
  Forall (fun v => v_no v < 9223372036854775808) (w_revs w') ->
  sweep_entry rfc3339_ok (migrating cs) entry env w = (1, w') ->
  exists c now0 now, concept_at cs (w_dir w) (ce_path entry) = Ok c /\ source_path c = ce_path entry /\ tagged c = true /\
    is_stored (YE := YE) (cs_scope cs) (stamp (migrating cs) now (retired now0 c)) w' /\ tagged (retired now0 c) = false /\
    others_same (cs_scope cs) (ce_path entry) w w' /\
    (forall b, read (w_dir w) (ce_path entry) (repo_scope (cs_scope cs)) false = Ok b ->
       read (w_dir w') (ce_path entry) (repo_scope (cs_scope cs)) false = Ok b \/
       exists no, get_revision (revisions_of (cs_scope cs)) (w_revs w') (ce_path entry) no false = Ok b).
Proof.
  intros Hroot Hlow He HI Hf Hrow Hfit Hrun. unfold sweep_entry in Hrun. destruct (starts_with QUEUE_PREFIX _); [done|].
  destruct (get (migrating cs) (ce_path entry) env w) as [[c|x] w1] eqn:Hget; [|done]. apply get_Ok in Hget as (Hs & Hc & _).
  destruct (rewrite_if_deprecated _ c) as [c'|] eqn:Hrw; [|done]. destruct (rewritten_retired _ _ _ Hrw) as (Ht & Er & Ht').
  assert (Hp : source_path c' = source_path c) by by rewrite Er.
  assert (source_path c = ce_path entry) as Hpath.
  { unfold ConceptStoreProofs.concept_at in Hc. destruct (read _ _ _ _) as [b|[[]| | | |]]; try done.
    destruct (from_utf8 b) as [md|]; [|done]. apply map_err_Ok in Hc. by eapply parse_path. }
  destruct (put (migrating cs) c' env w1) as [[[]|x] w2] eqn:Hput; [|done]. injection Hrun as <-.
  assert (HI1 : Inv (YE := YE) rfc3339_ok (cs_scope (migrating cs)) w1).
  { destruct Hs as [Hcore _]. eapply act_inv; [|exact HI]. by apply (core_quiet rfc3339_ok (cs_scope cs) low true). }
  destruct (put_effects rfc3339_ok Hnc (migrating cs) low env c' w1 w2 Hroot ltac:(lia) He HI1) as (_ & _ & (now & Hstored & _) & Ho & Hrev);
    [by rewrite Hp, Hpath|done|]. rewrite Hp, Hpath in *. destruct Hs as [(Hd & Hfiles & _) _].
  exists c, (en_now env (w_tick w1)), now. rewrite <- Er. split_and!; try done.
  - intros q Hq Hr. destruct (Ho q Hq Hr) as [E1 E2]. rewrite Hd in E1. rewrite Hfiles in E2. by split.
  - intros b Hbr. apply Hrev; [done|lia|by rewrite Hfiles|done|by rewrite Hd].
Qed.

(** A scope none of whose readable concepts carries the tag is left as it
    is, so a sweep after a complete one does nothing. *)
Lemma sweep_quiet cs entries env : forall w, (forall e c, e ∈ entries -> concept_at cs (w_dir w) (ce_path e) = Ok c -> tagged c = false) ->
  exists w', sum_passes (sweep_entry rfc3339_ok cs) entries env w = (0, w') /\ store_same w w'.
Proof.
  induction entries as [|e entries IH]; intros w H; cbn [sum_passes]; [by exists w|].
  assert (He : exists w1, sweep_entry rfc3339_ok cs e env w = (0, w1) /\ store_same w w1).
  { unfold sweep_entry. destruct (starts_with QUEUE_PREFIX (ce_path e)); [by exists w|].
    destruct (get cs (ce_path e) env w) as [[c|x] w1] eqn:Hget.
    - apply get_Ok in Hget as (Hs & Hc & _). pose proof (H e c ltac:(left) Hc) as Ht. unfold rewrite_if_deprecated.
      fold (tagged c). rewrite Ht. by exists w1.
    - exists w1. split; [done|]. by eapply (reads_get cs (ce_path e)). }
  destruct He as (w1 & -> & Hs). destruct (IH w1) as (w2 & -> & Hs2).
  - intros e' c He'. destruct Hs as [(Hd & _) _]. rewrite Hd. apply H. by right.
  - exists w2. split; [done|by etrans].
Qed.

(** ** The backfill *)
Definition unmeasured (cs : ConceptStore) (w : World) (p : str) : Prop := p ∈ backfill_candidates cs (sh_docs (w_shared w)).

Lemma unmeasured_spec cs w p : unmeasured cs w p <->
  excluded p = false /\ exists d, search_docs (sh_docs (w_shared w)) !! (sid cs, p) = Some d /\ sd_length d = None.
Proof.
  unfold unmeasured, backfill_candidates, scope_docs. rewrite sort_by_perm, list_elem_of_omap. split.
  - intros ([q d] & Hin & Hq). apply list_elem_of_omap in Hin as ([[s q'] d'] & Hin & Hm). apply elem_of_map_to_list in Hin. cbn [fst snd] in Hm.
    destruct (str_eqb s _) eqn:Es; [|done]. apply str_eqb_eq in Es as ->. injection Hm as -> ->. cbn [fst snd] in Hq.
    destruct (sd_length d) eqn:El; [done|]. destruct (excluded q) eqn:Ek; [done|]. injection Hq as ->. split; [done|by exists d].
  - intros (Hk & d & Hd & Hl). exists (p, d). split; [|cbn [fst snd]; by rewrite Hl, Hk]. apply list_elem_of_omap. exists ((sid cs, p), d).
    split; [by apply elem_of_map_to_list|]. cbn [fst snd]. by rewrite (proj2 (str_eqb_eq _ _) eq_refl).
Qed.

(** Only the index changes, and there only this path of this scope. *)
Definition index_at (cs : ConceptStore) (ps : list str) (w w' : World) : Prop :=
  w_dir w' = w_dir w /\ w_files w' = w_files w /\ w_revs w' = w_revs w /\ w_queue w' = w_queue w /\
  sh_vecs (w_shared w') = sh_vecs (w_shared w) /\
  forall s q, ~ (s = sid cs /\ q ∈ ps) -> search_docs (sh_docs (w_shared w')) !! (s, q) = search_docs (sh_docs (w_shared w)) !! (s, q).
Lemma index_at_refl cs ps w w' : store_same w w' -> w_shared w' = w_shared w -> index_at cs ps w w'.
Proof. intros [(? & ? & ?) ?] Hs. unfold index_at. by rewrite Hs. Qed.
Lemma index_at_trans cs ps ps' w w1 w2 : index_at cs ps w w1 -> index_at cs ps' w1 w2 -> index_at cs (ps ++ ps') w w2.
Proof.
  intros (H1 & H2 & H3 & H4 & H5 & H6) (G1 & G2 & G3 & G4 & G5 & G6). split_and!; try congruence.
  intros s q Hn. rewrite G6, H6; [done|..]; intros [-> Hq]; apply Hn; (split; [done|]); apply elem_of_app; [by left|by right].
Qed.

Lemma sid_index cs : ix_scope (index_of (cs_scope cs)) = sid cs.
Proof. unfold index_of, EncryptedIndex_for_user, EncryptedIndex_for_service, scope_id. by destruct (cs_scope cs). Qed.

Lemma get_ticks cs p env w : (get (YE := YE) cs p env w).2 = with_tick (S (w_tick w)) w.
Proof.
  unfold get, repo_read, access, mbind, M_bind. destruct (read _ _ _ _) as [b|[[]| | | |]]; try reflexivity. by destruct (from_utf8 b).
Qed.
Lemma index_add_effect ix t c nonce commits r t' : index_add ix t c nonce commits = (r, t') ->
  (exists x, r = Err x /\ t' = t) \/
  r = Ok tt /\ exists d n, search_docs t' = <[(ix_scope ix, source_path c) := d]> (search_docs (delete_rows t (ix_scope ix) (source_path c))) /\
    sd_length d = Some n.
Proof.
  unfold index_add. destruct (aead_seal _ _ _ _) as [sealed|x]; [|intros [= <- <-]; left; by eexists].
  destruct commits; cbn [negb]; [|intros [= <- <-]; left; by eexists]. destruct (insert_tokens _ _ _ _) as [rows|]; [|intros [= <- <-]; left; by eexists].
  intros [= <- <-]. right. split; [done|]. eexists _, _. by split.
Qed.

Lemma backfill_row_spec cs p env w n w' : backfill_row (YE := YE) cs p env w = (n, w') ->
  index_at cs [p] w w' /\ (n = 0 /\ sh_docs (w_shared w') = sh_docs (w_shared w) \/ n = 1 /\ ~ unmeasured cs w' p).
Proof.
  unfold backfill_row, reindex. destruct (starts_with QUEUE_PREFIX p).
  { intros [= <- <-]. split; [by apply index_at_refl|]. by left. }
  rewrite bind_run. assert (Hsh : w_shared (get (YE := YE) cs p env w).2 = w_shared w) by (by rewrite get_ticks).
  destruct (get cs p env w) as [[c|x] w1] eqn:Hget; cbn [snd] in Hsh; cycle 1.
  { intros [= <- <-]. split; [|left; by rewrite Hsh]. apply index_at_refl; [by eapply (reads_get cs p)|done]. }
  pose proof Hget as (Hs & Hc & _)%get_Ok. assert (source_path c = p) as Hpath.
  { unfold ConceptStoreProofs.concept_at in Hc. destruct (read _ _ _ _) as [b|[[]| | | |]]; try done.
    destruct (from_utf8 b) as [md|]; [|done]. apply map_err_Ok in Hc. by eapply parse_path. }
  assert (H1 : index_at cs [] w w1) by by apply index_at_refl.
  unfold index_concept, access. destruct (index_add _ _ _ _ _) as [r docs] eqn:Hadd. apply index_add_effect in Hadd.
  cbn [w_shared with_tick] in Hadd. destruct Hadd as [(x & -> & ->)|(-> & d & m & Hd & Hm)]; cbn [result_map_err]; intros [= <- <-].
  - split; [|left; split; [done|by rewrite Hsh]]. apply (index_at_trans cs [] [p] w w1 _ H1). by split_and!.
  - split.
    + apply (index_at_trans cs [] [p] w w1 _ H1). split_and!; try done. intros s q Hn. cbn. rewrite Hd, sid_index, Hpath. cbn.
      rewrite lookup_insert_ne, lookup_delete_ne; [done|..]; intros [= <- <-]; apply Hn; by split; [|left].
    + right. split; [done|]. rewrite unmeasured_spec. intros (_ & d' & Hd' & Hl). cbn in Hd'. rewrite Hd, sid_index, Hpath, lookup_insert_eq in Hd'.
      injection Hd' as <-. congruence.
Qed.

Lemma unmeasured_index cs ps w w' p : index_at cs ps w w' -> p ∉ ps -> unmeasured cs w' p <-> unmeasured cs w p.
Proof. intros (_ & _ & _ & _ & _ & H) Hp. rewrite !unmeasured_spec, H; [done|]. by intros [_ ?]. Qed.

Lemma backfill_rows_spec cs env ps : NoDup ps -> forall w n w', sum_passes (backfill_row (YE := YE) cs) ps env w = (n, w') ->
  index_at cs ps w w' /\ 0 <= n <= Z.of_nat (length ps) /\
  (forall p, unmeasured cs w' p -> unmeasured cs w p) /\ (n = Z.of_nat (length ps) -> forall p, p ∈ ps -> ~ unmeasured cs w' p).
Proof.
  induction 1 as [|p ps Hp Hnd IH]; intros w n w' Hrun; cbn [sum_passes] in Hrun.
  { injection Hrun as <- <-. split_and!; [by apply index_at_refl|done|done|done|]. by intros _ p ?%elem_of_nil. }
  destruct (backfill_row cs p env w) as [n1 w1] eqn:E1. destruct (sum_passes _ ps env w1) as [m w2] eqn:E2. injection Hrun as <- <-.
  destruct (backfill_row_spec _ _ _ _ _ _ E1) as [Hi1 Hn1]. destruct (IH _ _ _ E2) as (Hi2 & Hm & Hu2 & Hall). cbn [length].
  assert (Hle : 0 <= n1 <= 1) by (destruct Hn1 as [[-> _]|[-> _]]; lia). split_and!.
  - by apply (index_at_trans cs [p] ps w w1 w2).
  - lia.
  - lia.
  - intros q Hq%Hu2. destruct (decide (q = p)) as [->|Hne].
    + destruct Hn1 as [[_ Hd]|[_ Hd]]; [|done]. rewrite unmeasured_spec, Hd in Hq. by rewrite unmeasured_spec.
    + apply (proj1 (unmeasured_index cs [p] w w1 q Hi1 ltac:(by intros ?%list_elem_of_singleton))), Hq.
  - intros Hn q. assert (n1 = 1 /\ m = Z.of_nat (length ps)) as [-> ->] by lia. intros [->|Hq]%elem_of_cons; [|by apply Hall].
    intros Hu%Hu2. destruct Hn1 as [[? _]|[_ Hd]]; [done|by apply Hd].
Qed.

Lemma candidates_NoDup cs t : NoDup (backfill_candidates cs t).
Proof.
  unfold backfill_candidates. rewrite sort_by_perm, <- (list_fmap_id (omap _ _)). apply (NoDup_omap_key _ fst id).
  - intros [p d] [q d'] y y'. cbn [fst snd]. destruct (sd_length d), (sd_length d'), (excluded p), (excluded q); try done. by intros [= <-] [= <-].
  - rewrite <- (sid_index cs). apply scope_docs_NoDup.
Qed.

(** The backfill ends.  A pass measures candidates of its scope and nothing
    else: files, rows, revisions and the vectors stay, as do the index rows
    of other scopes and paths; no new candidate appears; and once a pass has
    measured as many rows as there were candidates, none is left, so later
    boots do nothing. *)
Theorem backfill_measures cs env w n w' : backfill_scope (YE := YE) cs env w = (n, w') ->
  let ps := backfill_candidates cs (sh_docs (w_shared w)) in
  index_at cs ps w w' /\ 0 <= n <= Z.of_nat (length ps) /\
  (forall p, p ∈ backfill_candidates cs (sh_docs (w_shared w')) -> p ∈ ps) /\
  (n = Z.of_nat (length ps) -> en_fails env (w_tick w) = false -> backfill_candidates cs (sh_docs (w_shared w')) = []).
Proof.
  intros Hrun ps. unfold backfill_scope in Hrun. cbv zeta in Hrun. set (w1 := with_tick (S (w_tick w)) w) in *.
  assert (H1 : index_at cs [] w w1) by by apply index_at_refl.
  destruct (en_fails env (w_tick w)) eqn:Hf.
  { injection Hrun as <- <-. split; [by split_and!|]. split; [lia|]. by split. }
  destruct (backfill_rows_spec cs env ps (candidates_NoDup _ _) w1 n w' Hrun) as (Hi & Hn & Hu & Hall). split_and!; try lia.
  - by apply (index_at_trans cs [] ps w w1 w').
  - exact Hu.
  - intros Hlen _. specialize (Hall Hlen). destruct (backfill_candidates cs (sh_docs (w_shared w'))) as [|p l] eqn:E; [done|].
    assert (unmeasured cs w' p) as Hp by (unfold unmeasured; rewrite E; left). destruct (Hall p (Hu p Hp) Hp).
Qed.

(** ** Seeding *)

(** The marker decides: where it names the current version nothing is
    touched; a seeding that succeeds leaves it so, and so the next boot
    touches nothing; one that fails leaves it as it was, and so the next
    boot tries again. *)
Theorem seed_once packaged payloads fails env marker w r marker' w' :
  seed_packaged_skills (YE := YE) rfc3339_ok service_key packaged payloads fails env marker w = (r, marker', w') ->
  match r with
  | Ok _ =>
      (trim (default [] marker) = SKILLS_SEED_VERSION -> marker' = marker /\ w' = w) /\
      forall packaged2 payloads2 fails2 env2 w2,
        seed_packaged_skills (YE := YE) rfc3339_ok service_key packaged2 payloads2 fails2 env2 marker' w2 = (Ok tt, marker', w2)
  | Err _ => marker' = marker /\ trim (default [] marker) <> SKILLS_SEED_VERSION
  end.
Proof.
  unfold seed_packaged_skills. destruct (str_eqb (trim (default [] marker)) SKILLS_SEED_VERSION) eqn:Em.
  { intros [= <- <- <-]. split; [done|]. intros. by rewrite Em. }
  assert (Hne : trim (default [] marker) <> SKILLS_SEED_VERSION) by (by intros E%str_eqb_eq; rewrite E in Em).
  destruct (let? _ := parse_packaged packaged in _)%rust as [concepts|x]; [|by intros [= <- <- <-]].
  destruct (install _ _ _ _ env w) as [[[]|x] w1]; [|by intros [= <- <- <-]]. destruct fails; intros [= <- <- <-]; [done|].
  split; [done|]. intros. by vm_compute.
Qed.
End Proofs.

Module BootDemo.
Import ConceptStoreProofs.Demo.
#[local] Existing Instances demo_aead demo_kdf wide_hex char_uuid plain_meta ascii_lowercase sample_log pair_json.

Definition tagged_note (path : string) (tags : list str) : Concept :=
  mkConcept (mkFrontmatter (lit "Note") None None None tags None None None None None None None None None) (lit "text") (lit path).

(** The tag is compared trimmed and without case, and as a whole. *)
Example tags_compared : (fun t => is_deprecated_tag (lit t)) <$> [" Deprecated "; "deprecated-x"; "deprecation"]%string = [true; false; false].
Proof. by vm_compute. Qed.
Example rewrite_demo : rewrite_if_deprecated (lit "now") (tagged_note "/a.md" [lit "x"; lit "DEPRECATED"]) =
  Some (mkConcept (mkFrontmatter (lit "Note") None None None [lit "x"] None None None None (Some (lit "retired")) None None
    (Some (lit "migration")) (Some (lit "now"))) (lit "text") (lit "/a.md")).
Proof. by vm_compute. Qed.
(** A codec that keeps the type and whether there are tags *)
#[local] Instance type_and_tag : YamlCodec unit := {|
  from_str s := match strip_prefix (lit "type: ") s with
                | Some t =>
                    let t := trim t in let tagged := ends_with (lit "!") t in
                    Ok (mkFrontmatter (if tagged then take (length t - 1) t else t) None None None
                          (if tagged then [lit "Deprecated"] else []) None None None None None None None None None)
                | None => Err tt
                end;
  to_string f := Ok (fence ++ [nl] ++ lit "type: " ++ concept_type f ++ match fm_tags f with [] => [] | _ => lit "!" end ++ [nl]) |}.

#[local] Abbreviation entry p := (mkConceptEntry (lit p) [] [] []).
Definition add (w : World) (c : Concept) : World := (run_op any_date store (OPut c) calm w).2.
Definition old : World := add (add empty_world (tagged_note "/old.md" [lit "deprecated"])) (tagged_note "/live.md" []).
#[local] Abbreviation migrated := (sweep_entry any_date (migrating store) (entry "/old.md") calm old).

Lemma add_inv w path tags : (length (lit path) <? 1000)%nat = true -> Inv (YE := unit) any_date (cs_scope store) w ->
  Inv (YE := unit) any_date (cs_scope store) (add w (tagged_note path tags)).
Proof.
  intros Hf HI. eapply history_inv; [apply demo_no_collisions|..|exact HI]; [exact (Z.le_refl 1)|apply root_fits|].
  eapply (h_op any_date (cs_scope store) 1 false store calm (OPut (tagged_note path tags))).
  1: done. 1: apply env_with_ok1. 1: by apply (note_fits path). 1: done. 1: apply surjective_pairing. apply h_nil.
Qed.
Lemma old_inv : Inv (YE := unit) any_date (cs_scope store) old.
Proof. apply add_inv; [done|]. apply add_inv; [done|]. apply fresh_inv, empty_fresh. Qed.

Lemma migration_effect_witness : exists c now w', migrated = (1, w') /\
  is_stored (cs_scope store) (stamp (migrating store) now c) w' /\ tagged c = false.
Proof.
  assert (H : migrated.1 = 1) by (vm_compute; reflexivity).
  assert (H1 : listed old "/old.md" = true) by (vm_compute; reflexivity).
  assert (H2 : numbers_fit migrated.2 = true) by (vm_compute; reflexivity).
  destruct migrated as [n w'] eqn:E. cbn [fst snd] in H, H2. subst n.
  destruct (migration_effect any_date demo_no_collisions store 25 calm (entry "/old.md") old w' root_fits ltac:(lia) (env_with_ok _)
    old_inv (note_fits "/old.md" eq_refl) (listed_some _ _ H1) (numbers_fit_spec _ H2) E) as (c & now0 & now & _ & _ & _ & Hs & Ht & _).
  exists (retired now0 c), now, w'. split; [reflexivity|]. by split.
Defined.

(** A row of before the lengths: the backfill measures it, once. *)
Definition forget_lengths (w : World) : World :=
  with_shared (set_docs (mkSearchTables (search_tokens (sh_docs (w_shared w)))
    ((fun d => mkSearchDoc (sd_payload d) None (sd_status d)) <$> search_docs (sh_docs (w_shared w)))) (w_shared w)) w.
#[local] Abbreviation filled := (backfill_scope (YE := unit) store calm (forget_lengths old)).
Example backfill_twice : backfill_candidates store (sh_docs (w_shared (forget_lengths old))) = [lit "/live.md"; lit "/old.md"] /\
  filled.1 = 2 /\ (backfill_scope (YE := unit) store calm filled.2).1 = 0.
Proof. split; [|split]; vm_compute; reflexivity. Qed.

Lemma backfill_measures_witness : backfill_candidates store (sh_docs (w_shared filled.2)) = [].
Proof.
  assert (H : filled.1 = 2) by (vm_compute; reflexivity).
  assert (Hc : backfill_candidates store (sh_docs (w_shared (forget_lengths old))) = [lit "/live.md"; lit "/old.md"]) by (vm_compute; reflexivity).
  destruct filled as [n w'] eqn:E. cbn [fst snd] in *. subst n.
  pose proof (backfill_measures (YE := unit) store calm (forget_lengths old) 2 w' E) as Hm. cbv zeta in Hm. rewrite Hc in Hm.
  destruct Hm as (_ & _ & _ & Hm). by apply Hm.
Defined.

(** The first boot installs, the second finds the marker. *)
#[local] Abbreviation first_boot packaged :=
  (seed_packaged_skills (YE := unit) any_date (mkService [7%N]) packaged [(lit "s/run.sh", as_bytes (lit "run"))] false calm None empty_world).
Definition hub_text : str := lit "---" ++ [nl] ++ lit "type: Skill" ++ [nl] ++ lit "---" ++ [nl] ++ lit "hub".
Example seeded : let '(r, marker, w) := first_boot [(lit "s/skill.md", hub_text)] in
  r = Ok tt /\ marker = Some (lit "3") /\
  option_map (List.map ce_path) (result_ok (list_concepts (YE := unit) (ConceptStore_for_service (mkService [7%N]) (lit "skills")) calm w).1) =
    Some [lit "/s/skill.md"].
Proof. vm_compute. by split_and!. Qed.
(** A text that does not parse is found before anything is written. *)
Example seed_refused : (first_boot [(lit "s/skill.md", lit "hub")]).2 = empty_world.
Proof. vm_compute. reflexivity. Qed.
End BootDemo.
