(* ===== verification/Fallback.v ===== *)
(** * The deterministic writers

    [crates/mycelium-librarian/src/fallback.rs]: what runs when the agent
    cannot: the direct write of an add, the dated addendum of an update, the
    wiring and flagging of a maintain, and the instruction texts.  They are
    programs over one handle of the concept store; the paths they hand to
    the hot memory are a part of their result.  The collision loop has fuel;
    one more than the files of the scope is enough ([direct_write_add_ends]). *)
From S2P Require Import Prelude Float Text Clock Crypto FileRepo Concept Graph Search Lifecycle Revisions SearchIndex Vectors ConceptStore ConceptStoreProofs.
Open Scope Z_scope.

Definition quote : char := 34.

(** ** Titles, slugs and paths *)
Definition derive_title (content : str) : str :=
  let first := match find_first (fun l => negb (bool_decide (trim l = []))) (lines content) with
               | Some l => l
               | None => lit "untitled"
               end in
  trim (take 80 first).

(** The loop of [slugify] *)
Fixpoint slug_chars (prev_dash : bool) (s : str) : str :=
  match s with
  | [] => []
  | c :: s =>
      if is_ascii_alphanumeric c then to_ascii_lowercase c :: slug_chars false s
      else if negb prev_dash then 45%N :: slug_chars true s else slug_chars true s
  end.
Definition slugify (s : str) : str := trim_matches 45 (slug_chars true (take 64 s)).

Definition path_slug (p : str) : str :=
  join (lit "/") (retain (fun s => negb (bool_decide (s = []))) (slugify <$> split slash (trim_matches slash p))).

Definition non_empty (s : str) : option str := match s with [] => None | _ => Some s end.

Definition derive_path (path_hint shelf : option str) (content : str) : str :=
  let slug := match (p ← path_hint; non_empty (path_slug p)) with Some s => s | None => slugify (derive_title content) end in
  let shelf_part := match (s ← shelf; non_empty (slugify s)) with Some s => s ++ lit "/" | None => [] end in
  lit "/" ++ shelf_part ++ slug ++ lit ".md".

Definition canonical (p : str) : str :=
  let trimmed := trim_matches slash (trim p) in
  if bool_decide (trimmed = []) then lit "/untitled.md"
  else if ends_with (lit ".md") trimmed then lit "/" ++ trimmed
  else lit "/" ++ trimmed ++ lit ".md".

Definition MAX_SEARCH_TERMS : nat := 32.
Definition search_terms (question : str) : list str := take MAX_SEARCH_TERMS (split_whitespace question).

(** [trim_end_matches(".md")] *)
Definition trim_end_md (s : str) : str := reverse (trim_start_matches (reverse (lit ".md")) (reverse s)).

(** [{stem}-{suffix}.md] *)
Definition suffixed (base_path : str) (suffix : N) : str := trim_end_md base_path ++ lit "-" ++ show_N suffix ++ lit ".md".

(** [s.find(p)] and [insert_str] after the match *)
Definition insert_after (p ins s : str) : option str :=
  match split_once p s with Some (a, b) => Some (a ++ p ++ ins ++ b) | None => None end.

(** ** Related concepts *)
Section Fallback.
Context {AE : Aead} {KD : Kdf} {HX : Hex} {UT : UuidText} {MJ : MetaJson} {LC : Lowercase} {NL : NaturalLog} {DJ : DocJson}.
Context {YE : Type} `{!YamlCodec YE} (rfc3339_ok : str -> bool).
#[local] Abbreviation Err' := (ConceptStoreError YE).

Definition title_tokens (s : str) : list str :=
  retain (fun t => (2 <=? byte_len t)%nat) (split_if (fun c => negb (is_ascii_alphanumeric c)) (to_lowercase s)).

Definition overlap (self other : list str) : f32 :=
  f32_of_Z (Z.of_nat (length (retain (fun t => existsb (str_eqb t) other) self))).

(** The loop of [best_related] *)
Definition better (path : str) (self_tokens : list str) (best : option (f32 * str * str)) (other : Concept) : option (f32 * str * str) :=
  if str_eqb (source_path other) path then best
  else
    let o := overlap self_tokens (title_tokens (default [] (fm_title (frontmatter other)))) in
    if f32_gt0 o && match best with None => true | Some (b, _, _) => match partial_cmp o b with Some Gt => true | _ => false end end
    then Some (o, source_path other, default (source_path other) (fm_title (frontmatter other)))
    else best.
Definition best_related (concepts : list Concept) (path : str) : option (str * str) :=
  self ← find_first (fun c => str_eqb (source_path c) path) concepts;
  let self_tokens := title_tokens (default [] (fm_title (frontmatter self))) in
  '(_, p, t) ← fold_left (better path self_tokens) concepts None;
  Some (trim_start_if (N.eqb slash) p, t).

(** ** The writers *)
Section Writers.
Context (cs : ConceptStore).

Definition clock : M Err' str := access (fun env k w => (Ok (en_now env k), w)).

(** [cs.get(..)] with its error in hand *)
Definition try_get (path : str) : M Err' (result Concept Err') :=
  fun env w => let '(r, w) := get cs path env w in (Ok r, w).
Definition try_put (c : Concept) : M Err' bool :=
  fun env w => let '(r, w) := put rfc3339_ok cs c env w in (Ok (match r with Ok _ => true | Err _ => false end), w).

(** The collision loop: [None] when the fuel runs out. *)
Fixpoint free_path (fuel : nat) (base_path content path : str) (suffix : N) : M Err' (option str) :=
  match fuel with
  | O => mret None
  | S fuel =>
      r ← try_get path;
      match r with
      | Ok existing =>
          if str_eqb (trim (body existing)) (trim content) then mret (Some path)
          else free_path fuel base_path content (suffixed base_path suffix) (suffix + 1)
      | Err (CNotFound _) => mret (Some path)
      | Err e => fail e
      end
  end.

Definition added_frontmatter (concept_type title now : str) : Frontmatter :=
  mkFrontmatter concept_type (Some title) None None [] (Some now) None None None None None None None None.

(** The path written, which is also the hot write; [None] when out of
    fuel. *)
Definition direct_write_add (fuel : nat) (content : str) (path_hint shelf ctype : option str) : M Err' (option str) :=
  let base_path := derive_path path_hint shelf content in
  let title := derive_title content in
  let ctype := match (t ← ctype; non_empty (trim t)) with Some t => t | None => lit "Note" end in
  path ← free_path fuel base_path content base_path 2;
  match path with
  | None => mret None
  | Some path =>
      now ← clock;
      _ ← put rfc3339_ok cs (mkConcept (added_frontmatter ctype title now) content path);
      mret (Some path)
  end.

Definition set_timestamp (v : str) (f : Frontmatter) : Frontmatter :=
  mkFrontmatter (concept_type f) (fm_title f) (fm_description f) (fm_resource f) (fm_tags f) (Some v) (fm_book f)
    (fm_chapter_index f) (fm_skill f) (fm_status f) (fm_superseded_by f) (fm_valid_to f) (fm_source f) (fm_confirmed_at f).
Definition addendum_body (body stamp instruction : str) : str :=
  trim_end body ++ [nl; nl] ++ lit "<!-- mycelium2:update:" ++ stamp ++ lit " -->" ++ [nl] ++ instruction ++ [nl].

Definition resolve_target (view : nat -> SearchTables) (instruction : str) (path_hint : option str) : M Err' str :=
  match path_hint with
  | Some p => mret (canonical p)
  | None =>
      hits ← search_scope cs view (SearchQuery_new (search_terms instruction));
      match hits with
      | h :: _ => mret (concept_path h)
      | [] => fail (CNotFound (lit "no matching concept"))
      end
  end.
Definition dated_addendum_update (view : nat -> SearchTables) (instruction : str) (path_hint : option str) : M Err' str :=
  path ← resolve_target view instruction path_hint;
  c ← get cs path;
  stamp ← clock;
  _ ← put rfc3339_ok cs (mkConcept (set_timestamp stamp (frontmatter c)) (addendum_body (body c) stamp instruction) (source_path c));
  mret path.

(** *** Maintain *)
Fixpoint load_all (entries : list ConceptEntry) : M Err' (list Concept) :=
  match entries with
  | [] => mret []
  | e :: entries =>
      r ← try_get (ce_path e);
      rest ← load_all entries;
      mret (match r with Ok c => c :: rest | Err _ => rest end)
  end.

Definition safe_title (title : str) : str :=
  retain (fun ch => negb ((ch =? 91) || (ch =? 93) || (ch =? 40) || (ch =? 41))%N) title.
Definition related_link (target title : str) : str :=
  [nl; nl] ++ lit "Related: [" ++ safe_title title ++ lit "](/" ++ target ++ lit ")" ++ [nl].

(** One orphan: the paths written *)
Definition wire_orphan (concepts : list Concept) (orphan : str) : M Err' (list str) :=
  match best_related concepts orphan with
  | None => mret []
  | Some (target, title) =>
      r ← try_get orphan;
      match r with
      | Err _ => mret []
      | Ok c =>
          if contains (lit "](/" ++ target ++ lit ")") (body c) then mret []
          else
            put_ok ← try_put (mkConcept (frontmatter c) (body c ++ related_link target title) (source_path c));
            mret (if (put_ok : bool) then [source_path c] else [])
      end
  end.

Definition BROKEN_MARKER : str := lit " <!-- mycelium2:broken-link -->".
Definition flag_broken (broken : BrokenLink) : M Err' (list str) :=
  r ← try_get broken.1;
  match r with
  | Err _ => mret []
  | Ok c =>
      match insert_after (lit "](" ++ broken.2 ++ lit ")") BROKEN_MARKER (body c) with
      | None => mret []
      | Some b =>
          put_ok ← try_put (mkConcept (frontmatter c) b (source_path c));
          mret (if (put_ok : bool) then [source_path c] else [])
      end
  end.

Fixpoint collect_hot {A} (f : A -> M Err' (list str)) (l : list A) : M Err' (list str) :=
  match l with
  | [] => mret []
  | x :: l => a ← f x; b ← collect_hot f l; mret (a ++ b)
  end.

Definition show_nat (n : nat) : str := show_N (N.of_nat n).
Definition healthy_text (h : GraphHealth) : str :=
  lit "Memory is healthy " ++ [8212%N] ++ lit " " ++ show_nat (concept_count h) ++ lit " concepts, " ++ show_nat (edge_count h) ++
  lit " links, no orphans, no broken links. Nothing to repair.".
Definition maintained_text (entries wired fixed : nat) (h : GraphHealth) : str :=
  lit "maintained " ++ show_nat entries ++ lit " concepts: wired " ++ show_nat wired ++ lit " orphans, flagged " ++
  show_nat fixed ++ lit " broken links (graph: " ++ show_nat (concept_count h) ++ lit " concepts, " ++
  show_nat (edge_count h) ++ lit " edges, " ++ show_nat (broken_link_count h) ++ lit " broken, " ++
  show_nat (orphan_count h) ++ lit " orphans before)".

(** The summary and the hot writes, in order *)
Definition wire_and_flag_maintain : M Err' (str * list str) :=
  entries ← list_concepts cs;
  concepts ← load_all entries;
  let g := build_graph_from_concepts concepts in
  let h := Graph_health g in
  if (orphan_count h =? 0)%nat && (broken_link_count h =? 0)%nat then mret (healthy_text h, [])
  else
    wired ← collect_hot (wire_orphan concepts) (orphans g);
    fixed ← collect_hot flag_broken (broken_links g);
    mret (maintained_text (length entries) (length wired) (length fixed) h, wired ++ fixed).

(** *** Instruction texts *)
Definition add_instruction (content : str) (path ctype : option str) : str :=
  lit "Persist the following knowledge into the knowledge base. First search for related or owning concepts. If this is an attribute or detail of an existing concept, patch it into that concept rather than creating a new one. Only a distinct stand-alone entity or substantial topic gets its own concept " ++ [8212%N] ++
  lit " and then you must also patch the related existing concepts to link back to it. This is content to store, not a message to answer " ++ [8212%N] ++
  lit " you must use the write tools." ++ [nl; nl] ++ lit "KNOWLEDGE TO RECORD:" ++ [nl] ++ content ++
  match path with
  | Some p => [nl; nl] ++ lit "If it fits, place new content at " ++ p ++ lit "."
  | None => []
  end ++
  match ctype with
  | Some kind => [nl; nl] ++ lit "The knowledge is of kind/type " ++ [quote] ++ kind ++ [quote; space; 8212%N] ++
                 lit " use it as the concept `type`."
  | None => []
  end.
Definition update_instruction (instruction_text : str) (path : option str) : str :=
  lit "Apply the following change to the knowledge base. Locate the concept(s) the change concerns (search first, read them), then apply targeted edits with the write tools. This is a change to apply, not a message to answer." ++
  [nl; nl] ++ lit "CHANGE TO APPLY:" ++ [nl] ++ instruction_text ++
  match path with
  | Some p => [nl; nl] ++ lit "The target concept is at " ++ p ++ lit "."
  | None => []
  end.

Definition or_none (s : str) : str := match s with [] => lit "(none)" | _ => s end.
Definition maintain_text (g : Graph) : str :=
  let orphan_list := join [nl] ((fun o => lit "- " ++ o) <$> orphans g) in
  let broken_list := join [nl] ((fun b : BrokenLink => lit "- " ++ b.1 ++ [32; 8594; 32]%N ++ b.2 ++ lit " (missing)") <$> broken_links g) in
  lit "Repair the knowledge graph. This is a maintenance task " ++ [8212%N] ++ lit " use the write tools." ++ [nl; nl] ++
  lit "ORPHANED CONCEPTS (no other concept links to them). For each, read it and the concepts it relates to, then wire it in: patch a genuinely related concept to reference it, and/or add outbound links from it to related concepts. Do NOT invent relationships that don't exist " ++ [8212%N] ++
  lit " if an orphan genuinely relates to nothing, leave it." ++ [nl] ++ or_none orphan_list ++ [nl; nl] ++
  lit "BROKEN LINKS (target does not exist). Fix the path if the target was renamed/moved, or remove the link if the target is gone." ++ [nl] ++
  or_none broken_list ++ [nl; nl] ++
  lit "Follow the enrich / link-both-ways rules. Read concepts before editing.".
Definition maintain_instruction : M Err' (str * GraphHealth) :=
  entries ← list_concepts cs;
  concepts ← load_all entries;
  let g := build_graph_from_concepts concepts in
  mret (maintain_text g, Graph_health g).
End Writers.

(** ** Slugs *)
Definition slug_char (c : char) : bool := in_range 97 122 c || is_ascii_digit c || (c =? 45)%N.

Lemma lower_slug c : is_ascii_alphanumeric c = true -> slug_char (to_ascii_lowercase c) = true.
Proof.
  unfold is_ascii_alphanumeric, to_ascii_lowercase, slug_char, is_ascii_uppercase, is_ascii_lowercase, is_ascii_digit, in_range.
  destruct (N.leb_spec 65 c), (N.leb_spec c 90), (N.leb_spec 97 c), (N.leb_spec c 122), (N.leb_spec 48 c), (N.leb_spec c 57); simpl;
    intros Ha; try done; try lia;
    repeat match goal with |- context [(?a <=? ?b)%N] => destruct (N.leb_spec a b); simpl end; try done; lia.
Qed.

Lemma slug_chars_shape prev s : Forall (fun c => slug_char c = true) (slug_chars prev s).
Proof.
  revert prev. induction s as [|c s IH]; intros prev; simpl; [done|].
  destruct (is_ascii_alphanumeric c) eqn:E; [constructor; [by apply lower_slug|done]|].
  destruct prev; simpl; [done|]. by constructor.
Qed.

Lemma trim_matches_Forall (P : char -> Prop) c s : Forall P s -> Forall P (trim_matches c s).
Proof.
  intros H. unfold trim_matches. destruct (trim_start_if_spec (N.eqb c) s) as (a & Hs & _).
  destruct (trim_end_if_spec (N.eqb c) (trim_start_if (N.eqb c) s)) as (b & Hb & _).
  rewrite Hs in H. apply Forall_app in H as [_ H]. rewrite Hb in H. by apply Forall_app in H as [H _].
Qed.

Lemma trim_matches_ends c s : head (trim_matches c s) <> Some c /\ last (trim_matches c s) <> Some c.
Proof.
  unfold trim_matches. set (t := trim_start_if (N.eqb c) s).
  destruct (trim_start_if_spec (N.eqb c) s) as (a & _ & _ & Hh). fold t in Hh.
  destruct (trim_end_if_spec (N.eqb c) t) as (b & Hb & _ & Hl). split.
  - destruct (trim_end_if (N.eqb c) t) as [|x u] eqn:E; [done|]. rewrite Hb in Hh. simpl in Hh.
    intros [= ->]. by rewrite N.eqb_refl in Hh.
  - destruct Hl as [->|(s' & x & -> & Hx)]; [done|]. rewrite last_snoc. intros [= ->]. by rewrite N.eqb_refl in Hx.
Qed.

(** A segment of a derived path: only lower-case letters, digits and inner
    dashes *)
Definition is_slug (s : str) : Prop := Forall (fun c => slug_char c = true) s /\ head s <> Some 45%N /\ last s <> Some 45%N.
Lemma slugify_shape s : is_slug (slugify s).
Proof. split; [apply trim_matches_Forall, slug_chars_shape|apply trim_matches_ends]. Qed.

Lemma path_slug_shape p : exists segs, path_slug p = join (lit "/") segs /\ Forall (fun s => is_slug s /\ s <> []) segs.
Proof.
  eexists. split; [done|]. apply Forall_forall. intros s Hs%list_elem_of_In%List.filter_In. destruct Hs as [Hs Hne].
  apply negb_true_iff, bool_decide_eq_false in Hne. split; [|done].
  apply list_elem_of_In, list_elem_of_fmap in Hs as (x & -> & _). apply slugify_shape.
Qed.

Lemma join_cons sep x l : l <> [] -> join sep (x :: l) = x ++ sep ++ join sep l.
Proof. by destruct l. Qed.

(** A derived path stays inside the bundle, whatever the hint, the shelf
    and the content: it is a slash, segments of lower-case letters, digits
    and inner dashes joined by single slashes, and [.md]; so it has no dot
    or parent segments, no empty segment and no separator from outside,
    except that the last segment is empty when there is no usable hint and
    the content's title has no letter or digit. *)
Theorem derive_path_confined hint shelf content : exists segs final,
  derive_path hint shelf content = lit "/" ++ join (lit "/") (segs ++ [final]) ++ lit ".md" /\
  Forall (fun s => is_slug s /\ s <> []) segs /\ is_slug final /\
  (final = [] -> slugify (derive_title content) = []).
Proof.
  set (slug := match (p ← hint; non_empty (path_slug p)) with Some s => s | None => slugify (derive_title content) end).
  assert (Hslug : exists segs final, slug = join (lit "/") (segs ++ [final]) /\ Forall (fun s => is_slug s /\ s <> []) segs /\
    is_slug final /\ (final = [] -> slugify (derive_title content) = [])).
  { unfold slug. destruct (p ← hint; non_empty (path_slug p)) as [s|] eqn:E.
    - destruct hint as [p|]; simpl in E; [|done]. destruct (path_slug_shape p) as (segs & Hp & Hsegs).
      assert (s = path_slug p /\ path_slug p <> []) as [-> Hne] by (by destruct (path_slug p); simplify_eq/=).
      destruct (segs : list str) as [|x l _] eqn:El using rev_ind; [rewrite Hp in Hne; done|].
      exists l, x. apply Forall_app in Hsegs as [? [[? ?] _]%Forall_cons]. split_and!; [done|done|done|done].
    - exists [], (slugify (derive_title content)). split_and!; [done|done|apply slugify_shape|done]. }
  destruct Hslug as (segs & final & Hs & Hsegs & Hf & Hempty). unfold derive_path. fold slug. rewrite Hs.
  destruct (s ← shelf; non_empty (slugify s)) as [sh|] eqn:E.
  - destruct shelf as [s|]; simpl in E; [|done].
    assert (sh = slugify s /\ slugify s <> []) as [-> Hne] by (by destruct (slugify s); simplify_eq/=).
    exists (slugify s :: segs), final. split_and!; [|by constructor; [split; [apply slugify_shape|]|]|done|done].
    cbn [app]. rewrite join_cons by (by destruct segs). by rewrite <- !app_assoc.
  - exists segs, final. done.
Qed.

(** ** The collision loop *)
Section Loop.
Context (cs : ConceptStore).
#[local] Abbreviation sc := (cs_scope cs).
#[local] Abbreviation content_at w p := (content sc w p).

(** What the loop takes a path to be *)
Definition same_text (w : World) (text p : str) : Prop := exists b md c,
  content_at w p = Some b /\ from_utf8 b = Some md /\ Concept_parse (YamlError := YE) p md = Ok c /\ trim (body c) = trim text.
Definition unreadable (w : World) (p : str) : Prop := forall b, content_at w p = Some b -> from_utf8 b = None.
Definition acceptable (w : World) (text p : str) : Prop := unreadable w p \/ same_text w text p.

Lemma get_cases p env w r w' : get (YE := YE) cs p env w = (r, w') -> w' = with_tick (S (w_tick w)) w /\
  match r with
  | Ok c => exists b md, content_at w p = Some b /\ from_utf8 b = Some md /\ Concept_parse p md = Ok c
  | Err (CNotFound _) => unreadable w p
  | Err _ => True
  end.
Proof.
  unfold get, repo_read, access, mbind, M_bind. cbn [w_dir with_tick]. unfold unreadable, content.
  destruct (en_fails env (w_tick w)).
  - destruct (read (w_dir w) p (repo_scope sc) true) as [b|e] eqn:E.
    + exfalso. unfold read in E. by destruct (validate p).
    + unfold read in E. destruct (validate p) as [[]|e'] eqn:Ev; cbn in E; injection E as <-.
      * by intros [= <- <-].
      * unfold validate in Ev. destruct (_ || _); [injection Ev as <-|done]. by intros [= <- <-].
  - destruct (read (w_dir w) p (repo_scope sc) false) as [b|e] eqn:E.
    + simpl. destruct (from_utf8 b) as [md|] eqn:Eu; simpl; cycle 1.
      { intros [= <- <-]. split; [done|]. intros b' [= <-]. done. }
      destruct (Concept_parse p md) as [c|e] eqn:Ep; intros [= <- <-]; (split; [done|]); simpl; [by exists b, md|done].
    + destruct e as [[]| | | |]; intros [= <- <-]; (split; [done|]); simpl; done.
Qed.

Lemma free_path_step fuel base text p n env w : free_path cs (S fuel) base text p n env w =
  let '(g, w1) := get (YE := YE) cs p env w in
  match g with
  | Ok c => if str_eqb (trim (body c)) (trim text) then (Ok (Some p), w1)
            else free_path cs fuel base text (suffixed base n) (n + 1) env w1
  | Err (CNotFound _) => (Ok (Some p), w1)
  | Err e => (Err e, w1)
  end.
Proof.
  cbn [free_path]. unfold mbind at 1, M_bind at 1, try_get. destruct (get cs p env w) as [[c|e] w1]; [by destruct (str_eqb _ _)|].
  by destruct e.
Qed.

Lemma free_path_cases fuel base text p n env w r w' : free_path cs fuel base text p n env w = (r, w') ->
  (exists k, w' = with_tick k w) /\
  match r with
  | Ok (Some q) => acceptable w text q /\ (q = p \/ exists k, (n <= k)%N /\ q = suffixed base k)
  | Ok None => is_Some (content_at w p) \/ fuel = 0%nat
  | Err _ => True
  end.
Proof.
  revert p n w. induction fuel as [|fuel IH]; intros p n w.
  { intros [= <- <-]. split; [by exists (w_tick w); destruct w|by right]. }
  rewrite free_path_step. destruct (get cs p env w) as [g w1] eqn:Eg.
  destruct (get_cases _ _ _ _ _ Eg) as [-> Hg]. destruct g as [c|e].
  - destruct Hg as (b & md & Hb & Hmd & Hc). destruct (str_eqb _ _) eqn:Et.
    + apply str_eqb_eq in Et. intros [= <- <-]. split; [by eexists|]. split; [right; by exists b, md, c|by left].
    + intros Hrun. apply IH in Hrun as [[k ->] Hr]. split; [by exists k|].
      destruct r as [[q|]|e]; [|left; by exists b|done].
      destruct Hr as [Hacc Hq]. split; [exact Hacc|]. right.
      destruct Hq as [->|(k' & Hk' & ->)]; [by exists n|exists k'; split; [lia|done]].
  - destruct e; try (intros [= <- <-]; split; [by eexists|done]).
    intros [= <- <-]. split; [by eexists|]. split; [by left|by left].
Qed.

(** Out of fuel, all the candidates are there. *)
Lemma free_path_none fuel base text p n env w w' : free_path cs (S fuel) base text p n env w = (Ok None, w') ->
  forall k, (k < fuel)%nat -> is_Some (content_at w (suffixed base (n + N.of_nat k))).
Proof.
  revert p n w. induction fuel as [|fuel IH]; intros p n w Hrun k Hk; [lia|].
  rewrite free_path_step in Hrun. destruct (get cs p env w) as [g w1] eqn:Eg.
  destruct (get_cases _ _ _ _ _ Eg) as [-> Hg]. destruct g as [c|e]; [|by destruct e].
  destruct (str_eqb _ _); [done|].
  destruct k as [|k].
  - rewrite N.add_0_r. by destruct (free_path_cases _ _ _ _ _ _ _ _ _ Hrun) as [_ [?|?]].
  - replace (n + N.of_nat (S k))%N with (n + 1 + N.of_nat k)%N by lia.
    exact (IH _ _ _ Hrun k ltac:(lia)).
Qed.

Lemma suffixed_inj base m n : suffixed base m = suffixed base n -> m = n.
Proof. unfold suffixed. intros E%(app_inv_head _)%(app_inv_head _)%(app_inv_tail _). by apply show_N_inj. Qed.

(** A scope holds no more readable paths than its directory has files. *)
Lemma readable_bound w (l : list str) : no_collisions -> dir_ok sc w -> NoDup l ->
  (forall p, p ∈ l -> is_Some (content_at w p)) -> (length l <= size (w_dir w))%nat.
Proof.
  intros Hnc [spec HR] Hnd Hl. pose proof (fun p => represents_content sc w p spec HR) as Hspec.
  set (names := stored_name (file_keys (repo_scope sc)) <$> l).
  assert (Hnames : NoDup names).
  { apply NoDup_fmap_2_strong; [|done]. intros x y _ _. by apply stored_name_inj. }
  assert (Hsub : list_to_set names ⊆ dom (w_dir w)).
  { intros x Hx. apply elem_of_list_to_set in Hx. apply list_elem_of_fmap in Hx as (p & -> & Hp).
    destruct (Hl p Hp) as [b Hb]. pose proof (content_slash _ _ _ _ Hb) as Hs. rewrite (Hspec _ Hs) in Hb.
    pose proof (HR p Hs) as H. rewrite Hb in H. destruct H as (outer & inner & Hst & _). unfold stored in Hst.
    by apply elem_of_dom. }
  apply subseteq_size in Hsub. rewrite size_list_to_set in Hsub by done. rewrite size_dom in Hsub.
  unfold names in Hsub. by rewrite length_fmap in Hsub.
Qed.

Lemma free_path_ends fuel base text p n env w w' : no_collisions -> dir_ok sc w -> (size (w_dir w) + 1 < fuel)%nat ->
  free_path cs fuel base text p n env w <> (Ok None, w').
Proof.
  intros Hnc Hd Hf Hrun. destruct fuel as [|fuel]; [lia|].
  pose proof (free_path_none _ _ _ _ _ _ _ _ Hrun) as Hall.
  set (l := (fun k => suffixed base (n + N.of_nat k)) <$> seq 0 fuel).
  assert (Hb : (length l <= size (w_dir w))%nat).
  { apply readable_bound; [done|done| |].
    - apply NoDup_fmap_2_strong; [|apply NoDup_seq]. intros x y _ _ E%suffixed_inj. lia.
    - intros q (k & -> & Hk)%list_elem_of_fmap. apply elem_of_seq in Hk. apply Hall. lia. }
  unfold l in Hb. rewrite length_fmap, length_seq in Hb. lia.
Qed.
End Loop.

(** The deterministic add never writes over another text, and its
    collision loop ends.  With more fuel than files it never runs out; the
    path it reports is the derived one or that with a suffix from 2 up; at
    that path nothing readable was, or the same text up to surrounding white
    space; the text is now stored there as the body of a concept, and every
    other concept is as before. *)
Theorem direct_write_add_safe cs low env fuel text hint shelf ctype w r w' : no_collisions -> meta_fits (lit "/index.md") ->
  1 <= low -> env_ok low env -> Inv (YE := YE) rfc3339_ok (cs_scope cs) w -> (size (w_dir w) + 1 < fuel)%nat ->
  direct_write_add cs fuel text hint shelf ctype env w = (r, w') ->
  let base := derive_path hint shelf text in
  r <> Ok None /\
  forall p, r = Ok (Some p) -> path_fits p ->
    (p = base \/ exists k, (2 <= k)%N /\ p = suffixed base k) /\ acceptable cs w text p /\
    (exists ctype t now, is_stored (cs_scope cs) (stamp cs now (mkConcept (added_frontmatter ctype (derive_title text) t) text p)) w') /\
    others_same (cs_scope cs) p w w'.
Proof.
  intros Hnc Hroot Hlow He HI Hfuel Hrun base.
  unfold direct_write_add in Hrun. fold base in Hrun. set (ct := match _ with Some t => t | None => lit "Note" end) in Hrun.
  rewrite bind_run in Hrun. destruct (free_path cs fuel base text base 2 env w) as [g w1] eqn:Eg.
  destruct (free_path_cases _ _ _ _ _ _ _ _ _ _ Eg) as [[k ->] Hg].
  destruct g as [[p|]|e]; [| |injection Hrun as <- <-; by split].
  - destruct Hg as [Hacc Hp]. unfold mbind, M_bind, clock, access in Hrun.
    set (c := mkConcept (added_frontmatter ct (derive_title text) (en_now env (w_tick (with_tick k w)))) text p) in Hrun.
    set (w1 := with_tick (S (w_tick (with_tick k w))) (with_tick k w)) in Hrun.
    destruct (put rfc3339_ok cs c env w1) as [[[]|e] w2] eqn:Ep; injection Hrun as <- <-; [|by split].
    split; [done|]. intros q [= <-] Hf.
    assert (HI1 : Inv (YE := YE) rfc3339_ok (cs_scope cs) w1) by (by apply (other_inv _ _ w); [..|apply HI|]).
    destruct (put_done rfc3339_ok Hnc cs low env c w1 w2 Hroot Hlow He HI1 Hf Ep) as (_ & _ & (now & Hst & _) & Ho).
    split_and!; [exact Hp|exact Hacc|by eexists ct, _, now|exact Ho].
  - exfalso. eapply free_path_ends; [exact Hnc|apply HI|exact Hfuel|exact Eg].
Qed.

(** The dated addendum keeps the old text.  When the deterministic
    update of an explicit path succeeds, the concept at the canonical form
    of that path is the concept that was there, with the same frontmatter
    but for the stamps, and as body the old body without trailing white
    space, the dated marker and the instruction; every other concept is as
    before. *)
Theorem addendum_keeps_text cs low env view instruction hint w p w' : no_collisions -> meta_fits (lit "/index.md") ->
  1 <= low -> env_ok low env -> Inv (YE := YE) rfc3339_ok (cs_scope cs) w -> path_fits (canonical hint) ->
  dated_addendum_update cs view instruction (Some hint) env w = (Ok p, w') ->
  p = canonical hint /\
  exists b md c t now, read (w_dir w) p (repo_scope (cs_scope cs)) false = Ok b /\ from_utf8 b = Some md /\
    Concept_parse (YamlError := YE) p md = Ok c /\
    is_stored (cs_scope cs) (stamp cs now (mkConcept (set_timestamp t (frontmatter c))
      (trim_end (body c) ++ [nl; nl] ++ lit "<!-- mycelium2:update:" ++ t ++ lit " -->" ++ [nl] ++ instruction ++ [nl]) p)) w' /\
    others_same (cs_scope cs) p w w'.
Proof.
  intros Hnc Hroot Hlow He HI Hf Hrun. unfold dated_addendum_update, resolve_target in Hrun.
  unfold mbind, M_bind, mret, M_ret in Hrun. cbv beta iota in Hrun. set (q := canonical hint) in *.
  destruct (get cs q env w) as [[c|e] w1] eqn:Eg; [|done].
  destruct (get_cases _ _ _ _ _ _ Eg) as [-> (b & md & Hb & Hmd & Hc)]. pose proof (parse_path _ _ _ Hc) as Hpath.
  unfold clock, access in Hrun. set (w1 := with_tick (S (w_tick w)) w) in *.
  set (t := en_now env (w_tick w1)) in *. rewrite Hpath in Hrun.
  set (c' := mkConcept (set_timestamp t (frontmatter c)) (addendum_body (body c) t instruction) q) in *.
  set (w2 := with_tick (S (w_tick w1)) w1) in *.
  destruct (put rfc3339_ok cs c' env w2) as [[[]|e] w3] eqn:Ep; [|done]. injection Hrun as <- <-. split; [done|].
  assert (HI2 : Inv (YE := YE) rfc3339_ok (cs_scope cs) w2) by (by apply (other_inv _ _ w); [..|apply HI|]).
  destruct (put_done rfc3339_ok Hnc cs low env c' w2 w3 Hroot Hlow He HI2 Hf Ep) as (_ & _ & (now & Hst & _) & Ho).
  exists b, md, c, t, now. split_and!; [by apply content_read|done|done|exact Hst|exact Ho].
Qed.
End Fallback.

(** ** Witnesses *)
Module FallbackDemo.
Import ConceptStoreProofs.Demo.
#[local] Existing Instances demo_aead demo_kdf wide_hex char_uuid plain_meta ascii_lowercase sample_log pair_json type_only.

Definition add (text : string) (w : World) : result (option str) (ConceptStoreError unit) * World :=
  direct_write_add any_date store 5 (lit text) (Some (lit "d/a")) None (Some (lit "Note")) calm w.

Lemma add_run r : (add "new" w1).1 = r ->
  direct_write_add any_date store 5 (lit "new") (Some (lit "d/a")) None (Some (lit "Note")) calm w1 = (r, (add "new" w1).2).
Proof. apply fst_eq. Qed.
(** [/d/a.md] holds another text, so the add goes to [/d/a-2.md]. *)
Lemma direct_write_add_safe_witness : (add "new" w1).1 = Ok (Some (lit "/d/a-2.md")) /\
  exists ctype t now, is_stored (cs_scope store)
    (stamp store now (mkConcept (added_frontmatter ctype (derive_title (lit "new")) t) (lit "new") (lit "/d/a-2.md"))) (add "new" w1).2.
Proof.
  assert (H : (add "new" w1).1 = Ok (Some (lit "/d/a-2.md"))) by (vm_compute; reflexivity). split; [exact H|].
  assert (Hsize : (size (w_dir w1) + 1 <? 5)%nat = true) by (vm_compute; reflexivity). apply Nat.ltb_lt in Hsize.
  destruct (direct_write_add_safe any_date store 25 calm 5 (lit "new") (Some (lit "d/a")) None (Some (lit "Note")) w1
    (Ok (Some (lit "/d/a-2.md"))) (add "new" w1).2
    demo_no_collisions root_fits ltac:(lia) (env_with_ok _) inv_w1 Hsize (add_run _ H)) as [_ Hp].
  destruct (Hp _ eq_refl (note_fits "/d/a-2.md" eq_refl)) as (_ & _ & Hst & _). exact Hst.
Defined.

Definition update : result str (ConceptStoreError unit) * World :=
  dated_addendum_update any_date store (fun _ => sh_docs (w_shared w1)) (lit "more") (Some (lit "d/a")) calm w1.
Lemma update_run r : update.1 = r ->
  dated_addendum_update any_date store (fun _ => sh_docs (w_shared w1)) (lit "more") (Some (lit "d/a")) calm w1 = (r, update.2).
Proof. apply fst_eq. Qed.
Lemma addendum_keeps_text_witness : update.1 = Ok (lit "/d/a.md") /\
  exists c t now, is_stored (cs_scope store) (stamp store now (mkConcept (set_timestamp t (frontmatter c))
      (trim_end (body c) ++ [nl; nl] ++ lit "<!-- mycelium2:update:" ++ t ++ lit " -->" ++ [nl] ++ lit "more" ++ [nl]) (lit "/d/a.md"))) update.2.
Proof.
  assert (H : update.1 = Ok (lit "/d/a.md")) by (vm_compute; reflexivity). split; [exact H|].
  destruct (addendum_keeps_text any_date store 25 calm (fun _ => sh_docs (w_shared w1)) (lit "more") (lit "d/a") w1
    (lit "/d/a.md") update.2 demo_no_collisions root_fits ltac:(lia) (env_with_ok _) inv_w1 (note_fits "/d/a.md" eq_refl)
    (update_run _ H))
    as (_ & b & md & c & t & now & _ & _ & _ & Hst & _).
  by exists c, t, now.
Defined.

(** What the fallbacks do at the edges *)
Example title_without_letters : derive_path None None (lit "???") = lit "/.md".
Proof. reflexivity. Qed.

Example reserved_hint_fails :
  (direct_write_add any_date store 5 (lit "x") (Some (lit "notes/log")) None None calm w1).1 = Err (CReserved (lit "/notes/log.md")) /\
  is_some (result_ok (direct_write_add any_date store 5 (lit "x") (Some (lit "index")) None None calm w1).1) = false.
Proof. vm_compute. by split. Qed.

(** Every maintain marks the same broken link again. *)
Definition broken_world : World := (run calm (OPut (note "/a.md" "see [x](/gone.md)")) empty_world).2.
Definition maintain (w : World) : World := (wire_and_flag_maintain any_date store calm w).2.
Definition text_at (w : World) (p : string) : str :=
  match (get (YE := unit) store (lit p) calm w).1 with Ok c => body c | Err _ => [] end.
Example broken_link_marked_again :
  text_at (maintain broken_world) "/a.md" = lit "see [x](/gone.md) <!-- mycelium2:broken-link -->" /\
  text_at (maintain (maintain broken_world)) "/a.md" =
    lit "see [x](/gone.md) <!-- mycelium2:broken-link --> <!-- mycelium2:broken-link -->".
Proof. vm_compute. by split. Qed.
End FallbackDemo.
