(* ===== verification/Agent.v ===== *)
(** * The agent

    [crates/mycelium-librarian/src/agent.rs]: the tool-call loop around a
    language model, with its tools over the caller's concept store and the
    global shelves.

    A run is a program of a state and error monad.  Its world is the world
    of the concept store with the directories of the two global shelves, the
    hot memory, the statics of the LLM and the embeddings clients, the trace table, the steps of
    the run's recorder, the events it emitted, and (as a record only) what
    the model was asked and answered.  The environment says what the
    endpoint answers, what others did to the store while the model was
    thinking, and what the store's accesses meet. *)
From S2P Require Import Prelude Float Text Clock Crypto FileRepo Concept Graph Library Health Search HotMemory JsonValue Llm Embeddings Trace Prompts Lifecycle Revisions SearchIndex Vectors ConceptStore ConceptStoreProofs Fallback.
Open Scope Z_scope.

Definition MAX_STEPS : nat := 30.
Definition LARGE_BUNDLE_THRESHOLD : nat := 300.
Definition LEX_POOL : nat := 50.

(** ** Book references *)
Definition parse_book_uri (uri : str) : option (str * str) :=
  rest ← strip_prefix (lit "book://") uri;
  let '(slug, anchor) := match split_once (lit "#") rest with Some (s, a) => (s, a) | None => (rest, []) end in
  if bool_decide (slug = []) || str_eqb slug (lit ".") || str_eqb slug (lit "..") ||
     contains [47%N] slug || contains [92%N] slug || contains [0%N] slug
  then None else Some (slug, anchor).

(** The anchor and the title of a heading line *)
Definition chapter_entry (t : str) : option str :=
  heading ← trim_start <$> strip_prefix [hash] t;
  '(title, rest) ← split_once (lit "{#") heading;
  '(anchor, _) ← split_once (lit "}") rest;
  let parts := split dash anchor in
  match parts with
  | p0 :: p1 :: p2 :: more =>
      if str_eqb p0 (lit "ch") && forallb is_ascii_digit p1 && negb (bool_decide (p1 = [])) &&
         (bool_decide (more = []) && negb (forallb is_ascii_digit p2) || negb (bool_decide (more = [])))
      then Some (lit "- " ++ anchor ++ [32; 8212; 32]%N ++ trim title) else None
  | _ => None
  end.
Fixpoint anchor_lines (in_fence : bool) (room : nat) (ls : list str) : list str :=
  match ls with
  | [] => []
  | line :: ls =>
      let t := trim_start line in
      if fence_line t then anchor_lines (negb in_fence) room ls
      else if in_fence then anchor_lines in_fence room ls
      else match chapter_entry t with
           | Some e => match room with O | S O => [e] | S room => e :: anchor_lines in_fence room ls end
           | None => anchor_lines in_fence room ls
           end
  end.
Definition list_chapter_anchors (text : str) : str :=
  match anchor_lines false 120 (lines text) with [] => lit "(none found)" | out => join [nl] out end.

(** ** Sections of a body *)
Record SectionScan := mkScan { sn_out : str; sn_replaced : bool; sn_in_target : bool }.
Definition scan_line (section_start content : str) (s : SectionScan) (line : str) : SectionScan :=
  if str_eqb (trim line) section_start
  then mkScan (sn_out s ++ section_start ++ [nl] ++ content ++ [nl]) true true
  else
    let in_target := sn_in_target s && negb (starts_with (lit "# ") line) in
    mkScan (if in_target then sn_out s else sn_out s ++ line ++ [nl]) (sn_replaced s) in_target.
Definition replace_section (body heading content : str) : str :=
  let section_start := lit "# " ++ heading in
  let s := fold_left (scan_line section_start content) (lines body) (mkScan [] false false) in
  let out := sn_out s in
  if sn_replaced s then out
  else
    let out := if negb (ends_with [nl] out) && negb (bool_decide (out = [])) then out ++ [nl] else out in
    out ++ section_start ++ [nl] ++ content ++ [nl].

(** ** Arguments of the tools *)
Definition include_inactive_arg (args : list (str * Value)) : bool := default false (v ← member (lit "include_inactive") args; as_bool v).
Definition member_object (key : string) (m : list (str * Value)) : option (list (str * Value)) := v ← member (lit key) m; as_object v.

(** The concept of [write_concept] *)
Definition written_frontmatter (fm : option (list (str * Value))) : Frontmatter :=
  let text (key : string) : option str := m ← fm; member_str key m in
  mkFrontmatter (default (lit "Note") (t ← trim <$> text "type"%string; match t with [] => None | _ => Some t end))
    (text "title"%string) (text "description"%string) None
    (default [] (m ← fm; v ← member (lit "tags") m; strings <$> as_array v))
    None None None None None None None None None.

(** One key of [patch_concept]'s frontmatter *)
Definition patch_key (f : Frontmatter) (kv : str * Value) : Frontmatter :=
  let '(mkFrontmatter ty title desc res tags ts book ch sk st sup vt src conf) := f in
  let '(key, value) := kv in
  let text := as_str value in
  let is_key (k : string) := str_eqb key (lit k) in
  if is_key "title"%string then mkFrontmatter ty text desc res tags ts book ch sk st sup vt src conf
  else if is_key "description"%string then mkFrontmatter ty title text res tags ts book ch sk st sup vt src conf
  else if is_key "resource"%string then mkFrontmatter ty title desc text tags ts book ch sk st sup vt src conf
  else if is_key "status"%string then mkFrontmatter ty title desc res tags ts book ch sk text sup vt src conf
  else if is_key "superseded_by"%string then mkFrontmatter ty title desc res tags ts book ch sk st text vt src conf
  else if is_key "valid_to"%string then mkFrontmatter ty title desc res tags ts book ch sk st sup text src conf
  else if is_key "tags"%string then
    mkFrontmatter ty title desc res (default [] (strings <$> as_array value)) ts book ch sk st sup vt src conf
  else f.
Definition patched_body (args : list (str * Value)) (body : str) : str :=
  match (b ← member_str "body" args; non_empty b) with
  | Some b => b
  | None =>
      match member_object "replace_section" args with
      | Some section => replace_section body (arg_str "heading" section) (arg_str "content" section)
      | None => default body (member_str "replace_body" args)
      end
  end.
Definition patched (args : list (str * Value)) (c : Concept) : Concept :=
  mkConcept (fold_left patch_key (default [] (member_object "frontmatter" args)) (frontmatter c)) (patched_body args (body c)) (source_path c).

(** ** Scopes, hits and events *)
Record AgentScopes := mkScopes {
  sc_skills : option ConceptStore; sc_library : option ConceptStore;
  sc_read_stack_text : option (str -> result str str); sc_visible_slugs : option (list str);
  sc_trace : option str; sc_embeddings : option EmbeddingsClient }.

Definition library_path_visible (scopes : AgentScopes) (path : str) : bool :=
  match sc_visible_slugs scopes with
  | None => true
  | Some vis => existsb (str_eqb (default [] (head (split slash (trim_start_if (N.eqb slash) path))))) vis
  end.

Inductive Shelf := ShUser | ShSkills | ShLibrary.
#[global] Instance Shelf_eq_dec : EqDecision Shelf.
Proof. solve_decision. Defined.
Definition shelf_tag (s : Shelf) : str :=
  match s with ShUser => lit "user" | ShSkills => lit "skills" | ShLibrary => lit "library" end.
Abbreviation ScopedHit := (Shelf * SearchResult)%type (only parsing).
Inductive FuseSources := LexicalOnly | Hybrid (qvec : list f32) (model : str) | VecOnly (qvec : list f32) (model : str).

Record HitFields := mkHitFields {
  hf_description : option str; hf_timestamp : option str; hf_confirmed_at : option str; hf_status : option str; hf_superseded_by : option str }.
Definition HitFields_none : HitFields := mkHitFields None None None None None.
Definition fields_of (f : Frontmatter) : HitFields :=
  mkHitFields (fm_description f) (fm_timestamp f) (fm_confirmed_at f) (fm_status f) (fm_superseded_by f).
(** [to_value] of a [QueryHit] *)
Definition query_hit (sh : Shelf) (h : SearchResult) (f : HitFields) : Value :=
  object [("scope"%string, JString (shelf_tag sh)); ("path"%string, JString (concept_path h)); ("title"%string, JString (r_title h));
    ("description"%string, option_value (hf_description f)); ("snippet"%string, JString (snippet h)); ("score"%string, f32_value (score h));
    ("timestamp"%string, option_value (hf_timestamp f)); ("confirmed_at"%string, option_value (hf_confirmed_at f));
    ("status"%string, option_value (hf_status f)); ("superseded_by"%string, option_value (hf_superseded_by f))].

Definition hit_cmp (a b : ScopedHit) : comparison := result_cmp a.2 b.2.

(** ** The world and the monad *)
Record AgentWorld := mkAgentWorld {
  aw_world : World; aw_skills : gmap str bytes; aw_library : gmap str bytes;
  aw_hot : option (gmap str HotScopeState); aw_llm : LlmStatics; aw_emb : EmbStatics; aw_traces : list TraceRow;
  aw_steps : list TraceStep; aw_events : list AgentEvent; aw_asked : list (list ConversationTurn * result StepOutput LlmError) }.

Record AgentEnv := mkAgentEnv {
  ae_store : Env;
  ae_endpoint : nat -> str -> option str -> ChatRequest -> result HttpResponse str;  (* by call of the model *)
  ae_arrival : nat -> Arrival;
  ae_between : nat -> World -> World;        (* what others did until then *)
  ae_tables : nat -> nat -> SearchTables;    (* what a search sees, by tick *)
  ae_others : nat -> nat -> Shared -> Shared; ae_reads : nat -> nat -> bool;  (* a build of the vector cache *)
  ae_embed : nat -> str -> option str -> EmbedRequest -> result EmbedHttp str; ae_embed_arrival : nat -> Arrival;  (* by tick *)
  ae_unix : nat -> Z;
  ae_statics : Statics;
  ae_instant : nat -> Z;
  ae_finish : Finish; ae_insert_fails : bool; ae_prune_fails : bool;
  ae_own : Shelf }.                          (* the shelf whose directory is the bundle's own: [ShUser], no shelf *)

Definition set_world (s : World) (w : AgentWorld) : AgentWorld :=
  mkAgentWorld s (aw_skills w) (aw_library w) (aw_hot w) (aw_llm w) (aw_emb w) (aw_traces w) (aw_steps w) (aw_events w) (aw_asked w).
Definition set_hot (h : option (gmap str HotScopeState)) (w : AgentWorld) : AgentWorld :=
  mkAgentWorld (aw_world w) (aw_skills w) (aw_library w) h (aw_llm w) (aw_emb w) (aw_traces w) (aw_steps w) (aw_events w) (aw_asked w).
Definition set_traces (t : list TraceRow) (w : AgentWorld) : AgentWorld :=
  mkAgentWorld (aw_world w) (aw_skills w) (aw_library w) (aw_hot w) (aw_llm w) (aw_emb w) t (aw_steps w) (aw_events w) (aw_asked w).
Definition set_steps (s : list TraceStep) (w : AgentWorld) : AgentWorld :=
  mkAgentWorld (aw_world w) (aw_skills w) (aw_library w) (aw_hot w) (aw_llm w) (aw_emb w) (aw_traces w) s (aw_events w) (aw_asked w).
Definition set_emb (e : EmbStatics) (w : AgentWorld) : AgentWorld :=
  mkAgentWorld (aw_world w) (aw_skills w) (aw_library w) (aw_hot w) (aw_llm w) e (aw_traces w) (aw_steps w) (aw_events w) (aw_asked w).
Definition add_event (e : AgentEvent) (w : AgentWorld) : AgentWorld :=
  mkAgentWorld (aw_world w) (aw_skills w) (aw_library w) (aw_hot w) (aw_llm w) (aw_emb w) (aw_traces w) (aw_steps w) (aw_events w ++ [e]) (aw_asked w).

(** The store's world with the directory of a shelf in it, and back *)
Definition in_shelf (sh : Shelf) (w : AgentWorld) : World :=
  match sh with
  | ShUser => aw_world w
  | ShSkills => with_dir (aw_skills w) (aw_world w)
  | ShLibrary => with_dir (aw_library w) (aw_world w)
  end.
Definition out_of_shelf (sh : Shelf) (s : World) (w : AgentWorld) : AgentWorld :=
  let s' := with_dir (w_dir (aw_world w)) s in
  match sh with
  | ShUser => set_world s w
  | ShSkills => mkAgentWorld s' (w_dir s) (aw_library w) (aw_hot w) (aw_llm w) (aw_emb w) (aw_traces w) (aw_steps w) (aw_events w) (aw_asked w)
  | ShLibrary => mkAgentWorld s' (aw_skills w) (w_dir s) (aw_hot w) (aw_llm w) (aw_emb w) (aw_traces w) (aw_steps w) (aw_events w) (aw_asked w)
  end.

Definition Run (A : Type) : Type := AgentEnv -> AgentWorld -> result A AgentError * AgentWorld.
#[global] Instance Run_ret : MRet Run := fun A a _ w => (Ok a, w).
#[global] Instance Run_bind : MBind Run := fun A B f m env w =>
  match m env w with
  | (Ok a, w) => f a env w
  | (Err e, w) => (Err e, w)
  end.
Definition throw {A} (e : AgentError) : Run A := fun _ w => (Err e, w).
Definition asks {A} (f : AgentEnv -> A) : Run A := fun env w => (Ok (f env), w).
Definition modify (f : AgentEnv -> AgentWorld -> AgentWorld) : Run unit := fun env w => (Ok tt, f env w).
(** [match m.await { Ok(a) => .., Err(e) => .. }] *)
Definition attempt {A} (m : Run A) : Run (result A AgentError) := fun env w => let '(r, w) := m env w in (Ok r, w).
Fixpoint collect_runs {A B} (f : A -> Run B) (l : list A) : Run (list B) :=
  match l with
  | [] => mret []
  | x :: l => y ← f x; ys ← collect_runs f l; mret (y :: ys)
  end.

Definition emit (e : AgentEvent) : Run unit := modify (fun _ => add_event e).

Section Agent.
Context {AE : Aead} {KD : Kdf} {HX : Hex} {UT : UuidText} {MJ : MetaJson} {LC : Lowercase} {NL : NaturalLog} {DJ : DocJson}.
Context {YE : Type} `{!YamlCodec YE} (rfc3339_ok : str -> bool).
Context {JT : JsonText} {TJ : TraceJson} (store_error_text : ConceptStoreError YE -> str).
#[local] Abbreviation Err' := (ConceptStoreError YE).

(** ** Accesses to the stores *)
Definition actual (env : AgentEnv) (sh : Shelf) : Shelf :=
  match sh with ShUser => ShUser | _ => if bool_decide (sh = ae_own env) then ShUser else sh end.
Definition on_store {A} (sh : Shelf) (m : M Err' A) : Run (result A Err') :=
  fun env w =>
    let sh := actual env sh in
    let '(r, s) := m (ae_store env) (in_shelf sh w) in (Ok r, out_of_shelf sh s w).
(** [?] on a store error *)
Definition from_store {A} (sh : Shelf) (m : M Err' A) : Run A :=
  r ← on_store sh m;
  match r with Ok a => mret a | Err e => throw (AStore (store_error_text e)) end.

Definition search_shelf (sh : Shelf) (cs : ConceptStore) (q : SearchQuery) : Run (result (list SearchResult) Err') :=
  fun env w => on_store sh (search_scope cs (ae_tables env (w_tick (aw_world w))) q) env w.
(** [cs.vectors().top_cosine(..)] as one access *)
Definition vectors_access (cs : ConceptStore) (others : nat -> Shared -> Shared) (reads : nat -> bool) (qvec : list f32) (model : str)
    : M Err' (list (str * f32)) :=
  access (fun env k w =>
    let st := vectors_of (cs_scope cs) in
    let '(snapshot, shared) := cache_scope st others reads (w_shared w) in
    (result_map_err CVector (top_cosine st snapshot (ce_path <$> scope_rows cs w) qvec model LEX_POOL (en_fails env k)), with_shared shared w)).
Definition vec_pool (sh : Shelf) (cs : ConceptStore) (qvec : list f32) (model : str) : Run (list (str * f32)) :=
  fun env w =>
    let k := w_tick (aw_world w) in
    (r ← on_store sh (vectors_access cs (ae_others env k) (ae_reads env k) qvec model);
     mret match r with Ok pairs => pairs | Err _ => [] end) env w.
Definition ranked_lex_pool (sh : Shelf) (cs : ConceptStore) (q : SearchQuery) : Run (list SearchResult) :=
  r ← search_shelf sh cs q;
  mret match r with Ok hits => take LEX_POOL hits | Err _ => [] end.

Definition question_qvec (q : SearchQuery) (embedding : option EmbeddingsClient) : Run (option (list f32 * str)) :=
  fun env w =>
    match embedding, join [space] (terms q) with
    | None, _ | _, [] => (Ok None, w)
    | Some client, text =>
        let k := w_tick (aw_world w) in
        let '(r, st) := embed_batch client (ae_embed env k) (ae_embed_arrival env k) [text] (aw_emb w) in
        (Ok match r with
            | Ok (v :: _) => match v with [] => None | _ => Some (v, ebc_model client) end
            | _ => None
            end, set_emb st w)
    end.

Definition enrich_hit (sh : Shelf) (cs : ConceptStore) (path : str) : Run (str * str) :=
  r ← on_store sh (get cs path);
  mret match r with
       | Ok c => (title_or_path c, trim (take 200 (body c)))
       | Err _ => (path, [])
       end.
Definition hit_fields (sh : Shelf) (cs : ConceptStore) (path : str) : Run HitFields :=
  r ← on_store sh (get cs path);
  mret match r with Ok c => fields_of (frontmatter c) | Err _ => HitFields_none end.

(** ** Search across the scopes *)
Definition choose_sources (q : SearchQuery) (embedding : option EmbeddingsClient) : Run (option FuseSources) :=
  fun env w =>
    match mode q with
    | Lexical => (Ok (Some LexicalOnly), w)
    | VectorOnly => (o ← question_qvec q embedding; mret match o with Some (v, m) => Some (VecOnly v m) | None => None end) env w
    | Auto =>
        if is_some embedding && match emb_state (aw_emb w) (ae_unix env (w_tick (aw_world w))) with Green | Yellow => true | _ => false end
        then (o ← question_qvec q embedding; mret (Some match o with Some (v, m) => Hybrid v m | None => LexicalOnly end)) env w
        else (Ok (Some LexicalOnly), w)
    end.

Section Scopes.
Context (scopes : AgentScopes).
Definition visible_hit (h : ScopedHit) : bool := negb (bool_decide (h.1 = ShLibrary)) || library_path_visible scopes (concept_path h.2).
Definition candidate (hits : list SearchResult) (path : str) (s : f32) : SearchResult :=
  match find_first (fun h => str_eqb (concept_path h) path) hits with
  | Some h => mkResult path (r_title h) (snippet h) s
  | None => mkResult path [] [] s
  end.
Definition scope_hits (fuse : FuseSources) (q : SearchQuery) (source : Shelf * option ConceptStore) : Run (list ScopedHit) :=
  let '(sh, scope_cs) := source in
  match scope_cs with
  | None => mret []
  | Some cs =>
      match fuse with
      | LexicalOnly =>
          r ← search_shelf sh cs q;
          mret match r with Ok hits => retain visible_hit (pair sh <$> hits) | Err _ => [] end
      | Hybrid qvec model =>
          lex_hits ← ranked_lex_pool sh cs q;
          vector_pool ← vec_pool sh cs qvec model;
          params ← asks (fun env => rrf_params (ae_statics env));
          mret match lex_hits, vector_pool with
               | [], [] => []
               | _, _ => (fun p => (sh, candidate lex_hits p.1 p.2)) <$>
                   rrf_fuse ((fun h => (concept_path h, score h)) <$> lex_hits) vector_pool params
               end
      | VecOnly qvec model =>
          pool ← vec_pool sh cs qvec model;
          mret ((fun p => (sh, mkResult p.1 [] [] p.2)) <$> pool)
      end
  end.

Definition sources_of (store : option ConceptStore) : list (Shelf * option ConceptStore) :=
  [(ShUser, store); (ShSkills, sc_skills scopes); (ShLibrary, sc_library scopes)].
Definition store_at (store : option ConceptStore) (sh : Shelf) : option ConceptStore :=
  match sh with ShUser => store | ShSkills => sc_skills scopes | ShLibrary => sc_library scopes end.

Definition enrich_pending (store : option ConceptStore) (h : ScopedHit) : Run ScopedHit :=
  match r_title h.2, store_at store h.1 with
  | [], Some cs =>
      '(title, text) ← enrich_hit h.1 cs (concept_path h.2);
      mret (h.1, mkResult (concept_path h.2) title text (score h.2))
  | _, _ => mret h
  end.
Definition is_lexical (fuse : FuseSources) : bool := match fuse with LexicalOnly => true | _ => false end.

Definition cross_scope_hits (store : option ConceptStore) (q : SearchQuery) (cap : nat) (embedding : option EmbeddingsClient)
    : Run (list ScopedHit) :=
  sources ← choose_sources q embedding;
  match sources with
  | None => mret []
  | Some fuse =>
      pools ← collect_runs (scope_hits fuse q) (sources_of store);
      let all_hits := concat pools in
      let all_hits := if is_lexical fuse then all_hits else retain visible_hit all_hits in
      let all_hits := take cap (sort_by hit_cmp all_hits) in
      if is_lexical fuse then mret all_hits else collect_runs (enrich_pending store) all_hits
  end.

(** ** The tools *)
Context (store : ConceptStore).
Definition reply (l : list (string * Value)) : str := show_json (object l).
Definition tree_line (e : ConceptEntry) : str := lit "  " ++ ce_path e ++ lit "  [" ++ ce_concept_type e ++ lit "] " ++ ce_title e.
Definition format_tree : Run str :=
  entries ← from_store ShUser (list_concepts store);
  mret (join [nl] (lit "/" :: (tree_line <$> sort_by (fun a b => str_cmp (ce_path a) (ce_path b)) entries))).

Definition hit_json (h : ScopedHit) : Run Value :=
  f ← match store_at (Some store) h.1 with
      | Some cs => hit_fields h.1 cs (concept_path h.2)
      | None => mret HitFields_none
      end;
  mret (query_hit h.1 h.2 f).
Definition search_query (args : list (str * Value)) : SearchQuery :=
  let q := SearchQuery_new (take MAX_SEARCH_TERMS (split_whitespace (arg_str "query" args))) in
  if include_inactive_arg args then mkQuery (terms q) (include_global q) All (mode q) else q.
Definition tool_search_knowledge (args : list (str * Value)) : Run str :=
  all_hits ← cross_scope_hits (Some store) (search_query args) 10 (sc_embeddings scopes);
  hits_json ← collect_runs hit_json all_hits;
  match hits_json with
  | [] =>
      tree ← format_tree;
      mret (reply [("hits"%string, JArray []); ("notice"%string, JString search_notice); ("bundle_layout"%string, JString tree)])
  | _ => mret (reply [("hits"%string, JArray hits_json)])
  end.

(** The first scope that has the concept, the library behind the bookshelf
    visibility *)
Definition try_shelf (sh : Shelf) (o : option ConceptStore) (path : str) : Run (option Concept) :=
  match o with
  | None => mret None
  | Some cs => r ← on_store sh (get cs path); mret (result_ok r)
  end.
Definition find_concept (path : str) : Run Concept :=
  c ← try_shelf ShUser (Some store) path;
  match c with
  | Some c => mret c
  | None =>
      c ← try_shelf ShSkills (sc_skills scopes) path;
      c ← match c with
          | Some c => mret (Some c)
          | None => if library_path_visible scopes path then try_shelf ShLibrary (sc_library scopes) path else mret None
          end;
      match c with Some c => mret c | None => throw (AStore (store_error_text (CNotFound path))) end
  end.
Definition tool_read_concept (args : list (str * Value)) : Run str :=
  concept ← find_concept (arg_str "path" args);
  match to_markdown concept with
  | Err e => throw (AStore (store_error_text (CParse e)))
  | Ok markdown => mret (reply [("path"%string, JString (source_path concept)); ("markdown"%string, JString markdown)])
  end.

Definition tool_list_directory : Run str := tree ← format_tree; mret (reply [("layout"%string, JString tree)]).

Definition count_value (n : nat) : Value := JNumber (NPosInt (Z.of_nat n)).
Definition tool_lint_knowledge : Run str :=
  entries ← from_store ShUser (list_concepts store);
  concepts ← from_store ShUser (load_all store entries);
  let graph := build_graph (mkBundle concepts None [] []) in
  let health := Graph_health graph in
  mret (reply [("concepts"%string, count_value (concept_count health)); ("links"%string, count_value (edge_count health));
    ("orphans"%string, JArray (JString <$> orphans graph));
    ("broken_links"%string, JArray ((fun b => JString (b.1 ++ arrow ++ b.2)) <$> broken_links graph))]).

Definition passage_reply (resource passage : str) : str :=
  reply [("resource"%string, JString resource); ("passage"%string, JString passage)].
Definition passage_error (resource error : str) : str :=
  reply [("resource"%string, JString resource); ("error"%string, JString error)].
(** The texts of an open book: without an anchor an early [return] *)
Definition passage_of_text (resource slug anchor text : str) : str * bool :=
  let anchors := list_chapter_anchors text in
  match anchor with
  | [] => (passage_reply resource (lit "No anchor given. Chapter anchors in this book:" ++ [nl] ++ anchors), true)
  | _ =>
      (match extract_passage slug anchor text with
       | Ok p => passage_reply resource (p_text p)
       | Err _ =>
           passage_reply resource (lit "No passage for anchor " ++ [34%N] ++ anchor ++ [34%N] ++ lit " in book " ++ [34%N] ++ slug ++ [34%N] ++
             lit ". Chapter anchors in this book:" ++ [nl] ++ anchors)
       end, false)
  end.
(** The reply, and whether it is an early [return] *)
Definition tool_read_passage (args : list (str * Value)) : Run (str * bool) :=
  let resource := trim (arg_str "resource" args) in
  if bool_decide (resource = []) then throw (ABadToolArgs (lit "read_passage") (lit "resource is required"))
  else
    mret match parse_book_uri resource with
         | None =>
             (passage_error resource (lit "Not a book:// URI " ++ [8212%N] ++
               lit " expected book://<slug>#<anchor>, taken from a concept's `resource` field."), true)
         | Some (slug, anchor) =>
             match sc_read_stack_text scopes with
             | None => (passage_error resource (lit "No library configured on this instance; cannot read passages."), true)
             | Some reader =>
                 if match sc_visible_slugs scopes with Some vis => negb (existsb (str_eqb slug) vis) | None => false end
                 then (passage_error resource (lit "Book not found in library."), true)
                 else match reader slug with
                      | Ok text => passage_of_text resource slug anchor text
                      | Err e => (passage_error resource e, false)
                      end
             end
         end.

Definition read_only_error (name : str) : AgentError := ABadToolArgs name (lit "write tool in read-only mode").
Definition tool_write_concept (args : list (str * Value)) : Run (str * option str) :=
  let concept := mkConcept (written_frontmatter (member_object "frontmatter" args)) (arg_str "body" args) (arg_str "path" args) in
  _ ← from_store ShUser (put rfc3339_ok store concept);
  mret (reply [("written"%string, JString (source_path concept))], Some (source_path concept)).
Definition tool_patch_concept (args : list (str * Value)) : Run (str * option str) :=
  concept ← from_store ShUser (get store (arg_str "path" args));
  let concept := patched args concept in
  _ ← from_store ShUser (put rfc3339_ok store concept);
  mret (reply [("patched"%string, JString (source_path concept))], Some (source_path concept)).
Definition tool_delete_concept (args : list (str * Value)) : Run (str * option str) :=
  let path := arg_str "path" args in
  _ ← from_store ShUser (delete_concept store path);
  mret (reply [("deleted"%string, JString path)], Some path).

(** What an arm ends with: the result, the path written, and whether it
    left the function by an early [return], which leaves no trace step *)
Abbreviation ArmEnd := (str * option str * bool)%type (only parsing).
Definition completed (m : Run (str * option str)) : Run ArmEnd := x ← m; mret (x, false).
Definition ended_early (m : Run (str * bool)) : Run ArmEnd := '(r, early) ← m; mret (r, None, early).
Definition unwritten (m : Run str) : Run ArmEnd := r ← m; mret (r, None, false).
(** An arm of the dispatch: [None] for a name that is no tool's. *)
Definition dispatch_tool (name : str) (args : list (str * Value)) (allow_writes : bool) : option (Run ArmEnd) :=
  let named (t : string) := str_eqb name (lit t) in
  let guarded (m : Run (str * option str)) := if allow_writes then completed m else throw (read_only_error name) in
  if named "search_knowledge"%string then Some (unwritten (tool_search_knowledge args))
  else if named "read_concept"%string then Some (unwritten (tool_read_concept args))
  else if named "list_directory"%string then Some (unwritten tool_list_directory)
  else if named "lint_knowledge"%string then Some (unwritten tool_lint_knowledge)
  else if named "read_passage"%string then Some (ended_early (tool_read_passage args))
  else if named "write_concept"%string then Some (guarded (tool_write_concept args))
  else if named "patch_concept"%string then Some (guarded (tool_patch_concept args))
  else if named "delete_concept"%string then Some (guarded (tool_delete_concept args))
  else None.

(** The trace step and the hot memory of a tool that succeeded *)
Definition step_summary (name : str) (args : list (str * Value)) : str :=
  if str_eqb name (lit "search_knowledge") then arg_str "query" args
  else if str_eqb name (lit "read_passage") then arg_str "resource" args
  else arg_str "path" args.
Definition hit_paths (result : str) : option (list str) :=
  v ← result_ok (parse_json result);
  m ← as_object v;
  hits ← (h ← member (lit "hits") m; as_array h);
  Some (omap (M := list) (fun h => m ← as_object h; member_str "path" m) hits).
Definition step_paths (name result : str) (written : option str) : list str :=
  let paths := match written with Some p => [p] | None => [] end in
  if str_eqb name (lit "search_knowledge") then default paths (hit_paths result) else paths.
Definition note_success (name : str) (args : list (str * Value)) (result : str) (written : option str) (env : AgentEnv) (w : AgentWorld) : AgentWorld :=
  let w := set_steps (record name (step_summary name args) (step_paths name result written) (is_some written) (aw_steps w)) w in
  match written with
  | None => w
  | Some p =>
      let sid := scope_id (cs_scope store) in
      set_hot (if str_eqb name (lit "delete_concept") then record_hot_delete (aw_hot w) sid p
               else record_hot_write (aw_hot w) sid p (ae_instant env (w_tick (aw_world w)))) w
  end.

Definition execute_tool_tracked (call : ToolCall) (allow_writes : bool) : Run (str * option str) :=
  let name := fc_name (tc_function call) in
  match parse_json (fc_arguments (tc_function call)) with
  | Err e => throw (ABadToolArgs name e)
  | Ok (JObject args) =>
      match dispatch_tool name args allow_writes with
      | Some arm =>
          '(result, written, early) ← arm;
          _ ← (if (early : bool) then mret tt else modify (note_success name args result written));
          mret (result, written)
      | None =>
          _ ← modify (fun _ w => set_steps (record name (lit "(error)") [] false (aw_steps w)) w);
          throw (ABadToolArgs name (lit "unknown tool"))
      end
  | Ok _ => throw (ABadToolArgs name (lit "arguments must be a JSON object"))
  end.

(** ** The loop *)
Section Loop.
Context (client : LlmClient) (tools : list ToolSpec) (system : str).

(** [chat_with_tools], by when others did what they did *)
Definition ask (conversation : list ConversationTurn) (temperature : f32) : Run StepOutput :=
  fun env w =>
    let n := length (aw_asked w) in
    let '(r, statics) := chat_with_tools client (ae_endpoint env n) (ae_arrival env n) system conversation tools temperature (aw_llm w) in
    (result_map_err ALlm r,
     mkAgentWorld (ae_between env n (aw_world w)) (aw_skills w) (aw_library w) (aw_hot w) statics (aw_emb w) (aw_traces w) (aw_steps w)
       (aw_events w) (aw_asked w ++ [(conversation, r)])).

Definition error_reply (e : AgentError) : str := reply [("error"%string, JString (AgentError_display e))].
(** The calls of one step; [streaming] emits their events. *)
Fixpoint run_calls (streaming allow_writes : bool) (calls : list ToolCall) (conversation : list ConversationTurn) (files : list str)
    : Run (list ConversationTurn * list str) :=
  match calls with
  | [] => mret (conversation, files)
  | call :: calls =>
      _ ← (if streaming then emit (EvTool (fc_name (tc_function call)) (take 120 (fc_arguments (tc_function call)))) else mret tt);
      r ← attempt (execute_tool_tracked call allow_writes);
      let '(result, written) := match r with Ok x => x | Err e => (error_reply e, None) end in
      run_calls streaming allow_writes calls (conversation ++ [CtToolResult (tc_id call) result])
        (files ++ match written with Some p => [p] | None => [] end)
  end.

(** [None]: the step cap was reached. *)
Fixpoint agent_steps (streaming allow_writes : bool) (temperature : f32) (n : nat) (conversation : list ConversationTurn) (files : list str)
    : Run (option str * list str) :=
  match n with
  | O => mret (None, files)
  | S n =>
      output ← ask conversation temperature;
      match output with
      | SoText answer => mret (Some answer, files)
      | SoToolCalls calls =>
          '(conversation, files) ← run_calls streaming allow_writes calls (conversation ++ [CtToolCalls calls]) files;
          agent_steps streaming allow_writes temperature n conversation files
      end
  end.

Definition new_recorder : Run unit := modify (fun _ => set_steps []).
Definition finish_trace (kind : TraceKind) (input answer : str) (outcome : TraceOutcome) : Run unit :=
  modify (fun env w =>
    match sc_trace scopes with
    | None => w
    | Some scope =>
        let t := finalize_trace (ae_finish env) kind input answer outcome (aw_steps w) in
        set_traces (save_trace scope t (ae_insert_fails env) (ae_prune_fails env) (aw_traces w)) w
    end).

Definition agent_loop_tracked (prompt : str) (allow_writes : bool) (temperature : f32) (max_steps : nat) : Run (str * list str) :=
  let kind := if allow_writes then TMutation else TQuery in
  _ ← new_recorder;
  '(answer, files) ← agent_steps false allow_writes temperature max_steps [CtUser prompt] [];
  match answer with
  | Some answer => _ ← finish_trace kind prompt answer TSuccess; mret (answer, files)
  | None => _ ← finish_trace kind prompt (lit "agent exceeded step cap") TFailed; throw AStepCapExceeded
  end.
Definition agent_loop (prompt : str) (allow_writes : bool) (temperature : f32) : Run str :=
  '(text, _) ← agent_loop_tracked prompt allow_writes temperature MAX_STEPS; mret text.

Definition last_user (history : list ConversationTurn) : str :=
  default [] (head (omap (M := list) (fun t => match t with CtUser u => Some u | _ => None end) (reverse history))).
(** [streaming]: there is a channel for the events. *)
Definition chat_loop (streaming : bool) (history : list ConversationTurn) : Run str :=
  let send (e : AgentEvent) := if streaming then emit e else mret tt in
  _ ← new_recorder;
  '(answer, _) ← agent_steps streaming true f32_fifth MAX_STEPS history [];
  match answer with
  | Some answer =>
      _ ← finish_trace TChat (last_user history) answer TSuccess;
      _ ← send (EvDone answer);
      mret answer
  | None =>
      let err := AgentError_display AStepCapExceeded in
      _ ← finish_trace TChat (last_user history) err TFailed;
      _ ← send (EvFailed err);
      throw AStepCapExceeded
  end.
End Loop.

(** ** Entry points *)
Definition build_system_prompt (m : AgentMode) : Run str :=
  entries ← from_store ShUser (list_concepts store);
  let types := dedup (sort_by str_cmp (retain (fun t => negb (bool_decide (t = []))) (ce_concept_type <$> entries))) in
  tree ← (if (LARGE_BUNDLE_THRESHOLD <? length entries)%nat
          then mret (lit "(large bundle: " ++ show_N (N.of_nat (length entries)) ++ lit " concepts " ++ [8212%N] ++
                     lit " use search/read tools to navigate)")
          else format_tree);
  let types_list := match types with [] => no_types_text | _ => join (lit ", ") types end in
  mret (prompt_head ++ operating_rules types_list ++ prompt_layout ++ tree ++ prompt_tail ++ mode_section m).

Record MutationResult := mkMutationResult { mr_summary : str; mr_files_changed : list str; mr_steps : Z }.
Definition run_query (client : LlmClient) (question : str) : Run (str * Z) :=
  system ← build_system_prompt MQuery;
  answer ← agent_loop client read_tool_specs system question false f32_fifth;
  mret (answer, 0).
Definition run_mutation_capped (client : LlmClient) (instruction : str) (max_steps : nat) : Run MutationResult :=
  system ← build_system_prompt MMutate;
  '(summary, files) ← agent_loop_tracked client all_tool_specs system instruction true f32_fifth max_steps;
  mret (mkMutationResult summary files 0).
Definition run_mutation (client : LlmClient) (instruction : str) : Run MutationResult := run_mutation_capped client instruction MAX_STEPS.
Definition run_chat_streaming (client : LlmClient) (history : list ConversationTurn) (streaming : bool) : Run str :=
  system ← build_system_prompt MChat;
  chat_loop client all_tool_specs system streaming history.
Definition run_chat (client : LlmClient) (history : list ConversationTurn) : Run str := run_chat_streaming client history false.
End Scopes.
End Agent.
