(* ===== verification/AgentProofs.v ===== *)
(** * Properties of the agent

    What a run can do to the world, whatever the model answers: which turns
    it sends and how often, that the read tools change nothing, that a run
    is a history of the concept store's operations, and what of the library
    a caller sees. *)
From S2P Require Import Prelude Float Text Clock Crypto FileRepo Concept Graph Library Health Search HotMemory JsonValue Llm Embeddings Trace Prompts Lifecycle Revisions SearchIndex Vectors ConceptStore ConceptStoreProofs Fallback Agent.
Open Scope Z_scope.

(** ** Programs within a relation *)
Section Within.
Context (R : AgentWorld -> AgentWorld -> Prop) `{!PreOrder R} (env : AgentEnv).
Definition within {A} (m : Run A) : Prop := forall w r w', m env w = (r, w') -> R w w'.

Lemma within_ret {A} (a : A) : within (mret a).
Proof. by intros w r w' [= <- <-]. Qed.
Lemma within_throw {A} e : within (throw e : Run A).
Proof. by intros w r w' [= <- <-]. Qed.
Lemma within_asks {A} (f : AgentEnv -> A) : within (asks f).
Proof. by intros w r w' [= <- <-]. Qed.
Lemma within_bind {A B} (m : Run A) (f : A -> Run B) : within m -> (forall a, within (f a)) -> within (m ≫= f).
Proof.
  intros Hm Hf w r w' Hrun. unfold mbind, Run_bind in Hrun. destruct (m env w) as [[a|e] w1] eqn:E.
  - etrans; [by eapply Hm|by eapply Hf].
  - injection Hrun as <- <-. by eapply Hm.
Qed.
Lemma within_attempt {A} (m : Run A) : within m -> within (attempt m).
Proof. intros Hm w r w'. unfold attempt. destruct (m env w) as [x w1] eqn:E. intros [= <- <-]. by eapply Hm. Qed.
Lemma within_collect {A B} (f : A -> Run B) l : (forall x, within (f x)) -> within (collect_runs f l).
Proof.
  intros Hf. induction l as [|x l IH]; [apply within_ret|]. apply within_bind; [apply Hf|]. intros y.
  apply within_bind; [done|]. intros ys. apply within_ret.
Qed.
Lemma within_modify (f : AgentEnv -> AgentWorld -> AgentWorld) : (forall w, R w (f env w)) -> within (modify f).
Proof. intros Hf w r w' [= <- <-]. apply Hf. Qed.
Lemma within_ext {A} (m m' : Run A) : (forall w, m env w = m' env w) -> within m' -> within m.
Proof. intros H Hm w r w'. rewrite H. apply Hm. Qed.
End Within.

Create HintDb within.
#[export] Hint Resolve within_ret within_throw within_asks within_attempt within_collect : within.

Section Agent.
Context {AE : Aead} {KD : Kdf} {HX : Hex} {UT : UuidText} {MJ : MetaJson} {LC : Lowercase} {NL : NaturalLog} {DJ : DocJson}.
Context {YE : Type} `{!YamlCodec YE} (rfc3339_ok : str -> bool).
Context {JT : JsonText} {TJ : TraceJson} (store_error_text : ConceptStoreError YE -> str).
#[local] Abbreviation Err' := (ConceptStoreError YE).

(** ** Reading

    A read leaves everything but the store's tick and the shared caches. *)
Record read_only (w w' : AgentWorld) : Prop := {
  ro_world : store_same (aw_world w) (aw_world w');
  ro_skills : aw_skills w' = aw_skills w; ro_library : aw_library w' = aw_library w;
  ro_hot : aw_hot w' = aw_hot w; ro_llm : aw_llm w' = aw_llm w; ro_traces : aw_traces w' = aw_traces w;
  ro_steps : aw_steps w' = aw_steps w; ro_events : aw_events w' = aw_events w; ro_asked : aw_asked w' = aw_asked w }.
#[export] Instance read_only_preorder : PreOrder read_only.
Proof.
  split; [by intros w; constructor|]. intros w1 w2 w3 [] []. constructor; try congruence. by etrans.
Qed.

Lemma reads_search cs view q : reads (YE := YE) (search_scope cs view q).
Proof. by apply reads_access. Qed.
Lemma reads_vectors cs others reading qvec model : reads (YE := YE) (vectors_access cs others reading qvec model).
Proof. apply reads_access. intros env k s. cbn zeta. by destruct (cache_scope _ others reading (w_shared s)). Qed.
Lemma reads_load cs l : reads (YE := YE) (load_all cs l).
Proof.
  induction l as [|e l IH]; [apply reads_ret|]. apply reads_bind.
  - intros env s r s'. unfold try_get. destruct (get cs (ce_path e) env s) as [x s1] eqn:E. intros [= <- <-]. by eapply reads_get.
  - intros r. apply reads_bind; [done|]. intros rest. apply reads_ret.
Qed.

Lemma within_read {A} env sh (m : M Err' A) : reads m -> within read_only env (on_store sh m).
Proof.
  intros Hm w r w'. unfold on_store. generalize (actual env sh). intros sh'.
  destruct (m (ae_store env) (in_shelf sh' w)) as [x s] eqn:E. intros [= <- <-].
  apply Hm in E as [(Hd & Hf & Hv) Hq]. destruct sh'; simpl in *; by constructor.
Qed.
#[local] Hint Resolve read_only_preorder within_read reads_get reads_list reads_load : within.

(** One step of a program that only reads *)
Ltac reading :=
  repeat first
    [ solve [eauto with within]
    | refine (within_bind _ _ _ _ _ _); [|intros ?]
    | case_match ].

Lemma within_from_store {A} env sh (m : M Err' A) : reads m -> within read_only env (from_store store_error_text sh m).
Proof. intros Hm. unfold from_store. reading. Qed.
#[local] Hint Resolve within_from_store : within.
Lemma within_search env sh cs q : within read_only env (search_shelf (YE := YE) sh cs q).
Proof. intros w r w' H. by eapply within_read in H; [|apply reads_search]. Qed.
Lemma within_vec_pool env sh cs qvec model : within read_only env (vec_pool (YE := YE) sh cs qvec model).
Proof.
  intros w r w'. unfold vec_pool. set (m := on_store sh _ ≫= _). intros H. eapply (within_bind read_only env); [..|exact H].
  - apply within_read, reads_vectors.
  - intros x. apply within_ret; apply _.
Qed.
#[local] Hint Resolve within_search within_vec_pool : within.
Lemma within_question env q e : within read_only env (question_qvec q e).
Proof.
  intros w r w'. unfold question_qvec. destruct e as [c|]; [|by intros [= <- <-]]. destruct (join _ _); [by intros [= <- <-]|].
  destruct (embed_batch _ _ _ _ _) as [x st]. by intros [= <- <-].
Qed.
#[local] Hint Resolve within_question : within.

Lemma within_choose env q e : within read_only env (choose_sources q e).
Proof.
  intros w r w'. unfold choose_sources. destruct (mode q); [|by intros [= <- <-]|].
  - destruct (_ && _); [|by intros [= <- <-]]. apply (within_bind read_only env (question_qvec q e)); eauto with within.
  - apply (within_bind read_only env (question_qvec q e)); eauto with within.
Qed.

Section Scopes.
Context (scopes : AgentScopes) (store : ConceptStore).
#[local] Hint Resolve within_choose : within.

Lemma within_scope_hits env fuse q src : within read_only env (scope_hits (YE := YE) scopes fuse q src).
Proof. destruct src as [sh [cs|]]; unfold scope_hits; [|eauto with within]. unfold ranked_lex_pool. destruct fuse; reading. Qed.
#[local] Hint Resolve within_scope_hits : within.
Lemma within_enrich env o h : within read_only env (enrich_pending (YE := YE) scopes o h).
Proof. unfold enrich_pending, enrich_hit. reading. Qed.
#[local] Hint Resolve within_enrich : within.

(** The cross-scope search only reads. *)
Lemma within_hits env o q cap e : within read_only env (cross_scope_hits (YE := YE) scopes o q cap e).
Proof. unfold cross_scope_hits. reading. Qed.
Lemma within_tree env : within read_only env (format_tree store_error_text store).
Proof. unfold format_tree. reading. Qed.
Lemma within_hit_json env h : within read_only env (hit_json (YE := YE) scopes store h).
Proof. unfold hit_json, hit_fields. reading. Qed.
#[local] Hint Resolve within_hits within_tree within_hit_json : within.
Lemma within_shelf env sh o p : within read_only env (try_shelf (YE := YE) sh o p).
Proof. unfold try_shelf. reading. Qed.
#[local] Hint Resolve within_shelf : within.
Lemma within_find env p : within read_only env (find_concept store_error_text scopes store p).
Proof. unfold find_concept. reading. Qed.
#[local] Hint Resolve within_find : within.
Lemma within_prompt env m : within read_only env (build_system_prompt store_error_text store m).
Proof. unfold build_system_prompt. reading. Qed.

(** The read tools, and every tool when writes are not allowed *)
Lemma within_read_tools env name args arm :
  dispatch_tool rfc3339_ok store_error_text scopes store name args false = Some arm -> within read_only env arm /\
  forall w x w', arm env w = (Ok x, w') -> x.1.2 = None.
Proof.
  assert (Hu : forall m : Run str, within read_only env m ->
    within read_only env (unwritten m) /\ forall w x w', unwritten m env w = (Ok x, w') -> x.1.2 = None).
  { intros m Hm. split; [unfold unwritten; reading|]. intros w x w'. unfold unwritten, mbind, Run_bind.
    by destruct (m env w) as [[a|e] w1]; [intros [= <- _]|]. }
  assert (Ht : forall e : AgentError, within read_only env (throw e : Run (str * option str * bool)) /\
    forall w x w', (throw e : Run (str * option str * bool)) env w = (Ok x, w') -> x.1.2 = None) by (split; [eauto with within|done]).
  assert (Hp : within read_only env (ended_early (tool_read_passage scopes args)) /\
    forall w x w', (ended_early (tool_read_passage scopes args)) env w = (Ok x, w') -> x.1.2 = None).
  { split; [unfold ended_early, tool_read_passage; reading|]. intros w x w'. unfold ended_early, mbind, Run_bind.
    destruct (tool_read_passage scopes args env w) as [[[a b]|e] w1]; [|done]. by intros [= <- _]. }
  unfold dispatch_tool. repeat (destruct (str_eqb name _)); intros [= <-]; first [apply Ht|exact Hp|apply Hu].
  - unfold tool_search_knowledge. reading.
  - unfold tool_read_concept. reading.
  - unfold tool_list_directory. reading.
  - unfold tool_lint_knowledge. reading.
Qed.

(** ** What a tool call leaves alone *)
Record tool_step (w w' : AgentWorld) : Prop := {
  tl_skills : aw_skills w' = aw_skills w; tl_library : aw_library w' = aw_library w; tl_llm : aw_llm w' = aw_llm w;
  tl_traces : aw_traces w' = aw_traces w; tl_events : aw_events w' = aw_events w; tl_asked : aw_asked w' = aw_asked w }.
#[export] Instance tool_step_preorder : PreOrder tool_step.
Proof. split; [by intros w|]. intros w1 w2 w3 [] []. constructor; congruence. Qed.
#[local] Hint Resolve tool_step_preorder : within.

Lemma within_weaken {A} (R R' : AgentWorld -> AgentWorld -> Prop) env (m : Run A) :
  (forall w w', R w w' -> R' w w') -> within R env m -> within R' env m.
Proof. intros H Hm w r w' Hrun. by eapply H, Hm. Qed.
Lemma read_tool w w' : read_only w w' -> tool_step w w'.
Proof. by intros []. Qed.

Lemma within_user {A} env (m : M Err' A) : within tool_step env (on_store ShUser m).
Proof. intros w r w'. unfold on_store. destruct (m _ _) as [x s]. by intros [= <- <-]. Qed.
Lemma within_from_user {A} env (m : M Err' A) : within tool_step env (from_store store_error_text ShUser m).
Proof. unfold from_store. refine (within_bind _ _ _ _ _ _); [apply within_user|]. intros []; eauto with within. Qed.

Lemma dispatch_reads name args : dispatch_tool rfc3339_ok store_error_text scopes store name args true =
  dispatch_tool rfc3339_ok store_error_text scopes store name args false \/
  exists arm, dispatch_tool rfc3339_ok store_error_text scopes store name args true = Some arm /\
    ((name = lit "write_concept" /\ arm = completed (tool_write_concept rfc3339_ok store_error_text store args)) \/
     (name = lit "patch_concept" /\ arm = completed (tool_patch_concept rfc3339_ok store_error_text store args)) \/
     (name = lit "delete_concept" /\ arm = completed (tool_delete_concept store_error_text store args))).
Proof.
  unfold dispatch_tool. do 5 (destruct (str_eqb name _); [left; reflexivity|]).
  destruct (str_eqb name (lit "write_concept")) eqn:E1; [|destruct (str_eqb name (lit "patch_concept")) eqn:E2;
    [|destruct (str_eqb name (lit "delete_concept")) eqn:E3; [|left; reflexivity]]]; right; eexists; (split; [reflexivity|]).
  - left. split; [by apply str_eqb_eq|reflexivity].
  - right; left. split; [by apply str_eqb_eq|reflexivity].
  - right; right. split; [by apply str_eqb_eq|reflexivity].
Qed.

Lemma within_dispatch env name args aw arm :
  dispatch_tool rfc3339_ok store_error_text scopes store name args aw = Some arm -> within tool_step env arm.
Proof.
  assert (Hr : forall arm, dispatch_tool rfc3339_ok store_error_text scopes store name args false = Some arm -> within tool_step env arm).
  { intros m Hm. eapply within_weaken; [exact read_tool|]. by eapply within_read_tools in Hm as [? _]. }
  destruct aw; [|apply Hr]. destruct (dispatch_reads name args) as [->|(m & -> & Hm)]; [apply Hr|].
  intros [= <-]. destruct Hm as [[_ ->]|[[_ ->]|[_ ->]]]; cbv beta delta [completed tool_write_concept tool_patch_concept tool_delete_concept] zeta;
    (refine (within_bind _ _ _ _ _ _); [|intros ?; apply within_ret; apply _]);
    repeat (refine (within_bind _ _ _ _ _ _); [apply within_from_user|intros ?]); apply within_ret; apply _.
Qed.

Lemma within_execute env call aw : within tool_step env (execute_tool_tracked rfc3339_ok store_error_text scopes store call aw).
Proof.
  unfold execute_tool_tracked. set (name := fc_name _). destruct (parse_json _) as [[| | | | |args]|e]; try solve [eauto with within].
  destruct (dispatch_tool _ _ _ _ _ _ _) as [arm|] eqn:E.
  - refine (within_bind _ _ _ _ _ _); [by eapply within_dispatch|]. intros [[result written] early].
    refine (within_bind _ _ _ _ _ _); [|eauto with within]. destruct early; [eauto with within|].
    apply within_modify. intros w. unfold note_success. by destruct written.
  - refine (within_bind _ _ _ _ _ _); [|eauto with within]. by apply within_modify.
Qed.

(** ** The exchange with the model

    What a run that starts from a conversation asked and was answered: each
    question is the one before it, the calls it was answered with, and one
    result per call in their order; nothing follows an answer that is not a
    list of calls. *)
Definition result_turns (results : list (str * str)) : list ConversationTurn := (fun r => CtToolResult r.1 r.2) <$> results.
Inductive exchange : list ConversationTurn -> list (list ConversationTurn * result StepOutput LlmError) -> Prop :=
  | ex_stop conv : exchange conv []
  | ex_last conv o : (forall calls, o <> Ok (SoToolCalls calls)) -> exchange conv [(conv, o)]
  | ex_tools conv calls results log : results.*1 = tc_id <$> calls ->
      exchange (conv ++ CtToolCalls calls :: result_turns results) log -> exchange conv ((conv, Ok (SoToolCalls calls)) :: log).

Lemma exchange_protocol conv log : exchange conv log -> protocol conv -> forall c o, (c, o) ∈ log -> protocol c.
Proof.
  induction 1 as [conv|conv o _|conv calls results log Hr _ IH]; intros Hp c o' Hin.
  - by apply not_elem_of_nil in Hin.
  - apply list_elem_of_singleton in Hin. by injection Hin as -> ->.
  - apply elem_of_cons in Hin as [[= -> _]|Hin]; [done|]. eapply IH; [|exact Hin]. apply protocol_app; [done|].
    rewrite <- (app_nil_r (result_turns results)). by apply pr_calls; [|constructor].
Qed.

(** Nothing but the first conversation has turns of the user. *)
Lemma exchange_users conv log : exchange conv log -> forall c o, (c, o) ∈ log -> exists rest, c = conv ++ rest /\ existsb is_user rest = false.
Proof.
  induction 1 as [conv|conv o _|conv calls results log Hr _ IH]; intros c o' Hin.
  - by apply not_elem_of_nil in Hin.
  - apply list_elem_of_singleton in Hin. injection Hin as -> ->. exists []. by rewrite app_nil_r.
  - apply elem_of_cons in Hin as [[= -> _]|Hin]; [exists []; by rewrite app_nil_r|].
    destruct (IH _ _ Hin) as (rest & -> & Hrest). exists (CtToolCalls calls :: result_turns results ++ rest).
    split; [by rewrite <- app_assoc|]. simpl. rewrite existsb_app, Hrest, orb_false_r. unfold result_turns.
    apply existsb_false. intros t (r & -> & _)%list_elem_of_fmap. done.
Qed.

(** The events of the calls of an exchange *)
Definition tool_event (call : ToolCall) : AgentEvent := EvTool (fc_name (tc_function call)) (take 120 (fc_arguments (tc_function call))).
Definition calls_of (x : list ConversationTurn * result StepOutput LlmError) : list ToolCall :=
  match x.2 with Ok (SoToolCalls calls) => calls | _ => [] end.

Section Loop.
Context (client : LlmClient) (tools : list ToolSpec) (system : str).
#[local] Abbreviation calls_run := (run_calls rfc3339_ok store_error_text scopes store).
#[local] Abbreviation steps_run := (agent_steps rfc3339_ok store_error_text scopes store client tools system).

Lemma run_calls_spec env streaming aw calls conv files w r w' : calls_run streaming aw calls conv files env w = (r, w') ->
  exists results files', r = Ok (conv ++ result_turns results, files ++ files') /\ results.*1 = tc_id <$> calls /\
    aw_asked w' = aw_asked w /\ aw_traces w' = aw_traces w /\ aw_skills w' = aw_skills w /\ aw_library w' = aw_library w /\
    aw_events w' = aw_events w ++ (if streaming then tool_event <$> calls else []).
Proof.
  revert conv files w. induction calls as [|call calls IH]; intros conv files w.
  { intros [= <- <-]. exists [], []. rewrite !app_nil_r. split_and!; [done..|]. by destruct streaming; rewrite app_nil_r. }
  cbn [run_calls]. unfold mbind at 1, Run_bind at 1.
  set (w0 := if streaming then add_event (tool_event call) w else w).
  assert (Hemit : (if streaming then emit (tool_event call) else mret tt) env w = (Ok tt, w0)) by by destruct streaming.
  unfold tool_event in Hemit. rewrite Hemit. unfold mbind at 1, Run_bind at 1, attempt.
  destruct (execute_tool_tracked _ _ _ _ _ _ env w0) as [x w1] eqn:E. apply within_execute in E as [].
  assert (Hw0 : aw_asked w0 = aw_asked w /\ aw_traces w0 = aw_traces w /\ aw_skills w0 = aw_skills w /\ aw_library w0 = aw_library w /\
    aw_events w0 = aw_events w ++ (if streaming then [tool_event call] else [])) by (destruct streaming; simpl; by rewrite ?app_nil_r).
  destruct Hw0 as (? & ? & ? & ? & Hev).
  assert (Hlast : forall result (files0 : list str), calls_run streaming aw calls (conv ++ [CtToolResult (tc_id call) result]) (files ++ files0) env w1 = (r, w') ->
    exists results files', r = Ok (conv ++ result_turns results, files ++ files') /\ results.*1 = tc_id <$> (call :: calls) /\
    aw_asked w' = aw_asked w /\ aw_traces w' = aw_traces w /\ aw_skills w' = aw_skills w /\ aw_library w' = aw_library w /\
    aw_events w' = aw_events w ++ (if streaming then tool_event <$> (call :: calls) else [])).
  { intros result files0 Hrun. destruct (IH _ _ _ Hrun) as (results & files' & -> & Hids & ? & ? & ? & ? & Hev').
    exists ((tc_id call, result) :: results), (files0 ++ files'). rewrite <- !app_assoc. cbn. rewrite Hids.
    split_and!; try congruence; try done. rewrite Hev', tl_events0, Hev, <- app_assoc. by destruct streaming. }
  destruct x as [[result [p|]]|e]; apply Hlast.
Qed.

(** How the steps ended, by the last answer *)
Definition ended (n : nat) (log : list (list ConversationTurn * result StepOutput LlmError)) (r : result (option str * list str) AgentError) : Prop :=
  match r with
  | Ok (Some answer, _) => exists c, last log = Some (c, Ok (SoText answer))
  | Ok (None, _) => length log = n /\ Forall (fun x => exists calls, x.2 = Ok (SoToolCalls calls)) log
  | Err e => exists c le, last log = Some (c, Err le) /\ e = ALlm le
  end.
Record stepped (n : nat) (conv : list ConversationTurn) (streaming : bool) (w : AgentWorld) (r : result (option str * list str) AgentError)
    (w' : AgentWorld) (log : list (list ConversationTurn * result StepOutput LlmError)) : Prop := {
  sp_asked : aw_asked w' = aw_asked w ++ log; sp_exchange : exchange conv log; sp_bound : (length log <= n)%nat;
  sp_ended : ended n log r; sp_traces : aw_traces w' = aw_traces w; sp_skills : aw_skills w' = aw_skills w;
  sp_library : aw_library w' = aw_library w;
  sp_events : aw_events w' = aw_events w ++ (if streaming then tool_event <$> concat (calls_of <$> log) else []) }.

Lemma last_cons_same {A} (x : A) l y : last l = Some y -> last (x :: l) = Some y.
Proof. by destruct l. Qed.

Lemma agent_steps_spec env streaming aw temperature n conv files w r w' :
  steps_run streaming aw temperature n conv files env w = (r, w') -> exists log, stepped n conv streaming w r w' log.
Proof.
  revert conv files w. induction n as [|n IH]; intros conv files w.
  { intros [= <- <-]. exists []. constructor; simpl; rewrite ?app_nil_r; try done; [constructor|by destruct streaming; rewrite app_nil_r]. }
  cbn [agent_steps]. unfold mbind at 1, Run_bind at 1, ask.
  destruct (chat_with_tools _ _ _ _ _ _ _ _) as [[[calls|answer]|e] statics]; cbn [result_map_err].
  - unfold mbind at 1, Run_bind at 1.
    set (w1 := mkAgentWorld _ _ _ _ _ _ _ _ _ _). destruct (calls_run streaming aw calls (conv ++ [CtToolCalls calls]) files env w1) as [x w2] eqn:E.
    destruct (run_calls_spec _ _ _ _ _ _ _ _ _ E) as (results & files' & -> & Hids & Ha & Ht & Hs & Hl & He). intros Hrun.
    destruct (IH _ _ _ Hrun) as (log & [Ha' Hx Hb Hend Ht' Hs' Hl' He']).
    exists ((conv, Ok (SoToolCalls calls)) :: log). constructor.
    + rewrite Ha', Ha. unfold w1. simpl. by rewrite <- app_assoc.
    + apply (ex_tools conv calls results); [done|]. by rewrite <- app_assoc in Hx.
    + simpl. lia.
    + destruct r as [[[answer|] f]|e]; simpl in *.
      * destruct Hend as [c Hc]. exists c. by apply last_cons_same.
      * destruct Hend as [Hn Hf]. split; [lia|]. constructor; [by exists calls|done].
      * destruct Hend as (c & le & Hc & ->). exists c, le. split; [by apply last_cons_same|done].
    + by rewrite Ht', Ht.
    + by rewrite Hs', Hs.
    + by rewrite Hl', Hl.
    + rewrite He', He. unfold w1. simpl. rewrite <- app_assoc. f_equal. destruct streaming; [|done]. simpl. by rewrite fmap_app.
  - intros [= <- <-]. exists [(conv, Ok (SoText answer))]. constructor; simpl; try done; [by apply ex_last|lia|by exists conv|].
    by destruct streaming; rewrite app_nil_r.
  - intros [= <- <-]. exists [(conv, Err e)]. constructor; simpl; try done; [by apply ex_last|lia|by exists conv, e|].
    by destruct streaming; rewrite app_nil_r.
Qed.
End Loop.

(** The end of a query or mutation run: the outcome its last answer calls
    for, and its one trace, none when the model failed *)
Definition saved_trace (env : AgentEnv) (kind : TraceKind) (input answer : str) (o : TraceOutcome) (steps : list TraceStep) (rows : list TraceRow)
    : list TraceRow :=
  match sc_trace scopes with
  | Some scope => save_trace scope (finalize_trace (ae_finish env) kind input answer o steps) (ae_insert_fails env) (ae_prune_fails env) rows
  | None => rows
  end.

(** C9. A run asks the model a bounded number of times, and only ever sends it
    conversations of the tool protocol.  The first question is the prompt
    (in a chat: the history, which is in the protocol when it is made of
    user and assistant turns); every later one is the one before it, the
    calls the model answered and one result for each call in order; what is
    left of it by the budget pass is in the protocol too.  The run ends
    with the first answer that is text and returns it, with the first error
    of the model and returns that, or, when all of the [max_steps] answers
    were calls, with the step-cap error: no tool failure ends it.  One
    trace is saved of a run that ends in the first or the last way, with
    its outcome; none when the model failed. *)
Theorem agent_loop_protocol client tools system prompt aw temperature max_steps env w r w' :
  agent_loop_tracked rfc3339_ok store_error_text scopes store client tools system prompt aw temperature max_steps env w = (r, w') ->
  exists log, aw_asked w' = aw_asked w ++ log /\ exchange [CtUser prompt] log /\ (length log <= max_steps)%nat /\
    (forall c o, (c, o) ∈ log -> protocol c /\ protocol (trim_conversation c)) /\
    aw_events w' = aw_events w /\
    let kind := if aw then TMutation else TQuery in
    match r with
    | Ok (answer, _) => (exists c, last log = Some (c, Ok (SoText answer))) /\
        aw_traces w' = saved_trace env kind prompt answer TSuccess (aw_steps w') (aw_traces w)
    | Err AStepCapExceeded => length log = max_steps /\ Forall (fun x => exists calls, x.2 = Ok (SoToolCalls calls)) log /\
        aw_traces w' = saved_trace env kind prompt (lit "agent exceeded step cap") TFailed (aw_steps w') (aw_traces w)
    | Err (ALlm e) => (exists c, last log = Some (c, Err e)) /\ aw_traces w' = aw_traces w
    | Err _ => False
    end.
Proof.
  unfold agent_loop_tracked. unfold mbind at 1, Run_bind at 1. cbn [new_recorder modify].
  set (w0 := set_steps [] w). unfold mbind at 1, Run_bind at 1.
  destruct (agent_steps _ _ _ _ _ _ _ _ _ _ _ _ _ env w0) as [x w1] eqn:E.
  destruct (agent_steps_spec _ _ _ _ _ _ _ _ _ _ _ _ _ E) as (log & [Ha Hx Hb Hend Ht _ _ He]).
  rewrite app_nil_r in He. unfold w0 in Ha, Ht, He. simpl in Ha, Ht, He.
  assert (Hp : forall c o, (c, o) ∈ log -> protocol c /\ protocol (trim_conversation c)).
  { intros c o Hin. assert (protocol c) as Hc by (eapply exchange_protocol; [exact Hx| |exact Hin]; by repeat constructor).
    split; [done|]. destruct (trim_conversation_spec c) as (_ & k & _ & _ & _ & _ & _ & H). by apply H. }
  unfold finish_trace, modify, mbind, Run_bind.
  destruct x as [[[answer|] files]|e]; simpl in Hend; intros [= <- <-]; exists log.
  - unfold saved_trace. destruct (sc_trace scopes); simpl; rewrite ?Ht; split_and!; done.
  - unfold saved_trace. destruct Hend. destruct (sc_trace scopes); simpl; rewrite ?Ht; split_and!; done.
  - destruct Hend as (c & le & Hc & ->). split_and!; try done. by exists c.
Qed.

(** A chat run, whose history is in the protocol, emits the events of the
    calls it makes, in order, and one last event: the reply it returns, or
    the failure when the step cap was reached; when the model failed, none
    (the caller settles it). *)
Theorem chat_run_events client tools system streaming history env w r w' : protocol history ->
  chat_loop rfc3339_ok store_error_text scopes store client tools system streaming history env w = (r, w') ->
  exists log, aw_asked w' = aw_asked w ++ log /\ exchange history log /\ (length log <= MAX_STEPS)%nat /\
    (forall c o, (c, o) ∈ log -> protocol c /\ protocol (trim_conversation c)) /\
    let send l := if streaming then l else [] in
    let calls := tool_event <$> concat (calls_of <$> log) in
    match r with
    | Ok answer => (exists c, last log = Some (c, Ok (SoText answer))) /\ aw_events w' = aw_events w ++ send (calls ++ [EvDone answer])
    | Err AStepCapExceeded => length log = MAX_STEPS /\ aw_events w' = aw_events w ++ send (calls ++ [EvFailed (lit "agent step cap exceeded")])
    | Err (ALlm e) => (exists c, last log = Some (c, Err e)) /\ aw_events w' = aw_events w ++ send calls
    | Err _ => False
    end.
Proof.
  intros Hh. unfold chat_loop. unfold mbind at 1, Run_bind at 1. cbn [new_recorder modify].
  set (w0 := set_steps [] w). unfold mbind at 1, Run_bind at 1.
  destruct (agent_steps _ _ _ _ _ _ _ _ _ _ _ _ _ env w0) as [x w1] eqn:E.
  destruct (agent_steps_spec _ _ _ _ _ _ _ _ _ _ _ _ _ E) as (log & [Ha Hx Hb Hend Ht _ _ He]).
  unfold w0 in Ha, Ht, He. simpl in Ha, Ht, He.
  assert (Hp : forall c o, (c, o) ∈ log -> protocol c /\ protocol (trim_conversation c)).
  { intros c o Hin. assert (protocol c) as Hc by by eapply exchange_protocol.
    split; [done|]. destruct (trim_conversation_spec c) as (_ & k & _ & _ & _ & _ & _ & H). by apply H. }
  unfold finish_trace, emit, modify, mbind, Run_bind.
  destruct x as [[[answer|] files]|e]; simpl in Hend.
  - destruct streaming; intros [= <- <-]; exists log; destruct (sc_trace scopes); simpl; rewrite He, <- ?app_assoc; done.
  - destruct Hend. destruct streaming; intros [= <- <-]; exists log; destruct (sc_trace scopes); simpl; rewrite He, <- ?app_assoc; done.
  - destruct Hend as (c & le & Hc & ->). intros [= <- <-]. exists log. split_and!; try done. by exists c.
Qed.

(** ** Query runs *)
Record unwritten_world (w w' : AgentWorld) : Prop := {
  uw_world : store_same (aw_world w) (aw_world w');
  uw_skills : aw_skills w' = aw_skills w; uw_library : aw_library w' = aw_library w; uw_hot : aw_hot w' = aw_hot w }.
#[export] Instance unwritten_preorder : PreOrder unwritten_world.
Proof. split; [by intros w|]. intros w1 w2 w3 [] []. constructor; try congruence. by etrans. Qed.
Lemma read_unwritten w w' : read_only w w' -> unwritten_world w w'.
Proof. by intros []. Qed.

Lemma within_execute_read env call :
  within unwritten_world env (execute_tool_tracked rfc3339_ok store_error_text scopes store call false).
Proof.
  unfold execute_tool_tracked. set (name := fc_name _).
  destruct (parse_json _) as [[| | | | |args]|e]; try (apply within_throw; apply _).
  destruct (dispatch_tool _ _ _ _ _ _ _) as [arm|] eqn:E.
  - edestruct within_read_tools as [Harm Hnone]; [exact E|].
    intros w r w'. unfold mbind, Run_bind. destruct (arm env w) as [[[[result written] early]|e] w1] eqn:Ea.
    + apply Hnone in Ea as Hw. simpl in Hw. subst written. apply Harm in Ea as []. destruct early; intros [= <- <-]; by constructor.
    + intros [= <- <-]. apply Harm in Ea. by apply read_unwritten.
  - intros w r w' [= <- <-]. done.
Qed.

Lemma within_calls_read env client calls conv files :
  within unwritten_world env (run_calls rfc3339_ok store_error_text scopes store client false calls conv files).
Proof.
  revert conv files. induction calls as [|call calls IH]; intros conv files; [apply within_ret; apply _|]. cbn [run_calls].
  refine (within_bind _ _ _ _ _ _); [destruct client; [by apply within_modify|apply within_ret; apply _]|intros _].
  refine (within_bind _ _ _ _ _ _); [apply within_attempt, within_execute_read|].
  intros [[result written]|e]; apply IH.
Qed.

Lemma within_steps_read env client tools system streaming temperature n conv files : (forall n s, ae_between env n s = s) ->
  within unwritten_world env (agent_steps rfc3339_ok store_error_text scopes store client tools system streaming false temperature n conv files).
Proof.
  intros Hq. revert conv files. induction n as [|n IH]; intros conv files; [apply within_ret; apply _|]. cbn [agent_steps].
  refine (within_bind _ _ _ _ _ _).
  - intros w r w'. unfold ask. destruct (chat_with_tools _ _ _ _ _ _ _ _) as [x st]. intros [= <- <-]. rewrite Hq. by constructor.
  - intros [calls|answer]; [|apply within_ret; apply _]. refine (within_bind _ _ _ _ _ _); [apply within_calls_read|].
    intros [conv' files']. apply IH.
Qed.

(** C12. A query run changes nothing it could have changed: whatever the model
    asks for, the files, the registry, the revision log and the queue of
    the caller's bundle, the two global shelves and the hot memory are
    afterwards what they were (when nobody else changed them meanwhile).
    What it may leave is in the caches, the trace table and the client's
    statics. *)
Theorem query_read_only client question env w r w' : (forall n s, ae_between env n s = s) ->
  run_query rfc3339_ok store_error_text scopes store client question env w = (r, w') ->
  w_dir (aw_world w') = w_dir (aw_world w) /\ w_files (aw_world w') = w_files (aw_world w) /\
  w_revs (aw_world w') = w_revs (aw_world w) /\ w_queue (aw_world w') = w_queue (aw_world w) /\
  aw_skills w' = aw_skills w /\ aw_library w' = aw_library w /\ aw_hot w' = aw_hot w.
Proof.
  intros Hq Hrun. enough (unwritten_world w w') as [[(? & ? & ?) ?] ? ? ?] by done. revert w r w' Hrun.
  change (within unwritten_world env (run_query rfc3339_ok store_error_text scopes store client question)).
  unfold run_query, agent_loop, agent_loop_tracked.
  refine (within_bind _ _ _ _ _ _); [eapply within_weaken; [exact read_unwritten|apply within_prompt]|intros system].
  refine (within_bind _ _ _ _ _ _); [|intros; apply within_ret; apply _].
  refine (within_bind _ _ _ _ _ _); [|intros []; apply within_ret; apply _].
  refine (within_bind _ _ _ _ _ _); [by apply within_modify|intros _].
  refine (within_bind _ _ _ _ _ _); [by apply within_steps_read|].
  assert (Ht : forall kind input answer o, within unwritten_world env (finish_trace scopes kind input answer o)).
  { intros kind input answer o. apply within_modify. intros w. by destruct (sc_trace scopes). }
  intros [[answer|] files]; (refine (within_bind _ _ _ _ _ _); [apply Ht|intros _]); [apply within_ret|apply within_throw]; apply _.
Qed.

(** ** Runs are histories of the concept store *)
Section Histories.
Context (Hnc : no_collisions) (low : Z) (env : AgentEnv).
Context (Hroot : meta_fits (lit "/index.md")) (Hlow : 1 <= low) (Henv : env_ok low (ae_store env)).
Context (Htag : cs_revision_op store <> Some (lit "create")).
#[local] Abbreviation sc := (cs_scope store).
#[local] Abbreviation good w := (Inv rfc3339_ok sc (aw_world w)).
#[local] Abbreviation hist := (history rfc3339_ok sc low true).

(** The program's effect on the store is a history that records at most [n]
    revisions. *)
Definition recording {A} (n : Z) (m : Run A) : Prop := forall w r w', good w -> m env w = (r, w') ->
  exists k, k <= n /\ hist k (aw_world w) (aw_world w').

Lemma history_trans k n w w1 w2 : hist k w w1 -> hist n w1 w2 -> hist (k + n) w w2.
Proof.
  induction 1 as [w|cs e o r m w wa wb Hsc He Hf Ht Hrun _ IH|m w wa wb Hd Hr Hv Hc _ IH]; intros H2.
  - done.
  - rewrite <- Z.add_assoc. by eapply h_op, IH.
  - eapply h_other; [exact Hd|exact Hr|exact Hv|exact Hc|]. by apply IH.
Qed.

Lemma history_same s s' : Inv rfc3339_ok sc s -> store_same s s' -> hist 0 s s'.
Proof.
  intros HI [(Hd & Hf & Hv) _]. eapply h_other; [exact Hd| | | |apply h_nil].
  - intros p. unfold row. by rewrite Hf.
  - rewrite Hv. apply HI.
  - intros t. by rewrite Hv.
Qed.

Lemma hist_good k s s' : hist k s s' -> Inv rfc3339_ok sc s -> Inv rfc3339_ok sc s' /\ 0 <= k.
Proof. intros H HI. by eapply history_inv. Qed.

Lemma recording_bind {A B} n1 n2 (m : Run A) (f : A -> Run B) : 0 <= n2 ->
  recording n1 m -> (forall a, recording n2 (f a)) -> recording (n1 + n2) (m ≫= f).
Proof.
  intros Hn Hm Hf w r w' HI Hrun. unfold mbind, Run_bind in Hrun. destruct (m env w) as [[a|e] w1] eqn:E;
    destruct (Hm _ _ _ HI E) as (k & Hk & Hh).
  - destruct (hist_good _ _ _ Hh HI) as [HI1 _]. destruct (Hf a _ _ _ HI1 Hrun) as (k' & Hk' & Hh').
    exists (k + k'). split; [lia|by eapply history_trans].
  - injection Hrun as <- <-. exists k. split; [lia|done].
Qed.
Lemma recording_reads {A} (m : Run A) : within read_only env m -> recording 0 m.
Proof. intros Hm w r w' HI Hrun. apply Hm in Hrun as []. exists 0. split; [done|]. by apply history_same. Qed.
Lemma recording_modify f : (forall w, aw_world (f env w) = aw_world w) -> recording 0 (modify f).
Proof. intros Hf w r w' HI [= <- <-]. exists 0. split; [done|]. rewrite Hf. apply h_nil. Qed.
Lemma recording_weaken {A} n n' (m : Run A) : n <= n' -> recording n m -> recording n' m.
Proof. intros Hn Hm w r w' HI Hrun. destruct (Hm _ _ _ HI Hrun) as (k & Hk & Hh). exists k. split; [lia|done]. Qed.

Lemma recording_op (o : CsOp) : op_fits o -> recording (op_size o) (from_store store_error_text ShUser (run_op rfc3339_ok store o)).
Proof.
  intros Hf. rewrite <- (Z.add_0_r (op_size o)). apply recording_bind; [done| |].
  - intros w r w' HI. unfold on_store. destruct (run_op _ _ _ _ _) as [x s] eqn:E. intros [= <- <-]. exists (op_size o). split; [done|].
    simpl. rewrite <- (Z.add_0_r (op_size o)). eapply h_op; [reflexivity|exact Henv|exact Hf|by intros _|exact E|apply h_nil].
  - intros [a|e]; apply recording_reads; eauto with within.
Qed.

(** The path of a call of a write tool fits the metadata of a file. *)
Definition call_fits (call : ToolCall) : Prop :=
  forall args, parse_json (fc_arguments (tc_function call)) = Ok (JObject args) -> path_fits (arg_str "path" args).

Lemma recording_get p : recording 0 (from_store store_error_text ShUser (get store p)).
Proof. apply recording_reads. apply within_from_store, reads_get. Qed.

Lemma get_source p e s c s' : get (YE := YE) store p e s = (Ok c, s') -> source_path c = p.
Proof. intros H. by apply get_cases in H as (_ & b & md & _ & _ & ?%parse_path). Qed.

Lemma recording_completed n m : 0 <= n -> recording n m -> recording n (completed m).
Proof.
  intros Hn Hm. rewrite <- (Z.add_0_r n). apply recording_bind; [done|exact Hm|]. intros x. apply recording_reads. eauto with within.
Qed.
Lemma recording_patch args : path_fits (arg_str "path" args) -> recording 1 (tool_patch_concept rfc3339_ok store_error_text store args).
Proof.
  intros Hfit w r w' HI. unfold tool_patch_concept. unfold mbind at 1, Run_bind at 1.
  destruct (from_store _ _ _ env w) as [[c|e] w1] eqn:E.
  - intros Hrun. destruct (recording_get _ _ _ _ HI E) as (k & Hk & Hh). destruct (hist_good _ _ _ Hh HI) as [HI1 _].
    assert (Hp : source_path c = arg_str "path" args).
    { unfold from_store, mbind, Run_bind, on_store in E. destruct (get _ _ _ _) as [[c'|e'] s1] eqn:Eg; [|done].
      injection E as <- _. by eapply get_source in Eg. }
    assert (Hput : recording (1 + 0) (_ ← from_store store_error_text ShUser (put rfc3339_ok store (patched args c));
      mret (reply [("patched"%string, JString (source_path (patched args c)))], Some (source_path (patched args c))))).
    { apply recording_bind; [done|apply (recording_op (OPut (patched args c))); simpl; by rewrite Hp|].
      intros _. apply recording_reads. eauto with within. }
    destruct (Hput _ _ _ HI1 Hrun) as (k' & Hk' & Hh'). exists (k + k'). split; [lia|by eapply history_trans].
  - intros [= <- <-]. destruct (recording_get _ _ _ _ HI E) as (k & Hk & Hh). exists k. split; [lia|done].
Qed.

Lemma recording_execute aw call : call_fits call -> recording 1 (execute_tool_tracked rfc3339_ok store_error_text scopes store call aw).
Proof.
  intros Hfit. unfold execute_tool_tracked. set (name := fc_name _). unfold call_fits in Hfit.
  destruct (parse_json _) as [[| | | | |args]|e]; try solve [eapply (recording_weaken 0); [lia|apply recording_reads; apply within_throw; apply _]].
  specialize (Hfit args eq_refl).
  destruct (dispatch_tool _ _ _ _ _ _ _) as [arm|] eqn:E.
  - refine (recording_bind 1 0 _ _ _ _ _); [done| |].
    + assert (Hr : forall m, dispatch_tool rfc3339_ok store_error_text scopes store name args false = Some m -> recording 1 m).
      { intros m Hm. eapply (recording_weaken 0); [lia|]. apply recording_reads. by eapply within_read_tools in Hm as [? _]. }
      destruct aw; [|by apply Hr]. destruct (dispatch_reads name args) as [Heq|(m & Heq & Hm)]; rewrite Heq in E; [by apply Hr|].
      injection E as <-. destruct Hm as [[_ ->]|[[_ ->]|[_ ->]]]; (apply recording_completed; [done|]).
      * refine (recording_bind 1 0 _ _ _ _ _); [done| |intros; apply recording_reads; eauto with within].
        by apply (recording_op (OPut (mkConcept _ _ _))).
      * by apply recording_patch.
      * refine (recording_bind 1 0 _ _ _ _ _); [done| |intros; apply recording_reads; eauto with within].
        by apply (recording_op (ODelete _)).
    + intros [[result written] early]. refine (recording_bind 0 0 _ _ _ _ _); [done| |intros; apply recording_reads; eauto with within].
      destruct early; [apply recording_reads; eauto with within|].
      apply recording_modify. intros w. unfold note_success. by destruct written.
  - refine (recording_bind 0 1 _ _ _ _ _); [done|by apply recording_modify|].
    intros _. eapply (recording_weaken 0); [lia|]. apply recording_reads. eauto with within.
Qed.

Lemma recording_calls streaming aw calls conv files : Forall call_fits calls ->
  recording (Z.of_nat (length calls)) (run_calls rfc3339_ok store_error_text scopes store streaming aw calls conv files).
Proof.
  intros Hf. revert conv files. induction Hf as [|call calls Hc Hf IH]; intros conv files; [apply recording_reads; eauto with within|].
  cbn [run_calls length]. rewrite Nat2Z.inj_succ. replace (Z.succ (Z.of_nat (length calls))) with (0 + (1 + Z.of_nat (length calls))) by lia.
  apply recording_bind; [lia|destruct streaming; [by apply recording_modify|apply recording_reads; eauto with within]|intros _].
  apply recording_bind; [lia| |intros [[result written]|e]; apply IH].
  intros w r w' HI. unfold attempt. destruct (execute_tool_tracked _ _ _ _ _ _ env w) as [x w1] eqn:E. intros [= <- <-].
  by eapply recording_execute.
Qed.

(** Others, while the model was thinking for the [n]-th time, made a
    history of at most [noise n] revisions. *)
Context (noise : nat -> Z)
  (Hothers : forall n s, Inv rfc3339_ok sc s -> exists k, k <= noise n /\ hist k s (ae_between env n s)).

(** What a run and the others can have recorded *)
Fixpoint spent (start : nat) (log : list (list ConversationTurn * result StepOutput LlmError)) : Z :=
  match log with
  | [] => 0
  | x :: log => noise start + Z.of_nat (length (calls_of x)) + spent (S start) log
  end.
Definition log_fits (log : list (list ConversationTurn * result StepOutput LlmError)) : Prop := Forall (fun x => Forall call_fits (calls_of x)) log.

Definition records_log {A} (m : Run A) : Prop := forall w r w', good w -> m env w = (r, w') -> log_fits (aw_asked w') ->
  exists log k, aw_asked w' = aw_asked w ++ log /\ k <= spent (length (aw_asked w)) log /\ hist k (aw_world w) (aw_world w').

Lemma records_bind {A B} (m : Run A) (f : A -> Run B) : within read_only env m -> (forall a, records_log (f a)) -> records_log (m ≫= f).
Proof.
  intros Hm Hf w r w' HI Hrun Hfit. unfold mbind, Run_bind in Hrun. destruct (m env w) as [[a|e] w1] eqn:E; apply Hm in E as [].
  - assert (hist 0 (aw_world w) (aw_world w1)) as Hh by by apply history_same. destruct (hist_good _ _ _ Hh HI) as [HI1 _].
    destruct (Hf a _ _ _ HI1 Hrun Hfit) as (log & k & Ha & Hk & Hh'). rewrite ro_asked0 in Ha, Hk. exists log, k. split_and!; [done|done|].
    by apply (history_trans 0 k _ _ _ Hh).
  - injection Hrun as <- <-. exists [], 0. rewrite app_nil_r. split_and!; [done|simpl; lia|by apply history_same].
Qed.

Lemma records_tail {A B} (m : Run A) (f : A -> Run B) : records_log m ->
  (forall a w r w', f a env w = (r, w') -> aw_world w' = aw_world w /\ aw_asked w' = aw_asked w) -> records_log (m ≫= f).
Proof.
  intros Hm Hf w r w' HI Hrun Hfit. unfold mbind, Run_bind in Hrun. destruct (m env w) as [[a|e] w1] eqn:E.
  - destruct (Hf _ _ _ _ Hrun) as [Hw Ha]. rewrite Hw, Ha in *. by eapply Hm.
  - injection Hrun as <- <-. by eapply Hm.
Qed.

Lemma spent_app start l1 l2 : spent start (l1 ++ l2) = spent start l1 + spent (start + length l1) l2.
Proof.
  revert start. induction l1 as [|x l1 IH]; intros start; [by rewrite Nat.add_0_r|]. cbn [app spent length]. rewrite IH.
  replace (S start + length l1)%nat with (start + S (length l1))%nat by lia. lia.
Qed.
(** Two runs, the second of which adds to what was asked *)
Lemma records_then {A B} (m : Run A) (f : A -> Run B) : records_log m -> (forall a, records_log (f a)) ->
  (forall a w r w', f a env w = (r, w') -> exists l, aw_asked w' = aw_asked w ++ l) -> records_log (m ≫= f).
Proof.
  intros Hm Hf Hgrow w r w' HI Hrun Hfit. unfold mbind, Run_bind in Hrun. destruct (m env w) as [[a|e] w1] eqn:E.
  - destruct (Hgrow _ _ _ _ Hrun) as [l Hl]. assert (Hfit1 : log_fits (aw_asked w1)).
    { unfold log_fits in *. rewrite Hl in Hfit. by apply Forall_app in Hfit as [? _]. }
    destruct (Hm _ _ _ HI E Hfit1) as (log1 & k1 & Ha1 & Hk1 & Hh1). destruct (hist_good _ _ _ Hh1 HI) as [HI1 _].
    destruct (Hf a _ _ _ HI1 Hrun Hfit) as (log2 & k2 & Ha2 & Hk2 & Hh2). exists (log1 ++ log2), (k1 + k2). split_and!.
    + by rewrite Ha2, Ha1, app_assoc.
    + rewrite spent_app. rewrite Ha1, length_app in Hk2. lia.
    + by eapply history_trans.
  - injection Hrun as <- <-. by eapply Hm.
Qed.

Lemma records_steps client tools system streaming aw temperature n conv files :
  records_log (agent_steps rfc3339_ok store_error_text scopes store client tools system streaming aw temperature n conv files).
Proof.
  revert conv files. induction n as [|n IH]; intros conv files w r w' HI.
  { intros [= <- <-] _. exists [], 0. rewrite app_nil_r. split_and!; [done|simpl; lia|apply h_nil]. }
  cbn [agent_steps]. unfold mbind at 1, Run_bind at 1, ask.
  destruct (Hothers (length (aw_asked w)) _ HI) as (kn & Hkn & Hn). destruct (hist_good _ _ _ Hn HI) as [HI0 _].
  destruct (chat_with_tools _ _ _ _ _ _ _ _) as [o statics]. set (w1 := mkAgentWorld _ _ _ _ _ _ _ _ _ _).
  assert (Hstop : o = o -> exists log k, aw_asked w1 = aw_asked w ++ log /\ k <= spent (length (aw_asked w)) log /\ hist k (aw_world w) (aw_world w1)).
  { intros _. exists [(conv, o)], kn. split_and!; [done|simpl; lia|done]. }
  destruct o as [[calls|answer]|e]; cbn [result_map_err].
  - unfold mbind at 1, Run_bind at 1.
    destruct (run_calls _ _ _ _ streaming aw calls (conv ++ [CtToolCalls calls]) files env w1) as [x w2] eqn:E.
    destruct (run_calls_spec _ _ _ _ _ _ _ _ _ E) as (results & files' & -> & _ & Ha & _). intros Hrun Hfit.
    destruct (agent_steps_spec _ _ _ _ _ _ _ _ _ _ _ _ _ Hrun) as (log & [Hlog _ _ _ _ _ _ _]).
    assert (Forall call_fits calls) as Hcalls.
    { unfold log_fits in Hfit. rewrite Hlog, Ha in Hfit. unfold w1 in Hfit. simpl in Hfit.
      apply Forall_app in Hfit as [Hfit _]. apply Forall_app in Hfit as [_ Hfit]. by apply Forall_inv in Hfit. }
    destruct (recording_calls _ _ _ _ _ Hcalls w1 _ _ HI0 E) as (k2 & Hk2 & Hh2). destruct (hist_good _ _ _ Hh2 HI0) as [HI2 _].
    destruct (IH _ _ _ _ _ HI2 Hrun Hfit) as (log' & k3 & Ha3 & Hk3 & Hh3).
    exists ((conv, Ok (SoToolCalls calls)) :: log'), (kn + (k2 + k3)). split_and!.
    + rewrite Ha3, Ha. unfold w1. simpl. by rewrite <- app_assoc.
    + rewrite Ha in Hk3. change (aw_asked w1) with (aw_asked w ++ [(conv, Ok (SoToolCalls calls) : result StepOutput LlmError)]) in Hk3. rewrite length_app, Nat.add_1_r in Hk3.
      change (kn + (k2 + k3) <= noise (length (aw_asked w)) + Z.of_nat (length calls) + spent (S (length (aw_asked w))) log'). lia.
    + eapply history_trans; [exact Hn|]. eapply history_trans; [exact Hh2|exact Hh3].
  - intros [= <- <-] _. by apply Hstop.
  - intros [= <- <-] _. by apply Hstop.
Qed.

(** The entry points of a run *)
Inductive entry_point : forall {A}, Run A -> Prop :=
  | ep_query client question : entry_point (run_query rfc3339_ok store_error_text scopes store client question)
  | ep_mutation client instruction max_steps : entry_point (run_mutation_capped rfc3339_ok store_error_text scopes store client instruction max_steps)
  | ep_chat client history streaming : entry_point (run_chat_streaming rfc3339_ok store_error_text scopes store client history streaming).

Lemma trace_only kind input answer o w x w' : finish_trace scopes kind input answer o env w = (x, w') ->
  x = Ok tt /\ aw_world w' = aw_world w /\ aw_asked w' = aw_asked w.
Proof. unfold finish_trace, modify. intros [= <- <-]. by destruct (sc_trace scopes). Qed.

Lemma records_loop client tools system prompt aw temperature n :
  records_log (agent_loop_tracked rfc3339_ok store_error_text scopes store client tools system prompt aw temperature n).
Proof.
  intros w r w' HI. unfold agent_loop_tracked. unfold mbind at 1, Run_bind at 1. cbn [new_recorder modify].
  change (aw_asked w) with (aw_asked (set_steps [] w)). change (aw_world w) with (aw_world (set_steps [] w)) in *.
  revert HI. generalize (set_steps [] w). clear w. intros w HI. revert w r w' HI. apply records_tail; [apply records_steps|].
  intros [[answer|] files] w r w'; unfold mbind, Run_bind; destruct (finish_trace _ _ _ _ _ env w) as [x w1] eqn:E;
    apply trace_only in E as (-> & ? & ?); by intros [= <- <-].
Qed.

Lemma records_chat client tools system streaming history :
  records_log (chat_loop rfc3339_ok store_error_text scopes store client tools system streaming history).
Proof.
  intros w r w' HI. unfold chat_loop. unfold mbind at 1, Run_bind at 1. cbn [new_recorder modify].
  change (aw_asked w) with (aw_asked (set_steps [] w)). change (aw_world w) with (aw_world (set_steps [] w)) in *.
  revert HI. generalize (set_steps [] w). clear w. intros w HI. revert w r w' HI. apply records_tail; [apply records_steps|].
  intros [[answer|] files] w r w'; unfold mbind, Run_bind; destruct (finish_trace _ _ _ _ _ env w) as [x w1] eqn:E;
    apply trace_only in E as (-> & ? & ?); destruct streaming; by intros [= <- <-].
Qed.

Lemma entry_records {A} (m : Run A) : entry_point m -> records_log m.
Proof.
  destruct 1.
  - unfold run_query. apply records_bind; [apply within_prompt|]. intros system. unfold agent_loop.
    apply records_tail; [apply records_tail; [apply records_loop|]|]; [intros [a files]|intros a]; by intros w r w' [= <- <-].
  - unfold run_mutation_capped. apply records_bind; [apply within_prompt|]. intros system.
    apply records_tail; [apply records_loop|]. intros [a files]. by intros w r w' [= <- <-].
  - unfold run_chat_streaming. apply records_bind; [apply within_prompt|]. intros system. apply records_chat.
Qed.
End Histories.

(** Every listed path is a concept, and what was listed can be had. *)
Definition kept (low : Z) (noise : nat -> Z) (w w' : AgentWorld) : Prop :=
  (forall p row, w_files (aw_world w') !! (scope_id (cs_scope store), p) = Some row ->
     exists c md, source_path c = p /\ to_markdown (YamlError := YE) c = Ok md /\
       Frontmatter_validated (YamlError := YE) rfc3339_ok (frontmatter c) = Ok tt /\
       read (w_dir (aw_world w')) p (repo_scope (cs_scope store)) false = Ok (as_bytes md)) /\
  (forall p b, is_Some (w_files (aw_world w) !! (scope_id (cs_scope store), p)) ->
     read (w_dir (aw_world w)) p (repo_scope (cs_scope store)) false = Ok b -> starts_with QUEUE_PREFIX p = false ->
     spent noise (length (aw_asked w)) (drop (length (aw_asked w)) (aw_asked w')) < low ->
     Forall (fun v => v_no v < 9223372036854775808) (w_revs (aw_world w')) ->
     read (w_dir (aw_world w')) p (repo_scope (cs_scope store)) false = Ok b \/
     exists no, get_revision (revisions_of (cs_scope store)) (w_revs (aw_world w')) p no false = Ok b).
Lemma kept_by_history (Hnc : no_collisions) low noise w w' log k : meta_fits (lit "/index.md") -> 1 <= low ->
  Inv rfc3339_ok (cs_scope store) (aw_world w) -> aw_asked w' = aw_asked w ++ log -> k <= spent noise (length (aw_asked w)) log ->
  history rfc3339_ok (cs_scope store) low true k (aw_world w) (aw_world w') -> kept low noise w w'.
Proof.
  intros Hroot Hlow HI Ha Hk Hh. destruct (history_inv rfc3339_ok Hnc (cs_scope store) low true k _ _ Hlow Hroot Hh HI) as [HI' _].
  split.
  - intros p row Hrow. destruct (inv_listed _ _ _ HI' p row Hrow) as (_ & b & Hb & c & md & Hp & Hmd & -> & Hv).
    exists c, md. split_and!; [done|done|done|by apply content_read].
  - intros p b Hp Hb Hq Hspent Hfits. rewrite Ha, drop_app_length in Hspent.
    eapply (history_saved rfc3339_ok Hnc (cs_scope store) k low (aw_world w)); try done. lia.
Qed.


(** C7. No run of the agent loses knowledge without an undo, whatever its model
    answers.  Take a world that operations of the store have reached, and
    let a query, mutation or chat run happen in it, with any access refused
    and any answer of the endpoint, while others work on the same bundle as
    the store allows.  Afterwards every listed path is a concept: its file
    opens and is the markdown of a concept of that path that passed the
    write guard.  And a listed concept (outside the queue's directory) still
    has its bytes, or a revision of the log reads as them, when the calls
    the model made and the others' revisions are together fewer than the
    retention keeps.  Assumed: the handle does not carry the explicit tag
    [create], the paths the model named fit a file's metadata, and revision
    numbers their column. *)
Theorem agent_keeps_undo {A} (m : Run A) (Hnc : no_collisions) low noise env n0 w0 w r w' : entry_point m ->
  meta_fits (lit "/index.md") -> 1 <= low -> env_ok low (ae_store env) -> cs_revision_op store <> Some (lit "create") ->
  (forall n s, Inv rfc3339_ok (cs_scope store) s -> exists k, k <= noise n /\ history rfc3339_ok (cs_scope store) low true k s (ae_between env n s)) ->
  fresh w0 -> history rfc3339_ok (cs_scope store) 1 false n0 w0 (aw_world w) ->
  m env w = (r, w') -> log_fits (aw_asked w') ->
  kept low noise w w'.
Proof.
  intros Hm Hroot Hlow Henv Htag Hothers Hfresh Hh0 Hrun Hfit.
  destruct (history_inv rfc3339_ok Hnc (cs_scope store) 1 false n0 _ _ ltac:(lia) Hroot Hh0) as [HI _]; [by apply fresh_inv|].
  destruct (entry_records Hnc low env Hroot Hlow Henv Htag noise Hothers m Hm _ _ _ HI Hrun Hfit) as (log & k & Ha & Hk & Hh).
  by eapply kept_by_history.
Qed.
End Scopes.
End Agent.
