(* ===== verification/AgentTools.v ===== *)
(** * Properties of the agent's tools

    What a search across the scopes returns, what of the library a caller
    sees, what the write tools leave behind, and the section replacement
    against a reference. *)
From stdpp Require Import sorting.
From S2P Require Import Prelude Float Text Clock Crypto FileRepo Concept Graph Library Health Search HotMemory JsonValue Llm Embeddings Trace Prompts Lifecycle Revisions SearchIndex Vectors ConceptStore ConceptStoreProofs Fallback Agent AgentProofs.
Open Scope Z_scope.

(** ** Sections

    The reference: a body is its lines before the first [# heading] line
    and, for each such line, the block up to the next line that starts a
    section; the blocks are replaced, the rest is kept. *)
Section Sections.
Context (start content : str).
Definition is_start (line : str) : bool := str_eqb (trim line) start.
Definition line_text (line : str) : str := line ++ [nl].
Definition new_section : str := start ++ [nl] ++ content ++ [nl].

(** The lines outside the sections to replace, and the new text for each of
    these *)
Fixpoint replaced_lines (in_target : bool) (ls : list str) : str :=
  match ls with
  | [] => []
  | line :: ls =>
      if is_start line then new_section ++ replaced_lines true ls
      else if in_target && negb (starts_with (lit "# ") line) then replaced_lines true ls
      else line_text line ++ replaced_lines false ls
  end.

Lemma scan_line_spec ls out replaced in_target :
  let s := fold_left (scan_line start content) ls (mkScan out replaced in_target) in
  sn_out s = out ++ replaced_lines in_target ls /\ sn_replaced s = replaced || existsb is_start ls.
Proof.
  revert out replaced in_target. induction ls as [|line ls IH]; intros out replaced in_target.
  { simpl. by rewrite app_nil_r, orb_false_r. }
  cbn [fold_left]. unfold scan_line at 2 4. cbn [sn_in_target sn_replaced sn_out replaced_lines existsb].
  change (str_eqb (trim line) start) with (is_start line). destruct (is_start line); cbn zeta.
  - destruct (IH (out ++ start ++ [nl] ++ content ++ [nl]) true true) as [-> ->]. split.
    + unfold new_section. by rewrite <- !app_assoc.
    + by rewrite orb_true_r.
  - destruct (in_target && negb (starts_with (lit "# ") line)).
    + destruct (IH out replaced true) as [-> ->]. done.
    + destruct (IH (out ++ line ++ [nl]) replaced false) as [-> ->]. split; [|done]. unfold line_text. by rewrite <- !app_assoc.
Qed.

Lemma replaced_lines_none ls : existsb is_start ls = false -> replaced_lines false ls = concat (line_text <$> ls).
Proof.
  induction ls as [|line ls IH]; simpl; [done|]. intros [Hl Hls]%orb_false_iff. by rewrite Hl, IH.
Qed.
End Sections.

(** The section tool does what the reference does: without a line that is
    the heading, the body's lines are kept and the section is added at
    their end; with one, each such section, from its heading to the next
    line that starts with a number sign and a blank, is replaced. *)
Theorem replace_section_spec body heading content : let start := lit "# " ++ heading in
  replace_section body heading content =
  if existsb (is_start start) (lines body) then replaced_lines start content false (lines body)
  else concat (line_text <$> lines body) ++ new_section start content.
Proof.
  intros start. unfold replace_section. fold start. destruct (scan_line_spec start content (lines body) [] false false) as [Hout Hrep].
  cbn [orb app] in Hout, Hrep. rewrite Hout, Hrep. destruct (existsb (is_start start) (lines body)) eqn:E; [done|].
  rewrite replaced_lines_none by done. set (out := concat _).
  assert (negb (ends_with [nl] out) && negb (bool_decide (out = [])) = false) as ->.
  { destruct (decide (out = [])) as [->|Hne]; [done|]. rewrite bool_decide_eq_false_2 by done. rewrite andb_true_r.
    assert (ends_with [nl] out = true) as ->; [|done].
    unfold out in *. clear -Hne. induction (lines body) as [|l ls _] using rev_ind; [done|].
    rewrite fmap_app, concat_app. simpl. rewrite app_nil_r. unfold line_text. rewrite app_assoc. unfold ends_with.
    by rewrite reverse_app. }
  unfold new_section. done.
Qed.

Section Agent.
Context {AE : Aead} {KD : Kdf} {HX : Hex} {UT : UuidText} {MJ : MetaJson} {LC : Lowercase} {NL : NaturalLog} {DJ : DocJson}.
Context {YE : Type} `{!YamlCodec YE} (rfc3339_ok : str -> bool).
Context {JT : JsonText} {TJ : TraceJson} (store_error_text : ConceptStoreError YE -> str).
#[local] Abbreviation Err' := (ConceptStoreError YE).

Lemma run_bind {A B} (m : Run A) (f : A -> Run B) env w :
  (m ≫= f) env w = match m env w with (Ok a, w1) => f a env w1 | (Err e, w1) => (Err e, w1) end.
Proof. done. Qed.
Lemma run_bind_ok {A B} (m : Run A) (f : A -> Run B) env w b w' : (m ≫= f) env w = (Ok b, w') ->
  exists a w1, m env w = (Ok a, w1) /\ f a env w1 = (Ok b, w').
Proof. rewrite run_bind. destruct (m env w) as [[a|e] w1]; [by exists a, w1|done]. Qed.


Lemma elem_of_concat {A} (x : A) (ls : list (list A)) : x ∈ concat ls <-> exists l, l ∈ ls /\ x ∈ l.
Proof. rewrite list_elem_of_In, List.in_concat. by setoid_rewrite list_elem_of_In. Qed.

(** ** The cross-scope search *)
Section Scopes.
Context (scopes : AgentScopes).




Lemma store_at_source o src : src ∈ sources_of scopes o -> store_at scopes o src.1 = src.2.
Proof. unfold sources_of. rewrite !elem_of_cons, elem_of_nil. intros [->|[->|[->|[]]]]; done. Qed.





(** ** Hidden books *)
Definition hides (slug : str) : bool := match sc_visible_slugs scopes with Some vis => negb (existsb (str_eqb slug) vis) | None => false end.

(** The first segment of a path decides: every path of a hidden book is
    invisible. *)
Lemma library_path_visible_spec path : library_path_visible scopes path =
  negb (hides (default [] (head (split slash (trim_start_if (N.eqb slash) path))))).
Proof. unfold library_path_visible, hides. destruct (sc_visible_slugs scopes); [by rewrite negb_involutive|done]. Qed.

(** The same caller over another library: other catalog, other texts of
    hidden books *)
Definition with_library (library : option ConceptStore) (reader : option (str -> result str str)) : AgentScopes :=
  mkScopes (sc_skills scopes) library reader (sc_visible_slugs scopes) (sc_trace scopes) (sc_embeddings scopes).

(** C22. A hidden book cannot be read.  The reply to a passage request does not
    depend on the texts of hidden books, nor does what [read_concept] does
    with a path of a hidden book depend on the library at all. *)
Theorem hidden_books_unread store library reader reader' args :
  (sc_read_stack_text scopes = Some reader /\ forall slug, hides slug = false -> reader' slug = reader slug) ->
  tool_read_passage scopes args = tool_read_passage (with_library library (Some reader')) args /\
  (library_path_visible scopes (arg_str "path" args) = false ->
   tool_read_concept store_error_text scopes store args =
   tool_read_concept store_error_text (with_library library (Some reader')) store args).
Proof.
  intros [Hreader Hsame]. split.
  - unfold tool_read_passage, with_library. simpl. rewrite Hreader.
    destruct (bool_decide (trim (arg_str "resource" args) = [])); [done|].
    destruct (parse_book_uri (trim (arg_str "resource" args))) as [[slug anchor]|]; [|done].
    specialize (Hsame slug). unfold hides in Hsame. destruct (sc_visible_slugs scopes) as [vis|].
    + destruct (negb (existsb (str_eqb slug) vis)) eqn:E; [done|]. by rewrite (Hsame eq_refl).
    + by rewrite (Hsame eq_refl).
  - intros Hv. unfold tool_read_concept, find_concept, with_library. simpl.
    unfold library_path_visible in *. simpl. rewrite Hv. done.
Qed.
End Scopes.

(** ** The dispatch *)

Definition spec_name (t : ToolSpec) : str := fs_name (ts_function t).
Lemma read_names : spec_name <$> read_tool_specs =
  [lit "search_knowledge"; lit "read_passage"; lit "read_concept"; lit "list_directory"; lit "lint_knowledge"].
Proof. reflexivity. Qed.
Lemma all_names : spec_name <$> all_tool_specs =
  (spec_name <$> read_tool_specs) ++ [lit "write_concept"; lit "patch_concept"; lit "delete_concept"].
Proof. reflexivity. Qed.
Lemma elem_of_existsb (s : str) l : s ∈ l <-> existsb (str_eqb s) l = true.
Proof.
  rewrite existsb_true. split; [intros H; exists s; by rewrite str_eqb_eq|]. by intros (x & Hx & ->%str_eqb_eq).
Qed.

Lemma dispatch_read scopes store name args arm : dispatch_tool rfc3339_ok store_error_text scopes store name args false = Some arm ->
  name ∈ spec_name <$> read_tool_specs \/ arm = throw (read_only_error name).
Proof.
  rewrite read_names, elem_of_existsb. unfold dispatch_tool. cbn [existsb].
  destruct (str_eqb name (lit "search_knowledge")); [by left|]. destruct (str_eqb name (lit "read_concept")); [left; by rewrite !orb_true_r|].
  destruct (str_eqb name (lit "list_directory")); [left; by rewrite !orb_true_r|].
  destruct (str_eqb name (lit "lint_knowledge")); [left; by rewrite !orb_true_r|].
  destruct (str_eqb name (lit "read_passage")); [by left|]. destruct (str_eqb name (lit "write_concept")); [right; by injection H|].
  destruct (str_eqb name (lit "patch_concept")); [right; by injection H|]. destruct (str_eqb name (lit "delete_concept")); [right; by injection H|done].
Qed.

(** What a model is offered is what there is: a name is dispatched if and
    only if it is that of an offered tool; the tools of a query run are
    those that run the same whether writes are allowed or not, and any
    other tool is refused there with an error, before it does anything. *)
Theorem tools_offered scopes store name args :
  let run := dispatch_tool rfc3339_ok store_error_text scopes store name args in
  (name ∈ spec_name <$> all_tool_specs <-> is_Some (run true)) /\
  (name ∈ spec_name <$> read_tool_specs -> run false = run true) /\
  (name ∈ spec_name <$> all_tool_specs -> name ∉ spec_name <$> read_tool_specs -> run false = Some (throw (read_only_error name))).
Proof.
  intros run. split_and!.
  - rewrite all_names, read_names, elem_of_existsb. unfold run, dispatch_tool. cbn [app existsb].
    destruct (str_eqb name (lit "search_knowledge")); [by split|]. destruct (str_eqb name (lit "read_concept")); [rewrite !orb_true_r; by split|].
    destruct (str_eqb name (lit "list_directory")); [rewrite !orb_true_r; by split|].
    destruct (str_eqb name (lit "lint_knowledge")); [rewrite !orb_true_r; by split|].
    destruct (str_eqb name (lit "read_passage")); [by split|]. destruct (str_eqb name (lit "write_concept")); [by split|].
    destruct (str_eqb name (lit "patch_concept")); [by split|]. destruct (str_eqb name (lit "delete_concept")); [by split|].
    split; [done|]. by intros [? ?].
  - rewrite read_names. rewrite !elem_of_cons, elem_of_nil. by intros [->|[->|[->|[->|[->|[]]]]]].
  - rewrite all_names, elem_of_app. intros [H|H] Hn; [done|]. rewrite !elem_of_cons, elem_of_nil in H. by destruct H as [->|[->|[->|[]]]].
Qed.

(** ** What the write tools leave behind *)
Section Writes.
Context (Hnc : no_collisions) (scopes : AgentScopes) (store : ConceptStore) (low : Z) (env : AgentEnv).
Context (Hroot : meta_fits (lit "/index.md")) (Hlow : 1 <= low) (Henv : env_ok low (ae_store env)).
#[local] Abbreviation sc := (cs_scope store).

Lemma from_store_ok {A} (m : M Err' A) w a w' : from_store store_error_text ShUser m env w = (Ok a, w') ->
  exists s, m (ae_store env) (aw_world w) = (Ok a, s) /\ w' = set_world (with_dir (w_dir s) s) w /\ aw_world w' = s.
Proof.
  unfold from_store. intros (r & w1 & H1 & H2)%run_bind_ok. unfold on_store in H1.
  destruct (m _ _) as [x s] eqn:E. simpl in H1, E. injection H1 as <- <-. destruct x as [b|e]; [|done].
  injection H2 as <- <-. exists s. split_and!; [done| |done]. by destruct s.
Qed.

Lemma others_same_core p s s' s2 : core_eq s s' -> others_same sc p s' s2 -> others_same sc p s s2.
Proof. intros (Hd & Hf & _) H q Hq Hr. destruct (H q Hq Hr) as [H1 H2]. rewrite <- Hd, <- Hf. done. Qed.

(** The paths the hot memory has of the caller's scope *)
Definition hot_paths (w : AgentWorld) : list str := (hot_concepts (scope_state (aw_hot w) (scope_id sc))).*1.

Lemma hot_write_last hot s p now : last (hot_concepts (scope_state (record_hot_write hot s p now) s)) = Some (p, now).
Proof.
  unfold record_hot_write. simpl. rewrite scope_state_put, decide_True by done. simpl. rewrite evict_drop, length_app. simpl.
  rewrite drop_app_le by (unfold MAX_CONCEPTS; lia). by rewrite last_snoc.
Qed.
Lemma hot_delete_gone hot s p : p ∉ (hot_concepts (scope_state (record_hot_delete hot s p) s)).*1.
Proof.
  unfold record_hot_delete. simpl. rewrite scope_state_put, decide_True by done. simpl.
  intros (x & -> & [_ Hx]%elem_of_retain)%list_elem_of_fmap. unfold other_path in Hx. by rewrite (proj2 (str_eqb_eq _ _) eq_refl) in Hx.
Qed.

Lemma core_inv s s' : core_eq s s' -> Inv rfc3339_ok sc s -> Inv rfc3339_ok sc s'.
Proof. intros Hc HI. eapply act_inv; [by apply (core_quiet rfc3339_ok sc low false)|done]. Qed.

(** What a write arm leaves: the concept of the path it reports *)
Definition arm_effect (p : str) (Q : World -> Prop) (w w' : AgentWorld) : Prop :=
  Inv rfc3339_ok sc (aw_world w') /\ starts_with QUEUE_PREFIX p = false /\ others_same sc p (aw_world w) (aw_world w') /\ Q (aw_world w') /\
  aw_steps w' = aw_steps w /\ aw_hot w' = aw_hot w.
Definition stores (c : Concept) (s : World) : Prop := exists now, is_stored sc (stamp store now c) s.
Definition absent (p : str) (s : World) : Prop := reserved_basename (path_basename p) = false ->
  read (w_dir s) p (repo_scope sc) false = Err (FIo NotFound) /\ w_files s !! (scope_id sc, p) = None.
#[local] Abbreviation good w := (Inv rfc3339_ok sc (aw_world w)).

Lemma arm_put {A} c (k : Run A) w r w' : (forall env w r w', k env w = (r, w') -> w' = w) -> good w -> path_fits (source_path c) ->
  (_ ← from_store store_error_text ShUser (put rfc3339_ok store c); k) env w = (Ok r, w') -> arm_effect (source_path c) (stores c) w w'.
Proof.
  intros Hk HI Hf (u & w1 & (s & Hput & -> & _)%from_store_ok & ->%Hk)%run_bind_ok. destruct u.
  destruct (put_done rfc3339_ok Hnc store low _ _ _ _ Hroot Hlow Henv HI Hf Hput) as (HI' & Hq & (now & Hst & _) & Ho).
  destruct s. split_and!; [exact HI'|exact Hq|exact Ho|by exists now|done|done].
Qed.

Lemma completed_ok m w r w' : completed m env w = (Ok r, w') -> exists x, m env w = (Ok x, w') /\ r.1 = x /\ r.2 = false.
Proof. intros (x & w1 & Hm & [= <- <-])%run_bind_ok. by exists x. Qed.
Lemma arm_write args w r w' : good w -> path_fits (arg_str "path" args) ->
  completed (tool_write_concept rfc3339_ok store_error_text store args) env w = (Ok r, w') ->
  let c := mkConcept (written_frontmatter (member_object "frontmatter" args)) (arg_str "body" args) (arg_str "path" args) in
  r.1.2 = Some (source_path c) /\ r.2 = false /\ arm_effect (source_path c) (stores c) w w'.
Proof.
  intros HI Hf (x & Hrun & [-> ->])%completed_ok c.
  split_and!; [|done|eapply arm_put; [|done|done|exact Hrun]; by intros ? ? ? ? [= <- <-]].
  apply run_bind_ok in Hrun as (u & w1 & _ & Hrun). by injection Hrun as <- _.
Qed.

Lemma arm_patch args w r w' : good w -> path_fits (arg_str "path" args) ->
  completed (tool_patch_concept rfc3339_ok store_error_text store args) env w = (Ok r, w') ->
  let p := arg_str "path" args in
  exists b md c, read (w_dir (aw_world w)) p (repo_scope sc) false = Ok b /\ from_utf8 b = Some md /\
    Concept_parse (YamlError := YE) p md = Ok c /\ source_path c = p /\ r.1.2 = Some p /\ r.2 = false /\ arm_effect p (stores (patched args c)) w w'.
Proof.
  intros HI Hf (x & Hrun & [-> ->])%completed_ok p. unfold tool_patch_concept in Hrun. apply run_bind_ok in Hrun as (c & w1 & (s & Hget & -> & _)%from_store_ok & Hrun).
  pose proof (reads_get _ _ _ _ _ _ Hget) as [Hsame Hqueue].
  apply get_cases in Hget as (_ & b & md & Hb & Hmd & Hparse). fold p in Hb, Hparse.
  pose proof (parse_path _ _ _ Hparse) as Hp. exists b, md, c. split_and!; [by apply content_read|exact Hmd|exact Hparse|exact Hp| |done|].
  - apply run_bind_ok in Hrun as (u & w2 & _ & Hrun). injection Hrun as <- _. simpl. by rewrite Hp.
  - set (w1 := set_world _ w) in Hrun.
    assert (Hw1 : core_eq (aw_world w) (aw_world w1)) by (destruct s; exact Hsame).
    assert (arm_effect (source_path (patched args c)) (stores (patched args c)) w1 w') as (HI' & Hq & Ho & Hst & Hsteps & Hhot).
    { eapply arm_put; [..|exact Hrun]; [by intros ? ? ? ? [= <- <-]|by eapply core_inv|change (path_fits (source_path c)); by rewrite Hp]. }
    change (source_path (patched args c)) with (source_path c) in Hq, Ho. rewrite Hp in Hq, Ho.
    split_and!; [exact HI'|exact Hq|by eapply others_same_core|exact Hst|exact Hsteps|exact Hhot].
Qed.

Lemma arm_delete args w r w' : good w ->
  completed (tool_delete_concept store_error_text store args) env w = (Ok r, w') ->
  let p := arg_str "path" args in r.1.2 = Some p /\ r.2 = false /\ arm_effect p (absent p) w w'.
Proof.
  intros HI (x & (u & w1 & (s & Hdel & -> & _)%from_store_ok & Hrun)%run_bind_ok & [-> ->])%completed_ok p. injection Hrun as <- <-. split; [done|]. split; [done|]. destruct u.
  destruct (delete_done rfc3339_ok Hnc store low _ _ _ _ Hroot Hlow Henv HI Hdel) as (Hq & HI' & b & _ & Ho & _ & Hg).
  destruct s. split_and!; [exact HI'|exact Hq|exact Ho|exact Hg|done|done].
Qed.

Lemma noted name args result p w : str_eqb name (lit "search_knowledge") = false -> str_eqb name (lit "read_passage") = false ->
  let w' := note_success store name args result (Some p) env w in
  let hot := hot_concepts (scope_state (aw_hot w') (scope_id sc)) in
  aw_world w' = aw_world w /\ aw_steps w' = record name (arg_str "path" args) [p] true (aw_steps w) /\
  if bool_decide (name = lit "delete_concept") then p ∉ hot.*1 else last hot = Some (p, ae_instant env (w_tick (aw_world w))).
Proof.
  intros H1 H2. unfold note_success, step_summary, step_paths. rewrite H1, H2. split_and!; [done..|].
  cbn [set_hot aw_hot]. destruct (str_eqb name (lit "delete_concept")) eqn:E.
  - apply str_eqb_eq in E. rewrite bool_decide_eq_true_2 by done. apply hot_delete_gone.
  - rewrite bool_decide_eq_false_2 by (intros ->; by rewrite (proj2 (str_eqb_eq _ _) eq_refl) in E). apply hot_write_last.
Qed.

(** The concept a write tool stores *)
Definition written_of (name : str) (args : list (str * Value)) (s : World) (c : Concept) : Prop :=
  (name = lit "write_concept" /\
     c = mkConcept (written_frontmatter (member_object "frontmatter" args)) (arg_str "body" args) (arg_str "path" args)) \/
  (name = lit "patch_concept" /\ exists b md c0, read (w_dir s) (arg_str "path" args) (repo_scope sc) false = Ok b /\ from_utf8 b = Some md /\
     Concept_parse (YamlError := YE) (arg_str "path" args) md = Ok c0 /\ c = patched args c0).

(** C13. What a write tool has done when its call succeeds.  It reports one path,
    the one it was given, which is not the queue's; every other concept is
    as it was.  [delete_concept] leaves the path unlisted and reading as not
    found; [write_concept] and [patch_concept] leave it stored as the
    concept of the arguments, respectively as the concept the file held
    with the arguments applied, stamped.  The trace has one more step, a
    write of that path, and in the hot memory of the scope the path is the
    last of the concepts written, or no longer among them.  A call that
    reports no path is of a read tool. *)
Theorem write_tools_effects call result written w w' : good w -> call_fits call ->
  execute_tool_tracked rfc3339_ok store_error_text scopes store call true env w = (Ok (result, written), w') ->
  let name := fc_name (tc_function call) in
  exists args, parse_json (fc_arguments (tc_function call)) = Ok (JObject args) /\
  let p := arg_str "path" args in
  let hot := hot_concepts (scope_state (aw_hot w') (scope_id sc)) in
  match written with
  | None => name ∈ spec_name <$> read_tool_specs /\ core_eq (aw_world w) (aw_world w') /\ aw_hot w' = aw_hot w
  | Some q => q = p /\ Inv rfc3339_ok sc (aw_world w') /\ starts_with QUEUE_PREFIX p = false /\ others_same sc p (aw_world w) (aw_world w') /\
      aw_steps w' = record name p [p] true (aw_steps w) /\
      if bool_decide (name = lit "delete_concept") then absent p (aw_world w') /\ p ∉ hot.*1
      else (exists c, written_of name args (aw_world w) c /\ source_path c = p /\ stores c (aw_world w')) /\ exists now, last hot = Some (p, now)
  end.
Proof.
  intros HI Hfit. unfold execute_tool_tracked. set (name := fc_name _). unfold call_fits in Hfit.
  destruct (parse_json _) as [[| | | | |args]|e]; try by intros [=].
  specialize (Hfit args eq_refl). destruct (dispatch_tool _ _ _ _ _ _ _) as [arm|] eqn:E; [|by intros [=]].
  intros ([[result' written'] early] & w1 & Harm & Hrun)%run_bind_ok. apply run_bind_ok in Hrun as (u & w2 & Hnote & Hrun).
  injection Hrun as -> -> <-. exists args. split; [done|]. cbn zeta.
  destruct (dispatch_reads rfc3339_ok store_error_text scopes store name args) as [Heq|(m & Heq & Hm)]; rewrite Heq in E.
  - edestruct (within_read_tools rfc3339_ok store_error_text scopes store env) as [Hr Hnone]; [exact E|].
    pose proof (Hnone _ _ _ Harm) as Hw. simpl in Hw. subst written.
    assert (name ∈ spec_name <$> read_tool_specs).
    { destruct (dispatch_read _ _ _ _ _ E) as [|Hthrow]; [done|]. by rewrite Hthrow in Harm. }
    apply Hr in Harm as [[? _] ? ? ? _ _ _ _ _]. destruct early; injection Hnote as _ <-; done.
  - injection E as <-.
    assert (exists p Q, written = Some p /\ early = false /\ p = arg_str "path" args /\ arm_effect p Q w w1 /\ str_eqb name (lit "search_knowledge") = false /\
      str_eqb name (lit "read_passage") = false /\ forall s, Q s ->
      if bool_decide (name = lit "delete_concept") then absent p s else exists c, written_of name args (aw_world w) c /\ source_path c = p /\ stores c s)
      as (p & Q & -> & -> & -> & (HI' & Hq & Ho & Hst & Hsteps & Hhot) & Hn1 & Hn2 & HQ).
    { destruct Hm as [[-> ->]|[[-> ->]|[-> ->]]].
      - destruct (arm_write _ _ _ _ HI Hfit Harm) as (Hw & He & Heff). eexists _, _. split_and!; [exact Hw|exact He|done|exact Heff|done|done|].
        intros s Hs. eexists. split_and!; [by left|done|exact Hs].
      - destruct (arm_patch _ _ _ _ HI Hfit Harm) as (b & md & c & Hb & Hmd & Hparse & Hp & Hw & He & Heff). eexists _, _.
        split_and!; [exact Hw|exact He|done|exact Heff|done|done|]. intros s Hs. exists (patched args c). split_and!; [|exact Hp|exact Hs]. right.
        split; [done|]. by exists b, md, c.
      - destruct (arm_delete _ _ _ _ HI Harm) as (Hw & He & Heff). eexists _, _. by split_and!; [exact Hw|exact He|done|exact Heff|..]. }
    apply (f_equal snd) in Hnote. change (note_success store name args result (Some (arg_str "path" args)) env w1 = w2) in Hnote. subst w2.
    destruct (noted name args result (arg_str "path" args) w1 Hn1 Hn2) as (Hw & Hs & Hh). rewrite Hw, Hs, Hsteps.
    split_and!; [done..|]. specialize (HQ _ Hst). destruct (bool_decide _); [by split|]. split; [exact HQ|by eexists].
Qed.
End Writes.
End Agent.
