(* ===== verification/AgentDemo.v ===== *)
(** * Runs of the agent

    Concrete runs against the demonstration store, at which the theorems on
    the agent are applied: a model scripted answer by answer, over a bundle
    that has one concept. *)
From S2P Require Import Prelude Float Text Clock Crypto FileRepo Concept Graph Library Health Search HotMemory JsonValue Llm Embeddings Trace Prompts Lifecycle Revisions SearchIndex Vectors ConceptStore ConceptStoreProofs Fallback Agent AgentProofs AgentTools.
Import ConceptStoreProofs.Demo.
Open Scope Z_scope.

#[local] Existing Instances demo_aead demo_kdf wide_hex char_uuid plain_meta ascii_lowercase sample_log pair_json type_only.
#[local] Existing Instance TraceDemo.coded_traces.

(** The strings of a value, and the values of three texts *)
Fixpoint flat (v : Value) : str :=
  match v with
  | JString s => s
  | JArray l => (fix go l : str := match l with [] => [] | v :: l => flat v ++ go l end) l
  | JObject m => (fix go m : str := match m with [] => [] | kv :: m => kv.1 ++ lit "=" ++ flat kv.2 ++ lit ";" ++ go m end) m
  | _ => []
  end.
Definition overwrite_args : list (str * Value) :=
  [(lit "body", JString (lit "new text")); (lit "path", JString (lit "/d/a.md"))].
Definition read_args : list (str * Value) := [(lit "path", JString (lit "/d/a.md"))].
#[local] Instance few_texts : JsonText := {|
  show_json := flat;
  parse_json s := if str_eqb s (lit "overwrite") then Ok (JObject overwrite_args)
                  else if str_eqb s (lit "read") then Ok (JObject read_args) else Err (lit "expected value") |}.
Definition error_text (e : ConceptStoreError unit) : str := match e with CNotFound p => lit "concept not found: " ++ p | _ => lit "store" end.

Definition calls (l : list (string * string)) : ResponseMessage :=
  mkResponseMessage None (Some ((fun c => mkToolCall (lit "id") (lit "function") (mkFunctionCall (lit c.1) (lit c.2))) <$> l)).
Definition says (text : string) : ResponseMessage := mkResponseMessage (Some (lit text)) None.
(** Answer by answer; then the endpoint is down. *)
Definition scripted (script : list ResponseMessage) : AgentEnv :=
  mkAgentEnv calm
    (fun n _ _ _ => match script !! n with Some m => Ok (mkHttpResponse 200 None (Ok [m])) | None => Err (lit "refused") end)
    (fun _ => mkArrival 0 0) (fun _ s => s) (fun _ _ => sh_docs (w_shared w1)) (fun _ _ s => s) (fun _ _ => false) (fun _ _ _ _ => Err (lit "refused")) (fun _ => mkArrival 0 0) (fun _ => 0) statics_init
    (fun _ => 0) (mkFinish 3 7 1 (lit "t")) false false ShUser.
Definition demo_client : LlmClient := mkLlmClient (lit "http://llm") (lit "m") None.
(** The caller: its own bundle, which is also behind the bookshelf (whose
    only visible book is another one), and traces *)
Definition demo_scopes : AgentScopes := mkScopes None (Some Demo.store) (Some (fun slug => Ok (slug ++ lit " text"))) (Some [lit "open"]) (Some (lit "user:5")) None.
Definition demo_world : AgentWorld := mkAgentWorld w1 ∅ ∅ None (mkLlmStatics HealthInner_default 0) (mkEmbStatics HealthInner_default 0 0) [] [] [] [].

Definition mutate (script : list ResponseMessage) : result MutationResult AgentError * AgentWorld :=
  run_mutation any_date error_text demo_scopes Demo.store demo_client (lit "do it") (scripted script) demo_world.
Definition overwriting : list ResponseMessage := [calls [("read_concept", "read"); ("write_concept", "overwrite"); ("no_tool", "read")]%string; says "done"].
Example mutate_example : (r ← result_ok (mutate overwriting).1; Some (mr_summary r, mr_files_changed r)) = Some (lit "done", [lit "/d/a.md"]).
Proof. vm_compute. reflexivity. Qed.

(** The loop: a question, three calls of which one fails, a second question,
    a text *)
Definition looped : result (str * list str) AgentError * AgentWorld :=
  agent_loop_tracked any_date error_text demo_scopes Demo.store demo_client all_tool_specs (lit "system") (lit "do it") true f32_fifth 30
    (scripted overwriting) demo_world.
Lemma agent_loop_protocol_witness : looped.1 = Ok (lit "done", [lit "/d/a.md"]) /\
  exchange [CtUser (lit "do it")] (aw_asked looped.2) /\ length (aw_asked looped.2) = 2%nat /\
  length (aw_traces looped.2) = 1%nat.
Proof.
  split; [vm_compute; reflexivity|].
  destruct (agent_loop_protocol any_date error_text demo_scopes Demo.store demo_client all_tool_specs (lit "system") (lit "do it") true f32_fifth 30
    (scripted overwriting) demo_world looped.1 looped.2 (surjective_pairing looped)) as (log & Ha & Hx & _).
  change (aw_asked looped.2 = log) in Ha. rewrite Ha. split; [exact Hx|]. rewrite <- Ha. split; vm_compute; reflexivity.
Defined.

(** A streamed chat whose second question finds the endpoint down *)
Definition chatted : result str AgentError * AgentWorld :=
  chat_loop any_date error_text demo_scopes Demo.store demo_client all_tool_specs (lit "system") true [CtUser (lit "hello")]
    (scripted [calls [("read_concept", "read")]%string]) demo_world.
Lemma chat_run_events_witness : chatted.1 = Err (ALlm (LRequest (lit "refused"))) /\
  exchange [CtUser (lit "hello")] (aw_asked chatted.2) /\ aw_events chatted.2 = [EvTool (lit "read_concept") (lit "read")].
Proof.
  split; [vm_compute; reflexivity|].
  destruct (chat_run_events any_date error_text demo_scopes Demo.store demo_client all_tool_specs (lit "system") true [CtUser (lit "hello")]
    (scripted [calls [("read_concept", "read")]%string]) demo_world chatted.1 chatted.2
    ltac:(by repeat constructor) (surjective_pairing chatted)) as (log & Ha & Hx & _).
  change (aw_asked chatted.2 = log) in Ha. rewrite Ha. split; [exact Hx|]. vm_compute. reflexivity.
Defined.

(** A query run whose model asks for a write: refused *)
Definition queried : result (str * Z) AgentError * AgentWorld :=
  run_query any_date error_text demo_scopes Demo.store demo_client (lit "what?") (scripted overwriting) demo_world.
Lemma query_read_only_witness : result_ok queried.1 = Some (lit "done", 0) /\ length (aw_asked queried.2) = 2%nat /\
  w_dir (aw_world queried.2) = w_dir w1 /\ w_files (aw_world queried.2) = w_files w1.
Proof.
  split; [vm_compute; reflexivity|]. split; [vm_compute; reflexivity|].
  destruct (query_read_only any_date error_text demo_scopes Demo.store demo_client (lit "what?") (scripted overwriting) demo_world
    queried.1 queried.2 (fun _ _ => eq_refl) (surjective_pairing queried)) as (Hd & Hf & _).
  split; [exact Hd|exact Hf].
Defined.

(** The bytes a run of the agent overwrote can be read back. *)
Lemma fits_calls log : Forall (Forall call_fits) (calls_of <$> log) -> log_fits log.
Proof. intros H. apply (Forall_fmap calls_of) in H. exact H. Qed.
Lemma overwrite_fits : log_fits (aw_asked (mutate overwriting).2).
Proof.
  assert (Hcalls : calls_of <$> aw_asked (mutate overwriting).2 =
    [(fun c => mkToolCall (lit "id") (lit "function") (mkFunctionCall (lit c.1) (lit c.2))) <$>
       [("read_concept", "read"); ("write_concept", "overwrite"); ("no_tool", "read")]%string; []]) by (vm_compute; reflexivity).
  assert (Hpath : forall id kind name text, parse_json (lit text) = Ok (JObject read_args) \/ parse_json (lit text) = Ok (JObject overwrite_args) ->
    call_fits (mkToolCall id kind (mkFunctionCall name (lit text)))).
  { intros id kind name text Ht args Hargs. simpl in Hargs. assert (arg_str "path" args = lit "/d/a.md") as ->; [|by apply note_fits].
    destruct Ht as [Ht|Ht]; simpl in Ht; rewrite Ht in Hargs; by injection Hargs as <-. }
  assert (Hall : Forall (Forall call_fits) (calls_of <$> aw_asked (mutate overwriting).2)).
  { rewrite Hcalls. clear Hcalls. cbn [fmap list_fmap]. repeat apply Forall_cons_2; try apply Forall_nil_2; apply Hpath; vm_compute; auto. }
  exact (fits_calls _ Hall).
Qed.

Lemma agent_keeps_undo_witness : exists no,
  get_revision (revisions_of (cs_scope Demo.store)) (w_revs (aw_world (mutate overwriting).2)) (lit "/d/a.md") no false = Ok (file w1 "/d/a.md").
Proof.
  assert (H1 : listed w1 "/d/a.md" = true) by (vm_compute; reflexivity).
  assert (H2 : is_some (result_ok (read (w_dir w1) (lit "/d/a.md") (repo_scope (cs_scope Demo.store)) false)) = true) by (vm_compute; reflexivity).
  assert (H3 : numbers_fit (aw_world (mutate overwriting).2) = true) by (vm_compute; reflexivity).
  assert (H4 : str_eqb (file (aw_world (mutate overwriting).2) "/d/a.md") (file w1 "/d/a.md") = false) by (vm_compute; reflexivity).
  assert (H5 : spent (fun _ => 0) 0 (aw_asked (mutate overwriting).2) = 3) by (vm_compute; reflexivity).
  destruct (agent_keeps_undo any_date error_text demo_scopes Demo.store _ demo_no_collisions 25 (fun _ => 0) (scripted overwriting) 1 empty_world
    demo_world (mutate overwriting).1 (mutate overwriting).2 (ep_mutation _ _ _ _ demo_client (lit "do it") MAX_STEPS)
    root_fits ltac:(lia) (env_with_ok _) ltac:(done) (fun n s _ => ex_intro _ 0 (conj (Z.le_refl 0) (h_nil _ _ _ _ s)))
    empty_fresh history_head (surjective_pairing (mutate overwriting)) overwrite_fits) as [_ H].
  destruct (H (lit "/d/a.md") (file w1 "/d/a.md") (listed_some _ _ H1) (file_read _ _ H2) eq_refl ltac:(change (spent (fun _ => 0) 0 (aw_asked (mutate overwriting).2) < 25); rewrite H5; lia)
    (numbers_fit_spec _ H3)) as [Hr|Hr]; [exfalso|exact Hr].
  assert (E : file (aw_world (mutate overwriting).2) "/d/a.md" = file w1 "/d/a.md") by (unfold file at 1; rewrite Hr; reflexivity).
  apply str_eqb_eq in E. rewrite E in H4. discriminate H4.
Defined.


(** A passage of a book that is not on the caller's bookshelf *)
Definition passage_args (uri : string) : list (str * Value) := [(lit "resource", JString (lit uri))].
Lemma hidden_books_unread_witness :
  (tool_read_passage demo_scopes (passage_args "book://hidden#a") (scripted []) demo_world).1 =
  (tool_read_passage (with_library demo_scopes None (Some (fun slug => if str_eqb slug (lit "hidden") then Ok (lit "other") else Ok (slug ++ lit " text"))))
     (passage_args "book://hidden#a") (scripted []) demo_world).1.
Proof.
  destruct (hidden_books_unread error_text demo_scopes Demo.store None (fun slug => Ok (slug ++ lit " text"))
    (fun slug => if str_eqb slug (lit "hidden") then Ok (lit "other") else Ok (slug ++ lit " text")) (passage_args "book://hidden#a")) as [H _].
  - split; [reflexivity|]. intros slug Hs. destruct (str_eqb slug (lit "hidden")) eqn:E; [|reflexivity].
    apply str_eqb_eq in E as ->. discriminate Hs.
  - by rewrite H.
Defined.

(** The overwriting call by itself *)
Definition overwrite_call : ToolCall := mkToolCall (lit "id") (lit "function") (mkFunctionCall (lit "write_concept") (lit "overwrite")).
Definition executed : result (str * option str) AgentError * AgentWorld :=
  execute_tool_tracked any_date error_text demo_scopes Demo.store overwrite_call true (scripted []) demo_world.
Lemma write_tools_effects_witness : exists now, last (hot_concepts (scope_state (aw_hot executed.2) (scope_id (cs_scope Demo.store)))) = Some (lit "/d/a.md", now).
Proof.
  assert (Hr : executed.1 = Ok (lit "written=/d/a.md;", Some (lit "/d/a.md"))) by (vm_compute; reflexivity).
  assert (Hrun : executed = (Ok (lit "written=/d/a.md;", Some (lit "/d/a.md")), executed.2)) by (rewrite <- Hr; apply surjective_pairing).
  clear Hr. revert Hrun. generalize executed.2. intros after Hrun. unfold executed in Hrun.
  assert (Hfit : call_fits overwrite_call).
  { intros args Hargs. vm_compute in Hargs. injection Hargs as <-. apply (note_fits "/d/a.md"). reflexivity. }
  destruct (write_tools_effects any_date error_text demo_no_collisions demo_scopes Demo.store 25 (scripted []) root_fits ltac:(lia) (env_with_ok _)
    overwrite_call (lit "written=/d/a.md;") (Some (lit "/d/a.md")) demo_world after inv_w1 Hfit Hrun)
    as (args & Hargs & Hp & _ & _ & _ & _ & _ & now & Hlast).
  exists now. rewrite Hp at 1. exact Hlast.
Defined.

(** Sections are found by their line alone: one inside a fenced block is
    replaced too, of two with the same heading each becomes the new text,
    and a heading that ends in a blank is never found, so that a second call
    adds a second section. *)
Example replace_in_fence : replace_section (lit "```" ++ [nl] ++ lit "# A" ++ [nl] ++ lit "code" ++ [nl] ++ lit "```" ++ [nl] ++ lit "tail") (lit "A") (lit "x") =
  lit "```" ++ [nl] ++ lit "# A" ++ [nl] ++ lit "x" ++ [nl].
Proof. vm_compute. reflexivity. Qed.
Example replace_repeats : let once := replace_section (lit "text") (lit "A ") (lit "x") in
  replace_section once (lit "A ") (lit "x") = once ++ lit "# A " ++ [nl] ++ lit "x" ++ [nl].
Proof. vm_compute. reflexivity. Qed.
Example replace_duplicates : replace_section (lit "# A" ++ [nl] ++ lit "1" ++ [nl] ++ lit "# A" ++ [nl] ++ lit "2") (lit "A") (lit "x") =
  lit "# A" ++ [nl] ++ lit "x" ++ [nl] ++ lit "# A" ++ [nl] ++ lit "x" ++ [nl].
Proof. vm_compute. reflexivity. Qed.
