(* ===== verification/VectorWorker.v ===== *)
(** * The vector worker

    [crates/mycelium-librarian/src/vector_worker.rs]: the tick that keeps
    the vector rows of all scopes in step with the concepts and the
    configured model: drain of the write hooks' queue, rebuild of stale
    rows, sweep of dead concepts, boot backlog.

    The worker's world is that of the concept stores with a directory for
    each scope, the statics of the embeddings client and (as a record only)
    its requests.  The environment says what the accesses and the requests
    meet, and what others did to the stores while a request was under way.
    Log lines are left out. *)
From S2P Require Import Prelude Float Text Clock Crypto FileRepo Concept Config Health Search Llm Embeddings Revisions SearchIndex Vectors ConceptStore.
Open Scope Z_scope.

Definition STALE_ROWS_PER_TICK : nat := Z.to_nat 256.
Definition EMBED_ATTEMPTS : nat := 3.

(** ** The world and the monad *)
Record VwWorld := mkVwWorld {
  vw_store : World; vw_dirs : gmap str (gmap str bytes);   (* by scope id *)
  vw_emb : EmbStatics; vw_processed : Z;                   (* VECTOR_PROCESSED_TOTAL *)
  vw_log : list (list str * result (list (list f32)) EmbeddingError) }.

Record VwEnv := mkVwEnv {
  ve_store : Env;
  ve_config : nat -> gmap str str;                         (* the config table, by tick of the store *)
  ve_recovery : nat -> Uuid -> option MasterKey; ve_users : nat -> list str;
  ve_unix : nat -> Z;
  ve_endpoint : nat -> str -> option str -> EmbedRequest -> result EmbedHttp str;   (* by request *)
  ve_arrival : nat -> Arrival;
  ve_between : nat -> World * gmap str (gmap str bytes) -> World * gmap str (gmap str bytes) }.

Definition set_store (s : World) (w : VwWorld) : VwWorld := mkVwWorld s (vw_dirs w) (vw_emb w) (vw_processed w) (vw_log w).
Definition set_vw_emb (e : EmbStatics) (w : VwWorld) : VwWorld := mkVwWorld (vw_store w) (vw_dirs w) e (vw_processed w) (vw_log w).
Definition shared_of (w : VwWorld) : Shared := w_shared (vw_store w).
Definition dir_at (w : VwWorld) (sid : str) : gmap str bytes := default ∅ (vw_dirs w !! sid).

Definition VW (A : Type) : Type := VwEnv -> VwWorld -> A * VwWorld.
#[global] Instance VW_ret : MRet VW := fun A a _ w => (a, w).
#[global] Instance VW_bind : MBind VW := fun A B f m env w => let '(a, w) := m env w in f a env w.

(** An access to the database, and a change of the process's memory *)
Definition statement {A} (f : VwEnv -> nat -> World -> A * World) : VW A :=
  fun env w => let k := w_tick (vw_store w) in let '(a, s) := f env k (with_tick (S k) (vw_store w)) in (a, set_store s w).
Definition local (f : World -> World) : VW unit := fun _ w => (tt, set_store (f (vw_store w)) w).
Definition emb_statics {A} (f : EmbStatics -> A * EmbStatics) : VW A := fun _ w => let '(a, e) := f (vw_emb w) in (a, set_vw_emb e w).
(** A statement on the vector rows *)
Definition vectors_stmt {A} (f : Env -> nat -> Shared -> result A VectorError * Shared) : VW (result A VectorError) :=
  statement (fun env k s => let '(r, sh) := f (ve_store env) k (w_shared s) in (r, with_shared sh s)).

Definition is_red : VW bool :=
  fun env w => (bool_decide (emb_state (vw_emb w) (ve_unix env (w_tick (vw_store w))) = Red), w).
Definition learned_dims : VW Z := fun _ w => (es_dims (vw_emb w), w).

Section Worker.
Context {AE : Aead} {KD : Kdf} {HX : Hex} {UT : UuidText} {MJ : MetaJson} {LC : Lowercase} {NL : NaturalLog} {DJ : DocJson}.
Context {YE : Type} `{!YamlCodec YE}.
Context {JS : Json str} {JE : Json EmbeddingsConfig} (service_key : ServiceKey).
#[local] Abbreviation Err' := (ConceptStoreError YE).

(** An operation of a concept store, in the directory of its scope *)
Definition on_scope {A} (cs : ConceptStore) (m : M Err' A) : VW (result A Err') :=
  fun env w =>
    let sid := scope_id (cs_scope cs) in
    let '(r, s) := m (ve_store env) (with_dir (dir_at w sid) (vw_store w)) in
    (r, mkVwWorld (with_dir (w_dir (vw_store w)) s) (<[sid := w_dir s]> (vw_dirs w)) (vw_emb w) (vw_processed w) (vw_log w)).

(** ** The configuration row *)
Definition read_config : VW (option EmbeddingsConfig) :=
  raw ← statement (fun env k s => (raw_get (ve_config env k) (lit "embeddings") (en_fails (ve_store env) k), s));
  match raw with
  | Err _ => mret None
  | Ok None =>
      _ ← (fun env w =>
             let h := es_health (vw_emb w) in
             (tt, if bool_decide (emb_state (vw_emb w) (ve_unix env (w_tick (vw_store w))) = Disabled) then w
                  else set_vw_emb (set_emb_health (set_disabled h) (vw_emb w)) w));
      mret None
  | Ok (Some _) =>
      cfg ← statement (fun env k s =>
              (get_sealed (A := EmbeddingsConfig) (ve_config env k) service_key (lit "embeddings") (en_fails (ve_store env) k), s));
      match cfg with
      | None => mret None
      | Some cfg =>
          _ ← emb_statics (fun e => (tt, set_emb_health (note_configured (es_health e)) e));
          mret (Some (EmbeddingsConfig_clamp cfg))
      end
  end.

(** ** Scopes *)
Definition scope_store (recovery : Uuid -> option MasterKey) (sid : str) : option ConceptStore :=
  match strip_prefix (lit "user:") sid with
  | Some user_id =>
      id ← uuid_parse_str user_id;
      master ← recovery id;
      Some (ConceptStore_for_user id master)
  | None =>
      ns ← strip_prefix (lit "global:") sid;
      if str_eqb ns (lit "library") || str_eqb ns (lit "skills") then Some (ConceptStore_for_service service_key ns) else None
  end.
Definition resolve_scope (sid : str) : VW (option ConceptStore) :=
  fun env w => (scope_store (ve_recovery env (w_tick (vw_store w))) sid, w).

(** ** Rows whose concept is gone *)
Definition vs_of (cs : ConceptStore) : VectorStore := vectors_of (cs_scope cs).
Definition belt (cs : ConceptStore) (token : str) : VW unit :=
  _ ← vectors_stmt (fun e k sh => let '(r, t) := remove_row_by_token (vs_of cs) (sh_vecs sh) token (en_fails e k) in (r, set_vecs t sh));
  mret tt.
Definition sweep_dead_concept (cs : ConceptStore) (path : str) : VW unit :=
  _ ← on_scope cs (sweep_index_row (YE := YE) cs path);
  _ ← vectors_stmt (fun e k sh => let '(r, t) := remove_row (vs_of cs) (sh_vecs sh) path (en_fails e k) in (r, set_vecs t sh));
  mret tt.

(** ** Embedding *)
(** [client.embed_batch(..).await] *)
Definition request (client : EmbeddingsClient) (texts : list str) : VW (result (list (list f32)) EmbeddingError) :=
  fun env w =>
    let n := length (vw_log w) in
    let '(r, e) := embed_batch client (ve_endpoint env n) (ve_arrival env n) texts (vw_emb w) in
    let '(s, dirs) := ve_between env n (vw_store w, vw_dirs w) in
    (r, mkVwWorld s dirs e (vw_processed w) (vw_log w ++ [(texts, r)])).
Fixpoint embed_attempts (n : nat) (first : bool) (client : EmbeddingsClient) (texts : list str) : VW (option (list (list f32))) :=
  match n with
  | O => mret None
  | S n =>
      red ← is_red;
      if negb first && red then mret None
      else
        r ← request client texts;
        match r with
        | Ok vecs => mret (Some vecs)
        | Err _ => embed_attempts n false client texts
        end
  end.
Definition count_processed : VW unit :=
  fun _ w => (tt, mkVwWorld (vw_store w) (vw_dirs w) (vw_emb w) (wrap64 (vw_processed w + 1)) (vw_log w)).
Fixpoint upsert_chunk (cs : ConceptStore) (model : str) (slot : nat) (chunk : list (str * str)) (ordered : list (list f32)) (wrote : bool) : VW bool :=
  match chunk with
  | [] => mret wrote
  | (path, _) :: chunk =>
      match ordered !! slot with
      | None => upsert_chunk cs model (S slot) chunk ordered wrote
      | Some v =>
          r ← vectors_stmt (fun e k sh =>
                let '(r, t) := upsert (vs_of cs) (sh_vecs sh) path model (wrap32 (Z.of_nat (length v))) v (en_nonce e k 0%nat) (en_now e k) (en_fails e k) in
                (r, set_vecs t sh));
          match r with
          | Ok _ => _ ← count_processed; upsert_chunk cs model (S slot) chunk ordered true
          | Err _ => upsert_chunk cs model (S slot) chunk ordered wrote
          end
      end
  end.
(** The loop over the batches; a batch is not empty, so the pairs are fuel
    enough. *)
Fixpoint embed_batches (fuel : nat) (client : EmbeddingsClient) (model : str) (batch : nat) (cs : ConceptStore)
    (pairs : list (str * str)) (wrote : bool) (parked : list str) : VW (bool * list str) :=
  match pairs, fuel with
  | [], _ | _, O => mret (wrote, parked)
  | _, S fuel =>
      red ← is_red;
      if (red : bool) then mret (wrote, parked ++ pairs.*1)
      else
        let chunk := take batch pairs in
        vecs ← embed_attempts EMBED_ATTEMPTS true client chunk.*2;
        match vecs with
        | None => embed_batches fuel client model batch cs (drop batch pairs) wrote (parked ++ chunk.*1)
        | Some ordered =>
            wrote ← upsert_chunk cs model 0 chunk ordered wrote;
            embed_batches fuel client model batch cs (drop batch pairs) wrote parked
        end
  end.
Definition embed_and_upsert (client : EmbeddingsClient) (cfg : EmbeddingsConfig) (cs : ConceptStore) (pairs : list (str * str))
    : VW (bool * list str) :=
  embed_batches (length pairs) client (emc_model cfg) (Nat.max (Z.to_nat (emc_batch cfg)) 1) cs pairs false [].

(** ** The drain *)
Definition token_to_path (cs : ConceptStore) (entries : list ConceptEntry) : gmap str str :=
  fold_left (fun m e => <[vec_token (vs_of cs) (ce_path e) := ce_path e]> m) entries ∅.
Fixpoint load_tokens (cs : ConceptStore) (paths : gmap str str) (tokens : list str) (pairs : list (str * str)) : VW (list (str * str)) :=
  match tokens with
  | [] => mret pairs
  | token :: tokens =>
      match paths !! token with
      | None => _ ← belt cs token; load_tokens cs paths tokens pairs
      | Some path =>
          r ← on_scope cs (get cs path);
          match r with
          | Ok c => load_tokens cs paths tokens (pairs ++ [(path, searchable_text c)])
          | Err (CNotFound _) => _ ← belt cs token; load_tokens cs paths tokens pairs
          | Err _ => load_tokens cs paths tokens pairs
          end
      end
  end.
Definition enqueue_path (cs : ConceptStore) (path : str) : VW unit :=
  local (fun s => with_queue (enqueue_write (w_queue s) (vs_scope_id (vs_of cs)) (vec_token (vs_of cs) path)) s).
Fixpoint each {A} (f : A -> VW unit) (l : list A) : VW unit :=
  match l with
  | [] => mret tt
  | x :: l => _ ← f x; each f l
  end.
Definition invalidate_rows (cs : ConceptStore) : VW unit :=
  local (fun s => with_shared (invalidate_scope (vs_scope_id (vs_of cs)) (w_shared s)) s).

Definition drain_scope (client : EmbeddingsClient) (cfg : EmbeddingsConfig) (cs : ConceptStore) (tokens : list str) : VW unit :=
  entries ← on_scope cs (list_concepts cs);
  match entries with
  | Err _ => mret tt
  | Ok entries =>
      pairs ← load_tokens cs (token_to_path cs entries) tokens [];
      '(wrote, parked) ← embed_and_upsert client cfg cs pairs;
      _ ← each (enqueue_path cs) parked;
      if (wrote : bool) then invalidate_rows cs else mret tt
  end.
Definition take_queue : VW (list (str * str)) :=
  fun _ w => let '(items, q) := drain_queue (w_queue (vw_store w)) VECTOR_QUEUE_CAPACITY in (items, set_store (with_queue q (vw_store w)) w).
Definition by_scope (items : list (str * str)) : list (str * list str) := fold_left (fun m it => group_extend it.1 [it.2] m) items [].
Definition drain_group (client : EmbeddingsClient) (cfg : EmbeddingsConfig) (group : str * list str) : VW unit :=
  cs ← resolve_scope group.1;
  match cs with
  | None => mret tt
  | Some cs => drain_scope client cfg cs group.2
  end.
Definition drain (client : EmbeddingsClient) (cfg : EmbeddingsConfig) : VW unit :=
  items ← take_queue;
  each (drain_group client cfg) (by_scope items).

(** ** The rebuild of stale rows *)
Definition stale_scopes (t : gmap (str * str) VecRow) : list str :=
  dedup (sort_by str_cmp (omap (fun kv : str * str * VecRow => if vr_stale kv.2 then Some kv.1.1 else None) (map_to_list t))).
Definition backlog (cs : ConceptStore) (model : str) (learned : Z) : VW (result (list str) VectorError) :=
  vectors_stmt (fun e k sh => (backlog_paths (vs_of cs) (sh_docs sh) (sh_vecs sh) model learned (en_fails e k), sh)).
Fixpoint load_paths (cs : ConceptStore) (paths : list str) (pairs : list (str * str)) : VW (list (str * str)) :=
  match paths with
  | [] => mret pairs
  | path :: paths =>
      r ← on_scope cs (get cs path);
      match r with
      | Ok c => load_paths cs paths (pairs ++ [(path, searchable_text c)])
      | Err (CNotFound _) => _ ← sweep_dead_concept cs path; load_paths cs paths pairs
      | Err _ => load_paths cs paths pairs
      end
  end.
Definition rebuild_scope (client : EmbeddingsClient) (cfg : EmbeddingsConfig) (sid : str) : VW unit :=
  cs ← resolve_scope sid;
  match cs with
  | None => mret tt
  | Some cs =>
      learned ← learned_dims;
      paths ← backlog cs (emc_model cfg) learned;
      match paths with
      | Err _ => mret tt
      | Ok paths =>
          pairs ← load_paths cs (take STALE_ROWS_PER_TICK paths) [];
          '(wrote, _) ← embed_and_upsert client cfg cs pairs;
          if (wrote : bool) then invalidate_rows cs else mret tt
      end
  end.
Definition rebuild_stale_scopes (client : EmbeddingsClient) (cfg : EmbeddingsConfig) : VW unit :=
  scopes ← vectors_stmt (fun e k sh => (if en_fails e k then Err VDb else Ok (stale_scopes (sh_vecs sh)), sh));
  match scopes with
  | Err _ => mret tt
  | Ok scopes => each (rebuild_scope client cfg) scopes
  end.

(** ** The boot backlog *)
Definition enqueue_backlog_path (cs : ConceptStore) (path : str) : VW unit :=
  r ← on_scope cs (get cs path);
  match r with
  | Ok _ => enqueue_path cs path
  | Err (CNotFound _) => sweep_dead_concept cs path
  | Err _ => mret tt
  end.
Definition enqueue_scope_backlog (model : str) (learned : Z) (sid : str) : VW unit :=
  cs ← resolve_scope sid;
  match cs with
  | None => mret tt
  | Some cs =>
      paths ← backlog cs model learned;
      match paths with
      | Err _ => mret tt
      | Ok paths => each (enqueue_backlog_path cs) paths
      end
  end.
Definition enqueue_boot_backlog (model : str) (learned : Z) : VW unit :=
  users ← statement (fun env k s => (if en_fails (ve_store env) k then [] else (app (lit "user:")) <$> sort_by str_cmp (ve_users env k), s));
  each (enqueue_scope_backlog model learned) (lit "global:skills" :: lit "global:library" :: users).

(** ** The tick

    It is given the boot flag and returns it. *)
Definition mark_stale (model : str) (learned : Z) : VW unit :=
  if learned =? 0 then mret tt
  else
    _ ← vectors_stmt (fun e k sh => let '(r, t) := mark_corpus_stale (sh_vecs sh) model learned (en_fails e k) in (r, set_vecs t sh));
    mret tt.
Definition tick (boot_backlog : bool) : VW bool :=
  cfg ← read_config;
  match cfg with
  | None => mret boot_backlog
  | Some cfg =>
      learned ← learned_dims;
      _ ← mark_stale (emc_model cfg) learned;
      red ← is_red;
      if (red : bool) then mret boot_backlog
      else
        let client := EmbeddingsClient_new cfg in
        _ ← drain client cfg;
        _ ← rebuild_stale_scopes client cfg;
        _ ← (if boot_backlog then enqueue_boot_backlog (emc_model cfg) learned else mret tt);
        mret false
  end.

(** The run loop, up to its cancellation: a tick in each environment *)
Fixpoint run_ticks (envs : list VwEnv) (boot_backlog : bool) (w : VwWorld) : bool * VwWorld :=
  match envs with
  | [] => (boot_backlog, w)
  | env :: envs => let '(boot_backlog, w) := tick boot_backlog env w in run_ticks envs boot_backlog w
  end.
Definition run (envs : list VwEnv) (w : VwWorld) : VwWorld := (run_ticks envs true w).2.
End Worker.
