(* ===== verification/VectorWorkerProofs.v ===== *)
(** * Properties of the vector worker

    A tick touches no file, no row of the registry and no revision of any
    scope; a drain loses none of the items it takes; a backend that is down
    is asked at most three times. *)
From S2P Require Import Prelude Float Text Clock Crypto FileRepo Concept Config Lifecycle Health Search Llm Embeddings Revisions SearchIndex Vectors ConceptStore ConceptStoreProofs VectorWorker.
Open Scope Z_scope.

(** ** Programs within a relation *)
Section Within.
Context (R : VwWorld -> VwWorld -> Prop) `{!PreOrder R} (env : VwEnv).
Definition moves {A} (m : VW A) : Prop := forall w a w', m env w = (a, w') -> R w w'.

Lemma moves_ret {A} (a : A) : moves (mret a).
Proof. by intros w x w' [= <- <-]. Qed.
Lemma moves_bind {A B} (m : VW A) (f : A -> VW B) : moves m -> (forall a, moves (f a)) -> moves (m ≫= f).
Proof.
  intros Hm Hf w b w'. unfold mbind, VW_bind. destruct (m env w) as [a w1] eqn:E. intros Hrun.
  etrans; [by eapply Hm|by eapply Hf].
Qed.
Lemma moves_each {A} (f : A -> VW unit) l : (forall x, moves (f x)) -> moves (each f l).
Proof. intros Hf. induction l as [|x l IH]; [apply moves_ret|]. apply moves_bind; [apply Hf|]. by intros _. Qed.
End Within.

Create HintDb moves.
#[export] Hint Resolve moves_ret moves_each : moves.

(** ** What a tick never touches *)
Record untouched (w w' : VwWorld) : Prop := {
  un_files : w_files (vw_store w') = w_files (vw_store w); un_revs : w_revs (vw_store w') = w_revs (vw_store w);
  un_dirs sid : dir_at w' sid = dir_at w sid }.
#[export] Instance untouched_preorder : PreOrder untouched.
Proof. split; [by intros w|]. intros w1 w2 w3 [] []. constructor; intros; congruence. Qed.
#[export] Hint Resolve untouched_preorder : moves.

Definition quiet (env : VwEnv) : Prop := forall n x, ve_between env n x = x.

(** One step of a program that stays within a relation *)
Ltac moving :=
  repeat first
    [ solve [eauto with moves]
    | refine (moves_bind _ _ _ _ _ _); [|intros ?]
    | case_match ].

(** ** Grouping by scope *)
Definition keys_sorted {A} (m : list (str * A)) : Prop := StronglySorted (fun a b => str_cmp a b = Lt) m.*1.
Lemma group_extend_sorted {A} key (items : list A) m : keys_sorted m -> keys_sorted (group_extend key items m).
Proof.
  unfold keys_sorted. induction m as [|[k l] m IH]; cbn; intros Hs; [repeat constructor|].
  apply StronglySorted_inv in Hs as [Hs Hk]. rewrite Forall_forall in Hk. destruct (str_cmp key k) eqn:E; cbn; constructor.
  - done.
  - by apply Forall_forall.
  - constructor; [done|by apply Forall_forall].
  - apply Forall_forall. intros x [->|Hx]%elem_of_cons; [done|]. eapply str_cmp_lt_trans; [exact E|by apply Hk].
  - by apply IH.
  - apply Forall_forall. intros x [->|Hx]%group_extend_keys; [|by apply Hk]. by rewrite str_cmp_opp, E.
Qed.
Lemma keys_sorted_NoDup {A} (m : list (str * A)) : keys_sorted m -> NoDup m.*1.
Proof.
  unfold keys_sorted. induction 1 as [|x l _ IH Hx]; constructor; [|done]. rewrite Forall_forall in Hx. intros Hin.
  specialize (Hx _ Hin). by rewrite str_cmp_refl in Hx.
Qed.
(** The entries of a grouping, each with its key *)
Definition flat {A} (m : list (str * list A)) : list (str * A) := concat ((fun g : str * list A => pair g.1 <$> g.2) <$> m).
Lemma group_extend_flat {A} key (items : list A) m : flat (group_extend key items m) ≡ₚ flat m ++ (pair key <$> items).
Proof.
  induction m as [|[k l] m IH]; cbn; [by rewrite app_nil_r|]. destruct (str_cmp key k) eqn:E; cbn.
  - apply str_cmp_eq in E as ->. rewrite fmap_app. rewrite <- !app_assoc. apply Permutation_app_head. apply Permutation_app_comm.
  - rewrite (Permutation_app_comm (pair key <$> items)). by rewrite <- app_assoc.
  - rewrite <- app_assoc. by apply Permutation_app_head.
Qed.
Lemma by_scope_spec items : NoDup (by_scope items).*1 /\ flat (by_scope items) ≡ₚ items /\ (by_scope items).*1 ⊆ items.*1.
Proof.
  unfold by_scope. set (grow := fun m it => _).
  enough (H : forall m, keys_sorted m -> keys_sorted (fold_left grow items m) /\
    flat (fold_left grow items m) ≡ₚ flat m ++ items /\ (fold_left grow items m).*1 ⊆ m.*1 ++ items.*1).
  { destruct (H [] ltac:(constructor)) as [Hs Hp]. split; [by apply keys_sorted_NoDup|done]. }
  induction items as [|[s t] items IH]; intros m Hm; cbn; [rewrite !app_nil_r; by split_and!|].
  destruct (IH (group_extend s [t] m)) as (? & Hp & Hk); [by apply group_extend_sorted|]. split_and!; [done| |].
  - unfold grow at 2. cbn. by rewrite Hp, group_extend_flat, <- app_assoc.
  - intros d Hd. apply Hk in Hd. rewrite !elem_of_app in *. destruct Hd as [[->|?]%group_extend_keys|?]; [right; left|by left|right; by right].
Qed.
Lemma flat_elem {A} (m : list (str * list A)) s t : (s, t) ∈ flat m <-> exists ts, (s, ts) ∈ m /\ t ∈ ts.
Proof.
  unfold flat. rewrite list_elem_of_In, in_concat. setoid_rewrite <- list_elem_of_In. split.
  - intros (l & ([k ts] & -> & Hm)%list_elem_of_fmap & Hin). apply list_elem_of_fmap in Hin as (? & [= -> ->] & ?). by exists ts.
  - intros (ts & Hm & Ht). exists (pair s <$> ts). split; [apply list_elem_of_fmap; by exists (s, ts)|]. apply list_elem_of_fmap. by exists t.
Qed.
Lemma flat_NoDup {A} (m : list (str * list A)) s ts : NoDup (flat m) -> (s, ts) ∈ m -> NoDup ts.
Proof.
  intros Hnd (m1 & m2 & ->)%list_elem_of_split. unfold flat in Hnd. rewrite fmap_app, concat_app in Hnd. cbn in Hnd.
  apply NoDup_app in Hnd as (_ & _ & [Hnd _]%NoDup_app). by apply NoDup_fmap_1 in Hnd.
Qed.

Section Worker.
Context {AE : Aead} {KD : Kdf} {HX : Hex} {UT : UuidText} {MJ : MetaJson} {LC : Lowercase} {NL : NaturalLog} {DJ : DocJson}.
Context {YE : Type} `{!YamlCodec YE}.
Context {JS : Json str} {JE : Json EmbeddingsConfig} (service_key : ServiceKey).
#[local] Abbreviation Err' := (ConceptStoreError YE).

Section Untouched.
Context (env : VwEnv) (Hq : quiet env).
#[local] Abbreviation calm m := (moves untouched env m).

Lemma calm_statement {A} (f : VwEnv -> nat -> World -> A * World) :
  (forall e k s, w_files (f e k s).2 = w_files s /\ w_revs (f e k s).2 = w_revs s) -> calm (statement f).
Proof.
  intros Hf w a w'. unfold statement. specialize (Hf env (w_tick (vw_store w)) (with_tick (S (w_tick (vw_store w))) (vw_store w))).
  destruct (f _ _ _) as [x s]. destruct Hf. intros [= <- <-]. by constructor.
Qed.
Lemma calm_local f : (forall s, w_files (f s) = w_files s /\ w_revs (f s) = w_revs s) -> calm (local f).
Proof. intros Hf w a w' [= <- <-]. destruct (Hf (vw_store w)). by constructor. Qed.
Lemma calm_vectors {A} (f : Env -> nat -> Shared -> result A VectorError * Shared) : calm (vectors_stmt f).
Proof. apply calm_statement. intros e k s. by destruct (f _ _ _). Qed.
Lemma calm_emb {A} (f : EmbStatics -> A * EmbStatics) : calm (emb_statics f).
Proof. intros w a w'. unfold emb_statics. destruct (f _). by intros [= <- <-]. Qed.
Lemma calm_red : calm is_red.
Proof. by intros w a w' [= <- <-]. Qed.
Lemma calm_learned : calm learned_dims.
Proof. by intros w a w' [= <- <-]. Qed.
Lemma calm_resolve sid : calm (resolve_scope service_key sid).
Proof. by intros w a w' [= <- <-]. Qed.
Lemma calm_scope {A} cs (m : M Err' A) : (forall e s r s', m e s = (r, s') -> core_eq s s') -> calm (on_scope cs m).
Proof.
  intros Hm w a w'. unfold on_scope. destruct (m _ _) as [r s] eqn:E. apply Hm in E as (Hd & Hf & Hr). intros [= <- <-].
  constructor; [done|done|]. intros sid. unfold dir_at. simpl. simpl in Hd.
  destruct (decide (scope_id (cs_scope cs) = sid)) as [<-|Hne]; [by rewrite lookup_insert_eq, Hd|by rewrite lookup_insert_ne].
Qed.
Lemma calm_reads {A} cs (m : M Err' A) : reads m -> calm (on_scope cs m).
Proof. intros Hm. apply calm_scope. intros e s r s' H. by apply Hm in H as [? _]. Qed.
Lemma calm_request client texts : calm (request client texts).
Proof.
  intros w a w'. unfold request. destruct (embed_batch _ _ _ _ _) as [r e]. rewrite Hq. by intros [= <- <-].
Qed.
#[local] Hint Resolve calm_vectors calm_emb calm_red calm_learned calm_resolve calm_reads calm_request reads_get reads_list : moves.

Lemma calm_belt cs token : calm (belt cs token).
Proof. unfold belt. moving. Qed.
Lemma calm_sweep cs path : calm (sweep_dead_concept (YE := YE) cs path).
Proof.
  unfold sweep_dead_concept. refine (moves_bind _ _ _ _ _ _); [|intros _; moving].
  apply calm_scope. intros e s r s'. unfold sweep_index_row, unindex, access. destruct (index_remove _ _ _ _) as [x docs]. by intros [= <- <-].
Qed.
Lemma calm_attempts n first client texts : calm (embed_attempts n first client texts).
Proof. revert first. induction n as [|n IH]; intros first; cbn [embed_attempts]; moving. Qed.
Lemma calm_count : calm count_processed.
Proof. by intros w a w' [= <- <-]. Qed.
#[local] Hint Resolve calm_belt calm_sweep calm_attempts calm_count : moves.
Lemma calm_upserts cs model slot chunk ordered wrote : calm (upsert_chunk cs model slot chunk ordered wrote).
Proof. revert slot wrote. induction chunk as [|[path text] chunk IH]; intros slot wrote; cbn [upsert_chunk]; moving. Qed.
#[local] Hint Resolve calm_upserts : moves.
Lemma calm_batches fuel client model batch cs pairs wrote parked : calm (embed_batches fuel client model batch cs pairs wrote parked).
Proof. revert pairs wrote parked. induction fuel as [|fuel IH]; intros [|x pairs] wrote parked; cbn [embed_batches]; moving. Qed.
Lemma calm_enqueue cs path : calm (enqueue_path cs path).
Proof. by apply calm_local. Qed.
Lemma calm_invalidate cs : calm (invalidate_rows cs).
Proof. by apply calm_local. Qed.
#[local] Hint Resolve calm_batches calm_enqueue calm_invalidate : moves.
Lemma calm_load_tokens cs paths tokens pairs : calm (load_tokens (YE := YE) cs paths tokens pairs).
Proof. revert pairs. induction tokens as [|token tokens IH]; intros pairs; cbn [load_tokens]; moving. Qed.
Lemma calm_load_paths cs paths pairs : calm (load_paths (YE := YE) cs paths pairs).
Proof. revert pairs. induction paths as [|path paths IH]; intros pairs; cbn [load_paths]; moving. Qed.
#[local] Hint Resolve calm_load_tokens calm_load_paths : moves.
Lemma calm_take : calm take_queue.
Proof. intros w a w'. unfold take_queue. destruct (drain_queue _ _). by intros [= <- <-]. Qed.
#[local] Hint Resolve calm_take : moves.
Lemma calm_group client cfg group : calm (drain_group (YE := YE) service_key client cfg group).
Proof. unfold drain_group, drain_scope, embed_and_upsert. moving. Qed.
Lemma calm_rebuild client cfg sid : calm (rebuild_scope (YE := YE) service_key client cfg sid).
Proof. unfold rebuild_scope, backlog, embed_and_upsert. moving. Qed.
Lemma calm_backlog model learned sid : calm (enqueue_scope_backlog (YE := YE) service_key model learned sid).
Proof.
  unfold enqueue_scope_backlog, backlog. assert (forall cs p, calm (enqueue_backlog_path (YE := YE) cs p)) as Hp by (intros; unfold enqueue_backlog_path; moving).
  moving.
Qed.
#[local] Hint Resolve calm_group calm_rebuild calm_backlog : moves.

Lemma calm_config : calm (read_config service_key).
Proof.
  unfold read_config. refine (moves_bind _ _ _ _ _ _); [by apply calm_statement|intros [[raw|]|]]; [|refine (moves_bind _ _ _ _ _ _); [|intros _; moving]|moving].
  - refine (moves_bind _ _ _ _ _ _); [by apply calm_statement|intros cfg]. moving.
  - intros w a w'. destruct (bool_decide _); by intros [= <- <-].
Qed.
Lemma calm_tick boot : calm (tick (YE := YE) service_key boot).
Proof.
  unfold tick. refine (moves_bind _ _ _ _ _ _); [apply calm_config|intros [cfg|]; [|moving]].
  unfold mark_stale, drain, rebuild_stale_scopes, enqueue_boot_backlog.
  repeat first [solve [eauto with moves] | apply calm_statement; by intros | refine (moves_bind _ _ _ _ _ _); [|intros ?] | case_match].
Qed.
End Untouched.

(** However its accesses and requests fail, the worker changes no file, no
    row of the registry and no revision of any scope, in any number of
    ticks, when nobody else does meanwhile. *)
Theorem worker_touches_no_knowledge envs boot w boot' w' : Forall quiet envs ->
  run_ticks (YE := YE) service_key envs boot w = (boot', w') ->
  w_files (vw_store w') = w_files (vw_store w) /\ w_revs (vw_store w') = w_revs (vw_store w) /\ forall sid, dir_at w' sid = dir_at w sid.
Proof.
  intros Hq Hrun. enough (untouched w w') as [] by done. revert boot w Hrun. induction Hq as [|env envs He _ IH]; intros boot w; simpl.
  - by intros [= <- <-].
  - destruct (tick service_key boot env w) as [b w1] eqn:E. intros Hrun. etrans; [by eapply calm_tick|by eapply IH].
Qed.

(** ** Without faults

    No access is refused, nonces have their length, and nobody else acts;
    the requests may still fail in any way. *)
Record faultless (env : VwEnv) : Prop := {
  fl_fails k : en_fails (ve_store env) k = false; fl_nonce k i : length (en_nonce (ve_store env) k i) = NONCE_LEN; fl_quiet : quiet env }.
(** The cipher seals everything under a nonce of the right length. *)
Definition seals : Prop := forall key nonce aad plain, length nonce = NONCE_LEN -> is_Some (gcm_seal key nonce aad plain).

Definition rows (w : VwWorld) : gmap (str * str) VecRow := sh_vecs (shared_of w).
Definition queue_of (w : VwWorld) : list (str * str) := w_queue (vw_store w).

Lemma vs_scope cs : vs_scope_id (vs_of cs) = scope_id (cs_scope cs).
Proof. unfold vs_of. by destruct (cs_scope cs). Qed.

Section Faultless.
Context (env : VwEnv) (Hfl : faultless env).

(** The parts of the world that a statement on the rows leaves *)
Record beside (w w' : VwWorld) : Prop := {
  bs_queue : queue_of w' = queue_of w; bs_log : vw_log w' = vw_log w; bs_emb : vw_emb w' = vw_emb w }.
#[local] Instance beside_preorder : PreOrder beside.
Proof. split; [by intros w|]. intros w1 w2 w3 [] []. constructor; congruence. Qed.

Lemma belt_run cs token w w' : belt cs token env w = (tt, w') ->
  rows w' = delete (scope_id (cs_scope cs), token) (rows w) /\ beside w w'.
Proof.
  unfold belt, vectors_stmt, statement, remove_row_by_token, mbind, VW_bind. rewrite (fl_fails _ Hfl), vs_scope. intros [= <-].
  by split.
Qed.
Lemma scope_get cs p w r w' : on_scope cs (get (YE := YE) cs p) env w = (r, w') ->
  r = concept_at cs (dir_at w (scope_id (cs_scope cs))) p /\ rows w' = rows w /\ beside w w'.
Proof.
  unfold on_scope. rewrite get_faultless by apply (fl_fails _ Hfl). intros [= <- <-]. split_and!; [done|done|by constructor].
Qed.
Lemma scope_list cs w r w' : on_scope cs (list_concepts (YE := YE) cs) env w = (r, w') ->
  r = Ok (scope_rows cs (vw_store w)) /\ rows w' = rows w /\ beside w w'.
Proof.
  unfold on_scope, list_concepts, access. rewrite (fl_fails _ Hfl). intros [= <- <-]. split_and!; [done|done|by constructor].
Qed.

(** The pair a token leads to, when its concept can be read *)
Definition loaded (cs : ConceptStore) (d : gmap str bytes) (paths : gmap str str) (token : str) : option (str * str) :=
  p ← paths !! token;
  match concept_at cs d p with Ok c => Some (p, searchable_text c) | Err _ => None end.
Definition gone_token (cs : ConceptStore) (d : gmap str bytes) (paths : gmap str str) (token : str) : Prop :=
  match paths !! token with
  | None => True
  | Some p => match concept_at cs d p with Err (CNotFound _) => True | _ => False end
  end.

Lemma load_tokens_run cs paths tokens pairs w pairs' w' : let sid := scope_id (cs_scope cs) in
  load_tokens (YE := YE) cs paths tokens pairs env w = (pairs', w') ->
  pairs' = pairs ++ omap (loaded cs (dir_at w sid) paths) tokens /\ beside w w' /\
  (forall k, rows w' !! k = rows w !! k \/ rows w' !! k = None) /\
  (forall s t, s <> sid \/ ~ (t ∈ tokens /\ gone_token cs (dir_at w sid) paths t) -> rows w' !! (s, t) = rows w !! (s, t)) /\
  (forall t, t ∈ tokens -> gone_token cs (dir_at w sid) paths t -> rows w' !! (sid, t) = None).
Proof.
  intros sid. revert pairs w. induction tokens as [|token tokens IH]; intros pairs w; cbn [load_tokens].
  { intros [= <- <-]. rewrite app_nil_r. split_and!; [done|done|by left|done|by intros t ?%not_elem_of_nil]. }
  assert (Hgone : forall (w0 w1 : VwWorld), untouched w w0 -> rows w0 = rows w -> beside w w0 -> belt cs token env w0 = (tt, w1) ->
    load_tokens (YE := YE) cs paths tokens pairs env w1 = (pairs', w') -> loaded cs (dir_at w sid) paths token = None -> gone_token cs (dir_at w sid) paths token ->
    pairs' = pairs ++ omap (loaded cs (dir_at w sid) paths) (token :: tokens) /\ beside w w' /\
    (forall k, rows w' !! k = rows w !! k \/ rows w' !! k = None) /\
    (forall s t, s <> sid \/ ~ (t ∈ token :: tokens /\ gone_token cs (dir_at w sid) paths t) -> rows w' !! (s, t) = rows w !! (s, t)) /\
    (forall t, t ∈ token :: tokens -> gone_token cs (dir_at w sid) paths t -> rows w' !! (sid, t) = None)).
  { intros w0 w1 Hu Hr Hb Hbelt Hrun Hload Hgt. destruct (belt_run _ _ _ _ Hbelt) as [Hrows Hb1].
    assert (Hd : dir_at w1 sid = dir_at w sid).
    { etrans; [|apply Hu]. apply (un_dirs _ _ (calm_belt env cs token w0 tt w1 Hbelt)). }
    destruct (IH _ _ Hrun) as (-> & Hb2 & Hdel & Hout & Hin). fold sid in Hrows, Hout, Hin |- *. rewrite Hd in Hout, Hin |- *. rewrite Hrows, Hr in Hdel, Hout.
    split_and!.
    - cbn. by rewrite Hload.
    - etrans; [exact Hb|]. by etrans.
    - intros k. destruct (Hdel k) as [H|H]; [|by right]. rewrite H. destruct (decide (k = (sid, token))) as [->|Hne];
        [right; apply lookup_delete_eq|left; by apply lookup_delete_ne].
    - intros s t Hst. rewrite Hout by (rewrite elem_of_cons in Hst; naive_solver). apply lookup_delete_ne.
      intros [= -> ->]. destruct Hst as [?|Hn]; [done|]. apply Hn. split; [left|exact Hgt].
    - intros t [->|Ht]%elem_of_cons Hg; [|by apply Hin]. destruct (Hdel (sid, token)) as [H|H]; [|exact H]. rewrite H. apply lookup_delete_eq. }
  destruct (paths !! token) as [p|] eqn:Ep.
  - unfold mbind at 1, VW_bind at 1. destruct (on_scope cs _ env w) as [r w0] eqn:Eg.
    pose proof (calm_reads env cs _ (reads_get cs p) _ _ _ Eg) as Hu. apply scope_get in Eg as (-> & Hr & Hb). fold sid.
    destruct (concept_at cs (dir_at w sid) p) as [c|e] eqn:Ec.
    + intros Hrun. destruct (IH _ _ Hrun) as (-> & Hb2 & Hdel & Hout & Hin). fold sid in Hin.
      rewrite (un_dirs _ _ Hu) in Hout, Hin |- *. rewrite Hr in Hdel, Hout. split_and!.
      * rewrite <- app_assoc. f_equal. cbn. unfold loaded at 2. rewrite Ep. cbn. by rewrite Ec.
      * by etrans.
      * exact Hdel.
      * intros s t Hst. apply Hout. rewrite elem_of_cons in Hst. naive_solver.
      * intros t [->|Ht]%elem_of_cons Hg; [|by apply Hin]. unfold gone_token in Hg. by rewrite Ep, Ec in Hg.
    + assert (Hload : loaded cs (dir_at w sid) paths token = None) by (unfold loaded; rewrite Ep; cbn; by rewrite Ec).
      destruct e as [e|e| |e|e|e|p'|p'|p'];
        try (intros Hrun; destruct (IH _ _ Hrun) as (-> & Hb2 & Hdel & Hout & Hin); fold sid in Hin;
             rewrite (un_dirs _ _ Hu) in Hout, Hin |- *; rewrite Hr in Hdel, Hout; split_and!;
             [cbn; by rewrite Hload|by etrans|exact Hdel
             |intros s t Hst; apply Hout; rewrite elem_of_cons in Hst; naive_solver
             |intros t [->|Ht]%elem_of_cons Hg; [unfold gone_token in Hg; by rewrite Ep, Ec in Hg|by apply Hin]]).
      unfold mbind, VW_bind. destruct (belt cs token env w0) as [[] w1] eqn:Eb. intros Hrun. eapply Hgone; try done. unfold gone_token. by rewrite Ep, Ec.
  - unfold mbind, VW_bind. destruct (belt cs token env w) as [[] w1] eqn:Eb. intros Hrun. eapply Hgone; try done.
    + unfold loaded. by rewrite Ep.
    + unfold gone_token. by rewrite Ep.
Qed.

(** A row for a path with the vector [v] *)
Definition row_key (cs : ConceptStore) (p : str) : str * str := (scope_id (cs_scope cs), vec_token (vs_of cs) p).
Definition fresh_row (cs : ConceptStore) (model p : str) (v : list f32) (row : VecRow) : Prop :=
  vr_model row = model /\ vr_stale row = false /\ vr_dims row = Z.of_nat (length v) /\
  sealed_as (vr_vec row) (as_bytes (vec_aad (vs_of cs) (vec_token (vs_of cs) p))) (vec_bytes v) (index_dek (vs_keys (vs_of cs))).
Definition bounded (v : list f32) : Prop := (length v <= MAX_EMBEDDING_DIMS)%nat.
Context (Hseals : seals).

Lemma upsert_run cs model p v w r w' : bounded v ->
  vectors_stmt (fun e k sh =>
    let '(r, t) := upsert (vs_of cs) (sh_vecs sh) p model (wrap32 (Z.of_nat (length v))) v (en_nonce e k 0%nat) (en_now e k) (en_fails e k) in
    (r, set_vecs t sh)) env w = (r, w') ->
  (exists b, r = Ok b) /\ beside w w' /\ exists row, fresh_row cs model p v row /\ rows w' = <[row_key cs p := row]> (rows w).
Proof.
  intros Hv. assert (Hlen : 0 <= Z.of_nat (length v) < 4097) by (unfold bounded, MAX_EMBEDDING_DIMS in Hv; lia).
  unfold vectors_stmt, statement, upsert. unfold wrap32. rewrite Z.mod_small by lia. rewrite Z.eqb_refl. cbn [negb].
  destruct (aead_seal _ _ _ _) as [sealed|e] eqn:Es; cycle 1.
  { exfalso. unfold aead_seal in Es. destruct (Hseals (dek (index_dek (vs_keys (vs_of cs)))) (en_nonce (ve_store env) (w_tick (vw_store w)) 0)
      (as_bytes (vec_aad (vs_of cs) (vec_token (vs_of cs) p))) (vec_bytes v) (fl_nonce _ Hfl _ _)) as [c Hc]. by rewrite Hc in Es. }
  rewrite (fl_fails _ Hfl). intros [= <- <-]. split; [by eexists|]. split; [done|]. eexists. split; [|unfold rows, row_key; simpl; by rewrite vs_scope].
  unfold fresh_row. cbn. split_and!; [done|done| |by eapply aead_seal_Ok; [apply (fl_nonce _ Hfl)|]].
  unfold i32_of_u32. by rewrite (proj2 (Z.ltb_lt _ _)) by lia.
Qed.

Lemma upsert_chunk_run cs model slot chunk ordered wrote w r w' :
  upsert_chunk cs model slot chunk ordered wrote env w = (r, w') ->
  Forall bounded ordered -> (slot + length chunk <= length ordered)%nat -> NoDup (row_key cs <$> chunk.*1) ->
  beside w w' /\ (forall k, k ∉ (row_key cs <$> chunk.*1) -> rows w' !! k = rows w !! k) /\
  (forall j p x, chunk !! j = Some (p, x) -> exists v row, ordered !! (slot + j)%nat = Some v /\ rows w' !! row_key cs p = Some row /\ fresh_row cs model p v row).
Proof.
  intros Hrun Hb. revert slot wrote w Hrun. induction chunk as [|[p x] chunk IH]; intros slot wrote w; cbn [upsert_chunk].
  { intros [= <- <-] _ _. split_and!; [done|done|]. intros j p x. by rewrite lookup_nil. }
  intros Hrun Hlen Hnd. rewrite !fmap_cons in *. cbn in Hnd, Hlen. apply NoDup_cons in Hnd as [Hn Hnd].
  destruct (lookup_lt_is_Some_2 ordered slot ltac:(lia)) as [v Hv]. rewrite Hv in Hrun. unfold mbind at 1, VW_bind at 1 in Hrun.
  destruct (vectors_stmt _ env w) as [y w1] eqn:E.
  destruct (upsert_run cs model p v w y w1 (proj1 (Forall_lookup _ _) Hb _ _ Hv) E) as ([b ->] & Hb1 & row & Hrow & Hr).
  unfold mbind, VW_bind, count_processed in Hrun. set (w2 := mkVwWorld _ _ _ _ _) in Hrun.
  destruct (IH (S slot) true w2 Hrun ltac:(lia) Hnd) as (Hb2 & Hout & Hin).
  assert (Hr2 : rows w2 = <[row_key cs p := row]> (rows w)) by exact Hr. rewrite Hr2 in Hout.
  split_and!.
  - etrans; [exact Hb1|]. etrans; [|exact Hb2]. by constructor.
  - intros k Hk. apply not_elem_of_cons in Hk as [Hk1 Hk2]. rewrite Hout by done. by apply lookup_insert_ne.
  - intros [|j] q y; cbn; [intros [= -> ->]|intros Hj].
    + exists v, row. rewrite Nat.add_0_r. split_and!; [done| |done]. rewrite Hout by done. apply lookup_insert_eq.
    + destruct (Hin j q y Hj) as (v' & row' & Hv' & ?). exists v', row'. by replace (slot + S j)%nat with (S slot + j)%nat by lia.
Qed.

(** Requests leave the store as it is. *)
Record same_rows (w w' : VwWorld) : Prop := { sr_rows : rows w' = rows w; sr_queue : queue_of w' = queue_of w }.
Lemma request_run client texts w r w' : request client texts env w = (r, w') ->
  same_rows w w' /\ vw_log w' = vw_log w ++ [(texts, r)] /\
  (r, vw_emb w') = embed_batch client (ve_endpoint env (length (vw_log w))) (ve_arrival env (length (vw_log w))) texts (vw_emb w).
Proof. unfold request. destruct (embed_batch _ _ _ _ _) as [x e]. rewrite (fl_quiet _ Hfl). by intros [= <- <-]. Qed.

Lemma embed_attempts_run n first client texts w o w' : embed_attempts n first client texts env w = (o, w') ->
  same_rows w w' /\ exists l, vw_log w' = vw_log w ++ l /\
  match o with
  | Some vs => (texts, Ok vs) ∈ l /\ length vs = length texts /\ Forall bounded vs
  | None => first = true -> (0 < n)%nat -> exists e, (texts, Err e) ∈ l
  end.
Proof.
  revert first w. induction n as [|n IH]; intros first w; cbn [embed_attempts].
  { intros [= <- <-]. split; [done|]. exists []. split; [by rewrite app_nil_r|lia]. }
  unfold mbind, VW_bind. cbn [is_red]. set (red := bool_decide _). cbv beta iota.
  destruct (negb first && red) eqn:E.
  { intros [= <- <-]. split; [done|]. exists []. split; [by rewrite app_nil_r|]. intros ->. done. }
  destruct (request client texts env w) as [r w1] eqn:Er. destruct (request_run _ _ _ _ _ Er) as (Hs & Hl & He). destruct r as [vs|e].
  - intros [= <- <-]. split; [done|]. exists [(texts, Ok vs)]. split; [done|]. symmetry in He. apply embed_batch_spec in He as (Hlen & _ & Hb & _).
    split_and!; [by left|done|done].
  - intros Hrun. destruct (IH _ _ Hrun) as ([Hr2 Hq2] & l & Hl2 & Ho). destruct Hs as [Hr1 Hq1].
    split; [constructor; congruence|]. exists ((texts, Err e) :: l). split; [by rewrite Hl2, Hl, <- app_assoc|].
    destruct o as [vs|]; [destruct Ho; split; [by right|done]|]. intros _ _. exists e. by left.
Qed.

(** The requests gave the vector [v] for the text [x]. *)
Definition answered (l : list (list str * result (list (list f32)) EmbeddingError)) (x : str) (v : list f32) : Prop :=
  exists texts vs i, (texts, Ok vs) ∈ l /\ texts !! i = Some x /\ vs !! i = Some v.
Definition embedded (cs : ConceptStore) (model p x : str) (w : VwWorld) (l : list (list str * result (list (list f32)) EmbeddingError)) : Prop :=
  exists v row, rows w !! row_key cs p = Some row /\ fresh_row cs model p v row /\ answered l x v.
Definition all_served (l : list (list str * result (list (list f32)) EmbeddingError)) : Prop := forall texts e, (texts, Err e) ∉ l.
Definition red (e : EmbStatics) : Prop := base_state (es_health e) = Red.

Lemma answered_app l1 l2 x v : answered l1 x v \/ answered l2 x v -> answered (l1 ++ l2) x v.
Proof. intros [(t & vs & i & H & ?)|(t & vs & i & H & ?)]; exists t, vs, i; rewrite elem_of_app; auto. Qed.
Lemma emb_state_base e now : emb_state e now = base_state (es_health e).
Proof. unfold emb_state, embedding_state, state_at, effective_state. by rewrite andb_false_r. Qed.
Lemma is_red_run w : is_red env w = (bool_decide (red (vw_emb w)), w).
Proof. unfold is_red, red. by rewrite emb_state_base. Qed.
Lemma ok_not_red h now : base_state h <> Red -> base_state (note_ok_at h now) <> Red.
Proof. intros Hh. unfold note_ok_at. by destruct (configured h) eqn:E. Qed.

(** When every request is served, the first attempt does it. *)
Lemma attempts_served n client texts w o w' l : embed_attempts (S n) true client texts env w = (o, w') -> vw_log w' = vw_log w ++ l ->
  all_served l -> is_Some o /\ (~ red (vw_emb w) -> ~ red (vw_emb w')).
Proof.
  cbn [embed_attempts]. unfold mbind at 1, VW_bind at 1. rewrite is_red_run. cbn [negb andb].
  unfold mbind, VW_bind. destruct (request client texts env w) as [r w1] eqn:Er. destruct (request_run _ _ _ _ _ Er) as (_ & Hl1 & He).
  destruct r as [vs|e].
  - intros [= <- <-] _ _. split; [by eexists|]. intros Hr. symmetry in He. apply embed_batch_spec in He as (_ & _ & _ & Hs).
    destruct texts; [by rewrite Hs|]. destruct Hs as (Hh & _). unfold red. rewrite Hh. by apply ok_not_red.
  - intros Hrun Hl Hall. destruct (embed_attempts_run _ _ _ _ _ _ _ Hrun) as (_ & l2 & Hl2 & _). exfalso.
    rewrite Hl1, <- app_assoc in Hl2. rewrite Hl2 in Hl. apply app_inv_head in Hl. apply (Hall texts e). rewrite <- Hl. by left.
Qed.

Lemma embed_batches_run fuel client model batch cs pairs wrote parked w wrote' parked' w' :
  embed_batches fuel client model batch cs pairs wrote parked env w = (wrote', parked', w') ->
  (0 < batch)%nat -> (length pairs <= fuel)%nat -> NoDup (row_key cs <$> pairs.*1) ->
  queue_of w' = queue_of w /\ exists newly l, parked' = parked ++ newly /\ newly `sublist_of` pairs.*1 /\ vw_log w' = vw_log w ++ l /\
  (forall k, k ∉ (row_key cs <$> pairs.*1) -> rows w' !! k = rows w !! k) /\
  (forall p x, (p, x) ∈ pairs -> p ∈ newly \/ embedded cs model p x w' l) /\
  (~ red (vw_emb w) -> all_served l -> newly = [] /\ ~ red (vw_emb w')).
Proof.
  revert pairs wrote parked w. induction fuel as [|fuel IH]; intros pairs wrote parked w Hrun Hbatch Hfuel Hnd.
  { destruct pairs; [|simpl in Hfuel; lia]. injection Hrun as <- <- <-. split; [done|]. exists [], []. rewrite !app_nil_r.
    split_and!; [done|constructor|done|done|by intros p x ?%not_elem_of_nil|done]. }
  destruct pairs as [|pr pairs0].
  { injection Hrun as <- <- <-. split; [done|]. exists [], []. rewrite !app_nil_r.
    split_and!; [done|constructor|done|done|by intros p x ?%not_elem_of_nil|done]. }
  cbn [embed_batches] in Hrun. remember (pr :: pairs0) as pairs eqn:Ep. unfold mbind at 1, VW_bind at 1 in Hrun. rewrite is_red_run in Hrun.
  destruct (bool_decide_reflect (red (vw_emb w))) as [Hred|Hred].
  { injection Hrun as <- <- <-. split; [done|]. exists pairs.*1, []. rewrite app_nil_r. split_and!; [done|done|done|done| |done].
    intros p x Hin. left. apply list_elem_of_fmap. by exists (p, x). }
  set (chunk := take batch pairs) in Hrun. set (rest := drop batch pairs) in Hrun.
  assert (Hsplit : pairs = chunk ++ rest) by (symmetry; apply take_drop).
  assert (Hrest : (length rest <= fuel)%nat) by (unfold rest; rewrite length_drop; subst pairs; simpl in *; lia).
  rewrite Hsplit, !fmap_app in Hnd. apply NoDup_app in Hnd as (Hndc & Hdisj & Hndr).
  unfold mbind at 1, VW_bind at 1 in Hrun. destruct (embed_attempts _ _ _ _ env w) as [o w1] eqn:Ea.
  destruct (embed_attempts_run _ _ _ _ _ _ _ Ea) as ([Hr1 Hq1] & l1 & Hl1 & Ho).
  assert (Hserved : all_served l1 -> is_Some o /\ ~ red (vw_emb w1)).
  { intros Hall. destruct (attempts_served _ _ _ _ _ _ _ Ea Hl1 Hall) as [? Hnr]. split; [done|by apply Hnr]. }
  destruct o as [ordered|].
  - destruct Ho as (Hin1 & Hlen & Hb). unfold mbind, VW_bind in Hrun. destruct (upsert_chunk _ _ _ _ _ _ env w1) as [wr w2] eqn:Eu.
    destruct (upsert_chunk_run _ _ _ _ _ _ _ _ _ Eu Hb) as ([Hq2 Hl2 He2] & Hout2 & Hin2); [rewrite Hlen, length_fmap; lia|done|].
    destruct (IH _ _ _ _ Hrun Hbatch Hrest Hndr) as (Hq3 & newly & l3 & -> & Hsub & Hl3 & Hout3 & Hin3 & Hserve3).
    split; [congruence|]. exists newly, (l1 ++ l3). split_and!.
    + done.
    + rewrite Hsplit, fmap_app. by apply sublist_inserts_l.
    + by rewrite Hl3, Hl2, Hl1, <- app_assoc.
    + intros k Hk. rewrite Hsplit, !fmap_app, not_elem_of_app in Hk. destruct Hk. by rewrite Hout3, Hout2, Hr1.
    + intros p x Hpx. rewrite Hsplit in Hpx. apply elem_of_app in Hpx as [Hc|Hr].
      * right. apply list_elem_of_lookup in Hc as [j Hj]. destruct (Hin2 j p x Hj) as (v & row & Hv & Hrow & Hfresh).
        exists v, row. split_and!; [|done|].
        -- rewrite Hout3; [done|]. apply Hdisj. apply list_elem_of_fmap. exists p. split; [done|]. apply list_elem_of_fmap.
           exists (p, x). split; [done|]. by eapply list_elem_of_lookup_2.
        -- apply answered_app. left. exists chunk.*2, ordered, j. split_and!; [done| |done]. by rewrite list_lookup_fmap, Hj.
      * destruct (Hin3 p x Hr) as [?|(v & row & ? & ? & Hans)]; [by left|]. right. exists v, row. split_and!; [done|done|].
        apply answered_app. by right.
    + intros _ Hall. assert (Ha1 : all_served l1) by (intros t e Hin; apply (Hall t e); apply elem_of_app; by left).
      destruct (Hserved Ha1) as [_ Hnr]. apply Hserve3; [by rewrite He2|]. intros t e Hin. apply (Hall t e). apply elem_of_app. by right.
  - destruct (IH _ _ _ _ Hrun Hbatch Hrest Hndr) as (Hq3 & newly & l3 & -> & Hsub & Hl3 & Hout3 & Hin3 & Hserve3).
    split; [congruence|]. exists (chunk.*1 ++ newly), (l1 ++ l3). split_and!.
    + by rewrite app_assoc.
    + rewrite Hsplit, fmap_app. by apply sublist_app.
    + by rewrite Hl3, Hl1, <- app_assoc.
    + intros k Hk. rewrite Hsplit, !fmap_app, not_elem_of_app in Hk. destruct Hk. by rewrite Hout3, Hr1.
    + intros p x Hpx. rewrite Hsplit in Hpx. apply elem_of_app in Hpx as [Hc|Hr].
      * left. apply elem_of_app. left. apply list_elem_of_fmap. by exists (p, x).
      * destruct (Hin3 p x Hr) as [?|(v & row & ? & ? & Hans)]; [left; apply elem_of_app; by right|]. right. exists v, row. split_and!; [done|done|].
        apply answered_app. by right.
    + intros _ Hall. destruct (Hserved (fun t e Hin => Hall t e ltac:(apply elem_of_app; by left))) as [[? Ho'] _]. done.
Qed.

(** ** The queue *)
Lemma enqueue_write_grows q s t : NoDup q -> NoDup (enqueue_write q s t) /\ q ⊆ enqueue_write q s t /\
  (forall x, x ∈ enqueue_write q s t -> x ∈ q \/ x = (s, t)) /\ ((s, t) ∈ q \/ (length q < VECTOR_QUEUE_CAPACITY)%nat -> (s, t) ∈ enqueue_write q s t).
Proof.
  intros Hnd. unfold enqueue_write. destruct (existsb _ q) eqn:E; cbn [orb].
  - split_and!; [done|done|by left|intros _]. apply existsb_exists in E as ([a b] & Hin%list_elem_of_In & [E1%str_eqb_eq E2%str_eqb_eq]%andb_true_iff).
    cbn in E1, E2. by subst.
  - destruct (Nat.leb_spec VECTOR_QUEUE_CAPACITY (length q)); [split_and!; [done|done|by left|intros [?|?]; [done|lia]]|].
    assert (Hn : (s, t) ∉ q).
    { intros Hin. apply not_true_iff_false in E. apply E. apply existsb_exists. exists (s, t). split; [by apply list_elem_of_In|]. cbn.
      by rewrite !(proj2 (str_eqb_eq _ _) eq_refl). }
    split_and!.
    + apply NoDup_app. split_and!; [done|by intros x Hx ->%list_elem_of_singleton|apply NoDup_singleton].
    + intros x Hx. apply elem_of_app. by left.
    + intros x [Hx|Hx%list_elem_of_singleton]%elem_of_app; [by left|by right].
    + intros _. apply elem_of_app. right. by left.
Qed.

(** What is parked finds its place, when what is queued and what is parked
    were queued before. *)
Lemma park_run cs items parked w w' : (length items <= VECTOR_QUEUE_CAPACITY)%nat ->
  NoDup (queue_of w) -> queue_of w ⊆ items -> (row_key cs <$> parked) ⊆ items ->
  each (enqueue_path cs) parked env w = (tt, w') ->
  rows w' = rows w /\ vw_log w' = vw_log w /\ vw_emb w' = vw_emb w /\
  NoDup (queue_of w') /\ queue_of w ⊆ queue_of w' /\ queue_of w' ⊆ items /\ (row_key cs <$> parked) ⊆ queue_of w'.
Proof.
  intros Hcap. revert w. induction parked as [|p parked IH]; intros w Hnd Hsub Hp; cbn [each].
  { intros [= <-]. split_and!; try done. by intros x ?%not_elem_of_nil. }
  unfold mbind, VW_bind. destruct (enqueue_path cs p env w) as [[] w1] eqn:E. unfold enqueue_path, local in E. injection E as <-. intros Hrun.
  rewrite fmap_cons in Hp. assert (Hin : row_key cs p ∈ items) by (apply Hp; left). rewrite vs_scope in Hrun.
  destruct (enqueue_write_grows (queue_of w) (scope_id (cs_scope cs)) (vec_token (vs_of cs) p) Hnd) as (Hnd1 & Hgrow & Honly & Hput).
  apply IH in Hrun as (Hr & Hl & He & Hnd2 & Hgrow2 & Hsub2 & Hp2); [|done| |intros x Hx; apply Hp; by right].
  - split_and!; [done|done|done|done|set_solver|done|]. rewrite fmap_cons. intros x [-> | Hx]%elem_of_cons; [|by apply Hp2]. apply Hgrow2, Hput.
    destruct (decide (row_key cs p ∈ queue_of w)) as [?|Hn]; [by left|]. right.
    assert (Hle : (length (row_key cs p :: queue_of w) <= length items)%nat).
    { apply submseteq_length, NoDup_submseteq; [by constructor|]. intros x [->|?]%elem_of_cons; [done|by apply Hsub]. }
    simpl in Hle. lia.
  - intros x Hx. destruct (Honly x Hx) as [?|Heq]; [by apply Hsub|by rewrite Heq].
Qed.

Lemma token_to_path_lookup cs entries token p : token_to_path cs entries !! token = Some p -> vec_token (vs_of cs) p = token.
Proof.
  unfold token_to_path. assert (H : forall l (m : gmap str str), (forall t q, m !! t = Some q -> vec_token (vs_of cs) q = t) ->
    forall t q, fold_left (fun m e => <[vec_token (vs_of cs) (ce_path e) := ce_path e]> m) l m !! t = Some q -> vec_token (vs_of cs) q = t).
  { induction l as [|e l IH]; intros m Hm; simpl; [done|]. apply IH. intros t q [[<- <-]|[_ ?]]%lookup_insert_Some; [done|by apply Hm]. }
  apply H. by intros t q.
Qed.

(** ** What becomes of a drained item *)
Definition settled (cs : ConceptStore) (model : str) (w w' : VwWorld) (l : list (list str * result (list (list f32)) EmbeddingError)) (token : str) : Prop :=
  match token_to_path cs (scope_rows cs (vw_store w)) !! token with
  | None => rows w' !! (scope_id (cs_scope cs), token) = None
  | Some p =>
      match concept_at cs (dir_at w (scope_id (cs_scope cs))) p with
      | Ok c => (scope_id (cs_scope cs), token) ∈ queue_of w' \/ embedded cs model p (searchable_text c) w' l
      | Err (CNotFound _) => rows w' !! (scope_id (cs_scope cs), token) = None
      | Err _ => rows w' !! (scope_id (cs_scope cs), token) = rows w !! (scope_id (cs_scope cs), token)
      end
  end.

Lemma drain_scope_run client cfg cs tokens items w w' : let sid := scope_id (cs_scope cs) in
  (length items <= VECTOR_QUEUE_CAPACITY)%nat -> NoDup (queue_of w) -> queue_of w ⊆ items -> NoDup tokens -> (pair sid <$> tokens) ⊆ items ->
  drain_scope (YE := YE) client cfg cs tokens env w = (tt, w') ->
  NoDup (queue_of w') /\ queue_of w ⊆ queue_of w' /\ queue_of w' ⊆ items /\
  exists l, vw_log w' = vw_log w ++ l /\ (forall s t, s <> sid -> rows w' !! (s, t) = rows w !! (s, t)) /\
  (forall t, t ∈ tokens -> settled cs (emc_model cfg) w w' l t) /\
  (~ red (vw_emb w) -> all_served l -> queue_of w' = queue_of w /\ ~ red (vw_emb w')).
Proof.
  intros sid Hcap Hnd Hsub Hndt Htok. unfold drain_scope. unfold mbind at 1, VW_bind at 1.
  destruct (on_scope cs (list_concepts cs) env w) as [r w1] eqn:E1.
  pose proof (calm_reads env cs _ (reads_list cs) _ _ _ E1) as Hu1. apply scope_list in E1 as (-> & Hr1 & Hb1).
  set (paths := token_to_path cs _). unfold mbind at 1, VW_bind at 1.
  destruct (load_tokens cs paths tokens [] env w1) as [pairs w2] eqn:E2.
  destruct (load_tokens_run _ _ _ _ _ _ _ E2) as (Hpairs & Hb2 & Hdel2 & Hout2 & Hin2). fold sid in Hpairs, Hout2, Hin2.
  rewrite (un_dirs _ _ Hu1) in Hpairs, Hout2, Hin2. cbn [app] in Hpairs. rewrite Hr1 in Hdel2, Hout2.
  set (load := loaded cs (dir_at w sid) paths) in *.
  assert (Hkey : forall t p x, load t = Some (p, x) -> row_key cs p = (sid, t)).
  { intros t p x Hl. unfold load, loaded in Hl. destruct (paths !! t) as [q|] eqn:Eq; [|done]. cbn in Hl.
    destruct (concept_at cs (dir_at w sid) q) as [c|]; [|done]. injection Hl as -> _. unfold row_key. by rewrite (token_to_path_lookup _ _ _ _ Eq). }
  assert (Hkeys : (row_key cs <$> pairs.*1) `sublist_of` (pair sid <$> tokens)).
  { rewrite Hpairs. clear -Hkey. induction tokens as [|t tokens IH]; cbn; [constructor|]. destruct (load t) as [[p x]|] eqn:El; [|by constructor].
    cbn. rewrite (Hkey _ _ _ El). by constructor. }
  assert (Hndk : NoDup (row_key cs <$> pairs.*1)) by (eapply sublist_NoDup; [|exact Hkeys]; by apply (NoDup_fmap_2 _)).
  assert (Hnk : forall t, load t = None -> (sid, t) ∉ (row_key cs <$> pairs.*1)).
  { intros t Hl (p & Hp & (pr & -> & Hpr)%list_elem_of_fmap)%list_elem_of_fmap. rewrite Hpairs in Hpr.
    apply list_elem_of_omap in Hpr as (t' & _ & Ht'). destruct pr as [p x]. cbn in Hp. rewrite (Hkey _ _ _ Ht') in Hp. injection Hp as <-. congruence. }
  unfold embed_and_upsert. unfold mbind at 1, VW_bind at 1.
  destruct (embed_batches _ _ _ _ _ _ _ _ env w2) as [[wrote parked] w3] eqn:E3.
  apply embed_batches_run in E3 as (Hq3 & newly & l & -> & Hnew & Hl3 & Hout3 & Hin3 & Hserve3); [|lia|done|done]. cbn [app].
  unfold mbind, VW_bind. destruct (each (enqueue_path cs) newly env w3) as [[] w4] eqn:E4.
  assert (Hq32 : queue_of w3 = queue_of w) by (rewrite Hq3, (bs_queue _ _ Hb2); apply (bs_queue _ _ Hb1)).
  assert (Hnewkeys : (row_key cs <$> newly) ⊆ items).
  { intros x (p & -> & Hp)%list_elem_of_fmap. apply Htok. eapply sublist_subseteq; [exact Hkeys|]. apply list_elem_of_fmap. exists p.
    split; [done|]. by eapply sublist_subseteq. }
  assert (Hnone : newly = [] -> w4 = w3) by (intros ->; injection E4 as <-; done).
  apply (park_run cs items) in E4 as (Hr4 & Hl4 & He4 & Hnd4 & Hgrow4 & Hsub4 & Hpark4); [|done|by rewrite Hq32|by rewrite Hq32|done].
  intros Hrun. assert (rows w' = rows w4 /\ queue_of w' = queue_of w4 /\ vw_log w' = vw_log w4 /\ vw_emb w' = vw_emb w4) as (-> & Hq' & Hl' & He').
  { destruct wrote; injection Hrun as <-; done. }
  rewrite Hr4, Hq', Hl', He', Hl4, He4, Hl3. rewrite Hq32 in Hgrow4.
  split_and!; [done|done|done|]. exists l. rewrite (bs_log _ _ Hb2), (bs_log _ _ Hb1). split_and!; [done| | |].
  - intros s t Hs. rewrite Hout3; [apply Hout2; by left|]. intros Hk. apply (sublist_subseteq _ _ Hkeys) in Hk.
    apply list_elem_of_fmap in Hk as (? & [= -> ?] & _). done.
  - intros t Ht. unfold settled. fold sid. change (token_to_path cs (scope_rows cs (vw_store w))) with paths.
    assert (Hgone : gone_token cs (dir_at w sid) paths t -> load t = None -> rows w' !! (sid, t) = None).
    { intros Hg Hl. assert (Hrw : rows w' = rows w3) by (destruct wrote; injection Hrun as <-; exact Hr4). rewrite Hrw, Hout3 by (by apply Hnk).
      by apply Hin2. }
    unfold gone_token, load, loaded in Hgone. destruct (paths !! t) as [p|] eqn:Ep; cbn in Hgone; [|by apply Hgone].
    destruct (concept_at cs (dir_at w sid) p) as [c|e] eqn:Ec; cycle 1.
    { assert (Hload : load t = None) by (unfold load, loaded; rewrite Ep; cbn; by rewrite Ec).
      assert (Hrw : rows w' = rows w3) by (destruct wrote; injection Hrun as <-; exact Hr4).
      destruct e; try (rewrite Hrw, Hout3 by (by apply Hnk); apply Hout2; right; unfold gone_token; rewrite Ep, Ec; tauto).
      by apply Hgone. }
    rewrite Hq'. assert (Hload : load t = Some (p, searchable_text c)) by (unfold load, loaded; rewrite Ep; cbn; by rewrite Ec).
    destruct (Hin3 p (searchable_text c)) as [Hn|(v & row & Hrow & ?)].
    + rewrite Hpairs. apply list_elem_of_omap. by exists t.
    + left. rewrite <- (Hkey _ _ _ Hload). apply Hpark4. apply list_elem_of_fmap. by exists p.
    + right. exists v, row. split; [|done]. destruct wrote; injection Hrun as <-; change (rows w4 !! row_key cs p = Some row); by rewrite Hr4.
  - intros Hred Hall. destruct Hserve3 as [-> Hred3]; [by rewrite (bs_emb _ _ Hb2), (bs_emb _ _ Hb1)|done|].
    split; [|done]. by rewrite Hnone.
Qed.

(** The keys the recovery gives do not change during the drain, and the
    items carry the identifiers their scopes have. *)
Record steady (recovery : Uuid -> option MasterKey) : Prop := { st_recovery k : ve_recovery env k = recovery }.
Definition canonical (recovery : Uuid -> option MasterKey) (sid : str) : Prop :=
  forall cs, scope_store service_key recovery sid = Some cs -> scope_id (cs_scope cs) = sid.

Lemma embedded_mono cs model p x w w' l l' : (forall t, rows w' !! (scope_id (cs_scope cs), t) = rows w !! (scope_id (cs_scope cs), t)) ->
  embedded cs model p x w l -> embedded cs model p x w' (l ++ l').
Proof.
  intros Hr (v & row & Hrow & Hf & Ha). exists v, row. unfold row_key in *. rewrite Hr. split_and!; [done|done|]. apply answered_app. by left.
Qed.
Lemma settled_mono cs model w w1 w2 l l' t : (forall t, rows w2 !! (scope_id (cs_scope cs), t) = rows w1 !! (scope_id (cs_scope cs), t)) ->
  queue_of w1 ⊆ queue_of w2 -> settled cs model w w1 l t -> settled cs model w w2 (l ++ l') t.
Proof.
  intros Hr Hq. unfold settled. destruct (_ !! t) as [p|]; [|by rewrite Hr]. destruct (concept_at _ _ _) as [c|e].
  - intros [?|?]; [left; by apply Hq|right; by eapply embedded_mono].
  - destruct e; by rewrite Hr.
Qed.
Lemma embedded_later cs model p x w l l' : embedded cs model p x w l' -> embedded cs model p x w (l ++ l').
Proof. intros (v & row & Hrow & Hf & Ha). exists v, row. split_and!; [done|done|]. apply answered_app. by right. Qed.
(** What an item is settled by depends on the concepts alone. *)
Lemma settled_from cs model w0 w w' l l' t : untouched w0 w -> (forall t, rows w !! (scope_id (cs_scope cs), t) = rows w0 !! (scope_id (cs_scope cs), t)) ->
  settled cs model w w' l' t -> settled cs model w0 w' (l ++ l') t.
Proof.
  intros [Hf _ Hd] Hr. unfold settled, scope_rows. rewrite Hf, Hd. destruct (_ !! t) as [p|]; [|done]. destruct (concept_at _ _ _) as [c|e].
  - intros [?|?]; [by left|right; by apply embedded_later].
  - destruct e; try done; by rewrite Hr.
Qed.

(** What became of a drained item of any scope: without the scope's key it
    is dropped, and its row is as it was. *)
Definition outcome (recovery : Uuid -> option MasterKey) (model : str) (w w' : VwWorld)
    (l : list (list str * result (list (list f32)) EmbeddingError)) (sid token : str) : Prop :=
  match scope_store service_key recovery sid with
  | None => rows w' !! (sid, token) = rows w !! (sid, token)
  | Some cs => settled cs model w w' l token
  end.

Lemma groups_run recovery client cfg items groups w w' : steady recovery -> (length items <= VECTOR_QUEUE_CAPACITY)%nat ->
  NoDup groups.*1 -> NoDup (flat groups) -> flat groups ⊆ items -> (forall sid, sid ∈ groups.*1 -> canonical recovery sid) ->
  NoDup (queue_of w) -> queue_of w ⊆ items ->
  each (drain_group (YE := YE) service_key client cfg) groups env w = (tt, w') ->
  NoDup (queue_of w') /\ queue_of w ⊆ queue_of w' /\ queue_of w' ⊆ items /\
  exists l, vw_log w' = vw_log w ++ l /\ (forall s t, s ∉ groups.*1 -> rows w' !! (s, t) = rows w !! (s, t)) /\
  (forall sid t, (sid, t) ∈ flat groups -> outcome recovery (emc_model cfg) w w' l sid t) /\
  (~ red (vw_emb w) -> all_served l -> queue_of w' = queue_of w /\ ~ red (vw_emb w')).
Proof.
  intros Hst Hcap. revert w. induction groups as [|[sid ts] groups IH]; intros w Hnd Hndf Hflat Hcan Hndq Hsub; cbn [each].
  { intros [= <-]. split_and!; [done|done|done|]. exists []. rewrite app_nil_r. split_and!; [done|done| |done].
    by intros sid t (ts & ?%not_elem_of_nil & _)%flat_elem. }
  rewrite fmap_cons in Hnd, Hcan. apply NoDup_cons in Hnd as [Hn Hnd].
  unfold mbind, VW_bind. destruct (drain_group service_key client cfg (sid, ts) env w) as [[] w1] eqn:E1.
  pose proof (calm_group env (fl_quiet _ Hfl) client cfg _ _ _ _ E1) as Hu. intros Hrun.
  assert (H1 : NoDup (queue_of w1) /\ queue_of w ⊆ queue_of w1 /\ queue_of w1 ⊆ items /\
    exists l, vw_log w1 = vw_log w ++ l /\ (forall s t, s <> sid -> rows w1 !! (s, t) = rows w !! (s, t)) /\
    (forall t, t ∈ ts -> outcome recovery (emc_model cfg) w w1 l sid t) /\
    (~ red (vw_emb w) -> all_served l -> queue_of w1 = queue_of w /\ ~ red (vw_emb w1))).
  { unfold drain_group, mbind, VW_bind, resolve_scope in E1. rewrite (st_recovery _ Hst) in E1. cbn [fst snd] in E1.
    unfold outcome. destruct (scope_store service_key recovery sid) as [cs|] eqn:Ecs; cycle 1.
    { injection E1 as <-. split_and!; [done|done|done|]. exists []. rewrite app_nil_r. split_and!; done. }
    pose proof (Hcan sid ltac:(left) cs Ecs) as Hid. eapply drain_scope_run in E1; [|done|done|done| |].
    - destruct E1 as (? & ? & ? & l & ? & Hout & Hset & ?). rewrite Hid in Hout. split_and!; [done|done|done|]. exists l.
      by split_and!.
    - eapply flat_NoDup; [exact Hndf|]. left.
    - rewrite Hid. intros x (t & -> & Ht)%list_elem_of_fmap. apply Hflat, flat_elem. exists ts. split; [left|done]. }
  destruct H1 as (Hnd1 & Hgrow1 & Hsub1 & l1 & Hl1 & Hout1 & Hset1 & Hserve1).
  assert (Hflat2 : flat ((sid, ts) :: groups) = (pair sid <$> ts) ++ flat groups) by done. rewrite Hflat2 in Hndf, Hflat.
  apply NoDup_app in Hndf as (_ & _ & Hndf2).
  destruct (IH w1 Hnd Hndf2) as (Hnd2 & Hgrow2 & Hsub2 & l2 & Hl2 & Hout2 & Hset2 & Hserve2).
  - intros x Hx. apply Hflat, elem_of_app. by right.
  - intros s Hs. apply Hcan. by right.
  - done.
  - done.
  - done.
  - split_and!; [done|by etrans|done|]. exists (l1 ++ l2). split_and!.
    + by rewrite Hl2, Hl1, app_assoc.
    + intros s t [Hs1 Hs2]%not_elem_of_cons. by rewrite Hout2, Hout1.
    + intros s t Hin. rewrite Hflat2 in Hin. apply elem_of_app in Hin as [(t' & [= -> ->] & Ht)%list_elem_of_fmap|Hin].
      * specialize (Hset1 t' Ht). unfold outcome in *. destruct (scope_store service_key recovery sid) as [cs|] eqn:Hcs; [|by rewrite Hout2].
        pose proof (Hcan sid ltac:(left) cs Hcs) as Hid. eapply settled_mono; [|exact Hgrow2|exact Hset1].
        intros t. rewrite Hid. by apply Hout2.
      * assert (Hs : s ∈ groups.*1) by (apply flat_elem in Hin as (ts' & Hin & _); apply list_elem_of_fmap; by exists (s, ts')).
        assert (Hne : s <> sid) by (by intros ->). specialize (Hset2 s t Hin). unfold outcome in *.
        destruct (scope_store service_key recovery s) as [cs|] eqn:Hcs; [|by rewrite Hset2, Hout1].
        pose proof (Hcan s ltac:(by right) cs Hcs) as Hid. eapply settled_from; [exact Hu| |exact Hset2].
        intros t0. rewrite Hid. by apply Hout1.
    + intros Hr Hall. destruct Hserve1 as [Hq1 Hr1]; [done|intros x e ?; apply (Hall x e), elem_of_app; by left|].
      destruct Hserve2 as [Hq2 Hr2]; [done|intros x e ?; apply (Hall x e), elem_of_app; by right|]. split; [congruence|done].
Qed.
End Faultless.

(** C19. Whatever the embeddings endpoint answers, a drain accounts for each
    item it takes.  In a scope whose key is at hand, the item is back in the
    queue, or its concept has a row with the vector the endpoint gave for its
    text, or there is no such concept any more and no row for it; the item of
    a concept that cannot be loaded, or of a scope without its key, is
    dropped, and its row is as it was.  Nothing else enters the queue, and
    when the endpoint serves every request of a machine that is not red the
    queue is empty.  (No access of the store is refused and nobody else acts
    during the drain; the queue is without duplicates and within its
    capacity, as the enqueues keep it.) *)
Theorem drain_loses_nothing env recovery client cfg w w' : seals -> faultless env -> steady env recovery ->
  NoDup (queue_of w) -> (length (queue_of w) <= VECTOR_QUEUE_CAPACITY)%nat -> (forall it, it ∈ queue_of w -> canonical recovery it.1) ->
  drain (YE := YE) service_key client cfg env w = (tt, w') ->
  exists l, vw_log w' = vw_log w ++ l /\
  (forall sid token, (sid, token) ∈ queue_of w -> outcome recovery (emc_model cfg) w w' l sid token) /\
  NoDup (queue_of w') /\ queue_of w' ⊆ queue_of w /\
  (~ red (vw_emb w) -> all_served l -> queue_of w' = []).
Proof.
  intros Hseals Hfl Hst Hnd Hlen Hcan. unfold drain, mbind, VW_bind, take_queue, drain_queue.
  fold (queue_of w). rewrite Nat.min_r, firstn_all, skipn_all by done. set (w0 := set_store _ _).
  destruct (by_scope_spec (queue_of w)) as (Hkeys & Hperm & Hfrom). intros Hrun.
  eapply (groups_run env Hfl Hseals recovery client cfg (queue_of w)) in Hrun; [|done|done|done| | | | |].
  - destruct Hrun as (Hnd' & _ & Hsub & l & Hl & _ & Hset & Hserve). exists l. split_and!; [done| |done|done|].
    + intros sid token Hin. rewrite <- Hperm in Hin. by apply Hset.
    + intros Hr Hall. by apply Hserve.
  - by rewrite Hperm.
  - intros x. by rewrite Hperm.
  - intros sid (it & -> & Hit)%Hfrom%list_elem_of_fmap. by apply Hcan.
  - constructor.
  - by intros x ?%not_elem_of_nil.
Qed.

(** ** A backend that is down

    What the machine still has to see before it turns red *)
Definition patience (w : VwWorld) : Z := Z.max 0 (RED_FAILURE_THRESHOLD - consecutive_failures (es_health (vw_emb w))).
Definition requests (w : VwWorld) : Z := Z.of_nat (length (vw_log w)).
Record spends (w w' : VwWorld) : Prop := {
  sp_conf : configured (es_health (vw_emb w)) = true -> configured (es_health (vw_emb w')) = true;
  sp_spent : configured (es_health (vw_emb w)) = true -> requests w' + patience w' <= requests w + patience w }.
#[local] Instance spends_preorder : PreOrder spends.
Proof.
  split; [by intros w|]. intros w1 w2 w3 [H1 H2] [H3 H4]. constructor; [auto|]. intros Hc. specialize (H2 Hc). specialize (H4 (H1 Hc)). lia.
Qed.
#[local] Hint Resolve spends_preorder : moves.
Definition dead (env : VwEnv) : Prop := forall n url key rq expected,
  exists e, vectors_of_answer (ve_endpoint env n url key rq) expected = Err e /\ EmbeddingError_is_backend_down e = true.

Section Dead.
Context (env : VwEnv) (Hdead : dead env).
#[local] Abbreviation frugal m := (moves spends env m).

Lemma frugal_same {A} (m : VW A) : (forall w, vw_log (m env w).2 = vw_log w /\ vw_emb (m env w).2 = vw_emb w) -> frugal m.
Proof.
  intros Hm w a w' E. specialize (Hm w). rewrite E in Hm. destruct Hm as [Hl He]. cbn in Hl, He.
  constructor; unfold requests, patience; by rewrite ?Hl, He.
Qed.
Lemma frugal_statement {A} (f : VwEnv -> nat -> World -> A * World) : frugal (statement f).
Proof. apply frugal_same. intros w. unfold statement. by destruct (f _ _ _). Qed.
Lemma frugal_vectors {A} (f : Env -> nat -> Shared -> result A VectorError * Shared) : frugal (vectors_stmt f).
Proof. apply frugal_statement. Qed.
Lemma frugal_local f : frugal (local f).
Proof. by apply frugal_same. Qed.
Lemma frugal_red : frugal is_red.
Proof. by apply frugal_same. Qed.
Lemma frugal_learned : frugal learned_dims.
Proof. by apply frugal_same. Qed.
Lemma frugal_resolve sid : frugal (resolve_scope service_key sid).
Proof. by apply frugal_same. Qed.
Lemma frugal_scope {A} cs (m : M Err' A) : frugal (on_scope cs m).
Proof. apply frugal_same. intros w. unfold on_scope. by destruct (m _ _). Qed.
Lemma frugal_take : frugal take_queue.
Proof. by apply frugal_same. Qed.
Lemma frugal_count : frugal count_processed.
Proof. by apply frugal_same. Qed.
#[local] Hint Resolve frugal_statement frugal_vectors frugal_local frugal_red frugal_learned frugal_resolve frugal_scope frugal_take frugal_count : moves.

(** A request that meets a machine that is not red uses up its patience. *)
Lemma request_dead client t texts w r w' : request client (t :: texts) env w = (r, w') -> ~ red (vw_emb w) ->
  (exists e, r = Err e) /\ spends w w'.
Proof.
  unfold request, embed_batch, embed_batch_impl.
  destruct (Hdead (length (vw_log w)) (ebc_base_url client ++ lit "/v1/embeddings") (ebc_api_key client)
    (mkEmbedRequest (ebc_model client) (take EMBED_INPUT_MAX_CHARS <$> t :: texts)) (length (t :: texts))) as (e & -> & Hdown).
  destruct (ve_between _ _ _) as [s dirs]. unfold record_emb_outcome. rewrite Hdown. intros [= <- <-] Hr. split; [by eexists|].
  unfold red, base_state in Hr. constructor; unfold requests, patience; cbn; unfold note_failure_at; intros Hc; rewrite Hc in *; cbn in *; [done|].
  rewrite length_app. cbn. unfold u32_saturating_add, u32_max, RED_FAILURE_THRESHOLD in *.
  destruct (Z.eqb_spec (consecutive_failures (es_health (vw_emb w))) 0) as [->|]; [lia|].
  destruct (Z.ltb_spec (consecutive_failures (es_health (vw_emb w))) 3); [lia|done].
Qed.
Lemma attempts_dead n first client t texts w o w' : embed_attempts n first client (t :: texts) env w = (o, w') ->
  (first = true -> ~ red (vw_emb w)) -> o = None /\ spends w w'.
Proof.
  revert first w. induction n as [|n IH]; intros first w; cbn [embed_attempts]; [by intros [= <- <-]|].
  unfold mbind at 1, VW_bind at 1. rewrite is_red_run. destruct (negb first && _) eqn:E; [by intros [= <- <-]|].
  unfold mbind, VW_bind. destruct (request client (t :: texts) env w) as [r w1] eqn:Er. intros Hrun Hf.
  destruct (request_dead _ _ _ _ _ _ Er) as ([e ->] & Hs).
  { destruct first; [by apply Hf|]. cbn in E. by apply bool_decide_eq_false in E. }
  destruct (IH _ _ Hrun) as [-> Hs2]; [done|]. split; [done|by etrans].
Qed.
Lemma frugal_batches fuel client model batch cs pairs wrote parked : (0 < batch)%nat -> frugal (embed_batches fuel client model batch cs pairs wrote parked).
Proof.
  intros Hb. revert pairs wrote parked. induction fuel as [|fuel IH]; intros [|[p x] pairs] wrote parked; cbn [embed_batches]; try (apply moves_ret, _).
  intros w a w'. unfold mbind at 1, VW_bind at 1. rewrite is_red_run. destruct (bool_decide_reflect (red (vw_emb w))) as [|Hr]; [by intros [= <- <-]|].
  unfold mbind at 1, VW_bind at 1. destruct batch as [|batch]; [lia|]. cbn [take drop fmap list_fmap snd fst].
  destruct (embed_attempts _ _ _ _ env w) as [o w1] eqn:E. destruct (attempts_dead _ _ _ _ _ _ _ _ E) as [-> Hs]; [done|].
  intros Hrun. etrans; [exact Hs|]. by eapply IH.
Qed.
Lemma frugal_embed client cfg cs pairs : frugal (embed_and_upsert client cfg cs pairs).
Proof. apply frugal_batches. lia. Qed.
#[local] Hint Resolve frugal_embed : moves.

Lemma frugal_load_tokens cs paths tokens pairs : frugal (load_tokens (YE := YE) cs paths tokens pairs).
Proof. revert pairs. induction tokens as [|token tokens IH]; intros pairs; cbn [load_tokens]; unfold belt; moving. Qed.
Lemma frugal_load_paths cs paths pairs : frugal (load_paths (YE := YE) cs paths pairs).
Proof. revert pairs. induction paths as [|path paths IH]; intros pairs; cbn [load_paths]; unfold sweep_dead_concept; moving. Qed.
#[local] Hint Resolve frugal_load_tokens frugal_load_paths : moves.
Lemma frugal_group client cfg group : frugal (drain_group (YE := YE) service_key client cfg group).
Proof. unfold drain_group, drain_scope, enqueue_path, invalidate_rows. moving. Qed.
Lemma frugal_rebuild client cfg sid : frugal (rebuild_scope (YE := YE) service_key client cfg sid).
Proof. unfold rebuild_scope, backlog, invalidate_rows. moving. Qed.
Lemma frugal_backlog model learned sid : frugal (enqueue_scope_backlog (YE := YE) service_key model learned sid).
Proof.
  unfold enqueue_scope_backlog, backlog.
  assert (forall cs p, frugal (enqueue_backlog_path (YE := YE) cs p)) as Hp by (intros; unfold enqueue_backlog_path, enqueue_path, sweep_dead_concept; moving).
  moving.
Qed.
#[local] Hint Resolve frugal_group frugal_rebuild frugal_backlog : moves.

(** While the row of the configuration is there, the machine stays configured. *)
Definition has_row : Prop := forall k, is_Some (ve_config env k !! lit "embeddings").
Lemma frugal_config : has_row -> frugal (read_config service_key).
Proof.
  intros Hrow. unfold read_config. intros w a w'. unfold mbind at 1, VW_bind at 1.
  destruct (statement _ env w) as [raw w1] eqn:E. pose proof (frugal_statement _ _ _ _ E) as Hs.
  unfold statement, raw_get in E. destruct (Hrow (w_tick (vw_store w))) as [x Hx]. rewrite Hx in E.
  intros Hrun. etrans; [exact Hs|]. assert (raw <> Ok None) as Hraw by (destruct (en_fails _ _); by injection E as <- _). clear E Hs.
  destruct raw as [[raw|]|]; [|done|by injection Hrun as <- <-]. revert Hrun.
  eassert (frugal (_ ≫= _)) as Hm; [|exact (Hm w1 a w')]. apply moves_bind; [apply _|apply frugal_statement|]. intros [cfg|]; [|apply moves_ret, _].
  apply moves_bind; [apply _| |intros _; apply moves_ret, _]. intros v b v' [= <- <-].
  constructor; unfold requests, patience; cbn; unfold note_configured; intros Hc; by rewrite !Hc.
Qed.
Lemma frugal_tick boot : has_row -> frugal (tick (YE := YE) service_key boot).
Proof.
  intros Hrow. unfold tick. refine (moves_bind _ _ _ _ _ _); [by apply frugal_config|intros [cfg|]; [|moving]].
  unfold mark_stale, drain, rebuild_stale_scopes, enqueue_boot_backlog. moving.
Qed.
End Dead.

(** C20. A backend whose every answer says it is down is asked at most three
    times, however many ticks pass and however much waits to be embedded,
    while the configuration stays in place: each failure counts, and the red
    machine is not asked. *)
Theorem dead_backend_left_alone envs boot w boot' w' : Forall dead envs -> Forall has_row envs ->
  configured (es_health (vw_emb w)) = true -> 0 <= consecutive_failures (es_health (vw_emb w)) ->
  run_ticks (YE := YE) service_key envs boot w = (boot', w') -> (length (vw_log w') <= length (vw_log w) + 3)%nat.
Proof.
  intros Hd Hr Hc Hf Hrun. enough (H : spends w w').
  { pose proof (sp_spent _ _ H Hc) as Hs. unfold requests, patience, RED_FAILURE_THRESHOLD in Hs. lia. }
  clear Hc Hf. revert boot w Hrun. induction Hd as [|env envs He _ IH]; intros boot w; simpl; [by intros [= <- <-]|].
  apply Forall_cons in Hr as [Hr1 Hr]. destruct (tick service_key boot env w) as [b w1] eqn:E. intros Hrun.
  etrans; [by eapply frugal_tick|by eapply IH].
Qed.
End Worker.

(** ** Runs *)
Module VectorDemo.
Import ConceptStoreProofs.Demo.
#[local] Existing Instances demo_aead demo_kdf wide_hex char_uuid plain_meta ascii_lowercase sample_log pair_json type_only no_strings.

Definition emb_text (c : EmbeddingsConfig) : list N :=
  [Npos (encode (emc_base_url c, emc_model c, emc_api_key c, emc_timeout_secs c, emc_batch c))].
Definition emb_of_text (s : list N) : option EmbeddingsConfig :=
  match s with
  | [Npos p] => '(u, m, k, t, b) ← (decode p : option (str * str * option str * Z * Z)); Some (mkEmbeddingsConfig u m k t b)
  | _ => None
  end.
Lemma emb_text_roundtrip c : emb_of_text (emb_text c) = Some c.
Proof. unfold emb_of_text, emb_text. rewrite decode_encode. by destruct c. Qed.
#[local] Instance emb_json : Json EmbeddingsConfig :=
  {| json_to_string := emb_text; json_from_str := emb_of_text; json_roundtrip := emb_text_roundtrip |}.

Definition key : ServiceKey := mkService [7%N].
Definition config : EmbeddingsConfig := mkEmbeddingsConfig (lit "http://e/") (lit "m") None 30 32.
Definition recovery (id : Uuid) : option MasterKey := if (id =? 5)%N then Some (demo_master 1) else None.
Definition with_endpoint (answer : EmbedRequest -> result EmbedHttp str) : VwEnv :=
  mkVwEnv calm (fun _ => <[lit "embeddings" := emb_text config]> ∅) (fun _ => recovery) (fun _ => [])
    (fun _ => 0) (fun _ _ _ rq => answer rq) (fun _ => mkArrival 1 1) (fun _ x => x).
Definition serving : VwEnv :=
  with_endpoint (fun rq => Ok (mkEmbedHttp 200 None (Ok (Ok (imap (fun i _ => at_index i [f32_one; f32_one]) (er_input rq)))))).
Definition refusing : VwEnv := with_endpoint (fun _ => Err (lit "refused")).
(** One concept, queued by its write *)
Definition w : VwWorld :=
  mkVwWorld w1 (<[scope_id (cs_scope store) := w_dir w1]> ∅) (mkEmbStatics HealthInner_default 0 0) 0 [].
Lemma faultless_with answer : faultless (with_endpoint answer).
Proof. by split. Qed.

Definition ticks (envs : list VwEnv) : bool * VwWorld := run_ticks (YE := unit) key envs true w.
Example ticks_example : (length (vw_log (ticks [serving]).2), queue_of (ticks [serving]).2, size (rows (ticks [serving]).2), (ticks [serving]).1) = (1%nat, [], 1%nat, false).
Proof. vm_compute. reflexivity. Qed.

Lemma worker_touches_no_knowledge_witness : (ticks [serving; refusing]).1 = false /\
  w_files (vw_store (ticks [serving; refusing]).2) = w_files (vw_store w).
Proof.
  split; [vm_compute; reflexivity|]. remember (ticks [serving; refusing]) as out eqn:E. destruct out as [b w']. unfold ticks in E. symmetry in E.
  assert (Hq : Forall quiet [serving; refusing]) by (repeat constructor).
  destruct (worker_touches_no_knowledge (YE := unit) key [serving; refusing] true w b w' Hq E) as [H _]. exact H.
Defined.

Lemma refusing_dead : dead refusing.
Proof. intros n url k rq expected. exists (MRequest (lit "refused")). by split. Qed.
Lemma refusing_row : has_row refusing.
Proof. intros k. exists (emb_text config). apply lookup_insert_eq. Qed.
Lemma dead_backend_left_alone_witness : length (vw_log (ticks [refusing; refusing; refusing]).2) = 3%nat /\
  (length (vw_log (ticks [refusing; refusing; refusing]).2) <= 3)%nat.
Proof.
  split; [vm_compute; reflexivity|]. remember (ticks [refusing; refusing; refusing]) as out eqn:E. destruct out as [b w']. unfold ticks in E. symmetry in E.
  assert (Hd : Forall dead [refusing; refusing; refusing]) by (repeat (apply Forall_cons; split; [exact refusing_dead|]); apply Forall_nil_2).
  assert (Hr : Forall has_row [refusing; refusing; refusing]) by (repeat (apply Forall_cons; split; [exact refusing_row|]); apply Forall_nil_2).
  assert (Hc : configured (es_health (vw_emb w)) = true) by (vm_compute; reflexivity).
  assert (Hf : 0 <= consecutive_failures (es_health (vw_emb w))) by (vm_compute; discriminate).
  assert (Hl : length (vw_log w) = 0%nat) by (vm_compute; reflexivity).
  pose proof (dead_backend_left_alone (YE := unit) key [refusing; refusing; refusing] true w b w' Hd Hr Hc Hf E) as H.
  rewrite Hl in H. exact H.
Defined.

Definition drained (env : VwEnv) : VwWorld := (drain (YE := unit) key (EmbeddingsClient_new config) config env w).2.
Lemma demo_seals : seals.
Proof. intros k n a p _. by eexists. Qed.
Lemma demo_steady answer : steady (with_endpoint answer) recovery.
Proof. by split. Qed.
Lemma demo_queue : exists token, queue_of w = [(scope_id (cs_scope store), token)].
Proof. eexists. vm_compute. reflexivity. Qed.
Lemma demo_canonical : canonical key recovery (scope_id (cs_scope store)).
Proof. intros cs. vm_compute. by intros [= <-]. Qed.
Lemma demo_green : ~ red (vw_emb w).
Proof. by vm_compute. Qed.
Lemma served : vw_log (drained serving) = [([lit "/d/a.md one"], Ok [[f32_one; f32_one]])].
Proof. vm_compute. reflexivity. Qed.
Lemma drain_loses_nothing_witness : length (queue_of w) = 1%nat /\ queue_of (drained serving) = [] /\ queue_of (drained refusing) = queue_of w.
Proof.
  split_and!; [vm_compute; reflexivity| |vm_compute; reflexivity].
  assert (E : drain (YE := unit) key (EmbeddingsClient_new config) config serving w = (tt, drained serving)).
  { unfold drained. by destruct (drain _ _ _ _ _) as [[] w']. }
  destruct demo_queue as [token Hq].
  assert (Hnd : NoDup (queue_of w)) by (rewrite Hq; apply NoDup_singleton).
  assert (Hlen : (length (queue_of w) <= VECTOR_QUEUE_CAPACITY)%nat) by (rewrite Hq; unfold VECTOR_QUEUE_CAPACITY; cbn; lia).
  assert (Hcan : forall it, it ∈ queue_of w -> canonical key recovery it.1).
  { rewrite Hq. intros it ->%list_elem_of_singleton. exact demo_canonical. }
  destruct (drain_loses_nothing (YE := unit) key serving recovery (EmbeddingsClient_new config) config w (drained serving)
    demo_seals (faultless_with _) (demo_steady _) Hnd Hlen Hcan E) as (l & Hl & _ & _ & _ & Hs).
  apply Hs; [exact demo_green|]. rewrite served in Hl. change (vw_log w) with (@nil (list str * result (list (list f32)) EmbeddingError)) in Hl.
  cbn [app] in Hl. rewrite <- Hl. intros texts e Hin%list_elem_of_singleton. discriminate Hin.
Defined.

(** A concept deleted while its text is being embedded: the row is written
    all the same.  Its path is in no list any more, so nothing removes the
    row later; after a change of model its scope is taken up by every
    rebuild. *)
Definition deleting : VwEnv :=
  mkVwEnv calm (ve_config serving) (ve_recovery serving) (ve_users serving) (ve_unix serving) (ve_endpoint serving) (ve_arrival serving)
    (fun _ x => let '(s, dirs) := x in
       let sid := scope_id (cs_scope store) in
       let s' := (run calm (ODelete (lit "/d/a.md")) (with_dir (default ∅ (dirs !! sid)) s)).2 in
       (with_dir (w_dir s) s', <[sid := w_dir s']> dirs)).
Definition later (model : string) (env : VwEnv) : VwEnv :=
  let c := mkEmbeddingsConfig (lit "http://e/") (lit model) None 30 32 in
  mkVwEnv (ve_store env) (fun _ => <[lit "embeddings" := emb_text c]> ∅) (ve_recovery env) (ve_users env) (ve_unix env) (ve_endpoint env) (ve_arrival env) (ve_between env).
Example ghost_row : let w' := (ticks [deleting; serving; later "n" serving; later "n" serving]).2 in
  (scope_rows store (vw_store w'), queue_of w', stale_scopes (rows w'), length (vw_log w')) = ([], [], [scope_id (cs_scope store)], 1%nat).
Proof. vm_compute. reflexivity. Qed.
End VectorDemo.
