(* ===== verification/Dream.v ===== *)
(** * Dreaming

    [crates/mycelium-librarian/src/dream.rs]: the signals that say what a
    bundle's consolidation has to look at, and the pass that hands them to
    the agent.  The clock reading of a pass is an argument.  A [BTreeSet] is
    the sorted list of a [gset]. *)
From S2P Require Import Prelude Float Text Clock Crypto FileRepo Concept Graph Library Health Search HotMemory JsonValue Llm Embeddings Trace Prompts Lifecycle Revisions SearchIndex Vectors ConceptStore ConceptStoreProofs Fallback Agent.
Open Scope Z_scope.

Record DreamReport := mkDreamReport {
  dr_ran : bool; dr_reason : option str; dr_summary : option str; dr_files_changed : option (list str) }.
Definition OVERSIZED_CHARS : nat := Z.to_nat 20000.
Definition DUPLICATE_SIMILARITY : f64 := f64_div (f64_of_Z 4) (f64_of_Z 5).
Definition NEIGHBORS_PER_CONCEPT : nat := 2.

(** ** The texts *)
Definition orphans_text : str :=
  lit "ORPHANED CONCEPTS (nothing links to them). Read each and wire it into genuinely related concepts; if it relates to nothing, leave it alone:" ++ [nl].
Definition broken_text : str :=
  lit "BROKEN LINKS (target missing). Fix the path if the target moved, remove the link if it is gone:" ++ [nl].
Definition duplicates_text : str :=
  lit "LIKELY DUPLICATES (title or embedding similarity). Read each pair; if they cover the same thing, merge the content into the better-placed concept, update anything that linked to the removed one, and delete the duplicate (deletion IS authorized for true duplicates after merging). If they are genuinely distinct, cross-link them instead:" ++ [nl].
Definition oversized_text : str :=
  lit "OVERSIZED CONCEPTS (grown too large through repeated enrichment). For each: if the body contains genuinely separable topics, extract each into its OWN concept (proper type/title, back-linked per the rules), then rewrite the ORIGINAL file as a hub " ++ [8212%N] ++ lit " a short summary linking to every extracted concept. NEVER delete or rename the original path; other concepts link to it. If the content is one indivisible topic, leave it alone:" ++ [nl].
Definition stale_head : str :=
  lit "STALE CONCEPTS (unchanged ".
Definition stale_text : str :=
  lit " days, wording drifts). For each pair: read both; if the recent concept covers the same ground, supersede the old one (status: superseded + superseded_by pointing at the replacement) or retire it (status: retired); if the old one still stands alone, leave it as is:" ++ [nl].
Definition expired_text : str :=
  lit "EXPIRED CONCEPTS (valid_to passed). For each: retire it (status: retired) or move its valid_to forward if the fact still holds:" ++ [nl].
Definition supersede_text : str :=
  lit "BROKEN SUPERSEDE (target missing). For each: point superseded_by at the real replacement path if it moved, or clear the supersede (frontmatter {" ++ [34%N] ++ lit "superseded_by" ++ [34%N] ++ lit ": null, " ++ [34%N] ++ lit "status" ++ [34%N] ++ lit ": null}) if there is none:" ++ [nl].
Definition disorganized_text : str :=
  lit "DISORGANIZED CONCEPTS (many consecutive patch revisions). For each: rewrite the body as a current-state summary, moving superseded/older detail under a final '# History' section (history text is excluded from search). Use patch_concept with the `body` argument " ++ [8212%N] ++ lit " this pass's patches record as `consolidate` revisions:" ++ [nl].
Definition no_signals_text : str :=
  lit "no signals: no orphans, broken links, duplicates, oversized concepts, stale pairs, expired concepts, broken supersedes, or disorganized concepts".
Definition dream_text : str :=
  lit "This is a scheduled maintenance pass over the knowledge base (a 'dream'). Address each signal below. Work through them in order; when done, summarize exactly what changed." ++ [nl] ++ [nl].
Definition consolidation_text : str :=
  lit "This is the consolidation pass of a scheduled maintenance pass over the knowledge base (a 'dream'): rewrite each listed concept's body with patch_concept's `body` argument (whole-body replace). Work through them in order; when done, summarize exactly what changed." ++ [nl] ++ [nl].

(** ** Pairs and sets *)
Definition canonical_pair (a b : str) : str * str := match str_cmp a b with Gt => (b, a) | _ => (a, b) end.
(** The pairs of an inner loop that starts behind the outer one *)
Fixpoint ordered_pairs {A} (l : list A) : list (A * A) :=
  match l with
  | [] => []
  | x :: l => (pair x <$> l) ++ ordered_pairs l
  end.
Definition by_path {A} (m : gmap str A) : list (str * A) := sort_by (fun a b => str_cmp a.1 b.1) (map_to_list m).
Definition count_cmp (a b : str * Z) : comparison := then_with (str_cmp a.1 b.1) (a.2 ?= b.2).

Section Signals.
Context {AE : Aead} {KD : Kdf} {HX : Hex} {UT : UuidText} {RF : Rfc3339} {LC : Lowercase}.

(** ** Duplicates by title *)
Definition word_set (s : str) : gset str := list_to_set (tokenize (to_lowercase s)).
Definition jaccard (a b : str) : f64 :=
  let ta := word_set a in
  let tb := word_set b in
  if bool_decide (ta = ∅) && bool_decide (tb = ∅) then f64_of_Z 1
  else
    let inter := size (ta ∩ tb) in
    let union := size (ta ∪ tb) in
    if (union =? 0)%nat then f64_of_Z 0 else f64_div (f64_of_Z (Z.of_nat inter)) (f64_of_Z (Z.of_nat union)).
Definition similar_titles (p : Concept * Concept) : bool :=
  let a := default [] (fm_title (frontmatter p.1)) in
  let b := default [] (fm_title (frontmatter p.2)) in
  negb (bool_decide (a = [])) && negb (bool_decide (b = [])) && SFleb DUPLICATE_SIMILARITY (jaccard a b).
Definition jaccard_pairs (concepts : list Concept) : gset (str * str) :=
  list_to_set ((fun p => canonical_pair (source_path p.1) (source_path p.2)) <$> retain similar_titles (ordered_pairs concepts)).

(** ** Duplicates by embedding *)
Record LiveRow := mkLiveRow { lr_path : str; lr_model : str; lr_dims : Z; lr_vec : list f32 }.
Definition live_rows (vs : VectorStore) (concepts : list Concept) (rows : list VectorRow) : list LiveRow :=
  let by_token := fold_left (fun m p => <[vec_token vs p := p]> m) (source_path <$> concepts) (∅ : gmap str str) in
  omap (fun r => p ← by_token !! vo_path_token r; Some (mkLiveRow p (vo_model r) (vo_dims r) (vo_vec r)))
    (retain (fun r => negb (vo_stale r)) rows).
Definition populated (live : list LiveRow) : bool :=
  existsb (fun r => (2 <=? length (retain (fun r' => str_eqb (lr_model r') (lr_model r)) live))%nat) live.

(** The rows of one model and dimension, in order *)
Definition row_kind (r : LiveRow) : str * Z := (lr_model r, lr_dims r).
Definition groups (live : list LiveRow) : list (list LiveRow) :=
  (fun k => retain (fun r => bool_decide (row_kind r = k)) live) <$> remove_dups (row_kind <$> live).
Definition near_cmp : f32 * str -> f32 * str -> comparison := rank_cmp fst (fun a b => str_cmp a.2 b.2).
Definition nearest (group : list LiveRow) (i : nat) (r : LiveRow) : list (f32 * str) :=
  take NEIGHBORS_PER_CONCEPT (sort_by near_cmp ((fun o => (cosine (lr_vec r) (lr_vec o), lr_path o)) <$> delete i group)).
Definition drawn (group : list LiveRow) : gset (str * str) :=
  list_to_set (concat (imap (fun i r => (fun o => canonical_pair (lr_path r) o.2) <$> nearest group i r) group)).
Definition group_pairs (threshold : f32) (group : list LiveRow) : list (str * str) :=
  if (length group <? 2)%nat then []
  else
    (fun p => canonical_pair (lr_path p.1) (lr_path p.2)) <$>
    retain (fun p => bool_decide (canonical_pair (lr_path p.1) (lr_path p.2) ∈ drawn group) &&
                     SFleb threshold (cosine (lr_vec p.1) (lr_vec p.2))) (ordered_pairs group).
Definition usable (s : BackendState) : bool := match s with Green | Yellow => true | _ => false end.
(** [rows]: what the access gives; [state]: the embeddings backend's *)
Definition cosine_candidates (vs : VectorStore) (concepts : list Concept) (rows : result (list VectorRow) VectorError)
    (state : BackendState) (threshold : f32) : gset (str * str) * gset str :=
  match rows with
  | Err _ => (∅, ∅)
  | Ok rows =>
      let live := live_rows vs concepts rows in
      if negb (usable state) && negb (populated live) then (∅, ∅)
      else (list_to_set (concat (group_pairs threshold <$> groups live)), list_to_set (lr_path <$> live))
  end.
Definition merge_candidates (concepts : list Concept) (by_cosine : gset (str * str) * gset str) : list (str * str) :=
  let '(pairs, embedded) := by_cosine in
  sort_by edge_cmp (elements (pairs ∪ jaccard_pairs (retain (fun c => bool_decide (source_path c ∉ embedded)) concepts))).

(** ** The other signals *)
Definition oversized_concepts (concepts : list Concept) : list (str * nat) :=
  (fun c => (source_path c, byte_len (body c))) <$> retain (fun c => OVERSIZED_CHARS <? byte_len (body c))%nat concepts.
Definition is_active (c : Concept) : bool := is_active_status (fm_status (frontmatter c)).
Definition parse_stamp (value : option str) : option Z := s ← value; parse_from_rfc3339 s.
Definition confirmed_age (now : Z) (c : Concept) : option Z :=
  let f := frontmatter c in
  stamp ← parse_stamp (match fm_confirmed_at f with Some s => Some s | None => fm_timestamp f end);
  Some (now - stamp).
Definition title_tag_tokens (c : Concept) : gset str :=
  ⋃ (word_set <$> (match fm_title (frontmatter c) with Some t => [t] | None => [] end ++ fm_tags (frontmatter c))).
Definition days (n : Z) : Z := n * 86400 * 1000000000.
(** A concept that can be dated, its age and its words *)
Definition dated (now : Z) (c : Concept) : option (str * Z * gset str) :=
  if negb (is_active c) then None
  else
    age ← confirmed_age now c;
    let tokens := title_tag_tokens c in
    if bool_decide (tokens = ∅) then None else Some (source_path c, age, tokens).
Definition overlappers (newer : list (str * Z * gset str)) (old : str * Z * gset str) : gset str :=
  list_to_set ((fun x => x.1.1) <$> retain (fun x => negb (str_eqb x.1.1 old.1.1) && negb (bool_decide (x.2 ∩ old.2 = ∅))) newer).
Definition stale_pairs (s : Statics) (concepts : list Concept) (now : Z) : list (str * list str) :=
  let sides := omap (dated now) concepts in
  let older := retain (fun x => days (stale_days s) <? x.1.2) sides in
  let newer := retain (fun x => x.1.2 <=? days (recent_window s)) sides in
  let out := fold_left (fun m old => let hits := overlappers newer old in
                          if bool_decide (hits = ∅) then m else <[old.1.1 := hits]> m) older (∅ : gmap str (gset str)) in
  (fun kv => (kv.1, sort_by str_cmp (elements kv.2))) <$> by_path out.

Definition expired (now : Z) (c : Concept) : bool :=
  is_active c && match parse_stamp (fm_valid_to (frontmatter c)) with Some t => t <? now | None => false end.
Definition expired_concepts (concepts : list Concept) (now : Z) : list str :=
  sort_by str_cmp (elements (list_to_set (source_path <$> retain (expired now) concepts) : gset str)).
Definition dangling (existing : gset str) (c : Concept) : option (str * str) :=
  if negb (is_active c) then None
  else
    target ← fm_superseded_by (frontmatter c);
    if bool_decide (target ∈ existing) then None else Some (source_path c, target).
Definition broken_supersede (concepts : list Concept) (existing : gset str) : list (str * str) :=
  sort_by edge_cmp (elements (list_to_set (omap (dangling existing) concepts) : gset (str * str))).
Definition disorganized (s : Statics) (counts : list (str * Z)) : list (str * Z) :=
  sort_by count_cmp (elements (list_to_set (retain (fun c => consolidation_patches s <? c.2) counts) : gset (str * Z))).
End Signals.

(** ** The sections of the instruction *)
Definition bullet (line : str) : str := lit "- " ++ line.
Definition bullets {A} (f : A -> str) (l : list A) : str := join [nl] ((fun x => bullet (f x)) <$> l).
Definition section {A} (text : str) (f : A -> str) (l : list A) : list str :=
  match l with [] => [] | _ => [text ++ bullets f l] end.
Definition pair_arrow : str := [32; 8596; 32]%N.
Definition show_Z (n : Z) : str := show_N (Z.to_N n).

(** The signals of the main pass, in their fixed order *)
Definition main_signals {RF : Rfc3339} {LC : Lowercase} (s : Statics) (now : Z) (entries : list ConceptEntry) (concepts : list Concept)
    (dupes : list (str * str)) : list str :=
  let graph := build_graph (mkBundle concepts None [] []) in
  let to (b : str * str) := b.1 ++ arrow ++ b.2 in
  section orphans_text (fun p => p) (orphans graph) ++
  section broken_text to (broken_links graph) ++
  section duplicates_text (fun d => d.1 ++ pair_arrow ++ d.2) dupes ++
  section oversized_text (fun f => f.1 ++ lit " (" ++ show_N (N.of_nat f.2) ++ lit " chars)") (oversized_concepts concepts) ++
  section (stale_head ++ show_Z (stale_days s) ++ stale_text) (fun p => p.1 ++ lit " overlapped by " ++ join (lit ", ") p.2) (stale_pairs s concepts now) ++
  section expired_text (fun p => p) (expired_concepts concepts now) ++
  section supersede_text to (broken_supersede concepts (list_to_set (ce_path <$> entries))).
Definition disorganized_section (s : Statics) (counts : list (str * Z)) : list str :=
  section disorganized_text (fun p => p.1 ++ lit " (" ++ show_Z p.2 ++ lit " consecutive patch revisions)") (disorganized s counts).

(** ** The pass *)
Section Dream.
Context {AE : Aead} {KD : Kdf} {HX : Hex} {UT : UuidText} {MJ : MetaJson} {RF : Rfc3339} {LC : Lowercase} {NL : NaturalLog} {DJ : DocJson}.
Context {YE : Type} `{!YamlCodec YE}.
Context {JT : JsonText} {TJ : TraceJson} (store_error_text : ConceptStoreError YE -> str).
Context (client : LlmClient) (store cons_store : ConceptStore) (scopes : AgentScopes).
Definition stamp_ok (s : str) : bool := is_some (parse_from_rfc3339 s).

Definition vector_rows (vs : VectorStore) : Run (result (list VectorRow) VectorError) :=
  r ← on_store (YE := YE) ShUser (access (fun env k w => (Ok (load_rows vs (sh_vecs (w_shared w)) (en_fails env k)), w)));
  mret (match r with Ok rows => rows | Err _ => Err VDb end).
Definition embedding_backend : Run BackendState := fun env w => (Ok (emb_state (aw_emb w) (ae_unix env (w_tick (aw_world w)))), w).
Definition duplicate_candidates (concepts : list Concept) (vectors : option VectorStore) : Run (list (str * str)) :=
  match vectors with
  | None => mret (merge_candidates concepts (∅, ∅))
  | Some vs =>
      rows ← vector_rows vs;
      state ← embedding_backend;
      threshold ← asks (fun env => dedup_cosine (ae_statics env));
      mret (merge_candidates concepts (cosine_candidates vs concepts rows state threshold))
  end.
Definition update_count (c : Concept) : Run (str * Z) :=
  patches ← asks (fun env => consolidation_patches (ae_statics env));
  n ← from_store store_error_text ShUser (access (fun env k w =>
        let log := revisions_of (cs_scope store) in
        (result_map_err CRevisions (consecutive_update_count (rs_scope_id log) (path_token_of log (source_path c)) (w_revs w) patches (en_fails env k)), w)));
  mret (source_path c, n).

(** One run of the agent over sections; none, no run *)
Definition agent_pass (cs : ConceptStore) (text : str) (sections : list str) : Run (list str * list str) :=
  match sections with
  | [] => mret ([], [])
  | _ =>
      r ← run_mutation stamp_ok store_error_text scopes cs client (text ++ join [nl; nl] sections);
      mret ([mr_summary r], mr_files_changed r)
  end.

(** The sections of the two passes *)
Definition dream_signals (vectors : option VectorStore) (now : Z) : Run (list str * list str) :=
  entries ← from_store store_error_text ShUser (list_concepts store);
  concepts ← from_store store_error_text ShUser (load_all store entries);
  dupes ← duplicate_candidates concepts vectors;
  statics ← asks ae_statics;
  let signals := main_signals statics now entries concepts dupes in
  counts ← collect_runs update_count concepts;
  mret (signals, disorganized_section statics counts).
Definition run_dream (vectors : option VectorStore) (now : Z) : Run DreamReport :=
  '(signals, cons_section) ← dream_signals vectors now;
  match signals, cons_section with
  | [], [] => mret (mkDreamReport false (Some no_signals_text) None None)
  | _, _ =>
      '(summary1, files1) ← agent_pass store dream_text signals;
      '(summary2, files2) ← agent_pass cons_store consolidation_text cons_section;
      mret (mkDreamReport true None (Some (join [nl; nl] (summary1 ++ summary2))) (Some (dedup (sort_by str_cmp (files1 ++ files2)))))
  end.
End Dream.
