(* ===== verification/DreamProofs.v ===== *)
(** * Properties of dreaming

    What the signals are, that a bundle without signals costs no token, and
    that a dream loses nothing without an undo. *)
From S2P Require Import Prelude Float Text Clock Crypto FileRepo Concept Graph Library Health Search HotMemory JsonValue Llm Embeddings Trace Prompts Lifecycle Revisions SearchIndex Vectors ConceptStore ConceptStoreProofs Fallback Agent AgentProofs Dream.
Open Scope Z_scope.

(** ** Pairs *)
Lemma canonical_pair_cases a b : canonical_pair a b = (a, b) \/ canonical_pair a b = (b, a).
Proof. unfold canonical_pair. destruct (str_cmp a b); auto. Qed.
Lemma canonical_pair_sym a b : canonical_pair a b = canonical_pair b a.
Proof.
  unfold canonical_pair. rewrite (str_cmp_opp a b). destruct (str_cmp a b) eqn:E; cbn; [|done..].
  by apply str_cmp_eq in E as ->.
Qed.
Lemma canonical_pair_inv a b c d : canonical_pair a b = canonical_pair c d -> (a = c /\ b = d) \/ (a = d /\ b = c).
Proof. destruct (canonical_pair_cases a b) as [-> | ->], (canonical_pair_cases c d) as [-> | ->]; intros [= -> ->]; auto. Qed.

Lemma ordered_pairs_lookup {A} (l : list A) x y : (x, y) ∈ ordered_pairs l <-> exists i j, (i < j)%nat /\ l !! i = Some x /\ l !! j = Some y.
Proof.
  induction l as [|z l IH]; cbn.
  - split; [by intros ?%not_elem_of_nil|]. intros (i & j & _ & Hi & _). by rewrite lookup_nil in Hi.
  - rewrite elem_of_app, list_elem_of_fmap, IH. split.
    + intros [(y' & [= -> ->] & Hy)|(i & j & Hij & Hi & Hj)].
      * apply list_elem_of_lookup in Hy as [j Hj]. exists 0%nat, (S j). split_and!; [lia|done|done].
      * exists (S i), (S j). split_and!; [lia|done|done].
    + intros ([|i] & [|j] & Hij & Hi & Hj); [lia| |lia|].
      * left. injection Hi as ->. exists y. split; [done|by eapply list_elem_of_lookup_2].
      * right. exists i, j. split_and!; [lia|done|done].
Qed.

Lemma size_of_list `{Countable A} (l : list A) : (size (list_to_set l : gset A) <= length l)%nat.
Proof.
  induction l as [|x l IH]; [done|]. cbn [list_to_set length]. rewrite size_union_alt, size_singleton.
  assert (size ((list_to_set l : gset A) ∖ {[x]}) <= size (list_to_set l : gset A))%nat by (apply subseteq_size; set_solver). lia.
Qed.

(** ** Duplicates by embedding *)
Section Cosine.
Context {AE : Aead} {KD : Kdf} {HX : Hex}.

Lemma groups_spec live g : g ∈ groups live -> exists k, g = retain (fun r => bool_decide (row_kind r = k)) live.
Proof. intros (k & -> & _)%list_elem_of_fmap. by exists k. Qed.
Lemma group_elem live g r : g ∈ groups live -> r ∈ g -> r ∈ live /\ forall r', r' ∈ g -> row_kind r' = row_kind r.
Proof.
  intros [k ->]%groups_spec [Hr Hk%bool_decide_eq_true]%elem_of_retain. split; [done|].
  intros r' [_ Hk'%bool_decide_eq_true]%elem_of_retain. congruence.
Qed.
Lemma groups_length live : sum_list (length <$> groups live) = length live.
Proof.
  unfold groups. assert (Hdup : NoDup (remove_dups (row_kind <$> live))) by apply NoDup_remove_dups.
  assert (Hall : forall r, r ∈ live -> row_kind r ∈ remove_dups (row_kind <$> live)).
  { intros r Hr. apply elem_of_remove_dups, list_elem_of_fmap. by exists r. }
  revert Hall. generalize dependent (remove_dups (row_kind <$> live)). intros ks Hnd Hall.
  revert live Hall. induction ks as [|k ks IH]; intros live Hall.
  { destruct live as [|r live]; [done|]. exfalso. by apply (not_elem_of_nil (row_kind r)), Hall; left. }
  apply NoDup_cons in Hnd as [Hk Hnd]. cbn.
  assert (Hrest : (fun k' => retain (fun r => bool_decide (row_kind r = k')) live) <$> ks =
    (fun k' => retain (fun r => bool_decide (row_kind r = k')) (retain (fun r => negb (bool_decide (row_kind r = k))) live)) <$> ks).
  { apply list_fmap_ext. intros i k' Hk'. rewrite retain_retain. apply retain_ext. intros r _.
    destruct (bool_decide_reflect (row_kind r = k')) as [->|]; [|by rewrite andb_false_r]. rewrite andb_true_r.
    symmetry. apply negb_true_iff, bool_decide_eq_false. intros ->. apply Hk. by eapply list_elem_of_lookup_2. }
  rewrite Hrest, IH; [|done|].
  - clear. induction live as [|r live IH]; [done|]. cbn. destruct (bool_decide _); cbn; lia.
  - intros r [Hr Hn]%elem_of_retain. specialize (Hall r Hr). apply elem_of_cons in Hall as [Heq|?]; [|done].
    rewrite Heq in Hn. by rewrite bool_decide_true in Hn.
Qed.

(** A row draws one of its nearest neighbours. *)
Definition draws (g : list LiveRow) (i : nat) (r : LiveRow) (p : str) : Prop := exists c, (c, p) ∈ nearest g i r.
Lemma drawn_elem g q : q ∈ drawn g <-> exists i r p, g !! i = Some r /\ draws g i r p /\ q = canonical_pair (lr_path r) p.
Proof.
  unfold drawn, draws. rewrite elem_of_list_to_set, list_elem_of_In, in_concat. setoid_rewrite <- list_elem_of_In. split.
  - intros (l & Hl & Hq). apply elem_of_lookup_imap in Hl as (i & r & -> & Hi). apply list_elem_of_fmap in Hq as ([c p] & -> & Hn).
    exists i, r, p. split_and!; [done|by exists c|done].
  - intros (i & r & p & Hi & [c Hn] & ->). eexists. split; [apply elem_of_lookup_imap; by exists i, r|].
    apply list_elem_of_fmap. by exists (c, p).
Qed.
Lemma drawn_size g : (size (drawn g) <= NEIGHBORS_PER_CONCEPT * length g)%nat.
Proof.
  unfold drawn. etrans; [apply size_of_list|]. rewrite length_concat.
  assert (H : forall (f : nat -> LiveRow -> list (str * str)) l, (forall i r, (length (f i r) <= NEIGHBORS_PER_CONCEPT)%nat) ->
    (list_sum (length <$> imap f l) <= NEIGHBORS_PER_CONCEPT * length l)%nat).
  { intros f l Hf. revert f Hf. induction l as [|r l IH]; intros f Hf; [done|]. cbn [imap fmap list_fmap list_sum foldr length].
    specialize (IH (f ∘ S) (fun i => Hf (S i))). specialize (Hf 0%nat r). unfold list_sum in *. lia. }
  apply H. intros i r. rewrite length_fmap. unfold nearest. rewrite length_take. lia.
Qed.
End Cosine.

Section Duplicates.
Context {AE : Aead} {KD : Kdf} {HX : Hex} {LC : Lowercase}.

(** A pair of rows of one model and dimension, similar enough, of which a
    row drew the other (or one of its path) among its nearest *)
Definition near_pair (live : list LiveRow) (threshold : f32) (q : str * str) : Prop :=
  exists g, g ∈ groups live /\
    (exists i j a b, (i < j)%nat /\ g !! i = Some a /\ g !! j = Some b /\
       SFleb threshold (cosine (lr_vec a) (lr_vec b)) = true /\ q = canonical_pair (lr_path a) (lr_path b)) /\
    (exists i r p, g !! i = Some r /\ draws g i r p /\ q = canonical_pair (lr_path r) p).
Definition similar_pair (concepts : list Concept) (q : str * str) : Prop :=
  exists i j a b, (i < j)%nat /\ concepts !! i = Some a /\ concepts !! j = Some b /\ similar_titles (a, b) = true /\
    q = canonical_pair (source_path a) (source_path b).

Lemma group_pairs_elem threshold g q : q ∈ group_pairs threshold g <->
  (exists i j a b, (i < j)%nat /\ g !! i = Some a /\ g !! j = Some b /\ SFleb threshold (cosine (lr_vec a) (lr_vec b)) = true /\
     q = canonical_pair (lr_path a) (lr_path b)) /\ q ∈ drawn g.
Proof.
  unfold group_pairs. destruct (Nat.ltb_spec (length g) 2) as [Hlen|Hlen].
  - split; [by intros ?%not_elem_of_nil|]. intros [(i & j & a & b & Hij & Hi%lookup_lt_Some & Hj%lookup_lt_Some & _) _]. lia.
  - rewrite list_elem_of_fmap. split.
    + intros ([a b] & -> & [Hp [Hd%bool_decide_eq_true Hc]%andb_true_iff]%elem_of_retain). cbn in *.
      apply ordered_pairs_lookup in Hp as (i & j & Hij & Hi & Hj). split; [|done]. by exists i, j, a, b.
    + intros [(i & j & a & b & Hij & Hi & Hj & Hc & ->) Hd]. exists (a, b). split; [done|]. apply elem_of_retain. cbn.
      rewrite Hc, bool_decide_true by done. split; [|done]. apply ordered_pairs_lookup. by exists i, j.
Qed.
Lemma near_pair_spec live threshold q : q ∈ concat (group_pairs threshold <$> groups live) <-> near_pair live threshold q.
Proof.
  rewrite list_elem_of_In, in_concat. setoid_rewrite <- list_elem_of_In. unfold near_pair. split.
  - intros (l & (g & -> & Hg)%list_elem_of_fmap & [Hp Hd]%group_pairs_elem). exists g. by rewrite <- drawn_elem.
  - intros (g & Hg & Hp & Hd). exists (group_pairs threshold g). split; [by apply list_elem_of_fmap_2|].
    apply group_pairs_elem. by rewrite drawn_elem.
Qed.
Lemma near_pairs_few live threshold l : NoDup l -> (forall q, q ∈ l -> near_pair live threshold q) ->
  (length l <= NEIGHBORS_PER_CONCEPT * length live)%nat.
Proof.
  intros Hnd Hin. rewrite <- (groups_length live).
  assert (Hsub : (list_to_set l : gset (str * str)) ⊆ ⋃ (drawn <$> groups live)).
  { intros q Hq%elem_of_list_to_set. destruct (Hin q Hq) as (g & Hg & _ & Hd). apply elem_of_union_list. exists (drawn g).
    split; [by apply list_elem_of_fmap_2|by apply drawn_elem]. }
  apply subseteq_size in Hsub. rewrite size_list_to_set in Hsub by done. etrans; [exact Hsub|]. clear.
  induction (groups live) as [|g gs IH]; [done|]. cbn [fmap list_fmap]. rewrite union_list_cons, size_union_alt.
  pose proof (drawn_size g) as Hg. pose proof (subseteq_size (⋃ (drawn <$> gs) ∖ drawn g) (⋃ (drawn <$> gs)) ltac:(set_solver)) as Hrest.
  change (sum_list (length g :: (length <$> gs))) with (length g + sum_list (length <$> gs))%nat. lia.
Qed.
Lemma jaccard_pairs_elem concepts q : q ∈ jaccard_pairs concepts <-> similar_pair concepts q.
Proof.
  unfold jaccard_pairs, similar_pair. rewrite elem_of_list_to_set, list_elem_of_fmap. split.
  - intros ([a b] & -> & [Hp Hs]%elem_of_retain). apply ordered_pairs_lookup in Hp as (i & j & ? & ? & ?). by exists i, j, a, b.
  - intros (i & j & a & b & ? & ? & ? & Hs & ->). exists (a, b). split; [done|]. apply elem_of_retain. split; [|done].
    apply ordered_pairs_lookup. by exists i, j.
Qed.

(** The duplicate signal: in increasing order, the near pairs of the rows
    with an embedding when the backend can be asked or a model has two rows,
    and otherwise only pairs of similar titles; a concept with a live fresh
    row is then left to the embeddings.  Of the first kind there are at most
    two for each row. *)
Theorem duplicate_signal_spec vs concepts rows state threshold :
  let live := live_rows vs concepts rows in
  let by_vector := usable state || populated live in
  let titles := if by_vector then retain (fun c => bool_decide (source_path c ∉ lr_path <$> live)) concepts else concepts in
  let dupes := merge_candidates concepts (cosine_candidates vs concepts (Ok rows) state threshold) in
  increasing edge_cmp dupes /\
  (forall q, q ∈ dupes <-> (by_vector = true /\ near_pair live threshold q) \/ similar_pair titles q) /\
  (forall l, NoDup l -> (forall q, q ∈ l -> near_pair live threshold q) -> (length l <= NEIGHBORS_PER_CONCEPT * length live)%nat).
Proof.
  intros live by_vector titles dupes. split_and!; [| |intros l; apply near_pairs_few].
  - unfold dupes, merge_candidates. destruct (cosine_candidates _ _ _ _ _). apply sort_by_increasing; [apply edge_cmp_eq|apply edge_cmp_total|apply NoDup_elements].
  - intros q. unfold dupes, merge_candidates, cosine_candidates. fold live. rewrite <- negb_orb. fold by_vector. unfold titles.
    destruct by_vector; cbn [negb]; rewrite sort_by_perm, elem_of_elements, elem_of_union, jaccard_pairs_elem.
    + rewrite elem_of_list_to_set, near_pair_spec.
      assert (retain (fun c => bool_decide (source_path c ∉ (list_to_set (lr_path <$> live) : gset str))) concepts =
              retain (fun c => bool_decide (source_path c ∉ lr_path <$> live)) concepts) as -> by
        (apply retain_ext; intros c _; apply bool_decide_ext; by rewrite elem_of_list_to_set).
      naive_solver.
    + rewrite elem_of_empty. rewrite (retain_all _ concepts); [naive_solver|]. apply Forall_forall. intros c _. apply bool_decide_eq_true. set_solver.
Qed.
End Duplicates.

(** ** Stale pairs *)
Section Stale.
Context {RF : Rfc3339} {LC : Lowercase}.

Lemma dated_path now c x : dated now c = Some x -> x.1.1 = source_path c.
Proof.
  unfold dated. destruct (negb (is_active c)); [done|]. destruct (confirmed_age now c) as [age|]; [|done]. cbn.
  destruct (bool_decide _); [done|]. by intros [= <-].
Qed.
Lemma dated_nodup now concepts : NoDup (source_path <$> concepts) -> NoDup ((fun x => x.1.1) <$> omap (dated now) concepts).
Proof.
  intros Hnd. eapply sublist_NoDup; [exact Hnd|]. clear Hnd. induction concepts as [|c l IH]; cbn; [done|].
  destruct (dated now c) as [x|] eqn:E; cbn; [|by constructor]. rewrite (dated_path _ _ _ E). by constructor.
Qed.
Lemma overlappers_elem newer old p : p ∈ overlappers newer old <->
  exists x, x ∈ newer /\ x.1.1 = p /\ p <> old.1.1 /\ x.2 ∩ old.2 <> ∅.
Proof.
  unfold overlappers. rewrite elem_of_list_to_set, list_elem_of_fmap. split.
  - intros (x & -> & [Hx [Hp Ho]%andb_true_iff]%elem_of_retain). exists x. split_and!; [done|done| |].
    + intros Heq. rewrite Heq, (proj2 (str_eqb_eq _ _) eq_refl) in Hp. done.
    + by apply negb_true_iff, bool_decide_eq_false in Ho.
  - intros (x & Hx & <- & Hp & Ho). exists x. split; [done|]. apply elem_of_retain. split; [done|]. apply andb_true_iff. split.
    + apply negb_true_iff. by rewrite str_eqb_decide, bool_decide_false.
    + by apply negb_true_iff, bool_decide_eq_false.
Qed.
Lemma stale_fold newer older p hits : NoDup ((fun x : str * Z * gset str => x.1.1) <$> older) ->
  fold_left (fun m old => let h := overlappers newer old in if bool_decide (h = ∅) then m else <[old.1.1 := h]> m) older (∅ : gmap str (gset str)) !! p
    = Some hits <-> exists old, old ∈ older /\ old.1.1 = p /\ overlappers newer old = hits /\ hits <> ∅.
Proof.
  intros Hnd. enough (H : forall m : gmap str (gset str), (forall x, x ∈ older -> m !! x.1.1 = None) ->
    fold_left (fun m old => let h := overlappers newer old in if bool_decide (h = ∅) then m else <[old.1.1 := h]> m) older m !! p = Some hits <->
    m !! p = Some hits \/ exists old, old ∈ older /\ old.1.1 = p /\ overlappers newer old = hits /\ hits <> ∅).
  { rewrite H; [|intros x _; apply lookup_empty]. rewrite lookup_empty. naive_solver. }
  induction older as [|old older IH]; intros m Hm; cbn.
  { split; [by left|]. intros [?|(? & ?%not_elem_of_nil & _)]; done. }
  rewrite fmap_cons in Hnd. apply NoDup_cons in Hnd as [Hn Hnd].
  assert (Hne : forall x, x ∈ older -> x.1.1 <> old.1.1) by (intros x Hx Heq; apply Hn; rewrite <- Heq; apply list_elem_of_fmap; by exists x).
  destruct (bool_decide_reflect (overlappers newer old = ∅)) as [He|He]; rewrite IH; try done.
  - split; [intros [?|(x & ? & ?)]; [by left|right; exists x; split; [by right|done]]|].
    intros [?|(x & [->|Hx]%elem_of_cons & Hp & Hh & Hne')]; [by left|congruence|right; by exists x].
  - intros x Hx. apply Hm. by right.
  - split.
    + intros [[[<- <-]|[_ ?]]%lookup_insert_Some|(x & Hx & Hp & ?)]; [right; exists old; split; [left|done]|by left|right; exists x; split; [by right|done]].
    + intros [Hp|(x & [->|Hx]%elem_of_cons & Hp & Hh & Hne')].
      * left. apply lookup_insert_Some. right. split; [|done]. intros Heq. rewrite <- Heq, Hm in Hp by left. done.
      * left. apply lookup_insert_Some. left. by rewrite Hh.
      * right. by exists x.
  - intros x Hx. rewrite lookup_insert_ne; [apply Hm; by right|]. intros Heq. by apply (Hne x Hx).
Qed.
Lemma by_path_spec {A} (m : gmap str A) : increasing str_cmp (by_path m).*1 /\ forall kv, kv ∈ by_path m <-> m !! kv.1 = Some kv.2.
Proof.
  unfold by_path. split; [|intros [k v]; by rewrite sort_by_perm, elem_of_map_to_list].
  assert (Hnd : NoDup (map_to_list m).*1) by apply NoDup_fst_map_to_list.
  assert (Hs : StronglySorted (ordered (fun a b : str * A => str_cmp a.1 b.1)) (sort_by (fun a b => str_cmp a.1 b.1) (map_to_list m))).
  { apply (sort_by_sorted _ (fun _ => True)); [|by apply Forall_true]. destruct (str_cmp_total (fun _ => True)) as [Ht Htr].
    split; intros; unfold ordered in *; [by apply Ht|by eapply Htr]. }
  rewrite <- (sort_by_perm (fun a b => str_cmp a.1 b.1)) in Hnd. induction Hs as [|x l _ IH Hx]; cbn; [constructor|].
  rewrite fmap_cons in Hnd. apply NoDup_cons in Hnd as [Hn Hnd]. constructor; [by apply IH|].
  apply Forall_forall. intros k (y & -> & Hy)%list_elem_of_fmap. rewrite Forall_forall in Hx. specialize (Hx y Hy). unfold ordered in Hx.
  destruct (str_cmp x.1 y.1) eqn:E; [|done|done]. apply str_cmp_eq in E. exfalso. apply Hn. rewrite E. apply list_elem_of_fmap. by exists y.
Qed.

(** The staleness signal, exactly: by path, each active concept with words
    of its own that was confirmed longer ago than the setting says and that
    some other concept, confirmed recently, shares a word with; with it, by
    path and once, all of those. *)
Theorem stale_pairs_spec s concepts now : NoDup (source_path <$> concepts) ->
  let out := stale_pairs s concepts now in
  increasing str_cmp out.*1 /\
  forall old hits, (old, hits) ∈ out <-> hits <> [] /\ increasing str_cmp hits /\
    exists c age words, c ∈ concepts /\ dated now c = Some (old, age, words) /\ days (stale_days s) < age /\
      forall p, p ∈ hits <-> exists c' age' words', c' ∈ concepts /\ dated now c' = Some (p, age', words') /\
        age' <= days (recent_window s) /\ p <> old /\ words' ∩ words <> ∅.
Proof.
  intros Hnd out. unfold out, stale_pairs. set (sides := omap (dated now) concepts). set (newer := retain _ sides).
  set (m := fold_left _ _ _). destruct (by_path_spec m) as [Hinc Hmem].
  assert (Hsides : forall x, x ∈ sides <-> exists c, c ∈ concepts /\ dated now c = Some x).
  { intros x. unfold sides. rewrite list_elem_of_omap. naive_solver. }
  assert (Hm : forall p hits, m !! p = Some hits <-> exists old, (old ∈ sides /\ days (stale_days s) < old.1.2) /\ old.1.1 = p /\ overlappers newer old = hits /\ hits <> ∅).
  { intros p hits. unfold m. rewrite stale_fold.
    - setoid_rewrite elem_of_retain. by setoid_rewrite Z.ltb_lt.
    - eapply sublist_NoDup; [by apply (dated_nodup now)|]. fold sides. clear. induction sides as [|x l IH]; cbn; [done|]. destruct (_ <? _); cbn; by constructor. }
  assert (Hover : forall old p, p ∈ overlappers newer old <-> exists c' age' words', c' ∈ concepts /\ dated now c' = Some (p, age', words') /\
        age' <= days (recent_window s) /\ p <> old.1.1 /\ words' ∩ old.2 <> ∅).
  { intros old p. rewrite overlappers_elem. unfold newer. split.
    - intros ([[p' age'] words'] & [(c' & Hc' & Hd)%Hsides Hage%Z.leb_le]%elem_of_retain & Hp & Hne & Ho). cbn in *. subst p'. by exists c', age', words'.
    - intros (c' & age' & words' & Hc' & Hd & Hage & Hne & Ho). exists (p, age', words'). split_and!; [|done|done|done].
      apply elem_of_retain. split; [apply Hsides; by exists c'|by apply Z.leb_le]. }
  split; [by rewrite <- list_fmap_compose|].
  assert (Hsorted : forall X : gset str, increasing str_cmp (sort_by str_cmp (elements X))).
  { intros X. apply sort_by_increasing; [apply str_cmp_eq|apply str_cmp_total|apply NoDup_elements]. }
  intros old hits. rewrite list_elem_of_fmap. split.
  - intros ([k X] & [= -> ->] & Hk%Hmem). cbn in Hk. apply Hm in Hk as ([[p age] words] & [(c & Hc & Hd)%Hsides Hage] & <- & Ho & Hne). cbn in *.
    split_and!; [|apply Hsorted|].
    + intros He. apply Hne. apply set_eq. intros x. rewrite <- elem_of_elements, <- (sort_by_perm str_cmp), He. set_solver.
    + exists c, age, words. split_and!; [done|done|done|]. intros q. rewrite sort_by_perm, elem_of_elements, <- Ho. apply (Hover (p, age, words)).
  - intros (Hne & Hinc' & c & age & words & Hc & Hd & Hage & Hhits).
    assert (Hset : forall q, q ∈ hits <-> q ∈ overlappers newer (old, age, words)) by (intros q; by rewrite Hhits, Hover).
    exists (old, overlappers newer (old, age, words)). split.
    + cbn. f_equal. apply (increasing_ext str_cmp); [apply str_cmp_eq|apply str_cmp_lt_trans|done|apply Hsorted|].
      intros q. by rewrite sort_by_perm, elem_of_elements.
    + apply Hmem. cbn. apply Hm. exists (old, age, words). split_and!; [apply Hsides; by exists c|done|done|done|].
      intros He. apply Hne. destruct hits as [|q hits]; [done|]. exfalso. apply (not_elem_of_empty (C := gset str) q). rewrite <- He. apply Hset. left.
Qed.
End Stale.

(** ** The pass *)
Section Pass.
Context {AE : Aead} {KD : Kdf} {HX : Hex} {UT : UuidText} {MJ : MetaJson} {RF : Rfc3339} {LC : Lowercase} {NL : NaturalLog} {DJ : DocJson}.
Context {YE : Type} `{!YamlCodec YE}.
Context {JT : JsonText} {TJ : TraceJson} (store_error_text : ConceptStoreError YE -> str).
Context (client : LlmClient) (store cons_store : ConceptStore) (scopes : AgentScopes).
#[local] Abbreviation Err' := (ConceptStoreError YE).
#[local] Hint Resolve read_only_preorder within_read reads_get reads_list reads_load within_from_store : within.

Lemma within_signals env vectors now : within read_only env (dream_signals store_error_text store vectors now).
Proof.
  unfold dream_signals, duplicate_candidates, vector_rows, update_count.
  assert (Hb : within read_only env embedding_backend) by by intros w r w' [= <- <-].
  repeat first [ solve [eauto with within] | apply within_from_store; by apply reads_access | apply within_read; by apply reads_access
               | refine (within_collect _ _ _ _ _); intros ? | refine (within_bind _ _ _ _ _ _); [|intros ?] | case_match ].
Qed.

(** What a run of the agent over an instruction asks *)
Definition asked_for (instruction : str) (log : list (list ConversationTurn * result StepOutput LlmError)) : Prop :=
  exchange [CtUser instruction] log /\ (length log <= MAX_STEPS)%nat.
Lemma mutation_asked cs instruction env w r w' :
  run_mutation stamp_ok store_error_text scopes cs client instruction env w = (r, w') ->
  exists log, aw_asked w' = aw_asked w ++ log /\ asked_for instruction log /\ (is_Some (result_ok r) -> log <> []).
Proof.
  unfold run_mutation, run_mutation_capped. unfold mbind at 1, Run_bind at 1.
  destruct (build_system_prompt _ _ _ env w) as [[system|e] w1] eqn:Ep; apply within_prompt in Ep as []; cycle 1.
  { intros [= <- <-]. exists []. rewrite app_nil_r. split; [done|]. split; [split; [constructor|cbn; lia]|by intros []]. }
  unfold agent_loop_tracked. unfold mbind at 1, Run_bind at 1. unfold mbind at 1, Run_bind at 1. cbn [new_recorder modify].
  unfold mbind at 1, Run_bind at 1. destruct (agent_steps _ _ _ _ _ _ _ _ _ _ _ _ _ env (set_steps [] w1)) as [x w2] eqn:E.
  destruct (agent_steps_spec _ _ _ _ _ _ _ _ _ _ _ _ _ _ _ _ _ E) as (log & [Ha Hx Hb Hend _ _ _ _]). cbn in Ha. rewrite ro_asked in Ha.
  intros Hrun. exists log. assert (Hw : aw_asked w' = aw_asked w2 /\ (is_Some (result_ok r) -> exists a f, x = Ok (Some a, f))).
  { unfold mbind, Run_bind in Hrun. destruct x as [[[answer|] files]|e].
    - destruct (finish_trace _ _ _ _ _ env w2) as [y w3] eqn:Et. apply trace_only in Et as (-> & _ & Hq).
      injection Hrun as <- <-. split; [done|]. intros _. by eexists _, _.
    - destruct (finish_trace _ _ _ _ _ env w2) as [y w3] eqn:Et. apply trace_only in Et as (-> & _ & Hq).
      injection Hrun as <- <-. split; [done|]. by intros [].
    - injection Hrun as <- <-. split; [done|]. by intros []. }
  destruct Hw as [-> Hok]. split; [done|]. split; [by split|]. intros Hr He. destruct (Hok Hr) as (a & f & ->). subst log. destruct Hend as [c [=]].
Qed.
Lemma pass_asked cs text sections env w r w' :
  agent_pass store_error_text client scopes cs text sections env w = (r, w') ->
  exists log, aw_asked w' = aw_asked w ++ log /\
  match sections with
  | [] => log = [] /\ r = Ok ([], []) /\ w' = w
  | _ => asked_for (text ++ join [nl; nl] sections) log /\ (is_Some (result_ok r) -> log <> [])
  end.
Proof.
  unfold agent_pass. destruct sections as [|s sections]; [intros [= <- <-]; exists []; by rewrite app_nil_r|].
  unfold mbind, Run_bind. destruct (run_mutation _ _ _ _ _ _ env w) as [x w1] eqn:E.
  destruct (mutation_asked _ _ _ _ _ _ E) as (log & Ha & Hfor & Hok). intros Hrun. exists log.
  destruct x as [x|e]; injection Hrun as <- <-; (split; [done|]); (split; [done|]); [intros _; apply Hok; by eexists|by intros []].
Qed.

(** The questions of a pass over [sections]: none without sections *)
Definition asks_for (text : str) (sections : list str) (log : list (list ConversationTurn * result StepOutput LlmError)) (ok : Prop) : Prop :=
  match sections with
  | [] => log = []
  | _ => asked_for (text ++ join [nl; nl] sections) log /\ (ok -> log <> [])
  end.

(** C16. A dream asks the model exactly for what its signals say.  Gathering
    them only reads.  Without a signal nothing is asked and the report says
    so.  Otherwise the main pass comes first: it asks for the sections of
    the main signals, if there are any, in an exchange of the tool protocol
    that starts with the instruction, of at most [MAX_STEPS] questions.  When
    it fails, the dream fails with its error and that is all: nothing more
    is asked or changed.  When it went well, the consolidation pass asks in
    the same way for the disorganized concepts, if there are any, and its
    end is the dream's: its error, or the report of the summaries and files
    of both passes, each of which asked at least once for its sections. *)
Theorem dream_passes vectors now env w r w' : run_dream store_error_text client store cons_store scopes vectors now env w = (r, w') ->
  let '(gathered, w1) := dream_signals store_error_text store vectors now env w in
  let pass cs := agent_pass store_error_text client scopes cs in
  read_only w w1 /\
  match gathered with
  | Err e => r = Err e /\ w' = w1
  | Ok ([], []) => r = Ok (mkDreamReport false (Some no_signals_text) None None) /\ w' = w1
  | Ok (signals, cons_section) =>
      exists x1 w2 log1, pass store dream_text signals env w1 = (x1, w2) /\
      aw_asked w2 = aw_asked w ++ log1 /\ asks_for dream_text signals log1 (is_Some (result_ok x1)) /\
      match x1 with
      | Err e => r = Err e /\ w' = w2
      | Ok (summary1, files1) =>
          exists x2 log2, pass cons_store consolidation_text cons_section env w2 = (x2, w') /\
          aw_asked w' = aw_asked w2 ++ log2 /\ asks_for consolidation_text cons_section log2 (is_Some (result_ok x2)) /\
          r = match x2 with
              | Err e => Err e
              | Ok (summary2, files2) =>
                  Ok (mkDreamReport true None (Some (join [nl; nl] (summary1 ++ summary2))) (Some (dedup (sort_by str_cmp (files1 ++ files2)))))
              end
      end
  end.
Proof.
  unfold run_dream. unfold mbind at 1, Run_bind at 1. destruct (dream_signals _ _ _ _ env w) as [gathered w1] eqn:Eg.
  pose proof (within_signals _ _ _ _ _ _ Eg) as Hro. intros Hrun. split; [done|].
  set (pass cs := agent_pass store_error_text client scopes cs).
  destruct gathered as [[signals cons_section]|e]; [|by injection Hrun as <- <-].
  assert (Hpass : (s1 ← pass store dream_text signals;
      let '(summary1, files1) := s1 in
      s2 ← pass cons_store consolidation_text cons_section;
      let '(summary2, files2) := s2 in
      mret (mkDreamReport true None (Some (join [nl; nl] (summary1 ++ summary2))) (Some (dedup (sort_by str_cmp (files1 ++ files2))))) : Run DreamReport) env w1 = (r, w') ->
    exists x1 w2 log1, pass store dream_text signals env w1 = (x1, w2) /\
      aw_asked w2 = aw_asked w ++ log1 /\ asks_for dream_text signals log1 (is_Some (result_ok x1)) /\
      match x1 with
      | Err e => r = Err e /\ w' = w2
      | Ok (summary1, files1) =>
          exists x2 log2, pass cons_store consolidation_text cons_section env w2 = (x2, w') /\
          aw_asked w' = aw_asked w2 ++ log2 /\ asks_for consolidation_text cons_section log2 (is_Some (result_ok x2)) /\
          r = match x2 with
              | Err e => Err e
              | Ok (summary2, files2) =>
                  Ok (mkDreamReport true None (Some (join [nl; nl] (summary1 ++ summary2))) (Some (dedup (sort_by str_cmp (files1 ++ files2)))))
              end
      end).
  { clear Hrun. unfold mbind at 1, Run_bind at 1. destruct (pass store dream_text signals env w1) as [x1 w2] eqn:E1.
    destruct (pass_asked _ _ _ _ _ _ _ E1) as (log1 & Ha1 & H1). rewrite (ro_asked _ _ Hro) in Ha1.
    assert (Hs : asks_for dream_text signals log1 (is_Some (result_ok x1))) by (destruct signals; apply H1).
    intros Hrun. exists x1, w2, log1. split_and!; [done..|]. destruct x1 as [[summary1 files1]|e]; [|by injection Hrun as <- <-].
    revert Hrun. unfold mbind, Run_bind. destruct (pass cons_store _ _ env w2) as [x2 w3] eqn:E2.
    destruct (pass_asked _ _ _ _ _ _ _ E2) as (log2 & Ha2 & H2).
    assert (Hs2 : asks_for consolidation_text cons_section log2 (is_Some (result_ok x2))) by (destruct cons_section; apply H2).
    intros Hrun. exists x2, log2. destruct x2 as [[summary2 files2]|e]; injection Hrun as <- <-; by split_and!. }
  destruct signals, cons_section; [by injection Hrun as <- <-|by apply Hpass..].
Qed.

(** ** Undo *)
Section Undo.
Context (Hnc : no_collisions) (low : Z) (env : AgentEnv) (noise : nat -> Z).
Context (Hroot : meta_fits (lit "/index.md")) (Hlow : 1 <= low) (Henv : env_ok low (ae_store env)).
#[local] Abbreviation sc := (cs_scope store).
Context (Hsame : cs_scope cons_store = sc) (Htag : cs_revision_op store <> Some (lit "create")) (Htag' : cs_revision_op cons_store <> Some (lit "create")).
Context (Hothers : forall n s, Inv stamp_ok sc s -> exists k, k <= noise n /\ history stamp_ok sc low true k s (ae_between env n s)).

#[local] Abbreviation logs m := (records_log stamp_ok store low env noise m).
Lemma pass_records cs text sections : cs_scope cs = sc -> cs_revision_op cs <> Some (lit "create") ->
  logs (agent_pass store_error_text client scopes cs text sections).
Proof.
  intros Hsc Ht. unfold agent_pass. destruct sections as [|s sections].
  { intros w r w' HI [= <- <-] _. exists [], 0. rewrite app_nil_r. split_and!; [done|simpl; lia|apply h_nil]. }
  assert (Hm : records_log stamp_ok cs low env noise (run_mutation stamp_ok store_error_text scopes cs client (text ++ join [nl; nl] (s :: sections)))).
  { unfold run_mutation. eapply entry_records; try done; [by rewrite Hsc|constructor]. }
  unfold records_log in *. rewrite Hsc in Hm. apply records_tail; [done|]. intros x w r w'. by intros [= <- <-].
Qed.
Lemma dream_records vectors now : logs (run_dream store_error_text client store cons_store scopes vectors now).
Proof.
  unfold run_dream. apply (records_bind stamp_ok store Hnc low env Hroot Hlow); [apply within_signals|]. intros [signals cons_section].
  assert (H : logs (s1 ← agent_pass store_error_text client scopes store dream_text signals;
      let '(summary1, files1) := s1 in
      s2 ← agent_pass store_error_text client scopes cons_store consolidation_text cons_section;
      let '(summary2, files2) := s2 in
      mret (mkDreamReport true None (Some (join [nl; nl] (summary1 ++ summary2))) (Some (dedup (sort_by str_cmp (files1 ++ files2))))))).
  { apply (records_then stamp_ok store Hnc low env Hroot Hlow); [by apply pass_records| |].
    - intros [summary1 files1]. apply records_tail; [by apply pass_records|]. intros [summary2 files2] w r w'. by intros [= <- <-].
    - intros [summary1 files1] w r w'. unfold mbind, Run_bind. destruct (agent_pass _ _ _ cons_store _ _ env w) as [x w1] eqn:E.
      destruct (pass_asked _ _ _ _ _ _ _ E) as (l & Ha & _). intros Hrun. exists l. rewrite <- Ha. by destruct x as [[]|]; injection Hrun as <- <-. }
  destruct signals, cons_section; [|done..]. intros w r w' HI [= <- <-] _. exists [], 0. rewrite app_nil_r. split_and!; [done|simpl; lia|apply h_nil].
Qed.
End Undo.

(** C8. No dream loses knowledge without an undo, whatever its model answers in
    either pass: afterwards every listed path is a concept of that path,
    and a concept listed before (outside the queue's directory) still has
    its bytes, or a revision of the log reads as them, when the calls of
    both passes and the others' revisions are together fewer than the
    retention keeps.  Assumed as for a single run: both handles are for one
    scope, neither carries the explicit tag [create], paths fit a file's
    metadata, and revision numbers their column. *)
Theorem dream_keeps_undo (Hnc : no_collisions) low noise env n0 w0 vectors now w r w' :
  meta_fits (lit "/index.md") -> 1 <= low -> env_ok low (ae_store env) -> cs_scope cons_store = cs_scope store ->
  cs_revision_op store <> Some (lit "create") -> cs_revision_op cons_store <> Some (lit "create") ->
  (forall n s, Inv stamp_ok (cs_scope store) s -> exists k, k <= noise n /\ history stamp_ok (cs_scope store) low true k s (ae_between env n s)) ->
  fresh w0 -> history stamp_ok (cs_scope store) 1 false n0 w0 (aw_world w) ->
  run_dream store_error_text client store cons_store scopes vectors now env w = (r, w') -> log_fits (aw_asked w') ->
  kept stamp_ok store low noise w w'.
Proof.
  intros Hroot Hlow Henv Hsame Htag Htag' Hothers Hfresh Hh0 Hrun Hfit.
  destruct (history_inv stamp_ok Hnc (cs_scope store) 1 false n0 _ _ ltac:(lia) Hroot Hh0) as [HI _]; [by apply fresh_inv|].
  eapply dream_records in Hrun as (log & k & Ha & Hk & Hh); try done.
  by eapply kept_by_history.
Qed.
End Pass.
