(* ===== verification/DreamDemo.v ===== *)
(** * Runs of a dream

    Concrete dreams over the demonstration store, at which the theorems on
    dreaming are applied: its only concept is an orphan, which the model
    answers by overwriting it. *)
From S2P Require Import Prelude Float Text Clock Crypto FileRepo Concept Graph Library Health Search HotMemory JsonValue Llm Embeddings Trace Prompts Lifecycle Revisions SearchIndex Vectors ConceptStore ConceptStoreProofs Fallback Agent AgentProofs AgentTools AgentDemo Dream DreamProofs.
Import ConceptStoreProofs.Demo.
Open Scope Z_scope.

#[local] Existing Instances demo_aead demo_kdf wide_hex char_uuid plain_meta ascii_lowercase sample_log pair_json type_only few_texts char_clock.
#[local] Existing Instance TraceDemo.coded_traces.

Definition cons_store : ConceptStore := with_revision_op (lit "consolidate") Demo.store.
Definition noting : result unit (ConceptStoreError unit) * World := run_op stamp_ok Demo.store (OPut (note "/d/a.md" "one")) calm empty_world.
Definition noted : World := noting.2.
Definition noted_world : AgentWorld :=
  mkAgentWorld noted ∅ ∅ None (mkLlmStatics HealthInner_default 0) (mkEmbStatics HealthInner_default 0 0) [] [] [] [].
Definition dream (script : list ResponseMessage) (now : Z) : result DreamReport AgentError * AgentWorld :=
  run_dream error_text demo_client Demo.store cons_store demo_scopes None now (scripted script) noted_world.

Lemma dream_passes_witness : exists log, aw_asked (dream overwriting 5).2 = log /\ length log = 2%nat /\
  asked_for (dream_text ++ orphans_text ++ lit "- /d/a.md") log.
Proof.
  pose proof (dream_passes error_text demo_client Demo.store cons_store demo_scopes None 5 (scripted overwriting) noted_world
    (dream overwriting 5).1 (dream overwriting 5).2 (surjective_pairing (dream overwriting 5))) as H.
  assert (Hg : (dream_signals error_text Demo.store None 5 (scripted overwriting) noted_world).1 = Ok ([orphans_text ++ lit "- /d/a.md"], []))
    by (vm_compute; reflexivity).
  assert (Hlen : length (aw_asked (dream overwriting 5).2) = 2%nat) by (vm_compute; reflexivity).
  revert H Hlen. generalize (dream overwriting 5). intros out.
  destruct (dream_signals error_text Demo.store None 5 (scripted overwriting) noted_world) as [g w1'].
  cbn [fst] in Hg. subst g. intros [_ (x1 & w2 & log1 & _ & Ha & [H1 _] & H2)] Hlen. exists (aw_asked out.2).
  split; [reflexivity|]. split; [exact Hlen|]. assert (aw_asked out.2 = log1) as ->; [|exact H1].
  destruct x1 as [[summary1 files1]|e].
  - destruct H2 as (x2 & log2 & _ & Ha2 & Hl & _). simpl in Hl. rewrite Ha2, Hl, app_nil_r. exact Ha.
  - destruct H2 as [_ ->]. exact Ha.
Defined.

(** An old note and a fresh one on the same subject, and one that is both
    fresh and about something else *)
Definition dated_note (path title : string) (stamp : N) : Concept :=
  mkConcept (mkFrontmatter (lit "Note") (Some (lit title)) None None [] (Some [stamp]) None None None None None None None None) [] (lit path).
Definition after_days (n : N) : N := (n * 86400000000000)%N.
Definition notes : list Concept :=
  [dated_note "/old.md" "Pump manual" 0; dated_note "/new.md" "The pump" (after_days 400); dated_note "/other.md" "Garden" (after_days 400)].
Lemma stale_pairs_spec_witness : stale_pairs statics_init notes (Z.of_N (after_days 400)) = [(lit "/old.md", [lit "/new.md"])] /\
  exists c age words, c ∈ notes /\ dated (Z.of_N (after_days 400)) c = Some (lit "/old.md", age, words) /\ days (stale_days statics_init) < age.
Proof.
  assert (Hout : stale_pairs statics_init notes (Z.of_N (after_days 400)) = [(lit "/old.md", [lit "/new.md"])]) by (vm_compute; reflexivity).
  assert (Hnd : NoDup (source_path <$> notes)) by (apply (bool_decide_unpack _); vm_compute; exact I).
  revert Hout Hnd. generalize (Z.of_N (after_days 400)) notes. intros now l Hout Hnd.
  split; [exact Hout|]. destruct (stale_pairs_spec statics_init l now Hnd) as [_ H].
  rewrite Hout in H. clear Hout Hnd.
  destruct (proj1 (H (lit "/old.md") [lit "/new.md"]) ltac:(left)) as (_ & _ & c & age & words & Hc & Hd & Hage & _).
  exists c, age, words. split; [exact Hc|]. split; [exact Hd|exact Hage].
Defined.

Lemma noted_head : history stamp_ok (cs_scope Demo.store) 1 false 1 empty_world noted.
Proof.
  apply (h_op stamp_ok (cs_scope Demo.store) 1 false Demo.store calm (OPut (note "/d/a.md" "one")) noting.1 0 empty_world noted noted);
    [reflexivity|apply env_with_ok1|by apply note_fits|discriminate|apply (surjective_pairing noting)|apply h_nil].
Qed.
Lemma dream_fits : log_fits (aw_asked (dream overwriting 5).2).
Proof.
  assert (Hcalls : calls_of <$> aw_asked (dream overwriting 5).2 = calls_of <$> aw_asked (mutate overwriting).2) by (vm_compute; reflexivity).
  apply fits_calls. rewrite Hcalls. apply (Forall_fmap calls_of). exact overwrite_fits.
Qed.

(** The bytes the dream overwrote can be read back. *)
Lemma dream_keeps_undo_witness : exists no,
  get_revision (revisions_of (cs_scope Demo.store)) (w_revs (aw_world (dream overwriting 5).2)) (lit "/d/a.md") no false = Ok (file noted "/d/a.md").
Proof.
  assert (H1 : listed noted "/d/a.md" = true) by (vm_compute; reflexivity).
  assert (H2 : is_some (result_ok (read (w_dir noted) (lit "/d/a.md") (repo_scope (cs_scope Demo.store)) false)) = true) by (vm_compute; reflexivity).
  assert (H3 : numbers_fit (aw_world (dream overwriting 5).2) = true) by (vm_compute; reflexivity).
  assert (H4 : str_eqb (file (aw_world (dream overwriting 5).2) "/d/a.md") (file noted "/d/a.md") = false) by (vm_compute; reflexivity).
  assert (H5 : spent (fun _ => 0) 0 (aw_asked (dream overwriting 5).2) = 3) by (vm_compute; reflexivity).
  destruct (dream_keeps_undo error_text demo_client Demo.store cons_store demo_scopes demo_no_collisions 25 (fun _ => 0) (scripted overwriting) 1 empty_world
    None 5 noted_world (dream overwriting 5).1 (dream overwriting 5).2
    root_fits ltac:(lia) (env_with_ok _) eq_refl ltac:(discriminate) ltac:(discriminate) (fun n s _ => ex_intro _ 0 (conj (Z.le_refl 0) (h_nil _ _ _ _ s)))
    empty_fresh noted_head (surjective_pairing (dream overwriting 5)) dream_fits) as [_ H].
  destruct (H (lit "/d/a.md") (file noted "/d/a.md") (listed_some _ _ H1) (file_read _ _ H2) eq_refl
    ltac:(change (spent (fun _ => 0) 0 (aw_asked (dream overwriting 5).2) < 25); rewrite H5; lia)
    (numbers_fit_spec _ H3)) as [Hr|Hr]; [exfalso|exact Hr].
  assert (E : file (aw_world (dream overwriting 5).2) "/d/a.md" = file noted "/d/a.md") by (unfold file at 1; rewrite Hr; reflexivity).
  apply str_eqb_eq in E. rewrite E in H4. discriminate H4.
Defined.
