(* ===== verification/DreamScheduler.v ===== *)
(** * The dream scheduler

    [crates/mycelium-web/src/dream_scheduler.rs]: the worker that wakes on
    the stored interval and dreams over one scope per wake, in rotation,
    and the admin's backfill over all scopes, with the handler that starts
    it and the scope construction ([build_agent_scopes]) of [api.rs].

    A wake is given what it meets: the answers of its statements, the state
    of other tables, what others did before it and, at the gate, during its
    pass.  A pass ends by itself or is cut short, by a panic or (in the
    backfill) by the shutdown, which leaves some state behind.  The log of
    the passes is kept as a record only; log lines are left out. *)
From S2P Require Import Prelude Float Text Clock Books Crypto FileRepo Config Session Health Gate GateProofs Concept Search HotMemory JsonValue Llm Embeddings Trace Prompts Lifecycle Revisions SearchIndex Vectors ConceptStore Fallback Agent Dream.
Open Scope Z_scope.

Definition DREAM_LAST_RUN_KEY : str := lit "dream_last_run".
Definition DREAM_BACKFILL_AT_KEY : str := lit "dream_backfill_at".

Inductive RotationTarget := RtUser (id : Uuid) (admin : bool) | RtSkills.
Definition target_scope_id {UT : UuidText} (t : RotationTarget) : str :=
  match t with RtUser id _ => lit "user:" ++ uuid_to_string id | RtSkills => lit "global:skills" end.
Record DreamLastRunRecord := mkLastRun { dl_at : str; dl_scope : str; dl_ran : bool; dl_summary : option str }.
Inductive ScopePassOutcome := Attempted (r : result DreamReport str) | BackendRed | GateBusy | Unresolvable.
Record LifecycleRead := mkLifecycleRead { lr_cfg : LifecycleConfig; lr_present : bool }.
Record DreamScope := mkDreamScope { dsc_cs : ConceptStore; dsc_cons_cs : ConceptStore; dsc_scopes : AgentScopes; dsc_vectors : VectorStore }.
(** [tokio::time::Interval], in nanoseconds *)
Record Interval := mkInterval { iv_period : Z; iv_next : Z }.
Definition seconds (n : Z) : Z := n * 1000000000.

Section Scheduler.
Context {Ch : Type} `{!Oneshot Ch}.

(** ** The state *)
Record Process := mkProcess {
  pr_agent : AgentWorld; pr_dirs : gmap str (gmap str bytes);   (* by scope id *)
  pr_config : gmap str str; pr_gate : Gate.World Ch; pr_running : bool;   (* dream_backfill_running *)
  pr_log : list (str * ScopePassOutcome) }.
Record Scheduler := mkScheduler { sd_ticks : Z; sd_passes : Z; sd_skipped : Z; sd_cursor : Z; sd_interval : Interval }.
Record PassEnv := mkPassEnv {
  pe_agent : AgentEnv; pe_recovery : Uuid -> option MasterKey; pe_books : BooksDb; pe_books_fails : nat -> bool;
  pe_stack_text : str -> result str str;        (* read_stack_text *)
  pe_unix : Z; pe_now : Z;
  pe_others : Gate.World Ch -> Gate.World Ch;   (* at the gate, while the pass has its permit *)
  pe_instant : Z;
  pe_cut : option (option str * AgentWorld) }.
Record WakeEnv := mkWakeEnv {
  we_before : Process -> Process; we_fails : nat -> bool;      (* by statement of the wake *)
  we_users : list (str * str); we_instant : Z; we_now : Z; we_pass : PassEnv }.

Definition set_config (c : gmap str str) (p : Process) : Process :=
  mkProcess (pr_agent p) (pr_dirs p) c (pr_gate p) (pr_running p) (pr_log p).
Definition set_gate (g : Gate.World Ch) (p : Process) : Process :=
  mkProcess (pr_agent p) (pr_dirs p) (pr_config p) g (pr_running p) (pr_log p).
Definition set_running (b : bool) (p : Process) : Process :=
  mkProcess (pr_agent p) (pr_dirs p) (pr_config p) (pr_gate p) b (pr_log p).
Definition log_pass (sid : str) (o : ScopePassOutcome) (p : Process) : Process :=
  mkProcess (pr_agent p) (pr_dirs p) (pr_config p) (pr_gate p) (pr_running p) (pr_log p ++ [(sid, o)]).
Definition on_gate (f : Gate Ch -> Gate Ch) (g : Gate.World Ch) : Gate.World Ch := Gate.mkWorld (f (gate g)) (tasks g) (next_loc g).

(** The agent's world for a run over a scope, and what the run leaves *)
Definition dir_of_scope (p : Process) (sid : str) : gmap str bytes := default ∅ (pr_dirs p !! sid).
Definition enter_scope (sid : str) (p : Process) : AgentWorld :=
  let a := pr_agent p in
  mkAgentWorld (with_dir (dir_of_scope p sid) (aw_world a)) (dir_of_scope p (lit "global:skills")) (dir_of_scope p (lit "global:library"))
    (aw_hot a) (aw_llm a) (aw_emb a) (aw_traces a) (aw_steps a) (aw_events a) (aw_asked a).
Definition leave_scope (sid : str) (a : AgentWorld) (p : Process) : Process :=
  mkProcess a (<[sid := w_dir (aw_world a)]> (<[lit "global:skills" := aw_skills a]> (<[lit "global:library" := aw_library a]> (pr_dirs p))))
    (pr_config p) (pr_gate p) (pr_running p) (pr_log p).
Definition with_own (sh : Shelf) (env : AgentEnv) : AgentEnv :=
  mkAgentEnv (ae_store env) (ae_endpoint env) (ae_arrival env) (ae_between env) (ae_tables env) (ae_others env) (ae_reads env) (ae_embed env)
    (ae_embed_arrival env) (ae_unix env) (ae_statics env) (ae_instant env) (ae_finish env) (ae_insert_fails env) (ae_prune_fails env) sh.

Context {AE : Aead} {KD : Kdf} {HX : Hex} {UT : UuidText} {MJ : MetaJson} {RF : Rfc3339} {LC : Lowercase} {NL : NaturalLog} {DJ : DocJson}.
Context {YE : Type} `{!YamlCodec YE}.
Context {JT : JsonText} {TJ : TraceJson} {JS : Json str} {JL : Json LifecycleConfig} {JC : Json LlmConfig} {JR : Json DreamLastRunRecord}.
Context (store_error_text : ConceptStoreError YE -> str) (service_key : ServiceKey).

(** ** The configuration rows *)
Definition read_lifecycle (t : gmap str str) (fails fails' : bool) : option LifecycleRead :=
  match raw_get t LIFECYCLE_CONFIG_KEY fails with
  | Ok None => Some (mkLifecycleRead (LifecycleConfig_clamp LifecycleConfig_default) false)
  | Ok (Some _) =>
      match get_sealed (A := LifecycleConfig) t service_key LIFECYCLE_CONFIG_KEY fails' with
      | Some cfg => Some (mkLifecycleRead (LifecycleConfig_clamp cfg) true)
      | None => None
      end
  | Err _ => None
  end.
Definition resolve_llm_client (t : gmap str str) (fails fails' : bool) (now : Z) (g : Gate.World Ch) : option LlmClient * Gate.World Ch :=
  match raw_get t (lit "llm") fails with
  | Ok None => (None, g)
  | Ok (Some _) =>
      match LlmConfig_clamp <$> get_sealed (A := LlmConfig) t service_key (lit "llm") fails' with
      | None => (None, g)
      | Some cfg => (Some (LlmClient_new cfg), on_gate (apply_to_gate cfg now) g)
      end
  | Err _ => (None, g)
  end.

(** ** The rotation *)
Definition is_admin (role : str) : bool :=
  match Role_parse role with
  | Some Admin => true
  | Some User => false
  | None => false
  end.
Definition user_target (row : str * str) : option RotationTarget :=
  uid ← uuid_parse_str row.1; Some (RtUser uid (is_admin row.2)).
(** [ORDER BY id] *)
Definition rotation (users : list (str * str)) (fails : bool) : option (list RotationTarget) :=
  if fails then None else Some (omap user_target (sort_by (fun a b => str_cmp a.1 b.1) users) ++ [RtSkills]).

(** ** One scope *)
Definition build_agent_scopes (stack_text : str -> result str str) (visible_slugs : option (list str)) (scope_id : str) : AgentScopes :=
  mkScopes (Some (ConceptStore_for_service service_key (lit "skills"))) (Some (ConceptStore_for_service service_key (lit "library")))
    (Some stack_text) visible_slugs (Some scope_id) None.
Definition dreaming (cs : ConceptStore) : ConceptStore := with_provenance (lit "dream") cs.
Definition scope_of (scope : ConceptStore) (vectors : VectorStore) (scopes : AgentScopes) : DreamScope :=
  mkDreamScope (dreaming scope) (with_revision_op (lit "consolidate") (dreaming scope)) scopes vectors.
Definition resolve_scope (pe : PassEnv) (target : RotationTarget) : option DreamScope :=
  let scope_id := target_scope_id target in
  match target with
  | RtUser id admin =>
      master ← pe_recovery pe id;
      let visible := visible_library_slugs admin (pe_books pe) (pe_books_fails pe) in
      Some (scope_of (ConceptStore_for_user id master) (VectorStore_for_user id master) (build_agent_scopes (pe_stack_text pe) visible scope_id))
  | RtSkills =>
      Some (scope_of (ConceptStore_for_service service_key (lit "skills")) (VectorStore_for_service service_key (lit "skills"))
              (build_agent_scopes (pe_stack_text pe) None scope_id))
  end.

Definition panic_message (payload : option str) : str := default (lit "non-string panic payload") payload.
Definition own_shelf (target : RotationTarget) : Shelf := match target with RtUser _ _ => ShUser | RtSkills => ShSkills end.
(** [catch_pass_panic(run_dream(..)).await] *)
Definition catch_pass_panic (pe : PassEnv) (target : RotationTarget) (client : LlmClient) (scope : DreamScope) (a : AgentWorld)
    : result DreamReport str * AgentWorld :=
  match pe_cut pe with
  | Some (payload, a) => (Err (panic_message payload), a)
  | None =>
      let '(r, a) := run_dream store_error_text client (dsc_cs scope) (dsc_cons_cs scope) (dsc_scopes scope) (Some (dsc_vectors scope)) (pe_now pe)
                       (with_own (own_shelf target) (pe_agent pe)) a in
      (result_map_err AgentError_display r, a)
  end.
Definition llm_state (pe : PassEnv) (p : Process) : BackendState :=
  let s := aw_llm (pr_agent p) in health_state (ls_health s) (pe_unix pe) (ls_last_success s) (stats (inner (gate (pr_gate p)))).
(** The run between [try_enter] and the drop of the permit *)
Definition admitted (pe : PassEnv) (target : RotationTarget) (client : LlmClient) (scope : DreamScope) (p : Process) : ScopePassOutcome * Process :=
  let g := pr_gate p in
  match try_enter (gate g) with
  | None => (GateBusy, p)
  | Some g' =>
      let sid := target_scope_id target in
      let '(report, a) := catch_pass_panic pe target client scope (enter_scope sid p) in
      let g := on_gate (release None (pe_instant pe)) (pe_others pe (Gate.mkWorld g' (tasks g) (next_loc g))) in
      (Attempted report, set_gate g (leave_scope sid a p))
  end.
Definition run_scope_pass (pe : PassEnv) (target : RotationTarget) (client : LlmClient) (p : Process) : ScopePassOutcome * Process :=
  let '(outcome, p) :=
    if bool_decide (llm_state pe p = Red) then (BackendRed, p)
    else match resolve_scope pe target with
         | None => (Unresolvable, p)
         | Some scope => admitted pe target client scope p
         end in
  (outcome, log_pass (target_scope_id target) outcome p).

(** ** The tick *)
Definition record_last_run (now : Z) (fails : bool) (scope : str) (ran : bool) (summary : option str) (p : Process) : Process :=
  set_config (set_value (pr_config p) DREAM_LAST_RUN_KEY (mkLastRun (to_rfc3339 now) scope ran (short_detail <$> summary)) fails).2 p.
Definition advance_cursor (cursor len : Z) : Z := wrap64 (cursor + 1) mod Z.max len 1.
Definition retune (now period : Z) : Interval := mkInterval period (now + period).

Definition count_tick (s : Scheduler) : Scheduler := mkScheduler (wrap64 (sd_ticks s + 1)) (sd_passes s) (sd_skipped s) (sd_cursor s) (sd_interval s).
Definition skip (s : Scheduler) : Scheduler := mkScheduler (sd_ticks s) (sd_passes s) (wrap64 (sd_skipped s + 1)) (sd_cursor s) (sd_interval s).
Definition count_pass (len : Z) (s : Scheduler) : Scheduler :=
  mkScheduler (sd_ticks s) (wrap64 (sd_passes s + 1)) (sd_skipped s) (advance_cursor (sd_cursor s) len) (sd_interval s).
Definition retuned (read : LifecycleRead) (now : Z) (s : Scheduler) : Scheduler :=
  let want := seconds (lc_dream_interval (lr_cfg read)) in
  if lr_present read && negb (want =? iv_period (sd_interval s))
  then mkScheduler (sd_ticks s) (sd_passes s) (sd_skipped s) (sd_cursor s) (retune now want) else s.

(** What the outcome of a pass says in the record; none, no pass *)
Definition recorded (outcome : ScopePassOutcome) : option (bool * option str) :=
  match outcome with
  | Attempted (Ok report) => Some (dr_ran report, match dr_summary report with Some s => Some s | None => dr_reason report end)
  | Attempted (Err detail) => Some (false, Some detail)
  | Unresolvable => Some (false, Some (lit "scope skipped: master key unrecoverable"))
  | BackendRed | GateBusy => None
  end.
Definition tick (env : WakeEnv) (ps : Process * Scheduler) : Process * Scheduler :=
  let p := we_before env ps.1 in
  let s := count_tick ps.2 in
  let fails := we_fails env in
  match read_lifecycle (pr_config p) (fails 0%nat) (fails 1%nat) with
  | None => (p, skip s)
  | Some read =>
      let s := retuned read (we_instant env) s in
      if negb (lc_dream_enabled (lr_cfg read)) then (p, skip s)
      else
        let '(client, g) := resolve_llm_client (pr_config p) (fails 2%nat) (fails 3%nat) (we_instant env) (pr_gate p) in
        let p := set_gate g p in
        match client with
        | None => (p, skip s)
        | Some client =>
            match rotation (we_users env) (fails 4%nat) with
            | None => (p, skip s)
            | Some targets =>
                let len := Z.of_nat (length targets) in
                match targets !! Z.to_nat (sd_cursor s mod len) with
                | None => (p, s)   (* an index out of bounds, a panic *)
                | Some target =>
                    let '(outcome, p) := run_scope_pass (we_pass env) target client p in
                    match recorded outcome with
                    | Some (ran, summary) =>
                        (record_last_run (we_now env) (fails 5%nat) (target_scope_id target) ran summary p, count_pass len s)
                    | None => (p, skip s)
                    end
                end
            end
        end
  end.
(** The loop, up to the shutdown: a tick in each environment *)
Definition run (envs : list WakeEnv) (p : Process) (tick_period now : Z) : Process * Scheduler :=
  fold_left (fun ps env => tick env ps) envs (p, mkScheduler 0 0 0 0 (mkInterval tick_period now)).

(** ** The backfill *)
(** Of the select over the shutdown and a pass *)
Inductive Shutdown := NotYet | BeforePass | DuringPass.
Record BackfillEnv := mkBackfillEnv {
  be_fails : nat -> bool; be_users : list (str * str); be_instant : Z; be_now : Z; be_pass : nat -> PassEnv; be_shutdown : nat -> Shutdown }.
(** The passes attempted and skipped, when all were made *)
Fixpoint walk (be : BackfillEnv) (k : nat) (targets : list RotationTarget) (client : LlmClient) (attempted skipped : Z) (p : Process)
    : option (Z * Z) * Process :=
  match targets with
  | [] => (Some (attempted, skipped), p)
  | target :: targets =>
      match be_shutdown be k with
      | BeforePass => (None, p)
      | DuringPass => (None, (run_scope_pass (be_pass be k) target client p).2)
      | NotYet =>
          let '(outcome, p) := run_scope_pass (be_pass be k) target client p in
          match outcome with
          | Attempted _ => walk be (S k) targets client (attempted + 1) skipped p
          | Unresolvable | BackendRed | GateBusy => walk be (S k) targets client attempted (skipped + 1) p
          end
      end
  end.
Definition backfill_body (be : BackfillEnv) (p : Process) : option (Z * Z) * Process :=
  let fails := be_fails be in
  let '(client, g) := resolve_llm_client (pr_config p) (fails 0%nat) (fails 1%nat) (be_instant be) (pr_gate p) in
  let p := set_gate g p in
  match client with
  | None => (None, p)
  | Some client =>
      match rotation (be_users be) (fails 2%nat) with
      | None => (None, p)
      | Some targets =>
          let '(counts, p) := walk be 0 targets client 0 0 p in
          match counts with
          | None => (None, p)
          | Some counts => (Some counts, set_config (set_value (pr_config p) DREAM_BACKFILL_AT_KEY (to_rfc3339 (be_now be)) (fails 3%nat)).2 p)
          end
      end
  end.
(** The guard gives the button back when the walk ends. *)
Definition run_backfill (be : BackfillEnv) (p : Process) : option (Z * Z) * Process :=
  let '(counts, p) := backfill_body be p in (counts, set_running false p).
(** [post_admin_dream_backfill]: whether a worker is started *)
Definition post_admin_dream_backfill (fails : bool) (p : Process) : bool * Process :=
  if pr_running p then (false, p)
  else (true, set_config (delete_value (pr_config p) DREAM_BACKFILL_AT_KEY fails).2 (set_running true p)).
End Scheduler.
