(* ===== verification/DreamSchedulerProofs.v ===== *)
(** * Properties of the dream scheduler

    What a wake does on each of its ways, that the rotation is fair, that no
    permit is lost, and what a backfill has done when its marker stands. *)
From S2P Require Import Prelude Float Text Clock Books Crypto FileRepo Config Session Health Gate GateProofs Concept Search HotMemory JsonValue Llm Embeddings Trace Prompts Lifecycle Revisions SearchIndex Vectors ConceptStore Fallback Agent Dream DreamScheduler.
Open Scope Z_scope.

(** ** The gate up to the order of its tasks *)
Section GateRuns.
Context {Ch : Type} `{!Oneshot Ch}.
#[local] Abbreviation GW := (Gate.World Ch).
Definition same_gate (W V : GW) : Prop := gate W = gate V /\ tasks W ≡ₚ tasks V /\ next_loc W = next_loc V.
Definition gate_run (W V : GW) : Prop := exists W', rtc Gate.step W W' /\ same_gate W' V.

#[global] Instance same_gate_equiv : Equivalence same_gate.
Proof.
  split; [by intros W|intros W V (? & ? & ?); by repeat split|].
  intros W V U (E1 & P1 & L1) (E2 & P2 & L2). split_and!; [congruence|by etrans|congruence].
Qed.
Lemma perm_middle (ts1 ts2 us : list Task) t : ts1 ++ t :: ts2 ≡ₚ us -> exists us1 us2, us = us1 ++ t :: us2 /\ ts1 ++ ts2 ≡ₚ us1 ++ us2.
Proof.
  intros H. assert (t ∈ us) as (us1 & us2 & ->)%list_elem_of_split by (rewrite <- H; set_solver).
  exists us1, us2. split; [done|]. rewrite <- !Permutation_middle in H. by apply Permutation_cons_inv in H.
Qed.
Lemma perm_settled (ts1 ts2 us1 us2 : list Task) (r : result unit GateError) user : ts1 ++ ts2 ≡ₚ us1 ++ us2 ->
  ts1 ++ match r with Ok _ => Permit user :: ts2 | Err _ => ts2 end ≡ₚ us1 ++ match r with Ok _ => Permit user :: us2 | Err _ => us2 end.
Proof. intros H. destruct r; [|done]. by rewrite <- !Permutation_middle, H. Qed.
(** A step only looks for tasks among the tasks. *)
Lemma step_perm g ts l (W' : GW) us : Gate.step (Gate.mkWorld g ts l) W' -> ts ≡ₚ us ->
  exists us', Gate.step (Gate.mkWorld g us l) (Gate.mkWorld (gate W') us' (next_loc W')) /\ tasks W' ≡ₚ us'.
Proof.
  intros Hs Hp. inversion Hs; subst; cbn.
  - eexists. split; [by eapply step_enter_fast|by rewrite Hp].
  - eexists. split; [by eapply step_enter_queue|by rewrite Hp].
  - eexists. split; [by eapply step_try_enter|by rewrite Hp].
  - apply perm_middle in Hp as (us1 & us2 & -> & Hp). eexists. split; [by eapply step_received|by apply perm_settled].
  - apply perm_middle in Hp as (us1 & us2 & -> & Hp). eexists. split; [by eapply step_timeout|by apply perm_settled].
  - apply perm_middle in Hp as (us1 & us2 & -> & Hp). eexists. split; [by eapply step_cancel|done].
  - apply perm_middle in Hp as (us1 & us2 & -> & Hp). eexists. split; [by eapply step_release|done].
  - eexists. split; [by eapply step_close|done].
  - eexists. split; [by eapply step_set_capacity|done].
  - eexists. split; [by eapply step_set_per_user|done].
  - eexists. split; [by eapply step_set_depth|done].
Qed.
(** A step goes on when another task is there. *)
Lemma step_frame t g ts l (W' : GW) : Gate.step (Gate.mkWorld g ts l) W' -> Gate.step (Gate.mkWorld g (t :: ts) l) (Gate.mkWorld (gate W') (t :: tasks W') (next_loc W')).
Proof.
  intros Hs. inversion Hs; subst; cbn; rewrite ?app_comm_cons.
  - by eapply step_enter_fast.
  - by eapply step_enter_queue.
  - by eapply step_try_enter.
  - by eapply step_received.
  - by eapply step_timeout.
  - by eapply step_cancel.
  - by eapply step_release.
  - by eapply step_close.
  - by eapply step_set_capacity.
  - by eapply step_set_per_user.
  - by eapply step_set_depth.
Qed.
Lemma run_perm (W W' V : GW) : rtc Gate.step W W' -> same_gate W V -> exists V', rtc Gate.step V V' /\ same_gate W' V'.
Proof.
  intros H. revert V. induction H as [W|W W1 W' Hs _ IH]; intros [g us l] (E & Hp & L); [by exists (Gate.mkWorld g us l)|].
  destruct W as [gw ts lw]; cbn in *. subst gw lw. destruct (step_perm _ _ _ _ _ Hs Hp) as (us' & Hs' & Hp').
  destruct (IH (Gate.mkWorld (gate W1) us' (next_loc W1))) as (V' & Hv & Hsame); [by repeat split|]. exists V'. split; [by eapply rtc_l|done].
Qed.
Lemma run_frame t (W W' : GW) : rtc Gate.step W W' ->
  rtc Gate.step (Gate.mkWorld (gate W) (t :: tasks W) (next_loc W)) (Gate.mkWorld (gate W') (t :: tasks W') (next_loc W')).
Proof. induction 1 as [|W W1 W' Hs _ IH]; [done|]. destruct W as [g ts l]. eapply rtc_l; [by apply step_frame|done]. Qed.

#[global] Instance gate_run_preorder : PreOrder gate_run.
Proof.
  split; [intros W; by exists W|]. intros W V U (W' & H1 & S1) (V' & H2 & S2). symmetry in S1.
  destruct (run_perm _ _ _ H2 S1) as (U' & H3 & S3). exists U'. split; [by etrans|]. symmetry in S3. by etrans.
Qed.
Lemma gate_step (W V : GW) : Gate.step W V -> gate_run W V.
Proof. intros H. exists V. split; [by apply rtc_once|done]. Qed.
Lemma gate_run_frame t (W V : GW) : gate_run W V ->
  gate_run (Gate.mkWorld (gate W) (t :: tasks W) (next_loc W)) (Gate.mkWorld (gate V) (t :: tasks V) (next_loc V)).
Proof. intros (W' & H & E & P & L). eexists. split; [by apply run_frame|]. split_and!; cbn; [done|by rewrite P|done]. Qed.

(** A permit taken, others meanwhile, and its release *)
Lemma gate_run_permit g g' ts l (V : GW) now : try_enter g = Some g' -> gate_run (Gate.mkWorld g' ts l) V ->
  gate_run (Gate.mkWorld g ts l) (on_gate (release None now) V).
Proof.
  intros He Hr. etrans; [by apply gate_step, step_try_enter|]. etrans.
  - assert (Hs : same_gate (Gate.mkWorld g' (ts ++ [Permit None]) l) (Gate.mkWorld g' (Permit None :: ts) l)) by
      (split_and!; cbn; [done|by rewrite Permutation_app_comm|done]).
    eexists. split; [done|exact Hs].
  - etrans; [apply (gate_run_frame (Permit None)) in Hr; exact Hr|]. cbn. destruct V as [gv vs lv]. apply gate_step. cbn.
    by apply (step_release None now gv [] vs lv).
Qed.
Lemma gate_run_limits cfg now (W : GW) : gate_run W (on_gate (apply_to_gate cfg now) W).
Proof.
  destruct W as [g ts l]. unfold on_gate, apply_to_gate. cbn [gate tasks next_loc].
  etrans; [apply gate_step, step_set_per_user|]. etrans; [apply gate_step, step_set_depth|]. apply gate_step, step_set_capacity.
Qed.
End GateRuns.

Section Scheduler.
Context {Ch : Type} `{!Oneshot Ch}.
Context {AE : Aead} {KD : Kdf} {HX : Hex} {UT : UuidText} {MJ : MetaJson} {RF : Rfc3339} {LC : Lowercase} {NL : NaturalLog} {DJ : DocJson}.
Context {YE : Type} `{!YamlCodec YE}.
Context {JT : JsonText} {TJ : TraceJson} {JS : Json str} {JL : Json LifecycleConfig} {JC : Json LlmConfig} {JR : Json DreamLastRunRecord}.
Context (store_error_text : ConceptStoreError YE -> str) (service_key : ServiceKey).
#[local] Abbreviation tick := (tick (Ch := Ch) store_error_text service_key).
#[local] Abbreviation pass := (run_scope_pass (Ch := Ch) store_error_text service_key).
#[local] Abbreviation read_lifecycle := (read_lifecycle service_key).

(** ** One pass *)
(** The process but for the gate, the stores and the log *)
Definition same_rows (p p' : Process (Ch := Ch)) : Prop := pr_config p' = pr_config p /\ pr_running p' = pr_running p.
(** Nothing but the log *)
Definition left_alone (p p' : Process (Ch := Ch)) : Prop :=
  same_rows p p' /\ pr_agent p' = pr_agent p /\ pr_dirs p' = pr_dirs p /\ pr_gate p' = pr_gate p.
Definition is_attempted (o : ScopePassOutcome) : bool := match o with Attempted _ => true | _ => false end.

Lemma pass_spec pe target client p o p' : pass pe target client p = (o, p') ->
  pr_log p' = pr_log p ++ [(target_scope_id target, o)] /\ same_rows p p' /\ (is_attempted o = false -> left_alone p p') /\
  (is_attempted o = true -> llm_state pe p <> Red).
Proof.
  unfold run_scope_pass. destruct (bool_decide_reflect (llm_state pe p = Red)); [by intros [= <- <-]|].
  destruct (resolve_scope _ _ _) as [scope|]; [|by intros [= <- <-]]. unfold admitted.
  destruct (try_enter _) as [g'|]; [|by intros [= <- <-]].
  destruct (catch_pass_panic _ _ _ _ _ _) as [report a]. by intros [= <- <-].
Qed.
Lemma pass_gate pe target client p o p' : (forall W, gate_run W (pe_others pe W)) -> pass pe target client p = (o, p') ->
  gate_run (pr_gate p) (pr_gate p').
Proof.
  intros Hothers. unfold run_scope_pass. destruct (bool_decide _); [by intros [= <- <-]|].
  destruct (resolve_scope _ _ _) as [scope|]; [|by intros [= <- <-]]. unfold admitted.
  destruct (try_enter _) as [g'|] eqn:E; [|by intros [= <- <-]].
  destruct (catch_pass_panic _ _ _ _ _ _) as [report a]. intros [= <- <-]. cbn. destruct (pr_gate p) as [g ts l]. by eapply gate_run_permit.
Qed.
Lemma client_gate t f f' now g c g' : resolve_llm_client (Ch := Ch) service_key t f f' now g = (c, g') -> gate_run g g'.
Proof.
  unfold resolve_llm_client. destruct (raw_get _ _ _) as [[raw|]|]; [|by intros [= <- <-]..].
  destruct (LlmConfig_clamp <$> _) as [cfg|]; [|by intros [= <- <-]]. intros [= <- <-]. apply gate_run_limits.
Qed.

(** ** One wake *)
Lemma rotation_skills users fails targets : rotation users fails = Some targets ->
  targets = omap user_target (sort_by (fun a b => str_cmp a.1 b.1) users) ++ [RtSkills].
Proof. unfold rotation. destruct fails; [done|]. by intros [= <-]. Qed.
Lemma cursor_in targets users fails c : rotation users fails = Some targets -> exists target, targets !! Z.to_nat (c mod Z.of_nat (length targets)) = Some target.
Proof.
  intros ->%rotation_skills. apply lookup_lt_is_Some_2. rewrite length_app. cbn. apply Nat2Z.inj_lt. rewrite Z2Nat.id; [apply Z.mod_pos_bound|apply Z.mod_pos_bound]; lia.
Qed.

(** The clamp keeps a stored interval between an hour and thirty days. *)
Definition interval_of (env : WakeEnv (Ch := Ch)) (t : gmap str str) (i : Interval) : Interval :=
  match read_lifecycle t (we_fails env 0%nat) (we_fails env 1%nat) with
  | Some read =>
      let want := seconds (lc_dream_interval (lr_cfg read)) in
      if lr_present read && negb (want =? iv_period i) then mkInterval want (we_instant env + want) else i
  | None => i
  end.
Lemma interval_kept env t i : let i' := interval_of env t i in
  i' = i \/ (seconds 3600 <= iv_period i' <= seconds 2592000 /\ iv_next i' = we_instant env + iv_period i').
Proof.
  unfold interval_of, DreamScheduler.read_lifecycle. destruct (raw_get _ _ _) as [[raw|]|]; [| |by left].
  - destruct (get_sealed _ _ _ _) as [cfg|]; [|by left]. cbn. destruct (negb _); [right|by left]. cbn. split; [|done].
    unfold clamp_dream_interval_s, clamp_in, seconds. pose proof (clamp_bounds (lc_dream_interval cfg) 3600 2592000). cbn. lia.
  - by left.
Qed.

(** A wake that made a pass, and one that did not *)
Record passed_wake (env : WakeEnv (Ch := Ch)) (p0 p' : Process (Ch := Ch)) (s s' : Scheduler) : Prop := {
  pw_pass : exists targets target outcome ran summary,
    rotation (we_users env) (we_fails env 4%nat) = Some targets /\
    targets !! Z.to_nat (sd_cursor s mod Z.of_nat (length targets)) = Some target /\
    pr_log p' = pr_log p0 ++ [(target_scope_id target, outcome)] /\ recorded outcome = Some (ran, summary) /\
    pr_config p' = (if we_fails env 5%nat then pr_config p0
                    else <[DREAM_LAST_RUN_KEY := json_to_string (mkLastRun (to_rfc3339 (we_now env)) (target_scope_id target) ran (short_detail <$> summary))]> (pr_config p0)) /\
    sd_cursor s' = advance_cursor (sd_cursor s) (Z.of_nat (length targets));
  pw_enabled : exists read, read_lifecycle (pr_config p0) (we_fails env 0%nat) (we_fails env 1%nat) = Some read /\ lc_dream_enabled (lr_cfg read) = true;
  pw_counted : sd_passes s' = wrap64 (sd_passes s + 1) /\ sd_skipped s' = sd_skipped s }.
Record skipped_wake (p0 p' : Process (Ch := Ch)) (s s' : Scheduler) : Prop := {
  sw_rows : same_rows p0 p' /\ pr_agent p' = pr_agent p0 /\ pr_dirs p' = pr_dirs p0;
  sw_log : pr_log p' = pr_log p0 \/ exists sid o, recorded o = None /\ pr_log p' = pr_log p0 ++ [(sid, o)];
  sw_counted : sd_skipped s' = wrap64 (sd_skipped s + 1) /\ sd_passes s' = sd_passes s /\ sd_cursor s' = sd_cursor s }.

Lemma tick_cases env p s p' s' : tick env (p, s) = (p', s') ->
  sd_ticks s' = wrap64 (sd_ticks s + 1) /\ sd_interval s' = interval_of env (pr_config (we_before env p)) (sd_interval s) /\
  (passed_wake env (we_before env p) p' s s' \/ skipped_wake (we_before env p) p' s s').
Proof.
  unfold DreamScheduler.tick, interval_of. cbn. set (p0 := we_before env p).
  assert (Hskip : forall g i, skipped_wake p0 (set_gate g p0) s (mkScheduler (wrap64 (sd_ticks s + 1)) (sd_passes s) (wrap64 (sd_skipped s + 1)) (sd_cursor s) i))
    by (intros g i; constructor; [done|by left|done]).
  destruct (read_lifecycle _ _ _) as [read|] eqn:Er; cycle 1.
  { intros [= <- <-]. split_and!; [done|done|right]. specialize (Hskip (pr_gate p0) (sd_interval s)). by destruct p0. }
  assert (Hi : exists i, retuned read (we_instant env) (count_tick s) = mkScheduler (wrap64 (sd_ticks s + 1)) (sd_passes s) (sd_skipped s) (sd_cursor s) i /\
    i = (if lr_present read && negb (seconds (lc_dream_interval (lr_cfg read)) =? iv_period (sd_interval s)) then mkInterval (seconds (lc_dream_interval (lr_cfg read))) (we_instant env + seconds (lc_dream_interval (lr_cfg read))) else sd_interval s)).
  { unfold retuned. cbn. destruct (_ && _); eexists; by split. }
  destruct Hi as (i & -> & <-). destruct (lc_dream_enabled (lr_cfg read)) eqn:Een; cbn; cycle 1.
  { intros [= <- <-]. split_and!; [done|done|right]. specialize (Hskip (pr_gate p0) i). by destruct p0. }
  destruct (resolve_llm_client _ _ _ _ _ _) as [[client|] g]; [|intros [= <- <-]; split_and!; [done|done|right; apply Hskip]].
  destruct (rotation _ _) as [targets|] eqn:Et; [|intros [= <- <-]; split_and!; [done|done|right; apply Hskip]].
  destruct (cursor_in _ _ _ (sd_cursor s) Et) as [target Htarget]. rewrite Htarget.
  destruct (pass _ _ _ _) as [outcome p1] eqn:Ep. apply pass_spec in Ep as (Hlog & Hrows & Halone & _).
  destruct (recorded outcome) as [[ran summary]|] eqn:Erec; intros [= <- <-]; (split; [done|]); (split; [done|]).
  - left. constructor; [|by exists read|done]. exists targets, target, outcome, ran, summary. cbn. destruct Hrows as [Hc _].
    split_and!; try done. unfold set_value. rewrite Hc. by destruct (we_fails env 5).
  - right. destruct (Halone ltac:(by destruct outcome as [[]| | |])) as ((Hc & Hr) & Ha & Hd & _). constructor; [by repeat split|right|done].
    by exists (target_scope_id target), outcome.
Qed.

(** A wake is counted, and then either is a pass: the lifecycle row does
    not disable dreams, the log has the outcome for the scope under the
    cursor, which is recorded as the last run (unless the database refuses)
    and the cursor moves on; or is a skip, which changes no row, no file and
    not the cursor, and whose outcome, if it got that far, is a red backend
    or a busy gate.  A stored interval replaces the running one, clamped and
    with the next wake one new period away. *)
Theorem tick_outcomes env p s p' s' : tick env (p, s) = (p', s') ->
  let i' := interval_of env (pr_config (we_before env p)) (sd_interval s) in
  sd_ticks s' = wrap64 (sd_ticks s + 1) /\ sd_interval s' = i' /\
  (i' = sd_interval s \/ (seconds 3600 <= iv_period i' <= seconds 2592000 /\ iv_next i' = we_instant env + iv_period i')) /\
  (passed_wake env (we_before env p) p' s s' \/ skipped_wake (we_before env p) p' s s').
Proof. intros (? & ? & ?)%tick_cases. split_and!; try done. apply interval_kept. Qed.

(** No permit of a wake or of a backfill is lost: as long as what others do
    at the gate are runs of its step relation, so is the whole of it, and
    the tasks it leaves are theirs. *)
Lemma walk_gate be k targets client a b p r p' : (forall k W, gate_run W (pe_others (be_pass be k) W)) ->
  walk store_error_text service_key be k targets client a b p = (r, p') -> gate_run (pr_gate p) (pr_gate p').
Proof.
  intros Hothers. revert k a b p. induction targets as [|target targets IH]; intros k a b p; cbn; [by intros [= <- <-]|].
  destruct (be_shutdown be k); [|by intros [= <- <-]|].
  - destruct (pass _ _ _ p) as [o p1] eqn:E. apply pass_gate in E; [|done]. intros H. etrans; [exact E|]. destruct o; by apply IH in H.
  - destruct (pass _ _ _ p) as [o p1] eqn:E. apply pass_gate in E; [|done]. by intros [= <- <-].
Qed.
Theorem permits_returned env p s p' s' be p1 r p2 :
  (forall q, gate_run (pr_gate q) (pr_gate (we_before env q))) -> (forall W, gate_run W (pe_others (we_pass env) W)) ->
  (forall k W, gate_run W (pe_others (be_pass be k) W)) ->
  tick env (p, s) = (p', s') -> run_backfill store_error_text service_key be p1 = (r, p2) ->
  gate_run (pr_gate p) (pr_gate p') /\ gate_run (pr_gate p1) (pr_gate p2).
Proof.
  intros Hbefore Hothers Hwalk Htick Hback. split.
  - revert Htick. unfold DreamScheduler.tick. cbn. intros H. etrans; [apply Hbefore|]. revert H. generalize (we_before env p). clear p. intros p.
    destruct (read_lifecycle _ _ _) as [read|]; [|by intros [= <- <-]]. destruct (negb _); [by intros [= <- <-]|].
    destruct (resolve_llm_client _ _ _ _ _ _) as [client g] eqn:Eg. apply client_gate in Eg. destruct client as [client|]; [|by intros [= <- <-]].
    destruct (rotation _ _) as [targets|]; [|by intros [= <- <-]]. destruct (targets !! _) as [target|]; [|by intros [= <- <-]].
    destruct (pass _ _ _ _) as [o q] eqn:Ep. apply pass_gate in Ep; [|done].
    destruct (recorded o) as [[ran summary]|]; intros [= <- <-]; (etrans; [exact Eg|exact Ep]).
  - revert Hback. unfold run_backfill, backfill_body.
    destruct (resolve_llm_client _ _ _ _ _ _) as [client g] eqn:Eg. apply client_gate in Eg. destruct client as [client|]; [|by intros [= <- <-]].
    destruct (rotation _ _) as [targets|]; [|by intros [= <- <-]].
    destruct (walk _ _ _ _ _ _ _ _ _) as [counts q] eqn:Ew. apply walk_gate in Ew; [|done].
    destruct counts; intros [= <- <-]; (etrans; [exact Eg|exact Ew]).
Qed.

(** ** The rotation *)
(** The scopes of the passes so far *)
Definition passed (p : Process (Ch := Ch)) : list str := omap (fun x => if recorded x.2 then Some x.1 else None) (pr_log p).
(** The scope at a position of the endless rotation *)
Definition cyclic (targets : list RotationTarget) (k : nat) : str := default [] (target_scope_id <$> targets !! (k mod length targets)%nat).

Lemma cyclic_period targets i : (0 < length targets)%nat ->
  cyclic targets <$> seq i (length targets) = drop (i mod length targets) (target_scope_id <$> targets) ++ take (i mod length targets) (target_scope_id <$> targets).
Proof.
  intros Hn. set (n := length targets) in *. set (r := (i mod n)%nat). assert (Hr : (r < n)%nat) by (apply Nat.mod_upper_bound; lia).
  assert (Hi : (i = n * (i / n) + r)%nat) by apply Nat.div_mod_eq.
  apply list_eq. intros j. destruct (decide (j < n)%nat) as [Hj|Hj]; cycle 1.
  { rewrite !lookup_ge_None_2; [done|rewrite length_app, length_drop, length_take, length_fmap; unfold n in *; lia|rewrite length_fmap, length_seq; lia]. }
  rewrite list_lookup_fmap, lookup_seq_lt by done. cbn. unfold cyclic. fold n.
  assert (Hget : forall k, (k < n)%nat -> Some (default [] (target_scope_id <$> targets !! k)) = (target_scope_id <$> targets) !! k).
  { intros k Hk. rewrite list_lookup_fmap. destruct (lookup_lt_is_Some_2 targets k Hk) as [t ->]. done. }
  rewrite Hget by (apply Nat.mod_upper_bound; lia). destruct (decide (j < n - r)%nat) as [Hlt|Hge].
  - rewrite lookup_app_l by (rewrite length_drop, length_fmap; unfold n in *; lia). rewrite lookup_drop. f_equal.
    rewrite Hi. replace (n * (i / n) + r + j)%nat with (r + j + i / n * n)%nat by lia. rewrite Nat.Div0.mod_add. apply Nat.mod_small. lia.
  - rewrite lookup_app_r by (rewrite length_drop, length_fmap; unfold n in *; lia). rewrite length_drop, length_fmap. fold n.
    rewrite lookup_take_lt by lia. f_equal. rewrite Hi. replace (n * (i / n) + r + j)%nat with ((j - (n - r)) + (i / n + 1) * n)%nat by lia.
    rewrite Nat.Div0.mod_add. apply Nat.mod_small. lia.
Qed.
Lemma cyclic_step c k n : 0 < n <= u64_max -> 0 <= c < n -> advance_cursor ((c + Z.of_nat k) mod n) n = (c + Z.of_nat (S k)) mod n.
Proof.
  intros Hn Hc. unfold advance_cursor. pose proof (Z.mod_pos_bound (c + Z.of_nat k) n ltac:(lia)).
  rewrite wrap64_small by (unfold u64_max in *; lia). rewrite Z.max_l by lia. rewrite Zplus_mod_idemp_l. f_equal. lia.
Qed.

(** C39. The rotation is fair: while the users stay the same, the passes of a
    history of wakes are, in order, those of the endless rotation from the
    cursor, however many wakes are skipped in between; so any as many passes
    in a row as there are scopes visit every scope exactly once. *)
Theorem rotation_fair envs users targets p s p' s' :
  (forall f ts, rotation users f = Some ts -> ts = targets) -> Z.of_nat (length targets) <= u64_max ->
  Forall (fun env => we_users env = users /\ forall q, pr_log (we_before env q) = pr_log q) envs ->
  0 <= sd_cursor s < Z.of_nat (length targets) -> fold_left (fun ps env => tick env ps) envs (p, s) = (p', s') ->
  exists k, passed p' = passed p ++ (cyclic targets <$> seq (Z.to_nat (sd_cursor s)) k) /\
    sd_cursor s' = (sd_cursor s + Z.of_nat k) mod Z.of_nat (length targets) /\
    forall i, (i + length targets <= k)%nat ->
      cyclic targets <$> seq (Z.to_nat (sd_cursor s) + i) (length targets) ≡ₚ target_scope_id <$> targets.
Proof.
  intros Hrot Hfit Hall Hc Hrun. assert (Hperm : forall i, cyclic targets <$> seq i (length targets) ≡ₚ target_scope_id <$> targets).
  { intros i. rewrite cyclic_period by lia. by rewrite Permutation_app_comm, take_drop. }
  enough (H : exists k, passed p' = passed p ++ (cyclic targets <$> seq (Z.to_nat (sd_cursor s)) k) /\ sd_cursor s' = (sd_cursor s + Z.of_nat k) mod Z.of_nat (length targets)).
  { destruct H as (k & H1 & H2). exists k. split_and!; [done|done|]. intros i _. apply Hperm. }
  clear Hperm. revert p' s' Hrun. induction envs as [|env envs IH] using rev_ind; intros p' s'.
  { intros [= <- <-]. exists 0%nat. rewrite app_nil_r, Z.add_0_r, Z.mod_small by done. done. }
  apply Forall_app in Hall as [Hall [Henv _]%Forall_cons]. destruct Henv as [Hu Hlog0].
  rewrite fold_left_app. cbn. destruct (fold_left _ envs (p, s)) as [p1 s1]. destruct (IH Hall p1 s1 eq_refl) as (k & Hp1 & Hs1).
  intros (_ & _ & [Hpass|Hskip])%tick_cases.
  - destruct Hpass as [(ts & target & o & ran & summary & Hts & Htarget & Hlog & Hrec & _ & Hcur) _ _]. rewrite Hu in Hts. apply Hrot in Hts as ->.
    exists (S k). rewrite seq_S, fmap_app, app_assoc, <- Hp1, Hcur, Hs1. split.
    + unfold passed. rewrite Hlog, omap_app, Hlog0. cbn. rewrite Hrec. f_equal. cbn. f_equal. unfold cyclic.
      rewrite Hs1, Zmod_mod in Htarget. rewrite Z2Nat.inj_mod, Z2Nat.inj_add, !Nat2Z.id in Htarget by lia. by rewrite Htarget.
    + apply cyclic_step; lia.
  - destruct Hskip as [_ Hlog (_ & _ & Hcur)]. exists k. rewrite Hcur, <- Hp1. split; [|done]. unfold passed.
    destruct Hlog as [->|(sid & o & Hrec & ->)]; rewrite ?omap_app, Hlog0; [done|]. cbn. by rewrite Hrec, app_nil_r.
Qed.

(** ** The backfill *)
Lemma walk_spec be k targets client a b p r p' : walk store_error_text service_key be k targets client a b p = (r, p') ->
  same_rows p p' /\ exists outcomes, (length outcomes <= length targets)%nat /\
    pr_log p' = pr_log p ++ zip (target_scope_id <$> take (length outcomes) targets) outcomes /\
    match r with
    | None => True
    | Some (a', b') => length outcomes = length targets /\ a' = a + Z.of_nat (length (retain is_attempted outcomes)) /\
        a' + b' = a + b + Z.of_nat (length targets)
    end.
Proof.
  revert k a b p. induction targets as [|target targets IH]; intros k a b p; cbn.
  { intros [= <- <-]. split; [done|]. exists []. cbn. rewrite app_nil_r. repeat split; lia. }
  assert (Hone : forall o q, pass (be_pass be k) target client p = (o, q) -> same_rows p q /\ pr_log q = pr_log p ++ [(target_scope_id target, o)])
    by (intros o q (? & ? & _)%pass_spec; done).
  destruct (be_shutdown be k).
  - destruct (pass _ _ _ p) as [o q] eqn:E. destruct (Hone o q eq_refl) as [[Hc Hr] Hlog]. intros H.
    set (a1 := if is_attempted o then a + 1 else a). set (b1 := if is_attempted o then b else b + 1).
    assert (Hnext : walk store_error_text service_key be (S k) targets client a1 b1 q = (r, p')) by (unfold a1, b1; by destruct o).
    destruct (IH _ _ _ _ Hnext) as ([Hc' Hr'] & outcomes & Hlen & Hlog' & Hcounts). split; [split; congruence|].
    exists (o :: outcomes). cbn. rewrite Hlog', Hlog, <- app_assoc. split_and!; [lia|done|]. destruct r as [[a' b']|]; [|done].
    destruct Hcounts as (Hl & Ha & Hb). unfold a1, b1 in *. destruct (is_attempted o); cbn; split_and!; lia.
  - intros [= <- <-]. split; [done|]. exists []. cbn. rewrite app_nil_r. split_and!; [lia|done|done].
  - destruct (pass _ _ _ p) as [o q] eqn:E. destruct (Hone o q eq_refl) as [Hr Hlog]. intros [= <- <-]. split; [done|].
    exists [o]. cbn. rewrite Hlog. split_and!; [lia|done|done].
Qed.

(** A backfill passes over the users' scopes in the order of their ids and
    then the skills, each at most once, gives the button back however it
    ends, and writes no row but its marker; it writes the marker only when
    every scope had its pass, and counts each as attempted or skipped.  A
    second click on the button while it runs changes nothing; a first one
    removes the marker, unless the database refuses. *)
Theorem backfill_marker be p r p' fails : run_backfill store_error_text service_key be p = (r, p') ->
  (pr_running p' = false /\ exists targets outcomes, (length outcomes <= length targets)%nat /\
     (targets = [] \/ targets = omap user_target (sort_by (fun a b => str_cmp a.1 b.1) (be_users be)) ++ [RtSkills]) /\
     pr_log p' = pr_log p ++ zip (target_scope_id <$> take (length outcomes) targets) outcomes /\
     match r with
     | None => pr_config p' = pr_config p
     | Some (attempted, skipped) =>
         last targets = Some RtSkills /\ length outcomes = length targets /\
         attempted = Z.of_nat (length (retain is_attempted outcomes)) /\ attempted + skipped = Z.of_nat (length targets) /\
         pr_config p' = (if be_fails be 3%nat then pr_config p else <[DREAM_BACKFILL_AT_KEY := json_to_string (to_rfc3339 (be_now be))]> (pr_config p))
     end) /\
  post_admin_dream_backfill fails p =
    (if pr_running p then (false, p)
     else (true, set_config (if fails then pr_config p else delete DREAM_BACKFILL_AT_KEY (pr_config p)) (set_running true p))).
Proof.
  intros Hrun. split; cycle 1. { unfold post_admin_dream_backfill, delete_value. destruct (pr_running p); [done|]. by destruct fails. }
  revert Hrun. unfold run_backfill, backfill_body.
  assert (Hnone : forall q : Process (Ch := Ch), pr_log q = pr_log p -> pr_config q = pr_config p -> pr_running (set_running false q) = false /\ exists targets outcomes, (length outcomes <= length targets)%nat /\
     (targets = [] \/ targets = omap user_target (sort_by (fun a b => str_cmp a.1 b.1) (be_users be)) ++ [RtSkills]) /\
     pr_log (set_running false q) = pr_log p ++ zip (target_scope_id <$> take (length outcomes) targets) outcomes /\ pr_config (set_running false q) = pr_config p).
  { intros q Hl Hc. split; [done|]. exists [], []. cbn. rewrite app_nil_r. split_and!; [done|by left|done|done]. }
  destruct (resolve_llm_client _ _ _ _ _ _) as [[client|] g]; [|intros [= <- <-]; by apply Hnone].
  destruct (rotation _ _) as [targets|] eqn:Et; [|intros [= <- <-]; by apply Hnone]. apply rotation_skills in Et.
  destruct (walk _ _ _ _ _ _ _ _ _) as [counts q] eqn:Ew. apply walk_spec in Ew as ([Hc _] & outcomes & Hlen & Hlog & Hcounts).
  destruct counts as [[a b]|]; intros [= <- <-]; (split; [done|]); exists targets, outcomes; (split; [done|]); (split; [by right|]); (split; [done|]).
  - destruct Hcounts as (Hl & Ha & Hb). split_and!; [by rewrite Et, last_snoc|done|lia|lia|]. cbn. unfold set_value.
    rewrite Hc. by destruct (be_fails be 3).
  - done.
Qed.
End Scheduler.
