(* ===== verification/DreamSchedulerDemo.v ===== *)
(** * Runs of the dream scheduler

    Two wakes and a backfill over the demonstration store, at which the
    theorems on the scheduler are applied: one user and the skills. *)
From S2P Require Import Prelude Float Text Clock Books Crypto FileRepo Config Session Health Gate GateProofs Concept Graph Library Search HotMemory JsonValue Llm Embeddings Trace Prompts Lifecycle Revisions SearchIndex Vectors ConceptStore ConceptStoreProofs Fallback Agent AgentProofs AgentTools AgentDemo Dream DreamProofs DreamDemo DreamScheduler DreamSchedulerProofs.
Import ConceptStoreProofs.Demo.
Open Scope Z_scope.
#[local] Existing Instances demo_aead demo_kdf wide_hex char_uuid plain_meta ascii_lowercase sample_log pair_json type_only few_texts char_clock text_json lifecycle_json.
#[local] Existing Instance TraceDemo.coded_traces.

(** The code of a value, as a text *)
Definition coded_json {A} `{Countable A} : Json A.
Proof.
  refine {| json_to_string a := [Npos (encode a)]; json_from_str s := match s with [Npos p] => decode p | _ => None end |}.
  intros a. apply decode_encode.
Defined.
Definition of_llm (c : LlmConfig) : str * str * option str * (Z * Z * Z * Z * Z) :=
  (lc_url c, lc_model c, lc_api_key c, (lc_max_parallel c, lc_per_user_active c, lc_query_wait_secs c, lc_chat_wait_secs c, lc_chat_queue_depth c)).
#[local] Instance LlmConfig_eq_dec : EqDecision LlmConfig.
Proof. solve_decision. Defined.
#[local] Instance LlmConfig_countable : Countable LlmConfig.
Proof. apply (inj_countable' of_llm (fun '(u, m, k, (a, b, c, d, e)) => mkLlmConfig u m k a b c d e)). by intros []. Defined.
#[local] Instance llm_json : Json LlmConfig := coded_json.
#[local] Instance LastRun_eq_dec : EqDecision DreamLastRunRecord.
Proof. solve_decision. Defined.
#[local] Instance LastRun_countable : Countable DreamLastRunRecord.
Proof.
  apply (inj_countable' (fun r => (dl_at r, dl_scope r, dl_ran r, dl_summary r)) (fun '(a, s, r, t) => mkLastRun a s r t)). by intros [].
Defined.
#[local] Instance last_run_json : Json DreamLastRunRecord := coded_json.

Definition demo_process : Process := mkProcess noted_world {[lit "user:" ++ [5%N] := w_dir noted]} {[lit "llm" := json_to_string LlmConfig_default]}
  (Gate.World_new (Ch := Chan) 2) false [].
Definition demo_pass : PassEnv (Ch := Chan) :=
  mkPassEnv (scripted [says "done"]) (fun u => if (u =? 5)%N then Some (demo_master 1) else None) demo_books (fun _ => false) (fun slug => Ok slug) 0 5 (fun W => W) 0 None.
Definition demo_wake : WakeEnv (Ch := Chan) :=
  mkWakeEnv (fun p => p) (fun _ => false) [([5%N], lit "user"); (lit "no uuid", lit "admin")] 0 7 demo_pass.
Definition start : Scheduler := mkScheduler 0 0 0 0 (mkInterval 0 0).
Definition wakes : Process * Scheduler :=
  fold_left (fun ps env => tick error_text (mkService [7%N]) env ps) [demo_wake; demo_wake] (demo_process, start).
Definition demo_backfill : BackfillEnv (Ch := Chan) :=
  mkBackfillEnv (fun _ => false) [([5%N], lit "user"); (lit "no uuid", lit "admin")] 0 9 (fun _ => demo_pass) (fun _ => NotYet).

Definition woken : Process * Scheduler := tick error_text (mkService [7%N]) demo_wake (demo_process, start).
Lemma tick_outcomes_witness : sd_passes woken.2 = 1 /\ passed_wake (mkService [7%N]) demo_wake demo_process woken.1 start woken.2.
Proof.
  assert (Hp : sd_passes woken.2 = 1) by (vm_compute; reflexivity).
  destruct (tick_outcomes error_text (mkService [7%N]) demo_wake demo_process start woken.1 woken.2 (surjective_pairing woken)) as (_ & _ & _ & H).
  split; [exact Hp|]. destruct H as [H|[_ _ (_ & H & _)]]; [exact H|]. exfalso. rewrite Hp in H. discriminate H.
Defined.

Definition targets : list RotationTarget := [RtUser 5%N false; RtSkills].
Lemma rotation_fair_witness : exists k, passed wakes.1 = cyclic targets <$> seq 0 k /\ k = 2%nat /\
  cyclic targets <$> seq 0 2 ≡ₚ [lit "user:" ++ [5%N]; lit "global:skills"].
Proof.
  assert (Hk : length (passed wakes.1) = 2%nat) by (vm_compute; reflexivity).
  destruct (rotation_fair error_text (mkService [7%N]) [demo_wake; demo_wake] [([5%N], lit "user"); (lit "no uuid", lit "admin")] targets demo_process start
    wakes.1 wakes.2) as (k & Hpassed & _ & Hperm).
  - intros f ts Hts. destruct f; [discriminate Hts|]. vm_compute in Hts. by injection Hts as <-.
  - by vm_compute.
  - apply Forall_cons; split; [split; [reflexivity|intros q; reflexivity]|]. apply Forall_cons; split; [split; [reflexivity|intros q; reflexivity]|apply Forall_nil_2].
  - change (0 <= 0 < 2). lia.
  - exact (surjective_pairing wakes).
  - change (passed demo_process) with (@nil str) in Hpassed. change (Z.to_nat (sd_cursor start)) with 0%nat in Hpassed, Hperm.
    exists k. split; [exact Hpassed|]. assert (k = 2%nat) as ->. { rewrite Hpassed, app_nil_l, length_fmap, length_seq in Hk. exact Hk. }
    split; [reflexivity|]. exact (Hperm 0%nat (le_n 2)).
Defined.

Definition walked : option (Z * Z) * Process := run_backfill error_text (mkService [7%N]) demo_backfill demo_process.
Lemma permits_returned_witness : active (inner (gate (pr_gate woken.1))) = 0 /\ gate_run (pr_gate demo_process) (pr_gate woken.1) /\
  gate_run (pr_gate demo_process) (pr_gate walked.2).
Proof.
  split; [vm_compute; reflexivity|].
  exact (permits_returned error_text (mkService [7%N]) demo_wake demo_process start woken.1 woken.2 demo_backfill demo_process walked.1 walked.2
    (fun q => reflexivity (pr_gate q)) (fun W => reflexivity W) (fun _ W => reflexivity W) (surjective_pairing woken) (surjective_pairing walked)).
Defined.

Lemma backfill_marker_witness : walked.1 = Some (2, 0) /\ pr_running walked.2 = false /\
  pr_config walked.2 = <[DREAM_BACKFILL_AT_KEY := json_to_string (to_rfc3339 9)]> (pr_config demo_process).
Proof.
  assert (H1 : walked.1 = Some (2, 0)) by (vm_compute; reflexivity).
  destruct (backfill_marker error_text (mkService [7%N]) demo_backfill demo_process walked.1 walked.2 false (surjective_pairing walked))
    as [[Hrun (ts & outcomes & _ & _ & _ & H)] _].
  split; [exact H1|]. split; [exact Hrun|]. rewrite H1 in H. destruct H as (_ & _ & _ & _ & Hc). exact Hc.
Defined.
