(* ===== verification/Ingest.v ===== *)
(** * Ingesting books

    [crates/mycelium-librarian/src/ingest.rs] and [worker.rs], and the
    upload and passage handlers of [crates/mycelium-web/src/api.rs]: the
    stack text and the catalog of a book in the library's store, the worker
    that runs the ingest jobs, and the reading of passages.

    The worker is a machine of tasks: each step of a task is one access
    under a lock or one statement, and any task may step next.  The
    accesses of one ingest to the library's store follow one another in one
    step.  A step's environment says whether its statement is refused, the
    id and the time it draws, what the store's accesses meet and what the
    model answers. *)
From S2P Require Import Prelude Float Text Health Library JsonValue Llm Clock Books Crypto FileRepo Concept Search Extract Lifecycle Revisions SearchIndex Vectors ConceptStore.
Open Scope Z_scope.

(** ** Errors *)
Inductive IngestError (YE : Type) := IStore (e : ConceptStoreError YE) | IRepo (e : FileRepoError) | IEmptyBook | INoChapters.
Arguments IStore {YE} e.
Arguments IRepo {YE} e.
Arguments IEmptyBook {YE}.
Arguments INoChapters {YE}.
Inductive WorkerError (YE : Type) := JStore (e : BooksError) | JIngest (e : IngestError YE) | JBookNotFound (slug : str) | JUserBusy.
Arguments JStore {YE} e.
Arguments JIngest {YE} e.
Arguments JBookNotFound {YE} slug.
Arguments JUserBusy {YE}.

Record StagedBook := mkStaged { sg_slug : str; sg_title : str; sg_text : str }.
Record SubmittedJob := mkSubmitted { sj_job : Uuid; sj_book : Uuid; sj_slug : str }.
Definition nil_uuid : Uuid := 0%N.

(** The worker's process and the tables and the store behind it *)
Record Lib := mkLib { lb_db : BooksDb; lb_slots : gmap Uuid Uuid; lb_staged : gmap Uuid StagedBook; lb_store : World }.
Definition with_db (d : BooksDb) (l : Lib) : Lib := mkLib d (lb_slots l) (lb_staged l) (lb_store l).
Definition with_slots (s : gmap Uuid Uuid) (l : Lib) : Lib := mkLib (lb_db l) s (lb_staged l) (lb_store l).
Definition with_staged (s : gmap Uuid StagedBook) (l : Lib) : Lib := mkLib (lb_db l) (lb_slots l) s (lb_store l).
Definition with_store (w : World) (l : Lib) : Lib := mkLib (lb_db l) (lb_slots l) (lb_staged l) w.
Record StepEnv := mkStepEnv { se_id : Uuid; se_now : str; se_fails : bool; se_users : list (Uuid * str); se_store : Env; se_chat : str -> result str LlmError }.

(** ** The upload form *)
Record UploadForm := mkForm { uf_bookshelf : str; uf_slug : str; uf_title : str; uf_replace : bool; uf_file : option bytes }.
Record Upload := mkUpload { up_shelf : Uuid; up_user : Uuid; up_slug : str; up_title : str; up_text : str; up_replace : bool }.

(** What a task is about to do *)
Inductive SubmitAt := SReserve | SCreateBook | SCreateJob (book : Uuid) | SUnreserve (e : BooksError) | SStage (book job : Uuid) | SPoint (book job : Uuid).
Inductive RunAt := RLoad | RClaim (user : Uuid) | RTake (user : Uuid) | RLost (user : Uuid) | RIngest (user : Uuid) (s : StagedBook)
  | RSettle (user : Uuid) (status : IngestStatus) (detail : str) | RRelease (user : Uuid).
Inductive Task :=
  | TDeleteRow (u : Upload) | TDeleteBook (u : Upload) | TSubmit (u : Upload) (a : SubmitAt)
  | TRun (u : Upload) (s : SubmittedJob) (a : RunAt) | TStatus (u : Upload) (s : SubmittedJob)
  | TList | TSweep (job : Uuid) (a : RunAt) (rest : list Uuid).
Inductive UploadAnswer := AAccepted (s : SubmittedJob) (status : option (IngestStatus * str)) | ABusy | ADuplicate (slug : str) | AInternal.
Inductive Event := EListed | EClaimed (job : Uuid) | EIngested (job : Uuid) | EAnswered (user : Uuid) (a : UploadAnswer).

Section Ingest.
Context {AE : Aead} {KD : Kdf} {HX : Hex} {UT : UuidText} {MJ : MetaJson} {LC : Lowercase} {NL : NaturalLog} {DJ : DocJson}.
Context {AN : Alphanumeric} {JT : JsonText}.
Context {YE : Type} `{!YamlCodec YE} (rfc3339_ok : str -> bool) (key : ServiceKey).
Context (store_error_text : ConceptStoreError YE -> str) (repo_error_text : FileRepoError -> str) (db_text : str).
#[local] Abbreviation Cse := (ConceptStoreError YE).
#[local] Abbreviation Ie := (IngestError YE).
#[local] Abbreviation We := (WorkerError YE).

Definition IngestError_display (e : Ie) : str :=
  match e with
  | IStore e => lit "store error: " ++ store_error_text e
  | IRepo e => lit "file repo error: " ++ repo_error_text e
  | IEmptyBook => lit "book text is empty"
  | INoChapters => lit "book has no chapters (no `# ` headings)"
  end.
Definition WorkerError_display (e : We) : str :=
  match e with
  | JStore e => lit "store error: " ++ BooksError_display db_text e
  | JIngest e => lit "ingest error: " ++ IngestError_display e
  | JBookNotFound slug => lit "book not found: " ++ slug
  | JUserBusy => lit "user already has an ingest job running"
  end.

(** ** The stacks *)
Definition library_store : ConceptStore := ConceptStore_for_service key (lit "library").
Definition stack_path_for (slug : str) : str := lit "/library/" ++ slug ++ lit ".md".

(** [?] on a store error, and a result that is not looked at *)
Definition lifted {A} (m : M Cse A) : M Ie A := fun env w => let '(r, w) := m env w in (result_map_err IStore r, w).
Definition ignored {A} (m : M Cse A) : M Ie unit := fun env w => (Ok tt, (m env w).2).
Definition stack_write (path : str) (plain : bytes) : M Ie unit :=
  access (fun env k w =>
    let '(r, d) := write (w_dir w) path plain (ScopeService key) (en_nonce env k 0%nat) (en_nonce env k 1%nat) (en_uuid env k) (en_write env k) in
    (result_map_err IRepo r, ConceptStore.with_dir d w)).
Definition stack_read (path : str) : M Ie bytes :=
  access (fun env k w => (result_map_err IRepo (read (w_dir w) path (ScopeService key) (en_fails env k)), w)).
Definition write_stack_text (slug text : str) : M Ie unit :=
  if bool_decide (trim text = []) then fail IEmptyBook else stack_write (stack_path_for slug) (as_bytes text).
Definition read_stack_text (slug : str) : M Ie str :=
  b ← stack_read (stack_path_for slug);
  of_result (ok_or (IStore (CNotFound (stack_path_for slug))) (from_utf8 b)).

Definition delete_book (slug : str) : M Ie unit :=
  entries ← (fun env w => let '(r, w) := list_prefix (YE := YE) library_store (lit "/" ++ slug ++ lit "/") env w in (Ok (default [] (result_ok r)), w));
  _ ← for_each (fun e => ignored (delete_concept library_store (ce_path e))) entries;
  ignored (access (fun env k w => let '(r, d) := remove (w_dir w) (stack_path_for slug) (ScopeService key) (en_fails env k) in
                                  (result_map_err CRepo r, ConceptStore.with_dir d w))).

Definition catalog_concepts (catalog : BookCatalog) (outline : list ChapterOutline) : list Concept :=
  build_hub_concept catalog outline :: (build_chapter_concept catalog <$> outline).
Definition write_catalog (catalog : BookCatalog) (outline : list ChapterOutline) : M Ie (list str) :=
  match outline with
  | [] => fail INoChapters
  | _ =>
      let concepts := catalog_concepts catalog outline in
      _ ← lifted (put_batch rfc3339_ok (with_provenance (lit "ingest") library_store) concepts);
      mret (source_path <$> concepts)
  end.
Definition ingest_book (slug text : str) (catalog : BookCatalog) : M Ie (list str) :=
  _ ← write_stack_text slug text;
  write_catalog catalog (parse_outline text).
(** [chat]: the client of the current configuration *)
Definition ingest_one (chat : str -> result str LlmError) (s : StagedBook) : M Ie Z :=
  let outline := parse_outline (sg_text s) in
  let catalog := build_catalog (Some chat) (sg_slug s) (sg_title s) outline (sg_text s) in
  written ← ingest_book (sg_slug s) (sg_text s) catalog;
  mret (Z.of_nat (length written)).

(** ** The worker's steps *)
Definition submit_step (e : StepEnv) (u : Upload) (a : SubmitAt) (l : Lib) : (SubmitAt + result SubmittedJob We) * Lib :=
  match a with
  | SReserve =>
      match lb_slots l !! up_user u with
      | Some _ => (inr (Err JUserBusy), l)
      | None => (inl SCreateBook, with_slots (<[up_user u := nil_uuid]> (lb_slots l)) l)
      end
  | SCreateBook =>
      let '(r, d) := create_book (se_id e) (se_now e) (up_shelf u) (up_slug u) (up_title u) (stack_path_for (up_slug u)) (lb_db l) (se_fails e) in
      (inl match r with Ok book => SCreateJob book | Err x => SUnreserve x end, with_db d l)
  | SCreateJob book =>
      let '(r, d) := create_ingest_job (se_users e) (se_id e) (se_now e) (up_shelf u) book (up_user u) (lb_db l) (se_fails e) in
      (inl match r with Ok job => SStage book job | Err x => SUnreserve x end, with_db d l)
  | SUnreserve x => (inr (Err (JStore x)), with_slots (delete (up_user u) (lb_slots l)) l)
  | SStage book job => (inl (SPoint book job), with_staged (<[job := mkStaged (up_slug u) (up_title u) (up_text u)]> (lb_staged l)) l)
  | SPoint book job => (inr (Ok (mkSubmitted job book (up_slug u))), with_slots (<[up_user u := job]> (lb_slots l)) l)
  end.

Definition run_step (e : StepEnv) (job : Uuid) (a : RunAt) (l : Lib) : (RunAt + result unit We) * list Event * Lib :=
  match a with
  | RLoad =>
      match ingest_job job (lb_db l) (se_fails e) with
      | Err x => (inr (Err (JStore x)), [], l)
      | Ok None => (inr (Ok tt), [], l)
      | Ok (Some row) => (inl (RClaim (jb_user row)), [], l)
      end
  | RClaim user =>
      let '(r, d) := claim_ingest_job job (se_now e) (lb_db l) (se_fails e) in
      match r with
      | Err x => (inr (Err (JStore x)), [], with_db d l)
      | Ok false => (inr (Ok tt), [], with_db d l)
      | Ok true => (inl (RTake user), [EClaimed job], with_db d l)
      end
  | RTake user =>
      (inl match lb_staged l !! job with None => RLost user | Some s => RIngest user s end, [], with_staged (delete job (lb_staged l)) l)
  | RLost user =>
      let '(r, d) := update_ingest_job job JFailed (lit "staged text lost after restart" ++ em_dash ++ lit "re-upload the book") (se_now e) (lb_db l) (se_fails e) in
      (match r with Err x => inr (Err (JStore x)) | Ok _ => inl (RRelease user) end, [], with_db d l)
  | RIngest user s =>
      let '(r, w) := ingest_one (se_chat e) s (se_store e) (lb_store l) in
      (inl match r with
           | Ok count => RSettle user JDone (show_N (Z.to_N count) ++ lit " catalog concepts written")
           | Err x => RSettle user JFailed (WorkerError_display (JIngest x))
           end, [EIngested job], with_store w l)
  | RSettle user status detail =>
      let '(r, d) := update_ingest_job job status detail (se_now e) (lb_db l) (se_fails e) in
      (match r with Err x => inr (Err (JStore x)) | Ok _ => inl (RRelease user) end, [], with_db d l)
  | RRelease user => (inr (Ok tt), [], with_slots (delete user (lb_slots l)) l)
  end.
Definition job_status (job : Uuid) (d : BooksDb) (fails : bool) : option (IngestStatus * str) :=
  match ingest_job job d fails with Ok (Some row) => Some (jb_status row, jb_detail row) | _ => None end.

(** The handler: what the answer to a refused submission is *)
Definition refusal (e : We) : UploadAnswer :=
  match e with JUserBusy => ABusy | JStore (BDuplicateSlug s) => ADuplicate s | _ => AInternal end.
Definition next_job (rest : list Uuid) : option Task :=
  match rest with [] => None | job :: rest => Some (TSweep job RLoad rest) end.
Definition task_step (e : StepEnv) (t : Task) (l : Lib) : option Task * list Event * Lib :=
  match t with
  | TDeleteRow u => (Some (TDeleteBook u), [], with_db (delete_book_row (up_slug u) (lb_db l) (se_fails e)).2 l)
  | TDeleteBook u => (Some (TSubmit u SReserve), [], with_store (delete_book (up_slug u) (se_store e) (lb_store l)).2 l)
  | TSubmit u a =>
      let '(r, l) := submit_step e u a l in
      match r with
      | inl a => (Some (TSubmit u a), [], l)
      | inr (Ok s) => (Some (TRun u s RLoad), [], l)
      | inr (Err x) => (None, [EAnswered (up_user u) (refusal x)], l)
      end
  | TRun u s a =>
      let '(r, events, l) := run_step e (sj_job s) a l in
      (Some match r with inl a => TRun u s a | inr _ => TStatus u s end, events, l)
  | TStatus u s => (None, [EAnswered (up_user u) (AAccepted s (job_status (sj_job s) (lb_db l) (se_fails e)))], l)
  | TList => (match pending_ingest_jobs (lb_db l) (se_fails e) with Ok jobs => next_job jobs | Err _ => None end, [EListed], l)
  | TSweep job a rest =>
      let '(r, events, l) := run_step e job a l in
      (match r with inl a => Some (TSweep job a rest) | inr (Ok _) => next_job rest | inr (Err _) => None end, events, l)
  end.

(** ** The handlers *)
(** [api_upload_book] up to the first change: the task of the upload, or
    the status and the message of the refusal *)
Definition check_upload (max_book_mib : Z) (user : Uuid) (f : UploadForm) (d : BooksDb) (fails : bool) : result Task (Z * str) :=
  match uf_file f with
  | None => Err (400, lit "missing file field")
  | Some file =>
      if max_book_mib * 1024 * 1024 <? Z.of_nat (length file)
      then Err (413, lit "book exceeds " ++ show_N (Z.to_N max_book_mib) ++ lit " MiB")
      else match from_utf8 file with
           | None => Err (400, lit "book must be UTF-8 markdown")
           | Some text =>
               if bool_decide (trim text = []) then Err (400, lit "book text is empty")
               else match bookshelf_id_by_name (uf_bookshelf f) d fails with
                    | Ok (Some shelf) =>
                        let slug := slugify (uf_slug f) in
                        if bool_decide (slug = []) then Err (400, lit "invalid slug")
                        else let u := mkUpload shelf user slug (uf_title f) text (uf_replace f) in
                             Ok (if uf_replace f then TDeleteRow u else TSubmit u SReserve)
                    | _ => Err (400, lit "unknown bookshelf")
                    end
           end
  end.

Definition PassageError_display (e : PassageError) : str :=
  match e with AnchorNotFound a => lit "anchor not found in book text: " ++ a | EmptyBook => lit "book text is empty" end.
(** [admin]: the caller's role; [cap]: the configured cap *)
Definition resolve_passage (admin : bool) (cap : nat) (resource : str) (d : BooksDb) (fails : nat -> bool) (env : Env) (w : World)
    : result Passage (Z * str) :=
  match parse_book_ref resource with
  | None => Err (400, lit "invalid book:// resource")
  | Some r =>
      match default None (result_ok (book_by_slug (br_slug r) d (fails 0%nat))) with
      | None => Err (404, lit "book not found")
      | Some (_, book) =>
          match (if fails 1%nat then None else Books.row_of (db_shelves d) (bk_shelf book)) with
          | None => Err (404, lit "bookshelf not found")
          | Some shelf =>
              if negb (bs_global_read shelf) && negb admin then Err (403, lit "bookshelf is not global-read")
              else match (read_stack_text (br_slug r) env w).1 with
                   | Err _ => Err (404, lit "book text unavailable")
                   | Ok text => result_map_err (fun e => (404, PassageError_display e)) (extract_passage_capped (br_slug r) (br_anchor r) text cap)
                   end
          end
      end
  end.

(** ** Histories of the worker *)
(** The tasks, the process, and the ids drawn so far *)
Record Machine := mkMachine { mc_tasks : list Task; mc_lib : Lib; mc_drawn : list Uuid }.
Inductive mstep : Machine -> list Event -> Machine -> Prop :=
  | m_step e ts1 t ts2 l drawn t' events l' : se_id e ∉ drawn -> task_step e t l = (t', events, l') ->
      mstep (mkMachine (ts1 ++ t :: ts2) l drawn) events (mkMachine (ts1 ++ option_list t' ++ ts2) l' (se_id e :: drawn))
  | m_upload mib user f fails ts l drawn t : check_upload mib user f (lb_db l) fails = Ok t ->
      mstep (mkMachine ts l drawn) [] (mkMachine (t :: ts) l drawn)
  | m_sweep ts l drawn : mstep (mkMachine ts l drawn) [] (mkMachine (TList :: ts) l drawn)
  (** a client that goes away takes its request's task with it *)
  | m_drop ts1 t ts2 l drawn : mstep (mkMachine (ts1 ++ t :: ts2) l drawn) [] (mkMachine (ts1 ++ ts2) l drawn)
  (** the process ends; the next one fails the jobs that were running *)
  | m_restart now fails ts l drawn :
      mstep (mkMachine ts l drawn) []
        (mkMachine [] (mkLib (fail_stale_running_jobs now (lb_db l) fails).2 ∅ ∅ (lb_store l)) drawn)
  (** other statements and other uses of the store *)
  | m_shelf id now name global fails ts l drawn :
      mstep (mkMachine ts l drawn) [] (mkMachine ts (with_db (create_bookshelf id now name global (lb_db l) fails).2 l) drawn)
  | m_store w ts l drawn : mstep (mkMachine ts l drawn) [] (mkMachine ts (with_store w l) drawn).
Inductive mhistory : Machine -> list Event -> Machine -> Prop :=
  | mh_nil m : mhistory m [] m
  | mh_snoc m m1 m2 ev1 ev2 : mhistory m ev1 m1 -> mstep m1 ev2 m2 -> mhistory m (ev1 ++ ev2) m2.
Definition boot (d : BooksDb) (w : World) : Machine := mkMachine [] (mkLib d ∅ ∅ w) (db_jobs d).*1.
End Ingest.
