(* ===== verification/IngestProofs.v ===== *)
(** * Properties of the ingest worker

    In every history of the worker each job is claimed and ingested at most
    once. *)
From S2P Require Import Prelude Float Text Health Library JsonValue Llm Clock Books Crypto FileRepo Concept Search Extract Lifecycle Revisions SearchIndex Vectors ConceptStore ConceptStoreProofs Ingest.
Open Scope Z_scope.

(** ** Jobs in histories *)
Definition claimed (evs : list Event) : list Uuid := omap (fun e => match e with EClaimed j => Some j | _ => None end) evs.
Definition ingested (evs : list Event) : list Uuid := omap (fun e => match e with EIngested j => Some j | _ => None end) evs.
(** The job a task has claimed and not yet ingested *)
Definition holds_claim (t : Task) : option Uuid :=
  let at_job (j : Uuid) (a : RunAt) := match a with RTake _ | RIngest _ _ => Some j | _ => None end in
  match t with TRun _ s a => at_job (sj_job s) a | TSweep j a _ => at_job j a | _ => None end.
Definition open_claims (ts : list Task) : list Uuid := omap holds_claim ts.

(** How the statements of the worker move the rows of jobs: none becomes
    pending, but a new one. *)
Definition jobs_move (fresh : Uuid -> Prop) (l l' : list (Uuid * JobRow)) : Prop :=
  forall j r', (j, r') ∈ l' -> (exists r, (j, r) ∈ l /\ jb_user r' = jb_user r /\ (jb_status r' = JPending -> jb_status r = JPending)) \/ fresh j.
Lemma move_same P l : jobs_move P l l.
Proof. intros j r H. left. by exists r. Qed.
Lemma move_on P j f l : (forall r, jb_user (f r) = jb_user r /\ jb_status (f r) <> JPending) -> jobs_move P l (on_job j f l).
Proof.
  intros Hf k r' (r & Hr & Heq)%on_job_elem. left. destruct r as [i r0]. cbn in Heq. destruct (bool_decide (i = j)); injection Heq as -> ->.
  - exists r0. destruct (Hf r0) as [-> Hs]. split; [done|]. by split; [|intros ?%Hs].
  - by exists r0.
Qed.
Lemma move_trans P l1 l2 l3 : jobs_move P l1 l2 -> jobs_move P l2 l3 -> jobs_move P l1 l3.
Proof.
  intros H1 H2 j r3 [(r2 & Hr2 & Hu2 & Hs2)|]%H2; [|by right]. destruct (H1 j r2 Hr2) as [(r1 & Hr1 & Hu1 & Hs1)|]; [|by right].
  left. exists r1. split; [done|]. split; [congruence|tauto].
Qed.
Lemma update_move P j st detail now d fails : st <> JPending -> jobs_move P (db_jobs d) (db_jobs (update_ingest_job j st detail now d fails).2).
Proof. intros Hst. unfold update_ingest_job. destruct fails; [apply move_same|]. by apply move_on. Qed.
Lemma claim_move P j now d fails : jobs_move P (db_jobs d) (db_jobs (claim_ingest_job j now d fails).2).
Proof.
  unfold claim_ingest_job. destruct fails; [apply move_same|]. destruct (Books.row_of _ _) as [r|]; [|apply move_same].
  destruct (is_pending r); [|apply move_same]. by apply move_on.
Qed.
Lemma stale_move P now d fails : jobs_move P (db_jobs d) (db_jobs (fail_stale_running_jobs now d fails).2).
Proof.
  unfold fail_stale_running_jobs. destruct (jobs_in _ _ _) as [ids|]; [|apply move_same]. cbn.
  generalize (fun k => fails (S k)). revert d. induction ids as [|j ids IH]; intros d f; [apply move_same|]. cbn.
  eapply move_trans; [by apply (update_move P j JFailed)|apply IH].
Qed.
Lemma delete_move P slug d fails : jobs_move P (db_jobs d) (db_jobs (delete_book_row slug d fails).2).
Proof.
  unfold delete_book_row. destruct fails; [apply move_same|]. destruct (find_row _ _) as [[i b]|]; [|apply move_same].
  intros j r [H _]%elem_of_retain. left. by exists r.
Qed.
Lemma book_jobs id now shelf slug title path d fails : db_jobs (create_book id now shelf slug title path d fails).2 = db_jobs d.
Proof. unfold create_book. destruct fails; [done|]. destruct (_ || _); [done|]. by destruct (is_some _). Qed.
Lemma job_move users id now shelf book user d fails : jobs_move (eq id) (db_jobs d) (db_jobs (create_ingest_job users id now shelf book user d fails).2).
Proof.
  unfold create_ingest_job. destruct (_ || _ || _ || _ || _); [apply move_same|]. intros j r [H|[= -> _]%list_elem_of_singleton]%elem_of_app; [|by right].
  left. by exists r.
Qed.

Section Proofs.
Context {AE : Aead} {KD : Kdf} {HX : Hex} {UT : UuidText} {MJ : MetaJson} {LC : Lowercase} {NL : NaturalLog} {DJ : DocJson}.
Context {AN : Alphanumeric} {JT : JsonText}.
Context {YE : Type} `{!YamlCodec YE} (rfc3339_ok : str -> bool) (key : ServiceKey).
Context (store_error_text : ConceptStoreError YE -> str) (repo_error_text : FileRepoError -> str) (db_text : str).
#[local] Abbreviation task_step := (task_step (YE := YE) rfc3339_ok key store_error_text repo_error_text db_text).
#[local] Abbreviation run_step := (run_step (YE := YE) rfc3339_ok key store_error_text repo_error_text db_text).
#[local] Abbreviation mhistory := (mhistory (YE := YE) rfc3339_ok key store_error_text repo_error_text db_text).
#[local] Abbreviation mstep := (mstep (YE := YE) rfc3339_ok key store_error_text repo_error_text db_text).

(** What a step does with claims: it claims a pending job whose rows are
    not pending afterwards, or claims none. *)
Definition claims_well (evs : list Event) (l l' : list (Uuid * JobRow)) : Prop :=
  claimed evs = [] \/ exists j, claimed evs = [j] /\ (exists r, (j, r) ∈ l /\ jb_status r = JPending) /\ forall r, (j, r) ∈ l' -> jb_status r <> JPending.
Definition open_at (j : Uuid) (a : RunAt) : list Uuid := match a with RTake _ | RIngest _ _ => [j] | _ => [] end.
(** A job is settled with an end. *)
Definition at_ok (a : RunAt) : Prop := match a with RSettle _ st _ => st <> JPending | _ => True end.
Lemma row_in {A} (l : list (Uuid * A)) id x : Books.row_of l id = Some x -> (id, x) ∈ l.
Proof.
  unfold Books.row_of. destruct (find_first _ _) as [[i y]|] eqn:E; [|done]. cbn. intros [= ->].
  apply find_first_Some in E as [Hin Hi%bool_decide_eq_true]. cbn in Hi. by subst i.
Qed.
Lemma run_step_claims e job a l r evs l' : at_ok a -> run_step e job a l = (r, evs, l') ->
  jobs_move (eq (se_id e)) (db_jobs (lb_db l)) (db_jobs (lb_db l')) /\ claims_well evs (db_jobs (lb_db l)) (db_jobs (lb_db l')) /\
  ingested evs ++ match r with inl a' => open_at job a' | inr _ => [] end ⊆+ open_at job a ++ claimed evs /\
  match r with inl a' => at_ok a' | inr _ => True end.
Proof.
  intros Hok H. destruct a as [|user|user|user|user s|user status detail|user]; cbn in H.
  - destruct (ingest_job _ _ _) as [[row|]|]; injection H as <- <- <-; (split; [apply move_same|split; [by left|done]]).
  - pose proof (claim_move (eq (se_id e)) job (se_now e) (lb_db l) (se_fails e)) as Hm. revert H Hm. unfold claim_ingest_job.
    destruct (se_fails e); [intros [= <- <- <-] Hm; split_and!; [done|by left|done|done]|].
    destruct (Books.row_of (db_jobs (lb_db l)) job) as [row|] eqn:Hrow; [|intros [= <- <- <-] Hm; split_and!; [done|by left|done|done]].
    destruct (is_pending row) eqn:Hp; intros [= <- <- <-] Hm; (split; [done|]); [|split; [by left|done]]. split; [|done].
    right. exists job. split; [done|]. split.
    + exists row. split; [by apply row_in|]. by apply bool_decide_eq_true in Hp.
    + intros row' (r' & _ & Heq)%on_job_elem. destruct r' as [i r0]. cbn in Heq. destruct (bool_decide_reflect (i = job)); [|by injection Heq as -> ->].
      injection Heq as Hrow'. subst row'. cbn. done.
  - injection H as <- <- <-. split; [apply move_same|]. split; [by left|]. cbn. destruct (lb_staged l !! job); [done|]. split; [apply submseteq_nil_l|done].
  - pose proof (update_move (eq (se_id e)) job JFailed (lit "staged text lost after restart" ++ em_dash ++ lit "re-upload the book") (se_now e) (lb_db l) (se_fails e) ltac:(done)) as Hm.
    destruct (update_ingest_job _ _ _ _ _ _) as [[?|?] d]; injection H as <- <- <-; (split; [exact Hm|split; [by left|done]]).
  - destruct (ingest_one _ _ _ _ _ _) as [x w]. injection H as <- <- <-. split; [apply move_same|]. split; [by left|]. by destruct x.
  - pose proof (update_move (eq (se_id e)) job status detail (se_now e) (lb_db l) (se_fails e) Hok) as Hm.
    destruct (update_ingest_job _ _ _ _ _ _) as [[?|?] d]; injection H as <- <- <-; (split; [exact Hm|split; [by left|done]]).
  - injection H as <- <- <-. split; [apply move_same|]. split; [by left|done].
Qed.
Definition task_ok (t : Task) : Prop := match t with TRun _ _ a | TSweep _ a _ => at_ok a | _ => True end.
Lemma next_job_open rest : option_list (next_job rest ≫= holds_claim) = [] /\ (forall t, next_job rest = Some t -> task_ok t).
Proof. destruct rest; [done|]. split; [done|]. by intros t [= <-]. Qed.
Lemma open_task t : option_list (holds_claim t) = match t with TRun _ s a => open_at (sj_job s) a | TSweep j a _ => open_at j a | _ => [] end.
Proof. destruct t as [| | |u s []| | |j [] rest]; done. Qed.
Lemma submit_jobs e u a l r l' : submit_step (YE := YE) e u a l = (r, l') -> jobs_move (eq (se_id e)) (db_jobs (lb_db l)) (db_jobs (lb_db l')).
Proof.
  destruct a as [| |book|x|book job|book job]; cbn; intros H.
  - destruct (_ !! _); injection H as <- <-; apply move_same.
  - destruct (create_book _ _ _ _ _ _ _ _) as [x d] eqn:E. injection H as <- <-. cbn. pose proof (f_equal snd E) as Hd. cbn in Hd.
    rewrite <- Hd, book_jobs. apply move_same.
  - pose proof (job_move (se_users e) (se_id e) (se_now e) (up_shelf u) book (up_user u) (lb_db l) (se_fails e)) as Hm.
    destruct (create_ingest_job _ _ _ _ _ _ _ _) as [x d]. by injection H as <- <-.
  - injection H as <- <-. apply move_same.
  - injection H as <- <-. apply move_same.
  - injection H as <- <-. apply move_same.
Qed.
Lemma task_step_claims e t l t' evs l' : task_ok t -> task_step e t l = (t', evs, l') ->
  jobs_move (eq (se_id e)) (db_jobs (lb_db l)) (db_jobs (lb_db l')) /\ claims_well evs (db_jobs (lb_db l)) (db_jobs (lb_db l')) /\
  ingested evs ++ option_list (t' ≫= holds_claim) ⊆+ option_list (holds_claim t) ++ claimed evs /\ (forall t1, t' = Some t1 -> task_ok t1).
Proof.
  intros Hok H. rewrite open_task. destruct t as [u|u|u a|u s a|u s| |job a rest]; cbn in H.
  - injection H as <- <- <-. split; [apply delete_move|]. split; [by left|]. split; [done|]. by intros t1 [= <-].
  - injection H as <- <- <-. split; [apply move_same|]. split; [by left|]. split; [done|]. by intros t1 [= <-].
  - destruct (submit_step (YE := YE) e u a l) as [r l1] eqn:E. apply submit_jobs in E.
    destruct r as [a'|[s|x]]; injection H as <- <- <-; (split; [done|]; split; [by left|]; split; [done|]; by intros t1 [= <-]).
  - destruct (Ingest.run_step _ _ _ _ _ _ _ _ _) as [[r ev] l1] eqn:E. apply run_step_claims in E as (Hm & Hc & Hs & Ha); [|done].
    injection H as <- <- <-. split; [done|]. split; [done|]. destruct r as [a'|x]; cbn [mbind option_bind]; rewrite ?open_task; (split; [done|]; by intros t1 [= <-]).
  - injection H as <- <- <-. split; [apply move_same|]. by split; [left|].
  - destruct (pending_ingest_jobs _ _) as [jobs|]; injection H as <- <- <-; (split; [apply move_same|split; [by left|]]); [|done].
    destruct (next_job_open jobs) as [-> Ho]. split; [done|exact Ho].
  - destruct (Ingest.run_step _ _ _ _ _ _ _ _ _) as [[r ev] l1] eqn:E. apply run_step_claims in E as (Hm & Hc & Hs & Ha); [|done].
    injection H as <- <- <-. split; [done|]. split; [done|]. destruct r as [a'|[x|x]]; cbn [mbind option_bind]; rewrite ?open_task.
    + split; [done|]. by intros t1 [= <-].
    + destruct (next_job_open rest) as [-> Ho]. split; [done|exact Ho].
    + by split.
Qed.

(** What holds in every history *)
Record worker_inv (m : Machine) (evs : list Event) : Prop := {
  wi_once : NoDup (claimed evs);
  wi_drawn j : j ∈ claimed evs -> j ∈ mc_drawn m;
  wi_rows j r : (j, r) ∈ db_jobs (lb_db (mc_lib m)) -> j ∈ mc_drawn m;
  wi_taken j r : j ∈ claimed evs -> (j, r) ∈ db_jobs (lb_db (mc_lib m)) -> jb_status r <> JPending;
  wi_open : ingested evs ++ open_claims (mc_tasks m) ⊆+ claimed evs;
  wi_tasks : Forall task_ok (mc_tasks m) }.
(** A step that claims nothing *)
Lemma inv_move P m evs evs' ts' l' drawn' : worker_inv m evs -> (forall j, j ∈ mc_drawn m -> j ∈ drawn') -> (forall j, P j -> j ∈ drawn' /\ j ∉ mc_drawn m) ->
  jobs_move P (db_jobs (lb_db (mc_lib m))) (db_jobs (lb_db l')) -> claims_well evs' (db_jobs (lb_db (mc_lib m))) (db_jobs (lb_db l')) ->
  ingested evs' ++ open_claims ts' ⊆+ open_claims (mc_tasks m) ++ claimed evs' -> Forall task_ok ts' ->
  worker_inv (mkMachine ts' l' drawn') (evs ++ evs').
Proof.
  intros [] Hsub HP Hm Hc Ho Ht. assert (Hcl : claimed (evs ++ evs') = claimed evs ++ claimed evs') by apply omap_app.
  assert (Hing : ingested (evs ++ evs') = ingested evs ++ ingested evs') by apply omap_app.
  assert (Hnew : forall j, j ∈ claimed evs' -> (exists r, (j, r) ∈ db_jobs (lb_db (mc_lib m)) /\ jb_status r = JPending) /\
    forall r, (j, r) ∈ db_jobs (lb_db l') -> jb_status r <> JPending).
  { destruct Hc as [Hc|(j & Hc & Hr)]; rewrite Hc; [by intros j ?%not_elem_of_nil|]. by intros j' ->%list_elem_of_singleton. }
  constructor; cbn; rewrite ?Hcl, ?Hing; try done.
  - apply NoDup_app. split; [done|]. split.
    + intros j Hj (( r & Hr & Hp) & _)%Hnew. by apply (wi_taken0 j r).
    + destruct Hc as [->|(j & -> & _)]; [apply NoDup_nil_2|apply NoDup_singleton].
  - intros j [Hj|((r & Hr & _) & _)%Hnew]%elem_of_app; [by apply Hsub, wi_drawn0|by apply Hsub, (wi_rows0 j r)].
  - intros j r Hr. destruct (Hm j r Hr) as [(r0 & Hr0 & _)|Hj]; [by apply Hsub, (wi_rows0 j r0)|by apply HP].
  - intros j r [Hj|[_ Hj]%Hnew]%elem_of_app Hr; [|by apply Hj].
    destruct (Hm j r Hr) as [(r0 & Hr0 & _ & Hst)|Hf]; [|by destruct (HP j Hf) as [_ []]; apply wi_drawn0]. intros Hp. by apply (wi_taken0 j r0 Hj Hr0), Hst.
  - rewrite <- app_assoc. etrans; [apply submseteq_app; [reflexivity|exact Ho]|]. rewrite app_assoc. by apply submseteq_app.
Qed.
Lemma omap_middle {A} (f : Task -> option A) ts1 t ts2 : (omap f (ts1 ++ option_list t ++ ts2) : list A) ≡ₚ option_list (t ≫= f) ++ omap f (ts1 ++ ts2).
Proof. rewrite !omap_app. destruct t as [t|]; cbn; [|done]. destruct (f t); cbn; [|done]. symmetry. apply Permutation_middle. Qed.
Lemma open_middle ts1 t ts2 : open_claims (ts1 ++ option_list t ++ ts2) ≡ₚ option_list (t ≫= holds_claim) ++ open_claims (ts1 ++ ts2).
Proof. apply omap_middle. Qed.
Lemma still m evs ts' l' : worker_inv m evs -> jobs_move (fun _ => False) (db_jobs (lb_db (mc_lib m))) (db_jobs (lb_db l')) ->
  open_claims ts' ⊆+ open_claims (mc_tasks m) -> Forall task_ok ts' -> worker_inv (mkMachine ts' l' (mc_drawn m)) (evs ++ []).
Proof.
  intros HI Hm Ho Ht. apply (inv_move (fun _ => False) _ _ _ _ _ _ HI); cbn; try done; [by left|]. by rewrite app_nil_r.
Qed.
Lemma upload_task mib user f d fails t : check_upload mib user f d fails = Ok t -> holds_claim t = None /\ task_ok t.
Proof.
  unfold check_upload. destruct (uf_file f) as [file|]; [|done]. destruct (_ <? _); [done|]. destruct (from_utf8 file) as [text|]; [|done].
  case_bool_decide; [done|]. destruct (bookshelf_id_by_name _ _ _) as [[shelf|]|]; [|done..]. case_bool_decide; [done|]. intros [= <-]. by destruct (uf_replace f).
Qed.
Lemma inv_step m evs evs' m' : worker_inv m evs -> mstep m evs' m' -> worker_inv m' (evs ++ evs').
Proof.
  intros HI Hs. destruct Hs as [e ts1 t ts2 l drawn t' events l' Hfresh Hstep|mib user f fails ts l drawn t Ht|ts l drawn|ts1 t ts2 l drawn|now fails ts l drawn|
    id now name global fails ts l drawn|w ts l drawn]; pose proof (wi_tasks _ _ HI) as Htasks; cbn in Htasks.
  - apply Forall_app in Htasks as [H1 [H2 H3]%Forall_cons]. apply task_step_claims in Hstep as (Hm & Hc & Ho & Hok); [|done].
    apply (inv_move (eq (se_id e)) _ _ _ _ _ _ HI); cbn; try done.
    + intros j Hj. by right.
    + intros j <-. split; [by left|done].
    + rewrite open_middle. pose proof (open_middle ts1 (Some t) ts2) as Hp. cbn [option_list app mbind option_bind] in Hp. rewrite Hp, app_assoc.
      etrans; [apply submseteq_app; [exact Ho|reflexivity]|]. rewrite <- !app_assoc. apply submseteq_app; [done|]. by rewrite (Permutation_app_comm (claimed events)).
    + apply Forall_app. split; [done|]. apply Forall_app. split; [|done]. destruct t' as [t1|]; [|apply Forall_nil_2]. apply Forall_singleton. by apply Hok.
  - apply upload_task in Ht as [Ho Hok]. apply (still _ _ _ _ HI); cbn; [apply move_same| |by apply Forall_cons].
    unfold open_claims. cbn. by rewrite Ho.
  - apply (still _ _ _ _ HI); cbn; [apply move_same|done|by apply Forall_cons].
  - apply Forall_app in Htasks as [H1 [H2 H3]%Forall_cons]. apply (still _ _ _ _ HI); cbn; [apply move_same| |by apply Forall_app].
    pose proof (open_middle ts1 (Some t) ts2) as Hp. cbn [option_list app] in Hp. rewrite Hp. by apply submseteq_inserts_l.
  - apply (still _ _ _ _ HI); cbn; [apply stale_move|apply submseteq_nil_l|apply Forall_nil_2].
  - apply (still _ _ _ _ HI); cbn; [|done|done]. unfold create_bookshelf. destruct (_ || _); apply move_same.
  - apply (still _ _ _ _ HI); cbn; [apply move_same|done|done].
Qed.
Lemma boot_inv d w : (forall j r, (j, r) ∈ db_jobs d -> j ∈ (db_jobs d).*1) -> worker_inv (boot d w) [].
Proof. intros Hrows. constructor; cbn; [apply NoDup_nil_2|by intros ? ?%not_elem_of_nil|exact Hrows|by intros ? ? ?%not_elem_of_nil|done|apply Forall_nil_2]. Qed.
Lemma history_worker m evs m' : mhistory m evs m' -> worker_inv m [] -> worker_inv m' evs.
Proof. induction 1 as [m|m m1 m2 ev1 ev2 _ IH Hs]; [done|]. intros HI. by apply (inv_step m1); [apply IH|]. Qed.

(** C28. In every history of the worker from its boot on, with uploads, sweeps,
    refused statements, clients that go away and restarts in any order and
    interleaving, each job is claimed at most once and ingested at most
    once, and only after it was claimed. *)
Theorem job_runs_once d w evs m : mhistory (boot d w) evs m -> NoDup (claimed evs) /\ NoDup (ingested evs) /\ ingested evs ⊆+ claimed evs.
Proof.
  intros Hh. destruct (history_worker _ _ _ Hh) as [Hn _ _ _ Ho _].
  { apply boot_inv. intros j r Hr. apply list_elem_of_fmap. by exists (j, r). }
  assert (ingested evs ⊆+ claimed evs) as Hs by (etrans; [|exact Ho]; by apply submseteq_inserts_r).
  split; [done|]. split; [|done]. apply submseteq_Permutation in Hs as [k Hk]. rewrite Hk in Hn. by apply NoDup_app in Hn as [? _].
Qed.

(** ** One upload for a user *)
(** The user whose slot the task of an upload holds *)
Definition busy_user (t : Task) : option Uuid :=
  match t with
  | TSubmit _ SReserve => None
  | TSubmit u _ | TRun u _ _ => Some (up_user u)
  | _ => None
  end.
Definition busy (ts : list Task) : list Uuid := omap busy_user ts.
Definition at_user (user : Uuid) (a : RunAt) : Prop :=
  match a with RLoad => True | RClaim u | RTake u | RLost u | RIngest u _ | RSettle u _ _ | RRelease u => u = user end.
(** The job is the user's. *)
Definition job_of (user job : Uuid) (l : list (Uuid * JobRow)) (drawn : list Uuid) : Prop := job ∈ drawn /\ forall r, (job, r) ∈ l -> jb_user r = user.
Definition owns (l : list (Uuid * JobRow)) (drawn : list Uuid) (t : Task) : Prop :=
  match t with
  | TSubmit u (SStage _ job) | TSubmit u (SPoint _ job) => job_of (up_user u) job l drawn
  | TRun u s a => job_of (up_user u) (sj_job s) l drawn /\ at_user (up_user u) a
  | TSweep _ _ _ => False
  | _ => True
  end.
Record slots_inv (m : Machine) : Prop := {
  si_slot u : u ∈ busy (mc_tasks m) -> is_Some (lb_slots (mc_lib m) !! u);
  si_once : NoDup (busy (mc_tasks m));
  si_rows j r : (j, r) ∈ db_jobs (lb_db (mc_lib m)) -> j ∈ mc_drawn m;
  si_owns : Forall (owns (db_jobs (lb_db (mc_lib m))) (mc_drawn m)) (mc_tasks m);
  si_ok : Forall task_ok (mc_tasks m) }.
Lemma job_of_move P user job l l' drawn drawn' : job_of user job l drawn -> jobs_move P l l' -> (forall j, P j -> j ∉ drawn) -> drawn ⊆ drawn' -> job_of user job l' drawn'.
Proof.
  intros [Hd Hu] Hm HP Hsub. split; [by apply Hsub|]. intros r [(r0 & Hr0 & -> & _)|Hf]%Hm; [by apply Hu|]. by destruct (HP job Hf).
Qed.
Lemma owns_move P t l l' drawn drawn' : owns l drawn t -> jobs_move P l l' -> (forall j, P j -> j ∉ drawn) -> drawn ⊆ drawn' -> owns l' drawn' t.
Proof.
  intros Ho Hm HP Hs. destruct t as [| |u []|u s a| | |]; cbn in *; try done; try (by eapply job_of_move). destruct Ho. split; [by eapply job_of_move|done].
Qed.
(** What a step does with the user's slot *)
Definition slot_change (u : Uuid) (t : Task) (t' : option Task) (s s' : gmap Uuid Uuid) : Prop :=
  match busy_user t, t' ≫= busy_user with
  | None, None => s' = s
  | None, Some v => v = u /\ s !! u = None /\ exists x, s' = <[u := x]> s
  | Some v, Some v' => v = u /\ v' = u /\ (s' = s \/ exists x, s' = <[u := x]> s)
  | Some v, None => v = u /\ (s' = s \/ s' = delete u s)
  end.
Lemma submit_slots e u a l r l' drawn : owns (db_jobs (lb_db l)) drawn (TSubmit u a) -> se_id e ∉ drawn -> (forall j r, (j, r) ∈ db_jobs (lb_db l) -> j ∈ drawn) ->
  submit_step (YE := YE) e u a l = (r, l') ->
  let t' := match r with inl a' => Some (TSubmit u a') | inr (Ok s) => Some (TRun u s RLoad) | inr (Err _) => None end in
  slot_change (up_user u) (TSubmit u a) t' (lb_slots l) (lb_slots l') /\ (forall t1, t' = Some t1 -> owns (db_jobs (lb_db l')) (se_id e :: drawn) t1).
Proof.
  intros Ho Hf Hrows H t'. assert (Hmono : forall job, job_of (up_user u) job (db_jobs (lb_db l)) drawn -> job_of (up_user u) job (db_jobs (lb_db l)) (se_id e :: drawn)).
  { intros job [H1 H2]. split; [by right|done]. }
  destruct a as [| |book|x|book job|book job]; cbn in H, Ho.
  - destruct (_ !! _) eqn:Hs; injection H as <- <-; unfold t', slot_change; cbn; (split; [|by intros t1 [= <-]]); [done|].
    split_and!; [done|done|by eexists].
  - destruct (create_book _ _ _ _ _ _ _ _) as [[]]; injection H as <- <-; unfold t', slot_change; cbn; (split; [by auto|by intros t1 [= <-]]).
  - assert (Hm := job_move (se_users e) (se_id e) (se_now e) (up_shelf u) book (up_user u) (lb_db l) (se_fails e)).
    destruct (create_ingest_job _ _ _ _ _ _ _ _) as [[job|x] d] eqn:E; injection H as <- <-; unfold t', slot_change; cbn; (split; [by auto|]); [|by intros t1 [= <-]].
    intros t1 [= <-]. cbn. revert E. unfold create_ingest_job. destruct (_ || _ || _ || _ || _); [done|]. intros [= <- <-]. split; [by left|]. cbn.
    intros r [Hr|[= ->]%list_elem_of_singleton]%elem_of_app; [|done]. by apply Hrows in Hr.
  - injection H as <- <-. unfold t', slot_change. cbn. split; [by auto|done].
  - injection H as <- <-. unfold t', slot_change. cbn. split; [by auto|]. intros t1 [= <-]. by apply Hmono.
  - injection H as <- <-. unfold t', slot_change. cbn. split; [by eauto 6|]. intros t1 [= <-]. cbn. split; [by apply Hmono|done].
Qed.
Lemma run_slots e user job a l r evs l' drawn : job_of user job (db_jobs (lb_db l)) drawn -> at_user user a -> se_id e ∉ drawn ->
  at_ok a -> run_step e job a l = (r, evs, l') ->
  (lb_slots l' = lb_slots l \/ lb_slots l' = delete user (lb_slots l) /\ exists x, r = inr x) /\
  job_of user job (db_jobs (lb_db l')) (se_id e :: drawn) /\ match r with inl a' => at_user user a' | inr _ => True end.
Proof.
  intros Ho Ha Hf Hok H. pose proof (run_step_claims _ _ _ _ _ _ _ Hok H) as (Hm & _).
  assert (Hjob : job_of user job (db_jobs (lb_db l')) (se_id e :: drawn)).
  { eapply job_of_move; [exact Ho|exact Hm|by intros j <-|]. intros j Hj. by right. }
  split; [|split; [done|]].
  - destruct a as [|u|u|u|u s|u st dt|u]; cbn in H.
    + left. by destruct (ingest_job _ _ _) as [[row|]|]; injection H as <- <- <-.
    + left. by destruct (claim_ingest_job _ _ _ _) as [[[]|] d]; injection H as <- <- <-.
    + left. by injection H as <- <- <-.
    + left. by destruct (update_ingest_job _ _ _ _ _ _) as [[] d]; injection H as <- <- <-.
    + left. by destruct (ingest_one _ _ _ _ _ _) as [x w]; injection H as <- <- <-.
    + left. by destruct (update_ingest_job _ _ _ _ _ _) as [[] d]; injection H as <- <- <-.
    + right. injection H as <- <- <-. cbn in Ha. subst u. split; [done|by eexists].
  - destruct a as [|u|u|u|u s|u st dt|u]; cbn in H, Ha.
    + unfold ingest_job in H. destruct (se_fails e); [by injection H as <- <- <-|].
      destruct (Books.row_of _ _) as [row|] eqn:E; injection H as <- <- <-; [|done]. apply row_in in E. by apply (proj2 Ho).
    + by destruct (claim_ingest_job _ _ _ _) as [[[]|] d]; injection H as <- <- <-.
    + injection H as <- <- <-. by destruct (_ !! _).
    + by destruct (update_ingest_job _ _ _ _ _ _) as [[] d]; injection H as <- <- <-.
    + destruct (ingest_one _ _ _ _ _ _) as [[] w]; by injection H as <- <- <-.
    + by destruct (update_ingest_job _ _ _ _ _ _) as [[] d]; injection H as <- <- <-.
    + by injection H as <- <- <-.
Qed.
Lemma task_slots e t l t' evs l' drawn : owns (db_jobs (lb_db l)) drawn t -> task_ok t -> se_id e ∉ drawn -> (forall j r, (j, r) ∈ db_jobs (lb_db l) -> j ∈ drawn) ->
  task_step e t l = (t', evs, l') -> EListed ∉ evs ->
  (exists u, slot_change u t t' (lb_slots l) (lb_slots l')) /\ (forall t1, t' = Some t1 -> owns (db_jobs (lb_db l')) (se_id e :: drawn) t1).
Proof.
  intros Ho Hok Hf Hrows H Hev. destruct t as [u|u|u a|u s a|u s| |job a rest]; cbn in H.
  - injection H as <- <- <-. split; [by exists 0%N|]. by intros t1 [= <-].
  - injection H as <- <- <-. split; [by exists 0%N|]. by intros t1 [= <-].
  - destruct (submit_step e u a l) as [r l1] eqn:E. destruct (submit_slots _ _ _ _ _ _ _ Ho Hf Hrows E) as [Hs Hown].
    destruct r as [a'|[s|x]]; injection H as <- <- <-; (split; [by exists (up_user u)|exact Hown]).
  - destruct (Ingest.run_step _ _ _ _ _ _ _ _ _) as [[r ev] l1] eqn:E. destruct Ho as [Ho Ha].
    destruct (run_slots _ _ _ _ _ _ _ _ _ Ho Ha Hf Hok E) as (Hs & Hj & Ha'). injection H as <- <- <-. split.
    + exists (up_user u). unfold slot_change. cbn. destruct r as [a'|x]; cbn; [|split; [done|]; destruct Hs as [|[? _]]; auto].
      split; [done|]. split; [done|]. destruct Hs as [|(_ & x & [=])]. by left.
    + intros t1 [= <-]. by destruct r as [a'|x].
  - injection H as <- <- <-. split; [by exists 0%N|]. by intros t1.
  - exfalso. apply Hev. destruct (pending_ingest_jobs _ _); injection H as <- <- <-; by left.
  - done.
Qed.
Lemma busy_middle ts1 t ts2 : busy (ts1 ++ option_list t ++ ts2) ≡ₚ option_list (t ≫= busy_user) ++ busy (ts1 ++ ts2).
Proof. apply omap_middle. Qed.
Lemma slots_change u t t' ts s s' : slot_change u t t' s s' -> NoDup (option_list (busy_user t) ++ busy ts) ->
  (forall v, v ∈ option_list (busy_user t) ++ busy ts -> is_Some (s !! v)) ->
  NoDup (option_list (t' ≫= busy_user) ++ busy ts) /\ (forall v, v ∈ option_list (t' ≫= busy_user) ++ busy ts -> is_Some (s' !! v)).
Proof.
  unfold slot_change. intros Hc Hn Hs. destruct (busy_user t) as [v|], (t' ≫= busy_user) as [v'|]; cbn in *.
  - destruct Hc as (-> & -> & Hc). split; [done|]. intros w Hw%Hs. destruct Hc as [->|[x ->]]; [done|].
    destruct (decide (w = u)) as [->|]; [rewrite lookup_insert; destruct (decide (u = u)); [by eexists|done]|by rewrite lookup_insert_ne].
  - destruct Hc as [-> Hc]. apply NoDup_cons in Hn as [Hu Hn]. split; [done|]. intros w Hw. assert (is_Some (s !! w)) by (apply Hs; by right).
    destruct Hc as [->| ->]; [done|]. rewrite lookup_delete_ne; [done|]. by intros ->.
  - destruct Hc as (-> & Hnone & x & ->). split.
    + apply NoDup_cons. split; [|done]. intros [y Hy]%Hs. congruence.
    + intros w Hw. destruct (decide (w = u)) as [->|]; [rewrite lookup_insert; destruct (decide (u = u)); [by eexists|done]|].
      rewrite lookup_insert_ne by done. apply elem_of_cons in Hw as [->|Hw]; [done|by apply Hs].
  - by rewrite Hc.
Qed.
Lemma slots_step m evs m' : slots_inv m -> mstep m evs m' -> EListed ∉ evs -> slots_inv m'.
Proof.
  intros HI Hst Hev. destruct HI as [Hs Hn Hr Ho Hok].
  destruct Hst as [e ts1 t ts2 l drawn t' events l' Hfresh Hstep|mib user f fails ts l drawn t Ht|ts l drawn|ts1 t ts2 l drawn|now fails ts l drawn|
    id now name global fails ts l drawn|w ts l drawn]; cbn in *.
  - apply Forall_app in Ho as [Ho1 [Ho2 Ho3]%Forall_cons], Hok as [Hk1 [Hk2 Hk3]%Forall_cons].
    destruct (task_slots _ _ _ _ _ _ _ Ho2 Hk2 Hfresh Hr Hstep Hev) as [[u Hc] Hown].
    pose proof (task_step_claims _ _ _ _ _ _ Hk2 Hstep) as (Hm & _ & _ & Hk').
    pose proof (busy_middle ts1 (Some t) ts2) as Hp. cbn [option_list app mbind option_bind] in Hp.
    destruct (slots_change u t t' (ts1 ++ ts2) _ _ Hc) as [Hn' Hs'].
    { by rewrite <- Hp. }
    { intros v Hv. apply Hs. by rewrite Hp. }
    constructor; cbn.
    + intros v Hv. apply Hs'. by rewrite <- busy_middle.
    + by rewrite busy_middle.
    + intros j r [(r0 & Hr0 & _)| <-]%Hm; [right; by eapply Hr|by left].
    + assert (Hkeep : forall ts, Forall (owns (db_jobs (lb_db l)) drawn) ts -> Forall (owns (db_jobs (lb_db l')) (se_id e :: drawn)) ts).
      { intros ts Hts. eapply Forall_impl; [exact Hts|]. intros t0 Ht0. eapply owns_move; [exact Ht0|exact Hm|by intros j <-|]. intros j Hj. by right. }
      apply Forall_app. split; [by apply Hkeep|]. apply Forall_app. split; [|by apply Hkeep].
      destruct t' as [t1|]; [|apply Forall_nil_2]. apply Forall_singleton. by apply Hown.
    + apply Forall_app. split; [done|]. apply Forall_app. split; [|done]. destruct t' as [t1|]; [|apply Forall_nil_2]. apply Forall_singleton. by apply Hk'.
  - assert (busy_user t = None /\ owns (db_jobs (lb_db l)) drawn t) as [Hb Hot].
    { revert Ht. unfold check_upload. destruct (uf_file f) as [file|]; [|done]. destruct (_ <? _); [done|]. destruct (from_utf8 file) as [text|]; [|done].
      case_bool_decide; [done|]. destruct (bookshelf_id_by_name _ _ _) as [[shelf|]|]; [|done..]. case_bool_decide; [done|]. intros [= <-]. by destruct (uf_replace f). }
    apply upload_task in Ht as [_ Hokt]. constructor; cbn; unfold busy in *; cbn; rewrite ?Hb; try done; by apply Forall_cons.
  - constructor; cbn; try done; by apply Forall_cons.
  - pose proof (busy_middle ts1 (Some t) ts2) as Hp. cbn [option_list app mbind option_bind] in Hp.
    apply Forall_app in Ho as [Ho1 [Ho2 Ho3]%Forall_cons], Hok as [Hk1 [Hk2 Hk3]%Forall_cons].
    constructor; cbn; [| |done|by apply Forall_app..].
    + intros v Hv. apply Hs. rewrite Hp. apply elem_of_app. by right.
    + rewrite Hp in Hn. by apply NoDup_app in Hn as (_ & _ & ?).
  - constructor; cbn; [by intros ? ?%not_elem_of_nil|apply NoDup_nil_2| |apply Forall_nil_2..].
    intros j r Hj. apply (stale_move (fun _ => False)) in Hj as [(r0 & Hr0 & _)|[]]. by eapply Hr.
  - assert (db_jobs (create_bookshelf id now name global (lb_db l) fails).2 = db_jobs (lb_db l)) as Hj by (unfold create_bookshelf; by destruct (_ || _)).
    constructor; cbn; rewrite ?Hj; done.
  - by constructor.
Qed.

(** C30. One upload for a user at a time: in every history of the worker without
    sweeps, with uploads in any interleaving, refused statements, clients
    that go away and restarts, at most one upload of each user is past the
    reservation of the slot, and its user's slot is taken, so that any other
    upload of the user is refused. *)
Theorem one_upload_per_user d w evs m : mhistory (boot d w) evs m -> EListed ∉ evs ->
  NoDup (busy (mc_tasks m)) /\ forall user, user ∈ busy (mc_tasks m) ->
    is_Some (lb_slots (mc_lib m) !! user) /\
    forall e u, up_user u = user -> task_step e (TSubmit u SReserve) (mc_lib m) = (None, [EAnswered user ABusy], mc_lib m).
Proof.
  intros Hh Hev. assert (slots_inv m) as HI.
  { revert Hh Hev. generalize (eq_refl (boot d w)). generalize (boot d w) at 1 3. intros m0 Hm0 Hh. induction Hh as [m0|m0 m1 m2 ev1 ev2 _ IH Hs]; intros Hev.
    - subst m0. constructor; cbn; [by intros ? ?%not_elem_of_nil|apply NoDup_nil_2| |apply Forall_nil_2..].
      intros j r Hr. apply list_elem_of_fmap. by exists (j, r).
    - apply not_elem_of_app in Hev as [H1 H2]. eapply slots_step; [by apply IH|exact Hs|done]. }
  split; [apply HI|]. intros user Hu. pose proof (si_slot _ HI user Hu) as [x Hx]. split; [by exists x|].
  intros e u <-. cbn. by rewrite Hx.
Qed.
End Proofs.
