(* ===== verification/IngestStore.v ===== *)
(** * What an ingest writes

    After an ingest that succeeds the stack text reads back, every concept
    of the catalog is stored and listed, and other books' texts are as they
    were. *)
From S2P Require Import Prelude Float Text Health Library JsonValue Llm Clock Books Crypto FileRepo Concept Search Extract Lifecycle Revisions SearchIndex Vectors ConceptStore ConceptStoreProofs Ingest.
Open Scope Z_scope.

Section Batch.
Context {AE : Aead} {KD : Kdf} {HX : Hex} {UT : UuidText} {MJ : MetaJson} {LC : Lowercase} {NL : NaturalLog} {DJ : DocJson}.
Context {YE : Type} `{!YamlCodec YE} (rfc3339_ok : str -> bool) (Hnc : no_collisions).
Context (cs : ConceptStore) (low : Z) (Hlow : 1 <= low) (Hroot : meta_fits (lit "/index.md")).
#[local] Abbreviation sc := (cs_scope cs).
#[local] Abbreviation does := (does (YE := YE) rfc3339_ok sc low false).
#[local] Abbreviation holds := (holds (YE := YE) sc).
#[local] Abbreviation guarded := (guarded (YE := YE) rfc3339_ok).

(** A concept of that path is stored and listed. *)
Definition stored_at (q : str) (w : World) : Prop := reserved_basename (path_basename q) = false /\ exists c, source_path c = q /\ holds c w.
Lemma stored_elsewhere p q w w' : q <> p -> only_at sc p w w' -> stored_at q w -> stored_at q w'.
Proof.
  intros Hne Ho (Hr & c & <- & md & r & Hmd & Hc & Hrow & Ht). destruct (Ho _ Hne Hr) as [E1 E2]. split; [done|]. exists c. split; [done|].
  exists md, r. rewrite E1, E2. exact (conj Hmd (conj Hc (conj Hrow Ht))).
Qed.
Lemma stored_index q w w' : index_only sc w w' -> stored_at q w -> stored_at q w'.
Proof. intros Hi (Hr & c & <- & Hc). split; [done|]. exists c. split; [done|]. by eapply holds_index. Qed.
Lemma stored_stable q : stable (stored_at q).
Proof.
  intros w w' Hc (Hr & c & <- & Hh). split; [done|]. exists c. split; [done|]. by eapply stable_holds.
Qed.
Lemma does_put_all (F : World -> Prop) sum l before : Forall (fun c => guarded c /\ local_to sc (source_path c) F) l ->
  does (fun w => F w /\ forall q, q ∈ before -> stored_at q w) (Z.of_nat (length l)) (for_each (put_one cs None sum) l)
    (fun _ w => F w /\ forall q, q ∈ before ++ (source_path <$> l) -> stored_at q w).
Proof.
  intros Hl. revert before. induction Hl as [|c l [Hg HF] _ IH]; intros before.
  - apply does_ret. intros w _ [H1 H2]. split; [done|]. intros q. cbn. rewrite app_nil_r. apply H2.
  - cbn [for_each fmap list_fmap length]. set (p := source_path c). replace (Z.of_nat (S (length l))) with (1 + Z.of_nat (length l)) by lia.
    apply (does_bind _ _ _ _ _ _ _ _ _ (fun _ w => F w /\ forall q, q ∈ before ++ [p] -> stored_at q w)); [| |lia].
    + eapply does_weaken; [apply (does_put_one rfc3339_ok Hnc sc cs low false eq_refl Hlow None sum c (fun w => F w /\ forall q, q ∈ before -> q <> p -> stored_at q w))|..]; try done.
      * intros w w' Ho [H1 H2]. split; [by eapply HF|]. intros q Hq Hne. eapply stored_elsewhere; [exact Hne|exact Ho|by apply H2].
      * intros w _ [H1 H2]. split; [done|]. intros q Hq _. by apply H2.
      * intros _ w _ [[H1 H2] H3]. split; [done|]. intros q Hq. destruct (decide (q = p)) as [->|Hne].
        { split; [apply Hg|]. by exists c. }
        apply elem_of_app in Hq as [Hq|Hq]; [by apply H2|]. by apply list_elem_of_singleton in Hq.
    + intros _. eapply does_weaken; [apply (IH (before ++ [p]))|done|done|]. intros _ w _ [H1 H2]. split; [done|]. intros q Hq. apply H2. by rewrite <- app_assoc.
Qed.
(** A batch that succeeds has stored each of its concepts. *)
Lemma does_batch (F : World -> Prop) sum l : Forall (fun c => path_fits (source_path c) /\ local_to sc (source_path c) F) l -> stable F ->
  (forall w w', index_only sc w w' -> F w -> F w') ->
  does F (Z.of_nat (length l)) (put_batch_with_revision rfc3339_ok cs l None sum) (fun _ w => F w /\ forall c, c ∈ l -> stored_at (source_path c) w).
Proof.
  intros Hl HsF HF. unfold put_batch_with_revision. destruct l as [|c0 l0] eqn:El.
  { apply does_ret. intros w _ H. split; [done|]. by intros c ?%not_elem_of_nil. }
  rewrite <- El in *. clear El. set (Q := fun w => F w /\ forall c, c ∈ l -> stored_at (source_path c) w).
  replace (Z.of_nat (length l)) with (0 + (Z.of_nat (length l) + (0 + 0))) by lia.
  apply (does_bind _ _ _ _ _ _ _ _ _ (fun l' w => F w /\ Forall2 (stamped_from (YE := YE) rfc3339_ok cs) l l')); [| |lia].
  { apply does_stamp_all; [done|]. eapply Forall_impl; [exact Hl|]. by intros c [? _]. }
  intros stamped. apply does_pure. intros Hst.
  assert (Hpaths : source_path <$> stamped = source_path <$> l).
  { clear -Hst. induction Hst as [|c c' l l' (now & -> & _) _ IH]; [done|]. cbn. by rewrite IH. }
  apply (does_bind _ _ _ _ _ _ _ _ _ (fun _ => Q)); [| |lia].
  { rewrite (Forall2_length _ _ _ Hst). eapply does_weaken; [apply (does_put_all F sum stamped [])|..].
    - apply Forall_forall. intros c' (i & Hi)%list_elem_of_lookup. destruct (Forall2_lookup_r _ _ _ _ _ Hst Hi) as (c & Hci & (now & -> & Hg)).
      split; [done|]. rewrite Forall_forall in Hl. destruct (Hl c) as [_ Hloc]; [by apply list_elem_of_lookup_2 in Hci|done].
    - intros w _ H. split; [done|]. by intros q ?%not_elem_of_nil.
    - done.
    - intros _ w _ [H1 H2]. split; [done|]. intros c Hc. apply H2. cbn. rewrite Hpaths. by apply list_elem_of_fmap_2. }
  intros _. apply (does_bind _ _ _ _ _ _ _ _ _ (fun _ => Q)); [| |lia].
  - apply does_regen; [done..| |].
    + intros w w' Hc [H1 H2]. split; [by eapply HsF|]. intros c Hin. eapply stored_stable; [done|by apply H2].
    + intros w w' Hi _ [H1 H2]. split; [by eapply HF|]. intros c Hin. eapply stored_index; [done|by apply H2].
  - intros _. apply does_invalidate. intros w w' Hc [H1 H2]. split; [by eapply HsF|]. intros c Hin. eapply stored_stable; [done|by apply H2].
Qed.
End Batch.

Section Ingests.
Context {AE : Aead} {KD : Kdf} {HX : Hex} {UT : UuidText} {MJ : MetaJson} {LC : Lowercase} {NL : NaturalLog} {DJ : DocJson}.
Context {AN : Alphanumeric} {JT : JsonText}.
Context {YE : Type} `{!YamlCodec YE} (rfc3339_ok : str -> bool) (key : ServiceKey) (Hnc : no_collisions).
Context (low : Z) (Hlow : 1 <= low) (Hroot : meta_fits (lit "/index.md")).
#[local] Abbreviation sc := (CsService key (lit "library")).
#[local] Abbreviation Inv := (Inv (YE := YE) rfc3339_ok sc).
#[local] Abbreviation read_stack_text := (read_stack_text (YE := YE) key).

(** A slug that is one segment, and not the stacks' own *)
Definition own_slug (slug : str) : Prop := slash ∉ slug /\ slug <> lit "library".
Definition plain_stack (slug : str) : Prop := reserved_basename (path_basename (stack_path_for slug)) = false.
Definition readable (slug text : str) (w : World) : Prop := forall env, en_fails env (w_tick w) = false -> (read_stack_text slug env w).1 = Ok text.

Lemma segment_apart a b x y : slash ∉ a -> slash ∉ b -> a <> b -> ~ (a ++ slash :: x = b ++ slash :: y).
Proof.
  intros Ha Hb Hne E. apply Hne. apply (f_equal (split_once [slash])) in E. rewrite !split_once_char in E by done. by injection E.
Qed.
Lemma catalog_apart catalog outline other : own_slug (bc_slug catalog) -> Forall (fun c => source_path c <> stack_path_for other) (catalog_concepts catalog outline).
Proof.
  intros [Hs Hl]. assert (Hgo : forall rest, slash :: bc_slug catalog ++ slash :: rest <> stack_path_for other).
  { intros rest [= E]. revert E. apply (segment_apart (bc_slug catalog) (lit "library") rest (other ++ lit ".md")); [done| |done].
    intros Hin. apply list_elem_of_In in Hin. by repeat destruct Hin as [Hin|Hin]. }
  apply Forall_cons. split; [apply Hgo|]. apply Forall_fmap, Forall_forall. intros ch _. apply Hgo.
Qed.
Lemma stack_inj a b : stack_path_for a = stack_path_for b -> a = b.
Proof. unfold stack_path_for. intros E%app_inv_head. by apply app_inv_tail in E. Qed.
Lemma content_readable slug text w : Forall (fun c => is_scalar c = true) text -> content sc w (stack_path_for slug) = Some (as_bytes text) -> readable slug text w.
Proof.
  intros Hsc Hc env Hf. apply content_read in Hc. unfold Ingest.read_stack_text, stack_read, mbind, M_bind, access. rewrite Hf. cbn.
  change (repo_scope sc) with (ScopeService key) in Hc. rewrite Hc. cbn. by rewrite from_utf8_as_bytes.
Qed.
(** Writing the text of a book, in terms of the store *)
Lemma stack_write_effect low' env slug b w r w' : env_ok low' env -> Inv w -> meta_fits (stack_path_for slug) -> row sc w (stack_path_for slug) = None ->
  stack_write (YE := YE) key (stack_path_for slug) b env w = (r, w') ->
  Inv w' /\ same_rows sc w w' /\ match r with Ok _ => set_file sc (stack_path_for slug) (Some b) w w' | Err e => (exists x, e = IRepo x) /\ same_files sc w w' end.
Proof.
  intros He HI Hfit Hrow. unfold stack_write, access. destruct (write _ _ _ _ _ _ _ _) as [x d] eqn:E. intros [= <- <-].
  set (w' := ConceptStore.with_dir d (with_tick (S (w_tick w)) w)).
  destruct (file_op_content Hnc sc (OpWrite (stack_path_for slug) b (en_nonce env (w_tick w) 0%nat) (en_nonce env (w_tick w) 1%nat)
    (en_uuid env (w_tick w)) (en_write env (w_tick w))) [] w w' x) as [Hd Hc].
  { split_and!; [done|apply (eo_nonce _ _ He)..]. }
  { apply HI. }
  { exact E. }
  split; [|split; [done|destruct x; [done|split; [by eexists|done]]]]. eapply (act_inv rfc3339_ok sc 1 false 0 w w'); [|exact HI]. destruct x as [[]|].
  - eapply a_write; [exact Hd|exact Hc|done|done|done|by left].
  - by apply a_quiet.
Qed.

(** What an ingest does, from any good state of the library's store.  If it
    succeeds, its answer is the path of the hub and of each chapter, the
    stack text reads back as the text, each of these paths holds a concept
    and is listed, and the text of every other book is as it was.  A blank
    text changes nothing; a text with no chapters keeps its stack text and
    has no catalog; and in any case the store stays good: everything listed
    reads.  (The slug is one segment and not [library], whose catalog has
    its paths among the stacks.) *)
Theorem ingest_effects env slug text catalog w r w' :
  env_ok low env -> Inv w -> Forall (fun c => is_scalar c = true) text ->
  own_slug slug -> plain_stack slug -> bc_slug catalog = slug -> meta_fits (stack_path_for slug) -> row sc w (stack_path_for slug) = None ->
  Forall (fun c => path_fits (source_path c)) (catalog_concepts catalog (parse_outline text)) ->
  ingest_book (YE := YE) rfc3339_ok key slug text catalog env w = (r, w') ->
  Inv w' /\
  match r with
  | Ok paths =>
      paths = hub_path slug :: (chapter_path catalog <$> parse_outline text) /\ parse_outline text <> [] /\ readable slug text w' /\
      (forall p, p ∈ paths -> stored_at (YE := YE) (with_provenance (lit "ingest") (library_store key)) p w') /\
      (forall other b, other <> slug -> plain_stack other -> content sc w (stack_path_for other) = Some b -> content sc w' (stack_path_for other) = Some b)
  | Err IEmptyBook => trim text = [] /\ w' = w
  | Err INoChapters => parse_outline text = [] /\ readable slug text w'
  | Err _ => True
  end.
Proof.
  intros He HI Hsc Hslug Hplain <- Hfit Hrow Hpaths. set (slug := bc_slug catalog) in *. unfold ingest_book, write_stack_text.
  case_bool_decide as Hblank; [by intros [= <- <-]|]. unfold mbind, M_bind.
  destruct (stack_write key (stack_path_for slug) (as_bytes text) env w) as [[u|e] w1] eqn:E1;
    destruct (stack_write_effect _ _ _ _ _ _ _ He HI Hfit Hrow E1) as (HI1 & Hrows & Hset).
  2:{ intros [= <- <-]. destruct Hset as [[x ->] _]. by split. }
  assert (Hown : content sc w1 (stack_path_for slug) = Some (as_bytes text)) by (rewrite Hset; by rewrite decide_True).
  unfold write_catalog. destruct (parse_outline text) as [|ch0 chs] eqn:Eo.
  { intros [= <- <-]. split; [done|]. split; [done|]. by apply content_readable. }
  rewrite <- Eo in *. set (cs := with_provenance (lit "ingest") (library_store key)).
  set (F := fun v => content sc v (stack_path_for slug) = Some (as_bytes text) /\
    forall other b, other <> slug -> plain_stack other -> content sc w (stack_path_for other) = Some b -> content sc v (stack_path_for other) = Some b).
  assert (HF1 : F w1).
  { split; [done|]. intros other b Hne _ Hb. rewrite Hset. rewrite decide_False; [done|]. by intros ?%stack_inj. }
  unfold lifted, mbind, M_bind, put_batch. destruct (find_first _ _) as [c|] eqn:Eq; [by intros [= <- <-]|].
  unfold put_batch_internal. change (cs_revision_op cs) with (@None str).
  assert (Hdoes : does rfc3339_ok sc low false F (Z.of_nat (length (catalog_concepts catalog (parse_outline text))))
    (put_batch_with_revision rfc3339_ok cs (catalog_concepts catalog (parse_outline text)) None None)
    (fun _ v => F v /\ forall c, c ∈ catalog_concepts catalog (parse_outline text) -> stored_at (YE := YE) cs (source_path c) v)).
  { apply (does_batch rfc3339_ok Hnc cs low Hlow Hroot F).
    - apply Forall_forall. intros c Hc. rewrite Forall_forall in Hpaths. split; [by apply Hpaths|].
      assert (Hne : forall other, source_path c <> stack_path_for other).
      { intros other. pose proof (catalog_apart catalog (parse_outline text) other Hslug) as Hap. rewrite Forall_forall in Hap. by apply Hap. }
      intros v v' Ho [H1 H2]. split; [|intros other b Hno Hpl Hb].
      + destruct (Ho (stack_path_for slug)) as [E _]; [|done|exact (eq_trans E H1)]. intros E. by apply (Hne slug).
      + destruct (Ho (stack_path_for other)) as [E _]; [|done|exact (eq_trans E (H2 _ _ Hno Hpl Hb))]. intros E. by apply (Hne other).
    - intros v v' Hc [H1 H2]. split; [by apply (stable_content _ _ _ v)|]. intros other b Hno Hpl Hb. apply (stable_content _ _ _ v); [done|by apply H2].
    - intros v v' Hi [H1 H2]. split; [destruct (Hi (stack_path_for slug)) as [E _]; [done|exact (eq_trans E H1)]|]. intros other b Hno Hpl Hb.
      destruct (Hi (stack_path_for other)) as [E _]; [done|exact (eq_trans E (H2 _ _ Hno Hpl Hb))]. }
  destruct (put_batch_with_revision rfc3339_ok cs (catalog_concepts catalog (parse_outline text)) None None env w1) as [[u'|e] w2] eqn:E2;
    destruct (Hdoes _ _ _ _ He HI1 HF1 E2) as (k & _ & Ha & HQ); apply acts_inv in Ha; try done.
  - destruct HQ as [[Hc Hothers] Hstored]. intros [= <- <-]. split; [done|]. split; [|split; [by rewrite Eo|split; [by apply content_readable|split; [|exact Hothers]]]].
    + unfold catalog_concepts. cbn. f_equal. rewrite <- list_fmap_compose. done.
    + intros p Hp. change (p ∈ source_path <$> catalog_concepts catalog (parse_outline text)) in Hp. apply list_elem_of_fmap in Hp as (c & -> & Hin). by apply Hstored.
  - intros [= <- <-]. by split.
Qed.
End Ingests.
