(* ===== verification/IngestRuns.v ===== *)
(** * Uploads that run alone

    An upload with no other task at work: how it is refused, or settles its
    job and frees the slot, and that its passages can be read afterwards. *)
From S2P Require Import Prelude Float Text Health Library JsonValue Llm Clock Books Crypto FileRepo Concept Search Extract ExtractProofs Lifecycle Revisions SearchIndex Vectors ConceptStore ConceptStoreProofs Ingest IngestStore.
Open Scope Z_scope.

(** ** Rows at the end of a table *)
Lemma row_snoc {A} (l : list (Uuid * A)) id x : id ∉ l.*1 -> Books.row_of (l ++ [(id, x)]) id = Some x.
Proof.
  induction l as [|[i y] l IH]; unfold Books.row_of; cbn; intros Hn; [by rewrite bool_decide_true|].
  rewrite bool_decide_false by set_solver. apply IH. set_solver.
Qed.
Lemma on_job_snoc id f l j : id ∉ l.*1 -> on_job id f (l ++ [(id, j)]) = l ++ [(id, f j)].
Proof.
  intros Hn. unfold on_job. rewrite fmap_app. cbn. rewrite bool_decide_true by done. f_equal.
  induction l as [|[i y] l IH]; [done|]. cbn. rewrite bool_decide_false by set_solver. f_equal. apply IH. set_solver.
Qed.

Lemma find_row_snoc {A} (f : A -> bool) (l : list (Uuid * A)) id x : find_row f l = None -> f x = true -> find_row f (l ++ [(id, x)]) = Some (id, x).
Proof.
  unfold find_row. induction l as [|[i y] l IH]; cbn; intros Hn Hx; [by rewrite Hx|]. destruct (f y); [done|by apply IH].
Qed.

Section Runs.
Context {AE : Aead} {KD : Kdf} {HX : Hex} {UT : UuidText} {MJ : MetaJson} {LC : Lowercase} {NL : NaturalLog} {DJ : DocJson}.
Context {AN : Alphanumeric} {JT : JsonText}.
Context {YE : Type} `{!YamlCodec YE} (rfc3339_ok : str -> bool) (key : ServiceKey).
Context (store_error_text : ConceptStoreError YE -> str) (repo_error_text : FileRepoError -> str) (db_text : str).
#[local] Abbreviation task_step := (task_step (YE := YE) rfc3339_ok key store_error_text repo_error_text db_text).
#[local] Abbreviation ingest_one := (ingest_one (YE := YE) rfc3339_ok key).
#[local] Abbreviation display := (WorkerError_display (YE := YE) store_error_text repo_error_text db_text).

Fixpoint run_task (fuel : nat) (envs : nat -> StepEnv) (k : nat) (t : Task) (l : Lib) : list Event * Lib * option Task :=
  match fuel with
  | O => ([], l, Some t)
  | S fuel =>
      match task_step (envs k) t l with
      | (None, evs, l) => (evs, l, None)
      | (Some t, evs, l) => let '(evs', l, o) := run_task fuel envs (S k) t l in (evs ++ evs', l, o)
      end
  end.

Section Upload.
Context (users : list (Uuid * str)) (envs : nat -> StepEnv) (u : Upload).
Context (Hcalm : forall k, se_fails (envs k) = false) (Husers : forall k, se_users (envs k) = users) (Huser : up_user u ∈ users.*1).
#[local] Abbreviation book := (se_id (envs 1%nat)).
#[local] Abbreviation job := (se_id (envs 2%nat)).
#[local] Abbreviation row_at status detail k :=
  (mkJob (up_shelf u) book (up_user u) status detail (se_now (envs 2%nat)) (se_now (envs k))).
(** The ids drawn are new. *)
Definition drawn_new (d : BooksDb) : Prop := book ∉ (db_books d).*1 /\ job ∉ (db_jobs d).*1.

Lemma run_next n k t l t' evs l' : task_step (envs k) t l = (Some t', evs, l') ->
  run_task (S n) envs k t l = let '(evs', l, o) := run_task n envs (S k) t' l' in (evs ++ evs', l, o).
Proof. intros H. cbn. by rewrite H. Qed.
Lemma run_last n k t l evs l' : task_step (envs k) t l = (None, evs, l') -> run_task (S n) envs k t l = (evs, l', None).
Proof. intros H. cbn. by rewrite H. Qed.

Lemma run_ingest (l : Lib) jobs s : job ∉ jobs.*1 -> db_jobs (lb_db l) = jobs ++ [(job, row_at JPending [] 2%nat)] -> lb_staged l !! job = Some s ->
  let '(r, w) := ingest_one (se_chat (envs 8%nat)) s (se_store (envs 8%nat)) (lb_store l) in
  let status := match r with Ok _ => JDone | Err _ => JFailed end in
  let detail := match r with Ok count => show_N (Z.to_N count) ++ lit " catalog concepts written" | Err x => display (JIngest x) end in
  run_task 7 envs 5 (TRun u (mkSubmitted job book (up_slug u)) RLoad) l =
    ([EClaimed job; EIngested job; EAnswered (up_user u) (AAccepted (mkSubmitted job book (up_slug u)) (Some (status, detail)))],
     mkLib (with_jobs (jobs ++ [(job, row_at status detail 9%nat)]) (lb_db l)) (delete (up_user u) (lb_slots l)) (delete job (lb_staged l)) w, None).
Proof.
  intros Hn Hjobs Hs. destruct (ingest_one _ s _ _) as [r w] eqn:Ei. intros status detail. set (sub := mkSubmitted job book (up_slug u)).
  assert (Hrow : forall d st dt k, db_jobs d = jobs ++ [(job, row_at st dt k)] -> Books.row_of (db_jobs d) job = Some (row_at st dt k)) by (intros d st dt k ->; by apply row_snoc).
  erewrite run_next; [|cbn; unfold ingest_job; by rewrite Hcalm, (Hrow _ _ _ _ Hjobs)].
  set (d6 := with_jobs (jobs ++ [(job, row_at JRunning [] 6%nat)]) (lb_db l)).
  erewrite (run_next _ _ _ _ _ _ (with_db d6 l)); [|cbn; unfold claim_ingest_job; rewrite Hcalm, (Hrow _ _ _ _ Hjobs); cbn; by rewrite Hjobs, on_job_snoc].
  erewrite (run_next _ _ _ _ _ _ (with_staged (delete job (lb_staged l)) (with_db d6 l))); [|cbn; by rewrite Hs].
  erewrite (run_next _ _ _ _ (TRun u sub (RSettle (up_user u) status detail)) _ (with_store w (with_staged (delete job (lb_staged l)) (with_db d6 l))));
    [|cbn; rewrite Ei; by destruct r].
  set (d9 := with_jobs (jobs ++ [(job, row_at status detail 9%nat)]) (lb_db l)).
  erewrite (run_next _ _ _ _ _ _ (with_db d9 (with_store w (with_staged (delete job (lb_staged l)) (with_db d6 l)))));
    [|cbn; unfold update_ingest_job, d6; rewrite Hcalm; cbn -[on_job]; by rewrite on_job_snoc].
  erewrite run_next; [|done]. erewrite run_last; [|cbn; unfold job_status, ingest_job; by rewrite Hcalm, (Hrow d9 status detail 9%nat)]. done.
Qed.

(** An upload that runs alone and whose statements are not refused is
    refused itself, with nothing changed, if a job of the user is under way
    or the slug is taken; else it has its rows, its job ends, done with the
    number of the concepts or failed with the error, the job was claimed and
    ingested once, and the user's slot and the staging area are as before. *)
Theorem upload_settles (l : Lib) : drawn_new (lb_db l) -> up_shelf u ∈ (db_shelves (lb_db l)).*1 ->
  let run := run_task 12 envs 0 (TSubmit u SReserve) l in
  match lb_slots l !! up_user u, find_row (has_slug (up_slug u)) (db_books (lb_db l)) with
  | Some _, _ => run = ([EAnswered (up_user u) ABusy], l, None)
  | None, Some _ => run = ([EAnswered (up_user u) (ADuplicate (up_slug u))], l, None)
  | None, None =>
      let staged := mkStaged (up_slug u) (up_title u) (up_text u) in
      let '(r, w) := ingest_one (se_chat (envs 8%nat)) staged (se_store (envs 8%nat)) (lb_store l) in
      let status := match r with Ok _ => JDone | Err _ => JFailed end in
      let detail := match r with Ok count => show_N (Z.to_N count) ++ lit " catalog concepts written" | Err x => display (JIngest x) end in
      let d := lb_db l in
      run = ([EClaimed job; EIngested job; EAnswered (up_user u) (AAccepted (mkSubmitted job book (up_slug u)) (Some (status, detail)))],
             mkLib (mkBooksDb (db_shelves d)
                      (db_books d ++ [(book, mkBook (up_shelf u) (up_slug u) (up_title u) (stack_path_for (up_slug u)) (se_now (envs 1%nat)))])
                      (db_jobs d ++ [(job, row_at status detail 9%nat)]))
                   (lb_slots l) (delete job (lb_staged l)) w, None)
  end.
Proof.
  intros [Hb Hj] Hshelf run. unfold run. clear run. destruct (lb_slots l !! up_user u) as [x|] eqn:Hslot.
  { erewrite run_last; [done|]. cbn. by rewrite Hslot. }
  erewrite (run_next _ 0); [|cbn; by rewrite Hslot]. set (l0 := with_slots (<[up_user u := nil_uuid]> (lb_slots l)) l).
  pose proof (proj2 (row_of_None (db_books (lb_db l)) book) Hb) as Hb'. pose proof (proj2 (row_of_None (db_jobs (lb_db l)) job) Hj) as Hj'.
  pose proof (proj2 (row_of_is_some (db_shelves (lb_db l)) (up_shelf u)) Hshelf) as Hsh. pose proof (proj2 (row_of_is_some users (up_user u)) Huser) as Hu'.
  assert (Hdel : forall x, delete (up_user u) (<[up_user u := x]> (lb_slots l)) = lb_slots l) by (intros x; by rewrite delete_insert_id).
  destruct (find_row _ _) as [r0|] eqn:Hslug.
  - erewrite (run_next _ 1); [|cbn; unfold create_book; rewrite Hcalm, Hslug; cbn; by rewrite orb_true_r].
    erewrite run_last; [|done]. cbn. rewrite Hdel. by destruct l as [[]].
  - set (s := mkStaged (up_slug u) (up_title u) (up_text u)). destruct (ingest_one (se_chat (envs 8%nat)) s _ _) as [r w] eqn:Ei.
    set (brow := mkBook (up_shelf u) (up_slug u) (up_title u) (stack_path_for (up_slug u)) (se_now (envs 1%nat))).
    erewrite (run_next _ 1 _ _ _ _ (with_db (with_books (db_books (lb_db l) ++ [(book, brow)]) (lb_db l)) l0)); [|cbn; unfold create_book; rewrite Hcalm, Hslug, Hb'; cbn; by rewrite Hsh].
    assert (Hbr : is_some (Books.row_of (db_books (lb_db l) ++ [(book, brow)]) book) = true) by by rewrite row_snoc.
    set (d2 := with_jobs (db_jobs (lb_db l) ++ [(job, row_at JPending [] 2%nat)]) (with_books (db_books (lb_db l) ++ [(book, brow)]) (lb_db l))).
    erewrite (run_next _ 2 _ _ _ _ (with_db d2 l0)); [|cbn; unfold create_ingest_job; rewrite Hcalm, Husers; cbn -[is_some Books.row_of]; rewrite Hj'; cbn -[is_some Books.row_of]; rewrite Hsh, Hbr, Hu'; done].
    erewrite (run_next _ 3 _ _ _ _ (with_staged (<[job := s]> (lb_staged l)) (with_db d2 l0))); [|done].
    set (l5 := with_slots (<[up_user u := job]> (<[up_user u := nil_uuid]> (lb_slots l))) (with_staged (<[job := s]> (lb_staged l)) (with_db d2 l0))).
    erewrite (run_next _ 4 _ _ _ _ l5); [|done].
    pose proof (run_ingest l5 (db_jobs (lb_db l)) s Hj eq_refl) as Hrun. cbn [lb_staged l5 with_slots with_staged] in Hrun.
    specialize (Hrun (lookup_insert_eq _ _ _)). change (lb_store l5) with (lb_store l) in Hrun. rewrite Ei in Hrun.
    rewrite Hrun. cbn. f_equal. f_equal. f_equal.
    + by rewrite insert_insert_eq, Hdel.
    + by rewrite delete_insert_eq.
Qed.

Lemma ingest_one_cases chat s env w r w' : ingest_one chat s env w = (r, w') ->
  exists catalog r', bc_slug catalog = sg_slug s /\ ingest_book (YE := YE) rfc3339_ok key (sg_slug s) (sg_text s) catalog env w = (r', w') /\
    (forall count, r = Ok count -> exists paths, r' = Ok paths) /\
    Forall2 (fun c c' => source_path c = source_path c') (catalog_concepts catalog (parse_outline (sg_text s)))
      (catalog_concepts (mkCatalog (sg_slug s) [] [] []) (parse_outline (sg_text s))).
Proof.
  unfold Ingest.ingest_one. set (catalog := build_catalog _ _ _ _ _). intros H.
  assert (Hslug : bc_slug catalog = sg_slug s).
  { unfold catalog, build_catalog. cbn. by destruct (llm_catalog _) as [[t d]|e]. }
  exists catalog. unfold mbind, M_bind in H. destruct (ingest_book _ _ _ _ _ _ _) as [[paths|e] w1]; injection H as <- <-;
    (eexists; split; [done|]; split; [done|]; split; [intros count|]); try done; try (by eexists);
    (apply Forall2_cons; split; [change (hub_path (bc_slug catalog) = hub_path (sg_slug s)); by rewrite Hslug|]); apply Forall2_fmap, Forall_Forall2_diag, Forall_forall; intros ch _;
    change (chapter_path catalog ch = chapter_path (mkCatalog (sg_slug s) [] [] []) ch); unfold chapter_path; by rewrite Hslug.
Qed.

(** C29. A book can be read from the moment its upload is done.  An upload that
    runs alone, of a user with no job under way and of a new slug that is not
    the library's nor a reserved name, whose statements are not refused, is
    accepted; its job was claimed and
    ingested once; the user's slot is free again; and the library's store is
    good, whatever the store's own accesses met.  Either the job failed, or
    it is done and every reference to the book is answered from the uploaded
    text, to an admin and, if the shelf is global, to anybody, and refused
    to anybody else. *)
Theorem upload_readable low (l : Lib) shelf : no_collisions -> 1 <= low -> meta_fits (lit "/index.md") ->
  drawn_new (lb_db l) -> Books.row_of (db_shelves (lb_db l)) (up_shelf u) = Some shelf ->
  lb_slots l !! up_user u = None -> find_row (has_slug (up_slug u)) (db_books (lb_db l)) = None ->
  let sc := CsService key (lit "library") in let slug := up_slug u in
  Inv (YE := YE) rfc3339_ok sc (lb_store l) -> env_ok low (se_store (envs 8%nat)) -> Forall (fun c => is_scalar c = true) (up_text u) ->
  own_slug slug -> plain_stack slug -> fit_slug slug -> meta_fits (stack_path_for slug) -> row sc (lb_store l) (stack_path_for slug) = None ->
  Forall (fun c => path_fits (source_path c)) (catalog_concepts (mkCatalog slug [] [] []) (parse_outline (up_text u))) ->
  exists status detail l',
    run_task 12 envs 0 (TSubmit u SReserve) l =
      ([EClaimed job; EIngested job; EAnswered (up_user u) (AAccepted (mkSubmitted job book slug) (Some (status, detail)))], l', None) /\
    lb_slots l' = lb_slots l /\ Inv (YE := YE) rfc3339_ok sc (lb_store l') /\
    (status = JFailed \/ status = JDone /\
       forall admin cap anchor env, anchor <> [] -> en_fails env (w_tick (lb_store l')) = false ->
         resolve_passage (YE := YE) key admin cap (book_uri slug anchor) (lb_db l') (fun _ => false) env (lb_store l') =
           if bs_global_read shelf || admin
           then result_map_err (fun e => (404, PassageError_display e)) (extract_passage_capped slug anchor (up_text u) cap)
           else Err (403, lit "bookshelf is not global-read")).
Proof.
  intros Hnc Hlow Hroot Hnew Hshelf Hslot Hslug sc slug HI He Hsc Hown Hplain Hfits Hmeta Hrow Hpaths.
  pose proof (upload_settles l Hnew) as Hrun. rewrite Hslot, Hslug in Hrun. cbv zeta in Hrun.
  set (s := mkStaged (up_slug u) (up_title u) (up_text u)) in *.
  destruct (ingest_one (se_chat (envs 8%nat)) s (se_store (envs 8%nat)) (lb_store l)) as [r w] eqn:Ei.
  specialize (Hrun ltac:(apply row_of_is_some; by rewrite Hshelf)).
  destruct (ingest_one_cases _ _ _ _ _ _ Ei) as (catalog & r' & Hcat & Hbook & Hok & Hsame).
  assert (Hfit : Forall (fun c => path_fits (source_path c)) (catalog_concepts catalog (parse_outline (sg_text s)))).
  { clear -Hsame Hpaths. change (sg_text s) with (up_text u) in *. change (sg_slug s) with slug in Hsame. revert Hpaths.
    induction Hsame as [|c c' l1 l2 Hc _ IH]; [done|]. intros [H1 H2]%Forall_cons. apply Forall_cons. split; [by rewrite Hc|by apply IH]. }
  pose proof (ingest_effects rfc3339_ok key Hnc low Hlow Hroot _ (sg_slug s) (sg_text s) catalog _ _ _ He HI Hsc Hown Hplain Hcat Hmeta Hrow Hfit Hbook) as [HI' Heff].
  eexists _, _, _. split; [exact Hrun|]. split; [done|]. split; [exact HI'|].
  destruct r as [count|e]; [right|by left]. split; [done|]. destruct (Hok count eq_refl) as [paths ->]. destruct Heff as (_ & _ & Hread & _).
  intros admin cap anchor env Hanchor Hfail. unfold resolve_passage. rewrite parse_book_uri by done. cbn [br_slug br_anchor lb_db db_books db_shelves lb_store].
  unfold book_by_slug. cbn [result_ok default]. unfold slug in *. cbn [db_books id]. rewrite (find_row_snoc _ _ _ _ Hslug) by (cbn; by apply str_eqb_eq). cbn [default bk_shelf].
  rewrite Hshelf. destruct (bs_global_read shelf || admin) eqn:Ea.
  - replace (negb (bs_global_read shelf) && negb admin) with false by (by destruct (bs_global_read shelf), admin).
    specialize (Hread env Hfail). change (sg_slug s) with (up_slug u) in Hread. change (sg_text s) with (up_text u) in Hread. by rewrite Hread.
  - replace (negb (bs_global_read shelf) && negb admin) with true by (by destruct (bs_global_read shelf), admin). done.
Qed.
End Upload.
End Runs.
