(* ===== verification/IngestDemo.v ===== *)
(** * Runs of the ingest worker

    Concrete histories: where the theorems' hypotheses hold, and what the
    worker does that it does not mean to. *)
From S2P Require Import Prelude Float Text Health Library JsonValue Llm Clock Books Crypto FileRepo Concept Search Extract ExtractProofs Lifecycle Revisions SearchIndex Vectors ConceptStore ConceptStoreProofs Ingest IngestProofs IngestStore IngestRuns.
Import ConceptStoreProofs.Demo.
Open Scope Z_scope.
#[local] Existing Instances demo_aead demo_kdf wide_hex char_uuid plain_meta ascii_lowercase sample_log pair_json type_only ascii_letters.
#[local] Instance no_json : JsonText := {| show_json _ := []; parse_json _ := Err [] |}.

Definition library_key : ServiceKey := mkService (8%N :: replicate 31 0%N).
Definition store_text (e : ConceptStoreError unit) : str := lit "store".
Definition repo_text (e : FileRepoError) : str := lit "repo".
Abbreviation demo_step := (task_step (YE := unit) any_date library_key store_text repo_text (lit "db")).
Abbreviation demo_run := (run_task (YE := unit) any_date library_key store_text repo_text (lit "db")).
Definition shelf0 : BookshelfRow := Books.mkShelf (lit "Open") true (lit "t").
Definition demo_users : list (Uuid * str) := [(5%N, lit "ann"); (6%N, lit "bob")].
Definition lib0 : Lib := mkLib (mkBooksDb [(1%N, shelf0)] [] []) ∅ ∅ empty_world.
(** The steps from the [n]th on, of which those in [bad] are refused *)
Definition steps (n : N) (bad : list nat) (k : nat) : StepEnv :=
  mkStepEnv (n + N.of_nat k)%N (lit "t") (bool_decide (k ∈ bad)) demo_users calm (fun _ => Err LEmptyResponse).
Definition book_text : str := lit "# One" ++ [nl] ++ lit "text" ++ [nl] ++ lit "## First" ++ [nl] ++ lit "more" ++ [nl].
Definition upload_of (user : Uuid) (slug : string) : Upload := mkUpload 1%N user (lit slug) (lit "T") book_text false.
Definition stack_text (slug : string) (l : Lib) : result str (IngestError unit) := (read_stack_text library_key (lit slug) calm (lb_store l)).1.

Example pumps : let '(evs, l, o) := demo_run 12 (steps 100 []) 0 (TSubmit (upload_of 5 "pumps") SReserve) lib0 in
  evs = [EClaimed 102; EIngested 102; EAnswered 5 (AAccepted (mkSubmitted 102 101 (lit "pumps")) (Some (JDone, lit "2 catalog concepts written")))]%N /\
  lb_slots l = ∅ /\ stack_text "pumps" l = Ok book_text.
Proof. vm_compute. split_and!; reflexivity. Qed.

(** ** Schedules *)
(** Each entry names the task that steps, and what its step meets. *)
Fixpoint play (sched : list (nat * StepEnv)) (m : Machine) : list Event * Machine :=
  match sched with
  | [] => ([], m)
  | (i, e) :: sched =>
      match mc_tasks m !! i with
      | None => ([], m)
      | Some t =>
          let '(t', evs, l) := demo_step e t (mc_lib m) in
          let '(evs', m) := play sched (mkMachine (take i (mc_tasks m) ++ option_list t' ++ drop (S i) (mc_tasks m)) l (se_id e :: mc_drawn m)) in
          (evs ++ evs', m)
      end
  end.
Fixpoint draws_new (sched : list (nat * StepEnv)) (drawn : list Uuid) : bool :=
  match sched with [] => true | (_, e) :: sched => negb (bool_decide (se_id e ∈ drawn)) && draws_new sched (se_id e :: drawn) end.
Lemma play_history m0 evs m sched : mhistory (YE := unit) any_date library_key store_text repo_text (lit "db") m0 evs m -> draws_new sched (mc_drawn m) = true ->
  mhistory (YE := unit) any_date library_key store_text repo_text (lit "db") m0 (evs ++ (play sched m).1) (play sched m).2.
Proof.
  revert evs m. induction sched as [|[i e] sched IH]; intros evs m Hh Hd; cbn; [by rewrite app_nil_r|].
  destruct (mc_tasks m !! i) as [t|] eqn:Ht; cbn; [|by rewrite app_nil_r]. destruct (demo_step e t (mc_lib m)) as [[t' ev] l'] eqn:Es.
  apply andb_true_iff in Hd as [Hnew Hd]. apply negb_true_iff, bool_decide_eq_false in Hnew.
  set (m' := mkMachine _ _ _). specialize (IH (evs ++ ev) m'). destruct (play sched m') as [evs' m''] eqn:Ep. cbn. rewrite app_assoc.
  apply IH; [|exact Hd]. eapply mh_snoc; [exact Hh|]. destruct m as [ts l drawn]. cbn in *. unfold m'. rewrite <- (take_drop_middle ts i t Ht) at 1.
  by apply m_step.
Qed.
Definition form_of (slug : string) : UploadForm := mkForm (lit "Open") (lit slug) (lit "T") false (Some (as_bytes book_text)).
Definition at_steps (i : nat) (n : N) (bad : list nat) (count : nat) : list (nat * StepEnv) := (fun k => (i, steps n bad k)) <$> seq 0 count.

(** An upload of user 5 and a sweep, or another upload of user 5 *)
Definition with_sweep : Machine := mkMachine [TSubmit (upload_of 5 "pumps") SReserve; TList] lib0 [].
Definition two_uploads : Machine := mkMachine [TSubmit (upload_of 5 "valves") SReserve; TSubmit (upload_of 5 "pumps") SReserve] lib0 [].
Definition b0 : Machine := boot (lb_db lib0) empty_world.
#[local] Abbreviation history := (mhistory (YE := unit) any_date library_key store_text repo_text (lit "db")).
Lemma arrive user slug m : (check_upload 32 user (form_of slug) (lb_db (mc_lib m)) false = Ok (TSubmit (upload_of user slug) SReserve)) ->
  history b0 [] m -> history b0 [] (mkMachine (TSubmit (upload_of user slug) SReserve :: mc_tasks m) (mc_lib m) (mc_drawn m)).
Proof. intros Hc Hh. apply (mh_snoc _ _ _ _ _ b0 m _ [] [] Hh). destruct m. by eapply m_upload. Qed.
Lemma with_sweep_history : history b0 [] with_sweep.
Proof.
  apply (arrive 5 "pumps" (mkMachine [TList] lib0 [])); [by vm_compute|]. apply (mh_snoc _ _ _ _ _ b0 b0 _ [] []); [apply mh_nil|]. apply m_sweep.
Qed.
Lemma two_uploads_history : history b0 [] two_uploads.
Proof. apply (arrive 5 "valves" (mkMachine [TSubmit (upload_of 5 "pumps") SReserve] lib0 [])); [by vm_compute|]. apply (arrive 5 "pumps" b0); [by vm_compute|]. apply mh_nil. Qed.

Lemma play_from m sched : history b0 [] m -> draws_new sched (mc_drawn m) = true -> history b0 (play sched m).1 (play sched m).2.
Proof. apply (play_history b0 []). Qed.

(** The upload reserves, makes its rows and stages its text; the sweep lists
    the job; and then both step in turn. *)
Definition race : list (nat * StepEnv) :=
  at_steps 0 100 [] 5 ++ at_steps 1 200 [] 2 ++ ((fun k => (Nat.modulo k 2, steps 300 [] k)) <$> seq 0 5) ++ at_steps 0 400 [] 3.
Lemma job_runs_once_witness : (play race with_sweep).1 = [EListed; EClaimed 102%N; EAnswered 5%N (AAccepted (mkSubmitted 102%N 101%N (lit "pumps")) (Some (JRunning, []))); EIngested 102%N] /\
  NoDup (claimed (play race with_sweep).1).
Proof.
  split; [by vm_compute|].
  destruct (job_runs_once any_date library_key store_text repo_text (lit "db") (lb_db lib0) empty_world (play race with_sweep).1 (play race with_sweep).2
    (play_from with_sweep race with_sweep_history ltac:(by vm_compute))) as [H _]. exact H.
Defined.

(** The first upload reserves the slot, and the other one is refused. *)
Lemma one_upload_per_user_witness : let m := (play (at_steps 0 100 [] 1) two_uploads).2 in busy (mc_tasks m) = [5%N] /\
  demo_step (steps 200 [] 0) (TSubmit (upload_of 5 "pumps") SReserve) (mc_lib m) = (None, [EAnswered 5%N ABusy], mc_lib m).
Proof.
  intros m. split; [by vm_compute|].
  pose proof (one_upload_per_user any_date library_key store_text repo_text (lit "db") (lb_db lib0) empty_world _ m
    (play_from two_uploads (at_steps 0 100 [] 1) two_uploads_history ltac:(by vm_compute))) as [_ H].
  - replace (play (at_steps 0 100 [] 1) two_uploads).1 with (@nil Event) by (by vm_compute). apply not_elem_of_nil.
  - apply (H 5%N); [|done]. replace (busy (mc_tasks m)) with [5%N] by (by vm_compute). by left.
Defined.

(** ** What a sweep does to the slots *)
(** A sweep between the job's row and the staging of its text fails the job
    and frees the slot; the submission then takes the slot for the failed
    job, and nothing frees it: the user's next upload is refused, with no
    task left. *)
Definition early_sweep : Machine := (play (at_steps 0 100 [] 3 ++ at_steps 1 200 [] 6 ++ at_steps 0 300 [] 5) with_sweep).2.
Lemma slot_lost : mc_tasks early_sweep = [] /\ lb_slots (mc_lib early_sweep) !! 5%N = Some 102%N /\
  (jb_status <$> (db_jobs (lb_db (mc_lib early_sweep))).*2) = [JFailed] /\
  demo_step (steps 400 [] 0) (TSubmit (upload_of 5 "valves") SReserve) (mc_lib early_sweep) = (None, [EAnswered 5%N ABusy], mc_lib early_sweep).
Proof. vm_compute. split_and!; reflexivity. Qed.
(** The statement that settles the job is refused: the job stays running
    and the slot taken. *)
Lemma settle_refused : let '(evs, l, o) := demo_run 12 (steps 100 [9%nat]) 0 (TSubmit (upload_of 5 "pumps") SReserve) lib0 in
  o = None /\ lb_slots l !! 5%N = Some 102%N /\ (jb_status <$> (db_jobs (lb_db l)).*2) = [JRunning].
Proof. vm_compute. split_and!; reflexivity. Qed.
(** After a restart a sweep fails the job the old process left pending, and
    frees the slot of the upload the user has under way: then two uploads of
    the user are under way. *)
Definition restarted : Machine :=
  let m := (play (at_steps 0 100 [] 3) (mkMachine [TSubmit (upload_of 5 "pumps") SReserve] lib0 [])).2 in
  mkMachine [TSubmit (upload_of 5 "valves") SReserve; TList; TSubmit (upload_of 5 "gears") SReserve] (mkLib (lb_db (mc_lib m)) ∅ ∅ (lb_store (mc_lib m))) (mc_drawn m).
Lemma two_at_once : busy (mc_tasks (play (at_steps 0 200 [] 2 ++ at_steps 1 300 [] 6 ++ at_steps 1 400 [] 1) restarted).2) = [5%N; 5%N].
Proof. by vm_compute. Qed.

(** ** What an upload does to other books *)
Definition after_upload (n : N) (u : Upload) (l : Lib) : Lib := (demo_run 12 (steps n []) 0 (TSubmit u SReserve) l).1.2.
(** The catalog of a book with the slug [library] is written among the
    stacks: its hub replaces the text of the book [book]. *)
Lemma library_overwrites : let l1 := after_upload 100 (upload_of 5 "book") lib0 in let l2 := after_upload 200 (upload_of 5 "library") l1 in
  stack_text "book" l1 = Ok book_text /\ (jb_status <$> (db_jobs (lb_db l2)).*2) = [JDone; JDone] /\
  match stack_text "book" l2 with Ok t => negb (str_eqb t book_text) | Err _ => false end = true.
Proof. vm_compute. split_and!; reflexivity. Qed.
(** A replacing upload deletes the book before it knows whether it is
    accepted: refused since the user has another job under way, it leaves no
    book. *)
Definition replacing : Upload := mkUpload 1%N 5%N (lit "pumps") (lit "T") book_text true.
Lemma replace_refused : let l1 := after_upload 100 (upload_of 5 "pumps") lib0 in
  let l2 := with_slots (<[5%N := 7%N]> (lb_slots l1)) l1 in
  let '(evs, l3, o) := demo_run 12 (steps 200 []) 0 (TDeleteRow replacing) l2 in
  evs = [EAnswered 5%N ABusy] /\ db_books (lb_db l2) <> [] /\ db_books (lb_db l3) = [] /\ stack_text "pumps" l2 = Ok book_text /\
  match stack_text "pumps" l3 with Ok _ => false | Err _ => true end = true.
Proof. vm_compute. split_and!; done. Qed.

(** ** A book that reads *)
Lemma library_fresh : Inv (YE := unit) any_date (CsService library_key (lit "library")) empty_world.
Proof. by apply fresh_inv. Qed.
Lemma pumps_fit : Forall (fun c => path_fits (source_path c)) (catalog_concepts (mkCatalog (lit "pumps") [] [] []) (parse_outline book_text)).
Proof.
  assert (source_path <$> catalog_concepts (mkCatalog (lit "pumps") [] [] []) (parse_outline book_text) = [lit "/pumps/book.md"; lit "/pumps/ch-1-one.md"]) as H by (by vm_compute).
  apply Forall_forall. intros c Hc. assert (source_path c ∈ [lit "/pumps/book.md"; lit "/pumps/ch-1-one.md"]) as Hp by (rewrite <- H; by apply list_elem_of_fmap_2).
  apply elem_of_cons in Hp as [->| ->%list_elem_of_singleton]; by apply note_fits.
Qed.
Lemma upload_readable_witness : exists status detail l',
  demo_run 12 (steps 100 []) 0 (TSubmit (upload_of 5 "pumps") SReserve) lib0 =
    ([EClaimed 102; EIngested 102; EAnswered 5 (AAccepted (mkSubmitted 102 101 (lit "pumps")) (Some (status, detail)))]%N, l', None) /\ lb_slots l' = ∅.
Proof.
  destruct (upload_readable any_date library_key store_text repo_text (lit "db") demo_users (steps 100 []) (upload_of 5 "pumps")
    ltac:(intros k; reflexivity) ltac:(intros k; reflexivity) ltac:(apply list_elem_of_fmap; exists (5%N, lit "ann"); split; [reflexivity|left])
    25 lib0 shelf0 demo_no_collisions ltac:(lia) root_fits) as (status & detail & l' & Hrun & Hslots & _).
  - split; apply not_elem_of_nil.
  - reflexivity.
  - reflexivity.
  - reflexivity.
  - exact library_fresh.
  - exact (env_with_ok _).
  - apply Forall_forall. intros c Hc. assert (forallb is_scalar book_text = true) as H by (by vm_compute). rewrite forallb_forall in H. by apply H, list_elem_of_In.
  - split; [|done]. intros H. apply list_elem_of_In in H. by repeat destruct H as [H|H].
  - by vm_compute.
  - split; [done|]. intros H. apply list_elem_of_In in H. by repeat destruct H as [H|H].
  - by vm_compute.
  - by vm_compute.
  - exact pumps_fit.
  - exists status, detail, l'. split; [exact Hrun|exact Hslots].
Defined.
