(* ===== verification/Chat.v ===== *)
(** * Chat sessions

    [crates/mycelium-store/src/chat.rs] with the tables of the migrations
    0008 and 0009: sessions, sealed transcripts, and the turns with their
    state machine.  The tables are lists of rows in insertion order; a
    column whose values only this code writes (ids, roles, statuses, under
    CHECK constraints) has the type of what is written.  A statement or
    transaction that the database refuses changes nothing; deleting a
    session deletes its messages and turns (the foreign keys cascade).
    Rows that tie in an ORDER BY come in insertion order here; SQLite
    leaves their order open. *)
From S2P Require Import Prelude Text Clock Crypto FileRepo.
Open Scope Z_scope.

Definition MAX_SESSIONS_PER_USER : Z := 100.
Definition UNREADABLE_TITLE : str := lit "(unreadable)".

Inductive ChatRole := RoleUser | RoleTool | RoleAssistant | RoleError.
Inductive ChatTurnStatus := Running | Done | Failed | Interrupted | Abandoned | WaitingBackend.
#[export] Instance ChatRole_eq_dec : EqDecision ChatRole.
Proof. solve_decision. Defined.
#[export] Instance ChatTurnStatus_eq_dec : EqDecision ChatTurnStatus.
Proof. solve_decision. Defined.

Definition ChatRole_as_str (r : ChatRole) : str :=
  match r with RoleUser => lit "user" | RoleTool => lit "tool" | RoleAssistant => lit "assistant" | RoleError => lit "error" end.
Definition ChatRole_from_str (s : str) : option ChatRole :=
  if str_eqb s (lit "user") then Some RoleUser else if str_eqb s (lit "tool") then Some RoleTool
  else if str_eqb s (lit "assistant") then Some RoleAssistant else if str_eqb s (lit "error") then Some RoleError else None.
Definition ChatTurnStatus_as_str (s : ChatTurnStatus) : str :=
  match s with
  | Running => lit "running" | Done => lit "done" | Failed => lit "failed" | Interrupted => lit "interrupted"
  | Abandoned => lit "abandoned" | WaitingBackend => lit "waiting_backend"
  end.
Definition ChatTurnStatus_from_str (s : str) : option ChatTurnStatus :=
  if str_eqb s (lit "running") then Some Running else if str_eqb s (lit "done") then Some Done
  else if str_eqb s (lit "failed") then Some Failed else if str_eqb s (lit "interrupted") then Some Interrupted
  else if str_eqb s (lit "abandoned") then Some Abandoned else if str_eqb s (lit "waiting_backend") then Some WaitingBackend
  else None.

Inductive ChatError := ChDb | ChCrypto (e : CryptoError) | ChNotFound | ChConflict.

(** ** Rows *)
Record SessionRow := mkSessionRow { se_id : Uuid; se_user : Uuid; se_title_sealed : str; se_created_at : str; se_updated_at : str }.
Record MessageRow := mkMessageRow { me_session : Uuid; me_seq : Z; me_role : ChatRole; me_sealed : str; me_created_at : str }.
Record TurnRow := mkTurnRow {
  tu_id : Uuid; tu_session : Uuid; tu_user_seq : Z; tu_status : ChatTurnStatus; tu_attempts : Z;
  tu_created_at : str; tu_updated_at : str; tu_park : ChatTurnStatus; tu_last_error : option str }.
Record Chat := mkChat { sessions : list SessionRow; messages : list MessageRow; turns : list TurnRow }.

(** What the reads give *)
Record ChatMessageRow := mkChatMessage { cm_seq : Z; cm_role : ChatRole; cm_content : str }.
Record ChatSessionSummary := mkSummary { su_id : Uuid; su_title : str; su_updated_at : str }.
Record ChatSessionMeta := mkMeta {
  mt_id : Uuid; mt_title : str; mt_turn_status : option ChatTurnStatus; mt_turn_resumable : bool; mt_max_seq : Z }.
Record AdminWaitingTurn := mkAdminTurn { aw_turn : TurnRow; aw_user : Uuid; aw_username : str }.

Definition id_eqb (a b : Uuid) : bool := (a =? b)%N.
Definition status_is (s : ChatTurnStatus) (t : TurnRow) : bool := bool_decide (tu_status t = s).
Definition resumable (t : TurnRow) : bool := status_is Interrupted t && (tu_attempts t =? 0).
(** A turn that still owes an answer *)
Definition owes (t : TurnRow) : bool := status_is Running t || resumable t || status_is WaitingBackend t.

Definition set_status (s : ChatTurnStatus) (now : str) (t : TurnRow) : TurnRow :=
  mkTurnRow (tu_id t) (tu_session t) (tu_user_seq t) s (tu_attempts t) (tu_created_at t) now (tu_park t) (tu_last_error t).

Definition user_sessions (user : Uuid) (c : Chat) : list SessionRow := retain (fun s => id_eqb (se_user s) user) (sessions c).
Definition owned (user session : Uuid) (c : Chat) : bool :=
  existsb (fun s => id_eqb (se_id s) session && id_eqb (se_user s) user) (sessions c).
Definition in_session (session : Uuid) (t : TurnRow) : bool := id_eqb (tu_session t) session.
Definition session_messages (session : Uuid) (c : Chat) : list MessageRow :=
  retain (fun m => id_eqb (me_session m) session) (messages c).

(** ORDER BY a text column *)
Definition by_text {A} (f : A -> str) (a b : A) : comparison := str_cmp (f a) (f b).
Definition by_text_desc {A} (f : A -> str) (a b : A) : comparison := str_cmp (f b) (f a).

(** DELETE of sessions, with the cascade *)
Definition delete_sessions (gone : Uuid -> bool) (c : Chat) : Chat :=
  mkChat (retain (fun s => negb (gone (se_id s))) (sessions c))
    (retain (fun m => negb (gone (me_session m))) (messages c)) (retain (fun t => negb (gone (tu_session t))) (turns c)).

(** The unique partial index: one running turn per session *)
Definition one_running (l : list TurnRow) : bool :=
  forallb (fun t => (length (retain (fun u => status_is Running u && in_session (tu_session t) u) l) <=? 1)%nat) l.

Section Chat.
Context {AE : Aead} {KD : Kdf} {HX : Hex} {UT : UuidText}.

Definition message_aad (session : Uuid) (seq : Z) : str :=
  lit "chat:" ++ uuid_to_string session ++ lit ":" ++ show_N (Z.to_N seq).
Definition title_aad (session : Uuid) : str := lit "chat:" ++ uuid_to_string session ++ lit ":title".

Definition seal_hex (nonce : bytes) (plain aad : str) (key : Dek) : result str ChatError :=
  (let? sealed := result_map_err ChCrypto (seal_chat nonce (as_bytes plain) aad key) in Ok (hex_encode sealed))%rust.
Definition open_hex (sealed aad : str) (key : Dek) : result str ChatError :=
  (let? b := ok_or (ChCrypto CDecrypt) (hex_decode sealed) in
   let? plain := result_map_err ChCrypto (open_chat b aad key) in
   ok_or (ChCrypto CDecrypt) (from_utf8 plain))%rust.

(** ** Sessions *)
Definition prunable (user : Uuid) (c : Chat) : list SessionRow :=
  sort_by (by_text se_updated_at)
    (retain (fun s => negb (existsb (fun t => in_session (se_id s) t && owes t) (turns c))) (user_sessions user c)).
Definition prune_sessions (user : Uuid) (c : Chat) : Chat :=
  let count := Z.of_nat (length (user_sessions user c)) in
  if MAX_SESSIONS_PER_USER <=? count then
    let gone := se_id <$> take (Z.to_nat (count + 1 - MAX_SESSIONS_PER_USER)) (prunable user c) in
    delete_sessions (fun id => existsb (id_eqb id) gone) c
  else c.

Definition create_session (user : Uuid) (m : MasterKey) (title : str) (id : Uuid) (now : str) (nonce : bytes)
    (commits : bool) (c : Chat) : result Uuid ChatError * Chat :=
  if negb commits then (Err ChDb, c)
  else
    let c' := prune_sessions user c in
    match seal_hex nonce title (title_aad id) (ChatKeys_from_master_key m) with
    | Err e => (Err e, c)
    | Ok sealed =>
        if existsb (fun s => id_eqb (se_id s) id) (sessions c') then (Err ChDb, c)
        else (Ok id, mkChat (sessions c' ++ [mkSessionRow id user sealed now now]) (messages c') (turns c'))
    end.

Definition open_title (m : MasterKey) (session : Uuid) (sealed : str) : str :=
  match open_hex sealed (title_aad session) (ChatKeys_from_master_key m) with Ok t => t | Err _ => UNREADABLE_TITLE end.
Definition list_sessions (user : Uuid) (m : MasterKey) (fails : bool) (c : Chat) : result (list ChatSessionSummary) ChatError :=
  if fails then Err ChDb
  else Ok ((fun s => mkSummary (se_id s) (open_title m (se_id s) (se_title_sealed s)) (se_updated_at s)) <$>
           sort_by (by_text_desc se_updated_at) (user_sessions user c)).

Definition latest_turn (user session : Uuid) (c : Chat) : option TurnRow :=
  if owned user session c then head (sort_by (by_text_desc tu_created_at) (retain (in_session session) (turns c))) else None.
(** COALESCE(MAX(seq), 0) *)
Definition max_seq (session : Uuid) (c : Chat) : Z := foldr Z.max 0 (me_seq <$> session_messages session c).

(** The reads of [session_meta] run one after the other; [view] is what
    each sees, [fails] which are refused. *)
Definition session_meta (user : Uuid) (m : MasterKey) (session : Uuid) (fails : nat -> bool) (view : nat -> Chat)
    : result ChatSessionMeta ChatError :=
  if fails 0%nat then Err ChDb
  else
    match find_first (fun s => id_eqb (se_id s) session && id_eqb (se_user s) user) (sessions (view 0%nat)) with
    | None => Err ChNotFound
    | Some s =>
        if fails 1%nat then Err ChDb
        else
          let '(status, res) :=
            match latest_turn user session (view 1%nat) with
            | Some t => if status_is Abandoned t then (None, false)
                        else (Some (tu_status t), resumable t || status_is WaitingBackend t)
            | None => (None, false)
            end in
          if fails 2%nat then Err ChDb
          else Ok (mkMeta session (open_title m session (se_title_sealed s)) status res (max_seq session (view 2%nat)))
    end.

(** The check and the delete are two statements: [between] is what happens
    in between. *)
Definition running_in (user session : Uuid) (c : Chat) : bool :=
  owned user session c && existsb (fun t => in_session session t && status_is Running t) (turns c).
Definition delete_owned (user session : Uuid) (fails : bool) (c : Chat) : result unit ChatError * Chat :=
  if fails then (Err ChDb, c)
  else if owned user session c then (Ok tt, delete_sessions (id_eqb session) c) else (Err ChNotFound, c).
Definition delete_session (user session : Uuid) (fails : nat -> bool) (between : Chat -> Chat) (c : Chat)
    : result unit ChatError * Chat :=
  if fails 0%nat then (Err ChDb, c)
  else if running_in user session c then (Err ChConflict, c)
  else delete_owned user session (fails 1%nat) (between c).

(** ** Messages *)
Definition opened (m : MasterKey) (row : MessageRow) : option ChatMessageRow :=
  match open_hex (me_sealed row) (message_aad (me_session row) (me_seq row)) (ChatKeys_from_master_key m) with
  | Ok content => Some (mkChatMessage (me_seq row) (me_role row) content)
  | Err _ => None
  end.
Definition messages_after (user : Uuid) (m : MasterKey) (session : Uuid) (after_seq : Z) (fails : bool) (c : Chat)
    : result (list ChatMessageRow) ChatError :=
  if fails then Err ChDb
  else if negb (owned user session c) then Err ChNotFound
  else Ok (omap (opened m)
        (sort_by (fun a b => me_seq a ?= me_seq b) (retain (fun r => after_seq <? me_seq r) (session_messages session c)))).

Definition touch (user session : Uuid) (now : str) (s : SessionRow) : SessionRow :=
  if id_eqb (se_id s) session && id_eqb (se_user s) user
  then mkSessionRow (se_id s) (se_user s) (se_title_sealed s) (se_created_at s) now else s.

(** The insert of a message with the next number; the [seq] it got *)
Definition insert_message (user session : Uuid) (m : MasterKey) (role : ChatRole) (content now : str) (nonce : bytes) (c : Chat)
    : result (Z * Chat) ChatError :=
  let seq := max_seq session c + 1 in
  (let? sealed := seal_hex nonce content (message_aad session seq) (ChatKeys_from_master_key m) in
   Ok (seq, mkChat (touch user session now <$> sessions c) (messages c ++ [mkMessageRow session seq role sealed now]) (turns c)))%rust.

Definition append_message (user : Uuid) (m : MasterKey) (session : Uuid) (role : ChatRole) (content now : str) (nonce : bytes)
    (commits : bool) (c : Chat) : result Z ChatError * Chat :=
  if negb commits then (Err ChDb, c)
  else if negb (owned user session c) then (Err ChNotFound, c)
  else match insert_message user session m role content now nonce c with
       | Err e => (Err e, c)
       | Ok (seq, c') => (Ok seq, c')
       end.

(** ** Turns *)
Definition supersede (session : Uuid) (now : str) (t : TurnRow) : TurnRow :=
  if in_session session t && (status_is Interrupted t || status_is WaitingBackend t) then set_status Abandoned now t else t.

Definition create_turn (user : Uuid) (m : MasterKey) (session : Uuid) (message : str) (turn_id : Uuid) (now ts : str)
    (nonce : bytes) (commits : bool) (c : Chat) : result TurnRow ChatError * Chat :=
  if negb commits then (Err ChDb, c)
  else if negb (owned user session c) then (Err ChNotFound, c)
  else
    let c1 := mkChat (sessions c) (messages c) (supersede session now <$> turns c) in
    match insert_message user session m RoleUser message ts nonce c1 with
    | Err e => (Err e, c)
    | Ok (seq, c2) =>
        let turn := mkTurnRow turn_id session seq Running 0 ts ts Interrupted None in
        if existsb (fun t => in_session session t && status_is Running t) (turns c2) || existsb (fun t => id_eqb (tu_id t) turn_id) (turns c2)
        then (Err ChConflict, c)
        else (Ok turn, mkChat (sessions c2) (messages c2) (turns c2 ++ [turn]))
    end.

(** A conditional UPDATE of turns: the rows it changed, unless it breaks
    the index. *)
Definition update_turns (cond : TurnRow -> bool) (f : TurnRow -> TurnRow) (fails : bool) (c : Chat) : result nat ChatError * Chat :=
  let l := (fun t => if cond t then f t else t) <$> turns c in
  if fails || negb (one_running l) then (Err ChDb, c)
  else (Ok (length (retain cond (turns c))), mkChat (sessions c) (messages c) l).

Definition claim (f : TurnRow -> TurnRow) (cond : TurnRow -> bool) (user session turn_id : Uuid) (fails : bool) (c : Chat)
    : result bool ChatError * Chat :=
  let '(r, c') := update_turns (fun t => id_eqb (tu_id t) turn_id && in_session session t && cond t && owned user session c) f fails c in
  (match r with Ok n => Ok (0 <? n)%nat | Err e => Err e end, c').

Definition claim_resumable_row (now : str) (t : TurnRow) : TurnRow :=
  mkTurnRow (tu_id t) (tu_session t) (tu_user_seq t) Running (tu_attempts t + 1) (tu_created_at t) now Interrupted (tu_last_error t).
Definition claim_resumable (user session turn_id : Uuid) (now : str) (fails : bool) (c : Chat) : result bool ChatError * Chat :=
  claim (claim_resumable_row now) resumable user session turn_id fails c.

Definition claim_waiting_row (now : str) (t : TurnRow) : TurnRow :=
  mkTurnRow (tu_id t) (tu_session t) (tu_user_seq t) Running (tu_attempts t) (tu_created_at t) now WaitingBackend (tu_last_error t).
Definition claim_waiting (user session turn_id : Uuid) (now : str) (fails : bool) (c : Chat) : result bool ChatError * Chat :=
  claim (claim_waiting_row now) (status_is WaitingBackend) user session turn_id fails c.

(** The UPDATE of a running turn, and when it finds none the SELECT that
    tells an ended turn from an unknown one *)
Definition end_running (f : TurnRow -> TurnRow) (user turn_id : Uuid) (fails : nat -> bool) (c : Chat) : result unit ChatError * Chat :=
  let '(r, c') := update_turns (fun t => id_eqb (tu_id t) turn_id && status_is Running t && owned user (tu_session t) c) f (fails 0%nat) c in
  match r with
  | Err e => (Err e, c')
  | Ok (S _) => (Ok tt, c')
  | Ok O =>
      if fails 1%nat then (Err ChDb, c')
      else if existsb (fun t => id_eqb (tu_id t) turn_id && owned user (tu_session t) c') (turns c') then (Ok tt, c')
      else (Err ChNotFound, c')
  end.
Definition finalize_turn (user turn_id : Uuid) (status : ChatTurnStatus) (now : str) (fails : nat -> bool) (c : Chat)
    : result unit ChatError * Chat := end_running (set_status status now) user turn_id fails c.
Definition park_row (last_error : option str) (now : str) (t : TurnRow) : TurnRow :=
  mkTurnRow (tu_id t) (tu_session t) (tu_user_seq t) WaitingBackend (tu_attempts t) (tu_created_at t) now (tu_park t) last_error.
Definition park_waiting (user turn_id : Uuid) (last_error : option str) (now : str) (fails : nat -> bool) (c : Chat)
    : result unit ChatError * Chat := end_running (park_row last_error now) user turn_id fails c.

Definition boot_sweep (now : str) (fails : bool) (c : Chat) : result nat ChatError * Chat :=
  update_turns (status_is Running) (fun t => set_status (tu_park t) now t) fails c.

(** ** Scans *)
Definition owner_of (session : Uuid) (c : Chat) : option Uuid := se_user <$> find_first (fun s => id_eqb (se_id s) session) (sessions c).
Definition turns_with_owner (cond : TurnRow -> bool) (fails : bool) (c : Chat) : result (list (Uuid * TurnRow)) ChatError :=
  if fails then Err ChDb
  else Ok (omap (fun t => (fun u => (u, t)) <$> owner_of (tu_session t) c) (sort_by (by_text tu_created_at) (retain cond (turns c)))).
Definition resumable_turns : bool -> Chat -> result (list (Uuid * TurnRow)) ChatError := turns_with_owner resumable.
Definition waiting_turns : bool -> Chat -> result (list (Uuid * TurnRow)) ChatError := turns_with_owner (status_is WaitingBackend).
Definition running_turn (user session : Uuid) (fails : bool) (c : Chat) : result (option TurnRow) ChatError :=
  if fails then Err ChDb
  else Ok (if owned user session c then head (retain (fun t => in_session session t && status_is Running t) (turns c)) else None).

(** [username]: the join with [users] *)
Definition admin_listed (t : TurnRow) : bool := status_is WaitingBackend t || resumable t.
Definition admin_waiting_turns (username : Uuid -> option str) (fails : bool) (c : Chat) : result (list AdminWaitingTurn) ChatError :=
  if fails then Err ChDb
  else Ok (omap (fun t => u ← owner_of (tu_session t) c; name ← username u; Some (mkAdminTurn t u name))
             (sort_by (by_text tu_created_at) (retain admin_listed (turns c)))).
Definition waiting_turn_count (fails : bool) (c : Chat) : result Z ChatError :=
  if fails then Err ChDb else Ok (Z.of_nat (length (retain admin_listed (turns c)))).
End Chat.
