(* ===== verification/ChatProofs.v ===== *)
(** * What the chat tables keep

    The writes of [Chat] as the steps of a history, and what every history
    of them leaves: the turn machine, the transcript, the sessions. *)
From stdpp Require Import sorting.
From S2P Require Import Prelude Text Clock Crypto FileRepo Chat.
Open Scope Z_scope.

(** ** Histories

    One step per transaction or statement.  A delete is its second
    statement: the check before it writes nothing. *)
Inductive ChatOp :=
| CreateSession (user : Uuid) (m : MasterKey) (title : str) (id : Uuid) (now : str) (nonce : bytes) (commits : bool)
| DeleteSession (user session : Uuid) (fails : bool)
| AppendMessage (user : Uuid) (m : MasterKey) (session : Uuid) (role : ChatRole) (content now : str) (nonce : bytes) (commits : bool)
| CreateTurn (user : Uuid) (m : MasterKey) (session : Uuid) (message : str) (turn_id : Uuid) (now ts : str) (nonce : bytes) (commits : bool)
| ClaimResumable (user session turn_id : Uuid) (now : str) (fails : bool)
| ClaimWaiting (user session turn_id : Uuid) (now : str) (fails : bool)
| FinalizeTurn (user turn_id : Uuid) (status : ChatTurnStatus) (now : str) (fails : nat -> bool)
| ParkWaiting (user turn_id : Uuid) (last_error : option str) (now : str) (fails : nat -> bool)
| BootSweep (now : str) (fails : bool).

(** The statuses the callers finalize with *)
Definition op_ok (op : ChatOp) : Prop :=
  match op with
  | FinalizeTurn _ _ s _ _ => s = Done \/ s = Failed \/ s = Interrupted
  | _ => True
  end.

Definition is_open (t : TurnRow) : bool := status_is Running t || status_is Interrupted t || status_is WaitingBackend t.
Definition open_in (session : Uuid) (l : list TurnRow) : nat := length (retain (fun t => is_open t && in_session session t) l).

(** One step of a turn's life *)
Definition may_become (t t' : TurnRow) : Prop :=
  tu_id t' = tu_id t /\ tu_session t' = tu_session t /\ tu_user_seq t' = tu_user_seq t /\ tu_created_at t' = tu_created_at t /\
  match tu_status t, tu_status t' with
  | Running, (Done | Failed | Interrupted | WaitingBackend) => tu_attempts t' = tu_attempts t
  | Interrupted, Running => tu_attempts t = 0 /\ tu_attempts t' = 1
  | WaitingBackend, Running | Interrupted, Abandoned | WaitingBackend, Abandoned => tu_attempts t' = tu_attempts t
  | _, _ => False
  end.

Record turn_wf (t : TurnRow) : Prop := {
  wf_attempts : tu_attempts t = 0 \/ tu_attempts t = 1;
  wf_park : tu_park t = Interrupted \/ tu_park t = WaitingBackend }.

Lemma id_eqb_eq a b : id_eqb a b = true <-> a = b.
Proof. apply N.eqb_eq. Qed.
Lemma id_eqb_refl a : id_eqb a a = true.
Proof. by apply id_eqb_eq. Qed.
(** ** The turns *)
Definition turns_inv (l : list TurnRow) : Prop :=
  NoDup (tu_id <$> l) /\ Forall turn_wf l /\ forall s, (open_in s l <= 1)%nat.

Lemma status_is_true s t : status_is s t = true <-> tu_status t = s.
Proof. apply bool_decide_eq_true. Qed.

Lemma inv_one_running l : turns_inv l -> one_running l = true.
Proof.
  intros (_ & _ & Ho). apply List.forallb_forall. intros t _. apply Nat.leb_le. etransitivity; [|apply (Ho (tu_session t))].
  apply retain_length_le. intros u _ [Hr Hs]%andb_prop. unfold is_open. by rewrite Hr, Hs.
Qed.

Lemma inv_retain f l : turns_inv l -> turns_inv (retain f l).
Proof.
  intros (Hn & Hw & Ho). split_and!.
  - eapply sublist_NoDup; [exact Hn|]. apply fmap_sublist, retain_sub.
  - rewrite Forall_forall in Hw |- *. intros t [Ht _]%elem_of_retain. by apply Hw.
  - intros s. etransitivity; [|apply (Ho s)]. apply sublist_length.
    clear. unfold open_in. induction l as [|t l IH]; simpl; [done|]. destruct (f t); simpl; destruct (_ && _); first [done | by constructor].
Qed.

(** An update that moves turns along the machine keeps the invariant, and
    is never refused by the unique index. *)
Definition moves (f : TurnRow -> TurnRow) (l : list TurnRow) : Prop :=
  forall t, t ∈ l -> f t = t \/ (may_become t (f t) /\ turn_wf (f t)).

Lemma become_open t t' : may_become t t' -> is_open t' = true -> is_open t = true.
Proof.
  unfold is_open, status_is. intros (_ & _ & _ & _ & H). destruct (tu_status t), (tu_status t'); done.
Qed.

Lemma fmap_same {A B} (h : A -> B) (f : A -> A) (l : list A) : (forall x, x ∈ l -> h (f x) = h x) -> h <$> (f <$> l) = h <$> l.
Proof.
  induction l as [|x l IH]; intros H; [done|]. cbn. rewrite H by by left. f_equal. apply IH. intros y Hy. apply H. by right.
Qed.

Lemma inv_moves f l : turns_inv l -> moves f l -> turns_inv (f <$> l).
Proof.
  intros (Hn & Hw & Ho) Hm. split_and!.
  - rewrite fmap_same; [done|]. intros t Ht. destruct (Hm t Ht) as [->|[(E & _) _]]; done.
  - apply Forall_fmap. rewrite Forall_forall in Hw |- *. intros t Ht. simpl. destruct (Hm t Ht) as [->|[_ H]]; auto.
  - intros s. etransitivity; [|apply (Ho s)]. unfold open_in. rewrite retain_fmap, length_fmap. apply retain_length_le.
    intros t Ht. destruct (Hm t Ht) as [->|[H _]]; [done|]. pose proof (become_open _ _ H) as Ho'.
    destruct H as (_ & Es & _). unfold in_session. rewrite Es. destruct (is_open (f t)); simpl; [|done]. by rewrite Ho'.
Qed.

Lemma update_moves (cond : TurnRow -> bool) (f : TurnRow -> TurnRow) fails c : turns_inv (turns c) ->
  moves (fun t => if cond t then f t else t) (turns c) ->
  update_turns cond f fails c =
    if fails then (Err ChDb, c)
    else (Ok (length (retain cond (turns c))), mkChat (sessions c) (messages c) ((fun t => if cond t then f t else t) <$> turns c)).
Proof.
  intros Hi Hm. unfold update_turns. rewrite (inv_one_running _ (inv_moves _ _ Hi Hm)). by rewrite orb_false_r.
Qed.

Section Chat.
Context {AE : Aead} {KD : Kdf} {HX : Hex} {UT : UuidText}.

Definition apply_op (op : ChatOp) (c : Chat) : Chat :=
  match op with
  | CreateSession u m title id now n b => snd (create_session u m title id now n b c)
  | DeleteSession u s b => snd (delete_owned u s b c)
  | AppendMessage u m s r x now n b => snd (append_message u m s r x now n b c)
  | CreateTurn u m s x tid now ts n b => snd (create_turn u m s x tid now ts n b c)
  | ClaimResumable u s tid now b => snd (claim_resumable u s tid now b c)
  | ClaimWaiting u s tid now b => snd (claim_waiting u s tid now b c)
  | FinalizeTurn u tid st now b => snd (finalize_turn u tid st now b c)
  | ParkWaiting u tid e now b => snd (park_waiting u tid e now b c)
  | BootSweep now b => snd (boot_sweep now b c)
  end.
Definition no_chats : Chat := mkChat [] [] [].
Definition run_ops (ops : list ChatOp) (c : Chat) : Chat := fold_left (fun c op => apply_op op c) ops c.

(** *** What each update does to a turn *)
Lemma moves_if (cond : TurnRow -> bool) (f : TurnRow -> TurnRow) l : Forall turn_wf l ->
  (forall t, turn_wf t -> cond t = true -> may_become t (f t) /\ turn_wf (f t)) -> moves (fun t => if cond t then f t else t) l.
Proof.
  intros Hw H t Ht. rewrite Forall_forall in Hw. destruct (cond t) eqn:E; [right|by left]. apply H; [by apply Hw|done].
Qed.

Lemma resume_moves t now : turn_wf t -> resumable t = true ->
  may_become t (claim_resumable_row now t) /\ turn_wf (claim_resumable_row now t).
Proof.
  intros [Ha Hp] H. unfold resumable in H. apply andb_prop in H as [Hs%status_is_true Hz%Z.eqb_eq].
  split; [unfold may_become|split]; simpl; rewrite ?Hs; split_and?; auto; lia.
Qed.
Lemma weather_moves t now : turn_wf t -> status_is WaitingBackend t = true ->
  may_become t (claim_waiting_row now t) /\ turn_wf (claim_waiting_row now t).
Proof. intros [Ha Hp] Hs%status_is_true. split; [unfold may_become|split]; simpl; rewrite ?Hs; auto. Qed.
Lemma end_moves t s now : turn_wf t -> status_is Running t = true -> s = Done \/ s = Failed \/ s = Interrupted \/ s = WaitingBackend ->
  may_become t (set_status s now t) /\ turn_wf (set_status s now t).
Proof.
  intros [Ha Hp] Hr%status_is_true Hs.
  split; [unfold may_become|split]; simpl; rewrite ?Hr; split_and?; auto. by destruct Hs as [->|[->|[->| ->]]].
Qed.
Lemma park_moves t e now : turn_wf t -> status_is Running t = true ->
  may_become t (park_row e now t) /\ turn_wf (park_row e now t).
Proof. intros [Ha Hp] Hr%status_is_true. split; [unfold may_become|split]; simpl; rewrite ?Hr; auto. Qed.
Lemma supersede_moves s now l : Forall turn_wf l -> moves (supersede s now) l.
Proof.
  intros Hw. apply moves_if; [done|]. intros t [Ha Hp] [_ H]%andb_prop.
  split; [unfold may_become|split]; simpl; split_and?; auto.
  apply orb_prop in H as [->%status_is_true| ->%status_is_true]; done.
Qed.

(** *** The turns after each operation: some turns go, the others move or
    stay, and a submitted turn is new *)
Lemma claim_turns (f : TurnRow -> TurnRow) (cond : TurnRow -> bool) u s tid fails c :
  turns_inv (turns c) -> (forall t, turn_wf t -> cond t = true -> may_become t (f t) /\ turn_wf (f t)) ->
  let hit t := id_eqb (tu_id t) tid && in_session s t && cond t && owned u s c in
  moves (fun t => if hit t then f t else t) (turns c) /\
  claim f cond u s tid fails c =
    (if fails then Err ChDb else Ok (existsb hit (turns c)),
     if fails then c else mkChat (sessions c) (messages c) ((fun t => if hit t then f t else t) <$> turns c)).
Proof.
  intros Hi Hm hit.
  assert (Hmv : moves (fun t => if hit t then f t else t) (turns c)).
  { apply moves_if; [apply Hi|]. intros t Hw H. subst hit. simpl in H. apply andb_prop in H as [H _].
    apply andb_prop in H as [_ H]. by apply Hm. }
  split; [done|]. unfold claim. rewrite update_moves by done. destruct fails; [done|]. f_equal. f_equal. fold hit.
  destruct (existsb hit (turns c)) eqn:E.
  - apply existsb_true in E as (t & Ht & E). apply Nat.ltb_lt.
    assert (t ∈ retain hit (turns c)) as H by by apply elem_of_retain. destruct (retain hit (turns c)); [by apply not_elem_of_nil in H|simpl; lia].
  - rewrite (proj2 (retain_nil _ _)); [done|]. by apply existsb_false.
Qed.

Lemma end_running_turns (f : TurnRow -> TurnRow) u tid fails c :
  turns_inv (turns c) -> (forall t, turn_wf t -> status_is Running t = true -> may_become t (f t) /\ turn_wf (f t)) ->
  let hit t := id_eqb (tu_id t) tid && status_is Running t && owned u (tu_session t) c in
  moves (fun t => if hit t then f t else t) (turns c) /\
  snd (end_running f u tid fails c) =
    if fails 0%nat then c else mkChat (sessions c) (messages c) ((fun t => if hit t then f t else t) <$> turns c).
Proof.
  intros Hi Hm hit.
  assert (Hmv : moves (fun t => if hit t then f t else t) (turns c)).
  { apply moves_if; [apply Hi|]. intros t Hw H. subst hit. simpl in H. apply andb_prop in H as [H _].
    apply andb_prop in H as [_ H]. by apply Hm. }
  split; [done|]. unfold end_running. rewrite update_moves by done. destruct (fails 0%nat); [done|]. by repeat case_match.
Qed.

Lemma sweep_turns now fails c : turns_inv (turns c) ->
  let f t := if status_is Running t then set_status (tu_park t) now t else t in
  moves f (turns c) /\
  snd (boot_sweep now fails c) = if fails then c else mkChat (sessions c) (messages c) (f <$> turns c).
Proof.
  intros Hi f.
  assert (Hmv : moves f (turns c)).
  { apply moves_if; [apply Hi|]. intros t Hw H. apply end_moves; [done..|]. destruct (wf_park _ Hw); auto. }
  split; [done|]. unfold boot_sweep. rewrite update_moves by done. by destruct fails.
Qed.

Lemma insert_message_turns u s m r x now n c seq c' :
  insert_message u s m r x now n c = Ok (seq, c') -> turns c' = turns c /\ se_id <$> sessions c' = se_id <$> sessions c.
Proof.
  unfold insert_message. destruct (seal_hex _ _ _ _); simpl; [|done]. intros [= <- <-]. split; [done|]. simpl.
  apply fmap_same. intros y _. unfold touch. by case_match.
Qed.

Lemma create_turn_turns u m s x tid now ts n b c r c' :
  create_turn u m s x tid now ts n b c = (r, c') ->
  c' = c \/ exists t, r = Ok t /\ turns c' = (supersede s now <$> turns c) ++ [t] /\ tu_session t = s /\ tu_id t = tid /\
    tu_status t = Running /\ tu_attempts t = 0 /\ turn_wf t /\ owned u s c = true /\
    (forall t', t' ∈ turns c -> tu_id t' <> tid) /\ open_in s (supersede s now <$> turns c) = 0%nat.
Proof.
  unfold create_turn. destruct b; simpl; [|intros [= _ <-]; by left].
  destruct (owned u s c) eqn:Ho; simpl; [|intros [= _ <-]; by left].
  destruct (insert_message _ _ _ _ _ _ _ _) as [[seq c2]|] eqn:Ei; [|intros [= _ <-]; by left].
  destruct (insert_message_turns _ _ _ _ _ _ _ _ _ _ Ei) as [Et _]. simpl in Et. rewrite Et.
  destruct (_ || _) eqn:E; [intros [= _ <-]; by left|]. intros [= <- <-]. right. eexists. split; [done|].
  apply orb_false_elim in E as [Er Ed]. rewrite existsb_false in Er, Ed. simpl. split_and!; try done.
  - split; auto.
  - intros t' Ht' E. assert (Hs : supersede s now t' ∈ supersede s now <$> turns c) by by apply list_elem_of_fmap_2.
    specialize (Ed _ Hs). unfold supersede in Ed. destruct (_ && _); simpl in Ed; by rewrite E, id_eqb_refl in Ed.
  - unfold open_in. rewrite (proj2 (retain_nil _ _)); [done|]. intros t Ht. specialize (Er _ Ht).
    apply list_elem_of_fmap in Ht as (t0 & -> & _). revert Er. unfold is_open, supersede.
    destruct (in_session s t0) eqn:Es; simpl; [|rewrite Es; by destruct (_ || _)].
    destruct (status_is Interrupted t0) eqn:Ei', (status_is WaitingBackend t0) eqn:Ew; simpl; try done.
    rewrite Es, Ei', Ew. simpl. intros ->. done.
Qed.

Lemma prune_is user c : prune_sessions user c = c \/ exists gone, prune_sessions user c = delete_sessions gone c /\
  forall id, gone id = true -> exists s, s ∈ prunable user c /\ se_id s = id.
Proof.
  unfold prune_sessions. destruct (_ <=? _); [|by left]. right. eexists. split; [done|]. intros id H.
  apply existsb_true in H as (x & Hx & ->%id_eqb_eq). apply list_elem_of_fmap in Hx as (s & -> & Hs).
  exists s. split; [|done]. by eapply elem_of_take in Hs as (i & Hi%list_elem_of_lookup_2 & _).
Qed.

Lemma elem_of_prunable user c s : s ∈ prunable user c <->
  s ∈ user_sessions user c /\ forall t, t ∈ turns c -> tu_session t = se_id s -> owes t = false.
Proof.
  unfold prunable. rewrite (sort_by_perm _ _), elem_of_retain. f_equiv. rewrite negb_true_iff, existsb_false. split.
  - intros H t Ht E. specialize (H t Ht). unfold in_session in H. by rewrite E, id_eqb_refl in H.
  - intros H t Ht. unfold in_session. destruct (id_eqb _ _) eqn:E; [|done]. apply id_eqb_eq in E. simpl. by apply H.
Qed.

Lemma create_session_is u m title id now n b c r c' : create_session u m title id now n b c = (r, c') ->
  (c' = c /\ (forall i, r <> Ok i)) \/
  exists sealed, r = Ok id /\ seal_hex n title (title_aad id) (ChatKeys_from_master_key m) = Ok sealed /\
    id ∉ se_id <$> sessions (prune_sessions u c) /\
    c' = mkChat (sessions (prune_sessions u c) ++ [mkSessionRow id u sealed now now]) (messages (prune_sessions u c)) (turns (prune_sessions u c)).
Proof.
  unfold create_session. destruct b; simpl; [|intros [= <- <-]; by left].
  destruct (seal_hex _ _ _ _) as [sealed|]; [|intros [= <- <-]; by left].
  destruct (existsb _ _) eqn:E; intros [= <- <-]; [by left|]. right. exists sealed. split_and!; try done.
  rewrite existsb_false in E. intros H. apply list_elem_of_fmap in H as (s & -> & Hs).
  specialize (E _ Hs). by rewrite id_eqb_refl in E.
Qed.

Definition fresh_turn (op : ChatOp) (c : Chat) (old : list TurnRow) (t : TurnRow) : Prop :=
  (exists u m x now ts n b, op = CreateTurn u m (tu_session t) x (tu_id t) now ts n b /\
     fst (create_turn u m (tu_session t) x (tu_id t) now ts n b c) = Ok t) /\
  tu_status t = Running /\ tu_attempts t = 0 /\ turn_wf t /\
  tu_id t ∉ tu_id <$> old /\ open_in (tu_session t) old = 0%nat.

(** Which step moves which turn, and where to *)
Definition moved_by (op : ChatOp) (c : Chat) (t t' : TurnRow) : Prop :=
  match op with
  | CreateTurn u _ s _ _ _ _ _ _ => owned u s c = true /\ tu_session t = s /\ tu_status t' = Abandoned
  | ClaimResumable u s tid _ _ =>
      owned u s c = true /\ tu_session t = s /\ tu_id t = tid /\ tu_status t = Interrupted /\ tu_status t' = Running
  | ClaimWaiting u s tid _ _ =>
      owned u s c = true /\ tu_session t = s /\ tu_id t = tid /\ tu_status t = WaitingBackend /\ tu_status t' = Running
  | FinalizeTurn u tid st _ _ =>
      owned u (tu_session t) c = true /\ tu_id t = tid /\ tu_status t = Running /\ tu_status t' = st
  | ParkWaiting u tid e _ _ =>
      owned u (tu_session t) c = true /\ tu_id t = tid /\ tu_status t = Running /\ tu_status t' = WaitingBackend /\
      tu_last_error t' = e
  | BootSweep _ _ => tu_status t = Running /\ tu_status t' = tu_park t
  | CreateSession _ _ _ _ _ _ _ | DeleteSession _ _ _ | AppendMessage _ _ _ _ _ _ _ _ => False
  end.
(** Which step removes a turn: the prune of a new session takes sessions of
    its user with no turn that owes an answer, a delete the owner's session *)
Definition removes (op : ChatOp) (c : Chat) (t : TurnRow) : Prop :=
  match op with
  | CreateSession u _ _ _ _ _ _ =>
      (exists s, s ∈ user_sessions u c /\ se_id s = tu_session t) /\
      forall t', t' ∈ turns c -> tu_session t' = tu_session t -> owes t' = false
  | DeleteSession u s fails => fails = false /\ tu_session t = s /\ owned u s c = true
  | _ => False
  end.

(** The shape of every step on the turns *)
Definition shape (op : ChatOp) (c : Chat) (l' : list TurnRow) : Prop :=
  exists keep f new, l' = (f <$> retain keep (turns c)) ++ new /\ moves f (turns c) /\
    (forall t, t ∈ turns c -> (keep t = true /\ (f t = t \/ moved_by op c t (f t))) \/ (keep t = false /\ removes op c t)) /\
    (new = [] \/ exists t, new = [t] /\ fresh_turn op c (f <$> retain keep (turns c)) t).

Lemma shape_moves op c f : moves f (turns c) -> (forall t, t ∈ turns c -> f t = t \/ moved_by op c t (f t)) ->
  shape op c (f <$> turns c).
Proof.
  intros Hm. exists (fun _ => true), f, []. rewrite retain_all, app_nil_r by by apply Forall_true. split_and!; auto.
Qed.
Lemma shape_if op c (cond : TurnRow -> bool) (f : TurnRow -> TurnRow) :
  let g t := if cond t then f t else t in
  moves g (turns c) -> (forall t, t ∈ turns c -> cond t = true -> moved_by op c t (f t)) -> shape op c (g <$> turns c).
Proof.
  intros g Hm H. apply shape_moves; [done|]. intros t Ht. subst g. simpl. destruct (cond t) eqn:E; [right; by apply H|by left].
Qed.
Lemma shape_same op c : shape op c (turns c).
Proof. rewrite <- (list_fmap_id (turns c)). apply shape_moves; by left. Qed.
Lemma shape_delete op c gone :
  (forall t, t ∈ turns c -> gone (tu_session t) = true -> removes op c t) ->
  shape op c (turns (delete_sessions gone c)).
Proof.
  intros H. exists (fun t => negb (gone (tu_session t))), id, []. rewrite list_fmap_id, app_nil_r.
  split_and!; [done|by left| |by left]. intros t Ht. specialize (H t Ht). destruct (gone _); [right; split; [done|by apply H]|by left; split; [|left]].
Qed.

Lemma owned_unique_turn u s c : owned u s c = true -> s ∈ se_id <$> sessions c.
Proof.
  intros (x & Hx & [E%id_eqb_eq _]%andb_prop)%existsb_true. subst. by apply list_elem_of_fmap_2.
Qed.

Lemma append_turns u m s r x now n b c : turns (snd (append_message u m s r x now n b c)) = turns c.
Proof.
  unfold append_message. destruct b; [|done]. destruct (owned u s c); [|done]. simpl.
  destruct (insert_message _ _ _ _ _ _ _ _) as [[seq c']|] eqn:E; [|done].
  by apply insert_message_turns in E as [E _].
Qed.

(** What a row the condition hits is *)
Ltac hits H :=
  repeat match type of H with
  | _ && _ = true => let H' := fresh in apply andb_prop in H as [H H']; hits H'
  | resumable _ = true => unfold resumable in H
  | id_eqb _ _ = true => apply id_eqb_eq in H
  | in_session _ _ = true => apply id_eqb_eq in H
  | status_is _ _ = true => apply status_is_true in H
  end.

Lemma op_turns op c : turns_inv (turns c) -> op_ok op -> shape op c (turns (apply_op op c)).
Proof.
  intros Hi Hok. pose proof Hi as (Hn & Hw & Ho).
  destruct op as [u m title i now n b|u s b|u m s r x now n b|u m s x tid now ts n b|u s tid now b|u s tid now b|u tid st now b|u tid e now b|now b]; simpl.
  - destruct (create_session _ _ _ _ _ _ _ _) as [r c'] eqn:E.
    apply create_session_is in E as [[-> _]|(sealed & _ & _ & _ & ->)]; [apply shape_same|]. simpl.
    destruct (prune_is u c) as [->|(gone & -> & Hg)]; [apply shape_same|]. apply shape_delete.
    intros t Ht (y & [Hu Hy]%elem_of_prunable & E)%Hg. simpl. rewrite <- E. by split; [exists y|].
  - unfold delete_owned. destruct b; [apply shape_same|]. destruct (owned u s c) eqn:E; [|apply shape_same].
    apply shape_delete. by intros t Ht Hs%id_eqb_eq.
  - rewrite append_turns. apply shape_same.
  - destruct (create_turn _ _ _ _ _ _ _ _ _ _) as [r c'] eqn:E. pose proof E as E'.
    apply create_turn_turns in E as [->|(t & -> & Et & Es & Ei & Er & Ea & Hwt & Hu & Hf & Hz)]; [apply shape_same|].
    simpl. rewrite Et. exists (fun _ => true), (supersede s now), [t]. rewrite retain_all by by apply Forall_true.
    split_and!; [done|by apply supersede_moves| |].
    { intros t' _. left. split; [done|]. unfold supersede. destruct (in_session s t' && _) eqn:Ec; [right|by left].
      apply andb_prop in Ec as [Ec%id_eqb_eq _]. simpl. by split_and!. }
    right. exists t. split; [done|].
    split_and!; [subst; exists u, m, x, now, ts, n, b; by rewrite E'|done..| |by rewrite Es].
    rewrite Ei. intros (y & -> & (z & -> & Hz')%list_elem_of_fmap)%list_elem_of_fmap. apply (Hf z); [done|].
    unfold supersede. by case_match.
  - destruct (claim_turns (claim_resumable_row now) resumable u s tid b c Hi) as [Hm E];
      [intros; by apply resume_moves|]. unfold claim_resumable. rewrite E. destruct b; [apply shape_same|]. apply shape_if; [done|]. intros t _ H. hits H. simpl. by split_and!.
  - destruct (claim_turns (claim_waiting_row now) (status_is WaitingBackend) u s tid b c Hi) as [Hm E];
      [intros; by apply weather_moves|]. unfold claim_waiting. rewrite E. destruct b; [apply shape_same|]. apply shape_if; [done|]. intros t _ H. hits H. simpl. by split_and!.
  - destruct (end_running_turns (set_status st now) u tid b c Hi) as [Hm E].
    { intros. apply end_moves; [done..|]. simpl in Hok. tauto. }
    unfold finalize_turn. rewrite E. destruct (b 0%nat); [apply shape_same|]. apply shape_if; [done|]. intros t _ H. hits H. simpl. by split_and!.
  - destruct (end_running_turns (park_row e now) u tid b c Hi) as [Hm E]; [intros; by apply park_moves|].
    unfold park_waiting. rewrite E. destruct (b 0%nat); [apply shape_same|]. apply shape_if; [done|]. intros t _ H. hits H. simpl. by split_and!.
  - destruct (sweep_turns now b c Hi) as [Hm E]. rewrite E. destruct b; [apply shape_same|]. apply shape_if; [done|]. intros t _ H. hits H. by split.
Qed.

Lemma open_in_app s l l' : open_in s (l ++ l') = (open_in s l + open_in s l')%nat.
Proof. unfold open_in. by rewrite List.filter_app, length_app. Qed.

Lemma shape_inv op c l' : turns_inv (turns c) -> shape op c l' -> turns_inv l'.
Proof.
  intros Hi (keep & f & new & -> & Hm & _ & Hnew).
  assert (H : turns_inv (f <$> retain keep (turns c))).
  { apply inv_moves; [by apply inv_retain|]. intros t [Ht _]%elem_of_retain. by apply Hm. }
  destruct Hnew as [->|(t & -> & _ & Hr & Ha & Hw & Hf & Hz)]; [by rewrite app_nil_r|]. destruct H as (Hn & Hws & Ho).
  split_and!.
  - rewrite fmap_app. apply NoDup_app. split_and!; [done| |apply NoDup_singleton].
    intros x Hx ->%list_elem_of_singleton. done.
  - apply Forall_app. split; [done|by constructor].
  - intros s. rewrite open_in_app. specialize (Ho s). unfold open_in at 2. simpl.
    destruct (is_open t && in_session s t) eqn:E; simpl; [|lia].
    apply andb_prop in E as [_ E%id_eqb_eq]. subst s. lia.
Qed.

Lemma run_inv ops c : Forall op_ok ops -> turns_inv (turns c) -> turns_inv (turns (run_ops ops c)).
Proof.
  intros H. revert c. induction H as [|op ops Hop _ IH]; intros c Hc; [done|]. simpl. apply IH.
  eapply shape_inv; [done|]. by apply op_turns.
Qed.

Lemma no_chats_inv : turns_inv (turns no_chats).
Proof. split_and!; [constructor|constructor|]. intros s. cbn. lia. Qed.

Lemma NoDup_fmap_inj_elem {A B} (f : A -> B) (l : list A) x y : NoDup (f <$> l) -> x ∈ l -> y ∈ l -> f x = f y -> x = y.
Proof.
  induction l as [|z l IH]; [by intros _ ?%not_elem_of_nil|]. cbn. intros [Hz Hn]%NoDup_cons Hx Hy E.
  apply elem_of_cons in Hx as [->|Hx], Hy as [->|Hy]; auto; exfalso; apply Hz; [rewrite E|rewrite <- E]; by apply list_elem_of_fmap_2.
Qed.

Lemma claimed_runs (hit : TurnRow -> bool) (f : TurnRow -> TurnRow) tid l :
  (forall t, tu_id (f t) = tu_id t) -> (forall t, tu_status (f t) = Running) -> (forall t, hit t = true -> tu_id t = tid) ->
  existsb hit l = true -> exists t, t ∈ (fun t => if hit t then f t else t) <$> l /\ tu_id t = tid /\ tu_status t = Running.
Proof.
  intros Hi Hs Ht (t & Hl & Eh)%existsb_true. exists (f t). rewrite Hi, (Ht t Eh). split; [|done].
  apply list_elem_of_fmap. exists t. by rewrite Eh.
Qed.

Lemma moves_ids f l : moves f l -> tu_id <$> (f <$> l) = tu_id <$> l.
Proof. intros Hm. apply fmap_same. intros t Ht. by destruct (Hm t Ht) as [->|[(E & _) _]]. Qed.

(** A step keeps the ids apart, and every row of it is an old turn that
    stayed or moved, or a fresh one. *)
Lemma shape_step op c l' : turns_inv (turns c) -> shape op c l' ->
  NoDup (tu_id <$> l') /\
  (forall t, t ∈ turns c ->
     (exists t', t' ∈ l' /\ (t' = t \/ (may_become t t' /\ moved_by op c t t'))) \/
     (tu_id t ∉ tu_id <$> l' /\ removes op c t)) /\
  (forall t', t' ∈ l' -> tu_id t' ∈ tu_id <$> turns c \/
     (tu_status t' = Running /\ tu_attempts t' = 0 /\
      exists u m x now ts n b, op = CreateTurn u m (tu_session t') x (tu_id t') now ts n b /\
        fst (create_turn u m (tu_session t') x (tu_id t') now ts n b c) = Ok t')).
Proof.
  intros Hi Hs. split; [by apply (shape_inv op c l')|]. destruct Hs as (keep & f & new & -> & Hm & Hk & Hnew).
  assert (Hmk : moves f (retain keep (turns c))) by (intros t [Ht _]%elem_of_retain; by apply Hm). split.
  - intros t Ht. destruct (Hk t Ht) as [[Ek Hf]|[Ek Hr]].
    + left. exists (f t). split; [apply elem_of_app; left; apply list_elem_of_fmap_2; by apply elem_of_retain|].
      destruct (Hm t Ht) as [?|[? _]]; [by left|]. destruct Hf; [by left|by right].
    + right. split; [|done]. rewrite fmap_app, moves_ids by done.
      destruct Hnew as [->|(t0 & -> & (u & m & x & now & ts & n & b & -> & _) & _)]; [|done].
      rewrite app_nil_r. intros (t1 & E & [Hk1 Ht1]%elem_of_retain)%list_elem_of_fmap.
      assert (t = t1) as <- by (eapply NoDup_fmap_inj_elem; [apply Hi|done..]). by rewrite Ek in *.
  - intros t' [(t & -> & [Ht _]%elem_of_retain)%list_elem_of_fmap|Ht']%elem_of_app.
    + left. apply list_elem_of_fmap. exists t. split; [|done]. by destruct (Hm t Ht) as [->|[(E & _) _]].
    + right. destruct Hnew as [->|(t0 & -> & Hc & Hr & Ha & _)]; [by apply not_elem_of_nil in Ht'|].
      by apply list_elem_of_singleton in Ht' as ->.
Qed.

(** C6. In every history a session has at most one turn that is running,
    interrupted or waiting, and a turn has been resumed after a crash at
    most once.  In a further step every turn keeps its id apart from the
    others and stays as it is, or is moved along the machine by the step
    that may do so (a submitted message abandons the interrupted or waiting
    turn of its own session, a claim runs the turn it names, an end or a
    park ends the running turn it names, the boot sweep parks the running
    ones), or is removed, by the prune of a session none of whose turns owes
    an answer or by its owner's delete; a row that was not there is the
    running turn of an accepted message.  A claim never runs into the
    one-running index: unless the database fails it answers whether the
    turn is there to claim, and then the turn runs; a sweep leaves no turn
    running and an end leaves its owner's turn not running. *)
Theorem turn_machine ops :
  Forall op_ok ops ->
  let c := run_ops ops no_chats in
  (forall s, (open_in s (turns c) <= 1)%nat) /\ (forall t, t ∈ turns c -> tu_attempts t = 0 \/ tu_attempts t = 1) /\
  (forall op, op_ok op ->
     let l' := turns (apply_op op c) in
     NoDup (tu_id <$> l') /\
     (forall t, t ∈ turns c ->
        (exists t', t' ∈ l' /\ (t' = t \/ (may_become t t' /\ moved_by op c t t'))) \/
        (tu_id t ∉ tu_id <$> l' /\ removes op c t)) /\
     (forall t', t' ∈ l' -> tu_id t' ∈ tu_id <$> turns c \/
        (tu_status t' = Running /\ tu_attempts t' = 0 /\
         exists u m x now ts n b, op = CreateTurn u m (tu_session t') x (tu_id t') now ts n b /\
           fst (create_turn u m (tu_session t') x (tu_id t') now ts n b c) = Ok t'))) /\
  (forall u s tid now,
     let there cond := existsb (fun t => id_eqb (tu_id t) tid && in_session s t && cond t && owned u s c) (turns c) in
     let runs c' := exists t, t ∈ turns c' /\ tu_id t = tid /\ tu_status t = Running in
     fst (claim_resumable u s tid now false c) = Ok (there resumable) /\
     (there resumable = true -> runs (snd (claim_resumable u s tid now false c))) /\
     fst (claim_waiting u s tid now false c) = Ok (there (status_is WaitingBackend)) /\
     (there (status_is WaitingBackend) = true -> runs (snd (claim_waiting u s tid now false c)))) /\
  (forall now t, t ∈ turns (snd (boot_sweep now false c)) -> tu_status t <> Running) /\
  (forall u st now t, let op := FinalizeTurn u (tu_id t) st now (fun _ => false) in
     op_ok op -> t ∈ turns (apply_op op c) -> owned u (tu_session t) c = true -> tu_status t <> Running).
Proof.
  intros Hok c. assert (Hi : turns_inv (turns c)) by (apply run_inv; [done|apply no_chats_inv]).
  pose proof Hi as (Hn & Hw & Ho). clearbody c. rewrite Forall_forall in Hw. split_and!; [done| | | | |].
  - intros t Ht. by apply wf_attempts, Hw.
  - intros op Hop. apply shape_step; [done|]. by apply op_turns.
  - intros u s tid now there runs.
    destruct (claim_turns (claim_resumable_row now) resumable u s tid false c Hi) as [_ E];
      [intros; by apply resume_moves|].
    destruct (claim_turns (claim_waiting_row now) (status_is WaitingBackend) u s tid false c Hi) as [_ E'];
      [intros; by apply weather_moves|].
    unfold claim_resumable, claim_waiting. rewrite E, E'. split_and!; [done| |done|];
      (intros Hh; simpl; apply claimed_runs; [done..| |exact Hh]; intros t H; by hits H).
  - intros now t. destruct (sweep_turns now false c Hi) as [_ ->]. simpl.
    intros (t0 & -> & Ht0)%list_elem_of_fmap. destruct (status_is Running t0) eqn:E; simpl.
    + by destruct (wf_park _ (Hw _ Ht0)) as [-> | ->].
    + intros E'. by rewrite (proj2 (status_is_true _ _) E') in E.
  - intros u st now t op Hop Ht Hu Hr. revert Ht. unfold op, apply_op, finalize_turn.
    destruct (end_running_turns (set_status st now) u (tu_id t) (fun _ => false) c Hi) as [_ ->].
    { intros. apply end_moves; [done..|]. simpl in Hop. tauto. }
    simpl. intros (t0 & E & Ht0)%list_elem_of_fmap. destruct (_ && _) eqn:Eh in E; subst t.
    + simpl in Hr, Hop. subst st. by destruct Hop as [?|[?|?]].
    + by rewrite Hu, id_eqb_refl, (proj2 (status_is_true _ _) Hr) in Eh.
Qed.

(** *** A turn is resumed after a crash at most once *)
Definition resumed (tid : Uuid) (op : ChatOp) (c : Chat) : nat :=
  match op with
  | ClaimResumable u s t now b =>
      if id_eqb t tid && default false (result_ok (fst (claim_resumable u s t now b c))) then 1 else 0
  | _ => 0
  end.
Definition submitted (tid : Uuid) (op : ChatOp) (c : Chat) : nat :=
  match op with
  | CreateTurn u m s x t now ts n b => if id_eqb t tid && is_some (result_ok (fst (create_turn u m s x t now ts n b c))) then 1 else 0
  | _ => 0
  end.
Fixpoint count_ops (f : ChatOp -> Chat -> nat) (ops : list ChatOp) (c : Chat) : nat :=
  match ops with [] => 0 | op :: ops => f op c + count_ops f ops (apply_op op c) end.

Definition spare (tid : Uuid) (l : list TurnRow) : nat :=
  if existsb (fun t => id_eqb (tu_id t) tid && (tu_attempts t =? 0)) l then 1 else 0.

Lemma spare_le tid l l' : (forall t, t ∈ l -> tu_id t = tid -> tu_attempts t = 0 -> exists t', t' ∈ l' /\ tu_id t' = tid /\ tu_attempts t' = 0) ->
  (spare tid l <= spare tid l')%nat.
Proof.
  intros H. unfold spare at 1. destruct (existsb _ l) eqn:E; [|lia].
  apply existsb_true in E as (t & Ht & [E%id_eqb_eq Ea%Z.eqb_eq]%andb_prop). destruct (H t Ht E Ea) as (t' & Ht' & E' & Ea').
  unfold spare. rewrite (proj2 (existsb_true _ l')); [lia|]. exists t'. by rewrite E', id_eqb_refl, Ea'.
Qed.

Lemma moved_back f l t' : moves f l -> t' ∈ f <$> l -> tu_attempts t' = 0 ->
  exists t, t ∈ l /\ tu_id t = tu_id t' /\ tu_attempts t = 0.
Proof.
  intros Hm (t & -> & Ht)%list_elem_of_fmap Ha. exists t. destruct (Hm t Ht) as [E|[(Ei & _ & _ & _ & H) _]]; [by rewrite E in *|].
  split; [done|]. split; [done|]. destruct (tu_status t), (tu_status (f t)); try done; lia.
Qed.

Lemma resumed_step tid op c : turns_inv (turns c) -> op_ok op ->
  (resumed tid op c + spare tid (turns (apply_op op c)) <= spare tid (turns c) + submitted tid op c)%nat.
Proof.
  intros Hi Hok.
  assert (Hgen : resumed tid op c = 0%nat ->
    (resumed tid op c + spare tid (turns (apply_op op c)) <= spare tid (turns c) + submitted tid op c)%nat).
  { intros ->. simpl. destruct (op_turns op c Hi Hok) as (keep & f & new & E & Hm & _ & Hnew). rewrite E.
    assert (Hold : (spare tid (f <$> retain keep (turns c)) <= spare tid (turns c))%nat).
    { apply spare_le. intros t Ht <- Ha. eapply (moved_back f) in Ht as (t0 & [Ht0 _]%elem_of_retain & ?); [eauto| |done].
      intros x [Hx _]%elem_of_retain. by apply Hm. }
    destruct Hnew as [->|(t & -> & (u & m & x & now & ts & n & b & -> & Ec) & _)]; [rewrite app_nil_r; lia|].
    destruct (decide (tu_id t = tid)) as [Et|Et].
    - simpl. rewrite Ec, Et, id_eqb_refl. unfold spare at 1. simpl. destruct (existsb _ _); lia.
    - transitivity (spare tid (f <$> retain keep (turns c))); [|lia]. apply spare_le. intros y Hy Ey Ea. exists y.
      split; [|done]. apply elem_of_app in Hy as [?|Hy%list_elem_of_singleton]; [done|congruence]. }
  destruct op as [| | | |u s t now b| | | |]; try by apply Hgen.
  destruct (id_eqb t tid) eqn:Et; [|apply Hgen; simpl; by rewrite Et]. apply id_eqb_eq in Et. subst t.
  destruct (claim_turns (claim_resumable_row now) resumable u s tid b c Hi) as [Hm E]; [intros; by apply resume_moves|].
  destruct (default false (result_ok (claim_resumable u s tid now b c).1)) eqn:Er; [|apply Hgen; simpl; by rewrite Er, andb_false_r].
  simpl. rewrite Er, id_eqb_refl. revert Er. unfold claim_resumable. rewrite E. destruct b; [done|]. simpl. intros Hhit.
  assert (Hc : spare tid (turns c) = 1%nat).
  { unfold spare. rewrite (proj2 (existsb_true _ _)); [done|]. apply existsb_true in Hhit as (t & Ht & H). exists t. split; [done|].
    apply andb_prop in H as [[[H1 _]%andb_prop [_ H2]%andb_prop]%andb_prop _]. by rewrite H1, H2. }
  rewrite Hc. enough (spare tid ((fun t => if id_eqb (tu_id t) tid && in_session s t && resumable t && owned u s c
      then claim_resumable_row now t else t) <$> turns c) = 0%nat) by lia.
  unfold spare. rewrite (proj2 (existsb_false _ _)); [done|]. intros t' (t & -> & Ht)%list_elem_of_fmap.
  apply existsb_true in Hhit as (t0 & Ht0 & H0). destruct (id_eqb (tu_id t) tid) eqn:Ei.
  - assert (t = t0) as ->.
    { pose proof H0 as H1. apply andb_prop in H1 as [[[H1%id_eqb_eq _]%andb_prop _]%andb_prop _]. apply id_eqb_eq in Ei.
      eapply NoDup_fmap_inj_elem; [apply Hi|done..|congruence]. }
    rewrite Ei in H0. rewrite H0. simpl. apply andb_prop in H0 as [[_ [_ Ha%Z.eqb_eq]%andb_prop]%andb_prop _]. rewrite Ha. by rewrite andb_false_r.
  - simpl. by rewrite Ei.
Qed.

(** In every history a turn is resumed after a crash at most as often as a
    turn with its id was submitted: an id is resumed once. *)
Theorem crash_resume_once ops tid : Forall op_ok ops ->
  (count_ops (resumed tid) ops no_chats <= count_ops (submitted tid) ops no_chats)%nat.
Proof.
  intros Hok. enough (H : forall c, turns_inv (turns c) ->
    (count_ops (resumed tid) ops c <= spare tid (turns c) + count_ops (submitted tid) ops c)%nat).
  { apply (H no_chats), no_chats_inv. }
  induction Hok as [|op ops Hop _ IH]; intros c Hi; [simpl; lia|]. simpl.
  specialize (IH (apply_op op c) (shape_inv _ _ _ Hi (op_turns _ _ Hi Hop))).
  pose proof (resumed_step tid op c Hi Hop). lia.
Qed.

(** ** The transcript

    What has been said in a session, by the answers of the operations: the
    log a history writes *)
Definition said_step (s : Uuid) (op : ChatOp) (c : Chat) (l : list (ChatRole * str)) : list (ChatRole * str) :=
  match op with
  | CreateSession u m title id now n b =>
      if id_eqb id s && is_some (result_ok (fst (create_session u m title id now n b c))) then [] else l
  | AppendMessage u m s' r x now n b =>
      if id_eqb s' s && is_some (result_ok (fst (append_message u m s' r x now n b c))) then l ++ [(r, x)] else l
  | CreateTurn u m s' x t now ts n b =>
      if id_eqb s' s && is_some (result_ok (fst (create_turn u m s' x t now ts n b c))) then l ++ [(RoleUser, x)] else l
  | _ => l
  end.
Fixpoint said (s : Uuid) (ops : list ChatOp) (c : Chat) (l : list (ChatRole * str)) : list (ChatRole * str) :=
  match ops with [] => l | op :: ops => said s ops (apply_op op c) (said_step s op c l) end.

(** Numbered from 1 *)
Definition numbered (l : list (ChatRole * str)) : list ChatMessageRow :=
  imap (fun i p => mkChatMessage (Z.of_nat i + 1) p.1 p.2) l.

(** The user's operations use the user's key; text is of characters and
    nonces have twelve bytes. *)
Definition keyed (u : Uuid) (m : MasterKey) (op : ChatOp) : Prop :=
  match op with
  | AppendMessage u' m' _ _ x _ n _ | CreateTurn u' m' _ x _ _ _ n _ =>
      (u' = u -> m' = m) /\ Forall (fun ch => is_scalar ch = true) x /\ length n = NONCE_LEN
  | _ => True
  end.

Definition row_says (s : Uuid) (m : MasterKey) (r : MessageRow) (e : ChatMessageRow) : Prop :=
  me_session r = s /\ me_seq r = cm_seq e /\ me_role r = cm_role e /\
  exists sealed, me_sealed r = hex_encode sealed /\
    sealed_as sealed (as_bytes (message_aad s (cm_seq e))) (as_bytes (cm_content e)) (ChatKeys_from_master_key m) /\
    Forall (fun ch => is_scalar ch = true) (cm_content e).

Record scribed (u : Uuid) (m : MasterKey) (s : Uuid) (c : Chat) (l : list (ChatRole * str)) : Prop := {
  sc_ids : NoDup (se_id <$> sessions c);
  sc_refs : forall r, r ∈ messages c -> me_session r ∈ se_id <$> sessions c;
  sc_rows : owned u s c = true -> Forall2 (row_says s m) (session_messages s c) (numbered l) }.

Lemma numbered_snoc l r x : numbered (l ++ [(r, x)]) = numbered l ++ [mkChatMessage (Z.of_nat (length l) + 1) r x].
Proof. unfold numbered. rewrite imap_app. simpl. by rewrite Nat.add_0_r. Qed.
Lemma numbered_length l : length (numbered l) = length l.
Proof. apply length_imap. Qed.
Lemma numbered_nth l i e : numbered l !! i = Some e -> cm_seq e = Z.of_nat i + 1.
Proof. unfold numbered. rewrite list_lookup_imap. destruct (l !! i); simpl; [|done]. by intros [= <-]. Qed.

Lemma row_opened s m r e : row_says s m r e -> opened m r = Some e.
Proof.
  intros (Es & Eq & Er & sealed & Ex & Hs & Hc). unfold opened, open_hex. rewrite Ex, hex_roundtrip, Es, Eq. simpl.
  unfold open_chat. rewrite (aead_open_self _ _ _ _ Hs). simpl. rewrite from_utf8_as_bytes by done. simpl. rewrite Er. by destruct e.
Qed.

Lemma max_seq_rows s c m l : Forall2 (row_says s m) (session_messages s c) (numbered l) -> max_seq s c = Z.of_nat (length l).
Proof.
  unfold max_seq. generalize (session_messages s c). intros rows. revert rows.
  induction l as [|[r x] l IH] using rev_ind; intros rows H.
  - apply Forall2_nil_inv_r in H as ->. done.
  - rewrite numbered_snoc in H. apply Forall2_app_inv_r in H as (r1 & r2 & H1 & H2 & ->).
    apply Forall2_cons_inv_r in H2 as (y & r3 & (_ & Hy & _) & ->%Forall2_nil_inv_r & ->). specialize (IH _ H1).
    rewrite fmap_app, foldr_app. simpl in *. rewrite Hy, length_app. simpl.
    assert (Hmax : forall (q : list Z) a, 0 <= a -> foldr Z.max a q = Z.max a (foldr Z.max 0 q)).
    { clear. intros q a Ha. induction q as [|b q IH]; simpl; [lia|]. rewrite IH. lia. }
    rewrite Hmax by lia. rewrite IH. lia.
Qed.

Lemma owned_in u s c : owned u s c = true <-> exists x, x ∈ sessions c /\ se_id x = s /\ se_user x = u.
Proof. unfold owned. rewrite existsb_true. setoid_rewrite andb_true_iff. by setoid_rewrite id_eqb_eq. Qed.

Lemma owner_unique u u' s c : NoDup (se_id <$> sessions c) -> owned u s c = true -> owned u' s c = true -> u' = u.
Proof.
  intros Hn (x & Hx & Ex & Eu)%owned_in (y & Hy & Ey & Ev)%owned_in.
  assert (x = y) as -> by (eapply NoDup_fmap_inj_elem; [done..|congruence]). congruence.
Qed.

Lemma scribed_same u m s c c' l : sessions c' = sessions c -> messages c' = messages c -> scribed u m s c l -> scribed u m s c' l.
Proof. destruct c, c'. simpl. intros -> -> [Hi Hr Hw]. by split. Qed.

Lemma scribed_delete u m s c l gone : scribed u m s c l -> scribed u m s (delete_sessions gone c) l.
Proof.
  intros [Hi Hr Hw]. split; simpl.
  - eapply sublist_NoDup; [exact Hi|]. apply fmap_sublist, retain_sub.
  - intros r [Hin Hg]%elem_of_retain. destruct (list_elem_of_fmap_1 _ _ _ (Hr r Hin)) as (x & Ex & Hx). rewrite Ex in Hg |- *.
    apply list_elem_of_fmap_2. by apply elem_of_retain.
  - intros (x & [Hx Hg]%elem_of_retain & Ex & Eu)%owned_in. unfold session_messages. simpl. rewrite retain_retain.
    rewrite (retain_ext _ (fun r => id_eqb (me_session r) s)); [apply Hw, owned_in; eauto|].
    intros r _. destruct (id_eqb (me_session r) s) eqn:E; [|by rewrite andb_false_r]. apply id_eqb_eq in E.
    by rewrite E, <- Ex, Hg.
Qed.

Lemma scribed_create u m s c l id u' sealed now : scribed u m s c l -> id ∉ se_id <$> sessions c ->
  scribed u m s (mkChat (sessions c ++ [mkSessionRow id u' sealed now now]) (messages c) (turns c)) (if id_eqb id s then [] else l).
Proof.
  intros [Hi Hr Hw] Hid. split; simpl.
  - rewrite fmap_app. apply NoDup_app. split_and!; [done| |apply NoDup_singleton]. by intros x Hx ->%list_elem_of_singleton.
  - intros r Hin. rewrite fmap_app. apply elem_of_app. left. by apply Hr.
  - intros Ho. destruct (id_eqb id s) eqn:E.
    + apply id_eqb_eq in E. subst id. unfold session_messages. simpl. rewrite (proj2 (retain_nil _ _)); [constructor|].
      intros r Hin. destruct (id_eqb _ _) eqn:E; [|done]. apply id_eqb_eq in E. exfalso. apply Hid. rewrite <- E. by apply Hr.
    + apply Hw. apply owned_in in Ho as (x & Hx & Ex & Eu). apply owned_in. exists x. split; [|done].
      apply elem_of_app in Hx as [?|Hx%list_elem_of_singleton]; [done|]. subst. simpl in *. by rewrite id_eqb_refl in E.
Qed.

Lemma seal_hex_says n x aad key t : length n = NONCE_LEN -> seal_hex n x aad key = Ok t ->
  exists sealed, t = hex_encode sealed /\ sealed_as sealed (as_bytes aad) (as_bytes x) key.
Proof.
  intros Hn. unfold seal_hex, seal_chat. destruct (aead_seal _ _ _ _) as [b|] eqn:E; simpl; [|done]. intros [= <-].
  exists b. split; [done|]. by eapply aead_seal_Ok.
Qed.

Lemma scribed_insert u m s c l u' m' s' r x now n seq c' :
  scribed u m s c l -> owned u' s' c = true -> (u' = u -> m' = m) -> Forall (fun ch => is_scalar ch = true) x -> length n = NONCE_LEN ->
  insert_message u' s' m' r x now n c = Ok (seq, c') ->
  scribed u m s c' (if id_eqb s' s then l ++ [(r, x)] else l).
Proof.
  intros [Hi Hr Hw] Ho Hk Hx Hn. unfold insert_message. destruct (seal_hex _ _ _ _) as [t|] eqn:Es; simpl; [|done].
  intros [= <- <-]. assert (Eids : se_id <$> (touch u' s' now <$> sessions c) = se_id <$> sessions c).
  { apply fmap_same. intros y _. unfold touch. by case_match. }
  split; simpl.
  - by rewrite Eids.
  - rewrite Eids. intros y [Hy|Hy%list_elem_of_singleton]%elem_of_app; [by apply Hr|]. subst. simpl.
    apply owned_in in Ho as (z & Hz & <- & _). by apply list_elem_of_fmap_2.
  - intros Hu. assert (Ho' : owned u s c = true).
    { apply owned_in in Hu as (y & (z & -> & Hz)%list_elem_of_fmap & Ey & Eu). apply owned_in. exists z. split; [done|].
      revert Ey Eu. unfold touch. by case_match. }
    unfold session_messages. simpl. rewrite List.filter_app. simpl. specialize (Hw Ho'). destruct (id_eqb s' s) eqn:E.
    + apply id_eqb_eq in E. subst s'. assert (u' = u) as -> by by eapply owner_unique. rewrite Hk in Es by done.
      rewrite (max_seq_rows _ _ _ _ Hw) in Es |- *. rewrite numbered_snoc. apply Forall2_app; [done|]. constructor; [|constructor].
      split_and!; [done..|]. destruct (seal_hex_says _ _ _ _ _ Hn Es) as (b & -> & Hb). exists b. by split_and!.
    + by rewrite app_nil_r.
Qed.

Lemma update_same cond f fails c : sessions (snd (update_turns cond f fails c)) = sessions c /\
  messages (snd (update_turns cond f fails c)) = messages c.
Proof. unfold update_turns. by case_match. Qed.

Lemma end_running_same f u t fails c : sessions (snd (end_running f u t fails c)) = sessions c /\
  messages (snd (end_running f u t fails c)) = messages c.
Proof.
  unfold end_running. pose proof (update_same (fun t0 => id_eqb (tu_id t0) t && status_is Running t0 && owned u (tu_session t0) c) f (fails 0%nat) c) as H.
  destruct (update_turns _ _ _ _) as [r c']. simpl in H. by repeat case_match.
Qed.

Lemma claim_same f cond u s t fails c : sessions (snd (claim f cond u s t fails c)) = sessions c /\
  messages (snd (claim f cond u s t fails c)) = messages c.
Proof.
  unfold claim. pose proof (update_same (fun t0 => id_eqb (tu_id t0) t && in_session s t0 && cond t0 && owned u s c) f fails c) as H.
  by destruct (update_turns _ _ _ _) as [r c'].
Qed.

Lemma scribed_step u m s op c l : keyed u m op -> scribed u m s c l ->
  scribed u m s (apply_op op c) (said_step s op c l).
Proof.
  intros Hk Hs.
  destruct op as [u' m' title i now n b|u' s' b|u' m' s' r x now n b|u' m' s' x tid now ts n b|u' s' tid now b|u' s' tid now b|u' tid st now b|u' tid e now b|now b]; simpl.
  5-9: eapply scribed_same; [..|exact Hs]; (apply claim_same || apply end_running_same || apply update_same).
  - destruct (create_session _ _ _ _ _ _ _ _) as [r c'] eqn:E.
    apply create_session_is in E as [[-> E]|(sealed & -> & _ & Hid & ->)].
    + destruct r as [i'|]; [by destruct (E i')|]. simpl. by rewrite andb_false_r.
    + simpl. rewrite andb_true_r. apply scribed_create; [|done].
      destruct (prune_is u' c) as [->|(gone & -> & _)]; [done|by apply scribed_delete].
  - unfold delete_owned. destruct b; [done|]. destruct (owned u' s' c); [|done]. by apply scribed_delete.
  - destruct Hk as (Hk & Hx & Hn). unfold append_message. destruct b; simpl; [|by rewrite andb_false_r].
    destruct (owned u' s' c) eqn:Ho; simpl; [|by rewrite andb_false_r].
    destruct (insert_message _ _ _ _ _ _ _ _) as [[seq c']|] eqn:E; simpl; [|by rewrite andb_false_r].
    rewrite andb_true_r. by eapply scribed_insert.
  - destruct Hk as (Hk & Hx & Hn). unfold create_turn. destruct b; simpl; [|by rewrite andb_false_r].
    destruct (owned u' s' c) eqn:Ho; simpl; [|by rewrite andb_false_r].
    destruct (insert_message _ _ _ _ _ _ _ _) as [[seq c']|] eqn:E; simpl; [|by rewrite andb_false_r].
    destruct (_ || _); simpl; [by rewrite andb_false_r|]. rewrite andb_true_r.
    assert (Hs1 : scribed u m s (mkChat (sessions c) (messages c) (supersede s' now <$> turns c)) l) by by eapply scribed_same; [..|exact Hs].
    eapply scribed_same; [..|exact (scribed_insert _ _ _ _ _ _ _ _ _ _ _ _ _ _ Hs1 Ho Hk Hx Hn E)]; done.
Qed.

Lemma scribed_run u m s ops c l : Forall (keyed u m) ops -> scribed u m s c l -> scribed u m s (run_ops ops c) (said s ops c l).
Proof.
  intros H. revert c l. induction H as [|op ops Hop _ IH]; intros c l Hc; [done|]. apply IH. by apply scribed_step.
Qed.

(** Reading the rows of a transcript in order *)
Lemma sort_in_order (l : list MessageRow) : Sorted (fun a b => me_seq a < me_seq b) l -> sort_by (fun a b => me_seq a ?= me_seq b) l = l.
Proof.
  induction 1 as [|r l Hl IH Hr]; [done|]. simpl. rewrite IH. destruct Hr as [|y l Hy]; [done|]. simpl.
  by rewrite (proj2 (Z.compare_lt_iff _ _) Hy).
Qed.

Lemma Forall2_retain_seq s m k rows es : Forall2 (row_says s m) rows es ->
  Forall2 (row_says s m) (retain (fun r => k <? me_seq r) rows) (retain (fun e => k <? cm_seq e) es).
Proof.
  induction 1 as [|r e rows es Hre _ IH]; simpl; [constructor|].
  assert (me_seq r = cm_seq e) as -> by apply Hre. case_match; [by constructor|done].
Qed.

Lemma numbered_sorted l : StronglySorted (fun a b => cm_seq a < cm_seq b) (numbered l).
Proof.
  induction l as [|[r x] l IH] using rev_ind; [constructor|]. rewrite numbered_snoc. apply StronglySorted_app_2; [|done|by repeat constructor].
  intros a b Ha Hb%list_elem_of_singleton. subst b. apply list_elem_of_lookup in Ha as (i & Ha). simpl. rewrite (numbered_nth _ _ _ Ha).
  apply lookup_lt_Some in Ha. rewrite numbered_length in Ha. lia.
Qed.

Lemma retain_sorted {A} (R : A -> A -> Prop) f (l : list A) : StronglySorted R l -> StronglySorted R (retain f l).
Proof.
  induction 1 as [|x l Hl IH Hx]; simpl; [constructor|]. case_match; [|done]. constructor; [done|].
  rewrite Forall_forall in Hx |- *. intros y [Hy _]%elem_of_retain. by apply Hx.
Qed.

Lemma says_sorted s m rows es : Forall2 (row_says s m) rows es -> StronglySorted (fun a b => cm_seq a < cm_seq b) es ->
  Sorted (fun a b => me_seq a < me_seq b) rows.
Proof.
  intros H Hs%StronglySorted_Sorted. induction H as [|r e rows es Hre Hrest IH]; [constructor|].
  inversion Hs as [|? ? Hs' Hhd]; subst. constructor; [by apply IH|]. destruct Hrest as [|r' e' rows es Hre' _]; constructor.
  inversion Hhd; subst. assert (me_seq r = cm_seq e) as -> by apply Hre. by assert (me_seq r' = cm_seq e') as -> by apply Hre'.
Qed.

Lemma opened_all s m rows es : Forall2 (row_says s m) rows es -> omap (opened m) rows = es.
Proof. induction 1 as [|r e rows es Hre _ IH]; [done|]. csimpl. by rewrite (row_opened _ _ _ _ Hre), IH. Qed.

Lemma chat_key_apart m m' : strong -> dek (ChatKeys_from_master_key m') = dek (ChatKeys_from_master_key m) -> m' = m.
Proof. intros HS E. apply (hkdf_inj HS) in E as [E _]. destruct m, m'; simpl in *; by f_equal. Qed.

Lemma opened_none s m m' rows es : strong -> m' <> m -> Forall2 (row_says s m) rows es -> omap (opened m') rows = [].
Proof.
  intros HS Hne. induction 1 as [|r e rows es Hre _ IH]; [done|]. csimpl. rewrite IH.
  destruct (opened m' r) as [x|] eqn:E; [|done]. exfalso. apply Hne. revert E. unfold opened, open_hex.
  destruct Hre as (Es & Eq & Er & sealed & Ex & Hs & Hc). rewrite Ex, hex_roundtrip, Es, Eq. simpl. unfold open_chat.
  destruct (aead_open sealed (as_bytes (message_aad s (cm_seq e))) (ChatKeys_from_master_key m')) as [p|] eqn:Eo; simpl; [|done]. intros _.
  apply (aead_open_sealed _ _ _ _ _ _ _ HS Hs) in Eo as (_ & Ek & _). by eapply chat_key_apart.
Qed.

(** C23. The transcript is what was said: after every history the owner of a
    session reads, from any number on, the messages that were accepted
    since the session was created, in order, with their roles, numbered
    from 1 without gaps; refused and rolled-back writes leave no trace.
    Under another key nothing is read, and someone else does not find the
    session. *)
Theorem transcript_is_said ops u m s k :
  Forall (keyed u m) ops ->
  let c := run_ops ops no_chats in
  messages_after u m s k false c =
    (if owned u s c then Ok (retain (fun e => k <? cm_seq e) (numbered (said s ops no_chats []))) else Err ChNotFound) /\
  (strong -> forall m', m' <> m -> owned u s c = true -> messages_after u m' s k false c = Ok []).
Proof.
  intros Hk c. assert (Hs : scribed u m s c (said s ops no_chats [])).
  { apply scribed_run; [done|]. split; [constructor|by intros r ?%not_elem_of_nil|done]. }
  clearbody c. unfold messages_after. destruct (owned u s c) eqn:Ho; simpl; [|done].
  pose proof (Forall2_retain_seq _ _ k _ _ (sc_rows _ _ _ _ _ Hs Ho)) as H.
  rewrite sort_in_order by (eapply says_sorted; [exact H|]; apply retain_sorted, numbered_sorted).
  split; [by rewrite (opened_all _ _ _ _ H)|]. intros HS m' Hne _. by rewrite (opened_none _ _ _ _ _ HS Hne H).
Qed.

(** ** The session cap *)
Definition session_count (u : Uuid) (c : Chat) : Z := Z.of_nat (length (user_sessions u c)).
(** A session whose turn still owes an answer *)
Definition in_debt (c : Chat) (s : SessionRow) : bool := existsb (fun t => in_session (se_id s) t && owes t) (turns c).
Definition debt_count (u : Uuid) (c : Chat) : Z := Z.of_nat (length (retain (in_debt c) (user_sessions u c))).

Lemma by_text_total {A} (f : A -> str) : TotalOn (by_text f) (fun _ => True).
Proof. split; intros; unfold ordered, by_text in *; destruct (str_cmp_total (fun _ => True)) as [Ht Htr]; [by apply Ht|by eapply Htr]. Qed.

Definition gone_first (k : nat) (u : Uuid) (c : Chat) (id : Uuid) : bool := existsb (id_eqb id) (se_id <$> take k (prunable u c)).
Definition excess (u : Uuid) (c : Chat) : nat := Z.to_nat (session_count u c + 1 - MAX_SESSIONS_PER_USER).

Lemma prune_exact u c : prune_sessions u c = if MAX_SESSIONS_PER_USER <=? session_count u c then delete_sessions (gone_first (excess u c) u c) c else c.
Proof. done. Qed.

Lemma gone_spec k u c id : gone_first k u c id = true <-> id ∈ se_id <$> take k (prunable u c).
Proof.
  unfold gone_first. rewrite existsb_true. setoid_rewrite id_eqb_eq. split; [by intros (x & Hx & <-)|eauto].
Qed.

(** The user's sessions are the prunable ones in order, and the ones in
    debt. *)
Lemma sessions_split u c : user_sessions u c ≡ₚ prunable u c ++ retain (in_debt c) (user_sessions u c).
Proof.
  unfold prunable. rewrite (sort_by_perm _ _). unfold in_debt. induction (user_sessions u c) as [|s l IH]; [done|].
  simpl. destruct (existsb _ _); simpl; [|by rewrite <- IH]. by rewrite <- Permutation_middle, <- IH.
Qed.

Lemma kept_sessions k u c : NoDup (se_id <$> sessions c) ->
  retain (fun s => negb (gone_first k u c (se_id s))) (user_sessions u c) ≡ₚ
  drop k (prunable u c) ++ retain (in_debt c) (user_sessions u c).
Proof.
  intros Hn. rewrite (retain_perm _ _ _ (sessions_split u c)).
  assert (Hsplit : NoDup (se_id <$> (take k (prunable u c) ++ (drop k (prunable u c) ++ retain (in_debt c) (user_sessions u c))))).
  { rewrite app_assoc, take_drop. rewrite <- (sessions_split u c). eapply sublist_NoDup; [exact Hn|]. apply fmap_sublist, retain_sub. }
  rewrite <- (take_drop k (prunable u c)) at 1. rewrite <- app_assoc. rewrite fmap_app in Hsplit. apply NoDup_app in Hsplit as (_ & Hd & _).
  rewrite List.filter_app. rewrite (proj2 (retain_nil _ _)), retain_all; [done| |].
  - apply Forall_forall. intros s Hs. apply negb_true_iff, not_true_is_false. intros Hg%gone_spec. apply (Hd _ Hg). by apply list_elem_of_fmap_2.
  - intros s Hs. apply negb_false_iff, gone_spec. by apply list_elem_of_fmap_2.
Qed.

Lemma user_sessions_delete u gone c : user_sessions u (delete_sessions gone c) = retain (fun s => negb (gone (se_id s))) (user_sessions u c).
Proof. unfold user_sessions. simpl. rewrite !retain_retain. apply retain_ext. intros s _. apply andb_comm. Qed.

Lemma prune_count u c : NoDup (se_id <$> sessions c) -> MAX_SESSIONS_PER_USER <= session_count u c ->
  session_count u (prune_sessions u c) = Z.max (MAX_SESSIONS_PER_USER - 1) (debt_count u c).
Proof.
  intros Hn Hc. rewrite prune_exact, (proj2 (Z.leb_le _ _)) by done.
  unfold session_count at 1. rewrite user_sessions_delete, (Permutation_length (kept_sessions _ _ _ Hn)), length_app, length_drop.
  unfold excess, debt_count. pose proof (Permutation_length (sessions_split u c)) as E. rewrite length_app in E.
  unfold session_count, MAX_SESSIONS_PER_USER in *. lia.
Qed.

(** What deleting sessions leaves of another session *)
Lemma delete_spares gone c s : gone (se_id s) = false -> s ∈ sessions c ->
  s ∈ sessions (delete_sessions gone c) /\ session_messages (se_id s) (delete_sessions gone c) = session_messages (se_id s) c /\
  retain (in_session (se_id s)) (turns (delete_sessions gone c)) = retain (in_session (se_id s)) (turns c).
Proof.
  intros Hg Hs. split_and!.
  - apply elem_of_retain. by rewrite Hg.
  - unfold session_messages. simpl. rewrite retain_retain. apply retain_ext. intros r _.
    destruct (id_eqb _ (se_id s)) eqn:E; [|by rewrite andb_false_r]. apply id_eqb_eq in E. by rewrite E, Hg.
  - simpl. rewrite retain_retain. apply retain_ext. intros t _. unfold in_session.
    destruct (id_eqb _ (se_id s)) eqn:E; [|by rewrite andb_false_r]. apply id_eqb_eq in E. by rewrite E, Hg.
Qed.

Lemma gone_owner k u c s : NoDup (se_id <$> sessions c) -> s ∈ sessions c -> gone_first k u c (se_id s) = true ->
  s ∈ prunable u c /\ s ∈ take k (prunable u c).
Proof.
  intros Hn Hs (y & Ey & Hy)%gone_spec%list_elem_of_fmap. assert (s = y) as ->.
  { eapply NoDup_fmap_inj_elem; [exact Hn|done| |done]. eapply elem_of_take in Hy as (i & Hi%list_elem_of_lookup_2 & _).
    apply elem_of_prunable in Hi as [[Hi _]%elem_of_retain _]. done. }
  split; [|done]. by eapply elem_of_take in Hy as (i & Hi%list_elem_of_lookup_2 & _).
Qed.

(** Creating a session: a user below the cap gains one and nothing is
    deleted; at the cap the count stays at the cap, or one over the
    sessions in debt when those alone reach it.  A session of another
    user, or one whose turn owes an answer, keeps its messages and turns,
    and of the debt-free ones none is deleted while one updated earlier
    stays.  A failed creation changes nothing. *)
Theorem session_cap u m title id now n b c :
  NoDup (se_id <$> sessions c) -> id ∉ se_id <$> sessions c ->
  let c' := snd (create_session u m title id now n b c) in
  match fst (create_session u m title id now n b c) with
  | Err _ => c' = c
  | Ok _ =>
      session_count u c' = (if MAX_SESSIONS_PER_USER <=? session_count u c then Z.max MAX_SESSIONS_PER_USER (debt_count u c + 1)
                            else session_count u c + 1) /\
      (session_count u c < MAX_SESSIONS_PER_USER -> messages c' = messages c /\ turns c' = turns c) /\
      (forall s, s ∈ sessions c -> se_user s <> u \/ in_debt c s = true ->
         s ∈ sessions c' /\ session_messages (se_id s) c' = session_messages (se_id s) c /\
         retain (in_session (se_id s)) (turns c') = retain (in_session (se_id s)) (turns c)) /\
      (forall s s', s ∈ sessions c -> s ∉ sessions c' -> s' ∈ user_sessions u c -> s' ∈ sessions c' -> in_debt c s' = false ->
         str_cmp (se_updated_at s) (se_updated_at s') <> Gt)
  end.
Proof.
  intros Hn Hfresh c'. subst c'. destruct (create_session _ _ _ _ _ _ _ _) as [r c'] eqn:E. simpl.
  apply create_session_is in E as [[-> E]|(sealed & -> & _ & Hid & ->)]; [destruct r as [i|]; [by destruct (E i)|done]|].
  set (new := mkSessionRow id u sealed now now).
  assert (Hcount : session_count u (mkChat (sessions (prune_sessions u c) ++ [new]) (messages (prune_sessions u c)) (turns (prune_sessions u c))) =
    session_count u (prune_sessions u c) + 1).
  { unfold session_count, user_sessions. simpl. rewrite List.filter_app, length_app. simpl. rewrite id_eqb_refl. simpl. lia. }
  rewrite Hcount. destruct (Z.leb_spec MAX_SESSIONS_PER_USER (session_count u c)) as [Hc|Hc].
  - rewrite prune_count by done. split_and!; [unfold MAX_SESSIONS_PER_USER in *; lia|lia| |].
    + intros s Hs Hkeep. rewrite prune_exact, (proj2 (Z.leb_le _ _)) by done. simpl.
      destruct (delete_spares (gone_first (excess u c) u c) c s) as (H1 & H2 & H3); [|done|].
      { apply not_true_is_false. intros Hg. apply gone_owner in Hg as [Hp _]; [|done..].
        apply elem_of_prunable in Hp as [[_ Hu%id_eqb_eq]%elem_of_retain Hp]. destruct Hkeep as [?|Hd]; [done|].
        apply existsb_true in Hd as (t & Ht & [Es%id_eqb_eq Eo]%andb_prop). by rewrite (Hp t Ht Es) in Eo. }
      split; [|done]. apply elem_of_app. by left.
    + intros s s' Hs Hgone Hs' Hkept Hd. rewrite prune_exact, (proj2 (Z.leb_le _ _)) in Hgone, Hkept by done.
      simpl in Hgone, Hkept. rewrite elem_of_app in Hgone, Hkept. apply elem_of_retain in Hs' as [Hs' Hu].
      destruct Hkept as [[_ Hk%negb_true_iff]%elem_of_retain| ->%list_elem_of_singleton];
        [|by destruct Hfresh; apply (list_elem_of_fmap_2 se_id _ new)].
      destruct (gone_first (excess u c) u c (se_id s)) eqn:Hg;
        [|destruct Hgone; left; apply elem_of_retain; by rewrite Hg].
      apply gone_owner in Hg as [_ Hg]; [|done..].
      assert (Hp : s' ∈ prunable u c).
      { apply elem_of_prunable. split; [by apply elem_of_retain|]. intros t Ht Et. unfold in_debt in Hd.
        rewrite existsb_false in Hd. specialize (Hd t Ht). unfold in_session in Hd. by rewrite Et, id_eqb_refl in Hd. }
      rewrite <- (take_drop (excess u c) (prunable u c)) in Hp. apply elem_of_app in Hp as [Hp|Hp].
      { enough (gone_first (excess u c) u c (se_id s') = true) by congruence. apply gone_spec. by apply list_elem_of_fmap_2. }
      assert (Hsort : StronglySorted (ordered (by_text se_updated_at)) (prunable u c)).
      { unfold prunable. eapply sort_by_sorted; [apply by_text_total|by apply Forall_true]. }
      rewrite <- (take_drop (excess u c) (prunable u c)) in Hsort. by apply (StronglySorted_app_1_elem_of _ _ _ s s' Hsort).
  - rewrite prune_exact, (proj2 (Z.leb_gt _ _)) by done. split_and!; [done|done| |].
    + intros s Hs _. split; [|done]. apply elem_of_app. by left.
    + intros s s' Hs Hgone. destruct Hgone. apply elem_of_app. by left.
Qed.

(** [delete_session] is a step, whatever runs between its statements. *)
Lemma delete_session_step u s fails between c :
  snd (delete_session u s fails between c) = c \/
  snd (delete_session u s fails between c) = apply_op (DeleteSession u s (fails 1%nat)) (between c).
Proof. unfold delete_session. destruct (fails 0%nat); [by left|]. destruct (running_in u s c); [by left|by right]. Qed.
End Chat.

(** ** Witnesses *)
Module ChatDemo.
#[local] Existing Instances demo_aead demo_kdf wide_hex char_uuid.

Definition at_ (n : N) : str := [n].
Definition alice : Uuid := 1%N.
Definition key : MasterKey := demo_master 1.
(** A session, a question, a crash, the resumed answer, a second claim, a
    second question that meets a dead backend, and its retry *)
Definition day : list ChatOp :=
  [CreateSession alice key (lit "t") 5%N (at_ 1) demo_nonce true;
   CreateTurn alice key 5%N (lit "why?") 7%N (at_ 2) (at_ 2) demo_nonce true;
   CreateTurn alice key 5%N (lit "again") 8%N (at_ 3) (at_ 3) demo_nonce true;
   BootSweep (at_ 4) false;
   ClaimResumable alice 5%N 7%N (at_ 5) false;
   AppendMessage alice key 5%N RoleTool (lit "looked") (at_ 6) demo_nonce true;
   BootSweep (at_ 7) false;
   ClaimResumable alice 5%N 7%N (at_ 8) false;
   AppendMessage 2%N (demo_master 2) 5%N RoleTool (lit "mine?") (at_ 6) demo_nonce true;
   CreateTurn alice key 5%N (lit "so?") 9%N (at_ 9) (at_ 9) demo_nonce true;
   ParkWaiting alice 9%N (Some (lit "down")) (at_ 10) (fun _ => false);
   ClaimWaiting alice 5%N 9%N (at_ 11) false].
Definition evening : Chat := run_ops day no_chats.

Lemma day_ok : Forall op_ok day.
Proof. repeat constructor. Qed.
Lemma day_keyed : Forall (keyed alice key) day.
Proof. unfold day. repeat (constructor; [simpl; split_and?; try done; repeat constructor|]). by constructor. Qed.

Lemma turn_machine_witness :
  (forall s, (open_in s (turns evening) <= 1)%nat) /\
  ((fun t => (tu_id t, tu_status t, tu_attempts t)) <$> turns evening) = [(7%N, Abandoned, 1); (9%N, Running, 0)].
Proof. split; [apply (turn_machine day day_ok)|vm_compute; reflexivity]. Defined.

Lemma crash_resume_once_witness :
  (count_ops (resumed 7) day no_chats <= count_ops (submitted 7) day no_chats)%nat /\
  count_ops (resumed 7) day no_chats = 1%nat /\ count_ops (submitted 7) day no_chats = 1%nat.
Proof. split_and!; [apply (crash_resume_once day 7 day_ok)|vm_compute; reflexivity|vm_compute; reflexivity]. Defined.

Lemma transcript_is_said_witness :
  messages_after alice key 5%N 1 false evening = Ok [mkChatMessage 2 RoleTool (lit "looked"); mkChatMessage 3 RoleUser (lit "so?")] /\
  messages_after alice (demo_master 2) 5%N 0 false evening = Ok [].
Proof.
  assert (Ho : owned alice 5%N evening = true) by (vm_compute; reflexivity). split.
  - pose proof (proj1 (transcript_is_said day alice key 5%N 1 day_keyed)) as H. fold evening in H. rewrite H, Ho. vm_compute. reflexivity.
  - apply (proj2 (transcript_is_said day alice key 5%N 0 day_keyed) demo_strong); [|exact Ho].
    intros E. discriminate E.
Defined.

(** A hundred sessions, updated in the order of their ids, the first with
    a waiting turn *)
Definition hundred : Chat :=
  mkChat ((fun i => mkSessionRow (N.of_nat i) alice [] [] (at_ (N.of_nat i))) <$> seq 1 100) []
    [mkTurnRow 500%N 1%N 1 WaitingBackend 0 (at_ 1) (at_ 1) Interrupted None].
Definition after_new : result Uuid ChatError * Chat := create_session alice key (lit "t") 900%N (at_ 300) demo_nonce true hundred.

Lemma session_cap_witness :
  session_count alice (snd after_new) = 100 /\ (se_id <$> take 3 (sessions (snd after_new))) = [1; 3; 4]%N.
Proof.
  assert (Hn : NoDup (se_id <$> sessions hundred)) by (apply (bool_decide_eq_true_1 (NoDup (se_id <$> sessions hundred))); vm_compute; reflexivity).
  assert (Hf : 900%N ∉ se_id <$> sessions hundred) by (apply (bool_decide_eq_true_1 (900%N ∉ se_id <$> sessions hundred)); vm_compute; reflexivity).
  pose proof (session_cap alice key (lit "t") 900%N (at_ 300) demo_nonce true hundred Hn Hf) as H. fold after_new in H.
  assert (E : is_some (result_ok (fst after_new)) = true) by (vm_compute; reflexivity).
  destruct (fst after_new); [|discriminate E]. split; [|vm_compute; reflexivity].
  rewrite (proj1 H). vm_compute. reflexivity.
Defined.

(** The check of a delete says nothing about the time of the delete: a
    turn submitted in between goes with its session. *)
Example delete_takes_running_turn :
  let c := run_ops (take 1 day) no_chats in
  let out := delete_session alice 5%N (fun _ => false) (fun c => run_ops (take 1 (drop 1 day)) c) c in
  fst out = Ok tt /\ length (turns (run_ops (take 2 day) no_chats)) = 1%nat /\ turns (snd out) = [].
Proof. vm_compute. repeat split. Qed.

(** A turn whose successor got an earlier time reads as no turn. *)
Example meta_hides_running_turn :
  let c := run_ops (take 3 day ++ [BootSweep (at_ 4) false; CreateTurn alice key 5%N (lit "so?") 9%N (at_ 1) (at_ 1) demo_nonce true]) no_chats in
  (tu_status <$> turns c) = [Abandoned; Running] /\
  (mt_turn_status <$> result_ok (session_meta alice key 5%N (fun _ => false) (fun _ => c))) = Some None.
Proof. vm_compute. repeat split. Qed.
End ChatDemo.
