(* ===== verification/Users.v ===== *)
(** * User accounts

    [crates/mycelium-auth/src/users.rs], [password.rs] and [totp.rs]: the
    users table with its seals, password policy and hashing, and the second
    factor.  The table is a map from the textual id to the row; NOCASE
    comparison folds ASCII letters.  Argon2's PHC strings, [serde_json] and
    [totp_rs] are parameters; randomness and clocks are arguments; I/O
    failures of the database are not modelled. *)
From S2P Require Import Prelude Text Clock Session Crypto.
Open Scope Z_scope.

(** [argon2]'s password hashes: what was hashed verifies; [None] is a
    malformed stored hash. *)
Class PasswordHash := {
  argon2_phc (password : str) (salt : bytes) : option str;
  phc_verify (password stored : str) : option bool;
  phc_roundtrip p s h : argon2_phc p s = Some h -> phc_verify p h = Some true;
  phc_parses p s h p' : argon2_phc p s = Some h -> phc_verify p' h <> None }.

(** Idealised strength: no other password verifies. *)
Definition strong_hash `{PasswordHash} : Prop :=
  forall p s h p', argon2_phc p s = Some h -> phc_verify p' h = Some true -> p' = p.

(** [serde_json] on the sealed record *)
Class SealJson := {
  seal_to_json : SealedMasterKey -> str;
  seal_of_json : str -> option SealedMasterKey;
  seal_json_roundtrip s : seal_of_json (seal_to_json s) = Some s }.

(** [totp_rs]: base32 secrets, building (SHA-1, six digits, skew one, step
    thirty seconds) and checking a code at an instant. *)
Class TotpLib := {
  try_from_base32 : str -> option bytes;
  totp_builds (secret : bytes) (account issuer : str) : bool;
  check_current (secret : bytes) (now : Z) (code : str) : option Z }.

(** ** Passwords *)
Inductive PasswordError := PwTooShort (min_len : nat) | HashFailed | InvalidHash.

Definition MIN_PASSWORD_LEN : nat := 20.

Definition check_password_policy_min (password : str) (min_len : nat) : result unit PasswordError :=
  if (length password <? min_len)%nat then Err (PwTooShort min_len) else Ok tt.
Definition check_password_policy (password : str) : result unit PasswordError :=
  check_password_policy_min password MIN_PASSWORD_LEN.

Definition hash_password `{PasswordHash} (password : str) (salt : bytes) : result str PasswordError :=
  ok_or HashFailed (argon2_phc password salt).
Definition verify_password `{PasswordHash} (password stored : str) : result bool PasswordError :=
  ok_or InvalidHash (phc_verify password stored).

(** ** The users table *)
Inductive UsersError :=
  | UDb | UDuplicate | UNotFound | UInvalidCredentials | UPassword (e : PasswordError)
  | UCrypto (e : CryptoError) | UCorruptSeal.

Record UserDbRow := mkUserDbRow {
  ur_username : str; ur_email : str; ur_role : str; ur_auth_provider : str;
  ur_password_hash : option str; ur_sealed : str; ur_must_change : Z;
  ur_totp : option str; ur_created_at : str; ur_updated_at : str }.
Abbreviation Users := (gmap str UserDbRow) (only parsing).

Record UserRecord := mkUser {
  u_id : Uuid; u_username : str; u_email : str; u_role : Role; u_auth_provider : str;
  u_password_hash : option str; u_sealed : str; u_must_change : bool;
  u_totp : option str; u_created_at : Z }.

Record AuthenticatedUser := mkAuth { au_record : UserRecord; au_master_key : MasterKey }.
Record CreatedUser := mkCreated {
  cu_record : UserRecord; cu_recovery_key : str; cu_master_key : MasterKey }.

(** SQLite's NOCASE: ASCII case folding *)
Definition nocase_eq (a b : str) : bool := str_eqb (to_ascii_lowercase <$> a) (to_ascii_lowercase <$> b).

(** The random draws of one account creation. *)
Record CreateDraw := mkDraw {
  d_id : Uuid; d_hash_salt : bytes; d_master : MasterKey; d_recovery : bytes;
  d_kek_salt : bytes; d_nonce1 : bytes; d_nonce2 : bytes }.

Section Users.
Context {AE : Aead} {KD : Kdf} {HX : Hex} {RF : Rfc3339} {UT : UuidText}.
Context {PH : PasswordHash} {SJ : SealJson} {TL : TotpLib}.

(** [create_local]; [now] is the stored time, [now'] the returned one. *)
Definition create_local (db : Users) (username email password : str) (role : Role) (d : CreateDraw)
    (now now' : Z) : result CreatedUser UsersError * Users :=
  match
    (let? _ := result_map_err UPassword (check_password_policy password) in
     let? hash := result_map_err UPassword (hash_password password (d_hash_salt d)) in
     let? sealed := result_map_err UCrypto
       (seal_master_key (d_master d) password (generate_recovery_key (d_recovery d))
          (d_kek_salt d) (d_nonce1 d) (d_nonce2 d)) in
     Ok (hash, seal_to_json sealed))%rust
  with
  | Err e => (Err e, db)
  | Ok (hash, sealed_json) =>
      let id_s := uuid_to_string (d_id d) in
      if bool_decide (db !! id_s = None) &&
         forallb (fun kv => negb (nocase_eq (ur_username kv.2) username) &&
                            negb (nocase_eq (ur_email kv.2) email)) (map_to_list db)
      then
        (Ok (mkCreated (mkUser (d_id d) username email role (lit "local") (Some hash) sealed_json false None now')
               (generate_recovery_key (d_recovery d)) (d_master d)),
         <[id_s := mkUserDbRow username email (Role_as_str role) (lit "local") (Some hash) sealed_json 0 None
                     (to_rfc3339 now) (to_rfc3339 now)]> db)
      else (Err UDuplicate, db)
  end.

(** The columns of a row as a record *)
Definition user_of_row (kv : str * UserDbRow) : result UserRecord UsersError :=
  let '(id_s, row) := kv in
  (let? id := ok_or UCorruptSeal (uuid_parse_str id_s) in
   let? role := ok_or UCorruptSeal (Role_parse (ur_role row)) in
   let? created := ok_or UCorruptSeal (parse_from_rfc3339 (ur_created_at row)) in
   Ok (mkUser id (ur_username row) (ur_email row) role (ur_auth_provider row) (ur_password_hash row)
         (ur_sealed row) (negb (ur_must_change row =? 0)) (ur_totp row) created))%rust.

Definition get_by_username (db : Users) (username : str) : result UserRecord UsersError :=
  (let? kv := ok_or UNotFound
     (find_first (fun kv => nocase_eq (ur_username kv.2) username) (map_to_list db)) in
   user_of_row kv)%rust.

Definition get_by_id (db : Users) (user_id : Uuid) : result UserRecord UsersError :=
  let id_s := uuid_to_string user_id in
  (let? row := ok_or UNotFound (db !! id_s) in user_of_row (id_s, row))%rust.

Definition authenticate_local (db : Users) (username password : str) : result AuthenticatedUser UsersError :=
  (let? record := get_by_username db username in
   match u_password_hash record with
   | None => Err UInvalidCredentials
   | Some stored_hash =>
       let? good := result_map_err UPassword (verify_password password stored_hash) in
       if negb good then Err UInvalidCredentials else
       let? sealed := ok_or UCorruptSeal (seal_of_json (u_sealed record)) in
       let? m := result_map_err UCrypto (unseal_with_password sealed password) in
       Ok (mkAuth record m)
   end)%rust.

(** [refused]: the database refuses the SELECT (0) or the UPDATE (1). *)
Definition users_change_password_min (refused : nat -> bool) (db : Users) (user_id : Uuid) (old_password new_password : str)
    (min_len : nat) (salt nonce hash_salt : bytes) (now : Z) : result unit UsersError * Users :=
  match
    (let? _ := result_map_err UPassword (check_password_policy_min new_password min_len) in
     let? record := if refused 0%nat then Err UDb else get_by_id db user_id in
     match u_password_hash record with
     | None => Err UInvalidCredentials
     | Some stored_hash =>
         let? good := result_map_err UPassword (verify_password old_password stored_hash) in
         if negb good then Err UInvalidCredentials else
         let? sealed := ok_or UCorruptSeal (seal_of_json (u_sealed record)) in
         let? resealed := result_map_err UCrypto
           (reseal_password sealed old_password new_password salt nonce) in
         let? new_hash := result_map_err UPassword (hash_password new_password hash_salt) in
         Ok (new_hash, seal_to_json resealed)
     end)%rust
  with
  | Err e => (Err e, db)
  | Ok (new_hash, resealed_json) =>
      if refused 1%nat then (Err UDb, db) else
      (Ok tt, alter (fun r => mkUserDbRow (ur_username r) (ur_email r) (ur_role r) (ur_auth_provider r)
                        (Some new_hash) resealed_json 0 (ur_totp r) (ur_created_at r) (to_rfc3339 now))
                (uuid_to_string user_id) db)
  end.

(** [update_sealed]: a compare-and-swap on the stored record. *)
Definition update_sealed (db : Users) (user_id : Uuid) (pre_read : str) (sealed : SealedMasterKey) (now : Z)
    : bool * Users :=
  match db !! uuid_to_string user_id with
  | Some r =>
      if str_eqb (ur_sealed r) pre_read then
        (true, <[uuid_to_string user_id :=
                   mkUserDbRow (ur_username r) (ur_email r) (ur_role r) (ur_auth_provider r)
                     (ur_password_hash r) (seal_to_json sealed) (ur_must_change r) (ur_totp r)
                     (ur_created_at r) (to_rfc3339 now)]> db)
      else (false, db)
  | None => (false, db)
  end.

Definition users_count (db : Users) : nat := size db.

(** [delete]: the row and, by cascade, the user's sessions. *)
Definition delete_user (db : Users) (sessions : gmap str SessionRow) (user_id : Uuid)
    : result unit UsersError * Users * gmap str SessionRow :=
  match db !! uuid_to_string user_id with
  | None => (Err UNotFound, db, sessions)
  | Some _ => (Ok tt, delete (uuid_to_string user_id) db, delete_all_for_user sessions user_id)
  end.

(** ** The second factor *)
Inductive TotpError := TDb | TNotFound | TCorruptSecret | TInvalidCode.

Definition TOTP_AAD : bytes := lit "totp-secret:v1".
Definition ENC_PREFIX : str := lit "enc1:".

(** [seal_secret]; [None] is the panic on a failed seal. *)
Definition seal_secret (secret : str) (nonce : bytes) (key : Dek) : option str :=
  envelope ← result_ok (aead_seal nonce (as_bytes secret) TOTP_AAD key);
  Some (ENC_PREFIX ++ hex_encode envelope).

Definition open_secret (stored : str) (key : Dek) : result str TotpError :=
  match strip_prefix ENC_PREFIX stored with
  | None => Ok stored
  | Some hex_part =>
      (let? b := ok_or TCorruptSecret (hex_decode hex_part) in
       let? plain := ok_or TCorruptSecret (result_ok (aead_open b TOTP_AAD key)) in
       ok_or TCorruptSecret (from_utf8 plain))%rust
  end.

Definition stored_secret (stored : str) (service_key : option ServiceKey) : result (option str) TotpError :=
  if starts_with ENC_PREFIX stored then
    match service_key with
    | None => Ok None
    | Some key => (let? s := open_secret stored (derive_service_dek key TOTP_AAD) in Ok (Some s))%rust
    end
  else Ok (Some stored).

Definition make_totp (secret username issuer : str) : result bytes TotpError :=
  (let? s := ok_or TCorruptSecret (try_from_base32 secret) in
   if totp_builds s username issuer then Ok s else Err TCorruptSecret)%rust.
Definition make_totp_for_verify (secret : str) : result bytes TotpError :=
  make_totp secret (lit "verify") (lit "Mycelium2").

Definition with_totp (r : UserDbRow) (totp : option str) (now : Z) : UserDbRow :=
  mkUserDbRow (ur_username r) (ur_email r) (ur_role r) (ur_auth_provider r) (ur_password_hash r)
    (ur_sealed r) (ur_must_change r) totp (ur_created_at r) (to_rfc3339 now).

(** [set_secret]; [None] is its panic. *)
Definition set_secret (db : Users) (user_id : Uuid) (secret : str) (service_key : option ServiceKey)
    (nonce : bytes) (now : Z) : option (result unit TotpError * Users) :=
  stored ← match service_key with
           | Some key => seal_secret secret nonce (derive_service_dek key TOTP_AAD)
           | None => Some secret
           end;
  Some match db !! uuid_to_string user_id with
       | Some r => (Ok tt, <[uuid_to_string user_id := with_totp r (Some stored) now]> db)
       | None => (Err TNotFound, db)
       end.

Definition clear_secret (db : Users) (user_id : Uuid) (now : Z) : result unit TotpError * Users :=
  match db !! uuid_to_string user_id with
  | Some r => (Ok tt, <[uuid_to_string user_id := with_totp r None now]> db)
  | None => (Err TNotFound, db)
  end.

Definition totp_verify (db : Users) (user_id : Uuid) (code : str) (service_key : option ServiceKey) (now : Z)
    : result bool TotpError :=
  match r ← db !! uuid_to_string user_id; ur_totp r with
  | None => Ok true
  | Some stored =>
      (let? secret := stored_secret stored service_key in
       match secret with
       | None => Ok false
       | Some s => let? totp := make_totp s [] (lit "Mycelium2") in
                   Ok (bool_decide (is_Some (check_current totp now code)))
       end)%rust
  end.

(** ** The invariant of the table *)
Record wf_users (db : Users) : Prop := {
  wf_row s row : db !! s = Some row ->
    exists id role t, s = uuid_to_string id /\ ur_role row = Role_as_str role /\
      ur_created_at row = to_rfc3339 t /\ printable t;
  wf_names s1 s2 r1 r2 : db !! s1 = Some r1 -> db !! s2 = Some r2 ->
    nocase_eq (ur_username r1) (ur_username r2) = true -> s1 = s2 }.

Lemma nocase_eq_spec a b : nocase_eq a b = true <-> to_ascii_lowercase <$> a = to_ascii_lowercase <$> b.
Proof. apply str_eqb_eq. Qed.

Lemma Role_roundtrip r : Role_parse (Role_as_str r) = Some r.
Proof. by destruct r. Qed.

(** A user's row is found under every spelling of the name. *)
Lemma get_by_username_spec db s row username :
  wf_users db -> db !! s = Some row -> nocase_eq (ur_username row) username = true ->
  get_by_username db username = user_of_row (s, row).
Proof.
  intros Hwf Hs Hn. unfold get_by_username. destruct (find_first _ _) as [[s' row']|] eqn:E; simpl.
  - apply find_first_Some in E as [Hin Hn']. apply elem_of_map_to_list in Hin. simpl in Hn'.
    assert (s' = s) as ->.
    { apply (wf_names _ Hwf _ _ _ _ Hin Hs). apply nocase_eq_spec. apply nocase_eq_spec in Hn, Hn'. congruence. }
    by replace row' with row by congruence.
  - apply (find_first_None _ _ (s, row)) in E; [simpl in E; congruence|by apply elem_of_map_to_list].
Qed.

Lemma get_by_username_none db username :
  (forall s row, db !! s = Some row -> nocase_eq (ur_username row) username = false) ->
  get_by_username db username = Err UNotFound.
Proof.
  intros H. unfold get_by_username. destruct (find_first _ _) as [[s row]|] eqn:E; simpl; [|done].
  apply find_first_Some in E as [Hin Hn]. apply elem_of_map_to_list, H in Hin. simpl in Hn. congruence.
Qed.

Lemma user_of_row_wf db s row : wf_users db -> db !! s = Some row ->
  exists id role t, s = uuid_to_string id /\
  user_of_row (s, row) = Ok (mkUser id (ur_username row) (ur_email row) role (ur_auth_provider row)
    (ur_password_hash row) (ur_sealed row) (negb (ur_must_change row =? 0)) (ur_totp row) t).
Proof.
  intros Hwf Hs. destruct (wf_row _ Hwf _ _ Hs) as (id & role & t & -> & Hr & Ht & Hp).
  exists id, role, t. split; [done|]. unfold user_of_row. rewrite uuid_roundtrip. simpl.
  rewrite Hr, Role_roundtrip. simpl. by rewrite Ht, rfc3339_roundtrip.
Qed.

(** Replacing a row under the same name and identity keeps the invariant. *)
Lemma wf_update db s r r' : wf_users db -> db !! s = Some r ->
  ur_username r' = ur_username r -> ur_role r' = ur_role r -> ur_created_at r' = ur_created_at r ->
  wf_users (<[s := r']> db).
Proof.
  intros Hwf Hs Hu Hr Hc.
  assert (Hold : forall s1 r1, <[s := r']> db !! s1 = Some r1 ->
    exists r0, db !! s1 = Some r0 /\ ur_username r1 = ur_username r0 /\ ur_role r1 = ur_role r0 /\
      ur_created_at r1 = ur_created_at r0).
  { intros s1 r1. destruct (decide (s = s1)) as [<-|Hne].
    - rewrite lookup_insert_eq. intros [= <-]. by exists r.
    - rewrite lookup_insert_ne by done. intros H. by exists r1. }
  split.
  - intros s1 r1 (r0 & H0 & _ & Hr0 & Hc0)%Hold.
    destruct (wf_row _ Hwf _ _ H0) as (id & role & t & ? & ? & ? & ?). exists id, role, t. by rewrite Hr0, Hc0.
  - intros s1 s2 r1 r2 (q1 & H1 & E1 & _)%Hold (q2 & H2 & E2 & _)%Hold. rewrite E1, E2.
    by apply (wf_names _ Hwf).
Qed.

(** ** Accounts

    A row holds the account with master key [m] under the password and the
    recovery key [c]. *)
Definition account (row : UserDbRow) (m : MasterKey) (c : str * str) : Prop :=
  length (master m) = 32%nat /\
  exists hash salt s, ur_password_hash row = Some hash /\ argon2_phc c.1 salt = Some hash /\
    seal_of_json (ur_sealed row) = Some s /\ holds s m c.

Lemma verify_password_spec pw pw' salt hash :
  strong_hash -> argon2_phc pw salt = Some hash ->
  verify_password pw' hash = Ok (bool_decide (pw' = pw)).
Proof.
  intros HS Hh. unfold verify_password. destruct (phc_verify pw' hash) as [b|] eqn:E.
  - simpl. f_equal. case_bool_decide as Hp; subst.
    + rewrite (phc_roundtrip _ _ _ Hh) in E. by injection E.
    + destruct b; [|done]. by apply (HS _ _ _ _ Hh) in E.
  - by apply (phc_parses _ _ _ _ Hh) in E.
Qed.

(** Authentication, whatever the spelling of the name: the password decides. *)
Lemma authenticate_account db s row username pw m c :
  strong -> strong_hash -> wf_users db -> db !! s = Some row ->
  nocase_eq (ur_username row) username = true -> account row m c ->
  exists u, user_of_row (s, row) = Ok u /\
    authenticate_local db username pw =
      if decide (pw = c.1) then Ok (mkAuth u m) else Err UInvalidCredentials.
Proof.
  intros HS HH Hwf Hs Hn (Hm & hash & salt & sl & Hhash & Hphc & Hjson & Hholds).
  destruct (user_of_row_wf _ _ _ Hwf Hs) as (id & role & t & _ & Hu).
  eexists. split; [exact Hu|]. unfold authenticate_local.
  rewrite (get_by_username_spec _ _ _ _ Hwf Hs Hn), Hu. simpl. rewrite Hhash.
  rewrite (verify_password_spec _ _ _ _ HH Hphc). simpl.
  destruct (decide (pw = c.1)) as [->|Hne]; [|by rewrite bool_decide_false].
  rewrite bool_decide_true by done. simpl. rewrite Hjson. simpl.
  by rewrite (proj2 (unseal_password_spec _ _ _ c.1 m HS Hm Hholds) (conj eq_refl eq_refl)).
Qed.

Lemma change_password_account refused db id row m c old new min_len salt nonce hash_salt now db' :
  strong -> strong_hash -> wf_users db -> length nonce = NONCE_LEN ->
  db !! uuid_to_string id = Some row -> account row m c ->
  users_change_password_min refused db id old new min_len salt nonce hash_salt now = (Ok tt, db') ->
  old = c.1 /\ (min_len <= length new)%nat /\
  exists row', db' = <[uuid_to_string id := row']> db /\ account row' m (new, c.2) /\
    ur_must_change row' = 0 /\ ur_username row' = ur_username row /\ ur_role row' = ur_role row /\
    ur_totp row' = ur_totp row /\ ur_created_at row' = ur_created_at row.
Proof.
  intros HS HH Hwf Hn Hs (Hm & hash & psalt & sl & Hhash & Hphc & Hjson & Hholds).
  destruct (user_of_row_wf _ _ _ Hwf Hs) as (id' & role & t & _ & Hu).
  unfold users_change_password_min, check_password_policy_min, get_by_id. rewrite Hs.
  destruct (Nat.ltb_spec (length new) min_len) as [|Hlen]; [done|]. cbn [result_bind result_map_err ok_or].
  destruct (refused 0%nat); [done|]. rewrite Hu. cbn [result_bind u_password_hash u_sealed]. rewrite Hhash, (verify_password_spec _ _ _ _ HH Hphc).
  cbn [result_bind result_map_err]. case_bool_decide as Hold; [|done]. subst old. cbn [negb]. rewrite Hjson.
  cbn [result_bind result_map_err ok_or].
  destruct (reseal_password sl c.1 new salt nonce) as [s'|] eqn:Hre; [|done]. cbn [result_bind result_map_err].
  unfold hash_password. destruct (argon2_phc new hash_salt) as [h'|] eqn:Hh'; [|done].
  cbn [result_bind result_map_err ok_or]. destruct (refused 1%nat); [done|]. intros [= <-]. split_and!; [done|done|].
  rewrite alter_insert_map, Hs. eexists. split; [done|]. split_and!; try done.
  split; [done|]. exists h', hash_salt, s'. split_and!; try done; simpl.
  - apply seal_json_roundtrip.
  - destruct (seal_op_holds _ _ _ (ChangePassword c.1 new salt nonce) s' HS Hm Hn Hholds Hre) as [_ H].
    revert H. unfold creds_after. simpl. by rewrite Hre.
Qed.

Lemma change_password_errors refused db id row m c old new min_len salt nonce hash_salt now :
  strong_hash -> wf_users db -> db !! uuid_to_string id = Some row -> account row m c ->
  (users_change_password_min refused db id old new min_len salt nonce hash_salt now).1 <> Ok tt ->
  (users_change_password_min refused db id old new min_len salt nonce hash_salt now).2 = db /\
  ((length new < min_len)%nat ->
    (users_change_password_min refused db id old new min_len salt nonce hash_salt now).1 = Err (UPassword (PwTooShort min_len))) /\
  ((min_len <= length new)%nat -> old <> c.1 -> refused 0%nat = false ->
    (users_change_password_min refused db id old new min_len salt nonce hash_salt now).1 = Err UInvalidCredentials).
Proof.
  intros HH Hwf Hs (Hm & hash & psalt & sl & Hhash & Hphc & Hjson & Hholds).
  destruct (user_of_row_wf _ _ _ Hwf Hs) as (id' & role & t & _ & Hu).
  unfold users_change_password_min. intros Hne. split.
  { revert Hne. destruct (result_bind _ _) as [[]|]; [|done]. by destruct (refused 1%nat). }
  clear Hne. unfold check_password_policy_min, get_by_id. rewrite Hs. split; intros Hlen.
  - by rewrite (proj2 (Nat.ltb_lt _ _)) by done.
  - intros Hold Href. rewrite (proj2 (Nat.ltb_ge _ _)) by done. cbn [result_bind result_map_err ok_or].
    rewrite Href, Hu. cbn [result_bind u_password_hash]. rewrite Hhash, (verify_password_spec _ _ _ _ HH Hphc).
    by rewrite bool_decide_false.
Qed.

Lemma create_account db username email pw role d now now' cu db' :
  wf_users db -> printable now -> length (master (d_master d)) = 32%nat ->
  length (d_nonce1 d) = NONCE_LEN -> length (d_nonce2 d) = NONCE_LEN ->
  create_local db username email pw role d now now' = (Ok cu, db') ->
  (MIN_PASSWORD_LEN <= length pw)%nat /\ cu_master_key cu = d_master d /\ u_id (cu_record cu) = d_id d /\
  exists row, db' = <[uuid_to_string (d_id d) := row]> db /\ db !! uuid_to_string (d_id d) = None /\
    account row (d_master d) (pw, cu_recovery_key cu) /\ ur_username row = username /\
    ur_role row = Role_as_str role /\ ur_totp row = None /\ wf_users db'.
Proof.
  intros Hwf Hnow Hm H1 H2. unfold create_local, check_password_policy, check_password_policy_min, hash_password.
  destruct (Nat.ltb_spec (length pw) MIN_PASSWORD_LEN) as [|Hlen]; [done|]. cbn [result_bind result_map_err].
  destruct (argon2_phc pw (d_hash_salt d)) as [hash|] eqn:Hh; [|done]. cbn [result_bind result_map_err ok_or].
  destruct (seal_master_key _ _ _ _ _ _) as [sl|] eqn:Hs; [|done]. cbn [result_bind result_map_err].
  destruct (bool_decide _ && _) eqn:Hfree; [|done]. intros [= <- <-].
  apply andb_true_iff in Hfree as [Hid Hnames]. apply bool_decide_eq_true in Hid.
  split_and!; [done|done|done|]. eexists. split; [done|]. split_and!; try done.
  - split; [done|]. exists hash, (d_hash_salt d), sl. split_and!; [done|done|apply seal_json_roundtrip|].
    by apply seal_holds in Hs.
  - assert (Hfresh : forall s r, db !! s = Some r -> nocase_eq (ur_username r) username = false).
    { intros s r Hr. rewrite forallb_forall in Hnames.
      specialize (Hnames (s, r) (proj1 (list_elem_of_In _ _) (proj2 (elem_of_map_to_list db s r) Hr))).
      apply andb_true_iff in Hnames as [Hu _]. by apply negb_true_iff in Hu. }
    assert (Hsym : forall a b, nocase_eq a b = nocase_eq b a).
    { intros a b. apply eq_iff_eq_true. rewrite !nocase_eq_spec. naive_solver. }
    split.
    + intros s r. destruct (decide (uuid_to_string (d_id d) = s)) as [<-|Hne].
      * rewrite lookup_insert_eq. intros [= <-]. by exists (d_id d), role, now.
      * rewrite lookup_insert_ne by done. apply (wf_row _ Hwf).
    + intros s1 s2 r1 r2. destruct (decide (uuid_to_string (d_id d) = s1)) as [<-|E1],
        (decide (uuid_to_string (d_id d) = s2)) as [<-|E2]; rewrite ?lookup_insert_eq, ?lookup_insert_ne by done.
      * done.
      * intros [= <-] Hr. simpl. rewrite Hsym. by rewrite (Hfresh _ _ Hr).
      * intros Hr [= <-]. simpl. by rewrite (Hfresh _ _ Hr).
      * apply (wf_names _ Hwf).
Qed.

(** ** The second factor at rest *)
Lemma set_secret_reads_back db id row secret key nonce now :
  strong -> length nonce = NONCE_LEN -> Forall (fun c => is_scalar c = true) secret ->
  db !! uuid_to_string id = Some row ->
  (exists c, gcm_seal (dek (derive_service_dek key TOTP_AAD)) nonce TOTP_AAD (as_bytes secret) = Some c) ->
  exists stored, set_secret db id secret (Some key) nonce now =
      Some (Ok tt, <[uuid_to_string id := with_totp row (Some stored) now]> db) /\
    forall key', stored_secret stored key' =
      match key' with
      | None => Ok None
      | Some k => if decide (k = key) then Ok (Some secret) else Err TCorruptSecret
      end.
Proof.
  intros HS Hn Hsc Hs [c Hc]. unfold set_secret, seal_secret, aead_seal. rewrite Hc.
  cbn [result_bind ok_or result_ok mbind option_bind]. rewrite Hs. eexists. split; [done|]. intros key'. unfold stored_secret.
  set (b := to_bytes (mkEnvelope ENVELOPE_VERSION nonce c)).
  assert (Hsealed : sealed_as b TOTP_AAD (as_bytes secret) (derive_service_dek key TOTP_AAD)) by by exists nonce, c.
  rewrite (proj2 (starts_with_spec _ _)) by by exists (hex_encode b).
  destruct key' as [k|]; [|done]. unfold open_secret.
  rewrite (proj2 (strip_prefix_Some ENC_PREFIX _ (hex_encode b)) eq_refl), hex_roundtrip. cbn [result_bind ok_or].
  destruct (decide (k = key)) as [->|Hne].
  - assert (aead_open b TOTP_AAD (derive_service_dek key TOTP_AAD) = Ok (as_bytes secret)) as ->
      by by apply (aead_open_sealed _ _ _ _ _ _ _ HS Hsealed).
    simpl. by rewrite from_utf8_as_bytes.
  - destruct (aead_open b TOTP_AAD (derive_service_dek k TOTP_AAD)) as [p|] eqn:E; [|done].
    apply (aead_open_sealed _ _ _ _ _ _ _ HS Hsealed) in E as (_ & E & _). apply (hkdf_inj HS) in E as [E _].
    destruct k, key. simpl in E. by subst.
Qed.
End Users.
