(* ===== verification/Login.v ===== *)
(** * Logging in

    [crates/mycelium-auth/src/login.rs]: the flow throttle, password, second
    factor, session, over the shared state of the service.  One login is one
    step: the interleaving of several logins' critical sections is not
    modelled.  Clock readings and random draws are arguments. *)
From S2P Require Import Prelude Text Clock Throttle Session Crypto Users.
Open Scope Z_scope.

Inductive LoginError :=
  | LThrottled (retry_after_secs : Z) | LInvalidCredentials
  | LUsers (e : UsersError) | LSession (e : SessionError) | LTotp (e : TotpError).

Record LoginSuccess := mkLogin {
  lo_user : AuthenticatedUser; lo_session : SessionRecord; lo_must_change : bool }.

Record LoginOptions := mkOptions {
  session_ttl : option Z; login_max_failures : option Z; login_lockout : option Z;
  min_password_length : option nat }.
Definition LoginOptions_default : LoginOptions := mkOptions None None None None.

Record LoginService := mkService' {
  ls_users : gmap str UserDbRow; ls_sessions : gmap str SessionRow;
  ls_throttle : AuthThrottle; ls_key : option ServiceKey }.

(** The clock readings of one login: the throttle check, a recorded failure
    (both monotonic), the second factor and the session (both wall clock);
    and the fresh session and CSRF ids. *)
Record LoginDraw := mkLoginDraw {
  at_check : Z; at_failure : Z; at_totp : Z; at_session : Z; fresh_id : Uuid; fresh_csrf : Uuid }.

Definition with_throttle (st : LoginService) (t : AuthThrottle) : LoginService :=
  mkService' (ls_users st) (ls_sessions st) t (ls_key st).
Definition with_sessions (st : LoginService) (s : gmap str SessionRow) : LoginService :=
  mkService' (ls_users st) s (ls_throttle st) (ls_key st).
Definition with_users (st : LoginService) (u : gmap str UserDbRow) : LoginService :=
  mkService' u (ls_sessions st) (ls_throttle st) (ls_key st).

Section Login.
Context {AE : Aead} {KD : Kdf} {HX : Hex} {RF : Rfc3339} {UT : UuidText} {SH : SessionHash}.
Context {PH : PasswordHash} {SJ : SealJson} {TL : TotpLib}.

Definition apply_limits (t : AuthThrottle) (o : LoginOptions) : AuthThrottle :=
  match login_max_failures o, login_lockout o with
  | Some max_f, Some lockout => set_limits t max_f lockout
  | _, _ => t
  end.

(** The second-factor block: [Ok false] is a wrong code. *)
Definition check_totp (st : LoginService) (record : UserRecord) (totp_code : option str) (now : Z)
    : result bool LoginError :=
  match u_totp record with
  | None => Ok true
  | Some stored =>
      (let? secret := result_map_err LTotp (stored_secret stored (ls_key st)) in
       match secret with
       | None => Err LInvalidCredentials
       | Some s =>
           let? code := ok_or LInvalidCredentials totp_code in
           let? totp := result_map_err LTotp (make_totp_for_verify s) in
           Ok (match check_current totp now code with Some t => 0 <? t | None => false end)
       end)%rust
  end.

Definition user_known (st : LoginService) (id : Uuid) : bool :=
  bool_decide (is_Some (ls_users st !! uuid_to_string id)).

Definition login_with_options (st : LoginService) (username password : str) (totp_code : option str)
    (o : LoginOptions) (d : LoginDraw) : result LoginSuccess LoginError * LoginService :=
  let st := with_throttle st (apply_limits (ls_throttle st) o) in
  match check (ls_throttle st) username (at_check d) with
  | Deny retry_after => (Err (LThrottled (Z.max (retry_after / 1000000000) 1)), st)
  | Allow =>
      let failed := with_throttle st (record_failure (ls_throttle st) username (at_failure d)).1 in
      match authenticate_local (ls_users st) username password with
      | Err UInvalidCredentials | Err UNotFound => (Err LInvalidCredentials, failed)
      | Err e => (Err (LUsers e), st)
      | Ok auth =>
          match check_totp st (au_record auth) totp_code (at_totp d) with
          | Err e => (Err e, st)
          | Ok false => (Err LInvalidCredentials, failed)
          | Ok true =>
              let st := with_throttle st (record_success (ls_throttle st) username) in
              let id := u_id (au_record auth) in
              let '(session, sessions) :=
                match session_ttl o with
                | Some ttl => create_with_ttl (ls_sessions st) (user_known st id) (fresh_id d) (fresh_csrf d)
                                id (at_session d) ttl
                | None => create (ls_sessions st) (user_known st id) (fresh_id d) (fresh_csrf d) id (at_session d)
                end in
              ((let? s := result_map_err LSession session in
                Ok (mkLogin auth s (u_must_change (au_record auth))))%rust, with_sessions st sessions)
          end
      end
  end.

Definition login (st : LoginService) (username password : str) (totp_code : option str) (d : LoginDraw) :=
  login_with_options st username password totp_code LoginOptions_default d.

(** Three statements: the SELECT and the UPDATE of the user, and the DELETE
    of the sessions; [refused] is which of them the database refuses. *)
Definition change_password_min (refused : nat -> bool) (st : LoginService) (user_id : Uuid) (old_password new_password : str)
    (min_len : nat) (salt nonce hash_salt : bytes) (now : Z) : result unit LoginError * LoginService :=
  match users_change_password_min refused (ls_users st) user_id old_password new_password min_len salt nonce hash_salt now with
  | (Err e, users) => (Err (LUsers e), with_users st users)
  | (Ok tt, users) =>
      let st := with_users st users in
      if refused 2%nat then (Err (LSession SDb), st)
      else (Ok tt, with_sessions st (delete_all_for_user (ls_sessions st) user_id))
  end.

Definition change_password (refused : nat -> bool) (st : LoginService) (user_id : Uuid) (old_password new_password : str)
    (salt nonce hash_salt : bytes) (now : Z) :=
  change_password_min refused st user_id old_password new_password MIN_PASSWORD_LEN salt nonce hash_salt now.

Definition logout (st : LoginService) (session_id : Uuid) : LoginService :=
  with_sessions st (delete_session (ls_sessions st) session_id).

Definition create_user (st : LoginService) (username email password : str) (role : Role) (d : CreateDraw)
    (now now' : Z) : result CreatedUser LoginError * LoginService :=
  let '(r, users) := create_local (ls_users st) username email password role d now now' in
  (result_map_err LUsers r, with_users st users).

(** ** Outcomes of a login *)

(** What stands behind a successful authentication. *)
Lemma authenticate_Ok db username pw a :
  wf_users db -> authenticate_local db username pw = Ok a ->
  exists id row, db !! uuid_to_string id = Some row /\ nocase_eq (ur_username row) username = true /\
    user_of_row (uuid_to_string id, row) = Ok (au_record a) /\ u_id (au_record a) = id /\
    u_totp (au_record a) = ur_totp row /\ u_must_change (au_record a) = negb (ur_must_change row =? 0).
Proof.
  intros Hwf. unfold authenticate_local, get_by_username.
  destruct (find_first _ _) as [[s row]|] eqn:E; cbn [result_bind ok_or]; [|done].
  apply find_first_Some in E as [Hin Hn]. apply elem_of_map_to_list in Hin. simpl in Hn.
  destruct (user_of_row_wf _ _ _ Hwf Hin) as (id & role & t & -> & Hu). rewrite Hu. cbn [result_bind u_password_hash].
  destruct (ur_password_hash row) as [h|] eqn:Hh; [|done].
  destruct (verify_password pw h) as [[]|]; cbn [result_bind result_map_err negb]; [|done|done].
  destruct (seal_of_json _) as [sl|]; cbn [result_bind ok_or]; [|done].
  destruct (unseal_with_password sl pw) as [m|]; cbn [result_bind result_map_err]; [|done].
  intros [= <-]. by exists id, row.
Qed.

(** The second factor a user must have shown. *)
Definition shown_factor (st : LoginService) (row : UserDbRow) (totp_code : option str) (now : Z) : Prop :=
  forall stored, ur_totp row = Some stored ->
    exists secret totp code step, stored_secret stored (ls_key st) = Ok (Some secret) /\
      make_totp_for_verify secret = Ok totp /\ totp_code = Some code /\
      check_current totp now code = Some step /\ 0 < step.

Lemma check_totp_true st u row totp_code now :
  u_totp u = ur_totp row -> check_totp st u totp_code now = Ok true -> shown_factor st row totp_code now.
Proof.
  intros Hu H stored Hs. unfold check_totp in H. rewrite Hu, Hs in H.
  destruct (stored_secret stored (ls_key st)) as [[s|]|]; cbn [result_bind result_map_err] in H; [|done|done].
  destruct totp_code as [code|]; cbn [result_bind ok_or] in H; [|done].
  destruct (make_totp_for_verify s) as [totp|] eqn:Ht; cbn [result_bind result_map_err] in H; [|done].
  destruct (check_current totp now code) as [step|] eqn:Hc; [|done].
  injection H as H. apply Z.ltb_lt in H. by exists s, totp, code, step.
Qed.

(** C2. The outcome of a login, on every branch.  It succeeds only if the
    throttle allowed the attempt, the name belongs to a user in some
    spelling, the password authenticated (for an account: it is the
    account's password, and the master key handed out is the account's),
    and an enrolled second factor was shown; it then opens one session, new
    and of that user, changing no other, resets the name's failures, and
    reports a pending password change.  It fails without touching users or
    sessions: refused at the throttle, nothing is tried or counted; an
    unknown name and a wrong password are the same error and count alike;
    and a failure that counts is always reported as invalid credentials. *)
Theorem login_outcomes st username pw totp_code o d :
  strong -> strong_hash -> wf_users (ls_users st) ->
  let t := apply_limits (ls_throttle st) o in
  let ttl := default SessionManager_ttl (session_ttl o) in
  match login_with_options st username pw totp_code o d with
  | (Ok s, st') =>
      check t username (at_check d) = Allow /\
      (exists id row,
        ls_users st !! uuid_to_string id = Some row /\ nocase_eq (ur_username row) username = true /\
        u_id (au_record (lo_user s)) = id /\
        (forall m c, account row m c -> pw = c.1 /\ au_master_key (lo_user s) = m) /\
        shown_factor st row totp_code (at_totp d) /\
        lo_session s = mkSession (fresh_id d) id (lit "myc2-csrf-" ++ uuid_to_string (fresh_csrf d))
                         (at_session d + ttl) /\
        lo_must_change s = negb (ur_must_change row =? 0)) /\
      ls_sessions st !! hash_session_id (fresh_id d) = None /\
      ls_sessions st' = <[hash_session_id (fresh_id d) :=
        row_of (lo_session s) (to_rfc3339 (at_session d))]> (ls_sessions st) /\
      ls_throttle st' = record_success t username /\ ls_users st' = ls_users st
  | (Err e, st') =>
      ls_users st' = ls_users st /\ ls_sessions st' = ls_sessions st /\
      (ls_throttle st' = t \/
       (e = LInvalidCredentials /\ ls_throttle st' = (record_failure t username (at_failure d)).1) \/
       (e = LSession SDb /\ ls_throttle st' = record_success t username)) /\
      (forall r, check t username (at_check d) = Deny r ->
         e = LThrottled (Z.max (r / 1000000000) 1) /\ ls_throttle st' = t) /\
      (check t username (at_check d) = Allow ->
       (get_by_username (ls_users st) username = Err UNotFound \/
        exists s row m c, ls_users st !! s = Some row /\ nocase_eq (ur_username row) username = true /\
          account row m c /\ pw <> c.1) ->
       e = LInvalidCredentials /\ ls_throttle st' = (record_failure t username (at_failure d)).1)
  end.
Proof.
  intros HS HH Hwf t ttl. unfold login_with_options. cbn [ls_throttle with_throttle]. fold t.
  assert (Hwrong : (get_by_username (ls_users st) username = Err UNotFound \/
        exists s row m c, ls_users st !! s = Some row /\ nocase_eq (ur_username row) username = true /\
          account row m c /\ pw <> c.1) ->
      authenticate_local (ls_users st) username pw = Err UNotFound \/
      authenticate_local (ls_users st) username pw = Err UInvalidCredentials).
  { intros [Hn|(s & row & m & c & Hs & Hn & Ha & Hne)].
    - left. unfold authenticate_local. by rewrite Hn.
    - right. destruct (authenticate_account _ _ _ _ pw _ _ HS HH Hwf Hs Hn Ha) as (u & _ & ->).
      by rewrite decide_False. }
  destruct (check t username (at_check d)) as [|r] eqn:Hcheck.
  2:{ split_and!; [done|done|by left|by intros r' [= <-]|done]. }
  cbn [ls_users with_throttle].
  destruct (authenticate_local (ls_users st) username pw) as [a|e] eqn:Hauth.
  2:{ assert (Hcases : e = UNotFound \/ e = UInvalidCredentials \/ (e <> UNotFound /\ e <> UInvalidCredentials))
        by (destruct e; naive_solver).
      destruct Hcases as [->|[->|[H1 H2]]].
      1,2: split_and!; [done|done|right; by left|done|done].
      destruct e; try done; (split_and!; [done|done|by left|done|]); intros _ [?|?]%Hwrong; congruence. }
  destruct (authenticate_Ok _ _ _ _ Hwf Hauth) as (id & row & Hrow & Hn & Hu & Hid & Htotp & Hmc).
  assert (Hacc : forall m c, account row m c -> pw = c.1 /\ au_master_key a = m).
  { intros m c Ha. destruct (authenticate_account _ _ _ _ pw _ _ HS HH Hwf Hrow Hn Ha) as (u & _ & E).
    rewrite Hauth in E. destruct (decide (pw = c.1)) as [->|]; [|done]. by injection E as ->. }
  assert (Hnot : ~ (get_by_username (ls_users st) username = Err UNotFound \/
        exists s row m c, ls_users st !! s = Some row /\ nocase_eq (ur_username row) username = true /\
          account row m c /\ pw <> c.1)) by (intros [?|?]%Hwrong; congruence).
  destruct (check_totp _ (au_record a) totp_code (at_totp d)) as [[]|e] eqn:Hf.
  - apply (check_totp_true _ _ row) in Hf; [|done].
    assert (Hknown : user_known (with_throttle (with_throttle st t) (record_success t username)) (u_id (au_record a)) = true).
    { apply bool_decide_eq_true. simpl. rewrite Hid, Hrow. done. }
    rewrite Hknown.
    assert (Hcreate : match session_ttl o with
      | Some ttl => create_with_ttl (ls_sessions st) true (fresh_id d) (fresh_csrf d) (u_id (au_record a)) (at_session d) ttl
      | None => create (ls_sessions st) true (fresh_id d) (fresh_csrf d) (u_id (au_record a)) (at_session d)
      end = create_with_ttl (ls_sessions st) true (fresh_id d) (fresh_csrf d) (u_id (au_record a)) (at_session d) ttl)
      by (unfold ttl; by destruct (session_ttl o)).
    cbn [ls_sessions with_throttle]. rewrite Hcreate. unfold create_with_ttl. cbn [andb].
    case_bool_decide as Hfree; cbn [result_bind result_map_err].
    + split_and!; try done. exists id, row. split_and!; try done. simpl. by rewrite Hid.
    + split_and!; [done|done|right; by right|done|]. by intros _ ?%Hnot.
  - split_and!; [done|done|right; by left|done|done].
  - split_and!; [done|done|by left|done|]. by intros _ ?%Hnot.
Qed.

(** A login to an account of known credentials *)
Lemma login_opens st id row m c username pw code o d s st'' :
  strong -> strong_hash -> wf_users (ls_users st) -> account row m c -> nocase_eq (ur_username row) username = true ->
  ls_users st !! uuid_to_string id = Some row ->
  login_with_options st username pw code o d = (Ok s, st'') ->
  pw = c.1 /\ au_master_key (lo_user s) = m /\ u_id (au_record (lo_user s)) = id.
Proof.
  intros HS HH Hwf Hacc Hn Hrow Hlogin.
  assert (Hauth : authenticate_local (ls_users st) username pw = Ok (lo_user s)).
  { revert Hlogin. unfold login_with_options. destruct (check _ _ _); [|done].
    cbn [ls_users with_throttle]. destruct (authenticate_local _ _ _) as [a|[]]; try done.
    destruct (check_totp _ _ _ _) as [[]|]; try done.
    destruct (match session_ttl o with Some _ => _ | None => _ end) as [[s0|] ss]; try done.
    cbn [result_bind result_map_err]. by intros [= <- _]. }
  destruct (authenticate_account _ _ _ _ pw _ _ HS HH Hwf Hrow Hn Hacc) as (u & Hu & Ea).
  rewrite Hauth in Ea. destruct (decide (pw = c.1)) as [->|]; [|done]. injection Ea as ->. split_and!; [done|done|].
  unfold user_of_row in Hu. rewrite uuid_roundtrip in Hu. cbn [result_bind ok_or] in Hu.
  destruct (Role_parse _); [|done]. cbn [result_bind ok_or] in Hu.
  destruct (parse_from_rfc3339 _); [|done]. cbn [result_bind ok_or] in Hu. by injection Hu as <-.
Qed.

(** C27. The life of an account.  A created user has a password of at least
    twenty characters and an account with a master key of its own, found
    under every spelling of the name.
    Changing the password needs the account's password and a long enough
    new one; it then keeps the master key and the recovery key, clears the
    forced change, closes every session of that user and no other, and from
    then on a login opens the account only with the new password, to the
    same master key.  When it fails, no session is closed; and nothing else
    has changed either, unless it was the closing of the sessions that the
    database refused: then the error is reported after the password has been
    changed, with the old sessions still alive. *)
Theorem account_lifecycle st :
  strong -> strong_hash -> wf_users (ls_users st) ->
  (forall username email pw role d now now' cu st',
     printable now -> length (master (d_master d)) = 32%nat ->
     length (d_nonce1 d) = NONCE_LEN -> length (d_nonce2 d) = NONCE_LEN ->
     create_user st username email pw role d now now' = (Ok cu, st') ->
     (20 <= length pw)%nat /\ wf_users (ls_users st') /\ ls_sessions st' = ls_sessions st /\
     exists row, ls_users st' = <[uuid_to_string (d_id d) := row]> (ls_users st) /\
       account row (d_master d) (pw, cu_recovery_key cu) /\
       ls_users st !! uuid_to_string (d_id d) = None /\
       (forall name', nocase_eq username name' = true ->
          get_by_username (ls_users st') name' = get_by_id (ls_users st') (d_id d))) /\
  (forall refused id row m c old new min_len salt nonce hash_salt now,
     ls_users st !! uuid_to_string id = Some row -> account row m c -> length nonce = NONCE_LEN ->
     let changed st' :=
       old = c.1 /\ (min_len <= length new)%nat /\ wf_users (ls_users st') /\
       (exists row', ls_users st' = <[uuid_to_string id := row']> (ls_users st) /\
          account row' m (new, c.2) /\ ur_must_change row' = 0 /\ ur_totp row' = ur_totp row) /\
       (forall username pw code o d s st'', nocase_eq (ur_username row) username = true ->
          login_with_options st' username pw code o d = (Ok s, st'') ->
          pw = new /\ au_master_key (lo_user s) = m /\ u_id (au_record (lo_user s)) = id) in
     match change_password_min refused st id old new min_len salt nonce hash_salt now with
     | (Ok _, st') =>
         changed st' /\
         (forall h r, ls_sessions st' !! h = Some r <->
            ls_sessions st !! h = Some r /\ row_user_id r <> uuid_to_string id)
     | (Err e, st') =>
         ls_sessions st' = ls_sessions st /\ ls_throttle st' = ls_throttle st /\
         ((ls_users st' = ls_users st /\
           ((min_len <= length new)%nat -> old <> c.1 -> refused 0%nat = false -> e = LUsers UInvalidCredentials)) \/
          (e = LSession SDb /\ refused 2%nat = true /\ changed st'))
     end).
Proof.
  intros HS HH Hwf. split.
  - intros username email pw role d now now' cu st' Hnow Hm H1 H2. unfold create_user.
    destruct (create_local _ _ _ _ _ _ _ _) as [[cu0|] db'] eqn:E; [|done].
    cbn [result_map_err]. intros [= <- <-].
    destruct (create_account _ _ _ _ _ _ _ _ _ _ Hwf Hnow Hm H1 H2 E)
      as (Hlen & Hmk & Hid & row & Hdb & Hfree & Hacc & Hname & _ & _ & Hwf'). simpl.
    split_and!; [done|done|done|]. exists row. split_and!; try done. intros name' Hn.
    rewrite (get_by_username_spec _ (uuid_to_string (d_id d)) row _ Hwf'); [|subst; by rewrite lookup_insert_eq|by rewrite Hname].
    unfold get_by_id. rewrite Hdb, lookup_insert_eq. done.
  - intros refused id row m c old new min_len salt nonce hash_salt now Hrow Hacc Hn changed. unfold change_password_min.
    pose proof (change_password_errors refused _ id row m c old new min_len salt nonce hash_salt now HH Hwf Hrow Hacc) as Herr.
    destruct (users_change_password_min _ _ _ _ _ _ _ _ _ _) as [[[]|e] db'] eqn:E.
    + assert (Hch : forall sessions, changed (with_sessions (with_users st db') sessions)).
      { intros sessions. destruct (change_password_account _ _ _ _ _ _ _ _ _ _ _ _ _ _ HS HH Hwf Hn Hrow Hacc E)
          as (Hold & Hlen & row' & Hdb & Hacc' & Hmc & Hname & Hrole & Htotp & Hcreated).
        assert (Hwf' : wf_users db') by (subst db'; by eapply wf_update).
        split_and!; [done|done|done|by exists row'|].
        intros username pw code o d s st'' Hnc. eapply (login_opens _ _ row' m (new, c.2)); [done..|by rewrite Hname|].
        simpl. subst db'. by rewrite lookup_insert_eq. }
      destruct (refused 2%nat); cbn [ls_users ls_sessions with_sessions with_users].
      * split_and!; [done|done|right]. split_and!; [done|done|]. apply (Hch (ls_sessions st)).
      * split; [apply Hch|]. intros h r. unfold delete_all_for_user. by rewrite map_lookup_filter_Some.
    + simpl in *. destruct Herr as (-> & _ & Hwrong); [done|]. split_and!; [done|done|left]. split; [done|].
      intros Hlen Hne Href. specialize (Hwrong Hlen Hne Href). congruence.
Qed.
End Login.

(** ** Witnesses *)
Definition demo_hash : PasswordHash.
Proof.
  refine {| argon2_phc p s := Some p; phc_verify p h := Some (str_eqb p h) |}.
  - intros p s h [= <-]. f_equal. by apply str_eqb_eq.
  - done.
Defined.

Lemma demo_strong_hash : @strong_hash demo_hash.
Proof. intros p s h p' [= <-] [= E]. by apply str_eqb_eq in E. Qed.

Definition demo_json : SealJson.
Proof.
  refine {| seal_to_json s :=
              [code (sealed_version s); N.of_nat (length (salt_hex s));
               N.of_nat (length (password_sealed_hex s))] ++
              salt_hex s ++ password_sealed_hex s ++ recovery_sealed_hex s;
            seal_of_json j :=
              match j with
              | Npos v :: a :: b :: r =>
                  let '(a, b) := (N.to_nat a, N.to_nat b) in
                  v ← decode v; Some (mkSealed v (take a r) (take b (drop a r)) (drop b (drop a r)))
              | _ => None
              end |}.
  intros [v a b c]. unfold code. cbn -[take drop N.to_nat N.of_nat encode decode app].
  cbn [app]. rewrite !Nat2N.id, decode_encode. cbn [mbind option_bind].
  by rewrite !take_app_length, !drop_app_length, take_app_length.
Defined.

Definition demo_totp : TotpLib :=
  {| try_from_base32 s := Some s; totp_builds _ _ _ := true;
     check_current secret now code := if str_eqb code secret then Some 1 else None |}.

Definition demo_pw : str := lit "correct horse battery".
Definition demo_draw (id : N) : CreateDraw :=
  mkDraw id [] (demo_master id) (7 :: replicate 31 0)%N demo_salt demo_nonce demo_nonce.
Definition demo_service0 : LoginService := mkService' ∅ ∅ AuthThrottle_new None.

Section Demo.
#[local] Existing Instance demo_aead.
#[local] Existing Instance demo_kdf.
#[local] Existing Instance wide_hex.
#[local] Existing Instance char_clock.
#[local] Existing Instance char_uuid.
#[local] Existing Instance plain_session_hash.
#[local] Existing Instance demo_hash.
#[local] Existing Instance demo_json.
#[local] Existing Instance demo_totp.

Definition demo_service : LoginService :=
  (create_user demo_service0 (lit "alice") (lit "a@b") demo_pw Admin (demo_draw 5) 100 100).2.
Definition demo_login_draw (n : N) : LoginDraw := mkLoginDraw 0 0 0 200 n (n + 1).

Lemma demo_users_wf : wf_users (ls_users demo_service0).
Proof. split; intros *; cbn [ls_users demo_service0]; by rewrite lookup_empty. Qed.

Lemma demo_service_wf : wf_users (ls_users demo_service).
Proof.
  assert (exists cu, create_local ∅ (lit "alice") (lit "a@b") demo_pw Admin (demo_draw 5) 100 100 =
    (Ok cu, ls_users demo_service)) as [cu E] by (eexists; by vm_compute).
  pose proof (create_account ∅ (lit "alice") (lit "a@b") demo_pw Admin (demo_draw 5) 100 100 cu _ demo_users_wf
    ltac:(unfold printable, max_instant; lia) eq_refl eq_refl eq_refl E) as (_ & _ & _ & row & H).
  tauto.
Qed.

Lemma login_outcomes_witness :
  let d := demo_login_draw 9 in
  exists s st', login_with_options demo_service (lit "Alice") demo_pw None LoginOptions_default d = (Ok s, st') /\
    u_id (au_record (lo_user s)) = 5%N /\ ls_throttle st' = record_success AuthThrottle_new (lit "Alice") /\
    ls_users st' = ls_users demo_service.
Proof.
  intros d. pose proof (login_outcomes demo_service (lit "Alice") demo_pw None LoginOptions_default d
    demo_strong demo_strong_hash demo_service_wf) as H.
  destruct (login_with_options demo_service (lit "Alice") demo_pw None LoginOptions_default d) as [[s|e] st'] eqn:E.
  - exists s, st'. destruct H as (_ & _ & _ & _ & Ht & Hu). split_and!; [done| |exact Ht|exact Hu].
    apply (f_equal (fun x => match x.1 with Ok s => u_id (au_record (lo_user s)) | Err _ => 0%N end)) in E.
    etrans; [symmetry; exact E|by vm_compute].
  - exfalso. apply (f_equal (fun x => match x.1 with Ok _ => true | Err _ => false end)) in E.
    by vm_compute in E.
Defined.

Lemma account_lifecycle_witness :
  wf_users (ls_users demo_service) /\
  exists row, ls_users demo_service = <[[5%N] := row]> ∅ /\
    account row (demo_master 5) (demo_pw, demo_recovery 7) /\
    get_by_username (ls_users demo_service) (lit "ALICE") = get_by_id (ls_users demo_service) 5%N.
Proof.
  destruct (account_lifecycle demo_service0 demo_strong demo_strong_hash demo_users_wf) as [H _].
  assert (exists cu, create_user demo_service0 (lit "alice") (lit "a@b") demo_pw Admin (demo_draw 5) 100 100 =
    (Ok cu, demo_service) /\ cu_recovery_key cu = demo_recovery 7) as (cu & E & Hr)
    by (eexists; split; by vm_compute).
  destruct (H (lit "alice") (lit "a@b") demo_pw Admin (demo_draw 5) 100 100 cu demo_service ltac:(unfold printable, max_instant; lia) eq_refl eq_refl eq_refl E)
    as (_ & Hwf & _ & row & Hdb & Hacc & _ & Hname).
  split; [exact Hwf|]. exists row. rewrite Hr in Hacc. split_and!; [exact Hdb|exact Hacc|].
  apply Hname. by vm_compute.
Defined.
End Demo.
