(* ===== verification/Middleware.v ===== *)
(** * The gates before the web routes

    [crates/mycelium-web/src/middleware.rs] (session and bearer
    authentication, the CSRF check with its form and multipart parsers,
    the security headers) and the parts of [server.rs] that decide what a
    request may reach: the login gate, the order of the layers, and the
    static assets.

    A layer passes a request on or answers it.  What a request carries in
    its extensions is three of its fields. *)
From S2P Require Import Prelude Text Clock Search Session ApiKey Users.
Open Scope Z_scope.

(** ** Requests and answers *)
Inductive Method := GET | HEAD | OPTIONS | POST | PUT | DELETE | OtherMethod (name : str).
#[global] Instance Method_eq_dec : EqDecision Method.
Proof. solve_decision. Defined.

(** Header names are lower case; a body that breaks off is [None]. *)
Record Request := mkRequest {
  rq_method : Method; rq_path : str; rq_headers : list (str * bytes); rq_body : option bytes;
  rq_user : option SessionUser; rq_session : option Uuid; rq_bearer : bool }.
Definition with_user (u : SessionUser) (r : Request) : Request :=
  mkRequest (rq_method r) (rq_path r) (rq_headers r) (rq_body r) (Some u) (rq_session r) (rq_bearer r).
Definition with_session (id : Uuid) (r : Request) : Request :=
  mkRequest (rq_method r) (rq_path r) (rq_headers r) (rq_body r) (rq_user r) (Some id) (rq_bearer r).
Definition with_bearer (r : Request) : Request :=
  mkRequest (rq_method r) (rq_path r) (rq_headers r) (rq_body r) (rq_user r) (rq_session r) true.

(** [APanic]: the task dies and with it the connection. *)
Inductive Answer := AStatus (code : Z) (text : str) | ARedirect (to : str) | APanic.

(** [HeaderMap::get] with [to_str]: the first value, if it is visible ASCII *)
Definition visible (b : N) : bool := in_range 32 126 b || (b =? 9)%N.
Definition header_str (name : str) (headers : list (str * bytes)) : option str :=
  h ← find_first (fun kv => str_eqb kv.1 name) headers; if forallb visible h.2 then Some h.2 else None.
Definition remove_header (name : str) (headers : list (str * bytes)) : list (str * bytes) :=
  retain (fun kv => negb (str_eqb kv.1 name)) headers.
(** [axum::body::to_bytes] *)
Definition to_bytes (body : option bytes) (limit : Z) : option bytes :=
  b ← body; if Z.of_nat (length b) <=? limit then Some b else None.

(** ** Text from bytes *)
Definition cont (b : N) : bool := in_range 128 191 b.
(** Which second bytes a lead byte of three and of four bytes takes *)
Definition second3 (b0 b1 : N) : bool :=
  if (b0 =? 224)%N then in_range 160 191 b1 else if (b0 =? 237)%N then in_range 128 159 b1 else cont b1.
Definition second4 (b0 b1 : N) : bool :=
  if (b0 =? 240)%N then in_range 144 191 b1 else if (b0 =? 244)%N then in_range 128 143 b1 else cont b1.
Definition REPLACEMENT : char := 65533.

(** [String::from_utf8_lossy]: every maximal invalid run of bytes that
    could have begun a character becomes one replacement character. *)
Fixpoint from_utf8_lossy (b : bytes) : str :=
  match b with
  | [] => []
  | b0 :: r0 =>
      if (b0 <? 128)%N then b0 :: from_utf8_lossy r0
      else if in_range 194 223 b0 then
        match r0 with
        | b1 :: r1 => if cont b1 then ((b0 - 192) * 64 + (b1 - 128))%N :: from_utf8_lossy r1 else REPLACEMENT :: from_utf8_lossy r0
        | [] => [REPLACEMENT]
        end
      else if in_range 224 239 b0 then
        match r0 with
        | b1 :: r1 =>
            if second3 b0 b1 then
              match r1 with
              | b2 :: r2 =>
                  if cont b2 then ((b0 - 224) * 4096 + (b1 - 128) * 64 + (b2 - 128))%N :: from_utf8_lossy r2
                  else REPLACEMENT :: from_utf8_lossy r1
              | [] => [REPLACEMENT]
              end
            else REPLACEMENT :: from_utf8_lossy r0
        | [] => [REPLACEMENT]
        end
      else if in_range 240 244 b0 then
        match r0 with
        | b1 :: r1 =>
            if second4 b0 b1 then
              match r1 with
              | b2 :: r2 =>
                  if cont b2 then
                    match r2 with
                    | b3 :: r3 =>
                        if cont b3 then
                          ((b0 - 240) * 262144 + (b1 - 128) * 4096 + (b2 - 128) * 64 + (b3 - 128))%N :: from_utf8_lossy r3
                        else REPLACEMENT :: from_utf8_lossy r2
                    | [] => [REPLACEMENT]
                    end
                  else REPLACEMENT :: from_utf8_lossy r1
              | [] => [REPLACEMENT]
              end
            else REPLACEMENT :: from_utf8_lossy r0
        | [] => [REPLACEMENT]
        end
      else REPLACEMENT :: from_utf8_lossy r0
  end.

(** [str::parse::<u64>] *)
Definition parse_u64 (s : str) : option Z :=
  let digits := default s (strip_prefix (lit "+") s) in
  if negb (bool_decide (digits = [])) && forallb is_ascii_digit digits && (Z.of_N (digits_value (reverse digits)) <=? u64_max)
  then Some (Z.of_N (digits_value (reverse digits))) else None.

(** ** Forms *)
Definition hex_digit (b : N) : option N :=
  if in_range 48 57 b then Some (b - 48)%N
  else if in_range 65 70 b then Some (b - 55)%N
  else if in_range 97 102 b then Some (b - 87)%N else None.
(** [u8::from_str_radix(.., 16)] on two bytes: a sign may stand first. *)
Definition hex_pair (a b : N) : option N :=
  if (a =? 43)%N then hex_digit b else (h ← hex_digit a; l ← hex_digit b; Some (16 * h + l)%N).
Fixpoint percent_decode_bytes (b : bytes) : bytes :=
  match b with
  | [] => []
  | c :: r =>
      if (c =? 43)%N then 32%N :: percent_decode_bytes r
      else if (c =? 37)%N then
        match r with
        | h :: l :: r' => match hex_pair h l with Some x => x :: percent_decode_bytes r' | None => c :: percent_decode_bytes r end
        | _ => c :: percent_decode_bytes r
        end
      else c :: percent_decode_bytes r
  end.
Definition percent_decode (s : str) : str := from_utf8_lossy (percent_decode_bytes (as_bytes s)).

(** A pair without [=] ends the search. *)
Fixpoint form_pairs (field : str) (pairs : list str) : option str :=
  match pairs with
  | [] => None
  | p :: pairs =>
      match split_once (lit "=") p with
      | None => None
      | Some (k, v) => if str_eqb (percent_decode k) field then Some (percent_decode v) else form_pairs field pairs
      end
  end.
Definition form_urlencoded_get (body : bytes) (field : str) : option str :=
  text ← from_utf8 body; form_pairs field (split 38%N text).

(** ** Multipart bodies *)
Definition crlf : bytes := [13; 10]%N.
(** [find_subsequence] with the parts around what it finds *)
Definition find_subsequence (haystack needle : bytes) : option (bytes * bytes) :=
  if bool_decide (needle = []) then None else split_once needle haystack.

Definition boundary_of (content_type : str) : option str :=
  found ← split_once (lit "boundary=") content_type;
  let raw := found.2 in
  let quoted := (r ← strip_prefix [34%N] raw; fst <$> split_once [34%N] r) in
  let boundary := match quoted with Some b => b | None => default raw (head (split 59%N raw)) end in
  if bool_decide (boundary = []) then None else Some boundary.

(** The bytes of a part up to the next delimiter, without the line break
    that belongs to the delimiter.  [None] is a panic: where the delimiter
    follows the blank line at once, the break that is cut off is the one
    before the part, and the range of the slice ends before its start. *)
Definition part_value (body : bytes) : option bytes :=
  if bool_decide (body = []) then None
  else Some (if ends_with crlf body then take (length body - 2) body else body).

Section Multipart.
Context {LC : Lowercase}.
Definition names_field (field : str) (headers : bytes) : bool :=
  contains (to_lowercase (lit "name=" ++ [34%N] ++ field ++ [34%N])) (to_lowercase (from_utf8_lossy headers)).
(** The loop from [pos] on; the outer [None] is a panic. *)
Fixpoint multipart_parts (fuel : nat) (delim : bytes) (field : str) (text : bytes) : option (option str) :=
  match fuel with
  | O => Some None
  | S fuel =>
      match find_subsequence text delim with
      | None => Some None
      | Some (_, abs) =>
          match find_subsequence abs (crlf ++ crlf) with
          | None => Some None
          | Some (headers, rest) =>
              match find_subsequence rest delim with
              | None => Some None
              | Some (body, _) =>
                  if names_field field headers then (fun b => Some (from_utf8_lossy b)) <$> part_value body
                  else multipart_parts fuel delim field rest
              end
          end
      end
  end.
Definition multipart_field (body : bytes) (content_type field : str) : option (option str) :=
  match boundary_of content_type with
  | None => Some None
  | Some boundary => multipart_parts (S (length body)) (lit "--" ++ as_bytes boundary) field body
  end.
End Multipart.

(** ** Limits *)
Definition SMALL_MULTIPART_MAX_BYTES : Z := 8 * 1024 * 1024.
Definition is_book_upload_path (path : str) : bool := str_eqb path (lit "/api/v1/ingest").
Definition multipart_buffer_cap (path : str) (book_cap_bytes : Z) : Z :=
  if is_book_upload_path path then book_cap_bytes else SMALL_MULTIPART_MAX_BYTES.
Definition declared_length_too_large (headers : list (str * bytes)) (cap : Z) : bool :=
  match (v ← header_str (lit "content-length") headers; parse_u64 (trim v)) with Some len => cap <? len | None => false end.

(** ** State *)
Record Web := mkWeb { wb_sessions : Sessions; wb_keys : ApiKeys; wb_users : Users; wb_max_book_mib : option Z; wb_requests : Z }.
Definition with_sessions (s : Sessions) (w : Web) : Web := mkWeb s (wb_keys w) (wb_users w) (wb_max_book_mib w) (wb_requests w).
Definition with_keys (k : ApiKeys) (w : Web) : Web := mkWeb (wb_sessions w) k (wb_users w) (wb_max_book_mib w) (wb_requests w).
(** [upload_config]: the stored limit, where there is one that can be read *)
Definition upload_max_book_mib (w : Web) : Z := default 32 (wb_max_book_mib w).

(** Which reads of the database are refused, and the clock at the two
    lookups of the session and at that of the key *)
Inductive WebRead := ReadSession | ReadSessionUser | ReadKey | ReadKeyUser | ReadGateUser | ReadCsrf.
Record WebEnv := mkWebEnv { we_refused : WebRead -> bool; we_session : Z; we_key : Z; we_csrf : Z }.

Section Gates.
Context {RF : Rfc3339} {UT : UuidText} {SH : SessionHash} {TH : TokenHash} {LC : Lowercase}.

(** ** Authentication *)
Fixpoint session_cookie (parts : list str) : option Uuid :=
  match parts with
  | [] => None
  | p :: parts => match strip_prefix (lit "myc2_session=") (trim p) with Some v => uuid_parse_str v | None => session_cookie parts end
  end.
Definition session_id_from_headers (headers : list (str * bytes)) : option Uuid :=
  cookies ← header_str (lit "cookie") headers; session_cookie (split 59%N cookies).

Definition user_by_id (e : WebEnv) (rd : WebRead) (id : Uuid) (w : Web) : option UserRecord :=
  if we_refused e rd then None else result_ok (get_by_id (wb_users w) id).
Definition session_user (u : UserRecord) : SessionUser := mkSessionUser (u_id u) (u_username u) (u_role u).

Definition bearer_user (e : WebEnv) (headers : list (str * bytes)) (w : Web) : option SessionUser * Web :=
  match (auth ← header_str (lit "authorization") headers; strip_prefix (lit "Bearer ") auth) with
  | None => (None, w)
  | Some token =>
      if we_refused e ReadKey then (None, w)
      else
        let '(r, keys) := verify (wb_keys w) token (we_key e) in
        let w := with_keys keys w in
        ((record ← result_ok r; session_user <$> user_by_id e ReadKeyUser (k_user_id record) w), w)
  end.

Definition cookie_auth (e : WebEnv) (r : Request) (w : Web) : Request * Web :=
  match session_id_from_headers (rq_headers r) with
  | None => (r, w)
  | Some id =>
      if we_refused e ReadSession then (r, w)
      else
        let '(s, sessions) := Session.get (wb_sessions w) id (we_session e) in
        let w := with_sessions sessions w in
        match (s ← result_ok s; user_by_id e ReadSessionUser (s_user_id s) w) with
        | Some u => (with_session id (with_user (session_user u) r), w)
        | None => (r, w)
        end
  end.
Definition session_auth (e : WebEnv) (r : Request) (w : Web) : Request * Web :=
  let w := mkWeb (wb_sessions w) (wb_keys w) (wb_users w) (wb_max_book_mib w) (wrap64 (wb_requests w + 1)) in
  let '(r, w) := cookie_auth e r w in
  if is_some (rq_user r) || str_eqb (rq_path r) (lit "/mcp") then (r, w)
  else match bearer_user e (rq_headers r) w with
       | (Some u, w) => (with_bearer (with_user u r), w)
       | (None, w) => (r, w)
       end.

(** ** The login gate *)
Definition is_public (path : str) : bool :=
  existsb (str_eqb path) (lit <$> ["/login"; "/setup"; "/logout"; "/assets/style.css"; "/assets/app.js"; "/assets/graph.js"]%string)
  || starts_with (lit "/assets/") path || starts_with (lit "/api/v1/health") path || starts_with (lit "/metrics") path
  || starts_with (lit "/health") path || str_eqb path (lit "/mcp").
Definition require_login_gate (e : WebEnv) (r : Request) (w : Web) : Answer + Request :=
  if is_public (rq_path r) then inr r else
  match rq_user r with
  | None => inl (ARedirect (lit "/login"))
  | Some user =>
      if negb (str_eqb (rq_path r) (lit "/account")) && negb (str_eqb (rq_path r) (lit "/password")) && negb (rq_bearer r)
         && match user_by_id e ReadGateUser (su_user_id user) w with Some u => u_must_change u | None => false end
      then inl (ARedirect (lit "/account?forced=1")) else inr r
  end.

(** ** The CSRF check *)
Definition CSRF_FORM_MAX : Z := 2 * 1024 * 1024.
Definition is_safe (r : Request) : bool :=
  bool_decide (rq_method r = GET \/ rq_method r = HEAD \/ rq_method r = OPTIONS).
Definition csrf_exempt (r : Request) : bool :=
  is_safe r || str_eqb (rq_path r) (lit "/mcp") || rq_bearer r || str_eqb (rq_path r) (lit "/login") || str_eqb (rq_path r) (lit "/setup").
Definition restored (body : bytes) (r : Request) : Request :=
  mkRequest (rq_method r) (rq_path r) (remove_header (lit "content-length") (rq_headers r)) (Some body) (rq_user r) (rq_session r) (rq_bearer r).
Definition verify_and_continue (e : WebEnv) (session : Uuid) (token : str) (r : Request) (w : Web) : (Answer + Request) * Web :=
  if we_refused e ReadCsrf then (inl (AStatus 401 (lit "invalid session")), w)
  else
    let '(v, sessions) := verify_csrf (wb_sessions w) session (we_csrf e) token in
    (match v with
     | Ok true => inr r
     | Ok false => inl (AStatus 403 (lit "CSRF token mismatch"))
     | Err _ => inl (AStatus 401 (lit "invalid session"))
     end, with_sessions sessions w).
Definition missing_token : Answer := AStatus 403 (lit "missing CSRF token").

(** The token a request presents and the request that goes on *)
Definition presented (r : Request) (w : Web) : Answer + (str * Request) :=
  let content_type := default [] (header_str (lit "content-type") (rq_headers r)) in
  match header_str (lit "x-csrf-token") (rq_headers r) with
  | Some token => inr (token, r)
  | None =>
      if starts_with (lit "application/x-www-form-urlencoded") content_type then
        match to_bytes (rq_body r) CSRF_FORM_MAX with
        | None => inl (AStatus 400 (lit "body read failed"))
        | Some b =>
            match form_urlencoded_get b (lit "csrf_token") with
            | Some token => inr (token, restored b r)
            | None => inl missing_token
            end
        end
      else if starts_with (lit "multipart/form-data") content_type then
        let cap := multipart_buffer_cap (rq_path r) (wrap64 ((upload_max_book_mib w + 1) * 1024 * 1024)) in
        if declared_length_too_large (rq_headers r) cap then inl (AStatus 413 (lit "body too large")) else
        match to_bytes (rq_body r) cap with
        | None => inl (AStatus 400 (lit "body read failed"))
        | Some b =>
            match multipart_field b content_type (lit "csrf_token") with
            | None => inl APanic
            | Some (Some token) => inr (token, restored b r)
            | Some None => inl missing_token
            end
        end
      else inl missing_token
  end.
Definition csrf_protect (e : WebEnv) (r : Request) (w : Web) : (Answer + Request) * Web :=
  if csrf_exempt r then (inr r, w) else
  match rq_session r with
  | None => (inl (AStatus 401 (lit "unauthorized")), w)
  | Some session =>
      match presented r w with
      | inl a => (inl a, w)
      | inr (token, r) => verify_and_continue e session token r w
      end
  end.

(** ** The stack: the outermost layer runs first. *)
Definition gates (e : WebEnv) (r : Request) (w : Web) : (Answer + Request) * Web :=
  let '(r, w) := session_auth e r w in
  match require_login_gate e r w with
  | inl a => (inl a, w)
  | inr r => csrf_protect e r w
  end.

(** ** Headers of every response *)
(** [simple] is the text without its dashes. *)
Definition csp_nonce (id : Uuid) : str := take 24 (retain (fun c => negb (c =? 45)%N) (uuid_to_string id)).
Definition csp (nonce : str) : str :=
  lit "default-src 'self'; script-src 'self' 'wasm-unsafe-eval' 'nonce-" ++ nonce ++
  lit "'; style-src 'self'; img-src 'self' data:; connect-src 'self'; frame-ancestors 'none'; base-uri 'self'; form-action 'self'".
Definition insert_header (name : string) (value : str) (headers : list (str * bytes)) : list (str * bytes) :=
  (lit name, value) :: remove_header (lit name) headers.
Definition security_headers (id : Uuid) (headers : list (str * bytes)) : list (str * bytes) :=
  insert_header "strict-transport-security" (lit "max-age=63072000; includeSubDomains")
    (insert_header "referrer-policy" (lit "same-origin")
      (insert_header "x-content-type-options" (lit "nosniff")
        (insert_header "x-frame-options" (lit "DENY")
          (insert_header "content-security-policy" (csp (csp_nonce id)) headers)))).
End Gates.

(** ** Static assets *)
Definition asset_name_ok (path : str) : bool :=
  negb (contains (lit "..") path || contains (lit "/") path || contains [92%N] path).
Definition asset_mime (path : str) : str :=
  match last (split 46%N path) with
  | Some ext =>
      if str_eqb ext (lit "css") then lit "text/css" else if str_eqb ext (lit "js") then lit "application/javascript"
      else if str_eqb ext (lit "wasm") then lit "application/wasm" else if str_eqb ext (lit "svg") then lit "image/svg+xml"
      else if str_eqb ext (lit "png") then lit "image/png" else lit "application/octet-stream"
  | None => lit "application/octet-stream"
  end.
(** [files] reads a file of the assets directory. *)
Definition serve_asset (files : str -> option bytes) (path : str) : Z * str * bytes :=
  if negb (asset_name_ok path) then (404, [], lit "not found")
  else match files path with
       | Some b => (200, asset_mime path, b)
       | None => (404, [], lit "not found")
       end.
