(* ===== verification/MiddlewareProofs.v ===== *)
(** * The gates before the web routes: what reaches the handlers *)
From S2P Require Import Prelude Text Clock Search Session ApiKey Users Middleware.
Open Scope Z_scope.

(** ** Text from bytes *)
Lemma in_range_spec lo hi c : in_range lo hi c = true <-> (lo <= c <= hi)%N.
Proof. unfold in_range. rewrite andb_true_iff, !N.leb_le. lia. Qed.
Lemma in_range_out lo hi c : (c < lo \/ hi < c)%N -> in_range lo hi c = false.
Proof. intros H. apply not_true_iff_false. rewrite in_range_spec. lia. Qed.

Lemma lossy_two b0 b1 r : in_range 194 223 b0 = true -> cont b1 = true ->
  from_utf8_lossy (b0 :: b1 :: r) = ((b0 - 192) * 64 + (b1 - 128))%N :: from_utf8_lossy r.
Proof.
  intros H0 H1. pose proof (proj1 (in_range_spec _ _ _) H0). cbn [from_utf8_lossy]. rewrite (proj2 (N.ltb_ge b0 128)) by lia. by rewrite H0, H1.
Qed.
Lemma lossy_three b0 b1 b2 r : in_range 224 239 b0 = true -> second3 b0 b1 = true -> cont b2 = true ->
  from_utf8_lossy (b0 :: b1 :: b2 :: r) = ((b0 - 224) * 4096 + (b1 - 128) * 64 + (b2 - 128))%N :: from_utf8_lossy r.
Proof.
  intros H0 H1 H2. pose proof (proj1 (in_range_spec _ _ _) H0). cbn [from_utf8_lossy]. rewrite (proj2 (N.ltb_ge b0 128)) by lia.
  rewrite (in_range_out 194 223 b0) by lia. by rewrite H0, H1, H2.
Qed.
Lemma lossy_four b0 b1 b2 b3 r : in_range 240 244 b0 = true -> second4 b0 b1 = true -> cont b2 = true -> cont b3 = true ->
  from_utf8_lossy (b0 :: b1 :: b2 :: b3 :: r) =
    ((b0 - 240) * 262144 + (b1 - 128) * 4096 + (b2 - 128) * 64 + (b3 - 128))%N :: from_utf8_lossy r.
Proof.
  intros H0 H1 H2 H3. pose proof (proj1 (in_range_spec _ _ _) H0). cbn [from_utf8_lossy]. rewrite (proj2 (N.ltb_ge b0 128)) by lia.
  rewrite (in_range_out 194 223 b0), (in_range_out 224 239 b0) by lia. by rewrite H0, H1, H2, H3.
Qed.

Lemma lossy_cons c b : is_scalar c = true -> from_utf8_lossy (utf8_char c ++ b) = c :: from_utf8_lossy b.
Proof.
  intros Hc. unfold is_scalar in Hc. apply andb_true_iff in Hc as [Hlt%N.ltb_lt Hs%negb_true_iff].
  assert (Hsur : (c < 55296 \/ 57343 < c)%N).
  { destruct (N.lt_ge_cases c 55296); [by left|]. destruct (N.lt_ge_cases 57343 c); [by right|].
    by rewrite (proj2 (in_range_spec 55296 57343 c)) in Hs by lia. }
  clear Hs. assert (H3 : (c / 64 / 64 = c / 4096)%N) by by rewrite N.Div0.div_div.
  assert (H4 : (c / 4096 / 64 = c / 262144)%N) by by rewrite N.Div0.div_div.
  pose proof (N.div_mod' c 64) as C1. pose proof (N.div_mod' (c / 64) 64) as C2.
  pose proof (N.div_mod' (c / 4096) 64) as C3. rewrite H3 in C2. rewrite H4 in C3.
  pose proof (N.mod_lt c 64 ltac:(done)) as M1. pose proof (N.mod_lt (c / 64) 64 ltac:(done)) as M2.
  pose proof (N.mod_lt (c / 4096) 64 ltac:(done)) as M3. clear H3 H4.
  unfold utf8_char. revert C1 C2 C3 M1 M2 M3.
  generalize (c / 64)%N (c / 4096)%N (c / 262144)%N. intros q1 q2 q3.
  generalize (c mod 64)%N (q1 mod 64)%N (q2 mod 64)%N. intros r1 r2 r3 C1 C2 C3 M1 M2 M3.
  assert (Hr : forall r, (r < 64)%N -> cont (128 + r) = true) by (intros r ?; apply in_range_spec; lia).
  destruct (N.ltb_spec c 128) as [H|H]; [|destruct (N.ltb_spec c 2048); [|destruct (N.ltb_spec c 65536)]]; cbn [app].
  - cbn [from_utf8_lossy]. by rewrite (proj2 (N.ltb_lt c 128) H).
  - rewrite lossy_two; [f_equal; lia|apply in_range_spec; lia|by apply Hr].
  - rewrite lossy_three; [f_equal; lia|apply in_range_spec; lia| |by apply Hr]. unfold second3.
    destruct (N.eqb_spec (224 + q2) 224); [apply in_range_spec; lia|]. destruct (N.eqb_spec (224 + q2) 237); [apply in_range_spec; lia|by apply Hr].
  - rewrite lossy_four; [f_equal; lia|apply in_range_spec; lia| |by apply Hr|by apply Hr]. unfold second4.
    destruct (N.eqb_spec (240 + q3) 240); [apply in_range_spec; lia|]. destruct (N.eqb_spec (240 + q3) 244); [apply in_range_spec; lia|by apply Hr].
Qed.

Lemma lossy_as_bytes s : Forall (fun c => is_scalar c = true) s -> from_utf8_lossy (as_bytes s) = s.
Proof.
  induction 1 as [|c s Hc _ IH]; [done|]. unfold as_bytes in *. cbn [fmap list_fmap concat]. by rewrite lossy_cons, IH.
Qed.

(** ** Forms *)
(** The serializer of browsers for form values *)
Definition form_safe (b : N) : bool := is_ascii_alphanumeric b || existsb (N.eqb b) [42; 45; 46; 95]%N.
Definition hex_upper (n : N) : N := if (n <? 10)%N then (48 + n)%N else (55 + n)%N.
Definition form_byte (b : N) : str :=
  if form_safe b then [b] else if (b =? 32)%N then [43%N] else [37%N; hex_upper (b / 16); hex_upper (b mod 16)].
Definition form_encode (s : str) : str := concat (form_byte <$> as_bytes s).
Definition form_body (fields : list (str * str)) : str := join [38%N] ((fun kv => form_encode kv.1 ++ lit "=" ++ form_encode kv.2) <$> fields).

Lemma hex_upper_digit n : (n < 16)%N -> hex_digit (hex_upper n) = Some n.
Proof.
  intros Hn. unfold hex_upper, hex_digit. destruct (N.ltb_spec n 10).
  - rewrite (proj2 (in_range_spec 48 57 _)) by lia. f_equal. lia.
  - rewrite (in_range_out 48 57) by lia. rewrite (proj2 (in_range_spec 65 70 _)) by lia. f_equal. lia.
Qed.
Lemma hex_pair_upper b : (b < 256)%N -> hex_pair (hex_upper (b / 16)) (hex_upper (b mod 16)) = Some b.
Proof.
  intros Hb. assert (b / 16 < 16)%N by by apply N.Div0.div_lt_upper_bound. pose proof (N.mod_lt b 16 ltac:(done)).
  unfold hex_pair. rewrite !hex_upper_digit by done. destruct (N.eqb_spec (hex_upper (b / 16)) 43) as [E|_].
  - exfalso. revert E. unfold hex_upper. generalize (b / 16)%N. intros q. destruct (N.ltb_spec q 10); lia.
  - cbn. f_equal. pose proof (N.div_mod' b 16). lia.
Qed.
Lemma percent_decode_byte b r : (b < 256)%N -> percent_decode_bytes (form_byte b ++ r) = b :: percent_decode_bytes r.
Proof.
  intros Hb. unfold form_byte. destruct (form_safe b) eqn:Hs.
  - cbn -[N.eqb]. destruct (N.eqb_spec b 43) as [->|_]; [done|]. destruct (N.eqb_spec b 37) as [->|_]; [done|]. done.
  - destruct (N.eqb_spec b 32) as [->|_]; [done|]. cbn -[hex_pair hex_upper N.div N.modulo]. by rewrite hex_pair_upper.
Qed.
Lemma as_bytes_small s : Forall (fun c => is_scalar c = true) s -> Forall (fun b => (b < 256)%N) (as_bytes s).
Proof.
  induction 1 as [|c s Hc _ IH]; [constructor|]. unfold as_bytes in *. cbn [fmap list_fmap concat]. apply Forall_app. split; [|done].
  assert (c < 1114112)%N by by apply andb_true_iff in Hc as [?%N.ltb_lt _].
  pose proof (N.mod_lt c 64 ltac:(done)). pose proof (N.mod_lt (c / 64) 64 ltac:(done)). pose proof (N.mod_lt (c / 4096) 64 ltac:(done)).
  assert (Hd : forall k n, (c < k * n)%N -> (c / k < n)%N) by (intros; by apply N.Div0.div_lt_upper_bound).
  unfold utf8_char. destruct (N.ltb_spec c 128); [|destruct (N.ltb_spec c 2048); [|destruct (N.ltb_spec c 65536)]]; rewrite !Forall_cons.
  - split; [lia|constructor].
  - pose proof (Hd 64 32)%N. split_and!; [lia..|constructor].
  - pose proof (Hd 4096 16)%N. split_and!; [lia..|constructor].
  - pose proof (Hd 262144 5)%N. split_and!; [lia..|constructor].
Qed.
(** What is encoded is ASCII, and free of the separators. *)
Definition form_char (c : N) : bool := form_safe c || (c =? 43)%N || (c =? 37)%N.
Lemma hex_upper_char n : (n < 16)%N -> form_char (hex_upper n) = true.
Proof.
  intros Hn. unfold hex_upper, form_char, form_safe, is_ascii_alphanumeric, is_ascii_digit, is_ascii_uppercase, is_ascii_lowercase.
  destruct (N.ltb_spec n 10).
  - by rewrite (proj2 (in_range_spec 48 57 _)) by lia.
  - rewrite (proj2 (in_range_spec 65 90 _)) by lia. by rewrite !orb_true_r.
Qed.
Lemma form_byte_chars b : (b < 256)%N -> Forall (fun c => form_char c = true) (form_byte b).
Proof.
  intros Hb. unfold form_byte. destruct (form_safe b) eqn:Hs; [repeat constructor; unfold form_char; by rewrite Hs|].
  destruct (b =? 32)%N; [by repeat constructor|]. constructor; [done|]. constructor; [|constructor; [|constructor]]; apply hex_upper_char.
  - by apply N.Div0.div_lt_upper_bound.
  - by apply N.mod_lt.
Qed.
Lemma form_char_spec c : form_char c = true -> (c < 128)%N /\ c <> 38%N /\ c <> 61%N.
Proof.
  unfold form_char, form_safe, is_ascii_alphanumeric, is_ascii_digit, is_ascii_uppercase, is_ascii_lowercase.
  rewrite !orb_true_iff, !in_range_spec, !N.eqb_eq. cbn [existsb]. rewrite !orb_true_iff, !N.eqb_eq. lia.
Qed.
Lemma form_encode_chars s : Forall (fun c => is_scalar c = true) s -> Forall (fun c => form_char c = true) (form_encode s).
Proof.
  intros Hs%as_bytes_small. unfold form_encode. induction Hs as [|b l Hb _ IH]; [constructor|]. cbn [fmap list_fmap concat].
  apply Forall_app. split; [by apply form_byte_chars|done].
Qed.

Lemma ascii_bytes s : Forall (fun c => c < 128)%N s -> as_bytes s = s.
Proof.
  induction 1 as [|c s Hc _ IH]; [done|]. unfold as_bytes in *. cbn [fmap list_fmap concat]. rewrite IH. unfold utf8_char.
  by rewrite (proj2 (N.ltb_lt c 128) Hc).
Qed.
Lemma ascii_scalar s : Forall (fun c => c < 128)%N s -> Forall (fun c => is_scalar c = true) s.
Proof.
  intros HF. eapply Forall_impl; [exact HF|]. intros c Hc. cbn beta in Hc. unfold is_scalar. rewrite (proj2 (N.ltb_lt c _)) by lia. by rewrite in_range_out by lia.
Qed.
Lemma percent_roundtrip s : Forall (fun c => is_scalar c = true) s -> percent_decode (form_encode s) = s.
Proof.
  intros Hs. unfold percent_decode. rewrite ascii_bytes; cycle 1.
  { eapply Forall_impl; [by apply form_encode_chars|]. by intros c [? _]%form_char_spec. }
  assert (percent_decode_bytes (form_encode s) = as_bytes s) as ->; [|by apply lossy_as_bytes].
  apply as_bytes_small in Hs. unfold form_encode. induction Hs as [|b l Hb _ IH]; [done|]. cbn [fmap list_fmap concat].
  by rewrite percent_decode_byte, IH.
Qed.

Lemma split_no c s : c ∉ s -> split c s = [s].
Proof.
  unfold split. induction s as [|x s IH]; [done|]. intros [Hx Hs]%not_elem_of_cons. cbn [split_if].
  destruct (N.eqb_spec c x); [done|]. by rewrite IH.
Qed.
Lemma split_cons c a s : c ∉ a -> split c (a ++ c :: s) = a :: split c s.
Proof.
  unfold split. induction a as [|x a IH]; intros H; cbn [app split_if]; [by rewrite N.eqb_refl|].
  apply not_elem_of_cons in H as [Hx Ha]. destruct (N.eqb_spec c x); [done|]. by rewrite IH.
Qed.
Lemma split_of_join c a l : Forall (fun s => c ∉ s) (a :: l) -> split c (join [c] (a :: l)) = a :: l.
Proof.
  revert a. induction l as [|b l IH]; intros a [Ha Hl]%Forall_cons; [by apply split_no|].
  change (join [c] (a :: b :: l)) with (a ++ c :: join [c] (b :: l)). by rewrite split_cons, IH.
Qed.

Definition valid_text (s : str) : Prop := Forall (fun c => is_scalar c = true) s.
#[local] Abbreviation pair_text := (fun kv : str * str => form_encode kv.1 ++ lit "=" ++ form_encode kv.2).
Lemma pair_chars kv : valid_text kv.1 -> valid_text kv.2 -> Forall (fun c => (c < 128)%N /\ c <> 38%N) (pair_text kv).
Proof.
  intros H1%form_encode_chars H2%form_encode_chars. rewrite !Forall_app. split_and!; [| |].
  - eapply Forall_impl; [done|]. by intros c (? & ? & _)%form_char_spec.
  - by repeat constructor.
  - eapply Forall_impl; [done|]. by intros c (? & ? & _)%form_char_spec.
Qed.
Lemma form_pairs_found fields field : Forall (fun kv => valid_text kv.1 /\ valid_text kv.2) fields ->
  form_pairs field (pair_text <$> fields) = snd <$> find_first (fun kv => str_eqb kv.1 field) fields.
Proof.
  induction 1 as [|kv fields [Hk Hv] _ IH]; [done|]. cbn [fmap list_fmap form_pairs find_first].
  assert (split_once (lit "=") (pair_text kv) = Some (form_encode kv.1, form_encode kv.2)) as ->.
  { apply (split_once_char 61%N). intros Hin. pose proof (form_encode_chars _ Hk) as HF. rewrite Forall_forall in HF. by apply HF, form_char_spec in Hin as (_ & _ & ?). }
  rewrite !percent_roundtrip by done. by destruct (str_eqb kv.1 field).
Qed.

(** C35. A form's field is found as it was written.  In a body made as browsers
    make it, the value of the first field of a name is returned whatever
    characters it has, and [None] exactly when no field has the name. *)
Theorem form_field_found fields field : Forall (fun kv => valid_text kv.1 /\ valid_text kv.2) fields ->
  form_urlencoded_get (form_body fields) field = snd <$> find_first (fun kv => str_eqb kv.1 field) fields.
Proof.
  intros HF. unfold form_urlencoded_get, form_body. destruct fields as [|kv fields]; [done|].
  assert (Hall : Forall (Forall (fun c => (c < 128)%N /\ c <> 38%N)) (pair_text <$> kv :: fields)).
  { apply Forall_fmap. eapply Forall_impl; [exact HF|]. intros x [? ?]. by apply pair_chars. }
  assert (Hascii : Forall (fun c => c < 128)%N (join [38%N] (pair_text <$> kv :: fields))).
  { clear HF. revert Hall. generalize (pair_text <$> kv :: fields). intros l. induction l as [|a l IH]; [constructor|].
    intros [Ha Hl]%Forall_cons. assert (Ha' : Forall (fun c => c < 128)%N a) by (eapply Forall_impl; [exact Ha|]; by intros c [? _]).
    destruct l as [|b l]; [done|]. change (join [38%N] (a :: b :: l)) with (a ++ 38%N :: join [38%N] (b :: l)).
    apply Forall_app. split; [done|]. constructor; [done|]. by apply IH. }
  rewrite <- (ascii_bytes _ Hascii) at 1. rewrite from_utf8_as_bytes by by apply ascii_scalar.
  change (Some ?x ≫= ?f) with (f x). cbn beta. rewrite fmap_cons in *. rewrite split_of_join.
  - by apply (form_pairs_found (kv :: fields)).
  - eapply Forall_impl; [exact Hall|]. intros s Hs Hin. rewrite Forall_forall in Hs. by apply Hs in Hin as [_ ?].
Qed.

(** ** Multipart bodies *)
(** The first [p] in [a ++ p] is the one at the end. *)
Definition ends_first (p a : bytes) : Prop := split_once p (a ++ p) = Some (a, []).
Lemma strip_prefix_long p s r : (length p <= length s)%nat -> strip_prefix p (s ++ r) = (fun x => x ++ r) <$> strip_prefix p s.
Proof.
  revert s. induction p as [|x p IH]; intros [|y s] H; cbn in *; [done..|lia|]. destruct (x =? y)%N; [apply IH; lia|done].
Qed.
Lemma split_once_head p r : split_once p (p ++ r) = Some ([], r).
Proof. destruct (p ++ r) eqn:E; cbn [split_once]; by rewrite (proj2 (strip_prefix_Some p _ r)). Qed.
Lemma split_once_first p a r : ends_first p a -> split_once p (a ++ p ++ r) = Some (a, r).
Proof.
  unfold ends_first. induction a as [|c a IH]; [intros _; exact (split_once_head p r)|]. cbn [app split_once].
  change (c :: a ++ p ++ r) with ((c :: a) ++ p ++ r). rewrite app_assoc, strip_prefix_long by (cbn; rewrite length_app; lia).
  cbn [app]. destruct (strip_prefix p (c :: a ++ p)); [done|]. cbn [fmap option_fmap option_map].
  destruct (split_once p (a ++ p)) as [[x y]|]; [|done]. intros [= -> ->]. by rewrite IH.
Qed.
Section Multipart.
Context {LC : Lowercase}.

Record Part := mkPart { part_headers : bytes; part_body : bytes }.
Definition delimiter (boundary : str) : bytes := lit "--" ++ as_bytes boundary.
Definition part_text (d : bytes) (p : Part) : bytes := d ++ (crlf ++ part_headers p) ++ (crlf ++ crlf) ++ part_body p ++ crlf.
(** A body as RFC 7578 has it *)
Definition multipart_body (d : bytes) (parts : list Part) : bytes := concat (part_text d <$> parts) ++ d ++ lit "--" ++ crlf.
(** No blank line in the headers and no delimiter in the body *)
Definition part_ok (d : bytes) (p : Part) : Prop := ends_first (crlf ++ crlf) (crlf ++ part_headers p) /\ ends_first d (part_body p ++ crlf).

Lemma part_value_crlf b : part_value (b ++ crlf) = Some b.
Proof.
  unfold part_value. rewrite bool_decide_false by by destruct b. rewrite (proj2 (ends_with_spec crlf (b ++ crlf))) by by exists b.
  rewrite length_app. change (length crlf) with 2%nat. replace (length b + 2 - 2)%nat with (length b) by lia. by rewrite take_app_length.
Qed.

Lemma find_first_at d a r : d <> [] -> ends_first d a -> find_subsequence (a ++ d ++ r) d = Some (a, r).
Proof. intros Hd H. unfold find_subsequence. rewrite bool_decide_false by done. by apply split_once_first. Qed.

Lemma multipart_loop d field parts : d <> [] -> Forall (part_ok d) parts -> forall fuel pre, (length parts < fuel)%nat -> ends_first d pre ->
  multipart_parts fuel d field (pre ++ multipart_body d parts) =
    Some ((fun p => from_utf8_lossy (part_body p)) <$> find_first (fun p => names_field field (crlf ++ part_headers p)) parts).
Proof.
  intros Hd HF. induction HF as [|p parts [Hh Hb] _ IH]; intros [|fuel] pre Hfuel Hpre; cbn [length] in Hfuel; [lia| |lia|]; cbn [multipart_parts].
  - unfold multipart_body. cbn [fmap list_fmap concat app]. rewrite find_first_at by done.
    by change (find_subsequence (lit "--" ++ crlf) (crlf ++ crlf)) with (@None (bytes * bytes)).
  - unfold multipart_body. cbn [fmap list_fmap concat]. unfold part_text at 1. rewrite <- !app_assoc. rewrite find_first_at by done.
    rewrite (app_assoc crlf (part_headers p)), (app_assoc crlf crlf). rewrite find_first_at by done.
    rewrite !(app_assoc (part_body p) crlf).
    set (rest := (part_body p ++ crlf) ++ concat (part_text d <$> parts) ++ d ++ lit "--" ++ crlf).
    assert (exists r, find_subsequence rest d = Some (part_body p ++ crlf, r)) as [r ->].
    { unfold rest. destruct parts as [|q parts].
      - eexists. cbn [fmap list_fmap concat app]. by apply find_first_at.
      - eexists. cbn [fmap list_fmap concat]. unfold part_text at 1. rewrite <- !app_assoc. rewrite (app_assoc (part_body p) crlf). by apply find_first_at. }
    cbn [find_first]. destruct (names_field field (crlf ++ part_headers p)); [by rewrite part_value_crlf|]. apply IH; [lia|done].
Qed.

(** C36. The parts of an upload are found as they were sent.  In a well-formed
    body the value of the first part whose headers name the field is
    returned, [None] exactly when no part's do, and nothing panics; the
    loop ends within the length of the body. *)
Theorem multipart_field_found content_type boundary field parts :
  boundary_of content_type = Some boundary -> Forall (part_ok (delimiter boundary)) parts ->
  multipart_field (multipart_body (delimiter boundary) parts) content_type field =
    Some ((fun p => from_utf8_lossy (part_body p)) <$> find_first (fun p => names_field field (crlf ++ part_headers p)) parts).
Proof.
  intros Hb HF. unfold multipart_field. rewrite Hb. apply (multipart_loop (delimiter boundary) field parts ltac:(done) HF _ []).
  - enough (length parts <= length (multipart_body (delimiter boundary) parts))%nat by lia. unfold multipart_body. rewrite length_app.
    enough (length parts <= length (concat (part_text (delimiter boundary) <$> parts)))%nat by lia. clear HF.
    induction parts as [|p parts IH]; [done|]. cbn [fmap list_fmap concat length]. rewrite length_app. unfold part_text at 1. rewrite !length_app. cbn. lia.
  - unfold ends_first. cbn [app]. pose proof (split_once_head (delimiter boundary) []) as H. by rewrite app_nil_r in H.
Qed.

(** The fuel suffices for every body: more of it changes nothing. *)
Lemma multipart_fuel d field : d <> [] -> forall n m text, (length text < n)%nat -> (length text < m)%nat ->
  multipart_parts n d field text = multipart_parts m d field text.
Proof.
  intros Hd. assert (Hlen : forall needle h x r, needle <> [] -> find_subsequence h needle = Some (x, r) -> (length r < length h)%nat).
  { intros needle h x r Hn. unfold find_subsequence. rewrite bool_decide_false by done. revert x. induction h as [|c h IH]; intros x; cbn [split_once].
    - destruct (strip_prefix needle []) eqn:E; [|done]. apply strip_prefix_Some in E. destruct needle; [done|]. done.
    - destruct (strip_prefix needle (c :: h)) eqn:E.
      + intros [= <- <-]. apply strip_prefix_Some, (f_equal length) in E. rewrite length_app in E. destruct needle; [done|]. cbn in *. lia.
      + destruct (split_once needle h) as [[a b]|]; [|done]. intros [= <- <-]. specialize (IH a eq_refl). cbn. lia. }
  induction n as [|n IH]; intros m text Hn Hm; [lia|]. destruct m as [|m]; [lia|]. cbn [multipart_parts].
  destruct (find_subsequence text d) as [[x abs]|] eqn:E1; [|done]. apply Hlen in E1; [|done].
  destruct (find_subsequence abs (crlf ++ crlf)) as [[h rest]|] eqn:E2; [|done]. apply Hlen in E2; [|done].
  destruct (find_subsequence rest d) as [[b y]|]; [|done]. destruct (names_field field h); [done|]. apply IH; lia.
Qed.
End Multipart.

(** ** What reaches the handlers *)
Section Gates.
Context {RF : Rfc3339} {UT : UuidText} {SH : SessionHash} {TH : TokenHash} {LC : Lowercase}.

#[local] Abbreviation KeySpec := (gmap Uuid (str * ApiKeyRecord)).

(** Nothing on the wire sets an extension. *)
Definition from_wire (r : Request) : Prop := rq_user r = None /\ rq_session r = None /\ rq_bearer r = false.

(** The state as the histories of its tables: the sessions created, looked
    up and ended, and the API keys minted and revoked *)
Record tables_of (ops : list SessionOp) (sp : KeySpec) (w : Web) : Prop := {
  to_sessions : wb_sessions w = fold_left session_step ops ∅;
  to_ops : Forall printable_op ops;
  to_keys : refines (wb_keys w) sp }.
Record clocks_ok (e : WebEnv) : Prop := {
  co_session : printable (we_session e); co_key : printable (we_key e); co_csrf : printable (we_csrf e) }.

Lemma get_by_id_id db id u : get_by_id db id = Ok u -> u_id u = id.
Proof.
  unfold get_by_id. destruct (db !! uuid_to_string id) as [row|]; [|done]. cbn. rewrite uuid_roundtrip. cbn.
  destruct (Role_parse _); [|done]. cbn. destruct (parse_from_rfc3339 _); [|done]. cbn. by intros [= <-].
Qed.
Lemma user_by_id_Some e rd id w u : user_by_id e rd id w = Some u <-> we_refused e rd = false /\ get_by_id (wb_users w) id = Ok u.
Proof.
  unfold user_by_id. destruct (we_refused e rd); [naive_solver|]. destruct (get_by_id _ _); cbn; naive_solver.
Qed.

(** A session as the gates see it *)
Lemma live_lookup ops sp w id now : Inj (=) (=) hash_session_id -> tables_of ops sp w -> printable now ->
  (forall s, (Session.get (wb_sessions w) id now).1 = Ok s <-> live_session id ops = Some s /\ now <= s_expires_at s) /\
  tables_of (ops ++ [SGet id now]) sp (with_sessions (Session.get (wb_sessions w) id now).2 w).
Proof.
  intros Hinj [Hs Ho Hk] Hn. split.
  - intros s. rewrite Hs, (session_lifetime ops id now Hinj Ho Hn). destruct (live_session id ops) as [s'|]; [|naive_solver].
    destruct (Z.ltb_spec (s_expires_at s') now); cbn; naive_solver lia.
  - split; [|apply Forall_app; split; [done|by constructor]|done]. rewrite fold_left_app, <- Hs. done.
Qed.

(** What no gate changes *)
Definition rest (w : Web) : Users * option Z := (wb_users w, wb_max_book_mib w).

Definition by_cookie (e : WebEnv) (ops : list SessionOp) (r : Request) (w : Web) (id : Uuid) (s : SessionRecord) (u : UserRecord) : Prop :=
  session_id_from_headers (rq_headers r) = Some id /\ live_session id ops = Some s /\ we_session e <= s_expires_at s /\
  get_by_id (wb_users w) (s_user_id s) = Ok u.
Definition by_key (sp : KeySpec) (r : Request) (w : Web) (u : UserRecord) : Prop := exists token id k,
  header_str (lit "authorization") (rq_headers r) = Some (lit "Bearer " ++ token) /\ sp !! id = Some (token, k) /\
  k_revoked_at k = None /\ get_by_id (wb_users w) (k_user_id k) = Ok u.

Lemma cookie_auth_spec e ops sp r w r' w' : Inj (=) (=) hash_session_id -> clocks_ok e -> tables_of ops sp w ->
  cookie_auth e r w = (r', w') -> rest w' = rest w /\ wb_keys w' = wb_keys w /\
  (r' = r \/ exists id s u, by_cookie e ops r w id s u /\ r' = with_session id (with_user (session_user u) r) /\
     tables_of (ops ++ [SGet id (we_session e)]) sp w').
Proof.
  intros Hinj [Hc _ _] Hw. unfold cookie_auth. destruct (session_id_from_headers (rq_headers r)) as [id|] eqn:Hid; [|intros [= <- <-]; by split_and!; [| |left]].
  destruct (we_refused e ReadSession); [intros [= <- <-]; by split_and!; [| |left]|].
  destruct (live_lookup ops sp w id _ Hinj Hw Hc) as [Hl Ht]. destruct (Session.get _ _ _) as [[s|x] ss]; cbn [fst snd] in *; cbn; cycle 1.
  { intros [= <- <-]. by split_and!; [| |left]. }
  destruct (user_by_id e ReadSessionUser (s_user_id s) (with_sessions ss w)) as [u|] eqn:Hu; intros [= <- <-]; [|by split_and!; [| |left]].
  split_and!; [done..|]. right. apply user_by_id_Some in Hu as [_ Hu]. destruct (proj1 (Hl s) eq_refl) as [? ?]. by exists id, s, u.
Qed.

Lemma bearer_spec e sp headers r w u w' : Inj (=) (=) hash_token -> clocks_ok e -> refines (wb_keys w) sp -> rq_headers r = headers ->
  bearer_user e headers w = (Some u, w') -> rest w' = rest w /\ exists rec, by_key sp r w rec /\ u = session_user rec.
Proof.
  intros Hinj [_ Hc _] HR <-. unfold bearer_user. destruct (header_str _ _) as [auth|] eqn:Ha; [|done].
  change (Some auth ≫= ?f) with (f auth). cbn beta. destruct (strip_prefix (lit "Bearer ") auth) as [token|] eqn:Hs; [|done].
  apply strip_prefix_Some in Hs as ->. destruct (we_refused e ReadKey); [done|].
  destruct (verify_refines (wb_keys w) sp token _ Hinj Hc HR) as [Hv _]. destruct (verify _ _ _) as [[k|x] keys]; cbn [fst snd] in *; [|done].
  cbn. destruct (user_by_id e ReadKeyUser (k_user_id k) (with_keys keys w)) as [rec|] eqn:Hu; [|done]. intros [= <- <-]. split; [done|].
  apply user_by_id_Some in Hu as [_ Hu]. unfold spec_verify in Hv. pose proof (spec_find _ _ token HR) as Hf.
  destruct (find_first _ (map_to_list sp)) as [[id [tok k']]|]; [|done]. destruct Hf as [Hk ->].
  destruct (k_revoked_at k') eqn:Hrev; [done|]. injection Hv as ->. exists rec. split; [|done]. by exists token, id, k'.
Qed.

(** What a request is taken for *)
Inductive taken_for (e : WebEnv) (ops : list SessionOp) (sp : KeySpec) (r : Request) (w : Web) (r' : Request) : Prop :=
  | nobody : rq_user r' = None -> rq_session r' = None -> rq_bearer r' = false -> taken_for e ops sp r w r'
  | cookie_holder id s u : by_cookie e ops r w id s u -> rq_user r' = Some (session_user u) -> rq_session r' = Some id ->
      rq_bearer r' = false -> taken_for e ops sp r w r'
  | key_holder u : by_key sp r w u -> rq_user r' = Some (session_user u) -> rq_session r' = None -> rq_bearer r' = true ->
      rq_path r <> lit "/mcp" -> taken_for e ops sp r w r'.

Definition same_wire (r r' : Request) : Prop :=
  rq_method r' = rq_method r /\ rq_path r' = rq_path r /\ rq_headers r' = rq_headers r /\ rq_body r' = rq_body r.

Lemma session_auth_spec e ops sp r w r' w' : Inj (=) (=) hash_session_id -> Inj (=) (=) hash_token -> clocks_ok e -> tables_of ops sp w ->
  from_wire r -> session_auth e r w = (r', w') ->
  taken_for e ops sp r w r' /\ same_wire r r' /\ rest w' = rest w /\
  (forall id, rq_session r' = Some id -> tables_of (ops ++ [SGet id (we_session e)]) sp w').
Proof.
  intros Hinj Hinj2 Hc Hw (H1 & H2 & H3). unfold session_auth. set (w0 := mkWeb _ _ _ _ _).
  assert (Hw0 : tables_of ops sp w0) by (destruct Hw; by split).
  destruct (cookie_auth e r w0) as [r1 w1] eqn:Hca. destruct (cookie_auth_spec e ops sp r w0 r1 w1 Hinj Hc Hw0 Hca) as (Hu & Hk & Hcase).
  change (rest w0) with (rest w) in Hu.
  destruct Hcase as [->|(id & s & u & Hby & -> & Ht)]; cycle 1.
  { cbn. intros [= <- <-]. split_and!; [by eapply cookie_holder|by split_and!|done|]. by intros id' [= <-]. }
  rewrite H1. cbn [is_some orb]. destruct (str_eqb (rq_path r) (lit "/mcp")) eqn:Hp.
  { intros [= <- <-]. split_and!; [by apply nobody|by split_and!|done|]. rewrite H2. done. }
  destruct (bearer_user e (rq_headers r) w1) as [[u|] w2] eqn:Hb; intros [= <- <-].
  - apply (bearer_spec e sp _ r) in Hb as (Hu2 & rec & Hby & ->); [|done|done|rewrite Hk; by destruct Hw0|done].
    split_and!; [|by split_and!|congruence|cbn; by rewrite H2]. eapply key_holder; [|done|done|done|].
    + destruct Hby as (t & i & k & ? & ? & ? & Hg). exists t, i, k. injection Hu as Hu _. rewrite Hu in Hg. by split_and!.
    + intros E%str_eqb_eq. by rewrite E in Hp.
  - split_and!; [by apply nobody|by split_and!| |rewrite H2; done]. unfold bearer_user in Hb. destruct (header_str _ _ ≫= _); [|by injection Hb as <-].
    destruct (we_refused e ReadKey); [by injection Hb as <-|]. destruct (verify _ _ _) as [v keys]. injection Hb as _ <-. done.
Qed.

(** Where a request carries its CSRF token *)
Inductive carries (r : Request) (w : Web) (token : str) : Prop :=
  | in_header : header_str (lit "x-csrf-token") (rq_headers r) = Some token -> carries r w token
  | in_form body : header_str (lit "x-csrf-token") (rq_headers r) = None -> rq_body r = Some body ->
      Z.of_nat (length body) <= CSRF_FORM_MAX -> form_urlencoded_get body (lit "csrf_token") = Some token -> carries r w token
  | in_multipart body content_type : header_str (lit "x-csrf-token") (rq_headers r) = None -> rq_body r = Some body ->
      Z.of_nat (length body) <= multipart_buffer_cap (rq_path r) (wrap64 ((upload_max_book_mib w + 1) * 1024 * 1024)) ->
      header_str (lit "content-type") (rq_headers r) = Some content_type ->
      multipart_field body content_type (lit "csrf_token") = Some (Some token) -> carries r w token.
Lemma carries_same r w r' w' token : rq_path r = rq_path r' -> rq_headers r = rq_headers r' -> rq_body r = rq_body r' -> rest w = rest w' ->
  carries r w token -> carries r' w' token.
Proof.
  intros Hp Hh Hb [= _ Hm] [H|b H1 H2 H3 H4|b ct H1 H2 H3 H4 H5]; rewrite Hh in *.
  - by apply in_header.
  - eapply in_form; [done| |done|done]. congruence.
  - eapply in_multipart; [done| | |done|done]; [congruence|]. unfold upload_max_book_mib in *. by rewrite <- Hp, <- Hm.
Qed.
(** What goes on is what came, but for the length of a body that was read. *)
Definition goes_on (r r' : Request) : Prop :=
  rq_method r' = rq_method r /\ rq_path r' = rq_path r /\ rq_body r' = rq_body r /\
  (rq_headers r' = rq_headers r \/ rq_headers r' = remove_header (lit "content-length") (rq_headers r)).

Lemma to_bytes_Some body limit b : to_bytes body limit = Some b <-> body = Some b /\ Z.of_nat (length b) <= limit.
Proof.
  unfold to_bytes. destruct body as [x|]; cbn; [|naive_solver]. destruct (Z.leb_spec (Z.of_nat (length x)) limit); naive_solver lia.
Qed.
Lemma presented_spec r w token r' : presented r w = inr (token, r') ->
  carries r w token /\ goes_on r r' /\ rq_user r' = rq_user r /\ rq_session r' = rq_session r /\ rq_bearer r' = rq_bearer r.
Proof.
  unfold presented. destruct (header_str (lit "x-csrf-token") (rq_headers r)) as [t|] eqn:Hh.
  { intros [= -> ->]. split; [by apply in_header|]. split_and!; try done. unfold goes_on. split_and!; try done. by left. }
  destruct (starts_with (lit "application/x-www-form-urlencoded") _).
  - destruct (to_bytes _ _) as [b|] eqn:Hb; [|done]. apply to_bytes_Some in Hb as [Hb Hl].
    destruct (form_urlencoded_get _ _) as [t|] eqn:Ht; [|done]. intros [= -> <-]. split; [by eapply in_form|].
    split_and!; try done. unfold goes_on. split_and!; try done. by right.
  - destruct (header_str (lit "content-type") (rq_headers r)) as [ct|] eqn:Hct; [|done]. cbn [default from_option id]. 
    destruct (starts_with (lit "multipart/form-data") ct); [|done]. destruct (declared_length_too_large _ _); [done|].
    destruct (to_bytes _ _) as [b|] eqn:Hb; [|done]. apply to_bytes_Some in Hb as [Hb Hl].
    destruct (multipart_field _ _ _) as [[t|]|] eqn:Ht; [|done..]. intros [= -> <-]. split; [by eapply in_multipart|].
    split_and!; try done. unfold goes_on. split_and!; try done. by right.
Qed.

Lemma gate_passes e r w r' : require_login_gate e r w = inr r' -> r' = r /\
  (is_public (rq_path r) = true \/ exists u, rq_user r = Some u /\
     (rq_bearer r = true \/ rq_path r = lit "/account" \/ rq_path r = lit "/password" \/
      forall rec, user_by_id e ReadGateUser (su_user_id u) w = Some rec -> u_must_change rec = false)).
Proof.
  unfold require_login_gate. destruct (is_public (rq_path r)); [intros [= <-]; split; [done|by left]|].
  destruct (rq_user r) as [u|] eqn:Hu; [|done]. destruct (_ && _) eqn:Hc; intros [= <-]. split; [done|]. right. exists u. split; [done|].
  destruct (rq_bearer r); [by left|]. destruct (str_eqb (rq_path r) (lit "/account")) eqn:E1; [apply str_eqb_eq in E1; right; by left|].
  destruct (str_eqb (rq_path r) (lit "/password")) eqn:E2; [apply str_eqb_eq in E2; right; right; by left|]. right. right. right.
  intros rec Hr. by rewrite Hr in Hc.
Qed.

Definition login_path (path : str) : Prop := path = lit "/mcp" \/ path = lit "/login" \/ path = lit "/setup".
Lemma exempt_spec r : csrf_exempt r = true <-> is_safe r = true \/ login_path (rq_path r) \/ rq_bearer r = true.
Proof. unfold csrf_exempt, login_path. rewrite !orb_true_iff, !str_eqb_eq. naive_solver. Qed.

Lemma csrf_passes e ops sp r w r' w' : Inj (=) (=) hash_session_id -> clocks_ok e -> (forall id, rq_session r = Some id -> tables_of (ops id) sp w) ->
  csrf_protect e r w = (inr r', w') ->
  goes_on r r' /\ rq_user r' = rq_user r /\ rq_session r' = rq_session r /\ rq_bearer r' = rq_bearer r /\
  (is_safe r = true \/ login_path (rq_path r) \/ rq_bearer r = true \/
   exists id s, rq_session r = Some id /\ live_session id (ops id) = Some s /\ we_csrf e <= s_expires_at s /\ carries r w (s_csrf_token s)).
Proof.
  intros Hinj Hc Hw. unfold csrf_protect. destruct (csrf_exempt r) eqn:Hx.
  { intros [= <- <-]. split_and!; try done; [unfold goes_on; split_and!; try done; by left|]. apply exempt_spec in Hx. naive_solver. }
  destruct (rq_session r) as [id|] eqn:Hid; [|done]. destruct (presented r w) as [a|[token r1]] eqn:Hp; [done|].
  apply presented_spec in Hp as (Hca & Hg & Hu & Hs & Hb). specialize (Hw id eq_refl). unfold verify_and_continue.
  destruct (we_refused e ReadCsrf); [done|]. destruct Hw as [Hss Hops _].
  destruct (csrf_and_roles (ops id) id (we_csrf e) token None Hinj Hops (co_csrf _ Hc)) as [Hv _]. rewrite <- Hss in Hv.
  destruct (verify_csrf (wb_sessions w) id (we_csrf e) token) as [v ss]. cbn [fst] in Hv. subst v.
  destruct (live_session id (ops id)) as [s|] eqn:Hl; [|done]. destruct (Z.ltb_spec (s_expires_at s) (we_csrf e)); [done|].
  destruct (bool_decide (token = s_csrf_token s)) eqn:Ht; [|done]. apply bool_decide_eq_true in Ht as ->. intros [= <- <-].
  split_and!; try done; [congruence|]. right. right. right. exists id, s. split_and!; try done.
Qed.

(** C3. Nothing reaches a handler unguarded.  A request that passes the gates
    arrives as it was sent, but that the content-length of a body that was
    buffered may be dropped, and is one of three: nobody's, and then on a
    public path, and safe unless the path is one of those exempt from the
    CSRF check (/mcp, /login, /setup); the user's of a live session its
    cookie names, who, where the path is not public, may go on without a new
    password, and then the method is safe, the path exempt, or the request
    carries that session's CSRF token while the session lives; or, outside
    /mcp, the user's of an API key that was minted and not revoked. *)
Theorem gates_guard e ops sp r w r' w' : Inj (=) (=) hash_session_id -> Inj (=) (=) hash_token -> clocks_ok e ->
  tables_of ops sp w -> from_wire r -> gates e r w = (inr r', w') ->
  goes_on r r' /\
  ((rq_user r' = None /\ rq_session r' = None /\ rq_bearer r' = false /\ is_public (rq_path r) = true /\
    (is_safe r = true \/ login_path (rq_path r))) \/
   (exists id s u, by_cookie e ops r w id s u /\ rq_user r' = Some (session_user u) /\ rq_session r' = Some id /\ rq_bearer r' = false /\
     (is_public (rq_path r) = true \/ rq_path r = lit "/account" \/ rq_path r = lit "/password" \/ we_refused e ReadGateUser = true \/ u_must_change u = false) /\
     (is_safe r = true \/ login_path (rq_path r) \/ we_csrf e <= s_expires_at s /\ carries r w (s_csrf_token s))) \/
   (exists u, by_key sp r w u /\ rq_user r' = Some (session_user u) /\ rq_session r' = None /\ rq_bearer r' = true /\ rq_path r <> lit "/mcp")).
Proof.
  intros Hinj Hinj2 Hc Hw Hr. unfold gates. destruct (session_auth e r w) as [r1 w1] eqn:Ha.
  destruct (session_auth_spec e ops sp r w r1 w1 Hinj Hinj2 Hc Hw Hr Ha) as (Htaken & (E1 & E2 & E3 & E4) & Hu1 & Ht1).
  destruct (require_login_gate e r1 w1) as [a|r2] eqn:Hg; [done|]. apply gate_passes in Hg as [-> Hg]. intros Hp.
  destruct (csrf_passes e (fun id => ops ++ [SGet id (we_session e)]) sp r1 w1 r' w' Hinj Hc Ht1 Hp) as ((G1 & G2 & G3 & G4) & Hu & Hs & Hb & Hcsrf).
  pose proof Hu1 as [= Hus _]. rewrite E2 in Hg, Hcsrf. assert (Hsafe : is_safe r1 = is_safe r) by (unfold is_safe; by rewrite E1). rewrite Hsafe in Hcsrf.
  split; [unfold goes_on; rewrite G1, G2, G3, <- E3; by split_and!|].
  rewrite Hu, Hs, Hb. destruct Htaken as [T1 T2 T3|id s u Hby T1 T2 T3|u Hby T1 T2 T3 T4]; [left|right; left|right; right].
  - split_and!; [done..| |].
    + destruct Hg as [?|(u & Hn & _)]; [done|congruence].
    + destruct Hcsrf as [?|[?|[?|(id & s & Hn & _)]]]; [by left|by right|congruence|congruence].
  - exists id, s, u. split_and!; [done..| |].
    + destruct Hg as [?|(u' & Hn & Hg)]; [by left|]. rewrite T1 in Hn. injection Hn as <-. destruct Hg as [?|[?|[?|Hg]]]; [congruence|by right; left|by right; right; left|].
      destruct (we_refused e ReadGateUser) eqn:Hre; [by right; right; right; left|]. do 4 right. apply Hg, user_by_id_Some. split; [done|].
      destruct Hby as (_ & _ & _ & Hg'). cbn. rewrite (get_by_id_id _ _ _ Hg'), Hus. done.
    + destruct Hcsrf as [?|[?|[?|(id' & s' & Hn & Hl & Hexp & Hca)]]]; [by left|by right; left|congruence|]. do 2 right.
      rewrite T2 in Hn. injection Hn as <-. destruct Hby as (_ & Hlive & Hin & _). unfold live_session in Hl. rewrite fold_left_app in Hl.
      change (fold_left (session_after id) ops None) with (live_session id ops) in Hl. rewrite Hlive in Hl. cbn in Hl. rewrite decide_True in Hl by done.
      destruct (Z.ltb_spec (s_expires_at s) (we_session e)); [done|]. injection Hl as <-. split; [done|].
      by apply (carries_same r1 w1).
  - exists u. by split_and!.
Qed.

(** A browser with a live session is let through: where the reads of the
    database succeed, a request whose cookie names a live session of a
    known user who need not change the password reaches the handler as
    that user, with any method that is safe, and with any other if its
    header carries the session's token. *)
Theorem browser_admitted e ops sp r w id s u : Inj (=) (=) hash_session_id -> clocks_ok e -> tables_of ops sp w -> from_wire r ->
  (forall rd, we_refused e rd = false) -> by_cookie e ops r w id s u -> u_must_change u = false ->
  (is_safe r = true \/ header_str (lit "x-csrf-token") (rq_headers r) = Some (s_csrf_token s) /\ we_csrf e <= s_expires_at s) ->
  exists w', gates e r w = (inr (with_session id (with_user (session_user u) r)), w') /\ rest w' = rest w.
Proof.
  intros Hinj Hc Hw (Hr1 & Hr2 & Hr3) Href (Hid & Hl & Hin & Hu) Hmc Hcsrf. unfold gates, session_auth. set (w0 := mkWeb _ _ _ _ _).
  assert (Hw0 : tables_of ops sp w0) by (destruct Hw; by split).
  destruct (live_lookup ops sp w0 id _ Hinj Hw0 (co_session _ Hc)) as [Hget Ht].
  unfold cookie_auth. rewrite Hid, Href. pose proof (proj2 (Hget s) (conj Hl Hin)) as Hs.
  destruct (Session.get (wb_sessions w0) id (we_session e)) as [v ss]. cbn [fst snd] in Hs, Ht. subst v. cbn [result_ok].
  change (Some s ≫= ?f) with (f s). cbn beta. unfold user_by_id at 1. rewrite Href. cbn [wb_users with_sessions w0].
  rewrite Hu. cbn [result_ok is_some rq_user with_session with_user orb]. set (r1 := with_session id _).
  assert (Hgate : require_login_gate e r1 (with_sessions ss w0) = inr r1).
  { unfold require_login_gate. destruct (is_public _); [done|]. cbn [rq_user r1 with_session with_user]. unfold user_by_id. rewrite Href.
    cbn [wb_users with_sessions w0 su_user_id session_user]. rewrite (get_by_id_id _ _ _ Hu), Hu. cbn [result_ok]. by rewrite Hmc, andb_false_r. }
  rewrite Hgate. unfold csrf_protect. destruct (csrf_exempt r1) eqn:Hx; [by eexists|].
  destruct Hcsrf as [Hsafe|[Hh Hexp]].
  { rewrite (proj2 (exempt_spec r1)) in Hx; [done|by left]. }
  cbn [rq_session r1 with_session with_user]. unfold presented. cbn [rq_headers r1 with_session with_user]. rewrite Hh.
  unfold verify_and_continue. rewrite Href. destruct Ht as [Hss Hops _].
  destruct (csrf_and_roles _ id (we_csrf e) (s_csrf_token s) None Hinj Hops (co_csrf _ Hc)) as [Hv _]. rewrite <- Hss in Hv.
  destruct (verify_csrf _ id (we_csrf e) (s_csrf_token s)) as [v ss2]. cbn [fst] in Hv. subst v.
  unfold live_session. rewrite fold_left_app. change (fold_left (session_after id) ops None) with (live_session id ops). rewrite Hl. cbn [fold_left session_after].
  rewrite decide_True by done. destruct (Z.ltb_spec (s_expires_at s) (we_session e)); [lia|]. destruct (Z.ltb_spec (s_expires_at s) (we_csrf e)); [lia|].
  rewrite bool_decide_true by done. by eexists.
Qed.

(** ** The headers of a response *)
Lemma insert_header_get name value headers n : find_first (fun kv => str_eqb kv.1 n) (insert_header name value headers) =
  if str_eqb (lit name) n then Some (lit name, value) else find_first (fun kv => str_eqb kv.1 n) headers.
Proof.
  unfold insert_header. cbn [find_first fst]. destruct (str_eqb (lit name) n) eqn:E; [done|]. unfold remove_header.
  induction headers as [|[k v] headers IH]; [done|]. cbn [retain fst]. destruct (str_eqb k (lit name)) eqn:Ek; cbn [negb find_first fst].
  - rewrite IH. apply str_eqb_eq in Ek as ->. by rewrite E.
  - destruct (str_eqb k n); [done|]. exact IH.
Qed.

Definition guarded_headers : list str :=
  lit <$> ["content-security-policy"; "x-frame-options"; "x-content-type-options"; "referrer-policy"; "strict-transport-security"]%string.
(** Whatever a handler sets, the five headers of a response are the
    gates' own, and the others the handler's. *)
Lemma security_headers_win id h1 h2 name :
  (name ∈ guarded_headers -> find_first (fun kv => str_eqb kv.1 name) (security_headers id h1) =
                             find_first (fun kv => str_eqb kv.1 name) (security_headers id h2)) /\
  (name ∉ guarded_headers -> find_first (fun kv => str_eqb kv.1 name) (security_headers id h1) = find_first (fun kv => str_eqb kv.1 name) h1).
Proof.
  unfold security_headers. rewrite !insert_header_get. unfold guarded_headers.
  repeat match goal with |- context [str_eqb (lit ?n) name] => let E := fresh in destruct (str_eqb (lit n) name) eqn:E;
    [apply str_eqb_eq in E as <-; split; [done|]; intros Hn; exfalso; apply Hn; apply (bool_decide_unpack _); by vm_compute|] end.
  split; [|done]. cbn [fmap list_fmap]. rewrite !elem_of_cons. intros Hn. exfalso.
  repeat (destruct Hn as [->|Hn]; [match goal with E : str_eqb ?x ?x = false |- _ => by rewrite (proj2 (str_eqb_eq x x) eq_refl) in E end|]). by apply elem_of_nil in Hn.
Qed.
End Gates.

(** Only plain names of the assets directory are read. *)
Lemma asset_confined files path mime b : serve_asset files path = (200, mime, b) ->
  files path = Some b /\ 47%N ∉ path /\ 92%N ∉ path /\ contains (lit "..") path = false.
Proof.
  unfold serve_asset, asset_name_ok. destruct (contains (lit "..") path) eqn:E1; [done|]. destruct (contains (lit "/") path) eqn:E2; [done|]. change (lit "/") with [47%N] in E2.
  destruct (contains [92%N] path) eqn:E3; [done|]. cbn [orb negb]. destruct (files path) as [x|]; [|done]. intros [= _ <-].
  split_and!; [done| | |done]; intros Hin%contains_char; congruence.
Qed.

(** ** Runs *)
Module WebDemo.
#[local] Existing Instances char_clock char_uuid plain_session_hash plain_token_hash ascii_lowercase.

Definition plain_body (s : string) : option bytes := Some (lit s).
Definition crs (lines : list string) : bytes := concat ((fun l => lit l ++ crlf) <$> lines).
Definition field_of (body : bytes) : option (option str) := multipart_field body (lit "multipart/form-data; boundary=b") (lit "csrf_token").
Definition quoted (name : string) : str := [34%N] ++ lit name ++ [34%N].
Definition disposition (name : string) : bytes := lit "Content-Disposition: form-data; name=" ++ quoted name.
Definition file_disposition (name file : string) : bytes := disposition name ++ lit "; filename=" ++ quoted file.

Example field_read : field_of (multipart_body (delimiter (lit "b"))
  [mkPart (file_disposition "file" "a.md") (lit "text"); mkPart (disposition "csrf_token") (lit "t")]) = Some (Some (lit "t")).
Proof. vm_compute. reflexivity. Qed.
(** A file that is called like the field is taken for it. *)
Example filename_taken : field_of (multipart_body (delimiter (lit "b"))
  [mkPart (file_disposition "file" "csrf_token") (lit "text"); mkPart (disposition "csrf_token") (lit "t")]) = Some (Some (lit "text")).
Proof. vm_compute. reflexivity. Qed.
(** A named part whose blank line is followed by the delimiter at once:
    the slice of its value ends before it starts. *)
Example empty_part_panics : field_of (lit "--b" ++ crlf ++ disposition "csrf_token" ++ crlf ++ crlf ++ lit "--b--") = None.
Proof. vm_compute. reflexivity. Qed.

(** A pair without [=] hides the fields after it, and a sign passes for a
    hexadecimal digit. *)
Example pair_without_equals : form_urlencoded_get (lit "draft&csrf_token=t") (lit "csrf_token") = None /\
  form_urlencoded_get (lit "csrf_token=t&draft") (lit "csrf_token") = Some (lit "t").
Proof. split; vm_compute; reflexivity. Qed.
Example signed_escape : percent_decode (lit "%+5") = [5%N].
Proof. vm_compute. reflexivity. Qed.

(** Only the first of several cookie fields is read. *)
Example two_cookie_fields :
  session_id_from_headers [(lit "cookie", lit "theme=dark; myc2_session=A")] = Some 65%N /\
  session_id_from_headers [(lit "cookie", lit "theme=dark"); (lit "cookie", lit "myc2_session=A")] = None.
Proof. split; vm_compute; reflexivity. Qed.

(** ** A user and a session *)
Definition people (must_change : Z) : Users :=
  {[uuid_to_string 5%N := mkUserDbRow (lit "ann") (lit "ann@x") (lit "user") (lit "local") None [] must_change None (to_rfc3339 3) (to_rfc3339 3)]}.
Definition ops : list SessionOp := [SCreate true 65%N 66%N 5%N 100 50].
Definition web (must_change : Z) : Web := mkWeb (fold_left session_step ops ∅) ∅ (people must_change) None 0.
Definition at_time (refused : WebRead -> bool) (t : Z) : WebEnv := mkWebEnv refused t t t.
Definition calm : WebEnv := at_time (fun _ => false) 120.
Definition request (m : Method) (path : string) (headers : list (string * string)) : Request :=
  mkRequest m (lit path) ((fun kv => (lit kv.1, lit kv.2)) <$> headers) (Some []) None None false.
Definition cookie : string * string := ("cookie", "myc2_session=A")%string.
Definition token : string * string := ("x-csrf-token", "myc2-csrf-B")%string.

Definition verdict (e : WebEnv) (must_change : Z) (r : Request) : option Answer + option SessionUser :=
  match (gates e r (web must_change)).1 with inl a => inl (Some a) | inr r => inr (rq_user r) end.
Definition ann : SessionUser := mkSessionUser 5%N (lit "ann") User.
Example gate_runs :
  verdict calm 0 (request GET "/search" [cookie]) = inr (Some ann) /\
  verdict calm 0 (request GET "/search" []) = inl (Some (ARedirect (lit "/login"))) /\
  verdict calm 0 (request POST "/concept" [cookie]) = inl (Some missing_token) /\
  verdict calm 0 (request POST "/concept" [cookie; ("x-csrf-token", "guess")%string]) = inl (Some (AStatus 403 (lit "CSRF token mismatch"))) /\
  verdict calm 0 (request POST "/concept" [cookie; token]) = inr (Some ann) /\
  verdict (at_time (fun _ => false) 151) 0 (request POST "/concept" [cookie; token]) = inl (Some (ARedirect (lit "/login"))) /\
  verdict calm 1 (request GET "/search" [cookie]) = inl (Some (ARedirect (lit "/account?forced=1"))) /\
  verdict calm 1 (request GET "/account" [cookie]) = inr (Some ann).
Proof. split_and!; vm_compute; reflexivity. Qed.

(** Where the gate cannot read the user, a forced change is not asked. *)
Example unread_user_passes :
  verdict (at_time (fun rd => match rd with ReadGateUser => true | _ => false end) 120) 1 (request GET "/search" [cookie]) = inr (Some ann).
Proof. vm_compute. reflexivity. Qed.

Lemma demo_clocks : clocks_ok calm.
Proof. split; unfold printable, max_instant; cbn; lia. Qed.
Lemma demo_tables must_change : tables_of ops ∅ (web must_change).
Proof. split; [done| |apply refines_empty]. repeat constructor; unfold printable, max_instant; cbn; lia. Qed.
Lemma demo_token_inj : Inj (=) (=) (@hash_token plain_token_hash).
Proof. by intros a b. Qed.
Definition posted : Request := request POST "/concept" [cookie; token].
Definition is_inr {A B} (x : A + B) : bool := match x with inl _ => false | inr _ => true end.

Lemma gates_guard_witness : exists r' w', gates calm posted (web 0) = (inr r', w') /\ goes_on posted r' /\
  exists s, live_session 65%N ops = Some s /\ carries posted (web 0) (s_csrf_token s).
Proof.
  assert (Hp : is_inr (gates calm posted (web 0)).1 = true) by (vm_compute; reflexivity).
  destruct (gates calm posted (web 0)) as [[a|r'] w'] eqn:E; [discriminate Hp|]. exists r', w'. split; [reflexivity|].
  destruct (gates_guard calm ops ∅ posted (web 0) r' w' plain_session_hash_inj demo_token_inj demo_clocks (demo_tables 0)
    (conj eq_refl (conj eq_refl eq_refl)) E) as [Hg Hcase]. split; [exact Hg|].
  destruct Hcase as [(_ & _ & _ & Hpub & _)|[(id & s & u & (Hid & Hl & _) & _ & _ & _ & _ & Hc)|(u & (t & i & k & Ha & _) & _)]].
  - exfalso. vm_compute in Hpub. discriminate Hpub.
  - assert (Hid' : session_id_from_headers (rq_headers posted) = Some 65%N) by (vm_compute; reflexivity). rewrite Hid' in Hid. injection Hid as <-.
    exists s. split; [exact Hl|]. destruct Hc as [Hs|[[Hx|[Hx|Hx]]|[_ Hc]]]; [exfalso; vm_compute in Hs; discriminate Hs| | | |exact Hc];
      exfalso; vm_compute in Hx; discriminate Hx.
  - exfalso. vm_compute in Ha. discriminate Ha.
Defined.

Definition ann_record : UserRecord := mkUser 5%N (lit "ann") (lit "ann@x") User (lit "local") None [] false None 3.
Lemma browser_admitted_witness : exists w', gates calm posted (web 0) = (inr (with_session 65%N (with_user ann posted)), w').
Proof.
  destruct (browser_admitted calm ops ∅ posted (web 0) 65%N (mkSession 65%N 5%N (lit "myc2-csrf-B") 150) ann_record
    plain_session_hash_inj demo_clocks (demo_tables 0) (conj eq_refl (conj eq_refl eq_refl)) (fun _ => eq_refl)) as (w' & H & _).
  - split; [vm_compute; reflexivity|]. split; [vm_compute; reflexivity|]. split; [cbn; lia|vm_compute; reflexivity].
  - reflexivity.
  - right. split; [vm_compute; reflexivity|cbn; lia].
  - exists w'. exact H.
Defined.

Lemma form_field_found_witness : form_urlencoded_get (form_body [(lit "a b", lit "&=%"); (lit "csrf_token", lit "x+y")]) (lit "csrf_token") = Some (lit "x+y").
Proof.
  rewrite (form_field_found [(lit "a b", lit "&=%"); (lit "csrf_token", lit "x+y")] (lit "csrf_token")); [vm_compute; reflexivity|].
  repeat constructor.
Defined.

Lemma multipart_field_found_witness : field_of (multipart_body (delimiter (lit "b"))
  [mkPart (file_disposition "file" "a.md") (lit "text"); mkPart (disposition "csrf_token") (lit "t")]) = Some (Some (lit "t")).
Proof.
  unfold field_of. rewrite (multipart_field_found (lit "multipart/form-data; boundary=b") (lit "b") (lit "csrf_token")
    [mkPart (file_disposition "file" "a.md") (lit "text"); mkPart (disposition "csrf_token") (lit "t")]).
  - vm_compute. reflexivity.
  - vm_compute. reflexivity.
  - repeat constructor; vm_compute; reflexivity.
Defined.
End WebDemo.
