(* ===== verification/Queue.v ===== *)
(** * The mutation queue

    [crates/mycelium-store/src/mutation_queue.rs] and the queue types of
    [models.rs]: metadata rows of write-later items.  The table is a map
    from the id to the row; its [tool] and [status] columns are constrained
    by CHECK clauses to the values of [as_str], so they are kept as the
    enumerations; timestamps are the stored strings.  Every SQL statement is
    one atomic step; what other connections do between two statements of an
    operation is an explicit argument where it matters.  Deleting a user
    (which cascades to the rows) is not modelled. *)
From S2P Require Import Prelude Text Clock.
Open Scope Z_scope.

Inductive QueueTool := Add | Update | Maintain.
Inductive QueueStatus := Staging | Pending | Running | Done | Dead.

#[export] Instance QueueTool_eq_dec : EqDecision QueueTool.
Proof. solve_decision. Defined.
#[export] Instance QueueStatus_eq_dec : EqDecision QueueStatus.
Proof. solve_decision. Defined.

Definition QueueTool_as_str (t : QueueTool) : str :=
  match t with Add => lit "add" | Update => lit "update" | Maintain => lit "maintain" end.
Definition QueueTool_from_str (s : str) : option QueueTool :=
  if str_eqb s (lit "add") then Some Add
  else if str_eqb s (lit "update") then Some Update
  else if str_eqb s (lit "maintain") then Some Maintain else None.

Definition QueueStatus_as_str (s : QueueStatus) : str :=
  match s with
  | Staging => lit "staging" | Pending => lit "pending" | Running => lit "running"
  | Done => lit "done" | Dead => lit "dead"
  end.
Definition QueueStatus_from_str (s : str) : option QueueStatus :=
  if str_eqb s (lit "staging") then Some Staging
  else if str_eqb s (lit "pending") then Some Pending
  else if str_eqb s (lit "running") then Some Running
  else if str_eqb s (lit "done") then Some Done
  else if str_eqb s (lit "dead") then Some Dead else None.

Record QueueRow := mkQueueRow {
  q_user : Uuid; q_tool : QueueTool; q_status : QueueStatus; q_attempts : Z; q_detail : str;
  q_created_at : str; q_updated_at : str; q_next_retry_at : option str;
  q_final_paths : option str; q_source : str }.
Abbreviation QueueRows := (gmap Uuid QueueRow) (only parsing).

Record MutationQueueItem := mkItem {
  i_id : Uuid; i_user : Uuid; i_tool : QueueTool; i_status : QueueStatus; i_attempts : Z;
  i_detail : str; i_created_at : str; i_updated_at : str; i_next_retry_at : option str;
  i_final_paths : option str; i_source : str }.

Inductive QueueError := QCapacity | QDb.

(** [serde_json::to_string] of a list of paths *)
Class PathsJson := { paths_to_json : list str -> str }.

Section Queue.
Context {RF : Rfc3339} {PJ : PathsJson}.

(** ** Statements *)
Definition enqueue (rows : QueueRows) (id user_id : Uuid) (tool : QueueTool) (source : str) (now : Z)
    : result Uuid QueueError * QueueRows :=
  match rows !! id with
  | Some _ => (Err QDb, rows)
  | None =>
      (Ok id, <[id := mkQueueRow user_id tool Staging 0 [] (to_rfc3339 now) (to_rfc3339 now) None None source]> rows)
  end.

Definition is_open (r : QueueRow) : bool :=
  match q_status r with Staging | Pending | Running => true | _ => false end.
Definition open_count (rows : QueueRows) (user_id : Uuid) : nat :=
  length (retain (fun kv => (q_user kv.2 =? user_id)%N && is_open kv.2) (map_to_list rows)).

(** [enqueue_capped] is two statements, the COUNT and the INSERT: [between]
    is what other connections do in between, [refused] which of the two the
    database refuses. *)
Definition enqueue_capped (refused : nat -> bool) (between : QueueRows -> QueueRows) (rows : QueueRows) (id user_id : Uuid)
    (tool : QueueTool) (cap : Z) (source : str) (now : Z) : result Uuid QueueError * QueueRows :=
  if refused 0%nat then (Err QDb, rows)
  else if cap <=? Z.of_nat (open_count rows user_id) then (Err QCapacity, rows)
  else
    let rows := between rows in
    if refused 1%nat then (Err QDb, rows) else enqueue rows id user_id tool source now.

(** Setting columns of one row *)
Definition set_row (rows : QueueRows) (id : Uuid) (f : QueueRow -> QueueRow) : QueueRows := alter f id rows.
Definition update_row (r : QueueRow) (status : QueueStatus) (attempts : Z) (detail : str) (now : Z)
    (next : option str) (paths : option str) : QueueRow :=
  mkQueueRow (q_user r) (q_tool r) status attempts detail (q_created_at r) (to_rfc3339 now) next paths (q_source r).

Definition activate_row (now : Z) (r : QueueRow) : QueueRow :=
  match q_status r with
  | Staging | Pending => update_row r Pending (q_attempts r) (q_detail r) now (q_next_retry_at r) (q_final_paths r)
  | _ => r
  end.
Definition activate (rows : QueueRows) (id : Uuid) (now : Z) : QueueRows := set_row rows id (activate_row now).

(** The SELECT of [claim_due_for_user] *)
Definition is_due (now : Z) (r : QueueRow) : bool :=
  bool_decide (q_status r = Pending) &&
  match q_next_retry_at r with None => true | Some t => text_le t (to_rfc3339 now) end.
Definition by_created (a b : Uuid * QueueRow) : comparison := str_cmp (q_created_at a.2) (q_created_at b.2).
Definition due_candidates (rows : QueueRows) (user_id : Uuid) (now : Z) : list Uuid :=
  take 8 (fst <$> sort_by by_created
    (retain (fun kv => (q_user kv.2 =? user_id)%N && is_due now kv.2) (map_to_list rows))).

(** The conditional UPDATE, and whether it changed a row *)
Definition claim_row (now : Z) (r : QueueRow) : QueueRow :=
  update_row r Running (q_attempts r + 1) (q_detail r) now (q_next_retry_at r) (q_final_paths r).
Definition try_claim (rows : QueueRows) (id : Uuid) (now : Z) : bool * QueueRows :=
  match rows !! id with
  | Some r =>
      if bool_decide (q_status r = Pending) then
        (true, <[id := claim_row now r]> rows)
      else (false, rows)
  | None => (false, rows)
  end.

(** [u32::try_from(attempts).unwrap_or(0)] *)
Definition attempts_u32 (n : Z) : Z := if (0 <=? n) && (n <=? u32_max) then n else 0.

Definition queue_item (rows : QueueRows) (user_id id : Uuid) : option MutationQueueItem :=
  match rows !! id with
  | Some r =>
      if (q_user r =? user_id)%N then
        Some (mkItem id (q_user r) (q_tool r) (q_status r) (attempts_u32 (q_attempts r)) (q_detail r)
                (q_created_at r) (q_updated_at r) (q_next_retry_at r) (q_final_paths r) (q_source r))
      else None
  | None => None
  end.

(** [claim_due_for_user]: the SELECT, a conditional UPDATE per candidate,
    and the lookup of the claimed row; [refused] is which of them the
    database refuses, [others k] what other connections do before the
    [k]-th statement after the SELECT. *)
Inductive ClaimStmt := CCandidates | CClaim (k : nat) | CItem.
Inductive Claim := Claimed (item : MutationQueueItem) | NothingDue | ClaimError | ClaimPanic.
Fixpoint claim_loop (refused : ClaimStmt -> bool) (others : nat -> QueueRows -> QueueRows) (k : nat) (rows : QueueRows)
    (user_id : Uuid) (now : Z) (candidates : list Uuid) : Claim * QueueRows :=
  match candidates with
  | [] => (NothingDue, rows)
  | id :: candidates =>
      let rows := others k rows in
      if refused (CClaim k) then (ClaimError, rows)
      else
        let '(won, rows) := try_claim rows id now in
        if won then
          let rows := others (S k) rows in
          if refused CItem then (ClaimError, rows)
          else match queue_item rows user_id id with
               | Some item => (Claimed item, rows)
               | None => (ClaimPanic, rows)
               end
        else claim_loop refused others (S k) rows user_id now candidates
  end.
Definition claim_due_for_user (refused : ClaimStmt -> bool) (others : nat -> QueueRows -> QueueRows) (rows : QueueRows)
    (user_id : Uuid) (now : Z) : Claim * QueueRows :=
  if refused CCandidates then (ClaimError, rows)
  else claim_loop refused others 0 rows user_id now (due_candidates rows user_id now).

Definition done_row (paths : list str) (detail : str) (now : Z) (r : QueueRow) : QueueRow :=
  update_row r Done (q_attempts r) detail now None (Some (paths_to_json paths)).
Definition failed_row (next_retry_at detail : str) (now : Z) (r : QueueRow) : QueueRow :=
  update_row r Pending (q_attempts r) detail now (Some next_retry_at) (q_final_paths r).
Definition dead_row (detail : str) (now : Z) (r : QueueRow) : QueueRow :=
  update_row r Dead (q_attempts r) detail now None (q_final_paths r).

Definition mark_done (rows : QueueRows) (id : Uuid) (paths : list str) (detail : str) (now : Z) : QueueRows :=
  set_row rows id (done_row paths detail now).
Definition mark_failed (rows : QueueRows) (id : Uuid) (next_retry_at detail : str) (now : Z) : QueueRows :=
  set_row rows id (failed_row next_retry_at detail now).
Definition mark_dead (rows : QueueRows) (id : Uuid) (detail : str) (now : Z) : QueueRows :=
  set_row rows id (dead_row detail now).

(** [queue_users_with_due]: grouped by user, by the oldest due item *)
Definition min_created (rows : list (Uuid * QueueRow)) (user_id : Uuid) : str :=
  match sort_by by_created (retain (fun kv => (q_user kv.2 =? user_id)%N) rows) with
  | kv :: _ => q_created_at kv.2
  | [] => []
  end.
Definition queue_users_with_due (rows : QueueRows) (now : Z) : list Uuid :=
  let due := retain (fun kv => is_due now kv.2) (map_to_list rows) in
  sort_by (fun u v => str_cmp (min_created due u) (min_created due v))
    (remove_dups ((fun kv => q_user kv.2) <$> due)).

Definition rows_with_status (rows : QueueRows) (status : QueueStatus) : list (option MutationQueueItem) :=
  (fun kv => queue_item rows (q_user kv.2) kv.1) <$>
    sort_by by_created (retain (fun kv => bool_decide (q_status kv.2 = status)) (map_to_list rows)).
Definition staging_rows (rows : QueueRows) : list MutationQueueItem := omap id (rows_with_status rows Staging).
Definition running_rows (rows : QueueRows) : list MutationQueueItem := omap id (rows_with_status rows Running).

(** The boot sweep's UPDATE ([queue_worker.rs]). *)
Definition recover_row (now : Z) (r : QueueRow) : QueueRow :=
  match q_status r with
  | Running => update_row r Pending (q_attempts r) (lit "interrupted by restart") now None (q_final_paths r)
  | _ => r
  end.
Definition recover_running (rows : QueueRows) (id : Uuid) (now : Z) : QueueRows :=
  set_row rows id (recover_row now).

(** ** Histories of statements *)
Inductive QueueOp :=
  | QEnqueue (id user_id : Uuid) (tool : QueueTool) (source : str) (now : Z)
  | QActivate (id : Uuid) (now : Z)
  | QClaim (id : Uuid) (now : Z)
  | QDone (id : Uuid) (paths : list str) (detail : str) (now : Z)
  | QFailed (id : Uuid) (next_retry_at detail : str) (now : Z)
  | QDead (id : Uuid) (detail : str) (now : Z)
  | QRecover (id : Uuid) (now : Z).

Definition queue_step (rows : QueueRows) (o : QueueOp) : QueueRows :=
  match o with
  | QEnqueue id u t s now => (enqueue rows id u t s now).2
  | QActivate id now => activate rows id now
  | QClaim id now => (try_claim rows id now).2
  | QDone id p d now => mark_done rows id p d now
  | QFailed id n d now => mark_failed rows id n d now
  | QDead id d now => mark_dead rows id d now
  | QRecover id now => recover_running rows id now
  end.
Definition queue_run (rows : QueueRows) (ops : list QueueOp) : QueueRows := fold_left queue_step ops rows.

(** The claim of [id] wins in state [rows]. *)
Definition wins (rows : QueueRows) (id : Uuid) : Prop := exists r, rows !! id = Some r /\ q_status r = Pending.
#[global] Instance wins_dec rows id : Decision (wins rows id).
Proof.
  destruct (rows !! id) as [r|] eqn:E.
  - destruct (decide (q_status r = Pending)); [left; by exists r|right; by intros (r' & H & ?); congruence].
  - right. by intros (r' & H & ?); congruence.
Defined.

(** The winning claims of [id] in a history. *)
Fixpoint claims (rows : QueueRows) (id : Uuid) (ops : list QueueOp) : nat :=
  match ops with
  | [] => 0
  | o :: ops =>
      (match o with
       | QClaim id' _ => if decide (id' = id) then if decide (wins rows id) then 1 else 0 else 0
       | _ => 0
       end + claims (queue_step rows o) id ops)%nat
  end.

(** The operations that give an item back. *)
Definition releases (id : Uuid) (o : QueueOp) : Prop :=
  match o with QFailed id' _ _ _ | QRecover id' _ => id' = id | _ => False end.
#[global] Instance releases_dec id o : Decision (releases id o).
Proof. destruct o; simpl; apply _. Defined.

(** ** Claiming *)
Lemma due_list_spec rows user_id now id r :
  (id, r) ∈ sort_by by_created
    (retain (fun kv => (q_user kv.2 =? user_id)%N && is_due now kv.2) (map_to_list rows)) <->
  rows !! id = Some r /\ q_user r = user_id /\ is_due now r = true.
Proof.
  rewrite sort_by_perm, list_elem_of_In, filter_In, <- list_elem_of_In, elem_of_map_to_list. simpl.
  rewrite andb_true_iff, N.eqb_eq. done.
Qed.

Lemma by_created_total P : TotalOn by_created P.
Proof.
  split; unfold ordered, by_created; intros.
  - by apply (total_cmp _ _ (str_cmp_total (fun _ => True))).
  - by eapply (trans_cmp _ _ (str_cmp_total (fun _ => True))).
Qed.

Lemma is_due_pending now r : is_due now r = true -> q_status r = Pending.
Proof. unfold is_due. rewrite andb_true_iff. intros [H _]. by apply bool_decide_eq_true in H. Qed.

Lemma try_claim_pending rows id now r : rows !! id = Some r -> q_status r = Pending ->
  try_claim rows id now =
    (true, <[id := claim_row now r]> rows).
Proof. intros H Hp. unfold try_claim. by rewrite H, bool_decide_true. Qed.

(** Without interference the first candidate is claimed. *)
Lemma claim_first refused rows user_id now id r rest :
  rows !! id = Some r -> q_status r = Pending -> q_user r = user_id ->
  let rows' := <[id := claim_row now r]> rows in
  exists item, queue_item rows' user_id id = Some item /\
    claim_loop refused (fun _ r => r) 0 rows user_id now (id :: rest) =
      if refused (CClaim 0) then (ClaimError, rows) else (if refused CItem then ClaimError else Claimed item, rows').
Proof.
  intros Hr Hp Hu rows'. cbn [claim_loop]. rewrite (try_claim_pending _ _ _ _ Hr Hp). fold rows'.
  unfold queue_item, rows'. rewrite lookup_insert_eq. cbn [q_user claim_row update_row]. rewrite Hu, N.eqb_refl.
  eexists. split; [done|]. by destruct (refused (CClaim 0)), (refused CItem).
Qed.

Lemma queue_item_user rows user_id id item : queue_item rows user_id id = Some item -> i_user item = user_id.
Proof.
  unfold queue_item. destruct (rows !! id) as [r|]; [|done].
  destruct (N.eqb_spec (q_user r) user_id); [|done]. by intros [= <-].
Qed.

Lemma claim_loop_user refused others k rows user_id now cands item rows' :
  claim_loop refused others k rows user_id now cands = (Claimed item, rows') -> i_user item = user_id.
Proof.
  revert k rows. induction cands as [|id cands IH]; intros k rows; simpl; [done|].
  destruct (refused _); [done|]. destruct (try_claim _ _ _) as [[] rows1]; [|apply IH].
  destruct (refused _); [done|]. unfold queue_item. destruct (_ !! id) as [r|]; [|done]. destruct (N.eqb_spec (q_user r) user_id); [|done].
  by intros [= <- _].
Qed.

Lemma users_with_due_spec rows now u :
  u ∈ queue_users_with_due rows now <-> exists id r, rows !! id = Some r /\ q_user r = u /\ is_due now r = true.
Proof.
  unfold queue_users_with_due. rewrite sort_by_perm, elem_of_remove_dups, list_elem_of_fmap. split.
  - intros ([id r] & -> & Hin). rewrite list_elem_of_In, filter_In, <- list_elem_of_In, elem_of_map_to_list in Hin.
    exists id, r. naive_solver.
  - intros (id & r & Hr & <- & Hd). exists (id, r). split; [done|].
    by rewrite list_elem_of_In, filter_In, <- list_elem_of_In, elem_of_map_to_list.
Qed.

(** The claim without interference: nothing is due, or the user's oldest
    due item is claimed, or a statement was refused, and then that item may
    have been left running. *)
Definition oldest_due (rows : QueueRows) (user_id : Uuid) (now : Z) (id : Uuid) (r : QueueRow) : Prop :=
  rows !! id = Some r /\ q_user r = user_id /\ is_due now r = true /\
  forall id' r', rows !! id' = Some r' -> q_user r' = user_id -> is_due now r' = true ->
    str_cmp (q_created_at r) (q_created_at r') <> Gt.

Lemma claim_due_cases refused rows user_id now :
  match claim_due_for_user refused (fun _ r => r) rows user_id now with
  | (Claimed item, rows') =>
      exists r, oldest_due rows user_id now (i_id item) r /\
        rows' = <[i_id item := claim_row now r]> rows /\ queue_item rows' user_id (i_id item) = Some item
  | (NothingDue, rows') =>
      rows' = rows /\ forall id r, rows !! id = Some r -> q_user r = user_id -> is_due now r = false
  | (ClaimError, rows') =>
      ((refused CCandidates = true \/ refused (CClaim 0) = true) /\ rows' = rows) \/
      (refused CItem = true /\ exists id r, oldest_due rows user_id now id r /\ rows' = <[id := claim_row now r]> rows)
  | (ClaimPanic, _) => False
  end.
Proof.
  unfold claim_due_for_user, due_candidates. destruct (refused CCandidates); [by left; split; [left|]|].
  pose proof (due_list_spec rows user_id now) as Hspec.
  assert (Hsorted := sort_by_sorted by_created (fun _ => True)
    (retain (fun kv => (q_user kv.2 =? user_id)%N && is_due now kv.2) (map_to_list rows))
    (by_created_total _) ltac:(by apply Forall_true)).
  destruct (sort_by _ _) as [|[id r] rest]; cbn [fmap list_fmap take fst].
  - simpl. split; [done|]. intros id r Hr Hu. destruct (is_due now r) eqn:Hd; [|done].
    by destruct (proj1 (elem_of_nil (id, r)) (proj2 (Hspec id r) (conj Hr (conj Hu Hd)))).
  - destruct (proj1 (Hspec id r) ltac:(left)) as (Hr & Hu & Hd).
    assert (Ho : oldest_due rows user_id now id r).
    { split_and!; [done..|]. intros id' r' Hr' Hu' Hd'. inversion Hsorted as [|? ? _ Hall]; subst.
      assert (Hin : (id', r') ∈ (id, r) :: rest) by by apply Hspec.
      apply elem_of_cons in Hin as [[= -> ->]|Hin]; [by rewrite str_cmp_refl|].
      rewrite Forall_forall in Hall. by apply (Hall (id', r')). }
    destruct (claim_first refused rows user_id now id r (take 7 (fst <$> rest)) Hr (is_due_pending _ _ Hd) Hu)
      as (item & Hitem & Hc). rewrite Hc.
    destruct (refused (CClaim 0)); [left; split; [by right|done]|].
    destruct (refused CItem); [right; split; [done|]; by exists id, r|].
    assert (i_id item = id) as Hid.
    { unfold queue_item in Hitem. rewrite lookup_insert_eq in Hitem.
      destruct (_ =? _)%N in Hitem; [|done]. by injection Hitem as <-. }
    rewrite Hid. by exists r.
Qed.

(** Claiming takes the user's oldest due item.  If no other connection
    interferes, a claim finds nothing only if the user has no pending item
    whose retry time has come, and otherwise moves exactly one of them, of
    the smallest enqueue time, to running with one more attempt, and
    returns it, unless a statement is refused; it never panics.  The users to drain are exactly those with
    such an item.  Whatever others do, a claim returns only the user's own
    items, and a receipt lookup shows an item to its owner alone. *)
Theorem claim_oldest_due refused rows user_id now :
  match claim_due_for_user refused (fun _ r => r) rows user_id now with
  | (Claimed item, rows') =>
      exists r, oldest_due rows user_id now (i_id item) r /\
        rows' = <[i_id item := claim_row now r]> rows /\ queue_item rows' user_id (i_id item) = Some item
  | (NothingDue, rows') =>
      rows' = rows /\ forall id r, rows !! id = Some r -> q_user r = user_id -> is_due now r = false
  | (ClaimError, rows') =>
      ((refused CCandidates = true \/ refused (CClaim 0) = true) /\ rows' = rows) \/
      (refused CItem = true /\ exists id r, oldest_due rows user_id now id r /\ rows' = <[id := claim_row now r]> rows)
  | (ClaimPanic, _) => False
  end /\
  (forall u, u ∈ queue_users_with_due rows now <->
     exists id r, rows !! id = Some r /\ q_user r = u /\ is_due now r = true) /\
  (forall others item rows', claim_due_for_user refused others rows user_id now = (Claimed item, rows') ->
     i_user item = user_id) /\
  (forall id, queue_item rows user_id id <> None <-> exists r, rows !! id = Some r /\ q_user r = user_id).
Proof.
  split_and!.
  - apply claim_due_cases.
  - intros u. apply users_with_due_spec.
  - intros others item rows'. unfold claim_due_for_user. destruct (refused _); [done|]. apply claim_loop_user.
  - intros id. unfold queue_item. destruct (rows !! id) as [r|]; [|naive_solver].
    destruct (N.eqb_spec (q_user r) user_id); naive_solver.
Qed.

(** ** Histories *)

(** What one statement does to the row of [id]. *)
Definition row_step (id : Uuid) (row : option QueueRow) (o : QueueOp) : option QueueRow :=
  let on id' f := if decide (id' = id) then f <$> row else row in
  match o with
  | QEnqueue id' u t s now =>
      match row with
      | None => if decide (id' = id)
                then Some (mkQueueRow u t Staging 0 [] (to_rfc3339 now) (to_rfc3339 now) None None s) else None
      | Some _ => row
      end
  | QActivate id' now => on id' (activate_row now)
  | QClaim id' now => on id' (fun r => if decide (q_status r = Pending) then claim_row now r else r)
  | QDone id' p d now => on id' (done_row p d now)
  | QFailed id' n d now => on id' (failed_row n d now)
  | QDead id' d now => on id' (dead_row d now)
  | QRecover id' now => on id' (recover_row now)
  end.

Lemma set_row_lookup rows id f id' :
  set_row rows id f !! id' = if decide (id = id') then f <$> rows !! id' else rows !! id'.
Proof.
  unfold set_row. destruct (decide (id = id')) as [->|Hne]; [by rewrite lookup_alter_eq|by rewrite lookup_alter_ne].
Qed.

Lemma queue_step_row rows o id : queue_step rows o !! id = row_step id (rows !! id) o.
Proof.
  destruct o as [id' u t s now|id' now|id' now|id' p d now|id' n d now|id' d now|id' now];
    cbn [queue_step row_step]; try apply set_row_lookup.
  - unfold enqueue. destruct (decide (id' = id)) as [->|Hne].
    + destruct (rows !! id) eqn:E; simpl; [done|by rewrite lookup_insert_eq].
    + destruct (rows !! id') eqn:E; simpl; rewrite ?lookup_insert_ne by done; by destruct (rows !! id).
  - unfold try_claim. destruct (decide (id' = id)) as [->|Hne].
    + destruct (rows !! id) as [r|] eqn:E; cbn [fmap option_fmap option_map snd]; [|done || by rewrite E]. case_bool_decide; simpl.
      * by rewrite lookup_insert_eq, decide_True.
      * by rewrite decide_False.
    + destruct (rows !! id') as [r|]; [case_bool_decide|]; simpl; by rewrite ?lookup_insert_ne.
Qed.

Lemma queue_run_row rows ops id : queue_run rows ops !! id = fold_left (row_step id) ops (rows !! id).
Proof.
  unfold queue_run. revert rows. induction ops as [|o ops IH]; intros rows; [done|]. simpl.
  by rewrite IH, queue_step_row.
Qed.

Lemma queue_run_middle rows a o b :
  queue_run rows (a ++ o :: b) = queue_run (queue_step (queue_run rows a) o) b.
Proof. unfold queue_run. by rewrite fold_left_app. Qed.

(** Only a winning claim counts an attempt. *)
Lemma attempts_step rows o id r :
  rows !! id = Some r -> exists r', queue_step rows o !! id = Some r' /\
    q_attempts r' = q_attempts r +
      match o with QClaim id' _ => if decide (id' = id) then if decide (wins rows id) then 1 else 0 else 0 | _ => 0 end.
Proof.
  intros Hr. rewrite queue_step_row, Hr.
  destruct o as [id' u t s now|id' now|id' now|id' p d now|id' n d now|id' d now|id' now]; cbn [row_step fmap option_fmap option_map].
  1: exists r; split; [done|lia].
  all: destruct (decide (id' = id)) as [->|]; [|exists r; split; [done|lia]]; eexists; split; [done|].
  3,4,5: simpl; lia.
  - unfold activate_row. destruct (q_status r); simpl; lia.
  - destruct (decide (q_status r = Pending)) as [Hp|Hp], (decide (wins rows id)) as [Hw|Hw]; simpl; try lia.
    + exfalso. apply Hw. by exists r.
    + exfalso. apply Hp. destruct Hw as (r' & Hr' & ?). congruence.
  - unfold recover_row. destruct (q_status r); simpl; lia.
Qed.

Lemma attempts_run ops rows id :
  match rows !! id with
  | Some r => exists r', queue_run rows ops !! id = Some r' /\ q_attempts r' = q_attempts r + Z.of_nat (claims rows id ops)
  | None => forall r', queue_run rows ops !! id = Some r' -> q_attempts r' = Z.of_nat (claims rows id ops)
  end.
Proof.
  revert rows. induction ops as [|o ops IH]; intros rows.
  - simpl. destruct (rows !! id) as [r|] eqn:E; [exists r; split; [done|lia]|done].
  - simpl. specialize (IH (queue_step rows o)). destruct (rows !! id) as [r|] eqn:E.
    + destruct (attempts_step rows o id r E) as (r1 & H1 & Ha). rewrite H1 in IH.
      destruct IH as (r' & Hr' & Hn). exists r'. split; [done|]. rewrite Hn, Ha.
      destruct o as [| |id' now| | | |]; try lia. destruct (decide (id' = id)), (decide (wins rows id)); lia.
    + assert (Hzero : forall n : nat, (match o with
        | QClaim id' _ => if decide (id' = id) then if decide (wins rows id) then 1 else 0 else 0
        | _ => 0 end + n)%nat = n).
      { intros n. destruct o as [| |id' now| | | |]; try done. destruct (decide (id' = id)); [|done].
        rewrite decide_False; [done|]. intros (r & Hr & _). congruence. }
      rewrite Hzero. destruct (queue_step rows o !! id) as [r1|] eqn:E1; [|done].
      destruct IH as (r' & Hr' & Hn). intros r2 Hr2. rewrite Hr' in Hr2. injection Hr2 as <-. rewrite Hn.
      assert (q_attempts r1 = 0) as ->; [|lia]. rewrite queue_step_row, E in E1.
      destruct o as [id' u t s now|id' now|id' now|id' p d now|id' n d now|id' d now|id' now]; cbn [row_step] in E1;
        destruct (decide (id' = id)); try done. by injection E1 as <-.
Qed.

(** A claimed item stays claimed, or ends, until it is given back. *)
Lemma stays_taken ops rows id r :
  rows !! id = Some r -> (q_status r = Running \/ q_status r = Done \/ q_status r = Dead) ->
  Forall (fun o => ~ releases id o) ops ->
  exists r', queue_run rows ops !! id = Some r' /\ (q_status r' = Running \/ q_status r' = Done \/ q_status r' = Dead).
Proof.
  revert rows r. induction ops as [|o ops IH]; intros rows r Hr Hs Hn; [by exists r|].
  apply Forall_cons in Hn as [Ho Hn]. change (queue_run rows (o :: ops)) with (queue_run (queue_step rows o) ops).
  assert (exists r1, queue_step rows o !! id = Some r1 /\ (q_status r1 = Running \/ q_status r1 = Done \/ q_status r1 = Dead))
    as (r1 & H1 & Hs1); [|by eapply IH].
  rewrite queue_step_row, Hr.
  destruct o as [id' u t s now|id' now|id' now|id' p d now|id' n d now|id' d now|id' now]; cbn [row_step fmap option_fmap option_map].
  1: by exists r.
  all: destruct (decide (id' = id)) as [->|]; [|by exists r]; eexists; (split; [done|]).
  - unfold activate_row. destruct Hs as [H|[H|H]]; rewrite H; auto.
  - rewrite decide_False; [done|]. intros E. rewrite E in Hs. naive_solver.
  - simpl; auto.
  - by destruct (Ho eq_refl).
  - simpl; auto.
  - by destruct (Ho eq_refl).
Qed.

Lemma open_count_insert rows id r u : rows !! id = None ->
  open_count (<[id := r]> rows) u =
    ((if (q_user r =? u)%N && is_open r then 1 else 0) + open_count rows u)%nat.
Proof.
  intros Hid. unfold open_count. rewrite (Permutation_length (retain_perm _ _ _ (map_to_list_insert rows id r Hid))).
  cbn [List.filter snd]. by destruct (_ && _).
Qed.

Lemma status_text st : QueueStatus_from_str (QueueStatus_as_str st) = Some st.
Proof. by destruct st. Qed.
Lemma tool_text t : QueueTool_from_str (QueueTool_as_str t) = Some t.
Proof. by destruct t. Qed.

(** C14. Claims exclude each other.  In every history of statements, by
    however many workers, between two winning claims of one item it was
    given back (marked failed, or recovered at boot): no two workers hold it
    at once, and a done or dead item is not claimed.  Its attempts count
    exactly the claims won; a lost race counts nothing.  A capped enqueue
    counts and then inserts: it is refused when the count has reached the
    cap, it adds one open item of that user and no other row, and the user
    then has at most the cap of them plus those that others added in
    between (the overshoot the cap allows).  The stored texts of statuses
    and tools read back. *)
Theorem claims_exclusive ops id :
  (forall r, queue_run ∅ ops !! id = Some r -> q_attempts r = Z.of_nat (claims ∅ id ops)) /\
  (forall before now1 between now2 after,
     ops = before ++ QClaim id now1 :: between ++ QClaim id now2 :: after ->
     wins (queue_run ∅ before) id -> wins (queue_run ∅ (before ++ QClaim id now1 :: between)) id ->
     Exists (releases id) between) /\
  (forall refused between rows id' user tool cap source now,
     let count := Z.of_nat (open_count rows user) in
     let more := Z.of_nat (open_count (between rows) user) - count in
     match enqueue_capped refused between rows id' user tool cap source now with
     | (Ok new, rows') => new = id' /\ count < cap /\ between rows !! id' = None /\
         (exists r, rows' = <[id' := r]> (between rows) /\ q_user r = user /\ q_tool r = tool /\ q_status r = Staging /\
            q_attempts r = 0 /\ q_source r = source) /\
         Z.of_nat (open_count rows' user) = count + more + 1 /\ Z.of_nat (open_count rows' user) <= cap + more /\
         (forall u, u <> user -> open_count rows' u = open_count (between rows) u)
     | (Err QCapacity, rows') => cap <= count /\ rows' = rows
     | (Err QDb, rows') => (refused 0%nat = true /\ rows' = rows) \/
         (count < cap /\ rows' = between rows /\ (refused 1%nat = true \/ between rows !! id' <> None))
     end) /\
  (forall st, QueueStatus_from_str (QueueStatus_as_str st) = Some st) /\
  (forall t, QueueTool_from_str (QueueTool_as_str t) = Some t).
Proof.
  split_and!.
  - intros r Hr. pose proof (attempts_run ops ∅ id) as H. rewrite lookup_empty in H. by apply H.
  - intros before now1 between now2 after -> (r & Hr & Hp) (r2 & Hr2 & Hp2).
    destruct (decide (Exists (releases id) between)) as [|Hn]; [done|]. exfalso.
    apply not_Exists_Forall in Hn; [|apply _].
    rewrite queue_run_middle in Hr2.
    destruct (stays_taken between (queue_step (queue_run ∅ before) (QClaim id now1)) id (claim_row now1 r))
      as (r3 & Hr3 & Hs3); [|by left|done|rewrite Hr2 in Hr3; injection Hr3 as ->; destruct Hs3 as [?|[?|?]]; congruence].
    rewrite queue_step_row, Hr. simpl. by rewrite decide_True, decide_True.
  - intros refused between rows id' user tool cap source now count more. unfold enqueue_capped.
    destruct (refused 0%nat); [by left|]. fold count. destruct (Z.leb_spec cap count); [done|].
    destruct (refused 1%nat); [right; split_and!; [done|done|by left]|].
    unfold enqueue. destruct (between rows !! id') as [r|] eqn:E; [right; split_and!; [done|done|by right]|].
    split_and!; [done|done|done|by eexists|..].
    1-2: rewrite open_count_insert by done; cbn [q_user is_open q_status]; rewrite N.eqb_refl; simpl; lia.
    intros u Hu. rewrite open_count_insert by done. cbn [q_user]. by rewrite (proj2 (N.eqb_neq _ _)).
  - apply status_text.
  - apply tool_text.
Qed.
End Queue.
