(* ===== verification/Worker.v ===== *)
(** * The drain worker

    [crates/mycelium-librarian/src/queue_worker.rs]: one wake of the
    mutation-queue drain over the queue rows, the payload blobs and the
    staging notes.  What a wake observes of the outside is in the record
    [Wake]: backend health, the gate's answer, key recovery, the agent run,
    the fallback writers and the clock; logging is not modelled. *)
From S2P Require Import Prelude Text Clock Crypto Health HotMemory Llm Queue.
Open Scope Z_scope.

Definition is_transient (e : AgentError) : bool :=
  match e with
  | AStepCapExceeded => true
  | ALlm LEmptyResponse => true
  | ALlm e => is_backend_down e
  | _ => false
  end.

(** ** State and environment *)
Record QueueLimits := mkLimits {
  capacity : nat; drain_step_cap : Z; max_attempts : Z; age_deadline_secs : Z; depth_cap : Z;
  backoff_secs : list Z; sweep_secs : Z }.
Definition QueueLimits_default : QueueLimits := mkLimits 2 12 3 600 50 [30; 60; 120] 60.

Record MutationPayload := mkPayload { p_tool : QueueTool; p_args_json : str; p_content : str }.

(** What reading a payload blob gives: a payload, bytes that do not parse,
    or an error of the file repository. *)
Inductive Blob := BPayload (p : MutationPayload) | BUnparseable | BUnreadable (message : str).

Record Worker := mkWorker {
  w_rows : gmap Uuid QueueRow;
  w_blobs : gmap (Uuid * str) Blob;        (* by user and stored name *)
  w_notes : gset (Uuid * Uuid);            (* staging notes, by user and item *)
  w_hot : option (gmap str HotScopeState);
  fallback_count : Z; dead_count : Z; integrated_count : Z }.

Inductive QueueWorkerError := WDb | WQueue | WStore (message : str) | WFile (message : str) | WPanic.

Inductive RunOutcome := RunOk (files_changed : list str) (summary : str) | RunErr (e : AgentError) | RunPanic (message : str).

(** The statements on the queue that a wake issues *)
Inductive QueueStmt :=
  | QsStaging | QsSettle (id : Uuid)       (* [recover_staging]: the scan, and a row's UPDATE *)
  | QsRunning | QsRepair (id : Uuid)       (* [recover_on_boot]: the scan, and a row's UPDATE *)
  | QsUsers | QsNote (id : Uuid)           (* the due users; the row of a staging note *)
  | QsClaim (s : ClaimStmt) | QsMark.      (* the claim; the UPDATE that settles the item *)

Record Wake := mkWake {
  k_health : BackendState;
  k_permit : bool;
  k_recovery : Uuid -> result MasterKey str;
  k_run : MutationQueueItem -> MasterKey -> MutationPayload -> RunOutcome;
  k_add : MutationPayload -> result str str;
  k_update : MutationPayload -> result str str;
  k_list_before : result (list str) str;
  k_maintain : result unit str;
  k_list_after : result (list str) str;
  k_note_error : option str;               (* the concept store fails on a note *)
  k_notes_listed : bool;                   (* its listing succeeds *)
  k_blob_deletes : bool;                   (* deleting a blob succeeds *)
  k_refused : QueueStmt -> bool;           (* the database refuses a statement *)
  k_claim : Z; k_age : Z; k_age_after : Z; k_next : Z; k_mark : Z }.

Definition with_rows (st : Worker) (rows : gmap Uuid QueueRow) : Worker :=
  mkWorker rows (w_blobs st) (w_notes st) (w_hot st) (fallback_count st) (dead_count st) (integrated_count st).
Definition with_blobs (st : Worker) (blobs : gmap (Uuid * str) Blob) : Worker :=
  mkWorker (w_rows st) blobs (w_notes st) (w_hot st) (fallback_count st) (dead_count st) (integrated_count st).
Definition with_notes (st : Worker) (notes : gset (Uuid * Uuid)) (hot : option (gmap str HotScopeState)) : Worker :=
  mkWorker (w_rows st) (w_blobs st) notes hot (fallback_count st) (dead_count st) (integrated_count st).
Definition count_fallback (st : Worker) : Worker :=
  mkWorker (w_rows st) (w_blobs st) (w_notes st) (w_hot st) (wrap64 (fallback_count st + 1)) (dead_count st) (integrated_count st).
Definition count_dead (st : Worker) : Worker :=
  mkWorker (w_rows st) (w_blobs st) (w_notes st) (w_hot st) (fallback_count st) (wrap64 (dead_count st + 1)) (integrated_count st).
Definition count_integrated (st : Worker) : Worker :=
  mkWorker (w_rows st) (w_blobs st) (w_notes st) (w_hot st) (fallback_count st) (dead_count st) (wrap64 (integrated_count st + 1)).

Definition i64_max : Z := 9223372036854775807.

(** [?] on a step that gives nothing but the state *)
Definition and_then {A} (r : result unit QueueWorkerError * Worker) (f : Worker -> result A QueueWorkerError * Worker)
    : result A QueueWorkerError * Worker :=
  match r with (Ok _, st) => f st | (Err e, st) => (Err e, st) end.
(** One statement that changes the rows *)
Definition queue_update (refused : bool) (st : Worker) (rows : gmap Uuid QueueRow) : result unit QueueWorkerError * Worker :=
  if refused then (Err WQueue, st) else (Ok tt, with_rows st rows).

Section Worker.
Context {KD : Kdf} {HX : Hex} {RF : Rfc3339} {UT : UuidText} {PJ : PathsJson}.
Context (limits : QueueLimits).

Definition payload_path (id : Uuid) : str := lit "/mutation-queue/" ++ uuid_to_string id.
Definition stage_note_path (id : Uuid) : str := lit "/mutation-queue/" ++ uuid_to_string id ++ lit ".md".
Definition user_scope (uid : Uuid) : str := lit "user:" ++ uuid_to_string uid.

(** The blob of an item under the keys of [m] *)
Definition blob_key (uid : Uuid) (m : MasterKey) (id : Uuid) : Uuid * str :=
  (uid, stored_name (FileKeys_from_master_key m) (payload_path id)).

Definition read_payload (st : Worker) (uid : Uuid) (m : MasterKey) (id : Uuid) : result (option MutationPayload) str :=
  match w_blobs st !! blob_key uid m id with
  | None | Some BUnparseable => Ok None
  | Some (BPayload p) => Ok (Some p)
  | Some (BUnreadable e) => Err e
  end.

Definition delete_payload (k : Wake) (st : Worker) (uid : Uuid) (m : MasterKey) (id : Uuid) : Worker :=
  if k_blob_deletes k then with_blobs st (delete (blob_key uid m id) (w_blobs st)) else st.

Definition delete_staging_note (k : Wake) (st : Worker) (uid id : Uuid) : result unit QueueWorkerError * Worker :=
  match k_note_error k with
  | Some e => (Err (WStore e), st)
  | None =>
      if decide ((uid, id) ∈ w_notes st) then
        (Ok tt, with_notes st (w_notes st ∖ {[(uid, id)]})
                  (record_hot_delete (w_hot st) (user_scope uid) (stage_note_path id)))
      else (Ok tt, st)
  end.

(** [reconcile_notes]: the notes of terminal rows *)
Definition reconcile_note (k : Wake) (uid : Uuid) (st : Worker) (note : Uuid * Uuid) : Worker :=
  if (note.1 =? uid)%N && negb (k_refused k (QsNote note.2)) then
    match queue_item (w_rows st) uid note.2 with
    | Some item =>
        match i_status item with
        | Done | Dead => (delete_staging_note k st uid note.2).2
        | _ => st
        end
    | None => st
    end
  else st.
Definition reconcile_notes (k : Wake) (st : Worker) (uid : Uuid) : Worker :=
  match k_recovery k uid with
  | Err _ => st
  | Ok _ => if k_notes_listed k then fold_left (reconcile_note k uid) (elements (w_notes st)) st else st
  end.

(** [age_past]: whole seconds, toward zero *)
Definition age_past (now : Z) (item : MutationQueueItem) : Z :=
  match parse_from_rfc3339 (i_created_at item) with
  | Some t => Z.quot (now - t) 1000000000
  | None => i64_max
  end.

Definition rows_done (k : Wake) (st : Worker) (id : Uuid) (paths : list str) (detail : str) : result unit QueueWorkerError * Worker :=
  queue_update (k_refused k QsMark) st (mark_done (w_rows st) id paths detail (k_mark k)).
Definition rows_dead (k : Wake) (st : Worker) (id : Uuid) (detail : str) : result unit QueueWorkerError * Worker :=
  queue_update (k_refused k QsMark) st (mark_dead (w_rows st) id detail (k_mark k)).
Definition rows_failed (k : Wake) (st : Worker) (id : Uuid) (secs : Z) (detail : str) : result unit QueueWorkerError * Worker :=
  queue_update (k_refused k QsMark) st (mark_failed (w_rows st) id (to_rfc3339 (k_next k + secs * 1000000000)) detail (k_mark k)).

Definition defer_retry (k : Wake) (st : Worker) (item : MutationQueueItem) (why : str) : result unit QueueWorkerError * Worker :=
  rows_failed k st (i_id item) 30 why.

Definition finish_success (k : Wake) (st : Worker) (item : MutationQueueItem) (m : MasterKey)
    (files_changed : list str) (summary : str) : result unit QueueWorkerError * Worker :=
  and_then (rows_done k st (i_id item) files_changed (short_detail summary)) (fun st =>
  let st := delete_payload k st (i_user item) m (i_id item) in
  and_then (delete_staging_note k st (i_user item) (i_id item)) (fun st =>
  (Ok tt, count_integrated st))).

(** [after.symmetric_difference(&before)] on ordered sets *)
Definition symmetric_difference (a b : list str) : list str :=
  sort_by str_cmp (remove_dups
    (retain (fun x => negb (existsb (str_eqb x) b)) a ++ retain (fun x => negb (existsb (str_eqb x) a)) b)).

(** The fallback writer of the payload's tool: the outer error is the one
    that the [?]s of the maintain branch let through. *)
Definition fallback_outcome (k : Wake) (p : MutationPayload) : result (result (list str) str) QueueWorkerError :=
  match p_tool p with
  | Add => Ok (let? path := k_add k p in Ok [path])%rust
  | Update => Ok (let? path := k_update k p in Ok [path])%rust
  | Maintain =>
      (let? before := result_map_err WStore (k_list_before k) in
       let? _ := result_map_err WStore (k_maintain k) in
       let? after := result_map_err WStore (k_list_after k) in
       Ok (Ok (symmetric_difference after before)))%rust
  end.

Definition fallback_dead (k : Wake) (st : Worker) (item : MutationQueueItem) (m : MasterKey) (e : str)
    : result unit QueueWorkerError * Worker :=
  and_then (rows_dead k st (i_id item) (lit "fallback failed: " ++ short_detail e)) (fun st =>
  let st := delete_payload k st (i_user item) m (i_id item) in
  and_then (delete_staging_note k st (i_user item) (i_id item)) (fun st =>
  (Ok tt, count_dead st))).

Definition fallback_done (k : Wake) (st : Worker) (item : MutationQueueItem) (m : MasterKey) (provenance : str)
    (paths : list str) : result unit QueueWorkerError * Worker :=
  and_then (rows_done k st (i_id item) paths (lit "integrated via deterministic fallback (" ++ provenance ++ lit ")")) (fun st =>
  let st := delete_payload k st (i_user item) m (i_id item) in
  and_then (delete_staging_note k st (i_user item) (i_id item)) (fun st =>
  (Ok tt, count_fallback st))).

Definition payload_missing : str :=
  lit "payload missing" ++ em_dash ++ lit "enqueue interrupted before durability; re-submit".

Definition run_fallback (k : Wake) (st : Worker) (item : MutationQueueItem) (master : option MasterKey)
    (provenance : str) : result unit QueueWorkerError * Worker :=
  match master with
  | None =>
      and_then (rows_dead k st (i_id item) (lit "fallback unavailable: master-key recovery failed")) (fun st =>
      (Ok tt, count_dead st))
  | Some m =>
      match read_payload st (i_user item) m (i_id item) with
      | Err e => (Err (WFile e), st)
      | Ok None =>
          and_then (rows_dead k st (i_id item) (payload_missing ++ lit " the mutation")) (fun st =>
          (Ok tt, count_dead (delete_payload k st (i_user item) m (i_id item))))
      | Ok (Some p) =>
          match fallback_outcome k p with
          | Err e => (Err e, st)
          | Ok (Ok paths) => fallback_done k st item m provenance paths
          | Ok (Err e) => fallback_dead k st item m e
          end
      end
  end.

(** The agent's outcome after [catch_unwind]. *)
Definition caught (o : RunOutcome) : result (list str * str) AgentError :=
  match o with
  | RunOk files summary => Ok (files, summary)
  | RunErr e => Err e
  | RunPanic msg => Err (ABadToolArgs (lit "(panic)") (lit "agent run panicked: " ++ msg))
  end.

Definition backoff (item : MutationQueueItem) : Z :=
  nth (Nat.min (Z.to_nat (saturating_sub (i_attempts item) 1)) (length (backoff_secs limits) - 1)) (backoff_secs limits) 0.

(** [.map(|()| true)] *)
Definition processed (r : result unit QueueWorkerError * Worker) : result bool QueueWorkerError * Worker :=
  match r with (Ok _, st) => (Ok true, st) | (Err e, st) => (Err e, st) end.

(** The part of [process_next_for_user] after the run failed with [e]. *)
Definition run_failed (k : Wake) (st : Worker) (item : MutationQueueItem) (m : MasterKey) (e : AgentError)
    : result bool QueueWorkerError * Worker :=
  if is_transient e && (i_attempts item <? max_attempts limits) &&
     (age_past (k_age_after k) item <? age_deadline_secs limits)
  then
    processed (rows_failed k st (i_id item) (backoff item)
       (lit "attempt " ++ show_N (Z.to_N (i_attempts item)) ++ lit ": " ++ short_detail (AgentError_display e)))
  else
    let why :=
      if negb (is_transient e) then lit "deterministic error: " ++ short_detail (AgentError_display e)
      else lit "attempts exhausted (" ++ show_N (Z.to_N (i_attempts item)) ++ lit " of " ++
           show_N (Z.to_N (max_attempts limits)) ++ lit ")" in
    processed (run_fallback k st item (Some m) why).

(** The part after the claim. *)
Definition process_item (k : Wake) (st : Worker) (uid : Uuid) (item : MutationQueueItem)
    : result bool QueueWorkerError * Worker :=
  match k_recovery k uid with
  | Err e =>
      let why := lit "master-key recovery failed: " ++ e in
      if age_deadline_secs limits + 300 <=? age_past (k_age k) item
      then processed (run_fallback k st item None why)
      else processed (defer_retry k st item why)
  | Ok m =>
      match read_payload st uid m (i_id item) with
      | Ok None =>
          and_then (rows_dead k st (i_id item) (payload_missing ++ lit " the mutation")) (fun st =>
          (Ok true, reconcile_notes k (delete_payload k st uid m (i_id item)) uid))
      | Err e =>
          and_then (rows_dead k st (i_id item) (lit "payload unreadable: " ++ short_detail e)) (fun st =>
          (Ok true, reconcile_notes k (delete_payload k st uid m (i_id item)) uid))
      | Ok (Some payload) =>
          if age_deadline_secs limits <=? age_past (k_age k) item
          then processed (run_fallback k st item (Some m) (lit "age deadline passed"))
          else
            match caught (k_run k item m payload) with
            | Ok (files, summary) => processed (finish_success k st item m files summary)
            | Err e => run_failed k st item m e
            end
      end
  end.

Definition process_next_for_user (k : Wake) (st : Worker) (uid : Uuid) : result bool QueueWorkerError * Worker :=
  if decide (k_health k = Red) then (Ok false, st)
  else if negb (k_permit k) then (Ok false, st)
  else
    let '(claim, rows) := claim_due_for_user (fun s => k_refused k (QsClaim s)) (fun _ r => r) (w_rows st) uid (k_claim k) in
    match claim with
    | NothingDue => (Ok false, with_rows st rows)
    | ClaimError => (Err WQueue, with_rows st rows)
    | ClaimPanic => (Err WPanic, with_rows st rows)
    | Claimed item => process_item k (with_rows st rows) uid item
    end.

(** [recover_staging] *)
Definition recover_staging_row (k : Wake) (item : MutationQueueItem) (st : Worker) : result unit QueueWorkerError * Worker :=
  match k_recovery k (i_user item) with
  | Err _ => (Ok tt, st)
  | Ok m =>
      match w_blobs st !! blob_key (i_user item) m (i_id item) with
      | Some _ => queue_update (k_refused k (QsSettle (i_id item))) st (activate (w_rows st) (i_id item) (k_mark k))
      | None =>
          and_then (queue_update (k_refused k (QsSettle (i_id item))) st (mark_dead (w_rows st) (i_id item) payload_missing (k_mark k)))
            (fun st => (Ok tt, delete_payload k st (i_user item) m (i_id item)))
      end
  end.
(** A loop that a [?] ends *)
Fixpoint each_row (f : MutationQueueItem -> Worker -> result unit QueueWorkerError * Worker) (items : list MutationQueueItem) (st : Worker)
    : result unit QueueWorkerError * Worker :=
  match items with [] => (Ok tt, st) | item :: items => and_then (f item st) (each_row f items) end.
Definition recover_staging (k : Wake) (st : Worker) : result unit QueueWorkerError * Worker :=
  if k_refused k QsStaging then (Err WQueue, st) else each_row (recover_staging_row k) (staging_rows (w_rows st)) st.

Definition repair_row (k : Wake) (item : MutationQueueItem) (st : Worker) : result unit QueueWorkerError * Worker :=
  if k_refused k (QsRepair (i_id item)) then (Err WDb, st)
  else (Ok tt, with_rows st (recover_running (w_rows st) (i_id item) (k_mark k))).
Definition recover_on_boot (k : Wake) (st : Worker) : result unit QueueWorkerError * Worker :=
  if k_refused k QsRunning then (Err WQueue, st)
  else and_then (each_row (repair_row k) (running_rows (w_rows st)) st) (recover_staging k).

(** One pass over the users with due items; [ks n] is the [n]-th wake. *)
Fixpoint drain_users (ks : nat -> Wake) (n : nat) (st : Worker) (users : list Uuid) (progress : nat)
    : result nat QueueWorkerError * nat * Worker :=
  match users with
  | [] => (Ok progress, n, st)
  | uid :: users =>
      let st := reconcile_notes (ks n) st uid in
      match process_next_for_user (ks n) st uid with
      | (Err e, st) => (Err e, S n, st)
      | (Ok done, st) => drain_users ks (S n) st users (if done then S progress else progress)
      end
  end.

(** The loop of [run_pending]; [None] when the fuel runs out. *)
Fixpoint drain_loop (fuel : nat) (ks : nat -> Wake) (n : nat) (st : Worker) (total : nat)
    : option (result nat QueueWorkerError * Worker) :=
  match fuel with
  | O => None
  | S fuel =>
      if k_refused (ks n) QsUsers then Some (Err WQueue, st)
      else
      match queue_users_with_due (w_rows st) (k_claim (ks n)) with
      | [] => Some (Ok total, st)
      | users =>
          match drain_users ks n st users 0 with
          | (Err e, _, st) => Some (Err e, st)
          | (Ok O, _, st) => Some (Ok total, st)
          | (Ok progress, n, st) => drain_loop fuel ks n st (total + progress)
          end
      end
  end.
Definition run_pending (fuel : nat) (ks : nat -> Wake) (st : Worker) : option (result nat QueueWorkerError * Worker) :=
  match recover_staging (ks 0%nat) st with
  | (Err e, st) => Some (Err e, st)
  | (Ok _, st) => drain_loop fuel ks 1 st 0
  end.

(** ** The verdict on an item *)

(** An item is given back only while its key cannot be recovered, short of
    the deadline and its grace, or after a transient failure with attempts
    and time left. *)
Inductive retry_reason (k : Wake) (st : Worker) (item : MutationQueueItem) : Z -> Prop :=
  | retry_key e :
      k_recovery k (i_user item) = Err e -> age_past (k_age k) item < age_deadline_secs limits + 300 ->
      retry_reason k st item 30
  | retry_transient m p e :
      k_recovery k (i_user item) = Ok m -> read_payload st (i_user item) m (i_id item) = Ok (Some p) ->
      age_past (k_age k) item < age_deadline_secs limits ->
      caught (k_run k item m p) = Err e -> is_transient e = true -> i_attempts item < max_attempts limits ->
      age_past (k_age_after k) item < age_deadline_secs limits ->
      retry_reason k st item (backoff item).

(** The fallback is due: past the deadline, or the run failed for good. *)
Definition fallback_due (k : Wake) (item : MutationQueueItem) (m : MasterKey) (p : MutationPayload) : Prop :=
  age_deadline_secs limits <= age_past (k_age k) item \/
  exists e, caught (k_run k item m p) = Err e /\
    (is_transient e = false \/ max_attempts limits <= i_attempts item \/
     age_deadline_secs limits <= age_past (k_age_after k) item).

Inductive done_reason (k : Wake) (st : Worker) (item : MutationQueueItem) : list str -> Prop :=
  | done_run m p files summary :
      k_recovery k (i_user item) = Ok m -> read_payload st (i_user item) m (i_id item) = Ok (Some p) ->
      age_past (k_age k) item < age_deadline_secs limits ->
      caught (k_run k item m p) = Ok (files, summary) -> done_reason k st item files
  | done_fallback m p paths :
      k_recovery k (i_user item) = Ok m -> read_payload st (i_user item) m (i_id item) = Ok (Some p) ->
      fallback_due k item m p -> fallback_outcome k p = Ok (Ok paths) -> done_reason k st item paths.

Inductive dead_reason (k : Wake) (st : Worker) (item : MutationQueueItem) : Prop :=
  | dead_key e :
      k_recovery k (i_user item) = Err e -> age_deadline_secs limits + 300 <= age_past (k_age k) item ->
      dead_reason k st item
  | dead_payload m :
      k_recovery k (i_user item) = Ok m ->
      (forall p, read_payload st (i_user item) m (i_id item) <> Ok (Some p)) -> dead_reason k st item
  | dead_fallback m p e :
      k_recovery k (i_user item) = Ok m -> read_payload st (i_user item) m (i_id item) = Ok (Some p) ->
      fallback_due k item m p -> fallback_outcome k p = Ok (Err e) -> dead_reason k st item.

(** What happens to the item's row, and whether that ends the item. *)
Inductive verdict (k : Wake) (st : Worker) (item : MutationQueueItem) : (QueueRow -> QueueRow) -> bool -> Prop :=
  | verdict_done paths detail :
      done_reason k st item paths -> verdict k st item (done_row paths detail (k_mark k)) true
  | verdict_dead detail :
      dead_reason k st item -> verdict k st item (dead_row detail (k_mark k)) true
  | verdict_retry secs detail :
      retry_reason k st item secs ->
      verdict k st item (failed_row (to_rfc3339 (k_next k + secs * 1000000000)) detail (k_mark k)) false.

(** An item that is settled keeps its blob for the next attempt; one that
    ends loses it, unless its key is lost or the deletion fails. *)
Definition blobs_after (k : Wake) (st : Worker) (item : MutationQueueItem) (ends : bool) : gmap (Uuid * str) Blob :=
  match k_recovery k (i_user item) with
  | Ok m => if ends && k_blob_deletes k then delete (blob_key (i_user item) m (i_id item)) (w_blobs st) else w_blobs st
  | Err _ => w_blobs st
  end.

(** A fallback is due but its listing or the maintenance fails. *)
Definition fallback_breaks (k : Wake) (st : Worker) (item : MutationQueueItem) (e : QueueWorkerError) : Prop :=
  exists m p, k_recovery k (i_user item) = Ok m /\ read_payload st (i_user item) m (i_id item) = Ok (Some p) /\
    fallback_due k item m p /\ fallback_outcome k p = Err e.

Lemma delete_payload_rows k st uid m id : w_rows (delete_payload k st uid m id) = w_rows st.
Proof. unfold delete_payload. by destruct (k_blob_deletes k). Qed.

Lemma delete_note_frame k st uid id :
  w_rows (delete_staging_note k st uid id).2 = w_rows st /\ w_blobs (delete_staging_note k st uid id).2 = w_blobs st.
Proof. unfold delete_staging_note. destruct (k_note_error k); [done|]. by destruct (decide _). Qed.

Lemma reconcile_frame k st uid :
  w_rows (reconcile_notes k st uid) = w_rows st /\ w_blobs (reconcile_notes k st uid) = w_blobs st.
Proof.
  unfold reconcile_notes. destruct (k_recovery k uid); [|done]. destruct (k_notes_listed k); [|done].
  generalize (elements (w_notes st)). intros l. revert st. induction l as [|n l IH]; intros st; [done|]. simpl.
  destruct (IH (reconcile_note k uid st n)) as [-> ->]. unfold reconcile_note.
  destruct (_ && _); [|done]. destruct (queue_item _ _ _) as [item|]; [|done].
  destruct (i_status item); try done; apply delete_note_frame.
Qed.

(** The outcome of processing a claimed item: settled as the verdict says,
    or left as it was claimed. *)
Definition settled (k : Wake) (st : Worker) (item : MutationQueueItem) (f : QueueRow -> QueueRow) (ends : bool)
    {A} (o : result A QueueWorkerError * Worker) : Prop :=
  w_rows o.2 = set_row (w_rows st) (i_id item) f /\ w_blobs o.2 = blobs_after k st item ends /\
  (forall e, o.1 = Err e -> exists why, e = WStore why /\ k_note_error k = Some why /\ ends = true).
Definition unmarked (k : Wake) (st : Worker) {A} (o : result A QueueWorkerError * Worker) : Prop :=
  o = (Err WQueue, st) /\ k_refused k QsMark = true.

Definition item_outcome (k : Wake) (st : Worker) (item : MutationQueueItem)
    (o : result bool QueueWorkerError * Worker) : Prop :=
  (forall b, o.1 = Ok b -> b = true) /\
  ((exists f ends, verdict k st item f ends /\ settled k st item f ends o) \/ unmarked k st o \/
   (o.2 = st /\ exists e, o.1 = Err e /\ fallback_breaks k st item e)).

(** The clean-up common to the ends of an item *)
Lemma cleanup_settled k st item m f (count : Worker -> Worker) : k_recovery k (i_user item) = Ok m ->
  (forall st, w_rows (count st) = w_rows st /\ w_blobs (count st) = w_blobs st) ->
  settled k st item f true
    (and_then (delete_staging_note k (delete_payload k (with_rows st (set_row (w_rows st) (i_id item) f)) (i_user item) m (i_id item))
       (i_user item) (i_id item)) (fun st => (Ok tt, count st))).
Proof.
  intros Hm Hc. set (st1 := delete_payload _ _ _ _ _).
  assert (Hb : w_blobs st1 = blobs_after k st item true).
  { unfold st1, delete_payload, blobs_after. rewrite Hm. by destruct (k_blob_deletes k). }
  assert (Hr : w_rows st1 = set_row (w_rows st) (i_id item) f) by apply delete_payload_rows.
  destruct (delete_note_frame k st1 (i_user item) (i_id item)) as [Hn1 Hn2].
  destruct (delete_staging_note k st1 (i_user item) (i_id item)) as [[[]|e] st'] eqn:E; simpl in *.
  - destruct (Hc st') as [H1 H2]. split_and!; [simpl; congruence..|done].
  - split_and!; [simpl; congruence..|]. simpl. intros e' [= <-]. revert E. unfold delete_staging_note.
    destruct (k_note_error k) as [why|]; [intros [= <- _]; by exists why|by case_match].
Qed.

Lemma marked {A} k st item f ends rows (next : Worker -> result A QueueWorkerError * Worker) :
  rows = set_row (w_rows st) (i_id item) f -> settled k st item f ends (next (with_rows st (set_row (w_rows st) (i_id item) f))) ->
  settled k st item f ends (and_then (queue_update (k_refused k QsMark) st rows) next) \/
  unmarked k st (and_then (queue_update (k_refused k QsMark) st rows) next).
Proof. intros -> H. unfold queue_update, unmarked. destruct (k_refused k QsMark); [right; by split|by left]. Qed.

Lemma item_settled k st item f ends o : verdict k st item f ends -> (forall b, o.1 = Ok b -> b = true) ->
  settled k st item f ends o \/ unmarked k st o -> item_outcome k st item o.
Proof. intros Hv Hb [H|H]; (split; [done|]); [left; by exists f, ends|by right; left]. Qed.

Lemma processed_Ok r b : (processed r).1 = Ok b -> b = true.
Proof. destruct r as [[]]; simpl; [by intros [= <-]|done]. Qed.
Lemma processed_settled k st item f ends r : settled k st item f ends r \/ unmarked k st r ->
  settled k st item f ends (processed r) \/ unmarked k st (processed r).
Proof.
  intros [(H1 & H2 & H3)|[-> H]]; [left|by right].
  destruct r as [[[]|e] st']; simpl in *; (split_and!; [exact H1|exact H2|]); [done|intros e' [= <-]; by apply H3].
Qed.

Lemma fallback_item_outcome k st item m p why :
  k_recovery k (i_user item) = Ok m -> read_payload st (i_user item) m (i_id item) = Ok (Some p) ->
  fallback_due k item m p ->
  item_outcome k st item (processed (run_fallback k st item (Some m) why)).
Proof.
  intros Hm Hp Hdue. unfold run_fallback. rewrite Hp. destruct (fallback_outcome k p) as [[paths|e]|e] eqn:Hf.
  - eapply item_settled; [apply verdict_done; by eapply done_fallback|apply processed_Ok|]. apply processed_settled.
    apply marked; [done|]. by apply cleanup_settled.
  - eapply item_settled; [apply verdict_dead; by eapply dead_fallback|apply processed_Ok|]. apply processed_settled.
    apply marked; [done|]. by apply cleanup_settled.
  - split; [done|]. right; right. split; [done|]. exists e. split; [done|]. by exists m, p.
Qed.

Lemma payload_dead_outcome k st item m detail :
  k_recovery k (i_user item) = Ok m -> (forall p, read_payload st (i_user item) m (i_id item) <> Ok (Some p)) ->
  item_outcome k st item
    (and_then (rows_dead k st (i_id item) detail) (fun st =>
     (Ok true, reconcile_notes k (delete_payload k st (i_user item) m (i_id item)) (i_user item)))).
Proof.
  intros Hm Hp. eapply item_settled; [apply verdict_dead; by eapply dead_payload| |].
  { unfold rows_dead, queue_update. destruct (k_refused k QsMark); [done|]. by intros b [= <-]. }
  apply marked; [done|]. split_and!; [..|done]; simpl.
  - by rewrite (proj1 (reconcile_frame _ _ _)), delete_payload_rows.
  - rewrite (proj2 (reconcile_frame _ _ _)). unfold delete_payload, blobs_after. rewrite Hm. by destruct (k_blob_deletes k).
Qed.

(** A retry, or a lost key's end, leaves the blob. *)
Lemma row_only_outcome k st item f ends detail_rows : verdict k st item f ends ->
  detail_rows = set_row (w_rows st) (i_id item) f -> blobs_after k st item ends = w_blobs st ->
  forall count, (forall st, w_rows (count st) = w_rows st /\ w_blobs (count st) = w_blobs st) ->
  item_outcome k st item (processed (and_then (queue_update (k_refused k QsMark) st detail_rows) (fun st => (Ok tt, count st)))).
Proof.
  intros Hv Hr Hb count Hc. eapply item_settled; [exact Hv|apply processed_Ok|]. apply processed_settled.
  apply marked; [done|]. destruct (Hc (with_rows st (set_row (w_rows st) (i_id item) f))) as [H1 H2].
  split_and!; [exact H1|by rewrite Hb|done].
Qed.
Lemma update_then r : and_then r (fun st => (Ok tt, st)) = r.
Proof. by destruct r as [[[]|e] st]. Qed.

Lemma retry_outcome k st item secs detail : retry_reason k st item secs ->
  item_outcome k st item (processed (rows_failed k st (i_id item) secs detail)).
Proof.
  intros Hr. rewrite <- (update_then (rows_failed _ _ _ _ _)).
  refine (row_only_outcome k st item _ false _ (verdict_retry _ _ _ _ detail Hr) eq_refl _ (fun st => st) (fun _ => conj eq_refl eq_refl)).
  unfold blobs_after. by destruct (k_recovery _ _).
Qed.

Lemma process_item_outcome k st uid item :
  i_user item = uid -> item_outcome k st item (process_item k st uid item).
Proof.
  intros <-. unfold process_item. destruct (k_recovery k (i_user item)) as [m|e] eqn:Hm.
  - destruct (read_payload st (i_user item) m (i_id item)) as [[p|]|e] eqn:Hp.
    + destruct (Z.leb_spec (age_deadline_secs limits) (age_past (k_age k) item)) as [Hage|Hage].
      { eapply fallback_item_outcome; [done|done|]. by left. }
      destruct (caught (k_run k item m p)) as [[files summary]|e] eqn:Hrun.
      { eapply item_settled; [apply verdict_done; by eapply done_run|apply processed_Ok|]. apply processed_settled.
        apply marked; [done|]. by apply cleanup_settled. }
      unfold run_failed. destruct (is_transient e) eqn:Htr; cbn [andb negb].
      2:{ eapply fallback_item_outcome; [done|done|]. right. exists e. split; [done|by left]. }
      destruct (Z.ltb_spec (i_attempts item) (max_attempts limits)) as [Hat|Hat]; cbn [andb].
      2:{ eapply fallback_item_outcome; [done|done|]. right. exists e. split; [done|right; by left]. }
      destruct (Z.ltb_spec (age_past (k_age_after k) item) (age_deadline_secs limits)) as [Ha2|Ha2].
      2:{ eapply fallback_item_outcome; [done|done|]. right. exists e. split; [done|by right; right]. }
      apply retry_outcome. by eapply retry_transient.
    + eapply payload_dead_outcome; [done|]. intros p. by rewrite Hp.
    + eapply payload_dead_outcome; [done|]. intros p. by rewrite Hp.
  - destruct (Z.leb_spec (age_deadline_secs limits + 300) (age_past (k_age k) item)) as [Hage|Hage].
    + eapply row_only_outcome; [apply verdict_dead; by eapply dead_key|done| |done]. unfold blobs_after. by rewrite Hm.
    + apply retry_outcome. by eapply retry_key.
Qed.


(** ** Draining ends

    The attempts an item may still use, while it waits. *)
Definition mu (r : QueueRow) : nat :=
  if decide (q_status r = Pending) then S (Z.to_nat (max_attempts limits - q_attempts r)) else 0.
Definition Mu (rows : gmap Uuid QueueRow) : nat := sum_list_with (fun kv => mu kv.2) (map_to_list rows).

Lemma Mu_insert rows id r r' : rows !! id = Some r ->
  (Mu (<[id := r']> rows) + mu r = Mu rows + mu r')%nat.
Proof.
  intros Hr. unfold Mu.
  rewrite <- (insert_delete_eq rows id r'), map_to_list_insert by apply lookup_delete_eq.
  rewrite <- (map_to_list_delete rows id r) by done. simpl. lia.
Qed.

(** The attempts of the waiting rows are in range. *)
Definition in_range_attempts (rows : gmap Uuid QueueRow) : Prop :=
  forall id r, rows !! id = Some r -> q_status r = Pending \/ q_status r = Staging -> 0 <= q_attempts r < u32_max.

Definition keys_available (k : Wake) : Prop := forall uid, exists m, k_recovery k uid = Ok m.

(** A processed item uses up some of its attempts. *)
Lemma process_next_measure k st uid :
  max_attempts limits <= u32_max -> keys_available k -> in_range_attempts (w_rows st) ->
  match process_next_for_user k st uid with
  | (Ok true, st') => in_range_attempts (w_rows st') /\ (Mu (w_rows st') < Mu (w_rows st))%nat
  | (Ok false, st') => w_rows st' = w_rows st /\
      (k_health k <> Red -> k_permit k = true ->
       forall id r, w_rows st !! id = Some r -> q_user r = uid -> is_due (k_claim k) r = false)
  | (Err _, _) => True
  end.
Proof.
  intros Hmax Hkeys Hrange. unfold process_next_for_user.
  destruct (decide (k_health k = Red)) as [Hred|Hred]; [done|].
  destruct (k_permit k); cbn [negb]; [|done].
  assert (Hclaim := claim_due_cases (fun s => k_refused k (QsClaim s)) (w_rows st) uid (k_claim k)).
  destruct (claim_due_for_user _ _ _ _ _) as [[item| | |] rows]; [| |done|done].
  2:{ destruct Hclaim as [-> Hnone]. by split. }
  destruct Hclaim as (r & (Hr & Hu & Hd & _) & -> & Hitem).
  pose proof (queue_item_user _ _ _ _ Hitem) as Huser.
  destruct (process_item_outcome k (with_rows st (<[i_id item := claim_row (k_claim k) r]> (w_rows st))) uid item Huser) as [Hb Ho].
  destruct (process_item _ _ _ _) as [[b|] st']; [|done].
  destruct Ho as [(f & ends & Hv & Hrows & _)|[[[=] _]|(_ & e & [=] & _)]]. rewrite (Hb b eq_refl). simpl in Hrows.
  unfold set_row in Hrows. rewrite alter_insert_map, lookup_insert_eq, insert_insert_eq in Hrows. rewrite Hrows.
  pose proof (is_due_pending _ _ Hd) as Hp. pose proof (Hrange _ _ Hr (or_introl Hp)) as Ha.
  assert (Hatt : i_attempts item = q_attempts r + 1).
  { unfold queue_item in Hitem. rewrite lookup_insert_eq in Hitem.
    destruct (_ =? _)%N in Hitem; [|done]. apply (f_equal (fmap i_attempts)) in Hitem. simpl in Hitem.
    injection Hitem as <-. unfold attempts_u32. unfold u32_max in *.
    by rewrite (proj2 (Z.leb_le _ _)), (proj2 (Z.leb_le _ _)) by lia. }
  assert (Hmu : (mu (f (claim_row (k_claim k) r)) < mu r)%nat /\
    (q_status (f (claim_row (k_claim k) r)) = Pending \/ q_status (f (claim_row (k_claim k) r)) = Staging ->
     0 <= q_attempts (f (claim_row (k_claim k) r)) < u32_max)).
  { unfold mu at 2. rewrite decide_True by done. destruct Hv as [paths detail _|detail _|secs detail Hretry].
    - split; [unfold mu; simpl; lia|]. simpl. by intros [].
    - split; [unfold mu; simpl; lia|]. simpl. by intros [].
    - destruct Hretry as [e He _|m p e _ _ _ _ _ Hlt _].
      + destruct (Hkeys (i_user item)) as [m Hm]. congruence.
      + unfold mu. simpl. split; [lia|]. intros _. unfold u32_max in *. lia. }
  destruct Hmu as [Hmu Hrange']. split.
  - intros id r1. destruct (decide (i_id item = id)) as [<-|Hne].
    + rewrite lookup_insert_eq. intros [= <-]. apply Hrange'.
    + rewrite lookup_insert_ne by done. apply Hrange.
  - pose proof (Mu_insert (w_rows st) (i_id item) r (f (claim_row (k_claim k) r)) Hr). lia.
Qed.

Lemma drain_users_measure ks users : max_attempts limits <= u32_max -> (forall n, keys_available (ks n)) ->
  forall n st progress, in_range_attempts (w_rows st) ->
  match drain_users ks n st users progress with
  | (Ok p, _, st') => in_range_attempts (w_rows st') /\ (progress <= p)%nat /\
      (Mu (w_rows st') + (p - progress) <= Mu (w_rows st))%nat /\
      (p = progress -> w_rows st' = w_rows st /\
         forall uid, uid ∈ users -> exists j, k_health (ks j) <> Red -> k_permit (ks j) = true ->
         forall id r, w_rows st !! id = Some r -> q_user r = uid -> is_due (k_claim (ks j)) r = false)
  | (Err _, _, _) => True
  end.
Proof.
  intros Hmax Hkeys. induction users as [|uid users IH]; intros n st progress Hrange; simpl.
  { split_and!; [done|lia|lia|]. intros _. split; [done|]. by intros uid ?%elem_of_nil. }
  destruct (reconcile_frame (ks n) st uid) as [Hrec _].
  pose proof (process_next_measure (ks n) (reconcile_notes (ks n) st uid) uid Hmax (Hkeys n)) as H.
  rewrite Hrec in H. specialize (H Hrange).
  destruct (process_next_for_user (ks n) (reconcile_notes (ks n) st uid) uid) as [[[]|e] st1]; [| |done].
  - destruct H as [Hr1 Hm]. specialize (IH (S n) st1 (S progress) Hr1).
    destruct (drain_users ks (S n) st1 users (S progress)) as [[[p|] n'] st']; [|done].
    destruct IH as (? & ? & ? & _). split_and!; [done|lia|lia|lia].
  - destruct H as [Hrows Hnone]. specialize (IH (S n) st1 progress ltac:(by rewrite Hrows)).
    destruct (drain_users ks (S n) st1 users progress) as [[[p|] n'] st']; [|done].
    rewrite Hrows in IH. destruct IH as (? & ? & ? & Hsame). split_and!; [done|lia|lia|].
    intros Hp. destruct (Hsame Hp) as [Hs1 Hs2]. split; [done|].
    intros u [->|Hin]%elem_of_cons; [by exists n|by apply Hs2].
Qed.

Lemma drain_loop_ends ks : max_attempts limits <= u32_max -> (forall n, keys_available (ks n)) ->
  forall fuel n st total, in_range_attempts (w_rows st) -> (Mu (w_rows st) < fuel)%nat ->
  exists o st', drain_loop fuel ks n st total = Some (o, st') /\
    (forall count t, o = Ok count ->
       (forall j, k_health (ks j) <> Red /\ k_permit (ks j) = true /\ k_claim (ks j) = t) ->
       queue_users_with_due (w_rows st') t = []).
Proof.
  intros Hmax Hkeys. induction fuel as [|fuel IH]; intros n st total Hrange Hfuel; [lia|]. cbn [drain_loop].
  destruct (k_refused (ks n) QsUsers); [by exists (Err WQueue), st|].
  pose proof (users_with_due_spec (w_rows st) (k_claim (ks n))) as Husers.
  destruct (queue_users_with_due (w_rows st) (k_claim (ks n))) as [|uid users] eqn:Hu.
  { exists (Ok total), st. split; [done|]. intros count t _ Hall. destruct (Hall n) as (_ & _ & <-). exact Hu. }
  pose proof (drain_users_measure ks (uid :: users) Hmax Hkeys n st 0 Hrange) as H.
  destruct (drain_users ks n st (uid :: users) 0) as [[[p|e] n'] st'].
  - destruct H as (Hr & _ & Hm & Hsame). destruct p as [|p].
    + exists (Ok total), st'. split; [done|]. intros count t _ Hall. exfalso.
      destruct (Hsame eq_refl) as [_ Hnone]. destruct (Hnone uid ltac:(left)) as [j Hj].
      destruct (Hall j) as (H1 & H2 & H3), (Hall n) as (_ & _ & H4).
      destruct (proj1 (Husers uid) ltac:(left)) as (id & r & Hrow & Huid & Hdue).
      specialize (Hj H1 H2 id r Hrow Huid). congruence.
    + apply IH; [done|lia].
  - by exists (Err e), st'.
Qed.

(** Rows that statements of [recover_staging] change stay in range. *)
Lemma settle_range id f rows : (forall r, q_attempts (f r) = q_attempts r) ->
  (forall r, q_status (f r) = Pending \/ q_status (f r) = Staging -> q_status r = Pending \/ q_status r = Staging) ->
  in_range_attempts rows -> in_range_attempts (set_row rows id f).
Proof.
  intros Ha Hs Hr id' r. rewrite set_row_lookup. destruct (decide (id = id')) as [->|]; [|apply Hr].
  destruct (rows !! id') as [r0|] eqn:E; [|done]. simpl. intros [= <-] H. rewrite Ha. by apply (Hr id'); [|apply Hs].
Qed.
Lemma activate_range id now rows : in_range_attempts rows -> in_range_attempts (activate rows id now).
Proof.
  apply settle_range; intros r; unfold activate_row; [by destruct (q_status r)|].
  destruct (q_status r) eqn:E; simpl; rewrite ?E; auto.
Qed.
Lemma dead_range id d now rows : in_range_attempts rows -> in_range_attempts (mark_dead rows id d now).
Proof. apply settle_range; [done|]. by intros r [|]. Qed.

Lemma recover_staging_range k st : in_range_attempts (w_rows st) -> in_range_attempts (w_rows (recover_staging k st).2).
Proof.
  unfold recover_staging. destruct (k_refused k QsStaging); [done|]. generalize (staging_rows (w_rows st)). intros items. revert st.
  induction items as [|item items IH]; intros st Hr; [done|]. simpl.
  assert (H : in_range_attempts (w_rows (recover_staging_row k item st).2)).
  { unfold recover_staging_row, queue_update. destruct (k_recovery k (i_user item)) as [m|]; [|done].
    destruct (w_blobs st !! _), (k_refused k _); simpl; rewrite ?delete_payload_rows;
      first [done|by apply activate_range|by apply dead_range]. }
  destruct (recover_staging_row k item st) as [[[]|e] st']; [by apply IH|done].
Qed.

(** C37. The drain ends.  As long as the users' keys can be recovered, a
    pass of [run_pending] comes to an end, with any clock, any outcomes of
    the runs and any refused statements, after at most as many rounds as
    the waiting items have attempts left (one more than the limit for each
    item): it needs no more fuel than that.  And a pass that ends without
    an error, during which the backend was never down, the gate gave every
    slot it was asked for and the clock stood still, leaves no item that was
    due: all that was due has been settled or put off.  (A pass with an
    error stops where it was, and the next one goes on.) *)
Theorem drain_terminates ks st fuel :
  max_attempts limits <= u32_max -> (forall n, keys_available (ks n)) -> in_range_attempts (w_rows st) ->
  (Mu (w_rows (recover_staging (ks 0%nat) st).2) < fuel)%nat ->
  exists o st', run_pending fuel ks st = Some (o, st') /\
    (forall count t, o = Ok count ->
       (forall j, k_health (ks j) <> Red /\ k_permit (ks j) = true /\ k_claim (ks j) = t) ->
       queue_users_with_due (w_rows st') t = []).
Proof.
  intros Hmax Hkeys Hr Hfuel. unfold run_pending. pose proof (recover_staging_range (ks 0%nat) st Hr) as Hr'.
  destruct (recover_staging (ks 0%nat) st) as [[[]|e] st1]; [by apply drain_loop_ends|by exists (Err e), st1].
Qed.
End Worker.

(** ** Witness *)
Definition demo_paths : PathsJson := {| paths_to_json ps := join [nl] ps |}.

Definition small_kdf : Kdf.
Proof.
  refine {| hkdf_expand k i := replicate 32 0%N; hmac_sha256 k m := [List.last m 0%N];
            argon2id p s := Some (replicate 32 0%N); hkdf_length k i := eq_refl |}.
  by intros p s k [= <-].
Defined.

Definition demo_key_of (m : MasterKey) (uid id : Uuid) : Uuid * str :=
  @blob_key small_kdf wide_hex char_uuid uid m id.

(** Two items of user 1: one whose runs always time out, one that the agent
    integrates. *)
Definition demo_worker : Worker :=
  mkWorker
    {[ 10%N := mkQueueRow 1 Add Pending 0 [] [5%N] [5%N] None None [];
       11%N := mkQueueRow 1 Update Staging 0 [] [6%N] [6%N] None None [] ]}
    {[ demo_key_of (demo_master 1) 1 10 := BPayload (mkPayload Add [] (lit "note"));
       demo_key_of (demo_master 1) 1 11 := BPayload (mkPayload Update [] (lit "text")) ]}
    ∅ None 0 0 0.
Definition demo_wake (n : nat) : Wake :=
  mkWake Green true (fun _ => Ok (demo_master 1))
    (fun item _ _ => if (i_id item =? 10)%N then RunErr AStepCapExceeded else RunOk [lit "/a.md"] (lit "ok"))
    (fun _ => Ok (lit "/n.md")) (fun _ => Ok (lit "/u.md")) (Ok []) (Ok tt) (Ok []) None true true
    (fun _ => false) 100 100 100 100 100.

Lemma drain_terminates_witness :
  exists st', @run_pending small_kdf wide_hex char_clock char_uuid demo_paths QueueLimits_default 9 demo_wake demo_worker =
    Some (Ok 2%nat, st') /\
  @queue_users_with_due char_clock (w_rows st') 100 = [] /\
  q_status <$> w_rows st' !! 10%N = Some Pending /\ q_status <$> w_rows st' !! 11%N = Some Done.
Proof.
  assert (Hr : in_range_attempts (w_rows demo_worker)).
  { intros id r. unfold demo_worker. cbn [w_rows]. intros [[_ <-]|[_ [_ <-]%lookup_singleton_Some]]%lookup_insert_Some _;
      unfold u32_max; simpl; lia. }
  destruct (@drain_terminates small_kdf wide_hex char_clock char_uuid demo_paths QueueLimits_default demo_wake demo_worker 9)
    as (o & st' & Hrun & Hdrained).
  - done.
  - intros n uid. by exists (demo_master 1).
  - exact Hr.
  - apply Nat.ltb_lt. vm_compute. reflexivity.
  - assert (Hc : (fun x => (x.1, q_status <$> w_rows x.2 !! 10%N, q_status <$> w_rows x.2 !! 11%N)) <$>
      @run_pending small_kdf wide_hex char_clock char_uuid demo_paths QueueLimits_default 9 demo_wake demo_worker =
      Some (Ok 2%nat, Some Pending, Some Done)) by (vm_compute; reflexivity).
    rewrite Hrun in Hc. simpl in Hc. injection Hc as -> H10 H11. exists st'.
    split_and!; [exact Hrun| |exact H10|exact H11].
    apply (Hdrained 2%nat 100 eq_refl). intros j. by split_and!.
Defined.
