(* ===== verification/McpTools.v ===== *)
(** * The MCP tools

    [crates/mycelium-mcp/src]: the bearer's user (auth.rs), the master key
    cache (lib.rs), the tools that enqueue a mutation and look at its
    receipt, the status of a bundle (tools.rs), and the seed overview
    (seed.rs).  The skill tools are in [Skills].

    A tool call runs alone: what the drain worker and other calls do in
    between touches the rows and files of other items. *)
From S2P Require Import Prelude Text Health Graph HotMemory JsonValue Clock Session ApiKey Crypto FileRepo Config Concept Search Lifecycle Revisions SearchIndex Vectors ConceptStore Fallback Users Queue Worker.
Open Scope Z_scope.

(** ** The caller *)
Record McpUser := mkMcpUser { mu_user_id : Uuid; mu_username : str; mu_role : Role; mu_source : str }.
Definition api_key_source (label : str) : str := lit "mcp:" ++ label.

(** ** Results and state *)
Inductive McpError (YE : Type) := EStore (e : ConceptStoreError YE) | EQueue (e : QueueError).
Arguments EStore {YE} e.
Arguments EQueue {YE} e.

(** The bundle of the caller, the queue's table, the hot set, the keys
    unsealed so far, and how often the drain worker was woken *)
Record Mcp := mkMcp {
  ms_store : World; ms_rows : gmap Uuid QueueRow; ms_hot : option (gmap str HotScopeState);
  ms_keys : gmap Uuid MasterKey; ms_wakes : nat }.
Definition with_bundle (w : World) (st : Mcp) : Mcp := mkMcp w (ms_rows st) (ms_hot st) (ms_keys st) (ms_wakes st).
Definition with_queue_rows (r : gmap Uuid QueueRow) (st : Mcp) : Mcp := mkMcp (ms_store st) r (ms_hot st) (ms_keys st) (ms_wakes st).
Definition with_hot (h : option (gmap str HotScopeState)) (st : Mcp) : Mcp := mkMcp (ms_store st) (ms_rows st) h (ms_keys st) (ms_wakes st).
Definition with_keys (k : gmap Uuid MasterKey) (st : Mcp) : Mcp := mkMcp (ms_store st) (ms_rows st) (ms_hot st) k (ms_wakes st).
Definition notify_one (st : Mcp) : Mcp := mkMcp (ms_store st) (ms_rows st) (ms_hot st) (ms_keys st) (S (ms_wakes st)).

(** What a call meets: the fresh id, the clocks of its statements, which
    statements of the queue's table and which read of the user's seal are
    refused, and the store's environment *)
Inductive QueueStatement := SCount | SInsert | SActivate | SDead | SItem.
Record McpEnv := mkMcpEnv {
  me_id : Uuid; me_now : QueueStatement -> Z; me_refused : QueueStatement -> bool; me_seal_refused : bool;
  me_store : Env; me_timestamp : str; me_hot : Z }.

(** ** The seed *)
Definition MAX_SEED_CHARS : nat := 3000.
Definition MAX_DESCRIPTIONS_PER_SEGMENT : nat := 10.
Definition seed_tail : str := [nl; 8230%N] ++ lit " (truncated " ++ [8212%N] ++ lit " use memory_query to explore further)".
Definition count_text (n : nat) : str := show_N (N.of_nat n).

Definition skills_section (entries : list ConceptEntry) : list str :=
  match entries with
  | [] => []
  | _ =>
      let shown := (fun e => lit "    * **" ++ ce_title e ++ lit "** [" ++ ce_concept_type e ++ lit "]") <$> take MAX_DESCRIPTIONS_PER_SEGMENT entries in
      let more := (length entries - length shown)%nat in
      [lit "* skills/ " ++ [8212%N] ++ lit " " ++ count_text (length entries) ++ lit " concept(s):" ++ [nl] ++ join [nl] shown ++
       if (0 <? more)%nat then [nl] ++ lit "    * " ++ [8230%N] ++ lit "and " ++ count_text more ++ lit " more" else []]
  end.
Definition library_section (entries : list ConceptEntry) : list str :=
  match retain (fun e => ends_with (lit "/book.md") (ce_path e)) entries with
  | [] => []
  | books =>
      [lit "* library/ " ++ [8212%N] ++ lit " " ++ count_text (length books) ++ lit " book(s):" ++ [nl] ++
       join [nl] ((fun b => lit "    * **" ++ ce_title b ++ lit "** (" ++ ce_path b ++ lit ")") <$> books)]
  end.
(** [String::truncate]: [None] is its panic. *)
Definition truncate (s : str) (n : nat) : option str :=
  if (byte_len s <=? n)%nat then Some s
  else if is_char_boundary s n then Some (slice_to s n) else None.
Definition seed_text (skills library : list ConceptEntry) : str :=
  match skills_section skills ++ library_section library with
  | [] => lit "The knowledge base is currently empty."
  | sections => lit "Memory segments:" ++ [nl] ++ join [nl] sections
  end.
(** [build_seed]; a listing that fails counts as empty. *)
Definition build_seed (skills library : option (list ConceptEntry)) : option str :=
  let seed := seed_text (default [] skills) (default [] library) in
  if (MAX_SEED_CHARS <? byte_len seed)%nat then (fun s => s ++ seed_tail) <$> truncate seed MAX_SEED_CHARS else Some seed.
(** [refresh_seed]: the process's seed; [None] when the task panics. *)
Definition refresh_seed (skills library : option (list ConceptEntry)) (cached : option str) : option (option str) :=
  Some <$> build_seed skills library.

Section McpTools.
Context {AE : Aead} {KD : Kdf} {HX : Hex} {UT : UuidText} {MJ : MetaJson} {LC : Lowercase} {NL : NaturalLog} {DJ : DocJson}.
Context {RF : Rfc3339} {PJ : PathsJson} {TH : TokenHash} {JT : JsonText} {PY : Json MutationPayload}.
Context {YE : Type} `{!YamlCodec YE} (rfc3339_ok : str -> bool) (service : ServiceKey) (depth_cap : Z).
#[local] Abbreviation Cse := (ConceptStoreError YE).
#[local] Abbreviation Me := (McpError YE).

(** [resolve_user]: the outer [None] of the header is a missing one, the
    inner [None] one that is not visible ASCII. *)
Definition resolve_user (keys : ApiKeys) (users : Users) (header : option (option str)) (now : Z) : option McpUser * ApiKeys :=
  match (auth ← header; auth ← auth; strip_prefix (lit "Bearer ") auth) with
  | None | Some [] => (None, keys)
  | Some token =>
      let '(r, keys) := verify keys token now in
      ((record ← result_ok r; user ← result_ok (get_by_id users (k_user_id record));
        Some (mkMcpUser (u_id user) (u_username user) (u_role user) (api_key_source (k_label record)))), keys)
  end.

(** ** Master keys *)
(** [MasterKeyCache::for_user]; [sealed] is the user's column, if there is
    such a user. *)
Definition unseal_master (sealed : option (option str)) : result MasterKey Cse :=
  match sealed with
  | Some (Some sealed_hex) =>
      match hex_decode sealed_hex with
      | None => Err CDb
      | Some b =>
          match aead_open b (as_bytes (lit "mycelium2/seal/service/v1")) (service_seal_dek service) with
          | Err _ => Err CDb
          | Ok master => match key_from_bytes mkMaster master with Ok k => Ok k | Err _ => Err CDb end
          end
      end
  | _ => Err CDb
  end.
Definition for_user (e : McpEnv) (sealed : Uuid -> option (option str)) (user : Uuid) (st : Mcp) : result MasterKey Cse * Mcp :=
  match ms_keys st !! user with
  | Some k => (Ok k, st)
  | None =>
      if me_seal_refused e then (Err CDb, st)
      else match unseal_master (sealed user) with
           | Ok k => (Ok k, with_keys (<[user := k]> (ms_keys st)) st)
           | Err x => (Err x, st)
           end
  end.

(** ** Enqueueing *)
(** [mutation_queue::write_payload] and [FileRepo::delete] of a payload *)
Definition write_payload (e : McpEnv) (master : MasterKey) (id : Uuid) (p : MutationPayload) (st : Mcp) : result unit FileRepoError * Mcp :=
  let env := me_store e in let w := ms_store st in let k := w_tick w in
  let '(r, d) := write (w_dir w) (payload_path id) (as_bytes (json_to_string p)) (ScopeUser master)
                   (en_nonce env k 0%nat) (en_nonce env k 1%nat) (en_uuid env k) (en_write env k) in
  (r, with_bundle (with_tick (S k) (ConceptStore.with_dir d w)) st).
Definition drop_payload (e : McpEnv) (master : MasterKey) (id : Uuid) (st : Mcp) : Mcp :=
  let w := ms_store st in let k := w_tick w in
  let d := (remove (w_dir w) (payload_path id) (ScopeUser master) (en_fails (me_store e) k)).2 in
  with_bundle (with_tick (S k) (ConceptStore.with_dir d w)) st.
(** [mutation_queue::read_payload] *)
Definition payload_of (master : MasterKey) (id : Uuid) (fails : bool) (st : Mcp) : result (option MutationPayload) FileRepoError :=
  match read (w_dir (ms_store st)) (payload_path id) (ScopeUser master) fails with
  | Ok b => Ok (s ← from_utf8 b; json_from_str s)
  | Err (FIo NotFound) => Ok None
  | Err x => Err x
  end.

Definition abandon_row (e : McpEnv) (master : MasterKey) (id : Uuid) (why : str) (st : Mcp) : Mcp :=
  let st := if me_refused e SDead then st else with_queue_rows (mark_dead (ms_rows st) id why (me_now e SDead)) st in
  drop_payload e master id st.

Definition staging_note (e : McpEnv) (id : Uuid) (content : str) : Concept :=
  mkConcept (mkFrontmatter (lit "Note") (Some (derive_title content)) None None [lit "queue-staging"] (Some (me_timestamp e))
               None None None None None None None None) content (stage_note_path id).
(** Step 3 *)
Definition stage (e : McpEnv) (user : McpUser) (master : MasterKey) (tool : QueueTool) (id : Uuid) (content : str) (st : Mcp)
    : result unit Cse * Mcp :=
  match tool with
  | Add =>
      let cs := ConceptStore_for_user (mu_user_id user) master in
      match put_batch_internal rfc3339_ok cs [staging_note e id content] (me_store e) (ms_store st) with
      | (Ok _, w) => (Ok tt, with_hot (record_hot_write (ms_hot st) (scope_id (cs_scope cs)) (stage_note_path id) (me_hot e)) (with_bundle w st))
      | (Err x, w) => (Err x, with_bundle w st)
      end
  | _ => (Ok tt, st)
  end.

Definition enqueue_row (e : McpEnv) (user : McpUser) (tool : QueueTool) (rows : gmap Uuid QueueRow) : result Uuid QueueError * gmap Uuid QueueRow :=
  enqueue_capped (fun n => me_refused e (match n with O => SCount | S _ => SInsert end)) id rows (me_id e) (mu_user_id user) tool
    depth_cap (mu_source user) (me_now e SInsert).

Definition enqueue_mutation (e : McpEnv) (sealed : Uuid -> option (option str)) (user : McpUser) (tool : QueueTool)
    (content args_json : str) (st : Mcp) : result Uuid Me * Mcp :=
  match for_user e sealed (mu_user_id user) st with
  | (Err x, st) => (Err (EStore x), st)
  | (Ok master, st) =>
      let '(r, rows) := enqueue_row e user tool (ms_rows st) in
      let st := with_queue_rows rows st in
      match r with
      | Err x => (Err (EQueue x), st)
      | Ok id =>
          match write_payload e master id (mkPayload tool args_json content) st with
          | (Err x, st) => (Err (EStore (CRepo x)), abandon_row e master id (lit "enqueue failed: payload blob unwritable") st)
          | (Ok _, st) =>
              match stage e user master tool id content st with
              | (Err x, st) => (Err (EStore x), abandon_row e master id (lit "enqueue failed: staging note unwritable") st)
              | (Ok _, st) =>
                  if me_refused e SActivate then (Err (EQueue QDb), st)
                  else (Ok id, notify_one (with_queue_rows (activate (ms_rows st) id (me_now e SActivate)) st))
              end
          end
      end
  end.

(** ** The mutating tools *)
Definition receipt_text (id : Uuid) : str :=
  lit "accepted, queued receipt=" ++ uuid_to_string id ++ lit " " ++ [8212%N] ++
  lit " the librarian will integrate this in the background; check with memory_status(receipt_id='" ++ uuid_to_string id ++ lit "')".

Record MemoryAddArgs := mkAdd { ma_content : str; ma_path : option str; ma_shelf : option str; ma_concept_type : option str }.
Definition memory_add (e : McpEnv) (sealed : Uuid -> option (option str)) (user : McpUser) (args : MemoryAddArgs) (st : Mcp) : result str Me * Mcp :=
  if bool_decide (trim (ma_content args) = []) then (Err (EStore (CNotFound (lit "content must not be empty"))), st)
  else
    let args_json := show_json (object [("path"%string, option_value (ma_path args)); ("shelf"%string, option_value (ma_shelf args));
                                        ("concept_type"%string, option_value (ma_concept_type args))]) in
    match enqueue_mutation e sealed user Add (ma_content args) args_json st with
    | (Ok id, st) => (Ok (receipt_text id ++ [nl] ++ lit "staging: " ++ stage_note_path id), st)
    | (Err x, st) => (Err x, st)
    end.
Definition memory_update (e : McpEnv) (sealed : Uuid -> option (option str)) (user : McpUser) (instruction : str) (path : option str) (st : Mcp)
    : result str Me * Mcp :=
  if bool_decide (trim instruction = []) then (Err (EStore (CNotFound (lit "instruction must not be empty"))), st)
  else
    match enqueue_mutation e sealed user Update instruction (show_json (object [("path"%string, option_value path)])) st with
    | (Ok id, st) => (Ok (receipt_text id), st)
    | (Err x, st) => (Err x, st)
    end.

(** The concepts of a listing that can be read *)
Fixpoint readable (cs : ConceptStore) (entries : list ConceptEntry) : M Cse (list Concept) :=
  match entries with
  | [] => mret []
  | x :: entries => fun env w =>
      let '(r, w) := get cs (ce_path x) env w in
      let '(rest, w) := readable cs entries env w in
      (result_bind rest (fun l => Ok (match r with Ok c => c :: l | Err _ => l end)), w)
  end.
Definition bundle_health (cs : ConceptStore) : M Cse GraphHealth :=
  entries ← list_concepts cs;
  concepts ← readable cs entries;
  mret (Graph_health (build_graph_from_concepts concepts)).
Definition memory_status (e : McpEnv) (sealed : Uuid -> option (option str)) (user : McpUser) (st : Mcp) : result GraphHealth Me * Mcp :=
  match for_user e sealed (mu_user_id user) st with
  | (Err x, st) => (Err (EStore x), st)
  | (Ok master, st) =>
      let '(r, w) := bundle_health (ConceptStore_for_user (mu_user_id user) master) (me_store e) (ms_store st) in
      (result_map_err EStore r, with_bundle w st)
  end.

Definition healthy_text (h : GraphHealth) : str :=
  lit "Memory is healthy " ++ [8212%N] ++ lit " " ++ count_text (concept_count h) ++ lit " concepts, " ++ count_text (edge_count h) ++
  lit " links, no orphans, no broken links. Nothing to repair.".
Definition memory_maintain (e : McpEnv) (sealed : Uuid -> option (option str)) (user : McpUser) (st : Mcp) : result str Me * Mcp :=
  match memory_status e sealed user st with
  | (Err x, st) => (Err x, st)
  | (Ok h, st) =>
      if (orphan_count h =? 0)%nat && (broken_link_count h =? 0)%nat then (Ok (healthy_text h), st)
      else match enqueue_mutation e sealed user Maintain [] (lit "{}") st with
           | (Ok id, st) => (Ok (receipt_text id), st)
           | (Err x, st) => (Err x, st)
           end
  end.

(** ** Receipts *)
Definition unknown_receipt : str := show_json (object [("state"%string, JString (lit "unknown"))]).
Definition shown_status (s : QueueStatus) : str :=
  match s with
  | Staging | Pending => lit "pending" | Running => lit "running" | Done => lit "done" | Dead => lit "dead"
  end.
(** [serde_json::from_str::<Vec<String>>] *)
Definition paths_value (column : option str) : Value :=
  match column with
  | None => JNull
  | Some s => match parse_json s with
              | Ok (JArray l) => if forallb (fun v => is_some (as_str v)) l then JArray l else JNull
              | _ => JNull
              end
  end.
Definition receipt_json (i : MutationQueueItem) : str :=
  show_json (object [("state"%string, JString (shown_status (i_status i))); ("tool"%string, JString (QueueTool_as_str (i_tool i)));
    ("attempts"%string, JNumber (NPosInt (i_attempts i))); ("created_at"%string, JString (i_created_at i));
    ("updated_at"%string, JString (i_updated_at i)); ("final_paths"%string, paths_value (i_final_paths i));
    ("detail"%string, JString (i_detail i))]).
Definition receipt_view (e : McpEnv) (user : McpUser) (id : str) (rows : gmap Uuid QueueRow) : result str Me :=
  match uuid_parse_str (trim id) with
  | None => Ok unknown_receipt
  | Some uuid =>
      if me_refused e SItem then Err (EQueue QDb)
      else Ok (match queue_item rows (mu_user_id user) uuid with None => unknown_receipt | Some i => receipt_json i end)
  end.
End McpTools.
