(* ===== verification/McpProofs.v ===== *)
(** * The MCP tools: what a call leaves behind

    A mutation that is accepted is a pending item whose payload reads back;
    one that is refused leaves nothing for the drain worker to claim.
    Receipts show their owner's items only. *)
From S2P Require Import Prelude Text Health Graph HotMemory JsonValue Clock Session ApiKey Crypto FileRepo Config Concept Search Lifecycle Revisions SearchIndex Vectors ConceptStore ConceptStoreProofs Fallback Users Queue Worker McpTools.
Open Scope Z_scope.

Section Mcp.
Context {AE : Aead} {KD : Kdf} {HX : Hex} {UT : UuidText} {MJ : MetaJson} {LC : Lowercase} {NL : NaturalLog} {DJ : DocJson}.
Context {RF : Rfc3339} {PJ : PathsJson} {TH : TokenHash} {JT : JsonText} {PY : Json MutationPayload}.
Context {YE : Type} `{!YamlCodec YE} (rfc3339_ok : str -> bool) (service : ServiceKey) (depth_cap : Z).
#[local] Abbreviation enqueue_mutation := (enqueue_mutation (YE := YE) rfc3339_ok service depth_cap).
#[local] Abbreviation stage := (stage (YE := YE) rfc3339_ok).
#[local] Abbreviation for_user := (for_user (YE := YE) service).

(** ** The rows *)
Definition accepted_row (e : McpEnv) (user : McpUser) (tool : QueueTool) : QueueRow :=
  mkQueueRow (mu_user_id user) tool Pending 0 [] (to_rfc3339 (me_now e SInsert)) (to_rfc3339 (me_now e SActivate)) None None (mu_source user).
Definition staging_row (e : McpEnv) (user : McpUser) (tool : QueueTool) : QueueRow :=
  mkQueueRow (mu_user_id user) tool Staging 0 [] (to_rfc3339 (me_now e SInsert)) (to_rfc3339 (me_now e SInsert)) None None (mu_source user).

Lemma enqueue_row_cases e user tool rows r rows' : enqueue_row depth_cap e user tool rows = (r, rows') ->
  (exists x, r = Err x /\ rows' = rows) \/
  r = Ok (me_id e) /\ rows !! me_id e = None /\ Z.of_nat (open_count rows (mu_user_id user)) < depth_cap /\
    rows' = <[me_id e := staging_row e user tool]> rows.
Proof.
  unfold enqueue_row, enqueue_capped, enqueue, id. destruct (me_refused e SCount); [intros [= <- <-]; left; by eexists|].
  destruct (Z.leb_spec depth_cap (Z.of_nat (open_count rows (mu_user_id user)))) as [Hc|Hc]; [intros [= <- <-]; left; by eexists|].
  destruct (me_refused e SInsert); [intros [= <- <-]; left; by eexists|].
  destruct (rows !! me_id e) eqn:E; intros [= <- <-]; [left; by eexists|by right].
Qed.

Lemma for_user_frame e sealed user st r st' : for_user e sealed user st = (r, st') ->
  ms_rows st' = ms_rows st /\ ms_store st' = ms_store st /\ ms_wakes st' = ms_wakes st /\ ms_hot st' = ms_hot st.
Proof.
  unfold McpTools.for_user. destruct (ms_keys st !! user); [by intros [= <- <-]|]. destruct (me_seal_refused e); [by intros [= <- <-]|].
  destruct (unseal_master _ _); by intros [= <- <-].
Qed.
Lemma write_payload_frame e master id p st r st' : write_payload e master id p st = (r, st') ->
  ms_rows st' = ms_rows st /\ ms_wakes st' = ms_wakes st.
Proof. unfold write_payload. destruct (write _ _ _ _ _ _ _ _). by intros [= <- <-]. Qed.
Lemma stage_frame e user master tool id content st r st' : stage e user master tool id content st = (r, st') ->
  ms_rows st' = ms_rows st /\ ms_wakes st' = ms_wakes st.
Proof.
  unfold McpTools.stage. destruct tool; [|by intros [= <- <-]..]. destruct (put_batch_internal _ _ _ _ _) as [[]]; by intros [= <- <-].
Qed.

Lemma abandon_rows e master id why st : ms_wakes (abandon_row e master id why st) = ms_wakes st /\
  ms_rows (abandon_row e master id why st) = if me_refused e SDead then ms_rows st else mark_dead (ms_rows st) id why (me_now e SDead).
Proof. unfold abandon_row, drop_payload. by destruct (me_refused e SDead). Qed.

(** What a refused call leaves of its row: nothing, a dead row, or one that
    is still staging *)
Definition left_over (e : McpEnv) (user : McpUser) (tool : QueueTool) (rows rows' : gmap Uuid QueueRow) : Prop :=
  rows' = rows \/
  rows !! me_id e = None /\ exists row, rows' = <[me_id e := row]> rows /\
    (q_status row = Dead \/ row = staging_row e user tool /\ (me_refused e SDead = true \/ me_refused e SActivate = true)).

Lemma abandoned e user tool master why st rows : rows !! me_id e = None ->
  ms_rows st = <[me_id e := staging_row e user tool]> rows ->
  left_over e user tool rows (ms_rows (abandon_row e master (me_id e) why st)).
Proof.
  intros Hn Hr. right. split; [done|]. rewrite (proj2 (abandon_rows _ _ _ _ _)), Hr. destruct (me_refused e SDead) eqn:E.
  - eexists. split; [done|]. right. split; [done|by left].
  - unfold mark_dead, set_row. rewrite alter_insert_eq. eexists. split; [done|]. by left.
Qed.

Lemma enqueue_outcome e sealed user tool content args_json st r st' :
  enqueue_mutation e sealed user tool content args_json st = (r, st') ->
  match r with
  | Ok id => id = me_id e /\ ms_rows st !! id = None /\ Z.of_nat (open_count (ms_rows st) (mu_user_id user)) < depth_cap /\
      ms_rows st' = <[id := accepted_row e user tool]> (ms_rows st) /\ ms_wakes st' = S (ms_wakes st)
  | Err _ => ms_wakes st' = ms_wakes st /\ left_over e user tool (ms_rows st) (ms_rows st')
  end.
Proof.
  unfold McpTools.enqueue_mutation. destruct (for_user e sealed (mu_user_id user) st) as [[master|x] st1] eqn:Hk;
    destruct (for_user_frame _ _ _ _ _ _ Hk) as (Hr1 & _ & Hw1 & _); [|intros [= <- <-]; split; [done|by left; rewrite Hr1]].
  destruct (enqueue_row depth_cap e user tool (ms_rows st1)) as [r1 rows] eqn:Hq. rewrite Hr1 in Hq.
  destruct (enqueue_row_cases _ _ _ _ _ _ Hq) as [(x & -> & ->)|(-> & Hn & Hc & ->)]; [intros [= <- <-]; split; [done|by left]|].
  destruct (write_payload e master (me_id e) _ _) as [[[]|x] st2] eqn:Hp; destruct (write_payload_frame _ _ _ _ _ _ _ Hp) as [Hr2 Hw2]; cbn in Hr2, Hw2;
    [|intros [= <- <-]; split; [rewrite (proj1 (abandon_rows _ _ _ _ _)); congruence|by apply abandoned]].
  destruct (stage e user master tool (me_id e) content st2) as [[[]|x] st3] eqn:Hs; destruct (stage_frame _ _ _ _ _ _ _ _ _ Hs) as [Hr3 Hw3];
    [|intros [= <- <-]; split; [rewrite (proj1 (abandon_rows _ _ _ _ _)); congruence|apply abandoned; [done|congruence]]].
  destruct (me_refused e SActivate) eqn:Ea; intros [= <- <-].
  - split; [congruence|]. right. split; [done|]. exists (staging_row e user tool). split; [congruence|]. right. split; [done|by right].
  - split_and!; [done|done|done| |cbn; congruence]. cbn [ms_rows with_queue_rows notify_one]. rewrite Hr3, Hr2. unfold activate, set_row.
    by rewrite alter_insert_eq.
Qed.

(** C32. A refused call leaves nothing to claim: whichever step of an enqueue
    fails, the drain worker is not woken, the rows of other items are as
    they were, the users with due items are those before, and if the call
    left a row of its own, then that row is dead, or the statement that
    should have made it so was refused itself (or the activation was) and
    it is still staging: never due, at any time. *)
Theorem refused_never_due e sealed user tool content args_json st x st' :
  enqueue_mutation e sealed user tool content args_json st = (Err x, st') ->
  ms_wakes st' = ms_wakes st /\
  (forall id, id <> me_id e -> ms_rows st' !! id = ms_rows st !! id) /\
  (forall now u, u ∈ queue_users_with_due (ms_rows st') now <-> u ∈ queue_users_with_due (ms_rows st) now) /\
  (forall row, ms_rows st' !! me_id e = Some row -> ms_rows st !! me_id e = Some row \/
     (forall now, is_due now row = false) /\
     (q_status row = Dead \/ q_status row = Staging /\ (me_refused e SDead = true \/ me_refused e SActivate = true))).
Proof.
  intros [Hw Hl]%enqueue_outcome. split; [done|]. destruct Hl as [->|(Hn & row & -> & Hrow)].
  { split_and!; [done|done|by intros; left]. }
  assert (Hs : q_status row = Dead \/ q_status row = Staging) by (destruct Hrow as [?|[-> _]]; [by left|by right]).
  assert (Hdue : forall now, is_due now row = false).
  { intros now. destruct (is_due now row) eqn:E; [|done]. apply is_due_pending in E. by destruct Hs; congruence. }
  split_and!.
  - intros id Hne. by rewrite lookup_insert_ne.
  - intros now u. rewrite !users_with_due_spec. split; intros (id & r & Hr & Hu & Hd); exists id, r; split_and!; try done.
    + destruct (decide (id = me_id e)) as [->|Hne]; [|by rewrite lookup_insert_ne in Hr]. rewrite lookup_insert_eq in Hr.
      injection Hr as <-. by rewrite Hdue in Hd.
    + rewrite lookup_insert_ne; [done|]. intros <-. congruence.
  - intros r. rewrite lookup_insert_eq. intros [= <-]. right. split; [done|]. destruct Hrow as [?|[-> ?]]; [by left|right; by split].
Qed.

(** ** Acceptance *)
Lemma write_payload_done sc e master id p st st' low careful : no_collisions -> repo_scope sc = ScopeUser master ->
  (forall k i, length (en_nonce (me_store e) k i) = NONCE_LEN) -> meta_fits (payload_path id) ->
  Inv (YE := YE) rfc3339_ok sc (ms_store st) -> row sc (ms_store st) (payload_path id) = None ->
  write_payload e master id p st = (Ok tt, st') ->
  acts (YE := YE) rfc3339_ok sc low careful 0 (ms_store st) (ms_store st') /\ only_at sc (payload_path id) (ms_store st) (ms_store st') /\
  content sc (ms_store st') (payload_path id) = Some (as_bytes (json_to_string p)).
Proof.
  intros Hnc Hsc Hno Hf HI Hrow Hrun. unfold write_payload in Hrun. set (w := ms_store st) in *.
  destruct (write (w_dir w) _ _ _ _ _ _ _) as [r d] eqn:Hw. injection Hrun as -> <-. cbn [ms_store with_bundle]. set (w1 := with_tick _ _).
  destruct (file_op_content Hnc sc (OpWrite (payload_path id) (as_bytes (json_to_string p)) (en_nonce (me_store e) (w_tick w) 0%nat)
    (en_nonce (me_store e) (w_tick w) 1%nat) (en_uuid (me_store e) (w_tick w)) (en_write (me_store e) (w_tick w))) (payload_path id) w w1 (Ok tt)) as [Hd Hset].
  - by split_and!.
  - apply HI.
  - cbn [file_op]. by rewrite Hsc.
  - split; [|split; [by eapply only_at_file|rewrite Hset; by rewrite decide_True]]. change 0 with (0 + 0). eapply acts_cons; [|apply acts_nil].
    eapply a_write; [exact Hd|exact Hset|by intros q|done| |by left]. intros _. right. by left.
Qed.

Lemma stage_done e user master tool id content st st' low w0 : no_collisions -> meta_fits (lit "/index.md") -> 1 <= low ->
  env_ok low (me_store e) -> path_fits (stage_note_path id) ->
  Inv (YE := YE) rfc3339_ok (CsUser (mu_user_id user) master) (ms_store st) ->
  only_at (CsUser (mu_user_id user) master) (stage_note_path id) w0 (ms_store st) ->
  stage e user master tool id content st = (Ok tt, st') ->
  Inv (YE := YE) rfc3339_ok (CsUser (mu_user_id user) master) (ms_store st') /\
  only_at (CsUser (mu_user_id user) master) (stage_note_path id) w0 (ms_store st') /\
  (tool = Add -> exists now, is_stored (YE := YE) (CsUser (mu_user_id user) master)
     (stamp (ConceptStore_for_user (mu_user_id user) master) now (staging_note e id content)) (ms_store st')).
Proof.
  intros Hnc Hroot Hlow He Hf HI Ho Hrun. unfold McpTools.stage in Hrun.
  destruct tool; [|by injection Hrun as <-; split_and!|by injection Hrun as <-; split_and!].
  set (cs := ConceptStore_for_user (mu_user_id user) master) in *. set (note := staging_note e id content) in *.
  destruct (put_batch_internal rfc3339_ok cs [note] (me_store e) (ms_store st)) as [[[]|x] w] eqn:Hput; [|done].
  injection Hrun as <-. cbn [ms_store with_hot with_bundle].
  destruct (does_put_single rfc3339_ok Hnc (cs_scope cs) cs low false eq_refl Hlow Hroot note None None w0 ltac:(done) Hf
    (me_store e) (ms_store st) (Ok tt) w He HI Ho Hput) as (k & _ & Ha & Ho' & c' & (now & -> & _) & Hh).
  split_and!; [by eapply acts_inv|done|]. intros _. exists now. by apply holds_stored.
Qed.

(** The names of an item fit, and nothing is listed at its payload. *)
Definition item_fits (sc : ConceptScope) (id : Uuid) (w : World) : Prop :=
  meta_fits (payload_path id) /\ path_fits (stage_note_path id) /\
  reserved_basename (path_basename (payload_path id)) = false /\ w_files w !! (scope_id sc, payload_path id) = None.

Lemma paths_differ id : payload_path id <> stage_note_path id.
Proof.
  intros E%app_inv_head%(f_equal length). rewrite length_app in E. change (length (lit ".md")) with 3%nat in E. lia.
Qed.

(** C18. An accepted call can be carried out.  When a mutation is accepted, its
    id was new and the user below the cap; its row is pending with the
    caller as owner and source and is due at once, the worker was woken,
    and no other row changed.  The payload reads back as the tool, its
    arguments and its content; an addition has its staging note, listed,
    with the content as body; and every other file of the bundle reads as
    before, but for those of reserved names: the addition regenerates the
    indexes of its directories. *)
Theorem accepted_recoverable e sealed user tool content args_json st id st' master low :
  no_collisions -> meta_fits (lit "/index.md") -> 1 <= low -> env_ok low (me_store e) ->
  (for_user e sealed (mu_user_id user) st).1 = Ok master ->
  let cs := ConceptStore_for_user (mu_user_id user) master in
  Inv (YE := YE) rfc3339_ok (cs_scope cs) (ms_store st) -> item_fits (cs_scope cs) (me_id e) (ms_store st) ->
  Forall (fun c => is_scalar c = true) (json_to_string (mkPayload tool args_json content)) ->
  enqueue_mutation e sealed user tool content args_json st = (Ok id, st') ->
  (id = me_id e /\ ms_rows st !! id = None /\ Z.of_nat (open_count (ms_rows st) (mu_user_id user)) < depth_cap /\
   ms_rows st' = <[id := accepted_row e user tool]> (ms_rows st) /\ (forall now, is_due now (accepted_row e user tool) = true) /\
   ms_wakes st' = S (ms_wakes st)) /\
  payload_of master id false st' = Ok (Some (mkPayload tool args_json content)) /\
  (tool = Add -> exists now, is_stored (YE := YE) (cs_scope cs) (stamp cs now (staging_note e id content)) (ms_store st')) /\
  (forall q b, q <> payload_path id -> q <> stage_note_path id -> reserved_basename (path_basename q) = false ->
     read (w_dir (ms_store st')) q (ScopeUser master) false = Ok b <-> read (w_dir (ms_store st)) q (ScopeUser master) false = Ok b) /\
  Inv (YE := YE) rfc3339_ok (cs_scope cs) (ms_store st').
Proof.
  intros Hnc Hroot Hlow He Hm cs HI (Hf & Hnf & Hres & Hrow) Hjson Hrun.
  destruct (enqueue_outcome _ _ _ _ _ _ _ _ _ Hrun) as (-> & Hn & Hc & Hrows & Hw).
  split; [by split_and!|].
  clear Hn Hc Hrows Hw. unfold McpTools.enqueue_mutation in Hrun.
  destruct (for_user e sealed (mu_user_id user) st) as [r st1] eqn:Hk. cbn in Hm. subst r.
  destruct (for_user_frame _ _ _ _ _ _ Hk) as (_ & Hs1 & _). destruct (enqueue_row depth_cap e user tool (ms_rows st1)) as [[i|x] rows]; [|done].
  destruct (write_payload e master i _ _) as [[[]|x] st2] eqn:Hp; [|done]. destruct (stage e user master tool i content st2) as [[[]|x] st3] eqn:Hst; [|done].
  destruct (me_refused e SActivate); [done|]. injection Hrun as Hi <-. subst i. cbn [ms_store notify_one with_queue_rows].
  rewrite <- Hs1 in HI, Hrow |- *. set (w0 := ms_store (with_queue_rows rows st1)) in *. change (ms_store st1) with w0 in *.
  destruct (write_payload_done (cs_scope cs) _ _ _ _ _ _ low false Hnc eq_refl (eo_nonce _ _ He) Hf HI Hrow Hp) as (Ha & Ho & Hcont).
  assert (HI2 := acts_inv _ _ _ _ _ _ _ Ha HI).
  destruct (stage_done _ _ _ _ _ _ _ _ low (ms_store st2) Hnc Hroot Hlow He Hnf HI2 ltac:(by split) Hst) as (HI3 & Ho3 & Hnote).
  change (cs_scope cs) with (CsUser (mu_user_id user) master) in *. split_and!; [|done| |done].
  - destruct (Ho3 (payload_path (me_id e)) (paths_differ _) Hres) as [Hc3 _]. rewrite Hcont in Hc3. apply content_read in Hc3.
    unfold payload_of. cbn [ms_store notify_one with_queue_rows]. cbn [repo_scope] in Hc3. rewrite Hc3.
    rewrite from_utf8_as_bytes by done. cbn. by rewrite json_roundtrip.
  - intros q b Hq1 Hq2 Hqr. destruct (Ho3 q Hq2 Hqr) as [E3 _]. destruct (Ho q Hq1 Hqr) as [E0 _]. rewrite E0 in E3.
    pose proof (content_read (CsUser (mu_user_id user) master)) as Hr. cbn [repo_scope] in Hr. by rewrite <- !Hr, E3.
Qed.

(** ** Receipts *)
Lemma queue_item_own rows rows' user id :
  (forall j r, q_user r = user -> rows !! j = Some r <-> rows' !! j = Some r) -> queue_item rows user id = queue_item rows' user id.
Proof.
  intros H. unfold queue_item. destruct (rows !! id) as [r|] eqn:E, (rows' !! id) as [r'|] eqn:E'; try done.
  - destruct (N.eqb_spec (q_user r) user) as [Hr|Hr]; [apply (H _ _ Hr) in E; rewrite E in E'; injection E' as ->; by rewrite Hr, N.eqb_refl|].
    destruct (N.eqb_spec (q_user r') user) as [Hr'|]; [|done]. apply (H _ _ Hr') in E'. congruence.
  - destruct (N.eqb_spec (q_user r) user) as [Hr|]; [|done]. apply (H _ _ Hr) in E. congruence.
  - destruct (N.eqb_spec (q_user r') user) as [Hr|]; [|done]. apply (H _ _ Hr) in E'. congruence.
Qed.

(** Receipts show their owner's items only: two tables that agree on the
    caller's rows give the same answer to every id, an id that is no UUID,
    one that is absent and one of another user get the one answer
    [unknown], and no answer says that an item is staging. *)
Theorem receipts_private e user id rows :
  (forall rows', (forall j r, q_user r = mu_user_id user -> rows !! j = Some r <-> rows' !! j = Some r) ->
     receipt_view (YE := YE) e user id rows' = receipt_view e user id rows) /\
  (me_refused e SItem = false ->
   (forall uuid r, uuid_parse_str (trim id) = Some uuid -> rows !! uuid = Some r -> q_user r <> mu_user_id user) ->
     receipt_view (YE := YE) e user id rows = Ok unknown_receipt) /\
  (forall s, shown_status s <> QueueStatus_as_str Staging).
Proof.
  split_and!.
  - intros rows' H. unfold receipt_view. destruct (uuid_parse_str _) as [uuid|]; [|done]. by rewrite (queue_item_own rows rows').
  - intros Hr H. unfold receipt_view. destruct (uuid_parse_str _) as [uuid|]; [|done]. rewrite Hr. unfold queue_item.
    destruct (rows !! uuid) as [r|] eqn:E; [|done]. destruct (N.eqb_spec (q_user r) (mu_user_id user)) as [Hu|]; [|done].
    by destruct (H uuid r eq_refl E).
  - by intros [].
Qed.

(** ** The caller *)
Theorem bearer_is_key_owner keys sp users header now u keys' : Inj (=) (=) hash_token -> printable now -> refines keys sp ->
  resolve_user keys users header now = (Some u, keys') ->
  exists token id k, header = Some (Some (lit "Bearer " ++ token)) /\ token <> [] /\ sp !! id = Some (token, k) /\
    k_revoked_at k = None /\ mu_user_id u = k_user_id k /\ mu_source u = api_key_source (k_label k) /\
    refines keys' (spec_verify sp token now).2.
Proof.
  intros Hinj Hn HR Hrun. unfold resolve_user in Hrun.
  destruct header as [[auth|]|]; [|done..]. change (auth ← Some (Some auth); auth ← auth; strip_prefix (lit "Bearer ") auth) with (strip_prefix (lit "Bearer ") auth) in Hrun.
  destruct (strip_prefix (lit "Bearer ") auth) as [[|c token]|] eqn:Hs; [done| |done]. apply strip_prefix_Some in Hs as ->.
  destruct (verify_refines keys sp (c :: token) now Hinj Hn HR) as [Hv HR'].
  destruct (verify keys (c :: token) now) as [r keys1]. cbn [fst snd] in *. destruct r as [k|]; cbn in Hrun; [|done].
  destruct (get_by_id users (k_user_id k)) as [rec|] eqn:Hg; cbn in Hrun; [|done]. injection Hrun as <- <-.
  unfold spec_verify in Hv, HR'. pose proof (spec_find keys sp (c :: token) HR) as Hf.
  destruct (find_first _ (map_to_list sp)) as [[id [tok k']]|] eqn:Ef; [|done]. destruct Hf as [Hk ->].
  destruct (k_revoked_at k') eqn:Hrev; [done|]. injection Hv as <-. exists (c :: token), id, k. split_and!; try done.
  - unfold get_by_id in Hg. destruct (users !! _) as [row|]; [|done]. cbn in Hg. rewrite uuid_roundtrip in Hg. cbn in Hg.
    destruct (Role_parse _); [|done]. cbn in Hg. destruct (parse_from_rfc3339 _); [|done]. cbn in Hg. by injection Hg as <-.
  - unfold spec_verify. by rewrite Ef, Hrev.
Qed.
End Mcp.

(** ** The seed *)
(** The overview is at most 3000 bytes and the tail; it panics exactly when
    the text is longer and its 3000th byte is inside a character. *)
Theorem seed_bounded skills library :
  (forall s, build_seed skills library = Some s -> (byte_len s <= MAX_SEED_CHARS + byte_len seed_tail)%nat) /\
  (build_seed skills library = None <->
     (MAX_SEED_CHARS < byte_len (seed_text (default [] skills) (default [] library)))%nat /\
     is_char_boundary (seed_text (default [] skills) (default [] library)) MAX_SEED_CHARS = false).
Proof.
  unfold build_seed. set (t := seed_text _ _). unfold truncate. destruct (Nat.ltb_spec MAX_SEED_CHARS (byte_len t)) as [Hl|Hl].
  - destruct (Nat.leb_spec (byte_len t) MAX_SEED_CHARS) as [|_]; [lia|]. destruct (is_char_boundary t MAX_SEED_CHARS) eqn:Hb.
    + cbn. split; [|split; [done|by intros [_ ?]]]. intros s [= <-]. rewrite byte_len_app. destruct (slice_to_spec _ _ Hb) as (_ & _ & ->). done.
    + cbn. split; [done|]. by split.
  - split; [|split; [done|lia]]. intros s [= <-]. lia.
Qed.

(** ** Witnesses *)
Module McpDemo.
#[local] Existing Instances demo_aead demo_kdf wide_hex char_uuid plain_meta ascii_lowercase sample_log pair_json type_only char_clock demo_paths plain_token_hash.

(** A payload as the tool, the length of the arguments, and the texts *)
Definition tool_char (t : QueueTool) : char := match t with Add => 0%N | Update => 1%N | Maintain => 2%N end.
#[local] Instance payload_json : Json MutationPayload.
Proof.
  refine {| json_to_string p := tool_char (p_tool p) :: N.of_nat (length (p_args_json p)) :: p_args_json p ++ p_content p;
            json_from_str s := match s with
              | t :: n :: rest => Some (mkPayload (if (t =? 0)%N then Add else if (t =? 1)%N then Update else Maintain)
                                          (take (N.to_nat n) rest) (drop (N.to_nat n) rest))
              | _ => None
              end |}.
  intros [t a c]. cbn. rewrite Nat2N.id, take_app_length, drop_app_length. by destruct t.
Defined.
#[local] Instance no_texts : JsonText := {| show_json _ := lit "{}"; parse_json _ := Err (lit "expected value") |}.

Definition ann : McpUser := mkMcpUser 5%N (lit "ann") User (api_key_source (lit "laptop")).
Definition env_in (env : Env) (refused : QueueStatement -> bool) : McpEnv := mkMcpEnv 7%N (fun _ => 10) refused false env (lit "now") 10.
Definition quiet : McpEnv := env_in Demo.calm (fun _ => false).
Definition empty_mcp : Mcp := mkMcp Demo.empty_world ∅ None {[5%N := demo_master 1]} 0.
Definition add_in (e : McpEnv) (text : string) : result Uuid (McpError unit) * Mcp :=
  enqueue_mutation Demo.any_date (mkService [7%N]) 50 e (fun _ => None) ann Add (lit text) (lit "{}") empty_mcp.
Definition open_rows (r : result Uuid (McpError unit) * Mcp) : list (Uuid * QueueStatus) := (fun kv => (kv.1, q_status kv.2)) <$> map_to_list (ms_rows r.2).

Example accepted_add : (add_in quiet "water boils").1 = Ok 7%N /\ open_rows (add_in quiet "water boils") = [(7%N, Pending)] /\
  payload_of (demo_master 1) 7%N false (add_in quiet "water boils").2 = Ok (Some (mkPayload Add (lit "{}") (lit "water boils"))).
Proof. split; [|split]; vm_compute; reflexivity. Qed.

Definition is_err {A E} (r : result A E) : bool := match r with Ok _ => false | Err _ => true end.
Definition dying : McpEnv := env_in Demo.stuck (fun _ => false).
Definition half_dead : McpEnv := env_in Demo.calm (fun s => match s with SActivate => true | _ => false end).

Example refused_write : is_err (add_in dying "water boils").1 = true /\ open_rows (add_in dying "water boils") = [(7%N, Dead)].
Proof. split; vm_compute; reflexivity. Qed.

(** A call whose activation is refused reports an error, yet its row and
    payload stay, and the boot sweep makes it pending: it is integrated
    although the caller was told that it failed. *)
Definition wake_up : Wake := demo_wake 0.
Definition reboot (st : Mcp) : Worker :=
  snd (recover_on_boot wake_up
    (mkWorker (ms_rows st)
       (match payload_of (demo_master 1) 7%N false st with Ok (Some p) => {[blob_key 5%N (demo_master 1) 7%N := BPayload p]} | _ => ∅ end)
       ∅ None 0 0 0)).
Example refused_yet_recovered :
  is_err (add_in half_dead "water boils").1 = true /\ open_rows (add_in half_dead "water boils") = [(7%N, Staging)] /\
  (fun kv => q_status kv.2) <$> map_to_list (w_rows (reboot (add_in half_dead "water boils").2)) = [Pending].
Proof. split; [|split]; vm_compute; reflexivity. Qed.

Lemma refused_never_due_witness : exists x st', add_in dying "water boils" = (Err x, st') /\
  ms_wakes st' = 0%nat /\ forall row, ms_rows st' !! 7%N = Some row -> q_status row = Dead.
Proof.
  assert (He : is_err (add_in dying "water boils").1 = true) by (vm_compute; reflexivity).
  unfold add_in in *. destruct (enqueue_mutation Demo.any_date (mkService [7%N]) 50 dying (fun _ => None) ann Add (lit "water boils") (lit "{}") empty_mcp)
    as [[id|x] st'] eqn:E; [discriminate He|]. exists x, st'. split; [reflexivity|].
  destruct (refused_never_due Demo.any_date (mkService [7%N]) 50 dying (fun _ => None) ann Add (lit "water boils") (lit "{}") empty_mcp x st' E)
    as (Hw & _ & _ & Hr). split; [exact Hw|]. intros row Hrow. destruct (Hr row Hrow) as [Ho|[_ [Hd|[_ [Hd|Hd]]]]].
  - discriminate Ho.
  - exact Hd.
  - discriminate Hd.
  - discriminate Hd.
Defined.

Lemma empty_inv : Inv (YE := unit) Demo.any_date (CsUser 5%N (demo_master 1)) Demo.empty_world.
Proof. apply fresh_inv. exact Demo.empty_fresh. Qed.
Lemma item_seven : item_fits (CsUser 5%N (demo_master 1)) 7%N Demo.empty_world.
Proof. split; [by vm_compute|]. split; [by split; vm_compute|]. by split. Qed.

Lemma accepted_recoverable_witness : exists st', add_in quiet "water boils" = (Ok 7%N, st') /\
  payload_of (demo_master 1) 7%N false st' = Ok (Some (mkPayload Add (lit "{}") (lit "water boils"))) /\
  exists now, is_stored (YE := unit) (CsUser 5%N (demo_master 1))
    (stamp (ConceptStore_for_user 5%N (demo_master 1)) now (staging_note quiet 7%N (lit "water boils"))) (ms_store st').
Proof.
  assert (He : is_err (add_in quiet "water boils").1 = false) by (vm_compute; reflexivity).
  unfold add_in in *. destruct (enqueue_mutation Demo.any_date (mkService [7%N]) 50 quiet (fun _ => None) ann Add (lit "water boils") (lit "{}") empty_mcp)
    as [[id|x] st'] eqn:E; [|discriminate He].
  destruct (accepted_recoverable Demo.any_date (mkService [7%N]) 50 quiet (fun _ => None) ann Add (lit "water boils") (lit "{}") empty_mcp id st'
    (demo_master 1) 1 demo_no_collisions Demo.root_fits ltac:(lia) (Demo.env_with_ok1 _) eq_refl empty_inv item_seven) with (2 := E)
    as ((Hid & _) & Hp & Hs & _).
  { apply Forall_forall. intros c Hc. assert (Hall : forallb is_scalar (json_to_string (mkPayload Add (lit "{}") (lit "water boils"))) = true) by (vm_compute; reflexivity).
    apply (proj1 (List.forallb_forall _ _) Hall), list_elem_of_In, Hc. }
  subst id. exists st'. split; [reflexivity|]. split; [exact Hp|exact (Hs eq_refl)].
Defined.

Definition minted : result MintedKey ApiKeyError * ApiKeys := mint ∅ true [1; 2]%N 9%N 5%N (lit "laptop") 10.
Definition people : Users := {[uuid_to_string 5%N := mkUserDbRow (lit "ann") (lit "ann@x") (lit "user") (lit "local") None [] 0 None (to_rfc3339 3) (to_rfc3339 3)]}.
Definition bearer (token : str) : option McpUser := (resolve_user minted.2 people (Some (Some (lit "Bearer " ++ token))) 20).1.
Example bearer_resolves : bearer (lit "myc2-" ++ hex_encode [1; 2]%N) = Some ann /\ bearer (lit "myc2-") = None /\
  (resolve_user minted.2 people (Some (Some (lit "bearer x"))) 20).1 = None.
Proof. split; [|split]; vm_compute; reflexivity. Qed.

(** Books whose titles are dashes of three bytes: the text is longer than
    3000 bytes and the 3000th is inside one of them. *)
Definition dashes (n : nat) : list ConceptEntry :=
  replicate n (mkConceptEntry (lit "/b/book.md") (replicate 40 8212%N) (lit "Book") []).
Example seed_panics : build_seed (Some []) (Some (dashes 30)) = None.
Proof. vm_compute. reflexivity. Qed.
End McpDemo.
