(* ===== verification/ChatRunner.v ===== *)
(** * The chat runner

    [crates/mycelium-web/src/chat_runner.rs] (the detached run of a turn,
    its live channel and its guard), [chat_resume.rs] (one pass of the
    resume worker) and the streams of [chat_api.rs], over the tables of
    [Chat].  A run is a program over the shared world: before each of its
    accesses others may have changed the world, an access may fail, and the
    task may die there.  The agent, the gate's answer and the health states
    are what the run observes of them. *)
From S2P Require Import Prelude Text Clock Crypto Health Gate Llm Worker Chat.
Open Scope Z_scope.

Definition CHAT_CHANNEL_CAPACITY : nat := 256.
Definition MAX_HISTORY_PAIRS : nat := 20.
Definition LLM_UNAVAILABLE : str :=
  lit "the librarian is unavailable (no LLM backend reachable) " ++ [8212%N] ++ lit " configure one in the admin portal".
Definition CHAT_CAPACITY_MSG : str := lit "LLM at capacity " ++ [8212%N] ++ lit " turn not started (queue full)".

Definition llm_failure_detail (e : LlmError) (backend : BackendState) : str :=
  if bool_decide (backend = Disabled) then LLM_UNAVAILABLE else short_detail (LlmError_display e).

(** [json!({"name": .., "detail": ..}).to_string()], and the members [name]
    and [detail] of a parsed value where they are strings *)
Class ToolJson := {
  tool_json : str -> str -> str;
  tool_parse : str -> option (option str * option str);
  tool_roundtrip name detail : tool_parse (tool_json name detail) = Some (Some name, Some detail);
  tool_text name detail : Forall (fun c => is_scalar c = true) name -> Forall (fun c => is_scalar c = true) detail ->
    Forall (fun c => is_scalar c = true) (tool_json name detail) }.

(** ** Events and the registry *)
Inductive ChatSseKind :=
  | SseSession (id : Uuid) | SseQueued (position : nat) | SseAdmitted | SseTool (name detail : str)
  | SseDone (reply : str) | SseAssistant (reply : str) | SseError (error : str).
Record ChatSseEvent := mkEvent { ev_kind : ChatSseKind; ev_seq : Z }.

(** The fields of the wire form *)
Inductive SseField := FStr (s : str) | FNum (z : Z) | FId (u : Uuid).
Definition event_fields (e : ChatSseEvent) : list (str * SseField) :=
  let seq := [(lit "seq", FNum (ev_seq e))] in
  match ev_kind e with
  | SseQueued p => [(lit "type", FStr (lit "queued")); (lit "position", FNum (Z.of_nat p))]
  | SseAdmitted => [(lit "type", FStr (lit "admitted"))]
  | SseSession id => [(lit "type", FStr (lit "session")); (lit "session_id", FId id)] ++ seq
  | SseTool n d => [(lit "type", FStr (lit "tool")); (lit "name", FStr n); (lit "detail", FStr d)] ++ seq
  | SseDone r => [(lit "type", FStr (lit "done")); (lit "reply", FStr r)] ++ seq
  | SseAssistant r => [(lit "type", FStr (lit "assistant")); (lit "reply", FStr r)] ++ seq
  | SseError m => [(lit "type", FStr (lit "error")); (lit "error", FStr m)] ++ seq
  end.

(** A live channel, [broadcast::channel(CHAT_CHANNEL_CAPACITY)]: the record
    of what was sent on it so far, of which its ring holds the last
    [CHAT_CHANNEL_CAPACITY] events.  Dropping the sender is removing the
    entry; the receivers keep the ring. *)
Abbreviation ChatRunRegistry := (gmap Uuid (list ChatSseEvent)) (only parsing).
Definition register (turn : Uuid) (r : ChatRunRegistry) : ChatRunRegistry := <[turn := []]> r.
Definition unregister (turn : Uuid) (r : ChatRunRegistry) : ChatRunRegistry := delete turn r.
Definition registered (turn : Uuid) (r : ChatRunRegistry) : bool := bool_decide (is_Some (r !! turn)).
(** A receiver is the number of the next event it is to get: it sees what is
    sent from now on. *)
Definition subscribe (turn : Uuid) (r : ChatRunRegistry) : option nat := length <$> r !! turn.
(** What a receiver gets when its next event is number [next]: a send never
    waits for the receivers, so an event more than a ring's length back was
    overwritten.  [closed]: the sender is gone. *)
Inductive Recv := RGot (e : ChatSseEvent) | RLagged | RClosed | RWaits.
Definition recv (next : nat) (sent : list ChatSseEvent) (closed : bool) : Recv :=
  if (next + CHAT_CHANNEL_CAPACITY <? length sent)%nat then RLagged
  else match sent !! next with
       | Some e => RGot e
       | None => if closed then RClosed else RWaits
       end.
Definition send_broadcast (turn : Uuid) (e : ChatSseEvent) (r : ChatRunRegistry) : ChatRunRegistry :=
  match r !! turn with Some l => <[turn := l ++ [e]]> r | None => r end.

(** ** Programs *)
(** The turn a run works on *)
Record RunTurn := mkRunTurn { rt_user : Uuid; rt_master : MasterKey; rt_session : Uuid; rt_turn : Uuid; rt_user_seq : Z; rt_resumed : bool }.

(** The tables, the registry, and the runs spawned so far *)
Record RunWorld := mkRunWorld { rw_chat : Chat; rw_runs : ChatRunRegistry; rw_tasks : list RunTurn }.

(** The three places where a run reads the health state *)
Inductive HealthRead := AtAdmission | AfterRun | ForDetail.

(** What happens at the [k]-th access *)
Record RunEnv := mkRunEnv {
  re_between : nat -> RunWorld -> RunWorld;  (* what others did since the last *)
  re_dies : nat -> bool;                     (* the task ends before it *)
  re_fails : nat -> nat -> bool;             (* which of its statements fail: 0 and 1 those on
                                                turns, 2 a transaction, 3 and up reads *)
  re_now : nat -> str;
  re_nonce : nat -> bytes;
  re_uuid : nat -> Uuid;
  re_health : HealthRead -> BackendState }.

(** [None]: the task has ended. *)
Definition R (A : Type) : Type := RunEnv -> nat -> RunWorld -> option A * (nat * RunWorld).
Definition ret {A} (a : A) : R A := fun _ k w => (Some a, (k, w)).
Definition bind {A B} (m : R A) (f : A -> R B) : R B :=
  fun env k w => match m env k w with (Some a, (k, w)) => f a env k w | (None, s) => (None, s) end.
Definition access {A} (f : RunEnv -> nat -> RunWorld -> A * RunWorld) : R A :=
  fun env k w => if re_dies env k then (None, (k, w))
                 else let '(a, w) := f env k (re_between env k w) in (Some a, (S k, w)).
Definition health (at_ : HealthRead) : R BackendState := fun env k w => (Some (re_health env at_), (k, w)).
Declare Scope run_scope.
Delimit Scope run_scope with run.
Notation "x ⟵ m ; k" := (bind m (fun x => k)) (at level 20, m at level 100, k at level 200, right associativity) : run_scope.
Open Scope run_scope.

Fixpoint each {A} (f : A -> R unit) (l : list A) : R unit :=
  match l with [] => ret tt | x :: l => _ ⟵ f x; each f l end.

Definition on_runs (f : ChatRunRegistry -> ChatRunRegistry) : R unit :=
  access (fun _ _ w => (tt, mkRunWorld (rw_chat w) (f (rw_runs w)) (rw_tasks w))).
Definition on_chat {A} (f : RunEnv -> nat -> Chat -> A * Chat) : R A :=
  access (fun env k w => let '(a, c) := f env k (rw_chat w) in (a, mkRunWorld c (rw_runs w) (rw_tasks w))).

Section Runner.
Context {AE : Aead} {KD : Kdf} {HX : Hex} {UT : UuidText} {TJ : ToolJson}.

Definition append (user : Uuid) (m : MasterKey) (session : Uuid) (role : ChatRole) (content : str) : R (result Z ChatError) :=
  on_chat (fun env k c => append_message user m session role content (re_now env k) (re_nonce env k) (negb (re_fails env k 2%nat)) c).
Definition finalize (user turn : Uuid) (status : ChatTurnStatus) : R (result unit ChatError) :=
  on_chat (fun env k c => finalize_turn user turn status (re_now env k) (re_fails env k) c).
Definition park (user turn : Uuid) (why : str) : R (result unit ChatError) :=
  on_chat (fun env k c => park_waiting user turn (Some why) (re_now env k) (re_fails env k) c).
Definition rows_after (user : Uuid) (m : MasterKey) (session : Uuid) (after : Z) : R (result (list ChatMessageRow) ChatError) :=
  on_chat (fun env k c => (messages_after user m session after (re_fails env k 3%nat) c, c)).
Definition broadcast (turn : Uuid) (e : ChatSseEvent) : R unit := on_runs (send_broadcast turn e).

(** ** One run *)

(** Rows to completed pairs and the message still unanswered *)
Fixpoint scan_rows (user_seq : Z) (rows : list ChatMessageRow) (pairs : list (str * str)) (pending : option str)
    : list (str * str) * option str :=
  match rows with
  | [] => (pairs, pending)
  | row :: rows =>
      if user_seq <? cm_seq row then (pairs, pending)
      else match cm_role row with
           | RoleUser => scan_rows user_seq rows pairs (Some (cm_content row))
           | RoleAssistant =>
               match pending with
               | Some msg => scan_rows user_seq rows (pairs ++ [(msg, cm_content row)]) None
               | None => scan_rows user_seq rows pairs None
               end
           | RoleTool | RoleError => scan_rows user_seq rows pairs pending
           end
  end.
Definition conversation (pairs : list (str * str)) (pending : option str) : list ConversationTurn :=
  concat ((fun p => [CtUser p.1; CtAssistant p.2]) <$> drop (length pairs - MAX_HISTORY_PAIRS) pairs) ++
  match pending with Some msg => [CtUser msg] | None => [] end.
Definition history_of (user_seq : Z) (rows : list ChatMessageRow) : list ConversationTurn :=
  let '(pairs, pending) := scan_rows user_seq rows [] None in conversation pairs pending.
Definition rebuild_history (user : Uuid) (m : MasterKey) (session : Uuid) (user_seq : Z) : R (result (list ConversationTurn) ChatError) :=
  rows ⟵ rows_after user m session 0;
  ret (match rows with Ok rows => Ok (history_of user_seq rows) | Err e => Err e end).

Definition event_row (e : AgentEvent) : ChatRole * str * ChatSseKind :=
  match e with
  | EvTool n d => (RoleTool, tool_json n d, SseTool n d)
  | EvDone r => (RoleAssistant, r, SseDone r)
  | EvFailed m => (RoleError, m, SseError m)
  end.

(** What a run observes of gate and agent *)
Record RunSees := mkRunSees {
  rs_positions : list nat; rs_admission : result unit GateError;
  rs_agent : list ConversationTurn -> list AgentEvent * result str AgentError }.

Section Turn.
Context (t : RunTurn) (sees : RunSees).

Definition emit_event (e : AgentEvent) : R unit :=
  let '(role, content, kind) := event_row e in
  r ⟵ append (rt_user t) (rt_master t) (rt_session t) role content;
  match r with Ok seq => broadcast (rt_turn t) (mkEvent kind seq) | Err _ => ret tt end.

Definition park_turn (why : str) : R unit :=
  _ ⟵ park (rt_user t) (rt_turn t) why;
  on_runs (unregister (rt_turn t)).

Definition finish_turn (status : ChatTurnStatus) (error_row : option str) : R unit :=
  _ ⟵ match error_row with
      | Some message =>
          r ⟵ append (rt_user t) (rt_master t) (rt_session t) RoleError message;
          match r with Ok seq => broadcast (rt_turn t) (mkEvent (SseError message) seq) | Err _ => ret tt end
      | None => ret tt
      end;
  _ ⟵ finalize (rt_user t) (rt_turn t) status;
  on_runs (unregister (rt_turn t)).

Definition is_done (e : AgentEvent) : bool := match e with EvDone _ => true | _ => false end.
Definition is_failed (e : AgentEvent) : bool := match e with EvFailed _ => true | _ => false end.

(** The end of an admitted run *)
Definition settle (events : list AgentEvent) (res : result str AgentError) : R unit :=
  match res with
  | Ok reply =>
      _ ⟵ (if existsb is_done events then ret tt else emit_event (EvDone reply));
      finish_turn Done None
  | Err (ALlm e) =>
      state ⟵ health AfterRun;
      if is_backend_down e && negb (bool_decide (state = Disabled)) then park_turn (short_detail (LlmError_display e))
      else
        state ⟵ health ForDetail;
        finish_turn (if rt_resumed t then Interrupted else Failed) (Some (llm_failure_detail e state))
  | Err e => finish_turn Failed (if existsb is_failed events then None else Some (AgentError_display e))
  end.

Definition admitted_run (history : list ConversationTurn) : R unit :=
  let '(events, res) := rs_agent sees history in
  _ ⟵ each emit_event events;
  settle events res.

(** The rest of the run once the transcript was read *)
Definition run_from (history : result (list ConversationTurn) ChatError) : R unit :=
  match history with
  | Err _ => finish_turn Failed (Some (lit "the librarian could not read the session transcript"))
  | Ok history =>
      state ⟵ health AtAdmission;
      if bool_decide (state = Red) then park_turn (short_detail (lit "backend unhealthy at admission"))
      else
        _ ⟵ each (fun p => broadcast (rt_turn t) (mkEvent (SseQueued p) 0)) (rs_positions sees);
        match rs_admission sees with
        | Err Closed => finish_turn Interrupted None
        | Err Timeout => finish_turn Failed (Some CHAT_CAPACITY_MSG)
        | Ok _ =>
            _ ⟵ match rs_positions sees with [] => ret tt | _ => broadcast (rt_turn t) (mkEvent SseAdmitted 0) end;
            admitted_run history
        end
  end.
Definition run_body : R unit :=
  history ⟵ rebuild_history (rt_user t) (rt_master t) (rt_session t) (rt_user_seq t);
  run_from history.

(** [RunGuard]: its drop runs whenever the task ends. *)
Definition guard_drop : R unit :=
  live ⟵ access (fun _ _ w => (registered (rt_turn t) (rw_runs w), w));
  if live then
    _ ⟵ finalize (rt_user t) (rt_turn t) (if rt_resumed t then Interrupted else Failed);
    _ ⟵ append (rt_user t) (rt_master t) (rt_session t) RoleError (lit "the librarian stopped unexpectedly");
    on_runs (unregister (rt_turn t))
  else ret tt.
Definition undying (env : RunEnv) : RunEnv :=
  mkRunEnv (re_between env) (fun _ => false) (re_fails env) (re_now env) (re_nonce env) (re_uuid env) (re_health env).
Definition run_chat_turn (env : RunEnv) (k : nat) (w : RunWorld) : RunWorld :=
  let '(_, (k, w)) := run_body env k w in
  let '(_, (_, w)) := guard_drop (undying env) k w in w.
End Turn.
End Runner.
