(* ===== verification/ChatRunnerProofs.v ===== *)
(** * What a chat run leaves behind

    A small program logic for the programs of [ChatRunner], the runs that
    always settle their turn, the streams that lose nothing, and the
    history the model is given. *)
From stdpp Require Import sorting.
From S2P Require Import Prelude Text Clock Crypto FileRepo Health Gate Llm Worker Chat ChatProofs ChatRunner.
Open Scope Z_scope.

(** ** The history *)

(** The questions and answers of the rows up to the trigger *)
Definition dialogue (user_seq : Z) (rows : list ChatMessageRow) : list ConversationTurn :=
  omap (fun r => match cm_role r with
                 | RoleUser => Some (CtUser (cm_content r)) | RoleAssistant => Some (CtAssistant (cm_content r)) | _ => None end)
    (retain (fun r => cm_seq r <=? user_seq) rows).
(** A question directly followed by its answer *)
Fixpoint answered (l : list ConversationTurn) : list (str * str) :=
  match l with
  | CtUser q :: ((CtAssistant a :: l') as rest) => (q, a) :: answered l'
  | _ :: rest => answered rest
  | [] => []
  end.
Definition unanswered (l : list ConversationTurn) : list ConversationTurn :=
  match last l with Some (CtUser q) => [CtUser q] | _ => [] end.

Definition row_turn (r : ChatMessageRow) : option ConversationTurn :=
  match cm_role r with RoleUser => Some (CtUser (cm_content r)) | RoleAssistant => Some (CtAssistant (cm_content r)) | _ => None end.
Definition pend (o : option str) : list ConversationTurn := match o with Some q => [CtUser q] | None => [] end.

Lemma answered_pend o l : answered (pend o ++ l) = match o, l with Some q, CtAssistant a :: l' => (q, a) :: answered l' | _, _ => answered l end.
Proof. destruct o; [|done]. simpl. by destruct l as [|[] l]. Qed.

Lemma scan_rows_spec u rows pairs pending :
  StronglySorted (fun a b => cm_seq a < cm_seq b) rows ->
  scan_rows u rows pairs pending =
    (pairs ++ answered (pend pending ++ dialogue u rows),
     match last (pend pending ++ dialogue u rows) with Some (CtUser q) => Some q | _ => None end).
Proof.
  intros Hs. revert pairs pending. induction Hs as [|r rows Hs IH Hr]; intros pairs pending.
  - simpl. unfold dialogue. simpl. rewrite app_nil_r. destruct pending; simpl; by rewrite ?app_nil_r.
  - simpl. destruct (u <? cm_seq r) eqn:E; to_prop.
    + assert (dialogue u (r :: rows) = []) as ->.
      { unfold dialogue. rewrite (proj2 (retain_nil _ _)); [done|]. intros x Hx. apply Z.leb_gt.
        apply elem_of_cons in Hx as [->|Hx]; [done|]. rewrite Forall_forall in Hr. specialize (Hr x Hx). lia. }
      rewrite app_nil_r. destruct pending; simpl; by rewrite ?app_nil_r.
    + assert (Hd : dialogue u (r :: rows) = (match row_turn r with Some t => [t] | None => [] end) ++ dialogue u rows).
      { unfold dialogue, row_turn. simpl. rewrite (proj2 (Z.leb_le _ _)) by done. csimpl. by destruct (cm_role r). }
      rewrite Hd. unfold row_turn. destruct (cm_role r); simpl.
      * rewrite IH. unfold pend at 1 2. rewrite !answered_pend. destruct pending; simpl; by rewrite ?last_cons.
      * by rewrite IH.
      * destruct pending; rewrite IH; simpl; rewrite ?last_cons, <- ?app_assoc; simpl; by destruct (last (dialogue u rows)) as [[]|].
      * by rewrite IH.
Qed.

Lemma conversation_length pairs pending : (length (conversation pairs pending) <= 2 * MAX_HISTORY_PAIRS + 1)%nat.
Proof.
  unfold conversation. rewrite length_app.
  assert (H : forall l : list (str * str), length (concat ((fun p => [CtUser p.1; CtAssistant p.2]) <$> l)) = (2 * length l)%nat).
  { induction l as [|p l IH]; [done|]. rewrite fmap_cons, List.concat_cons, length_app, IH. simpl. lia. }
  rewrite H, length_drop. unfold MAX_HISTORY_PAIRS; destruct pending; simpl; lia.
Qed.

(** The history of a run is the last twenty answered questions of the
    transcript up to its trigger, oldest first, and the trigger: a
    question counts as answered by an assistant row only when nothing but
    tool and error rows is in between.  It has at most 41 entries, and
    when the trigger is the last question, ends with it. *)
Theorem history_recent_pairs user_seq rows :
  StronglySorted (fun a b => cm_seq a < cm_seq b) rows ->
  let pairs := answered (dialogue user_seq rows) in
  history_of user_seq rows =
    concat ((fun p => [CtUser p.1; CtAssistant p.2]) <$> drop (length pairs - 20) pairs) ++ unanswered (dialogue user_seq rows) /\
  (length (history_of user_seq rows) <= 41)%nat /\
  (forall before trigger, rows = before ++ [trigger] -> cm_seq trigger = user_seq -> cm_role trigger = RoleUser ->
     last (history_of user_seq rows) = Some (CtUser (cm_content trigger))).
Proof.
  intros Hs pairs. assert (E : history_of user_seq rows =
    concat ((fun p => [CtUser p.1; CtAssistant p.2]) <$> drop (length pairs - 20) pairs) ++ unanswered (dialogue user_seq rows)).
  { unfold history_of. rewrite scan_rows_spec by done. simpl. fold pairs. unfold conversation. f_equal. unfold unanswered.
    by destruct (last (dialogue user_seq rows)) as [[]|]. }
  split_and!; [done| |].
  - unfold history_of. destruct (scan_rows _ _ _ _). apply conversation_length.
  - intros before trigger -> Hseq Hrole. rewrite E.
    assert (Hl : last (dialogue user_seq (before ++ [trigger])) = Some (CtUser (cm_content trigger))).
    { unfold dialogue. rewrite List.filter_app. simpl. rewrite Hseq, (proj2 (Z.leb_le _ _)) by lia.
      rewrite omap_app. csimpl. rewrite Hrole. apply last_snoc. }
    unfold unanswered. rewrite Hl. apply last_snoc.
Qed.

Section Runner.
Context {AE : Aead} {KD : Kdf} {HX : Hex} {UT : UuidText} {TJ : ToolJson}.

(** ** Steps that concern other turns *)
Definition elsewhere (u s t : Uuid) (op : ChatOp) : Prop :=
  op_ok op /\
  match op with
  | CreateSession u' _ _ _ _ _ _ => u' <> u
  | DeleteSession _ s' _ => s' <> s
  | CreateTurn _ _ s' _ t' _ _ _ _ => s' <> s /\ t' <> t
  | ClaimResumable _ _ t' _ _ | ClaimWaiting _ _ t' _ _ | FinalizeTurn _ t' _ _ _ | ParkWaiting _ t' _ _ _ => t' <> t
  | AppendMessage _ _ _ _ _ _ _ _ => True
  | BootSweep _ _ => False
  end.

(** The session is the user's, and the turn in it has the status. *)
Definition turn_at (u s t : Uuid) (st : ChatTurnStatus) (c : Chat) : Prop :=
  turns_inv (turns c) /\ NoDup (se_id <$> sessions c) /\ owned u s c = true /\
  exists r, r ∈ turns c /\ tu_id r = t /\ tu_session r = s /\ tu_status r = st.

Lemma ids_create u m title id now n b c : NoDup (se_id <$> sessions c) ->
  NoDup (se_id <$> sessions (snd (create_session u m title id now n b c))).
Proof.
  intros Hn. destruct (create_session _ _ _ _ _ _ _ _) as [r c'] eqn:E.
  apply create_session_is in E as [[-> _]|(sealed & _ & _ & Hid & ->)]; [done|]. simpl. rewrite fmap_app. apply NoDup_app.
  split_and!; [|by intros x Hx ->%list_elem_of_singleton|apply NoDup_singleton].
  destruct (prune_is u c) as [->|(gone & -> & _)]; [done|]. eapply sublist_NoDup; [exact Hn|]. apply fmap_sublist, retain_sub.
Qed.

Lemma append_sessions u m s r x now n b c :
  se_id <$> sessions (snd (append_message u m s r x now n b c)) = se_id <$> sessions c /\
  (forall u' s', owned u' s' (snd (append_message u m s r x now n b c)) = owned u' s' c).
Proof.
  unfold append_message. destruct b; [|done]. destruct (owned u s c); [|done]. simpl.
  unfold insert_message. destruct (seal_hex _ _ _ _); [|done]. simpl. split.
  - apply fmap_same. intros y _. unfold touch. by case_match.
  - intros u' s'. unfold owned. simpl. induction (sessions c) as [|y l IH]; [done|]. cbn. rewrite IH. f_equal. unfold touch. by case_match.
Qed.

Lemma create_turn_sessions u m s x t now ts n b c :
  se_id <$> sessions (snd (create_turn u m s x t now ts n b c)) = se_id <$> sessions c /\
  (forall u' s', owned u' s' (snd (create_turn u m s x t now ts n b c)) = owned u' s' c).
Proof.
  unfold create_turn. destruct b; [|done]. destruct (owned u s c); [|done]. simpl.
  unfold insert_message. destruct (seal_hex _ _ _ _); [|done]. simpl. destruct (_ || _); [done|]. split.
  - apply fmap_same. intros y _. unfold touch. by case_match.
  - intros u' s'. unfold owned. simpl. induction (sessions c) as [|y l IH]; [done|]. cbn. rewrite IH. f_equal. unfold touch. by case_match.
Qed.

Lemma in_map_same {A} (f : A -> A) (l : list A) x : x ∈ l -> f x = x -> x ∈ f <$> l.
Proof. intros H E. rewrite <- E. by apply list_elem_of_fmap_2. Qed.

Lemma turn_at_update u s t st c c' : sessions c' = sessions c -> turns_inv (turns c') ->
  (forall r, r ∈ turns c -> tu_id r = t -> r ∈ turns c') -> turn_at u s t st c -> turn_at u s t st c'.
Proof.
  intros Es Hi Hr (_ & Hn & Ho & r & Hin & Et & Ers). split_and!; [done|by rewrite Es|by unfold owned in *; rewrite Es|].
  exists r. split; [by apply Hr|done].
Qed.

Lemma id_ne t t' (r : TurnRow) : t' <> t -> tu_id r = t -> id_eqb (tu_id r) t' = false.
Proof. intros Hne ->. apply N.eqb_neq. congruence. Qed.

Lemma elsewhere_keeps u s t st op c : elsewhere u s t op -> turn_at u s t st c -> turn_at u s t st (apply_op op c).
Proof.
  intros [Hok He] Hat. pose proof Hat as (Hi & Hn & Ho & r & Hr & Et & Es & Est).
  assert (Hi' : turns_inv (turns (apply_op op c))) by (eapply shape_inv; [done|]; by apply op_turns).
  destruct op as [u' m title i now n b|u' s' b|u' m s' ro x now n b|u' m s' x tid now ts n b|u' s' tid now b|u' s' tid now b|u' tid sta now b|u' tid e now b|now b]; simpl in *; [..|done].
  - pose proof (ids_create u' m title i now n b c Hn) as Hn'. destruct (create_session _ _ _ _ _ _ _ _) as [res c'] eqn:E. simpl in *.
    apply create_session_is in E as [[-> _]|(sealed & _ & _ & Hid & ->)]; [done|]. simpl in *.
    split_and!; [done|done| |].
    + apply owned_in in Ho as (y & Hy & Ey & Eu). apply owned_in. exists y. split; [|done]. apply elem_of_app. left.
      destruct (prune_is u' c) as [->|(gone & -> & Hg)]; [done|]. apply elem_of_retain. split; [done|].
      apply negb_true_iff, not_true_is_false. intros (z & [[Hz Euz%id_eqb_eq]%elem_of_retain _]%elem_of_prunable & Ez)%Hg.
      assert (z = y) as -> by (eapply NoDup_fmap_inj_elem; [exact Hn|done..]). congruence.
    + exists r. split; [|done]. destruct (prune_is u' c) as [->|(gone & -> & Hg)]; [done|]. apply elem_of_retain. split; [done|].
      apply negb_true_iff, not_true_is_false. rewrite Es. intros (z & [[Hz Euz%id_eqb_eq]%elem_of_retain _]%elem_of_prunable & Ez)%Hg.
      apply owned_in in Ho as (y & Hy & Ey & Eu).
      assert (z = y) as -> by (eapply NoDup_fmap_inj_elem; [exact Hn|done..|congruence]). congruence.
  - unfold delete_owned in *. destruct b; [done|]. destruct (owned u' s' c) eqn:Eo; [|done]. simpl in *.
    assert (Hs : forall id, id = s -> negb (id_eqb s' id) = true) by (intros id ->; apply negb_true_iff, N.eqb_neq; congruence).
    split_and!; [done|eapply sublist_NoDup; [exact Hn|]; apply fmap_sublist, retain_sub| |].
    + apply owned_in in Ho as (y & Hy & Ey & Eu). apply owned_in. exists y. split; [|done]. apply elem_of_retain. split; [done|]. by apply Hs.
    + exists r. split; [|done]. apply elem_of_retain. split; [done|]. by apply Hs.
  - destruct (append_sessions u' m s' ro x now n b c) as [E1 E2]. split_and!; [done|by rewrite E1|by rewrite E2|].
    rewrite append_turns. by exists r.
  - destruct (create_turn_sessions u' m s' x tid now ts n b c) as [E1 E2]. split_and!; [done|by rewrite E1|by rewrite E2|].
    exists r. split; [|done]. destruct (create_turn _ _ _ _ _ _ _ _ _ _) as [res c'] eqn:E.
    apply create_turn_turns in E as [->|(nt & _ & Etu & _)]; [done|]. simpl. rewrite Etu. apply elem_of_app. left.
    apply in_map_same; [done|]. unfold supersede, in_session. destruct He as [He _].
    assert (id_eqb (tu_session r) s' = false) as -> by (apply N.eqb_neq; congruence). done.
  - destruct (claim_turns (claim_resumable_row now) resumable u' s' tid b c Hi) as [_ E]; [intros; by apply resume_moves|].
    unfold claim_resumable in *. rewrite E in *. destruct b; [done|]. eapply (turn_at_update _ _ _ _ c); [done|done| |exact Hat].
    intros r' Hr' Et'. apply in_map_same; [done|]. by rewrite (id_ne _ _ _ He Et').
  - destruct (claim_turns (claim_waiting_row now) (status_is WaitingBackend) u' s' tid b c Hi) as [_ E]; [intros; by apply weather_moves|].
    unfold claim_waiting in *. rewrite E in *. destruct b; [done|]. eapply (turn_at_update _ _ _ _ c); [done|done| |exact Hat].
    intros r' Hr' Et'. apply in_map_same; [done|]. by rewrite (id_ne _ _ _ He Et').
  - destruct (end_running_turns (set_status sta now) u' tid b c Hi) as [_ E]; [intros; apply end_moves; tauto|].
    unfold finalize_turn in *. rewrite E in *. destruct (b 0%nat); [done|]. eapply (turn_at_update _ _ _ _ c); [done|done| |exact Hat].
    intros r' Hr' Et'. apply in_map_same; [done|]. by rewrite (id_ne _ _ _ He Et').
  - destruct (end_running_turns (park_row e now) u' tid b c Hi) as [_ E]; [intros; by apply park_moves|].
    unfold park_waiting in *. rewrite E in *. destruct (b 0%nat); [done|]. eapply (turn_at_update _ _ _ _ c); [done|done| |exact Hat].
    intros r' Hr' Et'. apply in_map_same; [done|]. by rewrite (id_ne _ _ _ He Et').
Qed.

Lemma run_at u s t st ops c : Forall (elsewhere u s t) ops -> turn_at u s t st c -> turn_at u s t st (run_ops ops c).
Proof. intros H. revert c. induction H as [|op ops Hop _ IH]; intros c Hc; [done|]. apply IH. by apply elsewhere_keeps. Qed.

Lemma append_at u s t st u' m s' r x now n b c : turn_at u s t st c ->
  turn_at u s t st (snd (append_message u' m s' r x now n b c)).
Proof. apply (elsewhere_keeps u s t st (AppendMessage u' m s' r x now n b)). done. Qed.

(** The turn's own ending *)
Lemma ended_at (f : TurnRow -> TurnRow) u s t st st' fails c :
  turn_at u s t st c -> fails 0%nat = false ->
  (forall r, turn_wf r -> status_is Running r = true -> may_become r (f r) /\ turn_wf (f r)) ->
  (forall r, tu_status (f r) = st') ->
  turn_at u s t (if bool_decide (st = Running) then st' else st) (snd (end_running f u t fails c)).
Proof.
  intros (Hi & Hn & Ho & r & Hr & Et & Es & Est) Hf Hm Hst.
  destruct (end_running_turns f u t fails c Hi Hm) as [Hmv E]. rewrite E, Hf. split_and!; [by apply inv_moves|done|done|].
  set (g := fun x => if id_eqb (tu_id x) t && status_is Running x && owned u (tu_session x) c then f x else x).
  exists (g r). split; [by apply (list_elem_of_fmap_2 g)|]. subst g. simpl. rewrite Et, id_eqb_refl, Es, Ho, andb_true_r. simpl.
  unfold status_is. rewrite Est. destruct (bool_decide (st = Running)) eqn:Eb; [|by rewrite Et, Es].
  apply bool_decide_eq_true in Eb. subst st. assert (Hrun : status_is Running r = true) by (apply status_is_true; congruence).
  destruct Hi as (_ & Hw & _). rewrite Forall_forall in Hw. destruct (Hm r (Hw r Hr) Hrun) as [(E1 & E2 & _) _]. by rewrite E1, E2, Et, Es.
Qed.

(** ** Programs, with what holds when they end and when the task dies *)
Definition hoare {A} (env : RunEnv) (P : RunWorld -> Prop) (m : R A) (Q : A -> RunWorld -> Prop) (D : RunWorld -> Prop) : Prop :=
  forall k w, P w ->
    match m env k w with
    | (Some a, (_, w')) => Q a w'
    | (None, (_, w')) => (exists k, re_dies env k = true) /\ D w'
    end.

Lemma h_ret {A} env (a : A) Q D : hoare env (Q a) (ret a) Q D.
Proof. by intros k w H. Qed.
Lemma h_weaken {A} env P P' (m : R A) Q Q' D D' :
  hoare env P m Q D -> (forall w, P' w -> P w) -> (forall a w, Q a w -> Q' a w) -> (forall w, D w -> D' w) -> hoare env P' m Q' D'.
Proof.
  intros H HP HQ HD k w Hw. specialize (H k w (HP w Hw)). destruct (m env k w) as [[a|] [k' w']]; [by apply HQ|].
  destruct H. split; [done|by apply HD].
Qed.
Lemma h_bind {A B} env P (m : R A) (f : A -> R B) Q Q' D :
  hoare env P m Q D -> (forall a, hoare env (Q a) (f a) Q' D) -> hoare env P (x ⟵ m; f x)%run Q' D.
Proof.
  intros H Hf k w Hw. specialize (H k w Hw). unfold bind. destruct (m env k w) as [[a|] [k' w']]; [by apply Hf|done].
Qed.
Lemma h_access {A} env P (f : RunEnv -> nat -> RunWorld -> A * RunWorld) Q D :
  (forall k w, P w -> P (re_between env k w)) -> (forall w, P w -> D w) ->
  (forall k w, P w -> Q (fst (f env k w)) (snd (f env k w))) -> hoare env P (access f) Q D.
Proof.
  intros Hs HD Hf k w Hw. unfold access. destruct (re_dies env k) eqn:Ed; [by eauto|].
  specialize (Hf k _ (Hs k w Hw)). by destruct (f env k _).
Qed.
Lemma h_each {A} env P (f : A -> R unit) l D : (forall x, hoare env P (f x) (fun _ => P) D) -> hoare env P (each f l) (fun _ => P) D.
Proof.
  intros H. induction l as [|x l IH]; [intros k w Hw; exact Hw|]. simpl. eapply h_bind; [apply H|]. by intros ?.
Qed.
Lemma h_health env P at_ D : hoare env P (health at_) (fun st w => st = re_health env at_ /\ P w) D.
Proof. by intros k w Hw. Qed.

(** ** Every run settles its turn *)

(** What the run of a turn ends with *)
Definition verdict (health_at : HealthRead -> BackendState) (sees : RunSees) (resumed : bool)
    (history : result (list ConversationTurn) ChatError) : ChatTurnStatus :=
  match history with
  | Err _ => Failed
  | Ok history =>
      if bool_decide (health_at AtAdmission = Red) then WaitingBackend
      else match rs_admission sees with
           | Err Closed => Interrupted
           | Err Timeout => Failed
           | Ok _ =>
               match snd (rs_agent sees history) with
               | Ok _ => Done
               | Err (ALlm e) =>
                   if is_backend_down e && negb (bool_decide (health_at AfterRun = Disabled)) then WaitingBackend
                   else if resumed then Interrupted else Failed
               | Err _ => Failed
               end
           end
  end.
Definition guard_status (resumed : bool) : ChatTurnStatus := if resumed then Interrupted else Failed.

Lemma verdict_ended h sees resumed history : verdict h sees resumed history <> Running.
Proof. unfold verdict. by repeat case_match. Qed.

Section Settles.
Context (t : RunTurn) (sees : RunSees) (env : RunEnv).

(** Others leave the turn and its channel alone. *)
Definition others_elsewhere : Prop := forall k w, exists ops,
  Forall (elsewhere (rt_user t) (rt_session t) (rt_turn t)) ops /\
  rw_chat (re_between env k w) = run_ops ops (rw_chat w) /\
  rw_runs (re_between env k w) !! rt_turn t = rw_runs w !! rt_turn t.
(** The database refuses some UPDATE of turns. *)
Definition refused : Prop := exists k, re_fails env k 0%nat = true.
Context (Hother : others_elsewhere).

Definition at_ (st : ChatTurnStatus) (live : bool) (w : RunWorld) : Prop :=
  turn_at (rt_user t) (rt_session t) (rt_turn t) st (rw_chat w) /\ registered (rt_turn t) (rw_runs w) = live.

Lemma at_stable st live k w : at_ st live w -> at_ st live (re_between env k w).
Proof.
  intros [Ha Hl]. destruct (Hother k w) as (ops & Hops & Ec & Er). split.
  - rewrite Ec. by apply run_at.
  - unfold registered in *. by rewrite Er.
Qed.

(** The turn has been ended as [st], unless the UPDATE was refused: that is
    only logged, and leaves it running. *)
Definition rests (st : ChatTurnStatus) (live : bool) (w : RunWorld) : Prop := at_ st live w \/ (at_ Running live w /\ refused).
Lemma rests_stable st live k w : rests st live w -> rests st live (re_between env k w).
Proof. intros [H|[H Hr]]; [left|right; split; [|done]]; by apply at_stable. Qed.

(** Where a run that should end with [v] may be found when it dies *)
Definition underway (v : ChatTurnStatus) (w : RunWorld) : Prop := at_ Running true w \/ exists live, rests v live w.

Lemma h_at {A} st live (f : RunEnv -> nat -> RunWorld -> A * RunWorld) st' live' v :
  (forall k w, at_ st live w -> at_ st' live' (snd (f env k w))) -> (st = Running /\ live = true \/ st = v) ->
  hoare env (at_ st live) (access f) (fun _ => at_ st' live') (underway v).
Proof.
  intros Hf Hd. apply h_access; [apply at_stable| |done].
  intros w Hw. destruct Hd as [[-> ->]| ->]; [by left|right; exists live; by left].
Qed.

Lemma h_append st live r x v : (st = Running /\ live = true \/ st = v) ->
  hoare env (at_ st live) (append (rt_user t) (rt_master t) (rt_session t) r x) (fun _ => at_ st live) (underway v).
Proof.
  intros Hd. apply h_at; [|done]. intros k w [Ha Hl].
  pose proof (append_at _ _ _ _ (rt_user t) (rt_master t) (rt_session t) r x (re_now env k) (re_nonce env k) (negb (re_fails env k 2%nat)) _ Ha) as H.
  destruct (append_message _ _ _ _ _ _ _ _ _) as [res c]. by split.
Qed.
Lemma h_broadcast st e v : (st = Running \/ st = v) ->
  hoare env (at_ st true) (broadcast (rt_turn t) e) (fun _ => at_ st true) (underway v).
Proof.
  intros Hd. apply h_at; [|naive_solver]. intros k w [Ha Hl]. split; [done|]. unfold registered, send_broadcast in *. simpl.
  destruct (rw_runs w !! rt_turn t); [by rewrite lookup_insert_eq|done].
Qed.
(** An access that leaves the turn where it is *)
Lemma h_rests {A} st live live' (f : RunEnv -> nat -> RunWorld -> A * RunWorld) :
  (forall st k w, at_ st live w -> at_ st live' (snd (f env k w))) ->
  hoare env (rests st live) (access f) (fun _ => rests st live') (underway st).
Proof.
  intros Hf. apply h_access; [apply rests_stable|intros w Hw; right; by exists live|].
  intros k w [H|[H Hr]]; [left|right; split; [|done]]; by apply Hf.
Qed.
Lemma h_rests_append st live r x :
  hoare env (rests st live) (append (rt_user t) (rt_master t) (rt_session t) r x) (fun _ => rests st live) (underway st).
Proof.
  apply h_rests. intros st' k w [Ha Hl].
  pose proof (append_at _ _ _ _ (rt_user t) (rt_master t) (rt_session t) r x (re_now env k) (re_nonce env k) (negb (re_fails env k 2%nat)) _ Ha) as H.
  destruct (append_message _ _ _ _ _ _ _ _ _) as [res c]. by split.
Qed.
Lemma h_unregister st : hoare env (rests st true) (on_runs (unregister (rt_turn t))) (fun _ => rests st false) (underway st).
Proof. apply h_rests. intros st' k w [Ha _]. split; [done|]. unfold registered, unregister. simpl. by rewrite lookup_delete_eq. Qed.

(** The UPDATE that ends a running turn *)
Lemma h_end (f : str -> TurnRow -> TurnRow) st v :
  (forall now r, turn_wf r -> status_is Running r = true -> may_become r (f now r) /\ turn_wf (f now r)) ->
  (forall now r, tu_status (f now r) = v) ->
  let v' := if bool_decide (st = Running) then v else st in
  hoare env (at_ st true) (on_chat (fun env k c => end_running (f (re_now env k)) (rt_user t) (rt_turn t) (re_fails env k) c))
    (fun _ => rests v' true) (fun w => at_ st true w).
Proof.
  intros Hm Hs v'. apply h_access; [apply at_stable|done|]. intros k w [Ha Hl].
  destruct (re_fails env k 0%nat) eqn:Ef.
  - destruct (end_running_turns (f (re_now env k)) (rt_user t) (rt_turn t) (re_fails env k) _ (proj1 Ha) (Hm _)) as [_ E].
    rewrite Ef in E. destruct (end_running _ _ _ _ _) as [res c]. simpl in *. subst c.
    destruct (decide (st = Running)) as [->|Hne].
    + right. split; [by split|by exists k].
    + left. subst v'. by rewrite (bool_decide_eq_false_2 _ Hne).
  - pose proof (ended_at (f (re_now env k)) _ _ _ _ v (re_fails env k) _ Ha Ef (Hm _) (Hs _)) as H.
    destruct (end_running _ _ _ _ _) as [res c]. left. by split.
Qed.
Lemma h_finalize st v : v = Done \/ v = Failed \/ v = Interrupted ->
  hoare env (at_ st true) (finalize (rt_user t) (rt_turn t) v)
    (fun _ => rests (if bool_decide (st = Running) then v else st) true) (fun w => at_ st true w).
Proof. intros Hv. apply (h_end (set_status v) st v); [intros; apply end_moves; tauto|done]. Qed.
Lemma h_park why : hoare env (at_ Running true) (park (rt_user t) (rt_turn t) why) (fun _ => rests WaitingBackend true) (fun w => at_ Running true w).
Proof. apply (h_end (park_row (Some why)) Running WaitingBackend); [intros; by apply park_moves|done]. Qed.

Lemma h_emit e v : hoare env (at_ Running true) (emit_event t e) (fun _ => at_ Running true) (underway v).
Proof.
  unfold emit_event. destruct (event_row e) as [[role content] kind]. eapply h_bind; [apply h_append; auto|].
  intros [seq|err]; [apply h_broadcast; auto|apply (h_ret env tt (fun _ => at_ Running true))].
Qed.
Lemma h_finish v row : v = Done \/ v = Failed \/ v = Interrupted ->
  hoare env (at_ Running true) (finish_turn t v row) (fun _ => rests v false) (underway v).
Proof.
  intros Hv. unfold finish_turn. eapply (h_bind _ _ _ _ (fun _ => at_ Running true)).
  - destruct row as [x|]; [|apply (h_ret env tt (fun _ => at_ Running true))]. eapply h_bind; [apply h_append; auto|].
    intros [seq|err]; [apply h_broadcast; auto|apply (h_ret env tt (fun _ => at_ Running true))].
  - intros ?; cbv beta. eapply h_bind; [|intros ?; cbv beta; by apply h_unregister].
    eapply h_weaken; [by apply (h_finalize Running v)|done|done|by left].
Qed.
Lemma h_park_turn why : hoare env (at_ Running true) (park_turn t why) (fun _ => rests WaitingBackend false) (underway WaitingBackend).
Proof.
  unfold park_turn. eapply h_bind; [|intros ?; cbv beta; by apply h_unregister].
  eapply h_weaken; [apply h_park|done|done|by left].
Qed.

Lemma h_settle events res v :
  v = match res with
      | Ok _ => Done
      | Err (ALlm e) => if is_backend_down e && negb (bool_decide (re_health env AfterRun = Disabled)) then WaitingBackend
                        else guard_status (rt_resumed t)
      | Err _ => Failed
      end ->
  hoare env (at_ Running true) (settle t events res) (fun _ => rests v false) (underway v).
Proof.
  intros Hv. unfold settle. destruct res as [reply|[m|e| |n r]]; rewrite Hv; try (apply h_finish; auto).
  - eapply (h_bind _ _ _ _ (fun _ => at_ Running true)); [|intros ?; apply h_finish; auto].
    destruct (existsb is_done events); [apply (h_ret env tt (fun _ => at_ Running true))|apply h_emit].
  - eapply h_bind; [apply h_health|]. intros st. intros k w [-> Hw]. revert k w Hw.
    destruct (is_backend_down e && _); [apply h_park_turn|].
    eapply (h_bind _ _ _ _ (fun _ => at_ Running true)); [intros k w Hw; exact Hw|]. intros st. apply h_finish.
    unfold guard_status. destruct (rt_resumed t); auto.
Qed.

Lemma h_run_from history :
  let v := verdict (re_health env) sees (rt_resumed t) history in
  hoare env (at_ Running true) (run_from t sees history) (fun _ => rests v false) (underway v).
Proof.
  intros v. unfold run_from. destruct history as [history|e]; [|apply h_finish; auto].
  eapply h_bind; [apply h_health|]. intros st k w [-> Hw]. revert k w Hw. subst v. simpl.
  destruct (bool_decide (re_health env AtAdmission = Red)); [apply h_park_turn|].
  eapply (h_bind _ _ _ _ (fun _ => at_ Running true)); [apply h_each; intros; apply h_broadcast; auto|]. intros ?; cbv beta.
  destruct (rs_admission sees) as [?|[]]; [|apply h_finish; auto..].
  eapply (h_bind _ _ _ _ (fun _ => at_ Running true)).
  { destruct (rs_positions sees); [apply (h_ret env tt (fun _ => at_ Running true))|apply h_broadcast; auto]. }
  intros ?; cbv beta. unfold admitted_run. destruct (rs_agent sees history) as [events res].
  eapply (h_bind _ _ _ _ (fun _ => at_ Running true)); [apply h_each; intros; apply h_emit|]. intros ?; cbv beta.
  by apply h_settle.
Qed.

Lemma h_rebuild : hoare env (at_ Running true) (rebuild_history (rt_user t) (rt_master t) (rt_session t) (rt_user_seq t))
  (fun _ => at_ Running true) (at_ Running true).
Proof.
  unfold rebuild_history. eapply (h_bind _ _ _ _ (fun _ => at_ Running true)).
  - apply h_access; [apply at_stable|done|by intros k w].
  - intros a k w Hw. exact Hw.
Qed.
End Settles.

(** The guard leaves alone what is not live any more, and ends the rest. *)
Lemma guard_settles t env k w st live : others_elsewhere t env -> at_ t st live w ->
  exists s', guard_drop t (undying env) k w = (Some tt, s') /\
    rests t env (if live && bool_decide (st = Running) then guard_status (rt_resumed t) else st) false s'.2.
Proof.
  intros Ho Hat. set (v := if live && bool_decide (st = Running) then guard_status (rt_resumed t) else st).
  assert (Ho' : others_elsewhere t (undying env)) by done.
  assert (H : hoare (undying env) (at_ t st live) (guard_drop t) (fun _ => rests t (undying env) v false) (fun _ => True)).
  { unfold guard_drop. eapply (h_bind _ _ _ _ (fun b w => b = live /\ at_ t st live w)).
    - apply h_access; [by apply at_stable|done|]. intros k' w' Hw. split; [by apply Hw|done].
    - intros b k' w' [-> Hw]. revert k' w' Hw. destruct live.
      + assert (Hv : v = if bool_decide (st = Running) then guard_status (rt_resumed t) else st) by done.
        eapply h_bind; [|intros ?; cbv beta; eapply h_bind; [|intros ?; cbv beta]].
        * eapply h_weaken; [apply (h_finalize t (undying env) Ho' st (guard_status (rt_resumed t)))|done|done|done].
          unfold guard_status; destruct (rt_resumed t); auto.
        * eapply h_weaken; [by apply h_rests_append|done|done|done].
        * eapply h_weaken; [by apply h_unregister|done|done|done].
      + intros k' w' Hw. by left. }
  specialize (H k w Hat). destruct (guard_drop t (undying env) k w) as [[[]|] [k' w']]; [by eauto|]. by destruct H as [[? ?] _].
Qed.

Lemma run_unfold t sees env k w : run_chat_turn t sees env k w =
  let '(_, (k', w1)) :=
    match rebuild_history (rt_user t) (rt_master t) (rt_session t) (rt_user_seq t) env k w with
    | (Some h, (k1, w1)) => run_from t sees h env k1 w1
    | (None, (k1, w1)) => (None, (k1, w1))
    end in
  snd (snd (guard_drop t (undying env) k' w1)).
Proof.
  unfold run_chat_turn, run_body, bind at 1. destruct (rebuild_history _ _ _ _ _ _ _) as [[h|] [k1 w1]].
  - destruct (run_from _ _ _ _ _ _) as [? [k2 w2]]. by destruct (guard_drop _ _ _ _) as [? [? ?]].
  - by destruct (guard_drop _ _ _ _) as [? [? ?]].
Qed.

(** C10. A run settles its turn: started on a running turn that is live, with
    others leaving this turn alone, it leaves no live channel and the turn
    in the status that the transcript, the gate, the agent and the health
    states call for; or, when its task dies on the way, possibly in the
    status of the guard.  Only when the database refused an UPDATE of turns,
    which the run logs and passes over, may the turn still be running. *)
Theorem run_settles t sees env k w :
  others_elsewhere t env ->
  turn_at (rt_user t) (rt_session t) (rt_turn t) Running (rw_chat w) -> is_Some (rw_runs w !! rt_turn t) ->
  let history := fst (rebuild_history (rt_user t) (rt_master t) (rt_session t) (rt_user_seq t) env k w) in
  let w' := run_chat_turn t sees env k w in
  rw_runs w' !! rt_turn t = None /\
  exists st, turn_at (rt_user t) (rt_session t) (rt_turn t) st (rw_chat w') /\
    ((exists h, history = Some h /\ st = verdict (re_health env) sees (rt_resumed t) h /\ st <> Running) \/
     ((exists k, re_dies env k = true) /\ st = guard_status (rt_resumed t) /\ st <> Running) \/
     (st = Running /\ exists k, re_fails env k 0%nat = true)).
Proof.
  intros Ho Hat Hlive history w'.
  assert (Hw : at_ t Running true w) by (split; [done|by apply bool_decide_eq_true]).
  assert (Hg : guard_status (rt_resumed t) <> Running) by (unfold guard_status; by destruct (rt_resumed t)).
  set (fair st := (exists h, history = Some h /\ st = verdict (re_health env) sees (rt_resumed t) h /\ st <> Running) \/
     ((exists k, re_dies env k = true) /\ st = guard_status (rt_resumed t) /\ st <> Running) \/ (st = Running /\ refused env)).
  assert (Hend : forall k' w1 st live, at_ t st live w1 -> w' = snd (snd (guard_drop t (undying env) k' w1)) ->
    fair (if live && bool_decide (st = Running) then guard_status (rt_resumed t) else st) ->
    rw_runs w' !! rt_turn t = None /\ exists st, turn_at (rt_user t) (rt_session t) (rt_turn t) st (rw_chat w') /\ fair st).
  { intros k' w1 st live Hw1 Ew' Hf. destruct (guard_settles t env k' w1 st live Ho Hw1) as (s' & E & Hs').
    rewrite Ew', E. simpl. destruct Hs' as [[Hs' Hr]|[[Hs' Hr] Href]].
    all: split; [unfold registered in Hr; apply bool_decide_eq_false in Hr; by destruct (rw_runs s'.2 !! rt_turn t); [destruct Hr|]|].
    all: eexists; split; [exact Hs'|first [exact Hf|right; right; by split]]. }
  pose proof (run_unfold t sees env k w) as Ew. fold w' in Ew. clearbody w'.
  pose proof (h_rebuild t env Ho k w Hw) as H1. subst history.
  destruct (rebuild_history _ _ _ _ env k w) as [[h|] [k1 w1]] eqn:E1.
  - assert (Hv : fair (verdict (re_health env) sees (rt_resumed t) h)).
    { left. exists h. split_and!; [done|done|apply verdict_ended]. }
    assert (Hnv := verdict_ended (re_health env) sees (rt_resumed t) h).
    pose proof (h_run_from t sees env Ho h k1 w1 H1) as H2. destruct (run_from t sees h env k1 w1) as [[[]|] [k2 w2]] eqn:E2.
    + destruct H2 as [H2|[H2 Href]]; eapply (Hend k2 w2); [exact H2|exact Ew|exact Hv|exact H2|exact Ew|right; right; by split].
    + destruct H2 as [Hd [H2|(live & [H2|[H2 Href]])]]; eapply (Hend k2 w2); try exact Ew; try exact H2.
      * right. left. by split_and!.
      * rewrite (bool_decide_eq_false_2 _ Hnv), andb_false_r. exact Hv.
      * destruct live; [right; left; by split_and!|right; right; by split].
  - destruct H1 as [Hd H1]. eapply (Hend k1 w1 Running true); [exact H1|exact Ew|right; left; by split_and!].
Qed.
End Runner.
