(* ===== verification/ChatApi.v ===== *)
(** * The chat endpoints and the resume worker

    [crates/mycelium-web/src/chat_api.rs]: the submit, reattach, list, meta
    and delete endpoints with their event streams, and one pass of
    [chat_resume.rs], as programs of [ChatRunner].  A request that is
    dropped is a program whose task dies.  What a request finds outside the
    chat tables (the caller's key, the stored LLM configuration, the depth
    of the gate's queue) is an argument. *)
From S2P Require Import Fallback.
From S2P Require Import Prelude Text Clock Crypto Health Gate Llm Worker Chat ChatRunner.
Open Scope Z_scope.
Open Scope run_scope.

(** ** Responses *)
Definition CHAT_QUEUE_FULL_MSG : str := lit "LLM at capacity " ++ [8212%N] ++ lit " queue full".
Inductive Response :=
  | RError (status : Z) (message : str) (retry_after : option Z)
  | RStream (head : list ChatSseEvent) (live : option nat)
  | RSessions (l : list ChatSessionSummary) | RMeta (m : ChatSessionMeta) | RDeleted | RRedirect (location : str).

Definition error_response (status : Z) (message : str) : Response := RError status message None.
Definition internal_error : Response := error_response 500 (lit "internal error").
Definition queue_full_response : Response := RError 429 CHAT_QUEUE_FULL_MSG (Some 5).
Definition chat_error_response (e : ChatError) : Response :=
  match e with
  | ChNotFound => error_response 404 (lit "not found")
  | ChConflict => error_response 409 (lit "a turn is already running in this session")
  | ChDb | ChCrypto _ => internal_error
  end.

Section Api.
Context {AE : Aead} {KD : Kdf} {HX : Hex} {UT : UuidText} {TJ : ToolJson}.

(** ** Streams *)
Definition parse_tool_row (content : str) : str * str :=
  match tool_parse content with Some (name, detail) => (default [] name, default [] detail) | None => ([], content) end.
(** A row as the replay shows it; user rows never replay. *)
Definition replay_event (row : ChatMessageRow) : option ChatSseEvent :=
  match cm_role row with
  | RoleUser => None
  | RoleTool => let '(name, detail) := parse_tool_row (cm_content row) in Some (mkEvent (SseTool name detail) (cm_seq row))
  | RoleAssistant => Some (mkEvent (SseAssistant (cm_content row)) (cm_seq row))
  | RoleError => Some (mkEvent (SseError (cm_content row)) (cm_seq row))
  end.
Definition terminal (e : ChatSseEvent) : bool :=
  match ev_kind e with SseDone _ | SseError _ => true | _ => false end.
(** The live tail: the loop over [rx.recv()].  Each poll finds the channel
    with what was sent by then, and perhaps closed; the tail ends with a
    terminal event, when the receiver has lagged, or when the channel has
    closed.  [None]: it goes on. *)
Inductive StreamEnd := ByTerminal | ByLag | ByClose.
Fixpoint live_tail (polls : list (list ChatSseEvent * bool)) (next : nat) : list ChatSseEvent * option StreamEnd :=
  match polls with
  | [] => ([], None)
  | (sent, closed) :: polls =>
      match recv next sent closed with
      | RGot e =>
          if terminal e then ([e], Some ByTerminal)
          else let '(frames, ending) := live_tail polls (S next) in (e :: frames, ending)
      | RLagged => ([], Some ByLag)
      | RClosed => ([], Some ByClose)
      | RWaits => live_tail polls next
      end
  end.

Definition chat_stream_response (user : Uuid) (m : MasterKey) (session : Uuid) (first_event : option ChatSseEvent) (cursor : Z)
    (turn : option Uuid) : R Response :=
  live ⟵ match turn with
         | Some id => access (fun _ _ w => (subscribe id (rw_runs w), w))
         | None => ret None
         end;
  rows ⟵ rows_after user m session cursor;
  ret (match rows with
       | Err e => chat_error_response e
       | Ok rows => RStream (option_list first_event ++ omap replay_event rows) live
       end).
(** The body of a streamed response *)
Definition stream_body (head : list ChatSseEvent) (live : option nat) (polls : list (list ChatSseEvent * bool))
    : list ChatSseEvent * option StreamEnd :=
  match live with
  | Some next => let '(frames, ending) := live_tail polls next in (head ++ frames, ending)
  | None => (head, Some ByClose)
  end.

(** ** Submitting *)
Definition spawn_chat_run (t : RunTurn) : R unit :=
  access (fun _ _ w => (tt, mkRunWorld (rw_chat w) (register (rt_turn t) (rw_runs w)) (rw_tasks w ++ [t]))).

Definition submit_turn (user : Uuid) (m : MasterKey) (session : Uuid) (first_event : option ChatSseEvent) (message : str) : R Response :=
  r ⟵ on_chat (fun env k c => create_turn user m session message (re_uuid env k) (re_now env k) (re_now env k) (re_nonce env k)
                                 (negb (re_fails env k 2%nat)) c);
  match r with
  | Err e => ret (chat_error_response e)
  | Ok turn =>
      (* the visible libraries are read *)
      _ ⟵ access (fun _ _ w => (tt, w));
      _ ⟵ spawn_chat_run (mkRunTurn user m session (tu_id turn) (tu_user_seq turn) false);
      chat_stream_response user m session first_event (tu_user_seq turn) (Some (tu_id turn))
  end.

(** [check_queue_depth]: refused at the cap *)
Definition queue_full (stored : option LlmConfig) (depth : Z) : bool :=
  lc_chat_queue_depth (LlmConfig_clamp (default LlmConfig_default stored)) <=? depth.

Definition api_chat_create_session (user : Uuid) (stored : option LlmConfig) (depth : Z) (key : option MasterKey) (message : str)
    : R Response :=
  if bool_decide (trim message = []) then ret (error_response 400 (lit "empty message"))
  else if queue_full stored depth then ret queue_full_response
  else
    match key with
    | None => ret internal_error
    | Some m =>
        r ⟵ on_chat (fun env k c => create_session user m (derive_title message) (re_uuid env k) (re_now env k) (re_nonce env k)
                                       (negb (re_fails env k 2%nat)) c);
        match r with
        | Err e => ret (chat_error_response e)
        | Ok id => submit_turn user m id (Some (mkEvent (SseSession id) 0)) message
        end
    end.
Definition api_chat_submit_session (user : Uuid) (stored : option LlmConfig) (depth : Z) (key : option MasterKey) (session : Uuid)
    (message : str) : R Response :=
  if bool_decide (trim message = []) then ret (error_response 400 (lit "empty message"))
  else if queue_full stored depth then ret queue_full_response
  else match key with None => ret internal_error | Some m => submit_turn user m session None message end.

(** ** Reading and deleting *)
Definition i64_max : Z := 9223372036854775807.
Definition api_chat_reattach (user : Uuid) (key : option MasterKey) (session : Uuid) (after : option Z) : R Response :=
  match key with
  | None => ret internal_error
  | Some m =>
      r ⟵ on_chat (fun env k c => (running_turn user session (re_fails env k 3%nat) c, c));
      match r with
      | Err e => ret (chat_error_response e)
      | Ok turn => chat_stream_response user m session None (default i64_max after) (tu_id <$> turn)
      end
  end.
Definition api_chat_sessions (user : Uuid) (key : option MasterKey) : R Response :=
  match key with
  | None => ret internal_error
  | Some m =>
      r ⟵ on_chat (fun env k c => (list_sessions user m (re_fails env k 3%nat) c, c));
      ret (match r with Ok l => RSessions l | Err e => chat_error_response e end)
  end.
(** The three reads of the meta data are three accesses. *)
Definition meta_read : R (bool * Chat) := on_chat (fun env k c => ((re_fails env k 3%nat, c), c)).
Definition api_chat_session_meta (user : Uuid) (key : option MasterKey) (session : Uuid) : R Response :=
  match key with
  | None => ret internal_error
  | Some m =>
      a ⟵ meta_read; b ⟵ meta_read; d ⟵ meta_read;
      let view n := nth n [a; b; d] d in
      ret (match session_meta user m session (fun n => fst (view n)) (fun n => snd (view n)) with
           | Ok meta => RMeta meta
           | Err e => chat_error_response e
           end)
  end.
(** The statements of a delete are two accesses. *)
Definition delete_access (user session : Uuid) : R (result unit ChatError) :=
  r ⟵ on_chat (fun env k c => ((if re_fails env k 3%nat then Err ChDb else Ok (running_in user session c)), c));
  match r with
  | Err e => ret (Err e)
  | Ok true => ret (Err ChConflict)
  | Ok false => on_chat (fun env k c => delete_owned user session (re_fails env k 2%nat) c)
  end.
Definition api_chat_delete_json (user session : Uuid) : R Response :=
  r ⟵ delete_access user session; ret (match r with Ok _ => RDeleted | Err e => chat_error_response e end).
Definition api_chat_delete_redirect (user session : Uuid) : R Response :=
  r ⟵ delete_access user session; ret (match r with Ok _ => RRedirect (lit "/chat") | Err e => chat_error_response e end).

(** ** One pass of the resume worker *)
Record PassSees := mkPassSees {
  ps_health : BackendState; ps_key : Uuid -> option MasterKey; ps_user : Uuid -> bool; ps_permit : nat -> bool }.

(** A [BTreeMap] from users to their turns *)
Definition by_user (turns : list (Uuid * TurnRow)) : list (Uuid * list TurnRow) :=
  (fun u => (u, snd <$> retain (fun p => id_eqb p.1 u) turns)) <$> sort_by N.compare (remove_dups (fst <$> turns)).

(** [for x in l { f(x)?; }] *)
Fixpoint try_each {A} (f : A -> R (result unit ChatError)) (l : list A) : R (result unit ChatError) :=
  match l with
  | [] => ret (Ok tt)
  | x :: l => r ⟵ f x; match r with Ok _ => try_each f l | Err e => ret (Err e) end
  end.

Section Pass.
Context (sees : PassSees).

Definition resume_turn (user : Uuid) (m : MasterKey) (turn : TurnRow) : R (result unit ChatError) :=
  permit ⟵ access (fun _ k w => (ps_permit sees k, w));
  if negb permit then ret (Ok tt)
  else
    claimed ⟵ on_chat (fun env k c =>
      if status_is WaitingBackend turn
      then claim_waiting user (tu_session turn) (tu_id turn) (re_now env k) (re_fails env k 0%nat) c
      else claim_resumable user (tu_session turn) (tu_id turn) (re_now env k) (re_fails env k 0%nat) c);
    match claimed with
    | Err e => ret (Err e)
    | Ok false => ret (Ok tt)
    | Ok true => _ ⟵ spawn_chat_run (mkRunTurn user m (tu_session turn) (tu_id turn) (tu_user_seq turn) true); ret (Ok tt)
    end.
Definition resume_user (group : Uuid * list TurnRow) : R (result unit ChatError) :=
  match ps_key sees group.1 with
  | None => ret (Ok tt)
  | Some m => if ps_user sees group.1 then try_each (resume_turn group.1 m) group.2 else ret (Ok tt)
  end.
Definition run_pending : R (result unit ChatError) :=
  if bool_decide (ps_health sees = Red) || bool_decide (ps_health sees = Disabled) then ret (Ok tt)
  else
    crashed ⟵ on_chat (fun env k c => (resumable_turns (re_fails env k 3%nat) c, c));
    match crashed with
    | Err e => ret (Err e)
    | Ok crashed =>
        waiting ⟵ on_chat (fun env k c => (waiting_turns (re_fails env k 3%nat) c, c));
        match waiting with
        | Err e => ret (Err e)
        | Ok waiting =>
            try_each resume_user (by_user (sort_by (fun a b => by_text tu_created_at a.2 b.2) (crashed ++ waiting)))
        end
    end.
End Pass.
End Api.
