(* ===== verification/ChatApiProofs.v ===== *)
(** * What a chat client sees

    Every event that a run broadcasts is in the transcript first, so a
    stream that subscribes before it reads the transcript loses nothing;
    what a submission leaves behind; what a pass of the resume worker
    claims. *)
From stdpp Require Import sorting.
From S2P Require Import Prelude Text Clock Crypto FileRepo Health Gate Llm Worker Chat ChatProofs ChatRunner ChatRunnerProofs ChatApi.
Open Scope Z_scope.

Section Api.
Context {AE : Aead} {KD : Kdf} {HX : Hex} {UT : UuidText} {TJ : ToolJson}.

Abbreviation text := (Forall (fun ch => is_scalar ch = true)).

Lemma text_checked (x : str) : forallb is_scalar x = true -> text x.
Proof. intros H. apply Forall_forall. intros c Hc%list_elem_of_In. by apply (proj1 (List.forallb_forall _ _) H). Qed.

(** ** Persist first, then broadcast *)

(** The event a row is broadcast as *)
Definition live_event (row : ChatMessageRow) : option ChatSseEvent :=
  match cm_role row with
  | RoleUser => None
  | RoleTool => let '(name, detail) := parse_tool_row (cm_content row) in Some (mkEvent (SseTool name detail) (cm_seq row))
  | RoleAssistant => Some (mkEvent (SseDone (cm_content row)) (cm_seq row))
  | RoleError => Some (mkEvent (SseError (cm_content row)) (cm_seq row))
  end.
Definition of_queue (e : ChatSseEvent) : bool := match ev_kind e with SseQueued _ | SseAdmitted => true | _ => false end.
Definition has_row (m : MasterKey) (s : Uuid) (c : Chat) (e : ChatSseEvent) : Prop :=
  exists row cm, row ∈ session_messages s c /\ opened m row = Some cm /\ live_event cm = Some e.
(** Every event on the channel, but those of the queue, has its row. *)
Definition backed (m : MasterKey) (s t : Uuid) (w : RunWorld) : Prop :=
  forall l e, rw_runs w !! t = Some l -> e ∈ l -> of_queue e = true \/ has_row m s (rw_chat w) e.

Definition rows_kept (s : Uuid) (c c' : Chat) : Prop := forall r, r ∈ session_messages s c -> r ∈ session_messages s c'.

Lemma has_row_kept m s c c' e : rows_kept s c c' -> has_row m s c e -> has_row m s c' e.
Proof. intros Hk (row & cm & Hr & H). exists row, cm. split; [by apply Hk|done]. Qed.
Lemma backed_kept m s t w w' : rows_kept s (rw_chat w) (rw_chat w') -> rw_runs w' !! t = rw_runs w !! t -> backed m s t w -> backed m s t w'.
Proof. intros Hk Er H l e Hl He. rewrite Er in Hl. destruct (H l e Hl He); [by left|right; by eapply has_row_kept]. Qed.

Lemma append_row u m s r x now n b c seq c' :
  append_message u m s r x now n b c = (Ok seq, c') -> text x -> length n = NONCE_LEN ->
  exists row, row ∈ session_messages s c' /\ opened m row = Some (mkChatMessage seq r x).
Proof.
  unfold append_message. destruct b; [|done]. destruct (owned u s c); [|done]. simpl. unfold insert_message.
  destruct (seal_hex _ _ _ _) as [t|] eqn:E; simpl; [|done]. intros [= <- <-] Hx Hn.
  eexists. split.
  - unfold session_messages. simpl. rewrite List.filter_app. apply elem_of_app. right. simpl. rewrite id_eqb_refl. apply list_elem_of_singleton. done.
  - apply (row_opened s). split_and!; [done..|]. destruct (seal_hex_says _ _ _ _ _ Hn E) as (sealed & -> & Hs). exists sealed. by split_and!.
Qed.
Lemma append_kept u m s' s r x now n b c : rows_kept s c (snd (append_message u m s' r x now n b c)).
Proof.
  intros row Hrow. unfold append_message. destruct b; [|done]. destruct (owned u s' c); [|done]. simpl. unfold insert_message.
  destruct (seal_hex _ _ _ _); [|done]. unfold session_messages. simpl. rewrite List.filter_app. apply elem_of_app. by left.
Qed.
Lemma end_running_kept f u t fails s c : rows_kept s c (snd (end_running f u t fails c)).
Proof. intros row. destruct (end_running_same f u t fails c) as [_ E]. unfold session_messages. by rewrite E. Qed.

Section Run.
Context (t : RunTurn) (sees : RunSees) (env : RunEnv).

(** Others keep the rows of the session and stay off the channel. *)
Definition others_keep : Prop := forall k w,
  rows_kept (rt_session t) (rw_chat w) (rw_chat (re_between env k w)) /\
  rw_runs (re_between env k w) !! rt_turn t = rw_runs w !! rt_turn t.
(** What the agent says is text, and nonces have their length. *)
Definition event_text (e : AgentEvent) : Prop := match e with EvTool n d => text n /\ text d | EvDone x | EvFailed x => text x end.
Definition says_text : Prop := forall h,
  Forall event_text (fst (rs_agent sees h)) /\
  match snd (rs_agent sees h) with
  | Ok x => text x
  | Err (ALlm e) => forall st, text (llm_failure_detail e st)
  | Err e => text (AgentError_display e)
  end.
Context (Hkeep : others_keep) (Htext : says_text) (Hnonce : forall k, length (re_nonce env k) = NONCE_LEN).

Abbreviation B := (backed (rt_master t) (rt_session t) (rt_turn t)).

Lemma b_stable k w : B w -> B (re_between env k w).
Proof. destruct (Hkeep k w). by apply backed_kept. Qed.

Lemma b_access {A} (f : RunEnv -> nat -> RunWorld -> A * RunWorld) :
  (forall k w, rows_kept (rt_session t) (rw_chat w) (rw_chat (snd (f env k w))) /\
     (rw_runs (snd (f env k w)) !! rt_turn t = rw_runs w !! rt_turn t \/ rw_runs (snd (f env k w)) !! rt_turn t = None)) ->
  hoare env B (access f) (fun _ => B) B.
Proof.
  intros Hf. apply h_access; [by apply b_stable|done|]. intros k w Hw. destruct (Hf k w) as [Hr [E|E]].
  - by eapply backed_kept.
  - intros l e Hl. congruence.
Qed.

Lemma b_say role content kind :
  text content -> (forall seq, live_event (mkChatMessage seq role content) = Some (mkEvent kind seq)) ->
  hoare env B
    (r ⟵ append (rt_user t) (rt_master t) (rt_session t) role content;
     match r with Ok seq => broadcast (rt_turn t) (mkEvent kind seq) | Err _ => ret tt end)%run (fun _ => B) B.
Proof.
  intros Hx Hev.
  eapply (h_bind _ _ _ _ (fun r w => B w /\ match r with Ok seq => has_row (rt_master t) (rt_session t) (rw_chat w) (mkEvent kind seq) | _ => True end)).
  - apply h_access; [by apply b_stable|done|]. intros k w Hw.
    pose proof (append_kept (rt_user t) (rt_master t) (rt_session t) (rt_session t) role content (re_now env k) (re_nonce env k) (negb (re_fails env k 2%nat)) (rw_chat w)) as Hk.
    destruct (append_message _ _ _ _ _ _ _ _ _) as [r c] eqn:E. simpl in *. split; [by eapply (backed_kept _ _ _ w)|].
    destruct r as [seq|]; [|done]. apply append_row in E as (row & Hr & Ho); [|done|apply Hnonce]. exists row. eexists. by split_and!.
  - intros [seq|err]; [|intros k w [Hw _]; exact Hw]. apply h_access.
    + intros k w [Hw Hr]. split; [by apply b_stable|]. eapply has_row_kept; [apply Hkeep|done].
    + by intros w [Hw _].
    + intros k w [Hw Hr]. simpl. intros l e. unfold send_broadcast. simpl. destruct (rw_runs w !! rt_turn t) as [l0|] eqn:E.
      * rewrite lookup_insert_eq. intros [= <-] [He|He%list_elem_of_singleton]%elem_of_app; [by apply (Hw l0)|subst; by right].
      * rewrite E. done.
Qed.

Lemma b_queue kind : of_queue (mkEvent kind 0) = true -> hoare env B (broadcast (rt_turn t) (mkEvent kind 0)) (fun _ => B) B.
Proof.
  intros Hq. apply h_access; [by apply b_stable|done|]. intros k w Hw l e. unfold send_broadcast. simpl.
  destruct (rw_runs w !! rt_turn t) as [l0|] eqn:E; [|by rewrite E].
  rewrite lookup_insert_eq. intros [= <-] [He|He%list_elem_of_singleton]%elem_of_app; [by apply (Hw l0)|subst; by left].
Qed.

Lemma b_emit e : event_text e -> hoare env B (emit_event t e) (fun _ => B) B.
Proof.
  intros He. unfold emit_event. destruct e as [n d|x|x]; simpl; apply b_say; try done; [by apply tool_text; apply He|].
  intros seq. unfold live_event. simpl. unfold parse_tool_row. by rewrite tool_roundtrip.
Qed.
Lemma b_ret {A} (a : A) : hoare env B (ret a) (fun _ => B) B.
Proof. by intros k w Hw. Qed.
Lemma b_bind {A C} (m : R A) (f : A -> R C) : hoare env B m (fun _ => B) B -> (forall a, hoare env B (f a) (fun _ => B) B) ->
  hoare env B (x ⟵ m; f x)%run (fun _ => B) B.
Proof. intros H1 H2. by eapply h_bind. Qed.
Lemma b_unregister : hoare env B (on_runs (unregister (rt_turn t))) (fun _ => B) B.
Proof. apply b_access. intros k w. split; [by intros r|]. right. apply lookup_delete_eq. Qed.
Lemma b_ending (f : RunEnv -> nat -> Chat -> result unit ChatError * Chat) :
  (forall k c, rows_kept (rt_session t) c (snd (f env k c))) -> hoare env B (on_chat f) (fun _ => B) B.
Proof. intros Hf. apply b_access. intros k w. specialize (Hf k (rw_chat w)). destruct (f env k (rw_chat w)). simpl in *. auto. Qed.
Lemma b_finish st row : match row with Some x => text x | None => True end -> hoare env B (finish_turn t st row) (fun _ => B) B.
Proof.
  intros Hx. unfold finish_turn. apply b_bind.
  - destruct row as [x|]; [by apply b_say|apply b_ret].
  - intros ?. apply b_bind; [apply b_ending; intros; apply end_running_kept|]. intros ?. apply b_unregister.
Qed.
Lemma b_park why : hoare env B (park_turn t why) (fun _ => B) B.
Proof. apply b_bind; [apply b_ending; intros; apply end_running_kept|]. intros ?. apply b_unregister. Qed.
Lemma b_health at_ : hoare env B (health at_) (fun _ => B) B.
Proof. by intros k w Hw. Qed.

Lemma b_settle h : hoare env B (settle t (fst (rs_agent sees h)) (snd (rs_agent sees h))) (fun _ => B) B.
Proof.
  destruct (Htext h) as [_ Hr]. unfold settle. destruct (snd (rs_agent sees h)) as [reply|[x|e| |n r]].
  - apply b_bind; [destruct (existsb _ _); [apply b_ret|by apply b_emit]|]. intros ?. by apply b_finish.
  - apply b_finish. by destruct (existsb _ _).
  - apply b_bind; [apply b_health|]. intros st. destruct (_ && _); [apply b_park|].
    apply b_bind; [apply b_health|]. intros st'. apply b_finish. apply Hr.
  - apply b_finish. by destruct (existsb _ _).
  - apply b_finish. by destruct (existsb _ _).
Qed.

Lemma b_body : hoare env B (run_body t sees) (fun _ => B) B.
Proof.
  unfold run_body. apply b_bind.
  { unfold rebuild_history. apply b_bind; [apply b_access; intros k w; split; [by intros r|by left]|]. intros ?. apply b_ret. }
  intros [h|e]; [|apply b_finish, text_checked; vm_compute; reflexivity].
  unfold run_from. apply b_bind; [apply b_health|]. intros st. destruct (bool_decide _); [apply b_park|].
  apply b_bind; [apply h_each; intros; by apply b_queue|]. intros ?.
  destruct (rs_admission sees) as [?|[]]; [|apply b_finish, text_checked; vm_compute; reflexivity|by apply b_finish].
  apply b_bind; [destruct (rs_positions sees); [apply b_ret|by apply b_queue]|]. intros ?.
  pose proof (b_settle h) as Hs. destruct (Htext h) as [Hev _]. unfold admitted_run.
  destruct (rs_agent sees h) as [events res]. simpl in *. apply b_bind; [|by intros ?].
  clear Hs. induction Hev as [|e l He _ IH]; [apply b_ret|]. simpl. apply b_bind; [by apply b_emit|]. by intros ?.
Qed.
End Run.

Lemma kept_refl s c : rows_kept s c c.
Proof. by intros r. Qed.

(** At every point of a run (its task may die at any access) the events
    broadcast so far, but those of the queue, are in the transcript. *)
Lemma run_backed t sees env k w : others_keep t env -> says_text sees -> (forall k, length (re_nonce env k) = NONCE_LEN) ->
  rw_runs w !! rt_turn t = Some [] ->
  backed (rt_master t) (rt_session t) (rt_turn t) (snd (snd (run_body t sees env k w))).
Proof.
  intros H1 H2 H3 Hw. assert (Hb : backed (rt_master t) (rt_session t) (rt_turn t) w).
  { intros l e. rewrite Hw. intros [= <-] He. by apply not_elem_of_nil in He. }
  pose proof (b_body t sees env H1 H2 H3 k w Hb) as H. destruct (run_body t sees env k w) as [[?|] [k' w']]; [done|apply H].
Qed.

(** ** Streams *)
Definition as_replayed (e : ChatSseEvent) : ChatSseEvent :=
  mkEvent (match ev_kind e with SseDone r => SseAssistant r | k => k end) (ev_seq e).

Lemma live_replayed row e : live_event row = Some e -> replay_event row = Some (as_replayed e) /\ cm_seq row = ev_seq e.
Proof.
  unfold live_event, replay_event. destruct (cm_role row); [done|..]; [destruct (parse_tool_row _)|..]; intros [= <-]; done.
Qed.

Lemma messages_after_row u m s k fails c rows row cm : messages_after u m s k fails c = Ok rows ->
  row ∈ session_messages s c -> opened m row = Some cm -> k < cm_seq cm -> cm ∈ rows.
Proof.
  unfold messages_after. destruct fails; [done|]. destruct (owned u s c); [|done]. simpl. intros [= <-] Hrow Ho Hk.
  apply list_elem_of_omap. exists row. split; [|done]. rewrite (sort_by_perm _ _). apply elem_of_retain. split; [done|].
  apply Z.ltb_lt. revert Ho. unfold opened. destruct (open_hex _ _ _); [|done]. intros [= <-]. done.
Qed.

(** What the live tail shows of a channel on which [all] is sent in the end *)
Lemma live_tail_spec all polls next : (next <= length all)%nat ->
  Forall (fun p => p.1 `prefix_of` all /\ (p.2 = true -> p.1 = all)) polls ->
  let '(frames, ending) := live_tail polls next in
  exists j, frames = take j (drop next all) /\ length frames = j /\
    match ending with
    | Some ByTerminal => exists e, last frames = Some e /\ terminal e = true
    | Some ByLag => exists p, p ∈ polls /\ (next + j + CHAT_CHANNEL_CAPACITY < length p.1)%nat
    | Some ByClose => frames = drop next all
    | None => exists waits, length polls = (j + length waits)%nat /\ forall p, p ∈ waits -> p ∈ polls /\ (length p.1 <= next + j)%nat
    end.
Proof.
  intros Hn Hp. revert next Hn. induction Hp as [|[sent closed] polls [Hpre Hcl] _ IH]; intros next Hn.
  - simpl. exists 0%nat. split_and!; [done..|]. exists []. split; [done|by intros p ?%not_elem_of_nil].
  - cbn [fst snd] in *. cbn [live_tail]. unfold recv. destruct (Nat.ltb_spec (next + CHAT_CHANNEL_CAPACITY) (length sent)) as [Hlag|_].
    { exists 0%nat. split_and!; [done..|]. exists (sent, closed). split; [by left|]. simpl. lia. }
    destruct (sent !! next) as [e|] eqn:E.
    + pose proof (prefix_lookup_Some _ _ _ _ E Hpre) as Ea. pose proof (lookup_lt_Some _ _ _ Ea) as Hlt.
      rewrite (drop_S _ _ _ Ea). destruct (terminal e) eqn:Et.
      { exists 1%nat. split_and!; [done..|]. by exists e. }
      specialize (IH (S next) ltac:(lia)). destruct (live_tail polls (S next)) as [frames ending].
      destruct IH as (j & Ef & El & Hend). exists (S j). split_and!; [cbn [take]; by rewrite <- Ef|simpl; by rewrite El|].
      destruct ending as [[]|].
      * destruct Hend as (x & Hx & Ht). exists x. split; [|done]. by rewrite last_cons, Hx.
      * destruct Hend as (p & Hin & Hp'). exists p. split; [by right|]. lia.
      * by rewrite Hend.
      * destruct Hend as (waits & Hw & Hall). exists waits. split; [simpl; lia|]. intros p Hp'. destruct (Hall p Hp'). split; [by right|lia].
    + apply lookup_ge_None in E. destruct closed.
      * rewrite (Hcl eq_refl) in E. exists 0%nat. split_and!; [done..|]. by rewrite drop_ge by lia.
      * specialize (IH next Hn). destruct (live_tail polls next) as [frames ending]. destruct IH as (j & Ef & El & Hend).
        exists j. split_and!; [done..|]. destruct ending as [[]|]; [done| |done|].
        -- destruct Hend as (p & Hin & Hp'). exists p. split; [by right|done].
        -- destruct Hend as (waits & Hw & Hall). exists ((sent, false) :: waits). split; [simpl; lia|].
           intros p [->|Hp']%elem_of_cons; [split; [by left|simpl; lia]|]. destruct (Hall p Hp'). split; [by right|lia].
Qed.

(** ** A run at each of its accesses *)
(** The run with nothing after its first [n] accesses *)
Definition cut (n : nat) (env : RunEnv) : RunEnv :=
  mkRunEnv (re_between env) (fun k => (n <=? k)%nat || re_dies env k) (re_fails env) (re_now env) (re_nonce env) (re_uuid env) (re_health env).
Definition world_of {A} (r : option A * (nat * RunWorld)) : RunWorld := snd (snd r).
Definition after (t : RunTurn) (sees : RunSees) (env : RunEnv) (k : nat) (w : RunWorld) (n : nat) : RunWorld :=
  world_of (run_body t sees (cut n env) k w).

Section Grows.
Context (t : RunTurn) (env : RunEnv) (Hruns : forall k w, rw_runs (re_between env k w) !! rt_turn t = rw_runs w !! rt_turn t).

(** While the channel is there, more is sent on it and nothing taken back. *)
Definition grows (w w' : RunWorld) : Prop :=
  forall l', rw_runs w' !! rt_turn t = Some l' -> exists l, rw_runs w !! rt_turn t = Some l /\ l `prefix_of` l'.
Lemma grows_trans w w' w'' : grows w w' -> grows w' w'' -> grows w w''.
Proof. intros H1 H2 l'' Hl. destruct (H2 _ Hl) as (l' & Hl' & ?). destruct (H1 _ Hl') as (l & ? & ?). exists l. split; [done|by etransitivity]. Qed.
Lemma grows_same w w' : rw_runs w' !! rt_turn t = rw_runs w !! rt_turn t -> grows w w'.
Proof. intros E l. rewrite E. by exists l. Qed.

Definition advances {A} (m : R A) : Prop := forall k w,
  (forall n, grows w (world_of (m (cut n env) k w))) /\
  (forall n1 n2, (n1 <= n2)%nat -> m (cut n1 env) k w = m (cut n2 env) k w \/
     (fst (m (cut n1 env) k w) = None /\ grows (world_of (m (cut n1 env) k w)) (world_of (m (cut n2 env) k w)))).

Lemma a_ret {A} (a : A) : advances (ret a).
Proof. intros k w. split; [by intros n; apply grows_same|by left]. Qed.
Lemma a_health at_ : advances (health at_).
Proof. intros k w. split; [by intros n; apply grows_same|by left]. Qed.
Lemma a_bind {A C} (m : R A) (f : A -> R C) : advances m -> (forall a, advances (f a)) -> advances (x ⟵ m; f x)%run.
Proof.
  intros Hm Hf k w. destruct (Hm k w) as [Hg Hn].
  assert (Hg' : forall n, grows w (world_of ((x ⟵ m; f x)%run (cut n env) k w)) /\
      grows (world_of (m (cut n env) k w)) (world_of ((x ⟵ m; f x)%run (cut n env) k w))).
  { intros n. unfold bind. specialize (Hg n). destruct (m (cut n env) k w) as [[a|] [k' w']].
    - destruct (Hf a k' w') as [Ha _]. split; [by eapply grows_trans|by apply Ha].
    - split; [done|by apply grows_same]. }
  split; [intros n; apply Hg'|]. intros n1 n2 Hle. destruct (Hg' n2) as [_ H2]. revert H2. unfold bind.
  destruct (Hn n1 n2 Hle) as [->|[E Hgr]].
  - intros _. destruct (m (cut n2 env) k w) as [[a|] [k' w']]; [by apply Hf|by left].
  - intros H2. right. destruct (m (cut n1 env) k w) as [[a|] [k' w']]; [done|]. split; [done|by eapply grows_trans].
Qed.
Lemma a_access {A} (f : RunEnv -> nat -> RunWorld -> A * RunWorld) :
  (forall n k w, f (cut n env) k w = f env k w) -> (forall k w, grows w (snd (f env k w))) -> advances (access f).
Proof.
  intros Hc Hf k w.
  assert (Hg : forall n, grows w (world_of (access f (cut n env) k w))).
  { intros n. unfold access. rewrite Hc. simpl. destruct (_ || _); [by apply grows_same|].
    specialize (Hf k (re_between env k w)). destruct (f env k _). eapply grows_trans; [apply grows_same, Hruns|done]. }
  split; [done|]. intros n1 n2 Hle. specialize (Hg n2). revert Hg. unfold access. rewrite !Hc. simpl.
  destruct (re_dies env k); [rewrite !orb_true_r; by left|]. rewrite !orb_false_r.
  destruct (Nat.leb_spec n1 k), (Nat.leb_spec n2 k); [by left|by right|lia|by left].
Qed.
Lemma a_on_chat {A} (f : RunEnv -> nat -> Chat -> A * Chat) : (forall n k c, f (cut n env) k c = f env k c) -> advances (on_chat f).
Proof.
  intros Hc. apply a_access; [intros n k w; by rewrite Hc|]. intros k w. apply grows_same. by destruct (f env k (rw_chat w)).
Qed.
Lemma a_broadcast e : advances (broadcast (rt_turn t) e).
Proof.
  apply a_access; [done|]. intros k w l'. unfold send_broadcast. simpl. destruct (rw_runs w !! rt_turn t) as [l|] eqn:E.
  - rewrite lookup_insert_eq. intros [= <-]. exists l. split; [done|by apply prefix_app_r].
  - by rewrite E.
Qed.
Lemma a_unregister : advances (on_runs (unregister (rt_turn t))).
Proof. apply a_access; [done|]. intros k w l'. unfold unregister. simpl. by rewrite lookup_delete_eq. Qed.
Lemma a_each {A} (f : A -> R unit) l : (forall x, advances (f x)) -> advances (each f l).
Proof. intros H. induction l as [|x l IH]; [apply a_ret|]. simpl. apply a_bind; [done|by intros ?]. Qed.

(** Each piece of a run *)
Ltac advance :=
  repeat match goal with
  | |- advances (bind _ _) => apply a_bind; [|intros ?]
  | |- advances (ret _) => apply a_ret
  | |- advances (health _) => apply a_health
  | |- advances (broadcast _ _) => apply a_broadcast
  | |- advances (on_runs (unregister _)) => apply a_unregister
  | |- advances (each _ _) => apply a_each; intros ?
  | |- advances (append _ _ _ _ _) => by apply a_on_chat
  | |- advances (finalize _ _ _) => by apply a_on_chat
  | |- advances (park _ _ _) => by apply a_on_chat
  | |- advances (rows_after _ _ _ _) => by apply a_on_chat
  | |- advances match ?x with _ => _ end => destruct x
  end.
Lemma a_emit e : advances (emit_event t e).
Proof. unfold emit_event. advance. Qed.
Lemma a_finish st row : advances (finish_turn t st row).
Proof. unfold finish_turn. advance. Qed.
Lemma a_park why : advances (park_turn t why).
Proof. unfold park_turn. advance. Qed.
Lemma a_body sees : advances (run_body t sees).
Proof.
  unfold run_body, rebuild_history, run_from, admitted_run, settle. advance; first [apply a_finish|apply a_park|apply a_emit].
Qed.
End Grows.

Lemma after_grows t sees env k w n1 n2 : others_keep t env -> (n1 <= n2)%nat ->
  grows t (after t sees env k w n1) (after t sees env k w n2).
Proof.
  intros Hk Hle. destruct (a_body t env (fun k w => proj2 (Hk k w)) sees k w) as [_ H]. unfold after.
  destruct (H n1 n2 Hle) as [->|[_ ?]]; [by apply grows_same|done].
Qed.

(** C24. A stream loses nothing without the client's knowing.  Opened when
    the run has made [n1] of its accesses, with the rows kept between its
    subscription and its snapshot, it first shows every event the run has
    broadcast so far with a number past the cursor, from the transcript.  Then
    it shows live what the run sends, in order and without a gap: [L] is all
    that has been sent when the channel is last there, after [n2] accesses,
    and each poll of the receiver finds the channel at some point of the run,
    or closed after it.  The live frames are the first [j] events sent since
    the subscription; the stream ends after a terminal event, or when the
    channel is closed and all was shown, or when the receiver was more than
    [CHAT_CHANNEL_CAPACITY] events behind (the client reopens it with its
    last number); while it goes on, every poll has shown one event or found
    all of them shown. *)
Theorem stream_loses_nothing t sees env k w0 renv rk first_event cursor head live w' n1 n2 L polls :
  others_keep t env -> says_text sees -> (forall k, length (re_nonce env k) = NONCE_LEN) ->
  rw_runs w0 !! rt_turn t = Some [] ->
  let at_ := after t sees env k w0 in
  re_between renv rk (at_ n1) = at_ n1 -> rows_kept (rt_session t) (rw_chat (at_ n1)) (rw_chat (re_between renv (S rk) (at_ n1))) ->
  chat_stream_response (rt_user t) (rt_master t) (rt_session t) first_event cursor (Some (rt_turn t)) renv rk (at_ n1) =
    (Some (RStream head live), w') ->
  (n1 <= n2)%nat -> rw_runs (at_ n2) !! rt_turn t = Some L ->
  Forall (fun p => (exists n, n <= n2 /\ rw_runs (at_ n) !! rt_turn t = Some p.1 /\ p.2 = false) \/ p.1 = L)%nat polls ->
  exists l, rw_runs (at_ n1) !! rt_turn t = Some l /\ l `prefix_of` L /\ live = Some (length l) /\
  (forall e, e ∈ l -> of_queue e = false -> cursor < ev_seq e -> as_replayed e ∈ head) /\
  let '(frames, ending) := stream_body head live polls in
  exists j, frames = head ++ take j (drop (length l) L) /\ (length l + j <= length L)%nat /\
    match ending with
    | Some ByTerminal => exists e, last (take j (drop (length l) L)) = Some e /\ terminal e = true
    | Some ByClose => (length l + j = length L)%nat
    | Some ByLag => exists p, p ∈ polls /\ (length l + j + CHAT_CHANNEL_CAPACITY < length p.1)%nat
    | None => exists waits, length polls = (j + length waits)%nat /\ forall p, p ∈ waits -> p ∈ polls /\ (length p.1 <= length l + j)%nat
    end.
Proof.
  intros H1 H2 H3 Hw0 at_ Hsub Hkeep Hresp Hle HL Hpolls.
  destruct (after_grows t sees env k w0 n1 n2 H1 Hle L HL) as (l & Hl & Hpre). fold at_ in Hl.
  assert (Hb : backed (rt_master t) (rt_session t) (rt_turn t) (at_ n1)) by by apply (run_backed t sees (cut n1 env) k w0).
  assert (Hhead : exists rows, messages_after (rt_user t) (rt_master t) (rt_session t) cursor (re_fails renv (S rk) 3%nat)
      (rw_chat (re_between renv (S rk) (at_ n1))) = Ok rows /\ head = option_list first_event ++ omap replay_event rows /\ live = Some (length l)).
  { revert Hresp. unfold chat_stream_response, bind, access, rows_after, on_chat, access, ret.
    destruct (re_dies renv rk); [done|]. rewrite Hsub. destruct (re_dies renv (S rk)); [done|].
    destruct (messages_after _ _ _ _ _ _) as [rows|err]; [|by destruct err]. unfold subscribe. rewrite Hl. intros [= <- <- _].
    by exists rows. }
  destruct Hhead as (rows & Hrows & Ehead & ->). exists l. split_and!; [done|done|done| |].
  - intros e He Hq Hc. subst head. apply elem_of_app. right.
    destruct (Hb l e Hl He) as [Hq'|(row & cm & Hrow & Ho & Hev)]; [congruence|].
    apply live_replayed in Hev as [Hrep Hseq]. apply list_elem_of_omap. exists cm. split; [|done].
    eapply messages_after_row; [exact Hrows|by apply Hkeep|exact Ho|lia].
  - simpl. assert (Hll : (length l <= length L)%nat) by by apply prefix_length.
    pose proof (live_tail_spec L polls (length l) Hll) as H. destruct (live_tail polls (length l)) as [frames ending].
    destruct H as (j & -> & Ej & Hend).
    { eapply Forall_impl; [exact Hpolls|]. intros p [(n & Hn & Hp & Hf)|Hp]; [|by rewrite Hp].
      destruct (after_grows t sees env k w0 n n2 H1 Hn L HL) as (l' & Hl' & Hpre'). fold at_ in Hl'.
      assert (l' = p.1) as -> by congruence. split; [done|by rewrite Hf]. }
    exists j. rewrite length_take, length_drop in Ej. split_and!; [done|lia|].
    destruct ending as [[]|]; [done|done| |done].
    assert (E : length (take j (drop (length l) L)) = length (drop (length l) L)) by by rewrite Hend.
    rewrite length_take, length_drop in E. lia.
Qed.

(** ** Submissions *)

(** Nobody else is at work and the task lives on. *)
Definition alone (env : RunEnv) : Prop := (forall k w, re_between env k w = w) /\ (forall k, re_dies env k = false).

Lemma access_alone {A} (f : RunEnv -> nat -> RunWorld -> A * RunWorld) env k w : alone env ->
  access f env k w = (Some (fst (f env k w)), (S k, snd (f env k w))).
Proof. intros [Hb Hd]. unfold access. rewrite Hd, Hb. by destruct (f env k w). Qed.

Lemma stream_alone u m s first cursor t env k w : alone env ->
  exists r k', chat_stream_response u m s first cursor t env k w = (Some r, (k', w)) /\
    match r with RStream head _ => exists rest, head = option_list first ++ rest | RError _ _ _ => True | _ => False end.
Proof.
  intros Ha. unfold chat_stream_response, bind, rows_after, on_chat.
  destruct t as [t|]; unfold ret; rewrite ?(access_alone _ _ _ _ Ha); cbn [fst snd]; (destruct (messages_after _ _ _ _ _ _) as [rows|[]];
    [eexists _, _; split; [by destruct w|simpl; eauto]|eexists _, _; split; [by destruct w|done]..]).
Qed.

Definition turn_call (u : Uuid) (m : MasterKey) (s : Uuid) (message : str) (env : RunEnv) (k : nat) (c : Chat) :=
  create_turn u m s message (re_uuid env k) (re_now env k) (re_now env k) (re_nonce env k) (negb (re_fails env k 2%nat)) c.
Definition session_call (u : Uuid) (m : MasterKey) (message : str) (env : RunEnv) (k : nat) (c : Chat) :=
  create_session u m (Fallback.derive_title message) (re_uuid env k) (re_now env k) (re_nonce env k) (negb (re_fails env k 2%nat)) c.

(** The turn's tables, its run and its channel *)
Definition submitted_to (u : Uuid) (m : MasterKey) (s : Uuid) (turn : TurnRow) (c : Chat) (w w' : RunWorld) : Prop :=
  rw_chat w' = c /\ rw_tasks w' = rw_tasks w ++ [mkRunTurn u m s (tu_id turn) (tu_user_seq turn) false] /\
  rw_runs w' = <[tu_id turn := []]> (rw_runs w).

Lemma create_turn_err u m s x t now ts n b c e c' : create_turn u m s x t now ts n b c = (Err e, c') -> c' = c.
Proof. intros E. apply create_turn_turns in E as [?|(? & [=] & _)]. done. Qed.
Lemma create_session_err u m x id now n b c e c' : create_session u m x id now n b c = (Err e, c') -> c' = c.
Proof. intros E. apply create_session_is in E as [[? _]|(? & [=] & _)]. done. Qed.

Lemma submit_alone u m s first message env k w : alone env ->
  exists r k' w', submit_turn u m s first message env k w = (Some r, (k', w')) /\
    match fst (turn_call u m s message env k (rw_chat w)) with
    | Err e => w' = w /\ r = chat_error_response e
    | Ok turn => submitted_to u m s turn (snd (turn_call u m s message env k (rw_chat w))) w w' /\
                 match r with RStream head _ => exists rest, head = option_list first ++ rest | RError _ _ _ => True | _ => False end
    end.
Proof.
  intros Ha. unfold submit_turn, bind, on_chat. rewrite (access_alone _ _ _ _ Ha). fold (turn_call u m s message env k (rw_chat w)).
  destruct (turn_call u m s message env k (rw_chat w)) as [[turn|e] c] eqn:E; cbn [fst snd].
  - unfold spawn_chat_run. rewrite !(access_alone _ _ _ _ Ha). cbn [fst snd].
    edestruct (stream_alone u m s first (tu_user_seq turn) (Some (tu_id turn)) env) as (r & k' & Er & Hr); [exact Ha|].
    rewrite Er. eexists _, _, _. split; [done|]. split; [|exact Hr]. by split_and!.
  - apply create_turn_err in E as ->. unfold ret. eexists _, _, _. split; [done|]. split; [by destruct w|done].
Qed.

(** What a submission leaves behind, without interference: refused (an
    empty message, a full queue, no key, the tables' refusal) it changes
    nothing and says why; otherwise its turn is in the tables, its run is
    spawned and its channel registered.  The draft endpoint is refused the
    same way; its session stays when only the turn fails, and its stream
    begins with the session. *)
Theorem submission u stored depth key s message env k w : alone env ->
  let refusal := if bool_decide (trim message = []) then Some (error_response 400 (lit "empty message"))
                 else if queue_full stored depth then Some queue_full_response
                 else match key with None => Some internal_error | Some _ => None end in
  (let '(r, (_, w')) := api_chat_submit_session u stored depth key s message env k w in
   match refusal with
   | Some e => r = Some e /\ w' = w
   | None => exists m, key = Some m /\
       match fst (turn_call u m s message env k (rw_chat w)) with
       | Err e => r = Some (chat_error_response e) /\ w' = w
       | Ok turn => submitted_to u m s turn (snd (turn_call u m s message env k (rw_chat w))) w w'
       end
   end) /\
  (let '(r, (_, w')) := api_chat_create_session u stored depth key message env k w in
   match refusal with
   | Some e => r = Some e /\ w' = w
   | None => exists m, key = Some m /\
       let '(made, c) := session_call u m message env k (rw_chat w) in
       match made with
       | Err e => r = Some (chat_error_response e) /\ w' = w
       | Ok id =>
           match fst (turn_call u m id message env (S k) c) with
           | Err e => r = Some (chat_error_response e) /\ w' = mkRunWorld c (rw_runs w) (rw_tasks w)
           | Ok turn => submitted_to u m id turn (snd (turn_call u m id message env (S k) c)) w w' /\
               match r with Some (RStream head _) => List.hd_error head = Some (mkEvent (SseSession id) 0) | Some (RError _ _ _) => True | _ => False end
           end
       end
   end).
Proof.
  intros Ha refusal. subst refusal. unfold api_chat_submit_session, api_chat_create_session.
  destruct (bool_decide (trim message = [])); [done|]. destruct (queue_full stored depth); [done|]. destruct key as [m|]; [|done].
  split.
  - destruct (submit_alone u m s None message env k w Ha) as (r & k' & w' & -> & H). exists m. split; [done|].
    destruct (fst (turn_call u m s message env k (rw_chat w))); [apply H|]. destruct H as [-> ->]. done.
  - unfold bind, on_chat. rewrite (access_alone _ _ _ _ Ha). fold (session_call u m message env k (rw_chat w)).
    destruct (session_call u m message env k (rw_chat w)) as [[id|e] c] eqn:E; cbn [fst snd].
    + destruct (submit_alone u m id (Some (mkEvent (SseSession id) 0)) message env (S k) (mkRunWorld c (rw_runs w) (rw_tasks w)) Ha)
        as (r & k' & w' & -> & H). exists m. split; [done|]. rewrite E. simpl in H.
      destruct (fst (turn_call u m id message env (S k) c)); [|destruct H as [-> ->]; done].
      destruct H as [Hs Hr]. split; [exact Hs|]. destruct r; try done. by destruct Hr as (rest & ->).
    + exists m. split; [done|]. rewrite E. apply create_session_err in E as ->. split; [done|by destruct w].
Qed.

(** ** The resume pass *)
Section Pass.
Context (sees : PassSees) (env : RunEnv) (Ha : alone env) (w0 : RunWorld).

(** The run that a turn of the supply gets, if its user's gates are open *)
Definition run_of (p : Uuid * TurnRow) : option RunTurn :=
  m ← ps_key sees p.1;
  if ps_user sees p.1 then Some (mkRunTurn p.1 m (tu_session p.2) (tu_id p.2) (tu_user_seq p.2) true) else None.

(** The runs spawned so far, in the order of the supply; a running turn ran
    before the pass or has its run and its channel, [but] for the one just
    claimed. *)
Definition carried (done : list (Uuid * TurnRow)) (but : option Uuid) (w : RunWorld) : Prop :=
  turns_inv (turns (rw_chat w)) /\
  exists new, rw_tasks w = rw_tasks w0 ++ new /\ new `sublist_of` omap run_of done /\
    forall r, r ∈ turns (rw_chat w) -> tu_status r = Running ->
      but = Some (tu_id r) \/ (exists r0, r0 ∈ turns (rw_chat w0) /\ tu_id r0 = tu_id r /\ tu_status r0 = Running) \/
      (exists task, task ∈ new /\ rt_turn task = tu_id r) /\ is_Some (rw_runs w !! tu_id r).

Abbreviation anything := (fun _ : RunWorld => True).

Lemma h_alone {A} P (f : RunEnv -> nat -> RunWorld -> A * RunWorld) Q :
  (forall k w, P w -> Q (fst (f env k w)) (snd (f env k w))) -> hoare env P (access f) Q anything.
Proof. intros H. apply h_access; [|done|done]. intros k w Hw. by rewrite (proj1 Ha). Qed.

Lemma carried_more done but l w : carried done but w -> carried (done ++ l) but w.
Proof.
  intros (Hi & new & E & Hs & H). split; [done|]. exists new. split_and!; [done| |done]. rewrite omap_app.
  etransitivity; [exact Hs|]. apply sublist_inserts_r. done.
Qed.

Lemma h_try_each {A} (f : A -> R (result unit ChatError)) (g : A -> list (Uuid * TurnRow)) l :
  (forall x done, hoare env (carried done None) (f x) (fun _ => carried (done ++ g x) None) anything) ->
  forall done, hoare env (carried done None) (try_each f l) (fun _ => carried (done ++ concat (g <$> l)) None) anything.
Proof.
  intros Hf. induction l as [|x l IH]; intros done; simpl.
  - rewrite app_nil_r. apply (h_ret env (Ok tt) (fun _ => carried done None)).
  - eapply h_bind; [apply Hf|]. intros [u|e]; cbv beta.
    + rewrite app_assoc. apply IH.
    + intros k w Hw. rewrite app_assoc. by apply carried_more.
Qed.

(** A claim changes the one turn. *)
Lemma carried_claim (f : TurnRow -> TurnRow) cond u s tid fails done c runs tasks :
  (forall t, turn_wf t -> cond t = true -> may_become t (f t) /\ turn_wf (f t)) ->
  carried done None (mkRunWorld c runs tasks) ->
  let '(r, c') := claim f cond u s tid fails c in
  carried done (match r with Ok true => Some tid | _ => None end) (mkRunWorld c' runs tasks).
Proof.
  intros Hm (Hi & new & E & Hs & H). simpl in *. destruct (claim_turns f cond u s tid fails c Hi Hm) as [Hmv Ec]. rewrite Ec.
  destruct fails; [by split; [|exists new]|]. split; [by apply inv_moves|]. exists new. split_and!; [done..|].
  simpl. intros r' (r & -> & Hr)%list_elem_of_fmap Hrun.
  destruct (existsb _ (turns c)) eqn:Ex.
  - destruct (_ && owned u s c) eqn:Eh; [|destruct (H r Hr Hrun) as [?|?]; [done|by right]].
    left. f_equal. apply andb_prop in Eh as [[[Eid%id_eqb_eq _]%andb_prop Hc]%andb_prop _].
    destruct Hi as (_ & Hw & _). rewrite Forall_forall in Hw. destruct (Hm r (Hw r Hr) Hc) as [(Ei & _) _]. by rewrite Ei.
  - rewrite existsb_false in Ex. specialize (Ex r Hr). simpl in Ex. rewrite Ex in Hrun |- *. by apply H.
Qed.

Lemma h_resume_turn u m turn done : run_of (u, turn) = Some (mkRunTurn u m (tu_session turn) (tu_id turn) (tu_user_seq turn) true) ->
  hoare env (carried done None) (resume_turn sees u m turn) (fun _ => carried (done ++ [(u, turn)]) None) anything.
Proof.
  intros Hrun. unfold resume_turn. eapply (h_bind _ _ _ _ (fun _ => carried done None)); [apply h_alone; done|].
  intros permit. destruct permit; simpl; [|intros k w Hw; by apply carried_more].
  eapply (h_bind _ _ _ _ (fun r => carried done (match r with Ok true => Some (tu_id turn) | _ => None end))).
  - apply h_alone. intros k [c runs tasks] Hw. simpl.
    destruct (status_is WaitingBackend turn).
    + pose proof (carried_claim (claim_waiting_row (re_now env k)) (status_is WaitingBackend) u (tu_session turn) (tu_id turn)
        (re_fails env k 0%nat) done c runs tasks (fun _ => weather_moves _ _) Hw) as H. unfold claim_waiting. by destruct (claim _ _ _ _ _ _ _).
    + pose proof (carried_claim (claim_resumable_row (re_now env k)) resumable u (tu_session turn) (tu_id turn)
        (re_fails env k 0%nat) done c runs tasks (fun _ => resume_moves _ _) Hw) as H. unfold claim_resumable. by destruct (claim _ _ _ _ _ _ _).
  - intros [[]|e]; [|intros k w Hw; by apply carried_more..].
    eapply (h_bind _ _ _ _ (fun _ => carried (done ++ [(u, turn)]) None)); [|intros a k w Hw; exact Hw].
    apply h_alone. intros k [c runs tasks] (Hi & new & E & Hs & H). simpl in *. split; [done|].
    eexists (new ++ [_]). split_and!; [by rewrite E, <- app_assoc| |].
    + rewrite omap_app. apply sublist_app; [done|]. csimpl. by rewrite Hrun.
    + intros r Hr Hrr. simpl. unfold register. destruct (H r Hr Hrr) as [[= Et]|[Hold|[(task & Ht & Et) Hl]]].
      * right. right. split; [|rewrite Et; rewrite lookup_insert_eq; eauto]. eexists. split; [apply elem_of_app; right; by apply list_elem_of_singleton|done].
      * right. by left.
      * right. right. split; [exists task; split; [apply elem_of_app; by left|done]|].
        destruct (decide (tu_id turn = tu_id r)) as [->|Hne]; [rewrite lookup_insert_eq; eauto|by rewrite lookup_insert_ne].
Qed.

Lemma h_resume_user g done :
  hoare env (carried done None) (resume_user sees g) (fun _ => carried (done ++ (pair g.1 <$> g.2)) None) anything.
Proof.
  unfold resume_user. destruct (ps_key sees g.1) as [m|] eqn:Ek; [|intros k w Hw; by apply carried_more].
  destruct (ps_user sees g.1) eqn:Eu; [|intros k w Hw; by apply carried_more].
  eapply h_weaken; [apply (h_try_each (resume_turn sees g.1 m) (fun t => [(g.1, t)]))|done| |done].
  - intros turn d. apply h_resume_turn. unfold run_of. simpl. by rewrite Ek, Eu.
  - intros a w. simpl. enough (concat ((fun t => [(g.1, t)]) <$> g.2) = pair g.1 <$> g.2) as -> by done.
    induction g.2 as [|t l IH]; [done|]. cbn. by rewrite <- IH.
Qed.
End Pass.

(** What a pass works through: per user, oldest first *)
Definition supply (c : Chat) : list (Uuid * list TurnRow) :=
  match resumable_turns false c, waiting_turns false c with
  | Ok crashed, Ok waiting => by_user (sort_by (fun a b => by_text tu_created_at a.2 b.2) (crashed ++ waiting))
  | _, _ => []
  end.

Definition supply_turns (c : Chat) : list (Uuid * TurnRow) := concat ((fun g : Uuid * list TurnRow => pair g.1 <$> g.2) <$> supply c).
Definition supply_users (c : Chat) : list Uuid := fst <$> supply c.
(** The runs a pass may spawn *)
Definition eligible (sees : PassSees) (c : Chat) : list RunTurn := omap (run_of sees) (supply_turns c).

Lemma supply_sorted c g : g ∈ supply c -> StronglySorted (fun a b => str_cmp (tu_created_at a) (tu_created_at b) <> Gt) g.2.
Proof.
  unfold supply. destruct (resumable_turns false c) as [crashed|]; [|by intros ?%not_elem_of_nil].
  destruct (waiting_turns false c) as [waiting|]; [|by intros ?%not_elem_of_nil].
  unfold by_user. intros (u & -> & _)%list_elem_of_fmap. simpl.
  assert (Hs : StronglySorted (fun a b : Uuid * TurnRow => str_cmp (tu_created_at a.2) (tu_created_at b.2) <> Gt)
    (sort_by (fun a b => by_text tu_created_at a.2 b.2) (crashed ++ waiting))).
  { apply (sort_by_sorted (fun a b : Uuid * TurnRow => by_text tu_created_at a.2 b.2) (fun _ => True)); [|by apply Forall_true].
    destruct (by_text_total tu_created_at) as [H1 H2]. split; [intros x y _ _; by apply (H1 x.2 y.2)|intros x y z _ _ _ Hxy Hyz; by apply (H2 x.2 y.2 z.2)]. }
  revert Hs. generalize (sort_by (fun a b : Uuid * TurnRow => by_text tu_created_at a.2 b.2) (crashed ++ waiting)). intros l Hs.
  apply (retain_sorted _ (fun p => id_eqb p.1 u)) in Hs.
  induction Hs as [|p q Hq IH Hp]; [constructor|]. cbn. constructor; [done|]. by apply Forall_fmap.
Qed.

Lemma supply_users_once c : NoDup (supply_users c).
Proof.
  unfold supply_users, supply. destruct (resumable_turns false c); [|constructor]. destruct (waiting_turns false c); [|constructor].
  unfold by_user. rewrite <- list_fmap_compose. simpl. rewrite list_fmap_id, (sort_by_perm _ _). apply NoDup_remove_dups.
Qed.

(** A pass of the resume worker, without interference but with any
    failures and gates: while the backend is down or not configured it does
    nothing.  The runs it spawns are of turns of the supply whose users'
    gates are open, user by user and oldest first, each at most once; and
    every turn that is running afterwards ran before or has its run and its
    live channel: no claimed turn is left without a run. *)
Theorem resume_pass sees env k w : alone env -> turns_inv (turns (rw_chat w)) ->
  let w' := snd (snd (run_pending sees env k w)) in
  (ps_health sees = Red \/ ps_health sees = Disabled -> w' = w) /\
  (exists new, rw_tasks w' = rw_tasks w ++ new /\
    new `sublist_of` eligible sees (rw_chat w) /\
    forall r, r ∈ turns (rw_chat w') -> tu_status r = Running ->
      (exists r0, r0 ∈ turns (rw_chat w) /\ tu_id r0 = tu_id r /\ tu_status r0 = Running) \/
      (exists task, task ∈ new /\ rt_turn task = tu_id r) /\ is_Some (rw_runs w' !! tu_id r)) /\
  NoDup (supply_users (rw_chat w)) /\
  (forall g, g ∈ supply (rw_chat w) -> StronglySorted (fun a b => str_cmp (tu_created_at a) (tu_created_at b) <> Gt) g.2).
Proof.
  intros Ha Hi w'. split_and!; [| |apply supply_users_once|apply supply_sorted].
  - intros Hh. subst w'. unfold run_pending. destruct Hh as [E|E]; rewrite E; reflexivity.
  - assert (H0 : carried sees w [] None w).
    { split; [done|]. exists []. split_and!; [by rewrite app_nil_r|done|]. intros r Hr Hrun. right. left. by exists r. }
    set (all := supply_turns (rw_chat w)).
    assert (H : match run_pending sees env k w with (_, (_, w')) => carried sees w all None w' end).
    { unfold run_pending. destruct (_ || _); [simpl; by apply (carried_more sees w [])|]. unfold bind, on_chat.
      rewrite (access_alone _ _ _ _ Ha). cbn [fst snd]. unfold resumable_turns at 1, turns_with_owner at 1.
      destruct (re_fails env k 3%nat) eqn:E1; [simpl; destruct w; by apply (carried_more sees _ [])|].
      rewrite (access_alone _ _ _ _ Ha). cbn [fst snd rw_chat rw_runs rw_tasks]. unfold waiting_turns at 1, turns_with_owner at 1.
      destruct (re_fails env (S k) 3%nat) eqn:E2; [simpl; destruct w; by apply (carried_more sees _ [])|].
      assert (Ew : mkRunWorld (rw_chat w) (rw_runs w) (rw_tasks w) = w) by by destruct w. rewrite Ew.
      pose proof (h_try_each sees env w (resume_user sees) (fun g : Uuid * list TurnRow => pair g.1 <$> g.2) (supply (rw_chat w))
        (h_resume_user sees env Ha w) [] (S (S k)) w H0) as H. unfold supply, resumable_turns, waiting_turns, turns_with_owner in H.
      destruct (try_each _ _ _ _ _) as [[r|] [k' w2]]; [exact H|]. destruct H as [[k0 Hd] _]. by rewrite (proj2 Ha) in Hd. }
    subst w'. destruct (run_pending sees env k w) as [r [k' w']]. destruct H as (_ & new & E & Hs & H). exists new. split_and!; [done|done|].
    intros r' Hr Hrun. by destruct (H r' Hr Hrun) as [?|?].
Qed.
End Api.

(** ** Witnesses *)
Module RunDemo.
Import ChatDemo.

(** A length, a colon, the two texts *)
Definition demo_json (name detail : str) : str := replicate (length name) 97%N ++ [58%N] ++ name ++ detail.
Fixpoint demo_cut (n : nat) (s : str) : option (option str * option str) :=
  match s with
  | [] => None
  | c :: s => if (c =? 58)%N then Some (Some (take n s), Some (drop n s)) else demo_cut (S n) s
  end.
Lemma demo_cut_json k name detail : demo_cut k (replicate (length name) 97%N ++ [58%N] ++ name ++ detail) =
  Some (Some (take (length name + k) (name ++ detail)), Some (drop (length name + k) (name ++ detail))).
Proof.
  generalize (name ++ detail). intros s. revert k. induction (length name) as [|n IH]; intros k; [done|]. simpl. rewrite IH.
  by rewrite Nat.add_succ_r.
Qed.
Lemma demo_json_roundtrip name detail : demo_cut 0 (demo_json name detail) = Some (Some name, Some detail).
Proof. unfold demo_json. rewrite demo_cut_json, Nat.add_0_r. by rewrite take_app_length, drop_app_length. Qed.
Lemma demo_json_text name detail : Forall (fun c => is_scalar c = true) name -> Forall (fun c => is_scalar c = true) detail ->
  Forall (fun c => is_scalar c = true) (demo_json name detail).
Proof.
  intros Hn Hd. unfold demo_json. apply Forall_app. split; [by apply Forall_replicate|]. apply Forall_app. split; [by repeat constructor|].
  by apply Forall_app.
Qed.
Definition demo_tool_json : ToolJson :=
  {| tool_json := demo_json; tool_parse := demo_cut 0; tool_roundtrip := demo_json_roundtrip; tool_text := demo_json_text |}.
#[local] Existing Instances demo_aead demo_kdf wide_hex char_uuid demo_tool_json.

(** Alice's session 5 with its running turn 7, live *)
Definition asked : Chat := run_ops (take 2 day) no_chats.
Definition asked_world : RunWorld := mkRunWorld asked {[7%N := []]} [].
Definition turn7 : RunTurn := mkRunTurn alice key 5%N 7%N 1 false.
Definition env_with (dies : nat -> bool) (between : nat -> RunWorld -> RunWorld) (h : BackendState) : RunEnv :=
  mkRunEnv between dies (fun _ _ => false) (fun k => at_ (N.of_nat (20 + k))) (fun _ => demo_nonce) (fun k => N.of_nat (100 + k)) (fun _ => h).
Definition calm : RunEnv := env_with (fun _ => false) (fun _ w => w) Green.
Definition answers : RunSees :=
  mkRunSees [] (Ok tt) (fun _ => ([EvTool (lit "search") (lit "why"); EvDone (lit "so")], Ok (lit "so"))).

Lemma asked_running : turn_at alice 5%N 7%N Running asked.
Proof.
  split_and!.
  - unfold asked. apply run_inv; [repeat constructor|apply no_chats_inv].
  - vm_compute. apply NoDup_singleton.
  - vm_compute. reflexivity.
  - assert (E : (fun r => (tu_id r, tu_session r, tu_status r)) <$> turns asked = [(7%N, 5%N, Running)]) by (vm_compute; reflexivity).
    destruct (turns asked) as [|r []] eqn:Et; try discriminate E. injection E as E1 E2 E3. exists r. split_and!; [by left|done..].
Qed.
Lemma calm_elsewhere h dies : others_elsewhere turn7 (env_with dies (fun _ w => w) h).
Proof. intros k w. exists []. by split_and!. Qed.
Lemma calm_keep h dies : others_keep turn7 (env_with dies (fun _ w => w) h).
Proof. intros k w. split; [apply kept_refl|done]. Qed.
Lemma answers_text : says_text answers.
Proof. intros h. simpl. split; [repeat constructor|by repeat constructor]. Qed.

Lemma run_settles_witness :
  let w' := run_chat_turn turn7 answers calm 0 asked_world in
  rw_runs w' !! 7%N = None /\ (exists st, turn_at alice 5%N 7%N st (rw_chat w') /\ st <> Running) /\
  tu_status <$> turns (rw_chat w') = [Done].
Proof.
  intros w'.
  assert (Hl : is_Some (rw_runs asked_world !! rt_turn turn7)) by (exists []; vm_compute; reflexivity).
  destruct (run_settles turn7 answers calm 0 asked_world (calm_elsewhere _ _) asked_running Hl) as (H1 & st & H2 & H3).
  split_and!; [exact H1|exists st; split; [exact H2|]|vm_compute; reflexivity].
  destruct H3 as [(h & _ & _ & H3)|[(_ & _ & H3)|(_ & k & H3)]]; [exact H3|exact H3|discriminate H3].
Defined.

Definition some_rows : list ChatMessageRow :=
  [mkChatMessage 1 RoleUser (lit "a"); mkChatMessage 2 RoleError (lit "x"); mkChatMessage 3 RoleUser (lit "b");
   mkChatMessage 4 RoleTool (lit "t"); mkChatMessage 5 RoleAssistant (lit "c"); mkChatMessage 6 RoleUser (lit "d"); mkChatMessage 7 RoleUser (lit "e")].
Lemma history_recent_pairs_witness :
  history_of 6 some_rows = [CtUser (lit "b"); CtAssistant (lit "c"); CtUser (lit "d")] /\ (length (history_of 6 some_rows) <= 41)%nat.
Proof.
  assert (Hs : StronglySorted (fun a b => cm_seq a < cm_seq b) some_rows) by (repeat constructor).
  destruct (history_recent_pairs 6 some_rows Hs) as (E & H & _). split; [rewrite E; reflexivity|exact H].
Defined.

(** The stream is opened before the run stores its answer: it shows the tool
    row from the transcript, then the answer live. *)
Definition tool_event : ChatSseEvent := mkEvent (SseTool (lit "search") (lit "why")) 2.
Definition done_event : ChatSseEvent := mkEvent (SseDone (lit "so")) 3.
Definition demo_polls : list (list ChatSseEvent * bool) := [([tool_event], false); ([tool_event; done_event], false)].
Definition demo_stream : option Response * (nat * RunWorld) :=
  chat_stream_response alice key 5%N None 1 (Some 7%N) calm 0%nat (after turn7 answers calm 0 asked_world 3).
Lemma stream_loses_nothing_witness :
  exists head live, fst demo_stream = Some (RStream head live) /\ tool_event ∈ head /\
    stream_body head live demo_polls = ([tool_event; done_event], Some ByTerminal) /\
    stream_body head live [(replicate 258 tool_event, false)] = ([tool_event], Some ByLag).
Proof.
  assert (Hch : rw_runs (after turn7 answers calm 0 asked_world 3) !! 7%N = Some [tool_event]) by (vm_compute; reflexivity).
  assert (HL : rw_runs (after turn7 answers calm 0 asked_world 6) !! 7%N = Some [tool_event; done_event]) by (vm_compute; reflexivity).
  assert (Hp : Forall (fun p => (exists n, n <= 6 /\ rw_runs (after turn7 answers calm 0 asked_world n) !! 7%N = Some p.1 /\ p.2 = false) \/
      p.1 = [tool_event; done_event])%nat demo_polls)
    by (apply Forall_cons; split; [left; exists 3%nat|apply Forall_singleton; left; exists 6%nat]; (split; [lia|split; [assumption|reflexivity]])).
  assert (Ho : match fst demo_stream with Some (RStream head live) => head = [tool_event] /\ live = Some 1%nat | _ => False end)
    by (vm_compute; split; reflexivity).
  pose proof (eq_refl demo_stream) as Eo. unfold demo_stream at 2 in Eo.
  destruct demo_stream as [[[]|] w']; try destruct Ho. exists head, live. split; [reflexivity|]. symmetry in Eo.
  destruct (stream_loses_nothing turn7 answers calm 0 asked_world calm 0 None 1 head live w' 3 6 [tool_event; done_event] demo_polls
    (calm_keep _ _) answers_text (fun _ => eq_refl) eq_refl eq_refl (fun r H => H) Eo ltac:(lia) HL
    Hp) as (l & Hl & _ & _ & Hin & _).
  split; [|subst; split; vm_compute; reflexivity]. apply (Hin tool_event); [|reflexivity|reflexivity].
  change (rt_turn turn7) with 7%N in Hl. rewrite Hch in Hl. injection Hl as <-. by left.
Defined.

Lemma submission_witness :
  let '(r, (_, w')) := api_chat_submit_session alice None 3 (Some key) 5%N (lit "next") calm 0%nat (mkRunWorld (run_ops (take 1 day) no_chats) ∅ []) in
  length (rw_tasks w') = 1%nat /\ is_Some (rw_runs w' !! 100%N).
Proof.
  pose proof (proj1 (submission alice None 3 (Some key) 5%N (lit "next") calm 0%nat (mkRunWorld (run_ops (take 1 day) no_chats) ∅ [])
    (conj (fun _ _ => eq_refl) (fun _ => eq_refl)))) as H.
  destruct (api_chat_submit_session _ _ _ _ _ _ _ _ _) as [r [k' w']].
  assert (E : bool_decide (trim (lit "next") = []) || queue_full None 3 = false) by (vm_compute; reflexivity).
  apply orb_false_elim in E as [E1 E2]. rewrite E1, E2 in H. destruct H as (m & [= <-] & H).
  assert (Ht : match fst (turn_call alice key 5%N (lit "next") calm 0 (run_ops (take 1 day) no_chats)) with Ok t => tu_id t = 100%N | _ => False end)
    by (vm_compute; reflexivity).
  simpl rw_chat in H. destruct (fst (turn_call _ _ _ _ _ _ _)) as [turn|]; [|destruct Ht]. destruct H as (_ & H1 & H2).
  rewrite H1, H2, Ht. split; [reflexivity|]. exists []. apply lookup_insert_eq.
Defined.

(** After a crash the sweep has interrupted turn 7. *)
Definition crashed : RunWorld := mkRunWorld (run_ops (take 2 day ++ [BootSweep (at_ 4) false]) no_chats) ∅ [].
Definition gates : PassSees := mkPassSees Green (fun u => if (u =? alice)%N then Some key else None) (fun _ => true) (fun _ => true).
Lemma resume_pass_witness :
  let w' := snd (snd (run_pending gates calm 0%nat crashed)) in
  (exists new, rw_tasks w' = rw_tasks crashed ++ new /\ new `sublist_of` eligible gates (rw_chat crashed)) /\
  rw_tasks w' = [mkRunTurn alice key 5%N 7%N 1 true].
Proof.
  intros w'. assert (Hi : turns_inv (turns (rw_chat crashed))) by (apply run_inv; [repeat constructor|apply no_chats_inv]).
  destruct (resume_pass gates calm 0 crashed (conj (fun _ _ => eq_refl) (fun _ => eq_refl)) Hi) as (_ & (new & H1 & H2 & _) & _).
  split; [exists new; split; [exact H1|exact H2]|vm_compute; reflexivity].
Defined.

(** A request that is dropped between the turn's row and the spawn leaves a
    running turn without a run. *)
Example dropped_submit_strands_turn :
  let '(r, (_, w')) := api_chat_submit_session alice None 3 (Some key) 5%N (lit "next")
    (env_with (fun k => bool_decide (k = 1%nat)) (fun _ w => w) Green) 0%nat (mkRunWorld (run_ops (take 1 day) no_chats) ∅ []) in
  r = None /\ tu_status <$> turns (rw_chat w') = [Running] /\ rw_tasks w' = [] /\ map_size (rw_runs w') = 0%nat.
Proof. vm_compute. repeat split. Qed.

(** A parked turn that the resume worker claims before the parking run has
    removed its channel: the new run's channel is removed. *)
Definition reclaim (w : RunWorld) : RunWorld :=
  mkRunWorld (apply_op (ClaimWaiting alice 5%N 7%N (at_ 9) false) (rw_chat w)) (register 7%N (rw_runs w)) (rw_tasks w).
Example park_removes_new_channel :
  let w' := run_chat_turn turn7 answers (env_with (fun _ => false) (fun k w => if bool_decide (k = 2%nat) then reclaim w else w) Red) 0 asked_world in
  tu_status <$> turns (rw_chat w') = [Running] /\ rw_runs w' !! 7%N = None.
Proof. vm_compute. repeat split. Qed.
(** And before its guard has looked: the guard ends the new run's turn. *)
Example guard_ends_new_run :
  let w' := run_chat_turn turn7 answers (env_with (fun _ => false) (fun k w => if bool_decide (k = 3%nat) then reclaim w else w) Red) 0 asked_world in
  tu_status <$> turns (rw_chat w') = [Failed] /\ rw_runs w' !! 7%N = None.
Proof. vm_compute. repeat split. Qed.
End RunDemo.
